(* ===== verification/_CoqProject ===== *)
-Q . S2P
Prelude.v
GcHeap.v
GcInvariant.v
GcCorrect.v
AssocList.v
IndexMap.v
IndexMapCorrect.v
HashMap.v
HashMapCorrect.v
Float64.v
Value.v
ValueCorrect.v
Descriptors.v
TypeUtilities.v
TypeUtilitiesCorrect.v
FloatIntegers.v
ComparisonCorrect.v
Unicode.v
Wtf8.v
Token.v
LexerStream.v
UnicodeProperty.v
ParseStream.v
Characters.v
StringLexer.v
Lexer.v
LexerLogic.v
LexerCorrect.v
LexerNext.v
LexerRoundtrip.v
StringNumber.v
StringNumberCorrect.v
Date.v
DateCorrect.v
DateText.v
DateTextCorrect.v
DatePrototype.v
DatePrototypeCorrect.v
RegExpInstruction.v
RegExpMatcher.v
RegExpMatcherCorrect.v
RegExpMatcherSafety.v
RegExpSyntax.v
RegExpLexical.v
RegExpLexicalCorrect.v
RegExpParser.v
RegExpParserCorrect.v
RegExpReparse.v
CodePointSet.v
RegExpCompiler.v
RegExpBuilderLogic.v
RegExpEmitCorrect.v
RegExpCompilerCorrect.v
RegExpPipeline.v
BytecodeOperand.v
Varint.v
VmInstruction.v
VmInstructionCorrect.v
SourceMap.v
Loc.v
ConstantTable.v
ConstantTableCorrect.v
BytecodeJumps.v
BytecodeJumpsCorrect.v
BytecodeJumpsRun.v
RegisterAllocator.v
ExceptionHandlers.v
VmStack.v
VmStackCorrect.v
Property.v
ArrayProperties.v
ArrayPropertiesCorrect.v
ObjectModel.v
DefineProperty.v
PrototypeChain.v
ObjectInvariants.v
Promise.v
PromiseCorrect.v
ArraySort.v
