(* ===== verification/Prelude.v ===== *)
(** * Verification of the SO2JS JavaScript engine

    SO2JS compiles JavaScript to bytecode and executes it on a register machine over a
    garbage-collected heap.  A source file goes through the lexer and parser ([src/so2js/parser]),
    the bytecode generator ([runtime/bytecode/generator.rs]) and the virtual machine
    ([runtime/bytecode/vm.rs]), which works on NaN-boxed values and heap items allocated by the
    crate [so2js_gc].  Regular expressions have a parser, a compiler and a backtracking matcher of
    their own ([runtime/regexp]).  Map, Set and the engine's internal tables use the hash maps of
    [runtime/collections].

    The library translates parts of that program into executable definitions and proves what they
    promise to each other.  Paths below are relative to [src/so2js] unless they name a crate.

    ** Conventions

    [outcome] is the result of Rust code: a value, a panic, undefined behaviour of unsafe code, or
    the end of the fuel of a loop.  A theorem that an operation returns states [Done], so it also
    states the absence of the other three.  Machine integers are [Z] with the wrap-around of
    release builds written out ([wrap32], [wrap64]); debug assertions are not checks of the code, but
    for the one in [tasks.rs], which is a parameter.
    Objects on the heap are named by addresses; the memory of the collector and of the stack are
    finite maps.  Code outside of the repository is a parameter: the closures that the machine
    reads, the sets of code points of [icu_collections] ([CodePointSets], a class of operations with
    laws) and its tables ([IcuData], [IcuLaws]).  JavaScript code and built-in functions that are
    called back are parameters that may throw and panic.

    The maps of [runtime/collections] hash a key with a hasher that they build anew in every call,
    and that the crate [hashbrown] may seed at random.  An operation therefore takes the hash
    functions it draws, one for each call ([draws], [Hashes]).  The contents of maps, arrays and
    objects are stated without hashes.  What needs an earlier key to be found again is stated for
    draws that agree with the hashes that placed it ([placed], [hm_reach], [finds]); what does not
    holds for all draws: insertion of new keys, length changes, listings, and that a lookup finds
    nothing but the right value.

    ** Garbage collector (crate [so2js_gc])

    - [GcHeap]: headers, gray queue, allocation, write barrier, incremental marking and sweeping.
    - [GcInvariant]: the tri-colour invariant and its preservation by every operation.
    - [GcCorrect]: a full collection frees exactly the unreachable objects; steps interleaved with
      a mutator that uses the barrier keep the reachable ones; [finish_gc] ends within a number of
      steps linear in the number of objects; no operation touches freed memory.  All of this is for
      mutators that do not allocate while the collector sweeps, where [alloc_while_sweeping_dangles]
      shows what goes wrong.

    ** Collections ([runtime/collections])

    - [AssocList]: the abstract map, a list of pairs in insertion order.
    - [IndexMap], [IndexMapCorrect]: [BsIndexMap] refines it, growth and live iterators included;
      with other hashes than before a stored key is missed or stored twice.
    - [HashMap], [HashMapCorrect]: [BsHashMap] refines a finite map, but for keys that are inserted
      again behind a deleted entry; the probe sequence visits every slot.

    ** Values and conversions ([runtime/value.rs], [type_utilities.rs], [heap_item_descriptor.rs])

    - [Float64], [FloatIntegers]: IEEE binary64 by bit patterns with their exact scaled value, its
      arithmetic, and the laws of that arithmetic on integers below 2^53.
    - [Value], [ValueCorrect]: the NaN boxing; constructors, tests and casts are inverse.
    - [Descriptors]: the kinds of heap items and the table of base descriptors.
    - [TypeUtilities], [TypeUtilitiesCorrect], [ComparisonCorrect]: numeric conversions with their
      exact mathematical result, comparisons, equality of collection keys, termination of loose
      equality.

    ** Lexer ([parser/lexer.rs], [token.rs])

    - [Unicode], [LexerStream]: code units, code points and the input streams
      ([common/unicode.rs], [string_iterators.rs], [parser/lexer_stream.rs]).
    - [Wtf8]: WTF-8 strings ([common/wtf_8.rs]); decoding inverts encoding.
    - [UnicodeProperty], [Characters]: names of Unicode properties and classes of characters, over
      the sets of ICU ([common/unicode_property.rs], [common/unicode.rs]).
    - [Token], [Lexer]: tokens, the state of the lexer and all of its methods in a monad with errors;
      [f64::from_str] is modelled for the texts that are passed to it, the crate num-bigint is a
      class with laws ([NumBigint], [NumBigintLaws]).
    - [LexerLogic]: weakest preconditions of the primitive methods and the tactics that apply them.
    - [LexerCorrect], [LexerNext]: every method returns, tokens are located at their text, numbers
      have the value of their digits, operators are the longest match, a source is lexed to its end
      or an error.  A panic needs one of three kinds of unfinished source, shown by examples.
    - [LexerRoundtrip]: lexing inverts printing.

    ** Regular expressions

    - [ParseStream]: what parsers use of the four streams, as a class with laws that each of them
      satisfies.
    - [RegExpLexical], [RegExpParser]: the parser ([parser/regexp_parser.rs]), the methods that only
      read the input and those that change the parser's state, with both parses of Annex B mode.
    - [RegExpLexicalCorrect], [RegExpParserCorrect], [RegExpReparse]: every method returns, what it
      returns is well-formed, and the second parse follows the first one, so that its lookups
      succeed.
    - [RegExpInstruction]: encoding of the RegExp bytecode and its round trip.
    - [RegExpMatcher], [RegExpMatcherCorrect], [RegExpMatcherSafety]: the matcher; its backtrack
      stack is an undo log, verified bytecode runs without undefined behaviour, and execution
      returns.
    - [RegExpSyntax], [CodePointSet], [RegExpCompiler]: syntax trees and the compiler.
    - [RegExpBuilderLogic], [RegExpEmitCorrect], [RegExpCompilerCorrect]: a weakest-precondition
      logic of the builder and the specification of every emitter: what it emits is well-formed and
      uses back references and lookbehinds only if the pattern does ([Features]).
    - [RegExpPipeline]: parser, compiler and matcher composed, from the text of a pattern to its
      matches.

    ** VM bytecode ([runtime/bytecode])

    - [BytecodeOperand], [Varint], [VmInstruction], [VmInstructionCorrect]: widths, operands, the
      instruction set, the writer and the iterator; disassembly inverts assembly.
    - [SourceMap], [Loc]: positions of throwing instructions, and lines and columns of positions
      ([parser/loc.rs]) against a walk over the text.
    - [ConstantTable], [ConstantTableCorrect]: every index that the builder hands out denotes its
      constant, or [undefined] in the two cases that [denoted] spells out.
    - [BytecodeJumps], [BytecodeJumpsCorrect], [BytecodeJumpsRun]: basic blocks and jump patching
      of the generator composed with fetch, decode and jump of the machine: every jump reaches its
      block.
    - [RegisterAllocator]: live temporaries are distinct registers of the frame.
    - [ExceptionHandlers]: handler tables; the innermost covering handler is found.
    - [VmStack], [VmStackCorrect]: frames, calls, returns and unwinding refine a list of frames.

    ** Objects ([runtime/object_value.rs], [ordinary_object.rs], [array_properties.rs])

    - [Property]: property flags, properties and property descriptors.
    - [ArrayProperties], [ArrayPropertiesCorrect]: dense and sparse storage of indexed properties
      refines one finite map from indices to properties, conversions and length changes included.
    - [ObjectModel]: objects on a heap with named and indexed storage, and the
      internal methods of ordinary objects.
    - [DefineProperty]: validating and applying a descriptor refines ECMA-262's
      [OrdinaryDefineOwnProperty] on the abstract view of an object.
    - [PrototypeChain], [ObjectInvariants]: changing prototypes keeps the chains finite, lookups
      walk them, and every internal method keeps the essential invariants.

    ** Promises and tasks ([runtime/promise_object.rs], [tasks.rs])

    - [Promise], [PromiseCorrect]: promises, their reactions, the settle functions and the task
      queue.  Each reaction gets one task, in order of registration; a settled promise never changes;
      a panic comes from the code that is called.

    ** Sorting ([runtime/intrinsics/array_prototype.rs])

    - [ArraySort]: the merge sort with an effectful comparison, and the order of
      elements of [Array.prototype.sort].

    ** Strings as numbers and dates ([runtime/string_parsing.rs], [runtime/intrinsics/date_*.rs])

    - [StringLexer]: the lexer of code units that the parsers share.
    - [StringNumber], [StringNumberCorrect]: strings as numbers, bigints and array indices; a string is
      a number exactly when it is in the grammar of string numeric literals, with the value it has there,
      and an array index exactly when it is the canonical text of one.  Of bigints only the translation.
    - [Date], [DateCorrect]: the functions on time values, in floating-point arithmetic; the
      proleptic Gregorian calendar counted day by day, and the proof that the fields of every time value
      are those of the calendar and make the time value again.
    - [DateText], [DateTextCorrect]: the texts of dates and [Date.parse]; parsing inverts printing, but
      for two month names that the parser rejects.
    - [DatePrototype], [DatePrototypeCorrect]: the constructor and all methods over a world of date
      objects; each returns or throws, and keeps every date at NaN or a time value in range, but for
      [new Date()], which stores what the clock of the embedder gives.

    ** Fuel and bounds

    Loops that are not structural take fuel, and the theorems fix an amount that is enough: a chain
    or a probe sequence is no longer than the capacity of its map; an iterator over bytes consumes
    at least one byte per step, so the length plus one is enough; a binary search halves an interval
    of the length of the array; a prototype chain visits each object of the heap at most once; the
    merge sort recurses on shorter lists; the task loop runs as many tasks as are started; a varint
    of a [usize] has at most ten bytes; unwinding visits each frame once; a loop of the RegExp
    parser consumes input in each round, and each level of nested groups or classes consumes its
    bracket; a loop of the lexer consumes a byte in each round but the last.
    For the collector and the matcher the theorems state a measure of the state that bounds the
    steps.  The stack depth limit is that of release builds.

    ** Not modelled

    The parser, the semantic analysis and the part of the generator that walks the syntax tree: they
    need the some two hundred node types of the tree.  The instruction handlers that call objects
    and built-ins, most built-ins, modules and generators: they re-enter JavaScript code.  Printing
    of bytecode and errors, allocation failures of the Rust allocator, and everything that is I/O,
    configuration, generated data or build-time code.

    ** Plan

    Next are strings with ropes and interning, the combinators of promises, and the instruction handlers
    over the objects that are modelled. *)
From Stdlib Require Export ZArith Lia.
From stdpp Require Export prelude gmap sorting.

#[global] Open Scope Z_scope.

(** ** Outcomes of Rust code

    Safe Rust either returns or panics; the unsafe code of the engine can also have undefined
    behaviour (a dereference of freed memory, an unchecked read out of range).  Loops that are not
    structurally bounded take fuel, and running out of it is an outcome of its own, so that
    [Done] always means that the code returned. *)
Inductive outcome (A : Type) : Type :=
| Done (a : A)
| Panicked
| Faulted
| OutOfFuel.
Arguments Done {A} a.
Arguments Panicked {A}.
Arguments Faulted {A}.
Arguments OutOfFuel {A}.

#[global] Instance outcome_ret : MRet outcome := fun A a => Done a.
#[global] Instance outcome_bind : MBind outcome := fun A B f o =>
  match o with
  | Done a => f a
  | Panicked => Panicked
  | Faulted => Faulted
  | OutOfFuel => OutOfFuel
  end.

(** An option read as "undefined behaviour when absent" and as "panic when absent". *)
Definition deref {A} (o : option A) : outcome A :=
  match o with Some a => Done a | None => Faulted end.
Definition unwrap {A} (o : option A) : outcome A :=
  match o with Some a => Done a | None => Panicked end.

Lemma bind_done {A B} (f : A -> outcome B) (o : outcome A) (b : B) :
  (o ≫= f) = Done b <-> exists a, o = Done a /\ f a = Done b.
Proof. destruct o; cbn; naive_solver. Qed.

Lemma deref_done {A} (o : option A) (a : A) : deref o = Done a <-> o = Some a.
Proof. destruct o; cbn; naive_solver. Qed.

Lemma unwrap_done {A} (o : option A) (a : A) : unwrap o = Done a <-> o = Some a.
Proof. destruct o; cbn; naive_solver. Qed.

(** ** Machine integers *)

Definition u32_max : Z := 2 ^ 32 - 1.
Definition usize_max : Z := 2 ^ 64 - 1.
Definition isize_max : Z := 2 ^ 63 - 1.

(** Release-mode arithmetic on [usize]/[u64] and [u32]: the result modulo the width. *)
Definition wrap64 (z : Z) : Z := z mod 2 ^ 64.
Definition wrap32 (z : Z) : Z := z mod 2 ^ 32.

Lemma wrap64_small z : 0 <= z <= usize_max -> wrap64 z = z.
Proof. unfold wrap64, usize_max. intros. apply Z.mod_small. lia. Qed.

Lemma wrap32_small z : 0 <= z <= u32_max -> wrap32 z = z.
Proof. unfold wrap32, u32_max. intros. apply Z.mod_small. lia. Qed.

(** Reduction of machine arithmetic whose result fits. *)
Create HintDb machine.
Create Rewrite HintDb machine.
#[export] Hint Rewrite wrap64_small wrap32_small using (unfold usize_max, u32_max in *; lia) : machine.
#[export] Hint Resolve wrap64_small wrap32_small : machine.

(** Sequences of outcomes: inversion of [Done] results. *)
Ltac inv_done :=
  repeat match goal with
    | H : (_ ≫= _) = Done _ |- _ => apply bind_done in H as (? & ? & H)
    | H : deref _ = Done _ |- _ => apply deref_done in H
    | H : unwrap _ = Done _ |- _ => apply unwrap_done in H
    | H : Done _ = Done _ |- _ => injection H as H
    | H : Panicked = Done _ |- _ => discriminate H
    | H : Faulted = Done _ |- _ => discriminate H
    | H : OutOfFuel = Done _ |- _ => discriminate H
    end.

(** ** Lists *)

Lemma filter_ext_in {A} (P Q : A -> Prop) `{!forall x, Decision (P x), !forall x, Decision (Q x)}
    (l : list A) :
  (forall x, x ∈ l -> P x <-> Q x) -> filter P l = filter Q l.
Proof.
  induction l as [|x l IH]; intros E; [done|]. rewrite !filter_cons.
  rewrite IH by (intros y Hy; apply E; by right).
  pose proof (E x ltac:(by left)). by repeat case_decide; try tauto.
Qed.

Lemma filter_all {A} (P : A -> Prop) `{!forall x, Decision (P x)} (l : list A) :
  (forall x, x ∈ l -> P x) -> filter P l = l.
Proof.
  induction l as [|x l IH]; intros E; [done|]. rewrite filter_cons, decide_True by (apply E; by left).
  f_equal. apply IH. intros y Hy. apply E. by right.
Qed.

(** Updating one element changes the filtered-mapped list at one place. *)
Lemma omap_insert_split {A B} (f : A -> option B) (l : list A) (i : nat) (x y : A) :
  l !! i = Some x ->
  omap f l = omap f (take i l) ++ option_list (f x) ++ omap f (drop (S i) l) /\
  omap f (<[i := y]> l) = omap f (take i l) ++ option_list (f y) ++ omap f (drop (S i) l).
Proof.
  intros Hx. assert (Ho : forall z k, omap f (z :: k) = option_list (f z) ++ omap f k).
  { intros z k. cbn. by destruct (f z). }
  split.
  - rewrite <-(take_drop_middle _ _ _ Hx) at 1. by rewrite omap_app, Ho.
  - rewrite insert_take_drop by (by eapply lookup_lt_Some). by rewrite omap_app, Ho.
Qed.

Lemma length_omap_le {A B} (f : A -> option B) (l : list A) : (length (omap f l) <= length l)%nat.
Proof. induction l as [|x l IH]; cbn; [done|]. destruct (f x); cbn; lia. Qed.

(** Case analysis of membership in a literal list. *)
Ltac inv_elem :=
  repeat match goal with
    | H : _ ∈ _ :: _ |- _ => apply elem_of_cons in H as [->|H]
    | H : _ ∈ [] |- _ => by apply elem_of_nil in H
    end.

(** Linear arithmetic with divisions and remainders by constants. *)
Ltac div_lia := Z.to_euclidean_division_equations; lia.

(** Joining disjoint bit fields is addition. *)
Lemma lor_shiftl_add a b k :
  0 <= k -> 0 <= b < 2 ^ k -> Z.lor (Z.shiftl a k) b = a * 2 ^ k + b.
Proof.
  intros Hk Hb. rewrite <- Z.shiftl_mul_pow2 by done.
  rewrite Z.add_nocarry_lxor, Z.lxor_lor; [done| |];
  apply Z.bits_inj'; intros i Hi; rewrite Z.land_spec, Z.shiftl_spec, Z.bits_0 by done;
  (destruct (Z.ltb_spec i k);
   [by rewrite Z.testbit_neg_r by lia|]);
  (destruct (decide (b = 0)) as [->|]; [by rewrite Z.bits_0, andb_false_r|]);
  rewrite (Z.bits_above_log2 b), andb_false_r; try done; try lia;
  apply Z.log2_lt_pow2; try lia; apply Z.lt_le_trans with (2 ^ k); try lia;
  apply Z.pow_le_mono_r; lia.
Qed.

