(* ===== verification/GcHeap.v ===== *)
(** The garbage collector crate [so2js_gc]: object headers ([gc_header.rs]), the gray queue
    ([gray_queue.rs]), the visitor and context traits ([visitor.rs]) and the heap with its
    incremental tri-color mark-sweep collector ([heap.rs]).

    Memory is a finite map from header addresses to headers; a header that is not in the map has
    not been allocated or has been freed, and dereferencing it is [Faulted].  An object pointer is
    [HEADER_SIZE] bytes past its header.  The runtime side of the [GcContext] trait is a type
    class: the calls an implementation makes on the visitor, in order. *)
From S2P Require Import Prelude.

(** * [gc_header.rs] *)

Inductive GcColor : Type := White | Gray | Black.

#[global] Instance GcColor_eq_dec : EqDecision GcColor.
Proof. solve_decision. Defined.

Inductive GcPhase : Type := Idle | RootScanning | Marking | WeakRefProcessing | Sweeping.

#[global] Instance GcPhase_eq_dec : EqDecision GcPhase.
Proof. solve_decision. Defined.

(** [#[repr(C)]]: the color byte, 7 bytes of padding, the size and the link, on a 64-bit target. *)
Record GcHeader : Type := mkHeader {
  color : GcColor;
  alloc_size : Z;
  next_object : option Z;
}.

Definition HEADER_SIZE : Z := 24.
Definition HEADER_ALIGN : Z := 8.

Definition GcHeader_new (size : Z) : GcHeader := mkHeader White size None.

Definition set_color (c : GcColor) (h : GcHeader) : GcHeader :=
  mkHeader c (alloc_size h) (next_object h).

Definition set_next_object (next : option Z) (h : GcHeader) : GcHeader :=
  mkHeader (color h) (alloc_size h) next.

Definition total_size (h : GcHeader) : Z := wrap64 (HEADER_SIZE + alloc_size h).

Definition is_marked (h : GcHeader) : bool := negb (bool_decide (color h = White)).

Definition needs_scanning (h : GcHeader) : bool := bool_decide (color h = Gray).

Definition object_ptr (header : Z) : Z := header + HEADER_SIZE.

Definition from_object_ptr (object : Z) : Z := object - HEADER_SIZE.

(** [(value + align - 1) & !(align - 1)] *)
Definition align_up (value align : Z) : Z :=
  Z.land (wrap64 (value + align - 1)) (usize_max - (align - 1)).

(** The size of the [Layout]; [Layout::from_size_align(..).unwrap()] panics when the size, rounded
    up to the alignment, exceeds [isize::MAX]. *)
Definition layout_for_size (size : Z) : outcome Z :=
  let total := align_up (wrap64 (HEADER_SIZE + size)) HEADER_ALIGN in
  if isize_max - (HEADER_ALIGN - 1) <? total then Panicked else Done total.

(** * [pointer.rs] *)

(** A [GcPtr<T>] is an address; [NonNull::<T>::dangling()] is the alignment of [T]. *)
Record GcPtr : Type := mkPtr { ptr : Z; ty_align : Z }.

Definition dangling (align : Z) : GcPtr := mkPtr align align.

Definition is_dangling (p : GcPtr) : bool := ptr p =? ty_align p.

Definition ptr_eq (p q : GcPtr) : bool := ptr p =? ptr q.

(** * [gray_queue.rs]

    A [Vec] used as a stack; its end is the head of the list. *)
Definition gray_queue_push (header : Z) (q : list Z) : list Z := header :: q.

Definition gray_queue_pop (q : list Z) : option Z * list Z :=
  match q with
  | [] => (None, [])
  | header :: q' => (Some header, q')
  end.

(** * The heap ([heap.rs]) *)

Definition DEFAULT_MARK_STEP_SIZE : nat := 100.
Definition DEFAULT_SWEEP_STEP_SIZE : nat := 100.
Definition DEFAULT_GC_THRESHOLD : Z := 1024 * 1024.

Record Heap : Type := mkHeap {
  all_objects : option Z;
  bytes_allocated : Z;
  num_objects : Z;
  gc_threshold : Z;
  gray_queue : list Z;
  phase : GcPhase;
  sweep_prev : option Z;
  sweep_current : option Z;
  bytes_freed_this_cycle : Z;
  objects_freed_this_cycle : Z;
  (** the allocated memory the heap's raw pointers point into *)
  mem : gmap Z GcHeader;
}.

Definition Heap_new : Heap :=
  mkHeap None 0 0 DEFAULT_GC_THRESHOLD [] Idle None None 0 0 ∅.

(** Field assignments. *)
Definition set_all_objects (o : option Z) (h : Heap) : Heap :=
  mkHeap o (bytes_allocated h) (num_objects h) (gc_threshold h) (gray_queue h) (phase h)
    (sweep_prev h) (sweep_current h) (bytes_freed_this_cycle h) (objects_freed_this_cycle h) (mem h).
Definition set_gray_queue (q : list Z) (h : Heap) : Heap :=
  mkHeap (all_objects h) (bytes_allocated h) (num_objects h) (gc_threshold h) q (phase h)
    (sweep_prev h) (sweep_current h) (bytes_freed_this_cycle h) (objects_freed_this_cycle h) (mem h).
Definition set_phase (p : GcPhase) (h : Heap) : Heap :=
  mkHeap (all_objects h) (bytes_allocated h) (num_objects h) (gc_threshold h) (gray_queue h) p
    (sweep_prev h) (sweep_current h) (bytes_freed_this_cycle h) (objects_freed_this_cycle h) (mem h).
Definition set_sweep (prev current : option Z) (h : Heap) : Heap :=
  mkHeap (all_objects h) (bytes_allocated h) (num_objects h) (gc_threshold h) (gray_queue h) (phase h)
    prev current (bytes_freed_this_cycle h) (objects_freed_this_cycle h) (mem h).
Definition set_freed (bytes objects : Z) (h : Heap) : Heap :=
  mkHeap (all_objects h) (bytes_allocated h) (num_objects h) (gc_threshold h) (gray_queue h) (phase h)
    (sweep_prev h) (sweep_current h) bytes objects (mem h).
Definition set_stats (bytes objects : Z) (h : Heap) : Heap :=
  mkHeap (all_objects h) bytes objects (gc_threshold h) (gray_queue h) (phase h)
    (sweep_prev h) (sweep_current h) (bytes_freed_this_cycle h) (objects_freed_this_cycle h) (mem h).
Definition set_gc_threshold (t : Z) (h : Heap) : Heap :=
  mkHeap (all_objects h) (bytes_allocated h) (num_objects h) t (gray_queue h) (phase h)
    (sweep_prev h) (sweep_current h) (bytes_freed_this_cycle h) (objects_freed_this_cycle h) (mem h).
Definition set_mem (m : gmap Z GcHeader) (h : Heap) : Heap :=
  mkHeap (all_objects h) (bytes_allocated h) (num_objects h) (gc_threshold h) (gray_queue h) (phase h)
    (sweep_prev h) (sweep_current h) (bytes_freed_this_cycle h) (objects_freed_this_cycle h) m.

Definition gc_in_progress (h : Heap) : bool := negb (bool_decide (phase h = Idle)).

Definition is_marking (h : Heap) : bool :=
  match phase h with RootScanning | Marking => true | _ => false end.

Definition should_gc (h : Heap) : bool :=
  (gc_threshold h <? bytes_allocated h) && bool_decide (phase h = Idle).

(** ** Marking helpers *)

(** The body shared by [Marker::visit] and [Heap::mark_gray_raw]: a white object turns gray and is
    queued. *)
Definition mark_gray_raw (object : Z) (h : Heap) : outcome Heap :=
  if object =? 0 then Done h
  else
    let header := from_object_ptr object in
    hd ← deref (mem h !! header);
    if decide (color hd = White) then
      Done (set_gray_queue (gray_queue_push header (gray_queue h))
              (set_mem (<[header := set_color Gray hd]> (mem h)) h))
    else Done h.

Definition mark_gray_ptr (p : GcPtr) (h : Heap) : outcome Heap :=
  if is_dangling p then Done h else mark_gray_raw (ptr p) h.

(** [Marker::visit]; the marker borrows the heap's gray queue. *)
Definition Marker_visit (p : GcPtr) (h : Heap) : outcome Heap :=
  if is_dangling p then Done h
  else
    let object := ptr p in
    if object =? 0 then Done h
    else
      let header := from_object_ptr object in
      hd ← deref (mem h !! header);
      if decide (color hd = White) then
        Done (set_gray_queue (gray_queue_push header (gray_queue h))
                (set_mem (<[header := set_color Gray hd]> (mem h)) h))
      else Done h.

(** [Marker::visit_weak]: weak pointers are not traced during marking. *)
Definition Marker_visit_weak (p : GcPtr) (h : Heap) : outcome Heap := Done h.

(** ** The visitor and context traits ([visitor.rs]) *)

(** One call on the [GcVisitor] trait. *)
Inductive visit_call : Type :=
| Visit (p : GcPtr)
| VisitWeak (p : GcPtr)
| VisitOpt (o : option GcPtr)
| VisitWeakOpt (o : option GcPtr).

(** The trait's dispatch, with its two default methods, at the [Marker] instance. *)
Definition marker_call (call : visit_call) (h : Heap) : outcome Heap :=
  match call with
  | Visit p => Marker_visit p h
  | VisitWeak p => Marker_visit_weak p h
  | VisitOpt (Some p) => Marker_visit p h
  | VisitWeakOpt (Some p) => Marker_visit_weak p h
  | VisitOpt None | VisitWeakOpt None => Done h
  end.

Fixpoint marker_calls (calls : list visit_call) (h : Heap) : outcome Heap :=
  match calls with
  | [] => Done h
  | call :: calls' => h' ← marker_call call h; marker_calls calls' h'
  end.

(** [GcContext]: what the runtime reports for its roots and for an object, and its weak reference
    processing, which may consult the heap. *)
Class GcContext (C : Type) : Type := {
  visit_roots : C -> list visit_call;
  trace_object : C -> Z -> list visit_call;
  process_weak_refs : C -> Heap -> C;
}.

(** ** Write barriers and weak reference support *)

Definition write_barrier (target : GcPtr) (h : Heap) : outcome Heap :=
  if is_marking h && negb (is_dangling target) then mark_gray_ptr target h else Done h.

Definition write_barrier_raw (target : Z) (h : Heap) : outcome Heap :=
  if is_marking h && negb (target =? 0) then mark_gray_raw target h else Done h.

Definition is_alive_raw (object : Z) (h : Heap) : outcome bool :=
  if object =? 0 then Done false
  else hd ← deref (mem h !! from_object_ptr object); Done (is_marked hd).

Definition is_alive (p : GcPtr) (h : Heap) : outcome bool :=
  if is_dangling p then Done false
  else hd ← deref (mem h !! from_object_ptr (ptr p)); Done (is_marked hd).

(** ** Sweeping *)

Definition finish_sweep (h : Heap) : Heap :=
  let h := set_stats (wrap64 (bytes_allocated h - bytes_freed_this_cycle h))
             (wrap64 (num_objects h - objects_freed_this_cycle h)) h in
  let h := set_gc_threshold (Z.max (wrap64 (bytes_allocated h * 2)) DEFAULT_GC_THRESHOLD) h in
  let h := set_phase Idle h in
  let h := set_sweep None None h in
  set_freed 0 0 h.

(** Unlink the dead object [next] follows: through [sweep_prev], or at the head of the list. *)
Definition unlink (next : option Z) (h : Heap) : outcome Heap :=
  match sweep_prev h with
  | Some p =>
      hp ← deref (mem h !! p);
      Done (set_mem (<[p := set_next_object next hp]> (mem h)) h)
  | None => Done (set_all_objects next h)
  end.

(** One iteration of the loop of [sweep_step] on the object at [header]. *)
Definition sweep_object (header : Z) (h : Heap) : outcome Heap :=
  hd ← deref (mem h !! header);
  let next := next_object hd in
  if decide (color hd = White) then
    h ← unlink next h;
    _ ← layout_for_size (alloc_size hd);
    let h := set_freed (wrap64 (bytes_freed_this_cycle h + total_size hd))
               (wrap64 (objects_freed_this_cycle h + 1)) h in
    let h := set_mem (delete header (mem h)) h in
    Done (set_sweep (sweep_prev h) next h)
  else
    let h := set_mem (<[header := set_color White hd]> (mem h)) h in
    Done (set_sweep (Some header) next h).

(** [sweep_step]; the loop runs at most [work_limit] times. *)
Fixpoint sweep_step (work_limit : nat) (h : Heap) : outcome Heap :=
  match work_limit with
  | O => Done h
  | S work_limit' =>
      match sweep_current h with
      | Some header => h' ← sweep_object header h; sweep_step work_limit' h'
      | None => Done (finish_sweep h)
      end
  end.

(** ** The collector *)

Section collector.
Context {C : Type} `{!GcContext C}.

(** [start_gc] *)
Definition start_gc (ctx : C) (h : Heap) : outcome Heap :=
  if gc_in_progress h then Done h
  else
    let h := set_freed 0 0 (set_phase RootScanning h) in
    h ← marker_calls (visit_roots ctx) h;
    Done (set_phase Marking h).

(** One iteration of the loop of [mark_step] on the popped [header]. *)
Definition mark_object (ctx : C) (header : Z) (h : Heap) : outcome Heap :=
  hd ← deref (mem h !! header);
  let h := set_mem (<[header := set_color Black hd]> (mem h)) h in
  marker_calls (trace_object ctx (object_ptr header)) h.

(** [mark_step]; the loop runs at most [work_limit] times. *)
Fixpoint mark_step (ctx : C) (work_limit : nat) (h : Heap) : outcome Heap :=
  match work_limit with
  | O => Done h
  | S work_limit' =>
      match gray_queue_pop (gray_queue h) with
      | (Some header, q) =>
          h' ← mark_object ctx header (set_gray_queue q h);
          mark_step ctx work_limit' h'
      | (None, _) => Done (set_phase WeakRefProcessing h)
      end
  end.

(** [gc_step]: whether the collection is still in progress, and the new state. *)
Definition gc_step (ctx : C) (h : Heap) : outcome (bool * C * Heap) :=
  match phase h with
  | Idle => Done (false, ctx, h)
  | RootScanning => Done (true, ctx, set_phase Marking h)
  | Marking =>
      h ← mark_step ctx DEFAULT_MARK_STEP_SIZE h;
      Done (gc_in_progress h, ctx, h)
  | WeakRefProcessing =>
      let ctx := process_weak_refs ctx h in
      let h := set_phase Sweeping h in
      Done (true, ctx, set_sweep None (all_objects h) h)
  | Sweeping =>
      h ← sweep_step DEFAULT_SWEEP_STEP_SIZE h;
      Done (gc_in_progress h, ctx, h)
  end.

(** [finish_gc]: steps until the collection is complete, and the number of steps. *)
Fixpoint finish_gc (fuel : nat) (steps : nat) (ctx : C) (h : Heap) : outcome (nat * C * Heap) :=
  match fuel with
  | O => OutOfFuel
  | S fuel' =>
      '(in_progress, ctx, h) ← gc_step ctx h;
      if in_progress : bool then finish_gc fuel' (S steps) ctx h
      else Done (S steps, ctx, h)
  end.

(** [Context::run_gc] *)
Definition run_gc (fuel : nat) (ctx : C) (h : Heap) : outcome (C * Heap) :=
  h ← start_gc ctx h;
  '(_, ctx, h) ← finish_gc fuel 0 ctx h;
  Done (ctx, h).

(** ** Allocation *)

(** [alloc::alloc::alloc]: the address of a block of the given size, [None] for null. *)
Variable sys_alloc : gmap Z GcHeader -> Z -> option Z.

(** [alloc_with_size]: [inr tt] is [Err(AllocError)]; the result is the object pointer. *)
Definition alloc_with_size (ctx : C) (size align : Z) (h : Heap)
    : outcome ((Z + unit) * C * Heap) :=
  '(_, ctx, h) ← (if gc_in_progress h then gc_step ctx h else Done (false, ctx, h));
  if HEADER_ALIGN <? align then Done (inr tt, ctx, h)
  else
    layout ← layout_for_size size;
    match sys_alloc (mem h) layout with
    | None => Done (inr tt, ctx, h)
    | Some header =>
        let hd := GcHeader_new size in
        let hd := if gc_in_progress h then set_color Black hd else hd in
        let hd := set_next_object (all_objects h) hd in
        let h := set_all_objects (Some header) (set_mem (<[header := hd]> (mem h)) h) in
        let h := set_stats (wrap64 (bytes_allocated h + total_size hd))
                   (wrap64 (num_objects h + 1)) h in
        Done (inl (object_ptr header), ctx, h)
    end.
End collector.
