(* ===== verification/GcInvariant.v ===== *)
(** Reachability, the heap invariant and its preservation by the collector's operations. *)

From S2P Require Import Prelude GcHeap.

(** * Strong edges and reachability *)

(** The header a visitor call marks, if any: weak, null and dangling pointers are skipped. *)
Definition strong_target (call : visit_call) : option Z :=
  match call with
  | Visit p | VisitOpt (Some p) =>
      if is_dangling p || (ptr p =? 0) then None else Some (from_object_ptr (ptr p))
  | _ => None
  end.

Definition targets (calls : list visit_call) : list Z := omap strong_target calls.

Definition roots {C} `{GcContext C} (ctx : C) : list Z := targets (visit_roots ctx).

Definition children {C} `{GcContext C} (ctx : C) (header : Z) : list Z :=
  targets (trace_object ctx (object_ptr header)).

(** Header addresses reachable from the roots through strong pointers. *)
Inductive reachable {C} `{GcContext C} (ctx : C) : Z -> Prop :=
| reach_root x : x ∈ roots ctx -> reachable ctx x
| reach_child x y : reachable ctx x -> y ∈ children ctx x -> reachable ctx y.

(** * Colors and shapes of memory *)

Definition color_at (m : gmap Z GcHeader) (x : Z) : option GcColor := color <$> m !! x.

(** What marking does not change: the sizes and links. *)
Definition shape (m : gmap Z GcHeader) : gmap Z (Z * option Z) :=
  (fun hd => (alloc_size hd, next_object hd)) <$> m.

Lemma color_at_insert m x hd y :
  color_at (<[x := hd]> m) y = if decide (x = y) then Some (color hd) else color_at m y.
Proof. unfold color_at. rewrite lookup_insert. by case_decide. Qed.

Lemma color_at_delete m x y :
  color_at (delete x m) y = if decide (x = y) then None else color_at m y.
Proof. unfold color_at. rewrite lookup_delete. by case_decide. Qed.

Lemma color_at_dom m x : is_Some (m !! x) <-> is_Some (color_at m x).
Proof. unfold color_at. by rewrite fmap_is_Some. Qed.

Lemma color_at_Some m x c : color_at m x = Some c <-> exists hd, m !! x = Some hd /\ color hd = c.
Proof. unfold color_at. rewrite fmap_Some. naive_solver. Qed.

Lemma shape_set_color m x hd c : m !! x = Some hd -> shape (<[x := set_color c hd]> m) = shape m.
Proof.
  intros Hx. apply map_eq. intros y. unfold shape. rewrite !lookup_fmap, lookup_insert.
  case_decide; [subst; by rewrite Hx | done].
Qed.

Lemma shape_dom m m' x : shape m = shape m' -> is_Some (m !! x) <-> is_Some (m' !! x).
Proof.
  intros E. rewrite <-!(fmap_is_Some (fun hd => (alloc_size hd, next_object hd))).
  rewrite <-!lookup_fmap. fold (shape m) (shape m'). by rewrite E.
Qed.

(** * Marking one list of pointers *)

(** Shading the header [x]: a white object becomes gray and is queued. *)
Definition shade (x : Z) (h : Heap) : outcome Heap :=
  hd ← deref (mem h !! x);
  if decide (color hd = White) then
    Done (set_gray_queue (x :: gray_queue h) (set_mem (<[x := set_color Gray hd]> (mem h)) h))
  else Done h.

Fixpoint shade_all (xs : list Z) (h : Heap) : outcome Heap :=
  match xs with
  | [] => Done h
  | x :: xs' => h' ← shade x h; shade_all xs' h'
  end.

Lemma mark_gray_raw_shade p h :
  mark_gray_raw p h = if p =? 0 then Done h else shade (from_object_ptr p) h.
Proof. done. Qed.

Lemma Marker_visit_shade p h :
  Marker_visit p h = match strong_target (Visit p) with None => Done h | Some x => shade x h end.
Proof. unfold Marker_visit, strong_target. destruct (is_dangling p), (ptr p =? 0); done. Qed.

Lemma marker_calls_shade calls h : marker_calls calls h = shade_all (targets calls) h.
Proof.
  revert h. induction calls as [|call calls IH]; intros h; [done|]. cbn [marker_calls].
  assert (Hc : marker_call call h =
    match strong_target call with None => Done h | Some x => shade x h end).
  { destruct call as [p|p|[p|]|[p|]]; try done; apply Marker_visit_shade. }
  rewrite Hc. unfold targets. cbn. destruct (strong_target call) as [x|]; cbn.
  - destruct (shade x h); cbn; auto.
  - apply IH.
Qed.

(** The effect of shading [xs] on a heap: nothing but the white ones among [xs] changes color,
    and these are exactly the new entries of the gray queue. *)
Record Shaded (xs : list Z) (h h' : Heap) : Prop := mkShaded {
  sh_frame : h' = set_gray_queue (gray_queue h') (set_mem (mem h') h);
  sh_shape : shape (mem h') = shape (mem h);
  sh_color : forall y, color_at (mem h') y =
    if decide (color_at (mem h) y = Some White /\ y ∈ xs) then Some Gray else color_at (mem h) y;
  sh_queue : exists new, gray_queue h' = new ++ gray_queue h /\ NoDup new /\
    forall y, y ∈ new <-> color_at (mem h) y = Some White /\ y ∈ xs;
}.

Lemma Shaded_refl h : Shaded [] h h.
Proof.
  split; [by destruct h|done| |].
  - intros y. case_decide as Hd; [|done]. destruct Hd as [_ Hd]. by apply elem_of_nil in Hd.
  - exists []. split; [done|]. split; [constructor|]. set_solver.
Qed.

Lemma shade_spec x h :
  is_Some (mem h !! x) -> exists h', shade x h = Done h' /\ Shaded [x] h h'.
Proof.
  intros [hd Hx]. unfold shade. rewrite Hx. cbn. case_decide as Hw.
  - eexists. split; [done|]. split; cbn.
    + by destruct h.
    + by apply shape_set_color.
    + intros y. rewrite color_at_insert. unfold color_at.
      destruct (decide (x = y)) as [<-|]; cbn.
      * rewrite decide_True; [done|]. rewrite Hx. cbn. rewrite Hw. set_solver.
      * rewrite decide_False; [done|]. set_solver.
    + exists [x]. split; [done|]. split; [apply NoDup_singleton|].
      intros y. rewrite list_elem_of_singleton. unfold color_at. split; [|naive_solver].
      intros ->. rewrite Hx. cbn. by rewrite Hw.
  - eexists. split; [done|]. split; [by destruct h|done| |].
    + intros y. case_decide as Hd; [|done]. destruct Hd as [Hc ->%list_elem_of_singleton].
      unfold color_at in Hc. rewrite Hx in Hc. cbn in Hc. naive_solver.
    + exists []. split; [done|]. split; [constructor|]. intros y. split; [set_solver|].
      intros [Hc ->%list_elem_of_singleton]. unfold color_at in Hc. rewrite Hx in Hc.
      cbn in Hc. naive_solver.
Qed.

Lemma Shaded_trans xs ys h1 h2 h3 :
  Shaded xs h1 h2 -> Shaded ys h2 h3 -> Shaded (xs ++ ys) h1 h3.
Proof.
  intros [F1 S1 C1 (n1 & Q1 & N1 & E1)] [F2 S2 C2 (n2 & Q2 & N2 & E2)]. split.
  - rewrite F2, F1. by destruct h1.
  - congruence.
  - intros y. rewrite C2, C1. repeat case_decide; set_solver.
  - exists (n2 ++ n1). split; [rewrite Q2, Q1; by rewrite app_assoc|]. split.
    + apply NoDup_app. split_and!; [done| |done]. intros y Hy2 Hy1.
      apply E2 in Hy2 as [Hc _]. apply E1 in Hy1. rewrite C1 in Hc. by rewrite decide_True in Hc.
    + intros y. rewrite !elem_of_app, E1, E2, C1. case_decide; [|naive_solver].
      split; [|naive_solver]. intros [[? _]|?]; [done|]. naive_solver.
Qed.

Lemma shade_all_spec xs h :
  (forall x, x ∈ xs -> is_Some (mem h !! x)) ->
  exists h', shade_all xs h = Done h' /\ Shaded xs h h'.
Proof.
  revert h. induction xs as [|x xs IH]; intros h Hd.
  - exists h. split; [done|]. apply Shaded_refl.
  - cbn [shade_all]. destruct (shade_spec x h) as (h1 & E1 & S1); [set_solver|].
    destruct (IH h1) as (h2 & E2 & S2).
    { intros y Hy. apply (shape_dom _ (mem h)); [apply S1|]. set_solver. }
    exists h2. rewrite E1. cbn. split; [done|]. apply (Shaded_trans [x] xs h h1 h2); done.
Qed.

(** * The all-objects list *)

(** [lseg m o l]: following the links of [m] from [o] visits the headers [l]. *)
Fixpoint lseg (m : gmap Z GcHeader) (o : option Z) (l : list Z) : Prop :=
  match l with
  | [] => o = None
  | x :: l' => o = Some x /\ exists hd, m !! x = Some hd /\ lseg m (next_object hd) l'
  end.

(** The bytes of the objects [l], headers included. *)
Definition bytes_at (m : gmap Z GcHeader) (x : Z) : Z :=
  match m !! x with Some hd => HEADER_SIZE + alloc_size hd | None => 0 end.

Definition bytes (m : gmap Z GcHeader) (l : list Z) : Z := foldr (fun x acc => bytes_at m x + acc) 0 l.
Arguments bytes : simpl never.

Lemma bytes_cons m x l : bytes m (x :: l) = bytes_at m x + bytes m l.
Proof. done. Qed.

(** Every header has a size its layout can have. *)
Definition sizes_ok (m : gmap Z GcHeader) : Prop :=
  forall x hd, m !! x = Some hd ->
    0 <= alloc_size hd <= isize_max /\ exists n, layout_for_size (alloc_size hd) = Done n.

Lemma lseg_ext m m' o l :
  (forall x, x ∈ l -> next_object <$> m !! x = next_object <$> m' !! x) ->
  lseg m o l -> lseg m' o l.
Proof.
  revert o. induction l as [|x l IH]; intros o E; cbn; [done|].
  intros (-> & hd & Hx & Hl). split; [done|]. pose proof (E x ltac:(set_solver)) as Ex.
  rewrite Hx in Ex. symmetry in Ex. apply fmap_Some in Ex as (hd' & -> & Hn).
  exists hd'. split; [done|]. rewrite <-Hn. apply IH; [|done]. intros y Hy. apply E. by right.
Qed.

Lemma shape_next m m' x : shape m = shape m' -> next_object <$> m !! x = next_object <$> m' !! x.
Proof.
  intros E. assert (Ex : shape m !! x = shape m' !! x) by by rewrite E.
  unfold shape in Ex. rewrite !lookup_fmap in Ex. destruct (m !! x), (m' !! x); simplify_eq/=; congruence.
Qed.

Lemma shape_bytes_at m m' x : shape m = shape m' -> bytes_at m x = bytes_at m' x.
Proof.
  intros E. assert (Ex : shape m !! x = shape m' !! x) by by rewrite E.
  unfold shape in Ex. rewrite !lookup_fmap in Ex. unfold bytes_at.
  destruct (m !! x), (m' !! x); simplify_eq/=; congruence.
Qed.

Lemma bytes_ext m m' l : (forall x, x ∈ l -> bytes_at m x = bytes_at m' x) -> bytes m l = bytes m' l.
Proof.
  induction l as [|x l IH]; intros E; [done|]. rewrite !bytes_cons.
  rewrite (E x) by by left. f_equal. apply IH. intros y Hy. apply E. by right.
Qed.

Lemma bytes_app m l k : bytes m (l ++ k) = bytes m l + bytes m k.
Proof. induction l as [|x l IH]; [done|]. cbn [app]. rewrite !bytes_cons, IH. lia. Qed.

Lemma sizes_bytes_at m x : sizes_ok m -> 0 <= bytes_at m x.
Proof.
  intros H. unfold bytes_at. destruct (m !! x) as [hd|] eqn:E; [|done].
  apply H in E. unfold HEADER_SIZE. lia.
Qed.

Lemma sizes_bytes m l : sizes_ok m -> 0 <= bytes m l.
Proof.
  intros H. induction l as [|x l IH]; [done|]. rewrite bytes_cons.
  pose proof (sizes_bytes_at m x H). lia.
Qed.

Lemma total_size_ok m x hd :
  sizes_ok m -> m !! x = Some hd -> total_size hd = bytes_at m x.
Proof.
  intros Hs Hx. unfold total_size, bytes_at. rewrite Hx. apply wrap64_small.
  apply Hs in Hx. unfold HEADER_SIZE, usize_max, isize_max in *. lia.
Qed.

(** * The structural invariant

    The list threads exactly the allocated objects, once each, and the statistics count the listed
    objects and those freed in the current cycle. *)
Record Linked (h : Heap) (l : list Z) : Prop := mkLinked {
  lk_list : lseg (mem h) (all_objects h) l;
  lk_nodup : NoDup l;
  lk_dom : forall x, x ∈ l <-> is_Some (mem h !! x);
  lk_sizes : sizes_ok (mem h);
  lk_bytes : bytes_allocated h = bytes (mem h) l + bytes_freed_this_cycle h;
  lk_objects : num_objects h = Z.of_nat (length l) + objects_freed_this_cycle h;
  lk_freed : 0 <= bytes_freed_this_cycle h /\ 0 <= objects_freed_this_cycle h;
  lk_fits : bytes_allocated h <= usize_max /\ num_objects h <= usize_max;
}.

(** A change of colors and of the gray queue keeps the structure. *)
Lemma Linked_shape h h' l :
  shape (mem h') = shape (mem h) ->
  all_objects h' = all_objects h -> bytes_allocated h' = bytes_allocated h ->
  num_objects h' = num_objects h ->
  bytes_freed_this_cycle h' = bytes_freed_this_cycle h ->
  objects_freed_this_cycle h' = objects_freed_this_cycle h ->
  Linked h l -> Linked h' l.
Proof.
  intros Hs Ha Hb Hn Hf Ho [L1 L2 L3 L4 L5 L6 L7 L8].
  split; rewrite ?Ha, ?Hb, ?Hn, ?Hf, ?Ho; try done.
  - eapply lseg_ext; [|done]. intros x _. by apply shape_next.
  - intros x. rewrite L3. by apply shape_dom.
  - intros x hd Hx.
    assert (E : shape (mem h') !! x = shape (mem h) !! x) by by rewrite Hs.
    unfold shape in E. rewrite !lookup_fmap, Hx in E.
    destruct (mem h !! x) as [hd0|] eqn:Hx0; [|done]. cbn in E. injection E as -> _. eauto.
  - rewrite L5. f_equal. apply bytes_ext. intros x _. by apply shape_bytes_at.
Qed.

Lemma Shaded_Linked xs h h' l : Shaded xs h h' -> Linked h l -> Linked h' l.
Proof.
  intros [F S _ _]. apply Linked_shape; [done|..]; rewrite F; done.
Qed.

(** * The tri-color invariant *)

Definition marked_at (m : gmap Z GcHeader) (x : Z) : Prop :=
  color_at m x = Some Gray \/ color_at m x = Some Black.

Definition nonblack (m : gmap Z GcHeader) (l : list Z) : nat :=
  length (filter (fun x => color_at m x <> Some Black) l).

Lemma marked_dom m x : marked_at m x -> is_Some (m !! x).
Proof. intros [E|E]; apply color_at_dom; by rewrite E. Qed.

Lemma Shaded_marked xs h h' x :
  Shaded xs h h' -> marked_at (mem h) x -> marked_at (mem h') x.
Proof.
  intros S [E|E]; unfold marked_at; rewrite (sh_color _ _ _ S x), E, decide_False; naive_solver.
Qed.

Lemma Shaded_marks xs h h' x :
  Shaded xs h h' -> x ∈ xs -> is_Some (mem h !! x) -> marked_at (mem h') x.
Proof.
  intros S Hx [c Hc]%color_at_dom. unfold marked_at. rewrite (sh_color _ _ _ S x), Hc.
  destruct c; [rewrite decide_True by done; auto|rewrite decide_False by naive_solver; auto..].
Qed.

Lemma Shaded_black xs h h' x :
  Shaded xs h h' -> color_at (mem h') x = Some Black <-> color_at (mem h) x = Some Black.
Proof. intros S. rewrite (sh_color _ _ _ S x). case_decide; naive_solver. Qed.

Lemma Shaded_dom xs h h' x : Shaded xs h h' -> is_Some (mem h' !! x) <-> is_Some (mem h !! x).
Proof. intros S. apply shape_dom, S. Qed.

Lemma Shaded_nonblack xs h h' l : Shaded xs h h' -> nonblack (mem h') l = nonblack (mem h) l.
Proof.
  intros S. unfold nonblack. induction l as [|x l IH]; [done|]. rewrite !filter_cons.
  pose proof (Shaded_black _ _ _ x S) as B. repeat case_decide; cbn; naive_solver.
Qed.

Lemma nonblack_blacken m l x hd :
  NoDup l -> x ∈ l -> m !! x = Some hd -> color hd <> Black ->
  nonblack m l = S (nonblack (<[x := set_color Black hd]> m) l).
Proof.
  unfold nonblack. intros Hnd Hin Hx Hc. induction l as [|y l IH]; [by apply elem_of_nil in Hin|].
  apply NoDup_cons in Hnd as [Hy Hnd]. rewrite !filter_cons, !color_at_insert.
  destruct (decide (x = y)) as [<-|Hne].
  - assert (color_at m x <> Some Black) by (unfold color_at; rewrite Hx; cbn; naive_solver).
    rewrite decide_True, decide_False by naive_solver. cbn. f_equal. f_equal.
    apply filter_ext_in. intros z Hz. rewrite color_at_insert.
    rewrite decide_False; [done|]. by intros <-.
  - assert (x ∈ l) by set_solver. case_decide; cbn; [f_equal|]; by apply IH.
Qed.

Section invariant.
Context {C : Type} `{!GcContext C}.

Record TriColor (ctx : C) (h : Heap) : Prop := mkTriColor {
  tc_nodup : NoDup (gray_queue h);
  tc_queue : forall x, x ∈ gray_queue h <-> color_at (mem h) x = Some Gray;
  tc_roots : forall x, x ∈ roots ctx -> marked_at (mem h) x;
  tc_black : forall x y, color_at (mem h) x = Some Black -> y ∈ children ctx x ->
    marked_at (mem h) y;
}.

(** Strong pointers of allocated objects point to allocated objects. *)
Record ClosedHeap (ctx : C) (m : gmap Z GcHeader) : Prop := mkClosed {
  cl_roots : forall x, x ∈ roots ctx -> is_Some (m !! x);
  cl_children : forall x y, is_Some (m !! x) -> y ∈ children ctx x -> is_Some (m !! y);
}.

(** A set of objects closed under strong pointers, such as the reachable ones; if only its
    members are marked then marking keeps it so, which makes a full collection precise. *)
Definition child_closed (ctx : C) (K : Z -> Prop) : Prop :=
  forall x y, K x -> y ∈ children ctx x -> K y.

Definition marks_only (K : Z -> Prop) (h : Heap) : Prop := forall x, marked_at (mem h) x -> K x.

Lemma ClosedHeap_dom ctx m m' :
  (forall x, is_Some (m' !! x) <-> is_Some (m !! x)) -> ClosedHeap ctx m -> ClosedHeap ctx m'.
Proof. intros E [R Ch]. split; setoid_rewrite E; done. Qed.

Lemma reachable_dom ctx m x : ClosedHeap ctx m -> reachable ctx x -> is_Some (m !! x).
Proof. intros [R Ch]. induction 1; eauto. Qed.

(** The state after the top of the gray queue has been popped and blackened. *)
Lemma mark_object_spec ctx x q h l :
  Linked h l -> ClosedHeap ctx (mem h) -> TriColor ctx h -> gray_queue h = x :: q ->
  exists h', mark_object ctx x (set_gray_queue q h) = Done h' /\
    Linked h' l /\ ClosedHeap ctx (mem h') /\ TriColor ctx h' /\
    (forall K, child_closed ctx K -> marks_only K h -> marks_only K h') /\
    nonblack (mem h) l = S (nonblack (mem h') l) /\
    h' = set_gray_queue (gray_queue h') (set_mem (mem h') h).
Proof.
  intros Hl Hcl Htc Hq. pose proof Htc as [Hnd Hqc Hr Hb].
  assert (Hgx : color_at (mem h) x = Some Gray) by (apply Hqc; rewrite Hq; by left).
  apply color_at_Some in Hgx as (hd & Hx & Hcol).
  set (h1 := set_mem (<[x := set_color Black hd]> (mem h)) (set_gray_queue q h)).
  assert (Hdom : forall y, is_Some (mem h1 !! y) <-> is_Some (mem h !! y)).
  { intros y. apply shape_dom. by apply shape_set_color. }
  destruct (shade_all_spec (children ctx x) h1) as (h2 & E2 & S2).
  { intros y Hy. apply Hdom. eapply cl_children; eauto. }
  assert (Hm1 : forall y, marked_at (mem h) y -> marked_at (mem h1) y).
  { intros y. unfold marked_at. cbn. rewrite color_at_insert. case_decide; cbn; naive_solver. }
  exists h2. split_and!.
  - unfold mark_object. cbn [mem set_gray_queue]. rewrite Hx. cbn [deref mbind outcome_bind].
    by rewrite marker_calls_shade.
  - eapply Shaded_Linked; [done|]. eapply Linked_shape; [..|done]; try done.
    by apply shape_set_color.
  - eapply ClosedHeap_dom; [|done]. intros y. by rewrite (Shaded_dom _ _ _ y S2).
  - rewrite Hq in Hnd. apply NoDup_cons in Hnd as [Hxq Hnd].
    destruct (sh_queue _ _ _ S2) as (new & Qn & Nn & En).
    assert (Hc1 : forall y, color_at (mem h1) y =
      if decide (x = y) then Some Black else color_at (mem h) y) by (intros; apply color_at_insert).
    assert (Hqy : forall y, y ∈ q <-> color_at (mem h) y = Some Gray /\ x <> y).
    { intros y. rewrite <-Hqc, Hq, elem_of_cons. naive_solver. }
    split.
    + rewrite Qn. apply NoDup_app. split_and!; [done| |done]. intros y Hy Hy'.
      apply En in Hy as [Hy _]. apply Hqy in Hy' as [Hy' Hne].
      rewrite Hc1, decide_False in Hy; naive_solver.
    + intros y. rewrite Qn, elem_of_app, En, (sh_color _ _ _ S2 y), Hc1.
      cbn [gray_queue h1 set_mem set_gray_queue]. rewrite Hqy.
      repeat case_decide; naive_solver.
    + intros y Hy. eapply Shaded_marked; [done|]. auto.
    + intros y z Hy Hz. apply (Shaded_black _ _ _ y S2) in Hy. rewrite Hc1 in Hy.
      destruct (decide (x = y)) as [<-|Hne].
      * eapply Shaded_marks; [done|done|]. apply Hdom. eapply cl_children; eauto.
      * eapply Shaded_marked; [done|]. eauto.
  - intros K HK Hp y Hy. assert (Hxr : K x) by (apply Hp; left; apply color_at_Some; eauto).
    unfold marked_at in Hy. rewrite (sh_color _ _ _ S2 y) in Hy.
    destruct (decide _) as [[_ Hc]|Hn]; [by eapply HK|].
    cbn in Hy. rewrite color_at_insert in Hy.
    destruct (decide (x = y)) as [<-|]; [done|]. by apply Hp.
  - rewrite (Shaded_nonblack _ _ _ l S2). apply nonblack_blacken; [apply Hl| |done|by rewrite Hcol].
    apply Hl. eauto.
  - rewrite (sh_frame _ _ _ S2) at 1. by destruct h.
Qed.

(** [mark_step]: either the queue was emptied and marking is over, or [n] objects turned black. *)
Lemma mark_step_spec ctx n h l :
  Linked h l -> ClosedHeap ctx (mem h) -> TriColor ctx h -> phase h = Marking ->
  exists h', mark_step ctx n h = Done h' /\
    Linked h' l /\ ClosedHeap ctx (mem h') /\ TriColor ctx h' /\
    (forall K, child_closed ctx K -> marks_only K h -> marks_only K h') /\
    bytes_freed_this_cycle h' = bytes_freed_this_cycle h /\
    objects_freed_this_cycle h' = objects_freed_this_cycle h /\
    ((phase h' = WeakRefProcessing /\ gray_queue h' = []) \/
     (phase h' = Marking /\ (nonblack (mem h') l + n = nonblack (mem h) l)%nat)).
Proof.
  revert h. induction n as [|n IH]; intros h Hl Hcl Htc Hp.
  - exists h. cbn. split_and!; try done. right. split; [done|lia].
  - cbn [mark_step]. destruct (gray_queue h) as [|x q] eqn:Hq; cbn [gray_queue_pop].
    + exists (set_phase WeakRefProcessing h). split_and!; try done.
      * destruct h; cbn in *. by destruct Hl; split.
      * by destruct h, Htc; split.
      * left. done.
    + destruct (mark_object_spec ctx x q h l) as (h1 & E1 & Hl1 & Hcl1 & Htc1 & Hpr1 & Hn1 & F1);
        try done.
      rewrite E1. cbn [mbind outcome_bind].
      destruct (IH h1) as (h2 & E2 & Hl2 & Hcl2 & Htc2 & Hpr2 & Hf2 & Ho2 & Hend);
        [done|done|done|by rewrite F1|].
      exists h2. split_and!; try done; [by auto|rewrite Hf2, F1; done|rewrite Ho2, F1; done|].
      destruct Hend as [?|[? ?]]; [by left|right]. split; [done|lia].
Qed.
End invariant.

(** Sweeping: unlinking and freeing the white objects while resetting the black ones. *)

(** * Links around the object being swept *)

Lemma lseg_next m o l x hd k : lseg m o (l ++ x :: k) -> m !! x = Some hd -> next_object hd = head k.
Proof.
  revert o. induction l as [|y l IH]; intros o; cbn.
  - intros (_ & hd' & Hx' & Hk) Hx. simplify_eq. destruct k; cbn in Hk; naive_solver.
  - intros (_ & hd' & _ & Hl). eauto.
Qed.

(** Redirecting the link of the predecessor [p] drops [x] from the list. *)
Lemma lseg_unlink m o l p x k hp hx :
  NoDup (l ++ p :: x :: k) -> lseg m o (l ++ p :: x :: k) ->
  m !! p = Some hp -> m !! x = Some hx ->
  lseg (<[p := set_next_object (next_object hx) hp]> m) o (l ++ p :: k).
Proof.
  revert o. induction l as [|y l IH]; intros o Hnd; cbn.
  - intros (-> & hd & Hp & _ & hd' & Hx & Hk) Hp' Hx'. simplify_eq. split; [done|].
    eexists. split; [apply lookup_insert_eq|]. cbn. eapply lseg_ext; [|done].
    apply NoDup_cons in Hnd as [Hnp _].
    intros z Hz. rewrite lookup_insert_ne; [done|]. intros ->. apply Hnp. by right.
  - intros (-> & hd & Hy & Hl) Hp Hx. split; [done|]. cbn in Hnd.
    apply NoDup_cons in Hnd as [Hny Hnd]. exists hd. split; [|by apply IH].
    rewrite lookup_insert_ne; [done|]. intros ->. apply Hny, elem_of_app. right. by left.
Qed.

Lemma NoDup_mid {A} (l k : list A) x : NoDup (l ++ x :: k) -> NoDup (l ++ k) /\ (x ∉ l) /\ (x ∉ k).
Proof.
  intros (Hl & Hd & [Hx Hk]%NoDup_cons)%NoDup_app. split_and!.
  - apply NoDup_app. split_and!; [done| |done]. intros y Hy Hy'. apply (Hd y Hy). by right.
  - intros Hin. apply (Hd x Hin). by left.
  - done.
Qed.

Lemma lseg_delete m o l x : x ∉ l -> lseg m o l -> lseg (delete x m) o l.
Proof.
  intros Hx. apply lseg_ext. intros y Hy. rewrite lookup_delete_ne; [done|]. by intros ->.
Qed.

Section sweep.
Context {C : Type} `{!GcContext C}.

(** Objects that survive the sweep: those already swept, and the black ones ahead. *)
Definition live (done : list Z) (m : gmap Z GcHeader) (x : Z) : Prop :=
  x ∈ done \/ color_at m x = Some Black.

Record SweepInv (ctx : C) (h : Heap) (done todo : list Z) : Prop := mkSweepInv {
  sw_phase : phase h = Sweeping;
  sw_linked : Linked h (done ++ todo);
  sw_prev : sweep_prev h = last done;
  sw_cur : sweep_current h = head todo;
  sw_queue : gray_queue h = [];
  sw_done : forall x, x ∈ done -> color_at (mem h) x = Some White;
  sw_todo : forall x, x ∈ todo -> color_at (mem h) x <> Some Gray;
  sw_roots : forall x, x ∈ roots ctx -> live done (mem h) x;
  sw_children : forall x y, live done (mem h) x -> y ∈ children ctx x -> live done (mem h) y;
}.

(** A black object is reset to white and kept. *)
Lemma sweep_keep ctx h l x k hd :
  SweepInv ctx h l (x :: k) -> mem h !! x = Some hd -> color hd <> White ->
  exists h', sweep_object x h = Done h' /\ SweepInv ctx h' (l ++ [x]) k /\
    (forall y, live (l ++ [x]) (mem h') y <-> live l (mem h) y).
Proof.
  intros I Hx Hc. pose proof (sw_linked _ _ _ _ I) as Hl.
  assert (Hb : color_at (mem h) x = Some Black).
  { pose proof (sw_todo _ _ _ _ I x ltac:(by left)) as Hg. unfold color_at in *.
    rewrite Hx in *. cbn in *. destruct (color hd); naive_solver. }
  assert (Hlive : forall y, live (l ++ [x]) (<[x := set_color White hd]> (mem h)) y
                        <-> live l (mem h) y).
  { intros y. unfold live. rewrite color_at_insert, elem_of_app, list_elem_of_singleton.
    case_decide; cbn; naive_solver. }
  eexists. split; [unfold sweep_object; rewrite Hx; cbn; by rewrite decide_False|].
  split; [|done].
  split; cbn.
  - apply I.
  - rewrite <-app_assoc. eapply Linked_shape; [..|done]; try done. by apply shape_set_color.
  - by rewrite last_snoc.
  - eapply lseg_next; [apply Hl|done].
  - apply I.
  - intros y [Hy| ->%list_elem_of_singleton]%elem_of_app; rewrite color_at_insert; case_decide;
      try done. by apply I.
  - intros y Hy. rewrite color_at_insert. case_decide; [done|]. apply I. by right.
  - intros y Hy. apply Hlive. by apply I.
  - intros y z Hy Hz. apply Hlive. apply Hlive in Hy. by eapply (sw_children _ _ _ _ I).
Qed.

(** The list after a white object has been unlinked and freed. *)
Lemma unlink_spec h l x k hd :
  Linked h (l ++ x :: k) -> mem h !! x = Some hd -> sweep_prev h = last l ->
  exists h', unlink (next_object hd) h = Done h' /\
    h' = set_all_objects (all_objects h') (set_mem (mem h') h) /\
    lseg (delete x (mem h')) (all_objects h') (l ++ k) /\
    (forall y, color_at (mem h') y = color_at (mem h) y) /\
    (forall y, bytes_at (mem h') y = bytes_at (mem h) y) /\
    (forall y, alloc_size <$> mem h' !! y = alloc_size <$> mem h !! y).
Proof.
  intros Hl Hx Hp. pose proof (lk_nodup _ _ Hl) as Hnd. pose proof (lk_list _ _ Hl) as Hseg.
  assert (Hnx : x ∉ l ++ k).
  { apply NoDup_mid in Hnd as (_ & ? & ?). rewrite elem_of_app. tauto. }
  unfold unlink. rewrite Hp. destruct (last l) as [p|] eqn:Hlast.
  - apply last_Some in Hlast as [l' ->].
    assert (Hip : p ∈ (l' ++ [p]) ++ x :: k) by set_solver.
    apply (lk_dom _ _ Hl) in Hip as [hp Hpp]. rewrite Hpp. cbn.
    eexists. split; [done|]. cbn. split; [by destruct h|].
    assert (He : forall A (f : GcHeader -> A) y,
      f (set_next_object (next_object hd) hp) = f hp ->
      f <$> <[p := set_next_object (next_object hd) hp]> (mem h) !! y = f <$> mem h !! y).
    { intros A f y Hf. rewrite lookup_insert. case_decide; [subst; rewrite Hpp; cbn; by rewrite Hf|done]. }
    split_and!.
    + rewrite <-app_assoc in *. cbn in *. apply lseg_delete; [done|]. by eapply lseg_unlink.
    + intros y. unfold color_at. by apply He.
    + intros y. unfold bytes_at. specialize (He _ alloc_size y eq_refl).
      destruct (<[_:=_]> _ !! y), (mem h !! y); simplify_eq/=; congruence.
    + intros y. by apply He.
  - apply last_None in Hlast as ->. eexists. split; [done|]. cbn. split_and!; try done.
    cbn in Hseg. destruct Hseg as (_ & hd' & Hx' & Hk). simplify_eq. by apply lseg_delete.
Qed.

(** A white object is unlinked and freed. *)
Lemma sweep_free ctx h l x k hd :
  SweepInv ctx h l (x :: k) -> mem h !! x = Some hd -> color hd = White ->
  exists h', sweep_object x h = Done h' /\ SweepInv ctx h' l k /\
    (forall y, live l (mem h') y <-> live l (mem h) y).
Proof.
  intros I Hx Hc. pose proof (sw_linked _ _ _ _ I) as Hl.
  destruct (unlink_spec h l x k hd) as (h1 & E1 & F1 & Hseg & Hcol & Hby & Hsz);
    [done|done|apply I|].
  pose proof (lk_sizes _ _ Hl _ _ Hx) as [Hs [n Hn]].
  pose proof (lk_nodup _ _ Hl) as Hnd.
  apply NoDup_mid in Hnd as (Hnd & Hxl & Hxk).
  assert (Hw : color_at (mem h) x = Some White) by (unfold color_at; rewrite Hx; cbn; by rewrite Hc).
  assert (Hlive : forall y, live l (delete x (mem h1)) y <-> live l (mem h) y).
  { intros y. unfold live. rewrite color_at_delete, Hcol. case_decide; [|done]. naive_solver. }
  assert (Hts : total_size hd = bytes_at (mem h) x) by by eapply total_size_ok; [apply Hl|].
  assert (Hbt : bytes (mem h) (l ++ x :: k) = bytes_at (mem h) x + bytes (mem h) (l ++ k)).
  { rewrite !bytes_app, bytes_cons. lia. }
  pose proof (sizes_bytes_at _ x (lk_sizes _ _ Hl)). pose proof (sizes_bytes _ (l ++ k) (lk_sizes _ _ Hl)).
  pose proof (lk_bytes _ _ Hl). pose proof (lk_objects _ _ Hl) as Ho.
  pose proof (lk_freed _ _ Hl). pose proof (lk_fits _ _ Hl).
  rewrite length_app in Ho. cbn [length] in Ho.
  eexists. split.
  { unfold sweep_object. rewrite Hx. cbn [deref mbind outcome_bind].
    rewrite decide_True by done. rewrite E1. cbn. rewrite Hn. cbn. done. }
  rewrite F1. split; [|done]. split; cbn [phase set_sweep set_mem set_freed set_all_objects mem
    sweep_prev sweep_current gray_queue].
  - apply I.
  - split; cbn; rewrite ?Hts.
    + done.
    + done.
    + intros y. rewrite lookup_delete. case_decide; [subst|].
      { split; [set_solver|]. intros [? ?]. done. }
      rewrite <-(fmap_is_Some alloc_size), Hsz, fmap_is_Some, <-(lk_dom _ _ Hl). set_solver.
    + intros y hd' [Hne Hy]%lookup_delete_Some. specialize (Hsz y). rewrite Hy in Hsz.
      symmetry in Hsz. apply fmap_Some in Hsz as (hd0 & Hy0 & Hs0). rewrite Hs0.
      by apply (lk_sizes _ _ Hl y).
    + rewrite wrap64_small by lia. rewrite (bytes_ext (delete x (mem h1)) (mem h)); [lia|].
      intros y Hy. rewrite <-Hby. unfold bytes_at. rewrite lookup_delete_ne; [done|]. set_solver.
    + rewrite wrap64_small by lia. rewrite length_app. lia.
    + rewrite !wrap64_small by lia. lia.
    + done.
  - apply I.
  - eapply lseg_next; [apply Hl|done].
  - apply I.
  - intros y Hy. rewrite color_at_delete, Hcol. case_decide; [set_solver|]. by apply I.
  - intros y Hy. rewrite color_at_delete, Hcol. case_decide; [done|]. apply I. by right.
  - intros y Hy. apply Hlive. by apply I.
  - intros y z Hy Hz. apply Hlive. apply Hlive in Hy. by eapply (sw_children _ _ _ _ I).
Qed.
End sweep.

Section sweep_step.
Context {C : Type} `{!GcContext C}.

Record IdleInv (ctx : C) (h : Heap) (l : list Z) : Prop := mkIdleInv {
  id_phase : phase h = Idle;
  id_linked : Linked h l;
  id_queue : gray_queue h = [];
  id_white : forall x, x ∈ l -> color_at (mem h) x = Some White;
  id_freed : bytes_freed_this_cycle h = 0 /\ objects_freed_this_cycle h = 0;
  id_closed : ClosedHeap ctx (mem h);
}.

Lemma finish_sweep_spec ctx h l : SweepInv ctx h l [] -> IdleInv ctx (finish_sweep h) l.
Proof.
  intros I. pose proof (sw_linked _ _ _ _ I) as Hl. rewrite app_nil_r in Hl.
  pose proof (lk_freed _ _ Hl). pose proof (lk_fits _ _ Hl). pose proof (lk_bytes _ _ Hl).
  pose proof (lk_objects _ _ Hl). pose proof (sizes_bytes _ l (lk_sizes _ _ Hl)).
  assert (Hlive : forall x, live l (mem h) x -> is_Some (mem h !! x)).
  { intros x [Hx|Hx]; [by apply (lk_dom _ _ Hl)|]. apply color_at_dom. by rewrite Hx. }
  split; try done.
  - split; cbn; rewrite ?wrap64_small by lia; try apply Hl; lia.
  - cbn. apply I.
  - cbn. apply I.
  - split; cbn.
    + intros x Hx. apply Hlive. by apply I.
    + intros x y Hx Hy. apply Hlive. eapply (sw_children _ _ _ _ I); [|done].
      left. by apply (lk_dom _ _ Hl).
Qed.

(** [sweep_step]: the sweep is finished and exactly the live objects remain, or [n] objects
    were processed. *)
Lemma sweep_step_spec ctx n h done todo :
  SweepInv ctx h done todo ->
  exists h', sweep_step n h = Done h' /\
    ((exists done' todo', SweepInv ctx h' done' todo' /\
        (length todo' + n = length todo)%nat /\ done' ++ todo' `sublist_of` done ++ todo /\
        (forall y, live done' (mem h') y <-> live done (mem h) y)) \/
     (exists l, IdleInv ctx h' l /\ l `sublist_of` done ++ todo /\
        (forall y, y ∈ l <-> live done (mem h) y))).
Proof.
  revert h done todo. induction n as [|n IH]; intros h done todo I.
  - exists h. split; [by cbn|]. left. exists done, todo. split_and!; [by apply I|lia|by apply reflexivity|by auto].
  - cbn [sweep_step]. rewrite (sw_cur _ _ _ _ I). destruct todo as [|x todo]; cbn [head].
    + exists (finish_sweep h). split; [by cbn|]. right. exists done.
      split_and!; [by apply finish_sweep_spec|by rewrite app_nil_r|].
      intros y. unfold live. split; [by left|]. intros [|Hb]; [by cbn|].
      assert (Hd : is_Some (mem h !! y)) by (apply color_at_dom; by rewrite Hb).
      apply (lk_dom _ _ (sw_linked _ _ _ _ I)) in Hd. by rewrite app_nil_r in Hd.
    + assert (Hin : is_Some (mem h !! x)) by (apply (lk_dom _ _ (sw_linked _ _ _ _ I)); set_solver).
      destruct Hin as [hd Hx]. destruct (decide (color hd = White)) as [Hw|Hw].
      * destruct (sweep_free ctx h done x todo hd) as (h1 & E1 & I1 & L1); [by auto..|].
        rewrite E1. cbn [mbind outcome_bind].
        destruct (IH _ _ _ I1) as (h2 & E2 & H2). exists h2. split; [by auto|].
        assert (Hsub : done ++ todo `sublist_of` done ++ x :: todo)
          by (apply sublist_app; [by apply reflexivity|by constructor]).
        destruct H2 as [(d & t & I2 & Hn & Hs & L2)|(l & I2 & Hs & L2)]; [left; exists d, t|right; exists l].
        -- split_and!; [by auto|cbn; lia|by etrans|]. intros y. by rewrite L2.
        -- split_and!; [by auto|by etrans|]. intros y. by rewrite L2.
      * destruct (sweep_keep ctx h done x todo hd) as (h1 & E1 & I1 & L1); [by auto..|].
        rewrite E1. cbn [mbind outcome_bind].
        destruct (IH _ _ _ I1) as (h2 & E2 & H2). exists h2. split; [by auto|].
        rewrite <-app_assoc in H2.
        destruct H2 as [(d & t & I2 & Hn & Hs & L2)|(l & I2 & Hs & L2)]; [left; exists d, t|right; exists l].
        -- split_and!; [by auto|cbn; lia|by auto|]. intros y. by rewrite L2.
        -- split_and!; [by auto|by auto|]. intros y. by rewrite L2.
Qed.
End sweep_step.
