(* ===== verification/GcCorrect.v ===== *)
(** Correctness of the collector: a full collection frees exactly the unreachable objects, and
    collection steps interleaved with a mutator that uses the write barrier never free a reachable
    one. *)
From S2P Require Import Prelude GcHeap GcInvariant.

(** What the collector relies on in a runtime's weak reference processing (its documentation in
    [visitor.rs]: it clears weak references and removes entries, so no strong pointer appears). *)
Class GcContextLaws (C : Type) `{!GcContext C} : Prop := {
  weak_roots : forall (ctx : C) h x, x ∈ roots (process_weak_refs ctx h) -> x ∈ roots ctx;
  weak_children : forall (ctx : C) h x y,
    y ∈ children (process_weak_refs ctx h) x -> y ∈ children ctx x;
}.

Section correct.
Context {C : Type} `{!GcContext C, !GcContextLaws C}.

(** * The invariant of every phase

    [K] bounds the survivors of the running collection from above, [R] from below; [n] bounds
    the remaining work. *)
Inductive HeapInv (K R : Z -> Prop) (ctx : C) (h : Heap) : list Z -> nat -> Prop :=
| inv_idle l :
    IdleInv ctx h l -> (forall x, x ∈ l -> K x) -> (forall x, R x -> x ∈ l) ->
    HeapInv K R ctx h l 0
| inv_marking l :
    phase h = Marking -> Linked h l -> ClosedHeap ctx (mem h) -> TriColor ctx h ->
    child_closed ctx K -> marks_only K h -> (forall x, R x -> reachable ctx x) ->
    HeapInv K R ctx h l (3 + length l + nonblack (mem h) l)
| inv_weak l :
    phase h = WeakRefProcessing -> Linked h l -> ClosedHeap ctx (mem h) -> TriColor ctx h ->
    gray_queue h = [] -> marks_only K h -> (forall x, R x -> color_at (mem h) x = Some Black) ->
    HeapInv K R ctx h l (2 + length l)
| inv_sweep done todo :
    SweepInv ctx h done todo -> (forall x, live done (mem h) x -> K x) ->
    (forall x, R x -> live done (mem h) x) ->
    HeapInv K R ctx h (done ++ todo) (1 + length todo).

(** When marking is over, every reachable object is black. *)
Lemma tri_color_end ctx h x :
  TriColor ctx h -> gray_queue h = [] -> reachable ctx x -> color_at (mem h) x = Some Black.
Proof.
  intros [_ Hq Hr Hb] Hnil.
  assert (Hm : forall y, marked_at (mem h) y -> color_at (mem h) y = Some Black).
  { intros y [Hy|Hy]; [|done]. apply Hq in Hy. rewrite Hnil in Hy. by apply elem_of_nil in Hy. }
  induction 1; eauto.
Qed.

Lemma HeapInv_weaken K R ctx h l n :
  HeapInv K R ctx h l n -> HeapInv (fun _ => True) (fun _ => False) ctx h l n.
Proof.
  intros [l' I _ _|l' ? ? ? ? _ _ _|l' ? ? ? ? ? _ _|d t I _ _]; by constructor.
Qed.

Lemma HeapInv_alive K R ctx h l n x :
  HeapInv K R ctx h l n -> reachable ctx x -> is_Some (mem h !! x).
Proof.
  intros [l' I _ _|l' _ _ Hc _ _ _ _|l' _ _ Hc _ _ _ _|d t I _ _] Hx.
  - by eapply reachable_dom; [apply I|].
  - by eapply reachable_dom.
  - by eapply reachable_dom.
  - assert (Hl : live d (mem h) x).
    { induction Hx; [by apply I|by eapply (sw_children _ _ _ _ I)]. }
    destruct Hl as [Hl|Hl].
    + apply (lk_dom _ _ (sw_linked _ _ _ _ I)). set_solver.
    + apply color_at_dom. by rewrite Hl.
Qed.

(** * Progress and preservation of one collection step *)
Lemma gc_step_inv K R ctx h l n :
  HeapInv K R ctx h l n ->
  exists b ctx' h' l' n', gc_step ctx h = Done (b, ctx', h') /\
    HeapInv K R ctx' h' l' n' /\ l' `sublist_of` l /\
    b = gc_in_progress h' /\ (b = true -> (n' < n)%nat) /\ (b = false -> IdleInv ctx' h' l').
Proof.
  intros [l0 I HK HR|l0 Hp Hl Hc Ht HKc HK HR|l0 Hp Hl Hc Ht Hq HK HR|d t I HK HR]; unfold gc_step.
  - rewrite (id_phase _ _ _ I). exists false, ctx, h, l0, 0%nat.
    split_and!; [done|by constructor|done| |done|done].
    unfold gc_in_progress. by rewrite (id_phase _ _ _ I).
  - rewrite Hp. destruct (mark_step_spec ctx DEFAULT_MARK_STEP_SIZE h l0 Hl Hc Ht Hp)
      as (h' & E & Hl' & Hc' & Ht' & HK' & _ & _ & [[Hp' Hq']|[Hp' Hn']]).
    + rewrite E. eexists _, _, _, _, _. split; [done|]. split.
      { eapply (inv_weak _ _ _ _ l0); try done; [by apply HK'|].
        intros x Hx. eapply tri_color_end; eauto. }
      unfold gc_in_progress. rewrite Hp'. split_and!; [done|done|lia|done].
    + rewrite E. eexists _, _, _, _, _. split; [done|]. split.
      { eapply (inv_marking _ _ _ _ l0); try done. by apply HK'. }
      unfold gc_in_progress. rewrite Hp'. unfold DEFAULT_MARK_STEP_SIZE in *.
      split_and!; [done|done|lia|done].
  - rewrite Hp. eexists _, _, _, _, _. split; [done|].
    assert (Hb : forall x, live [] (mem h) x <-> marked_at (mem h) x).
    { intros x. unfold live, marked_at. rewrite elem_of_nil. split; [tauto|]. intros [Hg|]; [|tauto].
      apply (tc_queue _ _ Ht) in Hg. rewrite Hq in Hg. by apply elem_of_nil in Hg. }
    split.
    { apply (inv_sweep K R _ _ [] l0).
      - split; try done.
        + destruct Hl; split; done.
        + cbn. destruct Hl as [Hs _ _ _ _ _ _ _]. destruct l0; cbn in Hs; naive_solver.
        + intros x Hx. by apply elem_of_nil in Hx.
        + intros x _. cbn. rewrite <-(tc_queue _ _ Ht), Hq. apply not_elem_of_nil.
        + intros x Hx. apply Hb. apply Ht. by apply weak_roots in Hx.
        + intros x y Hx Hy. apply Hb. apply weak_children in Hy. apply (tc_black _ _ Ht x); [|done].
          destruct Hx as [Hx|Hx]; [by apply elem_of_nil in Hx|done].
      - intros x Hx. apply HK. by apply Hb.
      - intros x Hx. right. by apply HR. }
    cbn. split_and!; [done|done|lia|done].
  - rewrite (sw_phase _ _ _ _ I).
    destruct (sweep_step_spec ctx DEFAULT_SWEEP_STEP_SIZE h d t I)
      as (h' & E & [(d' & t' & I' & Hn & Hs & HL)|(l' & I' & Hs & HL)]); rewrite E.
    + eexists _, _, _, _, _. split; [done|]. split.
      { apply (inv_sweep K R _ _ d' t'); [done|..]; setoid_rewrite HL; done. }
      unfold gc_in_progress. rewrite (sw_phase _ _ _ _ I'). unfold DEFAULT_SWEEP_STEP_SIZE in *.
      split_and!; [done|done|lia|done].
    + eexists _, _, _, _, _. split; [done|]. split.
      { apply (inv_idle K R _ _ l'); [done|..]; setoid_rewrite HL; done. }
      unfold gc_in_progress. rewrite (id_phase _ _ _ I'). done.
Qed.

(** [finish_gc] returns once its fuel exceeds the bound on the remaining work. *)
Lemma finish_gc_total K R fuel steps ctx h l n :
  HeapInv K R ctx h l n -> (n < fuel)%nat ->
  exists steps' ctx' h' l' n', finish_gc fuel steps ctx h = Done (steps', ctx', h') /\
    HeapInv K R ctx' h' l' n' /\ IdleInv ctx' h' l' /\ l' `sublist_of` l /\
    (steps' <= steps + n + 1)%nat.
Proof.
  revert steps ctx h l n. induction fuel as [|fuel IH]; intros steps ctx h l n I Hn; [lia|].
  cbn [finish_gc].
  destruct (gc_step_inv K R ctx h l n I) as (b & ctx1 & h1 & l1 & n1 & E & I1 & Hs & Hb & Hlt & Hid).
  rewrite E. cbn. destruct b.
  - specialize (Hlt eq_refl). destruct (IH (S steps) ctx1 h1 l1 n1 I1) as
      (s2 & c2 & h2 & l2 & n2 & E2 & I2 & Hid2 & Hs2 & Hb2); [lia|].
    exists s2, c2, h2, l2, n2. split_and!; try done; [by etrans|lia].
  - exists (S steps), ctx1, h1, l1, n1. split_and!; try done; [by apply Hid|lia].
Qed.

(** [start_gc] shades the roots of an idle heap and enters the marking phase. *)
Lemma start_gc_inv ctx h l :
  IdleInv ctx h l ->
  exists h', start_gc ctx h = Done h' /\
    HeapInv (reachable ctx) (reachable ctx) ctx h' l (3 + length l + nonblack (mem h') l).
Proof.
  intros I. unfold start_gc, gc_in_progress. rewrite (id_phase _ _ _ I). cbn.
  set (h0 := set_freed 0 0 (set_phase RootScanning h)).
  destruct (shade_all_spec (roots ctx) h0) as (h1 & E1 & S1).
  { intros x Hx. by apply (id_closed _ _ _ I). }
  rewrite marker_calls_shade. unfold roots in E1. rewrite E1. cbn.
  assert (Hw : forall x, color_at (mem h) x = None \/ color_at (mem h) x = Some White).
  { intros x. destruct (color_at (mem h) x) as [c|] eqn:Hc; [right|by left]. rewrite <-Hc.
    apply I. apply (id_linked _ _ _ I). apply color_at_dom. by rewrite Hc. }
  assert (Hl1 : Linked h1 l).
  { eapply Shaded_Linked; [done|]. eapply (Linked_shape h); try done; [by rewrite (proj1 (id_freed _ _ _ I))
      |by rewrite (proj2 (id_freed _ _ _ I))|apply I]. }
  destruct (sh_queue _ _ _ S1) as (new & Qn & Nn & En).
  assert (Hq1 : gray_queue h1 = new) by (rewrite Qn; cbn; rewrite (id_queue _ _ _ I); apply app_nil_r).
  eexists. split; [done|]. apply inv_marking; try done.
  - destruct Hl1; split; done.
  - eapply ClosedHeap_dom; [|apply I]. intros x. cbn. apply (Shaded_dom _ _ _ x S1).
  - split; cbn; rewrite ?Hq1.
    + done.
    + intros x. rewrite En, (sh_color _ _ _ S1 x). cbn.
      destruct (Hw x) as [->| ->]; case_decide; naive_solver.
    + intros x Hx. eapply Shaded_marks; [done|done|]. by apply (id_closed _ _ _ I).
    + intros x y Hx. apply (Shaded_black _ _ _ x S1) in Hx. cbn in Hx.
      destruct (Hw x); congruence.
  - intros x y Hx Hy. by eapply reach_child.
  - intros x Hx. unfold marked_at in Hx. cbn in Hx. rewrite (sh_color _ _ _ S1 x) in Hx. cbn in Hx.
    destruct (decide _) as [[_ Hr]|_]; [by apply reach_root|]. destruct (Hw x); naive_solver.
Qed.
(** C1: a full collection ([Context::run_gc]) of an idle heap returns, for any fuel above a bound
    linear in the number of objects, without touching freed memory; the heap is idle again, its
    invariant holds, and its objects are exactly the reachable ones, in their old order. *)
Theorem run_gc_collects_garbage ctx h l fuel :
  IdleInv ctx h l -> (3 + 2 * length l < fuel)%nat ->
  exists ctx' h' l', run_gc fuel ctx h = Done (ctx', h') /\ IdleInv ctx' h' l' /\
    l' `sublist_of` l /\ (forall x, x ∈ l' <-> reachable ctx x) /\
    (forall x, is_Some (mem h' !! x) <-> reachable ctx x).
Proof.
  intros I Hf. destruct (start_gc_inv ctx h l I) as (h1 & E1 & I1).
  assert (Hn : (nonblack (mem h1) l <= length l)%nat) by apply length_filter.
  destruct (finish_gc_total _ _ fuel 0 _ _ _ _ I1) as (s2 & c2 & h2 & l2 & n2 & E2 & I2 & Id & Hs & _);
    [lia|].
  exists c2, h2, l2. unfold run_gc. rewrite E1. cbn. rewrite E2. cbn.
  assert (Hx : forall x, x ∈ l2 <-> reachable ctx x).
  { destruct I2 as [? ? HK HR|l2 Hp|l2 Hp|d t Sw]; [intros x; split; auto|exfalso..].
    all: pose proof (id_phase _ _ _ Id); try pose proof (sw_phase _ _ _ _ Sw); congruence. }
  split_and!; try done. intros x. by rewrite <-(lk_dom _ _ (id_linked _ _ _ Id)), Hx.
Qed.

(** * Interleaving with the mutator *)

(** [barriers ts]: the write barrier on each pointer the mutator stores. *)
Fixpoint barriers (ts : list GcPtr) (h : Heap) : outcome Heap :=
  match ts with
  | [] => Done h
  | t :: ts' => h' ← write_barrier t h; barriers ts' h'
  end.

(** The mutator changes the object graph: every strong pointer it adds, in the roots or in an
    object, points to an object it can reach and is passed to the write barrier. *)
Record mutation (ctx ctx' : C) (ts : list GcPtr) : Prop := mkMutation {
  mu_roots : forall x, x ∈ roots ctx' -> x ∈ roots ctx \/ x ∈ targets (Visit <$> ts);
  mu_children : forall x y, y ∈ children ctx' x ->
    y ∈ children ctx x \/ y ∈ targets (Visit <$> ts);
  mu_reach : forall x, x ∈ targets (Visit <$> ts) -> reachable ctx x;
}.

(** A new object becomes a root; its fields are initialised by later mutations. *)
Record new_object (ctx ctx' : C) (x : Z) : Prop := mkNewObject {
  no_roots : forall y, y ∈ roots ctx' -> y = x \/ y ∈ roots ctx;
  no_children : forall y z, y <> x -> z ∈ children ctx' y -> z ∈ children ctx y;
  no_fields : children ctx' x = [];
}.

(** Steps of the mutator and the collector, in any order.  Allocation is not modelled in the
    sweeping phase: see [alloc_while_sweeping_dangles] for why it must be excluded. *)
Inductive gc_trans (sys_alloc : gmap Z GcHeader -> Z -> option Z) : C * Heap -> C * Heap -> Prop :=
| tr_start ctx h h' :
    start_gc ctx h = Done h' -> gc_trans sys_alloc (ctx, h) (ctx, h')
| tr_step ctx h b ctx' h' :
    gc_step ctx h = Done (b, ctx', h') -> gc_trans sys_alloc (ctx, h) (ctx', h')
| tr_mutate ctx h ts ctx' h' :
    mutation ctx ctx' ts -> barriers ts h = Done h' -> gc_trans sys_alloc (ctx, h) (ctx', h')
| tr_alloc ctx h size align p ctx1 ctx' h' :
    0 <= size <= isize_max ->
    alloc_with_size sys_alloc ctx size align h = Done (inl p, ctx1, h') ->
    (* neither statistic overflowed *)
    HEADER_SIZE + size <= bytes_allocated h' -> 1 <= num_objects h' ->
    phase h' <> Sweeping ->
    new_object ctx1 ctx' (from_object_ptr p) ->
    gc_trans sys_alloc (ctx, h) (ctx', h')
| tr_alloc_failed ctx h size align ctx' h' :
    alloc_with_size sys_alloc ctx size align h = Done (inr tt, ctx', h') ->
    gc_trans sys_alloc (ctx, h) (ctx', h').

(** The invariant of the interleaved system. *)
Definition GcInv (s : C * Heap) : Prop :=
  exists l n, HeapInv (fun _ => True) (fun _ => False) s.1 s.2 l n.

Lemma GcInv_alive s x : GcInv s -> reachable s.1 x -> is_Some (mem s.2 !! x).
Proof. intros (l & n & I). by eapply HeapInv_alive. Qed.

Lemma Shaded_phase xs h h' : Shaded xs h h' -> phase h' = phase h.
Proof. intros S. by rewrite (sh_frame _ _ _ S). Qed.

Lemma write_barrier_shade t h :
  write_barrier t h =
    if is_marking h then shade_all (targets [Visit t]) h else Done h.
Proof.
  unfold write_barrier, mark_gray_ptr, targets. rewrite mark_gray_raw_shade. cbn.
  destruct (is_marking h); [|done]. destruct (is_dangling t); [done|]. cbn.
  destruct (ptr t =? 0); cbn; [done|]. by destruct (shade _ h).
Qed.

Lemma barriers_spec ts h :
  (forall x, x ∈ targets (Visit <$> ts) -> is_Some (mem h !! x)) ->
  exists h', barriers ts h = Done h' /\
    if is_marking h then Shaded (targets (Visit <$> ts)) h h' else h' = h.
Proof.
  revert h. induction ts as [|t ts IH]; intros h Hd.
  - exists h. split; [done|]. destruct (is_marking h); [apply Shaded_refl|done].
  - assert (Et : targets (Visit <$> t :: ts) = targets [Visit t] ++ targets (Visit <$> ts)).
    { unfold targets. by rewrite <-omap_app. }
    rewrite Et in *. cbn [barriers]. rewrite write_barrier_shade.
    destruct (is_marking h) eqn:Hm.
    + destruct (shade_all_spec (targets [Visit t]) h) as (h1 & E1 & S1); [set_solver|].
      rewrite E1. cbn [mbind outcome_bind]. destruct (IH h1) as (h2 & E2 & S2).
      { intros x Hx. apply (Shaded_dom _ _ _ x S1). set_solver. }
      exists h2. split; [done|]. unfold is_marking in *. rewrite (Shaded_phase _ _ _ S1), Hm in S2.
      by eapply Shaded_trans.
    + cbn [mbind outcome_bind]. destruct (IH h) as (h2 & E2 & S2); [set_solver|].
      rewrite Hm in S2. eauto.
Qed.

(** Mutation through the write barrier keeps the invariant and does not fault. *)
Lemma mutation_inv ctx ctx' ts h :
  GcInv (ctx, h) -> mutation ctx ctx' ts ->
  exists h', barriers ts h = Done h' /\ GcInv (ctx', h').
Proof.
  intros I [Mr Mc Mt].
  assert (Hd : forall x, x ∈ targets (Visit <$> ts) -> is_Some (mem h !! x)).
  { intros x Hx. apply (GcInv_alive (ctx, h)); auto. }
  destruct (barriers_spec ts h Hd) as (h' & E & S). exists h'. split; [done|].
  destruct I as (l & n & I). cbn in I. unfold is_marking in S.
  assert (Hcl : ClosedHeap ctx (mem h) -> ClosedHeap ctx' (mem h)).
  { intros [Cr Cc]. split.
    - intros x [Hx|Hx]%Mr; auto.
    - intros x y Hx [Hy|Hy]%Mc; eauto. }
  destruct I as [l I _ _|l Hp Hl Hc Ht _ _ _|l Hp Hl Hc Ht Hq _ _|d t I _ _].
  - rewrite (id_phase _ _ _ I) in S. subst h'. exists l. eexists. apply inv_idle; [|done..].
    destruct I; split; auto.
  - rewrite Hp in S. exists l. eexists. apply inv_marking; try done; cbn.
    + by rewrite (Shaded_phase _ _ _ S).
    + by eapply Shaded_Linked.
    + eapply ClosedHeap_dom; [|by apply Hcl]. intros x. apply (Shaded_dom _ _ _ x S).
    + destruct (sh_queue _ _ _ S) as (new & Qn & Nn & En). destruct Ht as [T1 T2 T3 T4]. split.
      * rewrite Qn. apply NoDup_app. split_and!; [done| |done]. intros x [Hx _]%En Hx'%T2. congruence.
      * intros x. rewrite Qn, elem_of_app, En, T2, (sh_color _ _ _ S x). case_decide; naive_solver.
      * intros x [Hx|Hx]%Mr; [eapply Shaded_marked|eapply Shaded_marks]; eauto.
      * intros x y Hx%(Shaded_black _ _ _ x S) [Hy|Hy]%Mc;
          [eapply Shaded_marked|eapply Shaded_marks]; eauto.
  - rewrite Hp in S. subst h'. exists l. eexists. apply inv_weak; try done; cbn; [by apply Hcl|].
    assert (Hr : forall x, x ∈ targets (Visit <$> ts) -> marked_at (mem h) x).
    { intros x Hx. right. apply (tri_color_end ctx); auto. }
    destruct Ht as [T1 T2 T3 T4]. split; try done.
    + intros x [Hx|Hx]%Mr; auto.
    + intros x y Hx [Hy|Hy]%Mc; eauto.
  - rewrite (sw_phase _ _ _ _ I) in S. subst h'. exists (d ++ t). eexists. apply inv_sweep; [|done..].
    assert (Hr : forall x, reachable ctx x -> live d (mem h) x).
    { induction 1; [by apply I|by eapply (sw_children _ _ _ _ I)]. }
    destruct I as [S1 S2 S3 S4 S5 S6 S7 S8 S9]. split; try done; cbn.
    + intros x [Hx|Hx]%Mr; auto.
    + intros x y Hx [Hy|Hy]%Mc; eauto.
Qed.

(** Linking a fresh block at the head of the list. *)
Lemma Linked_alloc h l x size c :
  Linked h l -> mem h !! x = None -> 0 <= size <= isize_max ->
  (exists n, layout_for_size size = Done n) ->
  HEADER_SIZE + size <= wrap64 (bytes_allocated h + wrap64 (HEADER_SIZE + size)) ->
  1 <= wrap64 (num_objects h + 1) ->
  Linked (set_stats (wrap64 (bytes_allocated h + wrap64 (HEADER_SIZE + size)))
            (wrap64 (num_objects h + 1))
            (set_all_objects (Some x)
               (set_mem (<[x := mkHeader c size (all_objects h)]> (mem h)) h))) (x :: l).
Proof.
  intros [L1 L2 L3 L4 L5 L6 L7 L8] Hx Hs Hlay Hb Hn.
  assert (Hxl : x ∉ l) by (intros Hin%L3; rewrite Hx in Hin; by destruct Hin).
  pose proof (sizes_bytes _ l L4).
  assert (Ht : wrap64 (HEADER_SIZE + size) = HEADER_SIZE + size).
  { apply wrap64_small. unfold HEADER_SIZE, isize_max, usize_max in *. lia. }
  rewrite Ht in *.
  assert (Hnb : bytes_allocated h + (HEADER_SIZE + size) <= usize_max).
  { destruct (Z.le_gt_cases (bytes_allocated h + (HEADER_SIZE + size)) usize_max) as [|Hgt]; [done|].
    exfalso. unfold wrap64 in Hb. unfold usize_max, isize_max, HEADER_SIZE in *.
    rewrite (Z.mod_eq _ (2 ^ 64)) in Hb by lia.
    assert ((bytes_allocated h + (24 + size)) / 2 ^ 64 = 1) as Hdiv; [|lia].
    symmetry. apply (Z.div_unique_pos _ _ 1 (bytes_allocated h + (24 + size) - 2 ^ 64)); lia. }
  assert (Hnn : num_objects h + 1 <= usize_max).
  { destruct (Z.le_gt_cases (num_objects h + 1) usize_max) as [|Hgt]; [done|]. exfalso.
    assert (num_objects h = usize_max) as E by lia. rewrite E in Hn. by vm_compute in Hn. }
  assert (Hext : forall y, y ∈ l -> <[x := mkHeader c size (all_objects h)]> (mem h) !! y = mem h !! y).
  { intros y Hy. rewrite lookup_insert_ne; [done|]. by intros ->. }
  split; cbn -[wrap64]; rewrite ?wrap64_small by (unfold HEADER_SIZE in *; lia).
  - split; [done|]. exists (mkHeader c size (all_objects h)). split; [apply lookup_insert_eq|]. cbn.
    eapply lseg_ext; [|done]. intros y Hy. by rewrite Hext.
  - by constructor.
  - intros y. rewrite elem_of_cons, lookup_insert, L3. case_decide; naive_solver.
  - intros y hd. rewrite lookup_insert. case_decide; [intros [= <-]; by cbn|apply L4].
  - rewrite bytes_cons. unfold bytes_at at 1. rewrite lookup_insert_eq. cbn.
    rewrite (bytes_ext _ (mem h)); [unfold HEADER_SIZE in *; lia|].
    intros y Hy. unfold bytes_at. by rewrite Hext.
  - lia.
  - done.
  - done.
Qed.

Lemma gc_step_GcInv ctx h b ctx' h' :
  GcInv (ctx, h) -> gc_step ctx h = Done (b, ctx', h') -> GcInv (ctx', h').
Proof.
  intros (l & n & I) E. destruct (gc_step_inv _ _ _ _ _ _ I) as (b1 & c1 & h1 & l1 & n1 & E1 & I1 & _).
  cbn in *. rewrite E in E1. simplify_eq. by exists l1, n1.
Qed.

(** The collection step allocation makes first. *)
Lemma alloc_step_GcInv ctx h b ctx' h' :
  GcInv (ctx, h) -> (if gc_in_progress h then gc_step ctx h else Done (false, ctx, h)) = Done (b, ctx', h') ->
  GcInv (ctx', h').
Proof.
  intros I. destruct (gc_in_progress h); [by apply gc_step_GcInv|]. intros E. by simplify_eq.
Qed.

Lemma ClosedHeap_alloc ctx ctx' m x hd :
  new_object ctx ctx' x -> ClosedHeap ctx m -> ClosedHeap ctx' (<[x := hd]> m).
Proof.
  intros [Nr Nc Nf] [Cr Cc].
  assert (Hsub : forall y, is_Some (m !! y) -> is_Some (<[x := hd]> m !! y)).
  { intros y Hy. rewrite lookup_insert. by case_decide. }
  split.
  - intros y [->|Hy]%Nr; [rewrite lookup_insert_eq; eauto|auto].
  - intros y z Hy Hz. destruct (decide (y = x)) as [->|Hne].
    + rewrite Nf in Hz. by apply elem_of_nil in Hz.
    + apply Hsub. eapply Cc; [|by apply Nc]. by rewrite lookup_insert_ne in Hy.
Qed.

Lemma TriColor_alloc ctx ctx' h h' x hd :
  new_object ctx ctx' x -> mem h !! x = None -> color hd = Black ->
  mem h' = <[x := hd]> (mem h) -> gray_queue h' = gray_queue h ->
  TriColor ctx h -> TriColor ctx' h'.
Proof.
  intros [Nr Nc Nf] Hx Hb Em Eq [T1 T2 T3 T4].
  assert (Hc : forall y, color_at (mem h') y =
    if decide (x = y) then Some Black else color_at (mem h) y).
  { intros y. by rewrite Em, color_at_insert, Hb. }
  assert (Hm : forall y, marked_at (mem h) y -> marked_at (mem h') y).
  { intros y. unfold marked_at. rewrite Hc. case_decide; tauto. }
  split; rewrite ?Eq.
  - done.
  - intros y. rewrite T2, Hc. case_decide; [subst|done]. unfold color_at. by rewrite Hx.
  - intros y [->|Hy]%Nr; [|auto]. right. by rewrite Hc, decide_True.
  - intros y z Hy Hz. destruct (decide (y = x)) as [->|Hne].
    + rewrite Nf in Hz. by apply elem_of_nil in Hz.
    + apply Hm. eapply T4; [|by apply Nc]. by rewrite Hc, decide_False in Hy.
Qed.

Lemma alloc_GcInv sys_alloc ctx h size align p ctx1 ctx' h' :
  (forall m n x, sys_alloc m n = Some x -> m !! x = None) ->
  GcInv (ctx, h) -> 0 <= size <= isize_max ->
  alloc_with_size sys_alloc ctx size align h = Done (inl p, ctx1, h') ->
  HEADER_SIZE + size <= bytes_allocated h' -> 1 <= num_objects h' -> phase h' <> Sweeping ->
  new_object ctx1 ctx' (from_object_ptr p) -> GcInv (ctx', h').
Proof.
  intros Hfresh I Hs E Hb Hn Hp Hnew. unfold alloc_with_size in E.
  apply bind_done in E as ([[b c1] h1] & E1 & E). apply (alloc_step_GcInv _ _ _ _ _ I) in E1.
  destruct (HEADER_ALIGN <? align); [done|]. apply bind_done in E as (lay & Hlay & E).
  destruct (sys_alloc (mem h1) lay) as [x|] eqn:Hx; [|done]. apply Hfresh in Hx. simplify_eq/=.
  replace (from_object_ptr (object_ptr x)) with x in Hnew by (unfold from_object_ptr, object_ptr; lia).
  set (c := if gc_in_progress h1 then Black else White).
  assert (Ehd : set_next_object (all_objects h1)
    (if gc_in_progress h1 then set_color Black (GcHeader_new size) else GcHeader_new size)
    = mkHeader c size (all_objects h1)) by (unfold c; by destruct (gc_in_progress h1)).
  rewrite Ehd in *. unfold total_size in *. cbn [alloc_size] in *.
  destruct E1 as (l & n & I1). cbn in I1. exists (x :: l). cbn [fst snd].
  destruct I1 as [l I1 _ _|l Hp1 Hl Hc Ht _ _ _|l Hp1 Hl Hc Ht Hq _ _|d t I1 _ _].
  - eexists. apply inv_idle; [|done..]. split; try done.
    + apply I1.
    + apply Linked_alloc; eauto. apply I1.
    + cbn. apply I1.
    + cbn. unfold c, gc_in_progress. rewrite (id_phase _ _ _ I1). cbn. intros y [->|Hy]%elem_of_cons;
        rewrite color_at_insert; case_decide; try done. by apply I1.
    + apply I1.
    + cbn. eapply ClosedHeap_alloc; [done|apply I1].
  - eexists. apply inv_marking; try done.
    + by apply Linked_alloc; eauto.
    + by eapply ClosedHeap_alloc.
    + eapply TriColor_alloc; [..|done]; try done. unfold c, gc_in_progress. by rewrite Hp1.
  - eexists. apply inv_weak; try done.
    + by apply Linked_alloc; eauto.
    + by eapply ClosedHeap_alloc.
    + eapply TriColor_alloc; [..|done]; try done. unfold c, gc_in_progress. by rewrite Hp1.
  - exfalso. apply Hp. apply I1.
Qed.

Lemma gc_trans_GcInv sys_alloc s s' :
  (forall m n x, sys_alloc m n = Some x -> m !! x = None) ->
  gc_trans sys_alloc s s' -> GcInv s -> GcInv s'.
Proof.
  intros Hfresh [ctx h h' E|ctx h b ctx' h' E|ctx h ts ctx' h' Hm E|
    ctx h size align p ctx1 ctx' h' Hs E Hb Hn Hp Hnew|ctx h size align ctx' h' E] I.
  - destruct I as (l & n & I). destruct (decide (phase h = Idle)) as [Hid|Hne].
    + assert (Hi : IdleInv ctx h l).
      { cbn in I. destruct I as [|? Hp|? Hp|? ? S]; [done|congruence..|].
        pose proof (sw_phase _ _ _ _ S). congruence. }
      destruct (start_gc_inv ctx h l Hi) as (h1 & E1 & I1). rewrite E in E1. simplify_eq.
      exists l. eexists. by eapply HeapInv_weaken.
    + unfold start_gc, gc_in_progress in E. rewrite bool_decide_false in E by done. cbn in E.
      simplify_eq. by exists l, n.
  - by eapply gc_step_GcInv.
  - destruct (mutation_inv _ _ _ _ I Hm) as (h1 & E1 & I1).
    rewrite E in E1. by injection E1 as ->.
  - by eapply alloc_GcInv.
  - unfold alloc_with_size in E. apply bind_done in E as ([[b c1] h1] & E1 & E).
    apply (alloc_step_GcInv _ _ _ _ _ I) in E1. destruct (HEADER_ALIGN <? align); [by simplify_eq|].
    apply bind_done in E as (lay & _ & E). destruct (sys_alloc (mem h1) lay); by simplify_eq.
Qed.

Lemma reached_GcInv sys_alloc s s' :
  (forall m n x, sys_alloc m n = Some x -> m !! x = None) ->
  rtc (gc_trans sys_alloc) s s' -> GcInv s -> GcInv s'.
Proof. intros Hfresh Hs I. induction Hs as [|s1 s2 s3 H12 _ IH]; [done|]. apply IH. by eapply gc_trans_GcInv. Qed.

(** C2: memory safety of incremental collection.  However start, step, mutator and allocation
    steps are interleaved (with allocation outside the sweeping phase), every object the mutator
    can reach is still allocated. *)
Theorem incremental_gc_keeps_reachable sys_alloc s s' :
  (forall m n x, sys_alloc m n = Some x -> m !! x = None) ->
  rtc (gc_trans sys_alloc) s s' -> GcInv s ->
  GcInv s' /\ forall x, reachable s'.1 x -> is_Some (mem s'.2 !! x).
Proof.
  intros Hfresh Hs I. assert (I' : GcInv s') by by eapply reached_GcInv.
  split; [done|]. intros x. by apply GcInv_alive.
Qed.

Lemma GcInv_bound ctx h :
  GcInv (ctx, h) -> exists l n, HeapInv (fun _ => True) (fun _ => False) ctx h l n /\
    (n <= 3 + 2 * size (mem h))%nat.
Proof.
  intros (l & n & I). cbn in I. exists l, n. split; [done|].
  assert (Hsz : forall k, Linked h k -> size (mem h) = length k).
  { intros k [_ Hnd Hd _ _ _ _ _]. rewrite <-size_dom.
    assert (dom (mem h) = list_to_set k) as ->.
    { apply set_eq. intros x. by rewrite elem_of_dom, elem_of_list_to_set, Hd. }
    by apply size_list_to_set. }
  destruct I as [|l Hp Hl|l Hp Hl|d t Sw]; [lia|rewrite (Hsz l) by done..|].
  - assert (nonblack (mem h) l <= length l)%nat by apply length_filter. lia.
  - lia.
  - rewrite (Hsz (d ++ t)) by apply Sw. rewrite length_app. lia.
Qed.

(** C22: a collection runs to completion.  From every state that is reached from a heap satisfying
    the invariant (for example an idle one) by starting and stepping a collection, by mutations with
    the write barrier and by allocations that do not end in the sweeping phase, [finish_gc] returns
    with an idle heap, with fuel above a bound linear in the number of allocated objects and after at
    most that many steps. *)
Theorem finish_gc_completes sys_alloc s ctx h fuel :
  (forall m n x, sys_alloc m n = Some x -> m !! x = None) ->
  GcInv s -> rtc (gc_trans sys_alloc) s (ctx, h) -> (3 + 2 * size (mem h) < fuel)%nat ->
  exists steps ctx' h' l, finish_gc fuel 0 ctx h = Done (steps, ctx', h') /\ IdleInv ctx' h' l /\
    (steps <= 4 + 2 * size (mem h))%nat.
Proof.
  intros Hfresh I Hs Hf. apply (reached_GcInv _ _ _ Hfresh Hs) in I.
  apply GcInv_bound in I as (l & n & I & Hn).
  destruct (finish_gc_total _ _ fuel 0 _ _ _ _ I) as (s2 & c2 & h2 & l2 & n2 & E & _ & Id & _ & Hn2); [lia|].
  exists s2, c2, h2, l2. split_and!; try done. lia.
Qed.

Lemma start_gc_returns ctx h : GcInv (ctx, h) -> exists h', start_gc ctx h = Done h'.
Proof.
  intros (l & n & I). destruct (decide (phase h = Idle)) as [Hid|Hne].
  - cbn in I. destruct I as [l I _ _|? Hp|? Hp|? ? S]; [|congruence..|].
    + destruct (start_gc_inv ctx h l I) as (h1 & E1 & _). by eexists.
    + pose proof (sw_phase _ _ _ _ S). congruence.
  - unfold start_gc, gc_in_progress. rewrite bool_decide_false by done. by eexists.
Qed.

(** C23: absence of undefined behaviour.  In every state that is reached from a heap satisfying the
    invariant by starting and stepping a collection, by mutations with the write barrier and by
    allocations that do not end in the sweeping phase: starting and stepping a collection returns, the
    write barrier returns on the pointers of any further mutation, and allocation returns or panics on
    a size without a layout; none dereferences memory that is not allocated. *)
Theorem gc_operations_do_not_fault sys_alloc s ctx h :
  (forall m n x, sys_alloc m n = Some x -> m !! x = None) ->
  GcInv s -> rtc (gc_trans sys_alloc) s (ctx, h) ->
  (exists h', start_gc ctx h = Done h') /\ (exists r, gc_step ctx h = Done r) /\
  (forall ctx' ts, mutation ctx ctx' ts -> exists h', barriers ts h = Done h') /\
  (forall size align,
     (exists r, alloc_with_size sys_alloc ctx size align h = Done r) \/
     (alloc_with_size sys_alloc ctx size align h = Panicked /\ layout_for_size size = Panicked)).
Proof.
  intros Hfresh I Hs. apply (reached_GcInv _ _ _ Hfresh Hs) in I.
  assert (Hstep : exists r, gc_step ctx h = Done r).
  { destruct I as (l & n & I). destruct (gc_step_inv _ _ _ _ _ _ I) as (b & c & h1 & l1 & n1 & E & _).
    by eexists. }
  split_and!; [by apply start_gc_returns|done| |].
  - intros ctx' ts Hm. destruct (mutation_inv _ _ _ _ I Hm) as (h' & E & _). by eexists.
  - intros size align. unfold alloc_with_size.
    assert (Hs1 : exists r, (if gc_in_progress h then gc_step ctx h else Done (false, ctx, h)) = Done r)
      by (destruct (gc_in_progress h); [done|by eexists]).
    destruct Hs1 as [[[b c1] h1] ->]. cbn. destruct (HEADER_ALIGN <? align); [left; by eexists|].
    destruct (layout_for_size size) as [n| | |] eqn:Hlay.
    + left. cbn. destruct (sys_alloc (mem h1) n); by eexists.
    + right. by cbn.
    + unfold layout_for_size in Hlay. by case_match.
    + unfold layout_for_size in Hlay. by case_match.
Qed.

End correct.

(** * A concrete runtime

    Roots and the fields of each object, by header address: used to evaluate the collector. *)
Module GcExample.

Record graph : Type := mkGraph { g_roots : list Z; g_fields : list (Z * list Z) }.

Definition field_ptr (header : Z) : visit_call := Visit (mkPtr (object_ptr header) 8).

Definition fields_of (g : graph) (header : Z) : list Z :=
  concat ((fun e : Z * list Z => if e.1 =? header then e.2 else []) <$> g_fields g).

#[export] Instance graph_context : GcContext graph := {
  visit_roots g := field_ptr <$> g_roots g;
  trace_object g object := field_ptr <$> fields_of g (from_object_ptr object);
  process_weak_refs g _ := g;
}.

#[export] Instance graph_laws : GcContextLaws graph.
Proof. split; by intros. Qed.

(** Two objects, of which the first is the root, and a third that is garbage. *)
Definition ex_graph : graph := mkGraph [1000] [(1000, [2000]); (3000, [2000])].

Definition ex_heap : Heap :=
  mkHeap (Some 3000) (3 * 40) 3 DEFAULT_GC_THRESHOLD [] Idle None None 0 0
    (<[1000 := mkHeader White 16 None]> (<[2000 := mkHeader White 16 (Some 1000)]>
      (<[3000 := mkHeader White 16 (Some 2000)]> ∅))).

Lemma ex_dom x : x ∈ [3000; 2000; 1000] <-> is_Some (mem ex_heap !! x).
Proof.
  cbn. rewrite !lookup_insert, lookup_empty. rewrite !elem_of_cons, elem_of_nil.
  repeat case_decide; subst; split; try naive_solver; intros [? ?]; done.
Qed.

Lemma ex_children x y : y ∈ children ex_graph x -> y = 2000.
Proof.
  unfold children, targets. cbn -[Z.eqb].
  unfold fields_of, from_object_ptr, object_ptr. cbn -[Z.eqb HEADER_SIZE].
  destruct (1000 =? _), (3000 =? _); 
    match goal with |- _ ∈ ?l -> _ => let l' := eval vm_compute in l in change l with l' end;
    intros Hy; by inv_elem.
Qed.

Lemma ex_idle : IdleInv ex_graph ex_heap [3000; 2000; 1000].
Proof.
  split; try done.
  - split.
    + repeat (split; [reflexivity|]; eexists; split; [reflexivity|]). done.
    + apply (bool_decide_eq_true_1 _). vm_compute. reflexivity.
    + apply ex_dom.
    + intros x hd. cbn. rewrite !lookup_insert, lookup_empty.
      repeat case_decide; intros [= <-]; (split; [done|by eexists]).
    + reflexivity.
    + reflexivity.
    + done.
    + done.
  - intros x Hx. by inv_elem.
  - split.
    + intros x Hx. change (x ∈ [1000]) in Hx. inv_elem. apply ex_dom. set_solver.
    + intros x y _ ->%ex_children. apply ex_dom. set_solver.
Qed.

Lemma ex_inv : GcInv (ex_graph, ex_heap).
Proof. exists [3000; 2000; 1000], 0%nat. apply inv_idle; [apply ex_idle|done..]. Qed.

Lemma run_gc_collects_garbage_witness :
  exists ctx' h' l', run_gc 10 ex_graph ex_heap = Done (ctx', h') /\ IdleInv ctx' h' l' /\
      l' `sublist_of` [3000; 2000; 1000] /\ (forall x, x ∈ l' <-> reachable ex_graph x) /\
      (forall x, is_Some (mem h' !! x) <-> reachable ex_graph x).
Proof. apply (run_gc_collects_garbage ex_graph ex_heap [3000; 2000; 1000] 10 ex_idle). cbn. lia. Defined.

(** An allocator that returns an address not in use. *)
Definition ex_alloc (m : gmap Z GcHeader) (n : Z) : option Z := Some (fresh (dom m)).

Lemma ex_alloc_fresh m n x : ex_alloc m n = Some x -> m !! x = None.
Proof. intros [= <-]. apply not_elem_of_dom. apply is_fresh. Qed.

Definition ex_marking : Heap :=
  match start_gc ex_graph ex_heap with Done h => h | _ => ex_heap end.

Lemma incremental_gc_keeps_reachable_witness :
  GcInv (ex_graph, ex_marking) /\ forall x, reachable ex_graph x -> is_Some (mem ex_marking !! x).
Proof.
  apply (incremental_gc_keeps_reachable ex_alloc (ex_graph, ex_heap) (ex_graph, ex_marking)).
  - apply ex_alloc_fresh.
  - eapply rtc_l; [|apply rtc_refl]. apply tr_start. vm_compute. reflexivity.
  - apply ex_inv.
Defined.

(** The marking phase, after the root was scanned. *)
Lemma ex_marking_reached : rtc (gc_trans ex_alloc) (ex_graph, ex_heap) (ex_graph, ex_marking).
Proof. eapply rtc_l; [|apply rtc_refl]. apply tr_start. vm_compute. reflexivity. Qed.

Lemma finish_gc_completes_witness :
  phase ex_marking = Marking /\
  exists steps ctx' h' l, finish_gc 10 0 ex_graph ex_marking = Done (steps, ctx', h') /\
    IdleInv ctx' h' l /\ (steps <= 10)%nat.
Proof.
  split; [vm_compute; reflexivity|].
  apply (finish_gc_completes ex_alloc (ex_graph, ex_heap) ex_graph ex_marking 10 ex_alloc_fresh ex_inv ex_marking_reached).
  vm_compute. lia.
Defined.

(** Storing the object 2000 in itself while marking. *)
Lemma gc_operations_do_not_fault_witness :
  (exists r, gc_step ex_graph ex_marking = Done r) /\
  (exists h', barriers [mkPtr (object_ptr 2000) 8] ex_marking = Done h').
Proof.
  destruct (gc_operations_do_not_fault ex_alloc (ex_graph, ex_heap) ex_graph ex_marking ex_alloc_fresh ex_inv
    ex_marking_reached) as (_ & Hstep & Hbarrier & _).
  split; [exact Hstep|].
  apply (Hbarrier (mkGraph [1000] [(1000, [2000]); (3000, [2000]); (2000, [2000])])). split.
  - intros x Hx. by left.
  - intros x y Hy. right. change (y ∈ [2000]). revert Hy. unfold children, targets. cbn -[Z.eqb].
    unfold fields_of, from_object_ptr, object_ptr. cbn -[Z.eqb HEADER_SIZE].
    destruct (1000 =? _), (3000 =? _), (2000 =? _);
      match goal with |- _ ∈ ?l -> _ => let l' := eval vm_compute in l in change l with l' end;
      intros Hy; inv_elem; by left.
  - intros x Hx. change (x ∈ [2000]) in Hx. inv_elem. apply (reach_child _ 1000).
    + apply reach_root. by left.
    + change (2000 ∈ [2000]). by left.
Defined.

(** ** Allocation while sweeping

    The incremental protocol of [heap.rs] lets allocation drive the collection; an allocation in
    the weak reference phase first enters the sweeping phase and then links a black object at the
    head of the list, in front of the sweep position.  That object is still black when the next
    collection starts, so the marker does not trace it. *)

(** The address given to the n-th object of the scenario. *)
Definition seq_alloc (m : gmap Z GcHeader) (n : Z) : option Z :=
  Some (1000 * (1 + Z.of_nat (size m))).

(** Collect until the weak reference phase, allocate a root object [b], finish the collection,
    allocate [c], store it in [b] and collect again. *)
Definition sweep_alloc_scenario : outcome (graph * Heap) :=
  let g0 := mkGraph [1000] [] in
  '(_, g0, h) ← alloc_with_size seq_alloc g0 16 8 Heap_new;
  h ← start_gc g0 h;
  '(_, g0, h) ← gc_step g0 h;
  '(_, g0, h) ← alloc_with_size seq_alloc g0 16 8 h;
  let g1 := mkGraph [1000; 2000] [] in
  '(_, g1, h) ← finish_gc 10 0 g1 h;
  '(_, g1, h) ← alloc_with_size seq_alloc g1 16 8 h;
  let g2 := mkGraph [1000; 2000] [(2000, [3000])] in
  h ← write_barrier (mkPtr (object_ptr 3000) 8) h;
  run_gc 10 g2 h.

(** The object 3000 is reachable from a root and has been freed. *)
Theorem alloc_while_sweeping_dangles :
  exists g h, sweep_alloc_scenario = Done (g, h) /\ reachable g 3000 /\ mem h !! 3000 = None.
Proof.
  eexists _, _. split; [vm_compute; reflexivity|]. split; [|reflexivity].
  apply (reach_child _ 2000); [apply reach_root|].
  - change (2000 ∈ [1000; 2000]). set_solver.
  - change (3000 ∈ [3000]). set_solver.
Qed.

(** If nothing swept so far survived, freeing the next object resets the head of the list to its
    successor and drops the objects allocated since the sweep began. *)
Definition sweep_drop_scenario : outcome (graph * Heap) :=
  let g0 := mkGraph [] [] in
  '(_, g0, h) ← alloc_with_size seq_alloc g0 16 8 Heap_new;
  h ← start_gc g0 h;
  '(_, g0, h) ← gc_step g0 h;
  '(_, g0, h) ← alloc_with_size seq_alloc g0 16 8 h;
  let g1 := mkGraph [2000] [] in
  '(_, g1, h) ← finish_gc 10 0 g1 h;
  Done (g1, h).

(** The live object 2000 is no longer in the all-objects list. *)
Theorem alloc_while_sweeping_unlinks :
  exists g h, sweep_drop_scenario = Done (g, h) /\ is_Some (mem h !! 2000) /\
    reachable g 2000 /\ num_objects h = 1 /\ all_objects h = None.
Proof.
  eexists _, _. split; [vm_compute; reflexivity|]. split_and!; [by eexists| |done|done].
  apply reach_root. change (2000 ∈ [2000]). set_solver.
Qed.

End GcExample.
