(* ===== verification/AssocList.v ===== *)
(** Association lists: the abstract specification of the maps of [runtime/collections]. *)
From S2P Require Import Prelude.

(** * The abstract map *)
Module Assoc.
Section assoc.
Context {K V : Type} `{!EqDecision K}.

Fixpoint lookup (k : K) (l : list (K * V)) : option V :=
  match l with
  | [] => None
  | (k', v) :: l' => if decide (k' = k) then Some v else lookup k l'
  end.

Definition update (k : K) (v : V) (l : list (K * V)) : list (K * V) :=
  (fun kv : K * V => if decide (kv.1 = k) then (kv.1, v) else kv) <$> l.

(** Overwrite in place, or append. *)
Definition insert (k : K) (v : V) (l : list (K * V)) : list (K * V) :=
  match lookup k l with Some _ => update k v l | None => l ++ [(k, v)] end.

Definition remove (k : K) (l : list (K * V)) : list (K * V) := filter (fun kv => kv.1 <> k) l.

Lemma lookup_None k l : lookup k l = None <-> k ∉ l.*1.
Proof.
  induction l as [|[k' v] l IH]; cbn; [split; [by intros _ ?%elem_of_nil|done]|].
  rewrite not_elem_of_cons. case_decide; naive_solver.
Qed.

Lemma lookup_Some_elem k v l : lookup k l = Some v -> (k, v) ∈ l.
Proof.
  induction l as [|[k' v'] l IH]; cbn; [done|]. case_decide; [intros [= <-]; subst; by left|].
  intros Hl. right. auto.
Qed.

Lemma lookup_nodup k v l : NoDup l.*1 -> (k, v) ∈ l -> lookup k l = Some v.
Proof.
  induction l as [|[k' v'] l IH]; cbn; [by intros _ ?%elem_of_nil|].
  intros [Hn Hnd]%NoDup_cons [E|E]%elem_of_cons.
  - injection E as -> ->. by rewrite decide_True.
  - rewrite decide_False; [auto|]. intros ->. apply Hn. apply list_elem_of_fmap. by exists (k, v).
Qed.

(** The order of distinct keys does not matter. *)
Lemma lookup_perm k l l' : NoDup l.*1 -> l ≡ₚ l' -> lookup k l = lookup k l'.
Proof.
  intros Hnd Hp. assert (Hnd' : NoDup l'.*1) by (by rewrite <-Hp).
  destruct (lookup k l) as [v|] eqn:E; symmetry.
  - apply lookup_nodup; [done|]. rewrite <-Hp. by apply lookup_Some_elem.
  - apply lookup_None. rewrite <-Hp. by apply lookup_None.
Qed.

Lemma update_keys k v l : (update k v l).*1 = l.*1.
Proof.
  unfold update. rewrite <-list_fmap_compose. apply list_fmap_ext. intros i [k' v'] _. cbn. by case_decide.
Qed.

Lemma insert_keys_nodup k v l : NoDup l.*1 -> NoDup (insert k v l).*1.
Proof.
  intros Hnd. unfold insert. destruct (lookup k l) eqn:E; [by rewrite update_keys|].
  apply lookup_None in E. rewrite fmap_app. apply NoDup_app. split_and!; [done| |apply NoDup_singleton].
  cbn. intros x Hx ->%list_elem_of_singleton. done.
Qed.

Lemma lookup_update k v k' l :
  lookup k' (update k v l) =
    if decide (k' = k) then match lookup k l with Some _ => Some v | None => None end else lookup k' l.
Proof.
  induction l as [|[x y] l IH]; [by case_decide|]. unfold update in *. cbn.
  destruct (decide (x = k)) as [->|Hx]; cbn; rewrite IH; repeat case_decide; subst; try done; congruence.
Qed.

Lemma lookup_app k l l' :
  lookup k (l ++ l') = match lookup k l with Some v => Some v | None => lookup k l' end.
Proof. induction l as [|[x y] l IH]; [done|]. cbn. by case_decide. Qed.

Lemma lookup_insert k v k' l : lookup k' (insert k v l) = if decide (k' = k) then Some v else lookup k' l.
Proof.
  unfold insert. destruct (lookup k l) as [w|] eqn:E; [by rewrite lookup_update, E|].
  rewrite lookup_app. cbn. destruct (decide (k' = k)) as [->|]; [by rewrite E, decide_True|].
  rewrite decide_False by congruence. by destruct (lookup k' l).
Qed.

Lemma lookup_remove k k' l : lookup k' (remove k l) = if decide (k' = k) then None else lookup k' l.
Proof.
  unfold remove. induction l as [|[x y] l IH]; [by case_decide|]. rewrite filter_cons. cbn [fst].
  destruct (decide (x = k)) as [->|Hx].
  - rewrite decide_False by naive_solver. rewrite IH. cbn. case_decide; [done|]. by rewrite decide_False by congruence.
  - rewrite decide_True by done. cbn. rewrite IH. repeat case_decide; try done. congruence.
Qed.

End assoc.
End Assoc.
