(* ===== verification/IndexMap.v ===== *)
(** The insertion-ordered hash map [BsIndexMap] ([runtime/collections/index_map.rs]), its growth
    through [BsIndexMapField], and its iterators.

    The map is one allocation holding an array of [indices] (the heads of the hash chains) and an
    array of [entries] in insertion order; unused entries are uninitialised memory, and reading one
    or reading out of range is [Faulted].  [usize] values are integers, [EMPTY_INDEX] is the
    greatest.  The hash of a key is computed by the [hashbrown] crate.  [key_hash_code] builds a
    new [DefaultHashBuilder::default()] each time it is called, and that is seeded at random, so each
    call may hash differently: an operation that hashes once takes the hash function of its call as
    a parameter, and one that hashes several times takes one function for each call, its draws. *)
From S2P Require Import Prelude.

Definition EMPTY_INDEX : Z := usize_max.

Definition MIN_CAPACITY : Z := 4.

Inductive Entry (K V : Type) : Type :=
| Deleted (chain : Z)
| Occupied (key : K) (value : V) (chain : Z).
Arguments Deleted {K V}.
Arguments Occupied {K V}.

Record BsIndexMap (K V : Type) : Type := mkIndexMap {
  is_tombstone : bool;
  num_occupied : Z;
  num_deleted : Z;
  indices : list Z;
  entries : list (option (Entry K V));
}.
Arguments mkIndexMap {K V}.
Arguments is_tombstone {K V}.
Arguments num_occupied {K V}.
Arguments num_deleted {K V}.
Arguments indices {K V}.
Arguments entries {K V}.

Section index_map.
Context {K V : Type} `{!EqDecision K} (key_hash_code : K -> Z).

(** [new]: all chains empty, entries left uninitialised. *)
Definition index_map_new (capacity : Z) : BsIndexMap K V :=
  mkIndexMap false 0 0 (replicate (Z.to_nat capacity) EMPTY_INDEX)
    (replicate (Z.to_nat capacity) None).

Definition num_entries_used (m : BsIndexMap K V) : Z := num_occupied m + num_deleted m.

Definition num_entries_occupied (m : BsIndexMap K V) : Z := num_occupied m.

Definition capacity (m : BsIndexMap K V) : Z := Z.of_nat (length (indices m)).

(** ** Array accessors *)

Definition get_index_unchecked (m : BsIndexMap K V) (i : Z) : outcome Z :=
  deref (indices m !! Z.to_nat i).

Definition set_index_unchecked (m : BsIndexMap K V) (i : Z) (entry_index : Z)
    : outcome (BsIndexMap K V) :=
  _ ← deref (indices m !! Z.to_nat i);
  Done (mkIndexMap (is_tombstone m) (num_occupied m) (num_deleted m)
          (<[Z.to_nat i := entry_index]> (indices m)) (entries m)).

Definition get_entry_unchecked (m : BsIndexMap K V) (i : Z) : outcome (Entry K V) :=
  e ← deref (entries m !! Z.to_nat i); deref e.

Definition set_entry_unchecked (m : BsIndexMap K V) (i : Z) (e : Entry K V)
    : outcome (BsIndexMap K V) :=
  _ ← deref (entries m !! Z.to_nat i);
  Done (mkIndexMap (is_tombstone m) (num_occupied m) (num_deleted m) (indices m)
          (<[Z.to_nat i := Some e]> (entries m))).

Definition set_counts (m : BsIndexMap K V) (occupied deleted : Z) : BsIndexMap K V :=
  mkIndexMap (is_tombstone m) occupied deleted (indices m) (entries m).

(** [Entry::as_occupied]: [unreachable!()] on a deleted entry. *)
Definition as_occupied (e : Entry K V) : outcome (K * V * Z) :=
  match e with Occupied k v c => Done (k, v, c) | Deleted _ => Panicked end.

(** ** Lookup *)

Definition mask (m : BsIndexMap K V) : Z := wrap64 (capacity m - 1).

Definition hash_index (m : BsIndexMap K V) (hash_code : Z) : Z := Z.land hash_code (mask m).

(** The loop of [find_index]: follow the chain from [current_entry_index]. *)
Fixpoint find_chain (fuel : nat) (m : BsIndexMap K V) (key : K) (current_entry_index : Z)
    : outcome (option Z) :=
  match fuel with
  | O => OutOfFuel
  | S fuel' =>
      if current_entry_index =? EMPTY_INDEX then Done None
      else
        e ← get_entry_unchecked m current_entry_index;
        match e with
        | Occupied k _ chain =>
            if decide (k = key) then Done (Some current_entry_index)
            else find_chain fuel' m key chain
        | Deleted chain => find_chain fuel' m key chain
        end
  end.

Definition find_index (m : BsIndexMap K V) (key : K) : outcome (option Z) :=
  if capacity m =? 0 then Done None
  else
    i ← get_index_unchecked m (hash_index m (key_hash_code key));
    find_chain (S (length (entries m))) m key i.

Definition contains_key (m : BsIndexMap K V) (key : K) : outcome bool :=
  o ← find_index m key; Done (bool_decide (is_Some o)).

Definition index_map_get (m : BsIndexMap K V) (key : K) : outcome (option V) :=
  o ← find_index m key;
  match o with
  | None => Done None
  | Some i => e ← get_entry_unchecked m i; '(_, v, _) ← as_occupied e; Done (Some v)
  end.

(** ** Removal *)

Definition index_map_remove (m : BsIndexMap K V) (key : K) : outcome (bool * BsIndexMap K V) :=
  o ← find_index m key;
  match o with
  | None => Done (false, m)
  | Some i =>
      e ← get_entry_unchecked m i;
      '(_, _, chain) ← as_occupied e;
      m ← set_entry_unchecked m i (Deleted chain);
      Done (true, set_counts m (num_occupied m - 1) (num_deleted m + 1))
  end.

Definition index_map_clear (m : BsIndexMap K V) : BsIndexMap K V :=
  mkIndexMap (is_tombstone m) 0 0 (replicate (length (indices m)) EMPTY_INDEX) (entries m).

(** ** Insertion *)

(** The loop of [insert_without_growing]: [inl] when the value was overwritten, [inr] when the new
    entry was linked at the end of the chain. *)
Fixpoint insert_chain (fuel : nat) (m : BsIndexMap K V) (key : K) (value : V)
    (next_empty_entry_index current_entry_index : Z)
    : outcome (BsIndexMap K V + BsIndexMap K V) :=
  match fuel with
  | O => OutOfFuel
  | S fuel' =>
      e ← get_entry_unchecked m current_entry_index;
      match e with
      | Deleted chain =>
          if chain =? EMPTY_INDEX then
            m ← set_entry_unchecked m current_entry_index (Deleted next_empty_entry_index);
            Done (inr m)
          else insert_chain fuel' m key value next_empty_entry_index chain
      | Occupied k v chain =>
          if decide (k = key) then
            m ← set_entry_unchecked m current_entry_index (Occupied k value chain);
            Done (inl m)
          else if chain =? EMPTY_INDEX then
            m ← set_entry_unchecked m current_entry_index (Occupied k v next_empty_entry_index);
            Done (inr m)
          else insert_chain fuel' m key value next_empty_entry_index chain
      end
  end.

Definition insert_without_growing (m : BsIndexMap K V) (key : K) (value : V)
    : outcome (bool * BsIndexMap K V) :=
  let i := hash_index m (key_hash_code key) in
  current_entry_index ← get_index_unchecked m i;
  let next_empty_entry_index := num_entries_used m in
  linked ← (if current_entry_index =? EMPTY_INDEX
            then m ← set_index_unchecked m i next_empty_entry_index; Done (inr m)
            else insert_chain (S (length (entries m))) m key value next_empty_entry_index
                   current_entry_index);
  match linked with
  | inl m => Done (true, m)
  | inr m =>
      m ← set_entry_unchecked m next_empty_entry_index (Occupied key value EMPTY_INDEX);
      Done (false, set_counts m (num_occupied m + 1) (num_deleted m))
  end.

(** ** Iteration *)

Definition kv_of (e : option (Entry K V)) : option (K * V) :=
  match e with Some (Occupied k v _) => Some (k, v) | _ => None end.

(** [iter_gc_unsafe]: the items it yields, the occupied ones among the used entries. *)
Definition iter_gc_unsafe (m : BsIndexMap K V) : list (K * V) :=
  omap kv_of (take (Z.to_nat (num_entries_used m)) (entries m)).

Definition keys_gc_unsafe (m : BsIndexMap K V) : list K := (iter_gc_unsafe m).*1.

(** [GcSafeEntriesIter::next] on the iterator's map and index: the item and the new index. *)
Fixpoint iter_next_from (fuel : nat) (m : BsIndexMap K V) (current : Z)
    : outcome (option ((K * V) * Z)) :=
  match fuel with
  | O => OutOfFuel
  | S fuel' =>
      if current <? num_entries_used m then
        e ← get_entry_unchecked m current;
        match e with
        | Deleted _ => iter_next_from fuel' m (current + 1)
        | Occupied k v _ => Done (Some ((k, v), current + 1))
        end
      else Done None
  end.

Definition iter_gc_safe_next (m : BsIndexMap K V) (next_entry_index : Z)
    : outcome (option (K * V) * Z) :=
  o ← iter_next_from (S (length (entries m))) m next_entry_index;
  match o with
  | Some (item, i) => Done (Some item, i)
  | None => Done (None, next_entry_index)
  end.

(** ** Growth *)

End index_map.

Section growth.
Context {K V : Type} `{!EqDecision K}.

(** The insertions of the growing loop, with the hash function each of them draws. *)
Fixpoint insert_all (draws : nat -> K -> Z) (m : BsIndexMap K V) (items : list (K * V))
    : outcome (BsIndexMap K V) :=
  match items with
  | [] => Done m
  | (k, v) :: items' =>
      '(_, m) ← insert_without_growing (draws 0%nat) m k v;
      insert_all (fun n => draws (S n)) m items'
  end.

Definition new_capacity (m : BsIndexMap K V) : Z :=
  if capacity m =? 0 then MIN_CAPACITY
  else if capacity m / 2 <? num_deleted m then capacity m
  else capacity m * 2.

(** [maybe_grow_for_insertion]: the old map, which becomes a tombstone holding the address of the
    new map when it was moved, and the new map in that case. *)
Definition maybe_grow_for_insertion (draws : nat -> K -> Z) (m : BsIndexMap K V) (new_map_ptr : Z)
    : outcome (BsIndexMap K V * option (BsIndexMap K V)) :=
  if num_entries_used m <? capacity m then Done (m, None)
  else
    new_map ← insert_all draws (index_map_new (new_capacity m)) (iter_gc_unsafe m);
    if capacity m =? 0 then Done (m, Some new_map)
    else
      m ← set_index_unchecked m 0 new_map_ptr;
      Done (mkIndexMap true (num_occupied m) (num_deleted m) (indices m) (entries m),
            Some new_map).

(** [fix_iterator_for_resized_map]: the address of the new map and the index in it. *)
Definition is_occupied (e : option (Entry K V)) : bool :=
  match e with Some (Occupied _ _ _) => true | _ => false end.

Definition fix_iterator_for_resized_map (tombstone : BsIndexMap K V) (next_entry_index : Z)
    : outcome (Z * Z) :=
  new_map_ptr ← get_index_unchecked tombstone 0;
  Done (new_map_ptr,
        Z.of_nat (length (filter is_occupied (take (Z.to_nat next_entry_index) (entries tombstone))))).

(** [MapObject::insert]: grow if needed, then insert; the last hash is the first draw. *)
Definition map_object_insert (draws : nat -> K -> Z) (m : BsIndexMap K V) (new_map_ptr : Z)
    (key : K) (value : V) : outcome (bool * BsIndexMap K V) :=
  '(old, moved) ← maybe_grow_for_insertion (fun n => draws (S n)) m new_map_ptr;
  insert_without_growing (draws 0%nat) (default old moved) key value.

End growth.
