(* ===== verification/IndexMapCorrect.v ===== *)
(** [BsIndexMap] refines an association list in insertion order: representation invariant, one
    refinement theorem per operation, growth and iterators.

    Each hash is drawn anew by the code.  The shape of a map is kept whatever the draws are; that a
    stored key is found again is proved for draws that agree with the buckets the keys are in. *)
From S2P Require Import Prelude AssocList IndexMap.

(** * Chains *)

Section proofs.
Context {K V : Type} `{!EqDecision K}.
Implicit Types (key_hash_code h : K -> Z) (draws : nat -> K -> Z).
Implicit Types (m : BsIndexMap K V) (es : list (option (Entry K V))).

Definition chain_of (e : Entry K V) : Z := match e with Deleted c => c | Occupied _ _ c => c end.

Definition set_chain (e : Entry K V) (c : Z) : Entry K V :=
  match e with Deleted _ => Deleted c | Occupied k v _ => Occupied k v c end.

(** [lchain es start l]: the chain from [start] runs through the entry indices [l]. *)
Fixpoint lchain es (start : Z) (l : list nat) : Prop :=
  match l with
  | [] => start = EMPTY_INDEX
  | i :: l' => start = Z.of_nat i /\ exists e, es !! i = Some (Some e) /\ lchain es (chain_of e) l'
  end.

Definition key_at es (i : nat) : option K :=
  match es !! i with Some (Some (Occupied k _ _)) => Some k | _ => None end.

(** The indices of the entries hashed to bucket [b], given the buckets of the used entries. *)
Definition positions (b : Z) (bk : list Z) : list nat :=
  filter (fun i => bk !! i = Some b) (seq 0 (length bk)).

Lemma positions_lt b bk i : i ∈ positions b bk -> (i < length bk)%nat.
Proof. intros [_ H]%list_elem_of_filter. apply elem_of_seq in H. lia. Qed.

Lemma positions_elem b bk i : i ∈ positions b bk <-> bk !! i = Some b.
Proof.
  unfold positions. rewrite list_elem_of_filter. split; [naive_solver|]. intros H. split; [done|].
  apply lookup_lt_Some in H. apply elem_of_seq. lia.
Qed.

Lemma positions_length b bk : (length (positions b bk) <= length bk)%nat.
Proof. unfold positions. etrans; [apply length_filter|]. by rewrite length_seq. Qed.

Lemma positions_NoDup b bk : NoDup (positions b bk).
Proof. unfold positions. apply NoDup_filter, NoDup_seq. Qed.

Lemma positions_app b b' bk :
  positions b (bk ++ [b']) = positions b bk ++ (if decide (b' = b) then [length bk] else []).
Proof.
  unfold positions. rewrite length_app. cbn. rewrite Nat.add_1_r, seq_S, filter_app. f_equal.
  - apply filter_ext_in. intros i Hi%elem_of_seq. rewrite lookup_app_l by lia. done.
  - rewrite filter_cons, filter_nil. rewrite Nat.add_0_l, lookup_app_r, Nat.sub_diag by lia. cbn.
    repeat case_decide; naive_solver.
Qed.

(** The link of the entry at [i]. *)
Definition link es (i : nat) : option Z :=
  match es !! i with Some (Some e) => Some (chain_of e) | _ => None end.

Lemma lchain_ext es es' start l :
  (forall i, i ∈ l -> link es i = link es' i) ->
  lchain es start l -> lchain es' start l.
Proof.
  revert start. induction l as [|i l IH]; intros start E; [done|]. cbn.
  intros (-> & e & Hi & Hl). split; [done|].
  pose proof (E i ltac:(by left)) as Ei. unfold link in Ei. rewrite Hi in Ei.
  destruct (es' !! i) as [[e'|]|]; try done. injection Ei as Hc.
  exists e'. split; [done|]. rewrite <-Hc. apply IH; [|done]. intros j Hj. apply E. by right.
Qed.

(** Linking [n] behind the last entry of a chain. *)
Lemma lchain_snoc es start l i e n en :
  NoDup (l ++ [i]) -> n ∉ l ++ [i] -> lchain es start (l ++ [i]) -> es !! i = Some (Some e) ->
  (n < length es)%nat -> chain_of en = EMPTY_INDEX ->
  lchain (<[n := Some en]> (<[i := Some (set_chain e (Z.of_nat n))]> es)) start (l ++ [i; n]).
Proof.
  revert start. induction l as [|j l IH]; intros start Hnd Hn; cbn.
  - intros (-> & e' & He' & Hc) He Hlt Hen. rewrite He in He'. injection He' as <-. split; [done|].
    assert (n <> i) by set_solver.
    exists (set_chain e (Z.of_nat n)). split.
    { rewrite list_lookup_insert_ne by done. apply list_lookup_insert_eq. by eapply lookup_lt_Some. }
    destruct e; cbn; (split; [done|]); exists en; (split; [|done]); apply list_lookup_insert_eq;
      by rewrite length_insert.
  - intros (-> & e' & Hj & Hl) He Hlt Hen. cbn in Hnd, Hn. apply NoDup_cons in Hnd as [Hj' Hnd].
    apply not_elem_of_cons in Hn as [Hnj Hn]. split; [done|]. exists e'. split; [|by apply IH].
    rewrite !list_lookup_insert_ne; [done| |done]. intros <-. apply Hj'. apply elem_of_app. right. by left.
Qed.

(** * Searching a chain *)

Lemma find_chain_spec m key start l fuel :
  lchain (entries m) start l -> (length l < fuel)%nat -> (forall i, i ∈ l -> Z.of_nat i <> EMPTY_INDEX) ->
  (exists i, find_chain fuel m key start = Done (Some (Z.of_nat i)) /\ i ∈ l /\
     key_at (entries m) i = Some key) \/
  (find_chain fuel m key start = Done None /\ forall i, i ∈ l -> key_at (entries m) i <> Some key).
Proof.
  revert start fuel. induction l as [|i l IH]; intros start [|fuel] Hl Hf Hne; cbn in Hf; try lia.
  - cbn in Hl. subst start. cbn. rewrite Z.eqb_refl. right. split; [done|]. by intros i ?%elem_of_nil.
  - destruct Hl as (-> & e & He & Hl). cbn. rewrite (proj2 (Z.eqb_neq _ _)) by (apply Hne; by left).
    unfold get_entry_unchecked. rewrite Nat2Z.id, He. cbn.
    assert (IH' := IH (chain_of e) fuel Hl ltac:(lia) ltac:(intros j Hj; apply Hne; by right)).
    destruct e as [c|k v c]; cbn in *.
    + destruct IH' as [(j & E & Hj & Hk)|[E Hk]]; [left; exists j; split_and!; [done|by right|done]|right].
      split; [done|]. intros j [->|Hj]%elem_of_cons; [|auto]. unfold key_at. by rewrite He.
    + case_decide as Hd.
      * left. exists i. split_and!; [done|by left|]. unfold key_at. by rewrite He, Hd.
      * destruct IH' as [(j & E & Hj & Hk)|[E Hk]]; [left; exists j; split_and!; [done|by right|done]|right].
        split; [done|]. intros j [->|Hj]%elem_of_cons; [|auto]. unfold key_at. rewrite He. naive_solver.
Qed.

(** Overwriting the entry at [i]. *)
Definition put_entry m (i : nat) (e : Entry K V) : BsIndexMap K V :=
  mkIndexMap (is_tombstone m) (num_occupied m) (num_deleted m) (indices m)
    (<[i := Some e]> (entries m)).

Lemma set_entry_put m i e x :
  entries m !! i = Some x -> set_entry_unchecked m (Z.of_nat i) e = Done (put_entry m i e).
Proof. intros H. unfold set_entry_unchecked. by rewrite Nat2Z.id, H. Qed.

Lemma get_entry_at m i e :
  entries m !! i = Some (Some e) -> get_entry_unchecked m (Z.of_nat i) = Done e.
Proof. intros H. unfold get_entry_unchecked. by rewrite Nat2Z.id, H. Qed.

(** The insertion loop overwrites the entry holding the key, or links at the end of the chain. *)
Inductive chain_result m (key : K) (value : V) (n : Z) (l : list nat)
    : outcome (BsIndexMap K V + BsIndexMap K V) -> Prop :=
| cr_found i v c :
    i ∈ l -> entries m !! i = Some (Some (Occupied key v c)) ->
    chain_result m key value n l (Done (inl (put_entry m i (Occupied key value c))))
| cr_end l' i e :
    l = l' ++ [i] -> entries m !! i = Some (Some e) ->
    (forall j, j ∈ l -> key_at (entries m) j <> Some key) ->
    chain_result m key value n l (Done (inr (put_entry m i (set_chain e n)))).

Lemma chain_result_cons m key value n i l r :
  key_at (entries m) i <> Some key -> chain_result m key value n l r ->
  chain_result m key value n (i :: l) r.
Proof.
  intros Hi [j v c Hj He|l' j e -> He Hn].
  - by apply (cr_found _ _ _ _ _ j v); [right|].
  - apply (cr_end _ _ _ _ _ (i :: l')); [done|done|]. intros x [->|Hx]%elem_of_cons; auto.
Qed.

Lemma insert_chain_spec m key value n start l fuel :
  lchain (entries m) start l -> l <> [] -> (length l <= fuel)%nat ->
  (forall i, i ∈ l -> Z.of_nat i <> EMPTY_INDEX) ->
  chain_result m key value n l (insert_chain fuel m key value n start).
Proof.
  revert start fuel. induction l as [|i l IH]; intros start [|fuel] Hl Hnil Hf Hne; cbn in Hf; try done; try lia.
  destruct Hl as (-> & e & He & Hl). cbn [insert_chain].
  rewrite (get_entry_at _ _ _ He). cbn [mbind outcome_bind].
  assert (Hstop : chain_of e = EMPTY_INDEX -> key_at (entries m) i <> Some key ->
    chain_result m key value n (i :: l) (Done (inr (put_entry m i (set_chain e n))))).
  { intros Hc Hk. assert (l = []) as ->.
    { destruct l as [|j l]; [done|]. destruct Hl as [Hj _]. exfalso.
      apply (Hne j); [right; by left|congruence]. }
    apply (cr_end _ _ _ _ _ []); [done|done|]. intros j Hj. by inv_elem. }
  assert (Hgo : chain_of e <> EMPTY_INDEX -> key_at (entries m) i <> Some key ->
    chain_result m key value n (i :: l) (insert_chain fuel m key value n (chain_of e))).
  { intros Hc Hk. apply chain_result_cons; [done|]. apply IH; [done| |lia|].
    - intros ->. by cbn in Hl.
    - intros j Hj. apply Hne. by right. }
  destruct e as [c|k v c]; cbn [chain_of set_chain] in *.
  - assert (Hk : key_at (entries m) i <> Some key) by (unfold key_at; by rewrite He).
    destruct (Z.eqb_spec c EMPTY_INDEX); [|by apply Hgo].
    rewrite (set_entry_put _ _ _ _ He). by apply Hstop.
  - case_decide as Hd.
    + subst k. rewrite (set_entry_put _ _ _ _ He). by apply (cr_found _ _ _ _ _ i v); [left|].
    + assert (Hk : key_at (entries m) i <> Some key) by (unfold key_at; rewrite He; naive_solver).
      destruct (Z.eqb_spec c EMPTY_INDEX); [|by apply Hgo].
      rewrite (set_entry_put _ _ _ _ He). by apply Hstop.
Qed.

(** * The representation invariant

    [bk] gives the bucket of every used entry, deleted ones included: the chain of a bucket runs
    through its entries in insertion order. *)
Record shape m (bk : list Z) : Prop := mkShape {
  wf_live : is_tombstone m = false;
  wf_cap : length (entries m) = length (indices m);
  wf_pow : capacity m = 0 \/ exists k, 0 <= k <= 62 /\ capacity m = 2 ^ k;
  wf_used : num_entries_used m = Z.of_nat (length bk);
  wf_room : (length bk <= length (entries m))%nat;
  wf_init : forall i, (i < length bk)%nat -> exists e, entries m !! i = Some (Some e);
  wf_chains : forall b, 0 <= b < capacity m -> exists start,
    indices m !! Z.to_nat b = Some start /\ lchain (entries m) start (positions b bk);
  wf_occ : num_occupied m = Z.of_nat (length (iter_gc_unsafe m));
}.

(** The keys are in the buckets that [h] gives them. *)
Definition placed h m (bk : list Z) : Prop :=
  forall i k, (i < length bk)%nat -> key_at (entries m) i = Some k -> bk !! i = Some (hash_index m (h k)).

(** No key is stored twice, and all of them are in the buckets of [h]. *)
Record wf h m (bk : list Z) : Prop := mkWf {
  wf_shape : shape m bk;
  wf_hash : placed h m bk;
  wf_nodup : NoDup (iter_gc_unsafe m).*1;
}.

Lemma hash_index_range m x : (exists k, 0 <= k <= 62 /\ capacity m = 2 ^ k) ->
  0 <= hash_index m x < capacity m.
Proof.
  intros (k & Hk & Hc). unfold hash_index, mask. rewrite Hc.
  assert (0 < 2 ^ k) by (apply Z.pow_pos_nonneg; lia).
  assert (2 ^ k <= 2 ^ 62) by (apply Z.pow_le_mono_r; lia).
  rewrite wrap64_small by (unfold usize_max; lia). replace (2 ^ k - 1) with (Z.ones k) by (rewrite Z.ones_equiv; lia).
  rewrite Z.land_ones by lia. apply Z.mod_pos_bound. lia.
Qed.

Lemma not_empty m bk b i : shape m bk -> i ∈ positions b bk -> Z.of_nat i <> EMPTY_INDEX.
Proof.
  intros W Hi%positions_lt. pose proof (wf_room _ _ W). pose proof (wf_cap _ _ W).
  unfold EMPTY_INDEX, usize_max. destruct (wf_pow _ _ W) as [Hc|(k & Hk & Hc)]; unfold capacity in Hc; [lia|].
  assert (2 ^ k <= 2 ^ 62) by (apply Z.pow_le_mono_r; lia). lia.
Qed.

(** ** The items of the used entries *)

Lemma items_split (n i : nat) es x y :
  (i < n)%nat -> es !! i = Some x ->
  omap kv_of (take n es) = omap kv_of (take i es) ++ option_list (kv_of x) ++ omap kv_of (drop (S i) (take n es)) /\
  omap kv_of (take n (<[i := y]> es)) =
    omap kv_of (take i es) ++ option_list (kv_of y) ++ omap kv_of (drop (S i) (take n es)).
Proof.
  intros Hi Hx. rewrite take_insert_lt by done.
  destruct (omap_insert_split kv_of (take n es) i x y) as [E1 E2]; [by rewrite lookup_take_lt|].
  rewrite take_take, Nat.min_l in E1, E2 by lia. done.
Qed.

Lemma iter_used m bk : shape m bk -> iter_gc_unsafe m = omap kv_of (take (length bk) (entries m)).
Proof. intros W. unfold iter_gc_unsafe. by rewrite (wf_used _ _ W), Nat2Z.id. Qed.

Lemma items_key m bk i k :
  shape m bk -> (i < length bk)%nat -> key_at (entries m) i = Some k -> k ∈ (iter_gc_unsafe m).*1.
Proof.
  intros W Hi Hk. unfold key_at in Hk. destruct (entries m !! i) as [[[|k' v c]|]|] eqn:He; try done.
  injection Hk as ->. rewrite (iter_used _ _ W).
  destruct (items_split (length bk) i (entries m) _ None Hi He) as [-> _]. cbn.
  rewrite fmap_app. cbn. apply elem_of_app. right. by left.
Qed.

(** Keys that are in their bucket and not found in it are absent. *)
Lemma items_no_key h m bk k :
  shape m bk -> placed h m bk ->
  (forall i, i ∈ positions (hash_index m (h k)) bk -> key_at (entries m) i <> Some k) ->
  k ∉ (iter_gc_unsafe m).*1.
Proof.
  intros W P Hn Hin. apply list_elem_of_fmap in Hin as ([k' v] & -> & Hin). rewrite (iter_used _ _ W) in Hin.
  apply list_elem_of_omap in Hin as (x & Hx & Hkv). apply list_elem_of_lookup in Hx as [i Hi].
  apply lookup_take_Some in Hi as [Hi Hlt].
  assert (Hk : key_at (entries m) i = Some k').
  { unfold key_at. rewrite Hi. destruct x as [[|k0 v0 c0]|]; naive_solver. }
  apply (Hn i); [|done]. apply positions_elem. by apply P.
Qed.

(** ** Lookup *)

(** Whatever the draw is, a lookup ends at an entry of the key or finds none in the bucket. *)
Lemma find_index_spec g m bk k :
  shape m bk ->
  (exists i v c, find_index g m k = Done (Some (Z.of_nat i)) /\ (i < length bk)%nat /\
     entries m !! i = Some (Some (Occupied k v c))) \/
  (find_index g m k = Done None /\ forall h, placed h m bk -> h k = g k -> k ∉ (iter_gc_unsafe m).*1).
Proof.
  intros W. unfold find_index. destruct (Z.eqb_spec (capacity m) 0) as [Hz|Hz].
  - right. split; [done|]. intros _ _ _. unfold iter_gc_unsafe.
    assert (Hl : entries m = []) by (apply length_zero_iff_nil; rewrite (wf_cap _ _ W); unfold capacity in Hz; lia).
    rewrite Hl, take_nil. cbn. apply not_elem_of_nil.
  - destruct (wf_pow _ _ W) as [?|Hp]; [done|].
    pose proof (hash_index_range m (g k) Hp) as Hr.
    destruct (wf_chains _ _ W _ Hr) as (start & Hs & Hc).
    unfold get_index_unchecked. rewrite Hs. cbn [deref mbind outcome_bind].
    destruct (find_chain_spec m k start _ (S (length (entries m))) Hc) as [(i & E & Hi & Hk)|[E Hk]].
    + pose proof (positions_length (hash_index m (g k)) bk). pose proof (wf_room _ _ W). lia.
    + intros i Hi. by eapply not_empty.
    + left. unfold key_at in Hk. destruct (entries m !! i) as [[[|k' v c]|]|] eqn:He; try done.
      injection Hk as ->. exists i, v, c. split_and!; [done|by eapply positions_lt|done].
    + right. split; [done|]. intros h P Eh. rewrite <-Eh in Hk. by eapply items_no_key.
Qed.

Lemma found_lookup m bk i k v c :
  shape m bk -> NoDup (iter_gc_unsafe m).*1 -> (i < length bk)%nat ->
  entries m !! i = Some (Some (Occupied k v c)) -> Assoc.lookup k (iter_gc_unsafe m) = Some v.
Proof.
  intros W Hnd Hi He. apply Assoc.lookup_nodup; [done|].
  rewrite (iter_used _ _ W). destruct (items_split (length bk) i (entries m) _ None Hi He) as [-> _].
  cbn. apply elem_of_app. right. by left.
Qed.

(** Whatever the draw is, [get] returns the value of the key or misses it. *)
Lemma index_map_get_sound g m bk k :
  shape m bk -> NoDup (iter_gc_unsafe m).*1 ->
  exists o, index_map_get g m k = Done o /\ (o = None \/ o = Assoc.lookup k (iter_gc_unsafe m)) /\
    forall h, placed h m bk -> h k = g k -> o = Assoc.lookup k (iter_gc_unsafe m).
Proof.
  intros W Hnd. unfold index_map_get. destruct (find_index_spec g m bk k W) as [(i & v & c & E & Hi & He)|[E Hn]];
    rewrite E; cbn [mbind outcome_bind].
  - rewrite (get_entry_at _ _ _ He). cbn. rewrite (found_lookup m bk i k v c) by done. by eexists; eauto.
  - exists None. split; [done|]. split; [by left|]. intros h P Eh. symmetry. by apply Assoc.lookup_None, (Hn h).
Qed.

Lemma index_map_get_spec h m bk k :
  wf h m bk -> index_map_get h m k = Done (Assoc.lookup k (iter_gc_unsafe m)).
Proof.
  intros [W P Hnd]. destruct (index_map_get_sound h m bk k W Hnd) as (o & -> & _ & Ho). by rewrite (Ho h).
Qed.

(** [get] never faults and returns no other value than that of the key, whatever hash it draws;
    with a draw that agrees with the buckets it returns what the association list gives. *)
Theorem index_map_get_refines g m bk k :
  shape m bk -> NoDup (iter_gc_unsafe m).*1 ->
  exists o, index_map_get g m k = Done o /\ (o = None \/ o = Assoc.lookup k (iter_gc_unsafe m)) /\
    forall h, placed h m bk -> h k = g k -> o = Assoc.lookup k (iter_gc_unsafe m).
Proof. apply index_map_get_sound. Qed.

(** ** Overwriting an entry in place *)

Lemma link_put es i e e' j :
  es !! i = Some (Some e) -> chain_of e' = chain_of e -> link (<[i := Some e']> es) j = link es j.
Proof.
  intros He Hc. unfold link. destruct (decide (i = j)) as [->|Hne].
  - rewrite list_lookup_insert_eq by (by eapply lookup_lt_Some). by rewrite He, Hc.
  - by rewrite list_lookup_insert_ne.
Qed.

(** Replacing an occupied entry by one with the same link keeps the chains. *)
Lemma shape_put m bk i k v c e' occ del :
  shape m bk -> (i < length bk)%nat -> entries m !! i = Some (Some (Occupied k v c)) ->
  chain_of e' = c ->
  let m' := set_counts (put_entry m i e') occ del in
  num_entries_used m' = num_entries_used m -> occ = Z.of_nat (length (iter_gc_unsafe m')) ->
  shape m' bk.
Proof.
  intros W Hi He Hc m' Hu Ho. split; try done; cbn.
  - apply W.
  - rewrite length_insert. apply W.
  - apply W.
  - rewrite <-(wf_used _ _ W). apply Hu.
  - rewrite length_insert. apply W.
  - intros j Hj. rewrite list_lookup_insert. case_decide; [by eexists|]. by apply W.
  - intros b Hb. destruct (wf_chains _ _ W b Hb) as (start & Hs & Hl). exists start. split; [done|].
    eapply lchain_ext; [|done]. intros j _. symmetry. by eapply link_put.
Qed.

Lemma placed_put h m bk i k v c e' occ del :
  placed h m bk -> (i < length bk)%nat -> entries m !! i = Some (Some (Occupied k v c)) ->
  (forall k', kv_of (Some e') = Some k' -> k'.1 = k) ->
  placed h (set_counts (put_entry m i e') occ del) bk.
Proof.
  intros P Hi He Hk j k' Hj Hkj. change (hash_index _ _) with (hash_index m (h k')).
  unfold key_at in Hkj. cbn in Hkj. rewrite list_lookup_insert in Hkj. case_decide as Hd; [|by apply P].
  destruct Hd as [-> _]. destruct e' as [|k0 v0 c0]; [done|]. injection Hkj as ->.
  specialize (Hk _ eq_refl). cbn in Hk. subst k'. apply P; [done|]. unfold key_at. by rewrite He.
Qed.

Lemma Assoc_at {A B} (l r : list (K * V)) k v w :
  A = l ++ (k, v) :: r -> B = l ++ (k, w) :: r -> NoDup A.*1 ->
  B = Assoc.update k w A /\ l ++ r = Assoc.remove k A.
Proof.
  intros -> -> Hnd. rewrite fmap_app in Hnd. cbn in Hnd.
  apply NoDup_app in Hnd as (_ & Hd & [Hr _]%NoDup_cons).
  assert (Hne : forall x, x ∈ l \/ x ∈ r -> x.1 <> k).
  { intros x [Hx|Hx] <-.
    - apply (Hd x.1); [by apply list_elem_of_fmap_2|by left].
    - apply Hr. by apply list_elem_of_fmap_2. }
  assert (Hid : forall q, (forall x, x ∈ q -> x.1 <> k) -> Assoc.update k w q = q /\ Assoc.remove k q = q).
  { intros q Hq. unfold Assoc.update, Assoc.remove. induction q as [|x q IH]; [done|].
    destruct IH as [IH1 IH2]; [intros y Hy; apply Hq; by right|].
    pose proof (Hq x ltac:(by left)). rewrite fmap_cons, filter_cons, IH1, IH2.
    by rewrite decide_False, decide_True. }
  destruct (Hid l) as [L1 L2]; [auto|]. destruct (Hid r) as [R1 R2]; [auto|].
  unfold Assoc.update, Assoc.remove in *. rewrite fmap_app, filter_app, fmap_cons, filter_cons.
  rewrite L1, L2, R1, R2. cbn. rewrite decide_True, decide_False by auto. done.
Qed.

(** Overwriting the value of an entry. *)
Lemma shape_overwrite m bk i k v c w :
  shape m bk -> NoDup (iter_gc_unsafe m).*1 -> (i < length bk)%nat ->
  entries m !! i = Some (Some (Occupied k v c)) ->
  let m' := put_entry m i (Occupied k w c) in
  shape m' bk /\ iter_gc_unsafe m' = Assoc.update k w (iter_gc_unsafe m) /\
  forall h, placed h m bk -> placed h m' bk.
Proof.
  intros W Hnd Hi He m'.
  destruct (items_split (length bk) i (entries m) _ (Some (Occupied k w c)) Hi He) as [E1 E2].
  rewrite <-(iter_used m bk W) in E1. cbn in E1, E2.
  assert (E2' : iter_gc_unsafe m' = omap kv_of (take (length bk) (<[i := Some (Occupied k w c)]> (entries m)))).
  { unfold iter_gc_unsafe. cbn. f_equal. f_equal.
    change (num_entries_used m') with (num_entries_used m). by rewrite (wf_used _ _ W), Nat2Z.id. }
  rewrite E2 in E2'. destruct (Assoc_at _ _ k v w E1 E2') as [Hup _]; [done|].
  assert (Em : m' = set_counts m' (num_occupied m) (num_deleted m)) by done.
  split_and!; [|done|].
  - rewrite Em. apply (shape_put m bk i k v c); try done. fold m'. change (set_counts m' _ _) with m'.
    by rewrite (wf_occ _ _ W), E1, E2', !length_app.
  - intros h P. rewrite Em. apply (placed_put h m bk i k v c); try done. by intros k' [= <-].
Qed.

(** Removing the entry of a key. *)
Lemma shape_remove m bk i k v c :
  shape m bk -> NoDup (iter_gc_unsafe m).*1 -> (i < length bk)%nat ->
  entries m !! i = Some (Some (Occupied k v c)) ->
  let m' := set_counts (put_entry m i (Deleted c)) (num_occupied m - 1) (num_deleted m + 1) in
  shape m' bk /\ iter_gc_unsafe m' = Assoc.remove k (iter_gc_unsafe m) /\
  forall h, placed h m bk -> placed h m' bk.
Proof.
  intros W Hnd Hi He m'.
  destruct (items_split (length bk) i (entries m) _ (Some (Deleted c)) Hi He) as [E1 E2].
  rewrite <-(iter_used m bk W) in E1. cbn in E1, E2.
  assert (Hu : num_entries_used m' = num_entries_used m) by (unfold num_entries_used; cbn; lia).
  assert (E2' : iter_gc_unsafe m' = omap kv_of (take i (entries m)) ++ omap kv_of (drop (S i) (take (length bk) (entries m)))).
  { unfold iter_gc_unsafe. rewrite Hu, (wf_used _ _ W), Nat2Z.id. apply E2. }
  destruct (Assoc_at _ _ k v v E1 eq_refl) as [_ Hrm]; [done|].
  split_and!; [|by rewrite E2'|].
  - apply (shape_put m bk i k v c); try done.
    fold m'. cbn. rewrite (wf_occ _ _ W), E2', E1, !length_app. cbn. lia.
  - intros h P. by apply (placed_put h m bk i k v c).
Qed.

(** Whatever the draw is, [remove] deletes the entry of the key and keeps the order of the others,
    or misses the key. *)
Lemma index_map_remove_sound g m bk k :
  shape m bk -> NoDup (iter_gc_unsafe m).*1 ->
  exists found m', index_map_remove g m k = Done (found, m') /\ shape m' bk /\ capacity m' = capacity m /\
    (forall h, placed h m bk -> placed h m' bk) /\
    if found : bool then is_Some (Assoc.lookup k (iter_gc_unsafe m)) /\
      iter_gc_unsafe m' = Assoc.remove k (iter_gc_unsafe m)
    else m' = m /\ forall h, placed h m bk -> h k = g k -> k ∉ (iter_gc_unsafe m).*1.
Proof.
  intros W Hnd. unfold index_map_remove.
  destruct (find_index_spec g m bk k W) as [(i & v & c & E & Hi & He)|[E Hn]]; rewrite E; cbn [mbind outcome_bind].
  - rewrite (get_entry_at _ _ _ He). cbn [mbind outcome_bind as_occupied].
    rewrite (set_entry_put _ _ _ _ He). cbn [mbind outcome_bind].
    destruct (shape_remove m bk i k v c W Hnd Hi He) as (W' & I' & P').
    eexists true, _. split_and!; [done|exact W'|done|exact P'|by rewrite (found_lookup m bk i k v c)|exact I'].
  - by exists false, m.
Qed.

Lemma remove_absent k (l : list (K * V)) : k ∉ l.*1 -> Assoc.remove k l = l.
Proof.
  intros Hn. unfold Assoc.remove. apply filter_all. intros x Hx <-. apply Hn. by apply list_elem_of_fmap_2.
Qed.

Lemma nodup_remove k (l : list (K * V)) : NoDup l.*1 -> NoDup (Assoc.remove k l).*1.
Proof. intros H. eapply sublist_NoDup; [exact H|]. apply fmap_sublist, sublist_filter. Qed.

Lemma index_map_remove_spec h m bk k :
  wf h m bk -> exists m', index_map_remove h m k =
      Done (bool_decide (is_Some (Assoc.lookup k (iter_gc_unsafe m))), m') /\
    wf h m' bk /\ iter_gc_unsafe m' = Assoc.remove k (iter_gc_unsafe m) /\ capacity m' = capacity m.
Proof.
  intros [W P Hnd]. destruct (index_map_remove_sound h m bk k W Hnd) as (found & m' & -> & W' & C' & P' & Hf).
  exists m'. assert (Hi : iter_gc_unsafe m' = Assoc.remove k (iter_gc_unsafe m) /\
    found = bool_decide (is_Some (Assoc.lookup k (iter_gc_unsafe m)))).
  { destruct found; [destruct Hf as [Hs ->]; by rewrite bool_decide_true|]. destruct Hf as [-> Hn].
    specialize (Hn h P eq_refl). split; [by rewrite remove_absent|].
    apply Assoc.lookup_None in Hn as ->. by rewrite bool_decide_false by (by intros [? ?]). }
  destruct Hi as [Hi ->]. split_and!; [done| |done|done].
  split; [done|by apply P'|]. rewrite Hi. by apply nodup_remove.
Qed.

(** [remove] with any draw deletes the entry of the key and keeps the order of the others, or it
    misses the key and changes nothing; with a draw that agrees with the buckets it misses only keys
    that are absent. *)
Theorem index_map_remove_refines g m bk k :
  shape m bk -> NoDup (iter_gc_unsafe m).*1 ->
  exists found m', index_map_remove g m k = Done (found, m') /\ shape m' bk /\ capacity m' = capacity m /\
    (forall h, placed h m bk -> placed h m' bk) /\
    if found : bool then is_Some (Assoc.lookup k (iter_gc_unsafe m)) /\
      iter_gc_unsafe m' = Assoc.remove k (iter_gc_unsafe m)
    else m' = m /\ forall h, placed h m bk -> h k = g k -> k ∉ (iter_gc_unsafe m).*1.
Proof. apply index_map_remove_sound. Qed.

(** ** Appending an entry *)

(** The items of the used entries with one more behind them. *)
Definition extended m m' (bk : list Z) (b : Z) (k : K) (v : V) : Prop :=
  capacity m' = capacity m /\ num_deleted m' = num_deleted m /\
  shape m' (bk ++ [b]) /\ iter_gc_unsafe m' = iter_gc_unsafe m ++ [(k, v)] /\
  forall h, placed h m bk -> hash_index m (h k) = b -> placed h m' (bk ++ [b]).

(** The effect of appending an entry: it is behind the chain of its bucket, every other entry keeps
    its item, and other chains keep their links. *)
Lemma shape_append m m' bk b k v :
  let n := length bk in
  shape m bk -> (n < length (entries m))%nat ->
  is_tombstone m' = false -> length (indices m') = length (indices m) ->
  length (entries m') = length (entries m) ->
  num_occupied m' = num_occupied m + 1 -> num_deleted m' = num_deleted m ->
  (forall j, (j < n)%nat -> exists e, entries m' !! j = Some (Some e)) ->
  (forall j, (j < n)%nat -> kv_of <$> entries m' !! j = kv_of <$> entries m !! j) ->
  entries m' !! n = Some (Some (Occupied k v EMPTY_INDEX)) ->
  (exists start, indices m' !! Z.to_nat b = Some start /\
     lchain (entries m') start (positions b bk ++ [n])) ->
  (forall b', 0 <= b' -> b' <> b -> indices m' !! Z.to_nat b' = indices m !! Z.to_nat b') ->
  (forall b' j, b' <> b -> j ∈ positions b' bk -> link (entries m) j = link (entries m') j) ->
  extended m m' bk b k v.
Proof.
  intros n W Hroom Ht Hi He Ho Hd Hinit Hkv Hn Hch Hidx Hlink.
  assert (Hc : capacity m' = capacity m) by (unfold capacity; by rewrite Hi).
  assert (Hu : num_entries_used m' = Z.of_nat (S n)).
  { pose proof (wf_used _ _ W) as Hu. unfold num_entries_used in *. unfold n. lia. }
  assert (Hit : iter_gc_unsafe m' = iter_gc_unsafe m ++ [(k, v)]).
  { unfold iter_gc_unsafe at 1. rewrite Hu, Nat2Z.id, (take_S_r _ _ _ Hn), omap_app. cbn.
    f_equal. rewrite (iter_used m bk W). fold n.
    assert (Hmap : forall (x y : list (option (Entry K V))), kv_of <$> x = kv_of <$> y ->
      omap kv_of x = omap kv_of y).
    { induction x as [|a x IH]; intros [|a' y]; cbn; intros Hxy; simplify_eq; [done|].
      rewrite (IH y) by done. by destruct (kv_of a), (kv_of a'); simplify_eq. }
    apply Hmap. apply list_eq. intros j. rewrite !list_lookup_fmap.
    destruct (decide (j < n)%nat) as [Hlt|].
    - rewrite !lookup_take_lt by done. by apply Hkv.
    - rewrite !lookup_take_ge by lia. done. }
  assert (Hh : forall x, hash_index m' x = hash_index m x) by (intros x; unfold hash_index, mask; by rewrite Hc).
  split_and!; [done|done| |done|].
  - split.
    + done.
    + rewrite He, Hi. apply W.
    + rewrite Hc. apply W.
    + rewrite Hu, length_app. cbn. unfold n. lia.
    + rewrite length_app, He. cbn. unfold n in *. lia.
    + intros j Hj. rewrite length_app in Hj. cbn in Hj.
      destruct (decide (j < n)%nat); [by apply Hinit|]. replace j with n by (unfold n in *; lia). by eexists.
    + rewrite Hc. intros b' Hb'. rewrite positions_app. case_decide as Hd'.
      * subst b'. apply Hch.
      * rewrite app_nil_r. destruct (wf_chains _ _ W b' Hb') as (start & Hs & Hl). exists start.
        rewrite Hidx by (done || lia). split; [done|]. eapply lchain_ext; [|done].
        intros j Hj. by eapply Hlink.
    + rewrite Ho, (wf_occ _ _ W), Hit, length_app. cbn. lia.
  - intros h P Eb j k' Hj Hkj. rewrite Hh. destruct (decide (j < n)%nat) as [Hlt|].
    + rewrite lookup_app_l by done. apply P; [done|]. specialize (Hkv j Hlt).
      unfold key_at in *. destruct (entries m' !! j) as [[[|]|]|]; try done.
      destruct (entries m !! j) as [[[|]|]|]; cbn in Hkv; simplify_eq. done.
    + rewrite length_app in Hj. cbn in Hj. replace j with n in * by (unfold n in *; lia).
      unfold key_at in Hkj. rewrite Hn in Hkj. injection Hkj as <-.
      rewrite lookup_app_r, Nat.sub_diag by (unfold n; lia). cbn. by rewrite Eb.
Qed.

(** The first entry of a bucket becomes the head of its chain. *)
Lemma append_bucket m bk b k v start :
  shape m bk -> (length bk < length (entries m))%nat -> positions b bk = [] -> 0 <= b ->
  indices m !! Z.to_nat b = Some start ->
  let m1 := mkIndexMap (is_tombstone m) (num_occupied m) (num_deleted m)
              (<[Z.to_nat b := Z.of_nat (length bk)]> (indices m)) (entries m) in
  let m' := set_counts (put_entry m1 (length bk) (Occupied k v EMPTY_INDEX))
              (num_occupied m + 1) (num_deleted m) in
  extended m m' bk b k v.
Proof.
  intros W Hn Hpos Hb Hs m1 m'. apply shape_append; cbn; try done; rewrite ?length_insert; try done.
  - apply W.
  - intros j Hj. rewrite list_lookup_insert_ne by lia. by apply W.
  - intros j Hj. by rewrite list_lookup_insert_ne by lia.
  - by apply list_lookup_insert_eq.
  - exists (Z.of_nat (length bk)). split; [apply list_lookup_insert_eq; by eapply lookup_lt_Some|].
    rewrite Hpos. cbn. split; [done|]. eexists. split; [by apply list_lookup_insert_eq|done].
  - intros b' Hb' Hne. apply list_lookup_insert_ne. lia.
  - intros b' j Hne Hj. unfold link. rewrite list_lookup_insert_ne; [done|].
    apply positions_lt in Hj. lia.
Qed.

(** A later entry is linked behind the last one. *)
Lemma append_chain m bk b k v l i e start :
  shape m bk -> (length bk < length (entries m))%nat -> positions b bk = l ++ [i] ->
  indices m !! Z.to_nat b = Some start -> lchain (entries m) start (positions b bk) ->
  entries m !! i = Some (Some e) ->
  let m1 := put_entry m i (set_chain e (Z.of_nat (length bk))) in
  let m' := set_counts (put_entry m1 (length bk) (Occupied k v EMPTY_INDEX))
              (num_occupied m + 1) (num_deleted m) in
  extended m m' bk b k v.
Proof.
  intros W Hn Hl Hs Hc Hei m1 m'.
  assert (Hib : i ∈ positions b bk) by (rewrite Hl; apply elem_of_app; right; by left).
  pose proof (positions_lt _ _ _ Hib) as Hi.
  apply shape_append; cbn; try done; rewrite ?length_insert; try done.
  - apply W.
  - intros j Hj. rewrite list_lookup_insert_ne by lia. rewrite list_lookup_insert.
    case_decide; [by eexists|]. by apply W.
  - intros j Hj. rewrite list_lookup_insert_ne by lia. rewrite list_lookup_insert.
    case_decide as Hd; [|done]. destruct Hd as [<- _]. rewrite Hei. by destruct e.
  - apply list_lookup_insert_eq. by rewrite length_insert.
  - exists start. split; [done|]. rewrite Hl, <-app_assoc. cbn.
    rewrite Hl in Hc. apply lchain_snoc; try done; rewrite <-Hl.
    + apply positions_NoDup.
    + intros Hin%positions_lt. lia.
  - intros b' j Hne Hj. unfold link. rewrite !list_lookup_insert_ne; [done| |].
    + intros ->. apply positions_elem in Hj, Hib. congruence.
    + apply positions_lt in Hj. lia.
Qed.

(** What an insertion does, whatever hash it draws: it overwrites the value of an entry of the key
    in place, or no entry of the bucket has the key and the pair is appended. *)
Definition inserted g m bk k v (found : bool) m' : Prop :=
  if found then is_Some (Assoc.lookup k (iter_gc_unsafe m)) /\ shape m' bk /\
    iter_gc_unsafe m' = Assoc.update k v (iter_gc_unsafe m) /\ capacity m' = capacity m /\
    num_deleted m' = num_deleted m /\ forall h, placed h m bk -> placed h m' bk
  else extended m m' bk (hash_index m (g k)) k v /\
    forall h, placed h m bk -> h k = g k -> k ∉ (iter_gc_unsafe m).*1.

Lemma insert_sound g m bk k v :
  shape m bk -> NoDup (iter_gc_unsafe m).*1 -> num_entries_used m < capacity m ->
  exists found m', insert_without_growing g m k v = Done (found, m') /\ inserted g m bk k v found m'.
Proof.
  intros W Hnd Hroom. pose proof (wf_used _ _ W) as Hu. pose proof (wf_cap _ _ W) as Hcap.
  destruct (wf_pow _ _ W) as [Hz|Hp]; [unfold num_entries_used, capacity in *; lia|].
  set (b := hash_index m (g k)).
  pose proof (hash_index_range m (g k) Hp) as Hr. fold b in Hr.
  destruct (wf_chains _ _ W _ Hr) as (start & Hs & Hc).
  assert (Hn : (length bk < length (entries m))%nat) by (unfold capacity in *; lia).
  destruct (lookup_lt_is_Some_2 _ _ Hn) as [x Hx].
  unfold insert_without_growing, get_index_unchecked. fold b. rewrite Hs. cbn [deref mbind outcome_bind].
  rewrite Hu. unfold num_entries_used in Hu.
  destruct (Z.eqb_spec start EMPTY_INDEX) as [He|He].
  - assert (Hpos : positions b bk = []).
    { destruct (positions b bk) as [|i l] eqn:E; [done|]. destruct Hc as [Hc _]. exfalso.
      eapply (not_empty m bk b i); [done|rewrite E; by left|congruence]. }
    unfold set_index_unchecked. rewrite Hs. cbn [deref mbind outcome_bind].
    rewrite (set_entry_put (mkIndexMap _ _ _ _ _) (length bk) _ x Hx). cbn [mbind outcome_bind].
    eexists false, _. split; [done|]. split; [exact (append_bucket m bk b k v start W Hn Hpos ltac:(lia) Hs)|].
    intros h P Eh. eapply items_no_key; [done|done|]. rewrite Eh. fold b. rewrite Hpos. by intros i ?%elem_of_nil.
  - pose proof (positions_length b bk) as Hlen.
    destruct (insert_chain_spec m k v (Z.of_nat (length bk)) start (positions b bk) (S (length (entries m))))
      as [i v0 c Hi Hei|l' i e Hl Hei Hno];
      [done|intros E; by rewrite E in Hc|lia|intros i Hi; by eapply not_empty|..]; cbn [mbind outcome_bind].
    + apply positions_lt in Hi. pose proof (found_lookup m bk i k v0 c W Hnd Hi Hei) as Hlk.
      destruct (shape_overwrite m bk i k v0 c v W Hnd Hi Hei) as (W' & E' & P').
      eexists true, _. split; [done|]. split_and!; [by eexists|exact W'|exact E'|done|done|exact P'].
    + assert (Hi : (i < length bk)%nat) by (apply (positions_lt b); rewrite Hl; apply elem_of_app; right; by left).
      assert (Hx' : entries (put_entry m i (set_chain e (Z.of_nat (length bk)))) !! length bk = Some x).
      { cbn. rewrite list_lookup_insert_ne by lia. done. }
      rewrite (set_entry_put _ _ _ x Hx'). cbn [mbind outcome_bind].
      eexists false, _. split; [done|]. split; [exact (append_chain m bk b k v l' i e start W Hn Hl Hs Hc Hei)|].
      intros h P Eh. eapply items_no_key; [done|done|]. by rewrite Eh.
Qed.

(** With a draw that agrees with the buckets, [insert_without_growing] refines insertion in the
    association list. *)
Lemma inserted_wf h m bk k v found m' :
  wf h m bk -> inserted h m bk k v found m' ->
  found = bool_decide (is_Some (Assoc.lookup k (iter_gc_unsafe m))) /\
  exists bk', wf h m' bk' /\ iter_gc_unsafe m' = Assoc.insert k v (iter_gc_unsafe m) /\
    capacity m' = capacity m /\ num_deleted m' = num_deleted m.
Proof.
  intros [W P Hnd]. unfold Assoc.insert. destruct found; cbn.
  - intros (Hk & W' & I' & C' & D' & P'). rewrite bool_decide_true by done. split; [done|]. exists bk.
    destruct Hk as [w Hk]. rewrite Hk. split_and!; [split; [done|by apply P'|]|done..].
    by rewrite I', Assoc.update_keys.
  - intros [(C' & D' & W' & I' & P') Hn]. specialize (Hn h P eq_refl).
    pose proof (proj2 (Assoc.lookup_None k (iter_gc_unsafe m)) Hn) as ->.
    rewrite bool_decide_false by (by intros [? ?]). split; [done|]. eexists. split_and!; [split; [done|by apply P'|]|done..].
    rewrite I', fmap_app. apply NoDup_app. split_and!; [done| |apply NoDup_singleton].
    intros x Hx ->%list_elem_of_singleton. done.
Qed.

Lemma insert_without_growing_spec h m bk k v :
  wf h m bk -> num_entries_used m < capacity m ->
  exists m' bk', insert_without_growing h m k v =
      Done (bool_decide (is_Some (Assoc.lookup k (iter_gc_unsafe m))), m') /\
    wf h m' bk' /\ iter_gc_unsafe m' = Assoc.insert k v (iter_gc_unsafe m) /\
    capacity m' = capacity m /\ num_deleted m' = num_deleted m.
Proof.
  intros W Hroom. destruct (insert_sound h m bk k v) as (found & m' & E & Hi); [apply W|apply W|done|].
  destruct (inserted_wf h m bk k v found m' W Hi) as (-> & bk' & Hr). eauto.
Qed.

(** * Creation, clearing and growth *)

Lemma shape_empty m :
  is_tombstone m = false -> length (entries m) = length (indices m) ->
  (capacity m = 0 \/ exists k, 0 <= k <= 62 /\ capacity m = 2 ^ k) ->
  num_occupied m = 0 -> num_deleted m = 0 -> (forall i x, indices m !! i = Some x -> x = EMPTY_INDEX) ->
  (forall h, wf h m []) /\ iter_gc_unsafe m = [].
Proof.
  intros Ht Hl Hp Ho Hd Hi.
  assert (Hit : iter_gc_unsafe m = []) by (unfold iter_gc_unsafe, num_entries_used; rewrite Ho, Hd; done).
  split; [|done]. intros h. split; [split|..]; rewrite ?Hit; try done; cbn.
  - unfold num_entries_used. lia.
  - lia.
  - intros i Hlt. lia.
  - intros b Hb. unfold capacity in Hb. destruct (lookup_lt_is_Some_2 (indices m) (Z.to_nat b)) as [x Hx]; [lia|].
    exists x. split; [done|]. cbn. by eapply Hi.
  - intros i k Hlt. cbn in Hlt. lia.
  - constructor.
Qed.

Lemma index_map_new_wf h c :
  (c = 0 \/ exists k, 0 <= k <= 62 /\ c = 2 ^ k) ->
  let m := index_map_new (K := K) (V := V) c in wf h m [] /\ iter_gc_unsafe m = [] /\ capacity m = c.
Proof.
  intros Hc m. assert (0 <= c) by (destruct Hc as [->|(k & ? & ->)]; [lia|apply Z.pow_nonneg; lia]).
  assert (Hcap : capacity m = c) by (unfold capacity; cbn; rewrite length_replicate; lia).
  destruct (shape_empty m) as [W E]; try done.
  - cbn. by rewrite !length_replicate.
  - by rewrite Hcap.
  - by intros i x [-> _]%lookup_replicate.
Qed.

(** [clear] empties the map and keeps its capacity and invariant, for all later draws. *)
Theorem index_map_clear_refines m bk :
  shape m bk -> (forall h, wf h (index_map_clear m) []) /\ iter_gc_unsafe (index_map_clear m) = [] /\
    capacity (index_map_clear m) = capacity m.
Proof.
  intros W. assert (Hcap : capacity (index_map_clear m) = capacity m)
    by (unfold capacity; cbn; by rewrite length_replicate).
  destruct (shape_empty (index_map_clear m)) as [W' E']; try done.
  - apply W.
  - cbn. rewrite length_replicate. apply W.
  - rewrite Hcap. apply W.
  - by intros i x [-> _]%lookup_replicate.
Qed.

(** Distinct new keys are appended in their order whatever is drawn for them. *)
Lemma insert_all_spec draws m bk items :
  shape m bk -> NoDup ((iter_gc_unsafe m ++ items).*1) ->
  num_entries_used m + Z.of_nat (length items) <= capacity m ->
  exists m' bk', insert_all draws m items = Done m' /\ shape m' bk' /\
    iter_gc_unsafe m' = iter_gc_unsafe m ++ items /\ capacity m' = capacity m /\
    num_deleted m' = num_deleted m /\
    forall h, placed h m bk -> (forall n k, draws n k = h k) -> placed h m' bk'.
Proof.
  revert draws m bk. induction items as [|[k v] items IH]; intros draws m bk W Hnd Hroom.
  - exists m, bk. rewrite app_nil_r. done.
  - cbn [length] in Hroom. cbn [insert_all].
    assert (Hnd0 : NoDup (iter_gc_unsafe m).*1) by (rewrite fmap_app in Hnd; by apply NoDup_app in Hnd as [? _]).
    destruct (insert_sound (draws 0%nat) m bk k v W Hnd0) as (found & m1 & E1 & Hi); [lia|].
    rewrite E1. cbn [mbind outcome_bind].
    assert (Hk : Assoc.lookup k (iter_gc_unsafe m) = None).
    { apply Assoc.lookup_None. rewrite fmap_app in Hnd. apply NoDup_app in Hnd as (_ & Hd & _).
      intros Hin. apply (Hd k Hin). cbn. by left. }
    destruct found; cbn in Hi; [destruct Hi as [[w Hw] _]; congruence|].
    destruct Hi as [(C1 & D1 & W1 & I1 & P1) _].
    assert (Hu : num_entries_used m1 = num_entries_used m + 1).
    { unfold num_entries_used. rewrite D1, (wf_occ _ _ W1), (wf_occ _ _ W), I1, length_app. cbn. lia. }
    destruct (IH (fun n => draws (S n)) m1 _ W1) as (m2 & bk2 & E2 & W2 & I2 & C2 & D2 & P2).
    + by rewrite I1, <-app_assoc.
    + rewrite Hu, C1. lia.
    + exists m2, bk2. rewrite I2, I1, <-app_assoc. split_and!; try done; try congruence.
      intros h P Hd. apply P2; [|intros n x; apply Hd]. apply P1; [done|]. by rewrite Hd.
Qed.

Lemma num_deleted_nonneg m bk : shape m bk -> 0 <= num_deleted m.
Proof.
  intros W. pose proof (wf_used _ _ W) as Hu. unfold num_entries_used in Hu.
  rewrite (wf_occ _ _ W), (iter_used _ _ W) in Hu.
  pose proof (length_omap_le kv_of (take (length bk) (entries m))) as Hle. rewrite length_take in Hle. lia.
Qed.

(** The capacity of the new map of a full one has room for another item. *)
Lemma new_capacity_room m bk :
  shape m bk -> capacity m <= 2 ^ 61 -> capacity m <= num_entries_used m ->
  (exists k, 0 <= k <= 62 /\ new_capacity m = 2 ^ k) /\ num_occupied m < new_capacity m.
Proof.
  intros W Hmax Hfull. pose proof (num_deleted_nonneg m bk W) as Hdel. pose proof (wf_occ _ _ W) as Hocc.
  assert (Hle : num_entries_used m <= capacity m).
  { rewrite (wf_used _ _ W). unfold capacity. pose proof (wf_room _ _ W). pose proof (wf_cap _ _ W). lia. }
  unfold new_capacity, num_entries_used in *. destruct (Z.eqb_spec (capacity m) 0) as [Hz|Hz].
  - split; [by exists 2|]. unfold MIN_CAPACITY. lia.
  - destruct (wf_pow _ _ W) as [?|(k & Hk & Hc)]; [done|].
    destruct (Z.ltb_spec (capacity m / 2) (num_deleted m)).
    + split; [eauto|]. assert (0 <= capacity m / 2) by (apply Z.div_pos; unfold capacity; lia). lia.
    + split; [|unfold capacity in *; lia]. exists (k + 1). rewrite Hc, Z.pow_add_r by lia.
      split; [|done]. assert (k < 62); [|lia]. apply (Z.pow_lt_mono_r_iff 2); lia.
Qed.

(** A full map is moved to a new one with the same items and room for another, whatever is drawn
    for them. *)
Lemma grow_spec draws m bk new_map_ptr :
  shape m bk -> NoDup (iter_gc_unsafe m).*1 -> capacity m <= 2 ^ 61 -> capacity m <= num_entries_used m ->
  exists old new bk', maybe_grow_for_insertion draws m new_map_ptr = Done (old, Some new) /\
    shape new bk' /\ iter_gc_unsafe new = iter_gc_unsafe m /\ num_deleted new = 0 /\
    num_entries_used new < capacity new /\ capacity new = new_capacity m /\ entries old = entries m /\
    (capacity m <> 0 -> is_tombstone old = true /\ get_index_unchecked old 0 = Done new_map_ptr) /\
    forall h, (forall n k, draws n k = h k) -> placed h new bk'.
Proof.
  intros W Hnd Hmax Hfull. unfold maybe_grow_for_insertion. rewrite (proj2 (Z.ltb_ge _ _)) by done.
  pose proof (wf_occ _ _ W) as Hocc. destruct (new_capacity_room m bk W Hmax Hfull) as [Hpow Hlt].
  destruct (index_map_new_wf (fun _ => 0) (new_capacity m) (or_intror Hpow)) as ([W0 _ _] & I0 & C0).
  destruct (insert_all_spec draws _ _ (iter_gc_unsafe m) W0) as (new & bk' & E & W' & I' & C' & D' & P').
  { by rewrite I0. }
  { rewrite C0. unfold num_entries_used. cbn. lia. }
  rewrite E. cbn [mbind outcome_bind]. rewrite I0 in I'. cbn in I', D'.
  assert (Hu : num_entries_used new < capacity new).
  { unfold num_entries_used. rewrite D', (wf_occ _ _ W'), I', C', C0. lia. }
  assert (Hc : capacity new = new_capacity m) by congruence.
  assert (Hp : forall h, (forall n k, draws n k = h k) -> placed h new bk').
  { intros h. apply P'. apply (wf_hash _ _ _ (proj1 (index_map_new_wf h (new_capacity m) (or_intror Hpow)))). }
  destruct (Z.eqb_spec (capacity m) 0) as [Hz|Hz].
  - exists m, new, bk'. split_and!; done.
  - destruct (lookup_lt_is_Some_2 (indices m) 0) as [x Hx]; [unfold capacity in Hz; lia|].
    unfold set_index_unchecked. change (Z.to_nat 0) with 0%nat. rewrite Hx. cbn.
    eexists _, new, bk'. split; [done|]. split_and!; try done. intros _. split; [done|].
    unfold get_index_unchecked. cbn. rewrite list_lookup_insert_eq; [done|]. by eapply lookup_lt_Some.
Qed.

(** The map an item is inserted into has the same items as before, and room. *)
Lemma room_spec draws m bk new_map_ptr :
  shape m bk -> NoDup (iter_gc_unsafe m).*1 -> capacity m <= 2 ^ 61 ->
  exists old moved bk', maybe_grow_for_insertion draws m new_map_ptr = Done (old, moved) /\
    let m1 := default old moved in
    shape m1 bk' /\ iter_gc_unsafe m1 = iter_gc_unsafe m /\ num_entries_used m1 < capacity m1 /\
    capacity m1 <= Z.max MIN_CAPACITY (capacity m * 2) /\
    forall h, placed h m bk -> (forall n k, draws n k = h k) -> placed h m1 bk'.
Proof.
  intros W Hnd Hmax. assert (0 <= capacity m) by (unfold capacity; lia).
  destruct (Z.ltb_spec (num_entries_used m) (capacity m)) as [Hlt|Hge].
  - unfold maybe_grow_for_insertion. rewrite (proj2 (Z.ltb_lt _ _)) by done. exists m, None, bk.
    split; [done|]. cbn. split_and!; try done; lia.
  - destruct (grow_spec draws m bk new_map_ptr W Hnd Hmax Hge) as (old & new & bk' & E & W1 & I1 & _ & Hu & C1 & _ & _ & P1).
    exists old, (Some new), bk'. split; [done|]. cbn. split_and!; [done..| |auto].
    rewrite C1. unfold new_capacity. repeat case_match; lia.
Qed.

Lemma map_object_insert_sound draws m bk new_map_ptr k v :
  shape m bk -> NoDup (iter_gc_unsafe m).*1 -> capacity m <= 2 ^ 61 ->
  exists found m' bk', map_object_insert draws m new_map_ptr k v = Done (found, m') /\ shape m' bk' /\
    iter_gc_unsafe m' = (if found then Assoc.update k v (iter_gc_unsafe m) else iter_gc_unsafe m ++ [(k, v)]) /\
    (found = true -> k ∈ (iter_gc_unsafe m).*1) /\
    capacity m' <= Z.max MIN_CAPACITY (capacity m * 2) /\
    forall h, placed h m bk -> (forall n x, draws n x = h x) ->
      placed h m' bk' /\ found = bool_decide (is_Some (Assoc.lookup k (iter_gc_unsafe m))).
Proof.
  intros W Hnd Hmax. unfold map_object_insert.
  destruct (room_spec (fun n => draws (S n)) m bk new_map_ptr W Hnd Hmax) as (old & moved & bk1 & E & W1 & I1 & Hu & C1 & P1).
  rewrite E. cbn [mbind outcome_bind]. set (m1 := default old moved) in *.
  destruct (insert_sound (draws 0%nat) m1 bk1 k v W1) as (found & m' & E' & Hi); [by rewrite I1|done|].
  rewrite E'. exists found, m'. unfold inserted in Hi. rewrite I1 in Hi.
  destruct found; cbn in Hi.
  - destruct Hi as (Hk & W' & I' & C' & _ & P'). exists bk1. split_and!; [done|done|done| |lia|].
    + intros _. destruct Hk as [w Hk]. apply Assoc.lookup_Some_elem in Hk. by apply (list_elem_of_fmap_2 fst) in Hk.
    + intros h P Hd. split; [apply P', P1; [done|intros; apply Hd]|]. by rewrite bool_decide_true.
  - destruct Hi as [(C' & _ & W' & I' & P') Hn]. rewrite I1 in I'.
    eexists. split_and!; [done|exact W'|done|done|lia|].
    intros h P Hd. assert (P1' : placed h m1 bk1) by (apply P1; [done|intros; apply Hd]).
    specialize (Hn h P1' ltac:(by rewrite Hd)). split; [apply P'; [done|by rewrite Hd]|].
    apply Assoc.lookup_None in Hn as ->. by rewrite bool_decide_false by (by intros [? ?]).
Qed.

Lemma map_object_insert_spec h m bk new_map_ptr k v :
  wf h m bk -> capacity m <= 2 ^ 61 ->
  exists m' bk', map_object_insert (fun _ => h) m new_map_ptr k v =
      Done (bool_decide (is_Some (Assoc.lookup k (iter_gc_unsafe m))), m') /\
    wf h m' bk' /\ iter_gc_unsafe m' = Assoc.insert k v (iter_gc_unsafe m) /\
    capacity m' <= Z.max MIN_CAPACITY (capacity m * 2).
Proof.
  intros [W P Hnd] Hmax.
  destruct (map_object_insert_sound (fun _ => h) m bk new_map_ptr k v W Hnd Hmax)
    as (found & m' & bk' & E & W' & I' & _ & C' & Hp).
  destruct (Hp h P ltac:(done)) as [P' ->]. exists m', bk'. rewrite E.
  assert (Hi : iter_gc_unsafe m' = Assoc.insert k v (iter_gc_unsafe m)).
  { rewrite I'. unfold Assoc.insert. destruct (Assoc.lookup k (iter_gc_unsafe m)); [by rewrite bool_decide_true|].
    by rewrite bool_decide_false by (by intros [? ?]). }
  split_and!; [done| |done|done]. split; [done|done|]. rewrite Hi. by apply Assoc.insert_keys_nodup.
Qed.

(** C11: Inserting into a map (grow when full, then insert), whatever hashes are drawn.  From a map
    without duplicate keys and with a capacity of at most 2^61, [MapObject::insert] returns and the
    map keeps its shape.  Growth keeps the items and their order.  Then either the value of an
    entry of the key is overwritten in place and [true] is returned, or the pair is appended and
    [false] is returned; a key that is absent is always appended.  If the draws agree with the
    buckets the keys are in, a key that is present is always found, so the operation is insertion in
    the association list, and the draws agree with the new buckets again. *)
Theorem map_object_insert_refines draws m bk new_map_ptr k v :
  shape m bk -> NoDup (iter_gc_unsafe m).*1 -> capacity m <= 2 ^ 61 ->
  exists found m' bk', map_object_insert draws m new_map_ptr k v = Done (found, m') /\ shape m' bk' /\
    iter_gc_unsafe m' = (if found then Assoc.update k v (iter_gc_unsafe m) else iter_gc_unsafe m ++ [(k, v)]) /\
    (found = true -> k ∈ (iter_gc_unsafe m).*1) /\
    forall h, placed h m bk -> (forall n x, draws n x = h x) ->
      placed h m' bk' /\ found = bool_decide (k ∈ (iter_gc_unsafe m).*1) /\
      iter_gc_unsafe m' = Assoc.insert k v (iter_gc_unsafe m).
Proof.
  intros W Hnd Hmax. destruct (map_object_insert_sound draws m bk new_map_ptr k v W Hnd Hmax)
    as (found & m' & bk' & E & W' & I' & Hf & _ & Hp).
  exists found, m', bk'. split_and!; [done..|]. intros h P Hd. destruct (Hp h P Hd) as [P' ->].
  split; [done|]. rewrite I'. unfold Assoc.insert.
  destruct (Assoc.lookup k (iter_gc_unsafe m)) as [w|] eqn:El.
  - rewrite !bool_decide_true; [done| |by eexists]. apply Assoc.lookup_Some_elem in El.
    by apply (list_elem_of_fmap_2 fst) in El.
  - apply Assoc.lookup_None in El. by rewrite !bool_decide_false by (done || by intros [? ?]).
Qed.

(** * Iterators *)

(** The items an iterator at index [i] has still to yield. *)
Definition remaining m (i : Z) : list (K * V) :=
  omap kv_of (drop (Z.to_nat i) (take (Z.to_nat (num_entries_used m)) (entries m))).

Lemma remaining_drop m i :
  remaining m i = drop (length (omap kv_of (take (Z.to_nat i) (take (Z.to_nat (num_entries_used m)) (entries m)))))
                    (iter_gc_unsafe m).
Proof.
  unfold remaining, iter_gc_unsafe. set (l := take _ (entries m)).
  rewrite <-(take_drop (Z.to_nat i) l) at 3. rewrite omap_app.
  by rewrite drop_app_length.
Qed.

Lemma length_occupied (l : list (option (Entry K V))) :
  length (filter is_occupied l) = length (omap kv_of l).
Proof.
  induction l as [|[[c|k v c]|] l IH]; [done|exact IH|exact (f_equal S IH)|exact IH].
Qed.

Lemma iter_next_from_spec m bk fuel i :
  shape m bk -> 0 <= i -> (length bk < Z.to_nat i + fuel)%nat -> (0 < fuel)%nat ->
  exists o, iter_next_from fuel m i = Done o /\
    match o with
    | Some (item, j) => 0 <= j /\ remaining m i = item :: remaining m j
    | None => remaining m i = []
    end.
Proof.
  intros W. revert i. induction fuel as [|fuel IH]; intros i Hi Hf Hpos; [lia|]; cbn.
  - rewrite (wf_used _ _ W). destruct (Z.ltb_spec i (Z.of_nat (length bk))) as [Hlt|Hge].
    + destruct (wf_init _ _ W (Z.to_nat i)) as [e He]; [lia|].
      unfold get_entry_unchecked. rewrite He. cbn.
      assert (Hd : remaining m i = option_list (kv_of (Some e)) ++ remaining m (i + 1)).
      { unfold remaining. rewrite (wf_used _ _ W), Nat2Z.id.
        rewrite (drop_S _ (Some e) (Z.to_nat i)) by (rewrite lookup_take_lt by lia; done).
        replace (Z.to_nat (i + 1)) with (S (Z.to_nat i)) by lia. cbn. by destruct e. }
      destruct e as [c|k v c]; cbn in Hd.
      * destruct (IH (i + 1)) as (o & E & Ho); [lia|lia|lia|]. exists o. split; [done|]. by rewrite Hd.
      * eexists. split; [done|]. cbn. split; [lia|done].
    + exists None. split; [done|]. unfold remaining. rewrite (wf_used _ _ W), Nat2Z.id.
      rewrite drop_ge; [done|]. rewrite length_take. lia.
Qed.

(** stepping an iterator yields the first of its remaining items and leaves the others; when
    none remains it reports the end and stays where it is. *)
Theorem iter_gc_safe_next_refines m bk i :
  shape m bk -> 0 <= i ->
  exists j, iter_gc_safe_next m i = Done (head (remaining m i), j) /\ 0 <= j /\
    remaining m j = tail (remaining m i).
Proof.
  intros W Hi. unfold iter_gc_safe_next. pose proof (wf_room _ _ W).
  destruct (iter_next_from_spec m bk (S (length (entries m))) i W Hi) as (o & E & Ho); [lia|lia|].
  rewrite E. cbn. destruct o as [[item j]|].
  - destruct Ho as [Hj ->]. by exists j.
  - exists i. rewrite Ho. done.
Qed.

(** iteration is stable under growth, whatever is drawn: an iterator on a map that was moved, fixed up through the
    tombstone, has exactly the items left to yield that it had before. *)
Theorem iterator_survives_growth draws m bk new_map_ptr i :
  shape m bk -> NoDup (iter_gc_unsafe m).*1 -> 0 < capacity m <= 2 ^ 61 -> num_entries_used m = capacity m -> 0 <= i ->
  exists old new j, maybe_grow_for_insertion draws m new_map_ptr = Done (old, Some new) /\
    is_tombstone old = true /\ fix_iterator_for_resized_map old i = Done (new_map_ptr, j) /\
    remaining new j = remaining m i.
Proof.
  intros W Hnd Hcap Hfull Hi.
  destruct (grow_spec draws m bk new_map_ptr W Hnd) as (old & new & bk' & E & W' & I' & D' & _ & _ & Eo & Ht & _); [lia|lia|].
  destruct Ht as [Ht Hp]; [lia|]. eexists old, new, _. split_and!; [done|done| |].
  - unfold fix_iterator_for_resized_map. rewrite Hp. cbn. rewrite Eo. done.
  - rewrite !remaining_drop, I', Nat2Z.id. f_equal. rewrite length_occupied.
    assert (Hall : Z.to_nat (num_entries_used m) = length (entries m)).
    { rewrite Hfull, (wf_cap _ _ W). unfold capacity. lia. }
    rewrite Hall, firstn_all. set (n := length (omap kv_of (take (Z.to_nat i) (entries m)))).
    assert (Hn : (n <= length (iter_gc_unsafe m))%nat).
    { unfold n, iter_gc_unsafe. rewrite Hall, firstn_all.
      rewrite <-(take_drop (Z.to_nat i) (entries m)) at 2. rewrite omap_app, length_app. lia. }
    assert (Hocc : forall l : list (option (Entry K V)), length (omap kv_of l) = length l ->
      length (omap kv_of (take n l)) = length (take n l)).
    { intros l Hl. pose proof (length_omap_le kv_of (take n l)). pose proof (length_omap_le kv_of (drop n l)).
      rewrite <-(take_drop n l) in Hl at 1 2. rewrite omap_app, !length_app in Hl. lia. }
    assert (Hnu : num_entries_used new = Z.of_nat (length (iter_gc_unsafe m))).
    { unfold num_entries_used. rewrite D', (wf_occ _ _ W'), I'. lia. }
    assert (Hbk : length bk' = length (iter_gc_unsafe m)) by (rewrite (wf_used _ _ W') in Hnu; lia).
    rewrite Hocc; [|rewrite Hnu, Nat2Z.id].
    + rewrite !length_take. rewrite Hnu, Nat2Z.id. pose proof (wf_room _ _ W'). lia.
    + rewrite <-Hbk at 1. rewrite <-(iter_used _ _ W'), I', length_take. pose proof (wf_room _ _ W'). lia.
Qed.

(** without room for another entry, inserting an absent key writes past the end of the entries
    array. *)
Theorem insert_into_full_map_faults g m bk k v :
  shape m bk -> 0 < capacity m -> num_entries_used m = capacity m -> k ∉ (iter_gc_unsafe m).*1 ->
  insert_without_growing g m k v = Faulted.
Proof.
  intros W Hpos Hfull Hk. destruct (wf_pow _ _ W) as [?|Hp]; [lia|].
  set (b := hash_index m (g k)).
  pose proof (hash_index_range m (g k) Hp) as Hr. fold b in Hr.
  destruct (wf_chains _ _ W _ Hr) as (start & Hs & Hc). pose proof (wf_used _ _ W) as Hu.
  assert (Hout : forall es : list (option (Entry K V)), length es = length (entries m) -> es !! length bk = None).
  { intros es Hes. apply lookup_ge_None. rewrite Hes, (wf_cap _ _ W). unfold capacity in *. lia. }
  unfold insert_without_growing, get_index_unchecked. fold b. rewrite Hs. cbn [deref mbind outcome_bind]. rewrite Hu.
  destruct (Z.eqb_spec start EMPTY_INDEX) as [He|He].
  - unfold set_index_unchecked, set_entry_unchecked. rewrite Hs. cbn. by rewrite Nat2Z.id, Hout.
  - pose proof (positions_length b bk). pose proof (wf_room _ _ W).
    destruct (insert_chain_spec m k v (Z.of_nat (length bk)) start (positions b bk) (S (length (entries m))))
      as [i v0 c Hi Hei|l' i e Hl Hei Hno];
      [done|intros E; by rewrite E in Hc|lia|intros i Hi; by eapply not_empty|..]; cbn [mbind outcome_bind].
    + exfalso. apply Hk. eapply items_key; [done|by eapply positions_lt|]. unfold key_at. by rewrite Hei.
    + unfold set_entry_unchecked. cbn. rewrite Nat2Z.id, Hout; [done|]. by rewrite length_insert.
Qed.

End proofs.

(** * Concrete maps *)
Module IndexMapExample.

(** Keys 1 (deleted) and 5 collide in bucket 1, key 2 is alone in bucket 2. *)
Definition ex_map : BsIndexMap Z Z :=
  mkIndexMap false 2 1 [EMPTY_INDEX; 0; 2; EMPTY_INDEX]
    [Some (Deleted 1); Some (Occupied 5 50 EMPTY_INDEX); Some (Occupied 2 20 EMPTY_INDEX); None].

(** The same map after the insertion of key 9. *)
Definition ex_full : BsIndexMap Z Z :=
  mkIndexMap false 3 1 [EMPTY_INDEX; 0; 2; EMPTY_INDEX]
    [Some (Deleted 1); Some (Occupied 5 50 3); Some (Occupied 2 20 EMPTY_INDEX);
     Some (Occupied 9 90 EMPTY_INDEX)].

Ltac wf_concrete :=
  split; [split|..]; first
  [ reflexivity
  | right; by exists 2
  | solve [cbn; lia]
  | intros [|[|[|[|i]]]] Hi; cbn in Hi; try lia; by eexists
  | intros [|[|[|[|i]]]] k Hi Hk; cbn in Hi; try lia; try done; injection Hk as <-; reflexivity
  | intros b Hb; unfold capacity in Hb; cbn in Hb;
    assert (b = 0 \/ b = 1 \/ b = 2 \/ b = 3) as [->|[->|[->| ->]]] by lia; eexists;
    (split; [reflexivity|]); repeat (split; [reflexivity|]; eexists; split; [reflexivity|]); reflexivity
  | apply (bool_decide_eq_true_1 _); vm_compute; reflexivity ].

Lemma im_ex_wf : wf (fun k => k) ex_map [1; 1; 2].
Proof. wf_concrete. Qed.

Lemma ex_full_wf : wf (fun k => k) ex_full [1; 1; 2; 1].
Proof. wf_concrete. Qed.

Lemma index_map_get_refines_witness : index_map_get (fun k => k) ex_map 5 = Done (Some 50).
Proof.
  destruct (index_map_get_refines (fun k => k) ex_map [1; 1; 2] 5 (wf_shape _ _ _ im_ex_wf) (wf_nodup _ _ _ im_ex_wf))
    as (o & E & _ & Ho). rewrite E, (Ho _ (wf_hash _ _ _ im_ex_wf) eq_refl). reflexivity.
Defined.

Lemma index_map_remove_refines_witness :
  exists m', index_map_remove (fun k => k) ex_map 5 = Done (true, m') /\ shape m' [1; 1; 2] /\
    iter_gc_unsafe m' = [(2, 20)].
Proof.
  destruct (index_map_remove_refines (fun k => k) ex_map [1; 1; 2] 5 (wf_shape _ _ _ im_ex_wf) (wf_nodup _ _ _ im_ex_wf))
    as (found & m' & E & W & _ & _ & Hf).
  vm_compute in E. injection E as <- <-. destruct Hf as [_ Hi].
  eexists. split; [reflexivity|]. split; [exact W|exact Hi].
Defined.

Lemma index_map_clear_refines_witness :
  wf (fun k => k) (index_map_clear ex_map) [] /\ iter_gc_unsafe (index_map_clear ex_map) = [] /\
    capacity (index_map_clear ex_map) = 4.
Proof.
  destruct (index_map_clear_refines ex_map [1; 1; 2] (wf_shape _ _ _ im_ex_wf)) as (W & E).
  split; [exact (W _)|exact E].
Defined.

(** The map grows, and each of its keys is hashed with another function. *)
Definition ex_draws (n : nat) (k : Z) : Z := k + 5 * Z.of_nat n.

Lemma map_object_insert_refines_witness :
  exists m' bk', map_object_insert ex_draws ex_full 4096 6 60 = Done (false, m') /\
    shape m' bk' /\ iter_gc_unsafe m' = [(5, 50); (2, 20); (9, 90); (6, 60)].
Proof.
  destruct (map_object_insert_refines ex_draws ex_full [1; 1; 2; 1] 4096 6 60 (wf_shape _ _ _ ex_full_wf)
    (wf_nodup _ _ _ ex_full_wf)) as (found & m' & bk' & E & W & Hi & Hf & _); [vm_compute; discriminate|].
  destruct found; [|by exists m', bk'].
  specialize (Hf eq_refl). apply (bool_decide_eq_true_2 _) in Hf. vm_compute in Hf. discriminate Hf.
Defined.

(** a stored key is not found again by a lookup that draws another hash, and inserting it again
    stores it a second time: with the hash of 5 drawn as 6, [get] finds nothing and an insertion
    makes a second entry. *)
Theorem redrawn_hash_misses_stored_key :
  Assoc.lookup 5 (iter_gc_unsafe ex_map) = Some 50 /\
  index_map_get (fun k => k + 1) ex_map 5 = Done None /\
  exists m', map_object_insert (fun _ k => k + 1) ex_map 4096 5 55 = Done (false, m') /\
    iter_gc_unsafe m' = [(5, 50); (2, 20); (5, 55)].
Proof. split; [reflexivity|]. split; [vm_compute; reflexivity|]. eexists. by split; [vm_compute; reflexivity|]. Qed.

Lemma iter_gc_safe_next_refines_witness :
  exists j, iter_gc_safe_next ex_map 0 = Done (Some (5, 50), j) /\ 0 <= j /\ remaining ex_map j = [(2, 20)].
Proof. refine (iter_gc_safe_next_refines ex_map [1; 1; 2] 0 (wf_shape _ _ _ im_ex_wf) _). lia. Defined.

Lemma iterator_survives_growth_witness :
  exists old new j, maybe_grow_for_insertion ex_draws ex_full 4096 = Done (old, Some new) /\
    is_tombstone old = true /\ fix_iterator_for_resized_map old 2 = Done (4096, j) /\
    remaining new j = [(2, 20); (9, 90)].
Proof.
  refine (iterator_survives_growth ex_draws ex_full [1; 1; 2; 1] 4096 2 (wf_shape _ _ _ ex_full_wf)
    (wf_nodup _ _ _ ex_full_wf) _ _ _);
    [split; vm_compute; done|done|lia].
Defined.

Lemma insert_into_full_map_faults_witness : insert_without_growing (fun k => k) ex_full 6 60 = Faulted.
Proof.
  apply (insert_into_full_map_faults (fun k => k) ex_full [1; 1; 2; 1] 6 60 (wf_shape _ _ _ ex_full_wf)); [done|done|].
  cbn. set_solver.
Defined.

(** ** Clearing under an iterator

    [clear] restarts the entries array at index 0 and does not fix up live iterators. *)

(** An iterator that has yielded both items of a map, the map cleared and refilled. *)
Definition clear_scenario : outcome (option (Z * Z) * list (Z * Z)) :=
  '(_, m) ← insert_without_growing (fun k => k) (index_map_new 4) 1 10;
  '(_, m) ← insert_without_growing (fun k => k) m 2 20;
  '(_, i) ← iter_gc_safe_next m 0;
  '(_, i) ← iter_gc_safe_next m i;
  '(_, m) ← insert_without_growing (fun k => k) (index_map_clear m) 3 30;
  '(item, _) ← iter_gc_safe_next m i;
  Done (item, iter_gc_unsafe m).

(** the iterator reports the end although the map has an entry inserted after it. *)
Theorem iterator_misses_entries_after_clear : clear_scenario = Done (None, [(3, 30)]).
Proof. vm_compute. reflexivity. Qed.

End IndexMapExample.
