(* ===== verification/HashMap.v ===== *)
(** The open-addressing hash map [BsHashMap] ([runtime/collections/hash_map.rs]) and its growth
    through [BsHashMapField].

    The entries array has a power-of-two length and is probed with a stride that grows by one at
    each step.

    [key_hash_code] builds a new [DefaultHashBuilder] of the [hashbrown] crate for every call, which
    may be seeded at random.  An operation that hashes once takes the hash function of that call as
    a parameter, and one that hashes several times takes one function for each call, its draws. *)
From S2P Require Import Prelude.

(** The hash functions that two parts of an operation draw, from those of the whole. *)
Definition even_draws {K : Type} (draws : nat -> K -> Z) : nat -> K -> Z := fun n => draws (2 * n)%nat.
Definition odd_draws {K : Type} (draws : nat -> K -> Z) : nat -> K -> Z := fun n => draws (2 * n + 1)%nat.

Module HashMap.

Inductive Entry (K V : Type) : Type :=
| Empty
| Deleted
| Occupied (key : K) (value : V).
Arguments Empty {K V}.
Arguments Deleted {K V}.
Arguments Occupied {K V}.

Record BsHashMap (K V : Type) : Type := mkHashMap {
  len : Z;
  entries : list (Entry K V);
}.
Arguments mkHashMap {K V}.
Arguments len {K V}.
Arguments entries {K V}.

Definition HM_MIN_CAPACITY : Z := 4.

Section hash_map.
Context {K V : Type} `{!EqDecision K} (key_hash_code : K -> Z).

(** [new] and [init]: every entry empty. *)
Definition hash_map_new (capacity : Z) : BsHashMap K V :=
  mkHashMap 0 (replicate (Z.to_nat capacity) Empty).

Definition hash_map_new_initial : BsHashMap K V := hash_map_new HM_MIN_CAPACITY.

Definition hm_capacity (m : BsHashMap K V) : Z := Z.of_nat (length (entries m)).

(** [usize::next_power_of_two] *)
Definition next_power_of_two (n : Z) : Z := 2 ^ Z.log2_up n.

Definition min_capacity_needed (num_elements : Z) : Z :=
  let capacity := next_power_of_two num_elements in
  if capacity / 2 <? num_elements then capacity * 2 else capacity.

Definition hm_mask (m : BsHashMap K V) : Z := wrap64 (hm_capacity m - 1).

Definition initial_probe_index (m : BsHashMap K V) (key_hash_code : Z) : Z :=
  Z.land key_hash_code (hm_mask m).

Definition next_probe_index (m : BsHashMap K V) (prev_probe_index probe_stride : Z) : Z :=
  Z.land (wrap64 (prev_probe_index + probe_stride)) (hm_mask m).

(** The loop of [find_index]; [n] iterations are left. *)
Fixpoint find_probe (n : nat) (m : BsHashMap K V) (key : K) (probe_index probe_stride : Z)
    : outcome (option Z) :=
  match n with
  | O => Done None
  | S n' =>
      e ← deref (entries m !! Z.to_nat probe_index);
      match e with
      | Empty => Done None
      | Deleted =>
          find_probe n' m key (next_probe_index m probe_index probe_stride) (probe_stride + 1)
      | Occupied k _ =>
          if decide (k = key) then Done (Some probe_index)
          else find_probe n' m key (next_probe_index m probe_index probe_stride) (probe_stride + 1)
      end
  end.

Definition hm_find_index (m : BsHashMap K V) (key : K) : outcome (option Z) :=
  find_probe (length (entries m)) m key (initial_probe_index m (key_hash_code key)) 1.

Definition hm_contains_key (m : BsHashMap K V) (key : K) : outcome bool :=
  o ← hm_find_index m key; Done (bool_decide (is_Some o)).

(** [Entry::as_occupied]: [unreachable!()] on the other entries. *)
Definition hm_as_occupied (e : Entry K V) : outcome (K * V) :=
  match e with Occupied k v => Done (k, v) | _ => Panicked end.

Definition hm_get_entry (m : BsHashMap K V) (key : K) : outcome (option (K * V)) :=
  o ← hm_find_index m key;
  match o with
  | None => Done None
  | Some i => e ← deref (entries m !! Z.to_nat i); kv ← hm_as_occupied e; Done (Some kv)
  end.

Definition hash_map_get (m : BsHashMap K V) (key : K) : outcome (option V) :=
  o ← hm_find_index m key;
  match o with
  | None => Done None
  | Some i => e ← deref (entries m !! Z.to_nat i); kv ← hm_as_occupied e; Done (Some kv.2)
  end.

Definition hm_set_unchecked (m : BsHashMap K V) (i : Z) (e : Entry K V) (new_len : Z)
    : outcome (BsHashMap K V) :=
  _ ← deref (entries m !! Z.to_nat i);
  Done (mkHashMap new_len (<[Z.to_nat i := e]> (entries m))).

Definition hash_map_remove (m : BsHashMap K V) (key : K) : outcome (bool * BsHashMap K V) :=
  o ← hm_find_index m key;
  match o with
  | None => Done (false, m)
  | Some i => m ← hm_set_unchecked m i Deleted (wrap64 (len m - 1)); Done (true, m)
  end.

(** The loop of [insert_without_growing]; [n] iterations are left. *)
Fixpoint insert_probe (n : nat) (m : BsHashMap K V) (key : K) (value : V)
    (probe_index probe_stride : Z) : outcome (bool * BsHashMap K V) :=
  match n with
  | O => Done (false, m)
  | S n' =>
      e ← deref (entries m !! Z.to_nat probe_index);
      match e with
      | Empty | Deleted =>
          m ← hm_set_unchecked m probe_index (Occupied key value) (wrap64 (len m + 1));
          Done (false, m)
      | Occupied k _ =>
          if decide (k = key) then
            m ← hm_set_unchecked m probe_index (Occupied k value) (len m);
            Done (true, m)
          else
            insert_probe n' m key value (next_probe_index m probe_index probe_stride)
              (probe_stride + 1)
      end
  end.

Definition hm_insert_without_growing (m : BsHashMap K V) (key : K) (value : V)
    : outcome (bool * BsHashMap K V) :=
  insert_probe (length (entries m)) m key value (initial_probe_index m (key_hash_code key)) 1.

Definition hm_kv_of (e : Entry K V) : option (K * V) :=
  match e with Occupied k v => Some (k, v) | _ => None end.

(** [iter_gc_unsafe]: the items it yields. *)
Definition hm_iter (m : BsHashMap K V) : list (K * V) := omap hm_kv_of (entries m).

End hash_map.

Section growth.
Context {K V : Type} `{!EqDecision K}.

(** The insertions of the growing loop, with the hash function each of them draws. *)
Fixpoint hm_insert_all (draws : nat -> K -> Z) (m : BsHashMap K V) (items : list (K * V))
    : outcome (BsHashMap K V) :=
  match items with
  | [] => Done m
  | (k, v) :: items' =>
      '(_, m) ← hm_insert_without_growing (draws 0%nat) m k v;
      hm_insert_all (fun n => draws (S n)) m items'
  end.

(** [maybe_grow_for_insertion] *)
Definition hm_maybe_grow_for_insertion (draws : nat -> K -> Z) (m : BsHashMap K V)
    : outcome (BsHashMap K V) :=
  if len m + 1 <=? hm_capacity m / 2 then Done m
  else hm_insert_all draws (hash_map_new (hm_capacity m * 2)) (hm_iter m).

(** Insertion into a map field: grow if needed, then insert, which draws the first function. *)
Definition hash_map_insert (draws : nat -> K -> Z) (m : BsHashMap K V) (key : K) (value : V)
    : outcome (bool * BsHashMap K V) :=
  m ← hm_maybe_grow_for_insertion (fun n => draws (S n)) m;
  hm_insert_without_growing (draws 0%nat) m key value.

End growth.
End HashMap.
