(* ===== verification/HashMapCorrect.v ===== *)
(** [BsHashMap]: the probe sequence visits every slot, and the operations refine a finite map as
    long as a key is not re-inserted past a deleted entry and the hash of a key is drawn again. *)
From Stdlib Require Import FunctionalExtensionality.
From S2P Require Import Prelude AssocList HashMap.
Import HashMap.

(** Draws that all agree with one hash function. *)
Definition agree {K : Type} (draws : nat -> K -> Z) (h : K -> Z) : Prop := forall n x, draws n x = h x.

Lemma agree_const {K : Type} (draws : nat -> K -> Z) h : agree draws h -> draws = fun _ => h.
Proof. intros H. apply functional_extensionality. intros n. apply functional_extensionality. apply H. Qed.

Lemma agree_even {K : Type} (draws : nat -> K -> Z) h : agree draws h -> agree (even_draws draws) h.
Proof. intros H n x. apply H. Qed.

Lemma agree_odd {K : Type} (draws : nat -> K -> Z) h : agree draws h -> agree (odd_draws draws) h.
Proof. intros H n x. apply H. Qed.

(** * The probe sequence *)

(** [i * (i + 1) / 2], by recursion. *)
Fixpoint triangle (i : nat) : Z :=
  match i with O => 0 | S i' => triangle i' + Z.of_nat (S i') end.

Lemma triangle_double i : 2 * triangle i = Z.of_nat i * (Z.of_nat i + 1).
Proof. induction i as [|i IH]; [done|]. cbn [triangle]. nia. Qed.

Lemma odd_pow2_divide (n : nat) a b :
  Z.odd a = true -> (2 ^ Z.of_nat n | a * b) -> (2 ^ Z.of_nat n | b).
Proof.
  intros Ha. revert b. induction n as [|n IH]; intros b [q Hq].
  - exists b. change (2 ^ Z.of_nat 0) with 1. lia.
  - rewrite Nat2Z.inj_succ, Z.pow_succ_r in * by lia.
    assert (Hb : Z.even b = true).
    { assert (He : Z.even (a * b) = true).
      { rewrite Hq. apply Z.even_spec. exists (q * 2 ^ Z.of_nat n). lia. }
      rewrite Z.even_mul, <-Z.negb_odd, Ha in He. done. }
    apply Z.even_spec in Hb as [c ->]. destruct (IH c) as [r Hr]; [exists q; lia|].
    exists r. lia.
Qed.

(** Two triangular numbers below [2^k] steps agree modulo [2^k] only when they are the same. *)
Lemma triangle_inj (k : nat) h i j :
  Z.of_nat i < 2 ^ Z.of_nat k -> Z.of_nat j < 2 ^ Z.of_nat k ->
  (h + triangle i) mod 2 ^ Z.of_nat k = (h + triangle j) mod 2 ^ Z.of_nat k -> i = j.
Proof.
  assert (Hlt : forall i j : nat, (i < j)%nat -> Z.of_nat j < 2 ^ Z.of_nat k ->
    (h + triangle i) mod 2 ^ Z.of_nat k = (h + triangle j) mod 2 ^ Z.of_nat k -> False).
  { clear i j. intros i j Hij Hj E. assert (Hpos : 0 < 2 ^ Z.of_nat k) by (apply Z.pow_pos_nonneg; lia).
    assert (Hd : (2 ^ Z.of_nat (S k) | (Z.of_nat j - Z.of_nat i) * (Z.of_nat j + Z.of_nat i + 1))).
    { assert (D : (2 ^ Z.of_nat k | triangle j - triangle i)).
      { apply Z.mod_divide; [lia|]. replace (triangle j - triangle i) with ((h + triangle j) - (h + triangle i)) by lia.
        rewrite Zminus_mod, E, Z.sub_diag. apply Z.mod_0_l. lia. }
      destruct D as [q Hq]. exists q. rewrite Nat2Z.inj_succ, Z.pow_succ_r by lia.
      pose proof (triangle_double i). pose proof (triangle_double j). nia. }
    assert (Hk : 2 ^ Z.of_nat (S k) = 2 * 2 ^ Z.of_nat k) by (rewrite Nat2Z.inj_succ, Z.pow_succ_r; lia).
    destruct (Z.odd (Z.of_nat j - Z.of_nat i)) eqn:Ho.
    - apply odd_pow2_divide in Hd; [|done]. apply Z.divide_pos_le in Hd; lia.
    - rewrite Z.mul_comm in Hd. apply odd_pow2_divide in Hd; [apply Z.divide_pos_le in Hd; lia|].
      replace (Z.of_nat j + Z.of_nat i + 1) with (Z.of_nat j - Z.of_nat i + 1 + 2 * Z.of_nat i) by lia.
      rewrite Z.odd_add_mul_2, Z.odd_add, Ho. done. }
  intros Hi Hj E. destruct (Nat.lt_trichotomy i j) as [H|[H|H]]; [|done|]; exfalso; eauto.
Qed.

Section probes.
Context {K V : Type} `{!EqDecision K} (key_hash_code : K -> Z).
Implicit Types m : BsHashMap K V.

Definition pow2_capacity m : Prop := exists k : nat, (k <= 62)%nat /\ hm_capacity m = 2 ^ Z.of_nat k.

(** The slots the loops visit, in order. *)
Fixpoint probes (n : nat) m (probe_index probe_stride : Z) : list nat :=
  match n with
  | O => []
  | S n' => Z.to_nat probe_index :: probes n' m (next_probe_index m probe_index probe_stride) (probe_stride + 1)
  end.

(** The probe sequence of a key. *)
Definition path m (key : K) : list nat :=
  probes (length (entries m)) m (initial_probe_index m (key_hash_code key)) 1.

Lemma land_mask m (z : Z) :
  pow2_capacity m -> Z.land z (hm_mask m) = z mod hm_capacity m.
Proof.
  intros (k & Hk & Hc). unfold hm_mask. rewrite Hc.
  assert (0 < 2 ^ Z.of_nat k) by (apply Z.pow_pos_nonneg; lia).
  assert (2 ^ Z.of_nat k <= 2 ^ 62) by (apply Z.pow_le_mono_r; lia).
  rewrite wrap64_small by (unfold usize_max; lia).
  replace (2 ^ Z.of_nat k - 1) with (Z.ones (Z.of_nat k)) by (rewrite Z.ones_equiv; lia).
  apply Z.land_ones. lia.
Qed.

Lemma probes_lookup m h n s i :
  pow2_capacity m -> (i < n)%nat -> (s + n <= length (entries m))%nat ->
  probes n m ((h + triangle s) mod hm_capacity m) (Z.of_nat (S s)) !! i =
    Some (Z.to_nat ((h + triangle (s + i)) mod hm_capacity m)).
Proof.
  intros Hp. revert s i. induction n as [|n IH]; intros s i Hi Hs; [lia|].
  destruct i as [|i]; cbn [probes].
  - by rewrite Nat.add_0_r.
  - assert (Hnext : next_probe_index m ((h + triangle s) mod hm_capacity m) (Z.of_nat (S s)) =
      (h + triangle (S s)) mod hm_capacity m).
    { unfold next_probe_index. rewrite land_mask by done. destruct Hp as (k & Hk & Hc).
      assert (0 < 2 ^ Z.of_nat k) by (apply Z.pow_pos_nonneg; lia).
      assert (2 ^ Z.of_nat k <= 2 ^ 62) by (apply Z.pow_le_mono_r; lia).
      pose proof (Z.mod_pos_bound (h + triangle s) (hm_capacity m) ltac:(lia)).
      assert (Z.of_nat (S s) <= hm_capacity m) by (unfold hm_capacity; lia).
      rewrite wrap64_small by (unfold usize_max; lia).
      rewrite Z.add_mod_idemp_l by lia. f_equal. cbn [triangle]. lia. }
    rewrite Hnext. cbn [lookup list_lookup].
    replace (Z.of_nat (S s) + 1) with (Z.of_nat (S (S s))) by lia.
    rewrite IH by lia. by replace (S s + i)%nat with (s + S i)%nat by lia.
Qed.

Lemma probes_length n m p s : length (probes n m p s) = n.
Proof. revert p s. induction n as [|n IH]; intros p s; cbn; [done|]. by rewrite IH. Qed.

Lemma path_lookup m key i :
  pow2_capacity m -> (i < length (entries m))%nat ->
  path m key !! i = Some (Z.to_nat ((key_hash_code key + triangle i) mod hm_capacity m)).
Proof.
  intros Hp Hi. unfold path, initial_probe_index. rewrite land_mask by done.
  pose proof (probes_lookup m (key_hash_code key) (length (entries m)) 0 i Hp Hi) as H.
  cbn [triangle] in H. rewrite Z.add_0_r in H. apply H. lia.
Qed.

(** The probe sequence of every key is a permutation of the slots. *)
Lemma path_permutation m key :
  pow2_capacity m -> path m key ≡ₚ seq 0 (length (entries m)).
Proof.
  intros Hp. pose proof Hp as (k & Hk & Hc).
  assert (0 < 2 ^ Z.of_nat k) by (apply Z.pow_pos_nonneg; lia).
  assert (Hlen : length (path m key) = length (entries m)) by apply probes_length.
  apply submseteq_length_Permutation; [|by rewrite length_seq, Hlen].
  apply NoDup_submseteq.
  - apply NoDup_alt. intros i j x Hi Hj.
    pose proof (lookup_lt_Some _ _ _ Hi) as Li. pose proof (lookup_lt_Some _ _ _ Hj) as Lj.
    rewrite Hlen in Li, Lj. rewrite path_lookup in Hi, Hj by done.
    assert (E : (key_hash_code key + triangle i) mod hm_capacity m = (key_hash_code key + triangle j) mod hm_capacity m).
    { pose proof (Z.mod_pos_bound (key_hash_code key + triangle i) (hm_capacity m) ltac:(lia)).
      pose proof (Z.mod_pos_bound (key_hash_code key + triangle j) (hm_capacity m) ltac:(lia)).
      apply Z2Nat.inj; [lia|lia|congruence]. }
    rewrite Hc in E. apply (triangle_inj k (key_hash_code key)); [| |done]; unfold hm_capacity in Hc; lia.
  - intros x Hx. apply list_elem_of_lookup in Hx as [i Hi]. pose proof (lookup_lt_Some _ _ _ Hi) as Li.
    rewrite Hlen in Li. rewrite path_lookup in Hi by done. injection Hi as <-.
    pose proof (Z.mod_pos_bound (key_hash_code key + triangle i) (hm_capacity m) ltac:(lia)).
    apply elem_of_seq. unfold hm_capacity in *. lia.
Qed.

End probes.

(** * The representation invariant *)

Section proofs.
Context {K V : Type} `{!EqDecision K} (key_hash_code : K -> Z).
Implicit Types (m : BsHashMap K V) (es : list (Entry K V)).

Record hm_wf m : Prop := mkHmWf {
  hw_pow : pow2_capacity m;
  hw_len : len m = Z.of_nat (length (hm_iter m));
  hw_unique : forall i j k v w,
    entries m !! i = Some (Occupied k v) -> entries m !! j = Some (Occupied k w) -> i = j;
  (** a key is found before any empty entry of its probe sequence *)
  hw_reach : forall i k v, entries m !! i = Some (Occupied k v) ->
    exists pre post, path key_hash_code m k = pre ++ i :: post /\
      forall j, j ∈ pre -> entries m !! j <> Some Empty;
}.

Lemma path_ext m m' k :
  length (entries m') = length (entries m) -> path key_hash_code m' k = path key_hash_code m k.
Proof.
  intros E. unfold path, initial_probe_index, hm_mask, hm_capacity. rewrite E.
  assert (Hp : forall n p s, probes n m' p s = probes n m p s).
  { induction n as [|n IH]; intros p s; [done|]. cbn. rewrite IH.
    unfold next_probe_index, hm_mask, hm_capacity. by rewrite E. }
  apply Hp.
Qed.

Lemma path_in_range m k i : pow2_capacity m -> i ∈ path key_hash_code m k -> (i < length (entries m))%nat.
Proof. intros Hp. rewrite (path_permutation key_hash_code m k Hp), elem_of_seq. lia. Qed.

Lemma path_complete m k i : pow2_capacity m -> (i < length (entries m))%nat -> i ∈ path key_hash_code m k.
Proof. intros Hp. rewrite (path_permutation key_hash_code m k Hp), elem_of_seq. lia. Qed.

Lemma mask_nonneg m : pow2_capacity m -> 0 <= hm_mask m.
Proof. intros _. unfold hm_mask, wrap64. apply Z.mod_pos_bound. lia. Qed.

(** ** The loops as searches along the probe sequence *)

Fixpoint find_on es (key : K) (l : list nat) : option nat :=
  match l with
  | [] => None
  | i :: l' =>
      match es !! i with
      | Some (Occupied k _) => if decide (k = key) then Some i else find_on es key l'
      | Some Deleted => find_on es key l'
      | _ => None
      end
  end.

(** The slot an insertion ends in, and whether it holds the key. *)
Fixpoint insert_on es (key : K) (l : list nat) : option (nat * bool) :=
  match l with
  | [] => None
  | i :: l' =>
      match es !! i with
      | Some (Occupied k _) => if decide (k = key) then Some (i, true) else insert_on es key l'
      | _ => Some (i, false)
      end
  end.

Lemma next_probe_nonneg m p s : pow2_capacity m -> 0 <= next_probe_index m p s.
Proof. intros Hp. apply Z.land_nonneg. right. by apply mask_nonneg. Qed.

Lemma find_probe_on m key n p s :
  pow2_capacity m -> 0 <= p -> (forall i, i ∈ probes n m p s -> (i < length (entries m))%nat) ->
  find_probe n m key p s = Done (Z.of_nat <$> find_on (entries m) key (probes n m p s)).
Proof.
  intros Hp. revert p s. induction n as [|n IH]; intros p s H0 Hr; [done|]. cbn in Hr |- *.
  destruct (lookup_lt_is_Some_2 (entries m) (Z.to_nat p)) as [e He]; [apply Hr; by left|].
  assert (Hr' : forall i, i ∈ probes n m (next_probe_index m p s) (s + 1) -> (i < length (entries m))%nat).
  { intros i Hi. apply Hr. by right. }
  rewrite He. cbn. destruct e as [| |k v]; cbn.
  - done.
  - apply IH; [by apply next_probe_nonneg|done].
  - case_decide; [cbn; by rewrite Z2Nat.id|]. apply IH; [by apply next_probe_nonneg|done].
Qed.

Definition hm_put m (i : nat) (e : Entry K V) (n : Z) : BsHashMap K V :=
  mkHashMap n (<[i := e]> (entries m)).

Lemma insert_probe_on m key value n p s :
  pow2_capacity m -> 0 <= p -> (forall i, i ∈ probes n m p s -> (i < length (entries m))%nat) ->
  insert_probe n m key value p s =
    match insert_on (entries m) key (probes n m p s) with
    | Some (i, true) => Done (true, hm_put m i (Occupied key value) (len m))
    | Some (i, false) => Done (false, hm_put m i (Occupied key value) (wrap64 (len m + 1)))
    | None => Done (false, m)
    end.
Proof.
  intros Hp. revert p s. induction n as [|n IH]; intros p s H0 Hr; [done|]. cbn in Hr |- *.
  destruct (lookup_lt_is_Some_2 (entries m) (Z.to_nat p)) as [e He]; [apply Hr; by left|].
  unfold hm_set_unchecked. rewrite He. cbn. destruct e as [| |k v]; cbn; [done|done|].
  case_decide as Hd; [by subst|]. apply IH; [by apply next_probe_nonneg|]. intros i Hi. apply Hr. by right.
Qed.

Lemma hm_find_index_on m key :
  pow2_capacity m ->
  hm_find_index key_hash_code m key = Done (Z.of_nat <$> find_on (entries m) key (path key_hash_code m key)).
Proof.
  intros Hp. unfold hm_find_index, path. apply find_probe_on; [done| |].
  - apply Z.land_nonneg. right. by apply mask_nonneg.
  - intros i Hi. by apply (path_in_range m key).
Qed.

Lemma hm_insert_on m key value :
  pow2_capacity m ->
  hm_insert_without_growing key_hash_code m key value =
    match insert_on (entries m) key (path key_hash_code m key) with
    | Some (i, true) => Done (true, hm_put m i (Occupied key value) (len m))
    | Some (i, false) => Done (false, hm_put m i (Occupied key value) (wrap64 (len m + 1)))
    | None => Done (false, m)
    end.
Proof.
  intros Hp. unfold hm_insert_without_growing, path. apply insert_probe_on; [done| |].
  - apply Z.land_nonneg. right. by apply mask_nonneg.
  - intros i Hi. by apply (path_in_range m key).
Qed.

(** ** Items and slots *)

Lemma hm_iter_elem m k v : (k, v) ∈ hm_iter m <-> exists i, entries m !! i = Some (Occupied k v).
Proof.
  unfold hm_iter. rewrite list_elem_of_omap. split.
  - intros ([| |k' v'] & Hx & Hkv); cbn in Hkv; try done. injection Hkv as -> ->.
    by apply list_elem_of_lookup in Hx.
  - intros [i Hi]. exists (Occupied k v). split; [by eapply list_elem_of_lookup_2|done].
Qed.

Lemma unique_keys es :
  (forall i j k v w, es !! i = Some (Occupied k v) -> es !! j = Some (Occupied k w) -> i = j) ->
  NoDup (omap hm_kv_of es).*1.
Proof.
  induction es as [|e es IH]; intros Hu; [constructor|].
  assert (Hes : NoDup (omap hm_kv_of es).*1).
  { apply IH. intros i j k v w Hi Hj. specialize (Hu (S i) (S j) k v w Hi Hj). lia. }
  destruct e as [| |k v]; cbn; [done|done|]. apply NoDup_cons. split; [|done].
  intros Hin. apply list_elem_of_fmap in Hin as ([k' w] & -> & Hin).
  apply list_elem_of_omap in Hin as ([| |k0 v0] & Hx & Hkv); try done. cbn in Hkv. injection Hkv as -> ->.
  apply list_elem_of_lookup in Hx as [j Hj]. specialize (Hu 0%nat (S j) k' v w eq_refl Hj). lia.
Qed.

Lemma hm_lookup_Some m k v :
  hm_wf m -> Assoc.lookup k (hm_iter m) = Some v <-> exists i, entries m !! i = Some (Occupied k v).
Proof.
  intros W. rewrite <-hm_iter_elem. split; [apply Assoc.lookup_Some_elem|].
  apply Assoc.lookup_nodup. apply unique_keys. apply W.
Qed.

Lemma hm_lookup_None m k :
  hm_wf m -> Assoc.lookup k (hm_iter m) = None <-> forall i v, entries m !! i <> Some (Occupied k v).
Proof.
  intros W. destruct (Assoc.lookup k (hm_iter m)) as [v|] eqn:E.
  - apply (hm_lookup_Some m k v W) in E as [i Hi]. split; [done|]. intros Hn. by destruct (Hn i v).
  - split; [|done]. intros _ i v Hi. assert (Assoc.lookup k (hm_iter m) = Some v); [|congruence].
    apply hm_lookup_Some; eauto.
Qed.

(** ** Lookup *)

Lemma path_slot m k j :
  hm_wf m -> j ∈ path key_hash_code m k -> exists e, entries m !! j = Some e.
Proof. intros W Hj. apply lookup_lt_is_Some_2. eapply path_in_range; [apply W|done]. Qed.

Lemma find_on_present m k i v :
  hm_wf m -> entries m !! i = Some (Occupied k v) ->
  find_on (entries m) k (path key_hash_code m k) = Some i.
Proof.
  intros W Hi. destruct (hw_reach m W i k v Hi) as (pre & post & Hpath & Hpre).
  assert (Hin : forall j, j ∈ pre -> exists e, entries m !! j = Some e).
  { intros j Hj. apply (path_slot m k); [done|]. rewrite Hpath. apply elem_of_app. by left. }
  rewrite Hpath. clear Hpath. induction pre as [|j pre IH]; cbn.
  - by rewrite Hi, decide_True.
  - pose proof (Hpre j ltac:(by left)) as Hj. destruct (Hin j ltac:(by left)) as [e He].
    assert (IH' : find_on (entries m) k (pre ++ i :: post) = Some i).
    { apply IH; intros x Hx; [apply Hpre|apply Hin]; by right. }
    rewrite He in *. destruct e as [| |k' v']; [done|done|].
    case_decide; [subst; f_equal; by eapply (hw_unique m W)|done].
Qed.

Lemma find_on_absent es k l :
  (forall i v, es !! i <> Some (Occupied k v)) -> find_on es k l = None.
Proof.
  intros Hn. induction l as [|j l IH]; cbn; [done|]. destruct (es !! j) as [[| |k' v']|] eqn:E; try done.
  rewrite decide_False; [done|]. intros ->. by apply (Hn j v').
Qed.

Lemma hash_map_get_spec m k :
  hm_wf m -> hash_map_get key_hash_code m k = Done (Assoc.lookup k (hm_iter m)).
Proof.
  intros W. unfold hash_map_get. rewrite hm_find_index_on by apply W.
  destruct (Assoc.lookup k (hm_iter m)) as [v|] eqn:E.
  - apply (hm_lookup_Some m k v W) in E as [i Hi]. rewrite (find_on_present m k i v W Hi). cbn.
    by rewrite Nat2Z.id, Hi.
  - pose proof (proj1 (hm_lookup_None m k W) E) as E'. by rewrite find_on_absent.
Qed.

(** [get] returns the value of the entry holding the key, wherever collisions and deletions
    have placed it. *)
Theorem hash_map_get_refines m k :
  hm_wf m -> hash_map_get key_hash_code m k = Done (Assoc.lookup k (hm_iter m)).
Proof. apply hash_map_get_spec. Qed.

(** ** Updating a slot *)

(** A slot turned into [e] keeps the invariant if no slot becomes empty, the key [e] holds is not
    in another slot, and its probe sequence reaches the slot. *)
Lemma hm_wf_put m i x e n :
  hm_wf m -> entries m !! i = Some x -> e <> Empty ->
  n = len m - Z.of_nat (length (option_list (hm_kv_of x))) + Z.of_nat (length (option_list (hm_kv_of e))) ->
  (forall k v, e = Occupied k v -> forall j w, entries m !! j = Some (Occupied k w) -> j = i) ->
  (forall k v, e = Occupied k v -> exists pre post, path key_hash_code m k = pre ++ i :: post /\
      forall j, j ∈ pre -> entries m !! j <> Some Empty) ->
  hm_wf (hm_put m i e n).
Proof.
  intros W Hi He Hn Hu Hr. pose proof (lookup_lt_Some _ _ _ Hi) as Hlt.
  assert (Hl : length (entries (hm_put m i e n)) = length (entries m)) by apply length_insert.
  assert (Hne : forall j, entries m !! j <> Some Empty -> entries (hm_put m i e n) !! j <> Some Empty).
  { intros j Hj. cbn. rewrite list_lookup_insert. case_decide; [naive_solver|done]. }
  split.
  - destruct (hw_pow m W) as (k & ? & ?). exists k. unfold hm_capacity. by rewrite Hl.
  - destruct (omap_insert_split hm_kv_of (entries m) i x e Hi) as [E1 E2]. unfold hm_iter. cbn.
    pose proof (hw_len m W) as HL. unfold hm_iter in HL. rewrite E1 in HL. rewrite E2, Hn, HL.
    rewrite !length_app. lia.
  - intros a b k v w Ha Hb. cbn in Ha, Hb. rewrite list_lookup_insert in Ha, Hb.
    destruct (decide _) as [[<- _]|Ha'] in Ha; destruct (decide _) as [[<- _]|Hb'] in Hb; simplify_eq.
    + done.
    + symmetry. by eapply Hu.
    + by eapply Hu.
    + by eapply (hw_unique m W).
  - intros a k v Ha. rewrite (path_ext m) by done. cbn in Ha. rewrite list_lookup_insert in Ha.
    destruct (decide _) as [[<- _]|Ha'] in Ha.
    + injection Ha as ->. destruct (Hr k v eq_refl) as (pre & post & Hp & Hpre). exists pre, post. eauto.
    + destruct (hw_reach m W a k v Ha) as (pre & post & Hp & Hpre). exists pre, post. eauto.
Qed.

Lemma hm_put_lookup m i x e n k' :
  hm_wf m -> hm_wf (hm_put m i e n) -> entries m !! i = Some x ->
  (forall k v, hm_kv_of x = Some (k, v) -> k' <> k) -> (forall k v, hm_kv_of e = Some (k, v) -> k' <> k) ->
  Assoc.lookup k' (hm_iter (hm_put m i e n)) = Assoc.lookup k' (hm_iter m).
Proof.
  intros W W' Hi Hx He. apply option_eq. intros v.
  rewrite (hm_lookup_Some m k' v W), (hm_lookup_Some _ k' v W'). cbn.
  split; intros [j Hj]; exists j.
  - rewrite list_lookup_insert in Hj. destruct (decide _) as [[<- _]|Hj'] in Hj; [|done].
    injection Hj as ->. by destruct (He k' v eq_refl).
  - rewrite list_lookup_insert. case_decide as Hd; [|done]. destruct Hd as [<- _].
    rewrite Hi in Hj. injection Hj as ->. by destruct (Hx k' v eq_refl).
Qed.

Lemma hash_map_remove_spec m k :
  hm_wf m -> len m <= usize_max ->
  exists m', hash_map_remove key_hash_code m k =
      Done (bool_decide (is_Some (Assoc.lookup k (hm_iter m))), m') /\ hm_wf m' /\
    hm_capacity m' = hm_capacity m /\
    (forall k', Assoc.lookup k' (hm_iter m') = if decide (k' = k) then None else Assoc.lookup k' (hm_iter m)).
Proof.
  intros W Hmax. unfold hash_map_remove. rewrite hm_find_index_on by apply W.
  destruct (Assoc.lookup k (hm_iter m)) as [v|] eqn:E.
  - apply (hm_lookup_Some m k v W) in E as [i Hi]. rewrite (find_on_present m k i v W Hi). cbn.
    unfold hm_set_unchecked. rewrite Nat2Z.id, Hi. cbn. eexists. split; [done|].
    assert (Hlen : 0 < len m).
    { rewrite (hw_len m W). assert (Hin : (k, v) ∈ hm_iter m) by (apply hm_iter_elem; eauto).
      destruct (hm_iter m); [by apply elem_of_nil in Hin|cbn; lia]. }
    rewrite wrap64_small by lia.
    assert (W' : hm_wf (hm_put m i Deleted (len m - 1))).
    { eapply hm_wf_put; [done|done|done|cbn; lia|done|done]. }
    split; [exact W'|]. split; [unfold hm_capacity; cbn; by rewrite length_insert|].
    intros k'. case_decide as Hd.
    + subst k'. apply (proj2 (hm_lookup_None _ _ W')). cbn. intros j w Hj. rewrite list_lookup_insert in Hj.
      destruct (decide _) as [[<- _]|Hj'] in Hj; [done|].
      assert (j = i) as -> by (by eapply (hw_unique m W)). apply Hj'. split; [done|]. by eapply lookup_lt_Some.
    + eapply hm_put_lookup; [done|done|done| |done]. cbn. intros ? ? [= <- <-]. done.
  - rewrite (find_on_absent (entries m) k) by (by apply (proj1 (hm_lookup_None m k W))). cbn.
    exists m. split_and!; [done|done|done|]. intros k'. case_decide; [by subst|done].
Qed.

(** [remove] deletes the binding of the key, keeps all others and the invariant, and reports
    whether the key was present. *)
Theorem hash_map_remove_refines m k :
  hm_wf m -> len m <= usize_max ->
  exists m', hash_map_remove key_hash_code m k =
      Done (bool_decide (is_Some (Assoc.lookup k (hm_iter m))), m') /\ hm_wf m' /\
    (forall k', Assoc.lookup k' (hm_iter m') = if decide (k' = k) then None else Assoc.lookup k' (hm_iter m)).
Proof.
  intros W Hmax. destruct (hash_map_remove_spec m k W Hmax) as (m' & E & W' & _ & K'). eauto.
Qed.

(** ** Insertion *)

Definition no_deleted m : Prop := forall i, entries m !! i <> Some Deleted.

Lemma insert_on_present m k i v :
  hm_wf m -> no_deleted m -> entries m !! i = Some (Occupied k v) ->
  insert_on (entries m) k (path key_hash_code m k) = Some (i, true).
Proof.
  intros W Hnd Hi. pose proof (find_on_present m k i v W Hi) as Hf.
  assert (Hin : forall j, j ∈ path key_hash_code m k -> exists e, entries m !! j = Some e)
    by (intros j; by apply path_slot).
  revert Hf Hin. induction (path key_hash_code m k) as [|j l IH]; cbn; [done|]. intros Hf Hin.
  destruct (Hin j ltac:(by left)) as [e He]. rewrite He in *.
  destruct e as [| |k' v']; [done|by destruct (Hnd j)|].
  case_decide; [by injection Hf as ->|]. apply IH; [done|]. intros x Hx. apply Hin. by right.
Qed.

Lemma insert_on_absent es k l :
  (forall i v, es !! i <> Some (Occupied k v)) ->
  (exists i, i ∈ l /\ forall k' v, es !! i <> Some (Occupied k' v)) ->
  exists pre i post, insert_on es k l = Some (i, false) /\ l = pre ++ i :: post /\
    (forall j, j ∈ pre -> exists k' v, es !! j = Some (Occupied k' v)) /\
    (forall k' v, es !! i <> Some (Occupied k' v)).
Proof.
  intros Hn. induction l as [|j l IH]; intros (i & Hi & Hfree); [by apply elem_of_nil in Hi|]. cbn.
  destruct (es !! j) as [[| |k' v']|] eqn:E.
  1,2,4: exists [], j, l; split_and!; try done; [intros x Hx; by apply elem_of_nil in Hx|by rewrite E].
  rewrite decide_False by (intros ->; by apply (Hn j v')).
  destruct IH as (pre & i' & post & E' & -> & Hpre & Hfree').
  { exists i. split; [|done]. apply elem_of_cons in Hi as [->|]; [by destruct (Hfree k' v')|done]. }
  exists (j :: pre), i', post. split_and!; try done. intros x [->|Hx]%elem_of_cons; eauto.
Qed.

Lemma free_slot m :
  len m = Z.of_nat (length (hm_iter m)) -> len m < hm_capacity m ->
  exists i x, entries m !! i = Some x /\ forall k v, x <> Occupied k v.
Proof.
  intros Hl Hlt. rewrite Hl in Hlt. unfold hm_iter, hm_capacity in Hlt.
  revert Hlt. generalize (entries m). induction l as [|e es IH]; cbn; [lia|].
  destruct e as [| |k v]; cbn; [intros _; by exists 0%nat, Empty|intros _; by exists 0%nat, Deleted|].
  intros Hlt. destruct IH as (i & x & Hi & Hx); [lia|]. by exists (S i), x.
Qed.

Lemma hm_insert_spec m k v :
  hm_wf m -> len m < hm_capacity m -> hm_capacity m <= 2 ^ 62 ->
  no_deleted m \/ Assoc.lookup k (hm_iter m) = None ->
  exists m', hm_insert_without_growing key_hash_code m k v =
      Done (bool_decide (is_Some (Assoc.lookup k (hm_iter m))), m') /\ hm_wf m' /\
    hm_capacity m' = hm_capacity m /\ (no_deleted m -> no_deleted m') /\
    len m' = len m + (if bool_decide (is_Some (Assoc.lookup k (hm_iter m))) then 0 else 1) /\
    (forall k', Assoc.lookup k' (hm_iter m') = if decide (k' = k) then Some v else Assoc.lookup k' (hm_iter m)).
Proof.
  intros W Hroom Hmax Hdel. pose proof (hw_pow m W) as Hp. rewrite hm_insert_on by done.
  assert (Hnd : forall i n, no_deleted m -> no_deleted (hm_put m i (Occupied k v) n)).
  { intros i n Hd j. cbn. rewrite list_lookup_insert. case_decide; [done|apply Hd]. }
  assert (Hcap : forall i n, hm_capacity (hm_put m i (Occupied k v) n) = hm_capacity m).
  { intros i n. unfold hm_capacity. cbn. by rewrite length_insert. }
  assert (Hnew : forall i x n, entries m !! i = Some x -> hm_wf (hm_put m i (Occupied k v) n) ->
    (forall k0 v0, x = Occupied k0 v0 -> k0 = k) ->
    forall k', Assoc.lookup k' (hm_iter (hm_put m i (Occupied k v) n)) =
      if decide (k' = k) then Some v else Assoc.lookup k' (hm_iter m)).
  { intros i x n Hi W' Hx k'. case_decide as Hd.
    - subst k'. apply hm_lookup_Some; [done|]. exists i. cbn. apply list_lookup_insert_eq. by eapply lookup_lt_Some.
    - eapply hm_put_lookup; [done|done|done| |].
      + intros k0 v0 H0 ->. destruct x; try done. injection H0 as -> ->. by specialize (Hx _ _ eq_refl).
      + by intros k0 v0 [= <- <-]. }
  destruct (Assoc.lookup k (hm_iter m)) as [w|] eqn:E.
  - destruct Hdel as [Hd|]; [|done]. apply (hm_lookup_Some m k w W) in E as [i Hi].
    rewrite (insert_on_present m k i w W Hd Hi). rewrite bool_decide_true by by eexists.
    assert (W' : hm_wf (hm_put m i (Occupied k v) (len m))).
    { eapply hm_wf_put; [done|done|done|cbn; lia| |].
      - intros k0 v0 [= <- <-] j w' Hj. by eapply (hw_unique m W).
      - intros k0 v0 [= <- <-]. by eapply (hw_reach m W). }
    eexists. split_and!; [done|done|done|by apply Hnd|cbn; lia|].
    eapply Hnew; [done|done|]. by intros k0 v0 [= <- <-].
  - pose proof (proj1 (hm_lookup_None m k W) E) as E'. clear E. rename E' into E. rewrite bool_decide_false by (by intros [? ?]).
    destruct (free_slot m (hw_len m W) Hroom) as (s & x & Hs & Hx).
    destruct (insert_on_absent (entries m) k (path key_hash_code m k) E) as (pre & i & post & -> & Hpath & Hpre & Hfree).
    { exists s. split; [eapply path_complete; [done|by eapply lookup_lt_Some]|]. intros k' v' Hk. simplify_eq. by eapply Hx. }
    destruct (path_slot m k i W) as [y Hy]; [rewrite Hpath; apply elem_of_app; right; by left|].
    assert (Hy0 : hm_kv_of y = None) by (destruct y; [done|done|by destruct (Hfree key value)]).
    pose proof (hw_len m W). rewrite wrap64_small by (unfold usize_max; lia).
    assert (W' : hm_wf (hm_put m i (Occupied k v) (len m + 1))).
    { eapply hm_wf_put; [done|done|done|rewrite Hy0; cbn; lia| |].
      - intros k0 v0 [= <- <-] j w' Hj. by destruct (E j w').
      - intros k0 v0 [= <- <-]. exists pre, post. split; [done|]. intros j Hj.
        destruct (Hpre j Hj) as (k' & v' & ->). done. }
    eexists. split_and!; [done|done|done|by apply Hnd|cbn; lia|].
    eapply Hnew; [done|done|]. intros k0 v0 ->. done.
Qed.

(** ** Growth *)

Lemma hash_map_new_wf (k : nat) :
  (k <= 62)%nat -> let m := hash_map_new (K := K) (V := V) (2 ^ Z.of_nat k) in
  hm_wf m /\ no_deleted m /\ hm_iter m = [] /\ hm_capacity m = 2 ^ Z.of_nat k.
Proof.
  intros Hk m. assert (0 < 2 ^ Z.of_nat k) by (apply Z.pow_pos_nonneg; lia).
  assert (Hcap : hm_capacity m = 2 ^ Z.of_nat k) by (unfold hm_capacity; cbn; rewrite length_replicate; lia).
  assert (Hit : hm_iter m = []).
  { unfold hm_iter. cbn. generalize (Z.to_nat (2 ^ Z.of_nat k)). by induction n. }
  assert (He : forall i x, entries m !! i = Some x -> x = Empty) by (by intros i x [-> _]%lookup_replicate).
  split_and!; [|intros i Hi; by apply He in Hi|done|done]. split.
  - by exists k.
  - by rewrite Hit.
  - intros i j k' v w Hi%He. done.
  - intros i k' v Hi%He. done.
Qed.

Lemma hm_insert_all_spec m items :
  hm_wf m -> no_deleted m -> NoDup items.*1 -> len m + Z.of_nat (length items) <= hm_capacity m ->
  hm_capacity m <= 2 ^ 62 ->
  exists m', hm_insert_all (fun _ => key_hash_code) m items = Done m' /\ hm_wf m' /\ no_deleted m' /\
    hm_capacity m' = hm_capacity m /\ len m' <= len m + Z.of_nat (length items) /\
    forall k', Assoc.lookup k' (hm_iter m') =
      match Assoc.lookup k' items with Some v => Some v | None => Assoc.lookup k' (hm_iter m) end.
Proof.
  revert m. induction items as [|[k v] items IH]; intros m W Hd Hnd Hroom Hmax.
  - exists m. cbn. split_and!; try done. lia.
  - cbn [length] in Hroom. cbn [hm_insert_all].
    destruct (hm_insert_spec m k v W) as (m1 & E1 & W1 & C1 & D1 & L1 & K1); [lia|done|by left|].
    rewrite E1. cbn [mbind outcome_bind]. cbn in Hnd. apply NoDup_cons in Hnd as [Hk Hnd].
    assert (Hle : len m1 <= len m + 1) by (rewrite L1; destruct (bool_decide _); lia).
    destruct (IH m1 W1 (D1 Hd) Hnd) as (m2 & E2 & W2 & D2 & C2 & L2 & K2); [lia|lia|].
    exists m2. split_and!; [done|done|done|congruence|cbn [length]; lia|].
    intros k'. rewrite K2, K1. cbn. apply Assoc.lookup_None in Hk.
    repeat case_decide; subst; try done. by rewrite Hk.
Qed.

(** A key can be inserted if the table has no deleted entry, the key is new, or the table is about
    to grow, which drops its deleted entries. *)
Definition insert_safe m (k : K) : Prop :=
  no_deleted m \/ Assoc.lookup k (hm_iter m) = None \/ hm_capacity m / 2 < len m + 1.

Lemma hash_map_insert_spec m k v :
  hm_wf m -> 0 < hm_capacity m <= 2 ^ 61 -> insert_safe m k ->
  exists m', hash_map_insert (fun _ => key_hash_code) m k v =
      Done (bool_decide (is_Some (Assoc.lookup k (hm_iter m))), m') /\ hm_wf m' /\
    (forall k', Assoc.lookup k' (hm_iter m') = if decide (k' = k) then Some v else Assoc.lookup k' (hm_iter m)) /\
    (hm_capacity m' = hm_capacity m \/
     hm_capacity m' = hm_capacity m * 2 /\ hm_capacity m / 2 < len m + 1) /\
    (no_deleted m -> no_deleted m').
Proof.
  intros W Hcap Hdel. unfold hash_map_insert, hm_maybe_grow_for_insertion.
  assert (Hlen : len m <= hm_capacity m).
  { rewrite (hw_len m W). unfold hm_capacity, hm_iter. pose proof (length_omap_le hm_kv_of (entries m)). lia. }
  destruct (Z.leb_spec (len m + 1) (hm_capacity m / 2)) as [Hle|Hgt].
  - cbn [mbind outcome_bind].
    assert (hm_capacity m / 2 < hm_capacity m) by (apply Z.div_lt; lia).
    destruct (hm_insert_spec m k v W) as (m' & E & W' & C' & D' & _ & K').
    { lia. }
    { lia. }
    { destruct Hdel as [|[|]]; [by left|by right|lia]. }
    exists m'. split_and!; eauto.
  - destruct (hw_pow m W) as (n & Hn & Hc).
    assert (Hn' : (S n <= 62)%nat).
    { assert (Z.of_nat n < 62); [|lia]. apply (Z.pow_lt_mono_r_iff 2); lia. }
    assert (E2 : hm_capacity m * 2 = 2 ^ Z.of_nat (S n)) by (rewrite Hc, Nat2Z.inj_succ, Z.pow_succ_r; lia).
    rewrite E2. destruct (hash_map_new_wf (S n) Hn') as (W0 & D0 & I0 & C0).
    destruct (hm_insert_all_spec _ (hm_iter m) W0 D0) as (m1 & E1 & W1 & D1 & C1 & L1 & K1).
    { apply unique_keys, W. }
    { rewrite C0. cbn [len hash_map_new]. rewrite <-(hw_len m W). lia. }
    { rewrite C0. apply Z.pow_le_mono_r; lia. }
    rewrite E1. cbn [mbind outcome_bind]. cbn [len hash_map_new] in L1. rewrite <-(hw_len m W) in L1.
    assert (K1' : forall k', Assoc.lookup k' (hm_iter m1) = Assoc.lookup k' (hm_iter m)).
    { intros k'. rewrite K1, I0. by destruct (Assoc.lookup k' (hm_iter m)). }
    destruct (hm_insert_spec m1 k v W1) as (m' & E & W' & C' & D' & _ & K').
    { lia. }
    { rewrite C1, C0. apply Z.pow_le_mono_r; lia. }
    { by left. }
    exists m'. rewrite <-(K1' k). split_and!; [done|done| |right; split; [congruence|lia]|intros _; by apply D'].
    intros k'. rewrite K', K1'. done.
Qed.

(** the probe sequence of every key visits each slot of the table exactly once. *)
Theorem probe_sequence_visits_every_slot m k :
  pow2_capacity m -> path key_hash_code m k ≡ₚ seq 0 (length (entries m)).
Proof. intros Hp. by apply path_permutation. Qed.

End proofs.

(** * Insertion with any hashes *)

Section any_hash.
Context {K V : Type} `{!EqDecision K}.
Implicit Types (m : BsHashMap K V) (es : list (Entry K V)) (h : K -> Z) (draws : nat -> K -> Z).

(** What holds of a map whatever hashes are drawn. *)
Definition hm_shape m : Prop := pow2_capacity m /\ len m = Z.of_nat (length (hm_iter m)).

(** The items after an insertion: the value of an entry of the key is overwritten, or an entry is
    added. *)
Definition inserted (found : bool) (k : K) (v : V) (items items' : list (K * V)) : Prop :=
  if found then exists w rest, items ≡ₚ (k, w) :: rest /\ items' ≡ₚ (k, v) :: rest
  else items' ≡ₚ (k, v) :: items.

(** Every stored key is on the probe sequence of [h], before any empty entry. *)
Definition hm_reach h m : Prop := forall i k v, entries m !! i = Some (Occupied k v) ->
  exists pre post, path h m k = pre ++ i :: post /\ forall j, j ∈ pre -> entries m !! j <> Some Empty.

Lemma keys_unique es :
  NoDup (omap hm_kv_of es).*1 -> forall i j k v w,
    es !! i = Some (Occupied k v) -> es !! j = Some (Occupied k w) -> i = j.
Proof.
  assert (Hin : forall es j k w, es !! j = Some (Occupied k w) -> k ∈ (omap hm_kv_of es).*1).
  { intros es' j k w Hj. apply list_elem_of_fmap. exists (k, w). split; [done|].
    apply list_elem_of_omap. exists (Occupied k w). split; [by eapply list_elem_of_lookup_2|done]. }
  induction es as [|e es IH]; intros Hnd [|i] [|j] k v w Hi Hj; cbn in Hi, Hj; simplify_eq; try done.
  - cbn in Hnd. apply NoDup_cons in Hnd as [Hn _]. by destruct Hn; eapply Hin.
  - cbn in Hnd. apply NoDup_cons in Hnd as [Hn _]. by destruct Hn; eapply Hin.
  - f_equal. eapply IH; [|done|done]. destruct e; cbn in Hnd; [done|done|by apply NoDup_cons in Hnd as [_ ?]].
Qed.

Lemma hm_wf_split h m : hm_wf h m <-> hm_shape m /\ NoDup (hm_iter m).*1 /\ hm_reach h m.
Proof.
  split.
  - intros W. split_and!; [split; apply W|apply unique_keys, W|exact (hw_reach h m W)].
  - intros ([Hp Hl] & Hnd & Hr). split; [done|done|by apply keys_unique|done].
Qed.

Lemma inserted_nodup found k v items items' :
  inserted found k v items items' -> (found = false -> Assoc.lookup k items = None) ->
  NoDup items.*1 -> NoDup items'.*1.
Proof.
  intros Hi Hk Hnd. destruct found; cbn in Hi.
  - destruct Hi as (w & rest & R1 & R2). rewrite R2. by rewrite R1 in Hnd.
  - rewrite Hi. apply NoDup_cons. split; [by apply Assoc.lookup_None, Hk|done].
Qed.

(** An overwritten or new key: the items are those of the finite map with the key inserted. *)
Lemma inserted_lookup found k v items items' :
  inserted found k v items items' -> (found = false -> Assoc.lookup k items = None) -> NoDup items.*1 ->
  forall k', Assoc.lookup k' items' = if decide (k' = k) then Some v else Assoc.lookup k' items.
Proof.
  intros Hi Hk Hnd k'. pose proof (inserted_nodup _ _ _ _ _ Hi Hk Hnd) as Hnd'. destruct found; cbn in Hi.
  - destruct Hi as (w & rest & R1 & R2). rewrite (Assoc.lookup_perm k' _ _ Hnd' R2), (Assoc.lookup_perm k' _ _ Hnd R1).
    cbn. repeat case_decide; by subst.
  - rewrite (Assoc.lookup_perm k' _ _ Hnd' Hi). cbn. repeat case_decide; by subst.
Qed.

Lemma inserted_found k v items items' : inserted true k v items items' -> k ∈ items.*1.
Proof. intros (w & rest & -> & _). cbn. by left. Qed.

Lemma insert_on_slot es k l :
  (exists i, i ∈ l /\ forall k' v, es !! i <> Some (Occupied k' v)) ->
  exists i found, insert_on es k l = Some (i, found) /\ i ∈ l /\
    if found then exists w, es !! i = Some (Occupied k w)
    else forall k' v, es !! i <> Some (Occupied k' v).
Proof.
  induction l as [|j l IH]; intros (i & Hi & Hfree); [by apply elem_of_nil in Hi|]. cbn.
  destruct (es !! j) as [[| |k' v']|] eqn:E.
  1,2,4: exists j, false; split_and!; [done|by left|by rewrite E].
  case_decide as Hd; [subst k'; exists j, true; split_and!; [done|by left|by exists v']|].
  destruct IH as (i' & b & E' & Hin & Hb).
  { exists i. split; [|done]. apply elem_of_cons in Hi as [->|]; [by destruct (Hfree k' v')|done]. }
  exists i', b. split_and!; [done|by right|done].
Qed.

Lemma hm_put_shape m i x k v n :
  pow2_capacity m -> entries m !! i = Some x ->
  n = len m + 1 - Z.of_nat (length (option_list (hm_kv_of x))) -> len m = Z.of_nat (length (hm_iter m)) ->
  hm_shape (hm_put m i (Occupied k v) n) /\
  hm_capacity (hm_put m i (Occupied k v) n) = hm_capacity m /\
  exists rest, hm_iter m ≡ₚ option_list (hm_kv_of x) ++ rest /\
    hm_iter (hm_put m i (Occupied k v) n) ≡ₚ (k, v) :: rest.
Proof.
  intros (e & He & Hc) Hi Hn Hl.
  assert (Hcap : hm_capacity (hm_put m i (Occupied k v) n) = hm_capacity m).
  { unfold hm_capacity. cbn. by rewrite length_insert. }
  destruct (omap_insert_split hm_kv_of (entries m) i x (Occupied k v) Hi) as [E1 E2].
  assert (E2' : hm_iter (hm_put m i (Occupied k v) n) = omap hm_kv_of (<[i:=Occupied k v]> (entries m))) by done.
  unfold hm_iter in Hl |- *. rewrite E1 in Hl. split_and!; [split|done|].
  - exists e. by rewrite Hcap.
  - rewrite E2', E2, Hn, Hl, !length_app. cbn. lia.
  - exists (omap hm_kv_of (take i (entries m)) ++ omap hm_kv_of (drop (S i) (entries m))). split.
    + rewrite E1. rewrite (Permutation_app_swap_app (omap _ _)). done.
    + unfold hm_iter in E2'. rewrite E2', E2. cbn. by rewrite <-Permutation_middle.
Qed.

Lemma hm_insert_sound h m k v :
  hm_shape m -> len m < hm_capacity m <= 2 ^ 62 ->
  exists found m', hm_insert_without_growing h m k v = Done (found, m') /\ hm_shape m' /\
    hm_capacity m' = hm_capacity m /\ inserted found k v (hm_iter m) (hm_iter m') /\
    (no_deleted m -> no_deleted m').
Proof.
  intros [Hp Hl] Hroom. rewrite hm_insert_on by done.
  assert (Hnd : forall i n, no_deleted m -> no_deleted (hm_put m i (Occupied k v) n)).
  { intros i n Hd j. cbn. rewrite list_lookup_insert. case_decide; [done|apply Hd]. }
  destruct (free_slot m Hl) as (s & x & Hs & Hx); [lia|].
  destruct (insert_on_slot (entries m) k (path h m k)) as (i & found & -> & Hin & Hi).
  { exists s. split; [by eapply path_complete, lookup_lt_Some|]. intros k' v' Hk. simplify_eq. by eapply Hx. }
  destruct found.
  - destruct Hi as [w Hi].
    destruct (hm_put_shape m i _ k v (len m) Hp Hi) as (W & C & rest & R1 & R2); [cbn; lia|done|].
    exists true. eexists. split_and!; [done..| |by apply Hnd]. by exists w, rest.
  - destruct (lookup_lt_is_Some_2 (entries m) i) as [y Hy]; [by eapply path_in_range|].
    assert (Hy0 : hm_kv_of y = None) by (destruct y; [done|done|by destruct (Hi key value)]).
    rewrite wrap64_small by (unfold usize_max; lia).
    destruct (hm_put_shape m i y k v (len m + 1) Hp Hy) as (W & C & rest & R1 & R2); [rewrite Hy0; cbn; lia|done|].
    rewrite Hy0 in R1. exists false. eexists. split_and!; [done..| |by apply Hnd]. cbn. rewrite R1. exact R2.
Qed.

Lemma hm_insert_all_sound draws m items :
  hm_shape m -> NoDup (items ++ hm_iter m).*1 ->
  len m + Z.of_nat (length items) <= hm_capacity m <= 2 ^ 62 ->
  exists m', hm_insert_all draws m items = Done m' /\ hm_shape m' /\
    hm_capacity m' = hm_capacity m /\ hm_iter m' ≡ₚ items ++ hm_iter m /\ (no_deleted m -> no_deleted m').
Proof.
  revert draws m. induction items as [|[k v] items IH]; intros draws m W Hnd Hroom; [by exists m|].
  cbn [length] in Hroom. cbn [hm_insert_all].
  destruct (hm_insert_sound (draws 0%nat) m k v W) as (found & m1 & E1 & W1 & C1 & I1 & D1); [lia|].
  rewrite E1. cbn [mbind outcome_bind]. cbn in Hnd. apply NoDup_cons in Hnd as [Hk Hnd].
  destruct found.
  { apply inserted_found in I1. destruct Hk. rewrite fmap_app, elem_of_app. by right. }
  cbn in I1. destruct (IH (fun n => draws (S n)) m1 W1) as (m2 & E2 & W2 & C2 & I2 & D2).
  { rewrite I1, <-Permutation_middle. cbn. by apply NoDup_cons. }
  { rewrite C1, (proj2 W1), I1. destruct W as [_ Hl]. cbn [length]. lia. }
  exists m2. split_and!; [done|done|congruence| |by auto]. rewrite I2, I1. by rewrite <-Permutation_middle.
Qed.

(** Growing keeps the items, and leaves room for one more. *)
Lemma hm_grow_sound draws m :
  hm_shape m -> NoDup (hm_iter m).*1 -> 0 < hm_capacity m <= 2 ^ 61 ->
  exists m', hm_maybe_grow_for_insertion draws m = Done m' /\ hm_shape m' /\
    len m' < hm_capacity m' <= 2 ^ 62 /\ hm_iter m' ≡ₚ hm_iter m /\
    (hm_capacity m' = hm_capacity m \/
     hm_capacity m' = hm_capacity m * 2 /\ hm_capacity m / 2 < len m + 1) /\
    (no_deleted m -> no_deleted m').
Proof.
  intros W Hnd Hcap. pose proof W as [(n & Hn & Hc) Hl]. unfold hm_maybe_grow_for_insertion.
  assert (Hle : len m <= hm_capacity m).
  { rewrite Hl. unfold hm_capacity, hm_iter. pose proof (length_omap_le hm_kv_of (entries m)). lia. }
  destruct (Z.leb_spec (len m + 1) (hm_capacity m / 2)) as [Hh|Hh].
  - exists m. assert (hm_capacity m / 2 < hm_capacity m) by (apply Z.div_lt; lia).
    split_and!; [done|done|lia|lia|done|by left|done].
  - assert (Hn' : (S n <= 62)%nat).
    { assert (Z.of_nat n < 62); [|lia]. apply (Z.pow_lt_mono_r_iff 2); lia. }
    assert (E2 : hm_capacity m * 2 = 2 ^ Z.of_nat (S n)) by (rewrite Hc, Nat2Z.inj_succ, Z.pow_succ_r; lia).
    rewrite E2. destruct (hash_map_new_wf (K := K) (V := V) (fun _ => 0) (S n) Hn') as (W0 & D0 & I0 & C0).
    destruct (hm_insert_all_sound draws _ (hm_iter m)
      (conj (hw_pow _ _ W0) (hw_len _ _ W0))) as (m1 & E1 & W1 & C1 & I1 & D1).
    { by rewrite I0, app_nil_r. }
    { rewrite C0. cbn [len hash_map_new]. lia. }
    rewrite I0, app_nil_r in I1. exists m1. split_and!; [done|done| |lia|done|right; split; [congruence|lia]|by auto].
    rewrite (proj2 W1), I1. lia.
Qed.

Lemma hash_map_insert_sound draws m k v :
  hm_shape m -> NoDup (hm_iter m).*1 -> 0 < hm_capacity m <= 2 ^ 61 ->
  exists found m', hash_map_insert draws m k v = Done (found, m') /\ hm_shape m' /\
    inserted found k v (hm_iter m) (hm_iter m') /\
    (hm_capacity m' = hm_capacity m \/
     hm_capacity m' = hm_capacity m * 2 /\ hm_capacity m / 2 < len m + 1) /\
    (no_deleted m -> no_deleted m').
Proof.
  intros W Hnd Hcap. unfold hash_map_insert.
  destruct (hm_grow_sound (fun n => draws (S n)) m W Hnd Hcap) as (m1 & -> & W1 & C1 & I1 & C2 & D1). cbn [mbind outcome_bind].
  destruct (hm_insert_sound (draws 0%nat) m1 k v W1 C1) as (found & m' & E & W' & C' & I' & D').
  exists found, m'. split_and!; [done|done| |by rewrite C'|by auto]. destruct found; cbn in *; [|by rewrite I', I1].
  destruct I' as (w & rest & R1 & R2). exists w, rest. by rewrite <-I1.
Qed.

(** A lookup finds the value of the key or nothing, and finds it if the hash reaches the key. *)
Lemma hm_find_on_sound es k l i : find_on es k l = Some i -> exists w, es !! i = Some (Occupied k w).
Proof.
  induction l as [|j l IH]; cbn; [done|]. destruct (es !! j) as [[| |k' v']|] eqn:E; try done.
  case_decide; [intros [= <-]; subst; by exists v'|done].
Qed.

Lemma hm_get_sound h m k :
  hm_shape m -> NoDup (hm_iter m).*1 ->
  exists r, hash_map_get h m k = Done r /\ (r = Assoc.lookup k (hm_iter m) \/ r = None).
Proof.
  intros [Hp _] Hnd. unfold hash_map_get. rewrite hm_find_index_on by done.
  destruct (find_on (entries m) k (path h m k)) as [i|] eqn:E; [|exists None; by auto].
  destruct (hm_find_on_sound _ _ _ _ E) as [w Hw]. cbn. rewrite Nat2Z.id, Hw. cbn. exists (Some w).
  split; [done|]. left. symmetry. apply Assoc.lookup_nodup; [done|]. apply hm_iter_elem. eauto.
Qed.

(** A removal removes the key or misses it. *)
Lemma hm_remove_sound h m k :
  hm_shape m -> NoDup (hm_iter m).*1 -> hm_capacity m <= 2 ^ 62 ->
  exists b m', hash_map_remove h m k = Done (b, m') /\ hm_shape m' /\ NoDup (hm_iter m').*1 /\
    hm_capacity m' = hm_capacity m /\
    forall k', Assoc.lookup k' (hm_iter m') =
      if b && bool_decide (k' = k) then None else Assoc.lookup k' (hm_iter m).
Proof.
  intros [Hp Hl] Hnd Hc. unfold hash_map_remove. rewrite hm_find_index_on by done.
  destruct (find_on (entries m) k (path h m k)) as [i|] eqn:E; cbn; [|by exists false, m].
  destruct (hm_find_on_sound _ _ _ _ E) as [w Hw]. unfold hm_set_unchecked. rewrite Nat2Z.id, Hw. cbn.
  destruct (omap_insert_split hm_kv_of (entries m) i _ Deleted Hw) as [E1 E2]. cbn in E1, E2.
  exists true. eexists. split; [done|]. cbn [entries len].
  set (rest := omap hm_kv_of (take i (entries m)) ++ omap hm_kv_of (drop (S i) (entries m))) in *.
  assert (R1 : hm_iter m ≡ₚ (k, w) :: rest) by (unfold hm_iter; rewrite E1; by rewrite <-Permutation_middle).
  assert (R2 : forall n, hm_iter (mkHashMap n (<[i:=Deleted]> (entries m))) = rest) by (intros n; exact E2).
  assert (Hlen : len m = Z.of_nat (length rest) + 1) by (rewrite Hl, R1; cbn; lia).
  assert (Z.of_nat (length rest) <= hm_capacity m).
  { pose proof (length_omap_le hm_kv_of (entries m)). unfold hm_iter, hm_capacity in *. lia. }
  assert (Hnd2 : NoDup ((k, w) :: rest).*1) by (by rewrite <-R1).
  split_and!.
  - split; [|rewrite R2; cbn [len]; rewrite wrap64_small; [lia|unfold usize_max; lia]].
    destruct Hp as (e & ? & ?). exists e. unfold hm_capacity. cbn. by rewrite length_insert.
  - rewrite R2. by apply NoDup_cons in Hnd2 as [_ ?].
  - unfold hm_capacity. cbn. by rewrite length_insert.
  - intros k'. rewrite R2, (Assoc.lookup_perm k' _ _ Hnd R1). cbn. apply NoDup_cons in Hnd2 as [Hk _].
    cbn in Hk. case_bool_decide; repeat case_decide; subst; try done. by apply Assoc.lookup_None.
Qed.

(** C12: inserting through a map field (which doubles the table when more than half of it would be
    in use), whatever hashes are drawn.  From a map without duplicate keys, with a power-of-two
    capacity of at most 2^61, the insertion returns, the map keeps its shape, and its items are the
    old ones in which either the value of an entry of the key was overwritten and [true] is
    returned, or an entry was added and [false] is returned; a key that is absent is always added.
    If the draws agree with one hash function whose probe sequences reach every stored key, and the
    table has no deleted entry, the key is new, or the table grows, then the operation is insertion
    in a finite map, it reports whether the key was present, and the probe sequences reach every
    key again. *)
Theorem hash_map_insert_refines draws m k v :
  hm_shape m -> NoDup (hm_iter m).*1 -> 0 < hm_capacity m <= 2 ^ 61 ->
  exists found m', hash_map_insert draws m k v = Done (found, m') /\ hm_shape m' /\
    inserted found k v (hm_iter m) (hm_iter m') /\ (found = true -> k ∈ (hm_iter m).*1) /\
    forall h, hm_wf h m -> agree draws h -> insert_safe m k ->
      hm_wf h m' /\ found = bool_decide (is_Some (Assoc.lookup k (hm_iter m))) /\
      forall k', Assoc.lookup k' (hm_iter m') = if decide (k' = k) then Some v else Assoc.lookup k' (hm_iter m).
Proof.
  intros W Hnd Hcap. destruct (hash_map_insert_sound draws m k v W Hnd Hcap) as (found & m' & E & W' & I' & _).
  exists found, m'. split_and!; [done|done|done|intros ->; by eapply inserted_found|].
  intros h Wh ->%agree_const Hs.
  destruct (hash_map_insert_spec h m k v Wh Hcap Hs) as (m2 & E2 & W2 & K2 & _).
  rewrite E in E2. injection E2 as -> <-. done.
Qed.

End any_hash.

(** * Concrete maps *)
Module HashMapExample.

(** Keys 1, 5 and 9 collide; 1 has been deleted. *)
Definition ex_map : BsHashMap Z Z :=
  mkHashMap 2 [Occupied 9 90; Deleted; Occupied 5 50; Empty].

Lemma hm_ex_wf : hm_wf (fun k => k) ex_map.
Proof.
  split.
  - exists 2%nat. split; [lia|reflexivity].
  - done.
  - intros [|[|[|[|i]]]] [|[|[|[|j]]]] k v w Hi Hj; cbn in *; simplify_eq; done.
  - intros [|[|[|[|i]]]] k v Hi; cbn in Hi; simplify_eq.
    + exists [1%nat; 2%nat], [3%nat]. split; [by vm_compute|]. intros j Hj. by inv_elem.
    + exists [1%nat], [0%nat; 3%nat]. split; [by vm_compute|]. intros j Hj. by inv_elem.
Qed.

Lemma hash_map_get_refines_witness : hash_map_get (fun k => k) ex_map 9 = Done (Some 90).
Proof. exact (hash_map_get_refines (fun k => k) ex_map 9 hm_ex_wf). Defined.

Lemma hash_map_remove_refines_witness :
  exists m', hash_map_remove (fun k => k) ex_map 5 = Done (true, m') /\ hm_wf (fun k => k) m' /\
    (forall k', Assoc.lookup k' (hm_iter m') = if decide (k' = 5) then None else Assoc.lookup k' (hm_iter ex_map)).
Proof. refine (hash_map_remove_refines (fun k => k) ex_map 5 hm_ex_wf _). vm_compute. discriminate. Defined.

(** The table grows, and each key is hashed with another function. *)
Definition hm_ex_draws (n : nat) (k : Z) : Z := k + 5 * Z.of_nat n.

Lemma hash_map_insert_refines_witness :
  exists m', hash_map_insert hm_ex_draws ex_map 13 130 = Done (false, m') /\ hm_shape m' /\
    hm_iter m' ≡ₚ [(13, 130); (9, 90); (5, 50)].
Proof.
  destruct (hash_map_insert_refines hm_ex_draws ex_map 13 130
    (conj (hw_pow _ _ hm_ex_wf) (hw_len _ _ hm_ex_wf))) as (found & m' & E & W & I & Hf & _).
  - apply (bool_decide_unpack _). vm_compute. exact I.
  - by vm_compute.
  - destruct found; [|by exists m'].
    specialize (Hf eq_refl). apply (bool_decide_eq_true_2 _) in Hf. vm_compute in Hf. discriminate Hf.
Defined.

Lemma probe_sequence_visits_every_slot_witness : path (fun k => k) ex_map 5 ≡ₚ [0; 1; 2; 3]%nat.
Proof.
  apply (probe_sequence_visits_every_slot (fun k => k) ex_map 5). exists 2%nat. split; [lia|reflexivity].
Defined.

(** ** Re-inserting past a deleted entry

    [insert_without_growing] fills the first deleted entry of the probe sequence without looking for
    the key behind it. *)

(** Two colliding keys, the first removed, the second overwritten and then removed. *)
Definition reinsert_scenario : outcome (bool * option Z) :=
  let h := fun _ : Z => 0 in
  '(_, m) ← hash_map_insert (fun _ => h) hash_map_new_initial 1 10;
  '(_, m) ← hash_map_insert (fun _ => h) m 2 20;
  '(_, m) ← hash_map_remove h m 1;
  '(present, m) ← hash_map_insert (fun _ => h) m 2 21;
  '(_, m) ← hash_map_remove h m 2;
  v ← hash_map_get h m 2;
  Done (present, v).

(** the overwrite reports the present key as absent, and the removed key is found again with
    its old value. *)
Theorem removed_key_reappears : reinsert_scenario = Done (false, Some 20).
Proof. vm_compute. reflexivity. Qed.

End HashMapExample.
