(* ===== verification/Float64.v ===== *)
(** IEEE-754 binary64 numbers as the engine uses them.

    Rust's [f64] is modelled by its bit pattern, a [Z] in [0, 2^64).  The exact
    value of a finite pattern is a multiple of 2^-1074, so it is described by
    the integer [f64_scaled b], the value times 2^1074.  [f64_round] rounds such
    an integer to the nearest pattern, ties to even; the operations of the
    standard library that the engine calls ([trunc], [floor], [abs], [+], [%],
    comparisons and the saturating [as] casts) are defined through it. *)

From S2P Require Import Prelude.

Definition f64 : Type := Z.

Definition F64_ONE_SCALED : Z := 2 ^ 1074.
Definition F64_SIGN : Z := 2 ^ 63.
Definition F64_INFINITY : f64 := 2047 * 2 ^ 52.
Definition F64_NEG_INFINITY : f64 := F64_SIGN + F64_INFINITY.
Definition F64_NAN : f64 := 4095 * 2 ^ 51.

Definition f64_ok (b : f64) : Prop := 0 <= b < 2 ^ 64.

(** ** Parts of a pattern *)

Definition f64_sign (b : f64) : bool := F64_SIGN <=? b.
Definition f64_abs (b : f64) : f64 := b mod F64_SIGN.
Definition f64_neg (b : f64) : f64 :=
  if f64_sign b then b - F64_SIGN else b + F64_SIGN.
Definition f64_is_nan (b : f64) : bool := F64_INFINITY <? f64_abs b.
Definition f64_is_infinite (b : f64) : bool := f64_abs b =? F64_INFINITY.
Definition f64_is_finite (b : f64) : bool := f64_abs b <? F64_INFINITY.

(** Magnitude of a pattern without sign, scaled by 2^1074. *)
Definition f64_magnitude (m : Z) : Z :=
  if m <? 2 ^ 52 then m
  else (2 ^ 52 + m mod 2 ^ 52) * 2 ^ (m / 2 ^ 52 - 1).

Definition f64_scaled (b : f64) : Z :=
  if f64_sign b then - f64_magnitude (f64_abs b) else f64_magnitude (f64_abs b).

(** ** Rounding *)

(** [n / 2^s] rounded to the nearest integer, ties to even. *)
Definition round_shift (n s : Z) : Z :=
  let q := n / 2 ^ s in
  let r := n mod 2 ^ s in
  if (2 ^ s <? 2 * r) || ((2 * r =? 2 ^ s) && Z.odd q) then q + 1 else q.

Definition f64_round_magnitude (n : Z) : Z :=
  let s := Z.max 0 (Z.log2 n - 52) in
  Z.min F64_INFINITY (s * 2 ^ 52 + round_shift n s).

(** Nearest pattern to [x * 2^-1074]; [neg] is the sign given to a zero. *)
Definition f64_round (neg : bool) (x : Z) : f64 :=
  (if if x =? 0 then neg else x <? 0 then F64_SIGN else 0)
  + f64_round_magnitude (Z.abs x).

(** ** Operations *)

Definition f64_eq (a b : f64) : bool :=
  negb (f64_is_nan a) && negb (f64_is_nan b) && (f64_scaled a =? f64_scaled b).
Definition f64_lt (a b : f64) : bool :=
  negb (f64_is_nan a) && negb (f64_is_nan b) && (f64_scaled a <? f64_scaled b).
Definition f64_le (a b : f64) : bool :=
  negb (f64_is_nan a) && negb (f64_is_nan b) && (f64_scaled a <=? f64_scaled b).

(** Integer part, towards zero: what the casts to integers start from. *)
Definition f64_integer_part (b : f64) : Z := Z.quot (f64_scaled b) F64_ONE_SCALED.

Definition f64_trunc (b : f64) : f64 :=
  if f64_is_finite b
  then f64_round (f64_sign b) (Z.quot (f64_scaled b) F64_ONE_SCALED * F64_ONE_SCALED)
  else b.

Definition f64_floor (b : f64) : f64 :=
  if f64_is_finite b
  then f64_round (f64_sign b) (f64_scaled b / F64_ONE_SCALED * F64_ONE_SCALED)
  else b.

Definition f64_add (a b : f64) : f64 :=
  if f64_is_nan a || f64_is_nan b then F64_NAN
  else if f64_is_infinite a
       then if f64_is_infinite b && negb (eqb (f64_sign a) (f64_sign b))
            then F64_NAN else a
  else if f64_is_infinite b then b
  else f64_round (f64_sign a && f64_sign b) (f64_scaled a + f64_scaled b).

Definition f64_rem (a b : f64) : f64 :=
  if f64_is_nan a || f64_is_nan b || f64_is_infinite a || (f64_scaled b =? 0)
  then F64_NAN
  else if f64_is_infinite b then a
  else f64_round (f64_sign a) (Z.rem (f64_scaled a) (f64_scaled b)).

(** [f64::min]: the other operand when one is NaN. *)
Definition f64_min (a b : f64) : f64 :=
  if f64_is_nan a then b else if f64_is_nan b then a
  else if f64_le a b then a else b.

(** [n as f64] and [f64::from(n)] for an integer [n]. *)
Definition f64_of_int (n : Z) : f64 := f64_round false (n * F64_ONE_SCALED).

Definition clamp (lo hi n : Z) : Z := Z.max lo (Z.min hi n).

(** [b as iN] and [b as uN]: saturating, NaN gives 0. *)
Definition f64_as_int (lo hi : Z) (b : f64) : Z :=
  if f64_is_nan b then 0 else clamp lo hi (f64_integer_part b).

Definition i32_min : Z := - 2 ^ 31.
Definition i32_max : Z := 2 ^ 31 - 1.
Definition i64_min : Z := - 2 ^ 63.
Definition i64_max : Z := 2 ^ 63 - 1.

(** ** Rounding is exact on representable values *)

Lemma pow52_split m : m = 2 ^ 52 * (m / 2 ^ 52) + m mod 2 ^ 52.
Proof. apply Z.div_mod; lia. Qed.

Lemma round_shift_exact q s : 0 <= s -> round_shift (q * 2 ^ s) s = q.
Proof.
  intros Hs. unfold round_shift.
  assert (0 < 2 ^ s) by (apply Z.pow_pos_nonneg; lia).
  rewrite Z.div_mul, Z.mod_mul by lia. 
  destruct (Z.ltb_spec (2 ^ s) (2 * 0)); [lia|].
  destruct (Z.eqb_spec (2 * 0) (2 ^ s)); [lia|]. done.
Qed.

Lemma log2_scaled q s :
  2 ^ 52 <= q < 2 ^ 53 -> 0 <= s -> Z.log2 (q * 2 ^ s) = 52 + s.
Proof.
  intros Hq Hs. rewrite Z.log2_mul_pow2 by lia.
  rewrite (Z.log2_unique q 52); lia.
Qed.

Lemma round_magnitude_normal q s :
  2 ^ 52 <= q < 2 ^ 53 -> 0 <= s ->
  f64_round_magnitude (q * 2 ^ s) = Z.min F64_INFINITY (s * 2 ^ 52 + q).
Proof.
  intros Hq Hs. unfold f64_round_magnitude.
  rewrite log2_scaled, Z.max_r by lia.
  replace (52 + s - 52) with s by lia. by rewrite round_shift_exact.
Qed.

Lemma round_magnitude_small n :
  0 <= n < 2 ^ 52 -> f64_round_magnitude n = n.
Proof.
  intros Hn. unfold f64_round_magnitude.
  assert (Z.log2 n < 52).
  { destruct (decide (n = 0)) as [->|]; [done|]. apply Z.log2_lt_pow2; lia. }
  rewrite Z.max_l by lia. 
  replace n with (n * 2 ^ 0) at 1 by lia.
  rewrite round_shift_exact by lia. unfold F64_INFINITY. lia.
Qed.

(** Rounding the exact value of a pattern gives the pattern back. *)
Lemma round_magnitude_exact m :
  0 <= m <= F64_INFINITY -> f64_round_magnitude (f64_magnitude m) = m.
Proof.
  intros Hm. unfold f64_magnitude.
  destruct (Z.ltb_spec m (2 ^ 52)); [apply round_magnitude_small; lia|].
  pose proof (pow52_split m). pose proof (Z.mod_pos_bound m (2 ^ 52)).
  rewrite round_magnitude_normal by lia. lia.
Qed.

Lemma magnitude_round_normal q s :
  2 ^ 52 <= q < 2 ^ 53 -> 0 <= s <= 2045 ->
  f64_magnitude (f64_round_magnitude (q * 2 ^ s)) = q * 2 ^ s.
Proof.
  intros Hq Hs. rewrite round_magnitude_normal by lia.
  rewrite Z.min_r by (unfold F64_INFINITY; lia). unfold f64_magnitude.
  rewrite (proj2 (Z.ltb_ge _ _)) by lia.
  replace ((s * 2 ^ 52 + q) / 2 ^ 52) with (s + 1) by div_lia.
  replace ((s * 2 ^ 52 + q) mod 2 ^ 52) with (q - 2 ^ 52) by div_lia.
  f_equal; [lia|]. f_equal; lia.
Qed.

(** A value with at most 53 significant bits is represented exactly. *)
Lemma magnitude_round q s :
  0 <= q < 2 ^ 53 -> 0 <= s <= 2045 ->
  f64_magnitude (f64_round_magnitude (q * 2 ^ s)) = q * 2 ^ s.
Proof.
  intros Hq [Hs Hs']. revert q Hq. revert Hs'.
  pattern s. apply natlike_ind; [| |exact Hs]; clear s Hs.
  - intros _ q Hq. destruct (Z.ltb_spec q (2 ^ 52)).
    + rewrite Z.mul_1_r, round_magnitude_small by lia. unfold f64_magnitude.
      by rewrite (proj2 (Z.ltb_lt _ _)).
    + apply magnitude_round_normal; lia.
  - intros s Hs IH Hs' q Hq. destruct (Z.ltb_spec q (2 ^ 52)).
    + replace (q * 2 ^ Z.succ s) with (2 * q * 2 ^ s) by (rewrite Z.pow_succ_r; lia).
      apply IH; lia.
    + apply magnitude_round_normal; lia.
Qed.

(** ** Laws of the operations *)

Lemma f64_abs_range b : 0 <= f64_abs b < F64_SIGN.
Proof. apply Z.mod_pos_bound. done. Qed.

Lemma f64_split b :
  f64_ok b -> b = (if f64_sign b then F64_SIGN else 0) + f64_abs b.
Proof.
  unfold f64_ok, f64_sign, f64_abs, F64_SIGN. intros H.
  destruct (Z.leb_spec (2 ^ 63) b); div_lia.
Qed.

Lemma f64_magnitude_nonneg m : 0 <= m -> 0 <= f64_magnitude m.
Proof.
  intros Hm. unfold f64_magnitude. destruct (Z.ltb_spec m (2 ^ 52)); [lia|].
  pose proof (Z.mod_pos_bound m (2 ^ 52)).
  apply Z.mul_nonneg_nonneg; [lia|]. apply Z.pow_nonneg. lia.
Qed.

Lemma f64_magnitude_pos m : 0 < m -> 0 < f64_magnitude m.
Proof.
  intros Hm. unfold f64_magnitude. destruct (Z.ltb_spec m (2 ^ 52)); [lia|].
  pose proof (Z.mod_pos_bound m (2 ^ 52)).
  apply Z.mul_pos_pos; [lia|]. apply Z.pow_pos_nonneg; div_lia.
Qed.

(** Rounding the exact value of a non-NaN pattern is the identity. *)
Lemma f64_round_scaled b :
  f64_ok b -> f64_is_nan b = false -> f64_round (f64_sign b) (f64_scaled b) = b.
Proof.
  intros Hok Hnan. pose proof (f64_abs_range b) as Ha.
  apply Z.ltb_ge in Hnan.
  pose proof (f64_magnitude_nonneg (f64_abs b)).
  assert (f64_magnitude (f64_abs b) = 0 -> f64_abs b = 0).
  { intros E. destruct (decide (f64_abs b = 0)); [done|].
    pose proof (f64_magnitude_pos (f64_abs b)). lia. }
  transitivity ((if f64_sign b then F64_SIGN else 0) + f64_abs b);
    [|symmetry; by apply f64_split].
  rewrite <- (round_magnitude_exact (f64_abs b)) at 1 by lia.
  unfold f64_round, f64_scaled. destruct (f64_sign b).
  - rewrite Z.abs_opp, (Z.abs_eq (f64_magnitude _)) by lia. f_equal.
    destruct (Z.eqb_spec (- f64_magnitude (f64_abs b)) 0); [done|].
    by rewrite (proj2 (Z.ltb_lt _ _)) by lia.
  - rewrite (Z.abs_eq (f64_magnitude _)) by lia. f_equal.
    destruct (Z.eqb_spec (f64_magnitude (f64_abs b)) 0); [done|].
    by rewrite (proj2 (Z.ltb_ge _ _)) by lia.
Qed.

(** Patterns produced by rounding. *)
Lemma f64_round_magnitude_range n :
  0 <= n -> 0 <= f64_round_magnitude n <= F64_INFINITY.
Proof.
  intros Hn. unfold f64_round_magnitude.
  set (s := Z.max 0 _). assert (0 <= s) by lia.
  assert (0 <= round_shift n s).
  { unfold round_shift. assert (0 < 2 ^ s) by (apply Z.pow_pos_nonneg; lia).
    pose proof (Z.div_pos n (2 ^ s)). case_match; lia. }
  unfold F64_INFINITY. lia.
Qed.

Lemma f64_round_ok neg x : f64_ok (f64_round neg x).
Proof.
  unfold f64_ok, f64_round.
  pose proof (f64_round_magnitude_range (Z.abs x)).
  unfold F64_SIGN, F64_INFINITY in *. repeat case_match; lia.
Qed.

Lemma f64_abs_round neg x : f64_abs (f64_round neg x) = f64_round_magnitude (Z.abs x).
Proof.
  unfold f64_abs, f64_round.
  pose proof (f64_round_magnitude_range (Z.abs x)).
  unfold F64_SIGN, F64_INFINITY in *. repeat case_match; div_lia.
Qed.

Lemma f64_round_not_nan neg x : f64_is_nan (f64_round neg x) = false.
Proof.
  unfold f64_is_nan. rewrite f64_abs_round. apply Z.ltb_ge.
  apply f64_round_magnitude_range. lia.
Qed.

Lemma f64_sign_round neg x :
  f64_sign (f64_round neg x) = if x =? 0 then neg else x <? 0.
Proof.
  unfold f64_sign, f64_round.
  pose proof (f64_round_magnitude_range (Z.abs x)).
  unfold F64_SIGN, F64_INFINITY in *.
  destruct (if x =? 0 then neg else x <? 0); lia.
Qed.

(** Integers of at most 53 significant bits survive rounding. *)
Definition f64_representable (x : Z) : Prop :=
  exists q s, Z.abs x = q * 2 ^ s /\ 0 <= q < 2 ^ 53 /\ 0 <= s <= 2045.

Lemma f64_scaled_round neg x :
  f64_representable x -> f64_scaled (f64_round neg x) = x.
Proof.
  intros (q & s & Hx & Hq & Hs). unfold f64_scaled.
  rewrite f64_sign_round, f64_abs_round, Hx, magnitude_round, <- Hx by done.
  destruct (Z.eqb_spec x 0) as [->|]; [by destruct neg|].
  destruct (Z.ltb_spec x 0); lia.
Qed.

Lemma f64_of_int_representable n :
  Z.abs n < 2 ^ 53 -> f64_representable (n * F64_ONE_SCALED).
Proof.
  intros Hn. exists (Z.abs n), 1074. unfold F64_ONE_SCALED.
  rewrite Z.abs_mul. split; [|lia]. f_equal.
Qed.

Lemma f64_scaled_of_int n :
  Z.abs n < 2 ^ 53 -> f64_scaled (f64_of_int n) = n * F64_ONE_SCALED.
Proof. intros. by apply f64_scaled_round, f64_of_int_representable. Qed.

Lemma f64_scaled_abs_range b :
  Z.abs (f64_scaled b) = f64_magnitude (f64_abs b).
Proof.
  pose proof (f64_abs_range b).
  pose proof (f64_magnitude_nonneg (f64_abs b)).
  unfold f64_scaled. destruct (f64_sign b); lia.
Qed.

Lemma f64_scaled_abs b : f64_scaled (f64_abs b) = Z.abs (f64_scaled b).
Proof.
  rewrite f64_scaled_abs_range. pose proof (f64_abs_range b).
  unfold f64_scaled, f64_sign. rewrite (proj2 (Z.leb_gt _ _)) by lia.
  unfold f64_abs. by rewrite Zmod_mod.
Qed.

Lemma f64_is_finite_not_nan b : f64_is_finite b = true -> f64_is_nan b = false.
Proof. unfold f64_is_finite, f64_is_nan. lia. Qed.

Lemma f64_scaled_representable b :
  f64_is_finite b = true -> f64_representable (f64_scaled b).
Proof.
  intros Hf%Z.ltb_lt. pose proof (f64_abs_range b) as Hr.
  unfold f64_representable. rewrite f64_scaled_abs_range.
  unfold f64_magnitude. destruct (Z.ltb_spec (f64_abs b) (2 ^ 52)).
  - exists (f64_abs b), 0. rewrite Z.mul_1_r. split; [done|]. lia.
  - exists (2 ^ 52 + f64_abs b mod 2 ^ 52), (f64_abs b / 2 ^ 52 - 1).
    unfold F64_INFINITY in Hf. split; [done|]. div_lia.
Qed.

(** A representable value is an integer or has an integer part below 2^52. *)
Lemma representable_cases x :
  f64_representable x ->
  (F64_ONE_SCALED | x) \/ Z.abs x < 2 ^ 52 * F64_ONE_SCALED.
Proof.
  intros (q & s & Hx & Hq & Hs). unfold F64_ONE_SCALED.
  destruct (decide (1074 <= s)) as [Hge|Hlt].
  - left. apply Z.divide_abs_r. rewrite Hx. apply Z.divide_mul_r.
    exists (2 ^ (s - 1074)). rewrite <- Z.pow_add_r by lia. f_equal; lia.
  - right. rewrite Hx.
    assert (2 ^ s <= 2 ^ 1073) by (apply Z.pow_le_mono_r; lia).
    assert (2 ^ 1074 = 2 * 2 ^ 1073) as -> by done.
    set (h := 2 ^ 1073) in *. nia.
Qed.

Lemma F64_ONE_pos : 0 < F64_ONE_SCALED.
Proof. done. Qed.

Lemma trunc_representable x :
  f64_representable x -> f64_representable (Z.quot x F64_ONE_SCALED * F64_ONE_SCALED).
Proof.
  intros Hx. pose proof F64_ONE_pos.
  destruct (representable_cases x Hx) as [[k ->]|Hlt].
  - by rewrite Z.quot_mul by lia.
  - apply f64_of_int_representable. 
    rewrite <- Z.quot_abs, (Z.abs_eq F64_ONE_SCALED), Z.quot_div_nonneg by lia.
    apply Z.div_lt_upper_bound; lia.
Qed.

Lemma floor_representable x :
  f64_representable x -> f64_representable (x / F64_ONE_SCALED * F64_ONE_SCALED).
Proof.
  intros Hx. pose proof F64_ONE_pos.
  destruct (representable_cases x Hx) as [[k ->]|Hlt].
  - by rewrite Z.div_mul by lia.
  - apply f64_of_int_representable.
    assert (- 2 ^ 52 <= x / F64_ONE_SCALED) by (apply Z.div_le_lower_bound; lia).
    assert (x / F64_ONE_SCALED < 2 ^ 52) by (apply Z.div_lt_upper_bound; lia). lia.
Qed.

Lemma f64_scaled_trunc b :
  f64_is_finite b = true ->
  f64_scaled (f64_trunc b) = f64_integer_part b * F64_ONE_SCALED.
Proof.
  intros Hf. unfold f64_trunc. rewrite Hf.
  by apply f64_scaled_round, trunc_representable, f64_scaled_representable.
Qed.

Lemma f64_scaled_floor b :
  f64_is_finite b = true ->
  f64_scaled (f64_floor b) = f64_scaled b / F64_ONE_SCALED * F64_ONE_SCALED.
Proof.
  intros Hf. unfold f64_floor. rewrite Hf.
  by apply f64_scaled_round, floor_representable, f64_scaled_representable.
Qed.

(** [b.trunc() == b] decides whether a finite number is an integer. *)
Lemma f64_trunc_eq b :
  f64_is_finite b = true ->
  f64_eq (f64_trunc b) b = (f64_scaled b =? f64_integer_part b * F64_ONE_SCALED).
Proof.
  intros Hf. unfold f64_eq. rewrite f64_scaled_trunc by done.
  rewrite (f64_is_finite_not_nan b Hf). unfold f64_trunc. rewrite Hf.
  rewrite f64_round_not_nan. cbn. lia.
Qed.

(** The value of a pattern determines it, up to the sign of zero. *)
Lemma f64_scaled_inj a b :
  f64_ok a -> f64_ok b -> f64_is_nan a = false -> f64_is_nan b = false ->
  f64_sign a = f64_sign b -> f64_scaled a = f64_scaled b -> a = b.
Proof.
  intros. rewrite <- (f64_round_scaled a), <- (f64_round_scaled b) by done. congruence.
Qed.

(** The exact values of finite patterns lie strictly between the infinities. *)
Lemma f64_is_finite_bound f : f64_is_finite f = true -> Z.abs (f64_scaled f) < 2 ^ 2098.
Proof.
  intros Hf. pose proof (f64_scaled_representable f Hf) as (q & s & -> & Hq & Hs).
  assert (2 ^ s <= 2 ^ 2045) by (apply Z.pow_le_mono_r; lia).
  assert (0 < 2 ^ s) by (apply Z.pow_pos_nonneg; lia).
  assert (2 ^ 2098 = 2 ^ 53 * 2 ^ 2045) as -> by done.
  set (h := 2 ^ 2045) in *. set (p := 2 ^ s) in *. clearbody h p.
  assert (q * p <= q * h) by (apply Z.mul_le_mono_nonneg_l; lia).
  assert (q * h < 2 ^ 53 * h) by (apply Z.mul_lt_mono_pos_r; lia). lia.
Qed.

(** Multiplication and division of binary64 numbers, by rounding an exact ratio,
    and the accuracy of that rounding. *)

(** The number nearest to [num / den], ties to even: the quotient with two more
    bits than the smallest number has, odd if it is not exact, is rounded. *)
Definition ratio_bits (num den : Z) : Z :=
  let n := num * 2 ^ 1076 in
  Z.lor (n / den) (if n mod den =? 0 then 0 else 1).

Definition f64_of_ratio (num den : Z) : f64 :=
  let m := ratio_bits num den in
  let s := Z.max 2 (Z.log2 m - 52) in
  f64_round false (round_shift m s * 2 ^ (s - 2)).

Definition f64_with_sign (neg : bool) (b : f64) : f64 := if neg then f64_neg b else b.

Definition f64_sub (a b : f64) : f64 := f64_add a (f64_neg b).

Definition f64_mul (a b : f64) : f64 :=
  let neg := xorb (f64_sign a) (f64_sign b) in
  if f64_is_nan a || f64_is_nan b then F64_NAN
  else if f64_is_infinite a || f64_is_infinite b
       then if (f64_scaled a =? 0) || (f64_scaled b =? 0) then F64_NAN
            else f64_with_sign neg F64_INFINITY
  else f64_with_sign neg
         (f64_of_ratio (Z.abs (f64_scaled a) * Z.abs (f64_scaled b)) (F64_ONE_SCALED * F64_ONE_SCALED)).

Definition f64_div (a b : f64) : f64 :=
  let neg := xorb (f64_sign a) (f64_sign b) in
  if f64_is_nan a || f64_is_nan b then F64_NAN
  else if f64_is_infinite a
       then if f64_is_infinite b then F64_NAN else f64_with_sign neg F64_INFINITY
  else if f64_is_infinite b then f64_with_sign neg 0
  else if f64_scaled b =? 0
       then if f64_scaled a =? 0 then F64_NAN else f64_with_sign neg F64_INFINITY
  else f64_with_sign neg (f64_of_ratio (Z.abs (f64_scaled a)) (Z.abs (f64_scaled b))).

(** ** Accuracy *)

Lemma lor_one q : 0 <= q -> q <= Z.lor q 1 <= q + 1.
Proof.
  intros Hq. destruct (Z.Even_or_Odd q) as [[k ->]|[k ->]].
  - assert (Z.lor (2 * k) 1 = 2 * k + 1) as ->; [|lia].
    pose proof (lor_shiftl_add k 1 1 ltac:(lia) ltac:(lia)) as H.
    rewrite Z.shiftl_mul_pow2 in H by lia. change (2 ^ 1) with 2 in H.
    rewrite <- (Z.mul_comm k 2). exact H.
  - assert (Z.lor (2 * k + 1) 1 = 2 * k + 1) as ->; [|lia].
    pose proof (lor_shiftl_add k 1 1 ltac:(lia) ltac:(lia)) as H.
    rewrite Z.shiftl_mul_pow2 in H by lia. change (2 ^ 1) with 2 in H.
    rewrite (Z.mul_comm 2 k), <- H, <- Z.lor_assoc. done.
Qed.

(** The bits are within one unit of the exact quotient. *)
Lemma ratio_bits_near num den : 0 <= num -> 0 < den ->
  0 <= ratio_bits num den /\
  num * 2 ^ 1076 - den < ratio_bits num den * den < num * 2 ^ 1076 + den.
Proof.
  intros Hn Hd. unfold ratio_bits. cbn zeta. assert (0 < 2 ^ 1076) by done.
  assert (0 <= num * 2 ^ 1076) by nia. set (n := num * 2 ^ 1076) in *. clearbody n.
  pose proof (Z.div_mod n den). pose proof (Z.mod_pos_bound n den).
  pose proof (Z.div_pos n den). pose proof (lor_one (n / den)).
  destruct (Z.eqb_spec (n mod den) 0); [rewrite Z.lor_0_r|]; nia.
Qed.

Lemma round_shift_near m s : 0 <= s -> 2 * Z.abs (round_shift m s * 2 ^ s - m) <= 2 ^ s.
Proof.
  intros Hs. unfold round_shift. cbn zeta. assert (0 < 2 ^ s) by (apply Z.pow_pos_nonneg; lia).
  pose proof (Z.div_mod m (2 ^ s)). pose proof (Z.mod_pos_bound m (2 ^ s)).
  set (q := m / 2 ^ s) in *. set (r := m mod 2 ^ s) in *. set (p := 2 ^ s) in *.
  destruct (Z.ltb_spec p (2 * r)); cbn [orb]; [nia|].
  destruct (Z.eqb_spec (2 * r) p); cbn [andb]; [case_match; nia|nia].
Qed.

Lemma round_shift_range m s : 0 <= s -> 2 ^ 52 * 2 ^ s <= m < 2 ^ 53 * 2 ^ s ->
  2 ^ 52 <= round_shift m s <= 2 ^ 53.
Proof.
  intros Hs Hm. pose proof (round_shift_near m s Hs). set (r := round_shift m s) in *.
  assert (0 < 2 ^ s) by (apply Z.pow_pos_nonneg; lia). set (p := 2 ^ s) in *. clearbody p r. nia.
Qed.

(** Values of 53 bits, or the power of two above them, are representable. *)
Lemma shifted_representable r s : 0 <= r <= 2 ^ 53 -> 0 <= s <= 2044 -> f64_representable (r * 2 ^ s).
Proof.
  intros Hr Hs. unfold f64_representable.
  rewrite Z.abs_eq by (apply Z.mul_nonneg_nonneg; [lia|apply Z.pow_nonneg; lia]).
  destruct (decide (r = 2 ^ 53)) as [->|]; [|exists r, s; split_and!; lia].
  exists (2 ^ 52), (s + 1). split_and!; [|lia..].
  rewrite Z.pow_add_r by lia. lia.
Qed.

Lemma log2_bits_range m : 0 < m -> 52 <= Z.log2 m ->
  2 ^ 52 * 2 ^ (Z.log2 m - 52) <= m < 2 ^ 53 * 2 ^ (Z.log2 m - 52).
Proof.
  intros Hm Hl. rewrite <- !Z.pow_add_r by lia. pose proof (Z.log2_spec m Hm) as Hs.
  replace (52 + (Z.log2 m - 52)) with (Z.log2 m) by lia.
  replace (53 + (Z.log2 m - 52)) with (Z.succ (Z.log2 m)) by lia. done.
Qed.

(** In the normal range the rounded ratio is within 2^-53 of the bits. *)
Lemma ratio_accuracy num den : 0 <= num -> 0 < den ->
  let m := ratio_bits num den in
  let x := f64_scaled (f64_of_ratio num den) in
  2 ^ 54 <= m < 2 ^ 2098 ->
  0 < x < 2 ^ 2098 /\ 2 ^ 53 * Z.abs (4 * x - m) <= m.
Proof.
  cbn zeta. intros Hn Hd Hm. unfold f64_of_ratio. cbn zeta. set (m := ratio_bits num den) in *.
  assert (54 <= Z.log2 m) by (apply Z.log2_le_pow2; lia).
  assert (Z.log2 m < 2098) by (apply Z.log2_lt_pow2; lia).
  rewrite Z.max_r by lia. pose proof (log2_bits_range m ltac:(lia) ltac:(lia)) as Hr.
  set (s := Z.log2 m - 52) in *. assert (2 <= s <= 2045) by lia. clearbody s m.
  pose proof (round_shift_near m s ltac:(lia)). pose proof (round_shift_range m s ltac:(lia) Hr).
  rewrite f64_scaled_round by (apply shifted_representable; lia).
  assert (E : 2 ^ s = 4 * 2 ^ (s - 2)) by (replace s with (2 + (s - 2)) at 1 by lia; by rewrite Z.pow_add_r by lia).
  rewrite E in *. assert (0 < 2 ^ (s - 2)) by (apply Z.pow_pos_nonneg; lia).
  assert (2 ^ (s - 2) <= 2 ^ 2043) by (apply Z.pow_le_mono_r; lia).
  assert (2 ^ 2098 = 2 ^ 55 * 2 ^ 2043) as -> by done.
  set (p := 2 ^ (s - 2)) in *. set (h := 2 ^ 2043) in *. set (r := round_shift m s) in *.
  clearbody p h r. nia.
Qed.

(** ** Ratios of integers *)

Lemma ratio_scale k num den : 0 < k -> 0 < den ->
  f64_of_ratio (num * k) (den * k) = f64_of_ratio num den.
Proof.
  intros Hk Hd. unfold f64_of_ratio.
  assert (ratio_bits (num * k) (den * k) = ratio_bits num den) as ->; [|done].
  unfold ratio_bits. cbn zeta. set (S := 2 ^ 1076).
  replace (num * k * S) with (num * S * k) by lia.
  rewrite Z.div_mul_cancel_r, Z.mul_mod_distr_r by lia. clearbody S.
  assert (((num * S) mod den * k =? 0) = ((num * S) mod den =? 0)) as ->; [|done].
  set (r := (num * S) mod den). clearbody r. nia.
Qed.

Lemma ratio_exact q den : 0 <= q < 2 ^ 53 -> 0 < den -> f64_of_ratio (q * den) den = f64_of_int q.
Proof.
  intros Hq Hd. rewrite <- (Z.mul_1_l den) at 2. rewrite ratio_scale by lia.
  unfold f64_of_ratio, ratio_bits. cbn zeta. rewrite Z.div_1_r, Z.mod_1_r, Z.eqb_refl, Z.lor_0_r.
  unfold f64_of_int. f_equal. destruct (decide (q = 0)) as [->|]; [done|].
  rewrite Z.log2_mul_pow2 by lia. assert (0 <= Z.log2 q < 53).
  { split; [apply Z.log2_nonneg|apply Z.log2_lt_pow2; lia]. }
  rewrite Z.max_r by lia. set (l := Z.log2 q) in *. clearbody l.
  replace (q * 2 ^ 1076) with (q * 2 ^ (52 - l) * 2 ^ (1076 + l - 52)).
  2: { rewrite <- Z.mul_assoc, <- Z.pow_add_r by lia. do 2 f_equal. lia. }
  rewrite round_shift_exact by lia. unfold F64_ONE_SCALED.
  rewrite <- Z.mul_assoc, <- Z.pow_add_r by lia. do 2 f_equal. lia.
Qed.

(** The arithmetic of the next lemma: [m] approximates [a * (4 * O) / b] and [4 * x]
    approximates [m]. *)
Lemma between_integers a b q r m x O :
  a = b * q + r -> 0 < r < b -> 0 < a < 2 ^ 53 -> b < 2 ^ 53 -> 2 ^ 108 < O ->
  a * (4 * O) - b < m * b < a * (4 * O) + b -> 2 ^ 53 * Z.abs (4 * x - m) <= m ->
  q * O < x < (q + 1) * O.
Proof.
  intros Hdiv Hr Ha Hb HO Hm Hacc.
  assert (Hnear : 2 ^ 53 * Z.abs (4 * x * b - m * b) <= m * b).
  { replace (4 * x * b - m * b) with ((4 * x - m) * b) by lia. rewrite Z.abs_mul, (Z.abs_eq b) by lia.
    rewrite Z.mul_assoc. apply Z.mul_le_mono_nonneg_r; lia. }
  assert (a * (4 * O) <= (2 ^ 53 - 1) * (4 * O)) by (apply Z.mul_le_mono_nonneg_r; lia).
  assert ((a + 1) * (4 * O) <= (b * (q + 1)) * (4 * O)) by (apply Z.mul_le_mono_nonneg_r; lia).
  assert ((b * q) * (4 * O) <= (a - 1) * (4 * O)) by (apply Z.mul_le_mono_nonneg_r; lia).
  split; apply (Z.mul_lt_mono_pos_r (4 * b)); lia.
Qed.

(** A quotient of integers below 2^53 stays strictly between the integers around it. *)
Lemma ratio_between a b : 0 < a < 2 ^ 53 -> 0 < b < 2 ^ 53 -> a mod b <> 0 ->
  let x := f64_scaled (f64_of_ratio a b) in
  a / b * F64_ONE_SCALED < x < (a / b + 1) * F64_ONE_SCALED /\ x < 2 ^ 2098.
Proof.
  cbn zeta. intros Ha Hb Hab. pose proof (ratio_bits_near a b ltac:(lia) ltac:(lia)) as [Hm0 Hm].
  pose proof (ratio_accuracy a b ltac:(lia) ltac:(lia)) as Hx. cbn zeta in Hx.
  set (m := ratio_bits a b) in *. set (x := f64_scaled (f64_of_ratio a b)) in *. clearbody m x.
  assert (HS : 2 ^ 1076 = 4 * F64_ONE_SCALED) by done. rewrite HS in Hm. clear HS.
  assert (Hone : 2 ^ 108 < F64_ONE_SCALED) by done.
  assert (Hbig : 2 ^ 200 * F64_ONE_SCALED < 2 ^ 2098) by done.
  set (O := F64_ONE_SCALED) in *. set (B := 2 ^ 2098) in *. clearbody O B.
  assert (a * (4 * O) <= 2 ^ 53 * (4 * O)) by (apply Z.mul_le_mono_nonneg_r; lia).
  assert (1 * (4 * O) <= a * (4 * O)) by (apply Z.mul_le_mono_nonneg_r; lia).
  assert (m <= m * b) by (rewrite <- (Z.mul_1_r m) at 1; apply Z.mul_le_mono_nonneg_l; lia).
  assert (m * b <= m * 2 ^ 53) by (apply Z.mul_le_mono_nonneg_l; lia).
  destruct Hx as [Hx Hacc]; [lia|]. split; [|lia].
  pose proof (Z.div_mod a b). pose proof (Z.mod_pos_bound a b).
  apply (between_integers a b (a / b) (a mod b) m x O); lia.
Qed.
