(* ===== verification/Value.v ===== *)
(** NaN-boxed JavaScript values: [src/so2js/runtime/value.rs].

    A [Value] is one 64-bit word.  Pointers are stored directly (top 16 bits
    zero), doubles as the bitwise negation of their pattern, and every other
    value under a 16-bit tag above a 48-bit payload.  The constructors, type
    tests and casts below are the methods of [Value]; numbers are [f64] bit
    patterns (file Float64). *)

From S2P Require Import Prelude Float64.

(** ** Words *)

(** Rust's [!] on [u64] and [u16]. *)
Definition not64 (x : Z) : Z := Z.ldiff (Z.ones 64) x.
Definition not16 (x : Z) : Z := Z.ldiff (Z.ones 16) x.

(** [x as u16], [x as u32], [x as u64] of a wider unsigned word or of a signed one. *)
Definition as_u16 (x : Z) : Z := x mod 2 ^ 16.
Definition as_u32 (x : Z) : Z := x mod 2 ^ 32.
Definition as_u64 (x : Z) : Z := x mod 2 ^ 64.

(** [cast_signed] and [as iN] on a [w]-bit word. *)
Definition cast_signed (w x : Z) : Z :=
  if x mod 2 ^ w <? 2 ^ (w - 1) then x mod 2 ^ w else x mod 2 ^ w - 2 ^ w.

(** ** Representation *)

Record Value : Type := from_raw_bits { as_raw_bits : Z }.

Definition TAG_SHIFT : Z := 48.
Definition NAN_TAG : Z := 0x7FF8.
Definition POINTER_TAG : Z := 0.
Definition UNDEFINED_TAG : Z := not16 (Z.lor 1 NAN_TAG).
Definition NULL_TAG : Z := not16 (Z.lor 3 NAN_TAG).
Definition EMPTY_TAG : Z := not16 (Z.lor 2 NAN_TAG).
Definition BOOL_TAG : Z := not16 (Z.lor 4 NAN_TAG).
Definition SMI_TAG : Z := not16 (Z.lor 6 NAN_TAG).
Definition NULLISH_TAG_MASK : Z := 0xFFFD.
Definition CANONICAL_NAN : Z := not64 (Z.shiftl NAN_TAG TAG_SHIFT).

Definition SMI_MAX : f64 := f64_of_int i32_max.
Definition SMI_MIN : f64 := f64_of_int i32_min.

(** ** Constructors *)

Definition undefined : Value := from_raw_bits (Z.shiftl UNDEFINED_TAG TAG_SHIFT).
Definition null : Value := from_raw_bits (Z.shiftl NULL_TAG TAG_SHIFT).
Definition empty_value : Value := from_raw_bits (Z.shiftl EMPTY_TAG TAG_SHIFT).
Definition bool_value (value : bool) : Value :=
  from_raw_bits (Z.lor (Z.shiftl BOOL_TAG TAG_SHIFT) (Z.b2z value)).
Definition smi (value : Z) : Value :=
  let smi_value_bits := as_u32 value in
  from_raw_bits (Z.lor (Z.shiftl SMI_TAG TAG_SHIFT) smi_value_bits).
Definition double (value : f64) : Value := from_raw_bits (not64 value).
Definition heap_item (ptr : Z) : Value := from_raw_bits ptr.
Definition nan : Value := from_raw_bits CANONICAL_NAN.

Definition DOUBLE_POSITIVE_ZERO : Z := as_raw_bits (double 0).
Definition DOUBLE_NEGATIVE_ZERO : Z := as_raw_bits (double F64_SIGN).
Definition POSITIVE_INFINITY : Z := as_raw_bits (double F64_INFINITY).
Definition TRUE : Z := as_raw_bits (bool_value true).
Definition FALSE : Z := as_raw_bits (bool_value false).
Definition SMI_ZERO : Z := as_raw_bits (smi 0).

(** [Value::number]: a small integer when the number is one, a double otherwise. *)
Definition number (value : f64) : Value :=
  if f64_eq (f64_trunc value) value
     && (f64_le SMI_MIN value && f64_le value SMI_MAX)
     && negb (value =? F64_SIGN)
  then smi (f64_as_int i32_min i32_max value)
  else if f64_is_nan value then nan
  else double value.

(** ** Type tests *)

Definition get_tag (v : Value) : Z := as_u16 (Z.shiftr (as_raw_bits v) TAG_SHIFT).
Definition has_tag (v : Value) (tag : Z) : bool := get_tag v =? tag.
Definition is_pointer (v : Value) : bool := has_tag v POINTER_TAG.
Definition is_nan (v : Value) : bool := as_raw_bits v =? CANONICAL_NAN.
Definition is_double (v : Value) : bool :=
  negb (Z.land (not64 (as_raw_bits v)) (not64 CANONICAL_NAN) =? not64 CANONICAL_NAN)
  || is_nan v.
Definition is_smi (v : Value) : bool := has_tag v SMI_TAG.
Definition is_number (v : Value) : bool := is_smi v || is_double v.
Definition is_infinity (v : Value) : bool :=
  Z.lor (as_raw_bits v) (Z.shiftl 1 63) =? POSITIVE_INFINITY.
Definition is_positive_zero (v : Value) : bool :=
  (as_raw_bits v =? DOUBLE_POSITIVE_ZERO) || (is_smi v && (as_raw_bits v =? SMI_ZERO)).
Definition is_negative_zero (v : Value) : bool := as_raw_bits v =? DOUBLE_NEGATIVE_ZERO.
Definition is_zero (v : Value) : bool :=
  Z.lor (as_raw_bits v) (Z.shiftl 1 63) =? DOUBLE_POSITIVE_ZERO.
Definition is_true (v : Value) : bool := as_raw_bits v =? TRUE.
Definition is_false (v : Value) : bool := as_raw_bits v =? FALSE.
Definition is_undefined (v : Value) : bool := has_tag v UNDEFINED_TAG.
Definition is_null (v : Value) : bool := has_tag v NULL_TAG.
Definition is_nullish (v : Value) : bool :=
  Z.land (get_tag v) NULLISH_TAG_MASK =? NULL_TAG.
Definition is_bool (v : Value) : bool := has_tag v BOOL_TAG.
Definition is_empty (v : Value) : bool := has_tag v EMPTY_TAG.

(** ** Casts *)

Definition as_double (v : Value) : f64 := not64 (as_raw_bits v).
Definition as_bool (v : Value) : bool := negb (Z.land (as_raw_bits v) 1 =? 0).
Definition as_smi (v : Value) : Z := cast_signed 32 (as_u32 (as_raw_bits v)).
Definition as_pointer (v : Value) : Z := as_raw_bits v.
Definition as_number (v : Value) : f64 :=
  if is_smi v then f64_of_int (as_smi v) else as_double v.

(** ** Conversions from machine integers *)

Definition from_u8 (value : Z) : Value := smi value.
Definition from_i8 (value : Z) : Value := smi value.
Definition from_u16 (value : Z) : Value := smi value.
Definition from_i16 (value : Z) : Value := smi value.
Definition from_i32 (value : Z) : Value := smi value.
Definition from_u32 (value : Z) : Value :=
  if i32_max <? value then double (f64_of_int value) else smi value.
Definition from_u64 (value : Z) : Value :=
  if i32_max <? value then double (f64_of_int value) else smi value.
Definition from_i64 (value : Z) : Value :=
  if (i32_max <? value) || (value <? i32_min) then double (f64_of_int value) else smi value.
Definition from_f64 (value : f64) : Value := number value.

(** ** Formatting: the cascade of tests by which [debug_format] tells values apart *)

Inductive ValueView : Type :=
| VBool (b : bool)
| VSmi (n : Z)
| VDouble (d : f64)
| VUndefined
| VNull
| VEmpty
| VPointer (p : Z).

Definition debug_format_view (v : Value) : ValueView :=
  if is_bool v then VBool (as_bool v)
  else if is_smi v then VSmi (as_smi v)
  else if is_double v then VDouble (as_double v)
  else if is_undefined v then VUndefined
  else if is_null v then VNull
  else if is_empty v then VEmpty
  else VPointer (as_pointer v).
