(* ===== verification/ValueCorrect.v ===== *)
(** Correctness of the NaN-boxing scheme of [Value].

    Every kind of value has its own bit patterns, the type tests recognise
    exactly the values of their kind, the casts invert the constructors, and
    [Value::number] loses nothing but the payload of a NaN. *)

From S2P Require Import Prelude Float64 Value.

(** ** Words *)

Lemma ones_sub_ldiff n x : 0 <= n -> 0 <= x < 2 ^ n -> Z.ldiff (Z.ones n) x = 2 ^ n - 1 - x.
Proof.
  intros Hn Hx. rewrite <- Z.sub_nocarry_ldiff; [rewrite Z.ones_equiv; lia|].
  destruct (decide (x = 0)) as [->|Hne]; [apply Z.ldiff_0_l|].
  apply Z.ldiff_ones_r_low; [lia|]. apply Z.log2_lt_pow2; lia.
Qed.

Lemma not64_spec x : 0 <= x < 2 ^ 64 -> not64 x = 2 ^ 64 - 1 - x.
Proof. by apply ones_sub_ldiff. Qed.

Lemma not64_involutive x : 0 <= x < 2 ^ 64 -> not64 (not64 x) = x.
Proof. intros. rewrite !not64_spec; rewrite ?not64_spec; lia. Qed.

Lemma lor_bit63 x : 0 <= x < 2 ^ 64 -> Z.lor x (Z.shiftl 1 63) = 2 ^ 63 + x mod 2 ^ 63.
Proof.
  intros Hx. rewrite Z.lor_comm.
  destruct (Z.ltb_spec x (2 ^ 63)).
  - rewrite lor_shiftl_add by lia. rewrite Z.mod_small by lia. lia.
  - replace x with (Z.lor (Z.shiftl 1 63) (x mod 2 ^ 63)) at 1.
    + rewrite Z.lor_assoc, Z.lor_diag.
      rewrite lor_shiftl_add; [lia|lia|]. apply Z.mod_pos_bound. lia.
    + rewrite lor_shiftl_add; [|lia|apply Z.mod_pos_bound; lia]. div_lia.
Qed.

Lemma get_tag_div v : 0 <= as_raw_bits v < 2 ^ 64 -> get_tag v = as_raw_bits v / 2 ^ 48.
Proof.
  intros H. unfold get_tag, as_u16, TAG_SHIFT.
  rewrite Z.shiftr_div_pow2 by lia. apply Z.mod_small. div_lia.
Qed.

Lemma land_high12 x :
  0 <= x < 2 ^ 64 ->
  Z.land x (Z.shiftl (Z.ones 12) 51) = x / 2 ^ 51 mod 2 ^ 12 * 2 ^ 51.
Proof.
  intros Hx. rewrite <- Z.land_ones, <- Z.shiftr_div_pow2, <- Z.shiftl_mul_pow2 by lia.
  apply Z.bits_inj'. intros i Hi.
  rewrite Z.land_spec, !Z.shiftl_spec, Z.land_spec by done.
  destruct (Z.ltb_spec i 51).
  - rewrite !(Z.testbit_neg_r _ (i - 51)) by lia. by rewrite !andb_false_r.
  - rewrite Z.shiftr_spec by lia. by replace (i - 51 + 51) with i by lia.
Qed.

(** ** Raw words of the constructors *)

Lemma bool_raw b : as_raw_bits (bool_value b) = 0x8003 * 2 ^ 48 + Z.b2z b.
Proof. by destruct b. Qed.

Lemma smi_raw n : as_raw_bits (smi n) = 0x8001 * 2 ^ 48 + n mod 2 ^ 32.
Proof.
  unfold smi, as_raw_bits, TAG_SHIFT, as_u32. rewrite lor_shiftl_add; [done|lia|].
  pose proof (Z.mod_pos_bound n (2 ^ 32)). lia.
Qed.

Lemma double_raw d : f64_ok d -> as_raw_bits (double d) = 2 ^ 64 - 1 - d.
Proof. apply not64_spec. Qed.

(** ** Views: the abstract value a word stands for *)

Definition encode_view (w : ValueView) : Value :=
  match w with
  | VBool b => bool_value b
  | VSmi n => smi n
  | VDouble d => double d
  | VUndefined => undefined
  | VNull => null
  | VEmpty => empty_value
  | VPointer p => heap_item p
  end.

(** The only NaN among the doubles is the canonical one; pointers have zero
    top bits and are not null. *)
Definition canonical_double (d : f64) : Prop :=
  f64_ok d /\ (f64_is_nan d = true -> d = F64_NAN).

Definition view_ok (w : ValueView) : Prop :=
  match w with
  | VSmi n => i32_min <= n <= i32_max
  | VDouble d => canonical_double d
  | VPointer p => 0 < p < 2 ^ 48
  | _ => True
  end.

Definition view_raw (w : ValueView) : Z :=
  match w with
  | VBool b => 0x8003 * 2 ^ 48 + Z.b2z b
  | VSmi n => 0x8001 * 2 ^ 48 + n mod 2 ^ 32
  | VDouble d => 2 ^ 64 - 1 - d
  | VUndefined => 0x8006 * 2 ^ 48
  | VNull => 0x8004 * 2 ^ 48
  | VEmpty => 0x8005 * 2 ^ 48
  | VPointer p => p
  end.

Lemma encode_view_raw w : view_ok w -> as_raw_bits (encode_view w) = view_raw w.
Proof.
  destruct w; cbn; intros Hok; try done.
  - apply bool_raw.
  - apply smi_raw.
  - by apply double_raw; destruct Hok.
Qed.

Lemma canonical_double_cases d :
  canonical_double d -> f64_ok d /\ (f64_abs d <= F64_INFINITY \/ d = F64_NAN).
Proof.
  intros [Hok Hn]. split; [done|]. unfold f64_is_nan in Hn.
  destruct (Z.ltb_spec F64_INFINITY (f64_abs d)); [right; auto|by left].
Qed.

Ltac view_arith :=
  unfold f64_ok, f64_abs, F64_SIGN, F64_INFINITY, F64_NAN, i32_min, i32_max in *;
  div_lia.

Lemma view_raw_range w : view_ok w -> 0 < view_raw w < 2 ^ 64.
Proof.
  destruct w; cbn; intros Hok; try lia.
  - destruct b; cbn; lia.
  - pose proof (Z.mod_pos_bound n (2 ^ 32)). lia.
  - apply canonical_double_cases in Hok as [? [?|?]]; view_arith.
Qed.

(** The tag of each kind; doubles have none of the special tags. *)
Definition special_tag (t : Z) : Prop := 0x8001 <= t <= 0x8006 \/ t = 0.

Lemma view_tag w : view_ok w ->
  get_tag (encode_view w) =
  match w with
  | VBool _ => BOOL_TAG | VSmi _ => SMI_TAG | VUndefined => UNDEFINED_TAG
  | VNull => NULL_TAG | VEmpty => EMPTY_TAG | VPointer _ => POINTER_TAG
  | VDouble d => 65535 - d / 2 ^ 48
  end.
Proof.
  intros Hok. pose proof (view_raw_range w Hok) as Hr.
  rewrite get_tag_div; rewrite encode_view_raw by done; [|lia].
  destruct w; cbn -[Z.div Z.mul Z.modulo Z.add Z.sub Z.pow] in *; try done.
  - by destruct b.
  - change SMI_TAG with 0x8001. div_lia.
  - destruct Hok as [[? ?] _]. div_lia.
  - apply Z.div_small. lia.
Qed.

Lemma double_tag d : canonical_double d -> ~ special_tag (65535 - d / 2 ^ 48).
Proof.
  intros [Hok [Ha|Ha]]%canonical_double_cases [Ht|Ht]; view_arith.
Qed.

Lemma is_double_view w : view_ok w ->
  is_double (encode_view w) = match w with VDouble _ => true | _ => false end.
Proof.
  intros Hok. pose proof (view_raw_range w Hok) as Hr.
  unfold is_double, is_nan.
  change (not64 CANONICAL_NAN) with (Z.shiftl (Z.ones 12) 51).
  change CANONICAL_NAN with 0x8007FFFFFFFFFFFF.
  rewrite encode_view_raw, not64_spec, land_high12 by (done || lia).
  change (Z.shiftl (Z.ones 12) 51) with (4095 * 2 ^ 51).
  destruct w; cbn -[Z.div Z.mul Z.modulo Z.add Z.sub Z.pow Z.eqb] in *; try done.
  - by destruct b.
  - apply orb_false_intro; [apply negb_false_iff, Z.eqb_eq|apply Z.eqb_neq];
      unfold i32_min, i32_max in *; div_lia.
  - apply canonical_double_cases in Hok as [? [?| ->]]; [|done].
    apply orb_true_intro. left. apply negb_true_iff, Z.eqb_neq. view_arith.
  - apply orb_false_intro; [apply negb_false_iff, Z.eqb_eq|apply Z.eqb_neq]; div_lia.
Qed.

(** [has_tag] with a special tag recognises exactly the views of that tag. *)
Lemma has_tag_view w t : view_ok w -> special_tag t ->
  has_tag (encode_view w) t =
  match w with
  | VBool _ => BOOL_TAG =? t | VSmi _ => SMI_TAG =? t | VUndefined => UNDEFINED_TAG =? t
  | VNull => NULL_TAG =? t | VEmpty => EMPTY_TAG =? t | VPointer _ => POINTER_TAG =? t
  | VDouble _ => false
  end.
Proof.
  intros Hok Ht. unfold has_tag. rewrite view_tag by done. destruct w; try done.
  apply Z.eqb_neq. intros <-. by eapply double_tag.
Qed.

Ltac tag_test := rewrite has_tag_view; [by case_match|done|unfold special_tag; vm_compute; naive_solver].

Lemma is_bool_view w : view_ok w ->
  is_bool (encode_view w) = match w with VBool _ => true | _ => false end.
Proof. intros. unfold is_bool. tag_test. Qed.

Lemma is_smi_view w : view_ok w ->
  is_smi (encode_view w) = match w with VSmi _ => true | _ => false end.
Proof. intros. unfold is_smi. tag_test. Qed.

Lemma is_undefined_view w : view_ok w ->
  is_undefined (encode_view w) = match w with VUndefined => true | _ => false end.
Proof. intros. unfold is_undefined. tag_test. Qed.

Lemma is_null_view w : view_ok w ->
  is_null (encode_view w) = match w with VNull => true | _ => false end.
Proof. intros. unfold is_null. tag_test. Qed.

Lemma is_empty_view w : view_ok w ->
  is_empty (encode_view w) = match w with VEmpty => true | _ => false end.
Proof. intros. unfold is_empty. tag_test. Qed.

Lemma is_pointer_view w : view_ok w ->
  is_pointer (encode_view w) = match w with VPointer _ => true | _ => false end.
Proof. intros. unfold is_pointer. tag_test. Qed.

Lemma is_number_view w : view_ok w ->
  is_number (encode_view w) = match w with VSmi _ | VDouble _ => true | _ => false end.
Proof.
  intros. unfold is_number. rewrite is_smi_view, is_double_view by done. by case_match.
Qed.

(** Clearing bit 1 of a tag. *)
Lemma land_ldiff_add a b : Z.land a b + Z.ldiff a b = a.
Proof.
  rewrite Z.add_nocarry_lxor.
  - apply Z.bits_inj'. intros i Hi. rewrite Z.lxor_spec, Z.land_spec, Z.ldiff_spec.
    by destruct (Z.testbit a i), (Z.testbit b i).
  - apply Z.bits_inj'. intros i Hi. rewrite Z.land_spec, Z.land_spec, Z.ldiff_spec, Z.bits_0.
    by destruct (Z.testbit a i), (Z.testbit b i).
Qed.

Lemma land_bit1 t : Z.land t 2 = 2 * (t / 2 mod 2).
Proof.
  transitivity (Z.shiftl (Z.land (Z.shiftr t 1) (Z.ones 1)) 1).
  - apply Z.bits_inj'. intros i Hi. rewrite Z.shiftl_spec, !Z.land_spec by done.
    destruct (decide (i = 0)) as [->|]; [by rewrite andb_false_r|].
    rewrite Z.shiftr_spec by lia. replace (i - 1 + 1) with i by lia.
    f_equal. change 2 with (Z.shiftl (Z.ones 1) 1). by rewrite Z.shiftl_spec by lia.
  - rewrite Z.shiftl_mul_pow2, Z.land_ones, Z.shiftr_div_pow2 by lia. apply Z.mul_comm.
Qed.

Lemma nullish_mask t : 0 <= t < 65536 ->
  (Z.land t NULLISH_TAG_MASK =? NULL_TAG) = (t =? NULL_TAG) || (t =? UNDEFINED_TAG).
Proof.
  intros Ht. change NULL_TAG with 0x8004. change UNDEFINED_TAG with 0x8006.
  assert (Z.land t NULLISH_TAG_MASK = Z.ldiff t 2) as ->.
  { change NULLISH_TAG_MASK with (Z.ldiff (Z.ones 16) 2).
    apply Z.bits_inj'. intros i Hi. rewrite Z.land_spec, !Z.ldiff_spec, andb_assoc. f_equal.
    rewrite <- Z.land_spec, Z.land_ones, Z.mod_small by lia. done. }
  pose proof (land_ldiff_add t 2) as E. rewrite land_bit1 in E.
  assert (Z.ldiff t 2 = t - 2 * (t / 2 mod 2)) as -> by lia. clear E.
  apply Bool.eq_iff_eq_true. rewrite orb_true_iff, !Z.eqb_eq. div_lia.
Qed.

Lemma is_nullish_tests v :
  is_nullish v = is_null v || is_undefined v.
Proof.
  unfold is_nullish, is_null, is_undefined, has_tag.
  apply nullish_mask. unfold get_tag, as_u16. apply Z.mod_pos_bound. lia.
Qed.

(** The tests on single values or on a pair of them (the infinities, the zeros). *)
Lemma is_nan_view w : view_ok w ->
  is_nan (encode_view w) = match w with VDouble d => f64_is_nan d | _ => false end.
Proof.
  intros Hok. pose proof (view_raw_range w Hok).
  unfold is_nan. rewrite encode_view_raw by done.
  change CANONICAL_NAN with 0x8007FFFFFFFFFFFF.
  destruct w; cbn -[Z.div Z.mul Z.modulo Z.add Z.sub Z.pow Z.eqb] in *; try done.
  - by destruct b.
  - apply Z.eqb_neq. div_lia.
  - apply canonical_double_cases in Hok as [? [?| ->]]; [|done].
    unfold f64_is_nan. rewrite (proj2 (Z.ltb_ge _ _)) by lia.
    apply Z.eqb_neq. view_arith.
  - apply Z.eqb_neq. lia.
Qed.

Lemma is_infinity_view w : view_ok w ->
  is_infinity (encode_view w) = match w with VDouble d => f64_is_infinite d | _ => false end.
Proof.
  intros Hok. pose proof (view_raw_range w Hok).
  unfold is_infinity. rewrite encode_view_raw, lor_bit63 by (done || lia).
  change POSITIVE_INFINITY with (2 ^ 64 - 1 - F64_INFINITY). unfold f64_is_infinite.
  destruct w; cbn -[Z.div Z.mul Z.modulo Z.add Z.sub Z.pow Z.eqb] in *; try done.
  - by destruct b.
  - apply Z.eqb_neq. unfold F64_INFINITY. div_lia.
  - destruct Hok as [Hok _]. apply Bool.eq_iff_eq_true. rewrite !Z.eqb_eq. view_arith.
  - apply Z.eqb_neq. unfold F64_INFINITY. div_lia.
Qed.

Lemma is_negative_zero_view w : view_ok w ->
  is_negative_zero (encode_view w) = match w with VDouble d => d =? F64_SIGN | _ => false end.
Proof.
  intros Hok. pose proof (view_raw_range w Hok).
  unfold is_negative_zero. rewrite encode_view_raw by done.
  change DOUBLE_NEGATIVE_ZERO with (2 ^ 64 - 1 - F64_SIGN).
  destruct w; cbn -[Z.div Z.mul Z.modulo Z.add Z.sub Z.pow Z.eqb] in *; try done;
    unfold F64_SIGN.
  - by destruct b.
  - apply Z.eqb_neq. div_lia.
  - lia.
  - apply Z.eqb_neq. lia.
Qed.

(** ** Casts *)

Lemma as_bool_view b : as_bool (bool_value b) = b.
Proof. by destruct b. Qed.

Lemma as_smi_view n : i32_min <= n <= i32_max -> as_smi (smi n) = n.
Proof.
  intros Hn. unfold as_smi, cast_signed, as_u32. rewrite smi_raw.
  unfold i32_min, i32_max in Hn. 
  replace (((0x8001 * 2 ^ 48 + n mod 2 ^ 32) mod 2 ^ 32) mod 2 ^ 32) with (n mod 2 ^ 32) by div_lia.
  change (2 ^ (32 - 1)) with (2 ^ 31).
  destruct (Z.ltb_spec (n mod 2 ^ 32) (2 ^ 31)); div_lia.
Qed.

Lemma as_double_view d : f64_ok d -> as_double (double d) = d.
Proof. apply not64_involutive. Qed.

(** the words of the NaN-boxing scheme determine the value they stand for:
    building any well-formed value and classifying the word by the engine's
    cascade of type tests gives the value back, and the word is a non-zero u64
    (so [NonZeroU64::new_unchecked] is never undefined behaviour). *)
Theorem value_word_roundtrip w :
  view_ok w ->
  debug_format_view (encode_view w) = w /\ 0 < as_raw_bits (encode_view w) < 2 ^ 64.
Proof.
  intros Hok. split; [|rewrite encode_view_raw by done; by apply view_raw_range].
  unfold debug_format_view.
  rewrite is_bool_view, is_smi_view, is_double_view, is_undefined_view, is_null_view,
    is_empty_view by done.
  destruct w; cbn in *; try done; f_equal.
  - apply as_bool_view.
  - by apply as_smi_view.
  - by apply as_double_view; destruct Hok.
Qed.

(** every type test is true exactly on the values of its type: pointers,
    doubles, small integers, booleans, undefined, null and the empty marker are
    told apart, nullish is undefined or null, numbers are small integers or
    doubles, and the tests for NaN, the infinities and negative zero agree with
    the number stored. *)
Theorem value_type_tests_exact w :
  view_ok w ->
  let v := encode_view w in
  is_pointer v = (match w with VPointer _ => true | _ => false end) /\
  is_double v = (match w with VDouble _ => true | _ => false end) /\
  is_smi v = (match w with VSmi _ => true | _ => false end) /\
  is_number v = (match w with VSmi _ | VDouble _ => true | _ => false end) /\
  is_bool v = (match w with VBool _ => true | _ => false end) /\
  is_nullish v = (match w with VUndefined | VNull => true | _ => false end) /\
  is_empty v = (match w with VEmpty => true | _ => false end) /\
  is_nan v = (match w with VDouble d => f64_is_nan d | _ => false end) /\
  is_infinity v = (match w with VDouble d => f64_is_infinite d | _ => false end) /\
  is_negative_zero v = (match w with VDouble d => d =? F64_SIGN | _ => false end).
Proof.
  intros Hok v; subst v.
  rewrite is_nullish_tests, is_null_view, is_undefined_view, is_pointer_view, is_double_view,
    is_smi_view, is_number_view, is_bool_view, is_empty_view, is_nan_view,
    is_infinity_view, is_negative_zero_view by done.
  by destruct w.
Qed.

(** ** Numbers *)

(** The mathematical integers that are stored as small integers. *)
Definition is_smi_number (v : f64) : bool :=
  f64_is_finite v && (f64_scaled v =? f64_integer_part v * F64_ONE_SCALED)
  && ((i32_min <=? f64_integer_part v) && (f64_integer_part v <=? i32_max))
  && negb (v =? F64_SIGN).

Lemma f64_infinite_scaled v :
  f64_is_infinite v = true -> Z.abs (f64_scaled v) = 2 ^ 2098.
Proof.
  intros Hi%Z.eqb_eq. rewrite f64_scaled_abs_range, Hi. reflexivity.
Qed.

Lemma f64_class v : f64_is_nan v = true \/ f64_is_infinite v = true \/ f64_is_finite v = true.
Proof. unfold f64_is_nan, f64_is_infinite, f64_is_finite. lia. Qed.

Lemma smi_bounds_not_nan : f64_is_nan SMI_MIN = false /\ f64_is_nan SMI_MAX = false.
Proof. split; apply f64_round_not_nan. Qed.

Lemma smi_bounds_scaled :
  f64_scaled SMI_MIN = i32_min * F64_ONE_SCALED /\ f64_scaled SMI_MAX = i32_max * F64_ONE_SCALED.
Proof. split; apply f64_scaled_of_int; unfold i32_min, i32_max; lia. Qed.

(** The range test on an integral value. *)
Lemma smi_range_test v n :
  f64_is_nan v = false -> f64_scaled v = n * F64_ONE_SCALED ->
  f64_le SMI_MIN v && f64_le v SMI_MAX = (i32_min <=? n) && (n <=? i32_max).
Proof.
  intros Hn Hv. destruct smi_bounds_not_nan as [H1 H2], smi_bounds_scaled as [E1 E2].
  unfold f64_le. rewrite Hn, H1, H2, E1, E2, Hv. cbn [negb andb].
  pose proof F64_ONE_pos. apply Bool.eq_iff_eq_true.
  rewrite !andb_true_iff, !Z.leb_le. rewrite <- !Z.mul_le_mono_pos_r by done. done.
Qed.

Lemma number_test v :
  f64_eq (f64_trunc v) v && (f64_le SMI_MIN v && f64_le v SMI_MAX) && negb (v =? F64_SIGN)
  = is_smi_number v.
Proof.
  unfold is_smi_number. f_equal.
  destruct (f64_class v) as [Hn|[Hi|Hf]].
  - replace (f64_is_finite v) with false by (unfold f64_is_finite, f64_is_nan in *; lia).
    unfold f64_eq. by rewrite Hn, andb_false_r.
  - replace (f64_is_finite v) with false by (unfold f64_is_finite, f64_is_infinite in *; lia).
    replace (f64_le SMI_MIN v && f64_le v SMI_MAX) with false; [by rewrite andb_false_r|].
    pose proof (f64_infinite_scaled v Hi). destruct smi_bounds_scaled as [E1 E2].
    symmetry. unfold f64_le. rewrite E1, E2.
    destruct (Z.leb_spec (i32_min * F64_ONE_SCALED) (f64_scaled v)); 
      [|by rewrite andb_false_r].
    destruct (Z.leb_spec (f64_scaled v) (i32_max * F64_ONE_SCALED)); [|by rewrite !andb_false_r].
    exfalso. unfold i32_min, i32_max, F64_ONE_SCALED in *.
    assert (f64_scaled v <= 2 ^ 2097 /\ - 2 ^ 2097 <= f64_scaled v) by (split; 
      [etransitivity; [done|by vm_compute]|etransitivity; [|done]; by vm_compute]).
    assert (2 ^ 2098 = 2 * 2 ^ 2097) by done.
    assert (0 < 2 ^ 2097) by done.
    set (x := 2 ^ 2097) in *. set (y := 2 ^ 2098) in *. lia.
  - rewrite f64_trunc_eq, Hf by done. cbn [andb].
    destruct (Z.eqb_spec (f64_scaled v) (f64_integer_part v * F64_ONE_SCALED)); [|done].
    rewrite (smi_range_test v (f64_integer_part v)); [done| |done].
    by apply f64_is_finite_not_nan.
Qed.

(** What [number] builds. *)
Definition number_view (v : f64) : ValueView :=
  if is_smi_number v then VSmi (f64_integer_part v)
  else if f64_is_nan v then VDouble F64_NAN else VDouble v.

Lemma number_is_view v : number v = encode_view (number_view v).
Proof.
  unfold number, number_view. rewrite number_test.
  destruct (is_smi_number v) eqn:E; [|by destruct (f64_is_nan v)].
  cbn. unfold is_smi_number in E. rewrite !andb_true_iff in E.
  destruct E as [[[Hf _] [H1 H2]] _].
  unfold f64_as_int. rewrite f64_is_finite_not_nan by done.
  unfold clamp. f_equal. lia.
Qed.

Lemma number_view_ok v : f64_ok v -> view_ok (number_view v).
Proof.
  intros Hok. unfold number_view. destruct (is_smi_number v) eqn:E.
  - unfold is_smi_number in E. cbn. lia.
  - destruct (f64_is_nan v) eqn:En; [by vm_compute|]. split; [done|]. by rewrite En.
Qed.

(** The number a view stands for, as the code reads it back. *)
Lemma as_number_view w : view_ok w ->
  as_number (encode_view w) =
  match w with VSmi n => f64_of_int n | VDouble d => d | _ => as_double (encode_view w) end.
Proof.
  intros Hok. unfold as_number. rewrite is_smi_view by done. destruct w; cbn in *; try done.
  - by rewrite as_smi_view.
  - by apply as_double_view; destruct Hok.
Qed.

Lemma smi_number_exact v :
  f64_ok v -> is_smi_number v = true -> f64_of_int (f64_integer_part v) = v.
Proof.
  intros Hok E. unfold is_smi_number in E. rewrite !andb_true_iff in E.
  destruct E as [[[Hf Hi%Z.eqb_eq] _] Hz%negb_true_iff%Z.eqb_neq].
  unfold f64_of_int. rewrite <- Hi.
  rewrite <- (f64_round_scaled v Hok (f64_is_finite_not_nan v Hf)) at 2.
  unfold f64_round. f_equal. f_equal.
  destruct (Z.eqb_spec (f64_scaled v) 0) as [E0|]; [|done].
  destruct (f64_sign v) eqn:Es; [exfalso|done].
  rewrite (f64_split v Hok), Es in Hz.
  unfold f64_scaled in E0. rewrite Es in E0.
  pose proof (f64_abs_range v).
  assert (f64_abs v <> 0) by lia.
  pose proof (f64_magnitude_pos (f64_abs v)). lia.
Qed.

Lemma number_roundtrip_facts v :
  f64_ok v ->
  as_number (number v) = (if f64_is_nan v then F64_NAN else v) /\
  is_number (number v) = true /\ is_smi (number v) = is_smi_number v.
Proof.
  intros Hok. rewrite number_is_view.
  pose proof (number_view_ok v Hok) as Hv.
  rewrite as_number_view, is_number_view, is_smi_view by done.
  unfold number_view in *. destruct (is_smi_number v) eqn:E.
  - assert (f64_is_nan v = false) as ->.
    { apply f64_is_finite_not_nan. unfold is_smi_number in E. rewrite !andb_true_iff in E. tauto. }
    by rewrite smi_number_exact.
  - by destruct (f64_is_nan v).
Qed.

(** C26: [Value::number] is lossless: reading the number of the value it builds
    gives the very bit pattern back, except that every NaN becomes the
    canonical one; and the value is a small integer exactly for the integers of
    the i32 range other than negative zero. *)
Theorem number_roundtrip v :
  f64_ok v ->
  as_number (number v) = (if f64_is_nan v then F64_NAN else v) /\
  is_number (number v) = true /\ is_smi (number v) = is_smi_number v.
Proof. exact (number_roundtrip_facts v). Qed.

Module ValueExample.

Lemma value_word_roundtrip_witness :
  debug_format_view (encode_view (VSmi (-7))) = VSmi (-7) /\
  0 < as_raw_bits (encode_view (VSmi (-7))) < 2 ^ 64.
Proof. apply (value_word_roundtrip (VSmi (-7))). cbn. unfold i32_min, i32_max. lia. Defined.

Lemma value_type_tests_exact_witness :
  is_nullish (encode_view (VDouble F64_NEG_INFINITY)) = false /\
  is_infinity (encode_view (VDouble F64_NEG_INFINITY)) = true.
Proof.
  assert (Hok : view_ok (VDouble F64_NEG_INFINITY)).
  { split; [unfold f64_ok; vm_compute; split; congruence|]. vm_compute. discriminate. }
  pose proof (value_type_tests_exact _ Hok) as (_ & _ & _ & _ & _ & H1 & _ & _ & H2 & _).
  split; [exact H1|]. etransitivity; [exact H2|]. vm_compute. reflexivity.
Defined.

(** 2^31 is one beyond the small integers. *)
Lemma number_roundtrip_witness :
  as_number (number (f64_of_int (2 ^ 31))) = f64_of_int (2 ^ 31) /\
  is_smi (number (f64_of_int (2 ^ 31))) = false.
Proof.
  pose proof (number_roundtrip (f64_of_int (2 ^ 31)) (f64_round_ok _ _)) as (H1 & _ & H2).
  split.
  - etransitivity; [exact H1|]. vm_compute. reflexivity.
  - etransitivity; [exact H2|]. vm_compute. reflexivity.
Defined.

End ValueExample.
