(* ===== verification/Descriptors.v ===== *)
(** Heap item descriptors: [src/so2js/runtime/heap_item_descriptor.rs].

    Every heap item starts with a pointer to a descriptor that records its kind
    and whether it is an object.  [BaseDescriptors::new] allocates one
    descriptor per kind and stores it at the kind's discriminant in a vector
    whose length is set before it is filled. *)

From S2P Require Import Prelude.

Module Kind.

Inductive HeapItemKind : Type :=
  | Descriptor | OrdinaryObject | Proxy | BooleanObject | NumberObject | StringObject
  | SymbolObject | BigIntObject | ArrayObject | RegExpObject | ErrorObject | DateObject
  | SetObject | MapObject | WeakRefObject | WeakSetObject | WeakMapObject
  | FinalizationRegistryObject | MappedArgumentsObject | UnmappedArgumentsObject | Int8Array
  | UInt8Array | UInt8ClampedArray | Int16Array | UInt16Array | Int32Array | UInt32Array
  | BigInt64Array | BigUInt64Array | Float16Array | Float32Array | Float64Array
  | ArrayBufferObject | DataViewObject | ArrayIterator | StringIterator | SetIterator
  | MapIterator | RegExpStringIterator | ForInIterator | AsyncFromSyncIterator
  | WrappedValidIterator | IteratorHelperObject | ObjectPrototype | String | Symbol | BigInt
  | Accessor | Promise | PromiseReaction | PromiseCapability | Realm | Closure
  | BytecodeFunction | ConstantTable | ExceptionStackRootrs | SourceFile | Scope
  | ScopeNames | GlobalNames | ClassNames | SourceTextModule | SyntheticModule
  | ModuleNamespaceObject | ImportAttributes | Generator | AsyncGenerator
  | AsyncGeneratorRequest | DenseArrayProperties | SparseArrayProperties
  | CompiledRegExpObject | BoxedValue | ObjectNamedPropertiesMap | MapObjectValueMap
  | SetObjectValueSet | ExportMap | WeakSetObjectWeakValueSet | WeakMapObjectWeakValueMap
  | GlobalSymbolRegistryMap | InternedStringsSet | LexicalNamesMap | ModuleCacheMap
  | ValueArray | ByteArray | U32Array | ModuleRequestArray | ModuleOptionArray
  | StackFrameInfoArray | FinalizationRegistryCells | GlobalScopes | ValueVec | Last.

(** The variants in the order of the enum: the discriminant is the position. *)
Definition all_kinds : list HeapItemKind :=
  [Descriptor; OrdinaryObject; Proxy; BooleanObject; NumberObject; StringObject;
   SymbolObject; BigIntObject; ArrayObject; RegExpObject; ErrorObject; DateObject;
   SetObject; MapObject; WeakRefObject; WeakSetObject; WeakMapObject;
   FinalizationRegistryObject; MappedArgumentsObject; UnmappedArgumentsObject; Int8Array;
   UInt8Array; UInt8ClampedArray; Int16Array; UInt16Array; Int32Array; UInt32Array;
   BigInt64Array; BigUInt64Array; Float16Array; Float32Array; Float64Array;
   ArrayBufferObject; DataViewObject; ArrayIterator; StringIterator; SetIterator;
   MapIterator; RegExpStringIterator; ForInIterator; AsyncFromSyncIterator;
   WrappedValidIterator; IteratorHelperObject; ObjectPrototype; String; Symbol; BigInt;
   Accessor; Promise; PromiseReaction; PromiseCapability; Realm; Closure; BytecodeFunction;
   ConstantTable; ExceptionStackRootrs; SourceFile; Scope; ScopeNames; GlobalNames;
   ClassNames; SourceTextModule; SyntheticModule; ModuleNamespaceObject; ImportAttributes;
   Generator; AsyncGenerator; AsyncGeneratorRequest; DenseArrayProperties;
   SparseArrayProperties; CompiledRegExpObject; BoxedValue; ObjectNamedPropertiesMap;
   MapObjectValueMap; SetObjectValueSet; ExportMap; WeakSetObjectWeakValueSet;
   WeakMapObjectWeakValueMap; GlobalSymbolRegistryMap; InternedStringsSet; LexicalNamesMap;
   ModuleCacheMap; ValueArray; ByteArray; U32Array; ModuleRequestArray; ModuleOptionArray;
   StackFrameInfoArray; FinalizationRegistryCells; GlobalScopes; ValueVec; Last].

(** [kind as usize]. *)
Definition discriminant (k : HeapItemKind) : nat :=
  match k with
  | Descriptor => 0 | OrdinaryObject => 1 | Proxy => 2 | BooleanObject => 3
  | NumberObject => 4 | StringObject => 5 | SymbolObject => 6 | BigIntObject => 7
  | ArrayObject => 8 | RegExpObject => 9 | ErrorObject => 10 | DateObject => 11
  | SetObject => 12 | MapObject => 13 | WeakRefObject => 14 | WeakSetObject => 15
  | WeakMapObject => 16 | FinalizationRegistryObject => 17 | MappedArgumentsObject => 18
  | UnmappedArgumentsObject => 19 | Int8Array => 20 | UInt8Array => 21
  | UInt8ClampedArray => 22 | Int16Array => 23 | UInt16Array => 24 | Int32Array => 25
  | UInt32Array => 26 | BigInt64Array => 27 | BigUInt64Array => 28 | Float16Array => 29
  | Float32Array => 30 | Float64Array => 31 | ArrayBufferObject => 32 | DataViewObject => 33
  | ArrayIterator => 34 | StringIterator => 35 | SetIterator => 36 | MapIterator => 37
  | RegExpStringIterator => 38 | ForInIterator => 39 | AsyncFromSyncIterator => 40
  | WrappedValidIterator => 41 | IteratorHelperObject => 42 | ObjectPrototype => 43
  | String => 44 | Symbol => 45 | BigInt => 46 | Accessor => 47 | Promise => 48
  | PromiseReaction => 49 | PromiseCapability => 50 | Realm => 51 | Closure => 52
  | BytecodeFunction => 53 | ConstantTable => 54 | ExceptionStackRootrs => 55
  | SourceFile => 56 | Scope => 57 | ScopeNames => 58 | GlobalNames => 59 | ClassNames => 60
  | SourceTextModule => 61 | SyntheticModule => 62 | ModuleNamespaceObject => 63
  | ImportAttributes => 64 | Generator => 65 | AsyncGenerator => 66
  | AsyncGeneratorRequest => 67 | DenseArrayProperties => 68 | SparseArrayProperties => 69
  | CompiledRegExpObject => 70 | BoxedValue => 71 | ObjectNamedPropertiesMap => 72
  | MapObjectValueMap => 73 | SetObjectValueSet => 74 | ExportMap => 75
  | WeakSetObjectWeakValueSet => 76 | WeakMapObjectWeakValueMap => 77
  | GlobalSymbolRegistryMap => 78 | InternedStringsSet => 79 | LexicalNamesMap => 80
  | ModuleCacheMap => 81 | ValueArray => 82 | ByteArray => 83 | U32Array => 84
  | ModuleRequestArray => 85 | ModuleOptionArray => 86 | StackFrameInfoArray => 87
  | FinalizationRegistryCells => 88 | GlobalScopes => 89 | ValueVec => 90 | Last => 91
  end%nat.

Lemma all_kinds_lookup k : all_kinds !! discriminant k = Some k.
Proof. by destruct k. Qed.

#[export] Instance HeapItemKind_eq_dec : EqDecision HeapItemKind.
Proof.
  refine (fun k1 k2 => cast_if (decide (discriminant k1 = discriminant k2))).
  - apply (inj Some). by rewrite <- !all_kinds_lookup, e.
  - congruence.
Defined.

Definition kind_eqb (k1 k2 : HeapItemKind) : bool := bool_decide (k1 = k2).

Lemma kind_eqb_eq k1 k2 : kind_eqb k1 k2 = true <-> k1 = k2.
Proof. apply bool_decide_eq_true. Qed.

End Kind.
Import Kind.

(** [DescFlags]: bit 0 is IS_OBJECT. *)
Definition IS_OBJECT : Z := 1.
Definition flags_contain (flags flag : Z) : bool := Z.land flags flag =? flag.

(** The fields of [HeapItemDescriptor] that tell items apart (the descriptor of
    the descriptor and the Rust vtable are left out). *)
Record HeapItemDescriptor : Type := mkDescriptor {
  desc_kind : HeapItemKind;
  desc_flags : Z;
}.

Definition is_object_descriptor (d : HeapItemDescriptor) : bool :=
  flags_contain (desc_flags d) IS_OBJECT.

(** ** [BaseDescriptors::new] *)

(** [HeapItemKind::count]. *)
Definition kind_count : nat := discriminant Last.

(** The vector of [uninit]: [count] slots whose contents are uninitialised. *)
Definition BaseDescriptors : Type := list (option HeapItemDescriptor).
Definition uninit_descriptors : BaseDescriptors := replicate kind_count None.

(** [descriptors[kind as usize] = desc], which panics out of range. *)
Definition register_descriptor (k : HeapItemKind) (flags : Z)
    (ds : BaseDescriptors) : outcome BaseDescriptors :=
  if decide (discriminant k < length ds)%nat
  then Done (<[discriminant k := Some (mkDescriptor k flags)]> ds)
  else Panicked.

Definition ordinary_object_descriptor (k : HeapItemKind) := register_descriptor k IS_OBJECT.
Definition other_heap_item_descriptor (k : HeapItemKind) := register_descriptor k 0.

(** The registrations of [BaseDescriptors::new], in the order of the code. *)
Definition registrations : list (BaseDescriptors -> outcome BaseDescriptors) :=
  [ other_heap_item_descriptor Descriptor;
    ordinary_object_descriptor OrdinaryObject;
    register_descriptor Proxy IS_OBJECT;
    ordinary_object_descriptor BooleanObject;
    ordinary_object_descriptor NumberObject;
    register_descriptor StringObject IS_OBJECT;
    ordinary_object_descriptor SymbolObject;
    ordinary_object_descriptor BigIntObject;
    register_descriptor ArrayObject IS_OBJECT;
    ordinary_object_descriptor RegExpObject;
    ordinary_object_descriptor ErrorObject;
    ordinary_object_descriptor DateObject;
    ordinary_object_descriptor SetObject;
    ordinary_object_descriptor MapObject;
    ordinary_object_descriptor WeakRefObject;
    ordinary_object_descriptor WeakSetObject;
    ordinary_object_descriptor WeakMapObject;
    ordinary_object_descriptor FinalizationRegistryObject;
    register_descriptor MappedArgumentsObject IS_OBJECT;
    ordinary_object_descriptor UnmappedArgumentsObject;
    register_descriptor Int8Array IS_OBJECT;
    register_descriptor UInt8Array IS_OBJECT;
    register_descriptor UInt8ClampedArray IS_OBJECT;
    register_descriptor Int16Array IS_OBJECT;
    register_descriptor UInt16Array IS_OBJECT;
    register_descriptor Int32Array IS_OBJECT;
    register_descriptor UInt32Array IS_OBJECT;
    register_descriptor BigInt64Array IS_OBJECT;
    register_descriptor BigUInt64Array IS_OBJECT;
    register_descriptor Float16Array IS_OBJECT;
    register_descriptor Float32Array IS_OBJECT;
    register_descriptor Float64Array IS_OBJECT;
    ordinary_object_descriptor ArrayBufferObject;
    ordinary_object_descriptor DataViewObject;
    ordinary_object_descriptor ArrayIterator;
    ordinary_object_descriptor StringIterator;
    ordinary_object_descriptor SetIterator;
    ordinary_object_descriptor MapIterator;
    ordinary_object_descriptor RegExpStringIterator;
    other_heap_item_descriptor ForInIterator;
    ordinary_object_descriptor AsyncFromSyncIterator;
    ordinary_object_descriptor WrappedValidIterator;
    ordinary_object_descriptor IteratorHelperObject;
    ordinary_object_descriptor ObjectPrototype;
    other_heap_item_descriptor String;
    other_heap_item_descriptor Symbol;
    other_heap_item_descriptor BigInt;
    other_heap_item_descriptor Accessor;
    ordinary_object_descriptor Promise;
    other_heap_item_descriptor PromiseReaction;
    other_heap_item_descriptor PromiseCapability;
    other_heap_item_descriptor Realm;
    ordinary_object_descriptor Closure;
    other_heap_item_descriptor BytecodeFunction;
    other_heap_item_descriptor ConstantTable;
    other_heap_item_descriptor ExceptionStackRootrs;
    other_heap_item_descriptor SourceFile;
    other_heap_item_descriptor Scope;
    other_heap_item_descriptor ScopeNames;
    other_heap_item_descriptor GlobalNames;
    other_heap_item_descriptor ClassNames;
    other_heap_item_descriptor SourceTextModule;
    other_heap_item_descriptor SyntheticModule;
    register_descriptor ModuleNamespaceObject IS_OBJECT;
    other_heap_item_descriptor ImportAttributes;
    ordinary_object_descriptor Generator;
    ordinary_object_descriptor AsyncGenerator;
    other_heap_item_descriptor AsyncGeneratorRequest;
    other_heap_item_descriptor DenseArrayProperties;
    other_heap_item_descriptor SparseArrayProperties;
    other_heap_item_descriptor CompiledRegExpObject;
    other_heap_item_descriptor BoxedValue;
    other_heap_item_descriptor ObjectNamedPropertiesMap;
    other_heap_item_descriptor MapObjectValueMap;
    other_heap_item_descriptor SetObjectValueSet;
    other_heap_item_descriptor ExportMap;
    other_heap_item_descriptor WeakMapObjectWeakValueMap;
    other_heap_item_descriptor WeakSetObjectWeakValueSet;
    other_heap_item_descriptor GlobalSymbolRegistryMap;
    other_heap_item_descriptor InternedStringsSet;
    other_heap_item_descriptor LexicalNamesMap;
    other_heap_item_descriptor ModuleCacheMap;
    other_heap_item_descriptor ValueArray;
    other_heap_item_descriptor ByteArray;
    other_heap_item_descriptor U32Array;
    other_heap_item_descriptor ModuleRequestArray;
    other_heap_item_descriptor ModuleOptionArray;
    other_heap_item_descriptor StackFrameInfoArray;
    other_heap_item_descriptor FinalizationRegistryCells;
    other_heap_item_descriptor GlobalScopes;
    other_heap_item_descriptor ValueVec ].

Fixpoint run_registrations (rs : list (BaseDescriptors -> outcome BaseDescriptors))
    (ds : BaseDescriptors) : outcome BaseDescriptors :=
  match rs with
  | [] => Done ds
  | r :: rs' => ds' ← r ds; run_registrations rs' ds'
  end.

Definition BaseDescriptors_new : outcome BaseDescriptors :=
  run_registrations registrations uninit_descriptors.

(** [BaseDescriptors::get]: reading an uninitialised slot is a fault. *)
Definition get_descriptor (ds : BaseDescriptors) (k : HeapItemKind) : outcome HeapItemDescriptor :=
  match ds !! discriminant k with
  | None => Panicked
  | Some None => Faulted
  | Some (Some d) => Done d
  end.

(** The descriptor of an item of kind [k], as allocation stores it. *)
Definition base_descriptor (k : HeapItemKind) : outcome HeapItemDescriptor :=
  ds ← BaseDescriptors_new; get_descriptor ds k.

(** Whether items of kind [k] are objects, as their descriptor says. *)
Definition kind_is_object (k : HeapItemKind) : bool :=
  match base_descriptor k with Done d => is_object_descriptor d | _ => false end.

(** initialisation fills the descriptor table completely and correctly: for
    every kind that heap items can have, the slot of the kind holds a
    descriptor of that very kind, so that no slot of the vector whose length
    was set in advance is left uninitialised. *)
Theorem base_descriptors_complete k :
  k <> Last ->
  exists d, base_descriptor k = Done d /\ desc_kind d = k.
Proof.
  intros Hk. destruct k; try done; eexists; (split; [vm_compute; reflexivity|done]).
Qed.

(** The witness takes the kind registered last. *)
Lemma base_descriptors_complete_witness :
  exists d, base_descriptor ValueVec = Done d /\ desc_kind d = ValueVec.
Proof. apply (base_descriptors_complete ValueVec). discriminate. Defined.

(** The primitive values on the heap are not objects. *)
Lemma primitive_kinds_not_object :
  kind_is_object String = false /\ kind_is_object Symbol = false /\
  kind_is_object BigInt = false.
Proof. vm_compute. done. Qed.

(** A match that singles out the primitive kinds, on the kind of an object. *)
Lemma object_kind_match {A} k (a b c d : A) :
  kind_is_object k = true ->
  match k with String => a | BigInt => b | Symbol => c | _ => d end = d.
Proof. destruct k; try reflexivity; vm_compute; discriminate. Qed.

(** The table is evaluated through the lemmas above only. *)
Opaque kind_is_object.
