(* ===== verification/TypeUtilities.v ===== *)
(** Type conversions and comparisons: [src/so2js/runtime/type_utilities.rs] and
    the keys of Map and Set ([ValueCollectionKey] of value.rs).

    The heap is seen through [ItemHeap]: the kind of each item, the code units
    of strings and the integers of BigInts.  Running JavaScript (the methods an
    object offers for its conversion to a primitive), parsing a string as a
    number and the conversion of f64 to BigInt by the num-bigint crate are
    parameters.  Allocation failure is not modelled. *)

From S2P Require Import Prelude Float64 Value Descriptors.
Import Kind.

(** ** Results of operations that may throw *)

Inductive EvalError : Type :=
| TypeError | RangeError | SyntaxError | Thrown (v : Value).

(** [EPanic] is a Rust panic ([unreachable!], [unwrap]), [EFault] undefined behaviour. *)
Inductive EvalResult (A : Type) : Type :=
| EOk (a : A) | EErr (e : EvalError) | EPanic | EFault | EOutOfFuel.
Arguments EOk {A} _.
Arguments EErr {A} _.
Arguments EPanic {A}.
Arguments EFault {A}.
Arguments EOutOfFuel {A}.

#[export] Instance EvalResult_ret : MRet EvalResult := fun A a => EOk a.
#[export] Instance EvalResult_bind : MBind EvalResult := fun A B k r =>
  match r with
  | EOk a => k a
  | EErr e => EErr e
  | EPanic => EPanic
  | EFault => EFault
  | EOutOfFuel => EOutOfFuel
  end.

(** ** Strings as code units *)

Fixpoint consume_equals (u1 u2 : list Z) : bool :=
  match u1, u2 with
  | [], [] => true
  | [], _ :: _ | _ :: _, [] => false
  | x :: u1', y :: u2' => if negb (x =? y) then false else consume_equals u1' u2'
  end.

Definition flat_string_eq (u1 u2 : list Z) : bool :=
  if negb (length u1 =? length u2)%nat then false else consume_equals u1 u2.

Fixpoint flat_string_cmp (u1 u2 : list Z) : comparison :=
  match u1, u2 with
  | [], [] => Eq
  | [], _ :: _ => Lt
  | _ :: _, [] => Gt
  | x :: u1', y :: u2' =>
      if x <? y then Lt else if y <? x then Gt else flat_string_cmp u1' u2'
  end.

Definition is_lt (c : comparison) : bool := match c with Lt => true | _ => false end.

(** ** The heap as values see it *)

Record ItemHeap : Type := mkItemHeap {
  item_kind : Z -> HeapItemKind;
  string_units : Z -> list Z;
  bigint_of : Z -> Z;
  stable_hash : Z -> Z;   (* hash code stored in a symbol or object *)
}.

Inductive ToPrimitivePreferredType : Type := HintNone | HintString | HintNumber.

(** [modulo] of common/math.rs, with Rust's truncating remainder. *)
Definition modulo (a b : Z) : Z := Z.rem (Z.rem a b + b) b.

(** [to_integer_or_infinity_f64]. *)
Definition to_integer_or_infinity_f64 (number_f64 : f64) : f64 :=
  if f64_is_nan number_f64 || f64_eq number_f64 0 then 0
  else if f64_is_infinite number_f64 then number_f64
  else
    let integer_f64 := f64_floor (f64_abs number_f64) in
    if f64_lt number_f64 0 && negb (f64_eq integer_f64 0)
    then f64_neg integer_f64 else integer_f64.

(** The rounding shared by ToInt32 to ToUint8: [abs().floor() as i64], negated
    for a negative number. *)
Definition round_to_i64 (f : f64) : Z :=
  let n := f64_as_int i64_min i64_max (f64_floor (f64_abs f)) in
  if f64_lt f 0 then - n else n.

Definition MAX_U8_AS_F64 : f64 := f64_of_int 255.
Definition MAX_SAFE_INTEGER_F64 : f64 := f64_of_int 9007199254740991.
Definition F64_HALF : f64 := 1022 * 2 ^ 52.

(** [to_int_unchecked::<u64>]: undefined behaviour out of range. *)
Definition to_int_unchecked_u64 (f : f64) : EvalResult Z :=
  if f64_is_finite f && (0 <=? f64_integer_part f) && (f64_integer_part f <? 2 ^ 64)
  then EOk (f64_integer_part f) else EFault.

Section Conversions.

Variable heap : ItemHeap.
Variable convert_object : Value -> ToPrimitivePreferredType -> EvalResult Value.
Variable parse_string_to_number : list Z -> option f64.
Variable parse_string_to_bigint : list Z -> option Z.
Variable f64_to_bigint : f64 -> option Z.

Definition kind_of (v : Value) : HeapItemKind := item_kind heap (as_pointer v).
Definition units_of (v : Value) : list Z := string_units heap (as_pointer v).
Definition bigint (v : Value) : Z := bigint_of heap (as_pointer v).

Definition is_object (v : Value) : bool :=
  if negb (is_pointer v) then false else kind_is_object (kind_of v).
Definition is_string (v : Value) : bool :=
  if negb (is_pointer v) then false else kind_eqb (kind_of v) String.
Definition is_symbol (v : Value) : bool :=
  if negb (is_pointer v) then false else kind_eqb (kind_of v) Symbol.
Definition is_bigint (v : Value) : bool :=
  if negb (is_pointer v) then false else kind_eqb (kind_of v) BigInt.

(** ToPrimitive.  [convert_object] gives the value of the conversion method
    consulted last (or its exception); an object is rejected. *)
Definition to_primitive (v : Value) (preferred : ToPrimitivePreferredType) : EvalResult Value :=
  if negb (is_object v) then EOk v
  else
    result ← convert_object v preferred;
    if is_object result then EErr TypeError else EOk result.

(** ToBoolean. *)
Definition to_boolean (v : Value) : bool :=
  let tag := get_tag v in
  if tag =? BOOL_TAG then as_bool v
  else if is_pointer v then
    match kind_of v with
    | String => negb (length (units_of v) =? 0)%nat
    | BigInt => negb (bigint v =? 0)
    | _ => true
    end
  else if tag =? NULL_TAG then false
  else if tag =? UNDEFINED_TAG then false
  else if tag =? SMI_TAG then negb (as_smi v =? 0)
  else negb (f64_eq (as_double v) 0) && negb (is_nan v).

(** StringToNumber. *)
Definition string_to_number (v : Value) : Value :=
  match parse_string_to_number (units_of v) with
  | None => nan
  | Some num => number num
  end.

(** ToNumber: the recursive call gets a primitive, so two rounds are enough. *)
Fixpoint to_number_fuel (fuel : nat) (v : Value) : EvalResult Value :=
  match fuel with
  | O => EOutOfFuel
  | S fuel' =>
    if is_number v then EOk v
    else if is_pointer v then
      if kind_is_object (kind_of v) then
        primitive_value ← to_primitive v HintNumber;
        to_number_fuel fuel' primitive_value
      else
        match kind_of v with
        | String => EOk (string_to_number v)
        | Symbol => EErr TypeError
        | BigInt => EErr TypeError
        | _ => EPanic
        end
    else if get_tag v =? NULL_TAG then EOk (smi 0)
    else if get_tag v =? UNDEFINED_TAG then EOk nan
    else if get_tag v =? BOOL_TAG then EOk (if as_bool v then smi 1 else smi 0)
    else EPanic
  end.
Definition to_number : Value -> EvalResult Value := to_number_fuel 2.

(** ToNumeric. *)
Definition to_numeric (v : Value) : EvalResult Value :=
  prim_value ← to_primitive v HintNumber;
  if is_bigint prim_value then EOk prim_value else to_number prim_value.

(** ToIntegerOrInfinity. *)
Definition to_integer_or_infinity (v : Value) : EvalResult f64 :=
  number ← to_number v;
  EOk (to_integer_or_infinity_f64 (as_number number)).

(** ** Fixed-width integers *)

Definition to_int32 (v : Value) : EvalResult Z :=
  if is_smi v then EOk (as_smi v)
  else
    number_value ← to_number v;
    let f64_number := as_number number_value in
    if f64_eq f64_number 0 || negb (f64_is_finite f64_number) then EOk 0
    else
      let i32_number := round_to_i64 f64_number in
      let u32_max := 2 ^ 32 in
      let i32_number := modulo i32_number u32_max in
      let i32_number :=
        if Z.shiftr u32_max 1 <=? i32_number then i32_number - u32_max else i32_number in
      EOk (cast_signed 32 i32_number).

Definition to_uint32 (v : Value) : EvalResult Z :=
  if is_smi v && (0 <=? as_smi v) then EOk (as_u32 (as_smi v))
  else
    number_value ← to_number v;
    let f64_number := as_number number_value in
    if f64_eq f64_number 0 || negb (f64_is_finite f64_number) then EOk 0
    else EOk (as_u32 (modulo (round_to_i64 f64_number) (2 ^ 32))).

Definition to_int16 (v : Value) : EvalResult Z :=
  if is_smi v then EOk (cast_signed 16 (as_smi v))
  else
    number_value ← to_number v;
    let f64_number := as_number number_value in
    if f64_eq f64_number 0 || negb (f64_is_finite f64_number) then EOk 0
    else
      let u16_max := 2 ^ 16 in
      let i16_number := modulo (round_to_i64 f64_number) u16_max in
      let i16_number := if 32767 <? i16_number then i16_number - u16_max else i16_number in
      EOk (cast_signed 16 i16_number).

Definition to_uint16 (v : Value) : EvalResult Z :=
  if is_smi v && (0 <=? as_smi v) then EOk (as_u16 (as_smi v))
  else
    number_value ← to_number v;
    let f64_number := as_number number_value in
    if f64_eq f64_number 0 || negb (f64_is_finite f64_number) then EOk 0
    else EOk (as_u16 (modulo (round_to_i64 f64_number) (2 ^ 16))).

Definition to_int8 (v : Value) : EvalResult Z :=
  if is_smi v then EOk (cast_signed 8 (as_smi v))
  else
    number_value ← to_number v;
    let f64_number := as_number number_value in
    if f64_eq f64_number 0 || negb (f64_is_finite f64_number) then EOk 0
    else
      let u8_max := 2 ^ 8 in
      let i8_number := modulo (round_to_i64 f64_number) u8_max in
      let i8_number := if 127 <? i8_number then i8_number - u8_max else i8_number in
      EOk (cast_signed 8 i8_number).

Definition to_uint8 (v : Value) : EvalResult Z :=
  if is_smi v && (0 <=? as_smi v) then EOk (as_smi v mod 2 ^ 8)
  else
    number_value ← to_number v;
    let f64_number := as_number number_value in
    if f64_eq f64_number 0 || negb (f64_is_finite f64_number) then EOk 0
    else
      let u8_max := 2 ^ 8 in
      let u8_number := round_to_i64 f64_number in
      EOk (Z.rem (Z.rem u8_number u8_max + u8_max) u8_max mod 2 ^ 8).

Definition to_uint8_clamp (v : Value) : EvalResult Z :=
  if is_smi v then
    let i32_value := as_smi v in
    if i32_value <=? 0 then EOk 0
    else if 255 <=? i32_value then EOk 255
    else EOk (i32_value mod 2 ^ 8)
  else
    number_value ← to_number v;
    let f64_number := as_number number_value in
    if f64_le f64_number 0 then EOk 0
    else if f64_le MAX_U8_AS_F64 f64_number then EOk 255
    else if f64_is_nan f64_number then EOk 0
    else
      let floor := f64_floor f64_number in
      if f64_lt (f64_add floor F64_HALF) f64_number
      then EOk (f64_as_int 0 255 (f64_add floor (f64_of_int 1)))
      else if f64_lt f64_number (f64_add floor F64_HALF)
      then EOk (f64_as_int 0 255 floor)
      else if f64_eq (f64_rem floor (f64_of_int 2)) (f64_of_int 1)
      then EOk (f64_as_int 0 255 (f64_add floor (f64_of_int 1)))
      else EOk (f64_as_int 0 255 floor).

(** ToLength and ToIndex. *)
Definition to_length (v : Value) : EvalResult Z :=
  len ← to_integer_or_infinity v;
  if f64_le len 0 then EOk 0
  else to_int_unchecked_u64 (f64_min len MAX_SAFE_INTEGER_F64).

Definition to_index (v : Value) : EvalResult Z :=
  if is_smi v then
    let smi := as_smi v in
    if smi <? 0 then EErr RangeError else EOk (as_u64 smi)
  else if is_undefined v then EOk 0
  else
    integer ← to_integer_or_infinity v;
    if negb (f64_le 0 integer && f64_le integer MAX_SAFE_INTEGER_F64)
    then EErr RangeError
    else EOk (f64_as_int 0 usize_max integer).

(** ** BigInts *)

Definition to_bigint (v : Value) : EvalResult Z :=
  primitive ← to_primitive v HintNumber;
  if is_pointer primitive then
    match kind_of primitive with
    | BigInt => EOk (bigint primitive)
    | String =>
        match parse_string_to_bigint (units_of primitive) with
        | Some b => EOk b
        | None => EErr SyntaxError
        end
    | _ => EErr TypeError
    end
  else if is_bool primitive then EOk (if as_bool primitive then 1 else 0)
  else EErr TypeError.

Definition to_big_int64 (v : Value) : EvalResult Z :=
  bigint ← to_bigint v;
  let u64_max := 2 ^ 64 in
  let i64_number := Z.rem (Z.rem bigint u64_max + u64_max) u64_max in
  EOk (if i64_max <? i64_number then i64_number - u64_max else i64_number).

Definition to_big_uint64 (v : Value) : EvalResult Z :=
  bigint ← to_bigint v;
  let u64_max := 2 ^ 64 in
  EOk (Z.rem (Z.rem bigint u64_max + u64_max) u64_max).

(** ** Equality *)

Definition is_integral_number (v : Value) : bool :=
  if is_smi v then true
  else if negb (is_double v) || is_nan v || is_infinity v then false
  else
    let number := as_double v in
    f64_eq (f64_trunc number) number.

Definition same_value_non_numeric (v1 v2 : Value) : bool :=
  if as_raw_bits v1 =? as_raw_bits v2 then true
  else if is_pointer v1 && is_pointer v2 && kind_eqb (kind_of v1) (kind_of v2) then
    match kind_of v1 with
    | String => flat_string_eq (units_of v1) (units_of v2)
    | BigInt => bigint v1 =? bigint v2
    | _ => false
    end
  else false.

Definition same_value (v1 v2 : Value) : bool :=
  if is_number v1 then
    if is_number v2 then
      if is_nan v1 && is_nan v2 then true
      else if (is_positive_zero v1 && is_negative_zero v2)
              || (is_negative_zero v1 && is_positive_zero v2) then false
      else f64_eq (as_number v1) (as_number v2)
    else false
  else same_value_non_numeric v1 v2.

Definition same_value_zero (v1 v2 : Value) : bool :=
  if is_number v1 then
    if is_number v2 then
      if is_nan v1 && is_nan v2 then true
      else f64_eq (as_number v1) (as_number v2)
    else false
  else same_value_non_numeric v1 v2.

Definition is_strictly_equal (v1 v2 : Value) : bool :=
  if is_number v1 then
    if is_number v2 then f64_eq (as_number v1) (as_number v2) else false
  else same_value_non_numeric v1 v2.

(** What [Hash] of [ValueCollectionKey] feeds to the hasher. *)
Inductive HashInput : Type :=
| HashWord (w : Z)
| HashUnits (u : list Z)
| HashBigInt (b : Z)
| HashCode (c : Z).

Definition collection_key_hash (v : Value) : HashInput :=
  if is_number v then
    if is_negative_zero v then HashWord (as_raw_bits (smi 0)) else HashWord (as_raw_bits v)
  else if is_pointer v then
    match kind_of v with
    | String => HashUnits (units_of v)
    | BigInt => HashBigInt (bigint v)
    | _ => HashCode (stable_hash heap (as_pointer v))
    end
  else HashWord (as_raw_bits v).

(** ** IsLessThan *)

(** [f.to_bigint().unwrap()]. *)
Definition unwrap_bigint (f : f64) : EvalResult Z :=
  match f64_to_bigint f with
  | None => EPanic
  | Some n => EOk n
  end.

Definition is_less_than_numeric (num_x num_y : Value) : EvalResult Value :=
  let x_is_bigint := is_bigint num_x in
  let y_is_bigint := is_bigint num_y in
  if eqb x_is_bigint y_is_bigint then
    if x_is_bigint then EOk (bool_value (bigint num_x <? bigint num_y))
    else if is_nan num_x || is_nan num_y then EOk undefined
    else EOk (bool_value (f64_lt (as_number num_x) (as_number num_y)))
  else if x_is_bigint then
    if is_nan num_y then EOk undefined
    else
      let y_f64 := as_number num_y in
      if f64_eq y_f64 F64_INFINITY then EOk (bool_value true)
      else if f64_eq y_f64 F64_NEG_INFINITY then EOk (bool_value false)
      else
        let y_has_fract := negb (f64_eq (f64_trunc y_f64) y_f64) in
        y_bigint ← unwrap_bigint y_f64;
        EOk (bool_value match bigint num_x ?= y_bigint with
                        | Lt => true
                        | Eq => if y_has_fract then f64_lt 0 y_f64 else false
                        | Gt => false
                        end)
  else
    if is_nan num_x then EOk undefined
    else
      let x_f64 := as_number num_x in
      if f64_eq x_f64 F64_INFINITY then EOk (bool_value false)
      else if f64_eq x_f64 F64_NEG_INFINITY then EOk (bool_value true)
      else
        let x_has_fract := negb (f64_eq (f64_trunc x_f64) x_f64) in
        x_bigint ← unwrap_bigint x_f64;
        EOk (bool_value match x_bigint ?= bigint num_y with
                        | Lt => true
                        | Eq => if x_has_fract then f64_lt x_f64 0 else false
                        | Gt => false
                        end).

Definition is_less_than (x y : Value) : EvalResult Value :=
  let numeric :=
    num_x ← to_numeric x;
    num_y ← to_numeric y;
    is_less_than_numeric num_x num_y in
  if is_pointer x && is_pointer y then
    match kind_of x, kind_of y with
    | String, String => EOk (bool_value (is_lt (flat_string_cmp (units_of x) (units_of y))))
    | String, BigInt =>
        match parse_string_to_bigint (units_of x) with
        | Some x_bigint => EOk (bool_value (x_bigint <? bigint y))
        | None => EOk undefined
        end
    | BigInt, String =>
        match parse_string_to_bigint (units_of y) with
        | Some y_bigint => EOk (bool_value (bigint x <? y_bigint))
        | None => EOk undefined
        end
    | _, _ => numeric
    end
  else numeric.

(** ** IsLooselyEqual *)

(** A number against a BigInt. *)
Definition number_equals_bigint (num : Value) (b : Z) : EvalResult bool :=
  if is_nan num || is_infinity num then EOk false
  else
    let f := as_number num in
    if negb (f64_eq (f64_trunc f) f) then EOk false
    else n ← unwrap_bigint f; EOk (n =? b).

(** The part for a Number on the left; [loosely] is the recursive call. *)
Definition loosely_equal_number (loosely : Value -> Value -> EvalResult bool)
    (v1 v2 : Value) : EvalResult bool :=
  if is_number v2 then EOk (f64_eq (as_number v1) (as_number v2))
  else if is_pointer v2 then
    match kind_of v2 with
    | String => EOk (f64_eq (as_number v1) (as_number (string_to_number v2)))
    | BigInt => number_equals_bigint v1 (bigint v2)
    | Symbol => EOk false
    | _ =>
        primitive_v2 ← to_primitive v2 HintNone;
        loosely v1 primitive_v2
    end
  else if is_bool v2 then
    v2_number ← to_number v2;
    loosely v1 v2_number
  else EOk false.

(** The comparisons that convert between types. *)
Definition loosely_equal_convert (loosely : Value -> Value -> EvalResult bool)
    (v1 v2 : Value) : EvalResult bool :=
  let tag1 := get_tag v1 in
  let tag2 := get_tag v2 in
  if ((tag1 =? NULL_TAG) && (tag2 =? UNDEFINED_TAG))
     || ((tag1 =? UNDEFINED_TAG) && (tag2 =? NULL_TAG)) then EOk true
  else if tag1 =? BOOL_TAG then
    v1_number ← to_number v1;
    loosely v1_number v2
  else if tag2 =? BOOL_TAG then
    v2_number ← to_number v2;
    loosely v1 v2_number
  else if (tag2 =? SMI_TAG) || is_double v2 then
    if tag1 =? POINTER_TAG then
      match kind_of v1 with
      | String => EOk (f64_eq (as_number (string_to_number v1)) (as_number v2))
      | BigInt => number_equals_bigint v2 (bigint v1)
      | Symbol => EOk false
      | _ =>
          v1_primitive ← to_primitive v1 HintNone;
          loosely v1_primitive v2
      end
    else EOk false
  else if (tag1 =? POINTER_TAG) && (tag2 =? POINTER_TAG) then
    if kind_eqb (kind_of v1) String && kind_eqb (kind_of v2) BigInt then
      match parse_string_to_bigint (units_of v1) with
      | Some v1_bigint => EOk (v1_bigint =? bigint v2)
      | None => EOk false
      end
    else if kind_eqb (kind_of v1) BigInt && kind_eqb (kind_of v2) String then
      match parse_string_to_bigint (units_of v2) with
      | Some v2_bigint => EOk (bigint v1 =? v2_bigint)
      | None => EOk false
      end
    else if kind_is_object (kind_of v1) then
      v1_primitive ← to_primitive v1 HintNone;
      loosely v1_primitive v2
    else if kind_is_object (kind_of v2) then
      primitive_v2 ← to_primitive v2 HintNone;
      loosely v1 primitive_v2
    else EOk false
  else EOk false.

Fixpoint is_loosely_equal_fuel (fuel : nat) (v1 v2 : Value) : EvalResult bool :=
  match fuel with
  | O => EOutOfFuel
  | S fuel' =>
    let loosely := is_loosely_equal_fuel fuel' in
    if is_number v1 then loosely_equal_number loosely v1 v2
    else if as_raw_bits v1 =? as_raw_bits v2 then EOk true
    else if get_tag v1 =? get_tag v2 then
      if get_tag v1 =? POINTER_TAG then
        if kind_eqb (kind_of v1) (kind_of v2) then
          EOk match kind_of v1 with
              | String => flat_string_eq (units_of v1) (units_of v2)
              | BigInt => bigint v1 =? bigint v2
              | _ => false
              end
        else if kind_is_object (kind_of v1) && kind_is_object (kind_of v2) then EOk false
        else loosely_equal_convert loosely v1 v2
      else EOk false
    else loosely_equal_convert loosely v1 v2
  end.

(** Each round turns an object or a boolean into another primitive; four rounds are enough. *)
Definition is_loosely_equal : Value -> Value -> EvalResult bool := is_loosely_equal_fuel 4.

End Conversions.
