(* ===== verification/TypeUtilitiesCorrect.v ===== *)
(** Correctness of the numeric conversions and of the comparisons of values.

    Numbers are compared with their exact mathematical value: [f64_scaled] is
    the value times 2^1074, [f64_integer_part] its integer part. *)

From S2P Require Import Prelude Float64 Value ValueCorrect Descriptors TypeUtilities.
Import Kind.

(** ** Rounding to machine integers *)

(** ToInt32, ToUint32, ... of ECMA-262: the integer part modulo 2^w, centred
    around zero for the signed ones; 0 for NaN and the infinities. *)
Definition ecma_modular (signed : bool) (w : Z) (f : f64) : Z :=
  if f64_is_finite f then
    let m := f64_integer_part f mod 2 ^ w in
    if signed && (2 ^ (w - 1) <=? m) then m - 2 ^ w else m
  else 0.

Lemma f64_abs_finite f : f64_is_finite (f64_abs f) = f64_is_finite f.
Proof. unfold f64_is_finite, f64_abs. by rewrite Zmod_mod. Qed.

Lemma f64_zero_scaled : f64_scaled 0 = 0 /\ f64_is_nan 0 = false.
Proof. done. Qed.

Lemma f64_lt_zero f : f64_is_nan f = false -> f64_lt f 0 = (f64_scaled f <? 0).
Proof. intros H. unfold f64_lt. by rewrite H. Qed.

Lemma f64_eq_zero f : f64_is_nan f = false -> f64_eq f 0 = (f64_scaled f =? 0).
Proof. intros H. unfold f64_eq. by rewrite H. Qed.

Lemma f64_floor_finite f : f64_is_finite f = true -> f64_is_nan (f64_floor f) = false.
Proof. intros H. unfold f64_floor. rewrite H. apply f64_round_not_nan. Qed.

(** The integer part of [abs().floor()]. *)
Lemma floor_abs_integer_part f :
  f64_is_finite f = true ->
  f64_integer_part (f64_floor (f64_abs f)) = Z.abs (f64_integer_part f).
Proof.
  intros Hf. unfold f64_integer_part at 1. pose proof F64_ONE_pos.
  rewrite f64_scaled_floor by by rewrite f64_abs_finite.
  rewrite Z.quot_mul by lia. rewrite f64_scaled_abs.
  unfold f64_integer_part.
  rewrite <- (Z.quot_abs (f64_scaled f)), (Z.abs_eq F64_ONE_SCALED) by lia.
  rewrite Z.quot_div_nonneg by lia. done.
Qed.

Lemma integer_part_sign f :
  (f64_scaled f < 0 -> f64_integer_part f <= 0) /\ (0 <= f64_scaled f -> 0 <= f64_integer_part f).
Proof.
  pose proof F64_ONE_pos. unfold f64_integer_part. split; intros.
  - rewrite <- (Z.opp_involutive (f64_scaled f)), Z.quot_opp_l by lia.
    pose proof (Z.quot_pos (- f64_scaled f) F64_ONE_SCALED). lia.
  - apply Z.quot_pos; lia.
Qed.

Lemma round_to_i64_exact f :
  f64_is_finite f = true -> Z.abs (f64_integer_part f) < 2 ^ 63 ->
  round_to_i64 f = f64_integer_part f.
Proof.
  intros Hf Hb. unfold round_to_i64.
  rewrite f64_lt_zero by by apply f64_is_finite_not_nan.
  unfold f64_as_int. rewrite f64_floor_finite by by rewrite f64_abs_finite.
  rewrite floor_abs_integer_part by done.
  unfold clamp, i64_min, i64_max. pose proof (integer_part_sign f).
  destruct (Z.ltb_spec (f64_scaled f) 0); lia.
Qed.

Lemma modulo_spec a b : 0 < b -> modulo a b = a mod b.
Proof.
  intros Hb. unfold modulo.
  assert (Z.abs (Z.rem a b) < Z.abs b) by (apply Z.rem_bound_abs; lia).
  pose proof (Z.quot_rem' a b).
  rewrite (Z.rem_mod_nonneg (Z.rem a b + b)) by lia.
  replace (Z.rem a b + b) with (a + (1 - Z.quot a b) * b)
by lia.
  apply Z.mod_add. lia.
Qed.

(** The shared tail of the conversions: zero test, rounding, modulus. *)
Lemma conversion_core f w :
  Z.abs (f64_integer_part f) < 2 ^ 63 -> 0 < w ->
  (f64_eq f 0 || negb (f64_is_finite f) = true -> forall s, ecma_modular s w f = 0) /\
  (f64_eq f 0 || negb (f64_is_finite f) = false ->
   f64_is_finite f = true /\
   modulo (round_to_i64 f) (2 ^ w) = f64_integer_part f mod 2 ^ w /\
   0 <= f64_integer_part f mod 2 ^ w < 2 ^ w).
Proof.
  intros Hb Hw. assert (0 < 2 ^ w) by (apply Z.pow_pos_nonneg; lia). split.
  - intros [E|E]%orb_true_iff s; unfold ecma_modular.
    + unfold f64_eq in E. rewrite !andb_true_iff, Z.eqb_eq in E.
      destruct E as [_ E]. rewrite (proj1 f64_zero_scaled) in E.
      unfold f64_integer_part. rewrite E, Z.quot_0_l, Z.mod_0_l by (pose proof F64_ONE_pos; lia).
      assert (0 < 2 ^ (w - 1)) by (apply Z.pow_pos_nonneg; lia).
      rewrite (proj2 (Z.leb_gt _ _)) by lia. rewrite andb_false_r. by case_match.
    + apply negb_true_iff in E. by rewrite E.
  - intros [_ Hf%negb_false_iff]%orb_false_iff.
    rewrite round_to_i64_exact, modulo_spec by done.
    split_and!; [done|done|apply Z.mod_pos_bound; lia..].
Qed.

(** A word already in range is its own signed cast; in general the cast is the
    centred residue. *)
Lemma cast_signed_spec w n :
  cast_signed w n = let m := n mod 2 ^ w in if 2 ^ (w - 1) <=? m then m - 2 ^ w else m.
Proof. unfold cast_signed. cbn zeta. repeat case_match; lia. Qed.

Lemma cast_signed_idem w m : 0 < w ->
  0 <= m < 2 ^ w ->
  cast_signed w (if 2 ^ (w - 1) <=? m then m - 2 ^ w else m)
  = if 2 ^ (w - 1) <=? m then m - 2 ^ w else m.
Proof.
  intros Hw Hm. rewrite cast_signed_spec. cbn zeta.
  assert (0 < 2 ^ w) by (apply Z.pow_pos_nonneg; lia).
  replace ((if 2 ^ (w - 1) <=? m then m - 2 ^ w else m) mod 2 ^ w) with m; [done|].
  case_match; [|by rewrite Z.mod_small].
  replace (m - 2 ^ w) with (m + (-1) * 2 ^ w) by lia.
  by rewrite Z.mod_add, Z.mod_small by lia.
Qed.

(** ** Values that are numbers *)

Definition well_formed (v : Value) : Prop := exists w, view_ok w /\ v = encode_view w.

Lemma well_formed_number f : f64_ok f -> well_formed (number f).
Proof.
  intros Hf. exists (number_view f). split; [by apply number_view_ok|apply number_is_view].
Qed.

Lemma f64_of_int_integer_part n :
  Z.abs n < 2 ^ 53 -> f64_integer_part (f64_of_int n) = n.
Proof.
  intros Hn. unfold f64_integer_part. rewrite f64_scaled_of_int by done.
  apply Z.quot_mul. pose proof F64_ONE_pos. lia.
Qed.

Lemma f64_of_int_finite n : Z.abs n < 2 ^ 53 -> f64_is_finite (f64_of_int n) = true.
Proof.
  intros Hn. destruct (f64_class (f64_of_int n)) as [H|[H|H]]; [| |done].
  - unfold f64_of_int in H. by rewrite f64_round_not_nan in H.
  - apply f64_infinite_scaled in H. rewrite f64_scaled_of_int in H by done.
    rewrite Z.abs_mul in H. unfold F64_ONE_SCALED in H.
    rewrite (Z.abs_eq (2 ^ 1074)) in H by done.
    assert (2 ^ 2098 = 2 ^ 1024 * 2 ^ 1074) as E by done. rewrite E in H.
    apply Z.mul_reg_r in H; [|done].
    assert (2 ^ 53 <= 2 ^ 1024) by done. set (x := 2 ^ 1024) in *. lia.
Qed.

(** A number is a small integer, read as that integer, or a double. *)
Lemma number_cases v :
  well_formed v -> is_number v = true ->
  (exists n, i32_min <= n <= i32_max /\ v = smi n /\ is_smi v = true /\ as_smi v = n /\
             as_number v = f64_of_int n) \/
  (exists d, canonical_double d /\ v = double d /\ is_smi v = false /\ as_number v = d).
Proof.
  intros (w & Hok & ->) Hn. rewrite is_number_view in Hn by done.
  rewrite as_number_view, is_smi_view by done.
  destruct w; try done; cbn in *.
  - left. exists n. by rewrite as_smi_view.
  - right. by exists d.
Qed.

Section ConversionLaws.

Context (heap : ItemHeap) (convert_object : Value -> ToPrimitivePreferredType -> EvalResult Value).
Context (parse_number : list Z -> option f64).

Lemma to_number_number v :
  is_number v = true -> to_number heap convert_object parse_number v = EOk v.
Proof. intros H. unfold to_number. cbn. by rewrite H. Qed.

(** Small integers: the fast paths compute the same residue. *)
Lemma smi_modular n s w :
  i32_min <= n <= i32_max -> 
  ecma_modular s w (f64_of_int n) =
  let m := n mod 2 ^ w in if s && (2 ^ (w - 1) <=? m) then m - 2 ^ w else m.
Proof.
  intros Hn. unfold i32_min, i32_max in Hn. unfold ecma_modular.
  by rewrite f64_of_int_finite, f64_of_int_integer_part by lia.
Qed.

Lemma smi_in_range n : i32_min <= n <= i32_max -> cast_signed 32 n = n.
Proof.
  unfold i32_min, i32_max, cast_signed. intros.
  change (2 ^ (32 - 1)) with (2 ^ 31). case_match; div_lia.
Qed.

(** Signed conversions: centring after the modulus. *)
Lemma signed_tail f w :
  0 < w -> Z.abs (f64_integer_part f) < 2 ^ 63 ->
  f64_eq f 0 || negb (f64_is_finite f) = false ->
  (let m := modulo (round_to_i64 f) (2 ^ w) in
   cast_signed w (if 2 ^ (w - 1) <=? m then m - 2 ^ w else m)) = ecma_modular true w f.
Proof.
  intros Hw Hb E. destruct (conversion_core f w Hb Hw) as [_ Hc].
  destruct (Hc E) as (Hf & -> & Hr). cbn zeta.
  rewrite cast_signed_idem by done. unfold ecma_modular. by rewrite Hf.
Qed.

Lemma unsigned_tail f w :
  0 < w -> Z.abs (f64_integer_part f) < 2 ^ 63 ->
  f64_eq f 0 || negb (f64_is_finite f) = false ->
  modulo (round_to_i64 f) (2 ^ w) mod 2 ^ w = ecma_modular false w f.
Proof.
  intros Hw Hb E. destruct (conversion_core f w Hb Hw) as [_ Hc].
  destruct (Hc E) as (Hf & -> & Hr). rewrite Z.mod_small by done.
  unfold ecma_modular. by rewrite Hf.
Qed.

Lemma zero_tail f s w :
  0 < w -> Z.abs (f64_integer_part f) < 2 ^ 63 ->
  f64_eq f 0 || negb (f64_is_finite f) = true -> ecma_modular s w f = 0.
Proof. intros Hw Hb E. by apply (conversion_core f w Hb Hw). Qed.

Lemma half16 m : (32767 <? m) = (2 ^ (16 - 1) <=? m).
Proof. change (2 ^ (16 - 1)) with 32768. lia. Qed.

Lemma half8 m : (127 <? m) = (2 ^ (8 - 1) <=? m).
Proof. change (2 ^ (8 - 1)) with 128. lia. Qed.

Ltac double_conversion Hb :=
  match goal with
  | |- context [if ?c then EOk 0 else _] =>
      let E := fresh in
      destruct c eqn:E; f_equal; symmetry;
      [by apply zero_tail
      |first [exact (eq_sym (signed_tail _ 32 eq_refl Hb E))
             |exact (eq_sym (signed_tail _ 16 eq_refl Hb E))
             |exact (eq_sym (signed_tail _ 8 eq_refl Hb E))
             |exact (eq_sym (unsigned_tail _ 32 eq_refl Hb E))
             |exact (eq_sym (unsigned_tail _ 16 eq_refl Hb E))
             |exact (eq_sym (unsigned_tail _ 8 eq_refl Hb E))]]
  end.

(** C27: on every number whose integer part has a magnitude below 2^63, ToInt32, ToUint32,
    ToInt16, ToUint16, ToInt8 and ToUint8 return what ECMA-262 prescribes, the
    integer part modulo 2^w (centred around zero for the signed ones), on the
    small-integer fast paths as well as on doubles. *)
Theorem fixed_width_conversions_exact v :
  well_formed v -> is_number v = true ->
  Z.abs (f64_integer_part (as_number v)) < 2 ^ 63 ->
  to_int32 heap convert_object parse_number v = EOk (ecma_modular true 32 (as_number v)) /\
  to_uint32 heap convert_object parse_number v = EOk (ecma_modular false 32 (as_number v)) /\
  to_int16 heap convert_object parse_number v = EOk (ecma_modular true 16 (as_number v)) /\
  to_uint16 heap convert_object parse_number v = EOk (ecma_modular false 16 (as_number v)) /\
  to_int8 heap convert_object parse_number v = EOk (ecma_modular true 8 (as_number v)) /\
  to_uint8 heap convert_object parse_number v = EOk (ecma_modular false 8 (as_number v)).
Proof.
  intros Hwf Hn Hb.
  unfold to_int32, to_uint32, to_int16, to_uint16, to_int8, to_uint8.
  rewrite to_number_number by done. cbn [mbind EvalResult_bind].
  rewrite half16, half8.
  destruct (number_cases v Hwf Hn) as [(n & Hr & -> & Hs & Ha & Hf)|(d & Hd & -> & Hs & Hf)];
    rewrite Hs, ?Ha in *; cbn [andb].
  - rewrite Hf in *. split_and!;
      try (destruct (Z.leb_spec 0 n); [|double_conversion Hb]);
      f_equal; rewrite smi_modular by done; cbn zeta; cbn [andb];
      rewrite <- ?cast_signed_spec, ?smi_in_range by done; done.
  - split_and!; double_conversion Hb.
Qed.

(** from 2^63 on the saturating cast makes ToInt32 and ToUint32 wrong: 2^63
    converts to -1 and 4294967295, and -2^63, whose magnitude saturates, to 1,
    where ECMA-262 gives 0. *)
Theorem to_int32_saturates :
  let v := number (f64_of_int (2 ^ 63)) in
  let w := number (f64_of_int (- 2 ^ 63)) in
  to_int32 heap convert_object parse_number v = EOk (-1) /\
  to_uint32 heap convert_object parse_number v = EOk 4294967295 /\
  to_int32 heap convert_object parse_number w = EOk 1 /\
  ecma_modular true 32 (as_number v) = 0 /\ ecma_modular false 32 (as_number v) = 0 /\
  ecma_modular true 32 (as_number w) = 0.
Proof. vm_compute. done. Qed.

(** ** ToUint8Clamp *)

(** ECMA-262: clamp to [0, 255], then round to nearest, ties to even. *)
Definition ecma_uint8_clamp (f : f64) : Z :=
  if f64_is_nan f then 0
  else round_shift (clamp 0 (255 * F64_ONE_SCALED) (f64_scaled f)) 1074.

Lemma round_shift_one q : round_shift (q * F64_ONE_SCALED) 1074 = q.
Proof. by apply round_shift_exact. Qed.

Lemma f64_add_scaled a b :
  f64_is_finite a = true -> f64_is_finite b = true ->
  f64_representable (f64_scaled a + f64_scaled b) ->
  f64_is_nan (f64_add a b) = false /\ f64_scaled (f64_add a b) = f64_scaled a + f64_scaled b.
Proof.
  intros Ha Hb Hr. unfold f64_add.
  rewrite (f64_is_finite_not_nan a Ha), (f64_is_finite_not_nan b Hb).
  assert (f64_is_infinite a = false) as -> by (unfold f64_is_finite, f64_is_infinite in *; lia).
  assert (f64_is_infinite b = false) as -> by (unfold f64_is_finite, f64_is_infinite in *; lia).
  cbn [orb]. split; [apply f64_round_not_nan|by apply f64_scaled_round].
Qed.

Lemma f64_finite_of_scaled b :
  f64_is_nan b = false -> Z.abs (f64_scaled b) < 2 ^ 2098 -> f64_is_finite b = true.
Proof.
  intros Hn Hb. destruct (f64_class b) as [H|[H|H]]; [congruence| |done].
  apply f64_infinite_scaled in H. lia.
Qed.

Lemma f64_as_int_exact lo hi b n :
  f64_is_nan b = false -> f64_scaled b = n * F64_ONE_SCALED -> lo <= n <= hi ->
  f64_as_int lo hi b = n.
Proof.
  intros Hn Hs Hr. unfold f64_as_int, f64_integer_part. rewrite Hn, Hs.
  pose proof F64_ONE_pos. rewrite Z.quot_mul by lia. unfold clamp. lia.
Qed.

(** Small integers and halves are representable. *)
Lemma half_representable q : 0 <= q < 2 ^ 50 ->
  f64_representable (q * F64_ONE_SCALED + 2 ^ 1073).
Proof.
  intros Hq. exists (2 * q + 1), 1073.
  assert (E : F64_ONE_SCALED = 2 * 2 ^ 1073) by done.
  assert (0 < 2 ^ 1073) by done. rewrite E. set (h := 2 ^ 1073) in *.
  split; [|lia]. rewrite Z.abs_eq by nia. lia.
Qed.

Lemma small_scaled_bound q : 0 <= q <= 256 -> q * F64_ONE_SCALED < 2 ^ 2098.
Proof.
  intros Hq. assert (256 * F64_ONE_SCALED < 2 ^ 2098) by done.
  pose proof F64_ONE_pos. set (x := 2 ^ 2098) in *. nia.
Qed.

(** What the intermediate numbers of the rounding are. *)
Lemma clamp_intermediates f :
  f64_is_nan f = false -> 0 < f64_scaled f < 255 * F64_ONE_SCALED ->
  let q := f64_scaled f / F64_ONE_SCALED in
  let floor := f64_floor f in
  0 <= q < 255 /\
  (f64_is_nan floor = false /\ f64_scaled floor = q * F64_ONE_SCALED) /\
  (f64_is_nan (f64_add floor F64_HALF) = false /\
   f64_scaled (f64_add floor F64_HALF) = q * F64_ONE_SCALED + 2 ^ 1073) /\
  (f64_is_nan (f64_add floor (f64_of_int 1)) = false /\
   f64_scaled (f64_add floor (f64_of_int 1)) = (q + 1) * F64_ONE_SCALED) /\
  f64_eq (f64_rem floor (f64_of_int 2)) (f64_of_int 1) = Z.odd q.
Proof.
  intros Hn Hx. cbn zeta. pose proof F64_ONE_pos as Hone.
  assert (Hf : f64_is_finite f = true).
  { apply f64_finite_of_scaled; [done|]. pose proof (small_scaled_bound 255). lia. }
  assert (Hq : 0 <= f64_scaled f / F64_ONE_SCALED < 255).
  { split; [apply Z.div_pos; lia|apply Z.div_lt_upper_bound; lia]. }
  pose proof (f64_scaled_floor f Hf) as Hfl. pose proof (f64_floor_finite f Hf) as Hnf.
  set (q := f64_scaled f / F64_ONE_SCALED) in *. set (fl := f64_floor f) in *.
  assert (Hff : f64_is_finite fl = true).
  { apply f64_finite_of_scaled; [done|]. rewrite Hfl.
    pose proof (small_scaled_bound q). lia. }
  assert (Hhalf : f64_scaled F64_HALF = 2 ^ 1073) by done.
  assert (Hf1 : f64_scaled (f64_of_int 1) = 1 * F64_ONE_SCALED) by by apply f64_scaled_of_int.
  assert (Hfin1 : f64_is_finite (f64_of_int 1) = true) by by apply f64_of_int_finite.
  split; [exact Hq|]. split; [exact (conj Hnf Hfl)|]. split; [|split].
  - rewrite <- Hhalf, <- Hfl. apply f64_add_scaled; [done|done|].
    rewrite Hfl, Hhalf. apply half_representable. lia.
  - replace ((q + 1) * F64_ONE_SCALED) with (f64_scaled fl + f64_scaled (f64_of_int 1)) by lia.
    apply f64_add_scaled; [exact Hff|exact Hfin1|].
    rewrite Hfl, Hf1, <- Z.mul_add_distr_r. apply f64_of_int_representable. lia.
  - unfold f64_rem. rewrite Hnf.
    assert (f64_is_infinite fl = false) as -> by (unfold f64_is_finite, f64_is_infinite in *; lia).
    assert (f64_scaled (f64_of_int 2) = 2 * F64_ONE_SCALED) as -> by by apply f64_scaled_of_int.
    assert (f64_is_nan (f64_of_int 2) = false) as -> by apply f64_round_not_nan.
    assert (f64_is_infinite (f64_of_int 2) = false) as -> by (vm_compute; reflexivity).
    rewrite (proj2 (Z.eqb_neq _ _)) by lia. cbn [orb].
    rewrite Hfl, Z.mul_rem_distr_r, Z.rem_mod_nonneg by lia.
    unfold f64_eq. rewrite f64_round_not_nan, Hf1.
    assert (f64_is_nan (f64_of_int 1) = false) as -> by apply f64_round_not_nan. cbn [negb andb].
    rewrite f64_scaled_round by (apply f64_of_int_representable; div_lia).
    rewrite Zmod_odd. destruct (Z.odd q); lia.
Qed.

(** The two comparisons with the half-way point select the nearest integer. *)
Lemma clamp_compare x :
  (let q := x / F64_ONE_SCALED in
   if q * F64_ONE_SCALED + 2 ^ 1073 <? x then EOk (q + 1)
   else if x <? q * F64_ONE_SCALED + 2 ^ 1073 then EOk q
   else if Z.odd q then EOk (q + 1) else EOk q) = EOk (round_shift x 1074).
Proof.
  unfold round_shift. change (2 ^ 1074) with F64_ONE_SCALED. cbn zeta.
  pose proof (Z.div_mod x F64_ONE_SCALED) as Hx. pose proof F64_ONE_pos.
  assert (E : F64_ONE_SCALED = 2 * 2 ^ 1073) by done.
  set (q := x / F64_ONE_SCALED) in *. set (r := x mod F64_ONE_SCALED) in *.
  set (h := 2 ^ 1073) in *. rewrite E in Hx |- *. clearbody q r h.
  destruct (Z.ltb_spec (q * (2 * h) + h) x), (Z.ltb_spec (2 * h) (2 * r)); try lia; [done|].
  destruct (Z.ltb_spec x (q * (2 * h) + h)), (Z.eqb_spec (2 * r) (2 * h)); try lia; [done|].
  cbn [orb andb]. by destruct (Z.odd q).
Qed.

(** ToUint8Clamp returns the number clamped to [0, 255] and rounded to the
    nearest integer with ties to even, and 0 for NaN, for every number. *)
Theorem to_uint8_clamp_rounds_half_even v :
  well_formed v -> is_number v = true ->
  to_uint8_clamp heap convert_object parse_number v = EOk (ecma_uint8_clamp (as_number v)).
Proof.
  intros Hwf Hn. unfold to_uint8_clamp, ecma_uint8_clamp.
  rewrite to_number_number by done. cbn [mbind EvalResult_bind]. pose proof F64_ONE_pos.
  destruct (number_cases v Hwf Hn) as [(n & Hr & -> & Hs & Ha & Hf)|(d & Hd & -> & Hs & Hf)];
    rewrite Hs, Hf; rewrite ?Ha.
  - unfold i32_min, i32_max in Hr.
    rewrite f64_is_finite_not_nan by (apply f64_of_int_finite; lia).
    rewrite f64_scaled_of_int by lia.
    replace (clamp 0 (255 * F64_ONE_SCALED) (n * F64_ONE_SCALED))
      with (clamp 0 255 n * F64_ONE_SCALED) by (unfold clamp; nia).
    rewrite round_shift_one. unfold clamp.
    destruct (Z.leb_spec n 0); [f_equal; lia|]. destruct (Z.leb_spec 255 n); f_equal; [lia|].
    rewrite Z.mod_small; lia.
  - destruct (f64_is_nan d) eqn:En.
    { unfold f64_le. rewrite En. by rewrite andb_false_r. }
    assert (f64_scaled MAX_U8_AS_F64 = 255 * F64_ONE_SCALED) as E255 by by apply f64_scaled_of_int.
    unfold f64_le. rewrite En, E255, (proj1 f64_zero_scaled).
    assert (f64_is_nan MAX_U8_AS_F64 = false) as -> by apply f64_round_not_nan.
    assert (f64_is_nan 0 = false) as -> by done. cbn [negb andb].
    destruct (Z.leb_spec (f64_scaled d) 0) as [|Hpos].
    { f_equal. unfold clamp.
      replace (Z.max _ _) with (0 * F64_ONE_SCALED) by lia. by rewrite round_shift_one. }
    destruct (Z.leb_spec (255 * F64_ONE_SCALED) (f64_scaled d)) as [|Hlt].
    { f_equal. unfold clamp.
      replace (Z.max _ _) with (255 * F64_ONE_SCALED) by lia. by rewrite round_shift_one. }
    destruct (clamp_intermediates d En ltac:(lia)) as (Hq & [Hn1 Hs1] & [Hn2 Hs2] & [Hn3 Hs3] & ->).
    unfold f64_lt. rewrite Hn2, En, Hs2.
    rewrite (f64_as_int_exact 0 255 (f64_floor d) _ Hn1 Hs1) by lia.
    rewrite (f64_as_int_exact 0 255 (f64_add _ (f64_of_int 1)) _ Hn3 Hs3) by lia.
    cbn [negb andb]. unfold clamp.
    replace (Z.max 0 (Z.min (255 * F64_ONE_SCALED) (f64_scaled d))) with (f64_scaled d) by lia.
    apply clamp_compare.
Qed.

Lemma f64_infinite_pattern f :
  f64_ok f -> f64_is_infinite f = true ->
  f = if f64_sign f then F64_NEG_INFINITY else F64_INFINITY.
Proof.
  intros Hok Hi%Z.eqb_eq. rewrite (f64_split f Hok) at 1. rewrite Hi.
  by destruct (f64_sign f).
Qed.

Lemma well_formed_number_facts v :
  well_formed v -> is_number v = true ->
  is_nan v = f64_is_nan (as_number v) /\ f64_ok (as_number v).
Proof.
  intros (w & Hok & ->) Hn. rewrite is_number_view in Hn by done.
  rewrite is_nan_view, as_number_view by done. destruct w; try done.
  - cbn in Hok. unfold i32_min, i32_max in Hok.
    rewrite f64_is_finite_not_nan by (apply f64_of_int_finite; lia).
    split; [done|apply f64_round_ok].
  - destruct Hok as [Hd Hc]. split; [done|exact Hd].
Qed.

(** ** ToIntegerOrInfinity, ToLength, ToIndex *)

Lemma f64_neg_facts b :
  f64_ok b -> f64_abs (f64_neg b) = f64_abs b /\ f64_scaled (f64_neg b) = - f64_scaled b.
Proof.
  intros Hok. assert (Ha : f64_abs (f64_neg b) = f64_abs b).
  { unfold f64_neg, f64_abs, f64_sign, f64_ok, F64_SIGN in *. case_match; div_lia. }
  split; [done|]. unfold f64_scaled. rewrite Ha.
  assert (f64_sign (f64_neg b) = negb (f64_sign b)) as ->.
  { unfold f64_neg, f64_sign, f64_ok, F64_SIGN in *. case_match; lia. }
  destruct (f64_sign b); cbn; lia.
Qed.

Lemma f64_floor_ok b : f64_ok b -> f64_ok (f64_floor b).
Proof. intros. unfold f64_floor. case_match; [apply f64_round_ok|done]. Qed.

Lemma f64_abs_ok b : f64_ok (f64_abs b).
Proof. pose proof (f64_abs_range b). unfold f64_ok, F64_SIGN in *. lia. Qed.

(** A finite number becomes its integer part. *)
Lemma to_integer_finite f :
  f64_ok f -> f64_is_finite f = true ->
  f64_is_nan (to_integer_or_infinity_f64 f) = false /\
  f64_scaled (to_integer_or_infinity_f64 f) = f64_integer_part f * F64_ONE_SCALED.
Proof.
  intros Hok Hf. pose proof (f64_is_finite_not_nan f Hf) as Hn.
  unfold to_integer_or_infinity_f64. rewrite Hn, f64_eq_zero, f64_lt_zero by done. cbn [orb].
  assert (f64_is_infinite f = false) as -> by (unfold f64_is_finite, f64_is_infinite in *; lia).
  destruct (Z.eqb_spec (f64_scaled f) 0) as [E|].
  { split; [done|]. unfold f64_integer_part. rewrite E, Z.quot_0_l; [done|]. pose proof F64_ONE_pos. lia. }
  assert (Hfa : f64_is_finite (f64_abs f) = true) by by rewrite f64_abs_finite.
  pose proof (f64_floor_finite _ Hfa) as Hnf.
  pose proof (f64_floor_ok _ (f64_abs_ok f)) as Hofl.
  destruct (f64_neg_facts _ Hofl) as [Hna Hns].
  assert (Hs : f64_scaled (f64_floor (f64_abs f)) = Z.abs (f64_integer_part f) * F64_ONE_SCALED).
  { rewrite <- floor_abs_integer_part by done. unfold f64_integer_part.
    rewrite f64_scaled_floor by done. rewrite Z.quot_mul; [done|]. pose proof F64_ONE_pos. lia. }
  rewrite f64_eq_zero, Hs by done. pose proof (integer_part_sign f).
  destruct (Z.ltb_spec (f64_scaled f) 0) as [Hneg|Hpos]; cbn [andb].
  - destruct (Z.eqb_spec (Z.abs (f64_integer_part f) * F64_ONE_SCALED) 0) as [E|E]; cbn [negb].
    + split; [done|]. rewrite Hs. pose proof F64_ONE_pos. lia.
    + split; [unfold f64_is_nan; rewrite Hna; exact Hnf|]. rewrite Hns, Hs.
      rewrite Z.abs_neq by lia. lia.
  - split; [done|]. rewrite Hs, Z.abs_eq by lia. done.
Qed.

Lemma to_integer_infinite f :
  f64_is_infinite f = true -> to_integer_or_infinity_f64 f = f.
Proof.
  intros Hi. unfold to_integer_or_infinity_f64. rewrite Hi.
  assert (Hn : f64_is_nan f = false) by (unfold f64_is_infinite, f64_is_nan in *; lia).
  rewrite Hn, f64_eq_zero by done. pose proof (f64_infinite_scaled f Hi) as Hs. cbn [orb].
  destruct (Z.eqb_spec (f64_scaled f) 0) as [E|]; [|done]. by rewrite E in Hs.
Qed.

(** The integer ECMA-262's ToIntegerOrInfinity stands for; infinities are
    beyond every bound. *)
Definition integer_or_zero (f : f64) : Z := if f64_is_nan f then 0 else f64_integer_part f.

Lemma max_safe_facts :
  f64_is_nan MAX_SAFE_INTEGER_F64 = false /\ f64_is_finite MAX_SAFE_INTEGER_F64 = true /\
  f64_scaled MAX_SAFE_INTEGER_F64 = (2 ^ 53 - 1) * F64_ONE_SCALED.
Proof. split_and!; vm_compute; reflexivity. Qed.

Lemma finite_below_max g :
  f64_is_nan g = false -> f64_le g MAX_SAFE_INTEGER_F64 = true -> f64_le g 0 = false ->
  f64_is_finite g = true.
Proof.
  intros Hn Hl Hp. apply f64_finite_of_scaled; [done|].
  destruct max_safe_facts as (Mn & Mf & Ms). pose proof (f64_is_finite_bound _ Mf).
  unfold f64_le in Hl, Hp. rewrite Hn, ?Mn in Hl, Hp. cbn [negb andb] in Hl, Hp.
  assert (f64_is_nan 0 = false) as E by done. rewrite E, (proj1 f64_zero_scaled) in Hp.
  cbn [negb andb] in Hp. lia.
Qed.

(** Comparisons of the intermediate integer with 0 and 2^53 - 1. *)
Lemma to_integer_compare f :
  f64_ok f ->
  let g := to_integer_or_infinity_f64 f in
  f64_is_nan g = false /\
  f64_le g 0 = (integer_or_zero f <=? 0) /\
  f64_le 0 g = (0 <=? integer_or_zero f) /\
  f64_le g MAX_SAFE_INTEGER_F64 = (integer_or_zero f <=? 2 ^ 53 - 1) /\
  f64_integer_part g = integer_or_zero f.
Proof.
  intros Hok. cbn zeta. destruct max_safe_facts as (Mn & Mf & Ms). pose proof F64_ONE_pos.
  assert (Hscaled : forall g, f64_is_nan g = false ->
     f64_scaled g = integer_or_zero f * F64_ONE_SCALED ->
     f64_is_nan g = false /\ f64_le g 0 = (integer_or_zero f <=? 0) /\
     f64_le 0 g = (0 <=? integer_or_zero f) /\
     f64_le g MAX_SAFE_INTEGER_F64 = (integer_or_zero f <=? 2 ^ 53 - 1) /\
     f64_integer_part g = integer_or_zero f).
  { intros g Hn Hs. unfold f64_le. rewrite Hn, Mn, Ms, Hs.
    assert (f64_is_nan 0 = false) as -> by done. rewrite (proj1 f64_zero_scaled).
    cbn [negb andb]. split_and!; [done|..].
    - apply Bool.eq_iff_eq_true. rewrite !Z.leb_le. split; nia.
    - apply Bool.eq_iff_eq_true. rewrite !Z.leb_le. split; nia.
    - apply Bool.eq_iff_eq_true. rewrite !Z.leb_le. symmetry. by apply Z.mul_le_mono_pos_r.
    - unfold f64_integer_part. rewrite Hs. apply Z.quot_mul. lia. }
  destruct (f64_class f) as [Hn|[Hi|Hf]].
  - apply Hscaled; unfold integer_or_zero, to_integer_or_infinity_f64; by rewrite Hn.
  - rewrite to_integer_infinite by done. apply Hscaled; unfold integer_or_zero.
    { unfold f64_is_infinite, f64_is_nan in *; lia. }
    assert (f64_is_nan f = false) as -> by (unfold f64_is_infinite, f64_is_nan in *; lia).
    rewrite (f64_infinite_pattern f Hok Hi). destruct (f64_sign f); vm_compute; reflexivity.
  - destruct (to_integer_finite f Hok Hf) as [Hn Hs]. apply Hscaled; [done|].
    unfold integer_or_zero. by rewrite f64_is_finite_not_nan.
Qed.

(** C28: ToLength of a number is its integer part clamped to [0, 2^53 - 1] (the
    unchecked float-to-integer cast it ends with is always in range), and
    ToIndex is the integer part when it lies in [0, 2^53 - 1] and a RangeError
    otherwise; NaN counts as 0. *)
Theorem to_length_and_to_index_exact v :
  well_formed v -> is_number v = true ->
  let n := integer_or_zero (as_number v) in
  to_length heap convert_object parse_number v = EOk (clamp 0 (2 ^ 53 - 1) n) /\
  to_index heap convert_object parse_number v =
    (if (0 <=? n) && (n <=? 2 ^ 53 - 1) then EOk n else EErr RangeError).
Proof.
  intros Hwf Hn n. destruct (well_formed_number_facts v Hwf Hn) as [_ Hok].
  destruct (to_integer_compare (as_number v) Hok) as (Hnan & Hle & Hge & Hmax & Hip).
  fold n in Hle, Hge, Hmax, Hip. destruct max_safe_facts as (Mn & Mf & Ms). split.
  - unfold to_length, to_integer_or_infinity. rewrite to_number_number by done.
    cbn [mbind EvalResult_bind]. rewrite Hle.
    destruct (Z.leb_spec n 0); [f_equal; unfold clamp; lia|].
    unfold f64_min. rewrite Hnan, Mn, Hmax.
    destruct (Z.leb_spec n (2 ^ 53 - 1)).
    + unfold to_int_unchecked_u64. rewrite Hip.
      assert (f64_is_finite (to_integer_or_infinity_f64 (as_number v)) = true) as ->.
      { apply finite_below_max; [done|rewrite Hmax; lia|rewrite Hle; lia]. }
      rewrite (proj2 (Z.leb_le _ _)), (proj2 (Z.ltb_lt _ _)) by lia. cbn [andb].
      f_equal. unfold clamp. lia.
    + transitivity (@EOk Z (2 ^ 53 - 1)); [vm_compute; reflexivity|].
      f_equal. unfold clamp. lia.
  - unfold to_index, to_integer_or_infinity. rewrite to_number_number by done.
    cbn [mbind EvalResult_bind].
    destruct (number_cases v Hwf Hn) as [(k & Hr & Hv & Hs & Ha & Hf)|(d & Hd & Hv & Hs & Hf)];
      rewrite Hs.
    + rewrite Ha. assert (n = k) as ->.
      { subst n. rewrite Hf. unfold i32_min, i32_max in Hr. unfold integer_or_zero.
        by rewrite f64_is_finite_not_nan, f64_of_int_integer_part
          by (try apply f64_of_int_finite; lia). }
      unfold i32_min, i32_max in Hr.
      rewrite (proj2 (Z.leb_le k _)), andb_true_r by lia.
      destruct (Z.ltb_spec k 0), (Z.leb_spec 0 k); try lia; [done|].
      f_equal. apply Z.mod_small. lia.
    + assert (is_undefined v = false) as ->.
      { subst v. apply (is_undefined_view (VDouble d)), Hd. }
      rewrite Hge, Hmax. destruct ((0 <=? n) && (n <=? 2 ^ 53 - 1)) eqn:E; [|done].
      cbn [negb]. f_equal. unfold f64_as_int. rewrite Hnan, Hip.
      unfold clamp, usize_max. lia.
Qed.

End ConversionLaws.

Module ConversionExample.

(** A heap in which address 16 holds a BigInt, 32 an object and the others strings. *)
Definition ex_heap : ItemHeap :=
  mkItemHeap (fun p => if p =? 16 then BigInt else if p =? 32 then OrdinaryObject else String)
             (fun _ => [49]) (fun _ => 3) (fun p => p).
Definition ex_convert (v : Value) (h : ToPrimitivePreferredType) : EvalResult Value :=
  EOk (bool_value true).
Definition ex_parse_number (u : list Z) : option f64 := Some (f64_of_int 1).

(** -2.5 *)
Definition ex_number : Value := number (f64_neg (f64_add (f64_of_int 2) F64_HALF)).

Lemma ex_number_wf : well_formed ex_number.
Proof. apply well_formed_number. unfold f64_ok. vm_compute. split; congruence. Qed.

Lemma fixed_width_conversions_exact_witness :
  to_int32 ex_heap ex_convert ex_parse_number ex_number = EOk (-2) /\
  to_uint8 ex_heap ex_convert ex_parse_number ex_number = EOk 254.
Proof.
  pose proof (fixed_width_conversions_exact ex_heap ex_convert ex_parse_number ex_number
    ex_number_wf ltac:(vm_compute; reflexivity) ltac:(vm_compute; reflexivity))
    as (H1 & _ & _ & _ & _ & H2).
  split.
  - etransitivity; [exact H1|]. vm_compute. reflexivity.
  - etransitivity; [exact H2|]. vm_compute. reflexivity.
Defined.

(** 2.5 is rounded to the even neighbour. *)
Definition ex_tie : Value := number (f64_add (f64_of_int 2) F64_HALF).

Lemma ex_tie_wf : well_formed ex_tie.
Proof. apply well_formed_number. unfold f64_ok. vm_compute. split; congruence. Qed.

Lemma to_uint8_clamp_rounds_half_even_witness :
  to_uint8_clamp ex_heap ex_convert ex_parse_number ex_tie = EOk 2.
Proof.
  etransitivity.
  - apply (to_uint8_clamp_rounds_half_even ex_heap ex_convert ex_parse_number ex_tie).
    + exact ex_tie_wf.
    + vm_compute. reflexivity.
  - vm_compute. reflexivity.
Defined.

Lemma to_length_and_to_index_exact_witness :
  to_length ex_heap ex_convert ex_parse_number ex_number = EOk 0 /\
  to_index ex_heap ex_convert ex_parse_number ex_number = EErr RangeError.
Proof.
  pose proof (to_length_and_to_index_exact ex_heap ex_convert ex_parse_number ex_number
    ex_number_wf ltac:(vm_compute; reflexivity)) as [H1 H2].
  split.
  - rewrite H1. vm_compute. reflexivity.
  - rewrite H2. vm_compute. reflexivity.
Defined.

End ConversionExample.
