(* ===== verification/FloatIntegers.v ===== *)
(** Binary64 arithmetic on integers below 2^53: it is exact, and the floor of a
    quotient is the quotient of the integers.

    The laws are equations between bit patterns (an integer is never the negative
    zero), so that a computation of the engine on integers is rewritten step by
    step to a computation in [Z] by [f64_int]. *)

From S2P Require Import Prelude Float64 Value ValueCorrect TypeUtilities TypeUtilitiesCorrect.

Definition f64_modulo (a b : f64) : f64 := f64_rem (f64_add (f64_rem a b) b) b.

(** [is_sign_negative], [is_sign_positive]. *)
Definition is_sign_negative (a : f64) : bool := f64_sign a.
Definition is_sign_positive (a : f64) : bool := negb (f64_sign a).

Definition safe (n : Z) : Prop := Z.abs n < 2 ^ 53.

Lemma int_scaled n : safe n -> f64_scaled (f64_of_int n) = n * F64_ONE_SCALED.
Proof. apply f64_scaled_of_int. Qed.

Lemma int_ok n : f64_ok (f64_of_int n).
Proof. apply f64_round_ok. Qed.

Lemma int_not_nan n : f64_is_nan (f64_of_int n) = false.
Proof. apply f64_round_not_nan. Qed.

Lemma int_finite n : safe n -> f64_is_finite (f64_of_int n) = true.
Proof. apply f64_of_int_finite. Qed.

Lemma int_not_infinite n : safe n -> f64_is_infinite (f64_of_int n) = false.
Proof. intros Hn%int_finite. unfold f64_is_finite, f64_is_infinite in *. lia. Qed.

Lemma int_sign n : f64_sign (f64_of_int n) = (n <? 0).
Proof.
  unfold f64_of_int. rewrite f64_sign_round. pose proof F64_ONE_pos.
  destruct (Z.eqb_spec (n * F64_ONE_SCALED) 0); nia.
Qed.

Create Rewrite HintDb f64_int.
#[export] Hint Rewrite int_not_nan int_sign : f64_int.
#[export] Hint Rewrite int_scaled int_finite int_not_infinite using (assumption || (unfold safe in *; lia)) : f64_int.
Ltac f64_int := autorewrite with f64_int.

Lemma round_int neg n : (n = 0 -> neg = false) -> f64_round neg (n * F64_ONE_SCALED) = f64_of_int n.
Proof.
  intros Hn. unfold f64_of_int, f64_round. pose proof F64_ONE_pos.
  destruct (Z.eqb_spec (n * F64_ONE_SCALED) 0); [rewrite Hn by nia|]; done.
Qed.

(** A finite number with an integer value is the pattern of that integer. *)
Lemma int_pattern b n : f64_ok b -> f64_is_nan b = false -> f64_scaled b = n * F64_ONE_SCALED ->
  (n = 0 -> f64_sign b = false) -> b = f64_of_int n.
Proof.
  intros Hok Hn Hs Hz. rewrite <- (f64_round_scaled b Hok Hn), Hs. by apply round_int.
Qed.

Lemma int_inj a b : safe a -> safe b -> f64_of_int a = f64_of_int b -> a = b.
Proof.
  intros Ha Hb E. pose proof (int_scaled a Ha) as H1. rewrite E, int_scaled in H1 by done.
  pose proof F64_ONE_pos. nia.
Qed.

Lemma neg_parts b : f64_ok b ->
  f64_is_nan (f64_neg b) = f64_is_nan b /\ f64_is_finite (f64_neg b) = f64_is_finite b /\
  f64_is_infinite (f64_neg b) = f64_is_infinite b /\
  f64_scaled (f64_neg b) = - f64_scaled b /\ f64_sign (f64_neg b) = negb (f64_sign b).
Proof.
  intros Hok. destruct (f64_neg_facts b Hok) as [Ha Hs]. unfold f64_is_nan, f64_is_finite, f64_is_infinite.
  rewrite Ha. split_and!; [done..|]. unfold f64_neg, f64_sign, f64_ok, F64_SIGN in *.
  destruct (Z.leb_spec (2 ^ 63) b); cbn [negb]; lia.
Qed.

Lemma neg_ok b : f64_ok b -> f64_ok (f64_neg b).
Proof. unfold f64_ok, f64_neg, f64_sign, F64_SIGN. intros. case_match; lia. Qed.

(** ** Sums *)

Lemma add_value a b n : f64_is_finite a = true -> f64_is_finite b = true ->
  f64_scaled a + f64_scaled b = n * F64_ONE_SCALED ->
  (n = 0 -> f64_sign a && f64_sign b = false) -> f64_add a b = f64_of_int n.
Proof.
  intros Ha Hb Hs Hz. unfold f64_add.
  rewrite (f64_is_finite_not_nan a Ha), (f64_is_finite_not_nan b Hb), Hs.
  assert (f64_is_infinite a = false) as -> by (unfold f64_is_finite, f64_is_infinite in *; lia).
  assert (f64_is_infinite b = false) as -> by (unfold f64_is_finite, f64_is_infinite in *; lia).
  cbn [orb]. by apply round_int.
Qed.

Lemma add_int a b : safe a -> safe b -> f64_add (f64_of_int a) (f64_of_int b) = f64_of_int (a + b).
Proof. intros. apply add_value; f64_int; [done..|lia|lia]. Qed.

Lemma sub_int a b : safe a -> safe b -> f64_sub (f64_of_int a) (f64_of_int b) = f64_of_int (a - b).
Proof.
  intros. destruct (neg_parts _ (int_ok b)) as (_ & Hf & _ & Hs & Hg).
  apply add_value; rewrite ?Hf, ?Hs, ?Hg; f64_int; [done..|lia|lia].
Qed.

(** ** Products *)

Lemma with_sign_int (neg : bool) n : 0 <= n -> (n = 0 -> neg = false) ->
  f64_with_sign neg (f64_of_int n) = f64_of_int (if neg then - n else n).
Proof.
  intros Hn Hz. destruct neg; [|done]. unfold f64_with_sign.
  unfold f64_neg. rewrite int_sign. destruct (Z.ltb_spec n 0); [lia|].
  unfold f64_of_int, f64_round. pose proof F64_ONE_pos. rewrite Z.mul_opp_l, Z.abs_opp.
  assert (0 < n * F64_ONE_SCALED) by (apply Z.mul_pos_pos; lia).
  rewrite !(proj2 (Z.eqb_neq _ _)), (proj2 (Z.ltb_ge _ _)), (proj2 (Z.ltb_lt _ _)) by lia. lia.
Qed.

(** The product of an integer with a positive one. *)
Lemma mul_int a b : safe a -> safe b -> 0 < a \/ 0 < b -> safe (a * b) ->
  f64_mul (f64_of_int a) (f64_of_int b) = f64_of_int (a * b).
Proof.
  intros Ha Hb Hp Hab. unfold f64_mul. f64_int. cbn [orb]. pose proof F64_ONE_pos.
  rewrite !Z.abs_mul, (Z.abs_eq F64_ONE_SCALED) by lia.
  replace (Z.abs a * F64_ONE_SCALED * (Z.abs b * F64_ONE_SCALED))
    with (Z.abs (a * b) * (F64_ONE_SCALED * F64_ONE_SCALED)) by (rewrite Z.abs_mul; ring).
  rewrite ratio_exact; [|unfold safe in *; lia|nia].
  assert (Hx : xorb (a <? 0) (b <? 0) = (a * b <? 0)).
  { destruct (Z.ltb_spec a 0), (Z.ltb_spec b 0), (Z.ltb_spec (a * b) 0); cbn; nia. }
  rewrite Hx, with_sign_int by lia. f_equal. case_match; lia.
Qed.

(** ** Floors of quotients *)

Lemma floor_value b n : f64_is_finite b = true ->
  n * F64_ONE_SCALED <= f64_scaled b < (n + 1) * F64_ONE_SCALED ->
  (n = 0 -> f64_sign b = false) -> f64_floor b = f64_of_int n.
Proof.
  intros Hf Hs Hz. unfold f64_floor. rewrite Hf. pose proof F64_ONE_pos.
  assert (f64_scaled b / F64_ONE_SCALED = n) as ->; [|by apply round_int].
  symmetry. apply Z.div_unique_pos with (f64_scaled b - n * F64_ONE_SCALED); lia.
Qed.

Lemma div_int_unfold a b : safe a -> safe b -> 0 < b ->
  f64_div (f64_of_int a) (f64_of_int b) = f64_with_sign (a <? 0) (f64_of_ratio (Z.abs a) b).
Proof.
  intros Ha Hb Hp. unfold f64_div. f64_int. cbn [orb]. pose proof F64_ONE_pos.
  destruct (Z.eqb_spec (b * F64_ONE_SCALED) 0); [nia|].
  rewrite (proj2 (Z.ltb_ge b 0)), xorb_false_r, !Z.abs_mul, (Z.abs_eq F64_ONE_SCALED), (Z.abs_eq b) by lia.
  by rewrite ratio_scale by lia.
Qed.

Lemma ratio_sign num den : 0 <= num -> 0 < den -> f64_sign (f64_of_ratio num den) = false.
Proof.
  intros Hn Hd. unfold f64_of_ratio. cbn zeta. rewrite f64_sign_round.
  set (s := Z.max 2 _). set (m := ratio_bits num den). pose proof (ratio_bits_near num den Hn Hd) as [Hm _].
  assert (0 <= round_shift m s * 2 ^ (s - 2)).
  { apply Z.mul_nonneg_nonneg; [|apply Z.pow_nonneg; lia]. unfold round_shift. cbn zeta.
    assert (0 < 2 ^ s) by (apply Z.pow_pos_nonneg; lia).
    pose proof (Z.div_pos m (2 ^ s) Hm ltac:(lia)). case_match; lia. }
  destruct (Z.eqb_spec (round_shift m s * 2 ^ (s - 2)) 0); [done|]. lia.
Qed.

(** The value of a ratio lies between the integers around it. *)
Lemma ratio_floor a b : 0 <= a < 2 ^ 53 -> 0 < b < 2 ^ 53 ->
  let x := f64_of_ratio a b in
  f64_is_finite x = true /\
  a / b * F64_ONE_SCALED <= f64_scaled x < (a / b + 1) * F64_ONE_SCALED /\
  (f64_scaled x = a / b * F64_ONE_SCALED <-> a mod b = 0).
Proof.
  cbn zeta. intros Ha Hb. pose proof (Z.div_mod a b ltac:(lia)). pose proof F64_ONE_pos.
  assert (0 <= a / b <= a) by (split; [apply Z.div_pos|apply Z.div_le_upper_bound]; nia).
  destruct (decide (a mod b = 0)) as [E|E].
  - assert (safe (a / b)) by (unfold safe; lia).
    replace (f64_of_ratio a b) with (f64_of_int (a / b)).
    + f64_int. split; [done|]. split; [|done]. lia.
    + rewrite <- (ratio_exact (a / b) b) by lia. f_equal. lia.
  - assert (0 < a) by (destruct (decide (a = 0)) as [->|]; [done|lia]).
    destruct (ratio_between a b ltac:(lia) ltac:(lia) E) as [Hx Hx'].
    split; [apply f64_finite_of_scaled; [apply f64_round_not_nan|]|split; [lia|split; intros; lia]].
    assert (0 <= a / b * F64_ONE_SCALED) by nia. lia.
Qed.

Lemma floor_div_int a b : safe a -> safe b -> 0 < b ->
  f64_floor (f64_div (f64_of_int a) (f64_of_int b)) = f64_of_int (a / b).
Proof.
  intros Ha Hb Hp. rewrite div_int_unfold by done. unfold safe in *.
  destruct (ratio_floor (Z.abs a) b ltac:(lia) ltac:(lia)) as (Hf & Hr & He).
  pose proof (ratio_sign (Z.abs a) b ltac:(lia) Hp) as Hsg. pose proof F64_ONE_pos.
  assert (Hok : f64_ok (f64_of_ratio (Z.abs a) b)) by apply f64_round_ok.
  destruct (neg_parts _ Hok) as (_ & Hnf & _ & Hns & _).
  destruct (Z.ltb_spec a 0) as [Hneg|Hpos]; unfold f64_with_sign.
  - apply floor_value; [by rewrite Hnf| |intros; div_lia]. rewrite Hns.
    set (x := f64_scaled _) in *. replace a with (- Z.abs a) by lia.
    destruct (decide (Z.abs a mod b = 0)) as [E|E].
    + rewrite (proj2 He E), Z.div_opp_l_z by lia. lia.
    + rewrite Z.div_opp_l_nz by lia. split; [|lia].
      destruct (decide (x = Z.abs a / b * F64_ONE_SCALED)); [tauto|lia].
  - rewrite Z.abs_eq in * by lia. by apply floor_value.
Qed.

(** ** Remainders, comparisons and conversions *)

Lemma rem_value a b n : f64_is_finite a = true -> safe b -> 0 < b -> f64_scaled a = n * F64_ONE_SCALED ->
  f64_rem a (f64_of_int b) = f64_round (f64_sign a) (Z.rem n b * F64_ONE_SCALED).
Proof.
  intros Ha Hb Hp Hs. unfold f64_rem. rewrite (f64_is_finite_not_nan a Ha), Hs. f64_int. cbn [orb].
  assert (f64_is_infinite a = false) as -> by (unfold f64_is_finite, f64_is_infinite in *; lia).
  pose proof F64_ONE_pos. cbn [orb].
  destruct (Z.eqb_spec (b * F64_ONE_SCALED) 0); [nia|]. by rewrite Z.mul_rem_distr_r by lia.
Qed.

(** [modulo] of an integer of any size. *)
Lemma modulo_value f a b : f64_is_finite f = true -> f64_scaled f = a * F64_ONE_SCALED -> 0 < b < 2 ^ 51 ->
  f64_modulo f (f64_of_int b) = f64_of_int (a mod b).
Proof.
  intros Hf Ha Hb. unfold f64_modulo. pose proof (Z.rem_bound_abs a b ltac:(lia)).
  assert (Hr : safe (Z.rem a b)) by (unfold safe; lia).
  rewrite (rem_value f b a) by (done || unfold safe; lia).
  set (r := f64_round _ _).
  assert (Hrs : f64_scaled r = Z.rem a b * F64_ONE_SCALED) by (by apply f64_scaled_round, f64_of_int_representable).
  assert (Hrf : f64_is_finite r = true).
  { apply f64_finite_of_scaled; [apply f64_round_not_nan|]. rewrite Hrs.
    pose proof (f64_is_finite_bound _ (int_finite _ Hr)) as Hbd. by rewrite int_scaled in Hbd. }
  rewrite (add_value r _ (Z.rem a b + b)); [|done|f64_int; done|rewrite Hrs; f64_int; lia|f64_int; lia].
  rewrite (rem_value _ b (Z.rem a b + b)) by (f64_int; done || unfold safe in *; lia).
  f64_int. rewrite round_int by lia. f_equal. rewrite Z.rem_mod_nonneg by lia.
  rewrite <- (Z.mul_1_l b) at 2. rewrite Z.mod_add by lia.
  rewrite <- (Z.mod_add (Z.rem a b) (Z.quot a b) b) by lia. f_equal. pose proof (Z.quot_rem a b). lia.
Qed.

Lemma modulo_int a b : safe a -> 0 < b < 2 ^ 51 ->
  f64_modulo (f64_of_int a) (f64_of_int b) = f64_of_int (a mod b).
Proof. intros Ha Hb. apply modulo_value; [by apply int_finite|by apply int_scaled|done]. Qed.

Lemma lt_int a b : safe a -> safe b -> f64_lt (f64_of_int a) (f64_of_int b) = (a <? b).
Proof. intros. unfold f64_lt. f64_int. cbn. pose proof F64_ONE_pos. nia. Qed.

Lemma le_int a b : safe a -> safe b -> f64_le (f64_of_int a) (f64_of_int b) = (a <=? b).
Proof. intros. unfold f64_le. f64_int. cbn. pose proof F64_ONE_pos. nia. Qed.

Lemma as_i64_int n : safe n -> f64_as_int i64_min i64_max (f64_of_int n) = n.
Proof.
  intros Hn. apply f64_as_int_exact; [apply int_not_nan|by apply int_scaled|].
  unfold safe, i64_min, i64_max in *. lia.
Qed.

Lemma abs_int n : safe n -> f64_abs (f64_of_int n) = f64_of_int (Z.abs n).
Proof.
  intros Hn. apply int_pattern; [apply f64_abs_ok| | |].
  - unfold f64_is_nan, f64_abs. rewrite Zmod_mod. apply int_not_nan.
  - rewrite f64_scaled_abs. f64_int. pose proof F64_ONE_pos. rewrite Z.abs_mul, (Z.abs_eq F64_ONE_SCALED); lia.
  - intros _. pose proof (f64_abs_range (f64_of_int n)). unfold f64_sign. lia.
Qed.

(** ToIntegerOrInfinity of a finite number is its integer part, never a negative zero. *)
Lemma to_integer_value f : f64_ok f -> f64_is_finite f = true ->
  to_integer_or_infinity_f64 f = f64_of_int (f64_integer_part f).
Proof.
  intros Hok Hf. destruct (to_integer_finite f Hok Hf) as [Hn Hs].
  apply int_pattern; [|done..|].
  - unfold to_integer_or_infinity_f64. pose proof (f64_floor_ok _ (f64_abs_ok f)).
    repeat case_match; try done. by apply neg_ok.
  - intros E. rewrite E in Hs. cbn in Hs. unfold to_integer_or_infinity_f64 in *.
    pose proof (f64_floor_ok _ (f64_abs_ok f)) as Hfl.
    destruct (f64_is_nan f || f64_eq f 0); [done|].
    assert (Hi : f64_is_infinite f = false) by (unfold f64_is_finite, f64_is_infinite in *; lia).
    rewrite Hi in *. set (g := f64_floor (f64_abs f)) in *.
    assert (Hg : f64_sign g = false).
    { unfold g, f64_floor. rewrite f64_abs_finite, Hf, f64_sign_round.
      pose proof (f64_abs_range f). rewrite f64_scaled_abs. pose proof F64_ONE_pos.
      assert (f64_sign (f64_abs f) = false) as -> by (unfold f64_sign; lia).
      assert (0 <= Z.abs (f64_scaled f) / F64_ONE_SCALED * F64_ONE_SCALED).
      { apply Z.mul_nonneg_nonneg; [|lia]. apply Z.div_pos; lia. }
      set (x := _ / _ * _) in *. destruct (Z.eqb_spec x 0); [done|]. lia. }
    destruct (f64_lt f 0 && negb (f64_eq g 0)) eqn:Hc; [|done]. exfalso.
    apply andb_true_iff in Hc as [_ Hc]. destruct (neg_parts g Hfl) as (Hnn & _ & _ & Hns & _).
    rewrite Hnn in Hn. rewrite f64_eq_zero in Hc by done. rewrite Hns in Hs. lia.
Qed.

Lemma to_integer_int n : safe n -> to_integer_or_infinity_f64 (f64_of_int n) = f64_of_int n.
Proof.
  intros Hn. rewrite to_integer_value by (apply int_ok || by apply int_finite).
  f_equal. unfold f64_integer_part. rewrite int_scaled by done. apply Z.quot_mul.
  pose proof F64_ONE_pos. lia.
Qed.

#[export] Hint Rewrite add_int sub_int mul_int floor_div_int modulo_int lt_int le_int as_i64_int abs_int to_integer_int
  using (unfold safe in *; lia) : f64_int.

(** ** Derivations

    [int_of b n]: the number [b] is the integer [n].  The value of an arithmetic expression is
    derived from those of its parts, following its shape. *)

Definition int_of (b : f64) (n : Z) : Prop := b = f64_of_int n.

Lemma int_of_lit n : int_of (f64_of_int n) n.
Proof. done. Qed.

Lemma int_of_add a b m n : int_of a m -> int_of b n -> safe m -> safe n -> int_of (f64_add a b) (m + n).
Proof. intros -> ->. apply add_int. Qed.

Lemma int_of_sub a b m n : int_of a m -> int_of b n -> safe m -> safe n -> int_of (f64_sub a b) (m - n).
Proof. intros -> ->. apply sub_int. Qed.

Lemma int_of_mul a b m n : int_of a m -> int_of b n -> safe m -> safe n -> 0 < m \/ 0 < n -> safe (m * n) ->
  int_of (f64_mul a b) (m * n).
Proof. intros -> ->. apply mul_int. Qed.

Lemma int_of_floor_div a b m n : int_of a m -> int_of b n -> safe m -> safe n -> 0 < n ->
  int_of (f64_floor (f64_div a b)) (m / n).
Proof. intros -> ->. apply floor_div_int. Qed.

Lemma int_of_modulo a b m n : int_of a m -> int_of b n -> safe m -> 0 < n < 2 ^ 51 ->
  int_of (f64_modulo a b) (m mod n).
Proof. intros -> ->. apply modulo_int. Qed.

Lemma int_of_lt a b m n : int_of a m -> int_of b n -> safe m -> safe n -> f64_lt a b = (m <? n).
Proof. intros -> ->. apply lt_int. Qed.

Lemma int_of_le a b m n : int_of a m -> int_of b n -> safe m -> safe n -> f64_le a b = (m <=? n).
Proof. intros -> ->. apply le_int. Qed.

Ltac int_of :=
  lazymatch goal with
  | |- int_of (f64_add _ _) _ => eapply int_of_add; [int_of|int_of|idtac..]
  | |- int_of (f64_sub _ _) _ => eapply int_of_sub; [int_of|int_of|idtac..]
  | |- int_of (f64_mul _ _) _ => eapply int_of_mul; [int_of|int_of|idtac..]
  | |- int_of (f64_floor (f64_div _ _)) _ => eapply int_of_floor_div; [int_of|int_of|idtac..]
  | |- int_of (f64_modulo _ _) _ => eapply int_of_modulo; [int_of|int_of|idtac..]
  | |- int_of (f64_of_int _) _ => apply int_of_lit
  | |- int_of _ _ => eassumption
  end.
