(* ===== verification/ComparisonCorrect.v ===== *)
(** Correctness of the comparisons of values: SameValueZero as the equality of
    Map and Set keys, IsLessThan on numeric operands, and termination of
    IsLooselyEqual. *)

From S2P Require Import Prelude Float64 Value ValueCorrect Descriptors.
From S2P Require Import TypeUtilities TypeUtilitiesCorrect.
Import Kind.

Section ComparisonLaws.

Context (heap : ItemHeap) (convert_object : Value -> ToPrimitivePreferredType -> EvalResult Value).
Context (parse_number : list Z -> option f64) (parse_bigint : list Z -> option Z).
Context (f64_to_bigint : f64 -> option Z).

(** ** SameValueZero and the hash of collection keys *)

(** Values in canonical form: what [Value::number] and the other constructors
    build.  An integer of the i32 range is never stored as a double. *)
Definition canonical_view (w : ValueView) : Prop :=
  view_ok w /\ match w with VDouble d => is_smi_number d = false | _ => True end.
Definition canonical (v : Value) : Prop := exists w, canonical_view w /\ v = encode_view w.

Lemma canonical_well_formed v : canonical v -> well_formed v.
Proof. intros (w & [Hok _] & ->). by exists w. Qed.

Lemma f64_of_int_smi n : i32_min <= n <= i32_max -> is_smi_number (f64_of_int n) = true.
Proof.
  intros Hn. unfold i32_min, i32_max in Hn. unfold is_smi_number, i32_min, i32_max.
  rewrite f64_of_int_finite, f64_of_int_integer_part, f64_scaled_of_int by lia.
  rewrite Z.eqb_refl. rewrite !(proj2 (Z.leb_le _ _)) by lia. cbn [andb].
  apply negb_true_iff, Z.eqb_neq. intros E.
  pose proof (f64_scaled_of_int n ltac:(lia)) as Hs.
  assert (Hsg : f64_sign (f64_of_int n) = true) by by rewrite E.
  unfold f64_of_int in Hsg. rewrite f64_sign_round in Hsg.
  rewrite E in Hs. change (f64_scaled F64_SIGN) with 0 in Hs.
  by rewrite <- Hs in Hsg.
Qed.

(** A canonical number is the value [number] builds from what it reads as. *)
Lemma canonical_number v :
  canonical v -> is_number v = true -> v = number (as_number v) /\ f64_ok (as_number v).
Proof.
  intros (w & [Hok Hc] & ->) Hn. rewrite is_number_view in Hn by done.
  rewrite as_number_view, number_is_view by done. unfold number_view.
  destruct w; try done; cbn in Hok.
  - rewrite f64_of_int_smi by done.
    rewrite f64_of_int_integer_part by (unfold i32_min, i32_max in *; lia).
    split; [done|apply f64_round_ok].
  - rewrite Hc. destruct (f64_is_nan d) eqn:E; [|split; [done|apply Hok]].
    destruct Hok as [Hok Hd]. by rewrite (Hd E).
Qed.

Lemma value_eq_raw v1 v2 : as_raw_bits v1 = as_raw_bits v2 -> v1 = v2.
Proof. destruct v1, v2. cbn. congruence. Qed.

(** Numbers equal up to the sign of zero. *)
Definition unsigned_zero (f : f64) : f64 := if f =? F64_SIGN then 0 else f.

Lemma zero_patterns f : f64_ok f -> f64_scaled f = 0 -> f = 0 \/ f = F64_SIGN.
Proof.
  intros Hok Hz. pose proof (f64_abs_range f). pose proof (f64_scaled_abs_range f) as Ha.
  rewrite Hz in Ha. assert (f64_abs f = 0).
  { destruct (decide (f64_abs f = 0)); [done|].
    pose proof (f64_magnitude_pos (f64_abs f)). lia. }
  rewrite (f64_split f Hok). destruct (f64_sign f); lia.
Qed.

Lemma f64_sign_scaled f : f64_ok f -> f64_scaled f <> 0 -> f64_sign f = (f64_scaled f <? 0).
Proof.
  intros Hok Hz. unfold f64_scaled in *. pose proof (f64_abs_range f).
  pose proof (f64_magnitude_nonneg (f64_abs f)). destruct (f64_sign f); lia.
Qed.

Lemma f64_eq_unsigned_zero f1 f2 :
  f64_ok f1 -> f64_ok f2 -> f64_is_nan f1 = false -> f64_is_nan f2 = false ->
  f64_eq f1 f2 = true <-> unsigned_zero f1 = unsigned_zero f2.
Proof.
  intros Hok1 Hok2 Hn1 Hn2. unfold f64_eq. rewrite Hn1, Hn2. cbn [negb andb].
  rewrite Z.eqb_eq. unfold unsigned_zero. split.
  - intros E. destruct (decide (f64_scaled f1 = 0)) as [E0|E0].
    + destruct (zero_patterns f1) as [->| ->]; [done|done| |];
      (destruct (zero_patterns f2) as [->| ->]; [done|congruence|done|done]).
    + assert (f1 = f2) as ->; [|done]. apply f64_scaled_inj; try done.
      rewrite !f64_sign_scaled by (done || congruence). by rewrite E.
  - destruct (Z.eqb_spec f1 F64_SIGN) as [->|], (Z.eqb_spec f2 F64_SIGN) as [->|];
      intros E; subst; done.
Qed.

(** The word hashed for a number is that of the number without the sign of zero. *)
Lemma number_key v :
  canonical v -> is_number v = true ->
  collection_key_hash heap v = HashWord (as_raw_bits (number (unsigned_zero (as_number v)))).
Proof.
  intros Hc Hn. unfold collection_key_hash. rewrite Hn.
  destruct (canonical_number v Hc Hn) as [Hv Hok].
  pose proof Hc as (w & [Hw Hs] & ->).
  rewrite is_number_view in Hn by done. rewrite is_negative_zero_view by done.
  rewrite as_number_view in * by done. destruct w; try done; cbn in Hw; cbn match in *.
  - unfold unsigned_zero. destruct (Z.eqb_spec (f64_of_int n) F64_SIGN) as [E|]; [|by rewrite <- Hv].
    pose proof (f64_of_int_smi n Hw) as Hsm. rewrite E in Hsm. by vm_compute in Hsm.
  - unfold unsigned_zero. destruct (Z.eqb_spec d F64_SIGN); [done|]. by rewrite <- Hv.
Qed.

(** What identifies a key: the hashed data, or the address for objects and symbols. *)
Definition identity_key (v : Value) : HashInput :=
  match collection_key_hash heap v with
  | HashCode _ => HashWord (as_raw_bits v)
  | h => h
  end.

Lemma consume_equals_spec u1 u2 : consume_equals u1 u2 = true <-> u1 = u2.
Proof.
  revert u2. induction u1 as [|x u1 IH]; intros [|y u2]; cbn; try done.
  destruct (Z.eqb_spec x y) as [->|]; cbn; [|split; [done|congruence]].
  rewrite IH. split; congruence.
Qed.

Lemma flat_string_eq_spec u1 u2 : flat_string_eq u1 u2 = true <-> u1 = u2.
Proof.
  unfold flat_string_eq. destruct (Nat.eqb_spec (length u1) (length u2)); cbn.
  - apply consume_equals_spec.
  - split; [done|congruence].
Qed.

Lemma number_raw_inj f1 f2 :
  f64_ok f1 -> f64_ok f2 -> f64_is_nan f1 = false ->
  as_raw_bits (number f1) = as_raw_bits (number f2) -> f1 = f2.
Proof.
  intros H1 H2 Hn E%value_eq_raw.
  destruct (number_roundtrip_facts f1 H1) as [R1 _], (number_roundtrip_facts f2 H2) as [R2 _].
  rewrite E, R2 in R1. rewrite Hn in R1. destruct (f64_is_nan f2) eqn:E2; [|done].
  subst f1. done.
Qed.

Lemma canonical_is_nan v :
  canonical v -> is_number v = true ->
  is_nan v = f64_is_nan (as_number v) /\ (is_nan v = true -> as_number v = F64_NAN).
Proof.
  intros (w & [Hok _] & ->) Hn. rewrite is_number_view in Hn by done.
  rewrite is_nan_view, as_number_view by done. destruct w; try done.
  - cbn in Hok. unfold i32_min, i32_max in Hok.
    by rewrite f64_is_finite_not_nan by (apply f64_of_int_finite; lia).
  - destruct Hok as [Hd Hc]. split; [done|exact Hc].
Qed.

Lemma unsigned_zero_ok f : f64_ok f -> f64_ok (unsigned_zero f).
Proof. unfold unsigned_zero. case_match; [done|auto]. Qed.

Lemma unsigned_zero_nan f : f64_is_nan (unsigned_zero f) = f64_is_nan f.
Proof. unfold unsigned_zero. destruct (Z.eqb_spec f F64_SIGN) as [->|]; done. Qed.

Lemma numbers_same_key v1 v2 :
  canonical v1 -> canonical v2 -> is_number v1 = true -> is_number v2 = true ->
  same_value_zero heap v1 v2 = true <-> identity_key v1 = identity_key v2.
Proof.
  intros C1 C2 N1 N2. unfold same_value_zero, identity_key.
  rewrite !number_key, N1, N2 by done.
  destruct (canonical_number v1 C1 N1) as [_ O1], (canonical_number v2 C2 N2) as [_ O2].
  destruct (canonical_is_nan v1 C1 N1) as [E1 F1], (canonical_is_nan v2 C2 N2) as [E2 F2].
  assert (Hinj : forall f1 f2, f64_ok f1 -> f64_ok f2 -> f64_is_nan f1 = false ->
    HashWord (as_raw_bits (number (unsigned_zero f1))) =
    HashWord (as_raw_bits (number (unsigned_zero f2))) -> unsigned_zero f1 = unsigned_zero f2).
  { intros f1 f2 H1 H2 Hn [= E]. apply number_raw_inj; try by apply unsigned_zero_ok.
    by rewrite unsigned_zero_nan. done. }
  destruct (is_nan v1) eqn:D1, (is_nan v2) eqn:D2; cbn [andb].
  - by rewrite F1, F2.
  - split.
    + unfold f64_eq. by rewrite <- E1.
    + intros H. symmetry in H. apply Hinj in H; [|done..].
      pose proof (unsigned_zero_nan (as_number v1)) as Hx.
      rewrite <- H, unsigned_zero_nan in Hx. congruence.
  - split.
    + unfold f64_eq. by rewrite <- E2, andb_false_r.
    + intros H. apply Hinj in H; [|done..].
      pose proof (unsigned_zero_nan (as_number v2)) as Hx.
      rewrite <- H, unsigned_zero_nan in Hx. congruence.
  - rewrite f64_eq_unsigned_zero by done. split; [congruence|]. by apply Hinj.
Qed.

(** A word is the word of one kind of value only. *)
Lemma identity_key_word v :
  (exists w, identity_key v = HashWord w) \/
  is_number v = false /\ is_pointer v = true /\
  (kind_of heap v = String /\ identity_key v = HashUnits (units_of heap v) \/
   kind_of heap v = BigInt /\ identity_key v = HashBigInt (bigint heap v)).
Proof.
  unfold identity_key, collection_key_hash.
  destruct (is_number v); [left; destruct (is_negative_zero v); eauto|].
  destruct (is_pointer v); [|eauto].
  destruct (kind_of heap v) eqn:K; eauto 6.
Qed.

Lemma non_number_word v w :
  is_number v = false -> identity_key v = HashWord w -> w = as_raw_bits v.
Proof.
  unfold identity_key, collection_key_hash. intros ->.
  destruct (is_pointer v); [|congruence]. destruct (kind_of heap v); congruence.
Qed.

Lemma non_numbers_same_key v1 v2 :
  is_number v1 = false -> is_number v2 = false ->
  same_value_non_numeric heap v1 v2 = true <-> identity_key v1 = identity_key v2.
Proof.
  intros N1 N2. unfold same_value_non_numeric.
  destruct (Z.eqb_spec (as_raw_bits v1) (as_raw_bits v2)) as [E|E].
  { apply value_eq_raw in E as ->. done. }
  destruct (identity_key_word v1) as [[w1 H1]|(_ & P1 & H1)].
  - pose proof (non_number_word v1 w1 N1 H1) as ->.
    assert (is_pointer v1 = true -> kind_of heap v1 <> String /\ kind_of heap v1 <> BigInt) as Hk.
    { unfold identity_key, collection_key_hash in H1. rewrite N1 in H1. intros P1.
      rewrite P1 in H1. split; intros K; by rewrite K in H1. }
    split.
    + destruct (is_pointer v1); [|done]. destruct (Hk eq_refl).
      cbn [andb]. repeat case_match; congruence.
    + rewrite H1. intros H2. symmetry in H2. apply non_number_word in H2; [|done]. congruence.
  - rewrite P1. cbn [andb].
    destruct (identity_key_word v2) as [[w2 H2]|(_ & P2 & H2)].
    + assert (is_pointer v2 = true -> kind_of heap v2 <> String /\ kind_of heap v2 <> BigInt) as Hk.
      { unfold identity_key, collection_key_hash in H2. rewrite N2 in H2. intros P2.
        rewrite P2 in H2. split; intros K; by rewrite K in H2. }
      rewrite H2. split.
      * destruct (is_pointer v2); [|done]. destruct (Hk eq_refl). cbn [andb].
        destruct (kind_eqb _ _) eqn:K; [|done]. apply kind_eqb_eq in K.
        destruct H1 as [[K1 _]|[K1 _]]; congruence.
      * intros E2. destruct H1 as [[_ H1]|[_ H1]]; congruence.
    + rewrite P2. destruct H1 as [[-> ->]|[-> ->]], H2 as [[-> ->]|[-> ->]]; cbn [andb].
      * rewrite (proj2 (kind_eqb_eq _ _) eq_refl), flat_string_eq_spec. split; congruence.
      * done.
      * done.
      * rewrite (proj2 (kind_eqb_eq _ _) eq_refl), Z.eqb_eq. split; congruence.
Qed.

Lemma number_key_differs v1 v2 :
  canonical v1 -> is_number v1 = true -> is_number v2 = false ->
  identity_key v1 <> identity_key v2.
Proof.
  intros C1 N1 N2 E. unfold identity_key at 1 in E. rewrite number_key in E by done.
  symmetry in E. apply non_number_word in E; [|done]. apply value_eq_raw in E.
  destruct (canonical_number v1 C1 N1) as [_ O1].
  destruct (number_roundtrip_facts (unsigned_zero (as_number v1))) as (_ & H & _);
    [by apply unsigned_zero_ok|]. congruence.
Qed.

Lemma same_value_zero_key v1 v2 :
  canonical v1 -> canonical v2 ->
  same_value_zero heap v1 v2 = true <-> identity_key v1 = identity_key v2.
Proof.
  intros C1 C2. destruct (is_number v1) eqn:N1, (is_number v2) eqn:N2.
  - by apply numbers_same_key.
  - unfold same_value_zero. rewrite N1, N2. split; [done|].
    intros E. by apply number_key_differs in E.
  - split; [|intros E; symmetry in E; by apply number_key_differs in E].
    unfold same_value_zero, same_value_non_numeric. rewrite N1. intros H. exfalso.
    destruct (Z.eqb_spec (as_raw_bits v1) (as_raw_bits v2)) as [->%value_eq_raw|]; [congruence|].
    destruct C2 as (w & [Hok _] & ->). rewrite is_pointer_view, is_number_view in * by done.
    destruct w; try done; by rewrite andb_false_r in H.
  - unfold same_value_zero. rewrite N1. by apply non_numbers_same_key.
Qed.

(** Equal keys feed the same data to the hasher. *)
Lemma identity_key_hash v1 v2 :
  canonical v1 -> canonical v2 -> identity_key v1 = identity_key v2 ->
  collection_key_hash heap v1 = collection_key_hash heap v2.
Proof.
  intros C1 C2 E. destruct (is_number v1) eqn:N1, (is_number v2) eqn:N2.
  - unfold identity_key in E. by rewrite !number_key in * by done.
  - by apply number_key_differs in E.
  - symmetry in E. by apply number_key_differs in E.
  - destruct (identity_key_word v1) as [[w H]|(_ & P1 & H1)].
    + pose proof H as H'. apply non_number_word in H' as ->; [|done].
      rewrite E in H. apply non_number_word in H; [|done]. by apply value_eq_raw in H as ->.
    + destruct (identity_key_word v2) as [[w H]|(_ & P2 & H2)];
        [rewrite H in E; destruct H1 as [[_ H1]|[_ H1]]; congruence|].
      unfold collection_key_hash. rewrite N1, N2, P1, P2.
      destruct H1 as [[-> H1]|[-> H1]], H2 as [[-> H2]|[-> H2]]; congruence.
Qed.

(** SameValueZero, the equality of Map and Set keys, is an equivalence
    relation on canonical values, and equal keys are hashed alike: NaN, the two
    zeros, and strings and BigInts stored at different addresses included. *)
Theorem collection_key_laws v1 v2 v3 :
  canonical v1 -> canonical v2 -> canonical v3 ->
  same_value_zero heap v1 v1 = true /\
  same_value_zero heap v1 v2 = same_value_zero heap v2 v1 /\
  (same_value_zero heap v1 v2 = true -> same_value_zero heap v2 v3 = true ->
   same_value_zero heap v1 v3 = true) /\
  (same_value_zero heap v1 v2 = true ->
   collection_key_hash heap v1 = collection_key_hash heap v2).
Proof.
  intros C1 C2 C3. split_and!.
  - by apply same_value_zero_key.
  - apply Bool.eq_iff_eq_true. rewrite !same_value_zero_key by done. done.
  - rewrite !same_value_zero_key by done. congruence.
  - rewrite same_value_zero_key by done. by apply identity_key_hash.
Qed.

(** ** IsLessThan on numeric operands *)

(** The extended value of a Number or BigInt, scaled by 2^1074; NaN has none. *)
Inductive ExtendedValue : Type := NegInf | Finite (x : Z) | PosInf.

Definition numeric_value (v : Value) : option ExtendedValue :=
  if is_bigint heap v then Some (Finite (bigint heap v * F64_ONE_SCALED))
  else
    let f := as_number v in
    if f64_is_nan f then None
    else if f64_is_infinite f then Some (if f64_sign f then NegInf else PosInf)
    else Some (Finite (f64_scaled f)).

Definition extended_lt (a b : ExtendedValue) : bool :=
  match a, b with
  | NegInf, NegInf => false
  | NegInf, _ => true
  | Finite x, Finite y => x <? y
  | Finite _, PosInf => true
  | _, _ => false
  end.

(** A number or a BigInt. *)
Definition numeric (v : Value) : Prop :=
  is_bigint heap v = true \/ well_formed v /\ is_number v = true /\ is_bigint heap v = false.

Lemma quot_bounds x o :
  0 < o ->
  (0 <= x -> o * Z.quot x o <= x < o * Z.quot x o + o) /\
  (x <= 0 -> o * Z.quot x o - o < x <= o * Z.quot x o).
Proof.
  intros Ho. pose proof (Z.quot_rem' x o) as E. split; intros Hx.
  - pose proof (Z.rem_bound_pos x o Hx Ho) as Hr.
    generalize dependent (Z.rem x o). generalize (o * Z.quot x o). lia.
  - pose proof (Z.rem_bound_pos_neg x o Ho Hx) as Hr.
    generalize dependent (Z.rem x o). generalize (o * Z.quot x o). lia.
Qed.

Lemma f64_eq_infinity f :
  f64_ok f -> f64_is_nan f = false ->
  f64_eq f F64_INFINITY = f64_is_infinite f && negb (f64_sign f) /\
  f64_eq f F64_NEG_INFINITY = f64_is_infinite f && f64_sign f.
Proof.
  intros Hok Hn. destruct (f64_is_infinite f) eqn:Hi.
  - rewrite (f64_infinite_pattern f Hok Hi). destruct (f64_sign f); split; vm_compute; done.
  - assert (Hf : f64_is_finite f = true).
    { destruct (f64_class f) as [H|[H|H]]; congruence. }
    pose proof (f64_is_finite_bound f Hf) as Hb. unfold f64_eq. rewrite Hn.
    assert (f64_scaled F64_INFINITY = 2 ^ 2098) as -> by (vm_compute; reflexivity).
    assert (f64_scaled F64_NEG_INFINITY = - 2 ^ 2098) as -> by (vm_compute; reflexivity).
    rewrite !(proj2 (Z.eqb_neq _ _)) by lia. by rewrite !andb_false_r.
Qed.

Lemma bigint_before_number z f :
  f64_is_finite f = true ->
  match z ?= f64_integer_part f with
  | Lt => true
  | Eq => if negb (f64_eq (f64_trunc f) f) then f64_lt 0 f else false
  | Gt => false
  end = (z * F64_ONE_SCALED <? f64_scaled f).
Proof.
  intros Hf. pose proof (f64_is_finite_not_nan f Hf) as Hn.
  rewrite f64_trunc_eq by done. unfold f64_lt. rewrite Hn, (proj1 f64_zero_scaled). cbn [negb andb].
  assert (f64_is_nan 0 = false) as -> by done. cbn [negb andb].
  pose proof (quot_bounds (f64_scaled f) F64_ONE_SCALED F64_ONE_pos) as [Hp Hm].
  pose proof F64_ONE_pos. unfold f64_integer_part.
  generalize dependent (Z.quot (f64_scaled f) F64_ONE_SCALED). intros q Hp Hm.
  generalize dependent (f64_scaled f). intros x Hp Hm.
  generalize dependent F64_ONE_SCALED. intros o Ho Hp Hm.
  destruct (Z.compare_spec z q); symmetry.
  - subst z. destruct (Z.eqb_spec x (q * o)); cbn [negb]; lia.
  - apply Z.ltb_lt. assert (z * o <= (q - 1) * o) by (apply Z.mul_le_mono_nonneg_r; lia). lia.
  - apply Z.ltb_ge. assert ((q + 1) * o <= z * o) by (apply Z.mul_le_mono_nonneg_r; lia). lia.
Qed.

Lemma number_before_bigint z f :
  f64_is_finite f = true ->
  match f64_integer_part f ?= z with
  | Lt => true
  | Eq => if negb (f64_eq (f64_trunc f) f) then f64_lt f 0 else false
  | Gt => false
  end = (f64_scaled f <? z * F64_ONE_SCALED).
Proof.
  intros Hf. pose proof (f64_is_finite_not_nan f Hf) as Hn.
  rewrite f64_trunc_eq, f64_lt_zero by done.
  pose proof (quot_bounds (f64_scaled f) F64_ONE_SCALED F64_ONE_pos) as [Hp Hm].
  pose proof F64_ONE_pos. unfold f64_integer_part.
  generalize dependent (Z.quot (f64_scaled f) F64_ONE_SCALED). intros q Hp Hm.
  generalize dependent (f64_scaled f). intros x Hp Hm.
  generalize dependent F64_ONE_SCALED. intros o Ho Hp Hm.
  destruct (Z.compare_spec q z); symmetry.
  - subst z. destruct (Z.eqb_spec x (q * o)); cbn [negb]; lia.
  - apply Z.ltb_lt. assert ((q + 1) * o <= z * o) by (apply Z.mul_le_mono_nonneg_r; lia). lia.
  - apply Z.ltb_ge. assert (z * o <= (q - 1) * o) by (apply Z.mul_le_mono_nonneg_r; lia). lia.
Qed.

(** The conversion of the num-bigint crate: truncation of a finite number. *)
Hypothesis f64_to_bigint_truncates :
  forall f, f64_is_finite f = true -> f64_to_bigint f = Some (f64_integer_part f).

Lemma numbers_lt f1 f2 :
  f64_ok f1 -> f64_ok f2 -> f64_is_nan f1 = false -> f64_is_nan f2 = false ->
  f64_lt f1 f2 =
  extended_lt
    (if f64_is_infinite f1 then if f64_sign f1 then NegInf else PosInf else Finite (f64_scaled f1))
    (if f64_is_infinite f2 then if f64_sign f2 then NegInf else PosInf else Finite (f64_scaled f2)).
Proof.
  intros O1 O2 N1 N2. unfold f64_lt. rewrite N1, N2. cbn [negb andb].
  assert (E1 : f64_scaled F64_INFINITY = 2 ^ 2098) by (vm_compute; reflexivity).
  assert (E2 : f64_scaled F64_NEG_INFINITY = - 2 ^ 2098) by (vm_compute; reflexivity).
  assert (Hpos : 0 < 2 ^ 2098) by done.
  assert (Hfin : forall f, f64_is_nan f = false -> f64_is_infinite f = false ->
            Z.abs (f64_scaled f) < 2 ^ 2098).
  { intros f Hn Hi. apply f64_is_finite_bound.
    destruct (f64_class f) as [H|[H|H]]; congruence. }
  destruct (f64_is_infinite f1) eqn:I1; [rewrite (f64_infinite_pattern f1 O1 I1) at 1|];
  (destruct (f64_is_infinite f2) eqn:I2; [rewrite (f64_infinite_pattern f2 O2 I2) at 1|]);
    try (pose proof (Hfin f1 N1 I1)); try (pose proof (Hfin f2 N2 I2));
    set (x := 2 ^ 2098) in *; clearbody x;
    try destruct (f64_sign f1); try destruct (f64_sign f2); rewrite ?E1, ?E2; cbn; lia.
Qed.

(** IsLessThan on Numbers and BigInts compares the exact mathematical
    values, also between a BigInt and a fractional or infinite Number, and is
    undefined exactly when an operand is NaN; the BigInt conversion it unwraps
    never fails. *)
Theorem is_less_than_numeric_exact x y :
  numeric x -> numeric y ->
  is_less_than_numeric heap f64_to_bigint x y =
  EOk match numeric_value x, numeric_value y with
      | Some a, Some b => bool_value (extended_lt a b)
      | _, _ => undefined
      end.
Proof.
  intros Hx Hy. unfold is_less_than_numeric, numeric_value, unwrap_bigint.
  destruct Hx as [Bx|(Wx & Nx & Bx)], Hy as [By|(Wy & Ny & By)]; rewrite Bx, By; cbn [eqb].
  - f_equal. f_equal. cbn. pose proof F64_ONE_pos. apply Bool.eq_iff_eq_true.
    rewrite !Z.ltb_lt. by apply Z.mul_lt_mono_pos_r.
  - destruct (well_formed_number_facts y Wy Ny) as [-> Oy].
    destruct (f64_is_nan (as_number y)) eqn:En; [done|].
    destruct (f64_eq_infinity (as_number y) Oy En) as [-> ->].
    destruct (f64_is_infinite (as_number y)) eqn:Ei; [by destruct (f64_sign (as_number y))|].
    assert (Hf : f64_is_finite (as_number y) = true)
      by (destruct (f64_class (as_number y)) as [H|[H|H]]; congruence).
    cbn [andb]. rewrite f64_to_bigint_truncates by done. cbn [mbind EvalResult_bind].
    by rewrite bigint_before_number.
  - destruct (well_formed_number_facts x Wx Nx) as [-> Ox].
    destruct (f64_is_nan (as_number x)) eqn:En; [done|].
    destruct (f64_eq_infinity (as_number x) Ox En) as [-> ->].
    destruct (f64_is_infinite (as_number x)) eqn:Ei; [by destruct (f64_sign (as_number x))|].
    assert (Hf : f64_is_finite (as_number x) = true)
      by (destruct (f64_class (as_number x)) as [H|[H|H]]; congruence).
    cbn [andb]. rewrite f64_to_bigint_truncates by done. cbn [mbind EvalResult_bind].
    by rewrite number_before_bigint.
  - destruct (well_formed_number_facts x Wx Nx) as [-> Ox].
    destruct (well_formed_number_facts y Wy Ny) as [-> Oy].
    destruct (f64_is_nan (as_number x)) eqn:Ex; [done|].
    destruct (f64_is_nan (as_number y)) eqn:Ey; [by destruct (f64_is_infinite (as_number x))|].
    cbn [orb]. rewrite numbers_lt by done.
    by destruct (f64_is_infinite (as_number x)), (f64_is_infinite (as_number y)).
Qed.

(** ** IsLooselyEqual terminates *)

(** The values JavaScript code can hold: no empty marker, and pointers only to
    objects, strings, symbols and BigInts. *)
Definition js_pointer_kind (k : HeapItemKind) : Prop :=
  kind_is_object k = true \/ k = String \/ k = Symbol \/ k = BigInt.

Definition js_value (v : Value) : Prop :=
  exists w, view_ok w /\ v = encode_view w /\
  match w with
  | VEmpty => False
  | VPointer p => js_pointer_kind (item_kind heap p)
  | _ => True
  end.

(** Neither a panic, nor undefined behaviour, nor exhausted fuel. *)
Definition completes {A} (r : EvalResult A) : Prop :=
  match r with EOk _ | EErr _ => True | _ => False end.

(** Conversion methods return JavaScript values or throw. *)
Hypothesis convert_object_returns :
  forall v h, completes (convert_object v h) /\
              forall r, convert_object v h = EOk r -> js_value r.

(** How many more rounds an operand can cause. *)
Definition conversion_rank (v : Value) : nat :=
  if is_object heap v then 2 else if is_bool v then 1 else 0.

Lemma to_primitive_completes v h :
  js_value v ->
  completes (to_primitive heap convert_object v h) /\
  forall r, to_primitive heap convert_object v h = EOk r ->
    js_value r /\ is_object heap r = false.
Proof.
  intros Hv. unfold to_primitive. destruct (is_object heap v) eqn:Ho; cbn [negb].
  - destruct (convert_object_returns v h) as [Hc Hr].
    destruct (convert_object v h) as [r|e| | |];
      [|split; [exact I|discriminate]|destruct Hc..].
    cbn [mbind EvalResult_bind].
    destruct (is_object heap r) eqn:Hor; (split; [exact I|]); [discriminate|].
    intros r' [= <-]. auto.
  - split; [done|]. by intros r [= <-].
Qed.

(** A boolean becomes a number, which causes no more rounds. *)
Lemma to_number_bool v :
  js_value v -> is_bool v = true ->
  exists n, to_number heap convert_object parse_number v = EOk (smi n) /\ (n = 0 \/ n = 1).
Proof.
  intros (w & Hok & -> & _) Hb. rewrite is_bool_view in Hb by done. destruct w as [b| | | | | |]; try done.
  unfold to_number. cbn [to_number_fuel].
  rewrite is_number_view, is_pointer_view, view_tag by done. cbn.
  rewrite as_bool_view. destruct b; eauto.
Qed.

Lemma smi_js_value n : n = 0 \/ n = 1 -> js_value (smi n) /\ conversion_rank (smi n) = 0%nat.
Proof.
  intros Hn. assert (Hok : view_ok (VSmi n)) by (cbn; unfold i32_min, i32_max; lia).
  split; [by exists (VSmi n)|]. unfold conversion_rank, is_object.
  change (smi n) with (encode_view (VSmi n)). by rewrite is_pointer_view, is_bool_view.
Qed.

Lemma rank_primitive v : is_object heap v = false -> (conversion_rank v <= 1)%nat.
Proof. unfold conversion_rank. intros ->. case_match; lia. Qed.

Lemma number_equals_bigint_completes v b :
  js_value v -> is_number v = true -> completes (number_equals_bigint f64_to_bigint v b).
Proof.
  intros (w & Hok & -> & _) Hn. unfold number_equals_bigint, unwrap_bigint.
  destruct (is_nan (encode_view w) || is_infinity (encode_view w)) eqn:E; [done|].
  apply orb_false_iff in E as [E1 E2].
  destruct (f64_eq _ _); [|done]. cbn [negb].
  rewrite f64_to_bigint_truncates; [done|].
  rewrite is_nan_view, is_infinity_view, is_number_view in * by done.
  rewrite as_number_view by done. destruct w; try done.
  - cbn in Hok. apply f64_of_int_finite. unfold i32_min, i32_max in Hok. lia.
  - destruct (f64_class d) as [H|[H|H]]; congruence.
Qed.

Lemma primitive_step {B} v h (k : Value -> EvalResult B) :
  js_value v ->
  (forall r, js_value r -> (conversion_rank r <= 1)%nat -> completes (k r)) ->
  completes (to_primitive heap convert_object v h ≫= k).
Proof.
  intros Hv Hk. destruct (to_primitive_completes v h Hv) as [Hc Hr].
  destruct (to_primitive heap convert_object v h) as [r|e| | |]; [|exact I|destruct Hc..].
  destruct (Hr r eq_refl) as [Hjs Ho]. apply Hk; [done|by apply rank_primitive].
Qed.

Lemma bool_step {B} v (k : Value -> EvalResult B) :
  js_value v -> is_bool v = true ->
  (forall r, js_value r -> conversion_rank r = 0%nat -> completes (k r)) ->
  completes (to_number heap convert_object parse_number v ≫= k).
Proof.
  intros Hv Hb Hk. destruct (to_number_bool v Hv Hb) as (n & -> & Hn).
  destruct (smi_js_value n Hn). by apply Hk.
Qed.

Lemma rank_view w : view_ok w ->
  conversion_rank (encode_view w) =
  match w with
  | VBool _ => 1%nat
  | VPointer p => if kind_is_object (item_kind heap p) then 2%nat else 0%nat
  | _ => 0%nat
  end.
Proof.
  intros Hok. unfold conversion_rank, is_object.
  rewrite is_pointer_view, is_bool_view by done. by destruct w.
Qed.

Lemma js_rank v :
  js_value v ->
  (is_number v = true -> conversion_rank v = 0%nat) /\
  (is_bool v = true -> conversion_rank v = 1%nat) /\
  (is_pointer v = true -> js_pointer_kind (kind_of heap v) /\
     (kind_is_object (kind_of heap v) = true -> conversion_rank v = 2%nat)).
Proof.
  intros (w & Hok & -> & Hk). rewrite rank_view by done.
  rewrite is_number_view, is_bool_view, is_pointer_view by done.
  destruct w; try done. cbn in *. split_and!; [done..|]. intros _. split; [done|].
  unfold kind_of, as_pointer, heap_item, as_raw_bits. by intros ->.
Qed.

Lemma pointer_match {A} k (a b c d : EvalResult A) :
  js_pointer_kind k -> completes a -> completes b -> completes c ->
  (kind_is_object k = true -> completes d) ->
  completes (match k with String => a | BigInt => b | Symbol => c | _ => d end).
Proof.
  intros [H|[->|[->| ->]]] Ha Hb Hc Hd; [|assumption..].
  rewrite object_kind_match by done. auto.
Qed.

Section Rounds.

(** The recursive call completes on operands of smaller total rank. *)
Context (loosely : Value -> Value -> EvalResult bool) (v1 v2 : Value).
Hypothesis recursion : forall r1 r2,
  js_value r1 -> js_value r2 ->
  (conversion_rank r1 + conversion_rank r2 < conversion_rank v1 + conversion_rank v2)%nat ->
  completes (loosely r1 r2).
Hypothesis J1 : js_value v1.
Hypothesis J2 : js_value v2.

Lemma number_round :
  is_number v1 = true ->
  completes (loosely_equal_number heap convert_object parse_number f64_to_bigint loosely v1 v2).
Proof.
  intros N1. unfold loosely_equal_number. destruct (is_number v2); [exact I|].
  destruct (js_rank v2 J2) as (_ & Hb & Hp).
  destruct (is_pointer v2) eqn:P2.
  - destruct (Hp eq_refl) as [Hk Hr].
    apply pointer_match; [done|exact I|by apply number_equals_bigint_completes|exact I|].
    intros Ho. apply primitive_step; [done|]. intros r Jr Rr. apply recursion; [done..|].
    rewrite (Hr Ho). lia.
  - destruct (is_bool v2) eqn:B2; [|exact I].
    apply bool_step; [done..|]. intros r Jr Rr. apply recursion; [done..|].
    rewrite (Hb eq_refl). lia.
Qed.

Lemma completes_parse (o : option Z) (f : Z -> bool) :
  completes (match o with Some b => EOk (f b) | None => EOk false end).
Proof. by destruct o. Qed.

Lemma convert_round :
  is_number v1 = false ->
  completes (loosely_equal_convert heap convert_object parse_number parse_bigint f64_to_bigint
               loosely v1 v2).
Proof.
  intros N1. unfold loosely_equal_convert. cbn zeta.
  destruct (js_rank v1 J1) as (_ & Hb1 & Hp1), (js_rank v2 J2) as (_ & Hb2 & Hp2).
  destruct (_ || _); [exact I|].
  destruct (get_tag v1 =? BOOL_TAG) eqn:B1.
  { apply bool_step; [done..|]. intros r Jr Rr. apply recursion; [done..|].
    rewrite (Hb1 B1). lia. }
  destruct (get_tag v2 =? BOOL_TAG) eqn:B2.
  { apply bool_step; [done..|]. intros r Jr Rr. apply recursion; [done..|].
    rewrite (Hb2 B2). lia. }
  destruct ((get_tag v2 =? SMI_TAG) || is_double v2) eqn:N2.
  { destruct (get_tag v1 =? POINTER_TAG) eqn:P1; [|exact I].
    destruct (Hp1 P1) as [Hk Hr].
    apply pointer_match; [done|exact I|by apply number_equals_bigint_completes|exact I|].
    intros Ho. apply primitive_step; [done|]. intros r Jr Rr. apply recursion; [done..|].
    rewrite (Hr Ho). lia. }
  destruct (get_tag v1 =? POINTER_TAG) eqn:P1; [|exact I].
  destruct (get_tag v2 =? POINTER_TAG) eqn:P2; [|exact I]. cbn [andb].
  destruct (Hp1 P1) as [_ Hr1], (Hp2 P2) as [_ Hr2].
  destruct (_ && _); [apply completes_parse|]. destruct (_ && _); [apply completes_parse|].
  destruct (kind_is_object (kind_of heap v1)) eqn:O1.
  { apply primitive_step; [done|]. intros r Jr Rr. apply recursion; [done..|].
    rewrite (Hr1 eq_refl). lia. }
  destruct (kind_is_object (kind_of heap v2)) eqn:O2; [|exact I].
  apply primitive_step; [done|]. intros r Jr Rr. apply recursion; [done..|].
  rewrite (Hr2 eq_refl). lia.
Qed.

End Rounds.

Lemma loosely_equal_completes fuel v1 v2 :
  js_value v1 -> js_value v2 -> (conversion_rank v1 + conversion_rank v2 < fuel)%nat ->
  completes (is_loosely_equal_fuel heap convert_object parse_number parse_bigint f64_to_bigint
               fuel v1 v2).
Proof.
  revert v1 v2. induction fuel as [|fuel IH]; intros v1 v2 J1 J2 Hf; [lia|].
  cbn [is_loosely_equal_fuel]. cbn zeta.
  assert (Hrec : forall r1 r2, js_value r1 -> js_value r2 ->
    (conversion_rank r1 + conversion_rank r2 < conversion_rank v1 + conversion_rank v2)%nat ->
    completes (is_loosely_equal_fuel heap convert_object parse_number parse_bigint f64_to_bigint
                 fuel r1 r2)).
  { intros r1 r2 Jr1 Jr2 Hr. apply IH; [done..|lia]. }
  destruct (is_number v1) eqn:N1; [by apply number_round|].
  pose proof (convert_round _ v1 v2 Hrec J1 J2 N1).
  destruct (as_raw_bits v1 =? as_raw_bits v2); [exact I|].
  destruct (get_tag v1 =? get_tag v2); [|assumption].
  destruct (get_tag v1 =? POINTER_TAG); [|exact I].
  destruct (kind_eqb (kind_of heap v1) (kind_of heap v2)); [exact I|].
  destruct (kind_is_object (kind_of heap v1) && kind_is_object (kind_of heap v2));
    [exact I|assumption].
Qed.

Lemma is_object_pointer v :
  is_object heap v = true -> is_pointer v = true /\ kind_is_object (kind_of heap v) = true.
Proof.
  unfold is_object. destruct (is_pointer v); cbn [negb]; intros H; [auto|discriminate H].
Qed.

(** Two objects are compared by identity, in one round. *)
Lemma objects_complete fuel v1 v2 :
  js_value v1 -> js_value v2 -> is_object heap v1 = true -> is_object heap v2 = true ->
  completes (is_loosely_equal_fuel heap convert_object parse_number parse_bigint f64_to_bigint
               (S fuel) v1 v2).
Proof.
  intros (w1 & K1 & E1 & _) _ [P1 O1]%is_object_pointer [P2 O2]%is_object_pointer.
  cbn [is_loosely_equal_fuel]. cbn zeta.
  assert (is_number v1 = false) as ->.
  { rewrite E1, is_number_view by exact K1. rewrite E1, is_pointer_view in P1 by exact K1.
    destruct w1; first [discriminate P1|reflexivity]. }
  destruct (as_raw_bits v1 =? as_raw_bits v2); [exact I|].
  unfold is_pointer, has_tag in P1, P2. rewrite P1.
  apply Z.eqb_eq in P1, P2. rewrite P1, P2.
  destruct (kind_eqb (kind_of heap v1) (kind_of heap v2)); [exact I|].
  rewrite O1, O2. exact I.
Qed.

Lemma rank_bound v : (conversion_rank v <= if is_object heap v then 2 else 1)%nat.
Proof. unfold conversion_rank. repeat case_match; lia. Qed.

(** IsLooselyEqual terminates on all JavaScript values: whatever values the
    conversion methods of objects return, at most four rounds of conversions are
    needed and the outcome is a boolean or a thrown error, never a panic. *)
Theorem is_loosely_equal_terminates v1 v2 :
  js_value v1 -> js_value v2 ->
  completes (is_loosely_equal heap convert_object parse_number parse_bigint f64_to_bigint v1 v2).
Proof.
  intros J1 J2. unfold is_loosely_equal.
  pose proof (rank_bound v1) as R1. pose proof (rank_bound v2) as R2.
  destruct (is_object heap v1) eqn:O1, (is_object heap v2) eqn:O2;
    [by apply objects_complete|apply loosely_equal_completes; [done..|lia]..].
Qed.
End ComparisonLaws.

Module ComparisonExample.
Import ConversionExample.

(** A negative zero, a small zero and NaN as keys. *)
Lemma ex_zero_canonical : canonical (number F64_SIGN) /\ canonical (smi 0) /\ canonical nan.
Proof.
  assert (H : view_ok (VDouble F64_SIGN) /\ view_ok (VSmi 0) /\ view_ok (VDouble F64_NAN)).
  { split_and!; cbn; unfold canonical_double, f64_ok, i32_min, i32_max; try lia;
      vm_compute; split; try done; split; congruence. }
  destruct H as (H1 & H2 & H3).
  split; [|split]; [exists (VDouble F64_SIGN)|exists (VSmi 0)|exists (VDouble F64_NAN)];
    (split; [split; [assumption|vm_compute; first [reflexivity|exact I]]|vm_compute; reflexivity]).
Qed.

Lemma collection_key_laws_witness :
  same_value_zero ex_heap (number F64_SIGN) (smi 0) = true /\
  collection_key_hash ex_heap (number F64_SIGN) = collection_key_hash ex_heap (smi 0).
Proof.
  destruct ex_zero_canonical as (H1 & H2 & H3).
  pose proof (collection_key_laws ex_heap _ _ _ H1 H2 H3) as (_ & _ & _ & H).
  assert (E : same_value_zero ex_heap (number F64_SIGN) (smi 0) = true)
    by (vm_compute; reflexivity).
  split; [exact E|exact (H E)].
Defined.

(** The conversion of f64 to BigInt as the crate documents it. *)
Definition ex_to_bigint (f : f64) : option Z :=
  if f64_is_finite f then Some (f64_integer_part f) else None.

Lemma ex_to_bigint_truncates f :
  f64_is_finite f = true -> ex_to_bigint f = Some (f64_integer_part f).
Proof. unfold ex_to_bigint. by intros ->. Qed.

(** The BigInt 3 is less than 3.5. *)
Definition ex_fraction : Value := number (f64_add (f64_of_int 3) F64_HALF).

Lemma is_less_than_numeric_exact_witness :
  is_less_than_numeric ex_heap ex_to_bigint (heap_item 16) ex_fraction = EOk (bool_value true).
Proof.
  etransitivity.
  - apply (is_less_than_numeric_exact ex_heap ex_to_bigint).
    + exact ex_to_bigint_truncates.
    + left. vm_compute. reflexivity.
    + right. split; [|split; vm_compute; reflexivity].
      apply well_formed_number. unfold f64_ok. vm_compute. split; congruence.
  - vm_compute. reflexivity.
Defined.

Lemma ex_js_pointer p : 0 < p < 2 ^ 48 ->
  js_pointer_kind (item_kind ex_heap p) -> js_value ex_heap (heap_item p).
Proof. intros Hp Hk. by exists (VPointer p). Qed.

Lemma ex_bool_js b : js_value ex_heap (bool_value b).
Proof. by exists (VBool b). Qed.

(** An object whose conversion gives true, against a boolean: all four rounds. *)
Lemma is_loosely_equal_terminates_witness :
  completes (is_loosely_equal ex_heap ex_convert ex_parse_number (fun _ => None) ex_to_bigint
               (heap_item 32) (bool_value true)) /\
  is_loosely_equal ex_heap ex_convert ex_parse_number (fun _ => None) ex_to_bigint
    (heap_item 32) (bool_value true) = EOk true.
Proof.
  split; [|vm_compute; reflexivity].
  apply (is_loosely_equal_terminates ex_heap).
  - exact ex_to_bigint_truncates.
  - intros v h. split; [exact I|]. intros r [= <-]. apply ex_bool_js.
  - apply ex_js_pointer; [lia|]. left. vm_compute. reflexivity.
  - apply ex_bool_js.
Defined.

End ComparisonExample.
