(* ===== verification/Unicode.v ===== *)
(** Code units and code points: [src/so2js/common/unicode.rs] and the iterators
    of [src/so2js/common/string_iterators.rs].

    Strings are lists of 16-bit code units.  A code point above 0xFFFF is a pair
    of surrogates; unpaired surrogates stand for themselves. *)

From S2P Require Import Prelude.

Definition MAX_CODE_POINT : Z := 0x10FFFF.
Definition HIGH_SURROGATE_START : Z := 0xD800.
Definition HIGH_SURROGATE_END : Z := 0xDBFF.
Definition LOW_SURROGATE_START : Z := 0xDC00.
Definition LOW_SURROGATE_END : Z := 0xDFFF.

Definition is_high_surrogate_code_unit (u : Z) : bool :=
  (HIGH_SURROGATE_START <=? u) && (u <=? HIGH_SURROGATE_END).
Definition is_low_surrogate_code_unit (u : Z) : bool :=
  (LOW_SURROGATE_START <=? u) && (u <=? LOW_SURROGATE_END).
Definition needs_surrogate_pair (code_point : Z) : bool := 0x10000 <=? code_point.

Definition try_encode_surrogate_pair (code_point : Z) : option (Z * Z) :=
  if negb (needs_surrogate_pair code_point) then None
  else
    let offset_code_point := code_point - 0x10000 in
    let high_bits := Z.shiftr offset_code_point 10 mod 2 ^ 16 in
    let low_bits := Z.land offset_code_point 0x3FF mod 2 ^ 16 in
    Some (high_bits + HIGH_SURROGATE_START, low_bits + LOW_SURROGATE_START).

Definition code_point_from_surrogate_pair (high low : Z) : Z :=
  let high_bits := high - HIGH_SURROGATE_START in
  let low_bits := low - LOW_SURROGATE_START in
  Z.lor (Z.shiftl high_bits 10) low_bits + 0x10000.

Definition is_surrogate_code_point (code_point : Z) : bool :=
  (HIGH_SURROGATE_START <=? code_point) && (code_point <=? LOW_SURROGATE_END).

(** [encode_utf8_codepoint] into a buffer with room. *)
Definition encode_utf8_codepoint (c : Z) : outcome (list Z) :=
  let continuation shift := Z.lor 0x80 (Z.land (Z.shiftr c shift) 0x3F) in
  if c <? 0x80 then Done [c]
  else if c <=? 0x7FF then Done [Z.lor 0xC0 (Z.shiftr c 6); continuation 0]
  else if c <=? 0xFFFF then Done [Z.lor 0xE0 (Z.shiftr c 12); continuation 6; continuation 0]
  else if c <=? MAX_CODE_POINT
  then Done [Z.lor 0xF0 (Z.shiftr c 18); continuation 12; continuation 6; continuation 0]
  else Panicked.

Definition is_unicode_newline (code_point : Z) : bool :=
  (code_point =? 0x2028) || (code_point =? 0x2029).
Definition is_ascii_newline (code_point : Z) : bool := (code_point =? 10) || (code_point =? 13).
Definition is_newline (code_point : Z) : bool :=
  is_ascii_newline code_point || is_unicode_newline code_point.

(** ** Iterators

    An iterator over a slice is the list of the code units between its two
    pointers; [next] takes from the front and [next_back] from the back. *)

Definition code_unit_next (it : list Z) : option (Z * list Z) :=
  match it with
  | [] => None
  | u :: it' => Some (u, it')
  end.

Definition code_unit_next_back (it : list Z) : option (Z * list Z) :=
  match last it with
  | None => None
  | Some u => Some (u, removelast it)
  end.

Definition code_unit_peek (it : list Z) : option Z := head it.
Definition code_unit_peek_back (it : list Z) : option Z := last it.

(** [GenericCodePointIterator::next]. *)
Definition code_point_next (it : list Z) : option (Z * list Z) :=
  match code_unit_next it with
  | None => None
  | Some (code_unit, it') =>
      if is_high_surrogate_code_unit code_unit then
        match code_unit_peek it' with
        | Some next_code_unit =>
            if is_low_surrogate_code_unit next_code_unit
            then Some (code_point_from_surrogate_pair code_unit next_code_unit,
                       match code_unit_next it' with Some (_, it'') => it'' | None => it' end)
            else Some (code_unit, it')
        | None => Some (code_unit, it')
        end
      else Some (code_unit, it')
  end.

(** [CodePointIterator::next_back]; the second half of a pair is skipped with
    [self.iter.next()]. *)
Definition code_point_next_back (it : list Z) : option (Z * list Z) :=
  match code_unit_next_back it with
  | None => None
  | Some (code_unit, it') =>
      if is_low_surrogate_code_unit code_unit then
        match code_unit_peek_back it' with
        | Some prev_code_unit =>
            if is_high_surrogate_code_unit prev_code_unit
            then Some (code_point_from_surrogate_pair prev_code_unit code_unit,
                       match code_unit_next it' with Some (_, it'') => it'' | None => it' end)
            else Some (code_unit, it')
        | None => Some (code_unit, it')
        end
      else Some (code_unit, it')
  end.

(** All code points, by repeated [next] or [next_back]. *)
Fixpoint collect (next : list Z -> option (Z * list Z)) (fuel : nat) (it : list Z) : list Z :=
  match fuel with
  | O => []
  | S fuel' => match next it with
               | None => []
               | Some (c, it') => c :: collect next fuel' it'
               end
  end.

Definition code_points (units : list Z) : list Z :=
  collect code_point_next (length units) units.
Definition code_points_back (units : list Z) : list Z :=
  collect code_point_next_back (length units) units.

(** Encoding of a code point as code units. *)
Definition encode_utf16 (c : Z) : list Z :=
  match try_encode_surrogate_pair c with
  | Some (high, low) => [high; low]
  | None => [c]
  end.

(** ** Surrogate pairs *)

(** The pair of a supplementary code point and back. *)
Lemma surrogate_pair_roundtrip c :
  0x10000 <= c <= MAX_CODE_POINT ->
  exists high low,
    try_encode_surrogate_pair c = Some (high, low) /\
    is_high_surrogate_code_unit high = true /\ is_low_surrogate_code_unit low = true /\
    code_point_from_surrogate_pair high low = c.
Proof.
  unfold MAX_CODE_POINT. intros Hc. unfold try_encode_surrogate_pair, needs_surrogate_pair.
  rewrite (proj2 (Z.leb_le _ _)) by lia. cbn [negb]. eexists _, _. split; [done|].
  change 0x3FF with (Z.ones 10). rewrite Z.land_ones, Z.shiftr_div_pow2 by lia.
  unfold is_high_surrogate_code_unit, is_low_surrogate_code_unit, code_point_from_surrogate_pair,
    HIGH_SURROGATE_START, HIGH_SURROGATE_END, LOW_SURROGATE_START, LOW_SURROGATE_END.
  rewrite !andb_true_iff, !Z.leb_le.
  rewrite !(Z.mod_small _ (2 ^ 16)) by div_lia.
  split_and!; try div_lia. rewrite lor_shiftl_add by div_lia. div_lia.
Qed.

(** Unicode scalar values. *)
Definition is_scalar (c : Z) : Prop :=
  0 <= c <= MAX_CODE_POINT /\
  is_high_surrogate_code_unit c = false /\ is_low_surrogate_code_unit c = false.

Lemma code_point_next_scalar c rest :
  is_scalar c -> code_point_next (encode_utf16 c ++ rest) = Some (c, rest).
Proof.
  intros (Hc & Hh & Hl). unfold encode_utf16.
  destruct (decide (0x10000 <= c)) as [Hs|Hs].
  - destruct (surrogate_pair_roundtrip c) as (h & l & -> & Eh & El & Ec); [lia|].
    cbn. by rewrite Eh, El, Ec.
  - unfold try_encode_surrogate_pair, needs_surrogate_pair.
    rewrite (proj2 (Z.leb_gt _ _)) by lia. cbn. by rewrite Hh.
Qed.

Lemma encode_utf16_length c : (0 < length (encode_utf16 c))%nat.
Proof. unfold encode_utf16. by destruct (try_encode_surrogate_pair c) as [[??]|]; cbn; lia. Qed.

Lemma encoded_length cs : (length cs <= length (mjoin (encode_utf16 <$> cs)))%nat.
Proof.
  induction cs as [|c cs IH]; [done|].
  change (mjoin (encode_utf16 <$> c :: cs))
    with (encode_utf16 c ++ mjoin (encode_utf16 <$> cs)).
  pose proof (encode_utf16_length c). rewrite length_app, length_cons. lia.
Qed.

Lemma collect_nil next fuel : next [] = None -> collect next fuel [] = [].
Proof. destruct fuel; cbn; [done|]. by intros ->. Qed.

Lemma collect_scalars_exact cs fuel :
  Forall is_scalar cs -> (length cs <= fuel)%nat ->
  collect code_point_next fuel (mjoin (encode_utf16 <$> cs)) = cs.
Proof.
  revert fuel. induction cs as [|c cs IH]; intros fuel Hcs Hf; [by apply collect_nil|].
  destruct fuel as [|fuel]; cbn -[encode_utf16 code_point_next] in *; [lia|].
  apply Forall_cons in Hcs as [Hc Hcs].
  rewrite code_point_next_scalar by done. f_equal. apply IH; [done|lia].
Qed.

(** iterating forwards over the code units of any sequence of Unicode
    scalar values yields exactly these scalar values: surrogate pairs are split
    and joined without loss. *)
Theorem code_point_iteration_roundtrip cs :
  Forall is_scalar cs -> code_points (mjoin (encode_utf16 <$> cs)) = cs.
Proof. intros Hcs. apply collect_scalars_exact; [done|apply encoded_length]. Qed.

Lemma code_point_iteration_roundtrip_witness :
  code_points (mjoin (encode_utf16 <$> [0x78; 0x1F600; 0xFFFF])) = [0x78; 0x1F600; 0xFFFF].
Proof.
  apply code_point_iteration_roundtrip.
  repeat constructor; vm_compute; congruence.
Defined.

(** backwards iteration over a string with a surrogate pair is not the
    reverse of forwards iteration: after the pair the iterator drops a code unit
    at its front and then yields the high surrogate by itself. *)
Theorem backwards_iteration_loses_code_points :
  code_points [0x78; 0x79; 0xD83D; 0xDE00] = [0x78; 0x79; 0x1F600] /\
  code_points_back [0x78; 0x79; 0xD83D; 0xDE00] = [0x1F600; 0xD83D; 0x79].
Proof. vm_compute. done. Qed.
