(* ===== verification/Wtf8.v ===== *)
(** WTF-8: [encode_utf8_codepoint] and [decode_wtf8_codepoint] of
    [src/so2js/common/unicode.rs] and the strings of [src/so2js/common/wtf_8.rs].

    A [Wtf8String] is its list of bytes.  Strings of syntax trees are WTF-8;
    [iter_code_points] reads them as code points, which may be surrogates. *)

From S2P Require Import Prelude Unicode.

Definition is_ascii (code_point : Z) : bool := code_point <? 0x80.
Definition is_continuation_byte (byte : Z) : bool := Z.land byte 0xC0 =? 0x80.

(** A code point with its length, or the length of the invalid bytes. *)
Definition decode_wtf8_codepoint (buf : list Z) : outcome (Z * Z + Z) :=
  b1 ← unwrap (buf !! 0%nat);
  if (Z.land b1 0xE0 =? 0xC0) && (2 <=? Z.of_nat (length buf)) then
    b2 ← unwrap (buf !! 1%nat);
    if negb (is_continuation_byte b2) then Done (inr 2)
    else Done (inl (Z.lor (Z.shiftl (Z.land b1 0x1F) 6) (Z.land b2 0x3F), 2))
  else if (Z.land b1 0xF0 =? 0xE0) && (3 <=? Z.of_nat (length buf)) then
    b2 ← unwrap (buf !! 1%nat);
    b3 ← unwrap (buf !! 2%nat);
    if negb (is_continuation_byte b2) || negb (is_continuation_byte b3) then Done (inr 3)
    else Done (inl (Z.lor (Z.lor (Z.shiftl (Z.land b1 0x0F) 12) (Z.shiftl (Z.land b2 0x3F) 6))
                      (Z.land b3 0x3F), 3))
  else if (Z.land b1 0xF8 =? 0xF0) && (4 <=? Z.of_nat (length buf)) then
    b2 ← unwrap (buf !! 1%nat);
    b3 ← unwrap (buf !! 2%nat);
    b4 ← unwrap (buf !! 3%nat);
    if negb (is_continuation_byte b2) || negb (is_continuation_byte b3)
       || negb (is_continuation_byte b4) then Done (inr 4)
    else Done (inl (Z.lor (Z.lor (Z.lor (Z.shiftl (Z.land b1 0x07) 18) (Z.shiftl (Z.land b2 0x3F) 12))
                      (Z.shiftl (Z.land b3 0x3F) 6)) (Z.land b4 0x3F), 4))
  else Done (inr 1).

(** ** Strings *)

Definition Wtf8String : Type := list Z.

Definition push (string : Wtf8String) (code_point : Z) : outcome Wtf8String :=
  bytes ← encode_utf8_codepoint code_point;
  Done (string ++ bytes).
Definition push_wtf8_str (string other : Wtf8String) : Wtf8String := string ++ other.

(** [Wtf8CodePointsIterator::next]. *)
Definition wtf8_next (buf : Wtf8String) : outcome (option (Z * Wtf8String)) :=
  match buf with
  | [] => Done None
  | first_byte :: rest =>
      if is_ascii first_byte then Done (Some (first_byte, rest))
      else
        d ← decode_wtf8_codepoint buf;
        match d with
        | inl (code_point, byte_length) =>
            Done (Some (code_point, drop (Z.to_nat byte_length) buf))
        | inr _ => Panicked
        end
  end.

(** All code points of a string; every step consumes a byte. *)
Fixpoint collect_code_points (fuel : nat) (buf : Wtf8String) : outcome (list Z) :=
  match fuel with
  | O => OutOfFuel
  | S fuel' =>
      next ← wtf8_next buf;
      match next with
      | None => Done []
      | Some (c, buf') => cs ← collect_code_points fuel' buf'; Done (c :: cs)
      end
  end.
Definition iter_code_points (buf : Wtf8String) : outcome (list Z) :=
  collect_code_points (S (length buf)) buf.

(** ** Encoding

    Decoding inverts the encoding of every code point, surrogates included, and
    no other position of an encoded text decodes to a code point. *)

(** A string built by pushing code points. *)
Fixpoint push_all (string : Wtf8String) (text : list Z) : outcome Wtf8String :=
  match text with
  | [] => Done string
  | c :: text' => string ← push string c; push_all string text'
  end.

Definition encoded_bytes (c : Z) : list Z :=
  match encode_utf8_codepoint c with Done bytes => bytes | _ => [] end.
Definition wtf8_bytes (text : list Z) : list Z := mjoin (encoded_bytes <$> text).

(** What the tests of [decode_wtf8_codepoint] say of a byte, checked for all bytes. *)
Definition byte_class_ok (b : Z) : bool :=
  Bool.eqb (Z.land b 0xE0 =? 0xC0) ((192 <=? b) && (b <? 224)) &&
  Bool.eqb (Z.land b 0xF0 =? 0xE0) ((224 <=? b) && (b <? 240)) &&
  Bool.eqb (Z.land b 0xF8 =? 0xF0) ((240 <=? b) && (b <? 248)) &&
  Bool.eqb (is_continuation_byte b) ((128 <=? b) && (b <? 192)).

Lemma byte_class b : 0 <= b < 256 ->
  (Z.land b 0xE0 =? 0xC0) = ((192 <=? b) && (b <? 224)) /\
  (Z.land b 0xF0 =? 0xE0) = ((224 <=? b) && (b <? 240)) /\
  (Z.land b 0xF8 =? 0xF0) = ((240 <=? b) && (b <? 248)) /\
  is_continuation_byte b = ((128 <=? b) && (b <? 192)).
Proof.
  intros Hb.
  assert (Hall : forallb byte_class_ok (seqZ 0 256) = true) by (vm_compute; reflexivity).
  rewrite forallb_forall in Hall. specialize (Hall b).
  rewrite <- list_elem_of_In, elem_of_seqZ in Hall. specialize (Hall ltac:(lia)).
  unfold byte_class_ok in Hall. rewrite !andb_true_iff, !eqb_true_iff in Hall. tauto.
Qed.

Lemma continuation_value x : 0 <= x < 64 ->
  Z.lor 0x80 x = 128 + x /\ is_continuation_byte (128 + x) = true /\ Z.land (128 + x) 0x3F = x.
Proof.
  intros Hx. split; [apply (lor_shiftl_add 2 x 6); lia|]. split.
  - destruct (byte_class (128 + x)) as (_ & _ & _ & ->); [lia|]. lia.
  - change 0x3F with (Z.ones 6). rewrite Z.land_ones by lia. div_lia.
Qed.

(** The encoded bytes as numbers. *)
Inductive encoding (c : Z) : list Z -> Prop :=
| encoding_1 : 0 <= c < 0x80 -> encoding c [c]
| encoding_2 x y : 0 <= x < 32 -> 0 <= y < 64 -> c = x * 64 + y -> encoding c [192 + x; 128 + y]
| encoding_3 x y z : 0 <= x < 16 -> 0 <= y < 64 -> 0 <= z < 64 -> c = (x * 64 + y) * 64 + z ->
    encoding c [224 + x; 128 + y; 128 + z]
| encoding_4 x y z w : 0 <= x < 8 -> 0 <= y < 64 -> 0 <= z < 64 -> 0 <= w < 64 ->
    c = ((x * 64 + y) * 64 + z) * 64 + w ->
    encoding c [240 + x; 128 + y; 128 + z; 128 + w].

Lemma encoded_bytes_encoding c : 0 <= c <= MAX_CODE_POINT -> encoding c (encoded_bytes c).
Proof.
  unfold MAX_CODE_POINT. intros Hc. unfold encoded_bytes, encode_utf8_codepoint, MAX_CODE_POINT.
  rewrite !Z.shiftr_div_pow2 by lia. change 0x3F with (Z.ones 6). rewrite !Z.land_ones by lia.
  change (2 ^ 0) with 1. rewrite Z.div_1_r.
  repeat match goal with |- context [Z.lor 0x80 ?x] =>
    rewrite (proj1 (continuation_value x ltac:(div_lia))) end.
  destruct (Z.ltb_spec c 0x80); [constructor; lia|].
  destruct (Z.leb_spec c 0x7FF).
  { change 0xC0 with (Z.shiftl 6 5). rewrite (lor_shiftl_add 6 (c / 2 ^ 6) 5) by div_lia. cbn [Z.mul Pos.mul Z.pow Z.pow_pos Pos.iter].
    constructor; div_lia. }
  destruct (Z.leb_spec c 0xFFFF).
  { change 0xE0 with (Z.shiftl 14 4). rewrite (lor_shiftl_add 14 (c / 2 ^ 12) 4) by div_lia. cbn [Z.mul Pos.mul Z.pow Z.pow_pos Pos.iter].
    constructor; div_lia. }
  rewrite (proj2 (Z.leb_le _ _)) by lia.
  change 0xF0 with (Z.shiftl 30 3). rewrite (lor_shiftl_add 30 (c / 2 ^ 18) 3) by div_lia. cbn [Z.mul Pos.mul Z.pow Z.pow_pos Pos.iter].
    constructor; div_lia.
Qed.

(** The bytes after the first do not start a code point. *)
Lemma decode_continuation b rest : 128 <= b < 192 -> decode_wtf8_codepoint (b :: rest) = Done (inr 1).
Proof.
  intros Hb. unfold decode_wtf8_codepoint. cbn [lookup list_lookup unwrap mbind outcome_bind].
  destruct (byte_class b) as (-> & -> & -> & _); [lia|].
  rewrite (proj2 (Z.leb_gt 192 b)), (proj2 (Z.leb_gt 224 b)), (proj2 (Z.leb_gt 240 b)) by lia. done.
Qed.

(** Joining a field below a shifted value. *)
Lemma join_fields a b k j : 0 <= k -> 0 <= j -> 0 <= b < 2 ^ j ->
  Z.lor (Z.shiftl a (j + k)) (Z.shiftl b k) = Z.shiftl (a * 2 ^ j + b) k.
Proof.
  intros Hk Hj Hb. rewrite <- Z.shiftl_shiftl by done. rewrite <- Z.shiftl_lor.
  by rewrite lor_shiftl_add by done.
Qed.

Lemma decode_encoding c bytes rest : encoding c bytes ->
  match decode_wtf8_codepoint (bytes ++ rest) with
  | Done (inl (c', n)) => c' = c /\ n = Z.of_nat (length bytes)
  | Done (inr n) => bytes = [c] /\ n = 1
  | _ => False
  end.
Proof.
  intros H. unfold decode_wtf8_codepoint.
  destruct H as [Hc|x y Hx Hy ->|x y z Hx Hy Hz ->|x y z w Hx Hy Hz Hw ->];
    cbn [app lookup list_lookup unwrap mbind outcome_bind];
    match goal with |- context [Z.land ?b 0xE0] =>
      destruct (byte_class b) as (-> & -> & -> & _); [lia|] end;
    repeat match goal with |- context [128 + ?v] =>
      let E1 := fresh in let E2 := fresh in
      destruct (continuation_value v ltac:(lia)) as (_ & E1 & E2); rewrite ?E1, ?E2; clear E1 E2;
      generalize (128 + v); intros ? end.
  all: repeat match goal with |- context [?a <=? ?b] =>
    first [rewrite (proj2 (Z.leb_le a b)) by (rewrite ?length_cons; lia)
          |rewrite (proj2 (Z.leb_gt a b)) by (rewrite ?length_cons; lia)] end;
    repeat match goal with |- context [?a <? ?b] =>
    first [rewrite (proj2 (Z.ltb_lt a b)) by lia|rewrite (proj2 (Z.ltb_ge a b)) by lia] end;
    cbn [andb negb orb]; (split; [|done]).
  - done.
  - change 31 with (Z.ones 5). rewrite Z.land_ones by lia. rewrite lor_shiftl_add by lia. div_lia.
  - change 15 with (Z.ones 4). rewrite Z.land_ones by lia.
    change 12 with (6 + 6). rewrite join_fields by lia. rewrite lor_shiftl_add by lia. div_lia.
  - change 7 with (Z.ones 3). rewrite Z.land_ones by lia.
    change 18 with (6 + 12). rewrite (join_fields _ y 12 6) by lia.
    change 12 with (6 + 6). rewrite (join_fields _ z 6 6) by lia. rewrite lor_shiftl_add by lia. div_lia.
Qed.

Definition code_points_ok (text : list Z) : Prop := Forall (fun c => 0 <= c <= MAX_CODE_POINT) text.

Lemma push_encoded c string : 0 <= c <= MAX_CODE_POINT ->
  push string c = Done (string ++ encoded_bytes c).
Proof.
  unfold push, encoded_bytes, encode_utf8_codepoint. intros Hc.
  repeat case_match; try done. rewrite Z.leb_gt in *. lia.
Qed.

Lemma push_all_bytes text : forall string, code_points_ok text ->
  push_all string text = Done (string ++ wtf8_bytes text).
Proof.
  induction text as [|c text IH]; intros string H; cbn [push_all]; [by rewrite app_nil_r|].
  apply Forall_cons in H as [Hc H]. rewrite push_encoded by done. cbn [mbind outcome_bind].
  rewrite IH by done. by rewrite <- app_assoc.
Qed.

Lemma wtf8_next_encoding c bytes rest : encoding c bytes ->
  wtf8_next (bytes ++ rest) = Done (Some (c, rest)).
Proof.
  intros He. pose proof (decode_encoding c bytes rest He) as Hd.
  destruct (decide (bytes = [c])) as [->|Hne].
  - inversion He; subst; try lia. cbn. unfold is_ascii. by rewrite (proj2 (Z.ltb_lt _ _)) by lia.
  - assert (exists b l, bytes = b :: l /\ 0x80 <= b) as (b & l & -> & Hb).
    { destruct He; [done|..]; eexists _, _; (split; [done|lia]). }
    cbn [app wtf8_next]. unfold is_ascii. rewrite (proj2 (Z.ltb_ge _ _)) by lia.
    cbn [app] in Hd. destruct (decode_wtf8_codepoint _) as [[[c' n]|n]| | |]; try done; [|by destruct Hd].
    destruct Hd as [-> ->]. cbn [mbind outcome_bind]. rewrite Nat2Z.id.
    change (b :: l ++ rest) with ((b :: l) ++ rest). by rewrite drop_app_length.
Qed.

Lemma encoding_nonempty c bytes : encoding c bytes -> (0 < length bytes)%nat.
Proof. destruct 1; cbn; lia. Qed.

Lemma collect_bytes text : forall fuel, code_points_ok text ->
  (length (wtf8_bytes text) < fuel)%nat -> collect_code_points fuel (wtf8_bytes text) = Done text.
Proof.
  induction text as [|c text IH]; intros fuel Ht Hf; (destruct fuel as [|fuel]; [lia|]); [done|].
  apply Forall_cons in Ht as [Hc Ht]. pose proof (encoded_bytes_encoding c Hc) as He.
  change (wtf8_bytes (c :: text)) with (encoded_bytes c ++ wtf8_bytes text) in *.
  cbn [collect_code_points]. rewrite (wtf8_next_encoding c) by done. cbn [mbind outcome_bind].
  pose proof (encoding_nonempty _ _ He). rewrite length_app in Hf. by rewrite IH by (done || lia).
Qed.

(** WTF-8 is lossless: a string to which code points are pushed, lone
    surrogates included, is built without a panic, and iterating over its code
    points returns exactly the pushed ones. *)
Theorem wtf8_roundtrip text : code_points_ok text ->
  exists string, push_all [] text = Done string /\ iter_code_points string = Done text.
Proof.
  intros Ht. exists (wtf8_bytes text). split; [by rewrite push_all_bytes|].
  apply collect_bytes; [done|lia].
Qed.

Lemma wtf8_roundtrip_witness :
  exists string, push_all [] [0x24; 0xA2; 0xD800; 0x20AC; 0x10348] = Done string /\
    iter_code_points string = Done [0x24; 0xA2; 0xD800; 0x20AC; 0x10348].
Proof.
  apply wtf8_roundtrip. unfold code_points_ok, MAX_CODE_POINT. repeat constructor; lia.
Defined.

(** Whatever position of the bytes is decoded, the result is a code point. *)
Definition decodes_in_range (buf : list Z) : Prop :=
  forall i c n, decode_wtf8_codepoint (drop i buf) = Done (inl (c, n)) -> 0 <= c <= MAX_CODE_POINT.

Lemma encoding_tail c bytes i rest : encoding c bytes -> (0 < i < length bytes)%nat ->
  decode_wtf8_codepoint (drop i bytes ++ rest) = Done (inr 1).
Proof.
  intros He Hi. destruct i as [|i]; [lia|].
  destruct He as [|x y|x y z|x y z w]; cbn [length] in Hi; [lia|..];
    (destruct i as [|[|[|i]]]; cbn [drop app]; [apply decode_continuation; lia|..|lia]);
    first [apply decode_continuation; lia|lia].
Qed.

Lemma wtf8_decodes_in_range text : code_points_ok text -> decodes_in_range (wtf8_bytes text).
Proof.
  induction text as [|c text IH]; intros Ht i c' n.
  - change (wtf8_bytes []) with (@nil Z). by rewrite drop_nil.
  - apply Forall_cons in Ht as [Hc Ht]. pose proof (encoded_bytes_encoding c Hc) as He.
    change (wtf8_bytes (c :: text)) with (encoded_bytes c ++ wtf8_bytes text).
    destruct (decide (length (encoded_bytes c) <= i)%nat).
    + rewrite drop_app_ge by done. by apply IH.
    + rewrite drop_app_le by lia. destruct i as [|i].
      * rewrite drop_0. pose proof (decode_encoding c _ (wtf8_bytes text) He) as Hd.
        intros E. rewrite E in Hd. by destruct Hd as [-> _].
      * rewrite (encoding_tail c) by (done || lia). done.
Qed.
