(* ===== verification/Token.v ===== *)
(** Tokens: [src/so2js/parser/token.rs].

    Names and literals are WTF-8 strings, numbers the bits of an [f64].  [as_cow]
    is the text by which errors show a token. *)

From Stdlib Require Import Ascii String.
From S2P Require Import Prelude Unicode Wtf8 Float64.

(** [Loc] of [parser/loc.rs]: a half open interval of bytes. *)
Record Loc : Type := mkLoc {
  loc_start : Z;
  loc_end : Z;
}.

Record RegExpToken : Type := mkRegExpToken {
  token_raw : Wtf8String;
  token_pattern : Wtf8String;
  token_flags : Wtf8String;
}.

(** The cooked string, or the location of a malformed escape. *)
Record TemplatePartToken : Type := mkTemplatePartToken {
  template_raw : Wtf8String;
  template_cooked : Wtf8String + Loc;
  is_head : bool;
  is_tail : bool;
}.

(** The tokens without a value. *)
Module Fixed.

Inductive t : Type :=
| Eof | Plus | Minus | Multiply | Divide | Remainder | Exponent | LogicalAnd | LogicalOr
| NullishCoalesce | BitwiseAnd | BitwiseOr | BitwiseXor | ShiftLeft | ShiftRightArithmetic
| ShiftRightLogical | Increment | Decrement | LogicalNot | BitwiseNot | Equals | EqEq | EqEqEq
| NotEq | NotEqEq | GreaterThan | GreaterThanOrEqual | LessThan | LessThanOrEqual | AddEq
| SubtractEq | MultiplyEq | DivideEq | RemainderEq | ExponentEq | AndEq | OrEq | XorEq
| ShiftLeftEq | ShiftRightArithmeticEq | ShiftRightLogicalEq | LogicalAndEq | LogicalOrEq
| NullishCoalesceEq | LeftParen | RightParen | LeftBrace | RightBrace | LeftBracket | RightBracket
| Semicolon | Comma | Period | Question | QuestionDot | Colon | Arrow | Spread | Var | Let | Const
| Function | Async | This | If | Else | Switch | Case | Default | For | Of | While | Do | With
| Return | Break | Continue | Try | Catch | Finally | Throw | Null | True_ | False_ | In
| InstanceOf | New | Typeof | Void | Delete | Debugger | Static | From | As | Class | Extends
| Super | Get | Set_ | Import | Export | Await | Yield | Target | Meta | Enum.

#[global] Instance t_eq_dec : EqDecision t.
Proof. solve_decision. Defined.

Definition all : list t := [
  Eof; Plus; Minus; Multiply; Divide; Remainder; Exponent; LogicalAnd; LogicalOr; NullishCoalesce;
  BitwiseAnd; BitwiseOr; BitwiseXor; ShiftLeft; ShiftRightArithmetic; ShiftRightLogical; Increment;
  Decrement; LogicalNot; BitwiseNot; Equals; EqEq; EqEqEq; NotEq; NotEqEq; GreaterThan;
  GreaterThanOrEqual; LessThan; LessThanOrEqual; AddEq; SubtractEq; MultiplyEq; DivideEq;
  RemainderEq; ExponentEq; AndEq; OrEq; XorEq; ShiftLeftEq; ShiftRightArithmeticEq;
  ShiftRightLogicalEq; LogicalAndEq; LogicalOrEq; NullishCoalesceEq; LeftParen; RightParen;
  LeftBrace; RightBrace; LeftBracket; RightBracket; Semicolon; Comma; Period; Question;
  QuestionDot; Colon; Arrow; Spread; Var; Let; Const; Function; Async; This; If; Else; Switch;
  Case; Default; For; Of; While; Do; With; Return; Break; Continue; Try; Catch; Finally; Throw;
  Null; True_; False_; In; InstanceOf; New; Typeof; Void; Delete; Debugger; Static; From; As;
  Class; Extends; Super; Get; Set_; Import; Export; Await; Yield; Target; Meta; Enum].

(** The text of [as_cow]. *)
Definition text (token : t) : string :=
  match token with
  | Eof => "<EOF>" | Plus => "+" | Minus => "-" | Multiply => "*" | Divide => "/"
  | Remainder => "%" | Exponent => "**" | LogicalAnd => "&&" | LogicalOr => "||"
  | NullishCoalesce => "??" | BitwiseAnd => "&" | BitwiseOr => "|" | BitwiseXor => "^"
  | ShiftLeft => "<<" | ShiftRightArithmetic => ">>" | ShiftRightLogical => ">>>"
  | Increment => "++" | Decrement => "--" | LogicalNot => "~" | BitwiseNot => "," | Equals => "="
  | EqEq => "==" | EqEqEq => "===" | NotEq => "!=" | NotEqEq => "!==" | GreaterThan => ">"
  | GreaterThanOrEqual => ">=" | LessThan => "<" | LessThanOrEqual => "<=" | AddEq => "a"
  | SubtractEq => "-=" | MultiplyEq => "*=" | DivideEq => "/=" | RemainderEq => "%="
  | ExponentEq => "**=" | AndEq => "&=" | OrEq => "|=" | XorEq => "^=" | ShiftLeftEq => "<<="
  | ShiftRightArithmeticEq => ">>=" | ShiftRightLogicalEq => ">>>=" | LogicalAndEq => "&&="
  | LogicalOrEq => "||=" | NullishCoalesceEq => "??=" | LeftParen => "(" | RightParen => ")"
  | LeftBrace => "{" | RightBrace => "}" | LeftBracket => "[" | RightBracket => "]"
  | Semicolon => ";" | Comma => "," | Period => "." | Question => "?" | QuestionDot => "?."
  | Colon => ":" | Arrow => "=>" | Spread => "..." | Var => "var" | Let => "let" | Const => "const"
  | Function => "function" | Async => "async" | This => "this" | If => "if" | Else => "else"
  | Switch => "switch" | Case => "case" | Default => "default" | For => "for" | Of => "of"
  | While => "while" | Do => "do" | With => "with" | Return => "return" | Break => "break"
  | Continue => "continue" | Try => "try" | Catch => "catch" | Finally => "finally"
  | Throw => "throw" | Null => "null" | True_ => "true" | False_ => "false" | In => "in"
  | InstanceOf => "instanceof" | New => "new" | Typeof => "typeof" | Void => "void"
  | Delete => "delete" | Debugger => "debugger" | Static => "static" | From => "from" | As => "as"
  | Class => "class" | Extends => "extends" | Super => "super" | Get => "get" | Set_ => "set"
  | Import => "import" | Export => "export" | Await => "await" | Yield => "yield"
  | Target => "target" | Meta => "meta" | Enum => "enum"
  end.

End Fixed.

Inductive Token : Type :=
| Identifier (name : Wtf8String)
| PrivateIdentifier (name : Wtf8String)
| NumberLiteral (value : f64)
| StringLiteral (value : Wtf8String)
| BigIntLiteral (digits_slice : Wtf8String) (base : Z)
| RegExpLiteral (token : RegExpToken)
| TemplatePart (token : TemplatePartToken)
| FixedToken (token : Fixed.t).
