(* ===== verification/LexerStream.v ===== *)
(** Input streams of the RegExp matcher: [src/so2js/parser/lexer_stream.rs].

    A stream is a buffer of code units with a position and the current code
    point.  The trait [LexerStream] is a class of operations; its instances are
    the streams over heap strings: [HeapOneByteLexerStream] and
    [HeapTwoByteCodeUnitLexerStream], whose code is the same on units of 8 and
    16 bits ([UnitStream]), and [HeapTwoByteCodePointLexerStream]
    ([PointStream]), which joins surrogate pairs.  Indexing a buffer out of range
    and a subtraction below zero are panics. *)

From S2P Require Import Prelude Unicode.

Definition EOF_CHAR : Z := 0x110000.

Record SavedLexerStreamState : Type := mkSaved {
  saved_current : Z;
  saved_pos : Z;
}.

Inductive Direction : Type := FORWARD | BACKWARD.

Definition opposite (d : Direction) : Direction :=
  match d with FORWARD => BACKWARD | BACKWARD => FORWARD end.

(** ** The trait *)

Class LexerStream (S : Type) : Type := {
  pos : S -> Z;
  current : S -> Z;
  len : S -> Z;
  advance_n : S -> Z -> outcome S;
  advance_backwards_n : S -> Z -> outcome S;
  advance_code_point : S -> outcome S;
  advance_backwards_code_point : S -> outcome S;
  peek_prev_code_point : S -> outcome Z;
  peek_next_code_point : S -> outcome Z;
  slice : S -> Z -> Z -> outcome (list Z);
  slice_equals : S -> Z -> list Z -> bool;
  iter_next : Direction -> list Z -> option (Z * list Z);   (* of [iter_slice] *)
  save : S -> SavedLexerStreamState;
  restore : S -> SavedLexerStreamState -> S;
}.

Section Provided.

Context {S : Type} `{LexerStream S}.

Definition is_start (s : S) : bool := pos s =? 0.
Definition is_end (s : S) : bool := pos s =? len s.
Definition has_current (s : S) : bool := negb (current s =? EOF_CHAR).

End Provided.

(** ** Buffers *)

(** [buf[index]] and [&buf[start..end]]. *)
Definition buf_get (buf : list Z) (index : Z) : outcome Z :=
  if index <? 0 then Panicked else unwrap (buf !! Z.to_nat index).

Definition buf_slice (buf : list Z) (start end_ : Z) : outcome (list Z) :=
  if (0 <=? start) && (start <=? end_) && (end_ <=? Z.of_nat (length buf))
  then Done (take (Z.to_nat (end_ - start)) (drop (Z.to_nat start) buf))
  else Panicked.

Definition buf_slice_equals (buf : list Z) (start : Z) (units : list Z) : bool :=
  let end_ := start + Z.of_nat (length units) in
  if Z.of_nat (length buf) <? end_ then false
  else bool_decide (take (length units) (drop (Z.to_nat start) buf) = units).

(** ** Streams of units *)

Record UnitStream : Type := mkUnitStream {
  us_buf : list Z;
  us_pos : Z;
  us_current : Z;
}.

Definition us_len (s : UnitStream) : Z := Z.of_nat (length (us_buf s)).

Definition UnitStream_new (buf : list Z) : outcome UnitStream :=
  match buf with
  | [] => Done (mkUnitStream buf 0 EOF_CHAR)
  | u :: _ => Done (mkUnitStream buf 0 u)
  end.

Definition us_code_point_at (s : UnitStream) (index : Z) : outcome Z := buf_get (us_buf s) index.
Definition us_code_point_before (s : UnitStream) (index : Z) : outcome Z :=
  buf_get (us_buf s) (index - 1).

Definition us_advance_n (s : UnitStream) (n : Z) : outcome UnitStream :=
  let pos := us_pos s + n in
  if pos <? us_len s then
    c ← us_code_point_at s pos;
    Done (mkUnitStream (us_buf s) pos c)
  else Done (mkUnitStream (us_buf s) (us_len s) EOF_CHAR).

Definition us_advance_backwards_n (s : UnitStream) (n : Z) : outcome UnitStream :=
  let new_pos := us_pos s - n in
  if 0 <? new_pos then
    c ← us_code_point_before s new_pos;
    Done (mkUnitStream (us_buf s) new_pos c)
  else Done (mkUnitStream (us_buf s) 0 EOF_CHAR).

Definition us_peek_prev (s : UnitStream) : outcome Z :=
  if us_pos s =? 0 then Done EOF_CHAR else us_code_point_before s (us_pos s).
Definition us_peek_next (s : UnitStream) : outcome Z :=
  if us_pos s =? us_len s then Done EOF_CHAR else us_code_point_at s (us_pos s).

Definition us_iter_next (d : Direction) (it : list Z) : option (Z * list Z) :=
  match d with FORWARD => code_unit_next it | BACKWARD => code_unit_next_back it end.

#[export] Instance UnitStream_LexerStream : LexerStream UnitStream := {
  pos := us_pos;
  current := us_current;
  len := us_len;
  advance_n := us_advance_n;
  advance_backwards_n := us_advance_backwards_n;
  advance_code_point s := us_advance_n s 1;
  advance_backwards_code_point s := us_advance_backwards_n s 1;
  peek_prev_code_point := us_peek_prev;
  peek_next_code_point := us_peek_next;
  slice s start end_ := buf_slice (us_buf s) start end_;
  slice_equals s start units := buf_slice_equals (us_buf s) start units;
  iter_next := us_iter_next;
  save s := mkSaved (us_current s) (us_pos s);
  restore s st := mkUnitStream (us_buf s) (saved_pos st) (saved_current st);
}.

(** ** Streams of code points *)

Record PointStream : Type := mkPointStream {
  ps_buf : list Z;
  ps_pos : Z;
  ps_current : Z;
}.

Definition ps_len (s : PointStream) : Z := Z.of_nat (length (ps_buf s)).

Definition PointStream_new (buf : list Z) : outcome PointStream :=
  match buf with
  | [] => Done (mkPointStream buf 0 EOF_CHAR)
  | u :: _ => Done (mkPointStream buf 0 u)
  end.

Definition ps_code_point_at (s : PointStream) (index : Z) : outcome (Z * Z) :=
  code_unit ← buf_get (ps_buf s) index;
  if is_high_surrogate_code_unit code_unit && (index + 1 <? ps_len s) then
    next_code_unit ← buf_get (ps_buf s) (index + 1);
    if is_low_surrogate_code_unit next_code_unit
    then Done (code_point_from_surrogate_pair code_unit next_code_unit, 2)
    else Done (code_unit, 1)
  else Done (code_unit, 1).

Definition ps_code_point_before (s : PointStream) (index : Z) : outcome (Z * Z) :=
  code_unit ← buf_get (ps_buf s) (index - 1);
  if is_low_surrogate_code_unit code_unit && (2 <=? index) then
    prev_code_unit ← buf_get (ps_buf s) (index - 2);
    if is_high_surrogate_code_unit prev_code_unit
    then Done (code_point_from_surrogate_pair prev_code_unit code_unit, 2)
    else Done (code_unit, 1)
  else Done (code_unit, 1).

Definition ps_advance_n (s : PointStream) (n : Z) : outcome PointStream :=
  let pos := ps_pos s + n in
  if pos <? ps_len s then
    c ← ps_code_point_at s pos;
    Done (mkPointStream (ps_buf s) pos c.1)
  else Done (mkPointStream (ps_buf s) (ps_len s) EOF_CHAR).

Definition ps_advance_backwards_n (s : PointStream) (n : Z) : outcome PointStream :=
  let new_pos := ps_pos s - n in
  if 0 <? new_pos then
    c ← ps_code_point_before s new_pos;
    Done (mkPointStream (ps_buf s) new_pos c.1)
  else Done (mkPointStream (ps_buf s) 0 EOF_CHAR).

Definition ps_advance_code_point (s : PointStream) : outcome PointStream :=
  if ps_pos s =? ps_len s then Done s
  else if needs_surrogate_pair (ps_current s) then ps_advance_n s 2
  else ps_advance_n s 1.

(** [HeapTwoByteCodePointLexerStream::advance_backwards_code_point]: after the
    move by the width of the current code point the code reads the buffer before
    the new position and moves once more. *)
Definition ps_advance_backwards_code_point (s : PointStream) : outcome PointStream :=
  if ps_pos s =? 0 then Done s
  else
    s ← (if needs_surrogate_pair (ps_current s) then ps_advance_backwards_n s 2
         else ps_advance_backwards_n s 1);
    prev_code_unit ← buf_get (ps_buf s) (ps_pos s - 1);
    let one_unit := Done (mkPointStream (ps_buf s) (ps_pos s - 1) prev_code_unit) in
    if is_low_surrogate_code_unit prev_code_unit && (2 <=? ps_pos s) then
      prev_prev_code_unit ← buf_get (ps_buf s) (ps_pos s - 2);
      if is_high_surrogate_code_unit prev_prev_code_unit
      then Done (mkPointStream (ps_buf s) (ps_pos s - 2)
                   (code_point_from_surrogate_pair prev_prev_code_unit prev_code_unit))
      else one_unit
    else one_unit.

Definition ps_peek_prev (s : PointStream) : outcome Z :=
  if ps_pos s =? 0 then Done EOF_CHAR
  else c ← ps_code_point_before s (ps_pos s); Done c.1.
Definition ps_peek_next (s : PointStream) : outcome Z :=
  if ps_pos s =? ps_len s then Done EOF_CHAR
  else c ← ps_code_point_at s (ps_pos s); Done c.1.

Definition ps_peek_n (s : PointStream) (n : Z) : outcome Z :=
  let next_pos := ps_pos s + n in
  if next_pos <? ps_len s then c ← ps_code_point_at s (ps_pos s); Done c.1
  else Done EOF_CHAR.

Definition ps_iter_next (d : Direction) (it : list Z) : option (Z * list Z) :=
  match d with FORWARD => code_point_next it | BACKWARD => code_point_next_back it end.

#[export] Instance PointStream_LexerStream : LexerStream PointStream := {
  pos := ps_pos;
  current := ps_current;
  len := ps_len;
  advance_n := ps_advance_n;
  advance_backwards_n := ps_advance_backwards_n;
  advance_code_point := ps_advance_code_point;
  advance_backwards_code_point := ps_advance_backwards_code_point;
  peek_prev_code_point := ps_peek_prev;
  peek_next_code_point := ps_peek_next;
  slice s start end_ := buf_slice (ps_buf s) start end_;
  slice_equals s start units := buf_slice_equals (ps_buf s) start units;
  iter_next := ps_iter_next;
  save s := mkSaved (ps_current s) (ps_pos s);
  restore s st := mkPointStream (ps_buf s) (saved_pos st) (saved_current st);
}.

(** ** What the matcher relies on

    [stream_ok] holds of the states of a stream over the given buffer; every
    operation from such a state returns, to such a state over the same buffer,
    except that moving backwards over a code point may panic on the streams with
    [backwards_panics]. *)

Class LexerStreamLaws (S : Type) `{LexerStream S} : Type := {
  stream_ok : S -> Prop;
  same_buffer : S -> S -> Prop;
  backwards_panics : bool;
  same_buffer_refl s : same_buffer s s;
  same_buffer_trans s1 s2 s3 : same_buffer s1 s2 -> same_buffer s2 s3 -> same_buffer s1 s3;
  same_buffer_sym s1 s2 : same_buffer s1 s2 -> same_buffer s2 s1;
  same_buffer_len s1 s2 : same_buffer s1 s2 -> len s2 = len s1;
  pos_in_range s : stream_ok s -> 0 <= pos s <= len s;
  advance_n_ok s n : stream_ok s -> 0 <= n ->
    exists s', advance_n s n = Done s' /\ stream_ok s' /\ same_buffer s s';
  advance_backwards_n_ok s n : stream_ok s -> 0 <= n ->
    exists s', advance_backwards_n s n = Done s' /\ stream_ok s' /\ same_buffer s s';
  advance_code_point_ok s : stream_ok s ->
    exists s', advance_code_point s = Done s' /\ stream_ok s' /\ same_buffer s s';
  advance_backwards_code_point_ok s : stream_ok s ->
    (exists s', advance_backwards_code_point s = Done s' /\ stream_ok s' /\ same_buffer s s') \/
    (backwards_panics = true /\ advance_backwards_code_point s = Panicked);
  peek_prev_ok s : stream_ok s -> exists c, peek_prev_code_point s = Done c;
  peek_next_ok s : stream_ok s -> exists c, peek_next_code_point s = Done c;
  slice_no_ub s a b : slice s a b = Panicked \/ exists l, slice s a b = Done l;
  restore_ok s s' : stream_ok s -> stream_ok s' -> same_buffer s s' ->
    restore s' (save s) = s;
  iter_next_length d it c it' : iter_next d it = Some (c, it') ->
    (length it' < length it)%nat;
}.

(** ** Streams of units satisfy the laws *)

Definition unit_stream_ok (s : UnitStream) : Prop := 0 <= us_pos s <= us_len s.

Lemma buf_get_in_range buf i :
  0 <= i < Z.of_nat (length buf) -> exists c, buf_get buf i = Done c /\ c ∈ buf.
Proof.
  intros Hi. unfold buf_get. rewrite (proj2 (Z.ltb_ge _ _)) by lia.
  destruct (lookup_lt_is_Some_2 buf (Z.to_nat i)) as [c Hc]; [lia|].
  exists c. rewrite Hc. split; [done|]. by eapply list_elem_of_lookup_2.
Qed.

Lemma us_advance_n_ok s n : unit_stream_ok s -> 0 <= n ->
  exists s', us_advance_n s n = Done s' /\ unit_stream_ok s' /\ us_buf s' = us_buf s.
Proof.
  unfold unit_stream_ok, us_advance_n, us_code_point_at, us_len. intros Hs Hn.
  destruct (Z.ltb_spec (us_pos s + n) (Z.of_nat (length (us_buf s)))).
  - destruct (buf_get_in_range (us_buf s) (us_pos s + n)) as (c & -> & _); [lia|].
    eexists. split; [done|]. cbn. split; [lia|done].
  - eexists. split; [done|]. cbn. split; [lia|done].
Qed.

Lemma us_advance_backwards_n_ok s n : unit_stream_ok s -> 0 <= n ->
  exists s', us_advance_backwards_n s n = Done s' /\ unit_stream_ok s' /\ us_buf s' = us_buf s.
Proof.
  unfold unit_stream_ok, us_advance_backwards_n, us_code_point_before, us_len. intros Hs Hn.
  destruct (Z.ltb_spec 0 (us_pos s - n)).
  - destruct (buf_get_in_range (us_buf s) (us_pos s - n - 1)) as (c & -> & _); [lia|].
    eexists. split; [done|]. cbn. split; [lia|done].
  - eexists. split; [done|]. cbn. split; [lia|done].
Qed.

Lemma code_unit_next_back_length it c it' :
  code_unit_next_back it = Some (c, it') -> (length it' < length it)%nat.
Proof.
  unfold code_unit_next_back. destruct it as [|x it] using rev_ind; [done|].
  rewrite last_snoc, removelast_last, length_app. intros [= <- <-]. cbn. lia.
Qed.

#[export] Program Instance UnitStream_laws : LexerStreamLaws UnitStream := {
  stream_ok := unit_stream_ok;
  same_buffer s1 s2 := us_buf s2 = us_buf s1;
  backwards_panics := false;
}.
Next Obligation. done. Qed.
Next Obligation. cbn. congruence. Qed.
Next Obligation. cbn. congruence. Qed.
Next Obligation. cbn. unfold us_len. by intros ?? ->. Qed.
Next Obligation. done. Qed.
Next Obligation. apply us_advance_n_ok. Qed.
Next Obligation. apply us_advance_backwards_n_ok. Qed.
Next Obligation. intros. by apply us_advance_n_ok. Qed.
Next Obligation. intros. left. by apply us_advance_backwards_n_ok. Qed.
Next Obligation.
  intros s Hs. cbn. unfold us_peek_prev, us_code_point_before.
  destruct (Z.eqb_spec (us_pos s) 0); [eauto|].
  destruct (buf_get_in_range (us_buf s) (us_pos s - 1)) as (c & -> & _); [|eauto].
  unfold unit_stream_ok, us_len in Hs. lia.
Qed.
Next Obligation.
  intros s Hs. cbn. unfold us_peek_next, us_code_point_at.
  destruct (Z.eqb_spec (us_pos s) (us_len s)); [eauto|].
  destruct (buf_get_in_range (us_buf s) (us_pos s)) as (c & -> & _); [|eauto].
  unfold unit_stream_ok, us_len in *. lia.
Qed.
Next Obligation. intros s a b. cbn. unfold buf_slice. case_match; eauto. Qed.
Next Obligation. intros [b p c] [b' p' c'] _ _ E. cbn in *. by subst. Qed.
Next Obligation.
  intros [|] it c it'; cbn; [|apply code_unit_next_back_length].
  destruct it; [done|]. intros [= <- <-]. cbn. lia.
Qed.

(** ** Streams of code points satisfy the laws *)

Definition point_stream_ok (s : PointStream) : Prop := 0 <= ps_pos s <= ps_len s.

Lemma ps_code_point_at_ok s i :
  0 <= i < ps_len s -> exists c, ps_code_point_at s i = Done c.
Proof.
  unfold ps_code_point_at, ps_len. intros Hi.
  destruct (buf_get_in_range (ps_buf s) i) as (c & -> & _); [lia|]. cbn.
  destruct (is_high_surrogate_code_unit c), (Z.ltb_spec (i + 1) (Z.of_nat (length (ps_buf s)))); cbn; eauto.
  destruct (buf_get_in_range (ps_buf s) (i + 1)) as (c' & -> & _); [lia|]. cbn. case_match; eauto.
Qed.

Lemma ps_code_point_before_ok s i :
  0 < i <= ps_len s -> exists c, ps_code_point_before s i = Done c.
Proof.
  unfold ps_code_point_before, ps_len. intros Hi.
  destruct (buf_get_in_range (ps_buf s) (i - 1)) as (c & -> & _); [lia|]. cbn.
  destruct (is_low_surrogate_code_unit c), (Z.leb_spec 2 i); cbn; eauto.
  destruct (buf_get_in_range (ps_buf s) (i - 2)) as (c' & -> & _); [lia|]. cbn. case_match; eauto.
Qed.

Lemma ps_advance_n_ok s n : point_stream_ok s -> 0 <= n ->
  exists s', ps_advance_n s n = Done s' /\ point_stream_ok s' /\ ps_buf s' = ps_buf s.
Proof.
  unfold point_stream_ok, ps_advance_n. intros Hs Hn. destruct (Z.ltb_spec (ps_pos s + n) (ps_len s)).
  - destruct (ps_code_point_at_ok s (ps_pos s + n)) as (c & ->); [lia|].
    eexists. split; [done|]. unfold ps_len in *. cbn. split; [lia|done].
  - eexists. split; [done|]. unfold ps_len in *. cbn. split; [lia|done].
Qed.

Lemma ps_advance_backwards_n_ok s n : point_stream_ok s -> 0 <= n ->
  exists s', ps_advance_backwards_n s n = Done s' /\ point_stream_ok s' /\ ps_buf s' = ps_buf s.
Proof.
  unfold point_stream_ok, ps_advance_backwards_n. intros Hs Hn. destruct (Z.ltb_spec 0 (ps_pos s - n)).
  - destruct (ps_code_point_before_ok s (ps_pos s - n)) as (c & ->); [lia|].
    eexists. split; [done|]. unfold ps_len in *. cbn. split; [lia|done].
  - eexists. split; [done|]. unfold ps_len in *. cbn. split; [lia|done].
Qed.

(** Moving backwards over a code point returns or panics. *)
Lemma ps_advance_backwards_code_point_ok s : point_stream_ok s ->
  (exists s', ps_advance_backwards_code_point s = Done s' /\ point_stream_ok s' /\
    ps_buf s' = ps_buf s) \/
  ps_advance_backwards_code_point s = Panicked.
Proof.
  intros Hs. unfold ps_advance_backwards_code_point. destruct (_ =? 0); [left; eauto|].
  assert (exists s1, (if needs_surrogate_pair (ps_current s) then ps_advance_backwards_n s 2
    else ps_advance_backwards_n s 1) = Done s1 /\ point_stream_ok s1 /\ ps_buf s1 = ps_buf s)
    as (s1 & -> & Hs1 & Eb) by (case_match; by apply ps_advance_backwards_n_ok). cbn.
  unfold point_stream_ok, ps_len in *. destruct (decide (ps_pos s1 = 0)) as [E0|E0].
  { right. by rewrite E0. }
  left. destruct (buf_get_in_range (ps_buf s1) (ps_pos s1 - 1)) as (c & -> & _); [lia|]. cbn.
  destruct (is_low_surrogate_code_unit c), (Z.leb_spec 2 (ps_pos s1)); cbn.
  1: destruct (buf_get_in_range (ps_buf s1) (ps_pos s1 - 2)) as (c' & -> & _); [lia|]; cbn;
    destruct (is_high_surrogate_code_unit c').
  all: eexists; split; [done|]; cbn; split; [lia|done].
Qed.

Lemma code_point_next_length it c it' :
  code_point_next it = Some (c, it') -> (length it' < length it)%nat.
Proof.
  destruct it as [|u [|u' it]]; cbn; [done|..]; repeat case_match; intros [= <- <-]; cbn; lia.
Qed.

Lemma code_point_next_back_length it c it' :
  code_point_next_back it = Some (c, it') -> (length it' < length it)%nat.
Proof.
  unfold code_point_next_back. destruct (code_unit_next_back it) as [[u it1]|] eqn:E; [|done].
  apply code_unit_next_back_length in E. destruct it1; repeat case_match; intros [= <- <-];
    simplify_eq/=; lia.
Qed.

#[export] Program Instance PointStream_laws : LexerStreamLaws PointStream := {
  stream_ok := point_stream_ok;
  same_buffer s1 s2 := ps_buf s2 = ps_buf s1;
  backwards_panics := true;
}.
Next Obligation. done. Qed.
Next Obligation. cbn. congruence. Qed.
Next Obligation. cbn. congruence. Qed.
Next Obligation. cbn. unfold ps_len. by intros ?? ->. Qed.
Next Obligation. done. Qed.
Next Obligation. apply ps_advance_n_ok. Qed.
Next Obligation. apply ps_advance_backwards_n_ok. Qed.
Next Obligation.
  intros s Hs. cbn. unfold ps_advance_code_point. destruct (_ =? _); [by exists s|].
  case_match; by apply ps_advance_n_ok.
Qed.
Next Obligation.
  intros s Hs. destruct (ps_advance_backwards_code_point_ok s Hs); [by left|by right].
Qed.
Next Obligation.
  intros s Hs. cbn. unfold ps_peek_prev. destruct (Z.eqb_spec (ps_pos s) 0); [eauto|].
  destruct (ps_code_point_before_ok s (ps_pos s)) as (c & ->); [|cbn; eauto].
  unfold point_stream_ok in Hs. lia.
Qed.
Next Obligation.
  intros s Hs. cbn. unfold ps_peek_next. destruct (Z.eqb_spec (ps_pos s) (ps_len s)); [eauto|].
  destruct (ps_code_point_at_ok s (ps_pos s)) as (c & ->); [|cbn; eauto].
  unfold point_stream_ok in Hs. lia.
Qed.
Next Obligation. intros s a b. cbn. unfold buf_slice. case_match; eauto. Qed.
Next Obligation. intros [b p c] [b' p' c'] _ _ E. cbn in *. by subst. Qed.
Next Obligation.
  intros [|] it c it'; cbn; [apply code_point_next_length|apply code_point_next_back_length].
Qed.

(** on a stream that joins surrogate pairs, moving backwards over the first
    code point of the input panics, since after the move to position 0 the code
    reads the unit before it; over a later code point it moves twice: from
    position 2 it reaches position 0 instead of 1. *)
Theorem backwards_code_point_step_panics a b rest :
  needs_surrogate_pair a = false -> needs_surrogate_pair b = false ->
  advance_backwards_code_point (mkPointStream (a :: rest) 1 a) = Panicked /\
  advance_backwards_code_point (mkPointStream (a :: b :: rest) 2 b) =
    Done (mkPointStream (a :: b :: rest) 0 a).
Proof.
  intros Ha Hb. cbn. unfold ps_advance_backwards_code_point. cbn. rewrite Ha, Hb. split; [done|].
  unfold ps_advance_backwards_n, ps_code_point_before. cbn [ps_pos ps_buf].
  change (2 - 1) with 1. change (1 - 1) with 0. cbn [Z.ltb Z.compare].
  change (buf_get (a :: b :: rest) 0) with (Done a). cbn [mbind outcome_bind].
  change (2 <=? 1) with false. rewrite andb_false_r. cbn [mbind outcome_bind ps_pos ps_buf fst].
  change (1 - 1) with 0. change (buf_get (a :: b :: rest) 0) with (Done a).
  cbn [mbind outcome_bind]. change (2 <=? 1) with false. by rewrite andb_false_r.
Qed.

Lemma backwards_code_point_step_panics_witness :
  advance_backwards_code_point (mkPointStream [97; 0x100] 1 97) = Panicked.
Proof.
  apply (backwards_code_point_step_panics 97 0x100 [0x100]); reflexivity.
Defined.
