(* ===== verification/UnicodeProperty.v ===== *)
(** Unicode properties of RegExp patterns: [src/so2js/common/unicode_property.rs].

    The names of the binary properties, of the properties of strings and of the
    general categories are tables of the source; scripts, and the sets that the
    properties denote, come from the ICU data.  [IcuData] collects what the
    engine asks of that data about names and identifiers. *)

From Stdlib Require Import String.
From S2P Require Import Prelude.

#[local] Open Scope string_scope.

(** [ICU.scripts.names] of icu_properties, and the ID_Start and ID_Continue
    sets of [ICU.properties]. *)
Class IcuData : Type := {
  Script : Type;
  script_get_strict : string -> option Script;
  id_start_contains : Z -> bool;
  id_continue_contains : Z -> bool;
}.

(** A [match] on a string: the first row that lists it. *)
Definition lookup_name {A} (table : list (list string * A)) (str : string) : option A :=
  snd <$> head (filter (fun row => bool_decide (str ∈ row.1)) table).

Module Binary.

Inductive BinaryUnicodeProperty : Type :=
| ASCII | ASCIIHexDigit | Alphabetic | Any | Assigned | BidiControl | BidiMirrored | CaseIgnorable
| Cased | ChangesWhenCasefolded | ChangesWhenCasemapped | ChangesWhenLowercased
| ChangesWhenNFKCCasefolded | ChangesWhenTitlecased | ChangesWhenUppercased | Dash
| DefaultIgnorableCodePoint | Deprecated | Diacritic | Emoji | EmojiComponent | EmojiModifier
| EmojiModifierBase | EmojiPresentation | ExtendedPictographic | Extender | GraphemeBase
| GraphemeExtend | HexDigit | IDSBinaryOperator | IDSTrinaryOperator | IDContinue | IDStart
| Ideographic | JoinControl | LogicalOrderException | Lowercase | Math | NoncharacterCodePoint
| PatternSyntax | PatternWhiteSpace | QuotationMark | Radical | RegionalIndicator | SentenceTerminal
| SoftDotted | TerminalPunctuation | UnifiedIdeograph | Uppercase | VariationSelector | WhiteSpace
| XIDContinue | XIDStart.

Definition names : list (list string * BinaryUnicodeProperty) := [
  (["ASCII"], ASCII); (["ASCII_Hex_Digit"], ASCIIHexDigit); (["AHex"], ASCIIHexDigit);
  (["Alphabetic"; "Alpha"], Alphabetic); (["Any"], Any); (["Assigned"], Assigned);
  (["Bidi_Control"; "Bidi_C"], BidiControl); (["Bidi_Mirrored"; "Bidi_M"], BidiMirrored);
  (["Case_Ignorable"; "CI"], CaseIgnorable); (["Cased"], Cased);
  (["Changes_When_Casefolded"; "CWCF"], ChangesWhenCasefolded);
  (["Changes_When_Casemapped"; "CWCM"], ChangesWhenCasemapped);
  (["Changes_When_Lowercased"; "CWL"], ChangesWhenLowercased);
  (["Changes_When_NFKC_Casefolded"; "CWKCF"], ChangesWhenNFKCCasefolded);
  (["Changes_When_Titlecased"; "CWT"], ChangesWhenTitlecased);
  (["Changes_When_Uppercased"; "CWU"], ChangesWhenUppercased); (["Dash"], Dash);
  (["Default_Ignorable_Code_Point"; "DI"], DefaultIgnorableCodePoint);
  (["Deprecated"; "Dep"], Deprecated); (["Diacritic"; "Dia"], Diacritic); (["Emoji"], Emoji);
  (["Emoji_Component"; "EComp"], EmojiComponent); (["Emoji_Modifier"; "EMod"], EmojiModifier);
  (["Emoji_Modifier_Base"; "EBase"], EmojiModifierBase);
  (["Emoji_Presentation"; "EPres"], EmojiPresentation);
  (["Extended_Pictographic"; "ExtPict"], ExtendedPictographic); (["Extender"; "Ext"], Extender);
  (["Grapheme_Base"; "Gr_Base"], GraphemeBase); (["Grapheme_Extend"; "Gr_Ext"], GraphemeExtend);
  (["Hex_Digit"; "Hex"], HexDigit); (["IDS_Binary_Operator"; "IDSB"], IDSBinaryOperator);
  (["IDS_Trinary_Operator"; "IDST"], IDSTrinaryOperator); (["ID_Continue"; "IDC"], IDContinue);
  (["ID_Start"; "IDS"], IDStart); (["Ideographic"; "Ideo"], Ideographic);
  (["Join_Control"; "Join_C"], JoinControl);
  (["Logical_Order_Exception"; "LOE"], LogicalOrderException); (["Lowercase"; "Lower"], Lowercase);
  (["Math"], Math); (["Noncharacter_Code_Point"; "NChar"], NoncharacterCodePoint);
  (["Pattern_Syntax"; "Pat_Syn"], PatternSyntax);
  (["Pattern_White_Space"; "Pat_WS"], PatternWhiteSpace);
  (["Quotation_Mark"; "QMark"], QuotationMark); (["Radical"], Radical);
  (["Regional_Indicator"; "RI"], RegionalIndicator);
  (["Sentence_Terminal"; "STerm"], SentenceTerminal); (["Soft_Dotted"; "SD"], SoftDotted);
  (["Terminal_Punctuation"; "Term"], TerminalPunctuation);
  (["Unified_Ideograph"; "UIdeo"], UnifiedIdeograph); (["Uppercase"; "Upper"], Uppercase);
  (["Variation_Selector"; "VS"], VariationSelector); (["White_Space"; "space"], WhiteSpace);
  (["XID_Continue"; "XIDC"], XIDContinue); (["XID_Start"; "XIDS"], XIDStart)].

Definition parse (str : string) : option BinaryUnicodeProperty := lookup_name names str.

End Binary.

Module Strings.

Inductive BinaryUnicodePropertyOfStrings : Type :=
| BasicEmoji | EmojiKeycapSequence | RgiEmojiFlagSequence | RgiEmojiModifierSequence
| RgiEmojiTagSequence | RgiEmojiZwjSequence | RgiEmoji.

Definition names : list (list string * BinaryUnicodePropertyOfStrings) := [
  (["Basic_Emoji"], BasicEmoji); (["Emoji_Keycap_Sequence"], EmojiKeycapSequence);
  (["RGI_Emoji_Flag_Sequence"], RgiEmojiFlagSequence);
  (["RGI_Emoji_Modifier_Sequence"], RgiEmojiModifierSequence);
  (["RGI_Emoji_Tag_Sequence"], RgiEmojiTagSequence);
  (["RGI_Emoji_ZWJ_Sequence"], RgiEmojiZwjSequence); (["RGI_Emoji"], RgiEmoji)].

Definition parse (str : string) : option BinaryUnicodePropertyOfStrings := lookup_name names str.

End Strings.

Module Category.

Inductive GeneralCategoryProperty : Type :=
| Other | Control | Format | Unassigned | PrivateUse | Surrogate | Letter | CasedLetter
| LowercaseLetter | ModifierLetter | OtherLetter | TitlecaseLetter | UppercaseLetter | Mark
| SpacingMark | EnclosingMark | NonspacingMark | Number | DecimalNumber | LetterNumber | OtherNumber
| Punctuation | ConnectorPunctuation | DashPunctuation | ClosePunctuation | FinalPunctuation
| InitialPunctuation | OtherPunctuation | OpenPunctuation | Symbol | CurrencySymbol | ModifierSymbol
| MathSymbol | OtherSymbol | Separator | LineSeparator | ParagraphSeparator | SpaceSeparator.

Definition names : list (list string * GeneralCategoryProperty) := [
  (["C"; "Other"], Other); (["Cc"; "Control"; "cntrl"], Control); (["Cf"; "Format"], Format);
  (["Cn"; "Unassigned"], Unassigned); (["Co"; "Private_Use"], PrivateUse);
  (["Cs"; "Surrogate"], Surrogate); (["L"; "Letter"], Letter);
  (["LC"; "Cased_Letter"], CasedLetter); (["Ll"; "Lowercase_Letter"], LowercaseLetter);
  (["Lm"; "Modifier_Letter"], ModifierLetter); (["Lo"; "Other_Letter"], OtherLetter);
  (["Lt"; "Titlecase_Letter"], TitlecaseLetter); (["Lu"; "Uppercase_Letter"], UppercaseLetter);
  (["M"; "Mark"; "Combining_Mark"], Mark); (["Mc"; "Spacing_Mark"], SpacingMark);
  (["Me"; "Enclosing_Mark"], EnclosingMark); (["Mn"; "Nonspacing_Mark"], NonspacingMark);
  (["N"; "Number"], Number); (["Nd"; "Decimal_Number"; "digit"], DecimalNumber);
  (["Nl"; "Letter_Number"], LetterNumber); (["No"; "Other_Number"], OtherNumber);
  (["P"; "Punctuation"; "punct"], Punctuation);
  (["Pc"; "Connector_Punctuation"], ConnectorPunctuation);
  (["Pd"; "Dash_Punctuation"], DashPunctuation); (["Pe"; "Close_Punctuation"], ClosePunctuation);
  (["Pf"; "Final_Punctuation"], FinalPunctuation);
  (["Pi"; "Initial_Punctuation"], InitialPunctuation);
  (["Po"; "Other_Punctuation"], OtherPunctuation); (["Ps"; "Open_Punctuation"], OpenPunctuation);
  (["S"; "Symbol"], Symbol); (["Sc"; "Currency_Symbol"], CurrencySymbol);
  (["Sk"; "Modifier_Symbol"], ModifierSymbol); (["Sm"; "Math_Symbol"], MathSymbol);
  (["So"; "Other_Symbol"], OtherSymbol); (["Z"; "Separator"], Separator);
  (["Zl"; "Line_Separator"], LineSeparator); (["Zp"; "Paragraph_Separator"], ParagraphSeparator);
  (["Zs"; "Space_Separator"], SpaceSeparator)].

Definition parse (str : string) : option GeneralCategoryProperty := lookup_name names str.

End Category.

Record ScriptProperty `{IcuData} : Type := mkScriptProperty {
  script : Script;
  with_extensions : bool;
}.

Definition ScriptProperty_parse `{IcuData} (str : string) (with_extensions : bool)
    : option ScriptProperty :=
  (fun script => mkScriptProperty _ script with_extensions) <$> script_get_strict str.

Inductive UnicodeProperty `{IcuData} : Type :=
| BinaryProperty (property : Binary.BinaryUnicodeProperty)
| BinaryPropertyOfStrings (property : Strings.BinaryUnicodePropertyOfStrings)
| GeneralCategory (property : Category.GeneralCategoryProperty)
| ScriptClass (property : ScriptProperty).

Definition is_property_of_strings `{IcuData} (property : UnicodeProperty) : bool :=
  match property with BinaryPropertyOfStrings _ => true | _ => false end.

(** ** A small instance for examples: ASCII identifiers and one script *)

Module AsciiData.

#[export] Instance icu : IcuData := {
  Script := unit;
  script_get_strict str := if bool_decide (str = "Latin") then Some tt else None;
  id_start_contains c := (((65 <=? c) && (c <=? 90)) || ((97 <=? c) && (c <=? 122)))%Z;
  id_continue_contains c :=
    (((65 <=? c) && (c <=? 90)) || ((97 <=? c) && (c <=? 122)) || ((48 <=? c) && (c <=? 57))
     || (c =? 95))%Z;
}.

End AsciiData.
