(* ===== verification/ParseStream.v ===== *)
(** Input streams of the RegExp parser: the forward half of the trait
    [LexerStream] of [src/so2js/parser/lexer_stream.rs], with the errors of
    [parse_error.rs] that the RegExp parser and the lexer report.

    [ParseStream] has the methods that a parser calls.  Its instances are the
    stream over UTF-8 bytes of regular expression literals ([Utf8Stream]) and the
    streams over heap strings of [LexerStream]: units of one or two bytes
    ([UnitStream]) and joined surrogate pairs ([PointStream]).  [ParseStreamLaws]
    is what the parser relies on; all instances satisfy it. *)

From Stdlib Require Import String.
From S2P Require Import Prelude Unicode Wtf8 LexerStream.

(** ** Errors *)

Inductive ParseError : Type :=
| UnknownToken (text : list Z)
| ExpectedToken (actual expected : string)
| InvalidUnicode
| UnterminatedStringLiteral
| UnterminatedRegExpLiteral
| MalformedEscapeSeqence
| MalformedNumericLiteral
| BigIntLeadingZero
| InvalidNumericLiteralNextChar
| TrailingNumericSeparator
| AdjacentNumericSeparators
| HashNotFollowedByIdentifier
| LegacyOctalLiteralInStrictMode
| LegacyOctalEscapeSequenceInStrictMode
| LegacyNonOctalEscapeSequenceInStrictMode
| UnexpectedRegExpToken
| InvalidRegExpFlag
| DuplicateRegExpFlag
| MultipleUnicodeFlags
| UnexpectedRegExpQuantifier
| UnexpectedRegExpEnd
| InvalidCharacterClassRange
| RegExpCharacterClassInRange
| TooManyCaptureGroups
| DuplicateCaptureGroupName
| InvalidBackreferenceIndex
| InvalidBackreferenceName
| InvalidQuantifierBounds
| QuantifierBoundTooLarge
| NonQuantifiableAssertion
| InvalidUnicodeProperty
| DuplicateRegExpModifier
| EmptyRegExpModifiers
| InvertedCharacterClassContainStrings
| InvertedUnicodePropertyOfStrings
| UnicodePropertyOfStringsDisallowedInMode
| NamedCaptureGroupEncountered.

(** The source file of an error is that of the stream; the location is its start and end. *)
Record LocalizedParseError : Type := mkParseError {
  error_kind : ParseError;
  source_loc : option (Z * Z);
}.

Inductive ParseResult (A : Type) : Type :=
| Ok (a : A)
| Err (e : LocalizedParseError).
Arguments Ok {A} a.
Arguments Err {A} e.

(** ** The methods a parser uses *)

Class ParseStream (S : Type) : Type := {
  in_pos : S -> Z;
  in_current : S -> Z;
  in_len : S -> Z;
  in_advance_n : S -> Z -> outcome S;
  in_peek_n : S -> Z -> outcome Z;
  in_parse_unicode_codepoint : S -> outcome (ParseResult Z * S);
  in_error_loc : S -> Z -> option (Z * Z);           (* of [error] *)
  in_save : S -> SavedLexerStreamState;
  in_restore : S -> SavedLexerStreamState -> S;
}.

Definition in_error {S} `{ParseStream S} (s : S) (start_pos : Z) (e : ParseError)
    : LocalizedParseError :=
  mkParseError e (in_error_loc s start_pos).
Definition in_is_end {S} `{ParseStream S} (s : S) : bool := in_pos s =? in_len s.

Class ParseStreamLaws (S : Type) `{ParseStream S} : Type := {
  in_ok : S -> Prop;
  in_same : S -> S -> Prop;
  in_same_equiv :: Equivalence in_same;
  in_same_len s s' : in_same s s' -> in_len s' = in_len s;
  in_pos_range s : in_ok s -> 0 <= in_pos s <= in_len s;
  in_current_range s : in_ok s -> 0 <= in_current s <= EOF_CHAR;
  in_current_eof s : in_ok s -> (in_current s = EOF_CHAR <-> in_pos s = in_len s);
  in_advance_ok s n : in_ok s -> 0 <= n -> exists s', in_advance_n s n = Done s' /\ in_ok s' /\
    in_same s s' /\ in_pos s' = Z.min (in_len s) (in_pos s + n);
  in_advance_add s n m s1 s2 : in_ok s -> 0 <= n -> 0 <= m ->
    in_advance_n s n = Done s1 -> in_advance_n s1 m = Done s2 -> in_advance_n s (n + m) = Done s2;
  in_peek_ok s n : in_ok s -> 0 <= n -> exists c, in_peek_n s n = Done c /\ 0 <= c <= EOF_CHAR;
  in_peek_ascii s n s' c : in_ok s -> 0 <= n -> in_peek_n s n = Done c ->
    in_advance_n s n = Done s' -> c < 128 -> c <> in_current s -> in_current s' = c;
  in_parse_ok s : in_ok s -> exists r s', in_parse_unicode_codepoint s = Done (r, s') /\
    in_ok s' /\ in_same s s' /\ in_pos s <= in_pos s' /\
    match r with
    | Ok c => 0 <= c <= MAX_CODE_POINT /\ in_pos s < in_pos s'
    | Err _ => True
    end;
  in_parse_ascii s : in_ok s -> in_current s < 128 -> exists s',
    in_advance_n s 1 = Done s' /\ in_parse_unicode_codepoint s = Done (Ok (in_current s), s');
  in_restore_save s s' : in_ok s -> in_ok s' -> in_same s s' -> in_restore s' (in_save s) = s;
}.

(** ** Streams of units

    [HeapOneByteLexerStream] has no source; [HeapTwoByteCodeUnitLexerStream] has
    one for literals, and then locates an error at its start. *)

Definition us_peek_n (s : UnitStream) (n : Z) : outcome Z :=
  let next_pos := us_pos s + n in
  if next_pos <? us_len s then us_code_point_at s next_pos else Done EOF_CHAR.

Definition us_parse_unicode_codepoint (loc : option (Z * Z)) (s : UnitStream)
    : outcome (ParseResult Z * UnitStream) :=
  if us_current s =? EOF_CHAR then Done (Err (mkParseError UnexpectedRegExpEnd loc), s)
  else s' ← us_advance_n s 1; Done (Ok (us_current s), s').

Definition us_error_loc (has_source : bool) (s : UnitStream) (pos : Z) : option (Z * Z) :=
  if has_source then Some (pos, pos) else None.

Definition unit_parse_stream (has_source : bool) : ParseStream UnitStream := {|
  in_pos := us_pos;
  in_current := us_current;
  in_len := us_len;
  in_advance_n := us_advance_n;
  in_peek_n := us_peek_n;
  in_parse_unicode_codepoint s :=
    us_parse_unicode_codepoint (us_error_loc has_source s (us_pos s)) s;
  in_error_loc := us_error_loc has_source;
  in_save s := mkSaved (us_current s) (us_pos s);
  in_restore s st := mkUnitStream (us_buf s) (saved_pos st) (saved_current st);
|}.

(** ** Streams of code points *)

Definition ps_parse_unicode_codepoint (s : PointStream) : outcome (ParseResult Z * PointStream) :=
  if ps_current s =? EOF_CHAR then Done (Err (mkParseError UnexpectedRegExpEnd None), s)
  else
    c ← ps_code_point_at s (ps_pos s);
    s' ← ps_advance_n s c.2;
    Done (Ok c.1, s').

#[export] Instance point_parse_stream : ParseStream PointStream := {
  in_pos := ps_pos;
  in_current := ps_current;
  in_len := ps_len;
  in_advance_n := ps_advance_n;
  in_peek_n := ps_peek_n;
  in_parse_unicode_codepoint := ps_parse_unicode_codepoint;
  in_error_loc _ _ := None;
  in_save s := mkSaved (ps_current s) (ps_pos s);
  in_restore s st := mkPointStream (ps_buf s) (saved_pos st) (saved_current st);
}.

(** ** Streams of UTF-8 bytes *)

Record Utf8Stream : Type := mkUtf8Stream {
  u8_buf : list Z;
  u8_pos : Z;
  u8_current : Z;
  u8_buf_start_pos : Z;
}.

Definition u8_len (s : Utf8Stream) : Z := Z.of_nat (length (u8_buf s)).

Definition Utf8Stream_new (buf_start_pos : Z) (buf : list Z) : Utf8Stream :=
  mkUtf8Stream buf 0 (match buf with [] => EOF_CHAR | b :: _ => b end) buf_start_pos.

Definition u8_at (s : Utf8Stream) (pos current : Z) : Utf8Stream :=
  mkUtf8Stream (u8_buf s) pos current (u8_buf_start_pos s).

Definition u8_advance_n (s : Utf8Stream) (n : Z) : outcome Utf8Stream :=
  let pos := u8_pos s + n in
  if pos <? u8_len s then c ← buf_get (u8_buf s) pos; Done (u8_at s pos c)
  else Done (u8_at s (u8_len s) EOF_CHAR).

Definition u8_peek_n (s : Utf8Stream) (n : Z) : outcome Z :=
  let next_pos := u8_pos s + n in
  if next_pos <? u8_len s then buf_get (u8_buf s) next_pos else Done EOF_CHAR.

Definition u8_error_loc (s : Utf8Stream) (start_pos : Z) : option (Z * Z) :=
  Some (u8_buf_start_pos s + start_pos, u8_buf_start_pos s + u8_pos s).

Definition u8_parse_unicode_codepoint (s : Utf8Stream) : outcome (ParseResult Z * Utf8Stream) :=
  if u8_current s =? EOF_CHAR
  then Done (Err (mkParseError UnexpectedRegExpEnd (u8_error_loc s (u8_pos s))), s)
  else
    let current := u8_current s in
    if is_ascii current then s' ← u8_advance_n s 1; Done (Ok current, s')
    else
      buf ← buf_slice (u8_buf s) (u8_pos s) (u8_len s);
      d ← decode_wtf8_codepoint buf;
      match d with
      | inl (code_point, byte_length) => s' ← u8_advance_n s byte_length; Done (Ok code_point, s')
      | inr byte_length =>
          let start_pos := u8_pos s in
          s' ← u8_advance_n s byte_length;
          Done (Err (mkParseError InvalidUnicode (u8_error_loc s' start_pos)), s')
      end.

#[export] Instance utf8_parse_stream : ParseStream Utf8Stream := {
  in_pos := u8_pos;
  in_current := u8_current;
  in_len := u8_len;
  in_advance_n := u8_advance_n;
  in_peek_n := u8_peek_n;
  in_parse_unicode_codepoint := u8_parse_unicode_codepoint;
  in_error_loc := u8_error_loc;
  in_save s := mkSaved (u8_current s) (u8_pos s);
  in_restore s st := u8_at s (saved_pos st) (saved_current st);
}.

(** ** The streams satisfy the laws *)

(** The streams read a buffer the same way; what they read at a position differs. *)
Lemma buf_get_lookup buf i : 0 <= i < Z.of_nat (length buf) ->
  exists c, buf_get buf i = Done c /\ buf !! Z.to_nat i = Some c.
Proof.
  intros Hi. unfold buf_get. rewrite (proj2 (Z.ltb_ge _ _)) by lia.
  destruct (lookup_lt_is_Some_2 buf (Z.to_nat i)) as [c Hc]; [lia|].
  exists c. by rewrite Hc.
Qed.

Lemma buf_get_done buf i c : buf_get buf i = Done c -> 0 <= i /\ buf !! Z.to_nat i = Some c.
Proof.
  unfold buf_get. destruct (Z.ltb_spec i 0); [done|]. intros Hc%unwrap_done. by split.
Qed.

Definition units_in (bound : Z) (buf : list Z) : Prop := Forall (fun u => 0 <= u < bound) buf.

Lemma units_in_get bound buf i c : units_in bound buf -> buf_get buf i = Done c -> 0 <= c < bound.
Proof.
  intros Hb [_ Hc]%buf_get_done. by apply (Forall_lookup_1 _ _ _ _ Hb Hc).
Qed.

Definition unit_in_ok (s : UnitStream) : Prop :=
  units_in 0x10000 (us_buf s) /\ 0 <= us_pos s <= us_len s /\
  us_current s = default EOF_CHAR (us_buf s !! Z.to_nat (us_pos s)).

Lemma lookup_at_end (buf : list Z) pos : 0 <= pos <= Z.of_nat (length buf) -> units_in EOF_CHAR buf ->
  default EOF_CHAR (buf !! Z.to_nat pos) = EOF_CHAR <-> pos = Z.of_nat (length buf).
Proof.
  intros Hp Hb. destruct (buf !! Z.to_nat pos) as [c|] eqn:Hc; cbn.
  - pose proof (Forall_lookup_1 _ _ _ _ Hb Hc). apply lookup_lt_Some in Hc. cbn in *. lia.
  - apply lookup_ge_None in Hc. lia.
Qed.

Lemma units_in_weaken a b buf : a <= b -> units_in a buf -> units_in b buf.
Proof. intros Hab Hb. eapply Forall_impl; [exact Hb|]. cbn. lia. Qed.

Lemma lookup_range (buf : list Z) pos : units_in EOF_CHAR buf ->
  0 <= default EOF_CHAR (buf !! Z.to_nat pos) <= EOF_CHAR.
Proof.
  intros Hb. destruct (buf !! Z.to_nat pos) as [c|] eqn:Hc; cbn; [|unfold EOF_CHAR; lia].
  pose proof (Forall_lookup_1 _ _ _ _ Hb Hc). cbn in *. lia.
Qed.

Lemma us_advance_at s n : 0 <= us_pos s + n ->
  us_advance_n s n = Done (mkUnitStream (us_buf s) (Z.min (us_len s) (us_pos s + n))
    (default EOF_CHAR (us_buf s !! Z.to_nat (Z.min (us_len s) (us_pos s + n))))).
Proof.
  intros Hn. unfold us_advance_n, us_code_point_at. destruct (Z.ltb_spec (us_pos s + n) (us_len s)) as [H|H].
  - destruct (buf_get_lookup (us_buf s) (us_pos s + n)) as (c & -> & Hc); [unfold us_len in H; lia|].
    cbn [mbind outcome_bind]. rewrite Z.min_r, Hc by lia. done.
  - rewrite Z.min_l by lia. unfold us_len. rewrite (lookup_ge_None_2 (us_buf s)) by lia. done.
Qed.

Lemma unit_in_ok_at buf pos : units_in 0x10000 buf -> 0 <= pos <= Z.of_nat (length buf) ->
  unit_in_ok (mkUnitStream buf pos (default EOF_CHAR (buf !! Z.to_nat pos))).
Proof. by intros Hb Hp. Qed.

#[export] Instance unit_parse_laws has_source :
  ParseStreamLaws UnitStream (H := unit_parse_stream has_source).
Proof.
  refine (Build_ParseStreamLaws _ _ unit_in_ok (fun s s' => us_buf s' = us_buf s)
    _ _ _ _ _ _ _ _ _ _ _ _); cbn.
  - split; [done|intros ???; congruence|intros ?????; congruence].
  - intros s s' E. unfold us_len. by rewrite E.
  - by intros s (_ & ? & _).
  - intros s (Hb & ? & ->). apply lookup_range. by eapply units_in_weaken; [|exact Hb].
  - intros s (Hb & ? & ->). apply lookup_at_end; [done|]. by eapply units_in_weaken; [|exact Hb].
  - intros s n (Hb & ? & Hc) Hn. rewrite us_advance_at by lia. eexists. split; [done|].
    split_and!; [apply unit_in_ok_at|done|done]; [done|unfold us_len in *; lia].
  - intros s n m s1 s2 (Hb & ? & Hc) Hn Hm. rewrite (us_advance_at s n) by lia. intros [= <-].
    rewrite us_advance_at by (cbn; unfold us_len in *; lia). cbn. intros [= <-].
    rewrite us_advance_at by lia. unfold us_len in *. cbn.
    replace (Z.min (Z.of_nat (length (us_buf s))) (us_pos s + (n + m)))
      with (Z.min (Z.of_nat (length (us_buf s))) (Z.min (Z.of_nat (length (us_buf s))) (us_pos s + n) + m))
      by lia. done.
  - intros s n (Hb & ? & _) Hn. unfold us_peek_n, us_code_point_at.
    destruct (Z.ltb_spec (us_pos s + n) (us_len s)) as [H'|]; [|exists EOF_CHAR; unfold EOF_CHAR; split; [done|lia]].
    destruct (buf_get_lookup (us_buf s) (us_pos s + n)) as (c & Hg & _); [unfold us_len in H'; lia|].
    exists c. split; [done|]. pose proof (units_in_get _ _ _ _ Hb Hg). unfold EOF_CHAR. lia.
  - intros s n s' c (Hb & ? & _) Hn Hp Ha Hc _. rewrite us_advance_at in Ha by lia. injection Ha as <-. cbn.
    unfold us_peek_n, us_code_point_at in Hp. destruct (Z.ltb_spec (us_pos s + n) (us_len s)).
    + apply buf_get_done in Hp as [_ Hp]. rewrite Z.min_r, Hp by lia. done.
    + injection Hp as <-. unfold EOF_CHAR in Hc. lia.
  - intros s (Hb & Hp & Hc). unfold us_parse_unicode_codepoint.
    assert (Hn : us_current s <> EOF_CHAR -> us_pos s <> us_len s).
    { rewrite Hc. intros Hn E. apply Hn, lookup_at_end; [done|by eapply units_in_weaken; [|exact Hb]|done]. }
    destruct (Z.eqb_spec (us_current s) EOF_CHAR) as [|Hne].
    + eexists _, s. by split_and!; try lia.
    + rewrite us_advance_at by lia. cbn [mbind outcome_bind]. eexists _, _. split; [done|].
      specialize (Hn Hne). unfold us_len in *.
      destruct (buf_get_lookup (us_buf s) (us_pos s)) as (c & Hg & Hl); [lia|].
      pose proof (units_in_get _ _ _ _ Hb Hg). rewrite Hc, Hl. unfold MAX_CODE_POINT.
      split_and!; [apply unit_in_ok_at; [done|lia]|done|cbn; lia..].
  - intros s (Hb & Hp & Hc) Ha. rewrite us_advance_at by lia. eexists. split; [done|].
    unfold us_parse_unicode_codepoint. rewrite (proj2 (Z.eqb_neq _ _)) by (unfold EOF_CHAR; lia).
    by rewrite us_advance_at by lia.
  - intros [b p c] [b' p' c'] _ _ E. cbn in *. by subst.
Defined.

(** A stream of bytes moves like a stream of units; only decoding differs. *)
Definition as_units (s : Utf8Stream) : UnitStream := mkUnitStream (u8_buf s) (u8_pos s) (u8_current s).

Definition utf8_in_ok (s : Utf8Stream) : Prop :=
  unit_in_ok (as_units s) /\ decodes_in_range (u8_buf s).

Lemma u8_advance_at s n : 0 <= u8_pos s + n ->
  u8_advance_n s n = Done (u8_at s (Z.min (u8_len s) (u8_pos s + n))
    (default EOF_CHAR (u8_buf s !! Z.to_nat (Z.min (u8_len s) (u8_pos s + n))))).
Proof.
  intros Hn. pose proof (us_advance_at (as_units s) n Hn) as E.
  unfold us_advance_n, us_code_point_at, us_len in E. cbn in E. unfold u8_advance_n, u8_len, u8_at.
  destruct (_ <? _); [|by injection E as <- <-].
  destruct (buf_get _ _); cbn in *; [|done..]. by injection E as <- <-.
Qed.

Lemma utf8_in_ok_at s pos : utf8_in_ok s -> 0 <= pos <= u8_len s ->
  utf8_in_ok (u8_at s pos (default EOF_CHAR (u8_buf s !! Z.to_nat pos))).
Proof. intros [(Hb & _ & _) Ht] Hp. split; [by apply unit_in_ok_at|done]. Qed.

Lemma decode_done buf : buf <> [] -> exists d, decode_wtf8_codepoint buf = Done d /\
  match d with inl (_, n) | inr n => 1 <= n end.
Proof.
  intros Hne. unfold decode_wtf8_codepoint. destruct buf as [|b1 buf]; [done|].
  cbn [lookup list_lookup unwrap mbind outcome_bind].
  destruct buf as [|b2 [|b3 [|b4 buf]]]; cbn [length];
    repeat match goal with |- context [?a <=? Z.of_nat ?b] =>
      first [rewrite (proj2 (Z.leb_le a (Z.of_nat b))) by lia|rewrite (proj2 (Z.leb_gt a (Z.of_nat b))) by lia]
    end; rewrite ?andb_true_r, ?andb_false_r;
    cbn [lookup list_lookup unwrap mbind outcome_bind];
    repeat case_match; try done; eexists; (split; [reflexivity|]); cbn; lia.
Qed.

Definition same_bytes (s s' : Utf8Stream) : Prop :=
  u8_buf s' = u8_buf s /\ u8_buf_start_pos s' = u8_buf_start_pos s.

Lemma utf8_parse_ok s : utf8_in_ok s -> exists r s', u8_parse_unicode_codepoint s = Done (r, s') /\
  utf8_in_ok s' /\ same_bytes s s' /\ u8_pos s <= u8_pos s' /\
  match r with
  | Ok c => 0 <= c <= MAX_CODE_POINT /\ u8_pos s < u8_pos s'
  | Err _ => True
  end.
Proof.
  intros Hs. pose proof Hs as [(Hb & Hp & Hc) Ht]. cbn in Hb, Hc.
  change (0 <= u8_pos s <= u8_len s) in Hp.
  unfold u8_parse_unicode_codepoint. destruct (Z.eqb_spec (u8_current s) EOF_CHAR) as [|Hne].
  { by eexists _, s. }
  assert (u8_pos s < u8_len s) as Hlt.
  { destruct (decide (u8_pos s = u8_len s)) as [E|]; [|lia].
    exfalso. apply Hne. rewrite Hc, E. unfold u8_len. by rewrite lookup_ge_None_2 by lia. }
  assert (Hmove : forall n, 1 <= n -> exists s', u8_advance_n s n = Done s' /\ utf8_in_ok s' /\
    same_bytes s s' /\ u8_pos s < u8_pos s').
  { intros n Hn. rewrite u8_advance_at by lia. eexists. split; [done|].
    split_and!; [apply utf8_in_ok_at; [done|lia]|done|cbn; lia]. }
  unfold is_ascii. destruct (Z.ltb_spec (u8_current s) 0x80).
  - destruct (Hmove 1) as (s' & -> & ? & ? & ?); [lia|]. cbn [mbind outcome_bind]. eexists _, s'.
    assert (0 <= u8_current s).
    { destruct (u8_buf s !! Z.to_nat (u8_pos s)) as [c|] eqn:E; cbn in Hc.
      - pose proof (Forall_lookup_1 _ _ _ _ Hb E). cbn in *. lia.
      - unfold EOF_CHAR in Hc. lia. }
    split_and!; try done; unfold MAX_CODE_POINT; lia.
  - unfold buf_slice. rewrite (proj2 (Z.leb_le 0 (u8_pos s))), (proj2 (Z.leb_le (u8_pos s) (u8_len s))),
      (proj2 (Z.leb_le (u8_len s) (Z.of_nat (length (u8_buf s))))) by (unfold u8_len in *; lia).
    cbn [andb mbind outcome_bind]. rewrite take_ge by (rewrite length_drop; unfold u8_len; lia).
    destruct (decode_done (drop (Z.to_nat (u8_pos s)) (u8_buf s))) as (d & Ed & Hd).
    { intros E. apply (f_equal length) in E. rewrite length_drop in E. unfold u8_len in Hlt. cbn in E. lia. }
    rewrite Ed. cbn [mbind outcome_bind]. destruct d as [[c n]|n].
    + destruct (Hmove n Hd) as (s' & -> & ? & ? & ?). cbn [mbind outcome_bind]. eexists _, s'.
      split_and!; try done; [lia|]. split; [exact (Ht _ _ _ Ed)|done].
    + destruct (Hmove n Hd) as (s' & -> & ? & ? & ?). cbn [mbind outcome_bind]. eexists _, s'.
      split_and!; try done; lia.
Qed.

#[export] Instance utf8_parse_laws : ParseStreamLaws Utf8Stream.
Proof.
  refine (Build_ParseStreamLaws _ _ utf8_in_ok same_bytes _ _ _ _ _ _ _ _ _ _ _ _); cbn.
  - unfold same_bytes. split; [done|intros ? ? [? ?]; by split|intros ? ? ? [? ?] [? ?]; split; congruence].
  - intros s s' [E _]. unfold u8_len. by rewrite E.
  - by intros s [(_ & ? & _) _].
  - intros s [(Hb & ? & Hc) _]. cbn in *. rewrite Hc. apply lookup_range. by eapply units_in_weaken; [|exact Hb].
  - intros s [(Hb & ? & Hc) _]. cbn in *. rewrite Hc. apply lookup_at_end; [done|].
    by eapply units_in_weaken; [|exact Hb].
  - intros s n Hs Hn. pose proof Hs as [(_ & Hp & _) _]. cbn in Hp. rewrite u8_advance_at by lia. eexists.
    split; [done|]. split_and!; [apply utf8_in_ok_at; [done|unfold u8_len, us_len in *; cbn in Hp; lia]|done|done].
  - intros s n m s1 s2 [(_ & Hp & _) _] Hn Hm. cbn in Hp. rewrite (u8_advance_at s n) by lia. intros [= <-].
    rewrite u8_advance_at by (cbn; unfold u8_len in *; lia). cbn. intros [= <-].
    rewrite u8_advance_at by lia. unfold u8_len, u8_at. cbn.
    replace (Z.min (Z.of_nat (length (u8_buf s))) (u8_pos s + (n + m)))
      with (Z.min (Z.of_nat (length (u8_buf s))) (Z.min (Z.of_nat (length (u8_buf s))) (u8_pos s + n) + m))
      by lia. done.
  - intros s n [Hu _] Hn. exact (@in_peek_ok _ _ (unit_parse_laws false) (as_units s) n Hu Hn).
  - intros s n s' c [Hu _] Hn Hp Ha Hc He. pose proof Hu as (_ & Hp' & _). cbn in Hp'.
    rewrite u8_advance_at in Ha by lia. injection Ha as <-.
    assert (0 <= us_pos (as_units s) + n) as Hq by (cbn; lia).
    exact (@in_peek_ascii _ _ (unit_parse_laws false) _ n _ c Hu Hn Hp (us_advance_at _ n Hq) Hc He).
  - apply utf8_parse_ok.
  - intros s [(_ & Hp & _) _] Ha. cbn in Hp. rewrite u8_advance_at by lia. eexists. split; [done|].
    unfold u8_parse_unicode_codepoint. rewrite (proj2 (Z.eqb_neq _ _)) by (unfold EOF_CHAR; lia).
    unfold is_ascii. rewrite (proj2 (Z.ltb_lt _ _)) by lia. by rewrite u8_advance_at by lia.
  - intros [b p c o] [b' p' c' o'] _ _ [E1 E2]. cbn in *. by subst.
Defined.

(** A stream of code points: the current one is the code point at the position,
    except that a new stream has the first unit. *)
Definition point_at (buf : list Z) (pos : Z) : Z :=
  match ps_code_point_at (mkPointStream buf pos 0) pos with Done (c, _) => c | _ => EOF_CHAR end.

Definition point_in_ok (s : PointStream) : Prop :=
  units_in 0x10000 (ps_buf s) /\ 0 <= ps_pos s <= ps_len s /\
  (ps_current s = point_at (ps_buf s) (ps_pos s) \/
   ps_current s = default EOF_CHAR (ps_buf s !! Z.to_nat (ps_pos s))).

Lemma surrogate_pair_range high low :
  is_high_surrogate_code_unit high = true -> is_low_surrogate_code_unit low = true ->
  0x10000 <= code_point_from_surrogate_pair high low <= MAX_CODE_POINT.
Proof.
  unfold is_high_surrogate_code_unit, is_low_surrogate_code_unit, code_point_from_surrogate_pair,
    HIGH_SURROGATE_START, HIGH_SURROGATE_END, LOW_SURROGATE_START, LOW_SURROGATE_END, MAX_CODE_POINT.
  intros Hh Hl. rewrite lor_shiftl_add by lia. lia.
Qed.

Lemma code_point_at_spec s index : units_in 0x10000 (ps_buf s) -> 0 <= index < ps_len s ->
  exists u c n, ps_buf s !! Z.to_nat index = Some u /\ 0 <= u < 0x10000 /\
    ps_code_point_at s index = Done (c, n) /\ c = point_at (ps_buf s) index /\
    ((c = u /\ n = 1) \/ (0x10000 <= c <= MAX_CODE_POINT /\ 128 <= u /\ n = 2)).
Proof.
  intros Hb Hi. unfold point_at, ps_code_point_at, ps_len in *. cbn [ps_buf].
  destruct (buf_get_lookup (ps_buf s) index) as (u & Eg & El); [lia|]. rewrite Eg. cbn [mbind outcome_bind].
  pose proof (units_in_get _ _ _ _ Hb Eg) as Hu.
  destruct (is_high_surrogate_code_unit u && (index + 1 <? Z.of_nat (length (ps_buf s)))) eqn:Eh;
    [|exists u, u, 1; split_and!; try done; first [lia|by left]].
  apply andb_true_iff in Eh as [Eh Hi']. destruct (buf_get_lookup (ps_buf s) (index + 1)) as (v & -> & _); [lia|].
  cbn [mbind outcome_bind]. destruct (is_low_surrogate_code_unit v) eqn:Ev;
    [|exists u, u, 1; split_and!; try done; first [lia|by left]].
  eexists u, _, 2. split_and!; try done; try lia. right. pose proof (surrogate_pair_range u v Eh Ev).
  unfold is_high_surrogate_code_unit, HIGH_SURROGATE_START in Eh.
  apply andb_true_iff in Eh as [Eh _]. apply Z.leb_le in Eh. split_and!; [apply H|apply H|lia|done].
Qed.

Lemma point_at_end buf : point_at buf (Z.of_nat (length buf)) = EOF_CHAR.
Proof.
  unfold point_at, ps_code_point_at, buf_get.
  rewrite (proj2 (Z.ltb_ge (Z.of_nat (length buf)) 0)) by lia.
  cbn [ps_buf]. rewrite Nat2Z.id, (lookup_ge_None_2 buf (length buf)) by lia. done.
Qed.

Lemma ps_advance_at s n : units_in 0x10000 (ps_buf s) -> 0 <= ps_pos s + n ->
  let pos := Z.min (ps_len s) (ps_pos s + n) in
  ps_advance_n s n = Done (mkPointStream (ps_buf s) pos (point_at (ps_buf s) pos)).
Proof.
  intros Hb Hn. cbn. unfold ps_advance_n. destruct (Z.ltb_spec (ps_pos s + n) (ps_len s)).
  - destruct (code_point_at_spec s (ps_pos s + n)) as (u & c & k & _ & _ & -> & -> & _); [done|lia|].
    cbn [mbind outcome_bind fst]. by rewrite Z.min_r by lia.
  - rewrite Z.min_l by lia. unfold ps_len. by rewrite point_at_end.
Qed.

Lemma point_in_ok_at buf pos : units_in 0x10000 buf -> 0 <= pos <= Z.of_nat (length buf) ->
  point_in_ok (mkPointStream buf pos (point_at buf pos)).
Proof. intros Hb Hp. split; [exact Hb|]. split; [exact Hp|by left]. Qed.

(** The current code point before the end is one of the two readings of the position. *)
Lemma point_current s : point_in_ok s -> ps_pos s < ps_len s ->
  exists c n, ps_code_point_at s (ps_pos s) = Done (c, n) /\ 1 <= n <= 2 /\ 0 <= c <= MAX_CODE_POINT /\
    0 <= ps_current s < EOF_CHAR /\
    (c < 128 \/ ps_current s < 128 -> ps_current s = c /\ n = 1).
Proof.
  intros (Hb & Hp & Hc) Hlt. destruct (code_point_at_spec s (ps_pos s)) as (u & c & n & Hu & Hr & -> & Ec & Hn); [done|lia|].
  exists c, n. rewrite Hu, <- Ec in Hc. cbn in Hc. unfold EOF_CHAR, MAX_CODE_POINT in *.
  split_and!; [done|lia..|]. intros Ha. split; lia.
Qed.

#[export] Instance point_parse_laws : ParseStreamLaws PointStream.
Proof.
  refine (Build_ParseStreamLaws _ _ point_in_ok (fun s s' => ps_buf s' = ps_buf s)
    _ _ _ _ _ _ _ _ _ _ _ _); cbn.
  - split; [done|intros ???; congruence|intros ?????; congruence].
  - intros s s' E. unfold ps_len. by rewrite E.
  - by intros s (_ & ? & _).
  - intros s Hs. pose proof Hs as (Hb & Hp & Hc). destruct (decide (ps_pos s = ps_len s)) as [E|].
    + rewrite E in Hc. unfold ps_len in Hc. rewrite point_at_end, lookup_ge_None_2 in Hc by lia.
      cbn in Hc. unfold EOF_CHAR in *. lia.
    + destruct (point_current s Hs) as (? & ? & _ & _ & _ & ? & _); lia.
  - intros s Hs. pose proof Hs as (Hb & Hp & Hc). destruct (decide (ps_pos s = ps_len s)) as [E|].
    + rewrite E in Hc. unfold ps_len in Hc. rewrite point_at_end, lookup_ge_None_2 in Hc by lia.
      cbn in Hc. naive_solver.
    + destruct (point_current s Hs) as (? & ? & _ & _ & _ & ? & _); lia.
  - intros s n (Hb & Hp & _) Hn. rewrite ps_advance_at by (done || lia). eexists. split; [done|].
    split_and!; [apply point_in_ok_at; [done|unfold ps_len in *; lia]|done|done].
  - intros s n m s1 s2 (Hb & Hp & _) Hn Hm. rewrite (ps_advance_at s n) by (done || lia). intros [= <-].
    rewrite ps_advance_at by (cbn; unfold ps_len in *; first [done|lia]). cbn. intros [= <-].
    rewrite ps_advance_at by (done || lia). unfold ps_len. cbn.
    replace (Z.min (Z.of_nat (length (ps_buf s))) (ps_pos s + (n + m)))
      with (Z.min (Z.of_nat (length (ps_buf s))) (Z.min (Z.of_nat (length (ps_buf s))) (ps_pos s + n) + m))
      by lia. done.
  - intros s n Hs Hn. unfold ps_peek_n. destruct (Z.ltb_spec (ps_pos s + n) (ps_len s)).
    + destruct (point_current s Hs) as (c & k & -> & _ & ? & _); [lia|]. exists c.
      unfold MAX_CODE_POINT, EOF_CHAR in *. split; [done|lia].
    + exists EOF_CHAR. unfold EOF_CHAR. split; [done|lia].
  - intros s n s' c Hs Hn Hp Ha Hc He. exfalso. unfold ps_peek_n in Hp.
    destruct (Z.ltb_spec (ps_pos s + n) (ps_len s)).
    + destruct (point_current s Hs) as (c' & k & E & _ & _ & _ & Hcur); [lia|]. rewrite E in Hp.
      injection Hp as <-. cbn in *. destruct Hcur; [by left|congruence].
    + injection Hp as <-. unfold EOF_CHAR in Hc. lia.
  - intros s Hs. pose proof Hs as (Hb & Hp & _). unfold ps_parse_unicode_codepoint.
    destruct (decide (ps_pos s = ps_len s)) as [E|].
    + assert (ps_current s = EOF_CHAR) as ->; [|by eexists _, s].
      destruct Hs as (_ & _ & Hc). rewrite E in Hc. unfold ps_len in Hc.
      rewrite point_at_end, lookup_ge_None_2 in Hc by lia. cbn in Hc. naive_solver.
    + destruct (point_current s Hs) as (c & k & E & Hk & Hc & Hcur & _); [lia|].
      rewrite (proj2 (Z.eqb_neq _ _)), E by lia. cbn [mbind outcome_bind fst snd].
      rewrite ps_advance_at by (done || lia). cbn [mbind outcome_bind]. eexists _, _. split; [done|].
      split; [apply point_in_ok_at; [done|unfold ps_len in *; lia]|]. split; [done|].
      cbn. split; [lia|]. split; [done|lia].
  - intros s Hs Ha. pose proof Hs as (Hb & Hp & Hcc). assert (ps_pos s < ps_len s) as Hlt.
    { destruct (decide (ps_pos s = ps_len s)) as [E|]; [|lia]. rewrite E in Hcc. unfold ps_len in Hcc.
      rewrite point_at_end, lookup_ge_None_2 in Hcc by lia. cbn in Hcc. unfold EOF_CHAR in Hcc. lia. }
    destruct (point_current s Hs Hlt) as (c & k & E & _ & _ & Hr & Hcur).
    destruct Hcur as [Hcur ->]; [by right|]. unfold ps_parse_unicode_codepoint.
    rewrite (proj2 (Z.eqb_neq _ _)), E by lia. cbn [mbind outcome_bind fst snd].
    rewrite ps_advance_at by (done || lia). eexists. split; [done|]. by rewrite Hcur.
  - intros [b p c] [b' p' c'] _ _ E. cbn in *. by subst.
Defined.

(** The position of the next code point decides the two other streams; over code
    points, [peek_n] answers with the current code point instead. *)
Lemma point_stream_peeks_in_place s n : point_in_ok s -> 0 <= n -> ps_pos s + n < ps_len s ->
  in_peek_n s n = Done (point_at (ps_buf s) (ps_pos s)).
Proof.
  intros (Hb & Hp & _) Hn Hlt. cbn. unfold ps_peek_n. rewrite (proj2 (Z.ltb_lt _ _)) by lia.
  by destruct (code_point_at_spec s (ps_pos s)) as (? & ? & ? & _ & _ & -> & -> & _); [done|lia|].
Qed.
