(* ===== verification/Characters.v ===== *)
(** Classes of characters: digits, letters and identifier parts of
    [src/so2js/common/unicode.rs].

    Characters of the source are written as ASCII characters; [ch] is their code.
    Identifiers beyond ASCII are decided by the ICU data. *)

From Stdlib Require Import Ascii String.
From S2P Require Import Prelude Unicode LexerStream UnicodeProperty.

Definition ch (c : ascii) : Z := Z.of_N (N_of_ascii c).
Arguments ch _%_char.

(** A character is one of those of a string, the alternatives of a [match]. *)
Definition one_of (chars : string) (c : Z) : bool :=
  existsb (fun x => c =? ch x) (list_ascii_of_string chars).
Arguments one_of _%_string _.

Definition between (lo hi : ascii) (c : Z) : bool := (ch lo <=? c) && (c <=? ch hi).
Arguments between (_ _)%_char _.

Definition is_decimal_digit (code_point : Z) : bool := between "0" "9" code_point.
Definition is_ascii_alphabetic (code_point : Z) : bool :=
  between "a" "z" code_point || between "A" "Z" code_point.

Definition get_octal_value (code_point : Z) : option Z :=
  if between "0" "7" code_point then Some (code_point - ch "0") else None.
Definition get_hex_value (code_point : Z) : option Z :=
  if between "0" "9" code_point then Some (code_point - ch "0")
  else if between "a" "f" code_point then Some (code_point - ch "a" + 10)
  else if between "A" "F" code_point then Some (code_point - ch "A" + 10)
  else None.

Definition is_high_surrogate_code_point (code_point : Z) : bool :=
  is_high_surrogate_code_unit code_point.
Definition is_low_surrogate_code_point (code_point : Z) : bool :=
  is_low_surrogate_code_unit code_point.

(** ** Identifiers *)

(** A table of 128 entries, sixteen in a row; [#] is [true]. *)
Definition table (rows : list string) : list bool :=
  rows ≫= fun row => map (fun c => Ascii.eqb c "#"%char) (list_ascii_of_string row).

Definition ASCII_ID_START : list bool := table [
  "................"; "................"; "....#..........."; "................";
  ".###############"; "###########....#"; ".###############"; "###########....."]%string.

Definition ASCII_ID_PART : list bool := table [
  "................"; "................"; "....#..........."; "##########......";
  ".###############"; "###########....#"; ".###############"; "###########....."]%string.

Definition is_id_start_ascii (code_point : Z) : bool :=
  default false (ASCII_ID_START !! Z.to_nat code_point).
Definition is_id_part_ascii (code_point : Z) : bool :=
  default false (ASCII_ID_PART !! Z.to_nat code_point).

Section Icu.

Context `{IcuData}.

Definition is_id_start_unicode (code_point : Z) : bool := id_start_contains code_point.
Definition is_id_continue_unicode (code_point : Z) : bool := id_continue_contains code_point.
Definition is_id_part_unicode (code_point : Z) : bool :=
  is_id_continue_unicode code_point || (code_point =? 0x200C) || (code_point =? 0x200D).
Definition is_id_start (code_point : Z) : bool :=
  is_id_start_ascii code_point || is_id_start_unicode code_point.
Definition is_id_part (code_point : Z) : bool :=
  is_id_part_ascii code_point || is_id_part_unicode code_point.

(** [char::from_u32_unchecked], undefined behaviour unless the value is a scalar. *)
Definition char_from_u32_unchecked (code_point : Z) : outcome Z :=
  if (0 <=? code_point) && (code_point <=? MAX_CODE_POINT) && negb (is_surrogate_code_point code_point)
  then Done code_point else Faulted.

Definition as_id_start (code_point : Z) : outcome (option Z) :=
  if is_id_start code_point then char ← char_from_u32_unchecked code_point; Done (Some char)
  else Done None.
Definition as_id_part (code_point : Z) : outcome (option Z) :=
  if is_id_part code_point then char ← char_from_u32_unchecked code_point; Done (Some char)
  else Done None.

(** The ICU sets hold Unicode scalar values only. *)
Class IcuLaws : Prop := {
  id_start_scalar c : id_start_contains c = true -> is_scalar c;
  id_continue_scalar c : id_continue_contains c = true -> is_scalar c;
}.

End Icu.

Arguments IcuLaws _ : clear implicits.

(** ** Facts *)

(** Characters are numbers. *)
Ltac chars :=
  repeat match goal with
    | |- context [ch ?c] => let v := eval vm_compute in (ch c) in change (ch c) with v
    | H : context [ch ?c] |- _ => let v := eval vm_compute in (ch c) in change (ch c) with v in H
    end.

(** The tables hold what the comments of the source say they are generated from. *)
Lemma ascii_id_tables c : 0 <= c < 128 ->
  is_id_start_ascii c = (is_ascii_alphabetic c || (c =? ch "_") || (c =? ch "$")) /\
  is_id_part_ascii c =
    (is_ascii_alphabetic c || is_decimal_digit c || (c =? ch "_") || (c =? ch "$")).
Proof.
  intros Hc.
  assert (Hall : forallb (fun c =>
    Bool.eqb (is_id_start_ascii c) (is_ascii_alphabetic c || (c =? ch "_") || (c =? ch "$")) &&
    Bool.eqb (is_id_part_ascii c)
      (is_ascii_alphabetic c || is_decimal_digit c || (c =? ch "_") || (c =? ch "$")))
    (seqZ 0 128) = true) by (vm_compute; reflexivity).
  rewrite forallb_forall in Hall. specialize (Hall c).
  rewrite <- list_elem_of_In, elem_of_seqZ in Hall. specialize (Hall ltac:(lia)).
  apply andb_true_iff in Hall as [H1 H2].
  apply eqb_prop in H1, H2. split; [exact H1|exact H2].
Qed.

Lemma id_table_range table c : length table = 128%nat ->
  default false (table !! Z.to_nat c) = true -> c < 128.
Proof.
  intros Hl Ht. destruct (table !! Z.to_nat c) eqn:E; [|done]. apply lookup_lt_Some in E. lia.
Qed.

Lemma one_of_ascii chars c : one_of chars c = true -> 0 <= c < 256.
Proof.
  unfold one_of. intros (x & _ & Hx)%existsb_exists. apply Z.eqb_eq in Hx as ->. unfold ch.
  pose proof (N_ascii_bounded x). lia.
Qed.

Lemma between_spec lo hi c : between lo hi c = bool_decide (ch lo <= c <= ch hi).
Proof. unfold between. case_bool_decide; lia. Qed.

Lemma get_hex_range c v : get_hex_value c = Some v -> 0 <= v < 16 /\ c < 128.
Proof.
  unfold get_hex_value. rewrite !between_spec. cbn [ch].
  change (ch "0") with 48. change (ch "9") with 57. change (ch "a") with 97. change (ch "f") with 102.
  change (ch "A") with 65. change (ch "F") with 70.
  repeat case_decide; try done; intros [= <-]; lia.
Qed.

Lemma get_octal_range c v : get_octal_value c = Some v -> 0 <= v < 8 /\ c < 128.
Proof.
  unfold get_octal_value. rewrite between_spec. change (ch "0") with 48. change (ch "7") with 55.
  case_bool_decide; [|done]. intros [= <-]. lia.
Qed.

Lemma decimal_digit_ascii c : is_decimal_digit c = true -> 48 <= c <= 57.
Proof. unfold is_decimal_digit. rewrite between_spec. by intros ?%bool_decide_eq_true. Qed.

Section IdentifierFacts.

Context `{IcuLaws}.

Lemma scalar_char c : is_scalar c -> char_from_u32_unchecked c = Done c.
Proof.
  unfold is_scalar, char_from_u32_unchecked, is_surrogate_code_point, is_high_surrogate_code_unit,
    is_low_surrogate_code_unit, HIGH_SURROGATE_START, HIGH_SURROGATE_END, LOW_SURROGATE_START,
    LOW_SURROGATE_END, MAX_CODE_POINT.
  intros (Hc & Hh & Hl).
  rewrite (proj2 (Z.leb_le 0 c)), (proj2 (Z.leb_le c 0x10FFFF)) by lia. cbn [andb].
  destruct (Z.leb_spec 0xD800 c), (Z.leb_spec c 0xDFFF); cbn [andb negb]; try done. lia.
Qed.

Lemma ascii_scalar c : 0 <= c < 128 -> is_scalar c.
Proof.
  unfold is_scalar, is_high_surrogate_code_unit, is_low_surrogate_code_unit, HIGH_SURROGATE_START,
    HIGH_SURROGATE_END, LOW_SURROGATE_START, LOW_SURROGATE_END, MAX_CODE_POINT. lia.
Qed.

(** An identifier character is a scalar value, so the unchecked conversion is safe. *)
Lemma id_start_unicode_scalar c : is_id_start_unicode c = true -> is_scalar c.
Proof. apply id_start_scalar. Qed.

Lemma id_part_unicode_scalar c : is_id_part_unicode c = true -> is_scalar c.
Proof.
  unfold is_id_part_unicode.
  intros [[Hi| ->%Z.eqb_eq]%orb_true_iff| ->%Z.eqb_eq]%orb_true_iff;
    [by apply id_continue_scalar|by vm_compute..].
Qed.

Lemma id_start_is_scalar c : 0 <= c -> is_id_start c = true -> is_scalar c.
Proof.
  unfold is_id_start. intros Hc [Ht|Hi]%orb_true_iff; [|by apply id_start_unicode_scalar].
  apply ascii_scalar. apply id_table_range in Ht; [lia|done].
Qed.

Lemma id_part_is_scalar c : 0 <= c -> is_id_part c = true -> is_scalar c.
Proof.
  unfold is_id_part. intros Hc [Ht|Hi]%orb_true_iff; [|by apply id_part_unicode_scalar].
  apply ascii_scalar. apply id_table_range in Ht; [lia|done].
Qed.

Lemma as_char_ok (b : bool) c : (b = true -> is_scalar c) ->
  exists o, (if b then char ← char_from_u32_unchecked c; Done (Some char) else Done None) = Done o /\
    forall d, o = Some d -> is_scalar d.
Proof.
  intros Hb. destruct b; [|by exists None]. rewrite scalar_char by auto. exists (Some c).
  split; [done|]. intros ? [= <-]. auto.
Qed.

Lemma as_id_ok c : 0 <= c ->
  (exists o, as_id_start c = Done o /\ forall d, o = Some d -> is_scalar d) /\
  (exists o, as_id_part c = Done o /\ forall d, o = Some d -> is_scalar d).
Proof.
  intros Hc. split; apply as_char_ok; [by apply id_start_is_scalar|by apply id_part_is_scalar].
Qed.

End IdentifierFacts.

#[export] Instance ascii_icu_laws : IcuLaws AsciiData.icu.
Proof. split; cbn; intros c Hc; apply ascii_scalar; lia. Qed.
