(* ===== verification/StringLexer.v ===== *)
(** The lexer of the string parsers: [StringLexer] of
    [src/so2js/runtime/string_parsing.rs].

    The code unit iterator is the list of the units it has not read yet and its position; a pointer
    into the string is the index of a unit.  A parser takes the lexer and returns [None] where the
    source returns early with [?] or [return None]; the lexer is then dropped. *)

From Stdlib Require Import Ascii String.
From S2P Require Import Prelude Unicode LexerStream UnicodeProperty Characters.

Record StringLexer : Type := mkStringLexer {
  iter : list Z;
  iter_ptr : Z;
  prev_ptr : Z;
  current : option Z;
}.

Definition advance (lexer : StringLexer) : StringLexer :=
  match iter lexer with
  | [] => mkStringLexer [] (iter_ptr lexer) (iter_ptr lexer) None
  | unit :: rest => mkStringLexer rest (iter_ptr lexer + 1) (iter_ptr lexer) (Some unit)
  end.

Definition StringLexer_new (units : list Z) : StringLexer := advance (mkStringLexer units 0 0 None).

Definition current_equals (expected : ascii) (lexer : StringLexer) : bool :=
  match current lexer with Some unit => unit =? ch expected | None => false end.
Arguments current_equals _%_char _.

Definition is_end (lexer : StringLexer) : bool := match current lexer with None => true | Some _ => false end.
Definition current_ptr (lexer : StringLexer) : Z := prev_ptr lexer.

Definition peek_ascii_char (lexer : StringLexer) : option Z :=
  match iter lexer with
  | unit :: _ => if unit <? 0x80 then Some unit else None
  | [] => None
  end.

Definition current_decimal_value (lexer : StringLexer) : option Z :=
  match current lexer with
  | Some unit => if (ch "0" <=? unit) && (unit <=? ch "9") then Some (unit - ch "0") else None
  | None => None
  end.

(** ** Parsers *)

Definition LX (A : Type) : Type := StringLexer -> option (A * StringLexer).
#[export] Instance LX_ret : MRet LX := fun A a lexer => Some (a, lexer).
#[export] Instance LX_bind : MBind LX := fun A B f m lexer =>
  match m lexer with Some (a, lexer') => f a lexer' | None => None end.

Definition fail {A} : LX A := fun _ => None.
Definition guard (b : bool) : LX unit := fun lexer => if b then Some (tt, lexer) else None.
Definition observe {A} (f : StringLexer -> A) : LX A := fun lexer => Some (f lexer, lexer).
Definition step : LX unit := fun lexer => Some (tt, advance lexer).

Definition expect (char : ascii) : LX unit := fun lexer =>
  match current lexer with
  | Some unit => if unit =? ch char then Some (tt, advance lexer) else None
  | None => None
  end.
Arguments expect _%_char.

Definition eat (char : ascii) : LX bool := fun lexer =>
  match expect char lexer with
  | Some (_, lexer') => Some (true, lexer')
  | None => Some (false, lexer)
  end.
Arguments eat _%_char.

(** ** Lexers at a position of a text *)

(** The lexer in front of the units [s], [p] units into the string. *)
Definition lexer_at (p : Z) (s : list Z) : StringLexer :=
  match s with
  | [] => mkStringLexer [] p p None
  | unit :: rest => mkStringLexer rest (p + 1) p (Some unit)
  end.

Lemma new_at s : StringLexer_new s = lexer_at 0 s.
Proof. by destruct s. Qed.

Lemma advance_at p c s : advance (lexer_at p (c :: s)) = lexer_at (p + 1) s.
Proof. by destruct s. Qed.

Lemma current_equals_at p c s x : current_equals x (lexer_at p (c :: s)) = (c =? ch x).
Proof. done. Qed.

Lemma expect_at p c s x : c = ch x -> expect x (lexer_at p (c :: s)) = Some (tt, lexer_at (p + 1) s).
Proof. intros ->. unfold expect. cbn [current lexer_at]. rewrite Z.eqb_refl. by destruct s. Qed.

Lemma expect_at_other p c s x : c <> ch x -> expect x (lexer_at p (c :: s)) = None.
Proof. intros Hc. unfold expect. cbn [current lexer_at]. by rewrite (proj2 (Z.eqb_neq _ _)). Qed.

Lemma eat_at p c s x :
  eat x (lexer_at p (c :: s)) =
    Some (c =? ch x, if c =? ch x then lexer_at (p + 1) s else lexer_at p (c :: s)).
Proof.
  unfold eat. destruct (Z.eqb_spec c (ch x)); [by rewrite expect_at|by rewrite expect_at_other].
Qed.
