(* ===== verification/Lexer.v ===== *)
(** The lexer: [src/so2js/parser/lexer.rs].

    [Lexer] is the struct without its arena; the source is the list of its bytes.
    A method is a computation in the monad [LexM]: it threads the lexer, keeps it
    on an error, and [bind] is the operator [?] of Rust.  Loops take as many rounds
    as there are bytes left, plus one.

    Digits of a number are converted by [f64::from_str], of which [f64_from_str] is
    what the lexer uses, and by the crate num-bigint, the class [NumBigint]. *)

From Stdlib Require Import Ascii String.
From S2P Require Import Prelude Float64 Unicode Wtf8 LexerStream UnicodeProperty Token ParseStream.
From S2P Require Import Characters.

#[local] Open Scope bool_scope.

(** ** Characters *)

Definition is_unicode_whitespace (code_point : Z) : bool :=
  (code_point =? 0xA0) || (code_point =? 0x1680)
  || ((0x2000 <=? code_point) && (code_point <=? 0x200A))
  || (code_point =? 0x202F) || (code_point =? 0x205F) || (code_point =? 0x3000)
  || (code_point =? 0xFEFF).

Definition is_in_unicode_range (code_point : Z) : bool := code_point <=? MAX_CODE_POINT.

Definition get_binary_value (code_point : Z) : option Z :=
  if between "0" "1" code_point then Some (code_point - ch "0") else None.

Section IdentifierCharacters.

Context `{IcuData}.

Definition as_id_start_unicode (code_point : Z) : outcome (option Z) :=
  if is_id_start_unicode code_point
  then char ← char_from_u32_unchecked code_point; Done (Some char) else Done None.
Definition as_id_part_ascii (code_point : Z) : outcome (option Z) :=
  if is_id_part_ascii code_point
  then char ← char_from_u32_unchecked code_point; Done (Some char) else Done None.
Definition as_id_part_unicode (code_point : Z) : outcome (option Z) :=
  if is_id_part_unicode code_point
  then char ← char_from_u32_unchecked code_point; Done (Some char) else Done None.

End IdentifierCharacters.

(** Upper case hexadecimal digits, the format [X]. *)
Definition hex_digit (d : Z) : Z := if d <? 10 then ch "0" + d else ch "A" + (d - 10).
Fixpoint hex_text (fuel : nat) (n : Z) : list Z :=
  match fuel with
  | O => []
  | S fuel' => (if n <? 16 then [] else hex_text fuel' (n / 16)) ++ [hex_digit (n mod 16)]
  end.
Definition to_string_or_unicode_escape_sequence (code_point : Z) : Wtf8String :=
  if negb (is_surrogate_code_point code_point) && (code_point <=? MAX_CODE_POINT)
  then encoded_bytes code_point
  else ch "\" :: ch "u" :: hex_text 8 code_point.

(** ** Numbers *)

Definition f64_of_decimal (digits exponent : Z) : f64 :=
  if 0 <=? exponent then f64_of_int (digits * 10 ^ exponent)
  else f64_of_ratio digits (10 ^ (- exponent)).

Fixpoint span_digits (s : list Z) : list Z * list Z :=
  match s with
  | c :: s' =>
      if is_decimal_digit c then let '(digits, rest) := span_digits s' in (c :: digits, rest)
      else ([], s)
  | [] => ([], [])
  end.

Definition decimal_value (digits : list Z) : Z :=
  foldl (fun value c => value * 10 + (c - ch "0")) 0 digits.

(** [f64::from_str] of a number without a sign. *)
Definition f64_from_str (s : list Z) : option f64 :=
  let '(integer, s) := span_digits s in
  let '(fraction, s) := match s with
                        | c :: s' => if c =? ch "." then span_digits s' else ([], s)
                        | [] => ([], [])
                        end in
  let number exponent :=
    Some (f64_of_decimal (decimal_value (integer ++ fraction))
            (exponent - Z.of_nat (length fraction))) in
  if bool_decide (integer ++ fraction = []) then None
  else
    match s with
    | [] => number 0
    | c :: s =>
        if one_of "eE" c then
          let '(sign, s) := match s with
                            | c :: s' => if c =? ch "-" then (-1, s')
                                         else if c =? ch "+" then (1, s') else (1, s)
                            | [] => (1, [])
                            end in
          let '(exponent, s) := span_digits s in
          if bool_decide (exponent = [] \/ s <> []) then None
          else number (sign * decimal_value exponent)
        else None
    end.

(** The crate num-bigint: [BigInt::parse_bytes] and [to_f64]. *)
Class NumBigint : Type := {
  parse_bytes : list Z -> Z -> option Z;
  bigint_to_f64 : Z -> option f64;
}.

(** ** The lexer *)

Record Lexer : Type := mkLexer {
  lx_buf : list Z;
  lx_current : Z;
  lx_pos : Z;
  is_new_line_before_current : bool;
  in_strict_mode : bool;
  allow_hashbang_comment : bool;
}.

Record SavedLexerState : Type := mkSavedLexer {
  saved_lexer_current : Z;
  saved_lexer_pos : Z;
}.

Definition Lexer_new (source : list Z) : Lexer :=
  mkLexer source (default EOF_CHAR (head source)) 0 false false true.

Definition LexM (A : Type) : Type := Lexer -> outcome (ParseResult A * Lexer).

#[export] Instance LexM_ret : MRet LexM := fun A a l => Done (Ok a, l).
#[export] Instance LexM_bind : MBind LexM := fun A B f m l =>
  match m l with
  | Done (Ok a, l') => f a l'
  | Done (Err x, l') => Done (Err x, l')
  | Panicked => Panicked
  | Faulted => Faulted
  | OutOfFuel => OutOfFuel
  end.

Definition lex_lift {A} (o : outcome A) : LexM A := fun l => a ← o; Done (Ok a, l).
Definition lex_out_of_fuel {A} : LexM A := fun _ => OutOfFuel.
Definition lex_pos : LexM Z := fun l => Done (Ok (lx_pos l), l).
Definition lex_current : LexM Z := fun l => Done (Ok (lx_current l), l).
Definition strict : LexM bool := fun l => Done (Ok (in_strict_mode l), l).
Definition bytes_left : LexM nat := fun l =>
  Done (Ok (S (Z.to_nat (Z.of_nat (length (lx_buf l)) - lx_pos l))), l).

(** [&self.buf[start..end]]. *)
Definition slice_of (start end_ : Z) : LexM (list Z) := fun l =>
  s ← buf_slice (lx_buf l) start end_; Done (Ok s, l).

Definition lexer_save : LexM SavedLexerState := fun l => Done (Ok (mkSavedLexer (lx_current l) (lx_pos l)), l).
Definition lexer_restore (st : SavedLexerState) : LexM unit := fun l =>
  Done (Ok tt, mkLexer (lx_buf l) (saved_lexer_current st) (saved_lexer_pos st)
                 (is_new_line_before_current l) (in_strict_mode l) (allow_hashbang_comment l)).
Definition set_new_line (b : bool) : LexM unit := fun l =>
  Done (Ok tt, mkLexer (lx_buf l) (lx_current l) (lx_pos l) b (in_strict_mode l)
                 (allow_hashbang_comment l)).

Definition code_point_at (index : Z) : LexM Z := fun l =>
  c ← buf_get (lx_buf l) index; Done (Ok c, l).

Definition lexer_at (l : Lexer) (pos current : Z) : Lexer :=
  mkLexer (lx_buf l) current pos (is_new_line_before_current l) (in_strict_mode l)
    (allow_hashbang_comment l).

Definition lx_advance_n (n : Z) : LexM unit := fun l =>
  let pos := lx_pos l + n in
  if pos <? Z.of_nat (length (lx_buf l))
  then c ← buf_get (lx_buf l) pos; Done (Ok tt, lexer_at l pos c)
  else Done (Ok tt, lexer_at l (Z.of_nat (length (lx_buf l))) EOF_CHAR).
Definition lx_peek_n (n : Z) : LexM Z := fun l =>
  let next_pos := lx_pos l + n in
  if next_pos <? Z.of_nat (length (lx_buf l))
  then c ← buf_get (lx_buf l) next_pos; Done (Ok c, l)
  else Done (Ok EOF_CHAR, l).

Definition lx_eat (char : ascii) : LexM bool :=
  c ← lex_current;
  if c =? ch char then _ ← lx_advance_n 1; mret true else mret false.

Definition mark_loc (start_pos : Z) : LexM Loc := fun l => Done (Ok (mkLoc start_pos (lx_pos l)), l).
Definition emit_token (token : Token) (start_pos : Z) : LexM (Token * Loc) :=
  loc ← mark_loc start_pos; mret (token, loc).
Definition lex_error {A} (loc : Loc) (err : ParseError) : LexM A := fun l =>
  Done (Err (mkParseError err (Some (loc_start loc, loc_end loc))), l).

(** An error from [start_pos] to the current position. *)
Definition error_from {A} (start_pos : Z) (err : ParseError) : LexM A :=
  loc ← mark_loc start_pos; lex_error loc err.
Definition error_here {A} (err : ParseError) : LexM A := p ← lex_pos; error_from p err.

Definition fixed (token : Fixed.t) (length start_pos : Z) : LexM (Token * Loc) :=
  _ ← lx_advance_n length; emit_token (FixedToken token) start_pos.

(** [string.push] and [push_char]. *)
Definition push_to (value : Wtf8String) (code_point : Z) : LexM Wtf8String :=
  lex_lift (push value code_point).

(** ** Code points *)

Definition decode_at (pos : Z) : LexM (Z * Z + Z) := fun l =>
  d ← decode_wtf8_codepoint (drop (Z.to_nat pos) (lx_buf l)); Done (Ok d, l).

Definition lex_utf8_codepoint : LexM Z :=
  p ← lex_pos;
  d ← decode_at p;
  match d with
  | inl (code_point, byte_length) => _ ← lx_advance_n byte_length; mret code_point
  | inr byte_length =>
      _ ← lx_advance_n byte_length;
      p ← lex_pos;
      error_from (p - byte_length) InvalidUnicode
  end.

Definition lex_ascii_or_unicode_character : LexM Z :=
  c ← lex_current;
  if is_ascii c then _ ← lx_advance_n 1; mret c else lex_utf8_codepoint.

Fixpoint hex_loop (digits : nat) (start_pos value : Z) : LexM Z :=
  match digits with
  | O => mret value
  | S digits' =>
      c ← lex_current;
      match get_hex_value c with
      | Some hex_value => _ ← lx_advance_n 1; hex_loop digits' start_pos (Z.shiftl value 4 + hex_value)
      | None => error_from start_pos MalformedEscapeSeqence
      end
  end.

(** At most six digits between braces. *)
Fixpoint braced_loop (digits : nat) (start_pos value : Z) : LexM Z :=
  match digits with
  | O => mret value
  | S digits' =>
      c ← lex_current;
      match get_hex_value c with
      | Some hex_value => _ ← lx_advance_n 1; braced_loop digits' start_pos (Z.shiftl value 4 + hex_value)
      | None => if c =? ch "}" then mret value else error_from start_pos MalformedEscapeSeqence
      end
  end.

Definition lex_unicode_escape_sequence (start_pos : Z) : LexM Z :=
  brace ← lx_eat "{";
  if (brace : bool) then
    empty ← lx_eat "}";
    if (empty : bool) then error_from start_pos MalformedEscapeSeqence
    else
      value ← braced_loop 6 start_pos 0;
      c ← lex_current;
      if negb (c =? ch "}") then error_from start_pos MalformedEscapeSeqence
      else
        _ ← lx_advance_n 1;
        if is_in_unicode_range value then mret value else error_from start_pos MalformedEscapeSeqence
  else hex_loop 4 start_pos 0.

(** ** Comments *)

Fixpoint line_comment_loop (fuel : nat) : LexM unit :=
  match fuel with
  | O => lex_out_of_fuel
  | S fuel' =>
      c ← lex_current;
      if (c =? 0x0A) || (c =? 0x0D) then _ ← lx_advance_n 1; set_new_line true
      else if c =? EOF_CHAR then mret tt
      else if is_ascii c then _ ← lx_advance_n 1; line_comment_loop fuel'
      else
        code_point ← lex_utf8_codepoint;
        if is_unicode_newline code_point then set_new_line true else line_comment_loop fuel'
  end.
Definition skip_line_comment : LexM unit := n ← bytes_left; line_comment_loop n.

Fixpoint block_comment_loop (fuel : nat) : LexM unit :=
  match fuel with
  | O => lex_out_of_fuel
  | S fuel' =>
      c ← lex_current;
      if c =? ch "*" then
        next ← lx_peek_n 1;
        if next =? ch "/" then lx_advance_n 2
        else if next =? EOF_CHAR then
          p ← lex_pos;
          error_from (p + 1) (ExpectedToken (Fixed.text Fixed.Eof) (Fixed.text Fixed.Divide))
        else _ ← lx_advance_n 1; block_comment_loop fuel'
      else if (c =? 0x0A) || (c =? 0x0D) then
        _ ← lx_advance_n 1; _ ← set_new_line true; block_comment_loop fuel'
      else if c =? EOF_CHAR then
        error_here (ExpectedToken (Fixed.text Fixed.Eof) (Fixed.text Fixed.Multiply))
      else if is_ascii c then _ ← lx_advance_n 1; block_comment_loop fuel'
      else
        code_point ← lex_utf8_codepoint;
        _ ← (if is_unicode_newline code_point then set_new_line true else mret tt);
        block_comment_loop fuel'
  end.
Definition skip_block_comment : LexM unit := n ← bytes_left; block_comment_loop n.

(** ** Keywords *)

Definition keywords : list (string * Fixed.t) := [
  ("var", Fixed.Var); ("let", Fixed.Let); ("const", Fixed.Const); ("function", Fixed.Function);
  ("async", Fixed.Async); ("this", Fixed.This); ("if", Fixed.If); ("else", Fixed.Else);
  ("switch", Fixed.Switch); ("case", Fixed.Case); ("default", Fixed.Default); ("for", Fixed.For);
  ("of", Fixed.Of); ("while", Fixed.While); ("do", Fixed.Do); ("with", Fixed.With);
  ("return", Fixed.Return); ("break", Fixed.Break); ("continue", Fixed.Continue);
  ("try", Fixed.Try); ("catch", Fixed.Catch); ("finally", Fixed.Finally); ("throw", Fixed.Throw);
  ("null", Fixed.Null); ("true", Fixed.True_); ("false", Fixed.False_); ("in", Fixed.In);
  ("instanceof", Fixed.InstanceOf); ("new", Fixed.New); ("typeof", Fixed.Typeof);
  ("void", Fixed.Void); ("delete", Fixed.Delete); ("debugger", Fixed.Debugger);
  ("static", Fixed.Static); ("from", Fixed.From); ("as", Fixed.As); ("class", Fixed.Class);
  ("extends", Fixed.Extends); ("super", Fixed.Super); ("get", Fixed.Get); ("set", Fixed.Set_);
  ("import", Fixed.Import); ("export", Fixed.Export); ("await", Fixed.Await);
  ("yield", Fixed.Yield); ("target", Fixed.Target); ("meta", Fixed.Meta); ("enum", Fixed.Enum)]%string.

(** ** Numbers *)

Section Lexing.

Context `{IcuData} `{NumBigint}.

Fixpoint decimal_digits_rest (fuel : nat) (allow_numeric_separator has_separator last_separator : bool)
    : LexM (bool * bool) :=
  match fuel with
  | O => lex_out_of_fuel
  | S fuel' =>
      c ← lex_current;
      if is_decimal_digit c then
        _ ← lx_advance_n 1; decimal_digits_rest fuel' allow_numeric_separator has_separator false
      else if (c =? ch "_") && allow_numeric_separator then
        if (last_separator : bool) then error_here AdjacentNumericSeparators
        else _ ← lx_advance_n 1; decimal_digits_rest fuel' allow_numeric_separator true true
      else mret (has_separator, last_separator)
  end.

Definition skip_decimal_digits (allow_numeric_separator : bool) : LexM bool :=
  c ← lex_current;
  if negb (is_decimal_digit c) then mret false
  else
    _ ← lx_advance_n 1;
    n ← bytes_left;
    '(has_numeric_separator, is_last_char_numeric_separator) ←
      decimal_digits_rest n allow_numeric_separator false false;
    if (is_last_char_numeric_separator : bool)
    then p ← lex_pos; error_from (p - 1) TrailingNumericSeparator
    else mret has_numeric_separator.

(** The optional fraction and exponent of a decimal literal. *)
Definition skip_fraction (allow_numeric_separator : bool) : LexM bool :=
  c ← lex_current;
  if c =? ch "." then _ ← lx_advance_n 1; skip_decimal_digits allow_numeric_separator
  else mret false.

Definition skip_exponent (start_pos : Z) (allow_numeric_separator : bool) : LexM bool :=
  c ← lex_current;
  if (c =? ch "e") || (c =? ch "E") then
    _ ← lx_advance_n 1;
    c ← lex_current;
    _ ← (if (c =? ch "-") || (c =? ch "+") then lx_advance_n 1 else mret tt);
    c ← lex_current;
    if negb (is_decimal_digit c) then error_from start_pos MalformedNumericLiteral
    else skip_decimal_digits allow_numeric_separator
  else mret false.

Definition lex_decimal_literal : LexM (Token * Loc) :=
  start_pos ← lex_pos;
  c ← lex_current;
  let has_leading_zero := c =? ch "0" in
  let allow_numeric_separator := negb has_leading_zero in
  separator1 ← skip_decimal_digits allow_numeric_separator;
  c ← lex_current;
  if c =? ch "n" then
    p ← lex_pos;
    digits_slice ← slice_of start_pos p;
    _ ← lx_advance_n 1;
    p ← lex_pos;
    if has_leading_zero && negb (p - 2 =? start_pos) then error_here BigIntLeadingZero
    else emit_token (BigIntLiteral digits_slice 10) start_pos
  else
    separator2 ← skip_fraction allow_numeric_separator;
    separator3 ← skip_exponent start_pos allow_numeric_separator;
    end_pos ← lex_pos;
    string ← slice_of start_pos end_pos;
    let has_numeric_separator := separator1 || separator2 || separator3 in
    value ← lex_lift (unwrap (f64_from_str
              (if has_numeric_separator then filter (fun b => b <> ch "_") string else string)));
    emit_token (NumberLiteral value) start_pos.

Definition u64_limit : Z := 2 ^ 64.

(** One digit: the multiplication and the addition keep the value if they overflow. *)
Definition accumulate (base digit : Z) (acc : Z * bool) : Z * bool :=
  let '(value, overflows) := acc in
  let '(value, overflows) :=
    if value * base <? u64_limit then (value * base, overflows) else (value, true) in
  if value + digit <? u64_limit then (value + digit, overflows) else (value, true).

Fixpoint based_digits_rest (fuel : nat) (base : Z) (char_to_digit : Z -> option Z)
    (acc : Z * bool) (last_separator : bool) : LexM (Z * bool * bool) :=
  match fuel with
  | O => lex_out_of_fuel
  | S fuel' =>
      c ← lex_current;
      match char_to_digit c with
      | Some digit =>
          _ ← lx_advance_n 1;
          based_digits_rest fuel' base char_to_digit (accumulate base digit acc) false
      | None =>
          if c =? ch "_" then
            if (last_separator : bool) then error_here AdjacentNumericSeparators
            else _ ← lx_advance_n 1; based_digits_rest fuel' base char_to_digit acc true
          else mret (acc, last_separator)
      end
  end.

(** The value of a literal: through a big integer if it does not fit. *)
Definition integer_value (base start end_ : Z) (acc : Z * bool) : LexM f64 :=
  if acc.2 then
    digits_slice ← slice_of start end_;
    bigint_value ← lex_lift (unwrap (parse_bytes digits_slice base));
    lex_lift (unwrap (bigint_to_f64 bigint_value))
  else mret (f64_of_int acc.1).

Definition lex_literal_with_base (base : Z) (char_to_digit : Z -> option Z) : LexM (Token * Loc) :=
  start_pos ← lex_pos;
  _ ← lx_advance_n 2;
  c ← lex_current;
  match char_to_digit c with
  | None => error_from start_pos MalformedNumericLiteral
  | Some digit =>
      _ ← lx_advance_n 1;
      n ← bytes_left;
      '(acc, is_last_char_numeric_separator) ← based_digits_rest n base char_to_digit (digit, false) false;
      if (is_last_char_numeric_separator : bool)
      then p ← lex_pos; error_from (p - 1) TrailingNumericSeparator
      else
        c ← lex_current;
        p ← lex_pos;
        if c =? ch "n" then
          digits_slice ← slice_of (start_pos + 2) p;
          _ ← lx_advance_n 1;
          emit_token (BigIntLiteral digits_slice base) start_pos
        else
          value ← integer_value base (start_pos + 2) p acc;
          emit_token (NumberLiteral value) start_pos
  end.

Definition lex_binary_literal : LexM (Token * Loc) := lex_literal_with_base 2 get_binary_value.
Definition lex_octal_literal : LexM (Token * Loc) := lex_literal_with_base 8 get_octal_value.
Definition lex_hex_literal : LexM (Token * Loc) := lex_literal_with_base 16 get_hex_value.

Fixpoint legacy_octal_loop (fuel : nat) (acc : Z * bool) : LexM (Z * bool) :=
  match fuel with
  | O => lex_out_of_fuel
  | S fuel' =>
      c ← lex_current;
      match get_octal_value c with
      | Some digit => _ ← lx_advance_n 1; legacy_octal_loop fuel' (accumulate 8 digit acc)
      | None => mret acc
      end
  end.

Definition lex_legacy_octal_literal : LexM (option Token) :=
  save_state ← lexer_save;
  start_pos ← lex_pos;
  n ← bytes_left;
  acc ← legacy_octal_loop n (0, false);
  c ← lex_current;
  if (c =? ch "8") || (c =? ch "9") then _ ← lexer_restore save_state; mret None
  else
    p ← lex_pos;
    value ← integer_value 8 start_pos p acc;
    mret (Some (NumberLiteral value)).

Definition error_if_cannot_follow_numeric_literal : LexM unit :=
  start_pos ← lex_pos;
  c ← lex_current;
  '(cannot_follow_numeric_literal, end_pos) ←
    (if is_ascii c then mret (is_id_start_ascii c || is_decimal_digit c, start_pos + 1)
     else if c =? EOF_CHAR then mret (false, start_pos)
     else
       save_state ← lexer_save;
       code_point ← lex_utf8_codepoint;
       end_pos ← lex_pos;
       _ ← lexer_restore save_state;
       mret (is_id_start_unicode code_point, end_pos));
  if (cannot_follow_numeric_literal : bool)
  then lex_error (mkLoc start_pos end_pos) InvalidNumericLiteralNextChar
  else mret tt.

(** ** Identifiers *)

Definition ascii_id_to_keyword (id_string : Wtf8String) : option Fixed.t :=
  snd <$> head (filter (fun row => map ch (list_ascii_of_string row.1) = id_string) keywords).

Definition lex_identifier_unicode_escape_sequence : LexM Z :=
  escape_start_pos ← lex_pos;
  _ ← lx_advance_n 1;
  c ← lex_current;
  if c =? ch "u" then _ ← lx_advance_n 1; lex_unicode_escape_sequence escape_start_pos
  else error_from escape_start_pos MalformedEscapeSeqence.

(** An escape or an encoded code point. *)
Definition lex_escape_or_codepoint : LexM Z :=
  c ← lex_current;
  if c =? ch "\" then lex_identifier_unicode_escape_sequence else lex_utf8_codepoint.

Fixpoint non_ascii_loop (fuel : nat) (string_builder : Wtf8String) : LexM Wtf8String :=
  match fuel with
  | O => lex_out_of_fuel
  | S fuel' =>
      c ← lex_current;
      if is_ascii c then
        id ← lex_lift (as_id_part_ascii c);
        match id with
        | Some char =>
            string_builder ← push_to string_builder char;
            _ ← lx_advance_n 1;
            non_ascii_loop fuel' string_builder
        | None =>
            if c =? ch "\" then
              code_point ← lex_identifier_unicode_escape_sequence;
              id ← lex_lift (as_id_part code_point);
              match id with
              | Some char =>
                  string_builder ← push_to string_builder char;
                  non_ascii_loop fuel' string_builder
              | None => error_here (UnknownToken (to_string_or_unicode_escape_sequence code_point))
              end
            else mret string_builder
        end
      else if c =? EOF_CHAR then mret string_builder
      else
        save_state ← lexer_save;
        code_point ← lex_utf8_codepoint;
        id ← lex_lift (as_id_part_unicode code_point);
        match id with
        | Some char =>
            string_builder ← push_to string_builder char;
            non_ascii_loop fuel' string_builder
        | None => _ ← lexer_restore save_state; mret string_builder
        end
  end.

(** The name of the token. *)
Definition lex_identifier_non_ascii (string_builder : Wtf8String) : LexM Wtf8String :=
  n ← bytes_left; non_ascii_loop n string_builder.

(** The name, and whether it is spelled in ASCII without escapes. *)
Fixpoint identifier_ascii_loop (fuel : nat) (start_pos : Z) : LexM (Wtf8String * bool) :=
  match fuel with
  | O => lex_out_of_fuel
  | S fuel' =>
      c ← lex_current;
      let finish := p ← lex_pos; id_str ← slice_of start_pos p; mret (id_str, true) in
      if is_id_part_ascii c then _ ← lx_advance_n 1; identifier_ascii_loop fuel' start_pos
      else if is_ascii c && negb (c =? ch "\") then finish
      else if c =? EOF_CHAR then finish
      else
        save_state ← lexer_save;
        ascii_end_pos ← lex_pos;
        code_point ← lex_escape_or_codepoint;
        id ← lex_lift (as_id_part code_point);
        match id with
        | Some char =>
            string_builder ← slice_of start_pos ascii_end_pos;
            string_builder ← push_to string_builder char;
            name ← lex_identifier_non_ascii string_builder;
            mret (name, false)
        | None => _ ← lexer_restore save_state; finish
        end
  end.

Definition lex_identifier_ascii (start_pos : Z) : LexM (Token * Loc) :=
  _ ← lx_advance_n 1;
  n ← bytes_left;
  '(name, is_ascii_only) ← identifier_ascii_loop n start_pos;
  match (if is_ascii_only : bool then ascii_id_to_keyword name else None) with
  | Some keyword_token => emit_token (FixedToken keyword_token) start_pos
  | None => emit_token (Identifier name) start_pos
  end.

Definition lex_private_identifier (start_pos : Z) : LexM (Token * Loc) :=
  _ ← lx_advance_n 1;
  c ← lex_current;
  '(token, loc) ←
    (if is_id_start_ascii c then lex_identifier_ascii start_pos
     else
       start_code_point ← lex_escape_or_codepoint;
       if is_id_start start_code_point then
         string ← push_to [] (ch "#");
         string ← push_to string start_code_point;
         name ← lex_identifier_non_ascii string;
         emit_token (Identifier name) start_pos
       else error_from start_pos HashNotFollowedByIdentifier);
  match token with
  | Identifier id => mret (PrivateIdentifier id, loc)
  | _ => lex_lift Panicked
  end.

(** ** String literals *)

(** Escapes of one character. *)
Definition single_escape (c : Z) : option Z :=
  if c =? ch "n" then Some 0x0A
  else if c =? ch "\" then Some (ch "\")
  else if c =? ch "'" then Some (ch "'")
  else if c =? 0x22 then Some 0x22
  else if c =? ch "t" then Some 0x09
  else if c =? ch "r" then Some 0x0D
  else if c =? ch "b" then Some 0x08
  else if c =? ch "v" then Some 0x0B
  else if c =? ch "f" then Some 0x0C
  else None.

(** The fast path: [true] at the closing quote, [false] at an escape. *)
Fixpoint string_fast_loop (fuel : nat) (quote_char : Z) : LexM bool :=
  match fuel with
  | O => lex_out_of_fuel
  | S fuel' =>
      c ← lex_current;
      if c =? quote_char then mret true
      else if c =? ch "\" then mret false
      else if (c =? 0x0A) || (c =? 0x0D) || (c =? EOF_CHAR) then error_here UnterminatedStringLiteral
      else _ ← lex_ascii_or_unicode_character; string_fast_loop fuel' quote_char
  end.

(** A legacy octal escape, at its backslash. *)
Definition string_octal_escape (first_digit : Z) (value : Wtf8String) : LexM Wtf8String :=
  start_pos ← lex_pos;
  _ ← lx_advance_n 1;
  octal_value ← lex_lift (unwrap (get_octal_value first_digit));
  _ ← lx_advance_n 1;
  c ← lex_current;
  octal_value ← match get_octal_value c with
                | Some next_digit => _ ← lx_advance_n 1; mret (octal_value * 8 + next_digit)
                | None => mret octal_value
                end;
  c ← lex_current;
  octal_value ← match (if first_digit <=? ch "3" then get_octal_value c else None) with
                | Some next_digit => _ ← lx_advance_n 1; mret (octal_value * 8 + next_digit)
                | None => mret octal_value
                end;
  in_strict_mode ← strict;
  if (in_strict_mode : bool) then error_from start_pos LegacyOctalEscapeSequenceInStrictMode
  else push_to value octal_value.

(** The last case of an escape: a character that stands for itself, or a line
    continuation of a Unicode newline. *)
Definition other_escape (other : Z) (value : Wtf8String) : LexM Wtf8String :=
  if is_ascii other then _ ← lx_advance_n 2; push_to value other
  else
    _ ← lx_advance_n 1;
    code_point ← lex_utf8_codepoint;
    if negb (is_unicode_newline code_point) then push_to value code_point else mret value.

(** An escape of a string literal, at its backslash. *)
Definition string_escape (value : Wtf8String) : LexM Wtf8String :=
  next ← lx_peek_n 1;
  next2 ← lx_peek_n 2;
  match single_escape next with
  | Some char => value ← push_to value char; _ ← lx_advance_n 2; mret value
  | None =>
      if (next =? ch "0") && negb (is_decimal_digit next2)
      then value ← push_to value 0; _ ← lx_advance_n 2; mret value
      else if between "0" "7" next then string_octal_escape next value
      else if (next =? ch "8") || (next =? ch "9") then
        _ ← lx_advance_n 2;
        in_strict_mode ← strict;
        if (in_strict_mode : bool) then error_here LegacyNonOctalEscapeSequenceInStrictMode
        else push_to value next
      else if next =? ch "x" then
        _ ← lx_advance_n 2;
        c1 ← lex_current;
        c2 ← lx_peek_n 1;
        match get_hex_value c1 with
        | Some x1 =>
            match get_hex_value c2 with
            | Some x2 => value ← push_to value (x1 * 16 + x2); _ ← lx_advance_n 2; mret value
            | None =>
                p ← lex_pos;
                loc ← mark_loc p;
                _ ← lx_advance_n 1;
                lex_error loc MalformedEscapeSeqence
            end
        | None => error_here MalformedEscapeSeqence
        end
      else if next =? ch "u" then
        escape_start_pos ← lex_pos;
        _ ← lx_advance_n 2;
        code_point ← lex_unicode_escape_sequence escape_start_pos;
        push_to value code_point
      else if next =? 0x0A then _ ← lx_advance_n 2; mret value
      else if next =? 0x0D then _ ← lx_advance_n 2; _ ← lx_eat "010"; mret value
      else other_escape next value
  end.

Fixpoint string_slow_loop (fuel : nat) (quote_char : Z) (value : Wtf8String) : LexM Wtf8String :=
  match fuel with
  | O => lex_out_of_fuel
  | S fuel' =>
      c ← lex_current;
      if c =? ch "\" then value ← string_escape value; string_slow_loop fuel' quote_char value
      else if c =? quote_char then _ ← lx_advance_n 1; mret value
      else if (c =? 0x0A) || (c =? 0x0D) || (c =? EOF_CHAR) then error_here UnterminatedStringLiteral
      else
        code_point ← lex_ascii_or_unicode_character;
        value ← push_to value code_point;
        string_slow_loop fuel' quote_char value
  end.

Definition lex_string_literal : LexM (Token * Loc) :=
  quote_char ← lex_current;
  quote_start_pos ← lex_pos;
  _ ← lx_advance_n 1;
  content_start_pos ← lex_pos;
  n ← bytes_left;
  ended ← string_fast_loop n quote_char;
  p ← lex_pos;
  value ← slice_of content_start_pos p;
  if (ended : bool) then
    _ ← lx_advance_n 1;
    emit_token (StringLiteral value) quote_start_pos
  else
    n ← bytes_left;
    value ← string_slow_loop n quote_char value;
    emit_token (StringLiteral value) quote_start_pos.

(** ** Templates *)

Inductive TemplateEnd : Type :=
| EndsAt (raw_end_pos : Z) (is_tail : bool)
| NeedsSlowPath.

Fixpoint template_fast_loop (fuel : nat) : LexM TemplateEnd :=
  match fuel with
  | O => lex_out_of_fuel
  | S fuel' =>
      c ← lex_current;
      if c =? ch "$" then
        next ← lx_peek_n 1;
        if next =? ch "{" then p ← lex_pos; _ ← lx_advance_n 2; mret (EndsAt p false)
        else _ ← lx_advance_n 1; template_fast_loop fuel'
      else if c =? ch "`" then p ← lex_pos; _ ← lx_advance_n 1; mret (EndsAt p true)
      else if (c =? ch "\") || (c =? 0x0D) then mret NeedsSlowPath
      else _ ← lex_ascii_or_unicode_character; template_fast_loop fuel'
  end.

(** What the slow path keeps: the cooked string, whether a carriage return was
    met, and the location of the last malformed escape. *)
Record Cooking : Type := mkCooking {
  cooked_value : Wtf8String;
  has_cr : bool;
  malformed_error_loc : option Loc;
}.
Definition cook (k : Cooking) (value : Wtf8String) : Cooking :=
  mkCooking value (has_cr k) (malformed_error_loc k).
Definition cook_cr (k : Cooking) : Cooking := mkCooking (cooked_value k) true (malformed_error_loc k).
Definition malformed (k : Cooking) (loc : Loc) : Cooking :=
  mkCooking (cooked_value k) (has_cr k) (Some loc).
Definition cook_push (k : Cooking) (code_point : Z) : LexM Cooking :=
  value ← push_to (cooked_value k) code_point; mret (cook k value).

(** The result of a method whose error is inspected. *)
Definition lex_catch {A} (m : LexM A) : LexM (ParseResult A) := fun l =>
  '(r, l') ← m l; Done (Ok r, l').

(** An escape of a template, at its backslash. *)
Definition template_escape (k : Cooking) : LexM Cooking :=
  next ← lx_peek_n 1;
  next2 ← lx_peek_n 2;
  match (if next =? ch "`" then Some (ch "`") else single_escape next) with
  | Some char => k ← cook_push k char; _ ← lx_advance_n 2; mret k
  | None =>
      if next =? ch "0" then
        if (next2 <? ch "0") || (ch "9" <? next2)
        then k ← cook_push k 0; _ ← lx_advance_n 2; mret k
        else p ← lex_pos; loc ← mark_loc p; _ ← lx_advance_n 2; mret (malformed k loc)
      else if between "1" "9" next then
        p ← lex_pos; loc ← mark_loc p; _ ← lx_advance_n 2; mret (malformed k loc)
      else if next =? ch "x" then
        _ ← lx_advance_n 2;
        c1 ← lex_current;
        c2 ← lx_peek_n 1;
        p ← lex_pos;
        loc ← mark_loc p;
        match get_hex_value c1 with
        | Some x1 =>
            match get_hex_value c2 with
            | Some x2 => k ← cook_push k (x1 * 16 + x2); _ ← lx_advance_n 2; mret k
            | None => _ ← lx_advance_n 1; mret (malformed k loc)
            end
        | None => mret (malformed k loc)
        end
      else if next =? ch "u" then
        escape_start_pos ← lex_pos;
        _ ← lx_advance_n 2;
        result ← lex_catch (lex_unicode_escape_sequence escape_start_pos);
        match result with
        | Ok code_point => cook_push k code_point
        | Err err =>
            loc ← lex_lift (unwrap (source_loc err));
            mret (malformed k (mkLoc loc.1 loc.2))
        end
      else if next =? 0x0A then _ ← lx_advance_n 2; mret k
      else if next =? 0x0D then _ ← lx_advance_n 2; _ ← lx_eat "010"; mret (cook_cr k)
      else value ← other_escape next (cooked_value k); mret (cook k value)
  end.

Fixpoint template_slow_loop (fuel : nat) (k : Cooking) : LexM (Cooking * Z * bool) :=
  match fuel with
  | O => lex_out_of_fuel
  | S fuel' =>
      c ← lex_current;
      if c =? ch "\" then k ← template_escape k; template_slow_loop fuel' k
      else if c =? ch "$" then
        next ← lx_peek_n 1;
        if next =? ch "{" then p ← lex_pos; _ ← lx_advance_n 2; mret (k, p, false)
        else k ← cook_push k (ch "$"); _ ← lx_advance_n 1; template_slow_loop fuel' k
      else if c =? ch "`" then p ← lex_pos; _ ← lx_advance_n 1; mret (k, p, true)
      else if c =? 0x0D then
        _ ← lx_advance_n 1;
        k ← cook_push (cook_cr k) 0x0A;
        _ ← lx_eat "010";
        template_slow_loop fuel' k
      else
        code_point ← lex_ascii_or_unicode_character;
        k ← cook_push k code_point;
        template_slow_loop fuel' k
  end.

(** [split] at carriage returns, with the line feed after each of them dropped. *)
Fixpoint normalize_newlines (raw : list Z) : list Z :=
  match raw with
  | [] => []
  | c :: raw' =>
      if c =? 0x0D then
        0x0A :: match raw' with
                | d :: raw'' => if d =? 0x0A then normalize_newlines raw'' else normalize_newlines raw'
                | [] => []
                end
      else c :: normalize_newlines raw'
  end.

Definition lex_template_literal (start_pos : Z) (head : bool) : LexM (Token * Loc) :=
  raw_start_pos ← lex_pos;
  n ← bytes_left;
  end_ ← template_fast_loop n;
  match end_ with
  | EndsAt raw_end_pos tail =>
      raw ← slice_of raw_start_pos raw_end_pos;
      emit_token (TemplatePart (mkTemplatePartToken raw (inl raw) head tail)) start_pos
  | NeedsSlowPath =>
      p ← lex_pos;
      value ← slice_of raw_start_pos p;
      n ← bytes_left;
      '(k, raw_end_pos, tail) ← template_slow_loop n (mkCooking value false None);
      raw ← slice_of raw_start_pos raw_end_pos;
      let raw := if has_cr k then normalize_newlines raw else raw in
      let cooked := match malformed_error_loc k with
                    | None => inl (cooked_value k)
                    | Some loc => inr loc
                    end in
      emit_token (TemplatePart (mkTemplatePartToken raw cooked head tail)) start_pos
  end.

Definition next_template_part : LexM (Token * Loc) :=
  p ← lex_pos; lex_template_literal (p - 1) false.

(** ** RegExp literals *)

Definition lex_regexp_character_non_line_terminator : LexM unit :=
  char ← lex_ascii_or_unicode_character;
  if is_newline char then error_here UnterminatedRegExpLiteral else mret tt.

(** [lex_regex_character(true)]: a bracket does not open another class. *)
Definition lex_regex_character_in_class : LexM unit :=
  c ← lex_current;
  if c =? ch "\" then _ ← lx_advance_n 1; lex_regexp_character_non_line_terminator
  else if c =? EOF_CHAR then error_here UnterminatedRegExpLiteral
  else lex_regexp_character_non_line_terminator.

Fixpoint regex_class_loop (fuel : nat) : LexM unit :=
  match fuel with
  | O => lex_out_of_fuel
  | S fuel' =>
      c ← lex_current;
      if c =? ch "]" then lx_advance_n 1
      else _ ← lex_regex_character_in_class; regex_class_loop fuel'
  end.

(** [lex_regex_character(false)]. *)
Definition lex_regex_character : LexM unit :=
  c ← lex_current;
  if c =? ch "[" then _ ← lx_advance_n 1; n ← bytes_left; regex_class_loop n
  else lex_regex_character_in_class.

Fixpoint regex_body_loop (fuel : nat) : LexM unit :=
  match fuel with
  | O => lex_out_of_fuel
  | S fuel' =>
      c ← lex_current;
      if c =? ch "/" then mret tt else _ ← lex_regex_character; regex_body_loop fuel'
  end.

Fixpoint regex_flags_loop (fuel : nat) : LexM unit :=
  match fuel with
  | O => lex_out_of_fuel
  | S fuel' =>
      c ← lex_current;
      if c =? EOF_CHAR then mret tt
      else if is_ascii c then
        if is_id_part_ascii c then _ ← lx_advance_n 1; regex_flags_loop fuel' else mret tt
      else
        save_state ← lexer_save;
        code_point ← lex_utf8_codepoint;
        if is_id_part_unicode code_point then regex_flags_loop fuel'
        else lexer_restore save_state
  end.

Definition next_regexp_literal : LexM (Token * Loc) :=
  p ← lex_pos;
  previous ← code_point_at (p - 1);
  start_pos ← (if previous =? ch "/" then _ ← lex_regex_character; mret (p - 1)
               else mret (p - 2));
  let pattern_start_pos := start_pos + 1 in
  n ← bytes_left;
  _ ← regex_body_loop n;
  pattern_end_pos ← lex_pos;
  _ ← lx_advance_n 1;
  flags_start_pos ← lex_pos;
  n ← bytes_left;
  _ ← regex_flags_loop n;
  p ← lex_pos;
  pattern ← slice_of pattern_start_pos pattern_end_pos;
  flags ← slice_of flags_start_pos p;
  raw ← slice_of start_pos p;
  emit_token (RegExpLiteral (mkRegExpToken raw pattern flags)) start_pos.

(** ** The next token *)

(** Rows of sixteen entries; [s] is whitespace, 1, and [n] a newline, 2. *)
Definition ASCII_WHITESPACE_AND_NEWLINES : list Z :=
  ([".........snssn.."; "................"; "s..............."; "................";
    "................"; "................"; "................"; "................"]%string)
  ≫= fun row => map (fun c => if Ascii.eqb c "s" then 1 else if Ascii.eqb c "n" then 2 else 0)%char
                  (list_ascii_of_string row).

Fixpoint whitespace_loop (fuel : nat) : LexM unit :=
  match fuel with
  | O => lex_out_of_fuel
  | S fuel' =>
      c ← lex_current;
      match ASCII_WHITESPACE_AND_NEWLINES !! Z.to_nat c with
      | Some sigil =>
          if sigil =? 0 then mret tt
          else
            _ ← (if sigil =? 2 then set_new_line true else mret tt);
            _ ← lx_advance_n 1;
            whitespace_loop fuel'
      | None => mret tt
      end
  end.

(** Operators and punctuation: the token of a first character and the three after it,
    with its length.  A comment or a number is not punctuation. *)
Definition punctuator (c p1 p2 p3 : Z) : option (Fixed.t * Z) :=
  if c =? ch "+" then
    if p1 =? ch "+" then Some (Fixed.Increment, 2)
    else if p1 =? ch "=" then Some (Fixed.AddEq, 2) else Some (Fixed.Plus, 1)
  else if c =? ch "-" then
    if p1 =? ch "-" then Some (Fixed.Decrement, 2)
    else if p1 =? ch "=" then Some (Fixed.SubtractEq, 2) else Some (Fixed.Minus, 1)
  else if c =? ch "*" then
    if p1 =? ch "*" then
      if p2 =? ch "=" then Some (Fixed.ExponentEq, 3) else Some (Fixed.Exponent, 2)
    else if p1 =? ch "=" then Some (Fixed.MultiplyEq, 2) else Some (Fixed.Multiply, 1)
  else if c =? ch "/" then
    if (p1 =? ch "/") || (p1 =? ch "*") then None
    else if p1 =? ch "=" then Some (Fixed.DivideEq, 2) else Some (Fixed.Divide, 1)
  else if c =? ch "%" then
    if p1 =? ch "=" then Some (Fixed.RemainderEq, 2) else Some (Fixed.Remainder, 1)
  else if c =? ch "&" then
    if p1 =? ch "&" then
      if p2 =? ch "=" then Some (Fixed.LogicalAndEq, 3) else Some (Fixed.LogicalAnd, 2)
    else if p1 =? ch "=" then Some (Fixed.AndEq, 2) else Some (Fixed.BitwiseAnd, 1)
  else if c =? ch "|" then
    if p1 =? ch "|" then
      if p2 =? ch "=" then Some (Fixed.LogicalOrEq, 3) else Some (Fixed.LogicalOr, 2)
    else if p1 =? ch "=" then Some (Fixed.OrEq, 2) else Some (Fixed.BitwiseOr, 1)
  else if c =? ch "?" then
    if p1 =? ch "?" then
      if p2 =? ch "=" then Some (Fixed.NullishCoalesceEq, 3) else Some (Fixed.NullishCoalesce, 2)
    else if (p1 =? ch ".") && negb (is_decimal_digit p2) then Some (Fixed.QuestionDot, 2)
    else Some (Fixed.Question, 1)
  else if c =? ch "^" then
    if p1 =? ch "=" then Some (Fixed.XorEq, 2) else Some (Fixed.BitwiseXor, 1)
  else if c =? ch ">" then
    if p1 =? ch ">" then
      if p2 =? ch ">" then
        if p3 =? ch "=" then Some (Fixed.ShiftRightLogicalEq, 4)
        else Some (Fixed.ShiftRightLogical, 3)
      else if p2 =? ch "=" then Some (Fixed.ShiftRightArithmeticEq, 3)
      else Some (Fixed.ShiftRightArithmetic, 2)
    else if p1 =? ch "=" then Some (Fixed.GreaterThanOrEqual, 2) else Some (Fixed.GreaterThan, 1)
  else if c =? ch "<" then
    if p1 =? ch "<" then
      if p2 =? ch "=" then Some (Fixed.ShiftLeftEq, 3) else Some (Fixed.ShiftLeft, 2)
    else if p1 =? ch "=" then Some (Fixed.LessThanOrEqual, 2) else Some (Fixed.LessThan, 1)
  else if c =? ch "~" then Some (Fixed.BitwiseNot, 1)
  else if c =? ch "=" then
    if p1 =? ch "=" then
      if p2 =? ch "=" then Some (Fixed.EqEqEq, 3) else Some (Fixed.EqEq, 2)
    else if p1 =? ch ">" then Some (Fixed.Arrow, 2) else Some (Fixed.Equals, 1)
  else if c =? ch "!" then
    if p1 =? ch "=" then
      if p2 =? ch "=" then Some (Fixed.NotEqEq, 3) else Some (Fixed.NotEq, 2)
    else Some (Fixed.LogicalNot, 1)
  else if c =? ch "(" then Some (Fixed.LeftParen, 1)
  else if c =? ch ")" then Some (Fixed.RightParen, 1)
  else if c =? ch "{" then Some (Fixed.LeftBrace, 1)
  else if c =? ch "}" then Some (Fixed.RightBrace, 1)
  else if c =? ch "[" then Some (Fixed.LeftBracket, 1)
  else if c =? ch "]" then Some (Fixed.RightBracket, 1)
  else if c =? ch ";" then Some (Fixed.Semicolon, 1)
  else if c =? ch "," then Some (Fixed.Comma, 1)
  else if c =? ch "." then
    if (p1 =? ch ".") && (p2 =? ch ".") then Some (Fixed.Spread, 3)
    else if is_decimal_digit p1 then None
    else Some (Fixed.Period, 1)
  else if c =? ch ":" then Some (Fixed.Colon, 1)
  else None.

(** The literal that starts with a zero. *)
Definition lex_zero_literal (start_pos p1 : Z) : LexM (Token * Loc) :=
  if one_of "bB" p1 then lex_binary_literal
  else if one_of "oO" p1 then lex_octal_literal
  else if one_of "xX" p1 then lex_hex_literal
  else if is_decimal_digit p1 then
    in_strict_mode ← strict;
    if (in_strict_mode : bool) then
      _ ← lx_advance_n 1; error_from start_pos LegacyOctalLiteralInStrictMode
    else
      literal ← lex_legacy_octal_literal;
      match literal with
      | Some token => emit_token token start_pos
      | None => lex_decimal_literal
      end
  else lex_decimal_literal.

(** A number, and a check of the character after it. *)
Definition numeric_literal (m : LexM (Token * Loc)) : LexM (option (Token * Loc)) :=
  token ← m; _ ← error_if_cannot_follow_numeric_literal; mret (Some token).

(** A token that ends the loop of [next]. *)
Definition return_token (m : LexM (Token * Loc)) : LexM (option (Token * Loc)) :=
  token ← m; mret (Some token).

(** The rest of an identifier that starts with an escape or beyond ASCII. *)
Definition identifier_from (start_pos char : Z) : LexM (Token * Loc) :=
  string ← push_to [] char;
  name ← lex_identifier_non_ascii string;
  emit_token (Identifier name) start_pos.

(** An escape at the start of an identifier. *)
Definition lex_escaped_identifier (start_pos : Z) : LexM (Token * Loc) :=
  code_point ← lex_identifier_unicode_escape_sequence;
  id ← lex_lift (as_id_start code_point);
  match id with
  | Some char => identifier_from start_pos char
  | None => error_from start_pos (UnknownToken (to_string_or_unicode_escape_sequence code_point))
  end.

(** A character beyond ASCII: an identifier, whitespace or a newline. *)
Definition lex_unicode_start (start_pos : Z) : LexM (option (Token * Loc)) :=
  code_point ← lex_utf8_codepoint;
  id ← lex_lift (as_id_start_unicode code_point);
  match id with
  | Some char => return_token (identifier_from start_pos char)
  | None =>
      if is_unicode_whitespace code_point then mret None
      else if is_unicode_newline code_point then _ ← set_new_line true; mret None
      else error_from start_pos (UnknownToken (to_string_or_unicode_escape_sequence code_point))
  end.

Definition hashbang_allowed : LexM bool := fun l => Done (Ok (allow_hashbang_comment l), l).

(** The token at a character that is neither whitespace nor punctuation. *)
Definition lex_at (start_pos c p1 : Z) : LexM (option (Token * Loc)) :=
  if c =? ch "/" then
    _ ← lx_advance_n 2;
    _ ← (if p1 =? ch "/" then skip_line_comment else skip_block_comment);
    mret None
  else if c =? ch "." then numeric_literal lex_decimal_literal
  else if c =? ch "#" then
    allow_hashbang_comment ← hashbang_allowed;
    if (start_pos =? 0) && (p1 =? ch "!") && allow_hashbang_comment
    then _ ← lx_advance_n 2; _ ← skip_line_comment; mret None
    else return_token (lex_private_identifier start_pos)
  else if c =? ch "0" then numeric_literal (lex_zero_literal start_pos p1)
  else if between "1" "9" c then numeric_literal lex_decimal_literal
  else if (c =? 0x22) || (c =? ch "'") then return_token lex_string_literal
  else if c =? ch "`" then _ ← lx_advance_n 1; return_token (lex_template_literal start_pos true)
  else if c =? EOF_CHAR then return_token (emit_token (FixedToken Fixed.Eof) start_pos)
  else if is_id_start_ascii c then return_token (lex_identifier_ascii start_pos)
  else if c =? ch "\" then return_token (lex_escaped_identifier start_pos)
  else if is_ascii c then _ ← lx_advance_n 1; error_from start_pos (UnknownToken [c])
  else lex_unicode_start start_pos.

(** One round of the loop of [next]: [None] for [continue]. *)
Definition next_round : LexM (option (Token * Loc)) :=
  n ← bytes_left;
  _ ← whitespace_loop n;
  start_pos ← lex_pos;
  c ← lex_current;
  p1 ← lx_peek_n 1;
  p2 ← lx_peek_n 2;
  p3 ← lx_peek_n 3;
  match punctuator c p1 p2 p3 with
  | Some (token, length) => return_token (fixed token length start_pos)
  | None => lex_at start_pos c p1
  end.

Fixpoint next_loop (fuel : nat) : LexM (Token * Loc) :=
  match fuel with
  | O => lex_out_of_fuel
  | S fuel' =>
      token ← next_round;
      match token with
      | Some token => mret token
      | None => next_loop fuel'
      end
  end.

Definition next : LexM (Token * Loc) :=
  _ ← set_new_line false;
  n ← bytes_left;
  next_loop n.

End Lexing.
