(* ===== verification/LexerLogic.v ===== *)
(** A program logic for the lexer.

    [lexes K o m l P]: run from the lexer [l], the method [m] does not run out of
    fuel, has no undefined behaviour and panics only if [K] holds; the lexer stays
    over the same source at or after the position of [o]; a token satisfies [P],
    and an error is located in the source.  The lemmas give the weakest
    precondition of each primitive method; the tactic [lex_step] applies them, and
    the lemmas of the hint database [lexer] to calls. *)

From Stdlib Require Import Ascii String.
From S2P Require Import Prelude Float64 Unicode Wtf8 LexerStream UnicodeProperty Token ParseStream.
From S2P Require Import Characters Lexer.

#[local] Open Scope bool_scope.

Create HintDb lexer.

Definition lx_len (l : Lexer) : Z := Z.of_nat (length (lx_buf l)).

(** The byte at a position, [EOF_CHAR] after the last. *)
Definition byte_at (l : Lexer) (pos : Z) : Z := default EOF_CHAR (lx_buf l !! Z.to_nat pos).

Record lexer_ok (l : Lexer) : Prop := {
  lexer_bytes : units_in 256 (lx_buf l);
  lexer_text : decodes_in_range (lx_buf l);
  lexer_pos : 0 <= lx_pos l <= lx_len l;
  lexer_current : lx_current l = byte_at l (lx_pos l);
}.

(** The lexer moved forward over the same source. *)
Record forward (l l' : Lexer) : Prop := {
  forward_ok : lexer_ok l';
  forward_buf : lx_buf l' = lx_buf l;
  forward_strict : in_strict_mode l' = in_strict_mode l;
  forward_hashbang : allow_hashbang_comment l' = allow_hashbang_comment l;
  forward_pos : lx_pos l <= lx_pos l';
}.

Lemma forward_refl l : lexer_ok l -> forward l l.
Proof. by split. Qed.

Lemma forward_trans l1 l2 l3 : forward l1 l2 -> forward l2 l3 -> forward l1 l3.
Proof. intros [? ? ? ? ?] [? ? ? ? ?]. split; [done|congruence..|lia]. Qed.

Lemma forward_len l l' : forward l l' -> lx_len l' = lx_len l.
Proof. intros H. unfold lx_len. by rewrite (forward_buf _ _ H). Qed.

Lemma byte_at_forward l l' pos : forward l l' -> byte_at l' pos = byte_at l pos.
Proof. intros H. unfold byte_at. by rewrite (forward_buf _ _ H). Qed.

Lemma byte_at_range l pos : lexer_ok l -> 0 <= pos ->
  (byte_at l pos = EOF_CHAR /\ lx_len l <= pos) \/ (0 <= byte_at l pos < 256 /\ pos < lx_len l).
Proof.
  intros Hl Hp. unfold byte_at, lx_len. destruct (lx_buf l !! Z.to_nat pos) as [c|] eqn:E; cbn.
  - right. pose proof (Forall_lookup_1 _ _ _ _ (lexer_bytes _ Hl) E). apply lookup_lt_Some in E.
    cbn in *. lia.
  - left. apply lookup_ge_None in E. lia.
Qed.

(** Either at the end of the source or at a byte. *)
Lemma lexer_at_end l : lexer_ok l ->
  (lx_current l = EOF_CHAR /\ lx_pos l = lx_len l) \/ (0 <= lx_current l < 256 /\ lx_pos l < lx_len l).
Proof.
  intros Hl. pose proof (lexer_pos _ Hl). rewrite (lexer_current _ Hl).
  destruct (byte_at_range l (lx_pos l) Hl); lia.
Qed.

Definition located (l : Lexer) (e : LocalizedParseError) : Prop :=
  exists start end_, source_loc e = Some (start, end_) /\
    0 <= start <= lx_len l /\ 0 <= end_ <= lx_len l.

Definition lexes {A} (K : Prop) (o : Lexer) (m : LexM A) (l : Lexer) (P : A -> Lexer -> Prop) : Prop :=
  match m l with
  | Done (Ok a, l') => forward o l' /\ P a l'
  | Done (Err e, l') => forward o l' /\ located o e
  | Panicked => K
  | Faulted | OutOfFuel => False
  end.

(** The length of invalid bytes stays in the buffer. *)
Lemma decode_error_length buf n :
  decode_wtf8_codepoint buf = Done (inr n) -> n <= Z.of_nat (length buf).
Proof.
  destruct buf as [|b1 buf]; [done|].
  unfold decode_wtf8_codepoint. cbn [lookup list_lookup unwrap mbind outcome_bind].
  destruct buf as [|b2 [|b3 [|b4 buf]]]; cbn [length lookup list_lookup unwrap mbind outcome_bind];
    repeat case_match; intros [= <-]; rewrite ?andb_true_iff in *; lia.
Qed.

Lemma lex_bind_assoc {A B C} (m : LexM A) (f : A -> LexM B) (g : B -> LexM C) l :
  ((m ≫= f) ≫= g) l = (m ≫= fun a => f a ≫= g) l.
Proof. unfold mbind, LexM_bind. by destruct (m l) as [[[a|x] l']| | |]. Qed.

Section Rules.

Context {K : Prop}.

Lemma lexes_weaken {A} o (m : LexM A) l (P Q : A -> Lexer -> Prop) :
  lexes K o m l P -> (forall a l', forward o l' -> P a l' -> Q a l') -> lexes K o m l Q.
Proof.
  unfold lexes. intros Hm Hq. destruct (m l) as [[[a|x] l']| | |]; try done.
  destruct Hm as [? Hp]. auto.
Qed.

Lemma located_forward l l' e : forward l l' -> located l' e -> located l e.
Proof. unfold located. intros H. by rewrite (forward_len _ _ H). Qed.

Lemma lexes_call {A B} o (m : LexM A) (f : A -> LexM B) l P Q :
  forward o l -> lexes K l m l P ->
  (forall a l', forward o l' -> forward l l' -> P a l' -> lexes K o (f a) l' Q) ->
  lexes K o (m ≫= f) l Q.
Proof.
  unfold lexes. intros Ho Hm Hf. change ((m ≫= f) l) with
    (match m l with
     | Done (Ok a, l') => f a l' | Done (Err x, l') => Done (Err x, l')
     | Panicked => Panicked | Faulted => Faulted | OutOfFuel => OutOfFuel end).
  destruct (m l) as [[[a|x] l']| | |]; try done; destruct Hm as [Hl Hp].
  - by apply Hf; [eapply forward_trans|..].
  - split; [by eapply forward_trans|by eapply located_forward].
Qed.

Lemma lexes_tail {A} o (m : LexM A) l (P Q : A -> Lexer -> Prop) :
  forward o l -> lexes K l m l P -> (forall a l', forward l l' -> P a l' -> Q a l') -> lexes K o m l Q.
Proof.
  unfold lexes. intros Ho Hm Hq. destruct (m l) as [[[a|x] l']| | |]; try done; destruct Hm as [Hl Hp].
  - split; [by eapply forward_trans|auto].
  - split; [by eapply forward_trans|by eapply located_forward].
Qed.

Lemma lexes_assoc {A B C} o (m : LexM A) (f : A -> LexM B) (g : B -> LexM C) l Q :
  lexes K o (m ≫= fun a => f a ≫= g) l Q -> lexes K o ((m ≫= f) ≫= g) l Q.
Proof. unfold lexes. by rewrite lex_bind_assoc. Qed.

Lemma lexes_ret {A} o (a : A) l (P : A -> Lexer -> Prop) :
  forward o l -> P a l -> lexes K o (mret a) l P.
Proof. by split. Qed.
Lemma lexes_ret_bind {A B} o (a : A) (f : A -> LexM B) l Q :
  lexes K o (f a) l Q -> lexes K o (mret a ≫= f) l Q.
Proof. done. Qed.
Lemma lexes_current {B} o (f : Z -> LexM B) l Q :
  lexes K o (f (lx_current l)) l Q -> lexes K o (lex_current ≫= f) l Q.
Proof. done. Qed.
Lemma lexes_pos {B} o (f : Z -> LexM B) l Q :
  lexes K o (f (lx_pos l)) l Q -> lexes K o (lex_pos ≫= f) l Q.
Proof. done. Qed.
Lemma lexes_strict {B} o (f : bool -> LexM B) l Q :
  lexes K o (f (in_strict_mode l)) l Q -> lexes K o (strict ≫= f) l Q.
Proof. done. Qed.
Lemma lexes_hashbang {B} o (f : bool -> LexM B) l Q :
  lexes K o (f (allow_hashbang_comment l)) l Q -> lexes K o (hashbang_allowed ≫= f) l Q.
Proof. done. Qed.
Lemma lexes_save {B} o (f : _ -> LexM B) l Q :
  lexes K o (f (mkSavedLexer (lx_current l) (lx_pos l))) l Q -> lexes K o (lexer_save ≫= f) l Q.
Proof. done. Qed.
Lemma lexes_bytes_left {B} o (f : nat -> LexM B) l Q :
  (forall n, lx_len l - lx_pos l < Z.of_nat n -> lexes K o (f n) l Q) -> lexes K o (bytes_left ≫= f) l Q.
Proof.
  intros Hf. exact (Hf (S (Z.to_nat (Z.of_nat (length (lx_buf l)) - lx_pos l))) ltac:(unfold lx_len; lia)).
Qed.
Lemma lexes_mark_loc {B} o p (f : Loc -> LexM B) l Q :
  lexes K o (f (mkLoc p (lx_pos l))) l Q -> lexes K o (mark_loc p ≫= f) l Q.
Proof. done. Qed.

Lemma lexes_emit o token p l (P : _ -> Lexer -> Prop) :
  forward o l -> P (token, mkLoc p (lx_pos l)) l -> lexes K o (emit_token token p) l P.
Proof. by split. Qed.
Lemma lexes_emit_bind {B} o token p (f : Token * Loc -> LexM B) l Q :
  lexes K o (f (token, mkLoc p (lx_pos l))) l Q -> lexes K o (emit_token token p ≫= f) l Q.
Proof. done. Qed.

Lemma lexes_error {A} o loc err l (P : A -> Lexer -> Prop) :
  forward o l -> 0 <= loc_start loc <= lx_len l -> 0 <= loc_end loc <= lx_len l ->
  lexes K o (lex_error loc err) l P.
Proof.
  intros Ho Hs He. split; [done|]. eexists _, _. split; [done|]. by rewrite <- (forward_len _ _ Ho).
Qed.
Lemma lexes_error_from {A} o p err l (P : A -> Lexer -> Prop) :
  forward o l -> 0 <= p <= lx_len l -> lexes K o (error_from p err) l P.
Proof.
  intros Ho Hp. unfold error_from. apply lexes_mark_loc, lexes_error; [done..|].
  apply (lexer_pos l), (forward_ok _ _ Ho).
Qed.
Lemma lexes_error_here {A} o err l (P : A -> Lexer -> Prop) :
  forward o l -> lexes K o (error_here err) l P.
Proof.
  intros Ho. unfold error_here. apply lexes_pos, lexes_error_from; [done|].
  apply (lexer_pos l), (forward_ok _ _ Ho).
Qed.

(** An error in the middle of a method ends it. *)
Lemma lexes_error_from_bind {A B} o p err (f : A -> LexM B) l Q :
  forward o l -> 0 <= p <= lx_len l -> lexes K o (error_from p err ≫= f) l Q.
Proof.
  intros Ho Hp. apply (lexes_error_from (A := B) o p err l Q Ho Hp).
Qed.

Lemma lexes_lift {A B} o (v : A) (f : A -> LexM B) l Q :
  lexes K o (f v) l Q -> lexes K o (lex_lift (Done v) ≫= f) l Q.
Proof. done. Qed.

Lemma lexer_at_ok l pos : lexer_ok l -> 0 <= pos <= lx_len l -> lexer_ok (lexer_at l pos (byte_at l pos)).
Proof. intros [? ? ? ?] Hp. by split. Qed.

Lemma lx_advance_at l n : lexer_ok l -> 0 <= n ->
  lx_advance_n n l = Done (Ok tt, lexer_at l (Z.min (lx_len l) (lx_pos l + n))
    (byte_at l (Z.min (lx_len l) (lx_pos l + n)))).
Proof.
  intros Hl Hn. pose proof (lexer_pos _ Hl). unfold lx_advance_n, byte_at. fold (lx_len l).
  destruct (Z.ltb_spec (lx_pos l + n) (lx_len l)) as [Hlt|Hge].
  - destruct (buf_get_lookup (lx_buf l) (lx_pos l + n)) as (c & -> & Hc); [unfold lx_len in Hlt; lia|].
    rewrite Z.min_r, Hc by lia. done.
  - rewrite Z.min_l by lia. unfold lx_len. by rewrite lookup_ge_None_2 by lia.
Qed.

Lemma forward_at l pos : lexer_ok l -> lx_pos l <= pos <= lx_len l ->
  forward l (lexer_at l pos (byte_at l pos)).
Proof.
  intros Hl Hp. pose proof (lexer_pos _ Hl). split; [apply lexer_at_ok; [done|lia]|done..|cbn; lia].
Qed.

Lemma lexes_advance {B} o n (f : unit -> LexM B) l Q :
  forward o l -> 0 <= n ->
  (forall l', forward o l' -> forward l l' -> lx_pos l' = Z.min (lx_len l) (lx_pos l + n) ->
     lexes K o (f tt) l' Q) ->
  lexes K o (lx_advance_n n ≫= f) l Q.
Proof.
  intros Ho Hn Hf. pose proof (forward_ok _ _ Ho) as Hl. pose proof (lexer_pos _ Hl).
  unfold lexes. change ((lx_advance_n n ≫= f) l) with
    (match lx_advance_n n l with
     | Done (Ok a, l') => f a l' | Done (Err x, l') => Done (Err x, l')
     | Panicked => Panicked | Faulted => Faulted | OutOfFuel => OutOfFuel end).
  rewrite lx_advance_at by done. pose proof (forward_at l (Z.min (lx_len l) (lx_pos l + n)) Hl ltac:(lia)).
  apply Hf; [by eapply forward_trans|done|done].
Qed.
Lemma lexes_advance_tail o n l (P : unit -> Lexer -> Prop) :
  forward o l -> 0 <= n ->
  (forall l', forward o l' -> forward l l' -> lx_pos l' = Z.min (lx_len l) (lx_pos l + n) -> P tt l') ->
  lexes K o (lx_advance_n n) l P.
Proof.
  intros Ho Hn HP.
  assert (lexes K o (lx_advance_n n ≫= mret) l P) as H.
  { apply lexes_advance; [done..|]. intros l' ? ? ?. apply lexes_ret; [done|by apply HP]. }
  unfold lexes in *. change ((lx_advance_n n ≫= mret) l) with
    (match lx_advance_n n l with
     | Done (Ok a, l') => Done (Ok a, l') | Done (Err x, l') => Done (Err x, l')
     | Panicked => Panicked | Faulted => Faulted | OutOfFuel => OutOfFuel end) in H.
  by destruct (lx_advance_n n l) as [[[a|x] l']| | |].
Qed.

Lemma lexes_peek {B} o n (f : Z -> LexM B) l Q :
  forward o l -> 0 <= n ->
  lexes K o (f (byte_at l (lx_pos l + n))) l Q -> lexes K o (lx_peek_n n ≫= f) l Q.
Proof.
  intros Ho Hn Hf. pose proof (lexer_pos _ (forward_ok _ _ Ho)).
  unfold lexes. change ((lx_peek_n n ≫= f) l) with
    (match lx_peek_n n l with
     | Done (Ok a, l') => f a l' | Done (Err x, l') => Done (Err x, l')
     | Panicked => Panicked | Faulted => Faulted | OutOfFuel => OutOfFuel end).
  unfold byte_at in Hf. unfold lx_peek_n. fold (lx_len l).
  destruct (Z.ltb_spec (lx_pos l + n) (lx_len l)) as [Hlt|Hge].
  - destruct (buf_get_lookup (lx_buf l) (lx_pos l + n)) as (c & -> & Hc); [unfold lx_len in Hlt; lia|].
    by rewrite Hc in Hf.
  - rewrite lookup_ge_None_2 in Hf by (unfold lx_len in Hge; lia). done.
Qed.

Lemma lexes_code_point_at {B} o pos (f : Z -> LexM B) l Q :
  0 <= pos < lx_len l -> lexes K o (f (byte_at l pos)) l Q -> lexes K o (code_point_at pos ≫= f) l Q.
Proof.
  intros Hp Hf. unfold lexes. change ((code_point_at pos ≫= f) l) with
    (match code_point_at pos l with
     | Done (Ok a, l') => f a l' | Done (Err x, l') => Done (Err x, l')
     | Panicked => Panicked | Faulted => Faulted | OutOfFuel => OutOfFuel end).
  unfold code_point_at, byte_at in *.
  destruct (buf_get_lookup (lx_buf l) pos) as (c & -> & Hc); [done|]. by rewrite Hc in Hf.
Qed.

Lemma lexes_eat {B} o c (f : bool -> LexM B) l Q :
  forward o l -> (lx_current l <> ch c -> lexes K o (f false) l Q) ->
  (forall l', forward o l' -> forward l l' -> lx_current l = ch c -> lx_pos l' = lx_pos l + 1 ->
     lexes K o (f true) l' Q) ->
  lexes K o (lx_eat c ≫= f) l Q.
Proof.
  intros Ho Hfalse Htrue. unfold lx_eat. apply lexes_assoc, lexes_current.
  destruct (Z.eqb_spec (lx_current l) (ch c)) as [E|]; [|by apply lexes_ret_bind, Hfalse].
  apply lexes_assoc, lexes_advance; [done|lia|]. intros l' Ho' Hl Hp. apply lexes_ret_bind, Htrue; [done..|].
  assert (lx_current l <> EOF_CHAR).
  { rewrite E. unfold ch, EOF_CHAR. pose proof (N_ascii_bounded c). lia. }
  destruct (lexer_at_end l (forward_ok _ _ Ho)); lia.
Qed.

Lemma lexes_set_new_line {B} o b (f : unit -> LexM B) l Q :
  forward o l -> (forall l', forward o l' -> forward l l' -> lx_pos l' = lx_pos l -> lexes K o (f tt) l' Q) ->
  lexes K o (set_new_line b ≫= f) l Q.
Proof.
  intros Ho Hf. pose proof (forward_ok _ _ Ho) as [? ? ? ?].
  assert (forward l (mkLexer (lx_buf l) (lx_current l) (lx_pos l) b (in_strict_mode l)
                 (allow_hashbang_comment l))) by (split; [by split|done..]).
  apply Hf; [by eapply forward_trans|done|done].
Qed.
Lemma lexes_set_new_line_tail o b l (P : unit -> Lexer -> Prop) :
  forward o l -> (forall l', forward o l' -> forward l l' -> lx_pos l' = lx_pos l -> P tt l') ->
  lexes K o (set_new_line b) l P.
Proof.
  intros Ho HP.
  assert (lexes K o (set_new_line b ≫= mret) l P); [|done].
  apply lexes_set_new_line; [done|]. intros l' ? ? ?. apply lexes_ret; [done|by apply HP].
Qed.

(** Back to a state that was saved after the origin. *)
Lemma lexes_restore {B} o (f : unit -> LexM B) l0 l Q :
  forward o l0 -> forward l0 l ->
  (forall l', forward o l' -> forward l0 l' -> lx_pos l' = lx_pos l0 -> lexes K o (f tt) l' Q) ->
  lexes K o (lexer_restore (mkSavedLexer (lx_current l0) (lx_pos l0)) ≫= f) l Q.
Proof.
  intros H0 Hl Hf. pose proof (forward_ok _ _ H0) as [Hb Ht Hp Hc].
  pose proof Hl as [_ Eb Es Eh _].
  assert (forward l0 (mkLexer (lx_buf l) (lx_current l0) (lx_pos l0) (is_new_line_before_current l)
            (in_strict_mode l) (allow_hashbang_comment l))).
  { split; [|done..]. split; cbn [lx_buf lx_current lx_pos]; rewrite ?Eb; [done|done|..].
    - unfold lx_len in *. cbn. rewrite ?Eb. done.
    - rewrite Hc. unfold byte_at. cbn. by rewrite ?Eb. }
  apply Hf; [by eapply forward_trans|done|done].
Qed.
Lemma lexes_restore_tail o l0 l (P : unit -> Lexer -> Prop) :
  forward o l0 -> forward l0 l ->
  (forall l', forward o l' -> forward l0 l' -> lx_pos l' = lx_pos l0 -> P tt l') ->
  lexes K o (lexer_restore (mkSavedLexer (lx_current l0) (lx_pos l0))) l P.
Proof.
  intros H0 Hl HP.
  assert (lexes K o (lexer_restore (mkSavedLexer (lx_current l0) (lx_pos l0)) ≫= mret) l P); [|done].
  eapply lexes_restore; [done..|]. intros l' ? ? ?. apply lexes_ret; [done|by apply HP].
Qed.

(** The bytes between two positions. *)
Definition region (l : Lexer) (start end_ : Z) : list Z :=
  take (Z.to_nat (end_ - start)) (drop (Z.to_nat start) (lx_buf l)).

Lemma lexes_slice {B} o start end_ (f : list Z -> LexM B) l Q :
  0 <= start <= end_ -> end_ <= lx_len l ->
  lexes K o (f (region l start end_)) l Q -> lexes K o (slice_of start end_ ≫= f) l Q.
Proof.
  intros Hs He Hf. unfold lexes, slice_of, buf_slice, mbind, LexM_bind, lx_len in *.
  rewrite (proj2 (Z.leb_le 0 start)), (proj2 (Z.leb_le start end_)), (proj2 (Z.leb_le end_ _)) by lia.
  done.
Qed.

Lemma lexes_push {B} o value c (f : Wtf8String -> LexM B) l Q :
  0 <= c <= MAX_CODE_POINT -> lexes K o (f (value ++ encoded_bytes c)) l Q ->
  lexes K o (push_to value c ≫= f) l Q.
Proof. intros Hc Hf. unfold push_to. by rewrite push_encoded. Qed.
Lemma lexes_push_tail o value c l (P : Wtf8String -> Lexer -> Prop) :
  forward o l -> 0 <= c <= MAX_CODE_POINT -> P (value ++ encoded_bytes c) l ->
  lexes K o (push_to value c) l P.
Proof. intros Ho Hc HP. unfold push_to. rewrite push_encoded by done. by split. Qed.

Lemma lexes_catch {A B} o (m : LexM A) (f : ParseResult A -> LexM B) l P Q :
  forward o l -> lexes K l m l P ->
  (forall a l', forward o l' -> forward l l' -> P a l' -> lexes K o (f (Ok a)) l' Q) ->
  (forall e l', forward o l' -> forward l l' -> located l e -> lexes K o (f (Err e)) l' Q) ->
  lexes K o (lex_catch m ≫= f) l Q.
Proof.
  intros Ho Hm Hok Herr. unfold lexes in *. change ((lex_catch m ≫= f) l) with
    (match ('(r, l') ← m l; Done (@Ok (ParseResult A) r, l')) with
     | Done (Ok a, l') => f a l' | Done (Err x, l') => Done (Err x, l')
     | Panicked => Panicked | Faulted => Faulted | OutOfFuel => OutOfFuel end).
  destruct (m l) as [[[a|x] l']| | |]; try done; destruct Hm as [? ?]; cbn [mbind outcome_bind].
  - apply Hok; [by eapply forward_trans|done..].
  - apply Herr; [by eapply forward_trans|done..].
Qed.

(** Identifier characters are scalar values. *)
Definition maybe_char (l : Lexer) (r : option Z) (l' : Lexer) : Prop :=
  lx_pos l' = lx_pos l /\ forall d, r = Some d -> 0 <= d <= MAX_CODE_POINT.

Lemma lexes_as_id l (o : outcome (option Z)) : lexer_ok l ->
  (exists r, o = Done r /\ forall d, r = Some d -> is_scalar d) ->
  lexes K l (lex_lift o) l (maybe_char l).
Proof.
  intros Hl (r & -> & Hr). split; [by apply forward_refl|]. split; [done|]. intros d Hd. by apply Hr.
Qed.

(** Decoding panics at the end of the source, and only there. *)
Lemma lexes_decode {B} o (f : Z * Z + Z -> LexM B) l Q :
  lexer_ok l -> (lx_pos l = lx_len l -> K) ->
  (forall c n, 0 <= c <= MAX_CODE_POINT -> 1 <= n -> lx_pos l < lx_len l ->
     lexes K o (f (inl (c, n))) l Q) ->
  (forall n, 1 <= n <= lx_len l - lx_pos l -> lexes K o (f (inr n)) l Q) ->
  lexes K o (decode_at (lx_pos l) ≫= f) l Q.
Proof.
  intros Hl HK Hok Herr. pose proof (lexer_pos _ Hl) as Hp.
  pose proof (lexer_text _ Hl (Z.to_nat (lx_pos l))) as Ht.
  unfold lexes in *. change ((decode_at (lx_pos l) ≫= f) l) with
    (match (d ← decode_wtf8_codepoint (drop (Z.to_nat (lx_pos l)) (lx_buf l)); Done (Ok d, l)) with
     | Done (Ok a, l') => f a l' | Done (Err x, l') => Done (Err x, l')
     | Panicked => Panicked | Faulted => Faulted | OutOfFuel => OutOfFuel end).
  destruct (decide (lx_pos l = lx_len l)) as [E|Hne].
  { rewrite drop_ge by (unfold lx_len in E; lia). by apply HK. }
  assert (Z.of_nat (length (drop (Z.to_nat (lx_pos l)) (lx_buf l))) = lx_len l - lx_pos l) as Hlen
    by (rewrite length_drop; unfold lx_len in *; lia).
  destruct (decode_done (drop (Z.to_nat (lx_pos l)) (lx_buf l))) as (d & Ed & Hd).
  { intros E. rewrite E in Hlen. cbn in Hlen. lia. }
  rewrite Ed. cbn [mbind outcome_bind]. destruct d as [[c n]|n]; [apply Hok; [by apply (Ht _ _ Ed)|done|lia]|].
  apply Herr. rewrite <- Hlen. split; [done|]. by apply decode_error_length in Ed.
Qed.

Lemma lex_utf8_codepoint_lexes l : lexer_ok l -> (lx_pos l = lx_len l -> K) ->
  lexes K l lex_utf8_codepoint l (fun c l' => 0 <= c <= MAX_CODE_POINT /\ lx_pos l < lx_pos l').
Proof.
  intros Hl HK. pose proof (lexer_pos _ Hl) as Hp. unfold lex_utf8_codepoint. apply lexes_pos.
  apply lexes_decode; [done|done|intros c n Hc Hn Hlt|intros n Hn].
  - apply lexes_advance; [by apply forward_refl|lia|]. intros l' _ ? ?. apply lexes_ret; [done|lia].
  - apply lexes_advance; [by apply forward_refl|lia|]. intros l' _ Hf Hp'. apply lexes_pos, lexes_error_from; [done|].
    rewrite (forward_len _ _ Hf). lia.
Qed.

End Rules.

(** ** Automation *)

(** Characters of a known class are not the end of the source. *)
Lemma id_ascii_range c : is_id_part_ascii c = true \/ is_id_start_ascii c = true -> c < 128.
Proof. intros [H|H]; by eapply id_table_range; [|exact H]. Qed.

Lemma get_binary_range c v : get_binary_value c = Some v -> 0 <= v < 2 /\ c < 128.
Proof.
  unfold get_binary_value. rewrite between_spec. change (ch "0") with 48. change (ch "1") with 49.
  case_bool_decide; [|done]. intros [= <-]. lia.
Qed.

Ltac lex_facts :=
  repeat match goal with
    | H : _ /\ _ |- _ => destruct H
    | H : maybe_char _ _ _ |- _ => destruct H
    | H : forall d, Some ?a = Some d -> _ |- _ => specialize (H a eq_refl)
    | H : forward ?a ?b |- _ =>
        lazymatch goal with
        | _ : lx_pos a <= lx_pos b |- _ => fail
        | _ => pose proof (forward_pos _ _ H); pose proof (forward_len _ _ H);
               pose proof (forward_ok _ _ H)
        end
    end;
  repeat match goal with
    | H : lexer_ok ?l |- _ =>
        lazymatch goal with
        | _ : 0 <= lx_pos l <= lx_len l |- _ => fail
        | _ => pose proof (lexer_at_end l H); pose proof (lexer_pos l H)
        end
    end;
  repeat match goal with
    | H : is_id_part_ascii ?c = true |- _ =>
        lazymatch goal with
        | _ : c < 128 |- _ => fail
        | _ => pose proof (id_ascii_range c (or_introl H))
        end
    | H : is_id_start_ascii ?c = true |- _ =>
        lazymatch goal with
        | _ : c < 128 |- _ => fail
        | _ => pose proof (id_ascii_range c (or_intror H))
        end
    | H : get_hex_value _ = Some _ |- _ => apply get_hex_range in H as [? ?]
    | H : get_octal_value _ = Some _ |- _ => apply get_octal_range in H as [? ?]
    | H : get_binary_value _ = Some _ |- _ => apply get_binary_range in H as [? ?]
    end.

Ltac lex_lia :=
  lex_facts; unfold is_ascii, is_decimal_digit, between, MAX_CODE_POINT, EOF_CHAR in *; chars;
  cbn [loc_start loc_end fst snd] in *; lia.

(** One step of a method: the primitive methods, conditionals, and calls of the
    methods with a lemma in [lexer]. *)
Ltac lex_step :=
  lazymatch goal with
  | |- lexes _ _ (mret _) _ _ => apply lexes_ret; [assumption|]
  | |- lexes _ _ (error_from _ _) _ _ => apply lexes_error_from; [assumption|lex_lia]
  | |- lexes _ _ (error_here _) _ _ => apply lexes_error_here; assumption
  | |- lexes _ _ (lex_error _ _) _ _ => apply lexes_error; [assumption|lex_lia..]
  | |- lexes _ _ (emit_token _ _) _ _ => apply lexes_emit; [assumption|]
  | |- lexes _ _ (push_to _ _) _ _ => apply lexes_push_tail; [assumption|lex_lia|]
  | |- lexes _ _ (set_new_line _) _ _ => apply lexes_set_new_line_tail; [assumption|intros ? ? ? ?]
  | |- lexes _ _ (lx_advance_n _) _ _ => apply lexes_advance_tail; [assumption|lex_lia|intros ? ? ? ?]
  | |- lexes _ _ (lexer_restore (mkSavedLexer (lx_current ?l0) (lx_pos ?l0))) _ _ =>
      apply (lexes_restore_tail _ l0); [assumption|assumption|intros ? ? ? ?]
  | |- lexes _ _ (if ?b then _ else _) _ _ => let E := fresh "E" in destruct b eqn:E
  | |- lexes _ _ (match ?x with _ => _ end) _ _ => let E := fresh "E" in destruct x eqn:E
  | |- lexes _ _ (mbind _ ?m) _ _ =>
      lazymatch m with
      | mret _ => apply lexes_ret_bind
      | lex_current => apply lexes_current
      | lex_pos => apply lexes_pos
      | strict => apply lexes_strict
      | hashbang_allowed => apply lexes_hashbang
      | lexer_save => apply lexes_save
      | bytes_left => apply lexes_bytes_left; intros ? ?
      | mark_loc _ => apply lexes_mark_loc
      | emit_token _ _ => apply lexes_emit_bind
      | error_from _ _ => apply lexes_error_from_bind; [assumption|lex_lia]
      | lx_advance_n _ => apply lexes_advance; [assumption|lex_lia|intros ? ? ? ?]
      | lx_peek_n _ => apply lexes_peek; [assumption|lex_lia|]
      | lx_eat _ => apply lexes_eat; [assumption|intros ?|intros ? ? ? ? ?]
      | set_new_line _ => apply lexes_set_new_line; [assumption|intros ? ? ? ?]
      | lexer_restore (mkSavedLexer (lx_current ?l0) (lx_pos ?l0)) =>
          apply (lexes_restore _ _ l0); [assumption|assumption|intros ? ? ? ?]
      | code_point_at _ => apply lexes_code_point_at; [lex_lia|]
      | slice_of _ _ => apply lexes_slice; [lex_lia|lex_lia|]
      | push_to _ _ => apply lexes_push; [lex_lia|]
      | lex_lift (Done _) => apply lexes_lift
      | mbind _ _ => apply lexes_assoc
      | if ?b then _ else _ => let E := fresh "E" in destruct b eqn:E
      | match ?x with _ => _ end => let E := fresh "E" in destruct x eqn:E
      | lex_catch _ => eapply lexes_catch; [eassumption|solve [eauto with lexer]|
          intros ? ? ? ? ?; cbn beta in *|intros ? ? ? ? ?]
      | _ => eapply lexes_call; [eassumption|solve [eauto with lexer]|intros ? ? ? ? ?; cbn beta in *]
      end
  | |- lexes _ _ _ _ _ => eapply lexes_tail; [eassumption|solve [eauto with lexer]|intros ? ? ? ?; cbn beta in *]
  end; cbn beta iota.

#[export] Hint Resolve forward_ok forward_refl : lexer.
#[export] Hint Extern 4 (_ < Z.of_nat _) => lex_lia : lexer.
#[export] Hint Extern 4 (_ <= _) => lex_lia : lexer.
#[export] Hint Extern 4 (_ <= _ <= _) => lex_lia : lexer.
#[export] Hint Extern 4 (_ <= _ < _) => lex_lia : lexer.
#[export] Hint Extern 4 (_ < _) => lex_lia : lexer.
#[export] Hint Extern 5 =>
  match goal with
  | |- lx_pos ?l = lx_len ?l -> _ => let H := fresh in intros H; exfalso; lex_lia
  | H : lx_pos ?l = lx_len ?l |- _ => exfalso; lex_lia
  end : lexer.
#[export] Hint Resolve lex_utf8_codepoint_lexes : lexer.
