(* ===== verification/LexerCorrect.v ===== *)
(** The lexer is safe: each method returns, in the logic of [LexerLogic].

    Only reading a code point at the end of the source panics; the methods that
    can do so take a hypothesis about it. *)

From Stdlib Require Import Ascii String.
From S2P Require Import Prelude Float64 Unicode Wtf8 LexerStream UnicodeProperty Token ParseStream.
From S2P Require Import Characters Lexer LexerLogic.

#[local] Open Scope bool_scope.

(** A method starts where it is called. *)
Ltac lex_start :=
  let H := fresh "Hself" in
  match goal with |- lexes _ ?l _ ?l _ => pose proof (forward_refl l ltac:(eauto with lexer)) as H end.

(** The last byte of the source. *)
Definition ends_with (l : Lexer) (c : Z) : Prop := lx_len l <> 0 /\ byte_at l (lx_len l - 1) = c.

Lemma ends_with_forward l l' c : forward l l' -> ends_with l' c -> ends_with l c.
Proof. intros Hf. unfold ends_with. by rewrite (forward_len _ _ Hf), (byte_at_forward _ _ _ Hf). Qed.
#[export] Hint Resolve ends_with_forward : lexer.

Lemma ends_at_end l c : lexer_ok l -> lx_current l = c -> lx_pos l + 1 = lx_len l -> ends_with l c.
Proof.
  intros Hl Hc Hp. pose proof (lexer_pos _ Hl). split; [lia|]. rewrite <- Hc, (lexer_current _ Hl).
  f_equal. lia.
Qed.

(** ** Texts *)

(** How a token is spelled in a source; [Fixed.text] misprints three tokens. *)
Definition spelling (token : Fixed.t) : list Z :=
  map ch (list_ascii_of_string
    match token with
    | Fixed.Eof => EmptyString
    | Fixed.LogicalNot => "!"
    | Fixed.BitwiseNot => "~"
    | Fixed.AddEq => "+="
    | _ => Fixed.text token
    end%string).

Lemma region_forward l l' a b : forward l l' -> region l' a b = region l a b.
Proof. intros H. unfold region. by rewrite (forward_buf _ _ H). Qed.

Lemma region_empty l a : region l a a = [].
Proof. unfold region. by rewrite Z.sub_diag. Qed.

Lemma region_split l a b c : 0 <= a <= b -> b <= c -> region l a c = region l a b ++ region l b c.
Proof.
  intros Hab Hbc. unfold region.
  replace (Z.to_nat (c - a)) with (Z.to_nat (b - a) + Z.to_nat (c - b))%nat by lia.
  replace (Z.to_nat b) with (Z.to_nat a + Z.to_nat (b - a))%nat by lia.
  by rewrite <- take_take_drop, drop_drop.
Qed.

Lemma region_byte l pos : lexer_ok l -> 0 <= pos < lx_len l -> region l pos (pos + 1) = [byte_at l pos].
Proof.
  intros Hl Hp. unfold region, byte_at, lx_len in *. replace (pos + 1 - pos) with 1 by lia.
  destruct (lookup_lt_is_Some_2 (lx_buf l) (Z.to_nat pos)) as [c Hc]; [lia|].
  rewrite Hc. by rewrite (drop_S _ _ _ Hc).
Qed.

(** The current byte and what follows it. *)
Lemma region_current l l' : lexer_ok l -> lx_pos l < lx_len l -> lx_pos l + 1 <= lx_pos l' ->
  region l (lx_pos l) (lx_pos l') = lx_current l :: region l (lx_pos l + 1) (lx_pos l').
Proof.
  intros Hl Hlt Hp. pose proof (lexer_pos _ Hl).
  rewrite (region_split _ _ (lx_pos l + 1)) by lia. rewrite region_byte by (done || lia).
  by rewrite (lexer_current _ Hl).
Qed.

(** One more byte at the end. *)
Lemma region_snoc l l1 a : forward l l1 -> 0 <= a <= lx_pos l1 -> lx_pos l1 < lx_len l1 ->
  region l a (lx_pos l1 + 1) = region l a (lx_pos l1) ++ [lx_current l1].
Proof.
  intros H Ha Hlt. rewrite (region_split _ _ (lx_pos l1)) by lia. f_equal.
  rewrite <- (region_forward l l1), region_byte by (done || apply (forward_ok _ _ H) || lia).
  by rewrite (lexer_current _ (forward_ok _ _ H)).
Qed.

Lemma region_nonempty l a b : region l a b <> [] -> a < b.
Proof.
  unfold region. intros Hne. destruct (Z.ltb_spec a b) as [|Hge]; [done|].
  by replace (Z.to_nat (b - a)) with 0%nat in Hne by lia.
Qed.

(** A byte was read and more after it. *)
Lemma region_next l l' l'' : lexer_ok l -> forward l l' -> lx_pos l' = Z.min (lx_len l) (lx_pos l + 1) ->
  lx_pos l < lx_len l -> forward l' l'' ->
  region l (lx_pos l) (lx_pos l'') = lx_current l :: region l' (lx_pos l') (lx_pos l'').
Proof.
  intros Hl H1 Hp Hlt H2. pose proof (forward_pos _ _ H2).
  rewrite region_current by (done || lia). rewrite (region_forward _ _ _ _ H1), Hp.
  by rewrite Z.min_r by lia.
Qed.

Definition all_digits (s : list Z) : Prop := Forall (fun c => is_decimal_digit c = true) s.

(** Digits, with separators if there are any. *)
Definition digits_text (separators : bool) (s : list Z) : Prop :=
  Forall (fun c => is_decimal_digit c = true \/ separators = true /\ c = ch "_") s.

(** The text of which a number is parsed. *)
Definition clean (separators : bool) (s : list Z) : list Z :=
  if separators then filter (fun b => b <> ch "_") s else s.

Lemma digits_text_weaken (a b : bool) s : (a = true -> b = true) -> digits_text a s -> digits_text b s.
Proof. intros Hab Hs. eapply Forall_impl; [exact Hs|]. naive_solver. Qed.

Lemma clean_digits b s : digits_text b s -> all_digits (clean b s).
Proof.
  unfold clean, digits_text, all_digits. intros Hs. destruct b.
  - induction Hs as [|c s [Hc|[_ ->]] Hs IH]; [constructor|..].
    + destruct (decide (c = ch "_")) as [->|Hne]; [done|]. rewrite filter_cons_True by done. by constructor.
    + by rewrite filter_cons_False by tauto.
  - eapply Forall_impl; [exact Hs|]. naive_solver.
Qed.

Lemma clean_app b s1 s2 : clean b (s1 ++ s2) = clean b s1 ++ clean b s2.
Proof. unfold clean. destruct b; [apply filter_app|done]. Qed.

Lemma clean_cons b c s : c <> ch "_" -> clean b (c :: s) = c :: clean b s.
Proof. intros Hc. unfold clean. destruct b; [by rewrite filter_cons_True|done]. Qed.

Lemma span_digits_app digits rest : all_digits digits ->
  match rest with c :: _ => is_decimal_digit c = false | [] => True end ->
  span_digits (digits ++ rest) = (digits, rest).
Proof.
  intros Hd Hr. induction Hd as [|c digits Hc Hd IH]; cbn [app span_digits].
  - destruct rest as [|c rest]; cbn; [done|]. by rewrite Hr.
  - by rewrite Hc, IH.
Qed.

(** The exponent of a number: its text and its value. *)
Inductive exponent_text : list Z -> Z -> Prop :=
| no_exponent : exponent_text [] 0
| some_exponent e sign digits : one_of "eE" e = true -> sign = [] \/ sign = [ch "+"] \/ sign = [ch "-"] ->
    all_digits digits -> digits <> [] ->
    exponent_text (e :: sign ++ digits)
      ((if bool_decide (sign = [ch "-"]) then -1 else 1) * decimal_value digits).

(** A decimal number is the value of its digits, scaled by its exponent. *)
Lemma f64_from_str_value integer (dot : bool) fraction ex x : all_digits integer -> all_digits fraction ->
  (dot = false -> fraction = []) -> integer ++ fraction <> [] -> exponent_text ex x ->
  f64_from_str (integer ++ (if dot then [ch "."] else []) ++ fraction ++ ex) =
    Some (f64_of_decimal (decimal_value (integer ++ fraction)) (x - Z.of_nat (length fraction))).
Proof.
  intros Hi Hf Hdot Hne Hx. unfold f64_from_str.
  assert (Hex : match ex with c :: _ => is_decimal_digit c = false /\ (c =? ch ".") = false | [] => True end).
  { destruct Hx as [|e ? ? He]; [done|]. unfold one_of in He. cbn in He.
    unfold is_decimal_digit, between. chars. lia. }
  rewrite span_digits_app; [|done|].
  2: { destruct dot; [done|]. rewrite Hdot by done. destruct ex; [done|]. by destruct Hex. }
  assert (E : match (if dot then [ch "."] else []) ++ fraction ++ ex with
    | c :: s' => if c =? ch "." then span_digits s' else ([], (if dot then [ch "."] else []) ++ fraction ++ ex)
    | [] => ([], []) end = (fraction, ex)).
  { destruct dot; cbn [app].
    - rewrite Z.eqb_refl. apply span_digits_app; [done|]. destruct ex; [done|by destruct Hex].
    - rewrite Hdot by done. cbn [app]. destruct ex; [done|]. destruct Hex as [_ ->]. done. }
  rewrite E. clear E. rewrite bool_decide_eq_false_2 by done.
  destruct Hx as [|e sign digits He Hs Hd Hdne]; [done|]. rewrite He.
  assert (Hhead : match digits with c :: _ => (c =? ch "-") = false /\ (c =? ch "+") = false | [] => False end).
  { destruct digits as [|c digits]; [done|]. apply Forall_cons in Hd as [Hd _].
    unfold is_decimal_digit, between in Hd. chars. lia. }
  assert (E : match sign ++ digits with
    | c :: s' => if c =? ch "-" then (-1, s') else if c =? ch "+" then (1, s') else (1, sign ++ digits)
    | [] => (1, []) end = (if bool_decide (sign = [ch "-"]) then -1 else 1, digits)).
  { destruct Hs as [->|[->| ->]]; cbn; [|done|done]. destruct digits; [done|]. destruct Hhead as [-> ->]. done. }
  rewrite E. rewrite <- (app_nil_r digits) at 1. rewrite span_digits_app by done.
  by rewrite bool_decide_eq_false_2 by naive_solver.
Qed.

(** ** Numbers with a base *)

Definition digit_below (base c : Z) : option Z :=
  d ← get_hex_value c; if d <? base then Some d else None.

(** Digits and separators, and their value. *)
Definition based_text (base : Z) (s : list Z) : Prop :=
  Forall (fun c => is_Some (digit_below base c) \/ c = ch "_") s.
Definition based_digit (base value c : Z) : Z :=
  match digit_below base c with Some d => value * base + d | None => value end.
Definition based_value (base : Z) (s : list Z) : Z := foldl (based_digit base) 0 s.

(** What the lexer relies on of num-bigint: numbers are parsed, underscores after the
    first digit are skipped, and a number is converted to the nearest [f64]. *)
Class NumBigintLaws `{NumBigint} : Prop := {
  parse_bytes_value base c s : 2 <= base <= 16 -> is_Some (digit_below base c) ->
    based_text base (c :: s) -> parse_bytes (c :: s) base = Some (based_value base (c :: s));
  to_f64_nearest n : 0 <= n -> bigint_to_f64 n = Some (f64_of_int n);
}.

(** Both laws can hold: arithmetic on [Z]. *)
Module ExactBigint.

#[export] Instance num_bigint : NumBigint := {
  parse_bytes s base := Some (based_value base s);
  bigint_to_f64 n := Some (f64_of_int n);
}.

#[export] Instance num_bigint_laws : NumBigintLaws.
Proof. by split. Qed.

End ExactBigint.

Lemma based_value_app base s c :
  based_value base (s ++ [c]) = based_digit base (based_value base s) c.
Proof. unfold based_value. by rewrite foldl_app. Qed.

Lemma based_value_nonneg base s : 0 <= base -> 0 <= based_value base s.
Proof.
  intros Hb. induction s as [|c s IH] using rev_ind; [done|]. rewrite based_value_app.
  unfold based_digit, digit_below. destruct (get_hex_value c) as [d|] eqn:E; cbn; [|done].
  apply get_hex_range in E. destruct (d <? base); cbn; nia.
Qed.

Lemma digit_below_range base c d : digit_below base c = Some d -> 0 <= d < 16 /\ c < 128.
Proof.
  unfold digit_below. destruct (get_hex_value c) eqn:E; cbn; [|done]. apply get_hex_range in E.
  case_match; [|done]. intros [= <-]. lia.
Qed.

Definition digits_of (base : Z) (char_to_digit : Z -> option Z) : Prop :=
  2 <= base <= 16 /\ forall c, char_to_digit c = digit_below base c.

Lemma digits_of_lexer :
  digits_of 2 get_binary_value /\ digits_of 8 get_octal_value /\ digits_of 16 get_hex_value.
Proof.
  unfold digits_of, digit_below, get_binary_value, get_octal_value, get_hex_value, between.
  chars. split; [|split]; (split; [lia|intros c]);
    repeat case_match; cbn; repeat case_match; f_equal; lia.
Qed.

(** A value that did not overflow is the value of the digits. *)
Definition accumulated (base : Z) (s : list Z) (acc : Z * bool) : Prop :=
  acc.2 = false -> acc.1 = based_value base s.

Lemma accumulate_ok base s c d acc : digit_below base c = Some d -> accumulated base s acc ->
  accumulated base (s ++ [c]) (accumulate base d acc).
Proof.
  unfold accumulated, accumulate. intros Hd Ha. rewrite based_value_app. unfold based_digit. rewrite Hd.
  destruct acc as [v o]. cbn in Ha. repeat case_match; cbn in *; simplify_eq; try done.
  all: intros Ho; specialize (Ha Ho); subst; try done.
Qed.

Lemma accumulated_separator base s c acc : digit_below base c = None ->
  accumulated base s acc -> accumulated base (s ++ [c]) acc.
Proof. unfold accumulated, based_digit. intros Hc Ha. rewrite based_value_app. unfold based_digit. by rewrite Hc. Qed.

Section Methods.

Context {K : Prop}.

Lemma lex_ascii_or_unicode_character_lexes l : lexer_ok l -> (lx_pos l = lx_len l -> K) ->
  lexes K l lex_ascii_or_unicode_character l
    (fun c l' => 0 <= c <= MAX_CODE_POINT /\ lx_pos l < lx_pos l').
Proof.
  intros Hl HK. lex_start. unfold lex_ascii_or_unicode_character. repeat lex_step; [lex_lia|done].
Qed.
#[local] Hint Resolve lex_ascii_or_unicode_character_lexes : lexer.

Lemma hex_loop_lexes digits : forall l start value, lexer_ok l -> 0 <= start <= lx_pos l -> 0 <= value ->
  lexes K l (hex_loop digits start value) l
    (fun v l' => 0 <= v < (value + 1) * 16 ^ Z.of_nat digits).
Proof.
  induction digits as [|digits IH]; intros l start value Hl Hs Hv; lex_start; cbn [hex_loop].
  - lex_step. lex_lia.
  - repeat lex_step.
    rewrite Z.shiftl_mul_pow2 by lia. eapply lexes_tail; [eassumption|apply IH; eauto with lexer|].
    intros v ? _ Hr. cbn beta in Hr. rewrite Nat2Z.inj_succ, Z.pow_succ_r by lia.
    lex_facts. nia.
Qed.
#[local] Hint Resolve hex_loop_lexes : lexer.

Lemma braced_loop_lexes digits : forall l start value, lexer_ok l -> 0 <= start <= lx_pos l -> 0 <= value ->
  lexes K l (braced_loop digits start value) l (fun v l' => 0 <= v).
Proof.
  induction digits as [|digits IH]; intros l start value Hl Hs Hv; lex_start; cbn [braced_loop].
  - by lex_step.
  - repeat lex_step; [|done]. rewrite Z.shiftl_mul_pow2 by lia.
    eapply lexes_tail; [eassumption|apply IH; eauto with lexer|done].
Qed.
#[local] Hint Resolve braced_loop_lexes : lexer.

Lemma lex_unicode_escape_sequence_lexes l start : lexer_ok l -> 0 <= start <= lx_pos l ->
  lexes K l (lex_unicode_escape_sequence start) l (fun v l' => 0 <= v <= MAX_CODE_POINT).
Proof.
  intros Hl Hs. lex_start. unfold lex_unicode_escape_sequence, is_in_unicode_range.
  repeat lex_step; lex_lia.
Qed.
#[local] Hint Resolve lex_unicode_escape_sequence_lexes : lexer.

(** ** Comments *)

Lemma line_comment_loop_lexes fuel : forall l, lexer_ok l -> lx_len l - lx_pos l < Z.of_nat fuel ->
  lexes K l (line_comment_loop fuel) l (fun _ _ => True).
Proof.
  induction fuel as [|fuel IH]; intros l Hl Hf; [lex_lia|]. lex_start. cbn [line_comment_loop].
  repeat lex_step; done.
Qed.
#[local] Hint Resolve line_comment_loop_lexes : lexer.

Lemma skip_line_comment_lexes l : lexer_ok l -> lexes K l skip_line_comment l (fun _ _ => True).
Proof. intros Hl. lex_start. unfold skip_line_comment. by repeat lex_step. Qed.
#[local] Hint Resolve skip_line_comment_lexes : lexer.

Lemma block_comment_loop_lexes fuel : forall l, lexer_ok l -> lx_len l - lx_pos l < Z.of_nat fuel ->
  lexes K l (block_comment_loop fuel) l (fun _ _ => True).
Proof.
  induction fuel as [|fuel IH]; intros l Hl Hf; [lex_lia|]. lex_start. cbn [block_comment_loop].
  repeat lex_step; done.
Qed.
#[local] Hint Resolve block_comment_loop_lexes : lexer.

Lemma skip_block_comment_lexes l : lexer_ok l -> lexes K l skip_block_comment l (fun _ _ => True).
Proof. intros Hl. lex_start. unfold skip_block_comment. by repeat lex_step. Qed.
#[local] Hint Resolve skip_block_comment_lexes : lexer.

(** ** Decimal numbers *)

Lemma decimal_digits_rest_lexes fuel : forall l allow has last,
  lexer_ok l -> lx_len l - lx_pos l < Z.of_nat fuel ->
  lexes K l (decimal_digits_rest fuel allow has last) l (fun r l' =>
    (has = true -> r.1 = true) /\ digits_text r.1 (region l (lx_pos l) (lx_pos l'))).
Proof.
  induction fuel as [|fuel IH]; intros l allow has last Hl Hf; [lex_lia|]. lex_start.
  cbn [decimal_digits_rest]. repeat lex_step.
  - destruct H3 as [Hhas Ht]. split; [done|]. rewrite (region_next l l') by (done || lex_lia).
    constructor; [by left|done].
  - destruct H3 as [Hhas Ht]. split; [by auto|]. rewrite (region_next l l') by (done || lex_lia).
    constructor; [right; split; [by apply Hhas|lex_lia]|done].
  - split; [done|]. rewrite region_empty. constructor.
Qed.
#[local] Hint Resolve decimal_digits_rest_lexes : lexer.

Lemma skip_decimal_digits_lexes l allow : lexer_ok l ->
  lexes K l (skip_decimal_digits allow) l (fun has l' =>
    digits_text has (region l (lx_pos l) (lx_pos l')) /\
    (is_decimal_digit (lx_current l) = true ->
       exists rest, region l (lx_pos l) (lx_pos l') = lx_current l :: rest) /\
    (is_decimal_digit (lx_current l) = false -> lx_pos l' = lx_pos l)).
Proof.
  intros Hl. lex_start. unfold skip_decimal_digits. repeat lex_step.
  - split; [rewrite region_empty; constructor|]. split; [|done]. intros Hd. by rewrite Hd in E.
  - match goal with H : _ /\ digits_text _ _ |- _ => destruct H as [_ Ht] end.
    apply negb_false_iff in E. rewrite (region_next l l') by (done || lex_lia). rewrite E.
    split; [by constructor; [left|]|]. split; [by eauto|done].
Qed.
#[local] Hint Resolve skip_decimal_digits_lexes : lexer.

Lemma skip_fraction_lexes l allow : lexer_ok l ->
  lexes K l (skip_fraction allow) l (fun has l' => exists (dot : bool) digits,
    region l (lx_pos l) (lx_pos l') = (if dot then [ch "."] else []) ++ digits /\
    digits_text has digits /\ (dot = false -> digits = []) /\
    (lx_current l = ch "." -> is_decimal_digit (byte_at l (lx_pos l + 1)) = true ->
       exists c rest, digits = c :: rest /\ is_decimal_digit c = true)).
Proof.
  intros Hl. lex_start. unfold skip_fraction. repeat lex_step.
  - destruct H3 as (Ht & Hd & _). apply Z.eqb_eq in E. exists true. eexists. split_and!; [|exact Ht|done|].
    + rewrite (region_next l l') by (done || lex_lia). by rewrite E.
    + intros _ Hb. assert (lx_current l' = byte_at l (lx_pos l + 1)) as Ec.
      { rewrite (lexer_current _ (forward_ok _ _ H)), (byte_at_forward _ _ _ H), H1.
        by rewrite Z.min_r by lex_lia. }
      rewrite Ec in Hd. destruct (Hd Hb) as [rest ->]. by eexists _, _.
  - exists false, []. rewrite region_empty. split_and!; [done|constructor|done|]. intros Ec. by rewrite Ec in E.
Qed.
#[local] Hint Resolve skip_fraction_lexes : lexer.

Lemma clean_exponent b e sign digits : one_of "eE" e = true ->
  sign = [] \/ sign = [ch "+"] \/ sign = [ch "-"] -> digits_text b digits ->
  (exists c rest, digits = c :: rest /\ is_decimal_digit c = true) ->
  exists x, exponent_text (clean b (e :: sign ++ digits)) x.
Proof.
  intros He Hs Hd (c & rest & -> & Hc).
  assert (e <> ch "_"). { unfold one_of in He. cbn in He. chars. lia. }
  assert (c <> ch "_"). { unfold is_decimal_digit, between in Hc. chars. lia. }
  rewrite clean_cons, clean_app by done.
  replace (clean b sign) with sign by (destruct Hs as [->|[->| ->]], b; reflexivity).
  eexists. constructor; [done|done|by apply clean_digits|]. by rewrite clean_cons.
Qed.

Lemma exponent_char c : (c =? ch "e") || (c =? ch "E") = true -> one_of "eE" c = true.
Proof. unfold one_of. cbn. chars. lia. Qed.

Lemma skip_exponent_lexes l start allow : lexer_ok l -> 0 <= start <= lx_pos l ->
  lexes K l (skip_exponent start allow) l (fun has l' => forall b, (has = true -> b = true) ->
    exists x, exponent_text (clean b (region l (lx_pos l) (lx_pos l'))) x).
Proof.
  intros Hl Hs. lex_start. unfold skip_exponent. repeat lex_step; intros b Hb.
  - destruct H6 as (Ht & Hd & _). apply negb_false_iff in E1. destruct (Hd E1) as [rest Er].
    pose proof (forward_trans _ _ _ H3 H5). pose proof (forward_ok _ _ H).
    rewrite (region_next l l'), (region_next l' l'0) by (done || lex_lia).
    apply (clean_exponent b _ [lx_current l'] (region l'0 (lx_pos l'0) (lx_pos l'1))); [by apply exponent_char| |by eapply digits_text_weaken|].
    + right. apply orb_true_iff in E0 as [->%Z.eqb_eq| ->%Z.eqb_eq]; tauto.
    + by rewrite Er; eexists _, _.
  - destruct H3 as (Ht & Hd & _). apply negb_false_iff in E1. destruct (Hd E1) as [rest Er].
    rewrite (region_next l l') by (done || lex_lia).
    apply (clean_exponent b _ [] (region l' (lx_pos l') (lx_pos l'0))); [by apply exponent_char|by left|by eapply digits_text_weaken|].
    by rewrite Er; eexists _, _.
  - rewrite region_empty. exists 0. by destruct b; constructor.
Qed.
#[local] Hint Resolve skip_exponent_lexes : lexer.

(** The value of a decimal literal without separators. *)
Definition number_text (s : list Z) (v : f64) : Prop :=
  exists integer (dot : bool) fraction ex x,
    s = integer ++ (if dot then [ch "."] else []) ++ fraction ++ ex /\
    all_digits integer /\ all_digits fraction /\ exponent_text ex x /\
    v = f64_of_decimal (decimal_value (integer ++ fraction)) (x - Z.of_nat (length fraction)).

(** A number, from [l] to [l']. *)
Definition decimal_token (l : Lexer) (r : Token * Loc) (l' : Lexer) : Prop :=
  r.2 = mkLoc (lx_pos l) (lx_pos l') /\ lx_pos l < lx_pos l' /\
  match r.1 with
  | NumberLiteral v => exists separators, number_text (clean separators (region l (lx_pos l) (lx_pos l'))) v
  | BigIntLiteral digits base => base = 10 /\ digits_text true digits /\
      region l (lx_pos l) (lx_pos l') = digits ++ [ch "n"]
  | _ => False
  end.

Lemma decimal_number_text integer (dot : bool) digits ex (b1 b2 b : bool) : digits_text b1 integer ->
  digits_text b2 digits -> (b1 = true -> b = true) -> (b2 = true -> b = true) -> (dot = false -> digits = []) ->
  (exists c rest, is_decimal_digit c = true /\ (integer = c :: rest \/ digits = c :: rest)) ->
  (exists x, exponent_text (clean b ex) x) ->
  exists v, f64_from_str (clean b (integer ++ ((if dot then [ch "."] else []) ++ digits) ++ ex)) = Some v /\
    number_text (clean b (integer ++ ((if dot then [ch "."] else []) ++ digits) ++ ex)) v.
Proof.
  intros Hi Hd Hb1 Hb2 Hdot Hne (x & Hx). rewrite !clean_app.
  replace (clean b (if dot then [ch "."] else [])) with (if dot then [ch "."] else []) by by destruct dot, b.
  assert (all_digits (clean b integer)) by by eapply clean_digits, digits_text_weaken; [|exact Hi].
  assert (all_digits (clean b digits)) by by eapply clean_digits, digits_text_weaken; [|exact Hd].
  rewrite <- app_assoc. eexists. split.
  - apply f64_from_str_value; [done|done| | |exact Hx].
    + intros E. rewrite Hdot by done. by destruct b.
    + destruct Hne as (c & rest & Hc & He).
      assert (c <> ch "_"). { unfold is_decimal_digit, between in Hc. chars. lia. }
      intros [E1 E2]%app_nil. destruct He as [->| ->]; by rewrite clean_cons in *.
  - by exists (clean b integer), dot, (clean b digits), (clean b ex), x.
Qed.

Lemma lex_decimal_literal_lexes l : lexer_ok l ->
  is_decimal_digit (lx_current l) = true \/
    lx_current l = ch "." /\ is_decimal_digit (byte_at l (lx_pos l + 1)) = true ->
  lexes K l lex_decimal_literal l (decimal_token l).
Proof.
  intros Hl Hstart. lex_start. unfold lex_decimal_literal. do 9 lex_step.
  - repeat lex_step. split; [done|]. split; [lex_lia|]. split; [done|].
    rewrite (region_forward l l') by done. split; [by eapply digits_text_weaken; [|apply H1]|].
    replace (lx_pos l'0) with (lx_pos l' + 1) by lex_lia.
    rewrite (region_snoc l l') by (done || lex_lia). repeat f_equal. lex_lia.
  - destruct H1 as (Hi & Hd1 & Hd0), H4 as (dot & digits & Ef & Hd & Hdot & Hd2).
    assert (Hdig : exists c rest, is_decimal_digit c = true /\
      (region l (lx_pos l) (lx_pos l') = c :: rest \/ digits = c :: rest)).
    { destruct Hstart as [Hc|[Hc Hc1]]; [destruct (Hd1 Hc) as [rest ->]; eauto 6|].
      rewrite Hc in Hd0. specialize (Hd0 eq_refl). rewrite (lexer_current l' (forward_ok _ _ H)) in Hd2.
      rewrite Hd0, !(byte_at_forward _ _ _ H), <- (lexer_current _ Hl) in Hd2.
      destruct (Hd2 Hc Hc1) as (c & rest & -> & ?). eauto 6. }
    assert (lx_pos l < lx_pos l'1).
    { destruct Hdig as (c & rest & _ & [Er| ->]).
      - pose proof (region_nonempty l (lx_pos l) (lx_pos l') ltac:(by rewrite Er)). lex_lia.
      - pose proof (region_nonempty l' (lx_pos l') (lx_pos l'0) ltac:(rewrite Ef; by destruct dot)). lex_lia. }
    set (b := a || a0 || a1) in *. fold (clean b (region l'1 (lx_pos l) (lx_pos l'1))).
    rewrite (region_forward l l'1) by done.
    assert (Er : region l (lx_pos l) (lx_pos l'1) = region l (lx_pos l) (lx_pos l') ++
      ((if dot then [ch "."] else []) ++ digits) ++ region l'0 (lx_pos l'0) (lx_pos l'1)).
    { rewrite <- Ef, (region_forward l l'), (region_forward l l'0) by done.
      rewrite <- !region_split by lex_lia. done. }
    destruct (decimal_number_text (region l (lx_pos l) (lx_pos l')) dot digits
      (region l'0 (lx_pos l'0) (lx_pos l'1)) a a0 b) as (v & Ev & Hv); try done.
    + subst b. by destruct a.
    + subst b. by destruct a, a0.
    + apply H7. subst b. by destruct a, a0, a1.
    + rewrite Er, Ev. cbn [unwrap]. repeat lex_step. split; [done|]. split; [done|]. exists b. by rewrite Er.
Qed.
#[local] Hint Resolve lex_decimal_literal_lexes : lexer.

(** ** Numbers with a base *)

Section Based.

Context (base : Z) (char_to_digit : Z -> option Z) (Hbase : digits_of base char_to_digit).

Lemma based_digits_rest_lexes fuel : forall l acc last prefix,
  lexer_ok l -> lx_len l - lx_pos l < Z.of_nat fuel -> accumulated base prefix acc ->
  lexes K l (based_digits_rest fuel base char_to_digit acc last) l (fun r l' =>
    accumulated base (prefix ++ region l (lx_pos l) (lx_pos l')) r.1 /\
    based_text base (region l (lx_pos l) (lx_pos l'))).
Proof.
  induction fuel as [|fuel IH]; intros l acc last prefix Hl Hf Ha; [lex_lia|]. lex_start.
  cbn [based_digits_rest]. lex_step. rewrite (proj2 Hbase).
  destruct (digit_below base (lx_current l)) as [d|] eqn:Hd.
  - pose proof (digit_below_range _ _ _ Hd). lex_step.
    eapply lexes_tail; [eassumption|apply (IH _ _ _ (prefix ++ [lx_current l])); [by eauto with lexer..|]|].
    { by apply accumulate_ok. }
    cbn beta. intros r l'' Hl'' [Hr Ht]. rewrite (region_next l l') by (done || lex_lia).
    split; [by rewrite <- app_assoc in Hr|]. constructor; [left; by rewrite Hd|done].
  - lex_step; [lex_step; [by lex_step|lex_step]|lex_step].
    + eapply lexes_tail; [eassumption|apply (IH _ _ _ (prefix ++ [lx_current l])); [by eauto with lexer..|]|].
      { by apply accumulated_separator. }
      cbn beta. intros r l'' Hl'' [Hr Ht]. rewrite (region_next l l') by (done || lex_lia).
      split; [by rewrite <- app_assoc in Hr|]. constructor; [right; lex_lia|done].
    + rewrite region_empty, app_nil_r. split; [done|constructor].
Qed.
#[local] Hint Resolve based_digits_rest_lexes : lexer.

Context `{NumBigintLaws}.

Lemma integer_value_lexes l start end_ c acc rest : lexer_ok l -> 0 <= start <= end_ -> end_ <= lx_len l ->
  region l start end_ = c :: rest -> is_Some (digit_below base c) -> based_text base (c :: rest) ->
  accumulated base (c :: rest) acc ->
  lexes K l (integer_value base start end_ acc) l
    (fun v l' => l' = l /\ v = f64_of_int (based_value base (region l start end_))).
Proof.
  intros Hl Hs He Er Hc Ht Ha. lex_start. unfold integer_value. destruct Hbase as [Hb _]. repeat lex_step.
  - rewrite Er, parse_bytes_value by done. cbn [unwrap]. lex_step.
    rewrite to_f64_nearest by (apply based_value_nonneg; lia). by split.
  - by rewrite Er, Ha.
Qed.

Definition based_token (l : Lexer) (r : Token * Loc) (l' : Lexer) : Prop :=
  r.2 = mkLoc (lx_pos l) (lx_pos l') /\ lx_pos l + 2 < lx_pos l' /\
  match r.1 with
  | NumberLiteral v => v = f64_of_int (based_value base (region l (lx_pos l + 2) (lx_pos l')))
  | BigIntLiteral digits base' => base' = base /\ region l (lx_pos l + 2) (lx_pos l') = digits ++ [ch "n"]
  | _ => False
  end.

Lemma lex_literal_with_base_lexes l : lexer_ok l ->
  lexes K l (lex_literal_with_base base char_to_digit) l (based_token l).
Proof.
  intros Hl. lex_start. unfold lex_literal_with_base. do 3 lex_step. rewrite (proj2 Hbase).
  destruct (digit_below base (lx_current l')) as [d|] eqn:Hd; [|by lex_step].
  pose proof (digit_below_range _ _ _ Hd). lex_step. lex_step.
  assert (lx_pos l' = lx_pos l + 2) as Ep by lex_lia.
  eapply lexes_call; [eassumption|apply (based_digits_rest_lexes n l'0 (d, false) false [lx_current l']);
    [by eauto with lexer..|]|].
  { intros _. unfold based_value, based_digit. cbn. by rewrite Hd. }
  cbn beta. intros [acc last] l1 Ho1 H01 [Ha Ht]. lex_step; [by repeat lex_step|]. cbn [fst] in Ha.
  assert (region l (lx_pos l + 2) (lx_pos l1) = lx_current l' :: region l'0 (lx_pos l'0) (lx_pos l1)) as Er.
  { rewrite <- Ep, <- (region_forward l l') by done. apply region_next; [eauto with lexer|done|done|lex_lia|done]. }
  do 3 lex_step.
  - repeat lex_step. split; [done|]. split; [lex_lia|]. split; [done|]. 
    replace (lx_pos l'1) with (lx_pos l1 + 1) by lex_lia.
    rewrite (region_snoc l l1), (region_forward l l1) by (done || lex_lia). repeat f_equal. lex_lia.
  - eapply lexes_call; [eassumption|eapply (integer_value_lexes l1 _ _ (lx_current l'));
      [by eauto with lexer|lex_lia|lex_lia|by rewrite (region_forward l l1)|by rewrite Hd| |done]|].
    { constructor; [left; by rewrite Hd|done]. }
    cbn beta. intros v l2 Ho2 _ [-> ->]. lex_step. split; [done|]. split; [lex_lia|]. cbn.
    by rewrite (region_forward l l1).
Qed.

End Based.

Context `{NumBigintLaws}.

Lemma legacy_octal_loop_lexes fuel : forall l acc prefix,
  lexer_ok l -> lx_len l - lx_pos l < Z.of_nat fuel -> accumulated 8 prefix acc ->
  lexes K l (legacy_octal_loop fuel acc) l (fun acc' l' =>
    accumulated 8 (prefix ++ region l (lx_pos l) (lx_pos l')) acc' /\
    based_text 8 (region l (lx_pos l) (lx_pos l')) /\
    (is_Some (digit_below 8 (lx_current l)) ->
       exists rest, region l (lx_pos l) (lx_pos l') = lx_current l :: rest)).
Proof.
  destruct digits_of_lexer as (_ & [_ Hoct] & _).
  induction fuel as [|fuel IH]; intros l acc prefix Hl Hf Ha; [lex_lia|]. lex_start.
  cbn [legacy_octal_loop]. lex_step. rewrite Hoct. destruct (digit_below 8 (lx_current l)) as [d|] eqn:Hd.
  - pose proof (digit_below_range _ _ _ Hd). lex_step.
    eapply lexes_tail; [eassumption|apply (IH _ _ (prefix ++ [lx_current l])); [by eauto with lexer..|]|].
    { by apply accumulate_ok. }
    cbn beta. intros acc' l'' Hl'' (Hr & Ht & _). rewrite (region_next l l') by (done || lex_lia).
    split; [by rewrite <- app_assoc in Hr|]. split; [|by eauto]. constructor; [left; by rewrite Hd|done].
  - lex_step. rewrite region_empty, app_nil_r. split; [done|]. split; [constructor|]. by intros [? ?].
Qed.

(** A legacy octal literal has the value of its digits; otherwise nothing was read. *)
Lemma lex_legacy_octal_literal_lexes l : lexer_ok l -> is_Some (digit_below 8 (lx_current l)) ->
  lexes K l lex_legacy_octal_literal l (fun r l' =>
    match r with
    | Some token => lx_pos l < lx_pos l' /\ based_text 8 (region l (lx_pos l) (lx_pos l')) /\
        token = NumberLiteral (f64_of_int (based_value 8 (region l (lx_pos l) (lx_pos l'))))
    | None => lx_pos l' = lx_pos l
    end).
Proof.
  intros Hl Hd. lex_start. unfold lex_legacy_octal_literal. do 3 lex_step.
  eapply lexes_call; [eassumption|by apply (legacy_octal_loop_lexes n l (0, false) [])|].
  cbn beta. cbn [app]. intros acc l1 Ho1 _ (Ha & Ht & Hr). destruct (Hr Hd) as [rest Er].
  pose proof (region_nonempty l (lx_pos l) (lx_pos l1) ltac:(by rewrite Er)).
  lex_step. lex_step; [repeat lex_step; done|]. lex_step. rewrite Er in Ht, Ha.
  eapply lexes_call; [eassumption|eapply (integer_value_lexes 8 get_octal_value (proj1 (proj2 digits_of_lexer))
    l1 _ _ (lx_current l)); [by eauto with lexer|lex_lia|lex_lia|by rewrite (region_forward l l1)|done|done|done]|].
  cbn beta. intros v l2 Ho2 _ [-> ->]. lex_step. rewrite Er. split_and!; [done..|].
  by rewrite (region_forward l l1), Er.
Qed.
#[local] Hint Resolve lex_legacy_octal_literal_lexes : lexer.

(** The texts of numbers, with their tokens. *)
Definition radix (c base : Z) : Prop :=
  one_of "bB" c = true /\ base = 2 \/ one_of "oO" c = true /\ base = 8 \/
  one_of "xX" c = true /\ base = 16.

Inductive numeric_text : list Z -> Token -> Prop :=
| decimal_text s separators v : number_text (clean separators s) v -> numeric_text s (NumberLiteral v)
| decimal_bigint_text digits : digits_text true digits ->
    numeric_text (digits ++ [ch "n"]) (BigIntLiteral digits 10)
| radix_text c base digits : radix c base ->
    numeric_text (ch "0" :: c :: digits) (NumberLiteral (f64_of_int (based_value base digits)))
| radix_bigint_text c base digits : radix c base ->
    numeric_text (ch "0" :: c :: digits ++ [ch "n"]) (BigIntLiteral digits base)
| legacy_octal_text digits : based_text 8 digits ->
    numeric_text digits (NumberLiteral (f64_of_int (based_value 8 digits))).

(** A token whose text starts at [start] and ends where the lexer is. *)
Definition token_ok (start : Z) (r : Token * Loc) (l' : Lexer) : Prop :=
  r.2 = mkLoc start (lx_pos l') /\
  match r.1 with
  | FixedToken token => region l' start (lx_pos l') = spelling token /\
      (token = Fixed.Eof -> start = lx_len l' /\ lx_pos l' = start)
  | NumberLiteral _ | BigIntLiteral _ _ =>
      start < lx_pos l' /\ numeric_text (region l' start (lx_pos l')) r.1
  | _ => start < lx_pos l'
  end.

Lemma token_ok_same start r l l' : forward l l' -> lx_pos l' = lx_pos l ->
  token_ok start r l -> token_ok start r l'.
Proof.
  intros Hf Hp. unfold token_ok. by rewrite Hp, (forward_len _ _ Hf), (region_forward l l' _ _ Hf).
Qed.

Lemma decimal_token_ok l r l' : forward l l' -> decimal_token l r l' -> token_ok (lx_pos l) r l'.
Proof.
  intros Hf (Hloc & Hlt & Ht). split; [done|]. rewrite (region_forward l l') by done.
  destruct r as [[] loc]; cbn in *; try done.
  - destruct Ht as [b Ht]. split; [done|by econstructor].
  - destruct Ht as (-> & ? & ->). split; [done|by constructor].
Qed.

Lemma based_token_ok l base r l' : forward l l' -> lx_current l = ch "0" ->
  lexer_ok l -> radix (byte_at l (lx_pos l + 1)) base -> based_token base l r l' -> token_ok (lx_pos l) r l'.
Proof.
  intros Hf Hc Hl Hr (Hloc & Hlt & Ht). split; [done|]. rewrite (region_forward l l') by done.
  assert (region l (lx_pos l) (lx_pos l') =
    ch "0" :: byte_at l (lx_pos l + 1) :: region l (lx_pos l + 2) (lx_pos l')) as ->.
  { rewrite region_current, Hc by (done || lex_lia). f_equal.
    rewrite (region_split _ _ (lx_pos l + 1 + 1)), region_byte by (done || lex_lia).
    cbn [app]. do 2 f_equal. lia. }
  destruct r as [[] loc]; cbn in *; try done.
  - subst. split; [lia|by constructor].
  - destruct Ht as (-> & ->). split; [lia|]. by constructor.
Qed.

Lemma radix_literal_lexes base char_to_digit l : digits_of base char_to_digit -> lexer_ok l ->
  lx_current l = ch "0" -> radix (byte_at l (lx_pos l + 1)) base ->
  lexes K l (lex_literal_with_base base char_to_digit) l (token_ok (lx_pos l)).
Proof.
  intros Hd Hl Hc Hr. eapply lexes_weaken; [by apply lex_literal_with_base_lexes|].
  intros r l' Hf Ht. by eapply based_token_ok.
Qed.

Lemma lex_zero_literal_lexes l : lexer_ok l -> lx_current l = ch "0" ->
  lexes K l (lex_zero_literal (lx_pos l) (byte_at l (lx_pos l + 1))) l (token_ok (lx_pos l)).
Proof.
  intros Hl Hc. lex_start. destruct digits_of_lexer as (Hbin & Hoct & Hhex). unfold lex_zero_literal.
  pose proof (radix_literal_lexes) as Hr. unfold radix in Hr.
  assert (Hdec : forall l', forward l l' -> lx_pos l' = lx_pos l ->
    lexes K l lex_decimal_literal l' (token_ok (lx_pos l))).
  { intros l' Hf Hp. eapply lexes_tail; [done|apply lex_decimal_literal_lexes; [by eauto with lexer|]|].
    - left. rewrite (lexer_current _ (forward_ok _ _ Hf)), Hp, (byte_at_forward _ _ _ Hf).
      by rewrite <- (lexer_current _ Hl), Hc.
    - intros r l2 Hf2 Ht. rewrite <- Hp. by apply decimal_token_ok. }
  lex_step; [eapply Hr; by eauto|]. lex_step; [eapply Hr; by eauto|]. lex_step; [eapply Hr; by eauto|].
  lex_step; [|by apply Hdec]. lex_step. lex_step; [by repeat lex_step|].
  eapply lexes_call; [eassumption|apply lex_legacy_octal_literal_lexes; [done|by rewrite Hc]|].
  cbn beta. intros [token|] l1 Ho1 _ Hp; [|by apply Hdec].
  destruct Hp as (Hlt & Ht & ->). lex_step. split; [done|]. cbn. split; [done|].
  rewrite (region_forward l l1) by done. by constructor.
Qed.
#[local] Hint Resolve lex_zero_literal_lexes : lexer.

Context `{IcuData} `{!IcuLaws _}.

Lemma error_if_cannot_follow_numeric_literal_lexes l : lexer_ok l ->
  lexes K l error_if_cannot_follow_numeric_literal l (fun _ l' => lx_pos l' = lx_pos l).
Proof.
  intros Hl. lex_start. unfold error_if_cannot_follow_numeric_literal. repeat lex_step; lex_lia.
Qed.
#[local] Hint Resolve error_if_cannot_follow_numeric_literal_lexes : lexer.

Lemma numeric_literal_lexes l (m : LexM (Token * Loc)) : lexer_ok l ->
  lexes K l m l (token_ok (lx_pos l)) ->
  lexes K l (numeric_literal m) l (fun r l' => exists t, r = Some t /\ token_ok (lx_pos l) t l').
Proof.
  intros Hl Hm. lex_start. unfold numeric_literal. repeat lex_step. eexists. split; [done|].
  by eapply token_ok_same.
Qed.
#[local] Hint Resolve numeric_literal_lexes : lexer.

(** ** Identifiers *)

Lemma as_id_part_lexes l c : lexer_ok l -> 0 <= c -> lexes K l (lex_lift (as_id_part c)) l (maybe_char l).
Proof. intros Hl Hc. apply lexes_as_id; [done|]. by apply as_id_ok. Qed.
Lemma as_id_start_lexes l c : lexer_ok l -> 0 <= c -> lexes K l (lex_lift (as_id_start c)) l (maybe_char l).
Proof. intros Hl Hc. apply lexes_as_id; [done|]. by apply as_id_ok. Qed.
Lemma as_id_start_unicode_lexes l c : lexer_ok l ->
  lexes K l (lex_lift (as_id_start_unicode c)) l (maybe_char l).
Proof. intros Hl. apply lexes_as_id; [done|]. apply as_char_ok, id_start_unicode_scalar. Qed.
Lemma as_id_part_unicode_lexes l c : lexer_ok l ->
  lexes K l (lex_lift (as_id_part_unicode c)) l (maybe_char l).
Proof. intros Hl. apply lexes_as_id; [done|]. apply as_char_ok, id_part_unicode_scalar. Qed.
Lemma as_id_part_ascii_lexes l c : lexer_ok l -> 0 <= c ->
  lexes K l (lex_lift (as_id_part_ascii c)) l (maybe_char l).
Proof.
  intros Hl Hc. apply lexes_as_id; [done|]. apply as_char_ok. intros Ht.
  apply ascii_scalar. apply id_table_range in Ht; [lia|done].
Qed.
#[local] Hint Resolve as_id_part_lexes as_id_start_lexes as_id_start_unicode_lexes : lexer.
#[local] Hint Resolve as_id_part_unicode_lexes as_id_part_ascii_lexes : lexer.

Lemma lex_identifier_unicode_escape_sequence_lexes l : lexer_ok l -> lx_pos l < lx_len l ->
  lexes K l lex_identifier_unicode_escape_sequence l
    (fun c l' => 0 <= c <= MAX_CODE_POINT /\ lx_pos l < lx_pos l').
Proof.
  intros Hl Hlt. lex_start. unfold lex_identifier_unicode_escape_sequence. repeat lex_step. lex_lia.
Qed.
#[local] Hint Resolve lex_identifier_unicode_escape_sequence_lexes : lexer.

Lemma lex_escape_or_codepoint_lexes l : lexer_ok l -> (lx_pos l = lx_len l -> K) ->
  lexes K l lex_escape_or_codepoint l (fun c l' => 0 <= c <= MAX_CODE_POINT /\ lx_pos l < lx_pos l').
Proof. intros Hl HK. lex_start. unfold lex_escape_or_codepoint. repeat lex_step; done. Qed.
#[local] Hint Resolve lex_escape_or_codepoint_lexes : lexer.

Lemma non_ascii_loop_lexes fuel : forall l builder, lexer_ok l -> lx_len l - lx_pos l < Z.of_nat fuel ->
  lexes K l (non_ascii_loop fuel builder) l (fun _ _ => True).
Proof.
  induction fuel as [|fuel IH]; intros l builder Hl Hf; [lex_lia|]. lex_start. cbn [non_ascii_loop].
  repeat lex_step; done.
Qed.
#[local] Hint Resolve non_ascii_loop_lexes : lexer.

Lemma lex_identifier_non_ascii_lexes l builder : lexer_ok l ->
  lexes K l (lex_identifier_non_ascii builder) l (fun _ _ => True).
Proof. intros Hl. lex_start. unfold lex_identifier_non_ascii. by repeat lex_step. Qed.
#[local] Hint Resolve lex_identifier_non_ascii_lexes : lexer.

Lemma identifier_ascii_loop_lexes fuel : forall l start,
  lexer_ok l -> lx_len l - lx_pos l < Z.of_nat fuel -> 0 <= start <= lx_pos l ->
  lexes K l (identifier_ascii_loop fuel start) l
    (fun r l' => r.2 = true -> r.1 = region l' start (lx_pos l')).
Proof.
  induction fuel as [|fuel IH]; intros l start Hl Hf Hs; [lex_lia|]. lex_start.
  cbn [identifier_ascii_loop]. repeat lex_step; done.
Qed.
#[local] Hint Resolve identifier_ascii_loop_lexes : lexer.

Definition keyword_row_ok (row : string * Fixed.t) : bool :=
  let name := map ch (list_ascii_of_string row.1) in
  bool_decide (name = spelling row.2) && negb (bool_decide (row.2 = Fixed.Eof)) &&
  negb (bool_decide (head name = Some (ch "#"))).

Lemma keyword_spelling name token : ascii_id_to_keyword name = Some token ->
  name = spelling token /\ token <> Fixed.Eof /\ head name <> Some (ch "#").
Proof.
  unfold ascii_id_to_keyword. intros (row & Hrow & ->)%fmap_Some.
  apply head_Some_elem_of, list_elem_of_filter in Hrow as [<- Hrow].
  assert (Hall : forallb keyword_row_ok keywords = true) by (vm_compute; reflexivity).
  rewrite forallb_forall in Hall. apply list_elem_of_In, Hall in Hrow. unfold keyword_row_ok in Hrow.
  rewrite !andb_true_iff, !negb_true_iff, bool_decide_eq_true, !bool_decide_eq_false in Hrow. tauto.
Qed.

Lemma lex_identifier_ascii_lexes l start : lexer_ok l -> 0 <= start <= lx_pos l -> lx_pos l < lx_len l ->
  lexes K l (lex_identifier_ascii start) l (fun r l' => token_ok start r l' /\
    match r.1 with
    | Identifier _ => True
    | FixedToken token => head (spelling token) <> Some (ch "#")
    | _ => False
    end).
Proof.
  intros Hl Hs Hlt. lex_start. unfold lex_identifier_ascii. do 3 lex_step. destruct a as [name b].
  match goal with H : _ = true -> _ |- _ => rename H into Hname end. cbn [fst snd] in Hname.
  assert (Hid : lexes K l (emit_token (Identifier name) start) l'0 (fun r l' => token_ok start r l' /\
    match r.1 with
    | Identifier _ => True
    | FixedToken token => head (spelling token) <> Some (ch "#")
    | _ => False
    end)).
  { lex_step. split; [|done]. split; [done|]. cbn. lex_lia. }
  destruct b; [|exact Hid]. specialize (Hname eq_refl).
  destruct (ascii_id_to_keyword name) as [token|] eqn:E; [|exact Hid].
  destruct (keyword_spelling _ _ E) as (Es & Hne & Hh). lex_step. cbn. rewrite <- Es. split; [|done].
  split; [done|]. cbn. rewrite <- Es. by split.
Qed.
#[local] Hint Resolve lex_identifier_ascii_lexes : lexer.

Lemma lex_private_identifier_lexes l : lexer_ok l -> lx_current l = ch "#" ->
  (lx_pos l + 1 = lx_len l -> K) ->
  lexes K l (lex_private_identifier (lx_pos l)) l (token_ok (lx_pos l)).
Proof.
  intros Hl Hc HK. lex_start. unfold lex_private_identifier.
  assert (lx_pos l < lx_len l) by lex_lia. lex_step. lex_step.
  assert (lx_pos l' = lx_pos l + 1) as Hp by lex_lia.
  assert (lx_pos l' = lx_len l' -> K) by (intros Hlen; apply HK; lex_lia).
  lex_step.
  - lex_step. destruct a as [token loc]. match goal with H : token_ok _ _ _ /\ _ |- _ => destruct H as [[Hloc Ht] Htok] end. cbn [fst snd] in *.
    destruct token; cbn beta iota; try done.
    destruct Ht as [Er _]. exfalso. apply Htok. rewrite <- Er, (region_forward l l'0) by done.
    rewrite region_current by (done || lex_lia). by rewrite Hc.
  - repeat lex_step. split; [done|]. cbn. lex_lia.
Qed.
#[local] Hint Resolve lex_private_identifier_lexes : lexer.

(** ** Strings *)

Lemma string_fast_loop_lexes fuel : forall l quote, lexer_ok l -> lx_len l - lx_pos l < Z.of_nat fuel ->
  0 <= quote < 256 ->
  lexes K l (string_fast_loop fuel quote) l (fun ended l' => if (ended : bool) then lx_current l' = quote else True).
Proof.
  induction fuel as [|fuel IH]; intros l quote Hl Hf Hq; [lex_lia|]. lex_start.
  cbn [string_fast_loop]. repeat lex_step; try done. lex_lia.
Qed.
#[local] Hint Resolve string_fast_loop_lexes : lexer.

Lemma string_octal_escape_lexes l digit value : lexer_ok l -> lx_pos l < lx_len l ->
  between "0" "7" digit = true ->
  lexes K l (string_octal_escape digit value) l (fun _ l' => lx_pos l < lx_pos l').
Proof.
  intros Hl Hlt Hd. lex_start. unfold string_octal_escape. do 2 lex_step.
  assert (exists v, get_octal_value digit = Some v /\ 0 <= v < 8) as (v & Ev & Hv).
  { unfold get_octal_value. rewrite Hd. eexists. split; [done|]. unfold between in Hd. chars. lia. }
  rewrite Ev. cbn [unwrap]. destruct (digit <=? ch "3"); repeat lex_step; lex_lia.
Qed.
#[local] Hint Resolve string_octal_escape_lexes : lexer.

Lemma other_escape_lexes l value : lexer_ok l -> lx_pos l < lx_len l ->
  (lx_pos l + 1 = lx_len l -> K) ->
  lexes K l (other_escape (byte_at l (lx_pos l + 1)) value) l (fun _ l' => lx_pos l < lx_pos l').
Proof.
  intros Hl Hlt HK. lex_start. unfold other_escape.
  pose proof (byte_at_range l (lx_pos l + 1) Hl ltac:(lex_lia)).
  lex_step; [repeat lex_step; lex_lia|]. lex_step.
  assert (lx_pos l' = lx_len l' -> K) by (intros Hlen; apply HK; lex_lia).
  repeat lex_step; lex_lia.
Qed.
#[local] Hint Resolve other_escape_lexes : lexer.

Lemma single_escape_range c v : single_escape c = Some v -> 0 <= v < 128.
Proof. unfold single_escape. repeat case_match; intros [= <-]; chars; lia. Qed.

Lemma string_escape_lexes l value : lexer_ok l -> lx_current l = ch "\" -> (lx_pos l + 1 = lx_len l -> K) ->
  lexes K l (string_escape value) l (fun _ l' => lx_pos l < lx_pos l').
Proof.
  intros Hl Hc HK. lex_start. unfold string_escape. assert (lx_pos l < lx_len l) by lex_lia.
  pose proof (byte_at_range l (lx_pos l + 1) Hl ltac:(lex_lia)).
  do 2 lex_step. destruct (single_escape _) as [c|] eqn:Ec.
  { apply single_escape_range in Ec. repeat lex_step. lex_lia. }
  repeat lex_step; lex_lia.
Qed.
#[local] Hint Resolve string_escape_lexes : lexer.

Lemma string_slow_loop_lexes fuel : forall l quote value, lexer_ok l -> lx_len l - lx_pos l < Z.of_nat fuel ->
  0 <= quote < 256 -> (ends_with l (ch "\") -> K) ->
  lexes K l (string_slow_loop fuel quote value) l (fun _ _ => True).
Proof.
  induction fuel as [|fuel IH]; intros l quote value Hl Hf Hq HK; [lex_lia|]. lex_start.
  cbn [string_slow_loop]. lex_step. lex_step.
  { apply Z.eqb_eq in E. pose proof (fun Hp => HK (ends_at_end l _ Hl E Hp)). repeat lex_step. done. }
  repeat lex_step; done.
Qed.
#[local] Hint Resolve string_slow_loop_lexes : lexer.

Lemma lex_string_literal_lexes l : lexer_ok l -> lx_pos l < lx_len l -> (ends_with l (ch "\") -> K) ->
  lexes K l lex_string_literal l (token_ok (lx_pos l)).
Proof.
  intros Hl Hlt HK. lex_start. assert (0 <= lx_current l < 256) by lex_lia. unfold lex_string_literal.
  repeat lex_step; (split; [done|]; cbn; lex_lia).
Qed.
#[local] Hint Resolve lex_string_literal_lexes : lexer.

(** ** Templates: any of them may be unterminated *)

Lemma template_fast_loop_lexes fuel : forall l, lexer_ok l -> lx_len l - lx_pos l < Z.of_nat fuel -> K ->
  lexes K l (template_fast_loop fuel) l (fun r l' =>
    match r with EndsAt p _ => lx_pos l <= p < lx_pos l' | NeedsSlowPath => True end).
Proof.
  induction fuel as [|fuel IH]; intros l Hl Hf HK; [lex_lia|]. lex_start. cbn [template_fast_loop].
  repeat lex_step; try lex_lia; (case_match; [lex_lia|done]).
Qed.
#[local] Hint Resolve template_fast_loop_lexes : lexer.

Lemma template_escape_lexes l k : lexer_ok l -> lx_pos l < lx_len l -> K ->
  lexes K l (template_escape k) l (fun _ l' => lx_pos l < lx_pos l').
Proof.
  intros Hl Hlt HK. lex_start. unfold template_escape.
  pose proof (byte_at_range l (lx_pos l + 1) Hl ltac:(lex_lia)).
  do 2 lex_step. destruct (if byte_at l (lx_pos l + 1) =? ch "`" then _ else _) as [c|] eqn:Ec.
  { assert (0 <= c < 128).
    { destruct (_ =? _); [injection Ec as <-; chars; lia|by apply single_escape_range in Ec]. }
    unfold cook_push. repeat lex_step. lex_lia. }
  unfold cook_push. repeat lex_step; try lex_lia.
  match goal with H : located _ _ |- _ => destruct H as (start & end_ & -> & _) end.
  cbn [unwrap]. repeat lex_step. lex_lia.
Qed.
#[local] Hint Resolve template_escape_lexes : lexer.

Lemma template_slow_loop_lexes fuel : forall l k, lexer_ok l -> lx_len l - lx_pos l < Z.of_nat fuel -> K ->
  lexes K l (template_slow_loop fuel k) l (fun r l' => lx_pos l <= r.1.2 < lx_pos l').
Proof.
  induction fuel as [|fuel IH]; intros l k Hl Hf HK; [lex_lia|]. lex_start. cbn [template_slow_loop].
  unfold cook_push. repeat lex_step; lex_lia.
Qed.
#[local] Hint Resolve template_slow_loop_lexes : lexer.

Lemma lex_template_literal_lexes l start head : lexer_ok l -> 0 <= start < lx_pos l -> K ->
  lexes K l (lex_template_literal start head) l (token_ok start).
Proof.
  intros Hl Hs HK. lex_start. unfold lex_template_literal.
  repeat (lex_step; cbn [fst snd] in *); (split; [done|]; cbn; lex_lia).
Qed.
#[local] Hint Resolve lex_template_literal_lexes : lexer.

(** The continuation of a template starts after a closing brace. *)
Lemma next_template_part_lexes l : lexer_ok l -> 1 <= lx_pos l -> K ->
  lexes K l next_template_part l (token_ok (lx_pos l - 1)).
Proof. intros Hl Hp HK. lex_start. unfold next_template_part. repeat lex_step; done. Qed.

(** ** RegExp literals *)

Lemma lex_regexp_character_non_line_terminator_lexes l : lexer_ok l -> (lx_pos l = lx_len l -> K) ->
  lexes K l lex_regexp_character_non_line_terminator l (fun _ l' => lx_pos l < lx_pos l').
Proof.
  intros Hl HK. lex_start. unfold lex_regexp_character_non_line_terminator. repeat lex_step; lex_lia.
Qed.
#[local] Hint Resolve lex_regexp_character_non_line_terminator_lexes : lexer.

Lemma lex_regex_character_in_class_lexes l : lexer_ok l -> (ends_with l (ch "\") -> K) ->
  lexes K l lex_regex_character_in_class l (fun _ l' => lx_pos l < lx_pos l').
Proof.
  intros Hl HK. lex_start. unfold lex_regex_character_in_class. lex_step. lex_step.
  - apply Z.eqb_eq in E. assert (lx_pos l < lx_len l) by lex_lia. lex_step.
    assert (lx_pos l' = lx_len l' -> K).
    { intros Hp. apply HK, ends_at_end; [done..|lex_lia]. }
    repeat lex_step. lex_lia.
  - repeat lex_step. lex_lia.
Qed.
#[local] Hint Resolve lex_regex_character_in_class_lexes : lexer.

Lemma regex_class_loop_lexes fuel : forall l, lexer_ok l -> lx_len l - lx_pos l < Z.of_nat fuel ->
  (ends_with l (ch "\") -> K) -> lexes K l (regex_class_loop fuel) l (fun _ _ => True).
Proof.
  induction fuel as [|fuel IH]; intros l Hl Hf HK; [lex_lia|]. lex_start. cbn [regex_class_loop].
  repeat lex_step; done.
Qed.
#[local] Hint Resolve regex_class_loop_lexes : lexer.

Lemma lex_regex_character_lexes l : lexer_ok l -> (ends_with l (ch "\") -> K) ->
  lexes K l lex_regex_character l (fun _ l' => lx_pos l < lx_pos l').
Proof. intros Hl HK. lex_start. unfold lex_regex_character. repeat lex_step; lex_lia. Qed.
#[local] Hint Resolve lex_regex_character_lexes : lexer.

Lemma regex_body_loop_lexes fuel : forall l, lexer_ok l -> lx_len l - lx_pos l < Z.of_nat fuel ->
  (ends_with l (ch "\") -> K) ->
  lexes K l (regex_body_loop fuel) l (fun _ l' => lx_current l' = ch "/").
Proof.
  induction fuel as [|fuel IH]; intros l Hl Hf HK; [lex_lia|]. lex_start. cbn [regex_body_loop].
  repeat lex_step; [lex_lia|done].
Qed.
#[local] Hint Resolve regex_body_loop_lexes : lexer.

Lemma regex_flags_loop_lexes fuel : forall l, lexer_ok l -> lx_len l - lx_pos l < Z.of_nat fuel ->
  lexes K l (regex_flags_loop fuel) l (fun _ _ => True).
Proof.
  induction fuel as [|fuel IH]; intros l Hl Hf; [lex_lia|]. lex_start. cbn [regex_flags_loop].
  repeat lex_step; done.
Qed.
#[local] Hint Resolve regex_flags_loop_lexes : lexer.

(** The token before a regular expression literal was [/] or [/=]. *)
Definition after_divide (l : Lexer) (start : Z) : Prop :=
  0 <= start < lx_pos l /\ byte_at l start = ch "/" /\
  (start = lx_pos l - 1 \/ start = lx_pos l - 2 /\ byte_at l (lx_pos l - 1) = ch "=").

Lemma next_regexp_literal_lexes l start : lexer_ok l -> after_divide l start ->
  (ends_with l (ch "\") -> K) ->
  lexes K l next_regexp_literal l (fun r l' => token_ok start r l' /\
    exists raw pattern flags, r.1 = RegExpLiteral (mkRegExpToken raw pattern flags) /\
      raw = region l start (lx_pos l') /\ raw = ch "/" :: pattern ++ ch "/" :: flags).
Proof.
  intros Hl (Hs & Hslash & Hstart) HK. lex_start. unfold next_regexp_literal. do 2 lex_step.
  eapply (lexes_call _ _ _ _ (fun s _ => s = start)); [done| |].
  { repeat lex_step; destruct Hstart as [->|[-> Heq]]; try done; chars; lia. }
  intros ? l1 Ho1 _ ->. do 3 lex_step.
  match goal with H : lx_current ?l = ch "/" |- _ => rename H into Hend, l into l2 end.
  assert (lx_pos l2 < lx_len l2) by lex_lia. repeat lex_step. split; [split; [done|cbn; lex_lia]|].
  match goal with |- context [mkLoc _ (lx_pos ?l)] => rename l into l4 end.
  assert (lx_pos l' = lx_pos l2 + 1) as E3 by lex_lia.
  rewrite !(region_forward l l4) by done. eexists _, _, _. split; [done|]. split; [done|].
  rewrite (region_split _ _ (start + 1)), region_byte, Hslash by (done || lex_lia). cbn [app]. f_equal.
  rewrite (region_split _ _ (lx_pos l2)) by lex_lia. f_equal.
  rewrite (region_split _ _ (lx_pos l2 + 1)), E3 by lex_lia. rewrite region_byte by (done || lex_lia).
  cbn [app]. f_equal.
  rewrite <- (byte_at_forward l l2), <- (lexer_current l2) by (done || eauto with lexer). done.
Qed.

End Methods.

#[export] Hint Resolve skip_line_comment_lexes skip_block_comment_lexes : lexer.
#[export] Hint Resolve lex_decimal_literal_lexes lex_zero_literal_lexes numeric_literal_lexes : lexer.
#[export] Hint Resolve as_id_start_lexes as_id_start_unicode_lexes : lexer.
#[export] Hint Resolve lex_identifier_unicode_escape_sequence_lexes lex_identifier_non_ascii_lexes : lexer.
#[export] Hint Resolve lex_private_identifier_lexes lex_string_literal_lexes : lexer.
#[export] Hint Resolve lex_template_literal_lexes lex_identifier_ascii_lexes : lexer.
