(* ===== verification/LexerNext.v ===== *)
(** The next token: [Lexer::next] of [src/so2js/parser/lexer.rs].

    [next_returns_token]: every call returns a token whose location is its text, or an
    error, and ends; [tokens_end]: so does the stream of tokens.  The only panics
    are those of sources that end in the middle of a template, after a backslash
    or after a number sign.  [punctuator_is_longest_match]: operators are the
    longest that the source spells. *)

From Stdlib Require Import Ascii String.
From S2P Require Import Prelude Float64 Unicode Wtf8 LexerStream UnicodeProperty Token ParseStream.
From S2P Require Import Characters Lexer LexerLogic LexerCorrect.

#[local] Open Scope bool_scope.

(** ** Punctuation *)

Definition bytes_from (l : Lexer) (pos : Z) (n : nat) : list Z :=
  map (fun i => byte_at l (pos + Z.of_nat i)) (seq 0 n).

Lemma region_bytes l pos n : lexer_ok l -> 0 <= pos -> pos + Z.of_nat n <= lx_len l ->
  region l pos (pos + Z.of_nat n) = bytes_from l pos n.
Proof.
  intros Hl Hp. induction n as [|n IH]; intros Hn.
  - rewrite Z.add_0_r. apply region_empty.
  - replace (pos + Z.of_nat (S n)) with (pos + Z.of_nat n + 1) in * by lia.
    rewrite (region_split _ _ (pos + Z.of_nat n)), IH, region_byte by (done || lia).
    unfold bytes_from. by rewrite seq_S, map_app.
Qed.

Lemma bytes_from_end l pos n : lexer_ok l -> 0 <= pos -> Forall (fun c => c < 256) (bytes_from l pos n) ->
  pos <= lx_len l -> pos + Z.of_nat n <= lx_len l.
Proof.
  intros Hl Hp Hb Hlen. destruct n as [|n]; [lia|]. unfold bytes_from in Hb.
  rewrite seq_S, map_app in Hb. apply Forall_app in Hb as [_ Hb]. apply Forall_cons in Hb as [Hb _].
  destruct (byte_at_range l (pos + Z.of_nat n) Hl ltac:(lia)) as [[E _]|[_ ?]]; [|lia].
  unfold EOF_CHAR in E. cbn in Hb. lia.
Qed.

Lemma spelling_bytes token : Forall (fun c => c < 256) (spelling token).
Proof.
  unfold spelling. apply Forall_map, Forall_true. intros c. unfold ch. pose proof (N_ascii_bounded c). cbn. lia.
Qed.

(** A punctuator is spelled by the characters that it is read from. *)
Lemma punctuator_spelling c p1 p2 p3 token n : punctuator c p1 p2 p3 = Some (token, n) ->
  1 <= n <= 4 /\ token <> Fixed.Eof /\ spelling token = take (Z.to_nat n) [c; p1; p2; p3].
Proof.
  unfold punctuator. intros H.
  repeat match type of H with context [if ?b then _ else _] => destruct b eqn:? end; try done;
    injection H as <- <-;
    repeat match goal with
      | H : _ && _ = true |- _ => apply andb_true_iff in H as [? ?]
      | H : (_ =? _) = true |- _ => apply Z.eqb_eq in H; subst
      end; (split; [lia|split; [done|reflexivity]]).
Qed.

Definition is_punctuation (token : Fixed.t) : bool :=
  match spelling token with c :: _ => negb (is_id_start_ascii c) | [] => false end.

(** What starts with punctuation and is something else: comments, numbers, and the
    question mark before a number. *)
Definition not_punctuation (token : Fixed.t) (c p1 p2 : Z) : bool :=
  (c =? ch "/") && ((p1 =? ch "/") || (p1 =? ch "*"))
  || (c =? ch ".") && is_decimal_digit p1
  || bool_decide (token = Fixed.QuestionDot) && is_decimal_digit p2.

(** C35: Operators and punctuation are read by the longest match: if a punctuator is
    spelled by the next four characters, and they do not start a comment or a
    number, then the lexer takes a punctuator that is spelled by them too and is at
    least as long. *)
Theorem punctuator_is_longest_match token c p1 p2 p3 :
  is_punctuation token = true -> spelling token `prefix_of` [c; p1; p2; p3] ->
  not_punctuation token c p1 p2 = false ->
  exists token' n, punctuator c p1 p2 p3 = Some (token', n) /\
    spelling token' = take (Z.to_nat n) [c; p1; p2; p3] /\
    (length (spelling token) <= length (spelling token'))%nat.
Proof.
  intros Hp Hprefix Hnot.
  enough (exists token' n, punctuator c p1 p2 p3 = Some (token', n) /\
    (length (spelling token) <= Z.to_nat n)%nat) as (token' & n & E & Hn).
  { exists token', n. destruct (punctuator_spelling _ _ _ _ _ _ E) as (Hr & _ & Es).
    split_and!; [done..|]. rewrite Es, length_take. cbn [length]. lia. }
  destruct token; try done; clear Hp; destruct Hprefix as [rest Er]; vm_compute in Er;
    simplify_eq; unfold not_punctuation in Hnot; unfold punctuator;
    repeat match goal with |- context [ch ?x] => let v := eval vm_compute in (ch x) in change (ch x) with v end;
    cbn [Z.eqb Pos.eqb];
    repeat match goal with |- context [if ?b then _ else _] => destruct b eqn:? end;
    try (eexists _, _; split; [reflexivity|vm_compute; lia]).
  all: exfalso; unfold is_decimal_digit, between in *; chars;
    first [rewrite bool_decide_eq_true_2 in Hnot by done|rewrite bool_decide_eq_false_2 in Hnot by done]; lia.
Qed.

Lemma punctuator_is_longest_match_witness :
  exists token' n, punctuator (ch ">") (ch ">") (ch "=") (ch "1") = Some (token', n) /\
    spelling token' = take (Z.to_nat n) [ch ">"; ch ">"; ch "="; ch "1"] /\
    (length (spelling Fixed.GreaterThan) <= length (spelling token'))%nat.
Proof. apply punctuator_is_longest_match; [reflexivity|by exists (map ch [">"; "="; "1"]%char)|reflexivity]. Defined.

(** ** One token *)

(** Sources that can make the lexer panic: a template that may not end, and a
    backslash or a number sign as the last byte. *)
Definition may_panic (l : Lexer) : Prop :=
  (exists pos, lx_pos l <= pos /\ byte_at l pos = ch "`") \/ ends_with l (ch "\") \/ ends_with l (ch "#").

Lemma may_panic_forward l l' : forward l l' -> may_panic l' -> may_panic l.
Proof.
  intros Hf [(pos & Hp & Hb)|H]; [left|right].
  - exists pos. split; [pose proof (forward_pos _ _ Hf); lia|by rewrite <- (byte_at_forward l l')].
  - destruct H; [left|right]; by eapply ends_with_forward.
Qed.

Section Next.

Context `{NumBigintLaws} `{IcuData} `{!IcuLaws _} {K : Prop}.

Lemma whitespace_loop_lexes fuel : forall l, lexer_ok l -> lx_len l - lx_pos l < Z.of_nat fuel ->
  lexes K l (whitespace_loop fuel) l (fun _ _ => True).
Proof.
  induction fuel as [|fuel IH]; intros l Hl Hf; [lex_lia|]. lex_start. cbn [whitespace_loop]. lex_step.
  destruct (ASCII_WHITESPACE_AND_NEWLINES !! Z.to_nat (lx_current l)) as [sigil|] eqn:Es; [|by repeat lex_step].
  apply lookup_lt_Some in Es. cbn in Es. repeat lex_step; done.
Qed.

(** A round of the loop returns a token or has read something. *)
Definition round_ok (l : Lexer) (start : Z) (r : option (Token * Loc)) (l' : Lexer) : Prop :=
  match r with
  | Some token => token_ok start token l'
  | None => lx_pos l < lx_pos l'
  end.

Lemma round_ok_forward l l1 start r l' : lx_pos l <= lx_pos l1 ->
  round_ok l1 start r l' -> round_ok l start r l'.
Proof. intros Hp. destruct r; cbn; [done|lia]. Qed.

Lemma return_token_lexes l start (m : LexM (Token * Loc)) : lexer_ok l ->
  lexes K l m l (token_ok start) -> lexes K l (return_token m) l (round_ok l start).
Proof. intros Hl Hm. lex_start. unfold return_token. by repeat lex_step. Qed.

Lemma numeric_round_lexes l (m : LexM (Token * Loc)) : lexer_ok l ->
  lexes K l m l (token_ok (lx_pos l)) -> lexes K l (numeric_literal m) l (round_ok l (lx_pos l)).
Proof.
  intros Hl Hm. eapply lexes_weaken; [by apply numeric_literal_lexes|]. by intros r l' _ (t & -> & Ht).
Qed.
#[local] Hint Resolve whitespace_loop_lexes return_token_lexes numeric_round_lexes : lexer.

Lemma identifier_from_lexes l start char : lexer_ok l -> 0 <= start < lx_pos l -> 0 <= char <= MAX_CODE_POINT ->
  lexes K l (identifier_from start char) l (token_ok start).
Proof.
  intros Hl Hs Hc. lex_start. unfold identifier_from. repeat lex_step. split; [done|]. cbn. lex_lia.
Qed.
#[local] Hint Resolve identifier_from_lexes : lexer.

Lemma lex_escaped_identifier_lexes l : lexer_ok l -> lx_pos l < lx_len l ->
  lexes K l (lex_escaped_identifier (lx_pos l)) l (token_ok (lx_pos l)).
Proof. intros Hl Hlt. lex_start. unfold lex_escaped_identifier. repeat lex_step; done. Qed.

Lemma lex_unicode_start_lexes l : lexer_ok l -> lx_pos l < lx_len l ->
  lexes K l (lex_unicode_start (lx_pos l)) l (round_ok l (lx_pos l)).
Proof.
  intros Hl Hlt. lex_start. unfold lex_unicode_start. repeat lex_step; try (cbn; lex_lia).
  eapply round_ok_forward; [|eassumption]. lex_lia.
Qed.
#[local] Hint Resolve lex_escaped_identifier_lexes lex_unicode_start_lexes : lexer.

Lemma decimal_round_lexes l : lexer_ok l ->
  is_decimal_digit (lx_current l) = true \/
    lx_current l = ch "." /\ is_decimal_digit (byte_at l (lx_pos l + 1)) = true ->
  lexes K l (numeric_literal lex_decimal_literal) l (round_ok l (lx_pos l)).
Proof.
  intros Hl Hc. apply numeric_round_lexes; [done|].
  eapply lexes_weaken; [by apply lex_decimal_literal_lexes|]. intros r l' Hf. by apply decimal_token_ok.
Qed.

Lemma punctuator_dot p1 p2 p3 : punctuator (ch ".") p1 p2 p3 = None -> is_decimal_digit p1 = true.
Proof.
  unfold punctuator. chars. cbn [Z.eqb Pos.eqb]. by repeat case_match.
Qed.

Lemma lex_at_lexes l : lexer_ok l -> (may_panic l -> K) ->
  punctuator (lx_current l) (byte_at l (lx_pos l + 1)) (byte_at l (lx_pos l + 2)) (byte_at l (lx_pos l + 3)) = None ->
  lexes K l (lex_at (lx_pos l) (lx_current l) (byte_at l (lx_pos l + 1))) l (round_ok l (lx_pos l)).
Proof.
  intros Hl HK Hnone. lex_start. unfold lex_at.
  lex_step. { apply Z.eqb_eq in E. repeat lex_step; cbn; lex_lia. }
  lex_step. { apply Z.eqb_eq in E0. rewrite E0 in *. apply decimal_round_lexes; eauto using punctuator_dot. }
  lex_step.
  { apply Z.eqb_eq in E1. pose proof (fun Hp => HK (or_intror (or_intror (ends_at_end l _ Hl E1 Hp)))).
    repeat lex_step; [cbn; lex_lia|done]. }
  lex_step. { apply Z.eqb_eq in E2. by repeat lex_step. }
  lex_step. { apply decimal_round_lexes; [done|left]. unfold is_decimal_digit, between in *. chars. lia. }
  assert (ends_with l (ch "\") -> K) by (intros He; apply HK; right; by left).
  lex_step. { repeat lex_step; done. }
  lex_step.
  { assert K. { apply HK. left. exists (lx_pos l). split; [lia|]. rewrite <- (lexer_current _ Hl). lia. }
    lex_step. eapply lexes_tail; [done|apply return_token_lexes; [by eauto with lexer|]|].
    - apply lex_template_literal_lexes; [eauto with lexer|lex_lia|done].
    - intros r l2 _. apply round_ok_forward. lex_lia. }
  lex_step.
  { unfold return_token. repeat lex_step. split; [done|]. cbn [fst]. rewrite region_empty. split; [done|]. intros _. lex_lia. }
  lex_step.
  { eapply lexes_tail; [done|apply (return_token_lexes l (lx_pos l)); [done|]|done].
    eapply lexes_weaken; [apply lex_identifier_ascii_lexes; eauto with lexer|]. by intros r l' _ [? _]. }
  repeat lex_step; done.
Qed.
#[local] Hint Resolve lex_at_lexes : lexer.

Lemma fixed_lexes l token n : lexer_ok l ->
  punctuator (lx_current l) (byte_at l (lx_pos l + 1)) (byte_at l (lx_pos l + 2)) (byte_at l (lx_pos l + 3))
    = Some (token, n) ->
  lexes K l (fixed token n (lx_pos l)) l (token_ok (lx_pos l)).
Proof.
  intros Hl Ht. lex_start. destruct (punctuator_spelling _ _ _ _ _ _ Ht) as (Hn & Hne & Es).
  assert (spelling token = bytes_from l (lx_pos l) (Z.to_nat n)) as Eb.
  { rewrite Es, (lexer_current _ Hl). unfold bytes_from. rewrite <- (Z.add_0_r (lx_pos l)) at 1.
    by assert (n = 1 \/ n = 2 \/ n = 3 \/ n = 4) as [->|[->|[->| ->]]] by lia. }
  pose proof (spelling_bytes token) as Hb. rewrite Eb in Hb. apply bytes_from_end in Hb; [|done|lex_lia..].
  unfold fixed. lex_step. lex_step. split; [done|]. split; [|done].
  replace (lx_pos l') with (lx_pos l + Z.of_nat (Z.to_nat n)) by lex_lia.
  by rewrite (region_forward l l'), region_bytes, Eb by (done || lex_lia).
Qed.
#[local] Hint Resolve fixed_lexes : lexer.

Lemma next_round_lexes l : lexer_ok l -> (may_panic l -> K) ->
  lexes K l next_round l (fun r l' =>
    match r with
    | Some token => exists start, lx_pos l <= start /\ token_ok start token l'
    | None => lx_pos l < lx_pos l'
    end).
Proof.
  intros Hl HK. lex_start. unfold next_round. do 2 lex_step.
  assert (may_panic l' -> K) by (intros Hp; apply HK; by eapply may_panic_forward).
  do 5 lex_step.
  destruct (punctuator _ _ _ _) as [[token n']|] eqn:Et.
  - eapply lexes_tail; [done|apply return_token_lexes; [eauto with lexer|by apply fixed_lexes; eauto with lexer]|].
    intros [t|] l2 Hl2 Hr; cbn in Hr; [|lex_lia]. exists (lx_pos l'). split; [lex_lia|done].
  - eapply lexes_tail; [done|apply lex_at_lexes; eauto with lexer|].
    intros [t|] l2 Hl2 Hr; cbn in Hr; [|lex_lia]. exists (lx_pos l'). split; [lex_lia|done].
Qed.

Lemma next_loop_lexes fuel : forall l, lexer_ok l -> lx_len l - lx_pos l < Z.of_nat fuel ->
  (may_panic l -> K) ->
  lexes K l (next_loop fuel) l (fun t l' => exists start, lx_pos l <= start /\ token_ok start t l').
Proof.
  induction fuel as [|fuel IH]; intros l Hl Hf HK; [lex_lia|]. lex_start. cbn [next_loop].
  eapply lexes_call; [done|by apply next_round_lexes|]. cbn beta. intros [t|] l1 Ho1 _ Hr; [by repeat lex_step|].
  eapply lexes_tail; [done|apply IH; [eauto with lexer|lex_lia|]|].
  - intros Hp. apply HK. by eapply may_panic_forward.
  - intros t l2 _ (start & ? & ?). exists start. split; [lex_lia|done].
Qed.

Lemma next_lexes l : lexer_ok l -> (may_panic l -> K) ->
  lexes K l next l (fun t l' => exists start, lx_pos l <= start /\ token_ok start t l').
Proof.
  intros Hl HK. lex_start. unfold next. do 2 lex_step. 
  eapply lexes_tail; [done|apply next_loop_lexes; [eauto with lexer|lex_lia|]|].
  - intros Hp. apply HK. by eapply may_panic_forward.
  - intros t l2 _ (start & ? & ?). exists start. split; [lex_lia|done].
Qed.

End Next.

(** C7: The lexer is safe: from any position of a source, [next] ends; it returns a
    token at the location of its text, which is not empty before the end of the
    source, with the lexer right after it, or an error located in the source.  A
    fixed token is spelled by its text, and the value of a number is that of its
    digits.  A panic needs a template that may not end, or a backslash or a number
    sign at the very end of the source. *)
Theorem next_returns_token `{NumBigintLaws} `{IcuData} `{!IcuLaws _} l : lexer_ok l ->
  match next l with
  | Done (Ok (token, loc), l') => forward l l' /\ lx_pos l <= loc_start loc /\
      token_ok (loc_start loc) (token, loc) l'
  | Done (Err e, l') => forward l l' /\ located l e
  | Panicked => may_panic l
  | Faulted | OutOfFuel => False
  end.
Proof.
  intros Hl. pose proof (next_lexes (K := may_panic l) l Hl id) as Hn. unfold lexes in Hn.
  destruct (next l) as [[[[token loc]|e] l']| | |]; try done.
  destruct Hn as (Hf & start & Hs & Ht). by destruct Ht as [[= ->] Ht].
Qed.

(** ** The stream of tokens *)

(** All tokens up to the end of the source. *)
Fixpoint tokenize `{NumBigint} `{IcuData} (fuel : nat) : LexM (list (Token * Loc)) :=
  match fuel with
  | O => lex_out_of_fuel
  | S fuel' =>
      '(token, loc) ← next;
      match token with
      | FixedToken Fixed.Eof => mret [(token, loc)]
      | _ => rest ← tokenize fuel'; mret ((token, loc) :: rest)
      end
  end.

(** Tokens in order, apart from each other, up to the end of the source. *)
Fixpoint in_order (l : Lexer) (pos : Z) (tokens : list (Token * Loc)) : Prop :=
  match tokens with
  | [] => False
  | [(token, loc)] => token = FixedToken Fixed.Eof /\ loc = mkLoc (lx_len l) (lx_len l) /\ pos <= lx_len l
  | (token, loc) :: rest => token <> FixedToken Fixed.Eof /\
      pos <= loc_start loc < loc_end loc /\ in_order l (loc_end loc) rest
  end.

Lemma in_order_forward l l' pos tokens : forward l l' -> in_order l' pos tokens -> in_order l pos tokens.
Proof.
  intros Hf. revert pos. induction tokens as [|[token loc] tokens IH]; intros pos; [done|].
  destruct tokens; cbn [in_order]; [by rewrite (forward_len _ _ Hf)|]. naive_solver.
Qed.

Lemma spelling_empty token : spelling token = [] -> token = Fixed.Eof.
Proof. by destruct token. Qed.

(** Only the end of the source has an empty text. *)
Lemma token_ok_progress start token loc l' : token_ok start (token, loc) l' ->
  token = FixedToken Fixed.Eof /\ start = lx_len l' /\ lx_pos l' = start \/ token <> FixedToken Fixed.Eof /\ start < lx_pos l'.
Proof.
  intros [_ Ht]. cbn in Ht. destruct token as [| | | | | | |token]; try (right; split; [done|]; tauto).
  destruct Ht as [Er He]. destruct (decide (token = Fixed.Eof)) as [->|Hne]; [left; by auto|right].
  split; [congruence|]. apply (region_nonempty l'). rewrite Er. by intros ?%spelling_empty.
Qed.

Section Stream.

Context `{NumBigintLaws} `{IcuData} `{!IcuLaws _} {K : Prop}.

Lemma tokenize_lexes fuel : forall l, lexer_ok l -> lx_len l - lx_pos l < Z.of_nat fuel ->
  (may_panic l -> K) -> lexes K l (tokenize fuel) l (fun tokens _ => in_order l (lx_pos l) tokens).
Proof.
  induction fuel as [|fuel IH]; intros l Hl Hf HK; [lex_lia|]. lex_start. cbn [tokenize].
  eapply lexes_call; [done|by apply next_lexes|]. cbn beta. intros [token loc] l1 Ho1 _ (start & Hs & Ht).
  pose proof Ht as [Hloc _]. cbn in Hloc. subst loc. cbn beta iota.
  assert (Hmore : token <> FixedToken Fixed.Eof -> start < lx_pos l1 ->
    lexes K l (rest ← tokenize fuel; mret ((token, mkLoc start (lx_pos l1)) :: rest)) l1
      (fun tokens _ => in_order l (lx_pos l) tokens)).
  { intros Hne Hlt. eapply lexes_call; [done|apply IH; [eauto with lexer|lex_lia|]|].
    - intros Hp. apply HK. by eapply may_panic_forward.
    - cbn beta. intros rest l2 Ho2 _ Hr. lex_step. apply (in_order_forward l l1) in Hr; [|done].
      destruct rest; [done|]. cbn [in_order loc_start loc_end]. split_and!; [done|lia|lia|done]. }
  destruct (token_ok_progress _ _ _ _ Ht) as [(-> & -> & Ep)|[Hne Hlt]].
  - lex_step. cbn. rewrite Ep, (forward_len _ _ Ho1). split_and!; [done|done|]. apply (lexer_pos _ Hl).
  - specialize (Hmore Hne Hlt). destruct token as [| | | | | | |[]]; try done.
Qed.

End Stream.

(** ** Sources *)

(** The ASCII bytes of a text are its ASCII characters. *)
Lemma ascii_byte_of_encoding c bytes b : encoding c bytes -> b ∈ bytes -> b < 128 -> b = c.
Proof.
  intros He Hb Hlt. apply list_elem_of_In in Hb. destruct He; cbn [In] in Hb; lia.
Qed.

Lemma ascii_byte_of_text text b : code_points_ok text -> b ∈ wtf8_bytes text -> b < 128 -> b ∈ text.
Proof.
  intros Ht Hb Hlt. induction Ht as [|c text Hc Ht IH]; [done|].
  change (wtf8_bytes (c :: text)) with (encoded_bytes c ++ wtf8_bytes text) in Hb.
  apply elem_of_cons. apply elem_of_app in Hb as [Hb|Hb]; [left|right; auto].
  by eapply ascii_byte_of_encoding; [apply encoded_bytes_encoding|..].
Qed.

Lemma last_byte_of_text text b : code_points_ok text -> last (wtf8_bytes text) = Some b -> b < 128 ->
  last text = Some b.
Proof.
  intros Ht. induction text as [|c text _] using rev_ind; [done|].
  apply Forall_app in Ht as [_ Hc]. apply Forall_cons in Hc as [Hc _].
  unfold wtf8_bytes. rewrite fmap_app, join_app. cbn. rewrite app_nil_r, last_app, last_snoc.
  pose proof (encoded_bytes_encoding c Hc) as He. destruct (last (encoded_bytes c)) as [b'|] eqn:El.
  - intros [= ->] Hb. f_equal. symmetry. eapply ascii_byte_of_encoding; [done| |done].
    by apply last_Some_elem_of.
  - apply last_None in El. apply encoding_nonempty in He. rewrite El in He. cbn in He. lia.
Qed.

Lemma encoded_bytes_range c : 0 <= c <= MAX_CODE_POINT -> units_in 256 (encoded_bytes c).
Proof.
  intros Hc. pose proof (encoded_bytes_encoding c Hc) as He. unfold units_in.
  destruct He; repeat constructor; lia.
Qed.

Lemma Lexer_new_ok text : code_points_ok text -> lexer_ok (Lexer_new (wtf8_bytes text)).
Proof.
  intros Ht. split.
  - cbn. unfold wtf8_bytes, units_in. induction Ht as [|c text Hc Ht IH]; [constructor|].
    cbn. apply Forall_app. split; [by apply encoded_bytes_range|done].
  - by apply wtf8_decodes_in_range.
  - unfold lx_len. cbn. lia.
  - unfold byte_at. cbn. by destruct (wtf8_bytes text).
Qed.

(** A text without templates that ends neither in a backslash nor in a number sign. *)
Definition complete_text (text : list Z) : Prop :=
  code_points_ok text /\ ch "`" ∉ text /\ last text <> Some (ch "\") /\ last text <> Some (ch "#").

Lemma complete_text_ends text c : code_points_ok text -> c < 128 ->
  ends_with (Lexer_new (wtf8_bytes text)) c -> last text = Some c.
Proof.
  intros Ht Hc [Hlen Hb]. apply last_byte_of_text; [done| |done]. unfold lx_len, byte_at in *. cbn in *.
  rewrite last_lookup. destruct (wtf8_bytes text !! Z.to_nat (Z.of_nat (length (wtf8_bytes text)) - 1)) eqn:E.
  - cbn in Hb. subst. replace (Init.Nat.pred _) with (Z.to_nat (Z.of_nat (length (wtf8_bytes text)) - 1)) by lia. done.
  - cbn in Hb. unfold EOF_CHAR in Hb. lia.
Qed.

Lemma complete_text_no_panic text : complete_text text -> ~ may_panic (Lexer_new (wtf8_bytes text)).
Proof.
  intros (Ht & Htemplate & Hbackslash & Hhash) [(pos & _ & Hb)|[He|He]].
  - unfold byte_at in Hb. cbn in Hb. destruct (wtf8_bytes text !! Z.to_nat pos) as [b|] eqn:E; cbn in Hb.
    + subst. apply Htemplate. apply list_elem_of_lookup_2 in E. by apply ascii_byte_of_text.
    + unfold EOF_CHAR in Hb. chars. lia.
  - by apply Hbackslash, complete_text_ends.
  - by apply Hhash, complete_text_ends.
Qed.

(** C34: Lexing a source ends without a panic: after at most as many tokens as the
    source has bytes, and one more, the lexer has reported an error or returned
    the end of the source, and the tokens before it are in order, not empty and do
    not overlap. *)
Theorem source_is_tokenized `{NumBigintLaws} `{IcuData} `{!IcuLaws _} text : complete_text text ->
  exists r l', tokenize (S (length (wtf8_bytes text))) (Lexer_new (wtf8_bytes text)) = Done (r, l') /\
    match r with
    | Ok tokens => in_order (Lexer_new (wtf8_bytes text)) 0 tokens
    | Err e => located (Lexer_new (wtf8_bytes text)) e
    end.
Proof.
  intros Ht. pose proof (Lexer_new_ok text (proj1 Ht)) as Hl.
  pose proof (tokenize_lexes (K := False) (S (length (wtf8_bytes text))) _ Hl) as Hn.
  unfold lexes in Hn. specialize (Hn ltac:(unfold lx_len; cbn [Lexer_new lx_buf lx_pos]; lia)
    (complete_text_no_panic text Ht)).
  destruct (tokenize _ _) as [[[tokens|e] l']| | |]; try done; eexists _, _; (split; [done|]); apply Hn.
Qed.

(** ** Examples *)

Module LexerExamples.

Import AsciiData ExactBigint.
#[local] Existing Instance ascii_icu_laws.

Definition source (s : string) : list Z := map ch (list_ascii_of_string s).

Lemma source_code_points s : code_points_ok (source s).
Proof.
  apply Forall_map, Forall_true. intros c. unfold ch, MAX_CODE_POINT.
  pose proof (N_ascii_bounded c). cbn. lia.
Qed.

Definition lexer_of (s : string) : Lexer := Lexer_new (wtf8_bytes (source s)).

Definition tokens_of (s : string) : option (list Token) :=
  match tokenize (S (length (wtf8_bytes (source s)))) (lexer_of s) with
  | Done (Ok tokens, _) => Some (map fst tokens)
  | _ => None
  end.
Definition error_of (s : string) : option ParseError :=
  match tokenize (S (length (wtf8_bytes (source s)))) (lexer_of s) with
  | Done (Err e, _) => Some (error_kind e)
  | _ => None
  end.

Lemma next_returns_token_witness :
  match next (lexer_of " 0x1F>>>=y") with
  | Done (Ok (token, loc), l') => forward (lexer_of " 0x1F>>>=y") l' /\
      lx_pos (lexer_of " 0x1F>>>=y") <= loc_start loc /\ token_ok (loc_start loc) (token, loc) l'
  | Done (Err e, l') => forward (lexer_of " 0x1F>>>=y") l' /\ located (lexer_of " 0x1F>>>=y") e
  | Panicked => may_panic (lexer_of " 0x1F>>>=y")
  | Faulted | OutOfFuel => False
  end.
Proof. apply next_returns_token, Lexer_new_ok, source_code_points. Defined.

Lemma source_is_tokenized_witness :
  exists r l', tokenize (S (length (wtf8_bytes (source "let x = 1;"))))
      (Lexer_new (wtf8_bytes (source "let x = 1;"))) = Done (r, l') /\
    match r with
    | Ok tokens => in_order (Lexer_new (wtf8_bytes (source "let x = 1;"))) 0 tokens
    | Err e => located (Lexer_new (wtf8_bytes (source "let x = 1;"))) e
    end.
Proof.
  apply source_is_tokenized. split; [apply source_code_points|].
  split; [|split; [vm_compute; discriminate|vm_compute; discriminate]].
  intros H. apply list_elem_of_In in H. vm_compute in H. intuition discriminate.
Defined.

Example tokens_example : tokens_of "a >>>= 0x10_0 + .5e1 // sum" =
  Some [Identifier (source "a"); FixedToken Fixed.ShiftRightLogicalEq; NumberLiteral (f64_of_int 256);
        FixedToken Fixed.Plus; NumberLiteral (f64_of_int 5); FixedToken Fixed.Eof].
Proof. vm_compute. reflexivity. Qed.

(** Digits that overflow 64 bits are converted through a big integer. *)
Example large_literal : tokens_of "0x1_0000_0000_0000_0001" =
  Some [NumberLiteral (f64_of_int (2 ^ 64)); FixedToken Fixed.Eof].
Proof. vm_compute. reflexivity. Qed.

(** Decoding at the end of the source panics. *)
Example unterminated_template_panics : next (lexer_of "`a") = Panicked.
Proof. vm_compute. reflexivity. Qed.
Example number_sign_at_end_panics : next (lexer_of "#") = Panicked.
Proof. vm_compute. reflexivity. Qed.
Example backslash_at_end_panics : next (lexer_of "'\") = Panicked.
Proof. vm_compute. reflexivity. Qed.

(** A leading zero forbids separators in the fraction and the exponent too. *)
Example separator_after_leading_zero :
  error_of "0.0_1" = Some InvalidNumericLiteralNextChar /\
  error_of "0e1_0" = Some InvalidNumericLiteralNextChar /\ error_of "1.0_1" = None.
Proof. vm_compute. auto. Qed.

(** More than six digits of an escape are rejected, whatever their value. *)
Example long_escape : error_of "'\u{0000061}'" = Some MalformedEscapeSeqence /\
  tokens_of "'\u{000061}'" = Some [StringLiteral (source "a"); FixedToken Fixed.Eof].
Proof. vm_compute. auto. Qed.

(** A block comment that ends in a star is reported at a location that starts after
    its end. *)
Example inverted_location : exists l', next (lexer_of "/**") =
  Done (Err (mkParseError (ExpectedToken "<EOF>" "/") (Some (3, 2))), l').
Proof. eexists. vm_compute. reflexivity. Qed.

(** Three tokens are shown by texts that are not their spelling. *)
Example misprinted_tokens : filter (fun t => map ch (list_ascii_of_string (Fixed.text t)) <> spelling t)
  Fixed.all = [Fixed.Eof; Fixed.LogicalNot; Fixed.BitwiseNot; Fixed.AddEq].
Proof. vm_compute. reflexivity. Qed.

End LexerExamples.
