(* ===== verification/LexerRoundtrip.v ===== *)
(** Printing tokens and lexing them again.

    [lexer_in pre s] is a lexer between the read text [pre] and the unread text [s].
    The rules [run_...] execute the primitive methods on it, and each kind of token
    has a lemma that says what [next] does on its text.  [printed_tokens_lex_back]
    composes them. *)

From Stdlib Require Import Ascii String.
From S2P Require Import Prelude Float64 Unicode Wtf8 LexerStream UnicodeProperty Token ParseStream.
From S2P Require Import Characters Lexer LexerLogic LexerCorrect LexerNext.

#[local] Open Scope bool_scope.

Definition current_of (s : list Z) : Z := default EOF_CHAR (head s).

Definition lexer_in (pre s : list Z) (nl : bool) : Lexer :=
  mkLexer (pre ++ s) (current_of s) (Z.of_nat (length pre)) nl false true.

(** ** Executing methods *)

Section Run.

Context {A : Type} (pre s : list Z) (nl : bool).

Lemma run_ret {B} (b : B) (f : B -> LexM A) l : (mret b ≫= f) l = f b l.
Proof. done. Qed.

Lemma run_current (f : Z -> LexM A) :
  (lex_current ≫= f) (lexer_in pre s nl) = f (current_of s) (lexer_in pre s nl).
Proof. done. Qed.

Lemma run_pos (f : Z -> LexM A) :
  (lex_pos ≫= f) (lexer_in pre s nl) = f (Z.of_nat (length pre)) (lexer_in pre s nl).
Proof. done. Qed.

Lemma run_set_new_line b (f : unit -> LexM A) :
  (set_new_line b ≫= f) (lexer_in pre s nl) = f tt (lexer_in pre s b).
Proof. done. Qed.

Lemma run_bytes_left (f : nat -> LexM A) :
  (bytes_left ≫= f) (lexer_in pre s nl) = f (S (length s)) (lexer_in pre s nl).
Proof.
  change ((bytes_left ≫= f) (lexer_in pre s nl)) with
    (f (S (Z.to_nat (Z.of_nat (length (pre ++ s)) - Z.of_nat (length pre)))) (lexer_in pre s nl)).
  do 2 f_equal. rewrite length_app. lia.
Qed.

Lemma run_peek n (f : Z -> LexM A) :
  (lx_peek_n (Z.of_nat n) ≫= f) (lexer_in pre s nl) =
    f (default EOF_CHAR (s !! n)) (lexer_in pre s nl).
Proof.
  unfold mbind, LexM_bind, lx_peek_n. cbn [lexer_in lx_pos lx_buf].
  rewrite <- Nat2Z.inj_add. destruct (Z.ltb_spec (Z.of_nat (length pre + n)) (Z.of_nat (length (pre ++ s)))) as [H|H].
  - unfold buf_get. rewrite (proj2 (Z.ltb_ge _ 0)) by lia. rewrite Nat2Z.id, lookup_app_r by lia.
    replace (length pre + n - length pre)%nat with n by lia. rewrite length_app in H.
    destruct (lookup_lt_is_Some_2 s n) as [c ->]; [lia|]. done.
  - rewrite length_app in H. by rewrite lookup_ge_None_2 by lia.
Qed.

(** A text is read. *)
Lemma run_advance w (f : unit -> LexM A) n : n = Z.of_nat (length w) ->
  (lx_advance_n n ≫= f) (lexer_in pre (w ++ s) nl) = f tt (lexer_in (pre ++ w) s nl).
Proof.
  intros ->. unfold mbind, LexM_bind, lx_advance_n. cbn [lexer_in lx_pos lx_buf].
  rewrite <- Nat2Z.inj_add, <- length_app, app_assoc.
  unfold lexer_in, lexer_at. cbn [lx_buf is_new_line_before_current in_strict_mode allow_hashbang_comment].
  rewrite <- app_assoc. destruct (Z.ltb_spec (Z.of_nat (length (pre ++ w))) (Z.of_nat (length (pre ++ w ++ s)))) as [H|H].
  - unfold buf_get. rewrite (proj2 (Z.ltb_ge _ 0)) by lia. rewrite Nat2Z.id, app_assoc, lookup_app_r by lia.
    rewrite Nat.sub_diag. destruct s; [rewrite app_nil_r in H; lia|]. done.
  - destruct s as [|c s']; [|rewrite !length_app in H; cbn in H; lia]. rewrite app_nil_r. done.
Qed.

Lemma run_advance_1 c (f : unit -> LexM A) :
  (lx_advance_n 1 ≫= f) (lexer_in pre (c :: s) nl) = f tt (lexer_in (pre ++ [c]) s nl).
Proof. by apply (run_advance [c]). Qed.

Lemma run_advance_2 c d (f : unit -> LexM A) :
  (lx_advance_n 2 ≫= f) (lexer_in pre (c :: d :: s) nl) = f tt (lexer_in (pre ++ [c; d]) s nl).
Proof. by apply (run_advance [c; d]). Qed.

Lemma run_slice w (f : list Z -> LexM A) start end_ :
  start = Z.of_nat (length pre) -> end_ = Z.of_nat (length (pre ++ w)) ->
  (slice_of start end_ ≫= f) (lexer_in (pre ++ w) s nl) = f w (lexer_in (pre ++ w) s nl).
Proof.
  intros -> ->. unfold mbind, LexM_bind, slice_of, buf_slice. cbn [lexer_in lx_buf].
  rewrite (proj2 (Z.leb_le 0 _)), !(proj2 (Z.leb_le _ _)) by (rewrite ?length_app; lia).
  cbn [andb]. rewrite Nat2Z.id, <- app_assoc, drop_app_length.
  rewrite length_app. replace (Z.to_nat _) with (length w) by lia. by rewrite take_app_length.
Qed.

Lemma run_emit token p (f : Token * Loc -> LexM A) :
  (emit_token token p ≫= f) (lexer_in pre s nl) =
    f (token, mkLoc p (Z.of_nat (length pre))) (lexer_in pre s nl).
Proof. done. Qed.

End Run.

Create Rewrite HintDb run.
#[export] Hint Rewrite @lex_bind_assoc @run_current @run_pos @run_set_new_line @run_bytes_left : run.
#[export] Hint Rewrite @run_advance_1 @run_advance_2 @run_emit @run_ret : run.
Ltac run := autorewrite with run; cbn beta iota.

(** ** The start of a token *)

Definition starts_token (c : Z) : Prop := ASCII_WHITESPACE_AND_NEWLINES !! Z.to_nat c = Some 0.

(** The text after a token: the end of the source or a space. *)
Definition delimited (rest : list Z) : Prop := rest = [] \/ exists rest', rest = 32 :: rest'.

Lemma delimited_current rest : delimited rest -> current_of rest = EOF_CHAR \/ current_of rest = 32.
Proof. intros [->|[rest' ->]]; [by left|by right]. Qed.

Section Start.

Context `{NumBigint} `{IcuData}.

Lemma run_next pre s nl token l' :
  next_round (lexer_in pre s false) = Done (Ok (Some token), l') ->
  next (lexer_in pre s nl) = Done (Ok token, l').
Proof.
  intros Hr. unfold next. run. cbn [next_loop]. unfold mbind at 1, LexM_bind at 1. by rewrite Hr.
Qed.

Lemma run_space pre c s nl : starts_token c ->
  next_round (lexer_in pre (32 :: c :: s) nl) =
  match punctuator c (current_of s) (default EOF_CHAR (s !! 1%nat)) (default EOF_CHAR (s !! 2%nat)) with
  | Some (token, length_) => return_token (fixed token length_ (Z.of_nat (length (pre ++ [32]))))
  | None => lex_at (Z.of_nat (length (pre ++ [32]))) c (current_of s)
  end (lexer_in (pre ++ [32]) (c :: s) nl).
Proof.
  intros Hc. unfold next_round. run. cbn [whitespace_loop length]. run.
  change (current_of (32 :: c :: s)) with 32.
  change (ASCII_WHITESPACE_AND_NEWLINES !! Z.to_nat 32) with (Some 1). cbn iota beta.
  change (1 =? 0) with false. change (1 =? 2) with false. cbn iota. run.
  change (current_of (c :: s)) with c. rewrite Hc. change (0 =? 0) with true. cbn iota.
  run.
  change (current_of (c :: s)) with c.
  rewrite (run_peek _ _ _ 1), (run_peek _ _ _ 2), (run_peek _ _ _ 3). cbn [lookup list_lookup].
  replace (default EOF_CHAR (s !! 0%nat)) with (current_of s) by by destruct s.
  done.
Qed.

(** ** Punctuation *)

Lemma punctuator_delimited token rest : is_punctuation token = true -> delimited rest ->
  exists c s, spelling token ++ rest = c :: s /\ starts_token c /\
    punctuator c (current_of s) (default EOF_CHAR (s !! 1%nat)) (default EOF_CHAR (s !! 2%nat)) =
      Some (token, Z.of_nat (length (spelling token))).
Proof.
  intros Ht Hr. destruct token; try done; destruct Hr as [->|[rest' ->]]; eexists _, _;
    (split; [reflexivity|]); (split; [vm_compute; reflexivity|reflexivity]).
Qed.

Lemma run_punctuation pre token rest nl : is_punctuation token = true -> delimited rest ->
  exists loc, next (lexer_in pre (32 :: spelling token ++ rest) nl) =
    Done (Ok (FixedToken token, loc), lexer_in (pre ++ 32 :: spelling token) rest false).
Proof.
  intros Ht Hr. destruct (punctuator_delimited token rest Ht Hr) as (c & s & Es & Hc & Ep).
  eexists. apply run_next. rewrite Es, run_space, Ep by done. rewrite <- Es.
  unfold return_token, fixed. run. rewrite run_advance by done. run. rewrite <- app_assoc. done.
Qed.

(** ** Identifiers *)

Definition identifier_name (name : list Z) : Prop :=
  exists c w, name = c :: w /\ is_id_start_ascii c = true /\ Forall (fun c => is_id_part_ascii c = true) w.

Lemma id_start_char c : is_id_start_ascii c = true -> starts_token c /\
  (65 <= c <= 90 \/ 97 <= c <= 122 \/ c = 95 \/ c = 36).
Proof.
  intros Hc. assert (0 <= c < 128) as Hr.
  { split; [|by apply id_ascii_range; right]. destruct (Z.ltb_spec c 0) as [Hneg|]; [|done].
    unfold is_id_start_ascii in Hc. by replace (Z.to_nat c) with 0%nat in Hc by lia. }
  pose proof Hc as Hcc. rewrite (proj1 (ascii_id_tables c Hr)) in Hcc.
  unfold is_ascii_alphabetic, between in Hcc. chars. split; [|lia].
  assert (Hall : forallb (fun c => implb (is_id_start_ascii c)
    (bool_decide (ASCII_WHITESPACE_AND_NEWLINES !! Z.to_nat c = Some 0))) (seqZ 0 128) = true)
    by (vm_compute; reflexivity).
  rewrite forallb_forall in Hall. specialize (Hall c). rewrite <- list_elem_of_In, elem_of_seqZ in Hall.
  specialize (Hall ltac:(lia)). rewrite Hc in Hall. by apply bool_decide_eq_true in Hall.
Qed.

(** A letter is not punctuation. *)
Lemma punctuator_letter c p1 p2 p3 : is_id_start_ascii c = true -> punctuator c p1 p2 p3 = None.
Proof.
  intros [_ Hc]%id_start_char. unfold punctuator. chars.
  repeat rewrite (proj2 (Z.eqb_neq c _)) by lia. done.
Qed.

Lemma lex_at_letter c p1 start : is_id_start_ascii c = true ->
  lex_at start c p1 = return_token (lex_identifier_ascii start).
Proof.
  intros Hid. pose proof (proj2 (id_start_char c Hid)) as Hc. unfold lex_at. rewrite Hid. unfold between. chars.
  repeat rewrite (proj2 (Z.eqb_neq c _)) by (unfold EOF_CHAR; lia).
  destruct (Z.leb_spec 49 c), (Z.leb_spec c 57); try lia; done.
Qed.

Lemma run_identifier_loop {A} pre rest nl (f : Wtf8String * bool -> LexM A) : delimited rest ->
  forall w v fuel, (length w < fuel)%nat -> Forall (fun c => is_id_part_ascii c = true) w ->
  (identifier_ascii_loop fuel (Z.of_nat (length pre)) ≫= f) (lexer_in (pre ++ v) (w ++ rest) nl) =
    f (v ++ w, true) (lexer_in (pre ++ v ++ w) rest nl).
Proof.
  intros Hr w. induction w as [|c w IH]; intros v fuel Hf Hw; (destruct fuel as [|fuel]; [cbn in Hf; lia|]);
    cbn [identifier_ascii_loop app].
  - rewrite !app_nil_r. run.
    assert (is_id_part_ascii (current_of rest) = false) as ->.
    { by destruct (delimited_current rest Hr) as [->| ->]. }
    destruct (delimited_current rest Hr) as [->| ->];
      [change (is_ascii EOF_CHAR) with false; change (EOF_CHAR =? EOF_CHAR) with true
      |change (is_ascii 32 && negb (32 =? ch "\")) with true]; cbn iota; cbn [andb]; run; by rewrite run_slice.
  - apply Forall_cons in Hw as [Hc Hw]. run. change (current_of (c :: w ++ rest)) with c. rewrite Hc. run.
    rewrite <- app_assoc, IH by (done || cbn in Hf; lia). rewrite <- !app_assoc. done.
Qed.

Lemma run_identifier pre c w rest nl v start : is_id_start_ascii c = true ->
  Forall (fun c => is_id_part_ascii c = true) w -> delimited rest -> start = Z.of_nat (length pre) ->
  exists loc, lex_identifier_ascii start (lexer_in (pre ++ v) (c :: w ++ rest) nl) =
    Done (Ok (match ascii_id_to_keyword (v ++ c :: w) with
              | Some token => FixedToken token
              | None => Identifier (v ++ c :: w)
              end, loc), lexer_in (pre ++ v ++ c :: w) rest nl).
Proof.
  intros Hc Hw Hr ->. unfold lex_identifier_ascii. run.
  rewrite <- app_assoc, run_identifier_loop by (done || rewrite length_app; lia).
  replace ((v ++ [c]) ++ w) with (v ++ c :: w) by by rewrite <- app_assoc.
  eexists. cbn iota. by destruct (ascii_id_to_keyword (v ++ c :: w)).
Qed.

Lemma run_name pre name rest nl : identifier_name name -> delimited rest ->
  exists loc, next (lexer_in pre (32 :: name ++ rest) nl) =
    Done (Ok (match ascii_id_to_keyword name with
              | Some token => FixedToken token
              | None => Identifier name
              end, loc), lexer_in (pre ++ 32 :: name) rest false).
Proof.
  intros (c & w & -> & Hc & Hw) Hr. cbn [app].
  destruct (run_identifier (pre ++ [32]) c w rest false [] _ Hc Hw Hr eq_refl) as [loc E].
  exists loc. apply run_next. rewrite run_space by apply id_start_char, Hc.
  rewrite punctuator_letter, lex_at_letter by done. unfold return_token, mbind, LexM_bind.
  rewrite app_nil_r in E. rewrite E. cbn [app]. by rewrite <- app_assoc.
Qed.

(** ** Private identifiers *)

Lemma private_not_keyword w : ascii_id_to_keyword (ch "#" :: w) = None.
Proof. destruct (ascii_id_to_keyword _) eqn:E; [|done]. by apply keyword_spelling in E as (_ & _ & ?). Qed.

Lemma run_private pre name rest nl : identifier_name name -> delimited rest ->
  exists loc, next (lexer_in pre (32 :: (ch "#" :: name) ++ rest) nl) =
    Done (Ok (PrivateIdentifier (ch "#" :: name), loc), lexer_in (pre ++ 32 :: ch "#" :: name) rest false).
Proof.
  intros (c & w & -> & Hc & Hw) Hr. cbn [app].
  destruct (run_identifier (pre ++ [32]) c w rest false [ch "#"] _ Hc Hw Hr eq_refl) as [loc E].
  cbn [app] in E. rewrite private_not_keyword in E.
  exists loc. apply run_next. rewrite run_space by done.
  change (punctuator (ch "#") _ _ _) with (@None (Fixed.t * Z)). cbn iota.
  set (start := Z.of_nat (length (pre ++ [32]))) in *.
  assert (lex_at start (ch "#") (current_of (c :: w ++ rest)) = (allow_hashbang ← hashbang_allowed;
    if (start =? 0) && (current_of (c :: w ++ rest) =? ch "!") && allow_hashbang
    then _ ← lx_advance_n 2; _ ← skip_line_comment; mret None
    else return_token (lex_private_identifier start))) as -> by reflexivity.
  rewrite (proj2 (Z.eqb_neq start 0)) by (subst start; rewrite length_app; cbn; lia). cbn [andb].
  match goal with |- (hashbang_allowed ≫= ?f) ?l = _ => change ((hashbang_allowed ≫= f) l) with (f true l) end.
  cbn beta iota. unfold return_token, lex_private_identifier. run.
  change (current_of (c :: w ++ rest)) with c. rewrite Hc.
  unfold mbind, LexM_bind. rewrite E. rewrite <- app_assoc. done.
Qed.

End Start.

(** ** Strings *)

Definition plain (c : Z) : bool :=
  (32 <=? c) && (c <? 127) && negb (c =? ch "'") && negb (c =? ch "\").
Definition print_char (c : Z) : list Z :=
  if plain c then [c] else [ch "\"; ch "u"; ch "{"] ++ hex_text 6 c ++ [ch "}"].
Definition print_chars (text : list Z) : list Z := text ≫= print_char.
Definition print_string (text : list Z) : list Z := ch "'" :: print_chars text ++ [ch "'"].

Lemma run_push {A} value c (f : Wtf8String -> LexM A) l : 0 <= c <= MAX_CODE_POINT ->
  (push_to value c ≫= f) l = f (value ++ encoded_bytes c) l.
Proof. intros Hc. unfold push_to. by rewrite push_encoded. Qed.

Lemma hex_digit_value d : 0 <= d < 16 -> get_hex_value (hex_digit d) = Some d.
Proof.
  intros Hd. unfold hex_digit, get_hex_value, between. chars.
  repeat case_match; try lia; f_equal; lia.
Qed.

Definition hex_value (digits : list Z) : Z :=
  foldl (fun v c => Z.shiftl v 4 + default 0 (get_hex_value c)) 0 digits.

Lemma hex_text_value fuel : forall n, 0 <= n < 16 ^ Z.of_nat fuel ->
  Forall (fun c => is_Some (get_hex_value c)) (hex_text fuel n) /\ hex_value (hex_text fuel n) = n /\
  (length (hex_text fuel n) <= fuel)%nat.
Proof.
  induction fuel as [|fuel IH]; intros n Hn; [by replace n with 0 by (cbn in Hn; lia)|].
  rewrite Nat2Z.inj_succ, Z.pow_succ_r in Hn by lia. cbn [hex_text]. unfold hex_value in *.
  assert (0 <= n mod 16 < 16) by (apply Z.mod_pos_bound; lia).
  assert (is_Some (get_hex_value (hex_digit (n mod 16)))) by (by rewrite hex_digit_value).
  destruct (Z.ltb_spec n 16).
  - rewrite Z.mod_small in H0 |- * by lia. cbn. rewrite hex_digit_value by lia. cbn.
    split_and!; [constructor; [done|constructor]|done|lia].
  - destruct (IH (n / 16)) as (Hd & Hv & Hl).
    { split; [apply Z.div_pos; lia|apply Z.div_lt_upper_bound; lia]. }
    rewrite foldl_app, length_app, Hv. cbn [foldl length]. rewrite hex_digit_value, Z.shiftl_mul_pow2 by lia.
    cbn [default from_option]. split_and!; [apply Forall_app; split; [done|constructor; [done|constructor]]| |lia].
    cbn [from_option id]. pose proof (Z.div_mod n 16). lia.
Qed.

Lemma run_braced {A} start rest nl (f : Z -> LexM A) digits : forall fuel pre value,
  Forall (fun c => is_Some (get_hex_value c)) digits -> (length digits <= fuel)%nat ->
  (braced_loop fuel start value ≫= f) (lexer_in pre (digits ++ ch "}" :: rest) nl) =
    f (foldl (fun v c => Z.shiftl v 4 + default 0 (get_hex_value c)) value digits)
      (lexer_in (pre ++ digits) (ch "}" :: rest) nl).
Proof.
  induction digits as [|c digits IH]; intros fuel pre value Hd Hf; cbn [app foldl].
  - rewrite app_nil_r. by destruct fuel as [|fuel]; cbn [braced_loop]; run.
  - apply Forall_cons in Hd as [[v Hv] Hd]. destruct fuel as [|fuel]; [cbn in Hf; lia|]. cbn [braced_loop]. run.
    change (current_of (c :: digits ++ ch "}" :: rest)) with c. rewrite Hv. run.
    rewrite IH by (done || cbn in Hf; lia). by rewrite <- app_assoc.
Qed.

Lemma run_eat {A} pre c s nl x (f : bool -> LexM A) :
  (lx_eat x ≫= f) (lexer_in pre (c :: s) nl) =
    if c =? ch x then f true (lexer_in (pre ++ [c]) s nl) else f false (lexer_in pre (c :: s) nl).
Proof.
  unfold lx_eat. run. change (current_of (c :: s)) with c. destruct (c =? ch x); run; done.
Qed.

Lemma run_escape {A} pre c rest nl start (f : Z -> LexM A) : 0 <= c <= MAX_CODE_POINT ->
  (lex_unicode_escape_sequence start ≫= f) (lexer_in pre (ch "{" :: hex_text 6 c ++ ch "}" :: rest) nl) =
    f c (lexer_in (pre ++ ch "{" :: hex_text 6 c ++ [ch "}"]) rest nl).
Proof.
  intros Hc. unfold MAX_CODE_POINT in Hc.
  destruct (hex_text_value 6 c) as (Hd & Hv & Hl); [cbn; lia|].
  unfold lex_unicode_escape_sequence. run. rewrite run_eat. change (ch "{" =? ch "{") with true. cbn iota.
  run. destruct (hex_text 6 c) as [|d digits] eqn:Eh.
  { cbn in Hv. subst c. done. }
  cbn [app]. rewrite run_eat.
  assert ((d =? ch "}") = false) as ->.
  { apply Forall_cons in Hd as [[v Hv'] _]. apply Z.eqb_neq. by intros ->. }
  change (d :: digits ++ ch "}" :: rest) with ((d :: digits) ++ ch "}" :: rest). run.
  rewrite run_braced by done. fold (hex_value (d :: digits)). rewrite Hv. run.
  change (current_of (ch "}" :: rest)) with (ch "}"). rewrite Z.eqb_refl. cbn [negb]. run.
  unfold is_in_unicode_range. rewrite (proj2 (Z.leb_le _ _)) by (unfold MAX_CODE_POINT; lia). run.
  by rewrite <- !app_assoc.
Qed.

(** The text of an escape, up to its braces. *)
Lemma print_char_escape c : plain c = false ->
  print_char c = ch "\" :: ch "u" :: ch "{" :: hex_text 6 c ++ [ch "}"].
Proof. unfold print_char. by intros ->. Qed.

Lemma run_string_escape {A} pre c rest nl value (f : Wtf8String -> LexM A) : 0 <= c <= MAX_CODE_POINT ->
  plain c = false ->
  (string_escape value ≫= f) (lexer_in pre (print_char c ++ rest) nl) =
    f (value ++ encoded_bytes c) (lexer_in (pre ++ print_char c) rest nl).
Proof.
  intros Hc Hp. rewrite print_char_escape by done. cbn [app]. rewrite <- app_assoc. cbn [app].
  unfold string_escape. run. rewrite (run_peek _ _ _ 1), lex_bind_assoc, (run_peek _ _ _ 2).
  cbn [lookup list_lookup default from_option id].
  change (single_escape (ch "u")) with (@None Z). cbn iota.
  change (ch "u" =? ch "0") with false. change (between "0" "7" (ch "u")) with false.
  change ((ch "u" =? ch "8") || (ch "u" =? ch "9")) with false. change (ch "u" =? ch "x") with false.
  change (ch "u" =? ch "u") with true. cbn [andb]. cbn iota. run.
  rewrite run_escape, run_push by done. rewrite <- app_assoc. done.
Qed.

Lemma plain_char c : plain c = true -> 32 <= c < 127 /\ c <> ch "'" /\ c <> ch "\".
Proof. unfold plain. chars. lia. Qed.

Lemma plain_bytes c : plain c = true -> encoded_bytes c = [c].
Proof.
  intros Hc%plain_char. unfold encoded_bytes, encode_utf8_codepoint.
  by rewrite (proj2 (Z.ltb_lt c 128)) by lia.
Qed.

Lemma run_plain {A} pre c s nl (f : Z -> LexM A) : plain c = true ->
  (lex_ascii_or_unicode_character ≫= f) (lexer_in pre (c :: s) nl) = f c (lexer_in (pre ++ [c]) s nl).
Proof.
  intros Hc%plain_char. unfold lex_ascii_or_unicode_character. run. change (current_of (c :: s)) with c.
  unfold is_ascii. rewrite (proj2 (Z.ltb_lt c 128)) by lia. by run.
Qed.

(** What the loops of a string literal test of a plain character. *)
Lemma plain_tests c : plain c = true -> (c =? ch "'") = false /\ (c =? ch "\") = false /\
  (c =? 0x0A) || (c =? 0x0D) || (c =? EOF_CHAR) = false.
Proof. intros Hc%plain_char. unfold EOF_CHAR. chars. lia. Qed.

Lemma run_string_slow {A} rest nl (f : Wtf8String -> LexM A) text : code_points_ok text ->
  forall fuel pre value, (length (print_chars text) < fuel)%nat ->
  (string_slow_loop fuel (ch "'") value ≫= f) (lexer_in pre (print_chars text ++ ch "'" :: rest) nl) =
    f (value ++ wtf8_bytes text) (lexer_in (pre ++ print_chars text ++ [ch "'"]) rest nl).
Proof.
  induction 1 as [|c text Hc Ht IH]; intros fuel pre value Hf; (destruct fuel as [|fuel]; [lia|]);
    cbn [string_slow_loop].
  - change (print_chars []) with (@nil Z). change (wtf8_bytes []) with (@nil Z). cbn [app].
    rewrite app_nil_r. run. change (current_of (ch "'" :: rest)) with (ch "'").
    change (ch "'" =? ch "\") with false. change (ch "'" =? ch "'") with true. cbn iota. by run.
  - change (print_chars (c :: text)) with (print_char c ++ print_chars text) in *. rewrite length_app in Hf.
    change (wtf8_bytes (c :: text)) with (encoded_bytes c ++ wtf8_bytes text). rewrite <- !app_assoc. run.
    destruct (plain c) eqn:Hp.
    + unfold print_char in *. rewrite Hp in *. cbn [app length] in *. run.
      change (current_of (c :: _)) with c. destruct (plain_tests c Hp) as (-> & -> & ->). run.
      rewrite run_plain by done. run. rewrite run_push by done.
      rewrite IH by lia. by rewrite <- !app_assoc.
    + rewrite print_char_escape in Hf by done. cbn [length app] in Hf.
      assert (current_of (print_char c ++ print_chars text ++ ch "'" :: rest) = ch "\") as ->.
      { by rewrite print_char_escape. }
      change (ch "\" =? ch "\") with true. cbn iota. run.
      rewrite run_string_escape by done. rewrite IH by lia. by rewrite <- !app_assoc.
Qed.

(** The fast path reads a plain prefix. *)
Lemma run_string_fast {A} (f : bool -> LexM A) text s nl ended : Forall (fun c => plain c = true) text ->
  (current_of s = ch "'" /\ ended = true \/ current_of s = ch "\" /\ ended = false) ->
  forall fuel pre, (length text < fuel)%nat ->
  (string_fast_loop fuel (ch "'") ≫= f) (lexer_in pre (text ++ s) nl) =
    f ended (lexer_in (pre ++ text) s nl).
Proof.
  intros Ht Hs. induction Ht as [|c text Hp Ht IH]; intros fuel pre Hf; (destruct fuel as [|fuel]; [lia|]);
    cbn [string_fast_loop app].
  - rewrite app_nil_r. run. destruct Hs as [[-> ->]|[-> ->]]; [by run|].
    change (ch "\" =? ch "'") with false. change (ch "\" =? ch "\") with true. by run.
  - run. change (current_of (c :: text ++ s)) with c. destruct (plain_tests c Hp) as (-> & -> & ->). run.
    rewrite run_plain by done. rewrite IH by (cbn in Hf; lia). by rewrite <- app_assoc.
Qed.

(** A text is a plain prefix and, if it is not plain, an escaped character and more. *)
Lemma plain_prefix text : exists p q, text = p ++ q /\ Forall (fun c => plain c = true) p /\
  match q with c :: _ => plain c = false | [] => True end.
Proof.
  induction text as [|c text (p & q & -> & Hp & Hq)]; [by exists [], []|].
  destruct (plain c) eqn:Hc; [by exists (c :: p), q; auto|by exists [], (c :: p ++ q)].
Qed.

Lemma plain_text p : Forall (fun c => plain c = true) p -> print_chars p = p /\ wtf8_bytes p = p.
Proof.
  induction 1 as [|c p Hc Hp [IH1 IH2]]; [done|].
  change (print_chars (c :: p)) with (print_char c ++ print_chars p).
  change (wtf8_bytes (c :: p)) with (encoded_bytes c ++ wtf8_bytes p).
  rewrite plain_bytes, IH1, IH2 by done. unfold print_char. by rewrite Hc.
Qed.

Lemma print_chars_app p q : print_chars (p ++ q) = print_chars p ++ print_chars q.
Proof. apply bind_app. Qed.
Lemma wtf8_bytes_app p q : wtf8_bytes (p ++ q) = wtf8_bytes p ++ wtf8_bytes q.
Proof. unfold wtf8_bytes. by rewrite fmap_app, join_app. Qed.

Lemma run_string_literal pre text rest nl : code_points_ok text ->
  exists loc, lex_string_literal (lexer_in pre (print_string text ++ rest) nl) =
    Done (Ok (StringLiteral (wtf8_bytes text), loc), lexer_in (pre ++ print_string text) rest nl).
Proof.
  intros Ht. destruct (plain_prefix text) as (p & q & -> & Hp & Hq).
  apply Forall_app in Ht as [_ Htq]. destruct (plain_text p Hp) as [Ep Eb].
  unfold print_string, lex_string_literal. rewrite print_chars_app, wtf8_bytes_app, Ep, Eb.
  cbn [app]. rewrite <- !app_assoc. cbn [app]. run.
  change (current_of (ch "'" :: p ++ print_chars q ++ ch "'" :: rest)) with (ch "'").
  destruct q as [|c q].
  - change (print_chars []) with (@nil Z). change (wtf8_bytes []) with (@nil Z). cbn [app]. rewrite app_nil_r.
    rewrite (run_string_fast _ p _ _ true); [|done|by left|rewrite !length_app; lia].
    run. rewrite run_slice by done. run. rewrite <- !app_assoc. by eexists.
  - rewrite (run_string_fast _ p _ _ false); [|done|right; split; [|done]|rewrite !length_app; lia].
    2: { change (print_chars (c :: q)) with (print_char c ++ print_chars q). by rewrite print_char_escape. }
    run. rewrite run_slice by done. run. rewrite run_string_slow by (done || rewrite length_app; lia). run.
    rewrite <- !app_assoc. by eexists.
Qed.

Lemma run_string `{NumBigint} `{IcuData} pre text rest nl : code_points_ok text ->
  exists loc, next (lexer_in pre (32 :: print_string text ++ rest) nl) =
    Done (Ok (StringLiteral (wtf8_bytes text), loc), lexer_in (pre ++ 32 :: print_string text) rest false).
Proof.
  intros Ht. destruct (run_string_literal (pre ++ [32]) text rest false Ht) as [loc E].
  exists loc. apply run_next. unfold print_string in *. cbn [app]. rewrite run_space by done.
  change (punctuator (ch "'") _ _ _) with (@None (Fixed.t * Z)). cbn iota.
  change (lex_at ?p (ch "'") ?c) with (return_token lex_string_literal).
  unfold return_token, mbind, LexM_bind. cbn [app] in E. rewrite E. by rewrite <- app_assoc.
Qed.

(** ** Printed tokens *)

(** The texts of tokens: fixed tokens, names of ASCII characters, and strings whose
    characters are escaped unless they are plain. *)
Inductive printed : Token -> list Z -> Prop :=
| printed_fixed token : token <> Fixed.Eof -> printed (FixedToken token) (spelling token)
| printed_identifier name : identifier_name name -> ascii_id_to_keyword name = None ->
    printed (Identifier name) name
| printed_private name : identifier_name name ->
    printed (PrivateIdentifier (ch "#" :: name)) (ch "#" :: name)
| printed_string text : code_points_ok text ->
    printed (StringLiteral (wtf8_bytes text)) (print_string text).

Definition print_all (texts : list (list Z)) : list Z := texts ≫= fun text => 32 :: text.

Lemma fixed_token_kind token : token <> Fixed.Eof ->
  is_punctuation token = true \/
  identifier_name (spelling token) /\ ascii_id_to_keyword (spelling token) = Some token.
Proof.
  assert (Hname : forall c w, is_id_start_ascii c = true -> forallb is_id_part_ascii w = true ->
    identifier_name (c :: w)).
  { intros c w Hc Hw. exists c, w. split_and!; [done|done|]. apply Forall_forall. intros d Hd.
    rewrite forallb_forall in Hw. by apply Hw, list_elem_of_In. }
  intros Hne. destruct token; try done; first [left; reflexivity|right; split; [|vm_compute; reflexivity]];
    apply Hname; vm_compute; reflexivity.
Qed.

Section Roundtrip.

Context `{NumBigint} `{IcuData}.

Lemma run_printed pre token text rest nl : printed token text -> delimited rest ->
  exists loc, next (lexer_in pre (32 :: text ++ rest) nl) =
    Done (Ok (token, loc), lexer_in (pre ++ 32 :: text) rest false).
Proof.
  intros Hp Hr. destruct Hp as [token Hne|name Hn Hk|name Hn|text Ht].
  - destruct (fixed_token_kind token Hne) as [Ht|[Hn Hk]]; [by apply run_punctuation|].
    destruct (run_name pre (spelling token) rest nl Hn Hr) as [loc E]. rewrite Hk in E. eauto.
  - destruct (run_name pre name rest nl Hn Hr) as [loc E]. rewrite Hk in E. eauto.
  - by apply run_private.
  - by apply run_string.
Qed.

Lemma printed_not_eof token text : printed token text -> token <> FixedToken Fixed.Eof.
Proof. destruct 1; congruence. Qed.

Lemma print_all_delimited texts : delimited (print_all texts).
Proof. destruct texts as [|text texts]; [by left|right]. by eexists. Qed.

Lemma tokenize_printed tokens texts : Forall2 printed tokens texts -> forall pre nl,
  exists located_tokens l', tokenize (S (length tokens)) (lexer_in pre (print_all texts) nl) =
    Done (Ok located_tokens, l') /\ map fst located_tokens = tokens ++ [FixedToken Fixed.Eof].
Proof.
  induction 1 as [|token text tokens texts Hp _ IH]; intros pre nl.
  - exists [(FixedToken Fixed.Eof, mkLoc (Z.of_nat (length pre)) (Z.of_nat (length pre)))], (lexer_in pre [] false).
    split; [|done]. cbn [length tokenize print_all mbind list_bind].
    assert (next (lexer_in pre [] nl) = Done (Ok (FixedToken Fixed.Eof,
      mkLoc (Z.of_nat (length pre)) (Z.of_nat (length pre))), lexer_in pre [] false)) as E.
    { apply run_next. unfold next_round. run. cbn [whitespace_loop length]. run.
      change (current_of []) with EOF_CHAR. rewrite (lookup_ge_None_2 ASCII_WHITESPACE_AND_NEWLINES).
      2: { change (length ASCII_WHITESPACE_AND_NEWLINES) with 128%nat. unfold EOF_CHAR. lia. }
      run. rewrite (run_peek _ _ _ 1), (run_peek _ _ _ 2), (run_peek _ _ _ 3). done. }
    unfold mbind, LexM_bind. by rewrite E.
  - change (print_all (text :: texts)) with ((32 :: text) ++ print_all texts). cbn [length app].
    destruct (run_printed pre token text (print_all texts) nl Hp (print_all_delimited texts)) as [loc E].
    destruct (IH (pre ++ 32 :: text) false) as (ts & l' & Et & Em).
    exists ((token, loc) :: ts), l'. split; [|cbn; by rewrite Em].
    apply printed_not_eof in Hp. change (tokenize (S (S (length tokens)))) with
      ('(token, loc) ← next;
       match token with
       | FixedToken Fixed.Eof => mret [(token, loc)]
       | _ => rest ← tokenize (S (length tokens)); mret ((token, loc) :: rest)
       end). unfold mbind at 1, LexM_bind at 1. rewrite E.
    destruct token as [| | | | | | |[]]; try done; unfold mbind at 1, LexM_bind at 1; by rewrite Et.
Qed.

(** C36: Lexing inverts printing: a source that spells tokens, each after a space, is
    lexed to these tokens and the end of the source.  Tokens are all operators,
    punctuation and keywords, identifiers and private names of ASCII characters,
    and strings of any code points, printed with escapes. *)
Theorem printed_tokens_lex_back tokens texts : Forall2 printed tokens texts ->
  exists located_tokens l', tokenize (S (length tokens)) (Lexer_new (print_all texts)) =
    Done (Ok located_tokens, l') /\ map fst located_tokens = tokens ++ [FixedToken Fixed.Eof].
Proof. intros Hp. exact (tokenize_printed tokens texts Hp [] false). Qed.

End Roundtrip.

(** The tokens of [let x = 'é';], a private name and an operator. *)
Lemma printed_tokens_lex_back_witness :
  exists located_tokens l', tokenize (H := ExactBigint.num_bigint) (H0 := AsciiData.icu) 6
    (Lexer_new (print_all [spelling Fixed.Let; [ch "x"]; spelling Fixed.Equals; print_string [0xE9];
                           [ch "#"; ch "y"]])) =
    Done (Ok located_tokens, l') /\
  map fst located_tokens = [FixedToken Fixed.Let; Identifier [ch "x"]; FixedToken Fixed.Equals;
    StringLiteral (wtf8_bytes [0xE9]); PrivateIdentifier [ch "#"; ch "y"]] ++ [FixedToken Fixed.Eof].
Proof.
  assert (Hname : forall c, is_id_start_ascii c = true -> identifier_name [c]).
  { intros c Hc. exists c, []. by split_and!. }
  refine (printed_tokens_lex_back (H := ExactBigint.num_bigint) (H0 := AsciiData.icu)
    [FixedToken Fixed.Let; Identifier [ch "x"]; FixedToken Fixed.Equals; StringLiteral (wtf8_bytes [0xE9]);
     PrivateIdentifier [ch "#"; ch "y"]]
    [spelling Fixed.Let; [ch "x"]; spelling Fixed.Equals; print_string [0xE9]; [ch "#"; ch "y"]] _).
  constructor; [by constructor|].
  constructor; [constructor; [by apply Hname|vm_compute; reflexivity]|].
  constructor; [by constructor|].
  constructor; [constructor; constructor; [unfold MAX_CODE_POINT; lia|constructor]|].
  constructor; [constructor; by apply Hname|constructor].
Defined.
