(* ===== verification/StringNumber.v ===== *)
(** Parsing strings as numbers: the numeric parsers of
    [src/so2js/runtime/string_parsing.rs].

    The loops of the source look only at the current code unit, so they recur over the units that
    follow it.  A parser that reads the text again between two pointers gets the units of the string
    and whether they are bytes; [f64::from_str] is modelled with the lexer, and num-bigint is the
    class [NumBigint]. *)

From Stdlib Require Import Ascii String.
From S2P Require Import Prelude Float64 Unicode LexerStream UnicodeProperty Characters Lexer StringLexer.

#[local] Open Scope bool_scope.

(** ** Loops *)

(** [while] the current unit is accepted by [f], take it and advance. *)
Fixpoint consume_units {S} (f : S -> Z -> option S) (st : S) (units : list Z) (ptr prev : Z) (cur : option Z)
    : S * StringLexer :=
  match cur with
  | None => (st, mkStringLexer units ptr prev cur)
  | Some unit =>
      match f st unit with
      | None => (st, mkStringLexer units ptr prev cur)
      | Some st' =>
          match units with
          | [] => (st', mkStringLexer [] ptr ptr None)
          | unit' :: rest => consume_units f st' rest (ptr + 1) ptr (Some unit')
          end
      end
  end.

Definition consume {S} (f : S -> Z -> option S) (st : S) (lexer : StringLexer) : S * StringLexer :=
  consume_units f st (iter lexer) (iter_ptr lexer) (prev_ptr lexer) (current lexer).

(** ** Classes of code units *)

Definition is_ascii_whitespace (code_point : Z) : bool :=
  (code_point =? ch " ") || (code_point =? 9) || (code_point =? 0x0B) || (code_point =? 0x0C).

Definition is_whitespace_or_newline (unit : Z) : bool :=
  if unit <? 0x80 then is_ascii_whitespace unit || is_ascii_newline unit
  else is_unicode_whitespace unit || is_unicode_newline unit.

Definition is_digit_unit (unit : Z) : bool := between "0" "9" unit.
Definition decimal_unit (unit : Z) : option Z := if is_digit_unit unit then Some (unit - ch "0") else None.
Definition binary_unit (unit : Z) : option Z :=
  if unit =? ch "0" then Some 0 else if unit =? ch "1" then Some 1 else None.
Definition octal_unit (unit : Z) : option Z := if between "0" "7" unit then Some (unit - ch "0") else None.
Definition hex_unit (unit : Z) : option Z :=
  if between "0" "9" unit then Some (unit - ch "0")
  else if between "a" "f" unit then Some (unit - ch "a" + 10)
  else if between "A" "F" unit then Some (unit - ch "A" + 10)
  else None.

Definition skip_string_whitespace (lexer : StringLexer) : StringLexer :=
  snd (consume (fun _ unit => if is_whitespace_or_newline unit then Some tt else None) tt lexer).

Definition skip_decimal_digits (lexer : StringLexer) : bool * StringLexer :=
  consume (fun _ unit => if is_digit_unit unit then Some true else None) false lexer.

(** ** Text between pointers *)

Definition units_between (string : list Z) (start_ptr end_ptr : Z) : list Z :=
  take (Z.to_nat (end_ptr - start_ptr)) (drop (Z.to_nat start_ptr) string).

(** [code_unit as u8] when the string has two-byte units. *)
Definition byte_units (one_byte : bool) (units : list Z) : list Z :=
  if one_byte then units else map (fun unit => unit mod 256) units.

Definition parse_between_ptrs_to_f64 (one_byte : bool) (string : list Z) (start_ptr end_ptr : Z) : outcome f64 :=
  unwrap (f64_from_str (byte_units one_byte (units_between string start_ptr end_ptr))).

Section Numbers.

Context `{NumBigint}.

Definition parse_between_ptrs_to_f64_overflowing (one_byte : bool) (string : list Z) (base start_ptr end_ptr : Z)
    : outcome f64 :=
  n ← unwrap (parse_bytes (byte_units one_byte (units_between string start_ptr end_ptr)) base);
  unwrap (bigint_to_f64 n).

(** ** Literals *)

Definition u64_max : Z := 2 ^ 64 - 1.

(** Value, whether there was a digit, whether the value overflowed. *)
Definition base_digit (base : Z) (digit_fn : Z -> option Z) (st : Z * bool * bool) (unit : Z)
    : option (Z * bool * bool) :=
  let '(value, has_digit, overflows_u64) := st in
  match digit_fn unit with
  | None => None
  | Some digit =>
      let '(value, overflows_u64) :=
        if value * base <=? u64_max then (value * base, overflows_u64) else (value, true) in
      let '(value, overflows_u64) :=
        if value + digit <=? u64_max then (value + digit, overflows_u64) else (value, true) in
      Some (value, true, overflows_u64)
  end.

Definition non_decimal_literal_with_base (one_byte : bool) (string : list Z) (base : Z) (digit_fn : Z -> option Z)
    (lexer : StringLexer) : outcome (option (f64 * StringLexer)) :=
  let lexer := advance (advance lexer) in
  let start_ptr := current_ptr lexer in
  let '(value, has_digit, overflows_u64, lexer) := consume (base_digit base digit_fn) (0, false, false) lexer in
  if negb has_digit then Done None
  else if overflows_u64 : bool then
    let end_ptr := current_ptr lexer in
    number ← parse_between_ptrs_to_f64_overflowing one_byte string base start_ptr end_ptr;
    Done (Some (number, lexer))
  else Done (Some (f64_of_int value, lexer)).

(** The pointer after the literal. *)
Definition parse_unsigned_decimal_literal (lexer : StringLexer) : option (Z * StringLexer) :=
  let '(has_digits_before_dot, lexer) := skip_decimal_digits lexer in
  let dotted :=
    if current_equals "." lexer then
      let lexer := advance lexer in
      let '(has_digits_after_dot, lexer) := skip_decimal_digits lexer in
      if negb has_digits_before_dot && negb has_digits_after_dot then None else Some lexer
    else if negb has_digits_before_dot then None else Some lexer in
  match dotted with
  | None => None
  | Some lexer =>
      let end_before_exponent := current_ptr lexer in
      let exponent_follows :=
        match peek_ascii_char lexer with
        | Some c => (c =? ch "+") || (c =? ch "-") || between "0" "9" c
        | None => false
        end in
      if (current_equals "e" lexer || current_equals "E" lexer) && exponent_follows then
        let lexer := advance lexer in
        let lexer := if current_equals "-" lexer || current_equals "+" lexer then advance lexer else lexer in
        let '(has_digits_in_exponent, lexer) := skip_decimal_digits lexer in
        if negb has_digits_in_exponent then Some (end_before_exponent, lexer)
        else Some (current_ptr lexer, lexer)
      else Some (current_ptr lexer, lexer)
  end.

(** The rest of [Infinity]. *)
Definition nfinity : LX unit :=
  _ ← expect "n"; _ ← expect "f"; _ ← expect "i"; _ ← expect "n"; _ ← expect "i"; _ ← expect "t"; expect "y".

Definition signed_infinity (is_negative : bool) : f64 := if is_negative then F64_NEG_INFINITY else F64_INFINITY.
Definition signed_number (is_negative : bool) (number : f64) : f64 := if is_negative then f64_neg number else number.

(** A literal in another base, up to the end of the string. *)
Definition based_number (one_byte : bool) (string : list Z) (base : Z) (digit_fn : Z -> option Z) (lexer : StringLexer)
    : outcome (option f64) :=
  value ← non_decimal_literal_with_base one_byte string base digit_fn lexer;
  match value with
  | None => Done None
  | Some (value, lexer) =>
      let lexer := skip_string_whitespace lexer in
      if negb (is_end lexer) then Done None else Done (Some value)
  end.

(** The sign, and the rest of a decimal number. *)
Definition decimal_number (one_byte : bool) (string : list Z) (lexer : StringLexer) : outcome (option f64) :=
  let '(is_negative, lexer) :=
    if current_equals "-" lexer then (true, advance lexer)
    else if current_equals "+" lexer then (false, advance lexer) else (false, lexer) in
  if current_equals "I" lexer then
    match nfinity (advance lexer) with
    | None => Done None
    | Some (_, lexer) =>
        let lexer := skip_string_whitespace lexer in
        if negb (is_end lexer) then Done None else Done (Some (signed_infinity is_negative))
    end
  else
    let parse_float_start_ptr := current_ptr lexer in
    match parse_unsigned_decimal_literal lexer with
    | None => Done None
    | Some (parse_float_end_ptr, lexer) =>
        if negb (parse_float_end_ptr =? current_ptr lexer) then Done None
        else
          let lexer := skip_string_whitespace lexer in
          if negb (is_end lexer) then Done None
          else
            number ← parse_between_ptrs_to_f64 one_byte string parse_float_start_ptr parse_float_end_ptr;
            Done (Some (signed_number is_negative number))
    end.

Definition parse_string_to_number (one_byte : bool) (string : list Z) : outcome (option f64) :=
  let lexer := skip_string_whitespace (StringLexer_new string) in
  if is_end lexer then Done (Some (f64_of_int 0))
  else
    let prefix := if current_equals "0" lexer then peek_ascii_char lexer else None in
    match prefix with
    | Some c =>
        if one_of "xX" c then based_number one_byte string 16 hex_unit lexer
        else if one_of "oO" c then based_number one_byte string 8 octal_unit lexer
        else if one_of "bB" c then based_number one_byte string 2 binary_unit lexer
        else decimal_number one_byte string lexer
    | None => decimal_number one_byte string lexer
    end.

(** [parseFloat]: the longest decimal literal at the start of the text. *)
Definition parse_signed_decimal_literal (one_byte : bool) (string : list Z) (lexer : StringLexer) : outcome (option f64) :=
  let '(is_negative, lexer) :=
    if current_equals "-" lexer then (true, advance lexer)
    else if current_equals "+" lexer then (false, advance lexer) else (false, lexer) in
  if current_equals "I" lexer then
    match nfinity (advance lexer) with
    | None => Done None
    | Some _ => Done (Some (signed_infinity is_negative))
    end
  else
    let start_ptr := current_ptr lexer in
    match parse_unsigned_decimal_literal lexer with
    | None => Done None
    | Some (end_ptr, _) =>
        number ← parse_between_ptrs_to_f64 one_byte string start_ptr end_ptr;
        Done (Some (signed_number is_negative number))
    end.

End Numbers.

(** ** BigInts and array indices *)

Definition bigint_digit (base : Z) (digit_fn : Z -> option Z) (st : Z * bool) (unit : Z) : option (Z * bool) :=
  digit ← digit_fn unit;
  Some (fst st * base + digit, true).

Definition bigint_literal_with_base (base : Z) (digit_fn : Z -> option Z) (lexer : StringLexer)
    : option (Z * StringLexer) :=
  let '(value, has_digit, lexer) := consume (bigint_digit base digit_fn) (0, false) lexer in
  if negb has_digit then None else Some (value, lexer).

(** A literal up to the end of the string. *)
Definition whole_bigint (base : Z) (digit_fn : Z -> option Z) (lexer : StringLexer) : option Z :=
  match bigint_literal_with_base base digit_fn lexer with
  | None => None
  | Some (value, lexer) =>
      let lexer := skip_string_whitespace lexer in
      if negb (is_end lexer) then None else Some value
  end.

Definition signed_bigint (lexer : StringLexer) : option Z :=
  let '(is_negative, lexer) :=
    if current_equals "-" lexer then (true, advance lexer)
    else if current_equals "+" lexer then (false, advance lexer) else (false, lexer) in
  value ← whole_bigint 10 decimal_unit lexer;
  Some (if is_negative : bool then - value else value).

Definition parse_string_to_bigint (string : list Z) : option Z :=
  let lexer := skip_string_whitespace (StringLexer_new string) in
  if is_end lexer then Some 0
  else
    let prefix := if current_equals "0" lexer then peek_ascii_char lexer else None in
    match prefix with
    | Some c =>
        if one_of "xX" c then whole_bigint 16 hex_unit (advance (advance lexer))
        else if one_of "oO" c then whole_bigint 8 octal_unit (advance (advance lexer))
        else if one_of "bB" c then whole_bigint 2 binary_unit (advance (advance lexer))
        else signed_bigint lexer
    | None => signed_bigint lexer
    end.

Definition checked_u32 (n : Z) : option Z := if n <=? u32_max then Some n else None.

Fixpoint u32_digits (result : Z) (units : list Z) : option Z :=
  match units with
  | [] => Some result
  | unit :: rest =>
      digit ← decimal_unit unit;
      result ← checked_u32 (result * 10);
      result ← checked_u32 (result + digit);
      u32_digits result rest
  end.

(** The units from the current one. *)
Definition remaining (lexer : StringLexer) : list Z :=
  match current lexer with Some unit => unit :: iter lexer | None => [] end.

Definition parse_string_to_u32 (string : list Z) : option Z :=
  let lexer := StringLexer_new string in
  match current_decimal_value lexer with
  | Some digit =>
      let lexer := advance lexer in
      if (digit =? 0) && negb (is_end lexer) then None
      else u32_digits digit (remaining lexer)
  | None => None
  end.
