(* ===== verification/StringNumberCorrect.v ===== *)
(** Strings are parsed as ECMA-262's StringNumericLiteral says. *)

From Stdlib Require Import Ascii String.
From S2P Require Import Prelude Float64 Unicode Wtf8 LexerStream UnicodeProperty Token ParseStream.
From S2P Require Import Characters Lexer LexerLogic LexerCorrect StringLexer StringNumber.

#[local] Open Scope bool_scope.

(** ** Spans of units *)

Definition all_of (P : Z -> bool) (s : list Z) : Prop := Forall (fun c => P c = true) s.
Definition stops (P : Z -> bool) (s : list Z) : Prop := match s with c :: _ => P c = false | [] => True end.

Lemma span_exists (P : Z -> bool) s : exists t r, s = t ++ r /\ all_of P t /\ stops P r.
Proof.
  induction s as [|c s (t & r & -> & Ht & Hr)]; [by exists [], []; repeat split; constructor|].
  destruct (P c) eqn:E; [exists (c :: t), r|exists [], (c :: t ++ r)];
    split_and!; try done; by constructor.
Qed.

(** A loop at a text. *)
Lemma consume_nil {S} (f : S -> Z -> option S) st p : consume f st (lexer_at p []) = (st, lexer_at p []).
Proof. done. Qed.

Lemma consume_stop {S} (f : S -> Z -> option S) st p c s : f st c = None ->
  consume f st (lexer_at p (c :: s)) = (st, lexer_at p (c :: s)).
Proof. intros E. unfold consume. cbn. destruct s; cbn; by rewrite E. Qed.

Lemma consume_step {S} (f : S -> Z -> option S) st st' p c s : f st c = Some st' ->
  consume f st (lexer_at p (c :: s)) = consume f st' (lexer_at (p + 1) s).
Proof. intros E. unfold consume. cbn. destruct s; cbn; by rewrite E. Qed.

Lemma skip_whitespace_at p t r : all_of is_whitespace_or_newline t -> stops is_whitespace_or_newline r ->
  skip_string_whitespace (lexer_at p (t ++ r)) = lexer_at (p + Z.of_nat (length t)) r.
Proof.
  intros Ht Hr. unfold skip_string_whitespace. revert p. induction Ht as [|c t Hc Ht IH]; intros p; cbn [app length].
  - rewrite Z.add_0_r. destruct r as [|c r]; [done|]. rewrite consume_stop; [done|]. cbn in Hr. by rewrite Hr.
  - erewrite consume_step by (by rewrite Hc). rewrite IH. f_equal. lia.
Qed.

Lemma skip_digits_at p t r : all_of is_digit_unit t -> stops is_digit_unit r ->
  skip_decimal_digits (lexer_at p (t ++ r)) = (negb (bool_decide (t = [])), lexer_at (p + Z.of_nat (length t)) r).
Proof.
  intros Ht Hr. unfold skip_decimal_digits.
  assert (H : forall st p, consume (fun _ unit => if is_digit_unit unit then Some true else None) st (lexer_at p (t ++ r))
    = (st || negb (bool_decide (t = [])), lexer_at (p + Z.of_nat (length t)) r)); [|by rewrite H].
  clear p. induction Ht as [|c t Hc Ht IH]; intros st p; cbn [app length].
  - rewrite Z.add_0_r, orb_false_r. destruct r as [|c r]; [done|]. rewrite consume_stop; [done|]. cbn in Hr. by rewrite Hr.
  - erewrite consume_step by (by rewrite Hc). rewrite IH. f_equal; [by destruct st|f_equal; lia].
Qed.

Lemma current_ptr_at p s : current_ptr (lexer_at p s) = p.
Proof. by destruct s. Qed.

Lemma is_end_at p s : is_end (lexer_at p s) = bool_decide (s = []).
Proof. by destruct s. Qed.

Lemma peek_at p c s : peek_ascii_char (lexer_at p (c :: s)) =
  match s with d :: _ => if d <? 0x80 then Some d else None | [] => None end.
Proof. by destruct s. Qed.

(** ** Digits of a base *)

Definition is_base (base : Z) (digit_fn : Z -> option Z) : Prop :=
  (base = 16 /\ digit_fn = hex_unit) \/ (base = 8 /\ digit_fn = octal_unit) \/ (base = 2 /\ digit_fn = binary_unit).

Lemma is_base_digits base digit_fn : is_base base digit_fn ->
  2 <= base <= 16 /\ forall c, digit_fn c = digit_below base c.
Proof.
  intros [[-> ->]|[[-> ->]|[-> ->]]]; (split; [lia|]); intros c;
    unfold hex_unit, octal_unit, binary_unit, digit_below, get_hex_value, between; chars;
    repeat case_match; cbn; repeat case_match; try done; try lia; f_equal; lia.
Qed.

Lemma unit_digit_range base c d : digit_below base c = Some d -> 0 <= d < base /\ 0 <= c < 128.
Proof.
  unfold digit_below, get_hex_value, between. chars. intros E. repeat case_match; cbn in E; repeat case_match; simplify_eq; lia.
Qed.

Definition base_digits (base : Z) (s : list Z) : Prop := Forall (fun c => is_Some (digit_below base c)) s.

(** The loop computes the value, or notices that it does not fit. *)
Lemma base_loop base digit_fn t r : is_base base digit_fn -> base_digits base t -> stops (fun c => bool_decide (is_Some (digit_below base c))) r ->
  forall v h (o : bool) p, 0 <= v -> (o = false -> v <= u64_max) ->
  exists v' (o' : bool),
    consume (base_digit base digit_fn) (v, h, o) (lexer_at p (t ++ r)) =
      (v', h || negb (bool_decide (t = [])), o', lexer_at (p + Z.of_nat (length t)) r) /\
    (o' = false -> o = false /\ v' = foldl (based_digit base) v t).
Proof.
  intros Hbase Ht Hr. destruct (is_base_digits _ _ Hbase) as [Hb Hfn].
  induction Ht as [|c t [d Hd] Ht IH]; intros v h o p Hv Ho; cbn [app length].
  - exists v, o. split; [|done]. rewrite Z.add_0_r, orb_false_r. destruct r as [|c r]; [done|].
    rewrite consume_stop; [done|]. cbn in Hr. unfold base_digit. rewrite Hfn.
    apply bool_decide_eq_false_1 in Hr. by rewrite <- eq_None_not_Some in Hr; rewrite Hr.
  - destruct (unit_digit_range _ _ _ Hd) as [Hd' _].
    assert (E : exists v1 (o1 : bool), base_digit base digit_fn (v, h, o) c = Some (v1, true, o1) /\ 0 <= v1 /\
      (o1 = false -> o = false /\ v1 = v * base + d /\ v1 <= u64_max)).
    { unfold base_digit. rewrite Hfn, Hd. unfold u64_max in *.
      destruct (Z.leb_spec (v * base) (2 ^ 64 - 1)); [destruct (Z.leb_spec (v * base + d) (2 ^ 64 - 1))
        |destruct (Z.leb_spec (v + d) (2 ^ 64 - 1))]; eexists _, _; (split; [reflexivity|]); split; try nia; naive_solver. }
    destruct E as (v1 & o1 & E & Hv1 & Ho1). rewrite (consume_step _ _ _ _ _ _ E).
    destruct (IH v1 true o1 (p + 1) Hv1) as (v' & o' & -> & Hval); [naive_solver|].
    exists v', o'. split.
    + f_equal; [|f_equal; lia]. f_equal. f_equal. by destruct h.
    + intros Ho'. destruct (Hval Ho') as [Ho1' ->]. destruct (Ho1 Ho1') as (Hof & -> & _). split; [done|].
      cbn [foldl]. f_equal. unfold based_digit. by rewrite Hd.
Qed.

(** ** Text between pointers *)

Definition ascii (s : list Z) : Prop := Forall (fun c => 0 <= c < 128) s.

Lemma byte_units_ascii one_byte s : ascii s -> byte_units one_byte s = s.
Proof.
  intros Hs. destruct one_byte; [done|]. cbn. induction Hs as [|c s Hc Hs IH]; [done|].
  cbn. rewrite IH, Z.mod_small by lia. done.
Qed.

Lemma units_between_at a t r :
  units_between (a ++ t ++ r) (Z.of_nat (length a)) (Z.of_nat (length a) + Z.of_nat (length t)) = t.
Proof.
  unfold units_between. rewrite Nat2Z.id, drop_app_length.
  replace (Z.to_nat _) with (length t) by lia. apply take_app_length.
Qed.

Lemma base_digits_ascii base s : base_digits base s -> ascii s.
Proof.
  intros Hs. eapply Forall_impl; [exact Hs|]. intros c [d Hd]. by destruct (unit_digit_range _ _ _ Hd).
Qed.

(** ** Decimal literals *)

(** The text of an unsigned decimal literal and its value. *)
Inductive decimal_text : list Z -> f64 -> Prop :=
| decimal_text_intro integer (dot : bool) fraction ex x :
    all_digits integer -> all_digits fraction -> (dot = false -> fraction = []) -> integer ++ fraction <> [] ->
    exponent_text ex x ->
    decimal_text (integer ++ (if dot then [ch "."] else []) ++ fraction ++ ex)
      (f64_of_decimal (decimal_value (integer ++ fraction)) (x - Z.of_nat (length fraction))).

Lemma decimal_text_value t v : decimal_text t v -> f64_from_str t = Some v.
Proof. intros []. by apply f64_from_str_value. Qed.

Lemma digits_ascii s : all_digits s -> ascii s.
Proof.
  intros Hs. eapply Forall_impl; [exact Hs|]. intros c Hc. unfold is_decimal_digit, between in Hc. chars. lia.
Qed.

Lemma decimal_text_ascii t v : decimal_text t v -> ascii t.
Proof.
  intros [integer dot fraction ex x Hi Hf _ _ Hx]. unfold ascii. rewrite !Forall_app. split_and!.
  - by apply digits_ascii.
  - destruct dot; repeat constructor; chars; lia.
  - by apply digits_ascii.
  - destruct Hx as [|e sign digits He Hs Hd _]; [constructor|]. constructor.
    { unfold one_of in He. cbn in He. chars. lia. }
    apply Forall_app. split; [|by apply digits_ascii].
    destruct Hs as [->|[->| ->]]; repeat constructor; chars; lia.
Qed.

(** A text that cannot continue a decimal literal. *)
Definition after_literal (s : list Z) : Prop :=
  match s with c :: _ => is_digit_unit c = false /\ (c =? ch ".") = false /\ one_of "eE" c = false | [] => True end.

Lemma after_literal_stops s : after_literal s -> stops is_digit_unit s.
Proof. destruct s; cbn; tauto. Qed.

Lemma current_equals_nil c p : current_equals c (lexer_at p []) = false.
Proof. done. Qed.

(** The exponent, after the digits. *)
Definition exponent_part (lexer : StringLexer) : option (Z * StringLexer) :=
  let end_before_exponent := current_ptr lexer in
  let exponent_follows :=
    match peek_ascii_char lexer with
    | Some c => (c =? ch "+") || (c =? ch "-") || between "0" "9" c
    | None => false
    end in
  if (current_equals "e" lexer || current_equals "E" lexer) && exponent_follows then
    let lexer := advance lexer in
    let lexer := if current_equals "-" lexer || current_equals "+" lexer then advance lexer else lexer in
    let '(has_digits_in_exponent, lexer) := skip_decimal_digits lexer in
    if negb has_digits_in_exponent then Some (end_before_exponent, lexer)
    else Some (current_ptr lexer, lexer)
  else Some (current_ptr lexer, lexer).

Lemma is_e c : (c =? ch "e") || (c =? ch "E") = one_of "eE" c.
Proof. unfold one_of. cbn -[ch]. by rewrite orb_false_r. Qed.

Lemma sign_at p c s : (c =? ch "-") || (c =? ch "+") = true ->
  (let lexer := lexer_at p (c :: s) in
   if current_equals "-" lexer || current_equals "+" lexer then advance lexer else lexer) = lexer_at (p + 1) s.
Proof. intros E. cbn zeta. by rewrite !current_equals_at, E, advance_at. Qed.

Lemma no_sign_at p s : match s with c :: _ => (c =? ch "-") || (c =? ch "+") = false | [] => True end ->
  (let lexer := lexer_at p s in
   if current_equals "-" lexer || current_equals "+" lexer then advance lexer else lexer) = lexer_at p s.
Proof. intros E. cbn zeta. destruct s as [|c s]; [done|]. by rewrite !current_equals_at, E. Qed.

(** After an [e] that starts an exponent: the optional sign, digits and the rest. *)
Lemma exponent_at p e sign digits r : one_of "eE" e = true -> sign = [] \/ sign = [ch "+"] \/ sign = [ch "-"] ->
  all_digits digits -> stops is_digit_unit r ->
  (sign = [] -> digits = [] -> match r with c :: _ => (c =? ch "-") || (c =? ch "+") = false | [] => True end) ->
  (sign <> [] \/ digits <> []) ->
  exponent_part (lexer_at p (e :: sign ++ digits ++ r)) =
    let q := p + 1 + Z.of_nat (length sign) + Z.of_nat (length digits) in
    Some (if bool_decide (digits = []) then p else q, lexer_at q r).
Proof.
  intros He Hs Hd Hr Hsr Hne. unfold exponent_part. rewrite current_ptr_at, !current_equals_at, is_e, He, peek_at.
  assert (Hhead : match digits with c :: _ => 48 <= c <= 57 | [] => True end).
  { destruct Hd as [|c d Hc]; [done|]. unfold is_decimal_digit, between in Hc. chars. lia. }
  assert (E : match match sign ++ digits ++ r with d :: _ => if d <? 128 then Some d else None | [] => None end with
    | Some c => (c =? ch "+") || (c =? ch "-") || between "0" "9" c | None => false end = true).
  { destruct Hs as [->|[->| ->]]; [|done|done]. destruct digits as [|c d]; [naive_solver|]. cbn [app].
    rewrite (proj2 (Z.ltb_lt _ _)) by lia. unfold between. chars. lia. }
  rewrite E. cbn [andb]. rewrite advance_at. cbn zeta.
  assert (Hsign : (let lexer := lexer_at (p + 1) (sign ++ digits ++ r) in
    if current_equals "-" lexer || current_equals "+" lexer then advance lexer else lexer)
    = lexer_at (p + 1 + Z.of_nat (length sign)) (digits ++ r)).
  { destruct Hs as [->|[->| ->]]; cbn [app length].
    - rewrite Z.add_0_r. apply no_sign_at. destruct digits as [|c d]; [by apply Hsr|]. cbn [app]. chars. lia.
    - by apply sign_at.
    - by apply sign_at. }
  cbn zeta in Hsign. rewrite Hsign, skip_digits_at by done. rewrite negb_involutive, current_ptr_at.
  by case_bool_decide.
Qed.

Lemma no_exponent_at p s : after_literal s -> exponent_part (lexer_at p s) = Some (p, lexer_at p s).
Proof.
  intros Hs. unfold exponent_part. rewrite current_ptr_at. destruct s as [|c s]; [done|].
  rewrite !current_equals_at, is_e. destruct Hs as (_ & _ & ->). done.
Qed.

(** The digits and the dot. *)
Lemma unsigned_at p integer (dot : bool) fraction r : all_digits integer -> all_digits fraction ->
  (dot = false -> fraction = [] /\ match r with c :: _ => (c =? ch ".") = false | [] => True end) -> stops is_digit_unit r ->
  parse_unsigned_decimal_literal (lexer_at p (integer ++ (if dot then [ch "."] else []) ++ fraction ++ r)) =
    if bool_decide (integer ++ fraction = []) then None
    else exponent_part (lexer_at (p + Z.of_nat (length (integer ++ (if dot then [ch "."] else []) ++ fraction))) r).
Proof.
  intros Hi Hf Hdot Hr. unfold parse_unsigned_decimal_literal.
  assert (Hstop : stops is_digit_unit ((if dot then [ch "."] else []) ++ fraction ++ r)).
  { destruct dot; [done|]. by destruct (Hdot eq_refl) as [-> _]. }
  rewrite (skip_digits_at p integer) by done. set (q := p + Z.of_nat (length integer)).
  destruct dot; cbn [app].
  - rewrite current_equals_at, Z.eqb_refl, advance_at, skip_digits_at by done.
    replace (q + 1 + Z.of_nat (length fraction)) with
      (p + Z.of_nat (length (integer ++ ch "." :: fraction))) by (rewrite length_app; cbn; lia).
    destruct integer as [|c integer]; cbn [app]; [destruct fraction as [|c fraction]|]; reflexivity.
  - destruct (Hdot eq_refl) as [-> Hh]. cbn [app].
    assert (E : current_equals "." (lexer_at q r) = false) by (destruct r; [done|exact Hh]). rewrite E.
    rewrite !app_nil_r. fold q. destruct integer as [|c integer]; reflexivity.
Qed.

(** A literal in front of a text that cannot continue it is read. *)
Lemma unsigned_complete p t v r : decimal_text t v -> after_literal r ->
  parse_unsigned_decimal_literal (lexer_at p (t ++ r)) =
    Some (p + Z.of_nat (length t), lexer_at (p + Z.of_nat (length t)) r).
Proof.
  intros [integer dot fraction ex x Hi Hf Hdot Hne Hx] Hr. rewrite <- !(assoc_L (++)).
  assert (Hex : match ex ++ r with c :: _ => (c =? ch ".") = false /\ is_digit_unit c = false | [] => True end).
  { destruct Hx as [|e ? ? He]; cbn [app]; [destruct r; [done|]; cbn in Hr; tauto|].
    unfold one_of in He. cbn in He. unfold is_digit_unit, between. chars. lia. }
  rewrite unsigned_at; [|done|done| |].
  2: { intros Hd. split; [by apply Hdot|]. destruct (ex ++ r); [done|by destruct Hex]. }
  2: { destruct (ex ++ r); [done|by destruct Hex]. }
  rewrite bool_decide_eq_false_2 by done. set (q := p + _).
  destruct Hx as [|e sign digits He Hs Hd Hdne].
  - cbn [app]. rewrite no_exponent_at by done. unfold q. by rewrite app_nil_r.
  - change ((e :: sign ++ digits) ++ r) with (e :: (sign ++ digits) ++ r). rewrite <- (assoc_L (++)).
    rewrite exponent_at; [|done|done|done|by apply after_literal_stops|done|by right].
    cbn zeta. rewrite bool_decide_eq_false_2 by done.
    assert (E : q + 1 + Z.of_nat (length sign) + Z.of_nat (length digits) =
      p + Z.of_nat (length (integer ++ (if dot then [ch "."] else []) ++ fraction ++ e :: sign ++ digits))).
    { unfold q. rewrite !length_app. cbn [length]. rewrite length_app. lia. }
    by rewrite E.
Qed.

(** There is no exponent, or one with its parts. *)
Lemma exponent_cases p u :
  exponent_part (lexer_at p u) = Some (p, lexer_at p u) \/
  exists e sign digits r, u = e :: sign ++ digits ++ r /\ one_of "eE" e = true /\
    (sign = [] \/ sign = [ch "+"] \/ sign = [ch "-"]) /\ all_digits digits /\
    exponent_part (lexer_at p u) =
      let q := p + 1 + Z.of_nat (length sign) + Z.of_nat (length digits) in
      Some (if bool_decide (digits = []) then p else q, lexer_at q r).
Proof.
  destruct u as [|e [|c u]]; [by left|left; unfold exponent_part; rewrite current_ptr_at; cbn [peek_ascii_char];
    by rewrite peek_at, andb_false_r|].
  destruct (one_of "eE" e) eqn:He.
  2: { left. unfold exponent_part. by rewrite current_ptr_at, !current_equals_at, is_e, He. }
  destruct ((c =? ch "+") || (c =? ch "-") || between "0" "9" c) eqn:Hc.
  2: { left. unfold exponent_part. rewrite current_ptr_at, peek_at. destruct (c <? 128); by rewrite ?Hc, andb_false_r. }
  right. assert (exists sign u', c :: u = sign ++ u' /\ (sign = [] \/ sign = [ch "+"] \/ sign = [ch "-"]) /\
    (sign = [] -> is_digit_unit c = true /\ u' = c :: u)) as (sign & u' & Eu & Hs & Hsd).
  { destruct (is_digit_unit c) eqn:Hd; [by exists [], (c :: u); auto|].
    exists [c], u. split; [done|]. split; [|done]. right. unfold is_digit_unit, between in *. chars.
    assert (c = 43 \/ c = 45) as [->| ->] by lia; auto. }
  destruct (span_exists is_digit_unit u') as (digits & r & -> & Hd & Hr).
  assert (Hne : sign = [] -> digits <> []).
  { intros -> ->. destruct (Hsd eq_refl) as [Hdc Er]. cbn in Er. subst r. cbn in Hr. congruence. }
  exists e, sign, digits, r. rewrite Eu. split_and!; try done.
  apply exponent_at; try done; [naive_solver|]. destruct sign; [right; by apply Hne|by left].
Qed.

(** What is read up to the current position is a literal. *)
Lemma unsigned_sound p u q l : parse_unsigned_decimal_literal (lexer_at p u) = Some (q, l) -> q = current_ptr l ->
  exists t v r, u = t ++ r /\ decimal_text t v /\ q = p + Z.of_nat (length t) /\ l = lexer_at q r.
Proof.
  intros E Hq. destruct (span_exists is_digit_unit u) as (integer & u1 & -> & Hi & Hu1).
  assert (exists (dot : bool) fraction u2, u1 = (if dot then [ch "."] else []) ++ fraction ++ u2 /\ all_digits fraction /\
    (dot = false -> fraction = [] /\ match u2 with c :: _ => (c =? ch ".") = false | [] => True end) /\
    stops is_digit_unit u2) as (dot & fraction & u2 & -> & Hf & Hdot & Hu2).
  { destruct u1 as [|c u1]; [exists false, [], []; repeat split; constructor|].
    destruct (Z.eqb_spec c (ch ".")) as [->|Hc].
    - destruct (span_exists is_digit_unit u1) as (fraction & u2 & -> & Hf & Hu2).
      exists true, fraction, u2. done.
    - exists false, [], (c :: u1). repeat split; [constructor| |done]. by apply Z.eqb_neq. }
  rewrite unsigned_at in E by done. case_bool_decide as Hne; [done|].
  set (n := length (integer ++ (if dot then [ch "."] else []) ++ fraction)) in *.
  destruct (exponent_cases (p + Z.of_nat n) u2) as [Ee|(e & sign & digits & r & -> & He & Hs & Hd & Ee)];
    rewrite Ee in E; cbn zeta in E; injection E as <- <-.
  - eexists _, _, u2. split; [|split; [apply (decimal_text_intro integer dot fraction [] 0); [done|done|naive_solver|done|constructor]|]];
      rewrite app_nil_r; [by rewrite <- !(assoc_L (++))|done].
  - rewrite current_ptr_at in Hq. case_bool_decide as Hdn; [subst digits; cbn [length] in Hq; lia|].
    eexists _, _, r. split; [|split; [apply (decimal_text_intro integer dot fraction (e :: sign ++ digits)); [done|done|naive_solver|done|by constructor]|]].
    + rewrite <- !(assoc_L (++)). cbn [app]. by rewrite <- !(assoc_L (++)).
    + split; [|done]. unfold n. rewrite !length_app. cbn [length]. rewrite length_app. lia.
Qed.

Section Parsing.

Context `{NumBigintLaws}.
Variable one_byte : bool.

Lemma non_decimal_at a x0 x t r base digit_fn : is_base base digit_fn -> base_digits base t ->
  stops (fun c => bool_decide (is_Some (digit_below base c))) r ->
  non_decimal_literal_with_base one_byte (a ++ x0 :: x :: t ++ r) base digit_fn
    (lexer_at (Z.of_nat (length a)) (x0 :: x :: t ++ r)) =
  Done (if bool_decide (t = []) then None
        else Some (f64_of_int (based_value base t), lexer_at (Z.of_nat (length a) + 2 + Z.of_nat (length t)) r)).
Proof.
  intros Hbase Ht Hr. unfold non_decimal_literal_with_base. rewrite !advance_at, current_ptr_at. cbn zeta.
  replace (Z.of_nat (length a) + 1 + 1) with (Z.of_nat (length a) + 2) by lia.
  destruct (base_loop base digit_fn t r Hbase Ht Hr 0 false false (Z.of_nat (length a) + 2)) as (v & o & -> & Hv);
    [lia|done|]. cbn [orb].
  destruct (bool_decide_reflect (t = [])) as [->|Hne]; [done|]. cbn [negb].
  destruct o; [|by destruct (Hv eq_refl) as [_ ->]].
  unfold parse_between_ptrs_to_f64_overflowing. rewrite current_ptr_at.
  assert (E : units_between (a ++ x0 :: x :: t ++ r) (Z.of_nat (length a) + 2)
    (Z.of_nat (length a) + 2 + Z.of_nat (length t)) = t).
  { pose proof (units_between_at (a ++ [x0; x]) t r) as E. rewrite length_app in E. cbn [length] in E.
    rewrite <- (assoc_L (++)) in E. cbn [app] in E.
    replace (Z.of_nat (length a + 2)) with (Z.of_nat (length a) + 2) in E by lia. exact E. }
  rewrite E, byte_units_ascii by (by eapply base_digits_ascii).
  destruct t as [|c t]; [done|]. destruct (is_base_digits _ _ Hbase) as [Hb _].
  rewrite parse_bytes_value; [|done|by apply Forall_cons in Ht as [? _]|].
  2: { eapply Forall_impl; [exact Ht|]. cbn. tauto. }
  cbn [unwrap mbind outcome_bind]. rewrite to_f64_nearest; [done|].
  unfold based_value. assert (Hpos : forall s v, base_digits base s -> 0 <= v -> 0 <= foldl (based_digit base) v s).
  { intros s v0 Hs. revert v0. induction Hs as [|c' s [d Hd] Hs IH]; intros v0 Hv0; [done|]. cbn. apply IH.
    unfold based_digit. rewrite Hd. destruct (unit_digit_range _ _ _ Hd). nia. }
  apply Hpos; [done|lia].
Qed.

(** ** The grammar *)

Inductive sign_text : list Z -> bool -> Prop :=
| sign_none : sign_text [] false
| sign_plus : sign_text [ch "+"] false
| sign_minus : sign_text [ch "-"] true.

Definition infinity_text : list Z := map ch (list_ascii_of_string "Infinity").

Inductive signed_literal : list Z -> f64 -> Prop :=
| literal_infinity sign negative : sign_text sign negative ->
    signed_literal (sign ++ infinity_text) (signed_infinity negative)
| literal_decimal sign negative t v : sign_text sign negative -> decimal_text t v ->
    signed_literal (sign ++ t) (signed_number negative v).

(** The letters of a base. *)
Definition base_letter (base x : Z) : Prop :=
  (base = 16 /\ one_of "xX" x = true) \/ (base = 8 /\ one_of "oO" x = true) \/ (base = 2 /\ one_of "bB" x = true).

Inductive numeric_literal : list Z -> f64 -> Prop :=
| literal_based base x digits : base_letter base x -> base_digits base digits -> digits <> [] ->
    numeric_literal (ch "0" :: x :: digits) (f64_of_int (based_value base digits))
| literal_signed t v : signed_literal t v -> numeric_literal t v.

Definition whitespace (s : list Z) : Prop := all_of is_whitespace_or_newline s.

(** StringNumericLiteral: white space around a literal or nothing. *)
Definition string_numeric (s : list Z) (v : f64) : Prop :=
  exists a t b, s = a ++ t ++ b /\ whitespace a /\ whitespace b /\
    ((t = [] /\ v = f64_of_int 0) \/ numeric_literal t v).

Lemma whitespace_unit c : is_whitespace_or_newline c = true ->
  c = 32 \/ 9 <= c <= 13 \/ 128 <= c.
Proof.
  unfold is_whitespace_or_newline, is_ascii_whitespace, is_ascii_newline. chars.
  destruct (Z.ltb_spec c 128); lia.
Qed.

Lemma whitespace_after s : whitespace s -> after_literal s.
Proof.
  intros [|c s' Hc _]; [done|]. apply whitespace_unit in Hc. unfold after_literal, is_digit_unit, between, one_of.
  cbn -[ch]. chars. lia.
Qed.

Lemma whitespace_after_digits base s : whitespace s -> stops (fun c => bool_decide (is_Some (digit_below base c))) s.
Proof.
  intros [|c s' Hc _]; [done|]. cbn. apply bool_decide_eq_false_2. intros [d Hd].
  apply whitespace_unit in Hc. unfold digit_below, get_hex_value, between in Hd. chars.
  repeat case_match; cbn in Hd; try done; lia.
Qed.

(** The sign. *)
Definition take_sign (lexer : StringLexer) : bool * StringLexer :=
  if current_equals "-" lexer then (true, advance lexer)
  else if current_equals "+" lexer then (false, advance lexer) else (false, lexer).

Definition unsigned_start (u : list Z) : Prop :=
  match u with c :: _ => c <> ch "-" /\ c <> ch "+" | [] => True end.

Lemma take_sign_at p sign negative u : sign_text sign negative -> (sign = [] -> unsigned_start u) ->
  take_sign (lexer_at p (sign ++ u)) = (negative, lexer_at (p + Z.of_nat (length sign)) u).
Proof.
  intros Hs Hu. unfold take_sign. destruct Hs; cbn [app length].
  - specialize (Hu eq_refl). rewrite Z.add_0_r. destruct u as [|c u]; [done|]. rewrite !current_equals_at.
    destruct Hu as [H1 H2]. by rewrite !(proj2 (Z.eqb_neq _ _)).
  - by rewrite current_equals_at, current_equals_at, advance_at.
  - by rewrite current_equals_at, advance_at.
Qed.

Lemma sign_exists u : exists sign negative u', u = sign ++ u' /\ sign_text sign negative /\ (sign = [] -> unsigned_start u').
Proof.
  destruct u as [|c u]; [by exists [], false, []; repeat split; constructor|].
  destruct (decide (c = ch "-")) as [->|]; [exists [ch "-"], true, u; repeat split; try constructor; done|].
  destruct (decide (c = ch "+")) as [->|]; [exists [ch "+"], false, u; repeat split; try constructor; done|].
  exists [], false, (c :: u). repeat split; [constructor|done..].
Qed.

Lemma expect_inv p u c x l : expect c (lexer_at p u) = Some (x, l) -> exists r, u = ch c :: r /\ l = lexer_at (p + 1) r.
Proof.
  intros E. destruct u as [|d u]; [done|]. destruct (decide (d = ch c)) as [->|Hd].
  - rewrite expect_at in E by done. injection E as <- <-. by exists u.
  - by rewrite expect_at_other in E.
Qed.

Lemma nfinity_at p r : nfinity (advance (lexer_at p (infinity_text ++ r))) = Some (tt, lexer_at (p + 8) r).
Proof.
  change (infinity_text ++ r) with (ch "I" :: ch "n" :: ch "f" :: ch "i" :: ch "n" :: ch "i" :: ch "t" :: ch "y" :: r).
  unfold nfinity, mbind, LX_bind. rewrite advance_at. rewrite !expect_at by done. do 3 f_equal. lia.
Qed.

Lemma nfinity_inv p u x l : nfinity (lexer_at p u) = Some (x, l) ->
  exists r, u = ch "n" :: ch "f" :: ch "i" :: ch "n" :: ch "i" :: ch "t" :: ch "y" :: r /\ l = lexer_at (p + 7) r.
Proof.
  unfold nfinity, mbind, LX_bind. intros E.
  repeat match type of E with match expect ?c (lexer_at ?q ?v) with _ => _ end = _ =>
    let E1 := fresh "E1" in
    destruct (expect c (lexer_at q v)) as [[? ?]|] eqn:E1; [|done];
    let r := fresh "r" in apply expect_inv in E1 as (r & -> & ->) end.
  apply expect_inv in E as (r' & -> & ->). exists r'. split; [done|]. f_equal. lia.
Qed.

Lemma skip_to_end p b : whitespace b -> is_end (skip_string_whitespace (lexer_at p b)) = true.
Proof. intros Hb. rewrite <- (app_nil_r b), skip_whitespace_at by done. done. Qed.

Lemma end_is_whitespace p b : is_end (skip_string_whitespace (lexer_at p b)) = true -> whitespace b.
Proof.
  destruct (span_exists is_whitespace_or_newline b) as (t & r & -> & Ht & Hr). rewrite skip_whitespace_at by done.
  rewrite is_end_at. intros ->%bool_decide_eq_true_1. by rewrite app_nil_r.
Qed.

(** ** Decimal numbers *)

Lemma decimal_text_start t v : decimal_text t v -> exists c t', t = c :: t' /\ (48 <= c <= 57 \/ c = 46).
Proof.
  intros [integer dot fraction ex x Hi Hf Hdot Hne _].
  assert (Hdigit : forall c, is_decimal_digit c = true -> 48 <= c <= 57).
  { intros c Hc. unfold is_decimal_digit, between in Hc. chars. lia. }
  destruct Hi as [|c integer Hc _]; [|by eexists c, _; split; [done|left; apply Hdigit]].
  destruct dot; [by eexists _, _; split; [done|right]|]. by rewrite Hdot in Hne.
Qed.

Lemma decimal_number_complete a t v b : signed_literal t v -> whitespace b ->
  decimal_number one_byte (a ++ t ++ b) (lexer_at (Z.of_nat (length a)) (t ++ b)) = Done (Some v).
Proof.
  intros Ht Hb. unfold decimal_number. fold (take_sign (lexer_at (Z.of_nat (length a)) (t ++ b))).
  destruct Ht as [sign negative Hs|sign negative t v Hs Ht]; rewrite <- (assoc_L (++)).
  - rewrite (take_sign_at _ _ negative) by done.
    assert (E : current_equals "I" (lexer_at (Z.of_nat (length a) + Z.of_nat (length sign)) (infinity_text ++ b)) = true)
      by apply current_equals_at.
    rewrite E, nfinity_at. cbn zeta. by rewrite skip_to_end.
  - destruct (decimal_text_start _ _ Ht) as (c & t' & E & Hc).
    rewrite (take_sign_at _ _ negative); [|done|intros _; rewrite E; cbn; chars; lia].
    assert (EI : current_equals "I" (lexer_at (Z.of_nat (length a) + Z.of_nat (length sign)) (t ++ b)) = false).
    { rewrite E. cbn [app]. rewrite current_equals_at. chars. lia. }
    rewrite EI, current_ptr_at, (unsigned_complete _ _ v) by (done || by apply whitespace_after).
    rewrite current_ptr_at, Z.eqb_refl. cbn [negb]. cbn zeta. rewrite skip_to_end by done. cbn [negb].
    unfold parse_between_ptrs_to_f64. rewrite (assoc_L (++)), <- Nat2Z.inj_add, <- length_app, units_between_at.
    rewrite byte_units_ascii by (by eapply decimal_text_ascii). by rewrite (decimal_text_value _ _ Ht).
Qed.

Lemma decimal_number_sound a u : exists r,
  decimal_number one_byte (a ++ u) (lexer_at (Z.of_nat (length a)) u) = Done r /\
  forall v, r = Some v -> exists t b, u = t ++ b /\ whitespace b /\ signed_literal t v.
Proof.
  destruct (sign_exists u) as (sign & negative & u' & -> & Hs & Hu).
  unfold decimal_number. fold (take_sign (lexer_at (Z.of_nat (length a)) (sign ++ u'))).
  rewrite (take_sign_at _ _ negative) by done. set (p := Z.of_nat (length a) + Z.of_nat (length sign)).
  assert (Hnone : forall P : f64 -> Prop, exists r : option f64, Done (A:=option f64) None = Done r /\
    forall v, r = Some v -> P v) by (intros P; by exists None).
  destruct (current_equals "I" (lexer_at p u')) eqn:EI.
  - destruct u' as [|c u']; [done|]. rewrite current_equals_at in EI. apply Z.eqb_eq in EI as ->.
    rewrite advance_at. destruct (nfinity _) as [[x l]|] eqn:En; [|apply Hnone].
    apply nfinity_inv in En as (b & -> & ->). cbn zeta.
    destruct (is_end _) eqn:Eb; [|apply Hnone]. apply end_is_whitespace in Eb. eexists. split; [done|].
    intros v [= <-]. exists (sign ++ infinity_text), b. rewrite <- (assoc_L (++)). split_and!; [done..|by constructor].
  - rewrite current_ptr_at.
    destruct (parse_unsigned_decimal_literal (lexer_at p u')) as [[q l]|] eqn:Ep; [|apply Hnone].
    destruct (Z.eqb_spec q (current_ptr l)) as [Hq|]; [|apply Hnone]. cbn [negb]. cbn zeta.
    destruct (unsigned_sound _ _ _ _ Ep Hq) as (t & v & b & -> & Ht & Hq' & ->).
    destruct (is_end _) eqn:Eb; [|apply Hnone]. apply end_is_whitespace in Eb. cbn [negb].
    unfold parse_between_ptrs_to_f64. rewrite Hq'. unfold p.
    rewrite (assoc_L (++)), <- Nat2Z.inj_add, <- length_app, units_between_at.
    rewrite byte_units_ascii by (by eapply decimal_text_ascii). rewrite (decimal_text_value _ _ Ht).
    eexists. split; [done|]. intros w Hw. apply (inj Some) in Hw as <-.
    exists (sign ++ t), b. rewrite <- (assoc_L (++)). split_and!; [done..|by constructor].
Qed.

(** ** Numbers in other bases *)

Lemma based_number_at a x0 x t r base digit_fn : is_base base digit_fn -> base_digits base t ->
  stops (fun c => bool_decide (is_Some (digit_below base c))) r ->
  based_number one_byte (a ++ x0 :: x :: t ++ r) base digit_fn (lexer_at (Z.of_nat (length a)) (x0 :: x :: t ++ r)) =
  Done (if bool_decide (t = []) then None
        else if is_end (skip_string_whitespace (lexer_at (Z.of_nat (length a) + 2 + Z.of_nat (length t)) r))
        then Some (f64_of_int (based_value base t)) else None).
Proof.
  intros Hbase Ht Hr. unfold based_number. rewrite non_decimal_at by done. cbn [mbind outcome_bind].
  case_bool_decide; [done|]. cbn zeta. by destruct (is_end _).
Qed.

Lemma based_number_spec a x0 x u base digit_fn : is_base base digit_fn -> exists r,
  based_number one_byte (a ++ x0 :: x :: u) base digit_fn (lexer_at (Z.of_nat (length a)) (x0 :: x :: u)) = Done r /\
  forall v, r = Some v <-> exists t b, u = t ++ b /\ whitespace b /\ base_digits base t /\ t <> [] /\
    v = f64_of_int (based_value base t).
Proof.
  intros Hbase. set (P := fun c => bool_decide (is_Some (digit_below base c))).
  destruct (span_exists P u) as (t & r & -> & Ht & Hr).
  assert (Hdigits : forall s, all_of P s <-> base_digits base s).
  { intros s. apply Forall_iff. intros c. apply bool_decide_eq_true. }
  apply Hdigits in Ht. rewrite based_number_at by done. eexists. split; [done|]. intros v. split.
  - case_bool_decide as Hne; [done|]. destruct (is_end _) eqn:Eb; [|done]. intros Hv. apply (inj Some) in Hv.
    exists t, r. split_and!; [done|by eapply end_is_whitespace|done|done|done].
  - intros (t' & b & E & Hb & Ht' & Hne & ->).
    assert (t' = t /\ b = r) as [-> ->].
    { clear Hne. apply Hdigits in Ht, Ht'. pose proof (whitespace_after_digits base b Hb) as Hb'. fold P in Hb'.
      revert t' Ht' E. induction Ht as [|c t Hc Ht IH]; intros t' Ht' E.
      - destruct Ht' as [|c' t' Hc' _]; [done|]. cbn [app] in E. subst r. cbn in Hr. congruence.
      - destruct Ht' as [|c' t' Hc' Ht']; cbn [app] in E.
        + subst b. cbn in Hb'. congruence.
        + injection E as <- E. by destruct (IH t' Ht' E) as [-> ->]. }
    rewrite bool_decide_eq_false_2 by done. by rewrite skip_to_end.
Qed.

(** ** The whole text *)

Lemma signed_literal_start t v : signed_literal t v -> exists c t', t = c :: t' /\ is_whitespace_or_newline c = false.
Proof.
  assert (Hc : forall c, 33 <= c < 128 -> is_whitespace_or_newline c = false).
  { intros c Hc. apply not_true_is_false. intros Hw. apply whitespace_unit in Hw. lia. }
  intros [sign negative Hs|sign negative t' w Hs Ht].
  - destruct Hs; eexists _, _; (split; [done|apply Hc; chars; lia]).
  - destruct (decimal_text_start _ _ Ht) as (c & t'' & -> & Hc').
    destruct Hs; eexists _, _; (split; [done|apply Hc; chars; lia]).
Qed.

Lemma numeric_literal_start t v : numeric_literal t v -> exists c t', t = c :: t' /\ is_whitespace_or_newline c = false.
Proof. intros [|t' w Ht]; [by eexists _, _|by eapply signed_literal_start]. Qed.

(** After the white space at the start. *)
Lemma string_numeric_at a u v : whitespace a -> stops is_whitespace_or_newline u ->
  string_numeric (a ++ u) v <->
  (u = [] /\ v = f64_of_int 0) \/ exists t b, u = t ++ b /\ whitespace b /\ numeric_literal t v.
Proof.
  intros Ha Hu. split.
  - intros (a' & t & b & E & Ha' & Hb & Ht).
    assert (Hsplit : forall w, stops is_whitespace_or_newline w -> a ++ u = a' ++ w -> u = w).
    { clear E t b Hb Ht. intros w Hw. revert a' Ha'.
      induction Ha as [|c a Hc Ha IH]; intros a' Ha' E; destruct Ha' as [|c' a' Hc' Ha']; cbn [app] in E.
      - done.
      - subst u. cbn in Hu. congruence.
      - subst w. cbn in Hw. congruence.
      - injection E as <- E. by apply (IH a'). }
    destruct Ht as [[-> ->]|Ht].
    + left. split; [|done]. cbn [app] in E. assert (Hau : whitespace (a ++ u)) by (rewrite E; by apply Forall_app).
      apply Forall_app in Hau as [_ Hau]. destruct Hau as [|c u Hc _]; [done|]. cbn in Hu. congruence.
    + right. exists t, b. split; [|done]. apply Hsplit; [|done].
      destruct (numeric_literal_start _ _ Ht) as (c & t' & -> & Hc). done.
  - intros [[-> ->]|(t & b & -> & Hb & Ht)].
    + exists a, [], []. split_and!; [done|done|constructor|by left].
    + exists a, t, b. split_and!; [done..|by right].
Qed.

(** No letter of a base occurs in a signed literal or in white space. *)
Definition no_base_letter (c : Z) : Prop := forall base, ~ base_letter base c.

Lemma base_letter_range base x : base_letter base x -> 66 <= x < 128.
Proof. unfold base_letter, one_of. cbn -[ch]. chars. lia. Qed.

Lemma not_base_letter c : c < 66 \/ c = 73 \/ c = 69 \/ 99 <= c <= 110 \/ 112 <= c <= 119 \/ c = 121 \/ 128 <= c ->
  no_base_letter c.
Proof. intros Hc base. unfold base_letter, one_of. cbn -[ch]. chars. lia. Qed.

Lemma signed_literal_letters t v : signed_literal t v -> Forall no_base_letter t.
Proof.
  assert (Hsign : forall sign negative, sign_text sign negative -> Forall no_base_letter sign).
  { intros sign negative []; repeat constructor; apply not_base_letter; chars; lia. }
  assert (Hdigits : forall s, all_digits s -> Forall no_base_letter s).
  { intros s Hs. eapply Forall_impl; [exact Hs|]. intros c Hc. apply not_base_letter.
    unfold is_decimal_digit, between in Hc. chars. lia. }
  intros [sign negative Hs|sign negative t' w Hs Ht]; apply Forall_app; (split; [by eapply Hsign|]).
  - repeat constructor; apply not_base_letter; vm_compute; intuition congruence.
  - destruct Ht as [integer dot fraction ex x Hi Hf _ _ Hx]. rewrite !Forall_app. split_and!; [by apply Hdigits| |by apply Hdigits|].
    + destruct dot; repeat constructor; apply not_base_letter; chars; lia.
    + destruct Hx as [|e sign' digits He Hs' Hd _]; [constructor|]. constructor.
      { apply not_base_letter. unfold one_of in He. cbn -[ch] in He. chars. lia. }
      apply Forall_app. split; [|by apply Hdigits].
      destruct Hs' as [->|[->| ->]]; repeat constructor; apply not_base_letter; chars; lia.
Qed.

Lemma whitespace_letters s : whitespace s -> Forall no_base_letter s.
Proof.
  intros Hs. eapply Forall_impl; [exact Hs|]. intros c Hc. apply whitespace_unit in Hc. apply not_base_letter. lia.
Qed.

Lemma base_letter_unique base base' x : base_letter base x -> base_letter base' x -> base = base'.
Proof. unfold base_letter, one_of. cbn -[ch]. chars. lia. Qed.

(** The literal that the first two units announce. *)
Definition literal_at (string : list Z) (lexer : StringLexer) : outcome (option f64) :=
  match if current_equals "0" lexer then peek_ascii_char lexer else None with
  | Some c =>
      if one_of "xX" c then based_number one_byte string 16 hex_unit lexer
      else if one_of "oO" c then based_number one_byte string 8 octal_unit lexer
      else if one_of "bB" c then based_number one_byte string 2 binary_unit lexer
      else decimal_number one_byte string lexer
  | None => decimal_number one_byte string lexer
  end.

Lemma literal_at_cases string p u :
  (exists base digit_fn x u', u = ch "0" :: x :: u' /\ base_letter base x /\ is_base base digit_fn /\
     literal_at string (lexer_at p u) = based_number one_byte string base digit_fn (lexer_at p u)) \/
  ((forall base x u', u = ch "0" :: x :: u' -> ~ base_letter base x) /\
     literal_at string (lexer_at p u) = decimal_number one_byte string (lexer_at p u)).
Proof.
  unfold literal_at. destruct u as [|c u]; [by right|]. rewrite current_equals_at.
  destruct (Z.eqb_spec c (ch "0")) as [->|Hc]; [|right; split; [intros; congruence|done]].
  rewrite peek_at. destruct u as [|x u]; [right; split; [intros; congruence|done]|].
  destruct (Z.ltb_spec x 128).
  2: { right. split; [|done]. intros base x' u' [= <- <-] Hx%base_letter_range. lia. }
  destruct (one_of "xX" x) eqn:Ex; [left; exists 16, hex_unit, x, u; unfold base_letter, is_base; auto 6|].
  destruct (one_of "oO" x) eqn:Eo; [left; exists 8, octal_unit, x, u; unfold base_letter, is_base; auto 8|].
  destruct (one_of "bB" x) eqn:Eb; [left; exists 2, binary_unit, x, u; unfold base_letter, is_base; auto 8|].
  right. split; [|done]. intros base x' u' [= <- <-]. unfold base_letter. intuition congruence.
Qed.

Lemma literal_at_spec a u : exists r, literal_at (a ++ u) (lexer_at (Z.of_nat (length a)) u) = Done r /\
  forall v, r = Some v <-> exists t b, u = t ++ b /\ whitespace b /\ numeric_literal t v.
Proof.
  destruct (literal_at_cases (a ++ u) (Z.of_nat (length a)) u)
    as [(base & digit_fn & x & u' & -> & Hx & Hbase & ->)|[Hno ->]].
  - destruct (based_number_spec a (ch "0") x u' base digit_fn Hbase) as (r & -> & Hr). exists r. split; [done|].
    intros v. rewrite Hr. split.
    + intros (t & b & -> & Hb & Ht & Hne & ->). exists (ch "0" :: x :: t), b. split_and!; [done..|by constructor].
    + intros (t & b & E & Hb & Ht). destruct Ht as [base' x' digits Hx' Hd Hne|t v Ht].
      * cbn [app] in E. injection E as <- ->. rewrite <- (base_letter_unique _ _ _ Hx Hx') in *.
        by exists digits, b.
      * assert (Hl : Forall no_base_letter (ch "0" :: x :: u')).
        { rewrite E. apply Forall_app. split; [by eapply signed_literal_letters|by apply whitespace_letters]. }
        apply Forall_cons in Hl as [_ [Hl _]%Forall_cons]. by destruct (Hl base).
  - destruct (decimal_number_sound a u) as (r & E & Hr). exists r. split; [done|]. intros v. split.
    + intros (t & b & -> & Hb & Ht)%Hr. exists t, b. split_and!; [done..|by constructor].
    + intros (t & b & -> & Hb & Ht). destruct Ht as [base' x' digits Hx' Hd Hne|t v Ht]; [by destruct (Hno base' x' (digits ++ b))|].
      rewrite (decimal_number_complete a t v b Ht Hb) in E. by injection E as <-.
Qed.

(** C40: a string is turned into the number its text denotes by the grammar of string numeric literals (white space around
    nothing, a literal of base 2, 8 or 16, or a signed decimal literal or [Infinity]), into nothing when its text is not
    in the grammar, and never panics. *)
Theorem numeric_strings_parse s : exists r, parse_string_to_number one_byte s = Done r /\
  forall v, r = Some v <-> string_numeric s v.
Proof.
  destruct (span_exists is_whitespace_or_newline s) as (a & u & -> & Ha & Hu).
  unfold parse_string_to_number. rewrite new_at, skip_whitespace_at by done. rewrite Z.add_0_l, is_end_at.
  case_bool_decide as Hne.
  - eexists. split; [done|]. intros v. rewrite string_numeric_at by done. split.
    + intros Hv. apply (inj Some) in Hv. by left.
    + intros [[_ ->]|(t & b & E & _ & Ht)]; [done|]. destruct (numeric_literal_start _ _ Ht) as (c & t' & -> & _).
      by rewrite E in Hne.
  - destruct (literal_at_spec a u) as (r & E & Hr). exists r. split; [exact E|]. intros v.
    rewrite string_numeric_at, Hr by done. split; [by right|]. by intros [[? _]|?].
Qed.

End Parsing.

(** [ 0x1F ] followed by a newline, with a big-integer library that keeps to its laws. *)
Lemma numeric_strings_parse_witness : let s := map ch (list_ascii_of_string " 0x1F") ++ [10] in
  (exists r, @parse_string_to_number ExactBigint.num_bigint false s = Done r /\
    forall v, r = Some v <-> string_numeric s v) /\
  string_numeric s (f64_of_int 31).
Proof.
  intros s. split; [exact (@numeric_strings_parse _ ExactBigint.num_bigint_laws false s)|].
  exists [32], (ch "0" :: ch "x" :: [ch "1"; ch "F"]), [10]. split_and!; [done|by repeat constructor|by repeat constructor|].
  right. apply (literal_based 16); [by left|repeat constructor; by eexists|done].
Defined.

(** ** Array indices *)

(** The canonical decimal text of a number below 2^32. *)
Definition canonical_u32 (s : list Z) (n : Z) : Prop :=
  all_digits s /\ s <> [] /\ (head s = Some (ch "0") -> s = [ch "0"]) /\ decimal_value s = n /\ n <= u32_max.

Lemma digits_grow s v : all_digits s -> 0 <= v -> v <= foldl (fun value c => value * 10 + (c - ch "0")) v s.
Proof.
  intros Hs. revert v. induction Hs as [|c s Hc Hs IH]; intros v Hv; [done|]. cbn [foldl].
  unfold is_decimal_digit, between in Hc. specialize (IH (v * 10 + (c - ch "0"))). revert IH. chars. intros IH. lia.
Qed.

Lemma u32_digits_value s v n : 0 <= v <= u32_max ->
  u32_digits v s = Some n <->
  all_digits s /\ foldl (fun value c => value * 10 + (c - ch "0")) v s = n /\ n <= u32_max.
Proof.
  revert v. induction s as [|c s IH]; intros v Hv; cbn [u32_digits foldl].
  { split; [intros [= <-]; repeat split; [constructor|lia]|by intros (_ & -> & _)]. }
  unfold decimal_unit. fold (is_decimal_digit c). change (is_digit_unit c) with (is_decimal_digit c).
  unfold all_digits; rewrite Forall_cons. destruct (is_decimal_digit c) eqn:Hc; cbn [mbind option_bind]; [|split; [done|by intros [[? _] _]]].
  assert (Hd : 0 <= c - ch "0" <= 9) by (unfold is_decimal_digit, between in Hc; chars; lia).
  assert (Hbig : v * 10 + (c - ch "0") > u32_max -> all_digits s ->
    foldl (fun value c => value * 10 + (c - ch "0")) (v * 10 + (c - ch "0")) s > u32_max).
  { intros Hgt Hs. pose proof (digits_grow s (v * 10 + (c - ch "0")) Hs). lia. }
  unfold checked_u32. destruct (Z.leb_spec (v * 10) u32_max); cbn [mbind option_bind].
  - destruct (Z.leb_spec (v * 10 + (c - ch "0")) u32_max); cbn [mbind option_bind].
    + rewrite IH by lia. tauto.
    + split; [done|]. intros ((_ & Hs) & Hn & Hle). specialize (Hbig ltac:(lia) Hs). lia.
  - split; [done|]. intros ((_ & Hs) & Hn & Hle). specialize (Hbig ltac:(lia) Hs). lia.
Qed.

(** A string is an array index exactly when it is the canonical text of a number below 2^32. *)
Theorem index_strings_parse s n : parse_string_to_u32 s = Some n <-> canonical_u32 s n.
Proof.
  unfold parse_string_to_u32, canonical_u32. rewrite new_at. destruct s as [|c s]; [by split; [|intros (_ & ? & _)]|].
  unfold current_decimal_value. cbn [current lexer_at].
  replace ((ch "0" <=? c) && (c <=? ch "9")) with (is_decimal_digit c) by done.
  unfold all_digits; rewrite Forall_cons. destruct (is_decimal_digit c) eqn:Hc; [|split; [done|by intros [[? _] _]]].
  cbv beta iota zeta. fold (lexer_at 0 (c :: s)). rewrite advance_at, is_end_at.
  assert (Hd : 0 <= c - ch "0" <= 9) by (unfold is_decimal_digit, between in Hc; chars; lia).
  assert (Hrem : remaining (lexer_at (0 + 1) s) = s) by (by destruct s). rewrite Hrem.
  unfold decimal_value. cbn [foldl head]. rewrite Z.mul_0_l, Z.add_0_l.
  destruct (Z.eqb_spec (c - ch "0") 0) as [Hz|Hz]; cbn [andb].
  - assert (c = ch "0") as -> by lia. case_bool_decide as Hs; cbn [negb]; [subst s|].
    + rewrite u32_digits_value by (unfold u32_max; lia). naive_solver.
    + split; [done|]. intros (_ & _ & H0 & _). by specialize (H0 eq_refl) as [=].
  - rewrite u32_digits_value by (unfold u32_max; lia). split; [|tauto].
    intros (Hs & Hn & Hle). repeat split; try done. intros [= ->]. by destruct Hz; rewrite Z.sub_diag.
Qed.
