(* ===== verification/Date.v ===== *)
(** Dates: the arithmetic of time values of
    [src/so2js/runtime/intrinsics/date_object.rs].

    A time value is a binary64 number of milliseconds since the Unix epoch, or NaN.  The operators
    of the source are those of [Float64] and [FloatArith]; the arithmetic on [i64] that the source
    checks is [option]-valued.  [unreachable!], a failed [assert!] and an index out of range panic. *)

From S2P Require Import Prelude Float64 Value TypeUtilities FloatIntegers.

Declare Scope f64_scope.
Delimit Scope f64_scope with f64.
Infix "+" := f64_add : f64_scope.
Infix "-" := f64_sub : f64_scope.
Infix "*" := f64_mul : f64_scope.
Infix "/" := f64_div : f64_scope.
Infix "<" := f64_lt : f64_scope.
Infix "<=" := f64_le : f64_scope.

(** An integer literal such as [365.0]. *)
Abbreviation lit := f64_of_int.

(** ** i64 *)

Definition fits_i64 (n : Z) : bool := (i64_min <=? n) && (n <=? i64_max).
Definition checked (n : Z) : option Z := if fits_i64 n then Some n else None.
Definition checked_add (a b : Z) : option Z := checked (a + b).
Definition checked_sub (a b : Z) : option Z := checked (a - b).
Definition checked_mul (a b : Z) : option Z := checked (a * b).
Definition checked_div (a b : Z) : option Z := if b =? 0 then None else checked (Z.quot a b).
Definition wrap_i64 (n : Z) : Z := cast_signed 64 (wrap64 n).
Definition as_i64 (b : f64) : Z := f64_as_int i64_min i64_max b.

(** ** Constants *)

Definition MAX_TIME_VALUE : f64 := lit 8640000000000000.

Definition MS_PER_SECOND : f64 := lit 1000.
Definition SECONDS_PER_MINUTE : f64 := lit 60.
Definition MINUTES_PER_HOUR : f64 := lit 60.
Definition HOURS_PER_DAY : f64 := lit 24.

Definition MS_PER_MINUTE : f64 := f64_mul MS_PER_SECOND SECONDS_PER_MINUTE.
Definition MS_PER_HOUR : f64 := f64_mul MS_PER_MINUTE MINUTES_PER_HOUR.
Definition MS_PER_DAY : f64 := f64_mul MS_PER_HOUR HOURS_PER_DAY.

(** The literal [365.2425]. *)
Definition DAYS_PER_YEAR : f64 := f64_of_ratio 3652425 10000.

(** ** Days and years *)

Definition is_leap_year (year : Z) : bool :=
  (Z.rem year 4 =? 0) && (negb (Z.rem year 100 =? 0) || (Z.rem year 400 =? 0)).

Definition day (time : f64) : f64 := f64_floor (time / MS_PER_DAY)%f64.
Definition time_within_day (time : f64) : f64 := f64_modulo time MS_PER_DAY.

Definition days_in_year (year : Z) : f64 := if is_leap_year year then lit 366 else lit 365.

Definition day_from_year (year : f64) : f64 :=
  ((lit 365 * (year - lit 1970)) + f64_floor ((year - lit 1969) / lit 4)
   - f64_floor ((year - lit 1901) / lit 100)
   + f64_floor ((year - lit 1601) / lit 400))%f64.

Definition time_from_year (year : f64) : f64 := (MS_PER_DAY * day_from_year year)%f64.

Definition year_from_time (time : f64) : f64 :=
  let day := day time in
  let year := (f64_floor (day / DAYS_PER_YEAR) + lit 1970)%f64 in
  let year_time := time_from_year year in
  if (time < year_time)%f64 then (year - lit 1)%f64
  else if (year_time + days_in_year (as_i64 year) * MS_PER_DAY <= time)%f64 then (year + lit 1)%f64
  else year.

Definition day_within_year (time : f64) : f64 := (day time - day_from_year (year_from_time time))%f64.

(** MonthFromTime. *)
Definition month_from_time (time : f64) : outcome f64 :=
  let year := year_from_time time in
  let leap_year := if is_leap_year (as_i64 year) then lit 1 else lit 0 in
  let day_within_year := day_within_year time in
  let within lo hi := (lo <= day_within_year)%f64 && (day_within_year < hi)%f64 in
  let leap n := (lit n + leap_year)%f64 in
  if within (lit 0) (lit 31) then Done (lit 0)
  else if within (lit 31) (leap 59) then Done (lit 1)
  else if within (leap 59) (leap 90) then Done (lit 2)
  else if within (leap 90) (leap 120) then Done (lit 3)
  else if within (leap 120) (leap 151) then Done (lit 4)
  else if within (leap 151) (leap 181) then Done (lit 5)
  else if within (leap 181) (leap 212) then Done (lit 6)
  else if within (leap 212) (leap 243) then Done (lit 7)
  else if within (leap 243) (leap 273) then Done (lit 8)
  else if within (leap 273) (leap 304) then Done (lit 9)
  else if within (leap 304) (leap 334) then Done (lit 10)
  else if within (leap 334) (leap 365) then Done (lit 11)
  else Panicked.

Definition MONTHS_TABLE : list f64 :=
  [lit (-1); lit 30; lit 58; lit 89; lit 119; lit 150; lit 180; lit 211; lit 242; lit 272; lit 303; lit 333].

(** DateFromTime. *)
Definition date_from_time (time : f64) : outcome f64 :=
  month_from_time ← month_from_time time;
  let year := year_from_time time in
  let leap_year_day :=
    if is_leap_year (as_i64 year) && (lit 2 <= month_from_time)%f64 then lit 1 else lit 0 in
  entry ← unwrap (MONTHS_TABLE !! Z.to_nat (f64_as_int 0 usize_max month_from_time));
  Done (day_within_year time - entry - leap_year_day)%f64.

Definition week_day (time : f64) : f64 := f64_modulo (day time + lit 4)%f64 (lit 7).

Definition local_time (time : f64) : f64 := time.
Definition utc (time : f64) : f64 := time.

Definition hour_from_time (time : f64) : f64 :=
  f64_modulo (f64_floor (time / MS_PER_HOUR)%f64) HOURS_PER_DAY.
Definition minute_from_time (time : f64) : f64 :=
  f64_modulo (f64_floor (time / MS_PER_MINUTE)%f64) MINUTES_PER_HOUR.
Definition second_from_time (time : f64) : f64 :=
  f64_modulo (f64_floor (time / MS_PER_SECOND)%f64) SECONDS_PER_MINUTE.
Definition millisecond_from_time (time : f64) : f64 := f64_modulo time MS_PER_SECOND.

(** ** Time values from their parts *)

Definition make_time (hour minute second millisecond : f64) : f64 :=
  if negb (f64_is_finite hour) || negb (f64_is_finite minute) || negb (f64_is_finite second)
     || negb (f64_is_finite millisecond)
  then F64_NAN
  else
    let hour := to_integer_or_infinity_f64 hour in
    let minute := to_integer_or_infinity_f64 minute in
    let second := to_integer_or_infinity_f64 second in
    let millisecond := to_integer_or_infinity_f64 millisecond in
    (hour * MS_PER_HOUR + minute * MS_PER_MINUTE + second * MS_PER_SECOND + millisecond)%f64.

Definition make_full_year (year : f64) : f64 :=
  if f64_is_nan year then F64_NAN
  else
    let year_int := to_integer_or_infinity_f64 year in
    if (lit 0 <= year_int)%f64 && (year_int <= lit 99)%f64 then (lit 1900 + year_int)%f64 else year_int.

Definition floor_div (a b : Z) : option Z :=
  if 0 <=? a then checked_div a b
  else
    a ← checked_add a 1;
    a ← checked_div a b;
    checked_sub a 1.

Definition leap_years_before_year (year : Z) : option Z :=
  year ← checked_sub year 1;
  fours ← floor_div year 4;
  hundreds ← floor_div year 100;
  difference ← checked_sub fours hundreds;
  four_hundreds ← floor_div year 400;
  checked_add difference four_hundreds.

Definition leap_years_between_years (start_year end_year : Z) : option Z :=
  after ← leap_years_before_year end_year;
  before ← leap_years_before_year start_year;
  checked_sub after before.

Definition year_to_days_since_unix_epoch (year : Z) : option Z :=
  years_since_epoch ← checked_sub year 1970;
  if 0 <=? years_since_epoch then
    days ← checked_mul years_since_epoch 365;
    leap_days ← leap_years_between_years 1970 year;
    checked_add days leap_days
  else
    days ← checked_mul years_since_epoch 365;
    leap_days ← leap_years_between_years year 1970;
    checked_sub days leap_days.

Definition DAYS_TO_MONTH_START : list Z := [-1; 30; 58; 89; 119; 150; 180; 211; 242; 272; 303; 333].

Definition year_month_day_to_days_since_year_start (year month day : Z) : outcome Z :=
  if (1 <=? month) && (month <=? 12) then
    let leap_day := if is_leap_year year && (2 <? month) then 1 else 0 in
    start ← unwrap (DAYS_TO_MONTH_START !! Z.to_nat (month - 1));
    Done (wrap_i64 (wrap_i64 (start + day) + leap_day))
  else Panicked.

Definition year_month_day_to_days_since_unix_epoch (year month day : Z) : outcome (option Z) :=
  match year_to_days_since_unix_epoch year with
  | None => Done None
  | Some year_days =>
      days ← year_month_day_to_days_since_year_start year month day;
      Done (checked_add year_days days)
  end.

(** MakeDay. *)
Definition make_day (year month date : f64) : outcome f64 :=
  if negb (f64_is_finite year) || negb (f64_is_finite month) || negb (f64_is_finite date)
  then Done F64_NAN
  else
    let year := to_integer_or_infinity_f64 year in
    let month := to_integer_or_infinity_f64 month in
    let date := to_integer_or_infinity_f64 date in
    let calculated_year := (year + f64_floor (month / lit 12))%f64 in
    if negb (f64_is_finite calculated_year) then Done F64_NAN
    else
      let calculated_month := f64_modulo month (lit 12) in
      let calculated_year := as_i64 calculated_year in
      let calculated_month := wrap_i64 (as_i64 calculated_month + 1) in
      days ← year_month_day_to_days_since_unix_epoch calculated_year calculated_month 1;
      match days with
      | None => Done F64_NAN
      | Some num_days_until_month_start =>
          Done (lit num_days_until_month_start + date - lit 1)%f64
      end.

Definition make_date (day time : f64) : f64 :=
  if negb (f64_is_finite day) || negb (f64_is_finite time) then F64_NAN
  else
    let result := (day * MS_PER_DAY + time)%f64 in
    if negb (f64_is_finite result) then F64_NAN else result.

Definition time_clip (time : f64) : f64 :=
  if negb (f64_is_finite time) then F64_NAN
  else if (MAX_TIME_VALUE < f64_abs time)%f64 then F64_NAN
  else to_integer_or_infinity_f64 time.
