(* ===== verification/DateCorrect.v ===== *)
(** The proleptic Gregorian calendar, and the proof that the arithmetic of [Date] follows it.

    A date is a year, a month from 0 and a day from 1; [civil n] is the date [n] days after the
    first of January 1970, found by going from day to day.  [day_number] counts the days to a date
    in closed form, and is shown to be the inverse of [civil]. *)

From S2P Require Import Prelude Float64 Value ValueCorrect TypeUtilities TypeUtilitiesCorrect FloatIntegers Date.

Record CalendarDate : Type := mkDate { cal_year : Z; cal_month : Z; cal_day : Z }.

Definition leap (year : Z) : bool :=
  (year mod 4 =? 0) && (negb (year mod 100 =? 0) || (year mod 400 =? 0)).

Definition month_length (year month : Z) : Z :=
  if month =? 1 then if leap year then 29 else 28
  else if (month =? 3) || (month =? 5) || (month =? 8) || (month =? 10) then 30 else 31.

Definition next_day (c : CalendarDate) : CalendarDate :=
  let '(mkDate year month day) := c in
  if day <? month_length year month then mkDate year month (day + 1)
  else if month <? 11 then mkDate year (month + 1) 1
  else mkDate (year + 1) 0 1.

Definition previous_day (c : CalendarDate) : CalendarDate :=
  let '(mkDate year month day) := c in
  if 1 <? day then mkDate year month (day - 1)
  else if 0 <? month then mkDate year (month - 1) (month_length year (month - 1))
  else mkDate (year - 1) 11 (month_length (year - 1) 11).

Definition epoch : CalendarDate := mkDate 1970 0 1.

Definition civil (n : Z) : CalendarDate :=
  if 0 <=? n then Nat.iter (Z.to_nat n) next_day epoch
  else Nat.iter (Z.to_nat (- n)) previous_day epoch.

(** ** Closed forms *)

(** Days from the epoch to the start of a year. *)
Definition year_start (year : Z) : Z :=
  365 * (year - 1970) + (year - 1969) / 4 - (year - 1901) / 100 + (year - 1601) / 400.

Definition year_length (year : Z) : Z := if leap year then 366 else 365.

(** Days from the start of a year to the start of a month. *)
Definition month_start (leap : bool) (month : Z) : Z :=
  nth (Z.to_nat month) [0; 31; 59; 90; 120; 151; 181; 212; 243; 273; 304; 334] 365
  + (if leap && (2 <=? month) then 1 else 0).

Definition day_number (c : CalendarDate) : Z :=
  year_start (cal_year c) + month_start (leap (cal_year c)) (cal_month c) + cal_day c - 1.

Definition valid_date (c : CalendarDate) : Prop :=
  0 <= cal_month c <= 11 /\ 1 <= cal_day c <= month_length (cal_year c) (cal_month c).

Lemma leap_spec y : leap y = true <-> y mod 4 = 0 /\ (y mod 100 <> 0 \/ y mod 400 = 0).
Proof. unfold leap. lia. Qed.

Lemma year_start_next y : year_start (y + 1) = year_start y + year_length y.
Proof.
  unfold year_start, year_length. pose proof (leap_spec y) as Hl.
  assert ((y + 1 - 1969) / 4 = (y - 1969) / 4 + (if y mod 4 =? 0 then 1 else 0)) as ->
    by (case_match; div_lia).
  assert ((y + 1 - 1901) / 100 = (y - 1901) / 100 + (if y mod 100 =? 0 then 1 else 0)) as ->
    by (case_match; div_lia).
  assert ((y + 1 - 1601) / 400 = (y - 1601) / 400 + (if y mod 400 =? 0 then 1 else 0)) as ->
    by (case_match; div_lia).
  assert (y mod 400 = 0 -> y mod 100 = 0) by div_lia.
  assert (y mod 100 = 0 -> y mod 4 = 0) by div_lia.
  destruct (leap y), (Z.eqb_spec (y mod 4) 0), (Z.eqb_spec (y mod 100) 0), (Z.eqb_spec (y mod 400) 0); lia.
Qed.

Lemma year_start_mono y z : y < z -> year_start (y + 1) <= year_start z.
Proof. unfold year_start. intros. div_lia. Qed.

(** Only one year contains a given day. *)
Lemma year_unique n y z :
  year_start y <= n < year_start (y + 1) -> year_start z <= n < year_start (z + 1) -> y = z.
Proof.
  intros Hy Hz. pose proof (year_start_mono y z). pose proof (year_start_mono z y). lia.
Qed.

(** The months, one by one. *)
Ltac month_cases m :=
  let H := fresh in
  assert (H : m = 0 \/ m = 1 \/ m = 2 \/ m = 3 \/ m = 4 \/ m = 5 \/ m = 6 \/ m = 7 \/ m = 8 \/ m = 9 \/
              m = 10 \/ m = 11) by lia;
  destruct_or! H; subst m.

Lemma month_start_next y m : 0 <= m <= 10 ->
  month_start (leap y) (m + 1) = month_start (leap y) m + month_length y m.
Proof. intros Hm. unfold month_length. destruct (leap y); month_cases m; lia || reflexivity. Qed.

Lemma month_start_last y : month_start (leap y) 11 + month_length y 11 = year_length y.
Proof. unfold year_length. by destruct (leap y). Qed.

Lemma month_length_pos y m : 28 <= month_length y m.
Proof. unfold month_length. repeat case_match; lia. Qed.

Lemma month_start_first y : month_start (leap y) 0 = 0.
Proof. by destruct (leap y). Qed.

Lemma month_start_mono l m m' : 0 <= m -> m < m' -> m' <= 11 -> month_start l (m + 1) <= month_start l m'.
Proof.
  intros. destruct l; month_cases m; month_cases m'; try lia; vm_compute; discriminate.
Qed.

(** A valid date lies in its month and its year. *)
Lemma day_in_year c : valid_date c ->
  year_start (cal_year c) <= day_number c < year_start (cal_year c + 1).
Proof.
  destruct c as [y m d]. unfold valid_date, day_number. cbn. intros [Hm Hd].
  rewrite year_start_next. pose proof (month_start_last y). pose proof (month_start_first y).
  assert (0 <= month_start (leap y) m).
  { destruct (decide (m = 0)) as [->|]; [lia|]. pose proof (month_start_mono (leap y) 0 m).
    pose proof (month_start_next y 0). pose proof (month_length_pos y 0). lia. }
  assert (month_start (leap y) m + month_length y m <= year_length y); [|lia].
  destruct (decide (m = 11)) as [->|]; [lia|]. rewrite <- month_start_next by lia.
  pose proof (month_start_mono (leap y) m 11). pose proof (month_length_pos y 11). lia.
Qed.

Lemma day_number_inj c c' : valid_date c -> valid_date c' -> day_number c = day_number c' -> c = c'.
Proof.
  intros Hc Hc' E. pose proof (day_in_year c Hc) as Hy. pose proof (day_in_year c' Hc') as Hy'.
  rewrite <- E in Hy'. pose proof (year_unique _ _ _ Hy Hy') as Ey. clear Hy Hy'.
  destruct c as [y m d], c' as [y' m' d']. unfold valid_date, day_number in *. cbn in *. subst y'.
  assert (m = m') as <-.
  { destruct (Z.lt_trichotomy m m') as [|[|]]; [|done|]; exfalso.
    - pose proof (month_start_mono (leap y) m m'). pose proof (month_start_next y m). lia.
    - pose proof (month_start_mono (leap y) m' m). pose proof (month_start_next y m'). lia. }
  f_equal. lia.
Qed.

Lemma next_day_number c : valid_date c ->
  valid_date (next_day c) /\ day_number (next_day c) = day_number c + 1.
Proof.
  destruct c as [y m d]. unfold valid_date, day_number, next_day. cbn. intros [Hm Hd].
  pose proof (month_start_next y m). pose proof (month_length_pos y (m + 1)).
  pose proof (month_length_pos (y + 1) 0). pose proof (month_start_last y).
  pose proof (year_start_next y). pose proof (month_start_first (y + 1)).
  destruct (Z.ltb_spec d (month_length y m)); cbn; [lia|].
  destruct (Z.ltb_spec m 11); cbn; [lia|]. replace m with 11 in * by lia. lia.
Qed.

Lemma previous_day_number c : valid_date c ->
  valid_date (previous_day c) /\ day_number (previous_day c) = day_number c - 1.
Proof.
  destruct c as [y m d]. unfold valid_date, day_number, previous_day. cbn [cal_year cal_month cal_day]. intros [Hm Hd].
  pose proof (month_start_next y (m - 1)) as Hn. pose proof (month_length_pos y (m - 1)).
  replace (m - 1 + 1) with m in Hn by lia.
  pose proof (year_start_next (y - 1)) as Hs. replace (y - 1 + 1) with y in Hs by lia.
  pose proof (month_start_last (y - 1)). pose proof (month_length_pos (y - 1) 11).
  pose proof (month_start_first y).
  destruct (Z.ltb_spec 1 d); cbn [cal_year cal_month cal_day]; [lia|].
  destruct (Z.ltb_spec 0 m); cbn [cal_year cal_month cal_day]; [lia|]. replace m with 0 in * by lia. lia.
Qed.

Lemma epoch_number : valid_date epoch /\ day_number epoch = 0.
Proof. split; [|done]. unfold valid_date. cbn. lia. Qed.

Lemma civil_number n : valid_date (civil n) /\ day_number (civil n) = n.
Proof.
  unfold civil. destruct (Z.leb_spec 0 n) as [Hn|Hn].
  - rewrite <- (Z2Nat.id n) at 3 by done. induction (Z.to_nat n) as [|k [IHv IHn]]; [apply epoch_number|].
    change (Nat.iter (S k) next_day epoch) with (next_day (Nat.iter k next_day epoch)).
    destruct (next_day_number _ IHv). split; [done|]. lia.
  - assert (E : n = - Z.of_nat (Z.to_nat (- n))) by lia. rewrite E at 3. clear E.
    induction (Z.to_nat (- n)) as [|k [IHv IHn]]; [apply epoch_number|].
    change (Nat.iter (S k) previous_day epoch) with (previous_day (Nat.iter k previous_day epoch)).
    destruct (previous_day_number _ IHv). split; [done|]. lia.
Qed.

(** The calendar date of a day is the valid date with that number. *)
Lemma civil_unique c n : valid_date c -> day_number c = n -> civil n = c.
Proof.
  intros Hv <-. destruct (civil_number (day_number c)) as [Hv' Hn]. by apply day_number_inj.
Qed.

(** The arithmetic of [Date] is that of the calendar: fields of time values, time values of fields. *)

(** Integers in the range of time values. *)
Definition MAX_TIME : Z := 8640000000000000.
Definition time_range (t : Z) : Prop := Z.abs t <= MAX_TIME.
Definition MS_DAY : Z := 86400000.

Ltac safe_lia := unfold safe, time_range, MAX_TIME, MS_DAY in *; div_lia.

Lemma ms_per_minute : MS_PER_MINUTE = lit 60000.
Proof. by vm_compute. Qed.
Lemma ms_per_hour : MS_PER_HOUR = lit 3600000.
Proof. by vm_compute. Qed.
Lemma ms_per_day : MS_PER_DAY = lit MS_DAY.
Proof. by vm_compute. Qed.

(** [365.2425] is a fraction with denominator 2^44. *)
Definition DPY_BITS : Z := 6425414011327611.

Lemma days_per_year_scaled :
  f64_scaled DAYS_PER_YEAR = DPY_BITS * 2 ^ 1030 /\ f64_is_nan DAYS_PER_YEAR = false /\
  f64_is_infinite DAYS_PER_YEAR = false /\ f64_sign DAYS_PER_YEAR = false.
Proof. by vm_compute. Qed.

Lemma div_days_per_year n : safe n ->
  f64_div (lit n) DAYS_PER_YEAR = f64_with_sign (n <? 0) (f64_of_ratio (Z.abs n * 2 ^ 44) DPY_BITS).
Proof.
  intros Hn. destruct days_per_year_scaled as (Hs & Hnan & Hinf & Hsg). unfold f64_div.
  rewrite Hs, Hnan, Hinf, Hsg. f64_int. cbn [orb]. rewrite xorb_false_r.
  assert (E : F64_ONE_SCALED = 2 ^ 44 * 2 ^ 1030) by done. rewrite E. assert (0 < 2 ^ 1030) by done.
  set (p := 2 ^ 1030) in *. clearbody p. unfold DPY_BITS.
  rewrite (proj2 (Z.eqb_neq _ _)) by lia. rewrite Z.abs_mul, !(Z.abs_eq (_ * p)) by lia.
  by rewrite Z.mul_assoc, ratio_scale by lia.
Qed.

Lemma ratio_pattern num den : f64_ok (f64_of_ratio num den) /\ f64_is_nan (f64_of_ratio num den) = false.
Proof. split; [apply f64_round_ok|apply f64_round_not_nan]. Qed.

#[local] Opaque f64_of_int f64_add f64_sub f64_mul f64_div f64_floor f64_modulo f64_of_ratio.
#[local] Opaque MS_PER_DAY MS_PER_HOUR MS_PER_MINUTE DAYS_PER_YEAR F64_ONE_SCALED.

(** ** Days *)

Lemma day_int t : time_range t -> day (lit t) = lit (t / MS_DAY).
Proof. intros Ht. unfold day. rewrite ms_per_day. apply floor_div_int; safe_lia. Qed.

Lemma time_within_day_int t : time_range t -> time_within_day (lit t) = lit (t mod MS_DAY).
Proof. intros Ht. unfold time_within_day. rewrite ms_per_day. apply modulo_int; safe_lia. Qed.

Lemma week_day_int t : time_range t -> week_day (lit t) = lit ((t / MS_DAY + 4) mod 7).
Proof. intros Ht. unfold week_day. rewrite day_int, add_int by safe_lia. apply modulo_int; safe_lia. Qed.

Lemma hour_int t : time_range t -> hour_from_time (lit t) = lit (t / 3600000 mod 24).
Proof.
  intros Ht. unfold hour_from_time, HOURS_PER_DAY. rewrite ms_per_hour, floor_div_int by safe_lia.
  apply modulo_int; safe_lia.
Qed.

Lemma minute_int t : time_range t -> minute_from_time (lit t) = lit (t / 60000 mod 60).
Proof.
  intros Ht. unfold minute_from_time, MINUTES_PER_HOUR. rewrite ms_per_minute, floor_div_int by safe_lia.
  apply modulo_int; safe_lia.
Qed.

Lemma second_int t : time_range t -> second_from_time (lit t) = lit (t / 1000 mod 60).
Proof.
  intros Ht. unfold second_from_time, MS_PER_SECOND, SECONDS_PER_MINUTE. rewrite floor_div_int by safe_lia.
  apply modulo_int; safe_lia.
Qed.

Lemma millisecond_int t : time_range t -> millisecond_from_time (lit t) = lit (t mod 1000).
Proof. intros Ht. apply modulo_int; safe_lia. Qed.

(** ** Years *)

Lemma is_leap_year_spec y : is_leap_year y = leap y.
Proof.
  unfold is_leap_year, leap.
  assert (forall k, 0 < k -> (Z.rem y k =? 0) = (y mod k =? 0)) as H; [|by rewrite !H by lia].
  intros k Hk. pose proof (Z.rem_divide y k ltac:(lia)). pose proof (Z.mod_divide y k ltac:(lia)).
  destruct (Z.eqb_spec (Z.rem y k) 0), (Z.eqb_spec (y mod k) 0); tauto.
Qed.

(** The years of time values, and some more. *)
Definition year_range (y : Z) : Prop := -271900 <= y <= 275900.

Lemma year_start_range y : year_range y -> Z.abs (year_start y) <= 100100000.
Proof. unfold year_range, year_start. div_lia. Qed.

Lemma day_from_year_int y : year_range y -> day_from_year (lit y) = lit (year_start y).
Proof.
  intros Hy. unfold day_from_year, year_start, year_range in *.
  match goal with |- ?b = lit ?n => change (int_of b n) end. int_of; safe_lia.
Qed.

Lemma days_in_year_int y : days_in_year y = lit (year_length y).
Proof. unfold days_in_year, year_length. rewrite is_leap_year_spec. by destruct (leap y). Qed.

#[local] Opaque day day_from_year.

Lemma time_from_year_int y : year_range y -> time_from_year (lit y) = lit (MS_DAY * year_start y).
Proof.
  intros Hy. pose proof (year_start_range y Hy). pose proof (day_from_year_int y Hy) as Hd.
  unfold time_from_year. match goal with |- ?b = lit ?n => change (int_of b n) end.
  eapply int_of_mul; [apply ms_per_day|exact Hd|safe_lia..].
Qed.
#[local] Opaque time_from_year.

(** The quotient by the mean length of a year, as an approximation [x] of the exact one. *)
Lemma ratio_days_per_year n : 0 < n <= 2 ^ 30 ->
  let x := f64_scaled (f64_of_ratio (n * 2 ^ 44) DPY_BITS) in
  0 < x < 2 ^ 2098 /\
  2 ^ 50 * Z.abs (x * DPY_BITS - n * 2 ^ 44 * F64_ONE_SCALED) <= n * 2 ^ 44 * F64_ONE_SCALED.
Proof.
  cbn zeta. intros Hn. set (a := n * 2 ^ 44) in *. assert (Ha : 2 ^ 44 <= a <= 2 ^ 74) by lia. clearbody a.
  pose proof (ratio_bits_near a DPY_BITS ltac:(lia) ltac:(done)) as [Hm0 Hm].
  pose proof (ratio_accuracy a DPY_BITS ltac:(lia) ltac:(done)) as Hx. cbn zeta in Hx.
  set (m := ratio_bits a DPY_BITS) in *. set (x := f64_scaled (f64_of_ratio a DPY_BITS)) in *. clearbody m x.
  assert (HS : 2 ^ 1076 = 4 * F64_ONE_SCALED) by done. rewrite HS in Hm. clear HS.
  assert (Hone : 2 ^ 108 < F64_ONE_SCALED) by done.
  assert (Hbig : 2 ^ 200 * F64_ONE_SCALED < 2 ^ 2098) by done.
  set (O := F64_ONE_SCALED) in *. set (B := 2 ^ 2098) in *. clearbody O B. unfold DPY_BITS in *.
  assert (a * O <= 2 ^ 74 * O) by (apply Z.mul_le_mono_nonneg_r; lia).
  assert (2 ^ 44 * O <= a * O) by (apply Z.mul_le_mono_nonneg_r; lia).
  destruct Hx as [Hx Hacc]; lia.
Qed.

(** The approximate year of a day is off by less than a few days. *)
Lemma approximate_year n : Z.abs n <= 100000000 ->
  exists k, f64_floor (f64_div (lit n) DAYS_PER_YEAR) = lit k /\
    3652425 * k <= 10000 * n + 20000 /\ 10000 * n < 3652425 * (k + 1) + 20000.
Proof.
  intros Hn. rewrite div_days_per_year by safe_lia.
  destruct (decide (n = 0)) as [->|Hnz]; [exists 0; split; [by vm_compute|lia]|].
  destruct (ratio_days_per_year (Z.abs n) ltac:(lia)) as [Hx Hacc]. set (r := f64_of_ratio _ _) in *.
  destruct (ratio_pattern (Z.abs n * 2 ^ 44) DPY_BITS) as [Hok Hnan]. fold r in Hok, Hnan.
  assert (Hfin : f64_is_finite r = true) by (apply f64_finite_of_scaled; [done|lia]).
  destruct (neg_parts r Hok) as (_ & Hnf & _ & Hns & _).
  set (v := f64_with_sign (n <? 0) r).
  assert (Hv : f64_is_finite v = true /\ f64_scaled v = (if n <? 0 then -1 else 1) * f64_scaled r /\
               (0 < f64_scaled v -> f64_sign v = false)).
  { unfold v, f64_with_sign. destruct (Z.ltb_spec n 0); rewrite ?Hnf, ?Hns; split_and!; try done; try lia.
    intros _. apply ratio_sign; unfold DPY_BITS; lia. }
  clearbody v. destruct Hv as (Hvf & Hvs & Hvg). pose proof F64_ONE_pos as HO.
  set (k := f64_scaled v / F64_ONE_SCALED). exists k.
  pose proof (Z.div_mod (f64_scaled v) F64_ONE_SCALED ltac:(lia)) as Hk.
  pose proof (Z.mod_pos_bound (f64_scaled v) F64_ONE_SCALED HO). fold k in Hk.
  split.
  { apply floor_value; [done|lia|]. intros Hk0. apply Hvg. rewrite Hk0 in Hk.
    destruct (Z.ltb_spec n 0); lia. }
  set (O := F64_ONE_SCALED) in *. set (X := f64_scaled v) in *. set (x := f64_scaled r) in *.
  clearbody O X x k. unfold DPY_BITS in *.
  assert (Hc : (2 ^ 50 * DPY_BITS * k) * O <= (2 ^ 94 * n + 2 ^ 44 * Z.abs n) * O /\
               (2 ^ 94 * n - 2 ^ 44 * Z.abs n) * O < (2 ^ 50 * DPY_BITS * (k + 1)) * O).
  { unfold DPY_BITS. destruct (Z.ltb_spec n 0);
      [rewrite (Z.abs_neq n) in * by lia|rewrite (Z.abs_eq n) in * by lia]; lia. }
  destruct Hc as [H1%Z.mul_le_mono_pos_r H2%Z.mul_lt_mono_pos_r]; [|done..]. unfold DPY_BITS in *. lia.
Qed.

Lemma year_from_time_cases time d year year_time (before after : bool) :
  day time = d -> f64_add (f64_floor (f64_div d DAYS_PER_YEAR)) (lit 1970) = year ->
  time_from_year year = year_time -> f64_lt time year_time = before ->
  f64_le (f64_add year_time (f64_mul (days_in_year (as_i64 year)) MS_PER_DAY)) time = after ->
  year_from_time time =
    if before then f64_sub year (lit 1) else if after then f64_add year (lit 1) else year.
Proof. intros <- <- <- <- <-. reflexivity. Qed.

(** The year of a time value contains its day. *)
Lemma year_int t : time_range t ->
  exists y, year_from_time (lit t) = lit y /\ -271900 < y < 275900 /\
    year_start y <= t / MS_DAY < year_start (y + 1).
Proof.
  intros Ht. pose proof (day_int t Ht) as Hday. remember (t / MS_DAY) as n eqn:En.
  assert (Hn : Z.abs n <= 100000000) by safe_lia.
  assert (Htn : n * MS_DAY <= t < (n + 1) * MS_DAY) by safe_lia. clear En.
  destruct (approximate_year n Hn) as (k & Hk & Hlo & Hhi).
  assert (Hyear : f64_add (f64_floor (f64_div (lit n) DAYS_PER_YEAR)) (lit 1970) = lit (k + 1970)).
  { rewrite Hk. apply add_int; unfold safe; lia. }
  remember (k + 1970) as y eqn:Ey. unfold time_range, MAX_TIME in Ht.
  assert (Hy : -271898 < y < 275898) by lia. assert (Hr : year_range y) by (unfold year_range; lia).
  pose proof (year_start_range y Hr) as Hs. pose proof (year_start_next y) as Hnext.
  assert (365 <= year_length y <= 366) by (unfold year_length; case_match; lia).
  assert (Hdays : int_of (days_in_year (as_i64 (lit y))) (year_length y)).
  { unfold as_i64. rewrite as_i64_int by (unfold safe; lia). apply days_in_year_int. }
  rewrite (year_from_time_cases _ _ _ _ (t <? MS_DAY * year_start y)
             (MS_DAY * year_start y + year_length y * MS_DAY <=? t) Hday Hyear (time_from_year_int y Hr)).
  2: { apply lt_int; unfold safe, MS_DAY in *; lia. }
  2: { eapply int_of_le; [eapply int_of_add; [apply int_of_lit|eapply int_of_mul; [exact Hdays|apply ms_per_day|..]|..]
                         |apply int_of_lit|..]; unfold safe, MS_DAY in *; lia. }
  unfold MS_DAY in *. destruct (Z.ltb_spec t (86400000 * year_start y));
    [|destruct (Z.leb_spec (86400000 * year_start y + year_length y * 86400000) t)].
  - exists (y - 1). replace (y - 1 + 1) with y by lia.
    split_and!; [apply sub_int; unfold safe; lia|lia..| |lia]. unfold year_start. div_lia.
  - exists (y + 1). split_and!; [apply add_int; unfold safe; lia|lia..|]. unfold year_start. div_lia.
  - exists y. split_and!; [done|lia..].
Qed.

(** ** Dates *)

(** What the fields of a time value are in terms of its date. *)
Lemma year_of_day t y : time_range t -> year_start y <= t / MS_DAY < year_start (y + 1) ->
  year_from_time (lit t) = lit y /\ year_range y.
Proof.
  intros Ht Hy. destruct (year_int t Ht) as (z & -> & Hz & Hzt).
  pose proof (year_unique _ _ _ Hy Hzt) as ->. split; [done|]. unfold year_range. lia.
Qed.

Lemma day_within_year_int t y : time_range t -> year_start y <= t / MS_DAY < year_start (y + 1) ->
  day_within_year (lit t) = lit (t / MS_DAY - year_start y).
Proof.
  intros Ht Hy. destruct (year_of_day t y Ht Hy) as [E Hr]. unfold day_within_year.
  rewrite E, day_int, day_from_year_int by assumption. pose proof (year_start_range y Hr). apply sub_int; safe_lia.
Qed.

(** The month of a day of the year, in integers. *)
Definition month_of_day (l w : Z) : option Z :=
  let within lo hi := (lo <=? w) && (w <? hi) in
  if within 0 31 then Some 0
  else if within 31 (59 + l) then Some 1
  else if within (59 + l) (90 + l) then Some 2
  else if within (90 + l) (120 + l) then Some 3
  else if within (120 + l) (151 + l) then Some 4
  else if within (151 + l) (181 + l) then Some 5
  else if within (181 + l) (212 + l) then Some 6
  else if within (212 + l) (243 + l) then Some 7
  else if within (243 + l) (273 + l) then Some 8
  else if within (273 + l) (304 + l) then Some 9
  else if within (304 + l) (334 + l) then Some 10
  else if within (334 + l) (365 + l) then Some 11
  else None.

Ltac month_eval H :=
  match type of H with context [month_start ?l ?m] =>
    let v := eval vm_compute in (month_start l m) in change (month_start l m) with v in H end.

Lemma month_of_day_spec (y m d w : Z) : 0 <= m <= 11 -> 1 <= d <= month_length y m ->
  w = month_start (leap y) m + d - 1 -> month_of_day (if leap y then 1 else 0) w = Some m.
Proof.
  intros Hm Hd Hw. unfold month_of_day, month_length in *. cbn zeta.
  destruct (leap y); month_cases m; month_eval Hw; cbn in Hd;
    repeat match goal with |- context [if ?b then _ else _] =>
      first [replace b with false by lia|replace b with true by lia; reflexivity] end.
Qed.

Lemma month_chain t y w : year_range y -> year_from_time (lit t) = lit y ->
  day_within_year (lit t) = lit w -> 0 <= w < 366 ->
  month_from_time (lit t) =
    match month_of_day (if leap y then 1 else 0) w with Some m => Done (lit m) | None => Panicked end.
Proof.
  intros Hr E Ew Hw. unfold month_from_time, month_of_day, year_range in *. cbn zeta.
  rewrite E, Ew, as_i64_int, is_leap_year_spec by (unfold safe; lia).
  assert ((if leap y then lit 1 else lit 0) = lit (if leap y then 1 else 0)) as -> by by destruct (leap y).
  assert (Hl : 0 <= (if leap y then 1 else 0) <= 1) by (case_match; lia).
  set (l := if leap y then 1 else 0) in *. clearbody l. clear E Ew Hr.
  assert (Ha : forall n, 0 <= n <= 365 -> f64_add (lit n) (lit l) = lit (n + l))
    by (intros; apply add_int; unfold safe; lia).
  assert (Hle : forall n, 0 <= n <= 366 -> f64_le (lit n) (lit w) = (n <=? w))
    by (intros; apply le_int; unfold safe; lia).
  assert (Hlt : forall n, 0 <= n <= 366 -> f64_lt (lit w) (lit n) = (w <? n))
    by (intros; apply lt_int; unfold safe; lia).
  rewrite !Ha, !Hle, !Hlt by lia. repeat (destruct (_ && _); [reflexivity|]). reflexivity.
Qed.

Lemma month_int t y m d : time_range t -> t / MS_DAY = day_number (mkDate y m d) ->
  valid_date (mkDate y m d) -> month_from_time (lit t) = Done (lit m).
Proof.
  intros Ht Hn Hv. pose proof (day_in_year _ Hv) as Hy. rewrite <- Hn in Hy. cbn [cal_year] in Hy.
  destruct (year_of_day t y Ht Hy) as [E Hr]. pose proof (year_start_next y) as Hnext.
  destruct Hv as [Hm Hd]. unfold day_number in Hn. cbn [cal_year cal_month cal_day] in *.
  rewrite (month_chain t y (t / MS_DAY - year_start y)); [|done..|by apply day_within_year_int|].
  - by rewrite (month_of_day_spec y m d) by lia.
  - unfold year_length in Hnext. case_match; lia.
Qed.

Lemma months_table m : 0 <= m <= 11 -> MONTHS_TABLE !! Z.to_nat m = Some (lit (month_start false m - 1)).
Proof. intros Hm. month_cases m; vm_compute; reflexivity. Qed.

Lemma month_start_leap l m :
  month_start l m = month_start false m + (if l && (2 <=? m) then 1 else 0).
Proof. unfold month_start. cbn [andb]. lia. Qed.

Lemma month_start_range m : 0 <= m <= 11 -> 0 <= month_start false m <= 334.
Proof. intros Hm. month_cases m; by vm_compute. Qed.

Lemma date_int t y m d : time_range t -> t / MS_DAY = day_number (mkDate y m d) ->
  valid_date (mkDate y m d) -> date_from_time (lit t) = Done (lit d).
Proof.
  intros Ht Hn Hv. pose proof (day_in_year _ Hv) as Hy. rewrite <- Hn in Hy. cbn [cal_year] in Hy.
  destruct (year_of_day t y Ht Hy) as [E Hr]. pose proof (day_within_year_int t y Ht Hy) as Hw.
  unfold date_from_time. rewrite (month_int t y m d Ht Hn Hv). cbn [mbind outcome_bind].
  destruct Hv as [Hm Hd]. unfold day_number in Hn. cbn [cal_year cal_month cal_day] in *.
  rewrite E. unfold as_i64. rewrite as_i64_int, is_leap_year_spec by (unfold year_range, safe in *; lia).
  assert (f64_as_int 0 usize_max (lit m) = m) as ->.
  { apply f64_as_int_exact; [apply int_not_nan|apply int_scaled; unfold safe; lia|unfold usize_max; lia]. }
  rewrite months_table, le_int by (unfold safe; lia). cbn [unwrap mbind outcome_bind]. f_equal.
  assert (Hl : int_of (if leap y && (2 <=? m) then lit 1 else lit 0) (if leap y && (2 <=? m) then 1 else 0))
    by (case_match; apply int_of_lit).
  pose proof (month_start_leap (leap y) m) as Hs. pose proof (month_start_range m Hm).
  pose proof (month_start_first y). pose proof (year_start_next y). unfold year_length in *.
  assert (Hb : 0 <= (if leap y && (2 <=? m) then 1 else 0) <= 1) by (destruct (leap y && (2 <=? m)); lia).
  set (b := if leap y && (2 <=? m) then 1 else 0) in *.
  replace d with (t / MS_DAY - year_start y - (month_start false m - 1) - b) by lia.
  apply int_of_sub; [apply int_of_sub; [exact Hw|apply int_of_lit|..]|exact Hl|..]; unfold safe;
    destruct (leap y); lia.
Qed.

(** The date of a time value, as the calendar has it. *)
Lemma date_of_time t : time_range t ->
  let c := civil (t / MS_DAY) in
  year_from_time (lit t) = lit (cal_year c) /\
  month_from_time (lit t) = Done (lit (cal_month c)) /\
  date_from_time (lit t) = Done (lit (cal_day c)) /\ year_range (cal_year c) /\ valid_date c.
Proof.
  cbn zeta. intros Ht. destruct (civil_number (t / MS_DAY)) as [Hv Hn].
  destruct (civil (t / MS_DAY)) as [y m d]. pose proof (day_in_year _ Hv) as Hy. rewrite Hn in Hy.
  destruct (year_of_day t y Ht Hy). cbn [cal_year cal_month cal_day].
  by rewrite (month_int t y m d), (date_int t y m d).
Qed.

(** ** Time values from fields *)

Lemma checked_fits n : Z.abs n < 2 ^ 63 -> checked n = Some n.
Proof. intros. unfold checked, fits_i64, i64_min, i64_max. by rewrite (proj2 (andb_true_iff _ _)) by lia. Qed.

Lemma floor_div_spec a b : Z.abs a < 2 ^ 62 -> 0 < b -> floor_div a b = Some (a / b).
Proof.
  intros Ha Hb. unfold floor_div, checked_add, checked_div, checked_sub.
  rewrite (proj2 (Z.eqb_neq b 0)) by lia.
  destruct (Z.leb_spec 0 a).
  - assert (0 <= a / b <= a) by (split; [apply Z.div_pos|apply Z.div_le_upper_bound]; nia).
    rewrite Z.quot_div_nonneg, checked_fits by lia. done.
  - rewrite checked_fits by lia. cbn [mbind option_bind].
    assert (E : Z.quot (a + 1) b - 1 = a / b).
    { replace (a + 1) with (- (- a - 1)) by lia. rewrite Z.quot_opp_l, Z.quot_div_nonneg by lia.
      pose proof (Z.div_mod (- a - 1) b ltac:(lia)). pose proof (Z.mod_pos_bound (- a - 1) b Hb).
      apply Z.div_unique_pos with (b - 1 - (- a - 1) mod b); lia. }
    assert (a <= a / b <= 0) by (split; [apply Z.div_le_lower_bound|apply Z.div_le_upper_bound]; nia).
    rewrite checked_fits by lia. cbn [mbind option_bind]. by rewrite E, checked_fits by lia.
Qed.

Lemma leap_years_before y : Z.abs y <= 2 ^ 50 ->
  leap_years_before_year y = Some ((y - 1) / 4 - (y - 1) / 100 + (y - 1) / 400).
Proof.
  intros Hy. unfold leap_years_before_year, checked_sub, checked_add.
  rewrite checked_fits by lia. cbn [mbind option_bind].
  do 3 (rewrite floor_div_spec by lia; cbn [mbind option_bind]).
  rewrite (checked_fits ((y - 1) / 4 - _)) by div_lia. cbn [mbind option_bind].
  apply checked_fits. div_lia.
Qed.

Lemma year_to_days y : Z.abs y <= 2 ^ 50 -> year_to_days_since_unix_epoch y = Some (year_start y).
Proof.
  intros Hy. unfold year_to_days_since_unix_epoch, checked_sub, checked_mul, checked_add, leap_years_between_years.
  rewrite checked_fits by lia. cbn [mbind option_bind]. rewrite checked_fits by lia. cbn [mbind option_bind].
  rewrite !leap_years_before by lia. cbn [mbind option_bind]. unfold checked_sub.
  assert (E : (y - 1970) * 365 + ((y - 1) / 4 - (y - 1) / 100 + (y - 1) / 400 - 477) = year_start y)
    by (unfold year_start; div_lia).
  assert (Z.abs (year_start y) < 2 ^ 60) by (unfold year_start; div_lia).
  change ((1970 - 1) / 4 - (1970 - 1) / 100 + (1970 - 1) / 400) with 477.
  remember ((y - 1) / 4 - (y - 1) / 100 + (y - 1) / 400) as l eqn:El.
  destruct (Z.leb_spec 0 (y - 1970)); rewrite checked_fits by lia; cbn [mbind option_bind];
    rewrite checked_fits by lia; f_equal; lia.
Qed.

Lemma wrap_i64_small n : Z.abs n < 2 ^ 62 -> wrap_i64 n = n.
Proof. intros. unfold wrap_i64, cast_signed, wrap64. case_match; div_lia. Qed.

Lemma days_to_month m : 0 <= m <= 11 -> DAYS_TO_MONTH_START !! Z.to_nat m = Some (month_start false m - 1).
Proof. intros Hm. month_cases m; reflexivity. Qed.

Lemma days_since_epoch y m d : Z.abs y <= 2 ^ 50 -> 0 <= m <= 11 -> Z.abs d <= 2 ^ 50 ->
  year_month_day_to_days_since_unix_epoch y (m + 1) d = Done (Some (day_number (mkDate y m d))).
Proof.
  intros Hy Hm Hd. unfold year_month_day_to_days_since_unix_epoch, year_month_day_to_days_since_year_start.
  rewrite year_to_days by done. rewrite (proj2 (andb_true_iff _ _)) by lia.
  replace (m + 1 - 1) with m by lia. rewrite days_to_month by done. cbn [unwrap mbind outcome_bind].
  rewrite is_leap_year_spec. pose proof (month_start_range m Hm). pose proof (month_start_leap (leap y) m) as Hs.
  replace (2 <? m + 1) with (2 <=? m) by lia.
  assert (Hb : 0 <= (if leap y && (2 <=? m) then 1 else 0) <= 1) by (destruct (leap y && (2 <=? m)); lia).
  rewrite !wrap_i64_small by (rewrite ?wrap_i64_small by lia; lia).
  unfold checked_add, day_number. cbn [cal_year cal_month cal_day].
  assert (Z.abs (year_start y) < 2 ^ 60) by (unfold year_start; div_lia).
  rewrite checked_fits by lia. do 2 f_equal. lia.
Qed.

Lemma make_day_int y m d : Z.abs y <= 2 ^ 30 -> Z.abs m <= 2 ^ 30 -> Z.abs d <= 2 ^ 50 ->
  make_day (lit y) (lit m) (lit d) = Done (lit (day_number (mkDate (y + m / 12) (m mod 12) d))).
Proof.
  intros Hy Hm Hd. unfold make_day. rewrite !int_finite by (unfold safe; lia). cbn [negb orb].
  rewrite !to_integer_int by (unfold safe; lia).
  assert (Hdiv : Z.abs (m / 12) <= 2 ^ 30) by div_lia. assert (Hmod : 0 <= m mod 12 <= 11) by div_lia.
  assert (Hyear : f64_add (lit y) (f64_floor (f64_div (lit m) (lit 12))) = lit (y + m / 12)).
  { apply int_of_add; [apply int_of_lit|apply int_of_floor_div; [apply int_of_lit|apply int_of_lit|unfold safe; lia..]|..];
      unfold safe; lia. }
  rewrite Hyear, int_finite by (unfold safe; lia). cbn [negb]. unfold as_i64.
  rewrite modulo_int, !as_i64_int by (unfold safe; lia). rewrite wrap_i64_small by lia.
  rewrite days_since_epoch by lia. cbn [mbind outcome_bind]. f_equal.
  set (c := y + m / 12) in *. assert (Hc : Z.abs c <= 2 ^ 32) by lia.
  assert (Hs : Z.abs (day_number (mkDate c (m mod 12) 1)) <= 2 ^ 50).
  { unfold day_number, year_start. cbn [cal_year cal_month cal_day]. pose proof (month_start_range _ Hmod).
    rewrite month_start_leap. set (b := leap c && (2 <=? m mod 12)). clearbody c b. clear Hyear Hmod Hdiv Hm.
    destruct b; div_lia. }
  assert (E : day_number (mkDate c (m mod 12) d) = day_number (mkDate c (m mod 12) 1) + d - 1)
    by (unfold day_number; cbn; lia).
  rewrite E. apply int_of_sub; [apply int_of_add; [apply int_of_lit|apply int_of_lit|unfold safe; lia..]|apply int_of_lit|..];
    unfold safe; lia.
Qed.

Lemma make_time_int h m s ms : Z.abs h <= 2 ^ 30 -> Z.abs m <= 2 ^ 30 -> Z.abs s <= 2 ^ 30 -> Z.abs ms <= 2 ^ 51 ->
  make_time (lit h) (lit m) (lit s) (lit ms) = lit (h * 3600000 + m * 60000 + s * 1000 + ms).
Proof.
  intros Hh Hm Hs Hms. unfold make_time. rewrite !int_finite by (unfold safe; lia). cbn [negb orb].
  rewrite !to_integer_int by (unfold safe; lia). unfold MS_PER_SECOND.
  pose proof ms_per_hour as H1. pose proof ms_per_minute as H2.
  match goal with |- ?b = lit ?n => change (int_of b n) end.
  change (int_of MS_PER_HOUR 3600000) in H1. change (int_of MS_PER_MINUTE 60000) in H2.
  int_of; unfold safe; lia.
Qed.

Lemma make_date_int d t : Z.abs d <= 100010000 -> Z.abs t <= 2 ^ 48 ->
  make_date (lit d) (lit t) = lit (d * MS_DAY + t).
Proof.
  intros Hd Ht. unfold make_date. rewrite !int_finite by (unfold safe; lia). cbn [negb orb].
  assert (E : f64_add (f64_mul (lit d) MS_PER_DAY) (lit t) = lit (d * MS_DAY + t)).
  { apply int_of_add; [apply int_of_mul; [apply int_of_lit|apply ms_per_day|..]|apply int_of_lit|..];
      unfold safe, MS_DAY; lia. }
  by rewrite E, int_finite by (unfold safe, MS_DAY; lia).
Qed.

Lemma time_clip_int t : safe t ->
  time_clip (lit t) = if Z.abs t <=? MAX_TIME then lit t else F64_NAN.
Proof.
  intros Ht. unfold time_clip. rewrite int_finite by done. cbn [negb].
  rewrite abs_int, to_integer_int by done. unfold MAX_TIME_VALUE.
  rewrite lt_int by (unfold safe in *; lia). fold MAX_TIME.
  destruct (Z.ltb_spec MAX_TIME (Z.abs t)), (Z.leb_spec (Z.abs t) MAX_TIME); done || lia.
Qed.

(** A clipped number is NaN or an integer in the range of time values. *)
Definition time_value (f : f64) : Prop := f = F64_NAN \/ exists t, time_range t /\ f = lit t.

Lemma time_clip_value f : f64_ok f -> time_value (time_clip f).
Proof.
  intros Hok. unfold time_clip. destruct (f64_is_finite f) eqn:Hf; cbn [negb]; [|by left].
  destruct (f64_lt MAX_TIME_VALUE (f64_abs f)) eqn:Hl; [by left|]. right.
  exists (f64_integer_part f). split; [|by apply to_integer_value].
  unfold f64_lt, MAX_TIME_VALUE in Hl. rewrite int_not_nan, (f64_is_finite_not_nan (f64_abs f)) in Hl
    by by rewrite f64_abs_finite. cbn [negb andb] in Hl. apply Z.ltb_ge in Hl.
  rewrite f64_scaled_abs in Hl.
  rewrite int_scaled in Hl by (unfold safe; lia). fold MAX_TIME in Hl. pose proof F64_ONE_pos.
  unfold time_range, f64_integer_part.
  rewrite <- Z.quot_abs, (Z.abs_eq F64_ONE_SCALED), Z.quot_div_nonneg by lia.
  apply Z.div_le_upper_bound; lia.
Qed.

(** The parts of a time value. *)
Lemma time_parts t :
  t = t / MS_DAY * MS_DAY + t mod MS_DAY /\
  t mod MS_DAY = t / 3600000 mod 24 * 3600000 + t / 60000 mod 60 * 60000 + t / 1000 mod 60 * 1000 + t mod 1000.
Proof. unfold MS_DAY. split; div_lia. Qed.

(** ** Theorems *)

(** C8: The getters of a time value follow the calendar: for each integer [t] of milliseconds in the
    range of time values, the year, month and date computed in floating point are those of the day
    [t / 86400000] of the proleptic Gregorian calendar counted day by day from the first of January
    1970, the week day is that of the count from a Thursday, and the hour, minute, second and
    millisecond are the ones whose sum is [t]. *)
Theorem date_fields_follow_calendar t : time_range t ->
  let n := t / MS_DAY in
  let c := civil n in
  year_from_time (lit t) = lit (cal_year c) /\
  month_from_time (lit t) = Done (lit (cal_month c)) /\
  date_from_time (lit t) = Done (lit (cal_day c)) /\
  week_day (lit t) = lit ((4 + n) mod 7) /\
  exists h m s ms,
    hour_from_time (lit t) = lit h /\ minute_from_time (lit t) = lit m /\
    second_from_time (lit t) = lit s /\ millisecond_from_time (lit t) = lit ms /\
    0 <= h < 24 /\ 0 <= m < 60 /\ 0 <= s < 60 /\ 0 <= ms < 1000 /\
    t = (((n * 24 + h) * 60 + m) * 60 + s) * 1000 + ms.
Proof.
  cbn zeta. intros Ht. destruct (date_of_time t Ht) as (Hy & Hm & Hd & _). split_and!; [done..| |].
  - rewrite week_day_int by done. do 2 f_equal. lia.
  - exists (t / 3600000 mod 24), (t / 60000 mod 60), (t / 1000 mod 60), (t mod 1000).
    rewrite hour_int, minute_int, second_int, millisecond_int by done.
    destruct (time_parts t) as [H1 H2]. unfold MS_DAY in *. split_and!; try done; try (apply Z.mod_pos_bound; lia). lia.
Qed.

Lemma date_fields_follow_calendar_witness :
  time_range (-1) /\ year_from_time (lit (-1)) = lit 1969.
Proof.
  assert (H : time_range (-1)) by (unfold time_range, MAX_TIME; lia). split; [exact H|].
  destruct (date_fields_follow_calendar (-1) H) as [E _]. rewrite E. reflexivity.
Defined.

(** C37: The setters' arithmetic inverts the getters': the day made from the year, month and date of a
    time value and the time made from its hour, minute, second and millisecond combine to the time
    value, which clipping keeps; without a panic on the way. *)
Theorem fields_make_the_time_value t : time_range t ->
  (month ← month_from_time (lit t);
   date ← date_from_time (lit t);
   days ← make_day (year_from_time (lit t)) month date;
   Done (time_clip (make_date days
     (make_time (hour_from_time (lit t)) (minute_from_time (lit t)) (second_from_time (lit t))
        (millisecond_from_time (lit t)))))) = Done (lit t).
Proof.
  intros Ht. destruct (date_of_time t Ht) as (Hy & Hm & Hd & Hr & Hv).
  destruct (civil_number (t / MS_DAY)) as [_ Hn]. destruct (time_parts t) as [H1 H2].
  rewrite Hy, Hm, Hd, hour_int, minute_int, second_int, millisecond_int by done. cbn [mbind outcome_bind].
  destruct (civil (t / MS_DAY)) as [y m d]. cbn [cal_year cal_month cal_day] in *.
  destruct Hv as [Hvm Hvd]. cbn [cal_year cal_month cal_day] in *.
  assert (month_length y m <= 31) by (unfold month_length; repeat case_match; lia).
  rewrite make_day_int by (unfold year_range in Hr; lia). cbn [mbind outcome_bind].
  rewrite Z.div_small, Z.mod_small, Z.add_0_r, Hn by lia.
  rewrite make_time_int, <- H2, make_date_int, <- H1, time_clip_int by safe_lia.
  unfold time_range in Ht. by rewrite (proj2 (Z.leb_le _ _)).
Qed.

Lemma fields_make_the_time_value_witness :
  time_range 8640000000000000 /\
  (month ← month_from_time (lit 8640000000000000);
   date ← date_from_time (lit 8640000000000000);
   days ← make_day (year_from_time (lit 8640000000000000)) month date;
   Done (time_clip (make_date days
     (make_time (hour_from_time (lit 8640000000000000)) (minute_from_time (lit 8640000000000000))
        (second_from_time (lit 8640000000000000)) (millisecond_from_time (lit 8640000000000000))))))
  = Done (lit 8640000000000000).
Proof.
  assert (H : time_range 8640000000000000) by (unfold time_range, MAX_TIME; lia).
  split; [exact H|]. exact (fields_make_the_time_value 8640000000000000 H).
Defined.
