(* ===== verification/DateText.v ===== *)
(** Texts of dates: the formats of [src/so2js/runtime/intrinsics/date_prototype.rs] and the parsers
    of dates of [src/so2js/runtime/string_parsing.rs].

    Texts are lists of code units.  How Rust displays a number that is not an integer below 2^53 is a
    parameter: the formats display only integers. *)

From Stdlib Require Import Ascii String.
From S2P Require Import Prelude Float64 Value TypeUtilities FloatIntegers Unicode LexerStream.
From S2P Require Import UnicodeProperty Characters StringLexer Date.

Definition text (s : string) : list Z := map ch (list_ascii_of_string s).
Arguments text _%_string.

(** ** Formatting integers *)

Fixpoint decimal_digits (fuel : nat) (n : Z) : list Z :=
  match fuel with
  | O => []
  | S fuel' => (if n <? 10 then [] else decimal_digits fuel' (n / 10)) ++ [ch "0" + n mod 10]
  end.

Definition pad_zeros (width : nat) (s : list Z) : list Z := replicate (width - length s) (ch "0") ++ s.

(** [format!("{:0width$}", n)]: a sign counts to the width. *)
Definition format_integer (width : nat) (negative : bool) (magnitude : Z) : list Z :=
  if negative then ch "-" :: pad_zeros (width - 1) (decimal_digits 20 magnitude)
  else pad_zeros width (decimal_digits 20 magnitude).
Definition format_i64 (width : nat) (n : Z) : list Z := format_integer width (n <? 0) (Z.abs n).

(** [i64::abs] and [i64::is_positive]. *)
Definition i64_abs (n : Z) : Z := wrap_i64 (Z.abs n).
Definition is_positive (n : Z) : bool := 0 <? n.

Section Formats.

Variable display_f64 : nat -> f64 -> list Z.

Definition is_small_integer (b : f64) : bool :=
  f64_is_finite b && (f64_scaled b =? f64_integer_part b * F64_ONE_SCALED)
  && (Z.abs (f64_integer_part b) <? 2 ^ 53).

Definition format_f64 (width : nat) (b : f64) : list Z :=
  if is_small_integer b then format_integer width (f64_sign b) (Z.abs (f64_integer_part b))
  else display_f64 width b.

(** TimeString. *)
Definition time_string (string : list Z) (time_value : f64) : list Z :=
  string ++ format_f64 2 (hour_from_time time_value) ++ text ":"
    ++ format_f64 2 (minute_from_time time_value) ++ text ":"
    ++ format_f64 2 (second_from_time time_value) ++ text " GMT".

Definition week_day_string (time_value : f64) : outcome (list Z) :=
  match as_i64 (week_day time_value) with
  | 0 => Done (text "Sun")
  | 1 => Done (text "Mon")
  | 2 => Done (text "Tue")
  | 3 => Done (text "Wed")
  | 4 => Done (text "Thu")
  | 5 => Done (text "Fri")
  | 6 => Done (text "Sat")
  | _ => Panicked
  end.

Definition month_string (time_value : f64) : outcome (list Z) :=
  month ← month_from_time time_value;
  match as_i64 month with
  | 0 => Done (text "Jan")
  | 1 => Done (text "Feb")
  | 2 => Done (text "Mar")
  | 3 => Done (text "Apr")
  | 4 => Done (text "May")
  | 5 => Done (text "Jun")
  | 6 => Done (text "Jul")
  | 7 => Done (text "Aug")
  | 8 => Done (text "Sep")
  | 9 => Done (text "Oct")
  | 10 => Done (text "Nov")
  | 11 => Done (text "Dec")
  | _ => Panicked
  end.

(** DateString. *)
Definition date_string (string : list Z) (time_value : f64) : outcome (list Z) :=
  let year := year_from_time time_value in
  let year_sign := if is_sign_negative year then text "-" else [] in
  week_day ← week_day_string time_value;
  month ← month_string time_value;
  date ← date_from_time time_value;
  Done (string ++ week_day ++ text " " ++ month ++ text " " ++ format_i64 2 (as_i64 date)
          ++ text " " ++ year_sign ++ format_i64 4 (as_i64 (f64_abs year))).

(** TimeZoneString. *)
Definition time_zone_string (string : list Z) (time_value : f64) : list Z :=
  let offset := lit 0 in
  let sign := if is_sign_positive offset then ch "+" else ch "-" in
  let offset := f64_abs offset in
  let hour := hour_from_time offset in
  let minute := minute_from_time offset in
  string ++ [sign] ++ format_f64 2 hour ++ format_f64 2 minute.

(** ToDateString. *)
Definition to_date_string (time_value : f64) : outcome (list Z) :=
  if f64_is_nan time_value then Done (text "Invalid Date")
  else
    let local_time_value := local_time time_value in
    string ← date_string [] local_time_value;
    let string := string ++ text " " in
    let string := time_string string local_time_value in
    Done (time_zone_string string time_value).

(** The text of toUTCString. *)
Definition utc_string (date_value : f64) : outcome (list Z) :=
  if f64_is_nan date_value then Done (text "Invalid Date")
  else
    let year := year_from_time date_value in
    let year_sign := if is_sign_negative year then text "-" else [] in
    week_day ← week_day_string date_value;
    date ← date_from_time date_value;
    month ← month_string date_value;
    let string := week_day ++ text ", " ++ format_i64 2 (as_i64 date) ++ text " " ++ month ++ text " "
                    ++ year_sign ++ format_i64 4 (as_i64 (f64_abs year)) ++ text " " in
    Done (time_string string date_value).

End Formats.

(** The text of toISOString, for a finite time value. *)
Definition iso_string (date_value : f64) : outcome (list Z) :=
  let year := as_i64 (year_from_time date_value) in
  let year_string :=
    if (0 <=? year) && (year <=? 9999) then format_i64 4 year
    else
      let year_sign := if is_positive year then ch "+" else ch "-" in
      year_sign :: format_i64 6 (i64_abs year) in
  month ← month_from_time date_value;
  date ← date_from_time date_value;
  Done (year_string ++ text "-" ++ format_i64 2 (wrap_i64 (as_i64 month + 1)) ++ text "-"
          ++ format_i64 2 (as_i64 date) ++ text "T" ++ format_i64 2 (as_i64 (hour_from_time date_value))
          ++ text ":" ++ format_i64 2 (as_i64 (minute_from_time date_value))
          ++ text ":" ++ format_i64 2 (as_i64 (second_from_time date_value))
          ++ text "." ++ format_i64 3 (as_i64 (millisecond_from_time date_value)) ++ text "Z").

(** ** Parsing *)

(** [num_digits] decimal digits. *)
Fixpoint decimal_digits_loop (num_digits : nat) (value : Z) : LX Z :=
  match num_digits with
  | O => mret value
  | S n =>
      digit ← observe current_decimal_value;
      match digit with
      | Some digit =>
          let value := wrap_i64 (value * 10) in
          let value := wrap_i64 (value + digit) in
          _ ← step;
          decimal_digits_loop n value
      | None => fail
      end
  end.
Definition parse_decimal_digits (num_digits : nat) : LX Z := decimal_digits_loop num_digits 0.

(** A part that is present when the current unit is [c]. *)
Definition optional_digits (c : ascii) (num_digits : nat) (default : Z) : LX Z :=
  present ← observe (current_equals c);
  if present : bool then _ ← step; parse_decimal_digits num_digits else mret default.
Arguments optional_digits _%_char _%_nat _%_Z.

Definition between_z (lo hi n : Z) : bool := (lo <=? n) && (n <=? hi).

Definition iso_year : LX Z :=
  plus ← observe (current_equals "+");
  minus ← observe (current_equals "-");
  if plus : bool then _ ← step; parse_decimal_digits 6
  else if minus : bool then
    _ ← step;
    years ← parse_decimal_digits 6;
    if years =? 0 then fail else mret (- years)
  else parse_decimal_digits 4.

Definition iso_time : LX (Z * Z * Z * Z) :=
  _ ← step;
  hours ← parse_decimal_digits 2;
  _ ← expect ":";
  minutes ← parse_decimal_digits 2;
  _ ← guard (negb ((24 <? hours) || (59 <? minutes)));
  seconds ← optional_digits ":" 2 0;
  _ ← guard (negb (59 <? seconds));
  milliseconds ← optional_digits "." 3 0;
  mret (hours, minutes, seconds, milliseconds).

Definition ms_of (sign hour minute : Z) : Z :=
  wrap_i64 (sign * wrap_i64 (wrap_i64 (hour * as_i64 MS_PER_HOUR) + wrap_i64 (minute * as_i64 MS_PER_MINUTE))).

Definition iso_time_zone : LX Z :=
  is_utc ← eat "Z";
  minus ← observe (current_equals "-");
  plus ← observe (current_equals "+");
  if is_utc : bool then mret 0
  else if (minus : bool) || plus then
    let sign := if plus : bool then 1 else -1 in
    _ ← step;
    timezone_hour ← parse_decimal_digits 2;
    _ ← expect ":";
    timezone_minute ← parse_decimal_digits 2;
    _ ← guard (negb ((23 <? timezone_hour) || (59 <? timezone_minute)));
    mret (ms_of sign timezone_hour timezone_minute)
  else mret 0.

(** Date parts: year, month, day, hour, minute, second, millisecond, time zone offset. *)
Record DateParts : Type := mkParts {
  p_year : Z; p_month : Z; p_day : Z; p_hour : Z; p_minute : Z; p_second : Z; p_millisecond : Z; p_offset : Z;
}.

Definition iso_parts : LX DateParts :=
  years ← iso_year;
  months ← optional_digits "-" 2 1;
  _ ← guard (between_z 1 12 months);
  days ← optional_digits "-" 2 1;
  _ ← guard (between_z 0 31 days);
  has_time ← observe (current_equals "T");
  time ← (if has_time : bool then iso_time else mret (0, 0, 0, 0));
  offset ← iso_time_zone;
  at_end ← observe is_end;
  _ ← guard at_end;
  let '(hours, minutes, seconds, milliseconds) := time in
  mret (mkParts years months days hours minutes seconds milliseconds offset).

Definition utc_time_from_full_date_parts (p : DateParts) : outcome (option f64) :=
  days ← year_month_day_to_days_since_unix_epoch (p_year p) (p_month p) (p_day p);
  days ← unwrap days;
  let date_part_milliseconds := wrap_i64 (days * as_i64 MS_PER_DAY) in
  let time_part_milliseconds :=
    wrap_i64 (wrap_i64 (wrap_i64 (wrap_i64 (p_hour p * as_i64 MS_PER_HOUR)
      + wrap_i64 (p_minute p * as_i64 MS_PER_MINUTE)) + wrap_i64 (p_second p * as_i64 MS_PER_SECOND))
      + p_millisecond p) in
  let utc_time := wrap_i64 (wrap_i64 (date_part_milliseconds + time_part_milliseconds) - p_offset p) in
  if as_i64 MAX_TIME_VALUE <? i64_abs utc_time then Done None else Done (Some (lit utc_time)).

Definition parse_string_to_iso_date (lexer : StringLexer) : outcome (option f64) :=
  match iso_parts lexer with
  | None => Done None
  | Some (parts, _) => utc_time_from_full_date_parts parts
  end.

Definition parse_week_day : LX unit :=
  s ← eat "S";
  if s : bool then
    u ← eat "u";
    if u : bool then expect "n" else _ ← expect "a"; expect "t"
  else
  m ← eat "M";
  if m : bool then _ ← expect "o"; expect "n"
  else
  t ← eat "T";
  if t : bool then
    u ← eat "u";
    if u : bool then expect "e" else _ ← expect "h"; expect "u"
  else
  w ← eat "W";
  if w : bool then _ ← expect "e"; expect "d"
  else _ ← expect "F"; _ ← expect "r"; expect "i".

Definition parse_month : LX Z :=
  j ← eat "J";
  if j : bool then
    a ← eat "a";
    if a : bool then _ ← expect "n"; mret 0
    else
      _ ← expect "u";
      u ← eat "u";
      if u : bool then mret 5 else _ ← expect "l"; mret 6
  else
  f ← eat "F";
  if f : bool then _ ← expect "e"; _ ← expect "b"; mret 1
  else
  m ← eat "M";
  if m : bool then
    a ← eat "a";
    if a : bool then _ ← expect "r"; mret 2 else _ ← expect "a"; _ ← expect "y"; mret 4
  else
  a ← eat "A";
  if a : bool then
    p ← eat "p";
    if p : bool then _ ← expect "r"; mret 3 else _ ← expect "u"; _ ← expect "g"; mret 7
  else
  s ← eat "S";
  if s : bool then _ ← expect "e"; _ ← expect "p"; mret 8
  else
  o ← eat "O";
  if o : bool then _ ← expect "c"; _ ← expect "t"; mret 9
  else
  n ← eat "N";
  if n : bool then _ ← expect "o"; _ ← expect "v"; mret 10
  else _ ← expect "D"; _ ← expect "e"; _ ← expect "c"; mret 11.

(** The time zone at the end of the toString format. *)
Definition default_time_zone : LX Z :=
  plus ← eat "+";
  sign ← (if plus : bool then mret 1 else _ ← expect "-"; mret (-1));
  timezone_hour ← parse_decimal_digits 2;
  timezone_minute ← parse_decimal_digits 2;
  _ ← guard (negb ((23 <? timezone_hour) || (59 <? timezone_minute)));
  at_end ← observe is_end;
  _ ← guard at_end;
  mret (ms_of sign timezone_hour timezone_minute).

(** The year with its optional sign. *)
Definition signed_year : LX Z :=
  minus ← eat "-";
  let year_sign := if minus : bool then -1 else 1 in
  year_digits ← parse_decimal_digits 4;
  mret (year_sign * year_digits).

(** What follows the month and the day in both formats. *)
Definition date_rest (is_utc_format : bool) (month day : Z) : LX DateParts :=
  _ ← guard (between_z 1 31 day);
  _ ← expect " ";
  year ← signed_year;
  _ ← expect " ";
  hour ← parse_decimal_digits 2;
  _ ← expect ":";
  minute ← parse_decimal_digits 2;
  _ ← expect ":";
  second ← parse_decimal_digits 2;
  _ ← guard (negb ((24 <? hour) || (59 <? minute) || (59 <? second)));
  _ ← expect " ";
  _ ← expect "G";
  _ ← expect "M";
  _ ← expect "T";
  offset ← (if is_utc_format then mret 0 else default_time_zone);
  at_end ← observe is_end;
  _ ← guard at_end;
  mret (mkParts year (month + 1) day hour minute second 0 offset).

Definition utc_or_default_parts : LX DateParts :=
  _ ← parse_week_day;
  is_utc_format ← eat ",";
  _ ← expect " ";
  if is_utc_format : bool then
    day ← parse_decimal_digits 2;
    _ ← expect " ";
    month ← parse_month;
    date_rest is_utc_format month day
  else
    month ← parse_month;
    _ ← expect " ";
    day ← parse_decimal_digits 2;
    date_rest is_utc_format month day.

Definition parse_string_to_utc_or_default_date (lexer : StringLexer) : outcome (option f64) :=
  match utc_or_default_parts lexer with
  | None => Done None
  | Some (parts, _) => utc_time_from_full_date_parts parts
  end.

(** Date.parse. *)
Definition parse_string_to_date (string : list Z) : outcome (option f64) :=
  iso ← parse_string_to_iso_date (StringLexer_new string);
  match iso with
  | Some date => Done (Some date)
  | None => parse_string_to_utc_or_default_date (StringLexer_new string)
  end.
