(* ===== verification/DateTextCorrect.v ===== *)
(** Printed dates parse back to the time value.

    [runs m s a s']: the parser [m] in front of the text [s] returns [a] in front of [s'], wherever
    the text is; [stuck m s]: it returns early. *)

From Stdlib Require Import Ascii String.
From S2P Require Import Prelude Float64 Value ValueCorrect TypeUtilities TypeUtilitiesCorrect.
From S2P Require Import FloatIntegers Unicode LexerStream UnicodeProperty Characters StringLexer Date DateCorrect.
From S2P Require Import DateText.

Definition runs {A} (m : LX A) (s : list Z) (a : A) (s' : list Z) : Prop :=
  forall p, exists p', m (lexer_at p s) = Some (a, lexer_at p' s').
Definition stuck {A} (m : LX A) (s : list Z) : Prop := forall p, m (lexer_at p s) = None.

Lemma lx_runs_ret {A} (a : A) s : runs (mret a) s a s.
Proof. intros p. by exists p. Qed.

Lemma lx_runs_bind {A B} (m : LX A) (f : A -> LX B) s a s' b s'' :
  runs m s a s' -> runs (f a) s' b s'' -> runs (m ≫= f) s b s''.
Proof.
  intros Hm Hf p. destruct (Hm p) as [p1 E]. destruct (Hf p1) as [p2 E']. exists p2.
  unfold mbind, LX_bind. by rewrite E.
Qed.

Lemma stuck_bind {A B} (m : LX A) (f : A -> LX B) s : stuck m s -> stuck (m ≫= f) s.
Proof. intros Hm p. unfold mbind, LX_bind. by rewrite Hm. Qed.

Lemma runs_stuck_bind {A B} (m : LX A) (f : A -> LX B) s a s' :
  runs m s a s' -> stuck (f a) s' -> stuck (m ≫= f) s.
Proof.
  intros Hm Hf p. destruct (Hm p) as [p1 E]. unfold mbind, LX_bind. rewrite E. apply Hf.
Qed.

Lemma runs_observe {A} (f : StringLexer -> A) s a : (forall p, f (lexer_at p s) = a) -> runs (observe f) s a s.
Proof. intros Hf p. exists p. unfold observe. by rewrite Hf. Qed.

Lemma runs_guard b s : b = true -> runs (guard b) s tt s.
Proof. intros -> p. by exists p. Qed.

Lemma runs_step c s : runs step (c :: s) tt s.
Proof. intros p. exists (p + 1). unfold step. by rewrite advance_at. Qed.

Lemma runs_expect c s : runs (expect c) (ch c :: s) tt s.
Proof. intros p. exists (p + 1). by apply expect_at. Qed.

Lemma runs_eat c s : runs (eat c) (ch c :: s) true s.
Proof. intros p. exists (p + 1). by rewrite eat_at, Z.eqb_refl. Qed.

Lemma runs_eat_other c x s : x <> ch c -> runs (eat c) (x :: s) false (x :: s).
Proof. intros Hx p. exists p. by rewrite eat_at, (proj2 (Z.eqb_neq _ _)). Qed.

(** ** Digits *)

(** The last [w] decimal digits of a number. *)
Fixpoint fixed (w : nat) (n : Z) : list Z :=
  match w with O => [] | S w' => fixed w' (n / 10) ++ [ch "0" + n mod 10] end.

Lemma fixed_length w : forall n, length (fixed w n) = w.
Proof. induction w as [|w IH]; intros n; [done|]. cbn. rewrite length_app, IH. cbn. lia. Qed.

Lemma fixed_zero w : fixed w 0 = replicate w (ch "0").
Proof.
  induction w as [|w IH]; [done|]. cbn [fixed]. rewrite Z.div_0_l, IH by lia.
  change (ch "0" + 0 mod 10) with (ch "0"). by rewrite <- (replicate_S_end w).
Qed.

Lemma pad_zeros_snoc w s c : pad_zeros (S w) (s ++ [c]) = pad_zeros w s ++ [c].
Proof.
  unfold pad_zeros. rewrite length_app. cbn [length]. rewrite Nat.add_1_r. cbn [Nat.sub].
  by rewrite (assoc_L (++)).
Qed.

Lemma pad_decimal_digits w : forall f n, (S w <= f)%nat -> 0 <= n < 10 ^ Z.of_nat (S w) ->
  pad_zeros (S w) (decimal_digits f n) = fixed (S w) n.
Proof.
  induction w as [|w IH]; intros f n Hf Hn; destruct f as [|f]; try lia; cbn [decimal_digits].
  - rewrite (proj2 (Z.ltb_lt _ _)) by (cbn in Hn; lia). done.
  - rewrite pad_zeros_snoc. change (fixed (S (S w)) n) with (fixed (S w) (n / 10) ++ [ch "0" + n mod 10]).
    f_equal. rewrite Nat2Z.inj_succ, Z.pow_succ_r in Hn by lia. destruct (Z.ltb_spec n 10).
    + rewrite Z.div_small, fixed_zero by lia. unfold pad_zeros. cbn [length]. rewrite Nat.sub_0_r. apply app_nil_r.
    + apply IH; [lia|]. split; [apply Z.div_pos; lia|apply Z.div_lt_upper_bound; lia].
Qed.

Lemma format_fixed w n : (w < 20)%nat -> 0 <= n < 10 ^ Z.of_nat (S w) -> format_i64 (S w) n = fixed (S w) n.
Proof.
  intros Hw Hn. unfold format_i64, format_integer. rewrite (proj2 (Z.ltb_ge _ _)), Z.abs_eq by lia.
  apply pad_decimal_digits; lia.
Qed.

(** A text that starts with a digit. *)
Definition starts_with_digit (s : list Z) : Prop := exists c r, s = c :: r /\ 48 <= c <= 57.

Lemma fixed_starts w n s : starts_with_digit (fixed (S w) n ++ s).
Proof.
  revert n s. induction w as [|w IH]; intros n s.
  - exists (48 + n mod 10), s. pose proof (Z.mod_pos_bound n 10). split; [done|lia].
  - change (fixed (S (S w)) n) with (fixed (S w) (n / 10) ++ [ch "0" + n mod 10]).
    rewrite <- (assoc_L (++)). apply IH.
Qed.

Lemma digit_not_equals c s p : starts_with_digit s -> one_of "+-TZ:., " (ch c) = true ->
  current_equals c (lexer_at p s) = false.
Proof.
  intros (d & r & -> & Hd) Hc. rewrite current_equals_at. apply Z.eqb_neq. intros ->.
  unfold one_of in Hc. cbn -[ch] in Hc. change (ch "+") with 43 in Hc. change (ch "-") with 45 in Hc.
  change (ch "T") with 84 in Hc. change (ch "Z") with 90 in Hc. change (ch ":") with 58 in Hc.
  change (ch ".") with 46 in Hc. change (ch ",") with 44 in Hc. change (ch " ") with 32 in Hc. lia.
Qed.

Lemma decimal_value_at p c s : 48 <= c <= 57 -> current_decimal_value (lexer_at p (c :: s)) = Some (c - 48).
Proof.
  intros Hc. unfold current_decimal_value. cbn [current lexer_at].
  change (ch "0") with 48. change (ch "9") with 57. by rewrite (proj2 (andb_true_iff _ _)) by lia.
Qed.

(** The loop reads digits one by one. *)
Lemma digits_loop_step w v d s : 0 <= v <= 10 ^ 10 -> 0 <= d <= 9 ->
  forall a s', runs (decimal_digits_loop w (v * 10 + d)) s a s' ->
  runs (decimal_digits_loop (S w) v) (48 + d :: s) a s'.
Proof.
  intros Hv Hd a s' Hr. cbn [decimal_digits_loop].
  eapply lx_runs_bind; [apply runs_observe; intros p; apply decimal_value_at; lia|]. cbn beta iota zeta.
  eapply lx_runs_bind; [apply runs_step|].
  replace (48 + d - 48) with d by lia. by rewrite !wrap_i64_small by (rewrite ?wrap_i64_small by lia; lia).
Qed.

Lemma digits_loop_fixed w : forall k v n s, (w + k <= 10)%nat -> 0 <= n < 10 ^ Z.of_nat w ->
  0 <= v < 10 ^ (10 - Z.of_nat (w + k)) ->
  forall a s', runs (decimal_digits_loop k (v * 10 ^ Z.of_nat w + n)) s a s' ->
  runs (decimal_digits_loop (w + k) v) (fixed w n ++ s) a s'.
Proof.
  induction w as [|w IH]; intros k v n s Hw Hn Hv a s' Hr.
  - cbn in Hn |- *. replace (v * 10 ^ Z.of_nat 0 + n) with v in Hr by (cbn; lia). done.
  - cbn [fixed]. rewrite <- (assoc_L (++)). replace (S w + k)%nat with (w + S k)%nat by lia.
    rewrite Nat2Z.inj_succ, Z.pow_succ_r in Hn by lia.
    pose proof (Z.div_mod n 10 ltac:(lia)). pose proof (Z.mod_pos_bound n 10 ltac:(lia)).
    assert (Hq : 0 <= n / 10 < 10 ^ Z.of_nat w)
      by (split; [apply Z.div_pos; lia|apply Z.div_lt_upper_bound; lia]).
    apply IH; [lia|done| |].
    { replace (10 - Z.of_nat (w + S k)) with (10 - Z.of_nat (S w + k)) by lia. done. }
    change (ch "0") with 48. change ([48 + n mod 10] ++ s) with (48 + n mod 10 :: s).
    assert (Hb : (v + 1) * 10 ^ Z.of_nat w <= 10 ^ 10).
    { transitivity (10 ^ (10 - Z.of_nat (S w + k)) * 10 ^ Z.of_nat w).
      - apply Z.mul_le_mono_nonneg_r; [apply Z.pow_nonneg; lia|lia].
      - rewrite <- Z.pow_add_r by lia. apply Z.pow_le_mono_r; lia. }
    assert (0 < 10 ^ Z.of_nat w) by (apply Z.pow_pos_nonneg; lia).
    apply digits_loop_step; [nia|lia|].
    rewrite Nat2Z.inj_succ, Z.pow_succ_r in Hr by lia.
    replace ((v * 10 ^ Z.of_nat w + n / 10) * 10 + n mod 10) with (v * (10 * 10 ^ Z.of_nat w) + n) by lia. done.
Qed.

(** [w] digits are read back. *)
Lemma runs_digits w n s : (w <= 9)%nat -> 0 <= n < 10 ^ Z.of_nat w ->
  runs (parse_decimal_digits w) (fixed w n ++ s) n s.
Proof.
  intros Hw Hn. unfold parse_decimal_digits. replace w with (w + 0)%nat at 1 by lia.
  apply digits_loop_fixed; [lia|done| |].
  - assert (0 < 10 ^ (10 - Z.of_nat (w + 0))) by (apply Z.pow_pos_nonneg; lia). lia.
  - cbn [decimal_digits_loop]. replace (0 * 10 ^ Z.of_nat w + n) with n by lia. apply lx_runs_ret.
Qed.

Lemma runs_optional c w n s d : (w <= 9)%nat -> 0 <= n < 10 ^ Z.of_nat w ->
  runs (optional_digits c w d) (ch c :: fixed w n ++ s) n s.
Proof.
  intros Hw Hn. eapply lx_runs_bind.
  - apply runs_observe with (a := true). intros p. rewrite current_equals_at. apply Z.eqb_refl.
  - eapply lx_runs_bind; [apply runs_step|by apply runs_digits].
Qed.

(** ** The ISO format *)

#[local] Opaque f64_of_int f64_add f64_sub f64_mul f64_div f64_floor f64_modulo.

Definition iso_year_text (y : Z) : list Z :=
  if (0 <=? y) && (y <=? 9999) then fixed 4 y
  else (if 0 <? y then ch "+" else ch "-") :: fixed 6 (Z.abs y).

(** The clock fields of a time value. *)
Definition t_hour (t : Z) : Z := t / 3600000 mod 24.
Definition t_minute (t : Z) : Z := t / 60000 mod 60.
Definition t_second (t : Z) : Z := t / 1000 mod 60.
Definition t_ms (t : Z) : Z := t mod 1000.

Definition iso_text (c : CalendarDate) (t : Z) : list Z :=
  iso_year_text (cal_year c) ++ text "-" ++ fixed 2 (cal_month c + 1) ++ text "-" ++ fixed 2 (cal_day c)
  ++ text "T" ++ fixed 2 (t_hour t) ++ text ":" ++ fixed 2 (t_minute t) ++ text ":" ++ fixed 2 (t_second t)
  ++ text "." ++ fixed 3 (t_ms t) ++ text "Z".

Lemma clock_ranges t : 0 <= t_hour t < 24 /\ 0 <= t_minute t < 60 /\ 0 <= t_second t < 60 /\ 0 <= t_ms t < 1000.
Proof. unfold t_hour, t_minute, t_second, t_ms. split_and!; apply Z.mod_pos_bound; lia. Qed.

Lemma clock_sum t :
  t = t / MS_DAY * MS_DAY + (t_hour t * 3600000 + t_minute t * 60000 + t_second t * 1000 + t_ms t).
Proof. destruct (time_parts t) as [H1 H2]. unfold t_hour, t_minute, t_second, t_ms. lia. Qed.

Lemma date_ranges c : valid_date c -> 0 <= cal_month c <= 11 /\ 1 <= cal_day c <= 31.
Proof. unfold valid_date, month_length. intros [? ?]. repeat case_match; lia. Qed.

Lemma as_i64_lit n : safe n -> as_i64 (lit n) = n.
Proof. apply as_i64_int. Qed.

Lemma iso_string_text t : time_range t -> iso_string (lit t) = Done (iso_text (civil (t / MS_DAY)) t).
Proof.
  intros Ht. destruct (date_of_time t Ht) as (Hy & Hm & Hd & Hr & Hv). apply date_ranges in Hv as [Hvm Hvd].
  destruct (clock_ranges t) as (Hh & Hmi & Hs & Hms).
  unfold iso_string, iso_text. cbn zeta. rewrite Hy, Hm, Hd. cbn [mbind outcome_bind].
  rewrite hour_int, minute_int, second_int, millisecond_int by assumption.
  fold (t_hour t) (t_minute t) (t_second t) (t_ms t).
  set (c := civil (t / MS_DAY)) in *. clearbody c. unfold year_range in Hr.
  rewrite !as_i64_lit by (unfold safe; lia). rewrite wrap_i64_small by lia.
  rewrite !(format_fixed 1), (format_fixed 2) by lia. do 2 f_equal.
  unfold iso_year_text, is_positive, i64_abs. rewrite wrap_i64_small by lia.
  destruct ((0 <=? cal_year c) && (cal_year c <=? 9999)) eqn:E; [by rewrite (format_fixed 3) by lia|].
  by rewrite (format_fixed 5) by lia.
Qed.

Lemma runs_iso_year y s : Z.abs y < 10 ^ 6 -> runs iso_year (iso_year_text y ++ s) y s.
Proof.
  intros Hy. unfold iso_year, iso_year_text.
  destruct ((0 <=? y) && (y <=? 9999)) eqn:E.
  - pose proof (fixed_starts 3 y s) as Hs.
    eapply lx_runs_bind; [apply runs_observe; intros p; by apply digit_not_equals|].
    eapply lx_runs_bind; [apply runs_observe; intros p; by apply digit_not_equals|].
    apply runs_digits; cbn; lia.
  - change ((?c :: ?l) ++ s) with (c :: l ++ s).
    eapply lx_runs_bind; [apply runs_observe; intros p; apply current_equals_at|].
    eapply lx_runs_bind; [apply runs_observe; intros p; apply current_equals_at|].
    destruct (Z.ltb_spec 0 y); cbn beta iota.
    + eapply lx_runs_bind; [apply runs_step|]. rewrite Z.abs_eq by lia. apply runs_digits; cbn; lia.
    + eapply lx_runs_bind; [apply runs_step|].
      eapply lx_runs_bind; [apply runs_digits; cbn; lia|].
      rewrite (proj2 (Z.eqb_neq _ _)) by lia. rewrite Z.abs_neq, Z.opp_involutive by lia. apply lx_runs_ret.
Qed.

(** A one-character text in front of another text. *)
Lemma text_one a s : text (String a EmptyString) ++ s = ch a :: s.
Proof. done. Qed.

Lemma current_equals_one a b p s : current_equals b (lexer_at p (ch a :: s)) = (ch a =? ch b).
Proof. apply current_equals_at. Qed.

(** One step of a parser in front of a known text. *)
Ltac runs_step :=
  first
    [ apply lx_runs_ret
    | apply runs_step
    | apply runs_expect
    | apply runs_eat
    | apply runs_eat_other; discriminate
    | apply runs_digits; cbn; lia
    | apply runs_optional; cbn; lia
    | apply runs_guard; unfold between_z; lia
    | apply runs_observe; intros ?; first [apply current_equals_at|reflexivity] ].
Ltac runs := repeat (cbn beta iota; first [eapply lx_runs_bind; [runs_step|]|runs_step]).

Lemma runs_iso_time h m se ms s : 0 <= h < 24 -> 0 <= m < 60 -> 0 <= se < 60 -> 0 <= ms < 1000 ->
  runs iso_time (text "T" ++ fixed 2 h ++ text ":" ++ fixed 2 m ++ text ":" ++ fixed 2 se
                 ++ text "." ++ fixed 3 ms ++ s) (h, m, se, ms) s.
Proof. intros. unfold iso_time. rewrite !text_one. runs. Qed.

Lemma runs_iso_parts c t : valid_date c -> year_range (cal_year c) ->
  runs iso_parts (iso_text c t)
    (mkParts (cal_year c) (cal_month c + 1) (cal_day c) (t_hour t) (t_minute t) (t_second t) (t_ms t) 0) [].
Proof.
  intros Hv Hr. apply date_ranges in Hv as [Hm Hd]. destruct (clock_ranges t) as (Hh & Hmi & Hs & Hms).
  unfold iso_parts, iso_text. unfold year_range in Hr.
  eapply lx_runs_bind; [apply runs_iso_year; lia|]. rewrite 2!text_one.
  do 4 (eapply lx_runs_bind; [runs_step|]). rewrite text_one.
  eapply lx_runs_bind; [runs_step|]. cbn beta iota. rewrite <- text_one.
  eapply lx_runs_bind; [by apply runs_iso_time|].
  eapply lx_runs_bind; [unfold iso_time_zone; change (text "Z") with [ch "Z"]; runs|runs].
Qed.

(** Machine arithmetic that does not overflow, from the inside out. *)
Ltac no_wrap :=
  repeat match goal with |- context [wrap_i64 ?x] =>
    lazymatch x with context [wrap_i64 _] => fail | _ => rewrite (wrap_i64_small x) by lia end end.

(** Parts in range give a time value. *)
Lemma utc_time_of_parts c h m se ms t : valid_date c -> year_range (cal_year c) ->
  0 <= h < 24 -> 0 <= m < 60 -> 0 <= se < 60 -> 0 <= ms < 1000 ->
  t = day_number c * MS_DAY + (h * 3600000 + m * 60000 + se * 1000 + ms) -> time_range t ->
  utc_time_from_full_date_parts (mkParts (cal_year c) (cal_month c + 1) (cal_day c) h m se ms 0)
  = Done (Some (lit t)).
Proof.
  intros Hv Hr Hh Hm Hse Hms E Ht. apply date_ranges in Hv as [Hmo Hd].
  unfold utc_time_from_full_date_parts. unfold year_range in Hr.
  cbn [p_year p_month p_day p_hour p_minute p_second p_millisecond p_offset].
  rewrite days_since_epoch by lia. cbn [mbind outcome_bind unwrap].
  rewrite ms_per_day, ms_per_hour, ms_per_minute. unfold MS_PER_SECOND, MAX_TIME_VALUE.
  rewrite !as_i64_lit by (unfold safe, MS_DAY; lia). destruct c as [y mo d]. cbn [cal_year cal_month cal_day] in *.
  unfold time_range, MAX_TIME, MS_DAY in *. set (n := day_number (mkDate y mo d)) in *.
  assert (Hn : Z.abs n <= 2 ^ 28) by lia. unfold i64_abs.
  no_wrap.
  rewrite (proj2 (Z.ltb_ge _ _)) by lia. do 3 f_equal. lia.
Qed.

(** C10: The text of toISOString parses back to the time value, for each time value: Date.parse of the
    printed text is the date, through four or six digit years of both signs. *)
Theorem iso_string_parses_back t : time_range t ->
  exists s, iso_string (lit t) = Done s /\ parse_string_to_date s = Done (Some (lit t)).
Proof.
  intros Ht. exists (iso_text (civil (t / MS_DAY)) t). split; [by apply iso_string_text|].
  destruct (date_of_time t Ht) as (_ & _ & _ & Hr & Hv). destruct (civil_number (t / MS_DAY)) as [_ Hn].
  destruct (clock_ranges t) as (Hh & Hmi & Hs & Hms).
  unfold parse_string_to_date, parse_string_to_iso_date. rewrite new_at.
  destruct (runs_iso_parts _ t Hv Hr 0) as [p ->].
  rewrite (utc_time_of_parts _ _ _ _ _ t); try done. rewrite Hn. apply clock_sum.
Qed.

Lemma iso_string_parses_back_witness : time_range (-62198755200000) /\
  exists s, iso_string (lit (-62198755200000)) = Done s /\
            parse_string_to_date s = Done (Some (lit (-62198755200000))).
Proof.
  assert (H : time_range (-62198755200000)) by (unfold time_range, MAX_TIME; lia).
  split; [exact H|]. exact (iso_string_parses_back _ H).
Defined.

(** ** The formats of toString and toUTCString *)

Definition week_text (n : Z) : list Z :=
  text (nth (Z.to_nat n) ["Sun"; "Mon"; "Tue"; "Wed"; "Thu"; "Fri"; "Sat"]%string EmptyString).
Definition month_text (m : Z) : list Z :=
  text (nth (Z.to_nat m) ["Jan"; "Feb"; "Mar"; "Apr"; "May"; "Jun"; "Jul"; "Aug"; "Sep"; "Oct"; "Nov"; "Dec"]%string EmptyString).
Definition year_text (y : Z) : list Z := (if y <? 0 then text "-" else []) ++ fixed 4 (Z.abs y).
Definition clock_text (t : Z) : list Z :=
  fixed 2 (t_hour t) ++ text ":" ++ fixed 2 (t_minute t) ++ text ":" ++ fixed 2 (t_second t) ++ text " GMT".

Definition t_week_day (t : Z) : Z := (t / MS_DAY + 4) mod 7.

Definition default_text (c : CalendarDate) (t : Z) : list Z :=
  week_text (t_week_day t) ++ text " " ++ month_text (cal_month c) ++ text " " ++ fixed 2 (cal_day c)
  ++ text " " ++ year_text (cal_year c) ++ text " " ++ clock_text t ++ text "+0000".

Definition utc_text (c : CalendarDate) (t : Z) : list Z :=
  week_text (t_week_day t) ++ text ", " ++ fixed 2 (cal_day c) ++ text " " ++ month_text (cal_month c)
  ++ text " " ++ year_text (cal_year c) ++ text " " ++ clock_text t.

Lemma format_f64_int display n : 0 <= n < 100 -> format_f64 display 2 (lit n) = fixed 2 n.
Proof.
  intros Hn. unfold format_f64, is_small_integer.
  assert (Hs : safe n) by (unfold safe; lia).
  rewrite int_finite, int_scaled, int_sign, f64_of_int_integer_part by done.
  rewrite Z.eqb_refl, !(proj2 (Z.ltb_lt _ _)), (proj2 (Z.ltb_ge _ _)) by lia. cbn [andb].
  unfold format_integer. rewrite Z.abs_eq by lia. apply pad_decimal_digits; cbn; lia.
Qed.

Lemma time_string_text display s t : time_range t -> time_string display s (lit t) = s ++ clock_text t.
Proof.
  intros Ht. unfold time_string, clock_text. destruct (clock_ranges t) as (Hh & Hmi & Hs & _).
  rewrite hour_int, minute_int, second_int by assumption. fold (t_hour t) (t_minute t) (t_second t).
  by rewrite !format_f64_int by lia.
Qed.

Ltac week_cases n :=
  let H := fresh in
  assert (H : n = 0 \/ n = 1 \/ n = 2 \/ n = 3 \/ n = 4 \/ n = 5 \/ n = 6) by lia; destruct_or! H; subst n.

Lemma week_day_text t : time_range t ->
  0 <= t_week_day t <= 6 /\ week_day_string (lit t) = Done (week_text (t_week_day t)).
Proof.
  intros Ht. assert (Hw : 0 <= t_week_day t <= 6) by (unfold t_week_day; div_lia). split; [done|].
  unfold week_day_string. rewrite week_day_int by assumption. fold (t_week_day t).
  rewrite as_i64_lit by (unfold safe; lia). set (n := t_week_day t) in *. clearbody n. by week_cases n.
Qed.

Lemma month_string_text t m : month_from_time (lit t) = Done (lit m) -> 0 <= m <= 11 ->
  month_string (lit t) = Done (month_text m).
Proof.
  intros E Hm. unfold month_string. rewrite E. cbn [mbind outcome_bind].
  rewrite as_i64_lit by (unfold safe; lia). by month_cases m.
Qed.

Lemma year_sign_text y : Z.abs y <= 9999 ->
  (if is_sign_negative (lit y) then text "-" else []) ++ format_i64 4 (as_i64 (f64_abs (lit y))) = year_text y.
Proof.
  intros Hy. unfold is_sign_negative, year_text. rewrite int_sign, abs_int by (unfold safe; lia).
  rewrite as_i64_lit by (unfold safe; lia). by rewrite (format_fixed 3) by lia.
Qed.

Lemma time_zone_text display s t : time_zone_string display s t = s ++ text "+0000".
Proof.
  unfold time_zone_string, is_sign_positive. rewrite int_sign, abs_int by (unfold safe; lia).
  assert (H0 : time_range (Z.abs 0)) by (unfold time_range, MAX_TIME; lia).
  rewrite hour_int, minute_int by exact H0.
  change (Z.abs 0 / 3600000 mod 24) with 0. change (Z.abs 0 / 60000 mod 60) with 0.
  by rewrite !format_f64_int by lia.
Qed.

Lemma to_date_string_text display t : time_range t -> let c := civil (t / MS_DAY) in
  Z.abs (cal_year c) <= 9999 -> to_date_string display (lit t) = Done (default_text c t).
Proof.
  cbn zeta. intros Ht Hyr. destruct (date_of_time t Ht) as (Hy & Hm & Hd & _ & Hv).
  apply date_ranges in Hv as [Hvm Hvd]. destruct (week_day_text t Ht) as [_ Hw].
  unfold to_date_string, date_string, local_time. rewrite int_not_nan. cbn zeta.
  rewrite Hy, Hw, Hd, (month_string_text t _ Hm Hvm). cbn [mbind outcome_bind].
  rewrite year_sign_text, (as_i64_lit (cal_day _)), (format_fixed 1) by (unfold safe; cbn; lia).
  rewrite time_string_text, time_zone_text by assumption. unfold default_text. cbn [app].
  by rewrite <- !(assoc_L (++)).
Qed.

Lemma utc_string_text display t : time_range t -> let c := civil (t / MS_DAY) in
  Z.abs (cal_year c) <= 9999 -> utc_string display (lit t) = Done (utc_text c t).
Proof.
  cbn zeta. intros Ht Hyr. destruct (date_of_time t Ht) as (Hy & Hm & Hd & _ & Hv).
  apply date_ranges in Hv as [Hvm Hvd]. destruct (week_day_text t Ht) as [_ Hw].
  unfold utc_string. rewrite int_not_nan. cbn zeta.
  rewrite Hy, Hw, Hd, (month_string_text t _ Hm Hvm). cbn [mbind outcome_bind].
  rewrite (as_i64_lit (cal_day _)), (format_fixed 1), time_string_text by (assumption || unfold safe; cbn; lia).
  unfold utc_text. rewrite <- year_sign_text by done. by rewrite <- !(assoc_L (++)).
Qed.

Lemma runs_week_day n s : 0 <= n <= 6 -> runs parse_week_day (week_text n ++ s) tt s.
Proof. intros Hn p. exists (p + 1 + 1 + 1). week_cases n; by destruct s. Qed.

(** The parser of months rejects the names of May and June. *)
Definition parsed_month (m : Z) : bool := negb ((m =? 4) || (m =? 5)).

Lemma runs_month m s : 0 <= m <= 11 -> parsed_month m = true -> runs parse_month (month_text m ++ s) m s.
Proof. intros Hm Hp p. exists (p + 1 + 1 + 1). month_cases m; done || by destruct s. Qed.

Lemma stuck_month m s : 0 <= m <= 11 -> parsed_month m = false -> stuck parse_month (month_text m ++ s).
Proof. intros Hm Hp p. month_cases m; done. Qed.

Lemma stuck_iso_parts n s : 0 <= n <= 6 -> stuck iso_parts (week_text n ++ s).
Proof. intros Hn. unfold iso_parts. apply stuck_bind. intros p. by week_cases n. Qed.

Lemma runs_eat_digit c s : starts_with_digit s -> one_of "+-TZ:., " (ch c) = true -> runs (eat c) s false s.
Proof.
  intros Hs Hc. destruct Hs as (d & r & -> & Hd). apply runs_eat_other. intros E.
  assert (Hs : starts_with_digit (d :: r)) by (exists d, r; done).
  pose proof (digit_not_equals c (d :: r) 0 Hs Hc) as H. rewrite current_equals_at, E in H. lia.
Qed.

(** The year with its sign. *)
Lemma runs_signed_year y s : Z.abs y <= 9999 -> runs signed_year (year_text y ++ s) y s.
Proof.
  intros Hy. unfold signed_year, year_text. destruct (Z.ltb_spec y 0).
  - eapply lx_runs_bind; [apply runs_eat|]. cbn beta iota zeta. eapply lx_runs_bind; [apply runs_digits; cbn; lia|].
    replace y with (-1 * Z.abs y) at 2 by lia. apply lx_runs_ret.
  - cbn [app]. eapply lx_runs_bind; [apply runs_eat_digit; [apply fixed_starts|done]|]. cbn beta iota zeta.
    eapply lx_runs_bind; [apply runs_digits; cbn; lia|]. replace y with (1 * Z.abs y) at 2 by lia. apply lx_runs_ret.
Qed.

(** What follows the day, up to the time zone. *)
Definition parts_of (c : CalendarDate) (t : Z) : DateParts :=
  mkParts (cal_year c) (cal_month c + 1) (cal_day c) (t_hour t) (t_minute t) (t_second t) 0 0.

Lemma runs_date_rest (utc : bool) c t : Z.abs (cal_year c) <= 9999 -> 1 <= cal_day c <= 31 ->
  runs (date_rest utc (cal_month c) (cal_day c))
    (text " " ++ year_text (cal_year c) ++ text " " ++ clock_text t ++ (if utc then [] else text "+0000"))
    (parts_of c t) [].
Proof.
  intros Hy Hd. destruct (clock_ranges t) as (Hh & Hmi & Hs & _). unfold date_rest, clock_text.
  rewrite <- !(assoc_L (++)). change (text " GMT" ++ ?s) with (ch " " :: ch "G" :: ch "M" :: ch "T" :: s).
  rewrite !text_one. eapply lx_runs_bind; [runs_step|]. eapply lx_runs_bind; [runs_step|].
  eapply lx_runs_bind; [by apply runs_signed_year|].
  do 6 (eapply lx_runs_bind; [runs_step|]). do 5 (eapply lx_runs_bind; [runs_step|]).
  eapply lx_runs_bind with (a := 0) (s' := []); [|runs].
  destruct utc; [apply lx_runs_ret|]. intros p. by eexists.
Qed.

(** Both formats: the parts of the date, or no result for the months the parser rejects. *)
Lemma default_text_parts c t : valid_date c -> Z.abs (cal_year c) <= 9999 -> 0 <= t_week_day t <= 6 ->
  if parsed_month (cal_month c) then runs utc_or_default_parts (default_text c t) (parts_of c t) []
  else stuck utc_or_default_parts (default_text c t).
Proof.
  intros Hv Hy Hw. apply date_ranges in Hv as [Hm Hd]. pose proof (runs_date_rest false c t Hy Hd) as Hr.
  cbn [andb] in Hr. unfold utc_or_default_parts, default_text. rewrite (text_one " " (month_text _ ++ _)).
  destruct (parsed_month (cal_month c)) eqn:Hp.
  - eapply lx_runs_bind; [by apply runs_week_day|]. do 2 (eapply lx_runs_bind; [runs_step|]). cbn beta iota.
    eapply lx_runs_bind; [by apply runs_month|]. rewrite text_one. eapply lx_runs_bind; [runs_step|].
    eapply lx_runs_bind; [runs_step|]. exact Hr.
  - eapply runs_stuck_bind; [by apply runs_week_day|]. do 2 (eapply runs_stuck_bind; [runs_step|]). cbn beta iota.
    by apply stuck_bind, stuck_month.
Qed.

Lemma utc_text_parts c t : valid_date c -> Z.abs (cal_year c) <= 9999 -> 0 <= t_week_day t <= 6 ->
  if parsed_month (cal_month c) then runs utc_or_default_parts (utc_text c t) (parts_of c t) []
  else stuck utc_or_default_parts (utc_text c t).
Proof.
  intros Hv Hy Hw. apply date_ranges in Hv as [Hm Hd]. pose proof (runs_date_rest true c t Hy Hd) as Hr.
  cbn beta iota in Hr. rewrite app_nil_r in Hr. unfold utc_or_default_parts, utc_text.
  change (text ", " ++ ?s) with (ch "," :: ch " " :: s). rewrite (text_one " " (month_text _ ++ _)).
  destruct (parsed_month (cal_month c)) eqn:Hp.
  - eapply lx_runs_bind; [by apply runs_week_day|]. do 2 (eapply lx_runs_bind; [runs_step|]). cbn beta iota.
    do 2 (eapply lx_runs_bind; [runs_step|]). eapply lx_runs_bind; [by apply runs_month|]. exact Hr.
  - eapply runs_stuck_bind; [by apply runs_week_day|]. do 2 (eapply runs_stuck_bind; [runs_step|]). cbn beta iota.
    do 2 (eapply runs_stuck_bind; [runs_step|]). by apply stuck_bind, stuck_month.
Qed.

(** The second parser decides texts that start with a week day. *)
Lemma parse_week_day_text n s parts (b : bool) t : 0 <= n <= 6 ->
  (if b then runs utc_or_default_parts (week_text n ++ s) parts [] else stuck utc_or_default_parts (week_text n ++ s)) ->
  utc_time_from_full_date_parts parts = Done (Some (lit t)) ->
  parse_string_to_date (week_text n ++ s) = Done (if b then Some (lit t) else None).
Proof.
  intros Hn Hr Ht. unfold parse_string_to_date, parse_string_to_iso_date, parse_string_to_utc_or_default_date.
  rewrite new_at, (stuck_iso_parts n s Hn 0). cbn [mbind outcome_bind].
  destruct b; [destruct (Hr 0) as [p ->]; exact Ht|by rewrite (Hr 0)].
Qed.

(** The time value to the second. *)
Lemma utc_time_to_second c t : valid_date c -> year_range (cal_year c) -> day_number c = t / MS_DAY -> time_range t ->
  utc_time_from_full_date_parts (parts_of c t) = Done (Some (lit (t - t mod 1000))).
Proof.
  intros Hv Hr Hn Ht. destruct (clock_ranges t) as (Hh & Hmi & Hs & Hms). pose proof (clock_sum t) as E.
  apply utc_time_of_parts; try done; unfold t_ms, time_range, MAX_TIME in *; [rewrite Hn; lia|div_lia].
Qed.

(** C38: The texts of toString and toUTCString parse back to the time value without its milliseconds,
    for the years of at most four digits, except that the names of May and June are rejected: for
    those two months Date.parse of the printed text has no result. *)
Theorem default_strings_parse_back display t : time_range t -> let c := civil (t / MS_DAY) in
  Z.abs (cal_year c) <= 9999 ->
  let result := if (cal_month c =? 4) || (cal_month c =? 5) then None else Some (lit (t - t mod 1000)) in
  exists s u,
    to_date_string display (lit t) = Done s /\ parse_string_to_date s = Done result /\
    utc_string display (lit t) = Done u /\ parse_string_to_date u = Done result.
Proof.
  cbn zeta. intros Ht Hy. destruct (date_of_time t Ht) as (_ & _ & _ & Hr & Hv).
  destruct (civil_number (t / MS_DAY)) as [_ Hn]. destruct (week_day_text t Ht) as [Hw _].
  exists (default_text (civil (t / MS_DAY)) t), (utc_text (civil (t / MS_DAY)) t).
  rewrite to_date_string_text, utc_string_text by done.
  pose proof (utc_time_to_second _ t Hv Hr Hn Ht) as Hu.
  assert (E : forall A (x y : A), (if (cal_month (civil (t / MS_DAY)) =? 4) || (cal_month (civil (t / MS_DAY)) =? 5)
                                   then x else y) = if parsed_month (cal_month (civil (t / MS_DAY))) then y else x)
    by (intros; unfold parsed_month; by case_match).
  rewrite E. split_and!; [done| |done|].
  - eapply parse_week_day_text; [done| |exact Hu]. by apply default_text_parts.
  - eapply parse_week_day_text; [done| |exact Hu]. by apply utc_text_parts.
Qed.

Lemma default_strings_parse_back_witness : time_range 13046400000 /\
  Z.abs (cal_year (civil (13046400000 / MS_DAY))) <= 9999 /\
  exists s u,
    to_date_string (fun _ _ => []) (lit 13046400000) = Done s /\ parse_string_to_date s = Done None /\
    utc_string (fun _ _ => []) (lit 13046400000) = Done u /\ parse_string_to_date u = Done None.
Proof.
  assert (H : time_range 13046400000) by (unfold time_range, MAX_TIME; lia).
  assert (Hy : Z.abs (cal_year (civil (13046400000 / MS_DAY))) <= 9999) by by vm_compute.
  split; [exact H|]. split; [exact Hy|].
  exact (default_strings_parse_back (fun _ _ => []) 13046400000 H Hy).
Defined.

(** ** Examples: dates that the parser of the ISO format accepts *)

(** The day 0 is accepted, and means the last day of the month before. *)
Example day_zero_is_parsed : parse_string_to_date (text "2024-03-00") = parse_string_to_date (text "2024-02-29").
Proof. by vm_compute. Qed.

(** The hour 24 is accepted with any minute, and means the next day. *)
Example hour_24_is_parsed :
  parse_string_to_date (text "2024-01-01T24:30") = parse_string_to_date (text "2024-01-02T00:30").
Proof. by vm_compute. Qed.
