(* ===== verification/DatePrototype.v ===== *)
(** The methods of dates: [src/so2js/runtime/intrinsics/date_prototype.rs] and
    [date_constructor.rs].

    A method runs in a world that holds the time value of each date object; an exception keeps the
    changes made before it.  What runs JavaScript code (the conversions of arguments, the creation of
    an object from a constructor, the call of a method by name) and the clock of the embedder are
    parameters.  Installing the methods as function objects is a table. *)

From Stdlib Require Import Ascii String.
From S2P Require Import Prelude Float64 Value TypeUtilities FloatIntegers Unicode LexerStream.
From S2P Require Import UnicodeProperty Characters StringLexer Date DateText.

(** ** Worlds and methods *)

Record DateWorld (R : Type) : Type := mkDateWorld { date_values : gmap Z f64; world_rest : R }.
Arguments mkDateWorld {R} _ _.
Arguments date_values {R} _.
Arguments world_rest {R} _.

Definition DM (R A : Type) : Type := DateWorld R -> DateWorld R * EvalResult A.

#[export] Instance DM_ret {R} : MRet (DM R) := fun A a w => (w, EOk a).
#[export] Instance DM_bind {R} : MBind (DM R) := fun A B f m w =>
  match m w with
  | (w', EOk a) => f a w'
  | (w', EErr e) => (w', EErr e)
  | (w', EPanic) => (w', EPanic)
  | (w', EFault) => (w', EFault)
  | (w', EOutOfFuel) => (w', EOutOfFuel)
  end.

(** Results: values, and strings allocated for them. *)
Inductive JsResult : Type := JValue (v : Value) | JString (units : list Z).

Definition throw {R A} (e : EvalError) : DM R A := fun w => (w, EErr e).
Definition pure {R A} (o : outcome A) : DM R A := fun w =>
  (w, match o with Done a => EOk a | Panicked => EPanic | Faulted => EFault | OutOfFuel => EOutOfFuel end).

Definition get_argument (arguments : list Value) (i : nat) : Value := default undefined (arguments !! i).

(** Value::from(f64). *)
Definition from_f64 (f : f64) : JsResult := JValue (number f).

Section Methods.

Context {R : Type}.
Abbreviation M := (DM R).

(** ToNumber, ToPrimitive, ToObject, ToString; the units of a value that is a string. *)
Variable to_number : Value -> M Value.
Variable to_primitive : Value -> ToPrimitivePreferredType -> M Value.
Variable to_object : Value -> M Value.
Variable to_string : Value -> M (list Z).
Variable string_of : DateWorld R -> Value -> option (list Z).
Variable ordinary_to_primitive : Value -> ToPrimitivePreferredType -> M JsResult.
(** [invoke(cx, object, "toISOString", &[])]. *)
Variable invoke_to_iso_string : Value -> M JsResult.
(** [object_create_from_constructor]: the address of a new object. *)
Variable object_create_from_constructor : Value -> M Z.
(** [current_time_millis] of the embedder, when there is one. *)
Variable sys : DateWorld R -> option f64.
Variable display_f64 : nat -> f64 -> list Z.

(** [this_date_value]: the map has the date objects. *)
Definition this_date_value (value : Value) : M (option f64) := fun w =>
  (w, EOk (if is_pointer value then date_values w !! as_pointer value else None)).

(** Writing the field of the object at an address. *)
Definition put_date (address : Z) (date_value : f64) : M unit := fun w =>
  (mkDateWorld (<[address := date_value]> (date_values w)) (world_rest w), EOk tt).

Definition set_date_value (date : Value) (date_value : f64) : M unit := put_date (as_pointer date) date_value.

Definition string_units (value : Value) : M (option (list Z)) := fun w => (w, EOk (string_of w value)).

(** The date of [this], or a TypeError. *)
Definition this_date (this_value : Value) : M f64 :=
  date_value ← this_date_value this_value;
  match date_value with Some date_value => mret date_value | None => throw TypeError end.

Definition number_argument (arguments : list Value) (i : nat) : M f64 :=
  v ← to_number (get_argument arguments i);
  mret (as_number v).

(** An argument that is converted only when it is passed. *)
Definition optional_argument (arguments : list Value) (i : nat) : M (option f64) :=
  if (i <? List.length arguments)%nat
  then value ← number_argument arguments i; mret (Some value)
  else mret None.

(** ** Getters *)

(** The shape of the getters: a TypeError, NaN or a field. *)
Definition getter (field : f64 -> outcome f64) (this_value : Value) (arguments : list Value) : M JsResult :=
  date_value ← this_date this_value;
  if f64_is_nan date_value then mret (JValue nan)
  else
    value ← pure (field date_value);
    mret (from_f64 value).

Definition get_date := getter (fun t => date_from_time (local_time t)).
Definition get_day := getter (fun t => Done (week_day (local_time t))).
Definition get_full_year := getter (fun t => Done (year_from_time (local_time t))).
Definition get_hours := getter (fun t => Done (hour_from_time (local_time t))).
Definition get_milliseconds := getter (fun t => Done (millisecond_from_time (local_time t))).
Definition get_minutes := getter (fun t => Done (minute_from_time (local_time t))).
Definition get_month := getter (fun t => month_from_time (local_time t)).
Definition get_seconds := getter (fun t => Done (second_from_time (local_time t))).
Definition get_timezone_offset := getter (fun t => Done (f64_div (f64_sub t (local_time t)) MS_PER_MINUTE)).
Definition get_utc_date := getter date_from_time.
Definition get_utc_day := getter (fun t => Done (week_day t)).
Definition get_utc_full_year := getter (fun t => Done (year_from_time t)).
Definition get_utc_hours := getter (fun t => Done (hour_from_time t)).
Definition get_utc_milliseconds := getter (fun t => Done (millisecond_from_time t)).
Definition get_utc_minutes := getter (fun t => Done (minute_from_time t)).
Definition get_utc_month := getter month_from_time.
Definition get_utc_seconds := getter (fun t => Done (second_from_time t)).
Definition get_year := getter (fun t => Done (f64_sub (year_from_time (local_time t)) (lit 1900))).

Definition get_time (this_value : Value) (arguments : list Value) : M JsResult :=
  date_value ← this_date this_value;
  mret (from_f64 date_value).
Definition value_of (this_value : Value) (arguments : list Value) : M JsResult :=
  date_value ← this_date this_value;
  mret (from_f64 date_value).

(** ** Setters *)

(** The end of each setter. *)
Definition store (this_value : Value) (new_date : f64) : M JsResult :=
  _ ← set_date_value this_value new_date;
  mret (from_f64 new_date).

Definition set_date (this_value : Value) (arguments : list Value) : M JsResult :=
  date_value ← this_date this_value;
  date ← number_argument arguments 0;
  if f64_is_nan date_value then mret (JValue nan)
  else
    let date_value := local_time date_value in
    month ← pure (month_from_time date_value);
    day ← pure (make_day (year_from_time date_value) month date);
    store this_value (time_clip (utc (make_date day (time_within_day date_value)))).

Definition set_full_year (this_value : Value) (arguments : list Value) : M JsResult :=
  date_value ← this_date this_value;
  year ← number_argument arguments 0;
  let date_value := if f64_is_nan date_value then lit 0 else local_time date_value in
  month ← (if (2 <=? List.length arguments)%nat then number_argument arguments 1
           else pure (month_from_time date_value));
  date ← (if (3 <=? List.length arguments)%nat then number_argument arguments 2
          else pure (date_from_time date_value));
  day ← pure (make_day year month date);
  store this_value (time_clip (utc (make_date day (time_within_day date_value)))).

Definition set_hours (this_value : Value) (arguments : list Value) : M JsResult :=
  date_value ← this_date this_value;
  hours ← number_argument arguments 0;
  minutes ← optional_argument arguments 1;
  seconds ← optional_argument arguments 2;
  milliseconds ← optional_argument arguments 3;
  if f64_is_nan date_value then mret (JValue nan)
  else
    let date_value := local_time date_value in
    let minutes := default (minute_from_time date_value) minutes in
    let seconds := default (second_from_time date_value) seconds in
    let milliseconds := default (millisecond_from_time date_value) milliseconds in
    store this_value (time_clip (utc (make_date (day date_value) (make_time hours minutes seconds milliseconds)))).

Definition set_milliseconds (this_value : Value) (arguments : list Value) : M JsResult :=
  date_value ← this_date this_value;
  milliseconds ← number_argument arguments 0;
  if f64_is_nan date_value then mret (JValue nan)
  else
    let date_value := local_time date_value in
    store this_value (time_clip (utc (make_date (day date_value)
      (make_time (hour_from_time date_value) (minute_from_time date_value) (second_from_time date_value)
         milliseconds)))).

Definition set_minutes (this_value : Value) (arguments : list Value) : M JsResult :=
  date_value ← this_date this_value;
  minutes ← number_argument arguments 0;
  seconds ← optional_argument arguments 1;
  milliseconds ← optional_argument arguments 2;
  if f64_is_nan date_value then mret (JValue nan)
  else
    let date_value := local_time date_value in
    let seconds := default (second_from_time date_value) seconds in
    let milliseconds := default (millisecond_from_time date_value) milliseconds in
    store this_value (time_clip (utc (make_date (day date_value)
      (make_time (hour_from_time date_value) minutes seconds milliseconds)))).

Definition set_month (this_value : Value) (arguments : list Value) : M JsResult :=
  date_value ← this_date this_value;
  month ← number_argument arguments 0;
  date ← optional_argument arguments 1;
  if f64_is_nan date_value then mret (JValue nan)
  else
    let date_value := local_time date_value in
    date ← (match date with Some date => mret date | None => pure (date_from_time date_value) end);
    day ← pure (make_day (year_from_time date_value) month date);
    store this_value (time_clip (utc (make_date day (time_within_day date_value)))).

Definition set_seconds (this_value : Value) (arguments : list Value) : M JsResult :=
  date_value ← this_date this_value;
  seconds ← number_argument arguments 0;
  milliseconds ← optional_argument arguments 1;
  if f64_is_nan date_value then mret (JValue nan)
  else
    let date_value := local_time date_value in
    let milliseconds := default (millisecond_from_time date_value) milliseconds in
    store this_value (time_clip (utc (make_date (day date_value)
      (make_time (hour_from_time date_value) (minute_from_time date_value) seconds milliseconds)))).

Definition set_time (this_value : Value) (arguments : list Value) : M JsResult :=
  _ ← this_date this_value;
  time ← number_argument arguments 0;
  store this_value (time_clip time).

Definition set_utc_date (this_value : Value) (arguments : list Value) : M JsResult :=
  date_value ← this_date this_value;
  date ← number_argument arguments 0;
  if f64_is_nan date_value then mret (JValue nan)
  else
    month ← pure (month_from_time date_value);
    day ← pure (make_day (year_from_time date_value) month date);
    store this_value (time_clip (make_date day (time_within_day date_value))).

Definition set_utc_full_year (this_value : Value) (arguments : list Value) : M JsResult :=
  date_value ← this_date this_value;
  let date_value := if f64_is_nan date_value then lit 0 else date_value in
  year ← number_argument arguments 0;
  month ← (if (2 <=? List.length arguments)%nat then number_argument arguments 1
           else pure (month_from_time date_value));
  date ← (if (3 <=? List.length arguments)%nat then number_argument arguments 2
          else pure (date_from_time date_value));
  day ← pure (make_day year month date);
  store this_value (time_clip (make_date day (time_within_day date_value))).

Definition set_utc_hours (this_value : Value) (arguments : list Value) : M JsResult :=
  date_value ← this_date this_value;
  hours ← number_argument arguments 0;
  minutes ← optional_argument arguments 1;
  seconds ← optional_argument arguments 2;
  milliseconds ← optional_argument arguments 3;
  if f64_is_nan date_value then mret (JValue nan)
  else
    let minutes := default (minute_from_time date_value) minutes in
    let seconds := default (second_from_time date_value) seconds in
    let milliseconds := default (millisecond_from_time date_value) milliseconds in
    store this_value (time_clip (make_date (day date_value) (make_time hours minutes seconds milliseconds))).

Definition set_utc_milliseconds (this_value : Value) (arguments : list Value) : M JsResult :=
  date_value ← this_date this_value;
  milliseconds ← number_argument arguments 0;
  if f64_is_nan date_value then mret (JValue nan)
  else
    store this_value (time_clip (make_date (day date_value)
      (make_time (hour_from_time date_value) (minute_from_time date_value) (second_from_time date_value)
         milliseconds))).

Definition set_utc_minutes (this_value : Value) (arguments : list Value) : M JsResult :=
  date_value ← this_date this_value;
  minutes ← number_argument arguments 0;
  seconds ← optional_argument arguments 1;
  milliseconds ← optional_argument arguments 2;
  if f64_is_nan date_value then mret (JValue nan)
  else
    let seconds := default (second_from_time date_value) seconds in
    let milliseconds := default (millisecond_from_time date_value) milliseconds in
    store this_value (time_clip (make_date (day date_value)
      (make_time (hour_from_time date_value) minutes seconds milliseconds))).

Definition set_utc_month (this_value : Value) (arguments : list Value) : M JsResult :=
  date_value ← this_date this_value;
  month ← number_argument arguments 0;
  date ← optional_argument arguments 1;
  if f64_is_nan date_value then mret (JValue nan)
  else
    date ← (match date with Some date => mret date | None => pure (date_from_time date_value) end);
    day ← pure (make_day (year_from_time date_value) month date);
    store this_value (time_clip (make_date day (time_within_day date_value))).

Definition set_utc_seconds (this_value : Value) (arguments : list Value) : M JsResult :=
  date_value ← this_date this_value;
  seconds ← number_argument arguments 0;
  milliseconds ← optional_argument arguments 1;
  if f64_is_nan date_value then mret (JValue nan)
  else
    let milliseconds := default (millisecond_from_time date_value) milliseconds in
    store this_value (time_clip (make_date (day date_value)
      (make_time (hour_from_time date_value) (minute_from_time date_value) seconds milliseconds))).

Definition set_year (this_value : Value) (arguments : list Value) : M JsResult :=
  date_value ← this_date this_value;
  short_year ← number_argument arguments 0;
  let time := if f64_is_nan date_value then lit 0 else local_time date_value in
  let full_year := make_full_year short_year in
  month ← pure (month_from_time time);
  date ← pure (date_from_time time);
  day ← pure (make_day full_year month date);
  let date := make_date day (time_within_day time) in
  store this_value (time_clip (utc date)).

(** ** Texts *)

Definition to_date_string_shared (date_value : f64) : M JsResult :=
  if f64_is_nan date_value then mret (JString (text "Invalid Date"))
  else
    let date_value := local_time date_value in
    string ← pure (date_string [] date_value);
    mret (JString string).

Definition to_time_string_shared (date_value : f64) : M JsResult :=
  if f64_is_nan date_value then mret (JString (text "Invalid Date"))
  else
    let local_date_value := local_time date_value in
    let string := time_string display_f64 [] local_date_value in
    mret (JString (time_zone_string display_f64 string date_value)).

Definition to_date_string (this_value : Value) (arguments : list Value) : M JsResult :=
  date_value ← this_date this_value;
  to_date_string_shared date_value.
Definition to_locale_date_string (this_value : Value) (arguments : list Value) : M JsResult :=
  date_value ← this_date this_value;
  to_date_string_shared date_value.
Definition to_time_string (this_value : Value) (arguments : list Value) : M JsResult :=
  date_value ← this_date this_value;
  to_time_string_shared date_value.
Definition to_locale_time_string (this_value : Value) (arguments : list Value) : M JsResult :=
  date_value ← this_date this_value;
  to_time_string_shared date_value.

(** [Date.prototype.toString] and [toLocaleString]. *)
Definition date_to_string (this_value : Value) (arguments : list Value) : M JsResult :=
  date_value ← this_date this_value;
  string ← pure (DateText.to_date_string display_f64 date_value);
  mret (JString string).
Definition to_locale_string (this_value : Value) (arguments : list Value) : M JsResult :=
  date_value ← this_date this_value;
  string ← pure (DateText.to_date_string display_f64 date_value);
  mret (JString string).

Definition to_utc_string (this_value : Value) (arguments : list Value) : M JsResult :=
  date_value ← this_date this_value;
  string ← pure (utc_string display_f64 date_value);
  mret (JString string).

Definition to_iso_string (this_value : Value) (arguments : list Value) : M JsResult :=
  date_value ← this_date this_value;
  if negb (f64_is_finite date_value) then throw RangeError
  else
    string ← pure (iso_string date_value);
    mret (JString string).

Definition to_json (this_value : Value) (arguments : list Value) : M JsResult :=
  object ← to_object this_value;
  time_value ← to_primitive object HintNumber;
  if is_number time_value && negb (f64_is_finite (as_number time_value)) then mret (JValue null)
  else invoke_to_iso_string object.

(** [Date.prototype[Symbol.toPrimitive]]; [is_object] decides whether [this] is an object. *)
Definition date_to_primitive (is_object : Value -> bool) (this_value : Value) (arguments : list Value) : M JsResult :=
  if negb (is_object this_value) then throw TypeError
  else
    hint ← string_units (get_argument arguments 0);
    match hint with
    | Some hint =>
        if flat_string_eq hint (text "default") || flat_string_eq hint (text "string")
        then ordinary_to_primitive this_value HintString
        else if flat_string_eq hint (text "number") then ordinary_to_primitive this_value HintNumber
        else throw TypeError
    | None => throw TypeError
    end.

(** ** The methods by name, with their lengths *)

Definition method : Type := Value -> list Value -> M JsResult.

Definition date_methods : list (string * method * Z) :=
  [ ("getDate", get_date, 0); ("getDay", get_day, 0); ("getFullYear", get_full_year, 0);
    ("getHours", get_hours, 0); ("getMilliseconds", get_milliseconds, 0); ("getMinutes", get_minutes, 0);
    ("getMonth", get_month, 0); ("getSeconds", get_seconds, 0); ("getTime", get_time, 0);
    ("getTimezoneOffset", get_timezone_offset, 0); ("getUTCDate", get_utc_date, 0);
    ("getUTCDay", get_utc_day, 0); ("getUTCFullYear", get_utc_full_year, 0);
    ("getUTCHours", get_utc_hours, 0); ("getUTCMilliseconds", get_utc_milliseconds, 0);
    ("getUTCMinutes", get_utc_minutes, 0); ("getUTCMonth", get_utc_month, 0);
    ("getUTCSeconds", get_utc_seconds, 0); ("setDate", set_date, 1); ("setFullYear", set_full_year, 3);
    ("setHours", set_hours, 4); ("setMilliseconds", set_milliseconds, 1); ("setMinutes", set_minutes, 3);
    ("setMonth", set_month, 2); ("setSeconds", set_seconds, 2); ("setTime", set_time, 1);
    ("setUTCDate", set_utc_date, 1); ("setUTCFullYear", set_utc_full_year, 3);
    ("setUTCHours", set_utc_hours, 4); ("setUTCMilliseconds", set_utc_milliseconds, 1);
    ("setUTCMinutes", set_utc_minutes, 3); ("setUTCMonth", set_utc_month, 2);
    ("setUTCSeconds", set_utc_seconds, 2); ("toDateString", to_date_string, 0);
    ("toISOString", to_iso_string, 0); ("toJSON", to_json, 1);
    ("toLocaleDateString", to_locale_date_string, 0); ("toLocaleString", to_locale_string, 0);
    ("toLocaleTimeString", to_locale_time_string, 0); ("toTimeString", to_time_string, 0);
    ("toString", date_to_string, 0); ("toUTCString", to_utc_string, 0); ("valueOf", value_of, 0) ]%string.

(** Annex B: [toGMTString] is the function of [toUTCString]. *)
Definition annex_b_methods : list (string * method * Z) :=
  [ ("getYear", get_year, 0); ("setYear", set_year, 1); ("toGMTString", to_utc_string, 0) ]%string.

(** ** The constructor *)

Definition get_current_unix_time : M f64 := fun w => (w, EOk (default (lit 0) (sys w))).

(** The time value of up to seven parts; [year] and [month] are given. *)
Definition argument_or (arguments : list Value) (i : nat) (value : f64) : M f64 :=
  if (i <? List.length arguments)%nat then number_argument arguments i else mret value.

Definition date_from_parts (arguments : list Value) (year month : f64) : M f64 :=
  date ← argument_or arguments 2 (lit 1);
  hour ← argument_or arguments 3 (lit 0);
  minute ← argument_or arguments 4 (lit 0);
  second ← argument_or arguments 5 (lit 0);
  millisecond ← argument_or arguments 6 (lit 0);
  let year := make_full_year year in
  final_day ← pure (make_day year month date);
  let final_time := make_time hour minute second millisecond in
  mret (make_date final_day final_time).

(** The time value of one argument: a date, a text or a number. *)
Definition date_of_argument (argument : Value) : M f64 :=
  date_value ← this_date_value argument;
  match date_value with
  | Some date_value => mret date_value
  | None =>
      primitive_value ← to_primitive argument HintNone;
      units ← string_units primitive_value;
      match units with
      | Some primitive_string =>
          date ← pure (parse_string_to_date primitive_string);
          mret (default F64_NAN date)
      | None => v ← to_number primitive_value; mret (as_number v)
      end
  end.

Definition new_from_constructor (constructor : Value) (date_value : f64) : M Z :=
  object ← object_create_from_constructor constructor;
  _ ← put_date object date_value;
  mret object.

(** Date called, or constructed with a new target. *)
Definition construct (new_target : option Value) (arguments : list Value) : M (JsResult + Z) :=
  match new_target with
  | None =>
      time ← get_current_unix_time;
      string ← pure (DateText.to_date_string display_f64 time);
      mret (inl (JString string))
  | Some new_target =>
      let number_of_args := List.length arguments in
      date_value ←
        (if (number_of_args =? 0)%nat then get_current_unix_time
         else if (number_of_args =? 1)%nat then
           date_value ← date_of_argument (get_argument arguments 0);
           mret (time_clip date_value)
         else
           year ← number_argument arguments 0;
           month ← number_argument arguments 1;
           final_date ← date_from_parts arguments year month;
           mret (time_clip (utc final_date)));
      object ← new_from_constructor new_target date_value;
      mret (inr object)
  end.

Definition now (this_value : Value) (arguments : list Value) : M JsResult :=
  time ← get_current_unix_time;
  mret (from_f64 time).

Definition parse (this_value : Value) (arguments : list Value) : M JsResult :=
  string ← to_string (get_argument arguments 0);
  date ← pure (parse_string_to_date string);
  mret (match date with Some date_value => from_f64 date_value | None => JValue nan end).

Definition date_utc (this_value : Value) (arguments : list Value) : M JsResult :=
  year ← number_argument arguments 0;
  month ← argument_or arguments 1 (lit 0);
  final_date ← date_from_parts arguments year month;
  mret (from_f64 (time_clip final_date)).

End Methods.
