(* ===== verification/DatePrototypeCorrect.v ===== *)
(** The methods of dates are safe and keep the time values in range; the setters store the time the
    calendar says. *)

From Stdlib Require Import Ascii String.
From S2P Require Import Prelude Float64 Value ValueCorrect TypeUtilities TypeUtilitiesCorrect.
From S2P Require Import FloatIntegers Unicode LexerStream UnicodeProperty Characters StringLexer Date DateCorrect.
From S2P Require Import DateText DateTextCorrect DatePrototype.

(** ** Totality of the arithmetic *)

Lemma with_sign_ok b f : f64_ok f -> f64_ok (f64_with_sign b f).
Proof. intros Hf. destruct b; [by apply neg_ok|done]. Qed.

Lemma nan_ok : f64_ok F64_NAN.
Proof. by vm_compute. Qed.

Lemma infinity_ok : f64_ok F64_INFINITY.
Proof. by vm_compute. Qed.

Lemma mul_ok a b : f64_ok (f64_mul a b).
Proof.
  unfold f64_mul. cbn zeta.
  repeat case_match; auto using nan_ok, with_sign_ok, infinity_ok; apply with_sign_ok, f64_round_ok.
Qed.

Lemma make_date_ok d t : f64_ok (make_date d t).
Proof.
  unfold make_date. destruct (negb (f64_is_finite d) || negb (f64_is_finite t)) eqn:Hf; [apply nan_ok|].
  cbn zeta. case_match; [apply nan_ok|]. apply orb_false_iff in Hf as [_ Hf].
  assert (Hi : f64_is_infinite t = false) by (unfold f64_is_finite, f64_is_infinite in *; lia).
  pose proof (mul_ok d MS_PER_DAY). unfold f64_add. rewrite Hi.
  repeat case_match; auto using nan_ok, f64_round_ok.
Qed.

Lemma as_i64_range f : i64_min <= as_i64 f <= i64_max.
Proof. unfold as_i64, f64_as_int, clamp, i64_min, i64_max. case_match; lia. Qed.

Lemma month_start_returns y m d : 1 <= m <= 12 ->
  exists n, year_month_day_to_days_since_year_start y m d = Done n.
Proof.
  intros Hm. unfold year_month_day_to_days_since_year_start. rewrite (proj2 (andb_true_iff _ _)) by lia.
  rewrite days_to_month by lia. cbn [unwrap mbind outcome_bind]. by eexists.
Qed.

(** MakeDay returns for all numbers: its month is always one of the twelve. *)
Lemma make_day_returns y m d : f64_ok m -> exists r, make_day y m d = Done r.
Proof.
  intros Hm. unfold make_day.
  destruct (negb (f64_is_finite y) || negb (f64_is_finite m) || negb (f64_is_finite d)) eqn:Hf; [by eexists|].
  apply orb_false_iff in Hf as [[_ Hfm]%orb_false_iff _]. apply negb_false_iff in Hfm. cbn zeta.
  case_match; [by eexists|].
  destruct (to_integer_finite m Hm Hfm) as [Hn Hs].
  assert (Hfin : f64_is_finite (to_integer_or_infinity_f64 m) = true).
  { apply f64_finite_of_scaled; [done|]. rewrite Hs. pose proof (f64_is_finite_bound m Hfm) as Hb.
    pose proof F64_ONE_pos. unfold f64_integer_part. rewrite Z.abs_mul, (Z.abs_eq F64_ONE_SCALED) by lia.
    rewrite <- Z.quot_abs, (Z.abs_eq F64_ONE_SCALED), Z.quot_div_nonneg by lia.
    pose proof (Z.mul_div_le (Z.abs (f64_scaled m)) F64_ONE_SCALED). lia. }
  rewrite (modulo_value _ _ 12 Hfin Hs) by lia. set (k := f64_integer_part m mod 12).
  assert (Hk : 0 <= k < 12) by (apply Z.mod_pos_bound; lia).
  rewrite as_i64_lit, wrap_i64_small by (unfold safe; lia).
  unfold year_month_day_to_days_since_unix_epoch.
  destruct (year_to_days_since_unix_epoch _); [|by eexists]. cbn [mbind outcome_bind].
  match goal with |- context [year_month_day_to_days_since_year_start ?a ?b ?c] =>
    destruct (month_start_returns a b c ltac:(lia)) as [x ->] end.
  cbn [mbind outcome_bind]. case_match; by eexists.
Qed.

(** A time value that is not NaN is an integer in range. *)
Lemma time_value_cases f : time_value f -> f64_is_nan f = false -> exists t, time_range t /\ f = lit t.
Proof. intros [->|H] Hn; [done|exact H]. Qed.

Lemma zero_time : time_value (lit 0).
Proof. right. exists 0. split; [unfold time_range, MAX_TIME; lia|done]. Qed.

Lemma month_returns f : time_value f -> f64_is_nan f = false ->
  exists m, month_from_time f = Done m /\ f64_ok m.
Proof.
  intros Hv Hn. destruct (time_value_cases f Hv Hn) as (t & Ht & ->).
  destruct (date_of_time t Ht) as (_ & -> & _). eexists. split; [done|apply int_ok].
Qed.

Lemma date_returns f : time_value f -> f64_is_nan f = false -> exists d, date_from_time f = Done d.
Proof.
  intros Hv Hn. destruct (time_value_cases f Hv Hn) as (t & Ht & ->).
  destruct (date_of_time t Ht) as (_ & _ & -> & _). by eexists.
Qed.

(** ** The texts never panic *)

Lemma week_day_string_returns t : time_range t -> exists s, week_day_string (lit t) = Done s.
Proof. intros Ht. destruct (week_day_text t Ht) as [_ ->]. by eexists. Qed.

Lemma month_string_returns t : time_range t -> exists s, month_string (lit t) = Done s.
Proof.
  intros Ht. destruct (date_of_time t Ht) as (_ & Hm & _ & _ & Hv). apply date_ranges in Hv as [Hvm _].
  rewrite (month_string_text t _ Hm Hvm). by eexists.
Qed.

Lemma date_string_returns s f : time_value f -> f64_is_nan f = false -> exists r, date_string s f = Done r.
Proof.
  intros Hv Hn. destruct (date_returns f Hv Hn) as [d Hd].
  destruct (time_value_cases f Hv Hn) as (t & Ht & ->).
  destruct (week_day_string_returns t Ht) as [a Ha]. destruct (month_string_returns t Ht) as [b Hb].
  unfold date_string. rewrite Ha, Hb, Hd. by eexists.
Qed.

Lemma to_date_string_returns display f : time_value f ->
  exists r, DateText.to_date_string display f = Done r.
Proof.
  intros Hv. unfold DateText.to_date_string. destruct (f64_is_nan f) eqn:Hn; [by eexists|].
  destruct (date_string_returns [] (local_time f) Hv Hn) as [r ->]. by eexists.
Qed.

Lemma utc_string_returns display f : time_value f -> exists r, utc_string display f = Done r.
Proof.
  intros Hv. unfold utc_string. destruct (f64_is_nan f) eqn:Hn; [by eexists|].
  destruct (date_returns f Hv Hn) as [d Hd]. destruct (time_value_cases f Hv Hn) as (t & Ht & ->).
  destruct (week_day_string_returns t Ht) as [a Ha]. destruct (month_string_returns t Ht) as [b Hb].
  rewrite Ha, Hb, Hd. by eexists.
Qed.

Lemma iso_string_returns f : time_value f -> f64_is_finite f = true -> exists r, iso_string f = Done r.
Proof.
  intros Hv Hf. destruct (time_value_cases f Hv (f64_is_finite_not_nan f Hf)) as (t & Ht & ->).
  rewrite iso_string_text by done. by eexists.
Qed.

(** ** Parsing never panics *)

(** What a parser promises of its result. *)
Definition ensures {A} (m : LX A) (P : A -> Prop) : Prop := forall l a l', m l = Some (a, l') -> P a.

Lemma ensures_bind {A B} (m : LX A) (f : A -> LX B) P Q :
  ensures m P -> (forall a, P a -> ensures (f a) Q) -> ensures (m ≫= f) Q.
Proof.
  intros Hm Hf l b l' E. unfold mbind, LX_bind in E. destruct (m l) as [[a l1]|] eqn:Em; [|done].
  exact (Hf a (Hm _ _ _ Em) _ _ _ E).
Qed.

Lemma ensures_any {A} (m : LX A) : ensures m (fun _ => True).
Proof. done. Qed.

Lemma ensures_ret {A} (a : A) (P : A -> Prop) : P a -> ensures (mret a) P.
Proof. intros Ha l a' l' [= <- <-]. exact Ha. Qed.

Lemma ensures_fail {A} (P : A -> Prop) : ensures fail P.
Proof. done. Qed.

Lemma ensures_guard b : ensures (guard b) (fun _ => b = true).
Proof. intros l a l' E. unfold guard in E. by destruct b. Qed.

Lemma ensures_weaken {A} (m : LX A) (P Q : A -> Prop) : ensures m P -> (forall a, P a -> Q a) -> ensures m Q.
Proof. intros Hm HPQ l a l' E. exact (HPQ _ (Hm _ _ _ E)). Qed.

Lemma ensures_digits w v : (w <= 9)%nat -> 0 <= v < 10 ^ (10 - Z.of_nat w) ->
  ensures (decimal_digits_loop w v) (fun n => 0 <= n < (v + 1) * 10 ^ Z.of_nat w).
Proof.
  revert v. induction w as [|w IH]; intros v Hw Hv; [apply ensures_ret; cbn; lia|]. cbn [decimal_digits_loop].
  eapply ensures_bind with (P := fun d => forall x, d = Some x -> 0 <= x <= 9).
  { intros l d l' [= <- <-] x E. unfold current_decimal_value in E. change (ch "0") with 48 in E.
    change (ch "9") with 57 in E. destruct (current l) as [u|]; [|done].
    destruct ((48 <=? u) && (u <=? 57)) eqn:Hu; [|done]. injection E as <-. lia. }
  intros [d|] Hd; [|apply ensures_fail]. specialize (Hd d eq_refl).
  eapply ensures_bind; [apply ensures_any|]. intros _ _.
  assert (Hp : 10 ^ (10 - Z.of_nat w) = 10 * 10 ^ (10 - Z.of_nat (S w))).
  { rewrite <- Z.pow_succ_r by lia. f_equal. lia. }
  assert (10 ^ (10 - Z.of_nat w) <= 10 ^ 10) by (apply Z.pow_le_mono_r; lia).
  rewrite !wrap_i64_small by (rewrite ?wrap_i64_small by lia; lia).
  eapply ensures_weaken; [apply IH; lia|]. cbn beta. intros n Hn.
  rewrite Nat2Z.inj_succ, Z.pow_succ_r by lia.
  assert (0 < 10 ^ Z.of_nat w) by (apply Z.pow_pos_nonneg; lia). nia.
Qed.

Lemma ensures_parse_digits w : (w <= 9)%nat -> ensures (parse_decimal_digits w) (fun n => 0 <= n < 10 ^ Z.of_nat w).
Proof.
  intros Hw. eapply ensures_weaken; [apply ensures_digits; [done|]|cbn beta; lia].
  assert (0 < 10 ^ (10 - Z.of_nat w)) by (apply Z.pow_pos_nonneg; lia). lia.
Qed.

(** Parts whose time does not overflow. *)
Definition clock_ok (h m se ms : Z) : Prop := 0 <= h < 100 /\ 0 <= m < 100 /\ 0 <= se < 100 /\ 0 <= ms < 1000.
Definition parts_ok (p : DateParts) : Prop :=
  (Z.abs (p_year p) <= 10 ^ 6 /\ 1 <= p_month p <= 12 /\ 0 <= p_day p <= 31) /\
  clock_ok (p_hour p) (p_minute p) (p_second p) (p_millisecond p) /\ Z.abs (p_offset p) <= 10 ^ 9.

(** Reading on: a step whose result does not matter, and digits. *)
Ltac skip := eapply ensures_bind; [apply ensures_any|intros ? _]; cbn beta.
Ltac digits n H := eapply ensures_bind; [apply ensures_parse_digits; lia|intros n H]; cbn in H.

Lemma ensures_optional c w d (P : Z -> Prop) : (w <= 9)%nat -> P d -> (forall n, 0 <= n < 10 ^ Z.of_nat w -> P n) ->
  ensures (optional_digits c w d) P.
Proof.
  intros Hw Hd HP. eapply ensures_bind; [apply ensures_any|]. intros [] _; [|by apply ensures_ret].
  eapply ensures_bind; [apply ensures_any|]. intros _ _. eapply ensures_weaken; [by apply ensures_parse_digits|done].
Qed.

Lemma ensures_iso_year : ensures iso_year (fun y => Z.abs y <= 10 ^ 6).
Proof.
  eapply ensures_bind; [apply ensures_any|]. intros plus _. eapply ensures_bind; [apply ensures_any|]. intros minus _.
  destruct plus.
  { eapply ensures_bind; [apply ensures_any|]. intros _ _.
    eapply ensures_weaken; [apply ensures_parse_digits; lia|]. cbn; lia. }
  destruct minus.
  { eapply ensures_bind; [apply ensures_any|]. intros _ _.
    eapply ensures_bind; [apply ensures_parse_digits; lia|]. cbn beta. intros y Hy.
    case_match; [apply ensures_fail|apply ensures_ret; cbn in *; lia]. }
  eapply ensures_weaken; [apply ensures_parse_digits; lia|]. cbn; lia.
Qed.

Lemma ensures_iso_time : ensures iso_time (fun '(h, m, se, ms) => clock_ok h m se ms).
Proof.
  unfold iso_time. skip. digits h Hh. skip. digits m Hm. skip.
  eapply ensures_bind; [apply (ensures_optional _ _ _ (fun n => 0 <= n < 100)); cbn; lia|]. intros se Hse. skip.
  eapply ensures_bind; [apply (ensures_optional _ _ _ (fun n => 0 <= n < 1000)); cbn; lia|]. intros ms Hms.
  apply ensures_ret. unfold clock_ok. cbn in *. lia.
Qed.

Lemma ms_of_range sign h m : -1 <= sign <= 1 -> 0 <= h < 100 -> 0 <= m < 100 -> Z.abs (ms_of sign h m) <= 10 ^ 9.
Proof.
  intros Hs Hh Hm. unfold ms_of. rewrite ms_per_hour, ms_per_minute, !as_i64_lit by (unfold safe; lia).
  assert (sign = -1 \/ sign = 0 \/ sign = 1) as Hc by lia. destruct_or! Hc; subst sign; no_wrap; lia.
Qed.

Lemma ensures_iso_time_zone : ensures iso_time_zone (fun n => Z.abs n <= 10 ^ 9).
Proof.
  unfold iso_time_zone. do 3 skip. case_match; [apply ensures_ret; lia|].
  case_match; [|apply ensures_ret; lia]. cbn zeta. skip. digits h Hh. skip. digits m Hm. skip.
  apply ensures_ret, ms_of_range; [case_match; lia|lia..].
Qed.

Lemma ensures_iso_parts : ensures iso_parts parts_ok.
Proof.
  unfold iso_parts. eapply ensures_bind; [apply ensures_iso_year|]. intros y Hy. cbn beta in Hy. skip.
  eapply ensures_bind; [apply ensures_guard|]. intros ? Hm. cbn beta in Hm. skip.
  eapply ensures_bind; [apply ensures_guard|]. intros ? Hd. cbn beta in Hd. skip.
  eapply ensures_bind with (P := fun '(h, m, se, ms) => clock_ok h m se ms).
  { case_match; [apply ensures_iso_time|]. apply ensures_ret. unfold clock_ok. lia. }
  intros [[[h m] se] ms] Ht. eapply ensures_bind; [apply ensures_iso_time_zone|]. intros o Ho. cbn beta in Ho. do 2 skip.
  unfold between_z in *. apply ensures_ret. unfold parts_ok. cbn in *. split_and!; done || lia.
Qed.

Lemma ensures_month : ensures parse_month (fun m => 0 <= m <= 11).
Proof.
  unfold parse_month.
  repeat first
    [ apply ensures_ret; lia
    | skip
    | match goal with |- ensures (if ?b then _ else _) _ => destruct b end ].
Qed.

Lemma ensures_signed_year : ensures signed_year (fun y => Z.abs y <= 10 ^ 6).
Proof. unfold signed_year. skip. cbn zeta. digits n Hn. apply ensures_ret. cbn in *. case_match; lia. Qed.

Lemma ensures_default_time_zone : ensures default_time_zone (fun n => Z.abs n <= 10 ^ 9).
Proof.
  unfold default_time_zone. skip.
  eapply ensures_bind with (P := fun s => -1 <= s <= 1).
  { case_match; [|skip]; apply ensures_ret; lia. }
  intros sign Hs. digits h Hh. digits m Hm. do 3 skip. by apply ensures_ret, ms_of_range.
Qed.

Lemma ensures_date_rest utc m d : 0 <= m <= 11 -> ensures (date_rest utc m d) parts_ok.
Proof.
  intros Hm. unfold date_rest. eapply ensures_bind; [apply ensures_guard|]. intros ? Hd. cbn beta in Hd. skip.
  eapply ensures_bind; [apply ensures_signed_year|]. intros y Hy. cbn beta in Hy. skip.
  digits h Hh. skip. digits mi Hmi. skip. digits se Hse. do 5 skip.
  eapply ensures_bind with (P := fun n => Z.abs n <= 10 ^ 9).
  { destruct utc; [apply ensures_ret; lia|apply ensures_default_time_zone]. }
  intros o Ho. cbn beta in Ho. do 2 skip.
  unfold between_z in *. apply ensures_ret. unfold parts_ok, clock_ok. cbn in *. lia.
Qed.

Lemma ensures_utc_parts : ensures utc_or_default_parts parts_ok.
Proof.
  unfold utc_or_default_parts. do 3 skip. case_match.
  - do 2 skip. eapply ensures_bind; [apply ensures_month|]. intros m Hm. by apply ensures_date_rest.
  - eapply ensures_bind; [apply ensures_month|]. intros m Hm. do 2 skip. by apply ensures_date_rest.
Qed.

Lemma utc_time_returns p : parts_ok p -> exists r, utc_time_from_full_date_parts p = Done r /\
  match r with Some f => time_value f | None => True end.
Proof.
  intros ((Hy & Hm & Hd) & (Hh & Hmi & Hs & Hms) & Ho). unfold utc_time_from_full_date_parts.
  replace (p_month p) with (p_month p - 1 + 1) by lia. rewrite days_since_epoch by lia.
  cbn [mbind outcome_bind unwrap]. set (n := day_number _).
  assert (Hn : Z.abs n <= 2 ^ 30).
  { unfold n, day_number. cbn [cal_year cal_month cal_day]. rewrite month_start_leap.
    pose proof (month_start_range (p_month p - 1) ltac:(lia)). clear - Hy Hd H.
    unfold year_start. destruct (leap _ && _); div_lia. }
  clearbody n. rewrite ms_per_day, ms_per_hour, ms_per_minute. unfold MS_PER_SECOND, MAX_TIME_VALUE, MS_DAY.
  rewrite !as_i64_lit by (unfold safe; lia). unfold i64_abs. no_wrap.
  case_match eqn:Hu; eexists; (split; [reflexivity|]); cbn beta iota; [done|].
  right. eexists. split; [|done]. unfold time_range, MAX_TIME. lia.
Qed.

Lemma parse_returns s : exists r, parse_string_to_date s = Done r /\
  match r with Some f => time_value f | None => True end.
Proof.
  unfold parse_string_to_date, parse_string_to_iso_date, parse_string_to_utc_or_default_date.
  assert (Hutc : exists r,
    match utc_or_default_parts (StringLexer_new s) with
    | None => Done None | Some (parts, _) => utc_time_from_full_date_parts parts end = Done r /\
    match r with Some f => time_value f | None => True end).
  { destruct (utc_or_default_parts (StringLexer_new s)) as [[p l]|] eqn:E; [|by exists None].
    exact (utc_time_returns p (ensures_utc_parts _ _ _ E)). }
  destruct (iso_parts (StringLexer_new s)) as [[p l]|] eqn:E; [|exact Hutc].
  destruct (utc_time_returns p (ensures_iso_parts _ _ _ E)) as (r & -> & Hr). cbn [mbind outcome_bind].
  destruct r as [f|]; [by exists (Some f)|exact Hutc].
Qed.

(** ** Methods keep the time values in range *)

Section Safety.

Context {R : Type}.

Definition valid_world (w : DateWorld R) : Prop := map_Forall (fun _ f => time_value f) (date_values w).

Variable to_number : Value -> DM R Value.
Variable to_primitive : Value -> ToPrimitivePreferredType -> DM R Value.
Variable to_object : Value -> DM R Value.
Variable to_string : Value -> DM R (list Z).
Variable string_of : DateWorld R -> Value -> option (list Z).
Variable ordinary_to_primitive : Value -> ToPrimitivePreferredType -> DM R JsResult.
Variable invoke_to_iso_string : Value -> DM R JsResult.
Variable object_create_from_constructor : Value -> DM R Z.
Variable sys : DateWorld R -> option f64.
Variable display_f64 : nat -> f64 -> list Z.

(** Neither a result nor an exception. *)
Definition fails {A} (m : DM R A) (w : DateWorld R) : Prop :=
  match snd (m w) with EOk _ | EErr _ => False | EPanic | EFault | EOutOfFuel => True end.

(** One of the calls that may run JavaScript code fails in a valid world. *)
Definition conversion_failed : Prop := exists w, valid_world w /\
  ((exists v, fails (to_number v) w) \/ (exists v hint, fails (to_primitive v hint) w) \/
   (exists v, fails (to_object v) w) \/ (exists v, fails (to_string v) w) \/
   (exists v hint, fails (ordinary_to_primitive v hint) w) \/
   (exists v, fails (invoke_to_iso_string v) w) \/
   (exists v, fails (object_create_from_constructor v) w)).

(** A computation keeps the world valid and returns a result with [P], or throws; it panics only if
    a conversion does. *)
Definition respects {A} (P : A -> Prop) (m : DM R A) : Prop := forall w, valid_world w ->
  valid_world (fst (m w)) /\
  match snd (m w) with EOk a => P a | EErr _ => True | _ => conversion_failed end.

(** The same without a word about failures. *)
Definition keeps {A} (P : A -> Prop) (m : DM R A) : Prop := forall w, valid_world w ->
  valid_world (fst (m w)) /\ match snd (m w) with EOk a => P a | _ => True end.

Lemma respects_keeps {A} (P : A -> Prop) (m : DM R A) :
  keeps P m -> (forall w, valid_world w -> fails m w -> conversion_failed) -> respects P m.
Proof.
  intros Hk Hf w Hw. destruct (Hk w Hw) as [Hw' Hr]. specialize (Hf w Hw). unfold fails in Hf.
  split; [done|]. destruct (snd (m w)); auto.
Qed.

Lemma respects_bind {A B} (m : DM R A) (f : A -> DM R B) P Q :
  respects P m -> (forall a, P a -> respects Q (f a)) -> respects Q (m ≫= f).
Proof.
  intros Hm Hf w Hw. unfold mbind, DM_bind. specialize (Hm w Hw).
  destruct (m w) as [w' [a|e| | |]]; cbn in Hm; try tauto. destruct Hm as [Hw' Ha]. by apply Hf.
Qed.

Lemma respects_ret {A} (a : A) (P : A -> Prop) : P a -> respects P (mret a).
Proof. done. Qed.

Lemma respects_throw {A} e (P : A -> Prop) : respects P (throw e : DM R A).
Proof. done. Qed.

Lemma respects_pure {A} (o : outcome A) (P : A -> Prop) : (exists a, o = Done a /\ P a) -> respects P (pure o : DM R A).
Proof. intros (a & -> & Ha) w Hw. done. Qed.

Lemma respects_weaken {A} (m : DM R A) (P Q : A -> Prop) : respects P m -> (forall a, P a -> Q a) -> respects Q m.
Proof. intros Hm HPQ w Hw. specialize (Hm w Hw). destruct (snd (m w)); naive_solver. Qed.

Lemma respects_this this : respects time_value (this_date (R := R) this).
Proof.
  intros w Hw. unfold this_date, mbind, DM_bind, this_date_value.
  destruct (is_pointer this); cbn; [|done]. destruct (date_values w !! as_pointer this) as [f|] eqn:E; cbn; [|done].
  split; [done|]. exact (Hw _ _ E).
Qed.

Lemma respects_put a f : time_value f -> respects (fun _ => True) (put_date (R := R) a f).
Proof. intros Hf w Hw. split; [|done]. by apply map_Forall_insert_2. Qed.

Lemma respects_store this f : f64_ok f -> respects (fun _ => True) (store (R := R) this (time_clip f)).
Proof.
  intros Hf. eapply respects_bind; [by apply respects_put, time_clip_value|]. intros _ _. by apply respects_ret.
Qed.

(** Conversions give numbers and, like all JavaScript code, keep the dates valid. *)
Record ConversionsOk : Prop := {
  to_number_keeps : forall v, keeps (fun n => f64_ok (as_number n)) (to_number v);
  to_primitive_keeps : forall v hint, keeps (fun _ => True) (to_primitive v hint);
  to_object_keeps : forall v, keeps (fun _ => True) (to_object v);
  to_string_keeps : forall v, keeps (fun _ => True) (to_string v);
  ordinary_to_primitive_keeps : forall v hint, keeps (fun _ => True) (ordinary_to_primitive v hint);
  invoke_keeps : forall v, keeps (fun _ => True) (invoke_to_iso_string v);
  create_keeps : forall v, keeps (fun _ => True) (object_create_from_constructor v);
}.

Hypothesis Hconv : ConversionsOk.

(** The conversions respect the dates. *)
Ltac conversion H :=
  intros; apply respects_keeps; [by apply H|]; intros w Hw Hf; exists w; split; [done|]; naive_solver.
Lemma to_number_ok v : respects (fun n => f64_ok (as_number n)) (to_number v).
Proof. conversion to_number_keeps. Qed.
Lemma to_primitive_ok v hint : respects (fun _ => True) (to_primitive v hint).
Proof. conversion to_primitive_keeps. Qed.
Lemma to_object_ok v : respects (fun _ => True) (to_object v).
Proof. conversion to_object_keeps. Qed.
Lemma to_string_ok v : respects (fun _ => True) (to_string v).
Proof. conversion to_string_keeps. Qed.
Lemma ordinary_to_primitive_ok v hint : respects (fun _ => True) (ordinary_to_primitive v hint).
Proof. conversion ordinary_to_primitive_keeps. Qed.
Lemma invoke_ok v : respects (fun _ => True) (invoke_to_iso_string v).
Proof. conversion invoke_keeps. Qed.
Lemma create_ok v : respects (fun _ => True) (object_create_from_constructor v).
Proof. conversion create_keeps. Qed.

Lemma respects_number args i : respects f64_ok (number_argument to_number args i).
Proof. eapply respects_bind; [by apply to_number_ok|]. intros v Hv. by apply respects_ret. Qed.

Lemma respects_optional args i : respects (fun _ => True) (optional_argument to_number args i).
Proof.
  unfold optional_argument. case_match; [|by apply respects_ret].
  eapply respects_bind; [apply respects_number|]. intros v Hv. by apply respects_ret.
Qed.

Lemma respects_argument_or args i f : respects (fun _ => True) (argument_or to_number args i f).
Proof.
  unfold argument_or. case_match; [|by apply respects_ret].
  eapply respects_weaken; [apply respects_number|done].
Qed.

Lemma respects_month f : time_value f -> f64_is_nan f = false -> respects f64_ok (pure (month_from_time f) : DM R _).
Proof. intros. apply respects_pure. by apply month_returns. Qed.

Lemma respects_date f : time_value f -> f64_is_nan f = false -> respects (fun _ => True) (pure (date_from_time f) : DM R _).
Proof. intros Hv Hn. apply respects_pure. destruct (date_returns f Hv Hn) as [d Hd]. by exists d. Qed.

Lemma respects_make_day y m d : f64_ok m -> respects (fun _ => True) (pure (make_day y m d) : DM R _).
Proof. intros Hm. apply respects_pure. destruct (make_day_returns y m d Hm) as [r Hr]. by exists r. Qed.

Lemma respects_outcome {A} (o : outcome A) : (exists a, o = Done a) -> respects (fun _ => True) (pure o : DM R A).
Proof. intros [a Ha]. apply respects_pure. by exists a. Qed.

Lemma respects_getter field this args :
  (forall f, time_value f -> f64_is_nan f = false -> exists r, field f = Done r) ->
  respects (fun _ => True) (getter (R := R) field this args).
Proof.
  intros Hf. eapply respects_bind; [apply respects_this|]. intros f Hv.
  destruct (f64_is_nan f) eqn:Hn; [by apply respects_ret|].
  eapply respects_bind; [by apply respects_outcome, Hf|]. intros r _. by apply respects_ret.
Qed.

(** Time values, or zero in their place. *)
Lemma time_or_zero f : time_value f ->
  let g := if f64_is_nan f then lit 0 else f in time_value g /\ f64_is_nan g = false.
Proof. intros Hf. cbn zeta. destruct (f64_is_nan f) eqn:Hn; [split; [apply zero_time|apply int_not_nan]|done]. Qed.

(** One step of a method. *)
Ltac respect :=
  unfold local_time, utc in *;
  lazymatch goal with
  | |- respects _ (this_date _ ≫= _) => eapply respects_bind; [apply respects_this|intros ? ?]
  | |- respects _ (number_argument _ _ _ ≫= _) => eapply respects_bind; [apply respects_number|intros ? ?]
  | |- respects _ (optional_argument _ _ _ ≫= _) => eapply respects_bind; [apply respects_optional|intros ? _]
  | |- respects _ (argument_or _ _ _ _ ≫= _) => eapply respects_bind; [apply respects_argument_or|intros ? _]
  | |- respects _ (pure (month_from_time _) ≫= _) => eapply respects_bind; [by apply respects_month|intros ? ?]
  | |- respects _ (pure (date_from_time _) ≫= _) => eapply respects_bind; [by apply respects_date|intros ? _]
  | |- respects _ (pure (make_day _ _ _) ≫= _) => eapply respects_bind; [by apply respects_make_day|intros ? _]
  | |- respects _ (store _ (time_clip (make_date _ _))) => apply respects_store, make_date_ok
  | |- respects _ (store _ (time_clip _)) => by apply respects_store
  | |- respects _ (mret _) => by apply respects_ret
  | |- respects _ (if f64_is_nan ?f then mret _ else _) => destruct (f64_is_nan f) eqn:?; [by apply respects_ret|]
  end.

Lemma respects_setters this args :
  Forall (fun m : method (R := R) => respects (fun _ => True) (m this args))
    [set_date to_number; set_hours to_number; set_milliseconds to_number; set_minutes to_number;
     set_seconds to_number; set_time to_number; set_utc_date to_number; set_utc_hours to_number;
     set_utc_milliseconds to_number; set_utc_minutes to_number; set_utc_seconds to_number].
Proof.
  repeat apply List.Forall_cons; [..|apply List.Forall_nil];
    unfold set_date, set_hours, set_milliseconds, set_minutes, set_seconds, set_time, set_utc_date, set_utc_hours,
      set_utc_milliseconds, set_utc_minutes, set_utc_seconds; repeat respect.
Qed.

Lemma respects_month_setters this args :
  respects (fun _ => True) (set_month to_number this args) /\
  respects (fun _ => True) (set_utc_month to_number this args).
Proof.
  split; unfold set_month, set_utc_month; repeat respect;
    (eapply respects_bind with (P := fun _ => True); [|intros ? _; repeat respect]);
    (case_match; [by apply respects_ret|by apply respects_date]).
Qed.

Lemma respects_year_setters this args :
  respects (fun _ => True) (set_full_year to_number this args) /\
  respects (fun _ => True) (set_utc_full_year to_number this args) /\
  respects (fun _ => True) (set_year to_number this args).
Proof.
  split_and!; unfold set_full_year, set_utc_full_year, set_year; repeat respect; cbn zeta; repeat respect;
    match goal with H : time_value ?f |- _ => destruct (time_or_zero f H) as [Hv Hn] end;
    unfold local_time in *; set (g := if f64_is_nan _ then _ else _) in *; clearbody g; repeat respect;
    (eapply respects_bind with (P := f64_ok);
      [case_match; [apply respects_number|by apply respects_month]|intros ? ?]);
    (eapply respects_bind with (P := fun _ => True);
      [case_match; [eapply respects_weaken; [apply respects_number|done]|by apply respects_date]|intros ? _]);
    repeat respect.
Qed.

Lemma respects_texts this args :
  Forall (fun m : method (R := R) => respects (fun _ => True) (m this args))
    [to_date_string; to_iso_string; to_locale_date_string; to_locale_string display_f64;
     to_locale_time_string display_f64; to_time_string display_f64; date_to_string display_f64;
     to_utc_string display_f64; get_time; value_of].
Proof.
  repeat apply List.Forall_cons; [..|apply List.Forall_nil];
    (eapply respects_bind; [apply respects_this|intros f Hv]);
    unfold to_date_string_shared, to_time_string_shared; try (by apply respects_ret); try case_match;
    try (by apply respects_ret); try (apply respects_throw);
    (eapply respects_bind; [apply respects_outcome|intros ? _; by apply respects_ret]).
  - by apply date_string_returns.
  - apply iso_string_returns; [done|]. by apply negb_false_iff.
  - by apply date_string_returns.
  - by apply to_date_string_returns.
  - by apply to_date_string_returns.
  - by apply utc_string_returns.
Qed.

Lemma respects_to_json this args :
  respects (fun _ => True) (to_json to_primitive to_object invoke_to_iso_string this args).
Proof.
  eapply respects_bind; [by apply to_object_ok|intros o _].
  eapply respects_bind; [by apply to_primitive_ok|intros v _].
  case_match; [by apply respects_ret|by apply invoke_ok].
Qed.

Abbreviation all_methods :=
  (date_methods to_number to_primitive to_object invoke_to_iso_string display_f64 ++
   annex_b_methods to_number display_f64).

Lemma methods_respect this args : Forall (fun '(_, m, _) => respects (fun _ => True) (m this args)) all_methods.
Proof.
  pose proof (respects_setters this args) as Hs. pose proof (respects_texts this args) as Ht.
  destruct (respects_month_setters this args) as [Hm1 Hm2].
  destruct (respects_year_setters this args) as (Hy1 & Hy2 & Hy3).
  pose proof (respects_to_json this args) as Hj.
  repeat match goal with H : Forall _ (_ :: _) |- _ => apply Forall_cons_1 in H as [? H] end.
  unfold date_methods, annex_b_methods. cbn [app].
  repeat apply List.Forall_cons; [..|apply List.Forall_nil]; try assumption;
    (apply respects_getter; intros f Hv Hn; eauto using date_returns).
  all: destruct (month_returns f Hv Hn) as (m & Hm & _); by exists m.
Qed.

(** The constructor and its functions. *)

(** A clock that gives time values. *)
Definition clock_gives_times : Prop := forall w f, sys w = Some f -> time_value f.

Lemma respects_now : clock_gives_times -> respects time_value (get_current_unix_time sys).
Proof.
  intros Hsys w Hw. split; [done|]. cbn. destruct (sys w) as [f|] eqn:E; [by apply Hsys with w|apply zero_time].
Qed.

Lemma respects_parts args y m : f64_ok m -> respects f64_ok (date_from_parts to_number args y m).
Proof.
  intros Hm. unfold date_from_parts. do 5 respect. cbn zeta. respect. apply respects_ret, make_date_ok.
Qed.

Lemma time_value_ok f : time_value f -> f64_ok f.
Proof. intros [->|(t & _ & ->)]; [apply nan_ok|apply int_ok]. Qed.

Lemma respects_date_argument v : respects f64_ok (date_of_argument to_number to_primitive string_of v).
Proof.
  unfold date_of_argument. eapply respects_bind with (P := fun o => forall f, o = Some f -> f64_ok f).
  { intros w Hw. split; [done|]. cbn. intros f E. destruct (is_pointer v); [|done].
    exact (time_value_ok f (Hw _ _ E)). }
  intros [f|] Hf; [by apply respects_ret, Hf|]. eapply respects_bind; [by apply to_primitive_ok|]. intros p _.
  eapply respects_bind with (P := fun _ => True); [done|]. intros [s|] _.
  - destruct (parse_returns s) as (r & Hr & Hv).
    eapply respects_bind with (P := fun o => match o with Some f => time_value f | None => True end).
    { apply respects_pure. by exists r. }
    intros [f|] Hf'.
    + by apply respects_ret, time_value_ok.
    + apply respects_ret, nan_ok.
  - eapply respects_bind; [by apply to_number_ok|]. intros n Hn. by apply respects_ret.
Qed.

Lemma respects_new target value : respects time_value value ->
  respects (fun _ => True)
    (date_value ← value; object ← new_from_constructor object_create_from_constructor target date_value;
     mret (inr object : JsResult + Z)).
Proof.
  intros Hv. eapply respects_bind; [exact Hv|]. intros f Hf.
  eapply respects_bind with (P := fun _ => True); [|intros o _; by apply respects_ret].
  eapply respects_bind; [by apply create_ok|]. intros o _.
  eapply respects_bind; [by apply respects_put|]. intros _ _. by apply respects_ret.
Qed.

(** With arguments the constructor does not read the clock. *)
Lemma respects_construct target args : args <> [] ->
  respects (fun _ => True)
    (construct to_number to_primitive string_of object_create_from_constructor sys display_f64 (Some target) args).
Proof.
  intros Ha. apply respects_new. destruct args as [|v args]; [done|]. case_match; [done|]. case_match.
  - eapply respects_bind; [apply respects_date_argument|]. intros f Hf. by apply respects_ret, time_clip_value.
  - do 2 respect. eapply respects_bind; [by apply respects_parts|]. intros f Hf.
    by apply respects_ret, time_clip_value.
Qed.

Lemma respects_construct_clock target args : clock_gives_times ->
  respects (fun _ => True)
    (construct to_number to_primitive string_of object_create_from_constructor sys display_f64 target args).
Proof.
  intros Hsys. destruct target as [target|].
  - destruct args; [|by apply respects_construct]. by apply respects_new, respects_now.
  - eapply respects_bind; [by apply respects_now|]. intros f Hf.
    eapply respects_bind; [by apply respects_outcome, to_date_string_returns|]. intros r _. by apply respects_ret.
Qed.

Lemma respects_parse this args : respects (fun _ => True) (parse to_string this args).
Proof.
  unfold parse. eapply respects_bind; [by apply to_string_ok|]. intros s _.
  destruct (parse_returns s) as (r & Hr & _).
  eapply respects_bind; [apply respects_outcome; by exists r|]. intros d _. by apply respects_ret.
Qed.

Lemma respects_date_utc this args : respects (fun _ => True) (date_utc to_number this args).
Proof.
  unfold date_utc. respect. eapply respects_bind with (P := f64_ok).
  { unfold argument_or. case_match; [apply respects_number|apply respects_ret, int_ok]. }
  intros m Hm. eapply respects_bind; [by apply respects_parts|]. intros f _. by apply respects_ret.
Qed.

(** C9: Dates keep valid time values: in a world where each date object holds NaN or an integer of
    milliseconds of magnitude at most 8.64e15, every method of Date.prototype, the Date constructor
    with arguments, Date.parse and Date.UTC leave such a world and return or throw; they panic only if
    one of the calls that run JavaScript code does, and these calls are assumed to leave such a world
    and ToNumber to give a number.  The clock matters only where it is read: [new Date()] stores
    exactly the milliseconds of the embedder, or 0 without one, so that and the call of [Date]
    respect such worlds when the clock gives such a time value. *)
Theorem date_methods_keep_time_values :
  (forall name m n this args, In (name, m, n) all_methods -> respects (fun _ => True) (m this args)) /\
  (forall target args, args <> [] -> respects (fun _ => True)
     (construct to_number to_primitive string_of object_create_from_constructor sys display_f64
        (Some target) args)) /\
  (forall this args, respects (fun _ => True) (parse to_string this args)) /\
  (forall this args, respects (fun _ => True) (date_utc to_number this args)) /\
  (forall target w w' o, object_create_from_constructor target w = (w', EOk o) ->
     construct to_number to_primitive string_of object_create_from_constructor sys display_f64
       (Some target) [] w =
     (mkDateWorld (<[o := default (lit 0) (sys w)]> (date_values w')) (world_rest w'), EOk (inr o))) /\
  ((forall w f, sys w = Some f -> time_value f) -> forall target args, respects (fun _ => True)
     (construct to_number to_primitive string_of object_create_from_constructor sys display_f64
        target args)).
Proof.
  split_and!; [|apply respects_construct|apply respects_parse|apply respects_date_utc| |].
  - intros name m n this args Hin. pose proof (methods_respect this args) as H.
    rewrite List.Forall_forall in H. exact (H _ Hin).
  - intros target w w' o E. unfold construct, new_from_constructor, get_current_unix_time, mbind, DM_bind.
    cbn. by rewrite E.
  - intros Hsys target args. by apply respects_construct_clock.
Qed.

End Safety.

(** A small world: conversions that keep numbers, and a clock. *)
Module DateExample.

Definition valid_number (v : Value) : bool := (0 <=? as_number v) && (as_number v <? 2 ^ 64).
Definition convert (v : Value) : DM unit Value := mret (if valid_number v then v else nan).
Definition unchanged (v : Value) (_ : ToPrimitivePreferredType) : DM unit Value := mret v.
Definition same (v : Value) : DM unit Value := mret v.
Definition no_text (v : Value) : DM unit (list Z) := mret [].
Definition no_string (_ : DateWorld unit) (_ : Value) : option (list Z) := None.
Definition as_value (v : Value) (_ : ToPrimitivePreferredType) : DM unit JsResult := mret (JValue v).
Definition no_method (_ : Value) : DM unit JsResult := throw TypeError.
Definition fresh (_ : Value) : DM unit Z := mret 8.
Definition clock (_ : DateWorld unit) : option f64 := Some (lit 1000).
Definition display (_ : nat) (_ : f64) : list Z := [].

Lemma conversions_ok : ConversionsOk convert unchanged same no_text as_value no_method fresh.
Proof.
  split; [|intros v h w Hw; exact (conj Hw I)|intros v w Hw; exact (conj Hw I)|intros v w Hw; exact (conj Hw I)
         |intros v h w Hw; exact (conj Hw I)|intros v w Hw; exact (conj Hw I)|intros v w Hw; exact (conj Hw I)].
  intros v w Hw. split; [exact Hw|]. cbn [convert mret DM_ret snd]. destruct (valid_number v) eqn:E.
  - unfold valid_number in E. unfold f64_ok. lia.
  - vm_compute. split; congruence.
Qed.

Definition world : DateWorld unit := mkDateWorld {[ 16 := lit 0 ]} ().

Lemma world_valid : valid_world world.
Proof. apply map_Forall_singleton. apply zero_time. Qed.

Lemma date_methods_keep_time_values_witness :
  valid_world (fst (set_utc_month convert (from_raw_bits 16) [smi 14] world)) /\
  snd (set_utc_month convert (from_raw_bits 16) [smi 14] world) <> EPanic.
Proof.
  destruct (date_methods_keep_time_values convert unchanged same no_text no_string as_value no_method fresh clock
              display conversions_ok) as [H _].
  destruct (H _ _ _ (from_raw_bits 16) [smi 14] ltac:(do 31 apply List.in_cons; left; reflexivity) world world_valid)
    as [Hw Hr].
  split; [exact Hw|]. intros E. rewrite E in Hr.
  destruct Hr as (w & _ & [(? & H1)|[(? & ? & H1)|[(? & H1)|[(? & H1)|[(? & ? & H1)|[(? & H1)|(? & H1)]]]]]]);
    exact H1.
Defined.

(** [new Date()] does not clip the time of the clock: with half a millisecond, the new object holds a
    number that is not a time value. *)
Definition half : f64 := 0x3FE0000000000000.

Theorem new_date_is_not_clipped : exists w,
  construct convert unchanged no_string fresh (fun _ => Some half) display (Some (smi 0)) [] world =
    (w, EOk (inr 8)) /\ date_values w !! 8 = Some half /\ time_clip half <> half.
Proof. eexists. split; [reflexivity|]. split; [reflexivity|]. vm_compute. congruence. Qed.

End DateExample.

(** ** What the setters store *)

#[local] Opaque f64_of_int f64_add f64_sub f64_mul f64_div f64_floor f64_modulo.

Section Setters.

Context {R : Type}.
Variable to_number : Value -> DM R Value.

(** ToNumber of a number is the number. *)
Hypothesis to_number_number : forall w f, f64_ok f -> to_number (number f) w = (w, EOk (number f)).

Definition arg (n : Z) : Value := number (lit n).

Lemma bind_ok {A B} (m : DM R A) (f : A -> DM R B) w w' a : m w = (w', EOk a) -> (m ≫= f) w = f a w'.
Proof. intros E. unfold mbind, DM_bind. by rewrite E. Qed.

Lemma as_number_arg n : as_number (arg n) = lit n.
Proof. destruct (number_roundtrip_facts (lit n) (int_ok n)) as [E _]. by rewrite int_not_nan in E. Qed.

Lemma number_argument_arg args i n w : args !! i = Some (arg n) ->
  number_argument to_number args i w = (w, EOk (lit n)).
Proof.
  intros E. unfold number_argument, get_argument. rewrite E. cbn [default from_option id].
  erewrite bind_ok by (apply to_number_number, int_ok). fold (arg n). by rewrite as_number_arg.
Qed.

Lemma optional_argument_arg args i n w : args !! i = Some (arg n) ->
  optional_argument to_number args i w = (w, EOk (Some (lit n))).
Proof.
  intros E. unfold optional_argument. pose proof (lookup_lt_Some _ _ _ E) as Hl.
  rewrite (proj2 (Nat.ltb_lt _ _) Hl). by erewrite bind_ok by (by apply number_argument_arg).
Qed.

Variable w : DateWorld R.
Variable this : Value.
Variable t : Z.
Hypothesis Hthis : is_pointer this = true.
Hypothesis Hdate : date_values w !! as_pointer this = Some (lit t).
Hypothesis Ht : time_range t.

Lemma this_date_t : this_date this w = (w, EOk (lit t)).
Proof.
  unfold this_date. erewrite bind_ok by reflexivity. by rewrite Hthis, Hdate.
Qed.

(** The world and the result of a setter that computes the time [T]. *)
Definition stores (T : Z) (r : DateWorld R * EvalResult JsResult) : Prop :=
  let f := if Z.abs T <=? MAX_TIME then lit T else F64_NAN in
  r = (mkDateWorld (<[as_pointer this := f]> (date_values w)) (world_rest w), EOk (from_f64 f)).

Lemma store_stores d s : Z.abs d <= 100010000 -> Z.abs s <= 2 ^ 48 ->
  stores (d * MS_DAY + s) (store this (time_clip (make_date (lit d) (lit s))) w).
Proof.
  intros Hd Hs. rewrite make_date_int by done. rewrite time_clip_int by (unfold safe, MS_DAY; lia). reflexivity.
Qed.

Lemma pure_done {A} (a : A) : pure (Done a) w = (w, EOk a).
Proof. done. Qed.

(** C39: The setters store the time the calendar says: on a date of time value [t], with integer
    arguments (years, months, days, minutes and seconds up to 2^30, hours up to 2^25, milliseconds up
    to 2^46 in magnitude), setUTCFullYear(y, m, d) stores the day [d] counted from the first of the
    month [m] counted from January of [y], in the calendar, with the clock of [t]; setUTCDate(d) does
    it in the month of [t], both for days up to ten thousand days beyond the range of dates;
    setUTCHours(h, m, s, ms) stores the sum of the parts on the day of [t]; a time beyond 8.64e15
    milliseconds is stored as NaN; and the stored number is returned.  The bounds keep the sums exact in
    floating point. *)
Theorem setters_store_calendar_time y m d h mi s ms :
  Z.abs y <= 2 ^ 30 -> Z.abs m <= 2 ^ 30 -> Z.abs d <= 2 ^ 30 ->
  Z.abs h <= 2 ^ 25 -> Z.abs mi <= 2 ^ 30 -> Z.abs s <= 2 ^ 30 -> Z.abs ms <= 2 ^ 46 ->
  let c := civil (t / MS_DAY) in
  let D := day_number (mkDate (y + m / 12) (m mod 12) d) in
  let D' := day_number (mkDate (cal_year c) (cal_month c) d) in
  (Z.abs D <= 100010000 ->
   stores (D * MS_DAY + t mod MS_DAY) (set_utc_full_year to_number this [arg y; arg m; arg d] w)) /\
  (Z.abs D' <= 100010000 ->
   stores (D' * MS_DAY + t mod MS_DAY) (set_utc_date to_number this [arg d] w)) /\
  stores (t / MS_DAY * MS_DAY + (h * 3600000 + mi * 60000 + s * 1000 + ms))
    (set_utc_hours to_number this [arg h; arg mi; arg s; arg ms] w).
Proof.
  intros Hy Hm Hd Hh Hmi Hs Hms. cbn zeta. pose proof this_date_t as Hthis_t.
  destruct (date_of_time t Ht) as (Ey & Em & _ & Hr & Hv). apply date_ranges in Hv as [Hvm _].
  assert (Hw : Z.abs (t mod MS_DAY) <= 2 ^ 48) by safe_lia.
  split_and!; [intros HD|intros HD|].
  - unfold set_utc_full_year. erewrite bind_ok by exact Hthis_t. rewrite int_not_nan. cbn zeta.
    erewrite bind_ok by (by apply number_argument_arg).
    erewrite bind_ok by (by apply number_argument_arg). erewrite bind_ok by (by apply number_argument_arg).
    rewrite make_day_int by lia. erewrite bind_ok by apply pure_done.
    rewrite time_within_day_int by exact Ht. by apply store_stores.
  - unfold set_utc_date. erewrite bind_ok by exact Hthis_t.
    erewrite bind_ok by (by apply number_argument_arg). rewrite int_not_nan, Em.
    erewrite bind_ok by apply pure_done. rewrite Ey, make_day_int by (unfold year_range in Hr; lia).
    erewrite bind_ok by apply pure_done. rewrite (Z.div_small (cal_month _)), (Z.mod_small (cal_month _)), Z.add_0_r by lia.
    rewrite time_within_day_int by exact Ht. by apply store_stores.
  - unfold set_utc_hours. erewrite bind_ok by exact Hthis_t.
    erewrite bind_ok by (by apply number_argument_arg). erewrite bind_ok by (by apply optional_argument_arg).
    erewrite bind_ok by (by apply optional_argument_arg). erewrite bind_ok by (by apply optional_argument_arg).
    rewrite int_not_nan. cbn [default from_option id]. cbn zeta.
    rewrite make_time_int, day_int by (assumption || lia). apply store_stores; [safe_lia|lia].
Qed.

End Setters.

(** The thirteenth month of 1970 from the epoch is January 1971. *)
Lemma setters_store_calendar_time_witness :
  stores DateExample.world (from_raw_bits 16) (365 * MS_DAY)
    (set_utc_full_year DateExample.convert (from_raw_bits 16) [arg 1970; arg 12; arg 1] DateExample.world).
Proof.
  assert (Hnum : forall w f, f64_ok f -> DateExample.convert (number f) w = (w, EOk (number f))).
  { intros w f Hf. unfold DateExample.convert, DateExample.valid_number.
    destruct (number_roundtrip_facts f Hf) as [E _]. rewrite E.
    assert (H : f64_ok (if f64_is_nan f then F64_NAN else f)) by (destruct (f64_is_nan f); [apply nan_ok|exact Hf]).
    unfold f64_ok in H. by rewrite (proj2 (andb_true_iff _ _)) by lia. }
  assert (Hd : date_values DateExample.world !! as_pointer (from_raw_bits 16) = Some (lit 0)) by reflexivity.
  assert (Ht : time_range 0) by (unfold time_range, MAX_TIME; lia).
  destruct (setters_store_calendar_time DateExample.convert Hnum DateExample.world (from_raw_bits 16) 0
              ltac:(reflexivity) Hd Ht 1970 12 1 0 0 0 0
              ltac:(lia) ltac:(lia) ltac:(lia) ltac:(lia) ltac:(lia) ltac:(lia) ltac:(lia)) as [H _].
  exact (H ltac:(vm_compute; discriminate)).
Defined.
