(* ===== verification/RegExpInstruction.v ===== *)
(** RegExp bytecode: [src/so2js/runtime/regexp/instruction.rs].

    An instruction is one to four 32-bit words.  The low byte of the first word
    is the opcode; small operands are packed into its upper bytes and the others
    follow as words.  Instructions are read in place through a pointer into the
    buffer, so reading past its end is undefined behaviour, as is an opcode byte
    that is not a discriminant of the enum. *)

From S2P Require Import Prelude.

Inductive OpCode : Type :=
  | OpLiteral | OpWildcard | OpWildcardNoNewline | OpJump | OpBranch | OpAccept | OpFail
  | OpMarkCapturePoint | OpClearCapture | OpProgress | OpLoop | OpAssertStart | OpAssertEnd
  | OpAssertStartOrNewline | OpAssertEndOrNewline | OpWordBoundaryMoveToPrevious
  | OpAssertWordBoundary | OpAssertNotWordBoundary | OpBackreference | OpConsumeIfTrue
  | OpConsumeIfFalse | OpCompareEquals | OpCompareBetween | OpLookaround.

Definition all_opcodes : list OpCode :=
  [OpLiteral; OpWildcard; OpWildcardNoNewline; OpJump; OpBranch; OpAccept; OpFail;
   OpMarkCapturePoint; OpClearCapture; OpProgress; OpLoop; OpAssertStart; OpAssertEnd;
   OpAssertStartOrNewline; OpAssertEndOrNewline; OpWordBoundaryMoveToPrevious;
   OpAssertWordBoundary; OpAssertNotWordBoundary; OpBackreference; OpConsumeIfTrue;
   OpConsumeIfFalse; OpCompareEquals; OpCompareBetween; OpLookaround].

(** [opcode as u32]. *)
Definition opcode_word (op : OpCode) : Z :=
  match op with
  | OpLiteral => 0 | OpWildcard => 1 | OpWildcardNoNewline => 2 | OpJump => 3
  | OpBranch => 4 | OpAccept => 5 | OpFail => 6 | OpMarkCapturePoint => 7
  | OpClearCapture => 8 | OpProgress => 9 | OpLoop => 10 | OpAssertStart => 11
  | OpAssertEnd => 12 | OpAssertStartOrNewline => 13 | OpAssertEndOrNewline => 14
  | OpWordBoundaryMoveToPrevious => 15 | OpAssertWordBoundary => 16
  | OpAssertNotWordBoundary => 17 | OpBackreference => 18 | OpConsumeIfTrue => 19
  | OpConsumeIfFalse => 20 | OpCompareEquals => 21 | OpCompareBetween => 22
  | OpLookaround => 23
  end.

(** [OpCode::size]: the number of words. *)
Definition opcode_size (op : OpCode) : Z :=
  match op with
  | OpJump => 2 | OpBranch => 3 | OpMarkCapturePoint => 2 | OpClearCapture => 2
  | OpProgress => 2 | OpLoop => 4 | OpBackreference => 2 | OpCompareBetween => 2
  | OpLookaround => 2
  | _ => 1
  end.

(** The byte at the start of an instruction read as an [OpCode]. *)
Definition opcode_of_byte (b : Z) : outcome OpCode := deref (all_opcodes !! Z.to_nat b).

(** ** Words and packed operands *)

Definition get_packed_u24_operand (opcode_and_operand : Z) : Z :=
  Z.shiftr opcode_and_operand 8.

(** Byte [index] of the first word in memory (little-endian). *)
Definition get_packed_u8_operand (word : Z) (index : Z) : Z :=
  Z.land (Z.shiftr word (8 * index)) 255.

Definition write_u32 (buf : list Z) (word : Z) : list Z := buf ++ [wrap32 word].

Definition write_opcode_with_u24_operand (buf : list Z) (op : OpCode) (operand : Z) : list Z :=
  write_u32 buf (Z.lor (opcode_word op) (wrap32 (Z.shiftl operand 8))).

(** ** Instructions with their operands *)

Inductive Instruction : Type :=
| Literal (code_point : Z)
| Wildcard
| WildcardNoNewline
| Jump (target : Z)
| Branch (first_branch second_branch : Z)
| Accept
| Fail
| MarkCapturePoint (capture_point_index : Z)
| ClearCapture (capture_group_index : Z)
| Progress (progress_index : Z)
| Loop (loop_register_index loop_max_value end_branch : Z)
| AssertStart
| AssertEnd
| AssertStartOrNewline
| AssertEndOrNewline
| WordBoundaryMoveToPrevious
| AssertWordBoundary
| AssertNotWordBoundary
| Backreference (is_case_insensitive : bool) (capture_group_index : Z)
| ConsumeIfTrue
| ConsumeIfFalse
| CompareEquals (code_point : Z)
| CompareBetween (start_code_point end_code_point : Z)
| Lookaround (is_ahead is_positive : bool) (body_branch : Z).

Definition opcode (i : Instruction) : OpCode :=
  match i with
  | Literal _ => OpLiteral | Jump _ => OpJump | Branch _ _ => OpBranch
  | MarkCapturePoint _ => OpMarkCapturePoint | ClearCapture _ => OpClearCapture
  | Progress _ => OpProgress | Loop _ _ _ => OpLoop | Backreference _ _ => OpBackreference
  | CompareEquals _ => OpCompareEquals | CompareBetween _ _ => OpCompareBetween
  | Lookaround _ _ _ => OpLookaround
  | Wildcard => OpWildcard | WildcardNoNewline => OpWildcardNoNewline | Accept => OpAccept
  | Fail => OpFail | AssertStart => OpAssertStart | AssertEnd => OpAssertEnd
  | AssertStartOrNewline => OpAssertStartOrNewline
  | AssertEndOrNewline => OpAssertEndOrNewline
  | WordBoundaryMoveToPrevious => OpWordBoundaryMoveToPrevious
  | AssertWordBoundary => OpAssertWordBoundary
  | AssertNotWordBoundary => OpAssertNotWordBoundary | ConsumeIfTrue => OpConsumeIfTrue
  | ConsumeIfFalse => OpConsumeIfFalse
  end.

Definition size (i : Instruction) : Z := opcode_size (opcode i).

(** ** Writing: the [write] function of each instruction *)

Definition nullary_write (op : OpCode) (buf : list Z) : list Z := write_u32 buf (opcode_word op).

Definition LiteralInstruction_write (buf : list Z) (code_point : Z) : list Z :=
  write_opcode_with_u24_operand buf OpLiteral code_point.

Definition JumpInstruction_write (buf : list Z) (target : Z) : list Z :=
  write_u32 (write_u32 buf (opcode_word OpJump)) target.

Definition BranchInstruction_write (buf : list Z) (first_branch second_branch : Z) : list Z :=
  write_u32 (write_u32 (write_u32 buf (opcode_word OpBranch)) first_branch) second_branch.

Definition MarkCapturePointInstruction_write (buf : list Z) (capture_point_index : Z) : list Z :=
  write_u32 (write_u32 buf (opcode_word OpMarkCapturePoint)) capture_point_index.

Definition ClearCaptureInstruction_write (buf : list Z) (capture_group_index : Z) : list Z :=
  write_u32 (write_u32 buf (opcode_word OpClearCapture)) capture_group_index.

Definition ProgressInstruction_write (buf : list Z) (progress_index : Z) : list Z :=
  write_u32 (write_u32 buf (opcode_word OpProgress)) progress_index.

Definition LoopInstruction_write (buf : list Z)
    (loop_register_index loop_max_value end_branch : Z) : list Z :=
  write_u32 (write_u32 (write_u32 (write_u32 buf (opcode_word OpLoop)) loop_register_index)
    loop_max_value) end_branch.

Definition BackreferenceInstruction_write (buf : list Z)
    (is_case_insensitive : bool) (capture_group_index : Z) : list Z :=
  let first_u32 := opcode_word OpBackreference in
  let first_u32 := if is_case_insensitive then Z.lor first_u32 (Z.shiftl 1 8) else first_u32 in
  write_u32 (write_u32 buf first_u32) capture_group_index.

Definition CompareEqualsInstruction_write (buf : list Z) (code_point : Z) : list Z :=
  write_opcode_with_u24_operand buf OpCompareEquals code_point.

Definition CompareBetweenInstruction_write (buf : list Z)
    (start_code_point end_code_point : Z) : list Z :=
  write_u32 (write_opcode_with_u24_operand buf OpCompareBetween start_code_point) end_code_point.

Definition LookaroundInstruction_write (buf : list Z)
    (is_ahead is_positive : bool) (body_branch : Z) : list Z :=
  let first_byte := opcode_word OpLookaround in
  let first_byte := if is_ahead then Z.lor first_byte (Z.shiftl 1 8) else first_byte in
  let first_byte := if is_positive then Z.lor first_byte (Z.shiftl 1 16) else first_byte in
  write_u32 (write_u32 buf first_byte) body_branch.

Definition write (buf : list Z) (i : Instruction) : list Z :=
  match i with
  | Literal c => LiteralInstruction_write buf c
  | Jump t => JumpInstruction_write buf t
  | Branch a b => BranchInstruction_write buf a b
  | MarkCapturePoint k => MarkCapturePointInstruction_write buf k
  | ClearCapture g => ClearCaptureInstruction_write buf g
  | Progress p => ProgressInstruction_write buf p
  | Loop r m e => LoopInstruction_write buf r m e
  | Backreference ci g => BackreferenceInstruction_write buf ci g
  | CompareEquals c => CompareEqualsInstruction_write buf c
  | CompareBetween a b => CompareBetweenInstruction_write buf a b
  | Lookaround a p b => LookaroundInstruction_write buf a p b
  | i => nullary_write (opcode i) buf
  end.

(** ** Reading in place *)

(** The word [k] words after the instruction at [index]. *)
Definition word_at (buf : list Z) (index k : Z) : outcome Z :=
  if index + k <? 0 then Faulted else deref (buf !! Z.to_nat (index + k)).

Definition instruction_opcode (buf : list Z) (index : Z) : outcome OpCode :=
  first ← word_at buf index 0; opcode_of_byte (Z.land first 255).

(** [Instruction::cast] followed by the accessors of the instruction. *)
Definition read_instruction (buf : list Z) (index : Z) : outcome Instruction :=
  first ← word_at buf index 0;
  op ← instruction_opcode buf index;
  match op with
  | OpLiteral => Done (Literal (get_packed_u24_operand first))
  | OpJump => t ← word_at buf index 1; Done (Jump t)
  | OpBranch => a ← word_at buf index 1; b ← word_at buf index 2; Done (Branch a b)
  | OpMarkCapturePoint => k ← word_at buf index 1; Done (MarkCapturePoint k)
  | OpClearCapture => g ← word_at buf index 1; Done (ClearCapture g)
  | OpProgress => p ← word_at buf index 1; Done (Progress p)
  | OpLoop =>
      r ← word_at buf index 1; m ← word_at buf index 2; e ← word_at buf index 3;
      Done (Loop r m e)
  | OpBackreference =>
      g ← word_at buf index 1;
      Done (Backreference (negb (get_packed_u8_operand first 1 =? 0)) g)
  | OpCompareEquals => Done (CompareEquals (get_packed_u24_operand first))
  | OpCompareBetween =>
      e ← word_at buf index 1; Done (CompareBetween (get_packed_u24_operand first) e)
  | OpLookaround =>
      b ← word_at buf index 1;
      Done (Lookaround (negb (get_packed_u8_operand first 1 =? 0))
                       (negb (get_packed_u8_operand first 2 =? 0)) b)
  | OpWildcard => Done Wildcard
  | OpWildcardNoNewline => Done WildcardNoNewline
  | OpAccept => Done Accept
  | OpFail => Done Fail
  | OpAssertStart => Done AssertStart
  | OpAssertEnd => Done AssertEnd
  | OpAssertStartOrNewline => Done AssertStartOrNewline
  | OpAssertEndOrNewline => Done AssertEndOrNewline
  | OpWordBoundaryMoveToPrevious => Done WordBoundaryMoveToPrevious
  | OpAssertWordBoundary => Done AssertWordBoundary
  | OpAssertNotWordBoundary => Done AssertNotWordBoundary
  | OpConsumeIfTrue => Done ConsumeIfTrue
  | OpConsumeIfFalse => Done ConsumeIfFalse
  end.

(** Patching of branch targets after they are known. *)
Definition set_word (buf : list Z) (index k v : Z) : list Z :=
  <[Z.to_nat (index + k) := v]> buf.
Definition set_target (buf : list Z) (index target : Z) := set_word buf index 1 target.
Definition set_first_branch (buf : list Z) (index branch : Z) := set_word buf index 1 branch.
Definition set_second_branch (buf : list Z) (index branch : Z) := set_word buf index 2 branch.
Definition set_end_branch (buf : list Z) (index branch : Z) := set_word buf index 3 branch.
Definition set_body_branch (buf : list Z) (index branch : Z) := set_word buf index 1 branch.

(** [InstructionIterator]: all instructions of a buffer. *)
Fixpoint iterate_instructions (fuel : nat) (buf : list Z) (ptr : Z) : outcome (list Instruction) :=
  match fuel with
  | O => OutOfFuel
  | S fuel' =>
      if Z.of_nat (length buf) <=? ptr then Done []
      else
        op ← instruction_opcode buf ptr;
        i ← read_instruction buf ptr;
        rest ← iterate_instructions fuel' buf (ptr + opcode_size op);
        Done (i :: rest)
  end.
Definition InstructionIterator (buf : list Z) : outcome (list Instruction) :=
  iterate_instructions (S (length buf)) buf 0.

(** ** Round trip *)

Definition u24 (n : Z) : Prop := 0 <= n < 2 ^ 24.
Definition u32 (n : Z) : Prop := 0 <= n <= u32_max.

Definition instruction_ok (i : Instruction) : Prop :=
  match i with
  | Literal c | CompareEquals c => u24 c
  | Jump t => u32 t
  | Branch a b => u32 a /\ u32 b
  | MarkCapturePoint k | ClearCapture k | Progress k => u32 k
  | Loop r m e => u32 r /\ u32 m /\ u32 e
  | Backreference _ g => u32 g
  | CompareBetween a b => u24 a /\ u32 b
  | Lookaround _ _ b => u32 b
  | _ => True
  end.

(** The words of one instruction. *)
Definition encode (i : Instruction) : list Z := write [] i.

Lemma write_encode buf i : write buf i = buf ++ encode i.
Proof.
  unfold encode. destruct i;
    cbv [write nullary_write LiteralInstruction_write JumpInstruction_write
      BranchInstruction_write MarkCapturePointInstruction_write ClearCaptureInstruction_write
      ProgressInstruction_write LoopInstruction_write BackreferenceInstruction_write
      CompareEqualsInstruction_write CompareBetweenInstruction_write LookaroundInstruction_write
      write_opcode_with_u24_operand write_u32];
    rewrite <- ?app_assoc; reflexivity.
Qed.

Lemma encode_length i : Z.of_nat (length (encode i)) = size i.
Proof. by destruct i. Qed.

Lemma word_at_app pre w post :
  word_at (pre ++ w :: post) (Z.of_nat (length pre)) 0 = Done w.
Proof.
  unfold word_at. rewrite (proj2 (Z.ltb_ge _ _)) by lia.
  replace (Z.to_nat (Z.of_nat (length pre) + 0)) with (length pre) by lia.
  by rewrite list_lookup_middle.
Qed.

Lemma word_at_shift pre w post k :
  0 <= k ->
  word_at (pre ++ w :: post) (Z.of_nat (length pre)) (k + 1) =
  word_at ((pre ++ [w]) ++ post) (Z.of_nat (length (pre ++ [w]))) k.
Proof.
  intros Hk. unfold word_at. rewrite <- app_assoc, length_app. cbn [app length].
  replace (Z.of_nat (length pre + 1) + k) with (Z.of_nat (length pre) + (k + 1)) by lia. done.
Qed.

(** Packed operands. *)
Lemma packed_word op n : u24 n ->
  wrap32 (Z.lor (opcode_word op) (wrap32 (Z.shiftl n 8))) = n * 256 + opcode_word op.
Proof.
  intros Hn. unfold u24 in Hn. unfold wrap32.
  assert (0 <= opcode_word op < 256) by (destruct op; cbn; lia).
  rewrite (Z.mod_small (Z.shiftl n 8)) by (rewrite Z.shiftl_mul_pow2; lia).
  rewrite Z.lor_comm, lor_shiftl_add by lia. change (2 ^ 8) with 256.
  apply Z.mod_small. lia.
Qed.

Lemma packed_u24 op n : u24 n -> get_packed_u24_operand (n * 256 + opcode_word op) = n.
Proof.
  intros Hn. unfold get_packed_u24_operand. rewrite Z.shiftr_div_pow2 by lia.
  assert (0 <= opcode_word op < 256) by (destruct op; cbn; lia).
  change (2 ^ 8) with 256. div_lia.
Qed.

Lemma packed_opcode op n : Z.land (n * 256 + opcode_word op) 255 = opcode_word op.
Proof.
  change 255 with (Z.ones 8). rewrite Z.land_ones by lia.
  assert (0 <= opcode_word op < 256) by (destruct op; cbn; lia).
  change (2 ^ 8) with 256. div_lia.
Qed.

Lemma opcode_of_word op : opcode_of_byte (opcode_word op) = Done op.
Proof. by destruct op. Qed.

(** Every first word carries the opcode in its low byte. *)
Lemma encode_head i : instruction_ok i ->
  exists w ws, encode i = w :: ws /\ Z.land w 255 = opcode_word (opcode i).
Proof.
  destruct i as [c| | | | | | | | | | | | | | | | | |ci g| | |c|a b|ia ip b];
    cbn [instruction_ok]; intros Hok;
    try (eexists _, _; split; [reflexivity|reflexivity]).
  - eexists _, _. split; [reflexivity|]. cbn [app]. rewrite packed_word by done.
    apply packed_opcode.
  - destruct ci; eexists _, _; (split; [reflexivity|reflexivity]).
  - eexists _, _. split; [reflexivity|]. cbn [app]. rewrite packed_word by done.
    apply packed_opcode.
  - eexists _, _. split; [reflexivity|]. cbn [app]. rewrite packed_word by apply Hok.
    apply packed_opcode.
  - destruct ia, ip; eexists _, _; (split; [reflexivity|reflexivity]).
Qed.

Lemma instruction_opcode_at pre i post : instruction_ok i ->
  instruction_opcode (pre ++ encode i ++ post) (Z.of_nat (length pre)) = Done (opcode i).
Proof.
  intros Hok. destruct (encode_head i Hok) as (w & ws & -> & Hw).
  unfold instruction_opcode. cbn [app]. rewrite word_at_app. cbn. by rewrite Hw, opcode_of_word.
Qed.

Lemma word_at_next pre w post k : 0 <= k ->
  word_at (pre ++ w :: post) (Z.of_nat (length pre)) (k + 1) =
  match post !! Z.to_nat k with Some x => Done x | None => Faulted end.
Proof.
  intros Hk. unfold word_at. rewrite (proj2 (Z.ltb_ge _ _)) by lia.
  rewrite lookup_app_r by lia.
  replace (Z.to_nat (Z.of_nat (length pre) + (k + 1)) - length pre)%nat with (S (Z.to_nat k)) by lia.
  cbn. by destruct (post !! Z.to_nat k).
Qed.

Lemma word_at_1 pre w x post :
  word_at (pre ++ w :: x :: post) (Z.of_nat (length pre)) 1 = Done x.
Proof. apply (word_at_next pre w (x :: post) 0). lia. Qed.

Lemma word_at_2 pre w x y post :
  word_at (pre ++ w :: x :: y :: post) (Z.of_nat (length pre)) 2 = Done y.
Proof. apply (word_at_next pre w (x :: y :: post) 1). lia. Qed.

Lemma word_at_3 pre w x y z post :
  word_at (pre ++ w :: x :: y :: z :: post) (Z.of_nat (length pre)) 3 = Done z.
Proof. apply (word_at_next pre w (x :: y :: z :: post) 2). lia. Qed.

Lemma read_instruction_at pre i post : instruction_ok i ->
  read_instruction (pre ++ encode i ++ post) (Z.of_nat (length pre)) = Done i.
Proof.
  intros Hok. unfold read_instruction. rewrite instruction_opcode_at by done.
  destruct i as [c| | | | | | | | | | | | | | | | | |ci g| | |c|a b|ia ip b];
    cbn [instruction_ok] in Hok; cbn [encode write nullary_write LiteralInstruction_write
      JumpInstruction_write BranchInstruction_write MarkCapturePointInstruction_write
      ClearCaptureInstruction_write ProgressInstruction_write LoopInstruction_write
      BackreferenceInstruction_write CompareEqualsInstruction_write
      CompareBetweenInstruction_write LookaroundInstruction_write
      write_opcode_with_u24_operand write_u32 app opcode];
    rewrite word_at_app; cbn [mbind outcome_bind];
    rewrite ?word_at_1, ?word_at_2, ?word_at_3; cbn [mbind outcome_bind];
    rewrite ?wrap32_small by (apply Hok || tauto); try reflexivity.
  - by rewrite packed_word, packed_u24.
  - rewrite (wrap32_small g) by done. by destruct ci.
  - by rewrite packed_word, packed_u24.
  - destruct Hok. by rewrite packed_word, packed_u24, wrap32_small.
  - rewrite (wrap32_small b) by done. by destruct ia, ip.
Qed.

(** The buffer the compiler writes for a program. *)
Definition write_program (prog : list Instruction) : list Z := foldl write [] prog.

Lemma write_program_app prog buf : foldl write buf prog = buf ++ mjoin (encode <$> prog).
Proof.
  revert buf. induction prog as [|i prog IH]; intros buf; cbn [foldl].
  - by rewrite app_nil_r.
  - rewrite IH, write_encode, <- app_assoc. done.
Qed.

Lemma size_pos i : 0 < size i.
Proof. by destruct i. Qed.

Lemma iterate_encoded prog : forall pre fuel,
  Forall instruction_ok prog -> (length prog < fuel)%nat ->
  iterate_instructions fuel (pre ++ mjoin (encode <$> prog)) (Z.of_nat (length pre)) = Done prog.
Proof.
  induction prog as [|i prog IH]; intros pre [|fuel] Hok Hf; cbn [length] in Hf; try lia.
  - cbn. rewrite app_nil_r. by rewrite (proj2 (Z.leb_le _ _)) by lia.
  - apply Forall_cons in Hok as [Hi Hok].
    change (mjoin (encode <$> i :: prog)) with (encode i ++ mjoin (encode <$> prog)).
    pose proof (encode_length i) as El. pose proof (size_pos i).
    cbn [iterate_instructions]. rewrite (proj2 (Z.leb_gt _ _)) by (rewrite !length_app; lia).
    rewrite instruction_opcode_at, read_instruction_at by done. cbn [mbind outcome_bind].
    fold (size i). rewrite <- El.
    replace (Z.of_nat (length pre) + Z.of_nat (length (encode i)))
      with (Z.of_nat (length (pre ++ encode i))) by (rewrite length_app; lia).
    rewrite app_assoc, IH by (done || lia). done.
Qed.

Lemma encoded_program_length prog : (length prog <= length (mjoin (encode <$> prog)))%nat.
Proof.
  induction prog as [|i prog IH]; [done|].
  change (mjoin (encode <$> i :: prog)) with (encode i ++ mjoin (encode <$> prog)).
  pose proof (encode_length i). pose proof (size_pos i). rewrite length_app, length_cons. lia.
Qed.

Lemma set_word_at pre ws post k v :
  (k < length ws)%nat ->
  set_word (pre ++ ws ++ post) (Z.of_nat (length pre)) (Z.of_nat k) v = pre ++ <[k := v]> ws ++ post.
Proof.
  intros Hk. unfold set_word.
  replace (Z.to_nat (Z.of_nat (length pre) + Z.of_nat k)) with (length pre + k)%nat by lia.
  rewrite insert_app_r. by rewrite insert_app_l.
Qed.

(** the bytecode encoding is lossless: iterating over the words written for
    a program gives back its instructions with all operands, each instruction
    occupies the number of words its opcode announces, and patching a branch
    target changes that operand and nothing else. *)
Theorem regexp_bytecode_roundtrip prog pre post t t' a b a' b' :
  Forall instruction_ok prog -> u32 t' -> u32 a' -> u32 b' ->
  InstructionIterator (write_program prog) = Done prog /\
  (forall i, i ∈ prog -> Z.of_nat (length (encode i)) = size i) /\
  set_target (pre ++ encode (Jump t) ++ post) (Z.of_nat (length pre)) t'
    = pre ++ encode (Jump t') ++ post /\
  set_second_branch
    (set_first_branch (pre ++ encode (Branch a b) ++ post) (Z.of_nat (length pre)) a')
    (Z.of_nat (length pre)) b'
    = pre ++ encode (Branch a' b') ++ post.
Proof.
  intros Hok Ht Ha Hb. split; [|split; [intros i _; apply encode_length|split]].
  - unfold InstructionIterator, write_program. rewrite write_program_app.
    apply (iterate_encoded prog []); [done|]. pose proof (encoded_program_length prog). cbn [app]. lia.
  - unfold set_target. rewrite (set_word_at pre _ post 1) by (cbn; lia).
    cbn. by rewrite (wrap32_small t').
  - unfold set_first_branch, set_second_branch.
    rewrite (set_word_at pre _ post 1) by (cbn; lia).
    rewrite (set_word_at pre _ post 2) by (cbn; lia).
    cbn. by rewrite (wrap32_small a'), (wrap32_small b').
Qed.

(** ** Instructions that can panic

    Back references look up groups by number and name, and the body of a lookbehind is matched
    backwards.  [Features] says which of them a program may have. *)
Record Features : Type := mkFeatures {
  back_references : bool;
  lookbehinds : bool;
}.

Module InstructionExample.

(** [a|(b)] with a lookahead in front. *)
Definition ex_program : list Instruction :=
  [Lookaround true false 9; Branch 5 8; Literal 97; Accept; Literal 0x10FFFF; Accept].

Lemma regexp_bytecode_roundtrip_witness :
  InstructionIterator (write_program ex_program) = Done ex_program.
Proof.
  apply (regexp_bytecode_roundtrip ex_program [] [] 0 1 0 0 2 3);
    unfold u32, u32_max; try lia.
  repeat constructor; unfold u24, u32_max; cbn; try lia.
Defined.

End InstructionExample.
