(* ===== verification/RegExpMatcher.v ===== *)
(** The RegExp matcher: [src/so2js/runtime/regexp/matcher.rs].

    [MatchEngine] executes RegExp bytecode over a [LexerStream] with a stack of
    backtrack entries; lookarounds run as sub-executions on the same stack above
    a new base.  The case mappings of the ICU tables are parameters.  Execution
    takes fuel: a program can loop (the compiler guards its loops with Progress
    instructions, but the matcher itself does not check this). *)

From S2P Require Import Prelude Unicode LexerStream RegExpInstruction.

Definition EMPTY_STRING_INDEX : Z := u32_max.

(** The fields of [CompiledRegExpObject] the matcher reads. *)
Record CompiledRegExp : Type := mkCompiledRegExp {
  instructions : list Z;
  num_capture_groups : Z;
  num_progress_points : Z;
  num_loop_registers : Z;
  has_duplicate_named_capture_groups : bool;
  capture_group_names : list (option (list Z));
  has_any_unicode_flag : bool;
}.

Inductive BacktrackEntry : Type :=
| RestoreState (instruction_index : Z) (saved_string_state : SavedLexerStreamState)
| CapturePoint (capture_point_index string_index : Z)
| ProgressPoint (progress_point_index string_index : Z)
| LoopRegister (loop_register_index value : Z)
| RestoreBacktrackStack (backtrack_stack_size : nat).

Record Capture : Type := mkCapture { capture_start : Z; capture_end : Z }.
Definition Match : Type := list (option Capture).

(** [v[index]] and [v[index] = x] on a vector indexed by a u32. *)
Definition vec_get (v : list Z) (index : Z) : outcome Z :=
  if index <? 0 then Panicked else unwrap (v !! Z.to_nat index).
Definition vec_set (v : list Z) (index x : Z) : outcome (list Z) :=
  if (0 <=? index) && (index <? Z.of_nat (length v)) then Done (<[Z.to_nat index := x]> v)
  else Panicked.

Section Matcher.

Context {S : Type} `{LexerStream S}.
Variable simple_fold : Z -> Z.
Variable simple_uppercase : Z -> Z.
Variable regexp : CompiledRegExp.

(** The backtrack stack is a list with its top first. *)
Record MatchEngine : Type := mkEngine {
  string_lexer : S;
  instruction_index : Z;
  backtrack_stack : list BacktrackEntry;
  capture_points : list Z;
  progress_points : list Z;
  loop_registers : list Z;
  compare_register : bool;
  word_boundary_register : bool;
  backtrack_stack_base : nat;
}.

Definition MatchEngine_new (lexer : S) : MatchEngine :=
  let num_capture_points := Z.to_nat ((num_capture_groups regexp + 1) * 2) in
  mkEngine lexer 0 [] (replicate num_capture_points EMPTY_STRING_INDEX)
    (replicate (Z.to_nat (num_progress_points regexp)) EMPTY_STRING_INDEX)
    (replicate (Z.to_nat (num_loop_registers regexp)) 0) false false 0.

(** ** Assignments to single fields *)

Definition with_lexer (e : MatchEngine) (s : S) : MatchEngine :=
  mkEngine s (instruction_index e) (backtrack_stack e) (capture_points e) (progress_points e)
    (loop_registers e) (compare_register e) (word_boundary_register e) (backtrack_stack_base e).
Definition with_index (e : MatchEngine) (i : Z) : MatchEngine :=
  mkEngine (string_lexer e) i (backtrack_stack e) (capture_points e) (progress_points e)
    (loop_registers e) (compare_register e) (word_boundary_register e) (backtrack_stack_base e).
Definition with_stack (e : MatchEngine) (st : list BacktrackEntry) : MatchEngine :=
  mkEngine (string_lexer e) (instruction_index e) st (capture_points e) (progress_points e)
    (loop_registers e) (compare_register e) (word_boundary_register e) (backtrack_stack_base e).
Definition with_captures (e : MatchEngine) (c : list Z) : MatchEngine :=
  mkEngine (string_lexer e) (instruction_index e) (backtrack_stack e) c (progress_points e)
    (loop_registers e) (compare_register e) (word_boundary_register e) (backtrack_stack_base e).
Definition with_progress (e : MatchEngine) (p : list Z) : MatchEngine :=
  mkEngine (string_lexer e) (instruction_index e) (backtrack_stack e) (capture_points e) p
    (loop_registers e) (compare_register e) (word_boundary_register e) (backtrack_stack_base e).
Definition with_loops (e : MatchEngine) (l : list Z) : MatchEngine :=
  mkEngine (string_lexer e) (instruction_index e) (backtrack_stack e) (capture_points e)
    (progress_points e) l (compare_register e) (word_boundary_register e) (backtrack_stack_base e).
Definition with_compare (e : MatchEngine) (b : bool) : MatchEngine :=
  mkEngine (string_lexer e) (instruction_index e) (backtrack_stack e) (capture_points e)
    (progress_points e) (loop_registers e) b (word_boundary_register e) (backtrack_stack_base e).
Definition with_word_boundary (e : MatchEngine) (b : bool) : MatchEngine :=
  mkEngine (string_lexer e) (instruction_index e) (backtrack_stack e) (capture_points e)
    (progress_points e) (loop_registers e) (compare_register e) b (backtrack_stack_base e).
Definition with_base (e : MatchEngine) (n : nat) : MatchEngine :=
  mkEngine (string_lexer e) (instruction_index e) (backtrack_stack e) (capture_points e)
    (progress_points e) (loop_registers e) (compare_register e) (word_boundary_register e) n.

(** ** Registers and the backtrack stack *)

Definition push_entry (e : MatchEngine) (b : BacktrackEntry) : MatchEngine :=
  with_stack e (b :: backtrack_stack e).

Definition push_backtrack_restore_state (e : MatchEngine) (instruction_index : Z) : MatchEngine :=
  push_entry e (RestoreState instruction_index (save (string_lexer e))).

Definition get_capture_point (e : MatchEngine) (i : Z) : outcome Z := vec_get (capture_points e) i.
Definition set_capture_point (e : MatchEngine) (i x : Z) : outcome MatchEngine :=
  v ← vec_set (capture_points e) i x; Done (with_captures e v).
Definition get_progress_point (e : MatchEngine) (i : Z) : outcome Z := vec_get (progress_points e) i.
Definition set_progress_point (e : MatchEngine) (i x : Z) : outcome MatchEngine :=
  v ← vec_set (progress_points e) i x; Done (with_progress e v).
Definition get_loop_register (e : MatchEngine) (i : Z) : outcome Z := vec_get (loop_registers e) i.
Definition set_loop_register (e : MatchEngine) (i x : Z) : outcome MatchEngine :=
  v ← vec_set (loop_registers e) i x; Done (with_loops e v).

Definition push_capture_point (e : MatchEngine) (i x : Z) : outcome MatchEngine :=
  old_string_index ← get_capture_point e i;
  set_capture_point (push_entry e (CapturePoint i old_string_index)) i x.
Definition push_progress_point (e : MatchEngine) (i x : Z) : outcome MatchEngine :=
  old_string_index ← get_progress_point e i;
  set_progress_point (push_entry e (ProgressPoint i old_string_index)) i x.
Definition push_loop_register (e : MatchEngine) (i x : Z) : outcome MatchEngine :=
  old_value ← get_loop_register e i;
  set_loop_register (push_entry e (LoopRegister i old_value)) i x.

(** What an entry restores when it is popped, apart from a state to resume at. *)
Definition restore_register (e : MatchEngine) (b : BacktrackEntry) : outcome MatchEngine :=
  match b with
  | CapturePoint i x => set_capture_point e i x
  | ProgressPoint i x => set_progress_point e i x
  | LoopRegister i x => set_loop_register e i x
  | RestoreState _ _ | RestoreBacktrackStack _ => Done e
  end.

(** [backtrack_to_stack_size]: [st] is the stack being popped. *)
Fixpoint pop_to_size (st : list BacktrackEntry) (n : nat) (e : MatchEngine) : outcome MatchEngine :=
  match st with
  | [] => Done (with_stack e [])
  | b :: st' =>
      if (n <? length st)%nat then
        e' ← restore_register e b;
        pop_to_size st' n e'
      else Done (with_stack e st)
  end.
Definition backtrack_to_stack_size (e : MatchEngine) (n : nat) : outcome MatchEngine :=
  pop_to_size (backtrack_stack e) n e.

(** [backtrack]: [Ok] is [true].  Each round pops at least one entry, so a fuel
    of one more than the height of the stack is enough. *)
Fixpoint backtrack_fuel (fuel : nat) (e : MatchEngine) : outcome (MatchEngine * bool) :=
  match fuel with
  | O => OutOfFuel
  | Datatypes.S fuel' =>
      if (backtrack_stack_base e <? length (backtrack_stack e))%nat then
        match backtrack_stack e with
        | [] => Panicked
        | b :: st =>
            let e := with_stack e st in
            match b with
            | RestoreState i saved =>
                Done (with_lexer (with_index e i) (restore (string_lexer e) saved), true)
            | RestoreBacktrackStack n =>
                e ← backtrack_to_stack_size e n;
                backtrack_fuel fuel' e
            | _ =>
                e ← restore_register e b;
                backtrack_fuel fuel' e
            end
        end
      else Done (e, false)
  end.
Definition backtrack (e : MatchEngine) : outcome (MatchEngine * bool) :=
  backtrack_fuel (Datatypes.S (length (backtrack_stack e))) e.

(** ** Reading the input *)

Definition advance_instruction (e : MatchEngine) (size : Z) : MatchEngine :=
  with_index e (instruction_index e + size).
Definition set_next_instruction (e : MatchEngine) (i : Z) : MatchEngine := with_index e i.

Definition advance_code_point_in_direction (d : Direction) (e : MatchEngine) : outcome MatchEngine :=
  s ← match d with
      | FORWARD => advance_code_point (string_lexer e)
      | BACKWARD => advance_backwards_code_point (string_lexer e)
      end;
  Done (with_lexer e s).

Definition code_point_before_current_pos (d : Direction) (e : MatchEngine) : outcome Z :=
  match d with
  | FORWARD => peek_prev_code_point (string_lexer e)
  | BACKWARD => Done (current (string_lexer e))
  end.

Definition code_point_after_current_pos (d : Direction) (e : MatchEngine) : outcome Z :=
  match d with
  | FORWARD => Done (current (string_lexer e))
  | BACKWARD => peek_next_code_point (string_lexer e)
  end.

Definition no_advance_read_code_point_in_direction (d : Direction) (e : MatchEngine) :
    outcome MatchEngine :=
  s ← match d with
      | FORWARD => advance_n (string_lexer e) 0
      | BACKWARD => advance_backwards_n (string_lexer e) 0
      end;
  Done (with_lexer e s).

Definition is_at_word_boundary (e : MatchEngine) : bool :=
  negb (eqb (compare_register e) (word_boundary_register e)).
Definition reset_compare_register (e : MatchEngine) : MatchEngine := with_compare e false.

(** [char::from_u32]: surrogates and values beyond Unicode are no characters. *)
Definition char_from_u32 (c : Z) : option Z :=
  if (MAX_CODE_POINT <? c) || (is_high_surrogate_code_unit c || is_low_surrogate_code_unit c)
  then None else Some c.

Definition canonicalize (code_point : Z) (is_unicode_aware : bool) : Z :=
  match char_from_u32 code_point with
  | None => code_point
  | Some c =>
      if is_unicode_aware then simple_fold c
      else
        let uppercase_code_point := simple_uppercase c in
        if (uppercase_code_point <? 128) && (128 <=? code_point)
        then code_point else uppercase_code_point
  end.

(** ** Backreferences *)

Definition get_valid_capture_bounds (e : MatchEngine) (g : Z) : outcome (option (Z * Z)) :=
  start_string_index ← get_capture_point e (wrap32 (g * 2));
  end_string_index ← get_capture_point e (wrap32 (g * 2 + 1));
  if (start_string_index =? EMPTY_STRING_INDEX) || (end_string_index =? EMPTY_STRING_INDEX)
  then Done None
  else Done (Some (start_string_index, end_string_index)).

(** [capture_groups_as_slice()[i - 1]]. *)
Definition capture_group_name (i : Z) : outcome (option (list Z)) :=
  if i <? 1 then Panicked else unwrap (capture_group_names regexp !! Z.to_nat (i - 1)).

(** The search for the most recent group with the same name: [k] counts down from the group. *)
Fixpoint most_recent_group (e : MatchEngine) (name : list Z) (default : Z) (k : nat) : outcome Z :=
  match k with
  | O => Done default
  | Datatypes.S k' =>
      this_name ← capture_group_name (Z.of_nat k);
      if bool_decide (this_name = Some name) then
        bounds ← get_valid_capture_bounds e (Z.of_nat k);
        match bounds with
        | Some _ => Done (Z.of_nat k)
        | None => most_recent_group e name default k'
        end
      else most_recent_group e name default k'
  end.

Definition resolve_capture_group (e : MatchEngine) (g : Z) : outcome Z :=
  if has_duplicate_named_capture_groups regexp then
    name ← capture_group_name g;
    match name with
    | Some name => most_recent_group e name g (Z.to_nat g)
    | None => Done g
    end
  else Done g.

Definition backreference_size : Z := opcode_size OpBackreference.

(** The case-insensitive comparison, one captured code point per round. *)
Fixpoint compare_insensitive (fuel : nat) (d : Direction) (it : list Z) (e : MatchEngine) :
    outcome (MatchEngine * bool) :=
  match fuel with
  | O => OutOfFuel
  | Datatypes.S fuel' =>
      match iter_next d it with
      | None => Done (advance_instruction e backreference_size, true)
      | Some (next_capture_value, it') =>
          let aware := has_any_unicode_flag regexp in
          if has_current (string_lexer e)
             && (canonicalize next_capture_value aware
                 =? canonicalize (current (string_lexer e)) aware)
          then e ← advance_code_point_in_direction d e; compare_insensitive fuel' d it' e
          else backtrack e
      end
  end.

Definition execute_backreference (d : Direction) (e : MatchEngine)
    (is_case_insensitive : bool) (g : Z) : outcome (MatchEngine * bool) :=
  g ← resolve_capture_group e g;
  bounds ← get_valid_capture_bounds e g;
  match bounds with
  | None => Done (advance_instruction e backreference_size, true)
  | Some (start_index, end_index) =>
      captured_slice ← slice (string_lexer e) start_index end_index;
      let captured_slice_len := Z.of_nat (length captured_slice) in
      if is_case_insensitive then
        compare_insensitive (Datatypes.S (length captured_slice)) d captured_slice e
      else
        match d with
        | FORWARD =>
            if slice_equals (string_lexer e) (pos (string_lexer e)) captured_slice then
              s ← advance_n (string_lexer e) captured_slice_len;
              Done (advance_instruction (with_lexer e s) backreference_size, true)
            else backtrack e
        | BACKWARD =>
            let start_pos := pos (string_lexer e) - captured_slice_len in
            if (0 <=? start_pos) && slice_equals (string_lexer e) start_pos captured_slice then
              s ← advance_backwards_n (string_lexer e) captured_slice_len;
              Done (advance_instruction (with_lexer e s) backreference_size, true)
            else backtrack e
        end
  end.

(** ** One instruction other than Accept and Lookaround

    The result is [(e, true)] to go on with [e] and [(e, false)] when
    backtracking failed. *)

Definition consume (d : Direction) (e : MatchEngine) (size : Z) : outcome (MatchEngine * bool) :=
  e ← advance_code_point_in_direction d e;
  Done (advance_instruction e size, true).

(** [self.backtrack()?] and then the reset of the compare register. *)
Definition backtrack_and_reset (e : MatchEngine) : outcome (MatchEngine * bool) :=
  r ← backtrack e;
  if r.2 : bool then Done (reset_compare_register r.1, true) else Done r.

Definition assert_or_backtrack (b : bool) (e : MatchEngine) (size : Z) :
    outcome (MatchEngine * bool) :=
  if b then Done (advance_instruction e size, true) else backtrack e.

Definition execute_instruction (d : Direction) (i : Instruction) (e : MatchEngine) :
    outcome (MatchEngine * bool) :=
  let lexer := string_lexer e in
  match i with
  | Fail => backtrack e
  | Literal code_point =>
      if negb (current lexer =? code_point) then backtrack e else consume d e (size i)
  | Wildcard => if negb (has_current lexer) then backtrack e else consume d e (size i)
  | WildcardNoNewline =>
      if negb (has_current lexer) || is_newline (current lexer) then backtrack e
      else consume d e (size i)
  | Jump target => Done (set_next_instruction e target, true)
  | Branch first_branch second_branch =>
      Done (set_next_instruction (push_backtrack_restore_state e second_branch) first_branch, true)
  | MarkCapturePoint capture_point_index =>
      e ← push_capture_point e capture_point_index (wrap32 (pos lexer));
      Done (advance_instruction e (size i), true)
  | ClearCapture capture_group_index =>
      e ← push_capture_point e (wrap32 (capture_group_index * 2 + 1)) EMPTY_STRING_INDEX;
      Done (advance_instruction e (size i), true)
  | Progress progress_index =>
      let string_index := wrap32 (pos lexer) in
      progress_point ← get_progress_point e progress_index;
      if negb (progress_point =? string_index) then
        e ← push_progress_point e progress_index string_index;
        Done (advance_instruction e (size i), true)
      else backtrack e
  | Loop loop_register_index loop_max_value end_branch =>
      loop_register_value ← get_loop_register e loop_register_index;
      if loop_register_value <? loop_max_value then
        e ← push_loop_register e loop_register_index (loop_register_value + 1);
        Done (advance_instruction e (size i), true)
      else
        e ← push_loop_register e loop_register_index 0;
        Done (set_next_instruction e end_branch, true)
  | AssertStart => assert_or_backtrack (is_start lexer) e (size i)
  | AssertEnd => assert_or_backtrack (is_end lexer) e (size i)
  | AssertStartOrNewline =>
      if is_start lexer then Done (advance_instruction e (size i), true)
      else
        c ← code_point_before_current_pos d e;
        assert_or_backtrack (is_newline c) e (size i)
  | AssertEndOrNewline =>
      if is_end lexer then Done (advance_instruction e (size i), true)
      else
        c ← code_point_after_current_pos d e;
        assert_or_backtrack (is_newline c) e (size i)
  | WordBoundaryMoveToPrevious =>
      e ← no_advance_read_code_point_in_direction (opposite d)
            (with_word_boundary e (compare_register e));
      Done (reset_compare_register (advance_instruction e (size i)), true)
  | AssertWordBoundary =>
      if is_at_word_boundary e then
        e ← no_advance_read_code_point_in_direction d e;
        Done (reset_compare_register (advance_instruction e (size i)), true)
      else backtrack_and_reset e
  | AssertNotWordBoundary =>
      if is_at_word_boundary e then backtrack_and_reset e
      else
        e ← no_advance_read_code_point_in_direction d e;
        Done (reset_compare_register (advance_instruction e (size i)), true)
  | Backreference is_case_insensitive capture_group_index =>
      execute_backreference d e is_case_insensitive capture_group_index
  | ConsumeIfTrue =>
      if negb (compare_register e) || negb (has_current lexer) then backtrack_and_reset e
      else r ← consume d e (size i); Done (reset_compare_register r.1, r.2)
  | ConsumeIfFalse =>
      if compare_register e || negb (has_current lexer) then backtrack_and_reset e
      else r ← consume d e (size i); Done (reset_compare_register r.1, r.2)
  | CompareEquals code_point =>
      let e := if code_point =? current lexer then with_compare e true else e in
      Done (advance_instruction e (size i), true)
  | CompareBetween start_code_point end_code_point =>
      let e := if (start_code_point <=? current lexer) && (current lexer <? end_code_point)
               then with_compare e true else e in
      Done (advance_instruction e (size i), true)
  | Accept | Lookaround _ _ _ => Done (e, true)
  end.

(** ** The execution loop *)

(** Set-up of the sub-execution of a lookaround, and what follows it. *)
Definition enter_lookaround (is_ahead : bool) (body_branch : Z) (e : MatchEngine) :
    outcome MatchEngine :=
  let e := with_base e (length (backtrack_stack e)) in
  let e := set_next_instruction e body_branch in
  s ← (if is_ahead then advance_n (string_lexer e) 0
       else advance_backwards_n (string_lexer e) 0);
  Done (with_lexer e s).

Definition leave_lookaround (is_positive : bool) (old e : MatchEngine) (is_match : bool) :
    outcome (MatchEngine * bool) :=
  let e := if is_match
           then push_entry e (RestoreBacktrackStack (length (backtrack_stack old))) else e in
  let e := with_base e (backtrack_stack_base old) in
  if eqb is_match is_positive then
    Done (with_index (with_lexer e (restore (string_lexer e) (save (string_lexer old))))
            (instruction_index old), true)
  else backtrack e.

Fixpoint execute_bytecode (fuel : nat) (d : Direction) (e : MatchEngine) :
    outcome (MatchEngine * bool) :=
  match fuel with
  | O => OutOfFuel
  | Datatypes.S fuel' =>
      i ← read_instruction (instructions regexp) (instruction_index e);
      match i with
      | Accept => Done (e, true)
      | Lookaround is_ahead is_positive body_branch =>
          let old := advance_instruction e (size i) in
          sub ← enter_lookaround is_ahead body_branch old;
          r ← execute_bytecode fuel' (if is_ahead then FORWARD else BACKWARD) sub;
          r ← leave_lookaround is_positive old r.1 r.2;
          if r.2 : bool then execute_bytecode fuel' d r.1 else Done r
      | _ =>
          r ← execute_instruction d i e;
          if r.2 : bool then execute_bytecode fuel' d r.1 else Done r
      end
  end.

(** ** Results *)

Fixpoint build_captures (e : MatchEngine) (n : nat) (i : Z) : outcome Match :=
  match n with
  | O => Done []
  | Datatypes.S n' =>
      bounds ← get_valid_capture_bounds e i;
      rest ← build_captures e n' (i + 1);
      Done (match bounds with
            | Some (s, t) => Some (mkCapture s t)
            | None => None
            end :: rest)
  end.
Definition build_match (e : MatchEngine) : outcome Match :=
  build_captures e (Z.to_nat (num_capture_groups regexp + 1)) 0.

Definition run (fuel : nat) (e : MatchEngine) : outcome (option Match) :=
  r ← execute_bytecode fuel FORWARD e;
  if r.2 : bool then m ← build_match r.1; Done (Some m) else Done None.

Definition match_lexer_stream (fuel : nat) (lexer : S) (start_index : Z) :
    outcome (option Match) :=
  lexer ← advance_n lexer start_index;
  run fuel (MatchEngine_new lexer).

End Matcher.

(** [run_matcher] on a flat string: one-byte strings and two-byte strings
    without a Unicode flag are read by unit, the others by code point. *)
Definition run_matcher (fold upper : Z -> Z) (regexp : CompiledRegExp) (is_one_byte : bool)
    (units : list Z) (fuel : nat) (start_index : Z) : outcome (option Match) :=
  if is_one_byte || negb (has_any_unicode_flag regexp) then
    s ← UnitStream_new units;
    match_lexer_stream fold upper regexp fuel s start_index
  else
    s ← PointStream_new units;
    match_lexer_stream fold upper regexp fuel s start_index.

(** [/(?=(a))ab/]: a lookahead whose body marks a capture. *)
Module MatcherExample.

Definition program : list Instruction :=
  [MarkCapturePoint 0; Lookaround true true 9; Literal 97; Literal 98; MarkCapturePoint 1; Accept;
   MarkCapturePoint 2; Literal 97; MarkCapturePoint 3; Accept].
Definition starts : list Z := [0; 2; 4; 5; 6; 8; 9; 11; 12; 14].

Definition regexp : CompiledRegExp :=
  mkCompiledRegExp (write_program program) 1 0 0 false [None] false.

Example matches_ab :
  run_matcher id id regexp true [97; 98] 20 0 =
  Done (Some [Some (mkCapture 0 2); Some (mkCapture 0 1)]).
Proof. vm_compute. reflexivity. Qed.

End MatcherExample.
