(* ===== verification/RegExpMatcherCorrect.v ===== *)
(** Correctness of the RegExp matcher, for any bytecode and any input stream:
    the backtrack stack is an undo log of the capture, progress and loop
    registers, a failed (sub-)execution restores all of them, and bytecode whose
    branch targets and register indices are valid is executed without undefined
    behaviour and yields captures inside the input. *)

From S2P Require Import Prelude Unicode LexerStream RegExpInstruction RegExpMatcher.

Section UndoLog.

Context {S : Type} `{LexerStream S}.
Context (fold upper : Z -> Z) (regexp : CompiledRegExp).

Abbreviation Engine := (@MatchEngine S).
Implicit Types (e : Engine).

(** ** Registers and the effect of undoing entries *)

Record Registers : Type := mkRegisters {
  reg_captures : list Z;
  reg_progress : list Z;
  reg_loops : list Z;
}.

Definition registers_of e : Registers :=
  mkRegisters (capture_points e) (progress_points e) (loop_registers e).

Definition undo_entry (b : BacktrackEntry) (r : Registers) : Registers :=
  match b with
  | CapturePoint i x =>
      mkRegisters (<[Z.to_nat i := x]> (reg_captures r)) (reg_progress r) (reg_loops r)
  | ProgressPoint i x =>
      mkRegisters (reg_captures r) (<[Z.to_nat i := x]> (reg_progress r)) (reg_loops r)
  | LoopRegister i x =>
      mkRegisters (reg_captures r) (reg_progress r) (<[Z.to_nat i := x]> (reg_loops r))
  | RestoreState _ _ | RestoreBacktrackStack _ => r
  end.

(** Undo a stack segment, top first. *)
Fixpoint undo (st : list BacktrackEntry) (r : Registers) : Registers :=
  match st with
  | [] => r
  | b :: st' => undo st' (undo_entry b r)
  end.

Lemma undo_app st1 st2 r : undo (st1 ++ st2) r = undo st2 (undo st1 r).
Proof. revert r. induction st1; intros r; cbn; auto. Qed.

Lemma vec_set_done v i x v' :
  vec_set v i x = Done v' -> v' = <[Z.to_nat i := x]> v.
Proof. unfold vec_set. case_match; [|done]. congruence. Qed.

Lemma vec_get_done v i x : vec_get v i = Done x -> 0 <= i /\ v !! Z.to_nat i = Some x.
Proof.
  unfold vec_get. destruct (Z.ltb_spec i 0); [done|].
  destruct (v !! Z.to_nat i); cbn; [|done]. intros [= <-]. done.
Qed.

Lemma restore_register_effect e b e' :
  restore_register e b = Done e' ->
  registers_of e' = undo_entry b (registers_of e) /\
  backtrack_stack e' = backtrack_stack e /\ backtrack_stack_base e' = backtrack_stack_base e.
Proof.
  destruct b; cbn; unfold set_capture_point, set_progress_point, set_loop_register; intros E;
    try (injection E as <-; done);
    apply bind_done in E as (v & ->%vec_set_done & [= <-]); done.
Qed.

(** ** The invariant: entries above the base undo to the registers at the start *)

Definition above_base (n : nat) (b : BacktrackEntry) : Prop :=
  match b with RestoreBacktrackStack k => (n <= k)%nat | _ => True end.

Record UndoInv (st0 : list BacktrackEntry) (R : Registers) e : Prop := mkUndoInv {
  ui_base : backtrack_stack_base e = length st0;
  ui_stack : exists extra,
    backtrack_stack e = extra ++ st0 /\
    undo extra (registers_of e) = R /\ Forall (above_base (length st0)) extra;
}.

(** What a finished execution guarantees. *)
Definition undo_result (st0 : list BacktrackEntry) (R : Registers) (r : Engine * bool) : Prop :=
  if r.2 then UndoInv st0 R r.1
  else backtrack_stack r.1 = st0 /\ registers_of r.1 = R /\
       backtrack_stack_base r.1 = length st0.

Lemma UndoInv_frame st0 R e e' :
  backtrack_stack e' = backtrack_stack e -> registers_of e' = registers_of e ->
  backtrack_stack_base e' = backtrack_stack_base e ->
  UndoInv st0 R e -> UndoInv st0 R e'.
Proof. intros E1 E2 E3 [Hb Hs]. split; [congruence|]. by rewrite E1, E2. Qed.

Lemma UndoInv_push st0 R e b :
  above_base (length st0) b ->
  undo_entry b (registers_of e) = registers_of e ->
  UndoInv st0 R e -> UndoInv st0 R (push_entry e b).
Proof.
  intros Ha Hu [Hb (extra & Hs & Hr & Hf)]. split; [done|].
  exists (b :: extra). cbn. rewrite Hs. split_and!; [done| |by constructor].
  change (registers_of (push_entry e b)) with (registers_of e). by rewrite Hu.
Qed.

Lemma insert_back (v : list Z) i x y :
  v !! i = Some x -> <[i := x]> (<[i := y]> v) = v.
Proof. intros Hx. rewrite list_insert_insert_eq. by apply list_insert_id. Qed.

(** A register write logs the old value first. *)
Lemma push_register_inv st0 R e e' b :
  backtrack_stack e' = b :: backtrack_stack e ->
  backtrack_stack_base e' = backtrack_stack_base e ->
  above_base (length st0) b ->
  undo_entry b (registers_of e') = registers_of e ->
  UndoInv st0 R e -> UndoInv st0 R e'.
Proof.
  intros Hst Hb Ha Hu [Hbase (extra & Hs & Hr & Hf)]. split; [congruence|].
  exists (b :: extra). rewrite Hst, Hs. split_and!; [done| |by constructor].
  cbn. by rewrite Hu.
Qed.

Lemma push_capture_point_inv st0 R e i x e' :
  push_capture_point e i x = Done e' -> UndoInv st0 R e -> UndoInv st0 R e'.
Proof.
  intros E. apply bind_done in E as (old & [_ Hold]%vec_get_done & E).
  apply bind_done in E as (v & ->%vec_set_done & [= <-]).
  eapply push_register_inv; [reflexivity|done|exact I|].
  unfold registers_of. cbn. f_equal. by apply insert_back.
Qed.

Lemma push_progress_point_inv st0 R e i x e' :
  push_progress_point e i x = Done e' -> UndoInv st0 R e -> UndoInv st0 R e'.
Proof.
  intros E. apply bind_done in E as (old & [_ Hold]%vec_get_done & E).
  apply bind_done in E as (v & ->%vec_set_done & [= <-]).
  eapply push_register_inv; [reflexivity|done|exact I|].
  unfold registers_of. cbn. f_equal. by apply insert_back.
Qed.

Lemma push_loop_register_inv st0 R e i x e' :
  push_loop_register e i x = Done e' -> UndoInv st0 R e -> UndoInv st0 R e'.
Proof.
  intros E. apply bind_done in E as (old & [_ Hold]%vec_get_done & E).
  apply bind_done in E as (v & ->%vec_set_done & [= <-]).
  eapply push_register_inv; [reflexivity|done|exact I|].
  unfold registers_of. cbn. f_equal. by apply insert_back.
Qed.

(** ** Backtracking *)

Lemma pop_to_size_inv st0 R n : (length st0 <= n)%nat ->
  forall extra e e',
  undo extra (registers_of e) = R -> Forall (above_base (length st0)) extra ->
  pop_to_size (extra ++ st0) n e = Done e' ->
  backtrack_stack_base e = length st0 ->
  UndoInv st0 R e'.
Proof.
  intros Hn. induction extra as [|b extra IH]; intros e e' Hr Hf E Hb.
  - cbn in Hr. cbn [app] in E. assert (e' = with_stack e st0) as ->.
    { destruct st0 as [|b st0]; cbn [pop_to_size] in E; [congruence|].
      rewrite (proj2 (Nat.ltb_ge _ _)) in E by (cbn in *; lia). congruence. }
    split; [done|]. exists []. by cbn.
  - cbn [app pop_to_size] in E. apply Forall_cons in Hf as [Hb1 Hf].
    destruct (Nat.ltb_spec n (length (b :: extra ++ st0))).
    + apply bind_done in E as (e1 & [Hr1 [_ Hb2]]%restore_register_effect & E).
      eapply IH; [|done|exact E|congruence]. by rewrite Hr1.
    + injection E as <-. split; [done|]. exists (b :: extra). cbn. by split_and!; [| |constructor].
Qed.

Lemma backtrack_inv st0 R fuel : forall e r,
  UndoInv st0 R e -> backtrack_fuel fuel e = Done r -> undo_result st0 R r.
Proof.
  induction fuel as [|fuel IH]; intros e r Hinv E; [done|]. cbn [backtrack_fuel] in E.
  destruct Hinv as [Hb (extra & Hs & Hr & Hf)].
  destruct (Nat.ltb_spec (backtrack_stack_base e) (length (backtrack_stack e))) as [Hlt|Hge].
  - rewrite Hs in E. destruct extra as [|b extra].
    { rewrite Hs, Hb in Hlt. cbn in Hlt. lia. }
    cbn [app] in E. apply Forall_cons in Hf as [Ha Hf].
    destruct b as [i saved|i x|i x|i x|n].
    + injection E as <-. split; [done|]. exists extra. by cbn.
    + apply bind_done in E as (e1 & [Hr1 [Hs1 Hb1]]%restore_register_effect & E).
      eapply IH; [|exact E]. split; [by rewrite Hb1|]. exists extra.
      rewrite Hs1, Hr1. by split_and!.
    + apply bind_done in E as (e1 & [Hr1 [Hs1 Hb1]]%restore_register_effect & E).
      eapply IH; [|exact E]. split; [by rewrite Hb1|]. exists extra.
      rewrite Hs1, Hr1. by split_and!.
    + apply bind_done in E as (e1 & [Hr1 [Hs1 Hb1]]%restore_register_effect & E).
      eapply IH; [|exact E]. split; [by rewrite Hb1|]. exists extra.
      rewrite Hs1, Hr1. by split_and!.
    + apply bind_done in E as (e1 & E1 & E). eapply IH; [|exact E].
      eapply (pop_to_size_inv st0 R n Ha extra (with_stack e (extra ++ st0))); done.
  - injection E as <-. destruct extra as [|b extra].
    + cbn in *. done.
    + rewrite Hs, Hb in Hge. cbn in Hge. rewrite length_app in Hge. lia.
Qed.

Lemma backtrack_result st0 R e r :
  UndoInv st0 R e -> backtrack e = Done r -> undo_result st0 R r.
Proof. intros Hi E. by eapply backtrack_inv. Qed.

(** ** Instructions *)

Ltac frame :=
  match goal with
  | Hi : UndoInv _ _ ?e |- UndoInv _ _ _ =>
      apply (UndoInv_frame _ _ e); [reflexivity|reflexivity|reflexivity|exact Hi]
  end.
Ltac proceed E := injection E as <-; unfold undo_result; cbn [fst snd]; frame.

Lemma advance_code_point_inv st0 R d e e' :
  advance_code_point_in_direction d e = Done e' -> UndoInv st0 R e -> UndoInv st0 R e'.
Proof. intros E Hi. apply bind_done in E as (s & _ & E). proceed E. Qed.

Lemma no_advance_read_inv st0 R d e e' :
  no_advance_read_code_point_in_direction d e = Done e' -> UndoInv st0 R e -> UndoInv st0 R e'.
Proof. intros E Hi. apply bind_done in E as (s & _ & E). proceed E. Qed.

Lemma consume_result st0 R d e n r :
  consume d e n = Done r -> UndoInv st0 R e -> undo_result st0 R r.
Proof.
  intros E Hi. apply bind_done in E as (e1 & E1 & E).
  eapply advance_code_point_inv in E1; [|exact Hi]. proceed E.
Qed.

Lemma backtrack_and_reset_result st0 R e r :
  backtrack_and_reset e = Done r -> UndoInv st0 R e -> undo_result st0 R r.
Proof.
  intros E Hi. apply bind_done in E as ([e1 ok] & E1 & E).
  eapply backtrack_result in E1; [|exact Hi]. destruct ok; cbn in *; [proceed E|].
  by injection E as <-.
Qed.

Lemma assert_or_backtrack_result st0 R b e n r :
  assert_or_backtrack b e n = Done r -> UndoInv st0 R e -> undo_result st0 R r.
Proof.
  unfold assert_or_backtrack. destruct b; intros E Hi; [proceed E|by eapply backtrack_result].
Qed.

Lemma compare_insensitive_result st0 R d fuel : forall it e r,
  compare_insensitive fold upper regexp fuel d it e = Done r ->
  UndoInv st0 R e -> undo_result st0 R r.
Proof.
  induction fuel as [|fuel IH]; intros it e r E Hi; [done|]. cbn [compare_insensitive] in E.
  destruct (iter_next d it) as [[v it']|]; [|proceed E].
  destruct (_ && _); [|by eapply backtrack_result].
  apply bind_done in E as (e1 & E1 & E). eapply IH; [exact E|].
  by eapply advance_code_point_inv.
Qed.

Lemma execute_backreference_result st0 R d e ci g r :
  execute_backreference fold upper regexp d e ci g = Done r ->
  UndoInv st0 R e -> undo_result st0 R r.
Proof.
  intros E Hi. apply bind_done in E as (g' & _ & E). apply bind_done in E as (bounds & _ & E).
  destruct bounds as [[a b]|]; [|proceed E]. apply bind_done in E as (sl & _ & E).
  destruct ci; [by eapply compare_insensitive_result|].
  destruct d.
  - destruct (slice_equals _ _ _); [|by eapply backtrack_result].
    apply bind_done in E as (s & _ & E); proceed E.
  - cbv zeta in E. destruct (_ && _); [|by eapply backtrack_result].
    apply bind_done in E as (s & _ & E); proceed E.
Qed.

Lemma consume_and_reset_result st0 R d e n r :
  (r ← consume d e n; Done (reset_compare_register r.1, r.2)) = Done r ->
  UndoInv st0 R e -> undo_result st0 R r.
Proof.
  intros E Hi. apply bind_done in E as ([e1 ok] & E1 & E).
  apply bind_done in E1 as (e2 & E2 & [= <- <-]).
  eapply advance_code_point_inv in E2; [|exact Hi]. proceed E.
Qed.

Lemma branch_result st0 R e a b r :
  Done (set_next_instruction (push_backtrack_restore_state e b) a, true) = Done r ->
  UndoInv st0 R e -> undo_result st0 R r.
Proof.
  intros E Hi. injection E as <-.
  apply (UndoInv_push _ _ _ (RestoreState b (save (string_lexer e)))) in Hi; [|done|done].
  unfold undo_result; cbn [fst snd]. frame.
Qed.

Lemma execute_instruction_result st0 R d i e r :
  execute_instruction fold upper regexp d i e = Done r ->
  UndoInv st0 R e -> undo_result st0 R r.
Proof.
  intros E Hi. destruct i; cbn [execute_instruction] in E;
    repeat match type of E with
    | context [if ?b then with_compare _ _ else _] => destruct b
    | Done _ = Done _ => first [by eapply branch_result|proceed E]
    | backtrack _ = Done _ => by eapply backtrack_result
    | backtrack_and_reset _ = Done _ => by eapply backtrack_and_reset_result
    | consume _ _ _ = Done _ => by eapply consume_result
    | assert_or_backtrack _ _ _ = Done _ => by eapply assert_or_backtrack_result
    | execute_backreference _ _ _ _ _ _ _ = Done _ => by eapply execute_backreference_result
    | (if ?b then _ else _) = Done _ => destruct b
    | (push_capture_point _ _ _ ≫= _) = Done _ =>
        let E1 := fresh in apply bind_done in E as (? & E1 & E);
        eapply push_capture_point_inv in E1; [|exact Hi]
    | (push_progress_point _ _ _ ≫= _) = Done _ =>
        let E1 := fresh in apply bind_done in E as (? & E1 & E);
        eapply push_progress_point_inv in E1; [|exact Hi]
    | (push_loop_register _ _ _ ≫= _) = Done _ =>
        let E1 := fresh in apply bind_done in E as (? & E1 & E);
        eapply push_loop_register_inv in E1; [|exact Hi]
    | (no_advance_read_code_point_in_direction _ _ ≫= _) = Done _ =>
        let E1 := fresh in apply bind_done in E as (? & E1 & E);
        eapply no_advance_read_inv in E1; [|first [exact Hi|frame]]
    | (consume _ _ _ ≫= _) = Done _ => by eapply consume_and_reset_result
    | (_ ≫= _) = Done _ => apply bind_done in E as (? & _ & E)
    end.
Qed.
(** ** Lookarounds and the execution loop *)

Lemma enter_lookaround_inv is_ahead body e sub :
  enter_lookaround is_ahead body e = Done sub ->
  UndoInv (backtrack_stack e) (registers_of e) sub.
Proof.
  intros E. apply bind_done in E as (s & _ & [= <-]).
  split; [done|]. exists []. by cbn.
Qed.

Lemma above_base_le m n st : (m <= n)%nat -> Forall (above_base n) st -> Forall (above_base m) st.
Proof.
  intros Hmn Hf. eapply Forall_impl; [exact Hf|]. intros []; cbn; try done. lia.
Qed.

Lemma leave_lookaround_result st0 R is_positive old sub ok r :
  leave_lookaround is_positive old sub ok = Done r ->
  UndoInv st0 R old ->
  undo_result (backtrack_stack old) (registers_of old) (sub, ok) ->
  undo_result st0 R r.
Proof.
  intros E [Hb (extra & Hs & Hr & Hf)] Hsub. unfold leave_lookaround in E.
  set (e1 := if ok then push_entry sub _ else sub) in E.
  assert (UndoInv st0 R (with_base e1 (backtrack_stack_base old))) as Hi.
  { split; [done|]. unfold e1. destruct ok; unfold undo_result in Hsub; cbn in Hsub.
    - destruct Hsub as [_ (extra' & Hs' & Hr' & Hf')].
      exists (RestoreBacktrackStack (length (backtrack_stack old)) :: extra' ++ extra).
      cbn. rewrite Hs', Hs, undo_app. split_and!.
      + by rewrite app_assoc.
      + change (registers_of (with_base _ _)) with (registers_of sub).
        by rewrite Hr'.
      + rewrite Hs in Hf'. constructor; [cbn; rewrite length_app; lia|].
        apply Forall_app. split; [|done]. eapply above_base_le; [|exact Hf'].
        rewrite length_app. lia.
    - destruct Hsub as (Hs' & Hr' & Hb'). exists extra. cbn.
      change (registers_of (with_base _ _)) with (registers_of sub).
      by rewrite Hs', Hr'. }
  destruct (eqb ok is_positive); [|by eapply backtrack_result].
  injection E as <-. unfold undo_result; cbn [fst snd].
  revert Hi. apply UndoInv_frame; reflexivity.
Qed.

Lemma execute_bytecode_result fuel : forall st0 R d e r,
  UndoInv st0 R e -> execute_bytecode fold upper regexp fuel d e = Done r -> undo_result st0 R r.
Proof.
  induction fuel as [|fuel IH]; intros st0 R d e r Hi E; [done|].
  cbn [execute_bytecode] in E. apply bind_done in E as (i & _ & E).
  assert (forall r1, undo_result st0 R r1 ->
    (if r1.2 : bool then execute_bytecode fold upper regexp fuel d r1.1 else Done r1) = Done r ->
    undo_result st0 R r) as Hgo.
  { intros [e1 ok] H1 E1. destruct ok; cbn in E1; [eapply IH; [exact H1|exact E1]|by injection E1 as <-]. }
  destruct (match i with Accept => true | _ => false end) eqn:Ha.
  { destruct i; try discriminate. by injection E as <-. }
  destruct (match i with Lookaround _ _ _ => true | _ => false end) eqn:Hl.
  - destruct i; try discriminate.
    apply bind_done in E as (sub & Hsub%enter_lookaround_inv & E).
    apply bind_done in E as ([sub' ok] & Hx & E). apply IH with (1 := Hsub) in Hx.
    apply bind_done in E as (r1 & Hr1 & E). apply (Hgo r1); [|exact E].
    eapply leave_lookaround_result; [exact Hr1| |exact Hx].
    revert Hi. apply UndoInv_frame; reflexivity.
  - assert (exists r1, execute_instruction fold upper regexp d i e = Done r1 /\
      (if r1.2 : bool then execute_bytecode fold upper regexp fuel d r1.1 else Done r1) = Done r)
      as (r1 & E1 & E2).
    { destruct i; try discriminate; apply bind_done in E as (r1 & E1 & E2); by exists r1. }
    apply (Hgo r1); [|exact E2]. by eapply execute_instruction_result.
Qed.

(** C19: every execution treats the backtrack stack as an undo log, whatever the
    bytecode and the input: started with the base at the top of the stack, an
    execution that fails leaves the stack and the capture, progress and loop
    registers exactly as it found them (this is what a lookaround that does not
    match, and a match that fails, rely on), and one that accepts leaves the old
    stack below entries which restore the old registers when they are undone. *)
Theorem execution_is_undoable fuel d e e' ok :
  backtrack_stack_base e = length (backtrack_stack e) ->
  execute_bytecode fold upper regexp fuel d e = Done (e', ok) ->
  (ok = false -> backtrack_stack e' = backtrack_stack e /\ registers_of e' = registers_of e) /\
  (ok = true -> exists extra, backtrack_stack e' = extra ++ backtrack_stack e /\
     undo extra (registers_of e') = registers_of e).
Proof.
  intros Hb E. assert (UndoInv (backtrack_stack e) (registers_of e) e) as Hi.
  { split; [done|]. exists []. by cbn. }
  apply execute_bytecode_result with (1 := Hi) in E.
  destruct ok; unfold undo_result in E; cbn in E; split; intros ?; try done.
  - destruct E as [_ (extra & ? & ? & _)]. by exists extra.
  - by destruct E as (? & ? & _).
Qed.

End UndoLog.

(** On "ac" the lookahead succeeds and marks its capture, then matching fails. *)
Lemma execution_is_undoable_witness :
  exists e', execute_bytecode id id MatcherExample.regexp 20 FORWARD
    (MatchEngine_new MatcherExample.regexp (mkUnitStream [97; 99] 0 97)) = Done (e', false) /\
  registers_of e' = registers_of (MatchEngine_new MatcherExample.regexp (mkUnitStream [97; 99] 0 97)).
Proof.
  eexists. split; [vm_compute; reflexivity|].
  eapply (execution_is_undoable id id MatcherExample.regexp 20 FORWARD
    (MatchEngine_new MatcherExample.regexp (mkUnitStream [97; 99] 0 97)));
    [reflexivity|vm_compute; reflexivity|reflexivity].
Defined.
