(* ===== verification/RegExpMatcherSafety.v ===== *)
(** Safety of the RegExp matcher.

    [check_code] verifies bytecode: at every listed position an instruction can
    be decoded, its register operands are in range, and every position that can
    follow it is listed.  Over any stream that satisfies [LexerStreamLaws], code
    that passes the check is executed without undefined behaviour; without
    back references it does not panic either, and every capture that it reports
    lies inside the input. *)

From S2P Require Import Prelude Unicode LexerStream RegExpInstruction RegExpMatcher.

(** ** A verifier of bytecode *)

Definition successors (pc : Z) (i : Instruction) : list Z :=
  match i with
  | Accept | Fail => []
  | Jump t => [t]
  | Branch a b => [a; b]
  | Loop _ _ t => [pc + size i; t]
  | Lookaround _ _ b => [pc + size i; b]
  | _ => [pc + size i]
  end.

Definition num_capture_points (regexp : CompiledRegExp) : Z := (num_capture_groups regexp + 1) * 2.

Definition below (k n : Z) : bool := (0 <=? k) && (k <? n).

Definition operands_valid (regexp : CompiledRegExp) (features : Features) (i : Instruction) : bool :=
  match i with
  | MarkCapturePoint k => below k (num_capture_points regexp)
  | ClearCapture g => below (wrap32 (g * 2 + 1)) (num_capture_points regexp)
  | Progress k => below k (num_progress_points regexp)
  | Loop k _ _ => below k (num_loop_registers regexp)
  | Backreference _ _ => back_references features
  | Lookaround is_ahead _ _ => is_ahead || lookbehinds features
  | _ => true
  end.

Definition valid_at (regexp : CompiledRegExp) (features : Features) (starts : list Z) (pc : Z) :
    bool :=
  match read_instruction (instructions regexp) pc with
  | Done i =>
      operands_valid regexp features i
      && forallb (fun t => bool_decide (t ∈ starts)) (successors pc i)
  | _ => false
  end.

Definition check_code (regexp : CompiledRegExp) (features : Features) (starts : list Z) : bool :=
  bool_decide (0 ∈ starts) && forallb (valid_at regexp features starts) starts.

(** The bounds of a reported capture lie in an input of [n] units. *)
Definition capture_in (n : Z) (c : option Capture) : Prop :=
  match c with
  | Some c => 0 <= capture_start c <= n /\ 0 <= capture_end c <= n
  | None => True
  end.

(** The programs that may panic: those with back references, and on a stream that may panic when it
    is read backwards those with a lookbehind. *)
Definition may_panic {S} `{LexerStreamLaws S} (features : Features) : Prop :=
  back_references features = true \/ (lookbehinds features = true /\ backwards_panics = true).

Section Safety.

Context {S : Type} `{LexerStreamLaws S}.
Context (fold upper : Z -> Z) (regexp : CompiledRegExp) (features : Features) (starts : list Z).
Context (Hcode : check_code regexp features starts = true).
Context (s0 : S).

Abbreviation Engine := (@MatchEngine S).
Implicit Types (e : Engine).

Definition safe {A} (P : A -> Prop) (o : outcome A) : Prop :=
  match o with
  | Done a => P a
  | Panicked => may_panic features
  | Faulted | OutOfFuel => False
  end.

(** The outcomes of the execution loop, whose fuel can run out. *)
Definition safe_loop {A} (P : A -> Prop) (o : outcome A) : Prop := o = OutOfFuel \/ safe P o.

Lemma safe_loop_bind {A B} (P : A -> Prop) (Q : B -> Prop) o (f : A -> outcome B) :
  safe_loop P o -> (forall a, P a -> safe_loop Q (f a)) -> safe_loop Q (o ≫= f).
Proof.
  intros [->|Ho] Hf; [by left|]. destruct o; cbn in Ho |- *; [by apply Hf|by right|done..].
Qed.

Lemma safe_bind {A B} (P : A -> Prop) (Q : B -> Prop) o (f : A -> outcome B) :
  safe P o -> (forall a, P a -> safe Q (f a)) -> safe Q (o ≫= f).
Proof. destruct o; cbn; auto. Qed.

Definition point_ok (x : Z) : Prop := x = EMPTY_STRING_INDEX \/ 0 <= x <= len s0.

Definition saved_ok (saved : SavedLexerStreamState) : Prop :=
  exists s, saved = save s /\ stream_ok s /\ same_buffer s0 s.

Definition entry_ok (b : BacktrackEntry) : Prop :=
  match b with
  | RestoreState i saved => i ∈ starts /\ saved_ok saved
  | CapturePoint i x => below i (num_capture_points regexp) = true /\ point_ok x
  | ProgressPoint i _ => below i (num_progress_points regexp) = true
  | LoopRegister i _ => below i (num_loop_registers regexp) = true
  | RestoreBacktrackStack _ => True
  end.

Record Safe e : Prop := mkSafe {
  safe_stream : stream_ok (string_lexer e);
  safe_buffer : same_buffer s0 (string_lexer e);
  safe_index : instruction_index e ∈ starts;
  safe_captures : length (capture_points e) = Z.to_nat (num_capture_points regexp);
  safe_capture_values : Forall point_ok (capture_points e);
  safe_progress : length (progress_points e) = Z.to_nat (num_progress_points regexp);
  safe_loops : length (loop_registers e) = Z.to_nat (num_loop_registers regexp);
  safe_stack : Forall entry_ok (backtrack_stack e);
}.

(** ** Vectors *)

Lemma below_iff k n : below k n = true <-> 0 <= k < n.
Proof. unfold below. rewrite andb_true_iff, Z.leb_le, Z.ltb_lt. tauto. Qed.

Lemma vec_get_safe v i n : length v = Z.to_nat n -> below i n = true ->
  exists x, vec_get v i = Done x /\ x ∈ v.
Proof.
  intros Hv Hi%below_iff. unfold vec_get. rewrite (proj2 (Z.ltb_ge _ _)) by lia.
  destruct (lookup_lt_is_Some_2 v (Z.to_nat i)) as [x Hx]; [lia|].
  exists x. rewrite Hx. split; [done|]. by eapply list_elem_of_lookup_2.
Qed.

Lemma vec_set_safe v i x n : length v = Z.to_nat n -> below i n = true ->
  vec_set v i x = Done (<[Z.to_nat i := x]> v).
Proof.
  intros Hv Hi%below_iff. unfold vec_set.
  rewrite (proj2 (Z.leb_le _ _)), (proj2 (Z.ltb_lt _ _)) by lia. done.
Qed.

(** ** Setting and logging registers *)

Lemma Safe_stack e st : Safe e -> Forall entry_ok st -> Safe (with_stack e st).
Proof. by intros [] ?. Qed.
Lemma Safe_index e i : Safe e -> i ∈ starts -> Safe (with_index e i).
Proof. by intros [] ?. Qed.
Lemma Safe_lexer e s : Safe e -> stream_ok s -> same_buffer s0 s -> Safe (with_lexer e s).
Proof. by intros [] ??. Qed.
Lemma Safe_compare e b : Safe e -> Safe (with_compare e b).
Proof. by intros []. Qed.
Lemma Safe_word_boundary e b : Safe e -> Safe (with_word_boundary e b).
Proof. by intros []. Qed.
Lemma Safe_base e n : Safe e -> Safe (with_base e n).
Proof. by intros []. Qed.
Lemma Safe_push e b : Safe e -> entry_ok b -> Safe (push_entry e b).
Proof. intros He Hb. apply Safe_stack; [done|]. constructor; [done|apply He]. Qed.

Lemma set_capture_point_safe e i x :
  Safe e -> below i (num_capture_points regexp) = true -> point_ok x ->
  safe Safe (set_capture_point e i x).
Proof.
  intros He Hi Hx. unfold set_capture_point.
  erewrite vec_set_safe by (apply He || done). destruct He. split; cbn; try done.
  - by rewrite length_insert.
  - by apply Forall_insert.
Qed.

Lemma set_progress_point_safe e i x :
  Safe e -> below i (num_progress_points regexp) = true -> safe Safe (set_progress_point e i x).
Proof.
  intros He Hi. unfold set_progress_point.
  erewrite vec_set_safe by (apply He || done). destruct He. split; cbn; try done.
  by rewrite length_insert.
Qed.

Lemma set_loop_register_safe e i x :
  Safe e -> below i (num_loop_registers regexp) = true -> safe Safe (set_loop_register e i x).
Proof.
  intros He Hi. unfold set_loop_register.
  erewrite vec_set_safe by (apply He || done). destruct He. split; cbn; try done.
  by rewrite length_insert.
Qed.

Lemma push_capture_point_safe e i x :
  Safe e -> below i (num_capture_points regexp) = true -> point_ok x ->
  safe Safe (push_capture_point e i x).
Proof.
  intros He Hi Hx. unfold push_capture_point, get_capture_point.
  destruct (vec_get_safe (capture_points e) i _ (safe_captures _ He) Hi) as (old & -> & Hold).
  apply set_capture_point_safe; [|done..]. apply Safe_push; [done|]. split; [done|].
  eapply Forall_forall; [apply He|done].
Qed.

Lemma push_progress_point_safe e i x :
  Safe e -> below i (num_progress_points regexp) = true -> safe Safe (push_progress_point e i x).
Proof.
  intros He Hi. unfold push_progress_point, get_progress_point.
  destruct (vec_get_safe (progress_points e) i _ (safe_progress _ He) Hi) as (old & -> & Hold).
  apply set_progress_point_safe; [|done]. by apply Safe_push.
Qed.

Lemma push_loop_register_safe e i x :
  Safe e -> below i (num_loop_registers regexp) = true -> safe Safe (push_loop_register e i x).
Proof.
  intros He Hi. unfold push_loop_register, get_loop_register.
  destruct (vec_get_safe (loop_registers e) i _ (safe_loops _ He) Hi) as (old & -> & Hold).
  apply set_loop_register_safe; [|done]. by apply Safe_push.
Qed.

Lemma restore_register_safe e b : Safe e -> entry_ok b -> safe Safe (restore_register e b).
Proof.
  intros He. destruct b; cbn; try done.
  - intros [Hi Hx]. by apply set_capture_point_safe.
  - by apply set_progress_point_safe.
  - by apply set_loop_register_safe.
Qed.

(** ** Backtracking *)

Lemma restore_register_stack e b e' :
  restore_register e b = Done e' -> backtrack_stack e' = backtrack_stack e.
Proof.
  destruct b; cbn; intros E; try by injection E as <-.
  all: by apply bind_done in E as (? & _ & [= <-]).
Qed.

Lemma safe_and {A} (P Q : A -> Prop) o :
  safe P o -> (forall a, o = Done a -> Q a) -> safe (fun a => P a /\ Q a) o.
Proof. destruct o; cbn; auto. Qed.

Lemma pop_to_size_safe st n : forall e,
  Safe e -> Forall entry_ok st ->
  safe (fun e' => Safe e' /\ (length (backtrack_stack e') <= length st)%nat) (pop_to_size st n e).
Proof.
  induction st as [|b st IH]; intros e He Hst; cbn [pop_to_size].
  { split; [by apply Safe_stack|done]. }
  destruct (_ <? _)%nat; [|split; [by apply Safe_stack|done]].
  apply Forall_cons in Hst as [Hb Hst].
  eapply safe_bind; [by apply restore_register_safe|]. intros e' He'.
  specialize (IH e' He' Hst). destruct (pop_to_size st n e'); cbn in *; try done.
  destruct IH. split; [done|lia].
Qed.

Lemma same_as_start s s' : same_buffer s0 s -> same_buffer s0 s' -> same_buffer s s'.
Proof. intros H1 H2. eapply same_buffer_trans; [by apply same_buffer_sym|done]. Qed.

Definition continues (r : Engine * bool) : Prop := Safe r.1.

Lemma backtrack_fuel_safe fuel : forall e,
  Safe e -> (length (backtrack_stack e) < fuel)%nat -> safe continues (backtrack_fuel fuel e).
Proof.
  induction fuel as [|fuel IH]; intros e He Hf; cbn [backtrack_fuel]; [lia|].
  destruct (_ <? _)%nat eqn:Hlt; [|done].
  pose proof (safe_stack _ He) as Hst. destruct (backtrack_stack e) as [|b st] eqn:Hs.
  { apply Nat.ltb_lt in Hlt. cbn in Hlt. lia. }
  apply Forall_cons in Hst as [Hb Hst]. cbn in Hf.
  assert (Safe (with_stack e st)) as Hw by by apply Safe_stack.
  assert (Hreg : safe continues
    (e ← restore_register (with_stack e st) b; backtrack_fuel fuel e)).
  { eapply safe_bind.
    - apply safe_and; [by apply restore_register_safe|]. intros e' E.
      exact (restore_register_stack _ _ _ E).
    - intros e' [He' E]. apply IH; [done|]. rewrite E. cbn. lia. }
  destruct b as [i saved|i x|i x|i x|n]; try exact Hreg.
  - destruct Hb as [Hi (s & -> & Hok & Hsame)]. unfold continues. cbn.
    rewrite restore_ok; [|done|apply He|apply same_as_start; [done|apply He]].
    apply Safe_lexer; [by apply Safe_index|done|done].
  - eapply safe_bind; [by apply pop_to_size_safe|]. intros e' [He' Hl].
    apply IH; [done|]. cbn in Hl. lia.
Qed.

Lemma backtrack_safe e : Safe e -> safe continues (backtrack e).
Proof. intros He. apply backtrack_fuel_safe; [done|lia]. Qed.

(** ** The input *)

Lemma len_same e : Safe e -> len (string_lexer e) = len s0.
Proof. intros He. apply same_buffer_len, He. Qed.

Lemma lexer_step_safe e o :
  Safe e -> (exists s', o = Done s' /\ stream_ok s' /\ same_buffer (string_lexer e) s') ->
  safe Safe (s ← o; Done (with_lexer e s)).
Proof.
  intros He (s & -> & Hok & Hs). cbn. apply Safe_lexer; [done..|].
  eapply same_buffer_trans; [apply He|done].
Qed.

(** Directions in which the program reads. *)
Definition reads (d : Direction) : Prop :=
  d = BACKWARD -> backwards_panics = true -> may_panic features.

Lemma reads_ahead is_ahead : is_ahead || lookbehinds features = true ->
  reads (if is_ahead : bool then FORWARD else BACKWARD).
Proof. destruct is_ahead; [done|]. intros Hl _ Hb. by right. Qed.
Lemma reads_back_references d : back_references features = true -> reads d.
Proof. intros Hb _ _. by left. Qed.

Lemma advance_safe d e : reads d -> Safe e -> safe Safe (advance_code_point_in_direction d e).
Proof.
  intros Hd He. destruct d.
  { apply lexer_step_safe; [done|]. by apply advance_code_point_ok, He. }
  cbn. destruct (advance_backwards_code_point_ok (string_lexer e)) as [Ho|[Hb ->]];
    [apply He|by apply lexer_step_safe|by apply Hd].
Qed.

Lemma no_advance_read_safe d e : Safe e -> safe Safe (no_advance_read_code_point_in_direction d e).
Proof.
  intros He. apply lexer_step_safe; [done|].
  destruct d; [apply advance_n_ok|apply advance_backwards_n_ok]; (apply He || done).
Qed.

Lemma wrap_pos_ok e : Safe e -> point_ok (wrap32 (pos (string_lexer e))).
Proof.
  intros He. right. pose proof (pos_in_range _ (safe_stream _ He)) as Hp.
  rewrite (len_same _ He) in Hp. unfold wrap32. split; [apply Z.mod_pos_bound; lia|].
  etransitivity; [apply Z.mod_le; lia|lia].
Qed.

Lemma code_point_before_safe d e : Safe e -> safe (fun _ => True) (code_point_before_current_pos d e).
Proof.
  intros He. unfold code_point_before_current_pos. destruct d; [|done].
  by destruct (peek_prev_ok _ (safe_stream _ He)) as [c ->].
Qed.
Lemma code_point_after_safe d e : Safe e -> safe (fun _ => True) (code_point_after_current_pos d e).
Proof.
  intros He. unfold code_point_after_current_pos. destruct d; [done|].
  by destruct (peek_next_ok _ (safe_stream _ He)) as [c ->].
Qed.


(** ** Instructions *)

(** Operations that leave the instruction index alone. *)
Definition unmoved e e' : Prop := Safe e' /\ instruction_index e' = instruction_index e.

Lemma safe_unmoved e o :
  safe Safe o -> (forall e', o = Done e' -> instruction_index e' = instruction_index e) ->
  safe (unmoved e) o.
Proof. destruct o; cbn; try done. intros ? E. split; [done|by apply E]. Qed.

Ltac unmoved :=
  let e' := fresh "e" in let E := fresh "E" in intros e' E;
  repeat (apply bind_done in E as (? & ? & E)); by injection E as <-.

Lemma advance_unmoved d e : reads d ->
  Safe e -> safe (unmoved e) (advance_code_point_in_direction d e).
Proof. intros Hd He. apply safe_unmoved; [by apply advance_safe|unmoved]. Qed.
Lemma no_advance_read_unmoved d e :
  Safe e -> safe (unmoved e) (no_advance_read_code_point_in_direction d e).
Proof. intros He. apply safe_unmoved; [by apply no_advance_read_safe|unmoved]. Qed.
Lemma push_capture_point_unmoved e i x :
  Safe e -> below i (num_capture_points regexp) = true -> point_ok x ->
  safe (unmoved e) (push_capture_point e i x).
Proof. intros. apply safe_unmoved; [by apply push_capture_point_safe|unmoved]. Qed.
Lemma push_progress_point_unmoved e i x :
  Safe e -> below i (num_progress_points regexp) = true ->
  safe (unmoved e) (push_progress_point e i x).
Proof. intros. apply safe_unmoved; [by apply push_progress_point_safe|unmoved]. Qed.
Lemma push_loop_register_unmoved e i x :
  Safe e -> below i (num_loop_registers regexp) = true ->
  safe (unmoved e) (push_loop_register e i x).
Proof. intros. apply safe_unmoved; [by apply push_loop_register_safe|unmoved]. Qed.

(** Falling through to the next instruction. *)
Lemma next_safe e e' n : unmoved e e' -> instruction_index e + n ∈ starts ->
  Safe (advance_instruction e' n).
Proof. intros [He E] Hn. apply Safe_index; [done|by rewrite E]. Qed.

Lemma unmoved_refl e : Safe e -> unmoved e e.
Proof. done. Qed.

Lemma consume_safe d e n :
  reads d -> Safe e -> instruction_index e + n ∈ starts -> safe continues (consume d e n).
Proof.
  intros Hd He Hn. eapply safe_bind; [by apply advance_unmoved|].
  intros e' He'. by eapply next_safe.
Qed.

Lemma backtrack_and_reset_safe e : Safe e -> safe continues (backtrack_and_reset e).
Proof.
  intros He. eapply safe_bind; [by apply backtrack_safe|]. intros [e' []] He'; [|done].
  by apply Safe_compare.
Qed.

Lemma assert_or_backtrack_safe b e n :
  Safe e -> instruction_index e + n ∈ starts -> safe continues (assert_or_backtrack b e n).
Proof.
  intros He Hn. destruct b; [|by apply backtrack_safe].
  eapply next_safe; [by apply unmoved_refl|done].
Qed.

(** With back references the result may be a panic, never undefined behaviour. *)
Lemma panics_only {A} (P : A -> Prop) : back_references features = true -> safe P Panicked.
Proof. by left. Qed.

Lemma vec_get_may_panic v i : back_references features = true -> safe (fun _ => True) (vec_get v i).
Proof. intros Hb. unfold vec_get. destruct (_ <? _); [by apply panics_only|].
  by destruct (v !! _); [|apply panics_only]. Qed.

Lemma capture_bounds_may_panic e g : back_references features = true ->
  safe (fun _ => True) (get_valid_capture_bounds e g).
Proof.
  intros Hb. do 2 (eapply safe_bind; [by apply vec_get_may_panic|intros ? _]).
  by destruct (_ || _).
Qed.

Lemma capture_group_name_may_panic i : back_references features = true ->
  safe (fun _ => True) (capture_group_name regexp i).
Proof. intros Hb. unfold capture_group_name. destruct (_ <? _); [by apply panics_only|].
  by destruct (_ !! _); [|apply panics_only]. Qed.

Lemma most_recent_group_may_panic e name g k : back_references features = true ->
  safe (fun _ => True) (most_recent_group regexp e name g k).
Proof.
  intros Hb. induction k as [|k IH]; cbn [most_recent_group]; [done|].
  eapply safe_bind; [by apply capture_group_name_may_panic|intros ? _].
  destruct (bool_decide _); [|done].
  eapply safe_bind; [by apply capture_bounds_may_panic|intros [] _]; done.
Qed.

Lemma resolve_may_panic e g : back_references features = true ->
  safe (fun _ => True) (resolve_capture_group regexp e g).
Proof.
  intros Hb. unfold resolve_capture_group. destruct (has_duplicate_named_capture_groups _); [|done].
  eapply safe_bind; [by apply capture_group_name_may_panic|intros [] _]; [|done].
  by apply most_recent_group_may_panic.
Qed.

Lemma compare_insensitive_safe d fuel : reads d -> forall it e,
  (length it < fuel)%nat -> Safe e -> instruction_index e + backreference_size ∈ starts ->
  safe continues (compare_insensitive fold upper regexp fuel d it e).
Proof.
  intros Hd. induction fuel as [|fuel IH]; intros it e Hf He Hn; cbn [compare_insensitive]; [lia|].
  destruct (iter_next d it) as [[v it']|] eqn:Hit.
  - destruct (_ && _); [|by apply backtrack_safe].
    eapply safe_bind; [by apply advance_unmoved|]. intros e' [He' E].
    apply iter_next_length in Hit. apply IH; [lia|done|by rewrite E].
  - eapply next_safe; [by apply unmoved_refl|done].
Qed.

Lemma execute_backreference_safe d e ci g :
  back_references features = true -> Safe e -> instruction_index e + backreference_size ∈ starts ->
  safe continues (execute_backreference fold upper regexp d e ci g).
Proof.
  intros Hb He Hn. eapply safe_bind; [by apply resolve_may_panic|intros g' _].
  eapply safe_bind; [by apply capture_bounds_may_panic|intros [[a b]|] _];
    [|eapply next_safe; [by apply unmoved_refl|done]].
  eapply (safe_bind (fun _ => True)).
  { destruct (slice_no_ub (string_lexer e) a b) as [->|[? ->]]; [by apply panics_only|done]. }
  intros sl _. destruct ci;
    [apply compare_insensitive_safe; [by apply reads_back_references|lia|done..]|].
  assert (forall o, (exists s', o = Done s' /\ stream_ok s' /\ same_buffer (string_lexer e) s') ->
    safe continues
      (s ← o; Done (advance_instruction (with_lexer e s) backreference_size, true))) as Hgo.
  { intros o (s & -> & Hok & Hs). eapply (next_safe e); [|done]. split; [|done].
    apply Safe_lexer; [done..|]. eapply same_buffer_trans; [apply He|done]. }
  destruct d; cbv zeta;
    [destruct (slice_equals _ _ _)|destruct (_ && _)]; try by apply backtrack_safe.
  - apply Hgo, advance_n_ok; [apply He|lia].
  - apply Hgo, advance_backwards_n_ok; [apply He|lia].
Qed.

(** ** The verifier's guarantee *)

Lemma check_code_at pc : pc ∈ starts ->
  exists i, read_instruction (instructions regexp) pc = Done i /\
    operands_valid regexp features i = true /\ forall t, t ∈ successors pc i -> t ∈ starts.
Proof.
  intros Hpc. apply andb_true_iff in Hcode as [_ Hall].
  rewrite forallb_forall in Hall. specialize (Hall pc). unfold valid_at in Hall.
  destruct (read_instruction _ pc) as [i| | |]; cbn in Hall;
    try by (discriminate Hall; apply list_elem_of_In).
  apply list_elem_of_In in Hpc. apply Hall, andb_true_iff in Hpc as [Ho Hs].
  exists i. split_and!; [done|done|]. intros t Ht.
  rewrite forallb_forall in Hs. apply list_elem_of_In, Hs in Ht.
  by apply bool_decide_eq_true in Ht.
Qed.

Lemma step_then_next e o n :
  safe (unmoved e) o -> instruction_index e + n ∈ starts ->
  safe continues (e ← o; Done (advance_instruction e n, true)).
Proof. intros Ho Hn. eapply safe_bind; [exact Ho|]. intros e' He'. by eapply next_safe. Qed.

Lemma step_then_reset e o n :
  safe (unmoved e) o -> instruction_index e + n ∈ starts ->
  safe continues (e ← o; Done (reset_compare_register (advance_instruction e n), true)).
Proof.
  intros Ho Hn. eapply safe_bind; [exact Ho|]. intros e' He'.
  apply Safe_compare. by eapply next_safe.
Qed.

Lemma consume_then_reset d e n :
  reads d -> Safe e -> instruction_index e + n ∈ starts ->
  safe continues (r ← consume d e n; Done (reset_compare_register r.1, r.2)).
Proof.
  intros Hd He Hn. eapply safe_bind; [by apply consume_safe|]. intros r Hr. by apply Safe_compare.
Qed.

Lemma set_compare_next e n (b : bool) :
  Safe e -> instruction_index e + n ∈ starts ->
  safe continues (Done (advance_instruction (if b then with_compare e true else e) n, true)).
Proof.
  intros He Hn. eapply (next_safe e); [|done].
  destruct b; [split; [by apply Safe_compare|done]|by apply unmoved_refl].
Qed.

Lemma progress_safe e i x n :
  Safe e -> below i (num_progress_points regexp) = true -> instruction_index e + n ∈ starts ->
  safe continues (progress_point ← get_progress_point e i;
    if negb (progress_point =? x) then
      e ← push_progress_point e i x; Done (advance_instruction e n, true)
    else backtrack e).
Proof.
  intros He Hi Hn.
  destruct (vec_get_safe (progress_points e) i _ (safe_progress _ He) Hi) as (p & Hp & _).
  unfold get_progress_point. rewrite Hp. cbn. destruct (negb _); [|by apply backtrack_safe].
  by apply (step_then_next e); [apply push_progress_point_unmoved|].
Qed.

Lemma loop_safe e i m t n :
  Safe e -> below i (num_loop_registers regexp) = true -> instruction_index e + n ∈ starts ->
  t ∈ starts ->
  safe continues (v ← get_loop_register e i;
    if v <? m then
      e ← push_loop_register e i (v + 1); Done (advance_instruction e n, true)
    else
      e ← push_loop_register e i 0; Done (set_next_instruction e t, true)).
Proof.
  intros He Hi Hn Ht.
  destruct (vec_get_safe (loop_registers e) i _ (safe_loops _ He) Hi) as (v & Hv & _).
  unfold get_loop_register. rewrite Hv. cbn. destruct (v <? m).
  - by apply (step_then_next e); [apply push_loop_register_unmoved|].
  - eapply safe_bind; [by apply push_loop_register_safe|]. intros e' He'. by apply Safe_index.
Qed.

Lemma branch_safe e a b : Safe e -> a ∈ starts -> b ∈ starts ->
  safe continues (Done (set_next_instruction (push_backtrack_restore_state e b) a, true)).
Proof.
  intros He Ha Hb. apply Safe_index; [|done]. apply Safe_push; [done|].
  split; [done|]. exists (string_lexer e). split_and!; [done|apply He..].
Qed.

Lemma execute_instruction_safe d i e :
  reads d -> Safe e -> operands_valid regexp features i = true ->
  (forall t, t ∈ successors (instruction_index e) i -> t ∈ starts) ->
  safe continues (execute_instruction fold upper regexp d i e).
Proof.
  intros Hd He Ho Hs.
  assert (Hfall : instruction_index e + size i ∈ successors (instruction_index e) i ->
    instruction_index e + size i ∈ starts) by apply Hs.
  destruct i; cbn [execute_instruction operands_valid] in *;
    try specialize (Hfall ltac:(cbn; set_solver));
    repeat match goal with
    | |- safe continues (if ?b then _ else _) => destruct b
    | |- safe continues (Done (e, true)) => exact He
    | |- safe continues (backtrack _) => by apply backtrack_safe
    | |- safe continues (backtrack_and_reset _) => by apply backtrack_and_reset_safe
    | |- safe continues (consume _ _ _) => by apply consume_safe
    | |- safe continues (consume _ _ _ ≫= _) => by apply consume_then_reset
    | |- safe continues (assert_or_backtrack _ _ _) => by apply assert_or_backtrack_safe
    | |- safe continues (execute_backreference _ _ _ _ _ _ _) =>
        by apply execute_backreference_safe
    | |- safe continues (Done (advance_instruction (if _ then _ else _) _, true)) =>
        by apply set_compare_next
    | |- safe continues (Done (advance_instruction _ _, true)) =>
        by eapply next_safe; [apply unmoved_refl|]
    | |- safe continues (push_capture_point _ _ _ ≫= _) =>
        apply (step_then_next e); [apply push_capture_point_unmoved|done];
        [done|done|first [by apply wrap_pos_ok|by left]]
    | |- safe continues (get_progress_point _ _ ≫= _) => by apply progress_safe
    | |- safe continues (get_loop_register _ _ ≫= _) =>
        apply loop_safe; [done..|apply Hs; cbn; set_solver]
    | |- safe continues (code_point_before_current_pos _ _ ≫= _) =>
        eapply safe_bind; [by apply code_point_before_safe|intros ? _]
    | |- safe continues (code_point_after_current_pos _ _ ≫= _) =>
        eapply safe_bind; [by apply code_point_after_safe|intros ? _]
    | |- safe continues (no_advance_read_code_point_in_direction _ e ≫= _) =>
        by apply (step_then_reset e); [apply no_advance_read_unmoved|]
    | |- safe continues (no_advance_read_code_point_in_direction _ (with_word_boundary e _) ≫= _) =>
        by apply (step_then_reset (with_word_boundary e (compare_register e)));
          [apply no_advance_read_unmoved, Safe_word_boundary|]
    end.
  - apply Safe_index; [done|]. apply Hs. cbn. set_solver.
  - apply branch_safe; [done|apply Hs; cbn; set_solver..].
Qed.

(** ** Lookarounds and the execution loop *)

Lemma enter_lookaround_safe is_ahead b e :
  Safe e -> b ∈ starts -> safe Safe (enter_lookaround is_ahead b e).
Proof.
  intros He Hb.
  assert (Safe (set_next_instruction (with_base e (length (backtrack_stack e))) b)) as He'
    by (apply Safe_index; [by apply Safe_base|done]).
  apply lexer_step_safe; [done|].
  destruct is_ahead; [apply advance_n_ok|apply advance_backwards_n_ok]; (apply He' || done).
Qed.

Lemma leave_lookaround_safe is_positive old e ok :
  Safe old -> Safe e -> safe continues (leave_lookaround is_positive old e ok).
Proof.
  intros Hold He. unfold leave_lookaround.
  set (e1 := with_base _ _). assert (Safe e1) as He1.
  { apply Safe_base. destruct ok; [by apply Safe_push|done]. }
  destruct (eqb ok is_positive); [|by apply backtrack_safe].
  apply Safe_index; [|apply Hold].
  rewrite restore_ok; [|apply Hold|apply He1|].
  - apply Safe_lexer; [done|apply Hold..].
  - apply same_as_start; [apply Hold|apply He1].
Qed.

Lemma execute_bytecode_safe fuel : forall d e,
  reads d -> Safe e -> safe_loop continues (execute_bytecode fold upper regexp fuel d e).
Proof.
  induction fuel as [|fuel IH]; intros d e Hd He; cbn [execute_bytecode]; [by left|].
  destruct (check_code_at _ (safe_index _ He)) as (i & -> & Ho & Hs). cbn [mbind outcome_bind].
  assert (forall r, continues r -> safe_loop continues
    (if r.2 : bool then execute_bytecode fold upper regexp fuel d r.1 else Done r)) as Hgo.
  { intros [e' []] Hr; [by apply IH|by right]. }
  pose proof (execute_instruction_safe d i e Hd He Ho Hs) as Hi.
  destruct i; try (eapply safe_loop_bind; [right; exact Hi|exact Hgo]); [right; exact He|].
  assert (Safe (advance_instruction e (size (Lookaround is_ahead is_positive body_branch)))) as Hold
    by (apply Safe_index; [done|apply Hs; cbn; set_solver]).
  eapply safe_loop_bind;
    [right; apply enter_lookaround_safe; [exact Hold|apply Hs; cbn; set_solver]|].
  intros sub Hsub. eapply safe_loop_bind; [apply IH; [by apply reads_ahead|done]|]. intros r Hr.
  eapply safe_loop_bind; [right; by apply leave_lookaround_safe|exact Hgo].
Qed.

(** ** Results *)

Lemma MatchEngine_new_safe s : stream_ok s -> same_buffer s0 s -> Safe (MatchEngine_new regexp s).
Proof.
  intros Hs Hb. apply andb_true_iff in Hcode as [Hz _]. apply bool_decide_eq_true in Hz.
  split; cbn; rewrite ?length_replicate; try done.
  apply Forall_replicate. by left.
Qed.

Lemma capture_bounds_safe e g :
  Safe e -> num_capture_points regexp <= 2 ^ 32 -> 0 <= g -> g * 2 + 1 < num_capture_points regexp ->
  exists b, get_valid_capture_bounds e g = Done b /\
    capture_in (len s0) (match b with Some (x, y) => Some (mkCapture x y) | None => None end).
Proof.
  intros He Hn Hg Hlt. unfold get_valid_capture_bounds, get_capture_point.
  rewrite !wrap32_small by (unfold u32_max; lia).
  destruct (vec_get_safe (capture_points e) (g * 2) _ (safe_captures _ He)) as (x & -> & Hx);
    [apply below_iff; lia|].
  destruct (vec_get_safe (capture_points e) (g * 2 + 1) _ (safe_captures _ He)) as (y & -> & Hy);
    [apply below_iff; lia|]. cbn.
  pose proof (safe_capture_values _ He) as Hv. rewrite Forall_forall in Hv.
  apply Hv in Hx. apply Hv in Hy.
  destruct (Z.eqb_spec x EMPTY_STRING_INDEX), (Z.eqb_spec y EMPTY_STRING_INDEX); cbn;
    try (by exists None). exists (Some (x, y)). split; [done|]. cbn.
  destruct Hx, Hy; done.
Qed.

Lemma build_captures_safe e n : forall g,
  Safe e -> num_capture_points regexp <= 2 ^ 32 -> 0 <= g ->
  (g + Z.of_nat n) * 2 <= num_capture_points regexp ->
  exists m, build_captures e n g = Done m /\ length m = n /\ Forall (capture_in (len s0)) m.
Proof.
  induction n as [|n IH]; intros g He Hn Hg Hle; cbn [build_captures]; [by exists []|].
  destruct (capture_bounds_safe e g) as (b & -> & Hb); [done|done|lia|lia|].
  destruct (IH (g + 1)) as (m & -> & Hl & Hf); [done|done|lia|lia|]. cbn.
  eexists. split; [done|]. cbn. rewrite Hl. split; [done|]. by constructor.
Qed.

Lemma build_match_safe e :
  Safe e -> num_capture_points regexp <= 2 ^ 32 ->
  exists m, build_match regexp e = Done m /\
    length m = Z.to_nat (num_capture_groups regexp + 1) /\ Forall (capture_in (len s0)) m.
Proof.
  intros He Hn. unfold build_match.
  destruct (Z.to_nat (num_capture_groups regexp + 1)) eqn:E; [by exists []|].
  apply build_captures_safe; [done|done|done|]. rewrite <- E. unfold num_capture_points. lia.
Qed.

End Safety.

(** executing one instruction always returns: from every state that checked
    code can be in, the loops inside an instruction (popping the backtrack stack,
    popping to the stack size of a lookaround, comparing a captured slice) end
    within the fuel the model gives them, so only the number of instructions
    executed is unbounded; and the state stays within the invariant. *)
Theorem instruction_execution_returns {S} `{LexerStreamLaws S} fold upper regexp features
    starts (s0 : S) d i (e : MatchEngine) :
  check_code regexp features starts = true -> (d = BACKWARD -> lookbehinds features = true) ->
  Safe regexp starts s0 e -> read_instruction (instructions regexp) (instruction_index e) = Done i ->
  match execute_instruction fold upper regexp d i e with
  | Done (e', _) => Safe regexp starts s0 e'
  | Panicked => may_panic (S := S) features
  | Faulted | OutOfFuel => False
  end.
Proof.
  intros Hcode Hd He Hi.
  destruct (check_code_at regexp features starts Hcode _ (safe_index _ _ _ _ He))
    as (i' & Hi' & Ho & Hs). rewrite Hi in Hi'. injection Hi' as <-.
  pose proof (execute_instruction_safe fold upper regexp features starts Hcode s0 d i e
    ltac:(intros Eb Hp; right; auto) He Ho Hs) as Hx.
  by destruct (execute_instruction _ _ _ _ _ _) as [[]| | |].
Qed.

(** bytecode that passes [check_code] is safe on every input, every start
    index and every stream with the stream laws: the matcher never reads outside
    the bytecode and never decodes an invalid opcode, it panics only as
    [may_panic] says, and when it reports a match there is one entry for the
    whole match and for each group, each absent or inside the input. *)
Lemma match_lexer_stream_safe {S} `{LexerStreamLaws S} fold upper regexp features starts
    fuel (s : S) start_index :
  check_code regexp features starts = true -> num_capture_points regexp <= 2 ^ 32 ->
  stream_ok s -> 0 <= start_index ->
  match match_lexer_stream fold upper regexp fuel s start_index with
  | Done (Some m) =>
      length m = Z.to_nat (num_capture_groups regexp + 1) /\ Forall (capture_in (len s)) m
  | Done None | OutOfFuel => True
  | Panicked => may_panic (S := S) features
  | Faulted => False
  end.
Proof.
  intros Hcode Hn Hs Hi. unfold match_lexer_stream, run.
  destruct (advance_n_ok s start_index Hs Hi) as (s' & -> & Hs' & Hb). cbn.
  pose proof (MatchEngine_new_safe regexp features starts Hcode s s' Hs' Hb) as He.
  apply (execute_bytecode_safe fold upper regexp features starts Hcode s fuel FORWARD _ (reads_ahead features true eq_refl)) in He.
  destruct (execute_bytecode _ _ _ _ _ _) as [[e ok]| | |]; destruct He as [He|He];
    try discriminate He; cbn in He |- *; try done.
  destruct ok; [|done].
  by destruct (build_match_safe fold upper regexp starts s e He Hn) as (m & -> & ? & ?).
Qed.

(** The same of [run_matcher], which chooses the stream: a lookbehind can panic only on a two-byte
    string that is read by code point. *)
Lemma run_matcher_safe fold upper regexp features starts is_one_byte units fuel start_index :
  check_code regexp features starts = true -> num_capture_points regexp <= 2 ^ 32 ->
  0 <= start_index ->
  match run_matcher fold upper regexp is_one_byte units fuel start_index with
  | Done (Some m) =>
      length m = Z.to_nat (num_capture_groups regexp + 1) /\
      Forall (capture_in (Z.of_nat (length units))) m
  | Done None | OutOfFuel => True
  | Panicked => back_references features = true \/
      (lookbehinds features = true /\ is_one_byte = false /\ has_any_unicode_flag regexp = true)
  | Faulted => False
  end.
Proof.
  intros Hcode Hn Hi. unfold run_matcher. destruct (is_one_byte || _) eqn:Es.
  - assert (exists s, UnitStream_new units = Done s /\ us_buf s = units /\ us_pos s = 0)
      as (s & -> & Eb & Ep) by (destruct units; eauto). cbn [mbind outcome_bind].
    assert (stream_ok s) as Hs by (unfold stream_ok, UnitStream_laws, unit_stream_ok, us_len; lia).
    pose proof (match_lexer_stream_safe fold upper regexp features starts fuel s start_index
      Hcode Hn Hs Hi) as Hm. cbn [len UnitStream_LexerStream] in Hm. unfold us_len in Hm.
    rewrite Eb in Hm. destruct (match_lexer_stream _ _ _ _ _ _) as [[m|]| | |]; try done.
    destruct Hm as [Hm|[_ Hm]]; [by left|done].
  - apply orb_false_iff in Es as [-> Eu%negb_false_iff].
    assert (exists s, PointStream_new units = Done s /\ ps_buf s = units /\ ps_pos s = 0)
      as (s & -> & Eb & Ep) by (destruct units; eauto). cbn [mbind outcome_bind].
    assert (stream_ok s) as Hs by (unfold stream_ok, PointStream_laws, point_stream_ok, ps_len; lia).
    pose proof (match_lexer_stream_safe fold upper regexp features starts fuel s start_index
      Hcode Hn Hs Hi) as Hm. cbn [len PointStream_LexerStream] in Hm. unfold ps_len in Hm.
    rewrite Eb in Hm. destruct (match_lexer_stream _ _ _ _ _ _) as [[m|]| | |]; try done.
    destruct Hm as [Hm|[Hm _]]; [by left|by right].
Qed.

Lemma instruction_execution_returns_witness :
  match execute_instruction id id MatcherExample.regexp FORWARD (MarkCapturePoint 0)
    (MatchEngine_new MatcherExample.regexp (mkUnitStream [97; 98] 0 97)) with
  | Done (e', _) => Safe MatcherExample.regexp MatcherExample.starts (mkUnitStream [97; 98] 0 97) e'
  | Panicked => may_panic (S := UnitStream) (mkFeatures false false)
  | Faulted | OutOfFuel => False
  end.
Proof.
  assert (check_code MatcherExample.regexp (mkFeatures false false) MatcherExample.starts = true) as Hc
    by (vm_compute; reflexivity).
  apply (instruction_execution_returns id id MatcherExample.regexp (mkFeatures false false) MatcherExample.starts
    (mkUnitStream [97; 98] 0 97) FORWARD (MarkCapturePoint 0) _ Hc); [discriminate| |vm_compute; reflexivity].
  apply (MatchEngine_new_safe MatcherExample.regexp (mkFeatures false false) MatcherExample.starts Hc);
    [cbn; unfold unit_stream_ok, us_len; cbn; lia|reflexivity].
Defined.
