(* ===== verification/RegExpSyntax.v ===== *)
(** Parsed regular expressions: [src/so2js/parser/regexp.rs].

    Flags are the bits of a byte.  Strings of the AST are WTF-8 in the source
    and lists of code points here.  A disjunction is a list of alternatives and
    an alternative a list of terms.  Unicode properties are a parameter of the
    type: what they denote comes from the ICU tables. *)

From S2P Require Import Prelude Unicode.

#[local] Set Warnings "-register-all".

(** ** Flags *)

Definition RegExpFlags : Type := Z.

Module Flags.

Definition HAS_INDICES : RegExpFlags := 1.
Definition GLOBAL : RegExpFlags := 2.
Definition IGNORE_CASE : RegExpFlags := 4.
Definition MULTILINE : RegExpFlags := 8.
Definition DOT_ALL : RegExpFlags := 16.
Definition UNICODE_AWARE : RegExpFlags := 32.
Definition UNICODE_SETS : RegExpFlags := 64.
Definition STICKY : RegExpFlags := 128.

(** The operations of [bitflags]. *)
Definition contains (flags f : RegExpFlags) : bool := Z.land flags f =? f.
Definition union (f g : RegExpFlags) : RegExpFlags := Z.lor f g.
Definition intersection (f g : RegExpFlags) : RegExpFlags := Z.land f g.
Definition complement (f : RegExpFlags) : RegExpFlags := Z.land (Z.lnot f) 255.
Definition is_empty (f : RegExpFlags) : bool := f =? 0.

Definition has_indices (f : RegExpFlags) : bool := contains f HAS_INDICES.
Definition is_global (f : RegExpFlags) : bool := contains f GLOBAL.
Definition is_case_insensitive (f : RegExpFlags) : bool := contains f IGNORE_CASE.
Definition is_multiline (f : RegExpFlags) : bool := contains f MULTILINE.
Definition is_dot_all (f : RegExpFlags) : bool := contains f DOT_ALL.
Definition has_simple_unicode_flag (f : RegExpFlags) : bool := contains f UNICODE_AWARE.
Definition has_unicode_sets_flag (f : RegExpFlags) : bool := contains f UNICODE_SETS.
Definition has_any_unicode_flag (f : RegExpFlags) : bool :=
  contains f UNICODE_AWARE || contains f UNICODE_SETS.
Definition is_sticky (f : RegExpFlags) : bool := contains f STICKY.

End Flags.

(** ** Syntax trees *)

Definition AstStr : Type := list Z.

Inductive Assertion : Type := Start | End_ | WordBoundary | NotWordBoundary.

Inductive ClassExpressionType : Type := Union | Intersection | Difference.

Section Syntax.

Context (UnicodeProperty : Type).

Inductive ClassRange : Type :=
| Single (code_point : Z)
| Range (start end_ : Z)
| Digit
| NotDigit
| Word
| NotWord
| Whitespace
| NotWhitespace
| PropertyClass (property : UnicodeProperty)
| NotPropertyClass (property : UnicodeProperty)
| NestedClass (class_ : CharacterClass)
| StringDisjunction (alternatives : list AstStr)
with CharacterClass : Type :=
| mkClass (expression_type : ClassExpressionType) (is_inverted : bool) (operands : list ClassRange).

Inductive Term : Type :=
| LiteralTerm (string : AstStr)
| WildcardTerm
| QuantifierTerm (term : Term) (min : Z) (max : option Z) (is_greedy : bool)
| AssertionTerm (assertion : Assertion)
| LookaroundTerm (is_ahead is_positive : bool) (disjunction : list (list Term))
| CaptureGroupTerm (name : option AstStr) (index : Z) (disjunction : list (list Term))
| AnonymousGroupTerm (disjunction : list (list Term))
    (positive_modifiers negative_modifiers : RegExpFlags)
| CharacterClassTerm (class_ : CharacterClass)
| BackreferenceTerm (index : Z).

Definition Alternative : Type := list Term.
Definition Disjunction : Type := list Alternative.

Record RegExp : Type := mkRegExp {
  disjunction : Disjunction;
  flags : RegExpFlags;
  has_duplicate_names : bool;
  capture_groups : list (option AstStr);
}.

(** Induction over terms that gives the hypothesis for the terms of every alternative. *)
Lemma Term_nested_ind (P : Term -> Prop) :
  (forall s, P (LiteralTerm s)) -> P WildcardTerm ->
  (forall t n m g, P t -> P (QuantifierTerm t n m g)) ->
  (forall a, P (AssertionTerm a)) ->
  (forall a p d, Forall (Forall P) d -> P (LookaroundTerm a p d)) ->
  (forall n i d, Forall (Forall P) d -> P (CaptureGroupTerm n i d)) ->
  (forall d p n, Forall (Forall P) d -> P (AnonymousGroupTerm d p n)) ->
  (forall c, P (CharacterClassTerm c)) -> (forall i, P (BackreferenceTerm i)) ->
  forall t, P t.
Proof.
  intros Hl Hw Hq Ha Hlk Hc Hg Hcc Hb. fix IH 1.
  assert (Hd : forall d : list (list Term), Forall (Forall P) d).
  { fix IHd 1. intros [|alt d]; [constructor|]. constructor; [|apply IHd].
    revert alt. fix IHa 1. intros [|t alt]; [constructor|]. constructor; [apply IH|apply IHa]. }
  intros [s| |t n m g|a|a p d|n i d|d p n|c|i];
    [apply Hl|apply Hw|apply Hq, IH|apply Ha|apply Hlk, Hd|apply Hc, Hd|apply Hg, Hd|apply Hcc|apply Hb].
Qed.

End Syntax.

Arguments Single {_}. Arguments Range {_}. Arguments Digit {_}. Arguments NotDigit {_}.
Arguments Word {_}. Arguments NotWord {_}. Arguments Whitespace {_}. Arguments NotWhitespace {_}.
Arguments PropertyClass {_}. Arguments NotPropertyClass {_}. Arguments NestedClass {_}.
Arguments StringDisjunction {_}. Arguments mkClass {_}.
Arguments LiteralTerm {_}. Arguments WildcardTerm {_}. Arguments QuantifierTerm {_}.
Arguments AssertionTerm {_}. Arguments LookaroundTerm {_}. Arguments CaptureGroupTerm {_}.
Arguments AnonymousGroupTerm {_}. Arguments CharacterClassTerm {_}. Arguments BackreferenceTerm {_}.
Arguments mkRegExp {_}. Arguments disjunction {_}. Arguments flags {_}.
Arguments has_duplicate_names {_}. Arguments capture_groups {_}.
