(* ===== verification/RegExpLexical.v ===== *)
(** The methods of the RegExp parser that only read the input:
    [src/so2js/parser/regexp_parser.rs].

    They touch no field of [RegExpParser] but the stream, and read its flags and
    modes, the record [Env].  A method is a computation in the monad [L]: it
    threads the stream, keeps it on an error, and [bind] is the operator [?] of
    Rust.  Loops take as many rounds as there are units of input left, plus one,
    which [remaining] computes. *)

From Stdlib Require Import Ascii String.
From S2P Require Import Prelude Unicode LexerStream UnicodeProperty ParseStream Characters RegExpSyntax.

#[local] Open Scope bool_scope.

Record Env : Type := mkEnv {
  env_flags : RegExpFlags;
  parse_named_capture_groups : bool;
  in_annex_b_mode : bool;
}.

Definition is_unicode_aware (e : Env) : bool := Flags.has_any_unicode_flag (env_flags e).

(** ** The monad *)

Definition L (S A : Type) : Type := Env -> S -> outcome (ParseResult A * S).

#[export] Instance L_ret S : MRet (L S) := fun A a e s => Done (Ok a, s).
#[export] Instance L_bind S : MBind (L S) := fun A B f m e s =>
  match m e s with
  | Done (Ok a, s') => f a e s'
  | Done (Err x, s') => Done (Err x, s')
  | Panicked => Panicked
  | Faulted => Faulted
  | OutOfFuel => OutOfFuel
  end.

Section Lexical.

Context `{IcuData} {S : Type} `{ParseStream S}.

#[local] Abbreviation L := (L S).
#[local] Abbreviation ClassRange := (ClassRange UnicodeProperty).
#[local] Abbreviation CharacterClass := (CharacterClass UnicodeProperty).
#[local] Abbreviation Term := (Term UnicodeProperty).

Definition asks {A} (f : Env -> A) : L A := fun e s => Done (Ok (f e), s).
Definition liftL {A} (o : outcome A) : L A := fun e s => a ← o; Done (Ok a, s).
Definition out_of_fuel {A} : L A := fun _ _ => OutOfFuel.

(** The result of a call whose error is inspected. *)
Definition catch {A} (m : L A) : L (ParseResult A) := fun e s =>
  '(r, s') ← m e s;
  Done (Ok r, s').

(** The operator [?] on a result at hand. *)
Definition question {A} (r : ParseResult A) : L A := fun e s => Done (r, s).

Definition pos : L Z := fun e s => Done (Ok (in_pos s), s).
Definition current : L Z := fun e s => Done (Ok (in_current s), s).
Definition is_end : L bool := fun e s => Done (Ok (in_is_end s), s).
Definition advance_n (n : Z) : L unit := fun e s => s' ← in_advance_n s n; Done (Ok tt, s').
Definition peek_n (n : Z) : L Z := fun e s => c ← in_peek_n s n; Done (Ok c, s).
Definition parse_unicode_codepoint : L Z := fun e s => in_parse_unicode_codepoint s.
Definition error {A} (start_pos : Z) (err : ParseError) : L A := fun e s =>
  Done (Err (in_error s start_pos err), s).
Definition save : L SavedLexerStreamState := fun e s => Done (Ok (in_save s), s).
Definition restore (st : SavedLexerStreamState) : L unit := fun e s => Done (Ok tt, in_restore s st).

(** The rounds that a loop over the rest of the input may take. *)
Definition remaining : L nat := fun e s => Done (Ok (Nat.succ (Z.to_nat (in_len s - in_pos s))), s).

Definition advance : L unit := advance_n 1.
Definition advance2 : L unit := advance_n 2.
Definition advance3 : L unit := advance_n 3.
Definition peek : L Z := peek_n 1.
Definition peek2 : L Z := peek_n 2.

Definition error_unexpected_token {A} (start_pos : Z) : L A :=
  error start_pos UnexpectedRegExpToken.

(** An error at the current position. *)
Definition unexpected_here {A} : L A := p ← pos; error_unexpected_token p.

Definition expect (char : ascii) : L unit :=
  c ← current;
  if negb (c =? ch char) then unexpected_here else advance.

Definition eat (char : ascii) : L bool :=
  c ← current;
  if c =? ch char then _ ← advance; mret true else mret false.

(** ** Numbers *)

Definition u64_max : Z := 2 ^ 64 - 1.

Fixpoint decimal_digits_loop (fuel : nat) (value : Z) (has_overflowed : bool) : L (option Z) :=
  match fuel with
  | O => out_of_fuel
  | Datatypes.S fuel' =>
      c ← current;
      if is_decimal_digit c then
        let '(value, has_overflowed) :=
          if value * 10 <=? u64_max then (value * 10, has_overflowed) else (value, true) in
        let '(value, has_overflowed) :=
          if value + (c - ch "0") <=? u64_max then (value + (c - ch "0"), has_overflowed)
          else (value, true) in
        _ ← advance;
        decimal_digits_loop fuel' value has_overflowed
      else mret (if has_overflowed then None else Some value)
  end.

Definition parse_decimal_digits : L (option Z) :=
  c ← current;
  if negb (is_decimal_digit c) then unexpected_here
  else n ← remaining; decimal_digits_loop n 0 false.

(** [parse_hex2_digits] and [parse_hex4_digits]: the accumulator of at most four
    digits fits its type. *)
Fixpoint hex_digits_loop (digits : nat) (start_pos value : Z) : L Z :=
  match digits with
  | O => mret value
  | Datatypes.S digits' =>
      c ← current;
      match get_hex_value c with
      | Some hex_value =>
          _ ← advance;
          hex_digits_loop digits' start_pos (Z.shiftl value 4 + hex_value)
      | None => error start_pos MalformedEscapeSeqence
      end
  end.
Definition parse_hex2_digits (start_pos : Z) : L Z := hex_digits_loop 2 start_pos 0.
Definition parse_hex4_digits (start_pos : Z) : L Z := hex_digits_loop 4 start_pos 0.

(** ** Escape sequences *)

(** The digits of [\u{...}]; the value before a shift is at most 0x10FFFF. *)
Fixpoint braced_hex_loop (fuel : nat) (start_pos value : Z) : L Z :=
  match fuel with
  | O => out_of_fuel
  | Datatypes.S fuel' =>
      c ← current;
      if c =? ch "}" then mret value
      else
        match get_hex_value c with
        | Some hex_value =>
            _ ← advance;
            let value := Z.shiftl value 4 + hex_value in
            if 0x10FFFF <? value then error start_pos MalformedEscapeSeqence
            else braced_hex_loop fuel' start_pos value
        | None => error start_pos MalformedEscapeSeqence
        end
  end.

Definition parse_regex_unicode_escape_sequence (is_unicode_aware : bool) : L Z :=
  start_pos ← pos;
  _ ← advance;
  after_slash_state ← save;
  _ ← expect "u";
  brace ← eat "{";
  if (brace : bool) then
    if negb is_unicode_aware then _ ← restore after_slash_state; mret (ch "u")
    else
      empty ← eat "}";
      if (empty : bool) then error start_pos MalformedEscapeSeqence
      else
        n ← remaining;
        value ← braced_hex_loop n start_pos 0;
        _ ← expect "}";
        mret value
  else
    code_unit ← parse_hex4_digits start_pos;
    if negb is_unicode_aware then mret code_unit
    else
      c ← current;
      next ← peek;
      if is_high_surrogate_code_unit code_unit && (c =? ch "\") && (next =? ch "u") then
        save_state ← save;
        _ ← advance2;
        next_code_unit ← parse_hex4_digits start_pos;
        if is_low_surrogate_code_unit next_code_unit
        then mret (code_point_from_surrogate_pair code_unit next_code_unit)
        else _ ← restore save_state; mret code_unit
      else mret code_unit.

(** A legacy octal escape, after its first digit is known. *)
Definition legacy_octal_escape (first_digit : Z) : L Z :=
  octal_value ← liftL (unwrap (get_octal_value first_digit));
  _ ← advance2;
  c ← current;
  octal_value ← match get_octal_value c with
                | Some next_digit => _ ← advance; mret (octal_value * 8 + next_digit)
                | None => mret octal_value
                end;
  if first_digit <=? ch "3" then
    c ← current;
    match get_octal_value c with
    | Some next_digit => _ ← advance; mret (octal_value * 8 + next_digit)
    | None => mret octal_value
    end
  else mret octal_value.

(** The last case of [parse_regexp_escape_sequence]: an escaped character. *)
Definition identity_escape : L Z :=
  e ← asks id;
  start_pos ← pos;
  _ ← advance;
  if is_unicode_aware e then
    c ← current;
    if one_of "/\^$.*+?()[]{}|" c then _ ← advance; mret c
    else error start_pos MalformedEscapeSeqence
  else
    save_state ← save;
    code_point ← parse_unicode_codepoint;
    let is_identity_escape :=
      if in_annex_b_mode e
      then negb (code_point =? ch "c")
           && negb (parse_named_capture_groups e && (code_point =? ch "k"))
      else negb (is_id_continue_unicode code_point) in
    if is_identity_escape then mret code_point
    else _ ← restore save_state; mret (ch "\").

Definition parse_regexp_escape_sequence : L Z :=
  e ← asks id;
  let legacy := in_annex_b_mode e && negb (is_unicode_aware e) in
  next ← peek;
  next2 ← peek2;
  if next =? ch "u" then
    save_state ← save;
    result ← catch (parse_regex_unicode_escape_sequence (is_unicode_aware e));
    match result with
    | Ok code_point => mret code_point
    | Err err =>
        if legacy then _ ← restore save_state; _ ← advance2; mret (ch "u")
        else question (Err err)
    end
  else if next =? ch "f" then _ ← advance2; mret 0x0C
  else if next =? ch "n" then _ ← advance2; mret 0x0A
  else if next =? ch "r" then _ ← advance2; mret 0x0D
  else if next =? ch "t" then _ ← advance2; mret 0x09
  else if next =? ch "v" then _ ← advance2; mret 0x0B
  else if (next =? ch "c") && is_ascii_alphabetic next2 then
    _ ← advance3; mret (next2 mod 32)
  else if next =? ch "x" then
    start_pos ← pos;
    _ ← advance2;
    save_state ← save;
    result ← catch (parse_hex2_digits start_pos);
    match result with
    | Ok code_point => mret code_point
    | Err err =>
        if legacy then _ ← restore save_state; mret (ch "x")
        else question (Err err)
    end
  else if (next =? ch "0") && negb (is_decimal_digit next2) then _ ← advance2; mret 0
  else if between "0" "7" next && legacy then legacy_octal_escape next
  else identity_escape.

(** ** Names *)

(** A code point of an identifier; outside of unicode mode, surrogates of the
    input are joined here. *)
Definition identifier_code_point : L Z :=
  e ← asks id;
  code_point ← parse_unicode_codepoint;
  if negb (is_unicode_aware e) && is_high_surrogate_code_point code_point then
    next_code_point ← parse_unicode_codepoint;
    if is_low_surrogate_code_point next_code_point
    then mret (code_point_from_surrogate_pair code_point next_code_point)
    else mret code_point
  else mret code_point.

Fixpoint identifier_loop (fuel : nat) (string_builder : AstStr) : L AstStr :=
  match fuel with
  | O => out_of_fuel
  | Datatypes.S fuel' =>
      c ← current;
      if c =? ch "\" then
        code_point ← parse_regex_unicode_escape_sequence true;
        id ← liftL (as_id_part code_point);
        match id with
        | Some char => identifier_loop fuel' (string_builder ++ [char])
        | None => unexpected_here
        end
      else
        save_state ← save;
        code_point ← identifier_code_point;
        id ← liftL (as_id_part code_point);
        match id with
        | Some char => identifier_loop fuel' (string_builder ++ [char])
        | None => _ ← restore save_state; mret string_builder
        end
  end.

Definition parse_identifier : L AstStr :=
  c ← current;
  code_point ← (if c =? ch "\" then parse_regex_unicode_escape_sequence true
                else identifier_code_point);
  id ← liftL (as_id_start code_point);
  match id with
  | Some char => n ← remaining; identifier_loop n [char]
  | None => unexpected_here
  end.

(** ** Unicode properties *)

Fixpoint property_name_loop (fuel : nat) (string_builder : string) : L string :=
  match fuel with
  | O => out_of_fuel
  | Datatypes.S fuel' =>
      c ← current;
      if is_ascii_alphabetic c || is_decimal_digit c || (c =? ch "_") then
        _ ← advance;
        property_name_loop fuel'
          (string_builder ++ String (ascii_of_N (Z.to_N c)) EmptyString)%string
      else mret string_builder
  end.
Definition parse_unicode_property_name : L string :=
  n ← remaining; property_name_loop n EmptyString.

(** The property of a [name=value] pair; the first name that matches and knows the value. *)
Definition named_property (property_name property_value : string) : option UnicodeProperty :=
  let is_name long short := bool_decide (property_name = long \/ property_name = short) in
  let category :=
    if is_name "General_Category"%string "gc"%string then GeneralCategory <$> Category.parse property_value
    else None in
  let script with_extensions :=
    ScriptClass <$> ScriptProperty_parse property_value with_extensions in
  match category with
  | Some property => Some property
  | None =>
      match (if is_name "Script"%string "sc"%string then script false else None) with
      | Some property => Some property
      | None => if is_name "Script_Extensions"%string "scx"%string then script true else None
      end
  end.

(** A property given by its name alone. *)
Definition single_property (property_name : string) : option UnicodeProperty :=
  match Binary.parse property_name with
  | Some property => Some (BinaryProperty property)
  | None =>
      match Strings.parse property_name with
      | Some property => Some (BinaryPropertyOfStrings property)
      | None => GeneralCategory <$> Category.parse property_name
      end
  end.

Definition parse_unicode_property : L UnicodeProperty :=
  start_pos ← pos;
  property_name ← parse_unicode_property_name;
  has_value ← eat "=";
  property ← (if (has_value : bool) then
                property_value ← parse_unicode_property_name;
                mret (named_property property_name property_value)
              else mret (single_property property_name));
  match property with
  | Some property => mret property
  | None => error start_pos InvalidUnicodeProperty
  end.

Definition error_if_property_not_allowed (property : UnicodeProperty) (pos : Z) : L unit :=
  e ← asks id;
  if is_property_of_strings property && negb (Flags.has_unicode_sets_flag (env_flags e))
  then error pos UnicodePropertyOfStringsDisallowedInMode
  else mret tt.

Definition error_if_property_cannot_be_inverted (property : UnicodeProperty) (pos : Z) : L unit :=
  if is_property_of_strings property then error pos InvertedUnicodePropertyOfStrings else mret tt.

(** [\p{...}] and [\P{...}], the same in terms and in classes. *)
Definition parse_property_escape (inverted : bool) : L ClassRange :=
  _ ← advance2;
  _ ← expect "{";
  property_pos ← pos;
  property ← parse_unicode_property;
  _ ← (if inverted then error_if_property_cannot_be_inverted property property_pos
       else error_if_property_not_allowed property property_pos);
  _ ← expect "}";
  mret (if inverted then NotPropertyClass property else PropertyClass property).

(** ** Character classes outside of [v] mode *)

Definition parse_class_atom : L ClassRange :=
  e ← asks id;
  c ← current;
  if c =? ch "\" then
    next ← peek;
    if next =? ch "w" then _ ← advance2; mret Word
    else if next =? ch "W" then _ ← advance2; mret NotWord
    else if next =? ch "d" then _ ← advance2; mret Digit
    else if next =? ch "D" then _ ← advance2; mret NotDigit
    else if next =? ch "s" then _ ← advance2; mret Whitespace
    else if next =? ch "S" then _ ← advance2; mret NotWhitespace
    else if next =? ch "b" then _ ← advance2; mret (Single 0x08)
    else if (next =? ch "-") && is_unicode_aware e then _ ← advance2; mret (Single (ch "-"))
    else if (next =? ch "c") && in_annex_b_mode e then
      next2 ← peek2;
      if (is_decimal_digit next2 || (next2 =? ch "_")) && negb (is_unicode_aware e) then
        _ ← advance2;
        c ← current;
        _ ← advance;
        mret (Single (c mod 32))
      else _ ← advance; mret (Single (ch "\"))
    else if (next =? ch "p") && is_unicode_aware e then parse_property_escape false
    else if (next =? ch "P") && is_unicode_aware e then parse_property_escape true
    else code_point ← parse_regexp_escape_sequence; mret (Single code_point)
  else code_point ← parse_unicode_codepoint; mret (Single code_point).

(** The error is a value: outside of unicode mode it is discarded. *)
Definition class_atom_to_range_bound (atom : ClassRange) : L (ParseResult Z) :=
  match atom with
  | Single code_point => mret (Ok code_point)
  | Range _ _ => liftL Panicked
  | _ => catch (p ← pos; error p RegExpCharacterClassInRange)
  end.

Fixpoint standard_class_loop (fuel : nat) (ranges : list ClassRange) : L (list ClassRange) :=
  match fuel with
  | O => out_of_fuel
  | Datatypes.S fuel' =>
      close ← eat "]";
      if (close : bool) then mret ranges
      else
        e ← asks id;
        atom_start_pos ← pos;
        atom ← parse_class_atom;
        dash ← eat "-";
        if (dash : bool) then
          close ← eat "]";
          if (close : bool) then mret (ranges ++ [atom; Single (ch "-")])
          else
            end_atom ← parse_class_atom;
            start_result ← class_atom_to_range_bound atom;
            end_result ← class_atom_to_range_bound end_atom;
            let both_ok := match start_result, end_result with Ok _, Ok _ => true | _, _ => false end in
            if in_annex_b_mode e && negb (is_unicode_aware e) && negb both_ok
            then standard_class_loop fuel' (ranges ++ [atom; Single (ch "-"); end_atom])
            else
              start ← question start_result;
              end_ ← question end_result;
              if end_ <? start then error atom_start_pos InvalidCharacterClassRange
              else standard_class_loop fuel' (ranges ++ [Range start end_])
        else standard_class_loop fuel' (ranges ++ [atom])
  end.

Definition parse_standard_character_class : L CharacterClass :=
  _ ← advance;
  is_inverted ← eat "^";
  n ← remaining;
  ranges ← standard_class_loop n [];
  mret (mkClass Union is_inverted ranges).

(** ** Character classes of [v] mode *)

Definition is_at_class_intersection_operator : L bool :=
  c ← current; next ← peek; next2 ← peek2;
  mret ((c =? ch "&") && (next =? ch "&") && negb (next2 =? ch "&")).

Definition is_at_class_difference_operator : L bool :=
  c ← current; next ← peek;
  mret ((c =? ch "-") && (next =? ch "-")).

Definition is_at_class_set_reserved_double_punctuator : L bool :=
  c ← current; next ← peek;
  mret (one_of "&!#$%*+,.:;<=>?@^`~" c && (next =? c)).

Definition parse_class_set_character_reserved_syntax : L (option Z) :=
  c ← current;
  if c =? ch "\" then
    next ← peek;
    if one_of "&-!#%,:;<=>@`~" next then _ ← advance2; mret (Some next) else mret None
  else if one_of "()[]{}/-|" c then unexpected_here
  else
    double ← is_at_class_set_reserved_double_punctuator;
    if (double : bool) then _ ← advance; unexpected_here else mret None.

Definition parse_class_set_character : L Z :=
  reserved ← parse_class_set_character_reserved_syntax;
  match reserved with
  | Some code_point => mret code_point
  | None =>
      c ← current;
      if c =? ch "\" then
        next ← peek;
        if next =? ch "b" then _ ← advance2; mret 0x08 else parse_regexp_escape_sequence
      else parse_unicode_codepoint
  end.

(** [string.push] panics above the last code point. *)
Definition push_code_point (string : AstStr) (code_point : Z) : L AstStr :=
  if (0 <=? code_point) && (code_point <=? MAX_CODE_POINT) then mret (string ++ [code_point])
  else liftL Panicked.

Fixpoint string_alternative_loop (fuel : nat) (string : AstStr) (num_code_points : Z)
    : L (AstStr * Z) :=
  match fuel with
  | O => out_of_fuel
  | Datatypes.S fuel' =>
      c ← current;
      if negb (c =? ch "|") && negb (c =? ch "}") then
        code_point ← parse_class_set_character;
        string ← push_code_point string code_point;
        string_alternative_loop fuel' string (num_code_points + 1)
      else mret (string, num_code_points)
  end.
Definition parse_string_disjunction_alternative : L (AstStr * Z) :=
  n ← remaining; string_alternative_loop n [] 0.

Fixpoint string_disjunction_loop (fuel : nat) (alternatives : list AstStr)
    (may_contain_strings : bool) : L (list AstStr * bool) :=
  match fuel with
  | O => out_of_fuel
  | Datatypes.S fuel' =>
      c ← current;
      if c =? ch "}" then mret (alternatives, may_contain_strings)
      else
        '(alternative, len) ← parse_string_disjunction_alternative;
        let alternatives :=
          if bool_decide (alternative = []) then alternatives else alternatives ++ [alternative] in
        let may_contain_strings := may_contain_strings || negb (len =? 1) in
        bar ← eat "|";
        if negb bar then mret (alternatives, may_contain_strings)
        else
          c ← current;
          if c =? ch "}" then mret (alternatives, true)
          else string_disjunction_loop fuel' alternatives may_contain_strings
  end.

Definition parse_string_disjunction : L (list AstStr * bool) :=
  _ ← advance2;
  _ ← expect "{";
  c ← current;
  n ← remaining;
  result ← string_disjunction_loop n [] (c =? ch "}");
  _ ← expect "}";
  mret result.

(** The methods that parse a nested class take the method itself, [nested]. *)
Section Nested.

Variable nested : L (CharacterClass * bool).

Definition parse_class_set_operand : L (ClassRange * bool) :=
  c ← current;
  if c =? ch "[" then
    '(nested_class, may_contain_strings) ← nested;
    mret (NestedClass nested_class, may_contain_strings)
  else
    reserved ← parse_class_set_character_reserved_syntax;
    match reserved with
    | Some code_point => mret (Single code_point, false)
    | None =>
        c ← current;
        next ← peek;
        if (c =? ch "\") && (next =? ch "q") then
          '(alternatives, may_contain_strings) ← parse_string_disjunction;
          mret (StringDisjunction alternatives, may_contain_strings)
        else
          atom ← parse_class_atom;
          mret (atom, match atom with
                      | PropertyClass property => is_property_of_strings property
                      | _ => false
                      end)
    end.

Definition parse_unicode_sets_character_class_range (start_operand : ClassRange)
    (operand_start_pos : Z) : L ClassRange :=
  _ ← advance;
  '(end_operand, _) ← parse_class_set_operand;
  start ← class_atom_to_range_bound start_operand ≫= question;
  end_ ← class_atom_to_range_bound end_operand ≫= question;
  if end_ <? start then error operand_start_pos InvalidCharacterClassRange
  else mret (Range start end_).

Fixpoint intersection_loop (fuel : nat) (operands : list ClassRange) (may_contain_strings : bool)
    : L (list ClassRange * bool) :=
  match fuel with
  | O => out_of_fuel
  | Datatypes.S fuel' =>
      at_operator ← is_at_class_intersection_operator;
      if (at_operator : bool) then
        _ ← advance2;
        '(operand, operand_may_contain_strings) ← parse_class_set_operand;
        intersection_loop fuel' (operands ++ [operand])
          (may_contain_strings && operand_may_contain_strings)
      else mret (operands, may_contain_strings)
  end.

Fixpoint difference_loop (fuel : nat) (operands : list ClassRange) : L (list ClassRange) :=
  match fuel with
  | O => out_of_fuel
  | Datatypes.S fuel' =>
      at_operator ← is_at_class_difference_operator;
      if (at_operator : bool) then
        _ ← advance2;
        '(operand, _) ← parse_class_set_operand;
        difference_loop fuel' (operands ++ [operand])
      else mret operands
  end.

Fixpoint union_loop (fuel : nat) (operands : list ClassRange) (may_contain_strings : bool)
    : L (list ClassRange * bool) :=
  match fuel with
  | O => out_of_fuel
  | Datatypes.S fuel' =>
      c ← current;
      if negb (c =? ch "]") then
        operand_start_pos ← pos;
        '(operand, operand_has_strings) ← parse_class_set_operand;
        let may_contain_strings := may_contain_strings || operand_has_strings in
        c ← current;
        if c =? ch "-" then
          range ← parse_unicode_sets_character_class_range operand operand_start_pos;
          union_loop fuel' (operands ++ [range]) may_contain_strings
        else union_loop fuel' (operands ++ [operand]) may_contain_strings
      else mret (operands, may_contain_strings)
  end.

(** The operands after the first one. *)
Definition class_set_operands (first_operand : ClassRange) (first_may_contain_strings : bool)
    (first_operand_pos : Z) : L (ClassExpressionType * list ClassRange * bool) :=
  n ← remaining;
  intersection ← is_at_class_intersection_operator;
  difference ← is_at_class_difference_operator;
  c ← current;
  if (intersection : bool) then
    '(operands, may_contain_strings) ← intersection_loop n [first_operand] true;
    mret (Intersection, operands, may_contain_strings)
  else if (difference : bool) then
    operands ← difference_loop n [first_operand];
    mret (Difference, operands, first_may_contain_strings)
  else if c =? ch "]" then mret (Union, [first_operand], first_may_contain_strings)
  else
    operands ← (if c =? ch "-" then
                  range ← parse_unicode_sets_character_class_range first_operand first_operand_pos;
                  mret [range]
                else mret [first_operand]);
    '(operands, may_contain_strings) ← union_loop n operands false;
    mret (Union, operands, may_contain_strings).

Definition unicode_sets_character_class_body : L (CharacterClass * bool) :=
  _ ← advance;
  is_inverted ← eat "^";
  empty ← eat "]";
  if (empty : bool) then mret (mkClass Union is_inverted [], false)
  else
    first_operand_pos ← pos;
    '(first_operand, first_may_contain_strings) ← parse_class_set_operand;
    '(expression_type, operands, may_contain_strings) ←
      class_set_operands first_operand first_may_contain_strings first_operand_pos;
    _ ← expect "]";
    if may_contain_strings && is_inverted
    then error first_operand_pos InvertedCharacterClassContainStrings
    else mret (mkClass expression_type is_inverted operands, may_contain_strings).

End Nested.

(** The depth of nested classes; each consumes its bracket. *)
Fixpoint unicode_sets_character_class (fuel : nat) : L (CharacterClass * bool) :=
  match fuel with
  | O => out_of_fuel
  | Datatypes.S fuel' => unicode_sets_character_class_body (unicode_sets_character_class fuel')
  end.
Definition parse_unicode_sets_character_class : L (CharacterClass * bool) :=
  n ← remaining; unicode_sets_character_class n.

(** ** Quantifiers *)

Definition parse_braced_quantifier : L (Z * option Z) :=
  _ ← advance;
  lower_bound_pos ← pos;
  lower_bound ← parse_decimal_digits;
  match lower_bound with
  | None => error lower_bound_pos QuantifierBoundTooLarge
  | Some lower_bound =>
      comma ← eat ",";
      upper_bound ← (if (comma : bool) then
                       c ← current;
                       if c =? ch "}" then mret None else parse_decimal_digits
                     else mret (Some lower_bound));
      _ ← expect "}";
      mret (lower_bound, upper_bound)
  end.

(** The bounds of a quantifier: [None] without one, [Some None] when a braced
    quantifier of Annex B mode is taken back. *)
Definition quantifier_bounds : L (option (option (Z * option Z))) :=
  e ← asks id;
  quantifier_pos ← pos;
  c ← current;
  if c =? ch "*" then _ ← advance; mret (Some (Some (0, None)))
  else if c =? ch "+" then _ ← advance; mret (Some (Some (1, None)))
  else if c =? ch "?" then _ ← advance; mret (Some (Some (0, Some 1)))
  else if c =? ch "{" then
    save_state ← save;
    bounds ← (if in_annex_b_mode e then
                result ← catch parse_braced_quantifier;
                match result with
                | Ok bounds => mret (Some bounds)
                | Err _ => _ ← restore save_state; mret None
                end
              else bounds ← parse_braced_quantifier; mret (Some bounds));
    match bounds with
    | Some (lower_bound, Some upper_bound) =>
        if upper_bound <? lower_bound then error quantifier_pos InvalidQuantifierBounds
        else mret (Some bounds)
    | _ => mret (Some bounds)
    end
  else mret None.

(** Assertions that may not be repeated. *)
Definition is_quantifiable (e : Env) (term : Term) : bool :=
  match term with
  | LookaroundTerm is_ahead _ _ => is_ahead && negb (is_unicode_aware e)
  | AssertionTerm _ => false
  | _ => true
  end.

Definition parse_quantifier (term : Term) : L Term :=
  e ← asks id;
  quantifier_pos ← pos;
  bounds_opt ← quantifier_bounds;
  match bounds_opt with
  | Some (Some (min, max)) =>
      lazy ← eat "?";
      if negb (is_quantifiable e term) then error quantifier_pos NonQuantifiableAssertion
      else mret (QuantifierTerm term min max (negb lazy))
  | Some None | None => mret term
  end.

(** ** Modifiers of a group *)

Fixpoint modifiers_loop (fuel : nat) (modifiers : RegExpFlags) : L RegExpFlags :=
  match fuel with
  | O => out_of_fuel
  | Datatypes.S fuel' =>
      c ← current;
      let add (flag : RegExpFlags) (present : bool) : L RegExpFlags :=
        if present then p ← pos; error p DuplicateRegExpModifier
        else _ ← advance; modifiers_loop fuel' (Flags.union modifiers flag) in
      if c =? ch "i" then add Flags.IGNORE_CASE (Flags.is_case_insensitive modifiers)
      else if c =? ch "m" then add Flags.MULTILINE (Flags.is_multiline modifiers)
      else if c =? ch "s" then add Flags.DOT_ALL (Flags.is_dot_all modifiers)
      else mret modifiers
  end.
Definition parse_modifiers : L RegExpFlags := n ← remaining; modifiers_loop n 0.

(** The modifiers between [(?] and [:]. *)
Definition parse_group_modifiers : L (RegExpFlags * RegExpFlags) :=
  modifier_start_pos ← pos;
  positive_modifiers ← parse_modifiers;
  dash ← eat "-";
  negative_modifiers ←
    (if (dash : bool) then
       negative_modifiers ← parse_modifiers;
       if Flags.is_empty positive_modifiers && Flags.is_empty negative_modifiers
       then error modifier_start_pos EmptyRegExpModifiers
       else mret negative_modifiers
     else mret 0);
  if negb (Flags.is_empty (Flags.intersection positive_modifiers negative_modifiers))
  then error modifier_start_pos DuplicateRegExpModifier
  else _ ← expect ":"; mret (positive_modifiers, negative_modifiers).

(** ** Flags of a regular expression *)

Fixpoint flags_loop (fuel : nat) (flags : RegExpFlags) : L RegExpFlags :=
  match fuel with
  | O => out_of_fuel
  | Datatypes.S fuel' =>
      at_end ← is_end;
      if (at_end : bool) then mret flags
      else
        c ← current;
        p ← pos;
        let add (flag : RegExpFlags) : L RegExpFlags :=
          if negb (Flags.contains flags flag)
          then _ ← advance; flags_loop fuel' (Flags.union flags flag)
          else error p DuplicateRegExpFlag in
        if c =? ch "d" then add Flags.HAS_INDICES
        else if c =? ch "g" then add Flags.GLOBAL
        else if c =? ch "i" then add Flags.IGNORE_CASE
        else if c =? ch "m" then add Flags.MULTILINE
        else if c =? ch "s" then add Flags.DOT_ALL
        else if c =? ch "u" then add Flags.UNICODE_AWARE
        else if c =? ch "v" then add Flags.UNICODE_SETS
        else if c =? ch "y" then add Flags.STICKY
        else error p InvalidRegExpFlag
  end.

Definition parse_flags : L RegExpFlags :=
  n ← remaining;
  flags ← flags_loop n 0;
  p ← pos;
  if Flags.has_simple_unicode_flag flags && Flags.has_unicode_sets_flag flags
  then error p MultipleUnicodeFlags
  else mret flags.

End Lexical.
