(* ===== verification/RegExpLexicalCorrect.v ===== *)
(** The lexical methods of the RegExp parser return.

    [returns o m e s P]: run from the stream [s], the method [m] neither panics nor
    runs out of fuel, the stream stays over the same buffer at or after the
    position of [o], and a result satisfies [P].  The origin [o] lets a method
    restore a state that it saved.  Each method has a lemma [..._returns]; the
    lemmas of the hint database [lexical] compose them. *)

From Stdlib Require Import Ascii String.
From S2P Require Import Prelude Unicode LexerStream UnicodeProperty ParseStream Characters RegExpSyntax.
From S2P Require Import RegExpLexical.

#[local] Open Scope bool_scope.

Create HintDb lexical.

Section Returns.

Context `{IcuData} `{!IcuLaws _} {S : Type} `{ParseStreamLaws S}.

#[local] Abbreviation L := (L S).

(** The stream moved forward over the same buffer. *)
Record moves (s s' : S) : Prop := {
  moves_ok : in_ok s';
  moves_same : in_same s s';
  moves_len : in_len s' = in_len s;
  moves_pos : in_pos s <= in_pos s';
}.

Lemma moves_refl s : in_ok s -> moves s s.
Proof. by split. Qed.

Lemma moves_trans s1 s2 s3 : moves s1 s2 -> moves s2 s3 -> moves s1 s3.
Proof.
  intros [? E1 ? ?] [? E2 ? ?]. split; [done|by rewrite E1|congruence|lia].
Qed.

Definition returns {A} (o : S) (m : L A) (e : Env) (s : S) (P : A -> S -> Prop) : Prop :=
  match m e s with
  | Done (r, s') => moves o s' /\ forall a, r = Ok a -> P a s'
  | _ => False
  end.

Lemma returns_weaken {A} o (m : L A) e s P Q :
  returns o m e s P -> (forall a s', moves o s' -> P a s' -> Q a s') -> returns o m e s Q.
Proof.
  unfold returns. intros Hm Hq. destruct (m e s) as [[r s']| | |]; try done. destruct Hm as [? Hp]. eauto.
Qed.

(** A specification of a method from its own origin, used at another one. *)
Lemma returns_from {A} o (m : L A) e s P :
  moves o s -> returns s m e s P -> returns o m e s (fun a s' => moves s s' /\ P a s').
Proof.
  unfold returns. intros Ho Hm. destruct (m e s) as [[r s']| | |]; try done.
  destruct Hm as [? Hp]. split; [by eapply moves_trans|]. eauto.
Qed.

Lemma returns_bind {A B} o (m : L A) (f : A -> L B) e s P Q :
  returns o m e s P -> (forall a s', moves o s' -> P a s' -> returns o (f a) e s' Q) ->
  returns o (m ≫= f) e s Q.
Proof.
  unfold returns. intros Hm Hf. change ((m ≫= f) e s) with
    (match m e s with
     | Done (Ok a, s') => f a e s' | Done (Err x, s') => Done (Err x, s')
     | Panicked => Panicked | Faulted => Faulted | OutOfFuel => OutOfFuel end).
  destruct (m e s) as [[[a|x] s']| | |]; try done; destruct Hm as [Hs Hp]; [by apply Hf; auto|].
  by split.
Qed.

(** Calls in the middle and at the end of a method. *)
Lemma returns_call {A B} o (m : L A) (f : A -> L B) e s P Q :
  moves o s -> returns s m e s P ->
  (forall a s', moves o s' -> moves s s' -> P a s' -> returns o (f a) e s' Q) ->
  returns o (m ≫= f) e s Q.
Proof.
  intros Ho Hm Hf. eapply returns_bind; [by apply returns_from|]. cbn. naive_solver.
Qed.

Lemma returns_tail {A} o (m : L A) e s (P Q : A -> S -> Prop) :
  moves o s -> returns s m e s P -> (forall a s', moves s s' -> P a s' -> Q a s') -> returns o m e s Q.
Proof.
  intros Ho Hm Hq. eapply returns_weaken; [by apply returns_from|]. cbn. naive_solver.
Qed.

Lemma returns_ret {A} o (a : A) e s (P : A -> S -> Prop) : moves o s -> P a s -> returns o (mret a) e s P.
Proof. intros Ho Ha. split; [done|]. by intros ? [= <-]. Qed.

Lemma returns_ret_bind {A B} o (a : A) (f : A -> L B) e s Q :
  returns o (f a) e s Q -> returns o (mret a ≫= f) e s Q.
Proof. done. Qed.

Lemma returns_error {A} o p err e s (P : A -> S -> Prop) : moves o s -> returns o (error p err) e s P.
Proof. intros Ho. by split. Qed.

Lemma returns_asks {A B} o (g : Env -> A) (f : A -> L B) e s Q :
  returns o (f (g e)) e s Q -> returns o (asks g ≫= f) e s Q.
Proof. done. Qed.
Lemma returns_pos {B} o (f : Z -> L B) e s Q :
  returns o (f (in_pos s)) e s Q -> returns o (pos ≫= f) e s Q.
Proof. done. Qed.
Lemma returns_current {B} o (f : Z -> L B) e s Q :
  returns o (f (in_current s)) e s Q -> returns o (current ≫= f) e s Q.
Proof. done. Qed.
Lemma returns_is_end {B} o (f : bool -> L B) e s Q :
  returns o (f (in_is_end s)) e s Q -> returns o (is_end ≫= f) e s Q.
Proof. done. Qed.
Lemma returns_save {B} o (f : _ -> L B) e s Q :
  returns o (f (in_save s)) e s Q -> returns o (save ≫= f) e s Q.
Proof. done. Qed.
Lemma returns_remaining {B} o (f : nat -> L B) e s Q :
  (forall n, in_len s - in_pos s < Z.of_nat n -> returns o (f n) e s Q) ->
  returns o (remaining ≫= f) e s Q.
Proof. intros Hf. exact (Hf (Nat.succ (Z.to_nat (in_len s - in_pos s))) ltac:(rewrite Nat2Z.inj_succ; lia)). Qed.

Lemma returns_question {A B} o (r : ParseResult A) (f : A -> L B) e s Q :
  moves o s -> (forall a, r = Ok a -> returns o (f a) e s Q) -> returns o (question r ≫= f) e s Q.
Proof. intros Ho Hf. destruct r as [a|x]; [by apply Hf|]. by split. Qed.

Lemma returns_question_tail {A} o (r : ParseResult A) e s (P : A -> S -> Prop) :
  moves o s -> (forall a, r = Ok a -> P a s) -> returns o (question r) e s P.
Proof. by split. Qed.

Lemma returns_catch {A B} o (m : L A) (f : ParseResult A -> L B) e s P Q :
  moves o s -> returns s m e s P ->
  (forall r s', moves o s' -> moves s s' -> (forall a, r = Ok a -> P a s') -> returns o (f r) e s' Q) ->
  returns o (catch m ≫= f) e s Q.
Proof.
  intros Ho Hm Hf. unfold returns in Hm |- *.
  change ((catch m ≫= f) e s) with
    (match ('(r, s') ← m e s; Done (Ok r, s')) with
     | Done (Ok a, s') => f a e s' | Done (Err x, s') => Done (Err x, s')
     | Panicked => Panicked | Faulted => Faulted | OutOfFuel => OutOfFuel end).
  destruct (m e s) as [[r s']| | |]; try done. destruct Hm as [Hs Hp]. cbn [mbind outcome_bind].
  apply Hf; [by eapply moves_trans|done|done].
Qed.

Lemma returns_restore {B} o s0 (f : unit -> L B) e s Q :
  moves o s0 -> moves o s -> returns o (f tt) e s0 Q ->
  returns o (restore (in_save s0) ≫= f) e s Q.
Proof.
  intros Ho Hs Hf. unfold returns.
  change ((restore (in_save s0) ≫= f) e s) with (f tt e (in_restore s (in_save s0))).
  rewrite (in_restore_save s0 s); [done|apply Ho|apply Hs|].
  by rewrite <- (moves_same _ _ Ho), <- (moves_same _ _ Hs).
Qed.

Lemma advance_moves s n : in_ok s -> 0 <= n ->
  exists s', in_advance_n s n = Done s' /\ moves s s' /\ in_pos s' = Z.min (in_len s) (in_pos s + n).
Proof.
  intros Hs Hn. destruct (in_advance_ok s n Hs Hn) as (s' & E & Hok & Hsame & Hp).
  exists s'. split; [done|]. split; [|done]. pose proof (in_pos_range s Hs).
  split; [done|done|by apply in_same_len|lia].
Qed.

Lemma returns_advance_n {B} o n (f : unit -> L B) e s Q :
  moves o s -> 0 <= n ->
  (forall s', moves o s' -> moves s s' -> in_advance_n s n = Done s' ->
     in_pos s' = Z.min (in_len s) (in_pos s + n) -> returns o (f tt) e s' Q) ->
  returns o (advance_n n ≫= f) e s Q.
Proof.
  intros Ho Hn Hf. destruct (advance_moves s n (moves_ok _ _ Ho) Hn) as (s' & E & Hm & Hp).
  unfold returns. change ((advance_n n ≫= f) e s) with
    (match (s' ← in_advance_n s n; Done (Ok tt, s')) with
     | Done (Ok a, s') => f a e s' | Done (Err x, s') => Done (Err x, s')
     | Panicked => Panicked | Faulted => Faulted | OutOfFuel => OutOfFuel end).
  rewrite E. cbn [mbind outcome_bind]. apply Hf; try done. by eapply moves_trans.
Qed.

Lemma returns_peek_n {B} o n (f : Z -> L B) e s Q :
  moves o s -> 0 <= n ->
  (forall c, in_peek_n s n = Done c -> 0 <= c <= EOF_CHAR -> returns o (f c) e s Q) ->
  returns o (peek_n n ≫= f) e s Q.
Proof.
  intros Ho Hn Hf. destruct (in_peek_ok s n (moves_ok _ _ Ho) Hn) as (c & E & Hc).
  unfold returns. change ((peek_n n ≫= f) e s) with
    (match (c ← in_peek_n s n; Done (Ok c, s)) with
     | Done (Ok a, s') => f a e s' | Done (Err x, s') => Done (Err x, s')
     | Panicked => Panicked | Faulted => Faulted | OutOfFuel => OutOfFuel end).
  rewrite E. cbn [mbind outcome_bind]. by apply Hf.
Qed.

(** Before the end there is a current character. *)
Lemma current_before_end s : in_ok s -> in_current s <> EOF_CHAR -> in_pos s < in_len s.
Proof.
  intros Hs Hc. pose proof (in_pos_range s Hs).
  destruct (decide (in_pos s = in_len s)) as [E|]; [|lia]. by apply in_current_eof in E.
Qed.

Lemma returns_expect {B} o c (f : unit -> L B) e s Q :
  moves o s -> (forall s', moves o s' -> moves s s' -> returns o (f tt) e s' Q) ->
  returns o (expect c ≫= f) e s Q.
Proof.
  intros Ho Hf. eapply (returns_bind o (expect c) f e s (fun a s' => moves s s')); [|intros []; eauto].
  unfold expect. apply returns_current. destruct (negb _).
  - unfold unexpected_here. apply returns_pos. by apply returns_error.
  - unfold advance, advance_n, returns. destruct (advance_moves s 1 (moves_ok _ _ Ho)) as (s' & E & Hm & _); [lia|].
    rewrite E. cbn [mbind outcome_bind]. split; [by eapply moves_trans|]. by intros ? _.
Qed.

Lemma returns_eat {B} o c (f : bool -> L B) e s Q :
  moves o s -> returns o (f false) e s Q ->
  (forall s', moves o s' -> moves s s' -> in_current s = ch c -> in_pos s < in_pos s' ->
     returns o (f true) e s' Q) ->
  returns o (eat c ≫= f) e s Q.
Proof.
  intros Ho Hfalse Htrue.
  eapply (returns_bind o (eat c) f e s (fun a s' =>
    if (a : bool) then moves s s' /\ in_current s = ch c /\ in_pos s < in_pos s' else s' = s)).
  - unfold eat. apply returns_current. destruct (Z.eqb_spec (in_current s) (ch c)) as [E|].
    + unfold advance. apply returns_advance_n; [done|lia|]. intros s' Ho' Hm _ Hp.
      apply returns_ret; [done|]. split_and!; [done|done|].
      assert (in_current s <> EOF_CHAR).
      { rewrite E. unfold ch, EOF_CHAR. pose proof (N_ascii_bounded c). lia. }
      pose proof (current_before_end s (moves_ok _ _ Ho)). lia.
    + by apply returns_ret.
  - intros [|] s' Ho' Hp; [by apply Htrue; naive_solver|by subst].
Qed.

Lemma returns_codepoint s e : in_ok s ->
  returns s parse_unicode_codepoint e s (fun c s' => 0 <= c <= MAX_CODE_POINT /\ in_pos s < in_pos s').
Proof.
  intros Hs. unfold returns, parse_unicode_codepoint.
  destruct (in_parse_ok s Hs) as (r & s' & -> & Hok & Hsame & Hp & Hr).
  split; [split; [done|done|by apply in_same_len|lia]|]. by intros a ->.
Qed.

Lemma returns_lift {A B} o (v : A) (f : A -> L B) e s Q :
  returns o (f v) e s Q -> returns o (liftL (Done v) ≫= f) e s Q.
Proof. done. Qed.

Lemma as_id_part_returns {B} o c (f : option Z -> L B) e s Q :
  0 <= c -> (forall r, returns o (f r) e s Q) -> returns o (liftL (as_id_part c) ≫= f) e s Q.
Proof. intros Hc Hf. destruct (as_id_ok c Hc) as [_ (r & -> & _)]. apply Hf. Qed.
Lemma as_id_start_returns {B} o c (f : option Z -> L B) e s Q :
  0 <= c -> (forall r, returns o (f r) e s Q) -> returns o (liftL (as_id_start c) ≫= f) e s Q.
Proof. intros Hc Hf. destruct (as_id_ok c Hc) as [(r & -> & _) _]. apply Hf. Qed.

(** ** Automation *)

(** One step of a method: the primitive operations, conditionals, and calls of
    methods with a lemma in [lexical]. *)
Ltac lx_step :=
  lazymatch goal with
  | |- returns _ (mret _) _ _ _ => apply returns_ret; [assumption|]
  | |- returns _ (error _ _) _ _ _ => apply returns_error; assumption
  | |- returns _ unexpected_here _ _ _ => apply returns_error; assumption
  | |- returns _ (question _) _ _ _ => apply returns_question_tail; [assumption|intros ? ?]
  | |- returns _ (if ?b then _ else _) _ _ _ => let E := fresh "E" in destruct b eqn:E
  | |- returns _ (match ?x with _ => _ end) _ _ _ => let E := fresh "E" in destruct x eqn:E
  | |- returns _ (?m ≫= _) _ _ _ =>
      lazymatch m with
      | mret _ => apply returns_ret_bind
      | asks _ => apply returns_asks
      | pos => apply returns_pos
      | current => apply returns_current
      | is_end => apply returns_is_end
      | save => apply returns_save
      | remaining => apply returns_remaining; intros ? ?
      | advance => apply returns_advance_n; [assumption|lia|intros ? ? ? ? ?]
      | advance2 => apply returns_advance_n; [assumption|lia|intros ? ? ? ? ?]
      | advance3 => apply returns_advance_n; [assumption|lia|intros ? ? ? ? ?]
      | peek => apply returns_peek_n; [assumption|lia|intros ? ? ?]
      | peek2 => apply returns_peek_n; [assumption|lia|intros ? ? ?]
      | expect _ => apply returns_expect; [assumption|intros ? ? ?]
      | eat _ => apply returns_eat; [assumption| |intros ? ? ? ? ?]
      | question _ => apply returns_question; [assumption|intros ? ?]
      | restore _ => apply returns_restore; [assumption|assumption|]
      | error _ _ => apply returns_error; assumption
      | liftL (as_id_part _) => apply as_id_part_returns; [tauto || lia|intros ?]
      | liftL (as_id_start _) => apply as_id_start_returns; [tauto || lia|intros ?]
      | catch _ => eapply returns_catch; [eassumption|solve [eauto with lexical]|let HP := fresh "HP" in intros ? ? ? ? HP; cbn beta in HP]
      | _ => eapply returns_call; [eassumption|solve [eauto with lexical]|let HP := fresh "HP" in intros ? ? ? ? HP; cbn beta in HP]
      end
  | |- returns _ _ _ _ _ => eapply returns_tail; [eassumption|solve [eauto with lexical]|let HP := fresh "HP" in intros ? ? ? HP; cbn beta in HP]
  end; cbn [negb].

(** Facts about the positions that arithmetic needs. *)
Ltac positions :=
  repeat match goal with
    | H : moves ?a ?b |- _ =>
        lazymatch goal with
        | K : in_pos a <= in_pos b |- _ => fail
        | _ => pose proof (moves_pos _ _ H); pose proof (moves_len _ _ H)
        end
    end;
  repeat match goal with
    | H : in_ok ?a |- _ =>
        lazymatch goal with
        | K : 0 <= in_pos a <= in_len a |- _ => fail
        | _ => pose proof (in_pos_range _ H)
        end
    end.

#[local] Hint Resolve moves_ok : lexical.
#[local] Hint Extern 4 (_ <= _ <= _) => lia : lexical.

(** A test against a character shows that the input is not at its end. *)
Ltac not_eof :=
  repeat match goal with H : _ && _ = true |- _ => apply andb_true_iff in H as [? ?] end;
  match goal with E : (in_current ?s =? _) = true |- in_current ?s <> EOF_CHAR =>
    apply Z.eqb_eq in E; rewrite E; chars; unfold EOF_CHAR; lia end.
#[local] Hint Extern 3 (in_current _ <> EOF_CHAR) => not_eof : lexical.

#[local] Hint Extern 4 (_ < Z.of_nat _) =>
  repeat match goal with H : _ /\ _ |- _ => destruct H end; positions; lia : lexical.

(** The facts left at the end of a method. *)
Ltac lx_finish :=
  cbn beta in *; chars; positions; unfold MAX_CODE_POINT, EOF_CHAR in *;
  repeat match goal with H : forall _, Ok ?a = Ok _ -> _ |- _ => specialize (H a eq_refl) end;
  repeat match goal with H : _ /\ _ |- _ => destruct H end;
  repeat match goal with |- _ /\ _ => split end; try assumption; try lia.

(** ** Numbers *)

Lemma decimal_digits_loop_returns fuel : forall e s value overflow,
  in_ok s -> in_len s - in_pos s < Z.of_nat fuel -> 0 <= value <= u64_max ->
  returns s (decimal_digits_loop fuel value overflow) e s
    (fun r s' => forall v, r = Some v -> overflow = false /\ value <= v <= u64_max /\
       (is_decimal_digit (in_current s) = true -> in_current s - 48 <= v /\ in_pos s < in_pos s')).
Proof.
  induction fuel as [|fuel IH]; intros e s value overflow Hs Hf Hv.
  { pose proof (in_pos_range s Hs). lia. }
  pose proof (moves_refl s Hs) as Hr. cbn [decimal_digits_loop]. apply returns_current.
  destruct (is_decimal_digit (in_current s)) eqn:Ed.
  - pose proof (decimal_digit_ascii _ Ed) as Hd. chars.
    assert (Hnext : forall value' overflow', 0 <= value' <= u64_max ->
      (overflow' = false -> overflow = false /\ value <= value' /\ in_current s - 48 <= value') ->
      returns s (advance ≫= fun _ => decimal_digits_loop fuel value' overflow') e s
        (fun r s' => forall v, r = Some v -> overflow = false /\ value <= v <= u64_max /\
           (true = true -> in_current s - 48 <= v /\ in_pos s < in_pos s'))).
    { intros value' overflow' Hv' Ho'. lx_step.
      pose proof (current_before_end s Hs ltac:(unfold EOF_CHAR; lia)). positions.
      eapply returns_tail; [done|apply IH; [by eapply moves_ok|lia|done]|].
      intros r s2 Hm Hp v ->. destruct (Hp v eq_refl) as (-> & ? & _). pose proof (moves_pos _ _ Hm).
      destruct (Ho' eq_refl) as (? & ? & ?). split_and!; [done|lia..]. }
    destruct (Z.leb_spec (value * 10) u64_max); cbn beta iota;
      (match goal with |- context [?a <=? u64_max] => destruct (Z.leb_spec a u64_max) end);
      cbn beta iota; apply Hnext; try lia; intros ->; split_and!; try done; lia.
  - apply returns_ret; [done|]. intros v. destruct overflow; [done|]. intros [= <-].
    split_and!; try done; lia.
Qed.

(** A number has the first digit at least, and is absent above 64 bits. *)
Lemma decimal_digits_returns e s : in_ok s ->
  returns s parse_decimal_digits e s (fun r s' =>
    forall v, r = Some v -> 0 <= v <= u64_max /\ in_current s - 48 <= v).
Proof.
  intros Hs. pose proof (moves_refl s Hs). unfold parse_decimal_digits. repeat lx_step.
  eapply returns_tail; [done|apply decimal_digits_loop_returns; [done..|unfold u64_max; lia]|].
  intros r s' _ Hr v ->. destruct (Hr v eq_refl) as (_ & ? & Hd). split; [done|].
  apply negb_false_iff in E. by destruct (Hd E).
Qed.
#[local] Hint Resolve decimal_digits_returns : lexical.

Lemma hex_digits_loop_returns k : forall e s start value,
  in_ok s -> 0 <= value -> returns s (hex_digits_loop k start value) e s
    (fun r _ => 0 <= r < (value + 1) * 16 ^ Z.of_nat k).
Proof.
  induction k as [|k IH]; intros e s start value Hs Hv; pose proof (moves_refl s Hs);
    cbn [hex_digits_loop]; repeat lx_step; [lia|].
  apply get_hex_range in E as [? _]. rewrite Z.shiftl_mul_pow2 by lia.
  eapply returns_tail; [done|apply IH; [by eapply moves_ok|lia]|]. cbn. intros a ? _ Ha.
  rewrite Nat2Z.inj_succ, Z.pow_succ_r by lia. nia.
Qed.

Lemma hex4_returns e s start : in_ok s -> returns s (parse_hex4_digits start) e s (fun r _ => 0 <= r < 0x10000).
Proof. intros Hs. eapply returns_weaken; [apply hex_digits_loop_returns; [done|lia]|]. by intros. Qed.
Lemma hex2_returns e s start : in_ok s -> returns s (parse_hex2_digits start) e s (fun r _ => 0 <= r < 0x100).
Proof. intros Hs. eapply returns_weaken; [apply hex_digits_loop_returns; [done|lia]|]. by intros. Qed.
#[local] Hint Resolve hex4_returns hex2_returns returns_codepoint : lexical.

(** ** Escape sequences *)

Lemma braced_hex_loop_returns fuel : forall e s start value,
  in_ok s -> in_len s - in_pos s < Z.of_nat fuel -> 0 <= value <= 0x10FFFF ->
  returns s (braced_hex_loop fuel start value) e s (fun r _ => 0 <= r <= 0x10FFFF).
Proof.
  induction fuel as [|fuel IH]; intros e s start value Hs Hf Hv.
  { pose proof (in_pos_range s Hs). lia. }
  pose proof (moves_refl s Hs). cbn [braced_hex_loop]. repeat lx_step; [lia|].
  apply get_hex_range in E0 as [? ?]. apply Z.ltb_ge in E1. rewrite Z.shiftl_mul_pow2 in * by lia.
  pose proof (current_before_end s Hs ltac:(unfold EOF_CHAR; lia)). positions.
  eapply returns_tail; [done|apply IH; [by eapply moves_ok|lia|lia]|]. cbn. lia.
Qed.

#[local] Hint Resolve braced_hex_loop_returns : lexical.

Lemma unicode_escape_returns e s b : in_ok s -> in_current s <> EOF_CHAR ->
  returns s (parse_regex_unicode_escape_sequence b) e s
    (fun c s' => 0 <= c <= MAX_CODE_POINT /\ in_pos s < in_pos s').
Proof.
  intros Hs Hc. pose proof (moves_refl s Hs). pose proof (current_before_end s Hs Hc).
  unfold parse_regex_unicode_escape_sequence. repeat lx_step; try solve [lx_finish].
  apply andb_true_iff in E0 as [[Eh _]%andb_true_iff _].
  pose proof (surrogate_pair_range a a0 Eh E1) as Hr.
  revert Hr. generalize (code_point_from_surrogate_pair a a0). intros v Hr. lx_finish.
Qed.
#[local] Hint Resolve unicode_escape_returns : lexical.

Lemma legacy_octal_returns e s d : in_ok s -> in_current s <> EOF_CHAR -> between "0" "7" d = true ->
  returns s (legacy_octal_escape d) e s (fun c s' => 0 <= c <= MAX_CODE_POINT /\ in_pos s < in_pos s').
Proof.
  intros Hs Hc Hd. pose proof (moves_refl s Hs). pose proof (current_before_end s Hs Hc).
  assert (get_octal_value d = Some (d - ch "0")) as Eo by (unfold get_octal_value; by rewrite Hd).
  rewrite between_spec in Hd. apply bool_decide_eq_true in Hd.
  unfold legacy_octal_escape. rewrite Eo. apply returns_lift.
  lx_step. lx_step.
  eapply (returns_bind _ _ _ _ _ (fun v s1 => 0 <= v < 64 /\ in_pos s < in_pos s1)).
  - repeat lx_step; [|lx_finish]. apply get_octal_range in E as [? ?]. lx_finish.
  - intros v s1 Hm [Hv Hp]. repeat lx_step; try solve [lx_finish].
    apply get_octal_range in E0 as [? ?]. lx_finish.
Qed.
#[local] Hint Resolve legacy_octal_returns : lexical.

Lemma identity_escape_returns e s : in_ok s -> in_current s <> EOF_CHAR ->
  returns s identity_escape e s (fun c s' => 0 <= c <= MAX_CODE_POINT /\ in_pos s < in_pos s').
Proof.
  intros Hs Hc. pose proof (moves_refl s Hs). pose proof (current_before_end s Hs Hc).
  unfold identity_escape. repeat lx_step; try solve [lx_finish].
  apply one_of_ascii in E0. lx_finish.
Qed.
#[local] Hint Resolve identity_escape_returns : lexical.

Lemma escape_returns e s : in_ok s -> in_current s <> EOF_CHAR ->
  returns s parse_regexp_escape_sequence e s (fun c s' => 0 <= c <= MAX_CODE_POINT /\ in_pos s < in_pos s').
Proof.
  intros Hs Hc. pose proof (moves_refl s Hs). pose proof (current_before_end s Hs Hc).
  unfold parse_regexp_escape_sequence. repeat lx_step; try done; try solve [lx_finish].
  - pose proof (Z.mod_pos_bound c0 32). lx_finish.
  - apply andb_true_iff in E8 as [E8 _]. eapply returns_tail; [done|by apply legacy_octal_returns|done].
Qed.
#[local] Hint Resolve escape_returns : lexical.

(** ** Names *)

Lemma identifier_code_point_returns e s : in_ok s ->
  returns s identifier_code_point e s (fun c s' => 0 <= c <= MAX_CODE_POINT /\ in_pos s < in_pos s').
Proof.
  intros Hs. pose proof (moves_refl s Hs). unfold identifier_code_point.
  repeat lx_step; try solve [lx_finish].
  apply andb_true_iff in E as [_ Eh]. pose proof (surrogate_pair_range a a0 Eh E0) as Hr.
  revert Hr. generalize (code_point_from_surrogate_pair a a0). intros v Hr. lx_finish.
Qed.
#[local] Hint Resolve identifier_code_point_returns : lexical.

Lemma identifier_loop_returns fuel : forall e s name,
  in_ok s -> in_len s - in_pos s < Z.of_nat fuel ->
  returns s (identifier_loop fuel name) e s (fun _ _ => True).
Proof.
  induction fuel as [|fuel IH]; intros e s name Hs Hf.
  { pose proof (in_pos_range s Hs). lia. }
  pose proof (moves_refl s Hs). cbn [identifier_loop]. repeat lx_step; done.
Qed.
#[local] Hint Resolve identifier_loop_returns : lexical.

Lemma identifier_returns e s : in_ok s ->
  returns s parse_identifier e s (fun _ s' => in_pos s < in_pos s').
Proof.
  intros Hs. pose proof (moves_refl s Hs). unfold parse_identifier. apply returns_current.
  eapply (returns_bind _ _ _ _ _ (fun c s1 => 0 <= c <= MAX_CODE_POINT /\ in_pos s < in_pos s1)).
  - repeat lx_step; done.
  - intros c s1 Hm [Hc Hp]. repeat lx_step. lx_finish.
Qed.
#[local] Hint Resolve identifier_returns : lexical.

(** ** Unicode properties *)

Lemma property_name_loop_returns fuel : forall e s name,
  in_ok s -> in_len s - in_pos s < Z.of_nat fuel ->
  returns s (property_name_loop fuel name) e s (fun _ _ => True).
Proof.
  induction fuel as [|fuel IH]; intros e s name Hs Hf.
  { pose proof (in_pos_range s Hs). lia. }
  pose proof (moves_refl s Hs). cbn [property_name_loop]. lx_step. lx_step; [|repeat lx_step; done].
  assert (in_current s <> EOF_CHAR).
  { intros Eo. rewrite Eo in E. by vm_compute in E. }
  pose proof (current_before_end s Hs). repeat lx_step; done.
Qed.
#[local] Hint Resolve property_name_loop_returns : lexical.

Lemma property_name_returns e s : in_ok s -> returns s parse_unicode_property_name e s (fun _ _ => True).
Proof. intros Hs. pose proof (moves_refl s Hs). unfold parse_unicode_property_name. by repeat lx_step. Qed.
#[local] Hint Resolve property_name_returns : lexical.

Lemma property_returns e s : in_ok s -> returns s parse_unicode_property e s (fun _ _ => True).
Proof.
  intros Hs. pose proof (moves_refl s Hs). unfold parse_unicode_property. do 2 lx_step.
  assert (Hend : forall s1 (property : option UnicodeProperty), moves s s1 ->
    returns s (match property with
               | Some property => mret property
               | None => error (in_pos s) InvalidUnicodeProperty
               end) e s1 (fun _ _ => True)) by (intros ? ? ?; by repeat lx_step).
  lx_step; [by apply Hend|].
  eapply (returns_bind _ _ _ _ _ (fun _ _ => True)); [by repeat lx_step|]. intros; by apply Hend.
Qed.
#[local] Hint Resolve property_returns : lexical.

Lemma property_escape_returns e s b : in_ok s -> in_current s <> EOF_CHAR ->
  returns s (parse_property_escape b) e s (fun r s' => in_pos s < in_pos s' /\
    match r with PropertyClass _ | NotPropertyClass _ => True | _ => False end).
Proof.
  intros Hs Hc. pose proof (moves_refl s Hs). pose proof (current_before_end s Hs Hc).
  unfold parse_property_escape, error_if_property_cannot_be_inverted, error_if_property_not_allowed.
  do 4 lx_step. destruct b.
  - eapply (returns_bind _ _ _ _ _ (fun _ s1 => in_pos s < in_pos s1)); [|intros [] s1 ? ?];
      repeat lx_step; lx_finish; done.
  - eapply (returns_bind _ _ _ _ _ (fun _ s1 => in_pos s < in_pos s1)); [|intros [] s1 ? ?];
      repeat lx_step; lx_finish; done.
Qed.
#[local] Hint Resolve property_escape_returns : lexical.

(** ** Well-formed classes *)

Definition code_point_in (c : Z) : Prop := 0 <= c <= MAX_CODE_POINT.

Fixpoint range_wf {P} (r : ClassRange P) : Prop :=
  match r with
  | Single c => code_point_in c
  | Range lo hi => code_point_in lo /\ code_point_in hi /\ lo <= hi
  | NestedClass c => class_wf c
  | StringDisjunction l => Forall (fun s => s <> [] /\ Forall code_point_in s) l
  | _ => True
  end
with class_wf {P} (c : CharacterClass P) : Prop :=
  let 'mkClass expression_type _ operands := c in
  (expression_type = Union \/ operands <> []) /\ foldr and True (map range_wf operands).

Lemma class_wf_iff {P} t b (l : list (ClassRange P)) :
  class_wf (mkClass t b l) <-> (t = Union \/ l <> []) /\ Forall range_wf l.
Proof.
  cbn [class_wf]. apply and_iff_compat_l. induction l as [|r l IH]; cbn; [by split; constructor|].
  rewrite Forall_cons. tauto.
Qed.

Lemma union_wf {P} b (l : list (ClassRange P)) : Forall range_wf l -> class_wf (mkClass Union b l).
Proof. intros Hl. apply class_wf_iff. split; [by left|done]. Qed.

(** A class atom is not a range, and moves on. *)
Definition is_range {P} (r : ClassRange P) : bool := match r with Range _ _ => true | _ => false end.

Ltac range_finish := cbn [range_wf is_range]; unfold code_point_in; lx_finish; try done.

Lemma class_atom_returns e s : in_ok s ->
  returns s parse_class_atom e s (fun r s' => in_pos s < in_pos s' /\ range_wf r /\ is_range r = false).
Proof.
  intros Hs. pose proof (moves_refl s Hs). unfold parse_class_atom. do 2 lx_step. lx_step.
  2: { repeat lx_step. range_finish. }
  assert (in_current s <> EOF_CHAR) as Hc by not_eof. pose proof (current_before_end s Hs Hc).
  repeat lx_step; try solve [range_finish].
  1: pose proof (Z.mod_pos_bound (in_current s') 32); range_finish.
  all: destruct HP as [? Hr]; split; [done|]; by destruct a.
Qed.
#[local] Hint Resolve class_atom_returns : lexical.

Lemma range_bound_returns {B} o atom (f : ParseResult Z -> L B) e s Q :
  is_range atom = false -> (forall r, (forall c, r = Ok c -> atom = Single c) -> returns o (f r) e s Q) ->
  returns o (class_atom_to_range_bound atom ≫= f) e s Q.
Proof.
  intros Hr Hf. destruct atom; try done; [by apply Hf; intros ? [= <-]|..];
    exact (Hf (Err (in_error s (in_pos s) RegExpCharacterClassInRange)) ltac:(done)).
Qed.

Lemma standard_class_loop_returns fuel : forall e s ranges,
  in_ok s -> in_len s - in_pos s < Z.of_nat fuel -> Forall range_wf ranges ->
  returns s (standard_class_loop fuel ranges) e s (fun l _ => Forall range_wf l).
Proof.
  induction fuel as [|fuel IH]; intros e s ranges Hs Hf Hw.
  { pose proof (in_pos_range s Hs). lia. }
  assert (Hdash : range_wf (P := UnicodeProperty) (Single (ch "-"))) by (vm_compute; split; discriminate).
  assert (Hnext : forall s1 l, moves s s1 -> in_pos s < in_pos s1 -> Forall range_wf l ->
    returns s (standard_class_loop fuel (ranges ++ l)) e s1 (fun l _ => Forall range_wf l)).
  { intros s1 l Hm Hp Hl. positions.
    eapply returns_tail; [done|apply IH; [by eapply moves_ok|lia|by apply Forall_app]|done]. }
  pose proof (moves_refl s Hs). cbn [standard_class_loop]. lx_step; [|by repeat lx_step].
  lx_step. lx_step. lx_step. destruct HP as (Hp & Hwf & Hr).
  lx_step; [apply Hnext; [done..|by constructor]|]. lx_step; [|lx_step; apply Forall_app; by repeat constructor].
  lx_step. destruct HP as (Hp' & Hwf' & Hr'). positions.
  apply range_bound_returns; [done|]. intros r1 Hb1. apply range_bound_returns; [done|]. intros r2 Hb2.
  lx_step.
  - apply Hnext; [done|lia|by repeat constructor].
  - lx_step. lx_step. lx_step; [lx_step|]. apply Z.ltb_ge in E0.
    rewrite (Hb1 a1) in Hwf by done. rewrite (Hb2 a2) in Hwf' by done.
    apply Hnext; [done|lia|]. constructor; [|by constructor]. cbn. by split_and!.
Qed.
#[local] Hint Resolve standard_class_loop_returns : lexical.

Lemma standard_class_returns e s : in_ok s -> in_current s <> EOF_CHAR ->
  returns s parse_standard_character_class e s (fun c s' => in_pos s < in_pos s' /\ class_wf c).
Proof.
  intros Hs Hc. pose proof (moves_refl s Hs). pose proof (current_before_end s Hs Hc).
  unfold parse_standard_character_class.
  repeat lx_step; (split; [lx_finish|by apply union_wf]).
Qed.
#[local] Hint Resolve standard_class_returns : lexical.

(** ** Classes of [v] mode *)

(** The look-ahead of the operators does not move. *)
Lemma intersection_operator_returns {B} o (f : bool -> L B) e s Q :
  moves o s -> (forall b : bool, (b = true -> in_current s <> EOF_CHAR) -> returns o (f b) e s Q) ->
  returns o (is_at_class_intersection_operator ≫= f) e s Q.
Proof.
  intros Ho Hf.
  eapply (returns_bind _ _ _ _ _ (fun b s' => s' = s /\ (b = true -> in_current s <> EOF_CHAR)));
    [|intros b s' _ [-> Hb]; auto].
  unfold is_at_class_intersection_operator. repeat lx_step. split; [done|]. intros. not_eof.
Qed.

Lemma difference_operator_returns {B} o (f : bool -> L B) e s Q :
  moves o s -> (forall b : bool, (b = true -> in_current s <> EOF_CHAR) -> returns o (f b) e s Q) ->
  returns o (is_at_class_difference_operator ≫= f) e s Q.
Proof.
  intros Ho Hf.
  eapply (returns_bind _ _ _ _ _ (fun b s' => s' = s /\ (b = true -> in_current s <> EOF_CHAR)));
    [|intros b s' _ [-> Hb]; auto].
  unfold is_at_class_difference_operator. repeat lx_step. split; [done|]. intros. not_eof.
Qed.

(** Escaped punctuation is consumed; otherwise the stream stays. *)
Lemma reserved_syntax_returns e s : in_ok s ->
  returns s parse_class_set_character_reserved_syntax e s (fun r s' =>
    match r with Some c => code_point_in c /\ in_pos s < in_pos s' | None => s' = s end).
Proof.
  intros Hs. pose proof (moves_refl s Hs). unfold parse_class_set_character_reserved_syntax.
  repeat lx_step; try done.
  - assert (in_current s <> EOF_CHAR) as Hc by not_eof. pose proof (current_before_end s Hs Hc).
    apply one_of_ascii in E0. unfold code_point_in. lx_finish.
  - unfold is_at_class_set_reserved_double_punctuator.
    eapply (returns_bind _ _ _ _ _ (fun b s' => s' = s)); [by repeat lx_step|]. intros b s' Hm ->.
    by repeat lx_step.
Qed.
#[local] Hint Resolve reserved_syntax_returns : lexical.

Lemma class_set_character_returns e s : in_ok s ->
  returns s parse_class_set_character e s (fun c s' => code_point_in c /\ in_pos s < in_pos s').
Proof.
  intros Hs. pose proof (moves_refl s Hs). unfold parse_class_set_character. lx_step.
  destruct a as [c|]; [by lx_step|]. subst s'. unfold code_point_in.
  repeat lx_step; try done. assert (in_current s <> EOF_CHAR) as Hc by not_eof.
  pose proof (current_before_end s Hs Hc). lx_finish.
Qed.
#[local] Hint Resolve class_set_character_returns : lexical.

Lemma string_alternative_loop_returns fuel : forall e s string num,
  in_ok s -> in_len s - in_pos s < Z.of_nat fuel -> Forall code_point_in string ->
  returns s (string_alternative_loop fuel string num) e s (fun r _ => Forall code_point_in r.1).
Proof.
  induction fuel as [|fuel IH]; intros e s string num Hs Hf Hw.
  { pose proof (in_pos_range s Hs). lia. }
  pose proof (moves_refl s Hs). cbn [string_alternative_loop]. lx_step. lx_step; [|by lx_step].
  lx_step. destruct HP as [Hc Hp]. unfold push_code_point.
  rewrite (proj2 (Z.leb_le 0 a)), (proj2 (Z.leb_le a _)) by apply Hc. cbn [andb]. lx_step. positions.
  eapply returns_tail; [done|apply IH; [by eapply moves_ok|lia|]|done].
  apply Forall_app. split; [done|]. by apply Forall_singleton.
Qed.
#[local] Hint Resolve string_alternative_loop_returns : lexical.

Lemma string_alternative_returns e s : in_ok s ->
  returns s parse_string_disjunction_alternative e s (fun r _ => Forall code_point_in r.1).
Proof.
  intros Hs. pose proof (moves_refl s Hs). unfold parse_string_disjunction_alternative. by repeat lx_step.
Qed.
#[local] Hint Resolve string_alternative_returns : lexical.

Definition string_ok (s : AstStr) : Prop := s <> [] /\ Forall code_point_in s.

Lemma string_disjunction_loop_returns fuel : forall e s l b,
  in_ok s -> in_len s - in_pos s < Z.of_nat fuel -> Forall string_ok l ->
  returns s (string_disjunction_loop fuel l b) e s (fun r _ => Forall string_ok r.1).
Proof.
  induction fuel as [|fuel IH]; intros e s l b Hs Hf Hw.
  { pose proof (in_pos_range s Hs). lia. }
  pose proof (moves_refl s Hs). cbn [string_disjunction_loop]. lx_step. lx_step; [by lx_step|].
  lx_step. destruct a as [alternative len]. cbn [fst] in HP.
  assert (Forall string_ok (if bool_decide (alternative = []) then l else l ++ [alternative])).
  { case_bool_decide; [done|]. apply Forall_app. split; [done|]. by apply Forall_singleton. }
  lx_step; [by lx_step|]. lx_step. lx_step; [by lx_step|]. positions.
  eapply returns_tail; [done|apply IH; [by eapply moves_ok|lia|done]|done].
Qed.
#[local] Hint Resolve string_disjunction_loop_returns : lexical.

Lemma string_disjunction_returns e s : in_ok s -> in_current s <> EOF_CHAR ->
  returns s parse_string_disjunction e s (fun r s' => Forall string_ok r.1 /\ in_pos s < in_pos s').
Proof.
  intros Hs Hc. pose proof (moves_refl s Hs). pose proof (current_before_end s Hs Hc).
  unfold parse_string_disjunction. do 4 lx_step.
  eapply returns_call; [done|apply string_disjunction_loop_returns; [eauto with lexical|done|by constructor]|].
  cbn. intros r s1 ? ? ?. repeat lx_step. lx_finish.
Qed.
#[local] Hint Resolve string_disjunction_returns : lexical.

Section NestedClasses.

Context (depth : nat) (nested : L (CharacterClass UnicodeProperty * bool)).
Hypothesis nested_returns : forall e s, in_ok s -> in_current s <> EOF_CHAR ->
  in_len s - in_pos s < Z.of_nat depth ->
  returns s nested e s (fun r s' => in_pos s < in_pos s' /\ class_wf r.1).

Lemma operand_returns e s : in_ok s -> in_len s - in_pos s < Z.of_nat depth ->
  returns s (parse_class_set_operand nested) e s (fun r s' =>
    in_pos s < in_pos s' /\ range_wf r.1 /\ is_range r.1 = false).
Proof.
  intros Hs Hf. pose proof (moves_refl s Hs). unfold parse_class_set_operand. lx_step. lx_step.
  - eapply returns_call; [done|apply nested_returns; [done|not_eof|done]|].
    intros [c b] s1 ? ? [? ?]. by lx_step.
  - lx_step. destruct a as [c|]; [destruct HP; by lx_step|]. subst s'. lx_step. lx_step. lx_step.
    + eapply returns_call; [done|apply string_disjunction_returns; [done|not_eof]|].
      intros [l b] s1 ? ? [? ?]. by lx_step.
    + lx_step. by lx_step.
Qed.

Lemma class_range_returns e s operand p : in_ok s -> in_len s - in_pos s < Z.of_nat depth ->
  in_current s <> EOF_CHAR -> range_wf operand -> is_range operand = false ->
  returns s (parse_unicode_sets_character_class_range nested operand p) e s (fun r s' =>
    in_pos s < in_pos s' /\ range_wf r).
Proof.
  intros Hs Hf Hc Hw Hr. pose proof (moves_refl s Hs). pose proof (current_before_end s Hs Hc).
  unfold parse_unicode_sets_character_class_range. lx_step. positions.
  eapply returns_call; [done|apply operand_returns; [eauto with lexical|lia]|].
  intros [operand' b] s1 ? Hm (Hp & Hw' & Hr').
  cbn [fst] in Hw', Hr'.
  eapply (returns_bind _ _ _ _ _ (fun c s2 => s2 = s1 /\ operand = Single c)).
  { apply range_bound_returns; [done|]. intros r Hb. lx_step. split; [done|]. by apply Hb. }
  intros c1 s2 _ [-> ->].
  eapply (returns_bind _ _ _ _ _ (fun c s2 => s2 = s1 /\ operand' = Single c)).
  { apply range_bound_returns; [done|]. intros r Hb. lx_step. split; [done|]. by apply Hb. }
  intros c2 s2 _ [-> ->]. lx_step; lx_step. apply Z.ltb_ge in E. pose proof (moves_pos _ _ Hm).
  split; [lia|]. cbn. by split_and!.
Qed.

Lemma intersection_loop_returns fuel : forall e s l b, in_ok s ->
  in_len s - in_pos s < Z.of_nat fuel -> in_len s - in_pos s < Z.of_nat depth -> Forall range_wf l ->
  returns s (intersection_loop nested fuel l b) e s
    (fun r _ => Forall range_wf r.1 /\ (l <> [] -> r.1 <> [])).
Proof.
  induction fuel as [|fuel IH]; intros e s l b Hs Hf Hd Hw.
  { pose proof (in_pos_range s Hs). lia. }
  pose proof (moves_refl s Hs). cbn [intersection_loop].
  apply intersection_operator_returns; [done|]. intros [|] Hc; [|by lx_step].
  pose proof (current_before_end s Hs (Hc eq_refl)). lx_step. positions.
  eapply returns_call; [done|apply operand_returns; [eauto with lexical|lia]|].
  intros [operand b'] s1 ? ? (? & ? & _). positions.
  eapply returns_tail; [done|apply IH; [eauto with lexical|lia|lia|]|].
  - apply Forall_app. split; [done|]. by apply Forall_singleton.
  - intros r s2 _ [Hr Hne]. split; [done|]. intros _. apply Hne. by destruct l.
Qed.

Lemma difference_loop_returns fuel : forall e s l, in_ok s ->
  in_len s - in_pos s < Z.of_nat fuel -> in_len s - in_pos s < Z.of_nat depth -> Forall range_wf l ->
  returns s (difference_loop nested fuel l) e s (fun r _ => Forall range_wf r /\ (l <> [] -> r <> [])).
Proof.
  induction fuel as [|fuel IH]; intros e s l Hs Hf Hd Hw.
  { pose proof (in_pos_range s Hs). lia. }
  pose proof (moves_refl s Hs). cbn [difference_loop].
  apply difference_operator_returns; [done|]. intros [|] Hc; [|by lx_step].
  pose proof (current_before_end s Hs (Hc eq_refl)). lx_step. positions.
  eapply returns_call; [done|apply operand_returns; [eauto with lexical|lia]|].
  intros [operand b'] s1 ? ? (? & ? & _). positions.
  eapply returns_tail; [done|apply IH; [eauto with lexical|lia|lia|]|].
  - apply Forall_app. split; [done|]. by apply Forall_singleton.
  - intros r s2 _ [Hr Hne]. split; [done|]. intros _. apply Hne. by destruct l.
Qed.

Lemma union_loop_returns fuel : forall e s l b, in_ok s ->
  in_len s - in_pos s < Z.of_nat fuel -> in_len s - in_pos s < Z.of_nat depth -> Forall range_wf l ->
  returns s (union_loop nested fuel l b) e s (fun r _ => Forall range_wf r.1).
Proof.
  induction fuel as [|fuel IH]; intros e s l b Hs Hf Hd Hw.
  { pose proof (in_pos_range s Hs). lia. }
  pose proof (moves_refl s Hs). cbn [union_loop]. lx_step. lx_step; [|by lx_step]. lx_step.
  eapply returns_call; [done|apply operand_returns; [done|lia]|].
  intros [operand b'] s1 ? ? (? & Ho & Hr). positions. lx_step. lx_step.
  - eapply returns_call; [done|apply class_range_returns; [eauto with lexical|lia|not_eof|done..]|].
    intros r s2 ? ? [? ?]. positions.
    eapply returns_tail; [done|apply IH; [eauto with lexical|lia|lia|]|done].
    apply Forall_app. split; [done|]. by apply Forall_singleton.
  - eapply returns_tail; [done|apply IH; [eauto with lexical|lia|lia|]|done].
    apply Forall_app. split; [done|]. by apply Forall_singleton.
Qed.

Lemma class_set_operands_returns e s operand b p : in_ok s ->
  in_len s - in_pos s < Z.of_nat depth -> range_wf operand -> is_range operand = false ->
  returns s (class_set_operands nested operand b p) e s
    (fun r _ => (r.1.1 = Union \/ r.1.2 <> []) /\ Forall range_wf r.1.2).
Proof.
  intros Hs Hd Hw Hr. pose proof (moves_refl s Hs). unfold class_set_operands. lx_step.
  apply intersection_operator_returns; [done|]. intros at_i Hi.
  apply difference_operator_returns; [done|]. intros at_d Hdf. lx_step.
  assert (Hone : Forall range_wf [operand]) by by apply Forall_singleton.
  lx_step; [|lx_step; [|lx_step; [lx_step; split; [by left|done]|]]].
  - eapply returns_call; [done|by apply intersection_loop_returns|]. intros [??] ? ? ? [? Hne]. lx_step.
    split; [right; by apply Hne|done].
  - eapply returns_call; [done|by apply difference_loop_returns|]. intros ? ? ? ? [? Hne]. lx_step.
    split; [right; by apply Hne|done].
  - eapply (returns_bind _ _ _ _ _ (fun l s1 => Forall range_wf l /\ moves s s1)).
    + lx_step; [|by lx_step].
      eapply returns_call; [done|apply class_range_returns; [done|done|not_eof|done|done]|].
      intros r s1 ? ? [? ?]. lx_step. split; [|done]. by apply Forall_singleton.
    + intros l s1 ? [? ?]. positions.
      eapply returns_call; [done|apply union_loop_returns; [eauto with lexical|lia|lia|done]|].
      intros [??] ????. lx_step. split; [by left|done].
Qed.

Lemma class_body_returns e s : in_ok s -> in_current s <> EOF_CHAR ->
  in_len s - in_pos s < Z.of_nat depth + 1 ->
  returns s (unicode_sets_character_class_body nested) e s (fun r s' =>
    in_pos s < in_pos s' /\ class_wf r.1).
Proof.
  intros Hs Hc Hd. pose proof (moves_refl s Hs). pose proof (current_before_end s Hs Hc).
  unfold unicode_sets_character_class_body. lx_step.
  assert (Hrest : forall s1 b, moves s s1 -> in_pos s < in_pos s1 ->
    returns s (eat "]" ≫= fun empty : bool =>
      if empty then mret (mkClass Union b [], false)
      else
        first_operand_pos ← pos;
        '(first_operand, first_may_contain_strings) ← parse_class_set_operand nested;
        '(expression_type, operands, may_contain_strings) ←
          class_set_operands nested first_operand first_may_contain_strings first_operand_pos;
        _ ← expect "]";
        if may_contain_strings && b
        then error first_operand_pos InvertedCharacterClassContainStrings
        else mret (mkClass expression_type b operands, may_contain_strings)) e s1
      (fun r s' => in_pos s < in_pos s' /\ class_wf r.1)).
  { intros s1 b Hm Hp. lx_step; [|lx_step; split; [lx_finish|by apply union_wf]]. lx_step. positions.
    eapply returns_call; [done|apply operand_returns; [eauto with lexical|lia]|].
    intros [operand bs] s2 ? ? (? & ? & ?). positions.
    eapply returns_call; [done|apply class_set_operands_returns; [eauto with lexical|lia|done|done]|].
    intros [[t l] bs'] s3 ? ? Hl. lx_step. lx_step; lx_step. split; [lx_finish|]. by apply class_wf_iff. }
  lx_step; apply Hrest; lx_finish.
Qed.

End NestedClasses.

Lemma unicode_sets_class_returns fuel : forall e s, in_ok s -> in_current s <> EOF_CHAR ->
  in_len s - in_pos s < Z.of_nat fuel ->
  returns s (unicode_sets_character_class fuel) e s (fun r s' => in_pos s < in_pos s' /\ class_wf r.1).
Proof.
  induction fuel as [|fuel IH]; intros e s Hs Hc Hf.
  { pose proof (in_pos_range s Hs). lia. }
  cbn [unicode_sets_character_class]. eapply class_body_returns; [exact IH|done|done|lia].
Qed.

Lemma unicode_sets_class_all_returns e s : in_ok s -> in_current s <> EOF_CHAR ->
  returns s parse_unicode_sets_character_class e s (fun r s' => in_pos s < in_pos s' /\ class_wf r.1).
Proof.
  intros Hs Hc. unfold parse_unicode_sets_character_class. apply returns_remaining. intros n Hn.
  by apply unicode_sets_class_returns.
Qed.

(** ** Quantifiers and modifiers *)

Lemma braced_quantifier_returns e s : in_ok s ->
  returns s parse_braced_quantifier e s (fun r _ => 0 <= r.1 <= u64_max /\
    forall m, r.2 = Some m -> 0 <= m <= u64_max).
Proof.
  intros Hs. pose proof (moves_refl s Hs). unfold parse_braced_quantifier. do 3 lx_step.
  destruct a as [lo|]; [|lx_step]. destruct (HP lo eq_refl) as [Hlo _].
  assert (Hrest : forall s1 hi, moves s s1 -> (forall m, hi = Some m -> 0 <= m <= u64_max) ->
    returns s (_ ← expect "}"; mret (lo, hi)) e s1 (fun r _ => 0 <= r.1 <= u64_max /\
      forall m, r.2 = Some m -> 0 <= m <= u64_max)) by (intros s1 hi Hm Hhi; by repeat lx_step).
  lx_step; [apply Hrest; [done|by intros m [= <-]]|].
  eapply (returns_bind _ _ _ _ _ (fun hi _ => forall m, hi = Some m -> 0 <= m <= u64_max)).
  - lx_step. lx_step; [by lx_step|]. lx_step. intros m ->. by destruct (HP0 m eq_refl).
  - intros hi s1 Hm Hhi. by apply Hrest.
Qed.
#[local] Hint Resolve braced_quantifier_returns : lexical.

(** Bounds are ordered 64-bit numbers. *)
Definition bounds_ok (min : Z) (max : option Z) : Prop :=
  0 <= min <= u64_max /\ forall m, max = Some m -> min <= m <= u64_max.

Lemma quantifier_bounds_returns e s : in_ok s ->
  returns s quantifier_bounds e s (fun r _ =>
    forall min max, r = Some (Some (min, max)) -> bounds_ok min max).
Proof.
  intros Hs. pose proof (moves_refl s Hs). unfold quantifier_bounds. do 3 lx_step.
  do 3 (lx_step; [repeat lx_step; intros ? ? [= <- <-]; unfold bounds_ok, u64_max; split; [lia|];
    intros m Hm; first [done|injection Hm as <-; lia]|]).
  lx_step; [|by repeat lx_step]. lx_step.
  eapply (returns_bind _ _ _ _ _ (fun r _ => forall lo hi, r = Some (lo, hi) ->
    0 <= lo <= u64_max /\ forall m, hi = Some m -> 0 <= m <= u64_max)).
  - lx_step.
    + lx_step. destruct r as [[lo hi]|]; repeat lx_step; [|done].
      intros ? ? [= <- <-]. by specialize (HP _ eq_refl).
    + lx_step. destruct a as [lo hi]. lx_step. by intros ? ? [= <- <-].
  - intros [[lo [hi|]]|] s1 Hm Hb; [|lx_step..]; [| |done].
    + destruct (Hb _ _ eq_refl) as [? Hhi]. specialize (Hhi _ eq_refl). lx_step; lx_step.
      intros ? ? [= <- <-]. split; [done|]. intros m [= <-]. lia.
    + destruct (Hb _ _ eq_refl) as [? _]. intros ? ? [= <- <-]. by split.
Qed.
#[local] Hint Resolve quantifier_bounds_returns : lexical.

Lemma quantifier_returns e s term : in_ok s ->
  returns s (parse_quantifier term) e s (fun r _ => r = term \/
    exists min max greedy, r = QuantifierTerm term min max greedy /\ bounds_ok min max).
Proof.
  intros Hs. pose proof (moves_refl s Hs). unfold parse_quantifier. do 3 lx_step.
  destruct a as [[[min max]|]|]; [|by lx_step; left..]. specialize (HP _ _ eq_refl).
  repeat lx_step; right; eauto.
Qed.

Lemma modifiers_loop_returns fuel : forall e s m, in_ok s -> in_len s - in_pos s < Z.of_nat fuel ->
  returns s (modifiers_loop fuel m) e s (fun _ _ => True).
Proof.
  induction fuel as [|fuel IH]; intros e s m Hs Hf.
  { pose proof (in_pos_range s Hs). lia. }
  pose proof (moves_refl s Hs). cbn [modifiers_loop]. lx_step.
  do 3 (lx_step; [assert (in_current s <> EOF_CHAR) as Hc by not_eof;
    pose proof (current_before_end s Hs Hc); by repeat lx_step|]).
  by lx_step.
Qed.
#[local] Hint Resolve modifiers_loop_returns : lexical.

Lemma modifiers_returns e s : in_ok s -> returns s parse_modifiers e s (fun _ _ => True).
Proof. intros Hs. pose proof (moves_refl s Hs). unfold parse_modifiers. by repeat lx_step. Qed.
#[local] Hint Resolve modifiers_returns : lexical.

Lemma group_modifiers_returns e s : in_ok s -> returns s parse_group_modifiers e s (fun _ _ => True).
Proof.
  intros Hs. pose proof (moves_refl s Hs). unfold parse_group_modifiers. do 2 lx_step.
  lx_step; [by repeat lx_step|].
  eapply (returns_bind _ _ _ _ _ (fun _ _ => True)); [by repeat lx_step|]. intros; by repeat lx_step.
Qed.

(** ** Flags *)

(** [parse_flags] collects distinct flags, so that no flag is lost or doubled. *)
Lemma flags_loop_returns fuel : forall e s flags, in_ok s -> in_len s - in_pos s < Z.of_nat fuel ->
  returns s (flags_loop fuel flags) e s (fun _ _ => True).
Proof.
  induction fuel as [|fuel IH]; intros e s flags Hs Hf.
  { pose proof (in_pos_range s Hs). lia. }
  pose proof (moves_refl s Hs). cbn [flags_loop]. lx_step. lx_step; [by lx_step|]. do 2 lx_step.
  do 8 (lx_step; [assert (in_current s <> EOF_CHAR) as Hc by not_eof;
    pose proof (current_before_end s Hs Hc); by repeat lx_step|]).
  by lx_step.
Qed.
#[local] Hint Resolve flags_loop_returns : lexical.

Lemma flags_returns e s : in_ok s -> returns s parse_flags e s (fun f _ =>
  Flags.has_simple_unicode_flag f && Flags.has_unicode_sets_flag f = false).
Proof. intros Hs. pose proof (moves_refl s Hs). unfold parse_flags. by repeat lx_step. Qed.

End Returns.

#[export] Hint Resolve moves_ok escape_returns returns_codepoint identifier_returns property_escape_returns
  standard_class_returns unicode_sets_class_all_returns quantifier_returns group_modifiers_returns
  decimal_digits_returns : lexical.
