(* ===== verification/RegExpParser.v ===== *)
(** The RegExp parser: [src/so2js/parser/regexp_parser.rs].

    [RegExpParser] is the struct; its stream, flags and modes are what the methods
    of [RegExpLexical] work on, and [lex] runs such a method.  The other methods
    are computations in the monad [M], which threads the whole struct.

    A back reference is a node of its own, because a named one is filled in when
    all names are known: [rp_nodes] holds the nodes in the order of their
    allocation, and until the end of the parse a [BackreferenceTerm] carries the
    address of its node.  [load_term] reads the nodes. *)

From Stdlib Require Import Ascii String.
From S2P Require Import Prelude Unicode LexerStream UnicodeProperty ParseStream Characters RegExpSyntax.
From S2P Require Import RegExpLexical.

Record RegExpParser (S : Type) : Type := mkParser {
  rp_stream : S;
  rp_env : Env;
  rp_num_capture_groups : Z;
  rp_capture_groups : list (option AstStr);
  rp_capture_group_names : gmap AstStr Z;
  rp_current_names : gset AstStr;
  rp_name_scope : list AstStr;
  rp_has_duplicate : bool;
  rp_named_backreferences : list (AstStr * Z * Z);        (* name, position, node *)
  rp_indexed_backreferences : list (Z * Z);               (* index, position *)
  rp_maybe_backreferences : gmap Z Z;
  rp_already_parsed : option Z;
  rp_group_depth : Z;
  rp_nodes : list Z;
}.
Arguments mkParser {S}. Arguments rp_stream {S}. Arguments rp_env {S}.
Arguments rp_num_capture_groups {S}. Arguments rp_capture_groups {S}.
Arguments rp_capture_group_names {S}. Arguments rp_current_names {S}. Arguments rp_name_scope {S}.
Arguments rp_has_duplicate {S}. Arguments rp_named_backreferences {S}.
Arguments rp_indexed_backreferences {S}. Arguments rp_maybe_backreferences {S}.
Arguments rp_already_parsed {S}. Arguments rp_group_depth {S}. Arguments rp_nodes {S}.

Definition RegExpParser_new {S} (stream : S) (flags : RegExpFlags)
    (parse_named_capture_groups in_annex_b_mode : bool) : RegExpParser S :=
  mkParser stream (mkEnv flags parse_named_capture_groups in_annex_b_mode)
    0 [] ∅ ∅ [] false [] [] ∅ None 0 [].

(** ** The monad *)

Definition M (S A : Type) : Type := RegExpParser S -> outcome (ParseResult A * RegExpParser S).

#[export] Instance M_ret S : MRet (M S) := fun A a p => Done (Ok a, p).
#[export] Instance M_bind S : MBind (M S) := fun A B f m p =>
  match m p with
  | Done (Ok a, p') => f a p'
  | Done (Err x, p') => Done (Err x, p')
  | Panicked => Panicked
  | Faulted => Faulted
  | OutOfFuel => OutOfFuel
  end.

Section Updates.

Context {S : Type}.
Implicit Type p : RegExpParser S.

Definition set_stream (stream : S) p : RegExpParser S :=
  let 'mkParser _ e n g ns cn sc d nb ib mb ap gd nd := p in
  mkParser stream e n g ns cn sc d nb ib mb ap gd nd.

(** [num_capture_groups] and [capture_groups] change together. *)
Definition add_capture_group (name : option AstStr) p : RegExpParser S :=
  let 'mkParser st e n g ns cn sc d nb ib mb ap gd nd := p in
  mkParser st e (n + 1) (g ++ [name]) ns cn sc d nb ib mb ap gd nd.

(** [capture_group_names.insert], which reports an earlier entry. *)
Definition add_group_name (name : AstStr) (index : Z) p : RegExpParser S :=
  let 'mkParser st e n g ns cn sc d nb ib mb ap gd nd := p in
  mkParser st e n g (<[name := index]> ns) cn sc
    (match ns !! name with Some _ => true | None => d end) nb ib mb ap gd nd.

Definition enter_scope (name : AstStr) p : RegExpParser S :=
  let 'mkParser st e n g ns cn sc d nb ib mb ap gd nd := p in
  mkParser st e n g ns ({[name]} ∪ cn) (sc ++ [name]) d nb ib mb ap gd nd.

Definition set_scope (scope : list AstStr) p : RegExpParser S :=
  let 'mkParser st e n g ns cn _ d nb ib mb ap gd nd := p in
  mkParser st e n g ns cn scope d nb ib mb ap gd nd.

(** The end of an alternative: its names leave the scope. *)
Definition leave_scope (previous_scope : list AstStr) p : RegExpParser S :=
  let 'mkParser st e n g ns cn sc d nb ib mb ap gd nd := p in
  mkParser st e n g ns (foldl (fun names name => names ∖ {[name]}) cn sc) previous_scope d
    nb ib mb ap gd nd.

Definition add_group_depth (k : Z) p : RegExpParser S :=
  let 'mkParser st e n g ns cn sc d nb ib mb ap gd nd := p in
  mkParser st e n g ns cn sc d nb ib mb ap (gd + k) nd.

Definition add_node (index : Z) p : RegExpParser S :=
  let 'mkParser st e n g ns cn sc d nb ib mb ap gd nd := p in
  mkParser st e n g ns cn sc d nb ib mb ap gd (nd ++ [index]).

Definition add_indexed_backreference (index pos : Z) p : RegExpParser S :=
  let 'mkParser st e n g ns cn sc d nb ib mb ap gd nd := p in
  mkParser st e n g ns cn sc d nb (ib ++ [(index, pos)]) mb ap gd nd.

Definition add_named_backreference (name : AstStr) (pos node : Z) p : RegExpParser S :=
  let 'mkParser st e n g ns cn sc d nb ib mb ap gd nd := p in
  mkParser st e n g ns cn sc d (nb ++ [(name, pos, node)]) ib mb ap gd nd.

Definition add_maybe_backreference (pos index : Z) p : RegExpParser S :=
  let 'mkParser st e n g ns cn sc d nb ib mb ap gd nd := p in
  mkParser st e n g ns cn sc d nb ib (<[pos := index]> mb) ap gd nd.

Definition set_already_parsed (num : Z) (maybe : gmap Z Z) p : RegExpParser S :=
  let 'mkParser st e n g ns cn sc d nb ib _ _ gd nd := p in
  mkParser st e n g ns cn sc d nb ib maybe (Some num) gd nd.

Definition set_nodes (nodes : list Z) p : RegExpParser S :=
  let 'mkParser st e n g ns cn sc d nb ib mb ap gd _ := p in
  mkParser st e n g ns cn sc d nb ib mb ap gd nodes.

End Updates.

Section Parser.

Context `{IcuData} {S : Type} `{ParseStream S}.

#[local] Abbreviation M := (M S).
#[local] Abbreviation L := (L S).
#[local] Abbreviation RegExpParser := (RegExpParser S).
#[local] Abbreviation ClassRange := (ClassRange UnicodeProperty).
#[local] Abbreviation Term := (Term UnicodeProperty).
#[local] Abbreviation Alternative := (Alternative UnicodeProperty).
#[local] Abbreviation Disjunction := (Disjunction UnicodeProperty).

Definition lex {A} (m : L A) : M A := fun p =>
  '(r, s) ← m (rp_env p) (rp_stream p);
  Done (r, set_stream s p).
Definition gets {A} (f : RegExpParser -> A) : M A := fun p => Done (Ok (f p), p).
Definition modify (f : RegExpParser -> RegExpParser) : M unit := fun p => Done (Ok tt, f p).

(** ** Capture groups *)

Definition next_capture_group_index (error_pos : Z) : M Z :=
  num ← gets rp_num_capture_groups;
  let index := num + 1 in
  if u32_max / 2 <=? index then lex (error error_pos TooManyCaptureGroups)
  else mret index.

(** A group gets its index and its entry in the list of all groups. *)
Definition new_capture_group (error_pos : Z) (name : option AstStr) : M Z :=
  index ← next_capture_group_index error_pos;
  _ ← modify (add_capture_group name);
  mret index.

(** ** Terms *)

Definition character_class_from_shorthand (shorthand : ClassRange) : Term :=
  CharacterClassTerm (mkClass Union false [shorthand]).

Definition literal_term (code_point : Z) : M Term :=
  string ← lex (push_code_point [] code_point);
  mret (LiteralTerm string).

Definition new_backreference (index : Z) : M Z :=
  node ← gets (fun p => Z.of_nat (length (rp_nodes p)));
  _ ← modify (add_node index);
  mret node.

Definition is_annex_b_backreference_like_escape_sequence (start_pos : Z) : M bool := fun p =>
  match rp_already_parsed p with
  | Some num_capture_groups =>
      capture_index ← unwrap (rp_maybe_backreferences p !! start_pos);
      Done (Ok (num_capture_groups <? capture_index), p)
  | None => Done (Ok false, p)
  end.

Definition parse_indexed_backreference (start_pos : Z) : M Term :=
  _ ← lex advance;
  index ← lex parse_decimal_digits;
  match index with
  | Some index =>
      if index <=? u32_max then
        _ ← modify (add_indexed_backreference index start_pos);
        first_pass ← gets (fun p => in_annex_b_mode (rp_env p) && negb (is_unicode_aware (rp_env p))
                             && bool_decide (rp_already_parsed p = None));
        _ ← (if (first_pass : bool) then modify (add_maybe_backreference start_pos index)
             else mret tt);
        node ← new_backreference index;
        mret (BackreferenceTerm node)
      else lex (error start_pos InvalidBackreferenceIndex)
  | None => lex (error start_pos InvalidBackreferenceIndex)
  end.

Definition parse_named_backreference (start_pos : Z) : M Term :=
  _ ← lex advance2;
  _ ← lex (expect "<");
  name ← lex parse_identifier;
  _ ← lex (expect ">");
  node ← new_backreference 0;
  _ ← modify (add_named_backreference name start_pos node);
  mret (BackreferenceTerm node).

Definition shorthand_term (shorthand : ClassRange) : M Term :=
  _ ← lex advance2;
  mret (character_class_from_shorthand shorthand).

Definition escape_literal : M Term :=
  code_point ← lex parse_regexp_escape_sequence;
  literal_term code_point.

(** The term after a backslash. *)
Definition parse_escape : M Term :=
  e ← gets rp_env;
  start_pos ← lex pos;
  next ← lex peek;
  if next =? ch "w" then shorthand_term Word
  else if next =? ch "W" then shorthand_term NotWord
  else if next =? ch "d" then shorthand_term Digit
  else if next =? ch "D" then shorthand_term NotDigit
  else if next =? ch "s" then shorthand_term Whitespace
  else if next =? ch "S" then shorthand_term NotWhitespace
  else if next =? ch "b" then _ ← lex advance2; mret (AssertionTerm WordBoundary)
  else if next =? ch "B" then _ ← lex advance2; mret (AssertionTerm NotWordBoundary)
  else if between "1" "9" next then
    escape ← is_annex_b_backreference_like_escape_sequence start_pos;
    if negb escape then parse_indexed_backreference start_pos else escape_literal
  else if (next =? ch "k") && parse_named_capture_groups e then parse_named_backreference start_pos
  else if (next =? ch "p") && is_unicode_aware e then
    property ← lex (parse_property_escape false);
    mret (character_class_from_shorthand property)
  else if (next =? ch "P") && is_unicode_aware e then
    property ← lex (parse_property_escape true);
    mret (character_class_from_shorthand property)
  else escape_literal.

(** ** Groups

    [disjunction] is [parse_disjunction]. *)
Section Groups.

Variable disjunction : M Disjunction.

(** The pattern of a group and its closing parenthesis. *)
Definition group_body : M Disjunction :=
  d ← disjunction;
  _ ← lex (expect ")");
  mret d.

Definition parse_named_group (left_paren_pos : Z) : M Term :=
  name_start_pos ← lex pos;
  name ← lex parse_identifier;
  _ ← lex (expect ">");
  index ← new_capture_group left_paren_pos (Some name);
  _ ← modify (add_group_name name index);
  in_scope ← gets (fun p => bool_decide (name ∈ rp_current_names p));
  if (in_scope : bool) then lex (error name_start_pos DuplicateCaptureGroupName)
  else
    _ ← modify (enter_scope name);
    d ← group_body;
    e ← gets rp_env;
    if negb (parse_named_capture_groups e)
    then p ← lex pos; lex (error p NamedCaptureGroupEncountered)
    else mret (CaptureGroupTerm (Some name) index d).

Definition lookaround (is_ahead is_positive : bool) : M Term :=
  _ ← lex advance;
  d ← group_body;
  mret (LookaroundTerm is_ahead is_positive d).

Definition parse_group : M Term :=
  _ ← lex advance;
  left_paren_pos ← lex pos;
  question ← lex (eat "?");
  if (question : bool) then
    c ← lex current;
    if c =? ch ":" then _ ← lex advance; d ← group_body; mret (AnonymousGroupTerm d 0 0)
    else if c =? ch "=" then lookaround true true
    else if c =? ch "!" then lookaround true false
    else if c =? ch "<" then
      _ ← lex advance;
      c ← lex current;
      if c =? ch "=" then lookaround false true
      else if c =? ch "!" then lookaround false false
      else parse_named_group left_paren_pos
    else if one_of "ism-" c then
      '(positive_modifiers, negative_modifiers) ← lex parse_group_modifiers;
      d ← group_body;
      mret (AnonymousGroupTerm d positive_modifiers negative_modifiers)
    else lex unexpected_here
  else
    index ← new_capture_group left_paren_pos None;
    d ← group_body;
    mret (CaptureGroupTerm None index d).

Definition parse_atom : M Term :=
  e ← gets rp_env;
  c ← lex current;
  if c =? ch "." then _ ← lex advance; mret WildcardTerm
  else if c =? ch "(" then
    _ ← modify (add_group_depth 1);
    group ← parse_group;
    _ ← modify (add_group_depth (-1));
    mret group
  else if c =? ch "[" then
    if Flags.has_unicode_sets_flag (env_flags e)
    then '(character_class, _) ← lex parse_unicode_sets_character_class;
         mret (CharacterClassTerm character_class)
    else character_class ← lex parse_standard_character_class;
         mret (CharacterClassTerm character_class)
  else if c =? ch "^" then _ ← lex advance; mret (AssertionTerm Start)
  else if c =? ch "$" then _ ← lex advance; mret (AssertionTerm End_)
  else if c =? ch "\" then parse_escape
  else code_point ← lex parse_unicode_codepoint; literal_term code_point.

Definition parse_term : M Term :=
  atom ← parse_atom;
  lex (parse_quantifier atom).

(** ** Alternatives *)

(** Adjacent literals become one. *)
Definition push_term (terms : Alternative) (current_literal : AstStr) (term : Term)
    : Alternative * AstStr :=
  match term with
  | LiteralTerm next_string => (terms, current_literal ++ next_string)
  | _ => if bool_decide (current_literal = []) then (terms ++ [term], current_literal)
         else (terms ++ [LiteralTerm current_literal; term], [])
  end.

Definition finish_alternative (terms : Alternative) (current_literal : AstStr) : Alternative :=
  if bool_decide (current_literal = []) then terms else terms ++ [LiteralTerm current_literal].

(** What comes next in an alternative: its end, an error, or a term. *)
Definition alternative_ends : M bool :=
  at_end ← lex is_end;
  if (at_end : bool) then mret true
  else
    e ← gets rp_env;
    c ← lex current;
    p ← lex pos;
    depth ← gets rp_group_depth;
    let strict := negb (in_annex_b_mode e) || is_unicode_aware e in
    if one_of "*+?" c then lex (error p UnexpectedRegExpQuantifier)
    else if (c =? ch "{") && strict then lex (error p UnexpectedRegExpQuantifier)
    else if one_of "}]" c && strict then lex (error_unexpected_token p)
    else if c =? ch "|" then mret true
    else if c =? ch ")" then
      if 0 <? depth then mret true else lex (error_unexpected_token p)
    else mret false.

Fixpoint alternative_loop (fuel : nat) (terms : Alternative) (current_literal : AstStr)
    : M Alternative :=
  match fuel with
  | O => lex out_of_fuel
  | Datatypes.S fuel' =>
      ends ← alternative_ends;
      if (ends : bool) then mret (finish_alternative terms current_literal)
      else
        term ← parse_term;
        let '(terms, current_literal) := push_term terms current_literal term in
        alternative_loop fuel' terms current_literal
  end.

Definition parse_alternative : M Alternative :=
  n ← lex remaining; alternative_loop n [] [].

Fixpoint disjunction_loop (fuel : nat) (alternatives : Disjunction) : M Disjunction :=
  match fuel with
  | O => lex out_of_fuel
  | Datatypes.S fuel' =>
      previous_scope ← gets rp_name_scope;
      _ ← modify (set_scope []);
      alternative ← parse_alternative;
      _ ← modify (leave_scope previous_scope);
      bar ← lex (eat "|");
      if negb bar then mret (alternatives ++ [alternative])
      else
        at_end ← lex is_end;
        if (at_end : bool) then mret (alternatives ++ [alternative; []])
        else disjunction_loop fuel' (alternatives ++ [alternative])
  end.

End Groups.

(** The depth of nested groups; each consumes its parenthesis. *)
Fixpoint parse_disjunction (fuel : nat) : M Disjunction :=
  match fuel with
  | O => lex out_of_fuel
  | Datatypes.S fuel' =>
      n ← lex remaining;
      disjunction_loop (parse_disjunction fuel') n []
  end.

(** ** Back references *)

Definition FirstError : Type := option (Z * ParseError).

Definition update_first_error (first_error : FirstError) (pos : Z) (error : ParseError)
    : FirstError :=
  match first_error with
  | Some (first_error_pos, _) => if pos <? first_error_pos then Some (pos, error) else first_error
  | None => Some (pos, error)
  end.

Definition check_indexed (num_groups : Z) (first_error : FirstError) (reference : Z * Z)
    : FirstError :=
  if num_groups <? reference.1
  then update_first_error first_error reference.2 InvalidBackreferenceIndex else first_error.

(** A named reference is written into its node. *)
Definition resolve_named (names : gmap AstStr Z) (acc : list Z * FirstError)
    (reference : AstStr * Z * Z) : list Z * FirstError :=
  let '(name, pos, node) := reference in
  match names !! name with
  | Some index => (<[Z.to_nat node := index]> acc.1, acc.2)
  | None => (acc.1, update_first_error acc.2 pos InvalidBackreferenceName)
  end.

Definition resolve_backreferences : M unit :=
  indexed ← gets rp_indexed_backreferences;
  named ← gets rp_named_backreferences;
  names ← gets rp_capture_group_names;
  nodes ← gets rp_nodes;
  num ← gets (fun p => Z.of_nat (length (rp_capture_groups p)));
  let first_error := foldl (check_indexed num) None indexed in
  let '(nodes, first_error) := foldl (resolve_named names) (nodes, first_error) named in
  _ ← modify (set_nodes nodes);
  match first_error with
  | None => mret tt
  | Some (pos, err) => lex (error pos err)
  end.

(** The pattern with the nodes read. *)
Fixpoint load_term (nodes : list Z) (t : Term) : Term :=
  match t with
  | QuantifierTerm t min max is_greedy => QuantifierTerm (load_term nodes t) min max is_greedy
  | LookaroundTerm a p d => LookaroundTerm a p (map (map (load_term nodes)) d)
  | CaptureGroupTerm name index d => CaptureGroupTerm name index (map (map (load_term nodes)) d)
  | AnonymousGroupTerm d p n => AnonymousGroupTerm (map (map (load_term nodes)) d) p n
  | BackreferenceTerm node => BackreferenceTerm (default 0 (nodes !! Z.to_nat node))
  | t => t
  end.
Definition load_disjunction (nodes : list Z) (d : Disjunction) : Disjunction :=
  map (map (load_term nodes)) d.

(** ** The whole pattern *)

Definition depth_fuel (stream : S) : nat := Nat.succ (Z.to_nat (in_len stream - in_pos stream)).

Definition run_parser (p : RegExpParser) : outcome (ParseResult Disjunction * RegExpParser) :=
  parse_disjunction (depth_fuel (rp_stream p)) p.

(** After a successful parse: resolve the references and build the result. *)
Definition finish_regexp (flags : RegExpFlags) (d : Disjunction) (p : RegExpParser)
    : outcome (ParseResult (RegExp UnicodeProperty)) :=
  '(r, p) ← resolve_backreferences p;
  Done match r with
       | Ok _ => Ok (mkRegExp (load_disjunction (rp_nodes p) d) flags (rp_has_duplicate p)
                       (rp_capture_groups p))
       | Err err => Err err
       end.

(** The first parse of Annex B mode, repeated with named groups if one was met. *)
Definition first_parse (stream : S) (flags : RegExpFlags) (annex_b : bool)
    : outcome (ParseResult Disjunction * RegExpParser) :=
  if negb annex_b then run_parser (RegExpParser_new stream flags true annex_b)
  else
    '(r, p) ← run_parser (RegExpParser_new stream flags false annex_b);
    match r with
    | Err (mkParseError NamedCaptureGroupEncountered _) =>
        run_parser (RegExpParser_new stream flags true annex_b)
    | r => Done (r, p)
    end.

Definition needs_reparse (p : RegExpParser) : bool :=
  let num_capture_groups := Z.of_nat (length (rp_capture_groups p)) in
  existsb (fun entry => num_capture_groups <? entry.2) (map_to_list (rp_maybe_backreferences p)).

(** [parse_regexp]; [stream] is what [create_lexer_stream] creates. *)
Definition parse_regexp (stream : S) (flags : RegExpFlags) (annex_b : bool)
    : outcome (ParseResult (RegExp UnicodeProperty)) :=
  '(r, p) ← first_parse stream flags annex_b;
  match r with
  | Err err => Done (Err err)
  | Ok d =>
      if annex_b && needs_reparse p then
        let num_capture_groups := Z.of_nat (length (rp_capture_groups p)) in
        let reparse := RegExpParser_new stream flags (parse_named_capture_groups (rp_env p)) annex_b in
        '(r, p) ← run_parser (set_already_parsed num_capture_groups (rp_maybe_backreferences p) reparse);
        match r with
        | Err err => Done (Err err)
        | Ok d => finish_regexp flags d p
        end
      else finish_regexp flags d p
  end.

End Parser.
