(* ===== verification/RegExpParserCorrect.v ===== *)
(** What the RegExp parser produces.

    [parses m p Q]: from the parser [p] the method [m] returns, and a result with
    the parser after it satisfies [Q]; it may panic only where [may_panic] allows
    it, which is the second parse of Annex B mode.  The lemmas show for every
    method that the syntax tree is well-formed and that its capture groups are
    numbered in the order in which they were added to the list of groups. *)

From Stdlib Require Import Ascii String.
From S2P Require Import Prelude Unicode LexerStream UnicodeProperty ParseStream Characters RegExpSyntax.
From S2P Require Import RegExpLexical RegExpLexicalCorrect RegExpParser.

(** ** Well-formed trees *)

Section Trees.

Context {P : Type}.

(** The capture groups of a term with their index and name, in the order of their parentheses. *)
Fixpoint groups_of (t : Term P) : list (Z * option AstStr) :=
  match t with
  | QuantifierTerm t _ _ _ => groups_of t
  | LookaroundTerm _ _ d | AnonymousGroupTerm d _ _ => flat_map (flat_map groups_of) d
  | CaptureGroupTerm name index d => (index, name) :: flat_map (flat_map groups_of) d
  | _ => []
  end.
Definition groups_of_alternative (alt : list (Term P)) : list (Z * option AstStr) :=
  flat_map groups_of alt.
Definition groups_of_disjunction (d : list (list (Term P))) : list (Z * option AstStr) :=
  flat_map groups_of_alternative d.

(** Conjunction over the elements of a list. *)
Definition every {A} (Q : A -> Prop) (l : list A) : Prop := foldr and True (map Q l).

(** [backreference_ok] says which addresses, or after loading which indices, are allowed. *)
Fixpoint term_wf (backreference_ok : Z -> Prop) (t : Term P) : Prop :=
  match t with
  | LiteralTerm s => s <> [] /\ Forall code_point_in s
  | WildcardTerm | AssertionTerm _ => True
  | QuantifierTerm t min max _ => bounds_ok min max /\ term_wf backreference_ok t
  | LookaroundTerm _ _ d | CaptureGroupTerm _ _ d | AnonymousGroupTerm d _ _ =>
      d <> [] /\ every (every (term_wf backreference_ok)) d
  | CharacterClassTerm c => class_wf c
  | BackreferenceTerm i => backreference_ok i
  end.
Definition disjunction_wf (backreference_ok : Z -> Prop) (d : list (list (Term P))) : Prop :=
  d <> [] /\ Forall (Forall (term_wf backreference_ok)) d.

Lemma every_iff {A} (Q : A -> Prop) l : every Q l <-> Forall Q l.
Proof.
  unfold every. induction l as [|a l IH]; cbn; [by split; constructor|]. rewrite Forall_cons. tauto.
Qed.

Lemma every_every_iff (Q : Term P -> Prop) d : every (every Q) d <-> Forall (Forall Q) d.
Proof.
  rewrite every_iff. split; intros H; (eapply Forall_impl; [exact H|]); intros l; apply every_iff.
Qed.

Lemma term_wf_weaken (Q R : Z -> Prop) t : (forall i, Q i -> R i) -> term_wf Q t -> term_wf R t.
Proof.
  intros HQR. induction t using Term_nested_ind; cbn; try done; try tauto; auto;
    rewrite !every_every_iff; intros [? Hd]; (split; [done|]);
    match goal with IH : Forall (Forall _) _ |- _ =>
      clear -IH Hd; induction IH as [|alt d Halt _ IHd]; [constructor|];
      apply Forall_cons in Hd as [Hd1 Hd2]; constructor; [|auto];
      clear -Halt Hd1; induction Halt as [|t alt Ht _ IHa]; [constructor|];
      apply Forall_cons in Hd1 as [? ?]; constructor; auto end.
Qed.

Lemma disjunction_wf_iff (Q : Z -> Prop) d : disjunction_wf Q d <-> d <> [] /\ every (every (term_wf Q)) d.
Proof. unfold disjunction_wf. by rewrite every_every_iff. Qed.

End Trees.

(** ** The state of the parser *)

(** The names of groups, and the index of the last group with a name. *)
Definition names_list (groups : list (option AstStr)) : list AstStr := omap id groups.

Fixpoint names_from (index : Z) (groups : list (option AstStr)) (names : gmap AstStr Z)
    : gmap AstStr Z :=
  match groups with
  | [] => names
  | Some name :: groups' => names_from (index + 1) groups' (<[name := index]> names)
  | None :: groups' => names_from (index + 1) groups' names
  end.
Definition names_of (groups : list (option AstStr)) : gmap AstStr Z := names_from 1 groups ∅.

Lemma names_from_app l1 : forall index l2 names,
  names_from index (l1 ++ l2) names =
  names_from (index + Z.of_nat (length l1)) l2 (names_from index l1 names).
Proof.
  induction l1 as [|[name|] l1 IH]; intros index l2 names; cbn [app names_from length].
  - by rewrite Z.add_0_r.
  - rewrite IH. f_equal. lia.
  - rewrite IH. f_equal. lia.
Qed.

Lemma names_of_snoc groups g :
  names_of (groups ++ [g]) =
  match g with
  | Some name => <[name := Z.of_nat (length groups) + 1]> (names_of groups)
  | None => names_of groups
  end.
Proof.
  unfold names_of. rewrite names_from_app. destruct g; cbn [names_from]; [|done]. f_equal. lia.
Qed.

(** The index under a name is that of the last group with it. *)
Lemma names_of_spec groups name : match names_of groups !! name with
  | Some i => 1 <= i <= Z.of_nat (length groups) /\
      groups !! Z.to_nat (i - 1) = Some (Some name) /\
      forall j, i <= j -> groups !! Z.to_nat j <> Some (Some name)
  | None => name ∉ names_list groups
  end.
Proof.
  induction groups as [|g groups IH] using rev_ind.
  { unfold names_of. cbn. rewrite lookup_empty. set_solver. }
  rewrite names_of_snoc. unfold names_list in *. rewrite omap_app. destruct g as [name'|].
  - destruct (decide (name' = name)) as [->|Hne].
    + rewrite lookup_insert. rewrite decide_True by done. rewrite length_app. cbn [length]. split; [lia|].
      split; [rewrite list_lookup_middle by lia; done|].
      intros j Hj E. apply lookup_lt_Some in E. rewrite length_app in E. cbn in E. lia.
    + rewrite lookup_insert_ne by done. destruct (names_of groups !! name) as [i|].
      * destruct IH as (Hi & Hg & Hl). rewrite length_app. split; [lia|].
        split; [by rewrite lookup_app_l by lia|]. intros j Hj E.
        apply lookup_app_Some in E as [E|[Hlen E]]; [by eapply Hl|].
        apply list_lookup_singleton_Some in E as [_ [= ->]]. done.
      * cbn. set_solver.
  - destruct (names_of groups !! name) as [i|].
    * destruct IH as (Hi & Hg & Hl). rewrite length_app. split; [lia|].
      split; [by rewrite lookup_app_l by lia|]. intros j Hj E.
      apply lookup_app_Some in E as [E|[Hlen E]]; [by eapply Hl|].
      by apply list_lookup_singleton_Some in E as [_ [=]].
    * cbn. set_solver.
Qed.

Section Parses.

Context `{IcuData} `{!IcuLaws _} {S : Type} `{ParseStreamLaws S}.
Context (may_panic : Prop).

#[local] Abbreviation M := (M S).
#[local] Abbreviation RegExpParser := (RegExpParser S).
#[local] Abbreviation Term := (Term UnicodeProperty).

Definition num_groups (p : RegExpParser) : Z := Z.of_nat (length (rp_capture_groups p)).
Definition num_nodes (p : RegExpParser) : Z := Z.of_nat (length (rp_nodes p)).

(** Every node is an indexed back reference or is registered under a name. *)
Definition nodes_ok (p : RegExpParser) : Prop :=
  forall k v, rp_nodes p !! k = Some v ->
  (1 <= v /\ exists pos, (v, pos) ∈ rp_indexed_backreferences p) \/
  (exists name pos, (name, pos, Z.of_nat k) ∈ rp_named_backreferences p).

Record parser_ok (p : RegExpParser) : Prop := {
  ok_stream : in_ok (rp_stream p);
  ok_count : rp_num_capture_groups p = num_groups p;
  ok_limit : num_groups p < u32_max / 2;
  ok_names : rp_capture_group_names p = names_of (rp_capture_groups p);
  ok_duplicate : rp_has_duplicate p = true <-> ~ NoDup (names_list (rp_capture_groups p));
  ok_nodes : nodes_ok p;
  ok_already : rp_already_parsed p <> None -> may_panic;
}.

(** From [p] to [p'] the groups [gs] were added, with the next indices. *)
Record grows (p p' : RegExpParser) (gs : list (Z * option AstStr)) : Prop := {
  grows_moves : moves (rp_stream p) (rp_stream p');
  grows_env : rp_env p' = rp_env p;
  grows_nodes : num_nodes p <= num_nodes p';
  grows_groups : rp_capture_groups p' = rp_capture_groups p ++ gs.*2;
  grows_indices : gs.*1 = seqZ (num_groups p + 1) (Z.of_nat (length gs));
}.

Lemma grows_refl p : in_ok (rp_stream p) -> grows p p [].
Proof. intros Hs. split; [by apply moves_refl|done|lia|by rewrite app_nil_r|done]. Qed.

Lemma grows_trans p1 p2 p3 g1 g2 : grows p1 p2 g1 -> grows p2 p3 g2 -> grows p1 p3 (g1 ++ g2).
Proof.
  intros [M1 E1 N1 G1 I1] [M2 E2 N2 G2 I2]. split.
  - by eapply moves_trans.
  - congruence.
  - lia.
  - rewrite G2, G1, fmap_app. by rewrite app_assoc.
  - rewrite fmap_app, I1, I2, length_app, Nat2Z.inj_add, seqZ_app by lia. do 2 f_equal.
    unfold num_groups. rewrite G1, length_app, length_fmap. lia.
Qed.

Definition parses {A} (m : M A) (p : RegExpParser) (Q : A -> RegExpParser -> Prop) : Prop :=
  match m p with
  | Done (Ok a, p') => Q a p'
  | Done (Err _, _) => True
  | Panicked => may_panic
  | _ => False
  end.

Lemma parses_weaken {A} (m : M A) p (P Q : A -> RegExpParser -> Prop) :
  parses m p P -> (forall a p', P a p' -> Q a p') -> parses m p Q.
Proof. unfold parses. intros Hm Hq. destruct (m p) as [[[a|x] p']| | |]; auto. Qed.

Lemma parses_bind {A B} (m : M A) (f : A -> M B) p P Q :
  parses m p P -> (forall a p', P a p' -> parses (f a) p' Q) -> parses (m ≫= f) p Q.
Proof.
  unfold parses. intros Hm Hf. change ((m ≫= f) p) with
    (match m p with
     | Done (Ok a, p') => f a p' | Done (Err x, p') => Done (Err x, p')
     | Panicked => Panicked | Faulted => Faulted | OutOfFuel => OutOfFuel end).
  destruct (m p) as [[[a|x] p']| | |]; try done. by apply Hf.
Qed.

Lemma parses_ret {A} (a : A) p (Q : A -> RegExpParser -> Prop) : Q a p -> parses (mret a) p Q.
Proof. done. Qed.
Lemma parses_gets {A B} (g : RegExpParser -> A) (f : A -> M B) p Q :
  parses (f (g p)) p Q -> parses (gets g ≫= f) p Q.
Proof. done. Qed.
Lemma parses_modify {B} g (f : unit -> M B) p Q :
  parses (f tt) (g p) Q -> parses (modify g ≫= f) p Q.
Proof. done. Qed.
Lemma parses_error {A} pos err p (Q : A -> RegExpParser -> Prop) : parses (lex (error pos err)) p Q.
Proof. done. Qed.

(** A lexical method inside of a method of the parser. *)
Lemma parses_lex {A} (m : L S A) p P (Q : A -> RegExpParser -> Prop) :
  returns (rp_stream p) m (rp_env p) (rp_stream p) P ->
  (forall a s, moves (rp_stream p) s -> P a s -> Q a (set_stream s p)) -> parses (lex m) p Q.
Proof.
  unfold returns, parses, lex. intros Hm Hq. destruct (m _ _) as [[[a|x] s]| | |]; cbn; try done.
  destruct Hm as [Hs Hp]. auto.
Qed.

Lemma parses_lex_bind {A B} (m : L S A) (f : A -> M B) p P Q :
  returns (rp_stream p) m (rp_env p) (rp_stream p) P ->
  (forall a s, moves (rp_stream p) s -> P a s -> parses (f a) (set_stream s p) Q) ->
  parses (lex m ≫= f) p Q.
Proof.
  intros Hm Hf. eapply (parses_bind _ _ _ (fun a p' => parses (f a) p' Q)); [|done].
  eapply parses_lex; [exact Hm|exact Hf].
Qed.

(** Moving the stream keeps everything else. *)
Lemma stream_ok p s : parser_ok p -> moves (rp_stream p) s ->
  parser_ok (set_stream s p) /\ grows p (set_stream s p) [].
Proof.
  intros Hp Hm. destruct p, Hp. split; (split; [|try assumption..]).
  - exact (moves_ok _ _ Hm).
  - done.
  - done.
  - apply Z.le_refl.
  - cbn. by rewrite app_nil_r.
  - done.
Qed.

Lemma set_stream_id (p : RegExpParser) : set_stream (rp_stream p) p = p.
Proof. by destruct p. Qed.

Lemma parses_current {B} (f : Z -> M B) p Q :
  parses (f (in_current (rp_stream p))) p Q -> parses (lex current ≫= f) p Q.
Proof. by destruct p. Qed.
Lemma parses_pos {B} (f : Z -> M B) p Q :
  parses (f (in_pos (rp_stream p))) p Q -> parses (lex pos ≫= f) p Q.
Proof. by destruct p. Qed.
Lemma parses_is_end {B} (f : bool -> M B) p Q :
  parses (f (in_is_end (rp_stream p))) p Q -> parses (lex is_end ≫= f) p Q.
Proof. by destruct p. Qed.
Lemma parses_remaining {B} (f : nat -> M B) p Q :
  (forall n, in_len (rp_stream p) - in_pos (rp_stream p) < Z.of_nat n -> parses (f n) p Q) ->
  parses (lex remaining ≫= f) p Q.
Proof.
  intros Hf. assert (Hn : in_len (rp_stream p) - in_pos (rp_stream p) <
    Z.of_nat (Nat.succ (Z.to_nat (in_len (rp_stream p) - in_pos (rp_stream p))))).
  { rewrite Nat2Z.inj_succ. lia. }
  specialize (Hf _ Hn). by destruct p.
Qed.

(** What a step keeps of the parser besides what [grows] says. *)
Record step (p p' : RegExpParser) : Prop := {
  step_ok : parser_ok p';
  step_grows : grows p p' [];
  step_nodes : rp_nodes p' = rp_nodes p;
}.

Lemma parses_peek {B} (f : Z -> M B) p Q : parser_ok p ->
  (forall c, in_peek_n (rp_stream p) 1 = Done c -> 0 <= c <= EOF_CHAR -> parses (f c) p Q) ->
  parses (lex peek ≫= f) p Q.
Proof.
  intros Hp Hf. destruct (in_peek_ok (rp_stream p) 1 (ok_stream _ Hp)) as (c & E & Hc); [lia|].
  specialize (Hf c E Hc). unfold parses in *.
  change ((lex peek ≫= f) p) with
    (match (x ← (y ← in_peek_n (rp_stream p) 1; Done (Ok y, rp_stream p));
            let '(r, s) := x in Done (r, set_stream s p)) with
     | Done (Ok a, p') => f a p' | Done (Err x, p') => Done (Err x, p')
     | Panicked => Panicked | Faulted => Faulted | OutOfFuel => OutOfFuel end).
  rewrite E. cbn [mbind outcome_bind]. by rewrite set_stream_id.
Qed.

Lemma parses_call {A B} (m : L S A) (f : A -> M B) p P Q : parser_ok p ->
  returns (rp_stream p) m (rp_env p) (rp_stream p) P ->
  (forall a p', step p p' -> P a (rp_stream p') -> parses (f a) p' Q) ->
  parses (lex m ≫= f) p Q.
Proof.
  intros Hp Hm Hf. eapply parses_lex_bind; [done|]. intros a s Hs Ha.
  destruct (stream_ok p s Hp Hs) as [Hok Hg]. apply Hf; [by split; [..|by destruct p]|by destruct p].
Qed.

Lemma returns_advance_tail n e s : in_ok s -> 0 <= n ->
  returns s (advance_n n) e s (fun _ s' =>
    in_advance_n s n = Done s' /\ in_pos s' = Z.min (in_len s) (in_pos s + n)).
Proof.
  intros Hs Hn. unfold returns, advance_n. destruct (advance_moves s n Hs Hn) as (s' & E & Hm & Hp).
  rewrite E. by split.
Qed.

Lemma parses_advance {B} n (f : unit -> M B) p Q : parser_ok p -> 0 <= n ->
  (forall p', step p p' -> in_advance_n (rp_stream p) n = Done (rp_stream p') ->
     in_pos (rp_stream p') = Z.min (in_len (rp_stream p)) (in_pos (rp_stream p) + n) -> parses (f tt) p' Q) ->
  parses (lex (advance_n n) ≫= f) p Q.
Proof.
  intros Hp Hn Hf. eapply parses_call; [done|apply returns_advance_tail; [by apply ok_stream|done]|].
  intros [] p' Hs [Ha Hq]. by apply Hf.
Qed.

Lemma returns_eat_tail c e s : in_ok s ->
  returns s (eat c) e s (fun b s' => if b then in_current s = ch c /\ in_pos s < in_pos s' else s' = s).
Proof.
  intros Hs. pose proof (moves_refl s Hs) as Hr.
  assert (Hb : returns s (eat c ≫= mret) e s (fun b s' =>
    if b then in_current s = ch c /\ in_pos s < in_pos s' else s' = s)).
  { apply returns_eat; [done|by apply returns_ret|]. intros s' ? ? ? ?. by apply returns_ret. }
  unfold returns in *. change ((eat c ≫= mret) e s) with
    (match eat c e s with
     | Done (Ok a, s') => Done (Ok a, s') | Done (Err x, s') => Done (Err x, s')
     | Panicked => Panicked | Faulted => Faulted | OutOfFuel => OutOfFuel end) in Hb.
  by destruct (eat c e s) as [[[]]| | |].
Qed.

Lemma parses_eat {B} c (f : bool -> M B) p Q : parser_ok p ->
  parses (f false) p Q ->
  (forall p', step p p' -> in_pos (rp_stream p) < in_pos (rp_stream p') -> parses (f true) p' Q) ->
  parses (lex (eat c) ≫= f) p Q.
Proof.
  intros Hp Hfalse Htrue. eapply parses_lex_bind; [by apply returns_eat_tail, ok_stream|].
  intros [|] s Hm Hs; cbn beta iota in Hs.
  - destruct Hs as [_ Hlt]. destruct (stream_ok p s Hp Hm) as [Hok Hg].
    apply Htrue; [by split; [..|by destruct p]|by destruct p].
  - subst. by rewrite set_stream_id.
Qed.

Lemma returns_expect_tail c e s : in_ok s -> returns s (expect c) e s (fun _ _ => True).
Proof.
  intros Hs. pose proof (moves_refl s Hs) as Hr. unfold expect. apply returns_current. destruct (negb _).
  - by apply returns_error.
  - eapply returns_weaken; [by apply returns_advance_tail|done].
Qed.

Lemma parses_expect {B} c (f : unit -> M B) p Q : parser_ok p ->
  (forall p', step p p' -> parses (f tt) p' Q) -> parses (lex (expect c) ≫= f) p Q.
Proof.
  intros Hp Hf. eapply parses_call; [done|by apply returns_expect_tail, ok_stream|].
  intros [] p' Hs _. by apply Hf.
Qed.

(** ** Automation *)

Ltac px_step :=
  lazymatch goal with
  | |- parses (mret _) _ _ => apply parses_ret
  | |- parses (lex (error _ _)) _ _ => exact I
  | |- parses (lex (error_unexpected_token _)) _ _ => exact I
  | |- parses (lex unexpected_here) _ _ => exact I
  | |- parses (if ?b then _ else _) _ _ => let E := fresh "E" in destruct b eqn:E
  | |- parses (?m ≫= _) _ _ =>
      lazymatch m with
      | gets _ => apply parses_gets
      | modify _ => apply parses_modify
      | lex current => apply parses_current
      | lex pos => apply parses_pos
      | lex is_end => apply parses_is_end
      | lex remaining => apply parses_remaining; intros ? ?
      | lex peek => apply parses_peek; [assumption|intros ? ? ?]
      | lex advance => apply parses_advance; [assumption|lia|intros ? ? ? ?]
      | lex advance2 => apply parses_advance; [assumption|lia|intros ? ? ? ?]
      | lex (eat _) => apply parses_eat; [assumption| |intros ? ? ?]
      | lex (expect _) => apply parses_expect; [assumption|intros ? ?]
      | lex _ => eapply parses_call; [assumption|solve [eauto using ok_stream with lexical]|
                   let HP := fresh "HP" in intros ? ? ? HP; cbn beta in HP]
      end
  end; cbn [negb];
  repeat match goal with H : step _ ?p |- _ =>
    lazymatch goal with K : parser_ok p |- _ => fail | _ => pose proof (step_ok _ _ H) end end.

(** ** Back references and escapes *)

Definition node_in (p : RegExpParser) (i : Z) : Prop := 0 <= i < num_nodes p.

(** A term that was parsed from [p] to [p']. *)
Record parsed (p : RegExpParser) (t : Term) (p' : RegExpParser) : Prop := {
  parsed_ok : parser_ok p';
  parsed_grows : grows p p' (groups_of t);
  parsed_wf : term_wf (node_in p') t;
  parsed_pos : in_pos (rp_stream p) < in_pos (rp_stream p');
}.

(** A term without groups, nodes or nested patterns. *)
Lemma parsed_leaf p t p' : step p p' -> groups_of t = [] -> term_wf (node_in p') t ->
  in_pos (rp_stream p) < in_pos (rp_stream p') -> parsed p t p'.
Proof. intros [] Hg Hw Hp. split; try done. by rewrite Hg. Qed.

Lemma step_trans p1 p2 p3 : step p1 p2 -> step p2 p3 -> step p1 p3.
Proof.
  intros [] []. split; [done| |congruence]. exact (grows_trans _ _ _ [] [] step_grows0 step_grows1).
Qed.

Lemma step_refl p : parser_ok p -> step p p.
Proof. intros Hp. split; [done|by apply grows_refl, ok_stream|done]. Qed.

Lemma step_env p p' : step p p' -> rp_env p' = rp_env p.
Proof. intros []. apply step_grows0. Qed.
Lemma step_moves p p' : step p p' -> moves (rp_stream p) (rp_stream p').
Proof. intros []. apply step_grows0. Qed.

(** Adding an indexed reference, with its node. *)
Definition with_indexed (maybe : bool) (index pos : Z) (p : RegExpParser) : RegExpParser :=
  add_node index ((if maybe then add_maybe_backreference pos index else id)
    (add_indexed_backreference index pos p)).
Definition with_named (name : AstStr) (pos : Z) (p : RegExpParser) : RegExpParser :=
  add_named_backreference name pos (num_nodes p) (add_node 0 p).

Lemma nodes_snoc_lookup (nodes : list Z) v k w : (nodes ++ [v]) !! k = Some w ->
  nodes !! k = Some w \/ (k = length nodes /\ w = v).
Proof.
  intros [Hk|[Hk Hw]]%lookup_app_Some; [by left|right].
  apply list_lookup_singleton_Some in Hw as [? ?]. split; [lia|done].
Qed.

Lemma with_indexed_ok maybe index pos p : parser_ok p -> 1 <= index ->
  parser_ok (with_indexed maybe index pos p) /\ grows p (with_indexed maybe index pos p) [] /\
  num_nodes (with_indexed maybe index pos p) = num_nodes p + 1.
Proof.
  intros Hp Hi. assert (Hs : in_ok (rp_stream p)) by by apply ok_stream.
  destruct p as [st e n g ns cn sc d nb ib mb ap gd nd], Hp. split_and!.
  - split; try (by destruct maybe). intros k v Hk.
    assert (Hk' : (nd ++ [index]) !! k = Some v) by by destruct maybe.
    clear Hk. destruct (nodes_snoc_lookup _ _ _ _ Hk') as [Hk|[-> ->]].
    + destruct (ok_nodes0 k v Hk) as [(Hv & q & Hq)|(name & q & Hq)].
      * left. split; [done|]. exists q. destruct maybe; cbn in *; set_solver.
      * right. exists name, q. by destruct maybe.
    + left. split; [done|]. exists pos. destruct maybe; cbn; set_solver.
  - split; [destruct maybe; by apply moves_refl|by destruct maybe| |
      by destruct maybe; cbn; rewrite app_nil_r|by destruct maybe].
    unfold num_nodes. destruct maybe; cbn; rewrite length_app; cbn; lia.
  - unfold num_nodes. destruct maybe; cbn; rewrite length_app; cbn; lia.
Qed.

Lemma with_named_ok name pos p : parser_ok p ->
  parser_ok (with_named name pos p) /\ grows p (with_named name pos p) [] /\
  num_nodes (with_named name pos p) = num_nodes p + 1.
Proof.
  intros Hp. assert (Hs : in_ok (rp_stream p)) by by apply ok_stream.
  destruct p as [st e n g ns cn sc d nb ib mb ap gd nd], Hp. split_and!.
  - split; try done. intros k v Hk. cbn in Hk. destruct (nodes_snoc_lookup _ _ _ _ Hk) as [Hk'|[-> ->]].
    + destruct (ok_nodes0 k v Hk') as [?|(name' & q & Hq)]; [by left|right].
      exists name', q. cbn in *. set_solver.
    + right. exists name, pos. cbn. unfold num_nodes. cbn. set_solver.
  - split; [by apply moves_refl|done| |by cbn; rewrite app_nil_r|done].
    unfold num_nodes. cbn. rewrite length_app. cbn. lia.
  - unfold num_nodes. cbn. rewrite length_app. cbn. lia.
Qed.

(** The term of a new node. *)
Lemma parsed_node p p1 p2 : step p p1 -> in_pos (rp_stream p) < in_pos (rp_stream p1) ->
  parser_ok p2 -> grows p1 p2 [] -> rp_stream p2 = rp_stream p1 -> num_nodes p2 = num_nodes p1 + 1 ->
  parsed p (BackreferenceTerm (num_nodes p1)) p2.
Proof.
  intros Hs Hp Hok Hg Est Hn. split; [done| | |by rewrite Est].
  - exact (grows_trans _ _ _ [] [] (step_grows _ _ Hs) Hg).
  - cbn. unfold node_in. unfold num_nodes in *. lia.
Qed.

(** Sequences of steps, and the positions along them. *)
Ltac chain :=
  match goal with |- step ?p ?q =>
    first [assumption
          |match goal with H : step ?x q |- _ => apply (step_trans p x q); [chain|exact H] end
          |apply step_refl; assumption] end.
Ltac ppos :=
  repeat match goal with
    | H : step ?a ?b |- _ =>
        lazymatch goal with
        | K : in_pos (rp_stream a) <= in_pos (rp_stream b) |- _ => fail
        | _ => pose proof (moves_pos _ _ (step_moves _ _ H)); pose proof (moves_len _ _ (step_moves _ _ H))
        end
    end.

Lemma indexed_backreference_parses p start_pos : parser_ok p ->
  (forall s', in_advance_n (rp_stream p) 1 = Done s' -> 49 <= in_current s') ->
  in_current (rp_stream p) <> EOF_CHAR ->
  parses (parse_indexed_backreference start_pos) p (fun t p' => parsed p t p').
Proof.
  intros Hp Hd Hc. pose proof (current_before_end _ (ok_stream _ Hp) Hc).
  unfold parse_indexed_backreference. px_step. rename p' into p1. px_step. rename p' into p2.
  destruct a as [index|]; [|px_step].
  destruct (HP index eq_refl) as [_ Hi]. specialize (Hd (rp_stream p1) ltac:(done)). px_step; [|px_step].
  assert (Hs : step p p2) by chain.
  assert (Hlt : in_pos (rp_stream p) < in_pos (rp_stream p2)) by (ppos; lia).
  assert (Hrest : forall maybe : bool, parses
    (node ← new_backreference index; mret (BackreferenceTerm node) : M Term)
    ((if maybe then add_maybe_backreference start_pos index else id)
       (add_indexed_backreference index start_pos p2)) (fun t p' => parsed p t p')).
  { intros maybe. destruct (with_indexed_ok maybe index start_pos p2) as (Hok & Hg & Hn); [done|lia|].
    assert (parsed p (BackreferenceTerm (num_nodes p2)) (with_indexed maybe index start_pos p2)).
    { apply (parsed_node p p2); try done. destruct p2; by destruct maybe. }
    destruct p2; by destruct maybe. }
  px_step. px_step. destruct (_ && _).
  - apply (Hrest true).
  - apply (Hrest false).
Qed.

Lemma named_backreference_parses p start_pos : parser_ok p -> in_current (rp_stream p) <> EOF_CHAR ->
  parses (parse_named_backreference start_pos) p (fun t p' => parsed p t p').
Proof.
  intros Hp Hc. pose proof (current_before_end _ (ok_stream _ Hp) Hc).
  unfold parse_named_backreference. px_step. px_step. px_step. px_step. rename p'2 into p4.
  assert (Hs : step p p4) by chain.
  assert (Hlt : in_pos (rp_stream p) < in_pos (rp_stream p4)) by (ppos; lia).
  destruct (with_named_ok a start_pos p4) as (Hok & Hg & Hn); [done|].
  assert (parsed p (BackreferenceTerm (num_nodes p4)) (with_named a start_pos p4)).
  { apply (parsed_node p p4); try done. by destruct p4. }
  by destruct p4.
Qed.

Lemma shorthand_parses p r : parser_ok p -> in_current (rp_stream p) <> EOF_CHAR -> range_wf r ->
  parses (shorthand_term r) p (fun t p' => parsed p t p').
Proof.
  intros Hp Hc Hr. pose proof (current_before_end _ (ok_stream _ Hp) Hc).
  unfold shorthand_term. px_step. px_step. apply parsed_leaf; [done|done| |lia]. by apply union_wf, Forall_singleton.
Qed.

Lemma literal_parses p p0 c : step p0 p -> in_pos (rp_stream p0) < in_pos (rp_stream p) -> code_point_in c ->
  parses (literal_term c) p (fun t p' => parsed p0 t p').
Proof.
  intros Hs Hp Hc. unfold literal_term. pose proof (step_ok _ _ Hs).
  eapply (parses_call (push_code_point [] c) _ p (fun r s => r = [c] /\ s = rp_stream p)); [done| |].
  - unfold push_code_point, returns. rewrite (proj2 (Z.leb_le 0 c)), (proj2 (Z.leb_le c _)) by apply Hc.
    cbn. split; [by apply moves_refl, ok_stream|]. by intros ? [= <-].
  - intros r p' Hst [-> E]. px_step. apply parsed_leaf; [chain|done| |ppos; lia].
    cbn. split; [done|]. by apply Forall_singleton.
Qed.

Lemma escape_literal_parses p : parser_ok p -> in_current (rp_stream p) <> EOF_CHAR ->
  parses escape_literal p (fun t p' => parsed p t p').
Proof.
  intros Hp Hc. unfold escape_literal. px_step. destruct HP. by apply literal_parses.
Qed.

Lemma escape_parses p : parser_ok p -> in_current (rp_stream p) = ch "\" ->
  parses parse_escape p (fun t p' => parsed p t p').
Proof.
  intros Hp Hc. assert (Hne : in_current (rp_stream p) <> EOF_CHAR) by (rewrite Hc; by vm_compute).
  pose proof (current_before_end _ (ok_stream _ Hp) Hne). unfold parse_escape. px_step. px_step. px_step.
  do 6 (px_step; [by apply shorthand_parses|]).
  do 2 (px_step; [px_step; px_step; apply parsed_leaf; [done|done|done|lia]|]).
  px_step.
  { eapply (parses_bind _ _ _ (fun _ p' => p' = p)).
    - unfold parses, is_annex_b_backreference_like_escape_sequence.
      destruct (rp_already_parsed p) eqn:Ea; [|done]. destruct (rp_maybe_backreferences p !! _); cbn; [done|].
      apply (ok_already _ Hp). by rewrite Ea.
    - intros b p' ->. px_step; [|by apply escape_literal_parses]. apply indexed_backreference_parses; [done| |done].
      intros s' Ha. rewrite between_spec in E7. apply bool_decide_eq_true in E7. chars.
      rewrite (in_peek_ascii (rp_stream p) 1 s' c); [lia|by apply ok_stream|lia|done|done|lia|].
      rewrite Hc. lia. }
  px_step; [by apply named_backreference_parses|].
  do 2 (px_step; [px_step; px_step; destruct HP as [? Hr]; apply parsed_leaf; [done|done| |done];
    apply union_wf, Forall_singleton; by destruct a|]).
  by apply escape_literal_parses.
Qed.

(** ** Groups *)

Record parsed_disjunction (p : RegExpParser) (d : list (list Term)) (p' : RegExpParser) : Prop := {
  pd_ok : parser_ok p';
  pd_grows : grows p p' (groups_of_disjunction d);
  pd_wf : disjunction_wf (node_in p') d;
}.

Lemma term_wf_grows p p' gs (t : Term) : grows p p' gs -> term_wf (node_in p) t -> term_wf (node_in p') t.
Proof. intros Hg. apply term_wf_weaken. intros i. unfold node_in. pose proof (grows_nodes _ _ _ Hg). lia. Qed.

Lemma parsed_disjunction_step p d p1 p2 : parsed_disjunction p d p1 -> step p1 p2 -> parsed_disjunction p d p2.
Proof.
  intros [Hok Hg [Hne Hw]] Hs. split; [apply Hs| |split; [done|]].
  - rewrite <- (app_nil_r (groups_of_disjunction d)). exact (grows_trans _ _ _ _ [] Hg (step_grows _ _ Hs)).
  - eapply Forall_impl; [exact Hw|]. intros alt Ha. eapply Forall_impl; [exact Ha|]. intros t Ht.
    by eapply term_wf_grows; [apply Hs|].
Qed.

(** Scopes and the depth of groups do not matter for the invariant. *)
Lemma enter_scope_step name p : parser_ok p -> step p (enter_scope name p).
Proof. intros Hp. pose proof (step_refl p Hp) as [[] []]. destruct p. by split; split. Qed.
Lemma set_scope_step scope p : parser_ok p -> step p (set_scope scope p).
Proof. intros Hp. pose proof (step_refl p Hp) as [[] []]. destruct p. by split; split. Qed.
Lemma leave_scope_step scope p : parser_ok p -> step p (leave_scope scope p).
Proof. intros Hp. pose proof (step_refl p Hp) as [[] []]. destruct p. by split; split. Qed.
Lemma group_depth_step k p : parser_ok p -> step p (add_group_depth k p).
Proof. intros Hp. pose proof (step_refl p Hp) as [[] []]. destruct p. by split; split. Qed.

(** A new group, with or without a name. *)
Definition with_group (name : option AstStr) (p : RegExpParser) : RegExpParser :=
  match name with
  | Some n => add_group_name n (num_groups p + 1) (add_capture_group name p)
  | None => add_capture_group name p
  end.

Lemma names_list_snoc groups g :
  names_list (groups ++ [g]) = names_list groups ++ match g with Some n => [n] | None => [] end.
Proof. unfold names_list. rewrite omap_app. by destruct g. Qed.

Lemma duplicate_snoc groups n d : (d = true <-> ~ NoDup (names_list groups)) ->
  (match names_of groups !! n with Some _ => true | None => d end = true) <->
  ~ NoDup (names_list (groups ++ [Some n])).
Proof.
  intros Hd. rewrite names_list_snoc, NoDup_app. pose proof (names_of_spec groups n) as Hn.
  destruct (names_of groups !! n) as [i|].
  - destruct Hn as (_ & Hl & _). split; [|done]. intros _ (_ & Hnot & _). apply (Hnot n); [|set_solver].
    unfold names_list. apply list_elem_of_omap. exists (Some n). split; [|done]. by eapply list_elem_of_lookup_2.
  - rewrite Hd. split; intros Hnd Ha; apply Hnd; [apply Ha|]. split; [done|]. split; [|apply NoDup_singleton].
    intros x Hx ->%list_elem_of_singleton. done.
Qed.

Lemma with_group_ok name p : parser_ok p -> num_groups p + 1 < u32_max / 2 ->
  parser_ok (with_group name p) /\ grows p (with_group name p) [(num_groups p + 1, name)].
Proof.
  intros Hp Hl. pose proof (ok_names _ Hp) as Hnames. pose proof (ok_count _ Hp) as Hcount.
  assert (Hg : rp_capture_groups (with_group name p) = rp_capture_groups p ++ [name])
    by (by destruct p, name).
  assert (Hn : num_groups (with_group name p) = num_groups p + 1).
  { unfold num_groups. rewrite Hg, length_app. cbn. lia. }
  split; split.
  - destruct p, name; apply Hp.
  - rewrite Hn, <- Hcount. by destruct p, name.
  - by rewrite Hn.
  - rewrite Hg, names_of_snoc, <- Hnames. by destruct p, name.
  - rewrite Hg. pose proof (ok_duplicate _ Hp) as Hd. destruct name as [n|].
    + rewrite <- (duplicate_snoc _ n (rp_has_duplicate p) Hd), <- Hnames. by destruct p.
    + rewrite names_list_snoc, app_nil_r, <- Hd. by destruct p.
  - pose proof (ok_nodes _ Hp). by destruct p, name.
  - pose proof (ok_already _ Hp). by destruct p, name.
  - destruct p, name; apply moves_refl, Hp.
  - by destruct p, name.
  - destruct p, name; apply Z.le_refl.
  - done.
  - done.
Qed.

Lemma new_capture_group_parses {B} pos name (f : Z -> M B) p Q : parser_ok p ->
  (num_groups p + 1 < u32_max / 2 ->
   parses (f (num_groups p + 1)) (add_capture_group name p) Q) ->
  parses (new_capture_group pos name ≫= f) p Q.
Proof.
  intros Hp Hf. eapply (parses_bind _ _ _ (fun i p' => i = num_groups p + 1 /\
    p' = add_capture_group name p /\ num_groups p + 1 < u32_max / 2)).
  - unfold new_capture_group.
    eapply (parses_bind _ _ _ (fun i p' => i = num_groups p + 1 /\ p' = p /\ num_groups p + 1 < u32_max / 2)).
    + unfold next_capture_group_index. px_step. rewrite (ok_count _ Hp). px_step; [px_step|].
      apply Z.leb_gt in E. by px_step.
    + intros i p' (-> & -> & Hl). px_step. by px_step.
  - intros i p' (-> & -> & Hl). by apply Hf.
Qed.

Section NestedGroups.

Context (depth : nat) (disjunction : M (Disjunction UnicodeProperty)).

Definition room (p : RegExpParser) (n : Z) : Prop := in_len (rp_stream p) - in_pos (rp_stream p) < n.

Hypothesis disjunction_parses : forall p, parser_ok p -> room p (Z.of_nat depth) ->
  parses disjunction p (fun d p' => parsed_disjunction p d p').

Lemma group_body_parses p : parser_ok p -> room p (Z.of_nat depth) ->
  parses (group_body disjunction) p (fun d p' => parsed_disjunction p d p').
Proof.
  intros Hp Hr. unfold group_body. eapply parses_bind; [by apply disjunction_parses|].
  intros d p1 Hd. pose proof (pd_ok _ _ _ Hd). px_step. px_step. by eapply parsed_disjunction_step.
Qed.

(** Terms around a disjunction. *)
Lemma parsed_around p p1 gs d p2 t : parser_ok p -> grows p p1 gs -> parsed_disjunction p1 d p2 ->
  in_pos (rp_stream p) < in_pos (rp_stream p1) ->
  groups_of t = gs ++ groups_of_disjunction d ->
  (d <> [] /\ every (every (term_wf (node_in p2))) d -> term_wf (node_in p2) t) ->
  parsed p t p2.
Proof.
  intros Hp Hg [Hok Hgd Hw] Hlt Hgr Ht. split; [done| | |].
  - rewrite Hgr. by eapply grows_trans.
  - by apply Ht, disjunction_wf_iff.
  - pose proof (moves_pos _ _ (grows_moves _ _ _ Hgd)). lia.
Qed.

(** The body of a group, reached from [p] by steps. *)
Lemma group_term_parses p p1 (f : list (list Term) -> Term) :
  step p p1 -> in_pos (rp_stream p) < in_pos (rp_stream p1) -> parser_ok p -> room p (Z.of_nat depth + 1) ->
  (forall d, groups_of (f d) = groups_of_disjunction d) ->
  (forall d Q, term_wf Q (f d) <-> d <> [] /\ every (every (term_wf Q)) d) ->
  parses (d ← group_body disjunction; mret (f d)) p1 (fun t p' => parsed p t p').
Proof.
  intros Hs Hlt Hp Hr Hg Hw. unfold room in *. ppos.
  eapply parses_bind; [apply group_body_parses; [apply Hs|unfold room; lia]|].
  intros d p2 Hd. px_step. apply (parsed_around p p1 [] d p2); try done; [apply Hs|]. by intros; apply Hw.
Qed.

Lemma capture_group_parses p p1 p2 name :
  step p p1 -> in_pos (rp_stream p) < in_pos (rp_stream p1) -> parser_ok p -> room p (Z.of_nat depth + 1) ->
  num_groups p1 + 1 < u32_max / 2 -> step (with_group name p1) p2 ->
  parses (group_body disjunction) p2 (fun d p' => parsed p (CaptureGroupTerm name (num_groups p1 + 1) d) p').
Proof.
  intros Hs Hlt Hp Hr Hl Hs2. unfold room in *.
  destruct (with_group_ok name p1 (step_ok _ _ Hs) Hl) as [Hok Hg].
  pose proof (moves_pos _ _ (grows_moves _ _ _ Hg)). pose proof (moves_len _ _ (grows_moves _ _ _ Hg)). ppos.
  eapply parses_weaken; [apply group_body_parses; [apply Hs2|unfold room; lia]|].
  intros d p3 Hd. apply (parsed_around p p2 [(num_groups p1 + 1, name)] d p3); try done; [|lia].
  apply (grows_trans p p1 p2 [] [(num_groups p1 + 1, name)]); [apply Hs|].
  exact (grows_trans _ _ _ [_] [] Hg (step_grows _ _ Hs2)).
Qed.

Lemma lookaround_parses p p1 a b :
  step p p1 -> in_pos (rp_stream p) < in_pos (rp_stream p1) -> parser_ok p -> room p (Z.of_nat depth + 1) ->
  parses (lookaround disjunction a b) p1 (fun t p' => parsed p t p').
Proof.
  intros Hs Hlt Hp Hr. unfold lookaround. pose proof (step_ok _ _ Hs). px_step.
  apply (group_term_parses p p' (LookaroundTerm a b)); try done; [chain|ppos; lia].
Qed.

Lemma named_group_parses p p1 pos :
  step p p1 -> in_pos (rp_stream p) < in_pos (rp_stream p1) -> parser_ok p -> room p (Z.of_nat depth + 1) ->
  parses (parse_named_group disjunction pos) p1 (fun t p' => parsed p t p').
Proof.
  intros Hs Hlt Hp Hr. pose proof (step_ok _ _ Hs). unfold parse_named_group. px_step. px_step. px_step.
  rename p'0 into p3, a into name.
  apply new_capture_group_parses; [done|]. intros Hl.
  destruct (with_group_ok (Some name) p3) as [Hok Hg]; [done|done|].
  px_step. change (add_group_name name (num_groups p3 + 1) (add_capture_group (Some name) p3))
    with (with_group (Some name) p3).
  px_step. px_step; [px_step|]. px_step.
  eapply parses_bind; [apply (capture_group_parses p p3 _ (Some name)); try done; [chain|ppos; lia|]|].
  { by apply enter_scope_step. }
  intros d p4 Hd. px_step. px_step; [px_step; px_step|]. by px_step.
Qed.

Lemma parse_group_parses p : parser_ok p -> room p (Z.of_nat depth + 1) ->
  in_current (rp_stream p) <> EOF_CHAR ->
  parses (parse_group disjunction) p (fun t p' => parsed p t p').
Proof.
  intros Hp Hr Hc. pose proof (current_before_end _ (ok_stream _ Hp) Hc).
  unfold parse_group. px_step. rename p' into p1. px_step. px_step.
  - apply new_capture_group_parses; [done|]. intros Hl.
    destruct (with_group_ok None p1) as [Hok Hg]; [done|done|].
    eapply parses_bind; [apply (capture_group_parses p p1 _ None); try done; [lia|by apply step_refl]|].
    intros d p4 Hd. by px_step.
  - rename p' into p2. assert (Hs : step p p2) by chain.
    assert (in_pos (rp_stream p) < in_pos (rp_stream p2)) by (ppos; lia).
    px_step. px_step.
    { px_step. apply (group_term_parses p p' (fun d => AnonymousGroupTerm d 0 0)); try done; [chain|ppos; lia]. }
    do 2 (px_step; [by apply lookaround_parses|]).
    px_step.
    { px_step. rename p' into p3. assert (step p p3) by chain.
      assert (in_pos (rp_stream p) < in_pos (rp_stream p3)) by (ppos; lia).
      px_step. do 2 (px_step; [by apply lookaround_parses|]). by apply named_group_parses. }
    px_step; [|px_step]. px_step. rename p' into p3. destruct a as [pos_m neg_m].
    apply (group_term_parses p p3 (fun d => AnonymousGroupTerm d pos_m neg_m)); try done; [chain|ppos; lia].
Qed.

(** A step before and after a term. *)
Lemma parsed_between p p1 t p2 p3 : step p p1 -> parsed p1 t p2 -> step p2 p3 -> parsed p t p3.
Proof.
  intros Hs1 [Hok Hg Hw Hlt] Hs2. ppos. split; [apply Hs2| | |lia].
  - rewrite <- (app_nil_l (groups_of t)), <- (app_nil_r (groups_of t)).
    eapply grows_trans; [apply Hs1|]. eapply grows_trans; [exact Hg|apply Hs2].
  - by eapply term_wf_grows; [apply Hs2|].
Qed.

Lemma atom_parses p : parser_ok p -> room p (Z.of_nat depth + 1) ->
  parses (parse_atom disjunction) p (fun t p' => parsed p t p').
Proof.
  intros Hp Hr. unfold parse_atom. px_step. px_step.
  assert (Hne : forall c, (in_current (rp_stream p) =? ch c) = true -> in_current (rp_stream p) <> EOF_CHAR).
  { intros c ->%Z.eqb_eq. unfold ch, EOF_CHAR. pose proof (N_ascii_bounded c). lia. }
  assert (Hlt : forall c, (in_current (rp_stream p) =? ch c) = true ->
    in_pos (rp_stream p) < in_len (rp_stream p)).
  { intros c Hc. apply current_before_end; [by apply ok_stream|by eapply Hne]. }
  px_step; [specialize (Hlt _ E); px_step; px_step; apply parsed_leaf; [done|done|done|lia]|].
  px_step.
  { pose proof (Hne _ E0). px_step. eapply parses_bind.
    - apply parse_group_parses; [by apply group_depth_step|by destruct p|by destruct p].
    - intros t p1 Ht. px_step. px_step. eapply parsed_between; [by apply group_depth_step|exact Ht|].
      apply group_depth_step, Ht. }
  px_step.
  { pose proof (Hne _ E1). px_step; px_step.
    - destruct a as [c b]. destruct HP. px_step. by apply parsed_leaf.
    - destruct HP. px_step. by apply parsed_leaf. }
  do 2 (px_step; [match goal with E : _ = true |- _ => specialize (Hlt _ E) end;
    px_step; px_step; apply parsed_leaf; [done|done|done|lia]|]).
  px_step; [apply escape_parses; [done|by apply Z.eqb_eq]|].
  px_step. destruct HP. by apply literal_parses.
Qed.

Lemma term_parses p : parser_ok p -> room p (Z.of_nat depth + 1) ->
  parses (parse_term disjunction) p (fun t p' => parsed p t p').
Proof.
  intros Hp Hr. unfold parse_term. eapply parses_bind; [by apply atom_parses|]. intros t p1 Ht.
  eapply parses_lex; [by apply quantifier_returns, ok_stream, Ht|]. intros t' s Hm Hq.
  destruct (stream_ok p1 s (parsed_ok _ _ _ Ht) Hm) as [Hok Hg].
  assert (Hs : step p1 (set_stream s p1)) by (split; [done|done|by destruct p1]).
  pose proof (parsed_between p p t p1 _ (step_refl p Hp) Ht Hs) as [].
  destruct Hq as [->|(lo & hi & g & -> & Hb)]; split; try done.
Qed.

(** ** Alternatives *)

Record parsed_alternative (p : RegExpParser) (alt : list Term) (p' : RegExpParser) : Prop := {
  pa_ok : parser_ok p';
  pa_grows : grows p p' (groups_of_alternative alt);
  pa_wf : Forall (term_wf (node_in p')) alt;
}.

Lemma alternative_ends_parses {B} (f : bool -> M B) p Q :
  (forall b, parses (f b) p Q) -> parses (alternative_ends ≫= f) p Q.
Proof.
  intros Hf. eapply (parses_bind _ _ _ (fun _ p' => p' = p)); [|by intros b p' ->].
  unfold alternative_ends. repeat px_step; done.
Qed.

(** The literal that is being collected has no groups. *)
Lemma push_term_spec p0 p1 terms literal t p2 terms' literal' :
  parsed_alternative p0 terms p1 -> Forall code_point_in literal -> parsed p1 t p2 ->
  push_term terms literal t = (terms', literal') ->
  parsed_alternative p0 terms' p2 /\ Forall code_point_in literal'.
Proof.
  intros [Hok Hg Hw] Hl [Hok2 Hg2 Hw2 Hlt] Hpush.
  assert (Hterms : Forall (term_wf (node_in p2)) terms).
  { eapply Forall_impl; [exact Hw|]. intros. by eapply term_wf_grows. }
  assert (Hgr : grows p0 p2 (groups_of_alternative terms ++ groups_of t)) by by eapply grows_trans.
  assert (Happ : forall l : list Term,
    groups_of_alternative l = groups_of t -> Forall (term_wf (node_in p2)) l ->
    parsed_alternative p0 (terms ++ l) p2).
  { intros l El Hfl. split; [done| |by apply Forall_app]. unfold groups_of_alternative in *.
    by rewrite flat_map_app, El. }
  assert (Hone : Forall (term_wf (node_in p2)) [t]) by by apply Forall_singleton.
  assert (Hgt : groups_of_alternative [t] = groups_of t) by (cbn; by rewrite app_nil_r).
  assert (Hcase : (exists str, t = LiteralTerm str) \/
    push_term terms literal t = if bool_decide (literal = []) then (terms ++ [t], literal)
                                else (terms ++ [LiteralTerm literal; t], []))
    by (destruct t; eauto).
  destruct Hcase as [[str ->]|Hcase].
  - injection Hpush as <- <-. split; [|apply Forall_app; split; [done|apply Hw2]].
    rewrite <- (app_nil_r terms). apply Happ; [done|constructor].
  - rewrite Hcase in Hpush. case_bool_decide; injection Hpush as <- <-; [split; [by apply Happ|done]|].
    split; [|constructor]. apply Happ; [exact Hgt|]. constructor; [by split|done].
Qed.

Lemma finish_alternative_spec p0 p terms literal :
  parsed_alternative p0 terms p -> Forall code_point_in literal ->
  parsed_alternative p0 (finish_alternative terms literal) p.
Proof.
  intros [Hok Hg Hw] Hl. unfold finish_alternative. case_bool_decide; [done|]. split; [done| |].
  - unfold groups_of_alternative in *. rewrite flat_map_app. cbn. by rewrite app_nil_r.
  - apply Forall_app. split; [done|]. by apply Forall_singleton.
Qed.

Lemma alternative_loop_parses fuel : forall p0 p terms literal,
  parsed_alternative p0 terms p -> Forall code_point_in literal ->
  room p (Z.of_nat fuel) -> room p (Z.of_nat depth + 1) ->
  parses (alternative_loop disjunction fuel terms literal) p (fun alt p' => parsed_alternative p0 alt p').
Proof.
  induction fuel as [|fuel IH]; intros p0 p terms literal Ha Hl Hf Hr.
  { pose proof (in_pos_range _ (ok_stream _ (pa_ok _ _ _ Ha))). unfold room in Hf. lia. }
  cbn [alternative_loop]. apply alternative_ends_parses. intros [|].
  { px_step. by apply finish_alternative_spec. }
  eapply parses_bind; [by apply term_parses; [apply Ha|]|]. intros t p1 Ht.
  destruct (push_term terms literal t) as [terms' literal'] eqn:E.
  destruct (push_term_spec p0 p terms literal t p1 terms' literal') as [Ha' Hl']; [done..|].
  pose proof (parsed_pos _ _ _ Ht). pose proof (moves_len _ _ (grows_moves _ _ _ (parsed_grows _ _ _ Ht))).
  unfold room in *. apply IH; [done|done|unfold room; lia..].
Qed.

Lemma alternative_parses p : parser_ok p -> room p (Z.of_nat depth + 1) ->
  parses (parse_alternative disjunction) p (fun alt p' => parsed_alternative p alt p').
Proof.
  intros Hp Hr. unfold parse_alternative. px_step. apply alternative_loop_parses; try done.
  split; [done|by apply grows_refl, ok_stream|constructor].
Qed.

Lemma disjunction_loop_parses fuel : forall p0 p d,
  parser_ok p -> grows p0 p (groups_of_disjunction d) -> Forall (Forall (term_wf (node_in p))) d ->
  room p (Z.of_nat fuel) -> room p (Z.of_nat depth + 1) ->
  parses (disjunction_loop disjunction fuel d) p (fun d p' => parsed_disjunction p0 d p').
Proof.
  induction fuel as [|fuel IH]; intros p0 p d Hp Hg Hw Hf Hr.
  { pose proof (in_pos_range _ (ok_stream _ Hp)). unfold room in Hf. lia. }
  cbn [disjunction_loop]. px_step. px_step. pose proof (set_scope_step [] p Hp) as Hs.
  eapply parses_bind; [apply alternative_parses; [apply Hs|by destruct p]|]. intros alt p1 [Hok1 Hg1 Hw1].
  px_step. pose proof (leave_scope_step (rp_name_scope p) p1 Hok1) as Hs1.
  set (p2 := leave_scope (rp_name_scope p) p1) in *.
  assert (Hg2 : grows p p2 (groups_of_alternative alt)).
  { rewrite <- (app_nil_l (groups_of_alternative alt)), <- (app_nil_r (groups_of_alternative alt)).
    eapply grows_trans; [apply Hs|]. eapply grows_trans; [exact Hg1|apply Hs1]. }
  assert (Hd : forall p3 extra, grows p2 p3 [] -> Forall (Forall (term_wf (node_in p3))) extra ->
    groups_of_disjunction extra = [] ->
    grows p0 p3 (groups_of_disjunction (d ++ alt :: extra)) /\
    Forall (Forall (term_wf (node_in p3))) (d ++ alt :: extra)).
  { intros p3 extra Hg3 Hw3 He. assert (Hg23 : grows p p3 (groups_of_alternative alt)).
    { rewrite <- (app_nil_r (groups_of_alternative alt)). by eapply grows_trans. }
    split.
    - unfold groups_of_disjunction in *. rewrite flat_map_app. cbn. rewrite He, app_nil_r.
      by eapply grows_trans.
    - apply Forall_app. split; [|constructor; [|done]].
      + eapply Forall_impl; [exact Hw|]. intros a Ha. eapply Forall_impl; [exact Ha|]. intros.
        by eapply term_wf_grows.
      + eapply Forall_impl; [exact Hw1|]. intros. eapply term_wf_grows; [exact Hg3|].
        eapply term_wf_grows; [apply Hs1|done]. }
  assert (Hok2 : parser_ok p2) by apply Hs1.
  px_step.
  { px_step. destruct (Hd p2 []) as [Hgd Hwd]; [by apply grows_refl, ok_stream|done|done|].
    split; [done|done|]. split; [by destruct d|done]. }
  px_step. px_step.
  { px_step. destruct (Hd p' [[]]) as [Hgd Hwd]; [by apply step_grows|by repeat constructor|done|].
    split; [done|done|]. split; [by destruct d|done]. }
  destruct (Hd p' []) as [Hgd Hwd]; [by apply step_grows|done|done|].
  pose proof (grows_moves _ _ _ Hg2) as Hm2. pose proof (moves_pos _ _ Hm2). pose proof (moves_len _ _ Hm2). ppos.
  unfold room in *. apply IH; try done; unfold room; lia.
Qed.

End NestedGroups.

Lemma disjunction_parses fuel : forall p, parser_ok p -> room p (Z.of_nat fuel) ->
  parses (parse_disjunction fuel) p (fun d p' => parsed_disjunction p d p').
Proof.
  induction fuel as [|fuel IH]; intros p Hp Hr.
  { pose proof (in_pos_range _ (ok_stream _ Hp)). unfold room in Hr. lia. }
  cbn [parse_disjunction]. px_step.
  eapply disjunction_loop_parses; [exact IH|done|by apply grows_refl, ok_stream|constructor|done|].
  unfold room in *. lia.
Qed.

End Parses.

(** ** Resolving the back references *)

Lemma update_first_error_some fe pos err : update_first_error fe pos err <> None.
Proof. unfold update_first_error. destruct fe as [[q e]|]; [by destruct (_ <? _)|done]. Qed.

Lemma check_indexed_none num refs : forall fe, foldl (check_indexed num) fe refs = None ->
  fe = None /\ forall r, r ∈ refs -> r.1 <= num.
Proof.
  induction refs as [|r refs IH]; intros fe; cbn [foldl]; [intros ->; split; [done|set_solver]|].
  intros [Hfe Hall]%IH. unfold check_indexed in Hfe. destruct (Z.ltb_spec num r.1).
  - by apply update_first_error_some in Hfe.
  - split; [done|]. intros r' [->|Hr']%elem_of_cons; [lia|by apply Hall].
Qed.

(** A node keeps its value or has the index of a name. *)
Lemma resolve_named_none names refs : forall nodes fe nodes',
  foldl (resolve_named names) (nodes, fe) refs = (nodes', None) ->
  fe = None /\ length nodes' = length nodes /\
  forall k v, nodes' !! k = Some v ->
    (nodes !! k = Some v /\ forall name pos, (name, pos, Z.of_nat k) ∉ refs) \/
    (exists name, names !! name = Some v).
Proof.
  induction refs as [|[[name pos] node] refs IH]; intros nodes fe nodes'; cbn [foldl].
  { intros [= -> ->]. split_and!; [done..|]. intros k v Hk. left. set_solver. }
  cbn [resolve_named fst snd]. destruct (names !! name) as [index|] eqn:En; intros Hf; cbn in Hf.
  - destruct (IH _ _ _ Hf) as (-> & Hlen & Hval). rewrite length_insert in Hlen.
    split_and!; [done..|]. intros k v Hk. destruct (Hval k v Hk) as [[Hk' Hnot]|?]; [|by right].
    destruct (decide (k = Z.to_nat node)) as [->|Hne].
    + apply list_lookup_insert_Some in Hk' as [(_ & <- & _)|(? & _)]; [|done]. right. eauto.
    + rewrite list_lookup_insert_ne in Hk' by done. left. split; [done|]. intros name' pos'.
      rewrite not_elem_of_cons. split; [|apply Hnot]. intros [= _ _ E]. lia.
  - destruct (IH _ _ _ Hf) as (Hfe & _). by apply update_first_error_some in Hfe.
Qed.

Section Whole.

Context `{IcuData} `{!IcuLaws _} {S : Type} `{ParseStreamLaws S}.

#[local] Abbreviation RegExpParser := (RegExpParser S).
#[local] Abbreviation Term := (Term UnicodeProperty).

(** ** The result of a parse *)

Definition index_in (n i : Z) : Prop := 1 <= i <= n.

(** Back references denote groups of the pattern, and groups are numbered from left to right. *)
Record regexp_wf (r : RegExp UnicodeProperty) : Prop := {
  wf_tree : disjunction_wf (index_in (Z.of_nat (length (capture_groups r)))) (disjunction r);
  wf_groups : groups_of_disjunction (disjunction r) =
    zip (seqZ 1 (Z.of_nat (length (capture_groups r)))) (capture_groups r);
  wf_limit : Z.of_nat (length (capture_groups r)) < u32_max / 2;
  wf_duplicate : has_duplicate_names r = true <-> ~ NoDup (names_list (capture_groups r));
}.

Lemma load_term_groups nodes (t : Term) : groups_of (load_term nodes t) = groups_of t.
Proof.
  assert (Hd : forall d : list (list Term),
    Forall (Forall (fun t => groups_of (load_term nodes t) = groups_of t)) d ->
    flat_map (flat_map groups_of) (map (map (load_term nodes)) d) = flat_map (flat_map groups_of) d).
  { induction 1 as [|alt d Ha _ IHd]; [done|]. cbn [map flat_map]. f_equal; [|done].
    induction Ha as [|t' alt Ht _ IHa]; [done|]. cbn [map flat_map]. by rewrite Ht, IHa. }
  induction t using Term_nested_ind; cbn; try done; rewrite ?Hd by done; done.
Qed.

Lemma load_disjunction_groups nodes (d : list (list Term)) :
  groups_of_disjunction (load_disjunction nodes d) = groups_of_disjunction d.
Proof.
  induction d as [|alt d IHd]; [done|]. unfold groups_of_disjunction, load_disjunction in *. cbn [map flat_map].
  f_equal; [|done]. unfold groups_of_alternative.
  induction alt as [|t alt IHa]; [done|]. cbn [map flat_map]. by rewrite load_term_groups, IHa.
Qed.

Lemma load_term_wf nodes (Q R : Z -> Prop) (t : Term) :
  (forall i, Q i -> R (default 0 (nodes !! Z.to_nat i))) ->
  term_wf Q t -> term_wf R (load_term nodes t).
Proof.
  intros HQR. induction t using Term_nested_ind; cbn; try done; try tauto; auto;
    rewrite !every_every_iff; intros [Hne Hd]; (split; [by destruct d|]);
    match goal with IH : Forall (Forall _) _ |- _ =>
      clear -IH Hd; induction IH as [|alt d Halt _ IHd]; [constructor|];
      apply Forall_cons in Hd as [Hd1 Hd2]; constructor; [|auto];
      clear -Halt Hd1; induction Halt as [|t alt Ht _ IHa]; [constructor|];
      apply Forall_cons in Hd1 as [? ?]; constructor; auto end.
Qed.

Lemma load_disjunction_wf nodes (Q R : Z -> Prop) (d : list (list Term)) :
  (forall i, Q i -> R (default 0 (nodes !! Z.to_nat i))) ->
  disjunction_wf Q d -> disjunction_wf R (load_disjunction nodes d).
Proof.
  intros HQR [Hne Hd]. split; [by destruct d|]. unfold load_disjunction. apply Forall_map.
  eapply Forall_impl; [exact Hd|]. intros alt Ha. apply Forall_map.
  eapply Forall_impl; [exact Ha|]. intros t. by apply load_term_wf.
Qed.

(** Unresolved references are an error; otherwise all nodes hold the index of a group. *)
Lemma resolve_ok may_panic (p : RegExpParser) : parser_ok may_panic p ->
  match resolve_backreferences p with
  | Done (Ok _, p') => exists nodes, p' = set_nodes nodes p /\ length nodes = length (rp_nodes p) /\
      forall k v, nodes !! k = Some v -> index_in (num_groups p) v
  | Done (Err _, _) => True
  | _ => False
  end.
Proof.
  intros Hp.
  assert (Er : resolve_backreferences p =
    (let '(nodes, fe) := foldl (resolve_named (rp_capture_group_names p))
      (rp_nodes p, foldl (check_indexed (num_groups p)) None (rp_indexed_backreferences p))
      (rp_named_backreferences p) in
    (modify (set_nodes nodes) ≫= fun _ =>
       match fe with None => mret tt | Some (pos, err) => lex (error pos err) end : M S unit)) p)
    by reflexivity.
  rewrite Er. clear Er.
  destruct (foldl (resolve_named _) _ _) as [nodes fe] eqn:E. destruct fe as [[q err]|]; [done|]. cbn.
  apply resolve_named_none in E as (Hfe & Hlen & Hval). apply check_indexed_none in Hfe as [_ Hidx].
  exists nodes. split_and!; [done..|]. intros k v Hk. unfold index_in.
  destruct (Hval k v Hk) as [[Hk' Hnot]|[name Hn]].
  - destruct (ok_nodes _ _ Hp k v Hk') as [(Hv & q & Hq)|(name & q & Hq)].
    + specialize (Hidx _ Hq). cbn in Hidx. lia.
    + by apply Hnot in Hq.
  - rewrite (ok_names _ _ Hp) in Hn. pose proof (names_of_spec (rp_capture_groups p) name) as Hs.
    rewrite Hn in Hs. apply Hs.
Qed.

Lemma new_parser_ok may_panic stream flags named annex_b : in_ok stream ->
  parser_ok may_panic (RegExpParser_new stream flags named annex_b).
Proof.
  intros Hs. split; try done. split; [done|]. intros Hn. contradict Hn. constructor.
Qed.

Lemma run_parser_ok may_panic p : parser_ok may_panic p ->
  parses may_panic run_parser p (fun d p' => parsed_disjunction may_panic p d p').
Proof.
  intros Hp. unfold parses, run_parser.
  apply (disjunction_parses may_panic (depth_fuel (rp_stream p)) p Hp).
  unfold room, depth_fuel. rewrite Nat2Z.inj_succ. lia.
Qed.

(** Numbered groups as pairs. *)
Lemma numbered_zip (gs : list (Z * option AstStr)) n : gs.*1 = seqZ n (Z.of_nat (length gs)) ->
  gs = zip (seqZ n (Z.of_nat (length gs.*2))) gs.*2.
Proof. intros E. rewrite length_fmap, <- E. symmetry. apply zip_fst_snd. Qed.

Lemma finish_regexp_ok may_panic flags p0 d (p : RegExpParser) :
  rp_capture_groups p0 = [] -> parsed_disjunction may_panic p0 d p ->
  match finish_regexp flags d p with
  | Done (Ok r) => regexp_wf r /\ RegExpSyntax.flags r = flags
  | Done (Err _) => True
  | _ => False
  end.
Proof.
  intros Hnil [Hok Hg Hw]. unfold finish_regexp. pose proof (resolve_ok may_panic p Hok) as Hr.
  destruct (resolve_backreferences p) as [[[[]|err] p']| | |]; try done. cbn.
  destruct Hr as (nodes & -> & Hlen & Hval). destruct Hg as [_ _ _ Hgr Hix]. rewrite Hnil in Hgr. cbn in Hgr.
  unfold num_groups in Hix. rewrite Hnil in Hix. cbn in Hix.
  assert (Hc : rp_capture_groups (set_nodes nodes p) = rp_capture_groups p) by by destruct p.
  assert (Hn : rp_nodes (set_nodes nodes p) = nodes) by by destruct p.
  assert (Hd : rp_has_duplicate (set_nodes nodes p) = rp_has_duplicate p) by by destruct p.
  split; [|done].
  split; cbn [disjunction capture_groups has_duplicate_names]; rewrite ?Hc, ?Hn, ?Hd.
  - eapply load_disjunction_wf; [|exact Hw]. intros i Hi. unfold node_in, num_nodes in Hi.
    destruct (lookup_lt_is_Some_2 nodes (Z.to_nat i)) as [v Hv]; [lia|]. rewrite Hv. cbn.
    exact (Hval _ _ Hv).
  - rewrite load_disjunction_groups, Hgr. by apply numbered_zip.
  - apply (ok_limit _ _ Hok).
  - apply (ok_duplicate _ _ Hok).
Qed.

End Whole.
