(* ===== verification/RegExpReparse.v ===== *)
(** The second parse of Annex B mode.

    A number after a backslash is a back reference in the first parse.  If some
    number turns out larger than the count of groups, the pattern is parsed again,
    and the parser looks up what it noted at the position of every such number:
    [annex_b_maybe_backreferences.get(&start_pos).unwrap()].  The lookup succeeds:
    the second parse follows the first one step by step ([sim]), except after an
    escape that takes fewer digits than the reference did, where it reads the
    digits that are left as literals ([lag]) until it catches up. *)

From Stdlib Require Import Ascii String.
From S2P Require Import Prelude Unicode LexerStream UnicodeProperty ParseStream Characters RegExpSyntax.
From S2P Require Import RegExpLexical RegExpLexicalCorrect RegExpParser RegExpParserCorrect.

Section Reparse.

Context `{IcuData} `{!IcuLaws _} {S : Type} `{ParseStreamLaws S}.

#[local] Abbreviation M := (M S).
#[local] Abbreviation RegExpParser := (RegExpParser S).
#[local] Abbreviation Term := (Term UnicodeProperty).
#[local] Abbreviation Disjunction := (Disjunction UnicodeProperty).

(** ** Running a sequence *)

Lemma run_bind {A B} (m : M A) (f : A -> M B) p a p' :
  m p = Done (Ok a, p') -> (m ≫= f) p = f a p'.
Proof. intros E. change ((m ≫= f) p) with
    (match m p with
     | Done (Ok a, p') => f a p' | Done (Err x, p') => Done (Err x, p')
     | Panicked => Panicked | Faulted => Faulted | OutOfFuel => OutOfFuel end). by rewrite E. Qed.

Lemma run_bind_fuel {A B} (m : M A) (f : A -> M B) p : m p = OutOfFuel -> (m ≫= f) p = OutOfFuel.
Proof. intros E. change ((m ≫= f) p) with
    (match m p with
     | Done (Ok a, p') => f a p' | Done (Err x, p') => Done (Err x, p')
     | Panicked => Panicked | Faulted => Faulted | OutOfFuel => OutOfFuel end). by rewrite E. Qed.

Lemma run_bind_inv {A B} (m : M A) (f : A -> M B) p b p'' :
  (m ≫= f) p = Done (Ok b, p'') -> exists a p', m p = Done (Ok a, p') /\ f a p' = Done (Ok b, p'').
Proof.
  change ((m ≫= f) p) with
    (match m p with
     | Done (Ok a, p') => f a p' | Done (Err x, p') => Done (Err x, p')
     | Panicked => Panicked | Faulted => Faulted | OutOfFuel => OutOfFuel end).
  destruct (m p) as [[[a|x] p']| | |]; try done. eauto.
Qed.

Lemma run_lex_inv {A} (m : L S A) p a p' :
  lex m p = Done (Ok a, p') -> exists s, m (rp_env p) (rp_stream p) = Done (Ok a, s) /\ p' = set_stream s p.
Proof.
  unfold lex. destruct (m _ _) as [[r s]| | |]; cbn; try done. intros [= -> <-]. eauto.
Qed.

Lemma run_lex {A} (m : L S A) p a s :
  m (rp_env p) (rp_stream p) = Done (Ok a, s) -> lex m p = Done (Ok a, set_stream s p).
Proof. intros E. unfold lex. by rewrite E. Qed.

(** ** What the first parse notes only grows *)

Definition noted (p : RegExpParser) : gset Z := dom (rp_maybe_backreferences p).

(** Numbers are noted only in Annex B mode and without a unicode flag. *)
Definition notes_numbers (e : Env) : bool := in_annex_b_mode e && negb (is_unicode_aware e).

Record extends (p p' : RegExpParser) : Prop := {
  extends_noted : noted p ⊆ noted p';
  extends_env : rp_env p' = rp_env p;
  extends_quiet : notes_numbers (rp_env p) = false -> noted p' = noted p;
}.

Definition mono {A} (m : M A) : Prop := forall p a p', m p = Done (Ok a, p') -> extends p p'.

Lemma parser_extends_refl p : extends p p.
Proof. done. Qed.
Lemma parser_extends_trans p1 p2 p3 : extends p1 p2 -> extends p2 p3 -> extends p1 p3.
Proof.
  intros [N1 E1 Q1] [N2 E2 Q2]. split; [set_solver|congruence|]. intros Hq. rewrite Q2, Q1; [done|done|congruence].
Qed.

Lemma mono_ret {A} (a : A) : mono (mret a).
Proof. by intros p b p' [= <- <-]. Qed.
Lemma mono_bind {A B} (m : M A) (f : A -> M B) : mono m -> (forall a, mono (f a)) -> mono (m ≫= f).
Proof.
  intros Hm Hf p b p'' (a & p' & E1 & E2)%run_bind_inv. apply Hm in E1. apply Hf in E2. by eapply parser_extends_trans.
Qed.
Lemma mono_lex {A} (m : L S A) : mono (lex m).
Proof. intros p a p' (s & _ & ->)%run_lex_inv. by destruct p. Qed.
Lemma mono_gets {A} (f : RegExpParser -> A) : mono (gets f).
Proof. by intros p b p' [= <- <-]. Qed.
Lemma mono_modify f : (forall p, extends p (f p)) -> mono (modify f).
Proof. intros Hf p b p' [= <- <-]. apply Hf. Qed.
Lemma mono_maybe pos : mono (is_annex_b_backreference_like_escape_sequence (S := S) pos).
Proof.
  intros p b p'. unfold is_annex_b_backreference_like_escape_sequence.
  destruct (rp_already_parsed p); [|by intros [= <- <-]].
  destruct (rp_maybe_backreferences p !! pos); cbn; [by intros [= <- <-]|done].
Qed.

Lemma mono_indexed pos : mono (parse_indexed_backreference (S := S) pos).
Proof.
  unfold parse_indexed_backreference. apply mono_bind; [apply mono_lex|intros _].
  apply mono_bind; [apply mono_lex|intros [index|]]; [|apply mono_lex].
  destruct (index <=? u32_max); [|apply mono_lex]. apply mono_bind; [apply mono_modify; by intros []|intros _].
  intros p a p' (b & p1 & [= <- <-] & E)%run_bind_inv.
  change (in_annex_b_mode (rp_env p) && negb (is_unicode_aware (rp_env p))) with (notes_numbers (rp_env p)) in E.
  apply run_bind_inv in E as (u & p1 & E1 & E2). apply (parser_extends_trans _ p1).
  - destruct (_ && _) eqn:Eb; injection E1 as _ <-; [|done]. apply andb_true_iff in Eb as [Hmode _].
    destruct p. split; [unfold noted; cbn; set_solver|done|]. cbn in *. congruence.
  - revert E2. apply (mono_bind (new_backreference index)); [|intros; apply mono_ret]. unfold new_backreference.
    apply mono_bind; [apply mono_gets|intros i]. apply mono_bind; [|intros; apply mono_ret].
    apply mono_modify. by intros [].
Qed.

Ltac mono_tac :=
  repeat match goal with
    | |- mono (_ ≫= _) => apply mono_bind; [|intros ?]
    | |- mono (mret _) => apply mono_ret
    | |- mono (lex _) => apply mono_lex
    | |- mono (gets _) => apply mono_gets
    | |- mono (is_annex_b_backreference_like_escape_sequence _) => apply mono_maybe
    | |- mono (modify _) => apply mono_modify; by intros []
    | |- mono (parse_indexed_backreference _) => apply mono_indexed
    | |- mono (new_backreference _) => unfold new_backreference
    | |- mono (if ?b then _ else _) => destruct b
    | |- mono (match ?x with _ => _ end) => destruct x
    | H : mono ?m |- mono ?m => exact H
    | |- mono (fun _ => _) => intros ? ? ?
    end.

Lemma mono_escape : mono (parse_escape (S := S)).
Proof.
  unfold parse_escape, shorthand_term, parse_named_backreference,
    escape_literal, literal_term, new_backreference. mono_tac.
Qed.

Section MonoGroups.

Context (disjunction : M Disjunction) (Hd : mono disjunction).

Lemma mono_group : mono (parse_group disjunction).
Proof.
  unfold parse_group, parse_named_group, lookaround, group_body, new_capture_group,
    next_capture_group_index. mono_tac.
Qed.

Lemma mono_term : mono (parse_term disjunction).
Proof.
  pose proof mono_group. pose proof mono_escape. unfold parse_term, parse_atom, literal_term. mono_tac.
Qed.

Lemma mono_alternative_loop fuel : forall terms literal, mono (alternative_loop disjunction fuel terms literal).
Proof.
  pose proof mono_term. induction fuel as [|fuel IH]; intros terms literal; cbn [alternative_loop]; [mono_tac|].
  unfold alternative_ends. mono_tac. apply IH.
Qed.

Lemma mono_disjunction_loop fuel : forall d, mono (disjunction_loop disjunction fuel d).
Proof.
  induction fuel as [|fuel IH]; intros d; cbn [disjunction_loop]; [mono_tac|].
  assert (mono (parse_alternative disjunction)).
  { unfold parse_alternative. mono_tac. apply mono_alternative_loop. }
  mono_tac. apply IH.
Qed.

End MonoGroups.

Lemma mono_disjunction fuel : mono (parse_disjunction (S := S) fuel).
Proof.
  induction fuel as [|fuel IH]; cbn [parse_disjunction]; mono_tac. by apply mono_disjunction_loop.
Qed.

Lemma lex_run_bind {A B} (m : L S A) (f : A -> L S B) e s a s' :
  m e s = Done (Ok a, s') -> (m ≫= f) e s = f a e s'.
Proof.
  intros E. change ((m ≫= f) e s) with
    (match m e s with
     | Done (Ok a, s') => f a e s' | Done (Err x, s') => Done (Err x, s')
     | Panicked => Panicked | Faulted => Faulted | OutOfFuel => OutOfFuel end). by rewrite E.
Qed.

(** ** Digits that an escape leaves

    [lag s t]: between [s] and [t] are only decimal digits. *)

Inductive lag : S -> S -> Prop :=
  | lag_here s : lag s s
  | lag_digit s s' t : in_ok s -> is_decimal_digit (in_current s) = true ->
      in_advance_n s 1 = Done s' -> lag s' t -> lag s t.

Lemma lag_next s t : lag s t -> is_decimal_digit (in_current t) = false ->
  is_decimal_digit (in_current s) = true -> exists s', in_advance_n s 1 = Done s' /\ lag s' t.
Proof. intros [s0|s0 s' t0 _ _ Ha Hl] Ht Hs; [congruence|eauto]. Qed.

Lemma lex_bind_inv {A B} (m : L S A) (f : A -> L S B) e s b s'' :
  (m ≫= f) e s = Done (Ok b, s'') -> exists a s', m e s = Done (Ok a, s') /\ f a e s' = Done (Ok b, s'').
Proof.
  change ((m ≫= f) e s) with
    (match m e s with
     | Done (Ok a, s') => f a e s' | Done (Err x, s') => Done (Err x, s')
     | Panicked => Panicked | Faulted => Faulted | OutOfFuel => OutOfFuel end).
  destruct (m e s) as [[[a|x] s']| | |]; try done. eauto.
Qed.

Lemma advance_n_inv n (s s' : S) u :
  (s1 ← in_advance_n s n; Done (Ok tt, s1)) = Done (Ok u, s') -> in_advance_n s n = Done s'.
Proof. destruct (in_advance_n s n); cbn; try done. by intros [= _ ->]. Qed.

Lemma advance_keeps_ok n (s s' : S) : in_ok s -> 0 <= n -> in_advance_n s n = Done s' -> in_ok s'.
Proof. intros Hs Hn E. destruct (in_advance_ok s n Hs Hn) as (s1 & E1 & Hs1 & _). congruence. Qed.

Lemma digits_lag fuel : forall value overflow e (s : S) r s', in_ok s ->
  decimal_digits_loop fuel value overflow e s = Done (Ok r, s') ->
  lag s s' /\ is_decimal_digit (in_current s') = false /\ in_ok s'.
Proof.
  induction fuel as [|fuel IH]; intros value overflow e s r s' Hs; cbn [decimal_digits_loop]; [done|].
  intros (c & s0 & [= <- <-] & E)%lex_bind_inv.
  destruct (is_decimal_digit (in_current s)) eqn:Ed; [|injection E as _ <-; by split_and!; [constructor|..]].
  revert E. repeat (case_match; simplify_eq).
  all: intros (u & s1 & Ha%advance_n_inv & E)%lex_bind_inv;
    (apply IH in E as (Hl & Hd & Hok); [|by eapply advance_keeps_ok; [exact Hs| |exact Ha]]); split_and!; [by eapply lag_digit|done..].
Qed.

(** An escape that the first parse read as a reference stops among its digits. *)
Lemma octal_digit_lags e (s t : S) k r s' : in_ok s -> lag s t -> is_decimal_digit (in_current t) = false ->
  (c ← current; match get_octal_value c with
                | Some next_digit => _ ← advance; mret (k * 8 + next_digit)
                | None => mret k
                end) e s = Done (Ok r, s') -> lag s' t /\ in_ok s'.
Proof.
  intros Hs Hl Ht (c & s0 & [= <- <-] & E)%lex_bind_inv.
  destruct (get_octal_value (in_current s)) as [v|] eqn:Ev; [|by injection E as _ <-].
  apply lex_bind_inv in E as (u & s1 & Ha%advance_n_inv & [= _ <-]).
  destruct (lag_next s t) as (s2 & Ha2 & Hl2); [done|done| |].
  { unfold get_octal_value, is_decimal_digit in *. destruct (between "0" "7" (in_current s)) eqn:Eb; [|done].
    rewrite between_spec in *. apply bool_decide_eq_true in Eb. apply bool_decide_eq_true. chars. lia. }
  assert (s1 = s2) as -> by congruence. split; [done|]. by eapply advance_keeps_ok; [exact Hs| |exact Ha].
Qed.

Lemma escape_lags e s d s1 t r s' : in_ok s -> in_current s = ch "\" ->
  in_annex_b_mode e && negb (is_unicode_aware e) = true ->
  in_peek_n s 1 = Done d -> between "1" "9" d = true ->
  in_advance_n s 1 = Done s1 -> lag s1 t -> is_decimal_digit (in_current t) = false ->
  parse_regexp_escape_sequence e s = Done (Ok r, s') -> lag s' t.
Proof.
  intros Hs Hc Hmode Hp Hd Ha Hl Ht. rewrite between_spec in Hd. apply bool_decide_eq_true in Hd.
  assert (Hc1 : in_current s1 = d).
  { apply (in_peek_ascii s 1 s1 d); try done; [chars; lia|]. rewrite Hc. chars. lia. }
  subst d. assert (Hs1 : in_ok s1) by (by eapply advance_keeps_ok; [exact Hs| |exact Ha]).
  destruct (lag_next s1 t) as (s2 & Ha2 & Hl2); [done|done| |].
  { unfold is_decimal_digit. rewrite between_spec. apply bool_decide_eq_true. chars. lia. }
  assert (Hs2 : in_ok s2) by (by eapply advance_keeps_ok; [exact Hs1| |exact Ha2]).
  assert (Ha3 : in_advance_n s 2 = Done s2) by by apply (in_advance_add s 1 1 s1).
  unfold parse_regexp_escape_sequence.
  intros (e' & s0 & [= <- <-] & E)%lex_bind_inv. apply lex_bind_inv in E as (next & s0 & En & E).
  unfold peek, peek_n in En. rewrite Hp in En. injection En as <- <-.
  apply lex_bind_inv in E as (next2 & s0 & En & E). unfold peek2, peek_n in En.
  destruct (in_peek_n s 2) as [c2| | |]; try done. injection En as <- <-. revert E.
  rewrite Hmode, andb_true_r.
  repeat match goal with |- context [in_current s1 =? ch ?c] =>
    replace (in_current s1 =? ch c) with false by (symmetry; apply Z.eqb_neq; chars; lia) end.
  cbn [andb]. destruct (between "0" "7" (in_current s1)) eqn:E8.
  - intros (k & s3 & E & E3)%lex_bind_inv. unfold liftL in E. destruct (unwrap _) as [k'| | |]; try done.
    injection E as _ <-. apply lex_bind_inv in E3 as (u & s3 & Ha4%advance_n_inv & E3).
    assert (s3 = s2) as -> by congruence.
    apply lex_bind_inv in E3 as (c & s4 & [= <- <-] & E3). apply lex_bind_inv in E3 as (k2 & s4 & E3 & E4).
    destruct (octal_digit_lags e s2 t k k2 s4) as [Hl4 Hs4]; [done|done|done|exact E3|].
    destruct (_ <=? _); [|by injection E4 as _ <-].
    by destruct (octal_digit_lags e s4 t k2 r s') as [Hl5 _].
  - unfold identity_escape. intros (e' & s3 & [= <- <-] & E)%lex_bind_inv.
    apply lex_bind_inv in E as (q & s3 & [= <- <-] & E). apply lex_bind_inv in E as (u & s3 & Ha4%advance_n_inv & E).
    assert (s3 = s1) as -> by congruence. apply andb_true_iff in Hmode as [Hb Hu]. apply negb_true_iff in Hu.
    rewrite Hu, Hb in E. apply lex_bind_inv in E as (st & s3 & [= <- <-] & E).
    apply lex_bind_inv in E as (c & s3 & E3 & E). destruct (in_parse_ascii s1) as (s4 & Ha5 & E4); [done|chars; lia|].
    unfold parse_unicode_codepoint in E3. rewrite E4 in E3. injection E3 as <- <-.
    assert (s4 = s2) as -> by congruence. revert E.
    repeat match goal with |- context [in_current s1 =? ch ?c] =>
      replace (in_current s1 =? ch c) with false by (symmetry; apply Z.eqb_neq; chars; lia) end.
    rewrite andb_false_r. by intros [= _ <-].
Qed.

(** ** Two parses in step *)

Section Sim.

Context (num : Z) (maybe : gmap Z Z).

(** [p] is a parser of the first parse and [q] one of the second. *)
Record sim (p q : RegExpParser) : Prop := {
  sim_stream : rp_stream q = rp_stream p;
  sim_ok : in_ok (rp_stream p);
  sim_env : rp_env q = rp_env p;
  sim_mode : in_annex_b_mode (rp_env p) && negb (is_unicode_aware (rp_env p)) = true;
  sim_first : rp_already_parsed p = None;
  sim_second : rp_already_parsed q = Some num;
  sim_maybe : rp_maybe_backreferences q = maybe;
}.

(** The second parse does not panic; it may report an error. *)
Definition after {B} (o : outcome (ParseResult B * RegExpParser)) (Q : B -> RegExpParser -> Prop) : Prop :=
  match o with
  | Done (Ok b, q) => Q b q
  | Done (Err _, _) | OutOfFuel => True
  | Panicked | Faulted => False
  end.

(** If [m1] succeeds and all that it notes is in [maybe], [m2] follows it. *)
Definition tracks {A B} (m1 : M A) (m2 : M B) (p q : RegExpParser) (R : RegExpParser -> RegExpParser -> Prop)
    : Prop :=
  forall a p', m1 p = Done (Ok a, p') -> noted p' ⊆ dom maybe -> after (m2 q) (fun _ q' => R p' q').

Lemma after_bind {A B} (m : M A) (f : A -> M B) q P Q :
  after (m q) P -> (forall a q', P a q' -> after (f a q') Q) -> after ((m ≫= f) q) Q.
Proof.
  intros Hm Hf. change ((m ≫= f) q) with
    (match m q with
     | Done (Ok a, p') => f a p' | Done (Err x, p') => Done (Err x, p')
     | Panicked => Panicked | Faulted => Faulted | OutOfFuel => OutOfFuel end).
  destruct (m q) as [[[a|x] q']| | |]; try done. by apply Hf.
Qed.

Lemma tracks_bind {A B A' B'} (m1 : M A) (m2 : M A') (f1 : A -> M B) (f2 : A' -> M B') p q R Q :
  tracks m1 m2 p q R -> (forall a, mono (f1 a)) ->
  (forall a b p' q', m1 p = Done (Ok a, p') -> R p' q' -> tracks (f1 a) (f2 b) p' q' Q) ->
  tracks (m1 ≫= f1) (m2 ≫= f2) p q Q.
Proof.
  intros Hm Hmono Hf b p'' (a & p' & E1 & E2)%run_bind_inv Hn.
  pose proof (extends_noted _ _ (Hmono a _ _ _ E2)) as Hsub. eapply after_bind.
  - eapply Hm; [exact E1|]. by etrans.
  - intros a' q' Hr. cbn in Hr. by eapply Hf.
Qed.

Lemma tracks_ret {A B} (a : A) (b : B) p q (R : _ -> _ -> Prop) : R p q -> tracks (mret a) (mret b) p q R.
Proof. by intros Hr a' p' [= <- <-] _. Qed.
Lemma tracks_gets {A B A' B'} (g1 : _ -> A) (g2 : _ -> A') (f1 : A -> M B) (f2 : A' -> M B') p q Q :
  tracks (f1 (g1 p)) (f2 (g2 q)) p q Q -> tracks (gets g1 ≫= f1) (gets g2 ≫= f2) p q Q.
Proof. done. Qed.
Lemma tracks_modify {B B'} g1 g2 (f1 : unit -> M B) (f2 : unit -> M B') p q Q :
  tracks (f1 tt) (f2 tt) (g1 p) (g2 q) Q -> tracks (modify g1 ≫= f1) (modify g2 ≫= f2) p q Q.
Proof. done. Qed.
Lemma tracks_error1 {A B} pos err (m : M B) p q R : tracks (lex (error pos err) : M A) m p q R.
Proof. done. Qed.
Lemma tracks_error2 {A B} pos err (m : M A) p q R : tracks m (lex (error pos err) : M B) p q R.
Proof. done. Qed.

Lemma sim_set_stream p q s : sim p q -> in_ok s -> sim (set_stream s p) (set_stream s q).
Proof. intros [] Hs. destruct p, q. by split. Qed.

(** A lexical method does the same in both parses. *)
Definition keeps {A} (m : L S A) (p : RegExpParser) : Prop :=
  forall a s, m (rp_env p) (rp_stream p) = Done (Ok a, s) -> in_ok s.

Lemma returns_keeps {A} (m : L S A) p P : returns (rp_stream p) m (rp_env p) (rp_stream p) P -> keeps m p.
Proof. unfold returns. intros Hm a s E. rewrite E in Hm. apply (moves_ok _ _ (proj1 Hm)). Qed.

Lemma push_keeps string c p : in_ok (rp_stream p) -> keeps (push_code_point string c) p.
Proof. intros Hs a s. unfold push_code_point. destruct (_ && _); [|done]. by intros [= _ <-]. Qed.

Lemma tracks_call {A B B'} (m : L S A) (f1 : A -> M B) (f2 : A -> M B') p q Q : sim p q -> keeps m p ->
  (forall a p' q', sim p' q' -> tracks (f1 a) (f2 a) p' q' Q) ->
  tracks (lex m ≫= f1) (lex m ≫= f2) p q Q.
Proof.
  intros Hs Hk Hf b p'' (a & p' & (s & E & ->)%run_lex_inv & E2)%run_bind_inv Hn. pose proof (Hk _ _ E).
  rewrite <- (sim_env _ _ Hs), <- (sim_stream _ _ Hs) in E. rewrite (run_bind _ _ _ _ _ (run_lex _ _ _ _ E)).
  eapply (Hf a (set_stream s p)); try done. by apply sim_set_stream.
Qed.

(** A method that only reads the stream. *)
Lemma tracks_read {A B B'} (m : L S A) (g : S -> A) (f1 : A -> M B) (f2 : A -> M B') p q Q :
  sim p q -> (forall e s, m e s = Done (Ok (g s), s)) ->
  tracks (f1 (g (rp_stream p))) (f2 (g (rp_stream p))) p q Q ->
  tracks (lex m ≫= f1) (lex m ≫= f2) p q Q.
Proof.
  intros Hs Hm Hf. assert (Hrun : forall r, lex m r = Done (Ok (g (rp_stream r)), r)).
  { intros r. unfold lex. rewrite Hm. cbn. by rewrite set_stream_id. }
  intros b p'' (a & p' & E & E2)%run_bind_inv Hn. rewrite Hrun in E. injection E as <- <-.
  rewrite (run_bind _ _ _ _ _ (Hrun q)), (sim_stream _ _ Hs). by apply (Hf b p'').
Qed.

Lemma tracks_peek {B B'} (f1 : Z -> M B) (f2 : Z -> M B') p q Q : sim p q ->
  (forall c, in_peek_n (rp_stream p) 1 = Done c -> tracks (f1 c) (f2 c) p q Q) ->
  tracks (lex peek ≫= f1) (lex peek ≫= f2) p q Q.
Proof.
  intros Hs Hf. destruct (in_peek_ok (rp_stream p) 1 (sim_ok _ _ Hs)) as (c & E & _); [lia|].
  assert (Hrun : forall r, rp_stream r = rp_stream p -> lex peek r = Done (Ok c, r)).
  { intros r Hr. unfold lex, peek, peek_n. rewrite Hr, E. cbn. rewrite <- Hr. by rewrite set_stream_id. }
  intros b p'' (a & p' & E1 & E2)%run_bind_inv Hn. rewrite Hrun in E1 by done. injection E1 as <- <-.
  rewrite (run_bind _ _ _ _ _ (Hrun q (sim_stream _ _ Hs))). by apply (Hf c E b p'').
Qed.

(** The updates that the second parse makes too. *)
Lemma sim_update (g1 g2 : RegExpParser -> RegExpParser) p q : sim p q ->
  (forall r, rp_stream (g1 r) = rp_stream r /\ rp_env (g1 r) = rp_env r /\
     rp_already_parsed (g1 r) = rp_already_parsed r) ->
  (forall r, rp_stream (g2 r) = rp_stream r /\ rp_env (g2 r) = rp_env r /\
     rp_already_parsed (g2 r) = rp_already_parsed r /\ rp_maybe_backreferences (g2 r) = rp_maybe_backreferences r) ->
  sim (g1 p) (g2 q).
Proof.
  intros [] G1 G2. destruct (G1 p) as (E1 & E2 & E3). destruct (G2 q) as (F1 & F2 & F3 & F4).
  split; rewrite ?E1, ?E2, ?E3, ?F1, ?F2, ?F3, ?F4; done.
Qed.

(** ** Automation *)

Ltac tr_sim := apply sim_update; [assumption|by intros []|by intros []].

Ltac tr_keeps :=
  first
    [ apply push_keeps; solve [eauto using sim_ok]
    | eapply returns_keeps; apply returns_advance_tail; [solve [eauto using sim_ok]|lia]
    | eapply returns_keeps; apply returns_eat_tail; solve [eauto using sim_ok]
    | eapply returns_keeps; apply returns_expect_tail; solve [eauto using sim_ok]
    | eapply returns_keeps; solve [eauto using sim_ok with lexical] ].

Ltac tr_step :=
  lazymatch goal with
  | |- tracks (mret _) (mret _) _ _ _ => apply tracks_ret
  | |- tracks (lex (error _ _)) _ _ _ _ => apply tracks_error1
  | |- tracks _ (lex (error _ _)) _ _ _ => apply tracks_error2
  | |- tracks (lex (error_unexpected_token _)) _ _ _ _ => apply tracks_error1
  | |- tracks _ (lex (error_unexpected_token _)) _ _ _ => apply tracks_error2
  | |- tracks (lex unexpected_here) _ _ _ _ => by intros ? ? ?
  | |- tracks (if ?b then _ else _) (if ?b then _ else _) _ _ _ =>
      let E := fresh "E" in destruct b eqn:E
  | |- tracks (if ?b then _ else _) _ _ _ _ => destruct b
  | |- tracks _ (if ?b then _ else _) _ _ _ => destruct b
  | Hs : sim ?p ?q |- tracks (gets rp_env ≫= _) _ ?p ?q _ => apply tracks_gets; rewrite (sim_env _ _ Hs)
  | |- tracks (gets _ ≫= _) _ _ _ _ => apply tracks_gets
  | Hs : sim ?p ?q |- tracks (modify ?g1 ≫= _) (modify ?g2 ≫= _) ?p ?q _ =>
      apply tracks_modify; let Hs' := fresh "Hs" in assert (Hs' : sim (g1 p) (g2 q)) by tr_sim
  | |- tracks (lex current ≫= _) _ _ _ _ => apply (tracks_read _ in_current); [assumption|done|]
  | |- tracks (lex pos ≫= _) _ _ _ _ => apply (tracks_read _ in_pos); [assumption|done|]
  | |- tracks (lex is_end ≫= _) _ _ _ _ => apply (tracks_read _ in_is_end); [assumption|done|]
  | |- tracks (lex remaining ≫= _) _ _ _ _ =>
      apply (tracks_read _ (fun s => Nat.succ (Z.to_nat (in_len s - in_pos s)))); [assumption|done|]
  | |- tracks (lex peek ≫= _) _ _ _ _ => apply tracks_peek; [assumption|intros ? ?]
  | |- tracks (lex _ ≫= _) _ _ _ _ => apply tracks_call; [assumption|tr_keeps|intros ? ? ? ?]
  end; cbn [negb].

(** ** Escapes *)

(** The second parse is where the first one is, or has digits left to read. *)
Definition trails (p q : RegExpParser) : Prop :=
  sim p (set_stream (rp_stream p) q) /\ lag (rp_stream q) (rp_stream p).

Lemma sim_trails p q : sim p q -> trails p q.
Proof.
  intros Hs. split; rewrite <- (sim_stream _ _ Hs); [by rewrite set_stream_id|constructor].
Qed.

Lemma tracks_weaken {A B} (m1 : M A) (m2 : M B) p q (Q R : _ -> _ -> Prop) :
  tracks m1 m2 p q Q -> (forall p' q', Q p' q' -> R p' q') -> tracks m1 m2 p q R.
Proof.
  intros Hm Hq a p' E Hn. specialize (Hm a p' E Hn). unfold after in *.
  destruct (m2 q) as [[[b|x] q']| | |]; auto.
Qed.

Lemma literal_tracks c p q : sim p q -> tracks (literal_term c) (literal_term c) p q sim.
Proof. intros Hs. unfold literal_term. repeat tr_step. done. Qed.

Lemma escape_literal_tracks p q : sim p q -> in_current (rp_stream p) <> EOF_CHAR ->
  tracks escape_literal escape_literal p q sim.
Proof. intros Hs Hc. unfold escape_literal. tr_step. by apply literal_tracks. Qed.

(** Both parses take a number for a reference. *)
Lemma indexed_tracks start_pos p q : sim p q ->
  tracks (parse_indexed_backreference start_pos) (parse_indexed_backreference start_pos) p q sim.
Proof.
  intros Hs. unfold parse_indexed_backreference. do 2 tr_step. case_match; [|tr_step]. tr_step; [|tr_step].
  tr_step. tr_step. rewrite (sim_second _ _ Hs0), (bool_decide_eq_false_2 (Some num = None)), andb_false_r by done.
  apply (tracks_bind _ _ _ _ _ _ sim).
  - intros u r E1 _. destruct (_ && _) in E1; injection E1 as _ <-; [|exact Hs0].
    apply (sim_update (add_maybe_backreference start_pos z) id); [exact Hs0|by intros []|by intros []].
  - intros u. unfold new_backreference. mono_tac.
  - intros u v p1 q1 _ Hsim. apply (tracks_bind _ _ _ _ _ _ sim); [|intros; mono_tac|].
    + unfold new_backreference. by repeat tr_step.
    + intros i j p2 q2 _ Hsim2. by tr_step.
Qed.

(** What the first parse did at a number that is an escape in the second one. *)
Lemma indexed_notes start_pos p q a p' : sim p q -> parse_indexed_backreference start_pos p = Done (Ok a, p') ->
  start_pos ∈ noted p' /\ sim p' (set_stream (rp_stream p') q) /\
  is_decimal_digit (in_current (rp_stream p')) = false /\
  exists s1, in_advance_n (rp_stream p) 1 = Done s1 /\ lag s1 (rp_stream p').
Proof.
  intros Hs. unfold parse_indexed_backreference.
  intros (u & p1 & (s1 & Ha%advance_n_inv & ->)%run_lex_inv & E)%run_bind_inv.
  assert (Hs1 : in_ok s1) by (by eapply advance_keeps_ok; [exact (sim_ok _ _ Hs)| |exact Ha]).
  apply run_bind_inv in E as (index & p2 & (s2 & Ed & ->)%run_lex_inv & E).
  destruct index as [index|]; [|done]. destruct (index <=? u32_max); [|done].
  apply run_bind_inv in E as (u1 & p3 & [= _ <-] & E). apply run_bind_inv in E as (b & p3 & [= <- <-] & E).
  destruct Hs as [Hst Hok Henv Hmode Hfirst Hsecond Hmaybe]. destruct p, q.
  cbn in Hst, Hok, Henv, Hmode, Hfirst, Hsecond, Hmaybe, Ha, Ed, E. subst. rewrite Hmode in E. injection E as _ <-.
  unfold parse_decimal_digits in Ed. apply lex_bind_inv in Ed as (c & s3 & [= <- <-] & Ed).
  destruct (is_decimal_digit (in_current s1)); [|done]. apply lex_bind_inv in Ed as (n & s3 & [= <- <-] & Ed).
  apply digits_lag in Ed as (Hl & Hd & Hs2); [|done]. split_and!; [unfold noted; cbn; set_solver| |exact Hd|by exists s1].
  by split.
Qed.

(** The escape of the second parse trails behind the reference of the first one. *)
Lemma escape_trails p q start_pos d a p' : sim p q -> in_current (rp_stream p) = ch "\" ->
  in_peek_n (rp_stream p) 1 = Done d -> between "1" "9" d = true ->
  parse_indexed_backreference start_pos p = Done (Ok a, p') ->
  after (escape_literal q) (fun _ q' => trails p' q').
Proof.
  intros Hs Hc Hp Hd E. destruct (indexed_notes _ _ _ _ _ Hs E) as (_ & Hsim & Hnd & s1 & Ha & Hl).
  pose proof (escape_returns (rp_env p) (rp_stream p) (sim_ok _ _ Hs)) as Hr. unfold returns in Hr.
  rewrite Hc in Hr. specialize (Hr ltac:(done)).
  unfold escape_literal. eapply (after_bind _ _ _ (fun c q1 => code_point_in c /\ trails p' q1)).
  - unfold lex. rewrite (sim_env _ _ Hs), (sim_stream _ _ Hs).
    destruct (parse_regexp_escape_sequence _ _) as [[[c|x] s']| | |] eqn:Ee; cbn; try done.
    split; [by apply Hr|]. pose proof (escape_lags _ _ _ _ _ _ _ (sim_ok _ _ Hs) Hc (sim_mode _ _ Hs) Hp Hd Ha Hl Hnd Ee).
    destruct q. by split.
  - intros c q1 [Hin Htr]. unfold literal_term. eapply (after_bind _ _ _ (fun _ q2 => q2 = q1)).
    + unfold lex, push_code_point. rewrite (proj2 (Z.leb_le 0 c)), (proj2 (Z.leb_le c _)) by apply Hin.
      cbn. by rewrite set_stream_id.
    + intros str q2 ->. exact Htr.
Qed.

Lemma number_tracks p q d : sim p q -> in_current (rp_stream p) = ch "\" ->
  in_peek_n (rp_stream p) 1 = Done d -> between "1" "9" d = true ->
  let m := escape ← is_annex_b_backreference_like_escape_sequence (in_pos (rp_stream p));
           if negb escape then parse_indexed_backreference (in_pos (rp_stream p)) else escape_literal in
  tracks m m p q trails.
Proof.
  intros Hs Hc Hp Hd m a p' (b & p1 & E1 & E)%run_bind_inv Hn.
  unfold is_annex_b_backreference_like_escape_sequence in E1. rewrite (sim_first _ _ Hs) in E1.
  injection E1 as <- <-. cbn [negb] in E.
  destruct (indexed_notes _ _ _ _ _ Hs E) as (Hin & _). apply Hn, elem_of_dom in Hin as [index Hi].
  eapply (after_bind _ _ _ (fun _ q' => q' = q)).
  - unfold is_annex_b_backreference_like_escape_sequence. by rewrite (sim_second _ _ Hs), (sim_maybe _ _ Hs), Hi.
  - intros [] q' ->; cbn [negb]; [by eapply escape_trails|].
    eapply tracks_weaken; [by apply indexed_tracks|apply sim_trails|exact E|exact Hn].
Qed.

Lemma named_backreference_tracks start_pos p q : sim p q ->
  tracks (parse_named_backreference start_pos) (parse_named_backreference start_pos) p q sim.
Proof.
  intros Hs. unfold parse_named_backreference. do 4 tr_step.
  apply (tracks_bind _ _ _ _ _ _ sim); [|intros; mono_tac|].
  - unfold new_backreference. by repeat tr_step.
  - intros i j p1 q1 _ Hsim. by repeat tr_step.
Qed.

Lemma escape_tracks p q : sim p q -> in_current (rp_stream p) = ch "\" ->
  tracks parse_escape parse_escape p q trails.
Proof.
  intros Hs Hc. assert (Hne : in_current (rp_stream p) <> EOF_CHAR) by (rewrite Hc; by vm_compute).
  unfold parse_escape. do 3 tr_step.
  do 6 (tr_step; [unfold shorthand_term; do 2 tr_step; by apply sim_trails|]).
  do 2 (tr_step; [do 2 tr_step; by apply sim_trails|]).
  tr_step; [by eapply number_tracks|].
  tr_step; [eapply tracks_weaken; [by apply named_backreference_tracks|apply sim_trails]|].
  do 2 (tr_step; [do 2 tr_step; by apply sim_trails|]).
  eapply tracks_weaken; [by apply escape_literal_tracks|apply sim_trails].
Qed.

(** ** Groups *)

Section TrackGroups.

Context (d1 d2 : M Disjunction) (Hmono : mono d1).
Context (Hd : forall p q, sim p q -> tracks d1 d2 p q sim).

Lemma group_body_tracks p q : sim p q -> tracks (group_body d1) (group_body d2) p q sim.
Proof.
  intros Hs. unfold group_body. apply (tracks_bind _ _ _ _ _ _ sim); [by apply Hd|intros; mono_tac|].
  intros a b p' q' _ Hs'. by repeat tr_step.
Qed.

Lemma mono_group_body : mono (group_body d1).
Proof. unfold group_body. mono_tac. Qed.

(** A group whose body is followed by nothing that reads. *)
Lemma body_tracks {A A'} (f1 : Disjunction -> A) (f2 : Disjunction -> A') p q : sim p q ->
  tracks (d ← group_body d1; mret (f1 d)) (d ← group_body d2; mret (f2 d)) p q sim.
Proof.
  intros Hs. apply (tracks_bind _ _ _ _ _ _ sim); [by apply group_body_tracks|intros; mono_tac|].
  intros a b p' q' _ Hs'. by tr_step.
Qed.

Lemma lookaround_tracks a b p q : sim p q -> tracks (lookaround d1 a b) (lookaround d2 a b) p q sim.
Proof. intros Hs. unfold lookaround. tr_step. by apply body_tracks. Qed.

Lemma new_group_tracks {B B'} pos name (f1 : Z -> M B) (f2 : Z -> M B') p q Q : sim p q ->
  (forall i j p' q', sim p' q' -> tracks (f1 i) (f2 j) p' q' Q) ->
  tracks (new_capture_group pos name ≫= f1) (new_capture_group pos name ≫= f2) p q Q.
Proof.
  intros Hs Hf b p'' (i & p' & E1 & E2)%run_bind_inv Hn.
  assert (Hrun : forall r, new_capture_group pos name r =
    if u32_max / 2 <=? rp_num_capture_groups r + 1 then lex (error pos TooManyCaptureGroups) r
    else Done (Ok (rp_num_capture_groups r + 1), add_capture_group name r)).
  { intros r. unfold new_capture_group, next_capture_group_index, mbind, M_bind, gets.
    destruct (u32_max / 2 <=? _); reflexivity. }
  rewrite Hrun in E1. destruct (u32_max / 2 <=? _) in E1; [done|]. injection E1 as <- <-.
  eapply (after_bind _ _ _ (fun _ q' => q' = add_capture_group name q)).
  - rewrite Hrun. by destruct (_ <=? _).
  - intros j q' ->. eapply (Hf _ j); [|exact E2|exact Hn]. tr_sim.
Qed.

Lemma named_group_tracks pos p q : sim p q -> tracks (parse_named_group d1 pos) (parse_named_group d2 pos) p q sim.
Proof.
  intros Hs. unfold parse_named_group. do 3 tr_step. apply new_group_tracks; [done|]. intros i j p1 q1 Hs1.
  do 2 tr_step. tr_step; [tr_step|]. tr_step; [tr_step|]. tr_step.
  apply (tracks_bind _ _ _ _ _ _ sim); [by apply group_body_tracks|intros; mono_tac|].
  intros ? ? p2 q2 _ Hsim. repeat tr_step; done.
Qed.

Lemma group_tracks p q : sim p q -> tracks (parse_group d1) (parse_group d2) p q sim.
Proof.
  intros Hs. unfold parse_group. do 3 tr_step. tr_step.
  - tr_step. tr_step; [tr_step; by apply body_tracks|]. do 2 (tr_step; [by apply lookaround_tracks|]).
    tr_step.
    + do 2 tr_step. do 2 (tr_step; [by apply lookaround_tracks|]). by apply named_group_tracks.
    + tr_step; [|tr_step]. tr_step. case_match. by apply body_tracks.
  - apply new_group_tracks; [done|]. intros i j p1 q1 Hs1. by apply body_tracks.
Qed.

(** ** Terms *)

Lemma atom_tracks p q : sim p q -> tracks (parse_atom d1) (parse_atom d2) p q trails.
Proof.
  intros Hs. unfold parse_atom. do 2 tr_step.
  assert (Hne : forall c, (in_current (rp_stream p) =? ch c) = true -> in_current (rp_stream p) <> EOF_CHAR).
  { intros c ->%Z.eqb_eq. unfold ch, EOF_CHAR. pose proof (N_ascii_bounded c). lia. }
  tr_step; [do 2 tr_step; by apply sim_trails|].
  tr_step.
  { tr_step. apply (tracks_bind _ _ _ _ _ _ sim); [by apply group_tracks|intros; mono_tac|].
    intros a b p1 q1 _ Hsim. do 2 tr_step. by apply sim_trails. }
  tr_step; [pose proof (Hne _ E1); tr_step; tr_step; try case_match; tr_step; by apply sim_trails|].
  do 2 (tr_step; [do 2 tr_step; by apply sim_trails|]).
  tr_step; [apply escape_tracks; [done|by apply Z.eqb_eq]|].
  tr_step. eapply tracks_weaken; [by apply literal_tracks|apply sim_trails].
Qed.

Lemma mono_atom : mono (parse_atom d1).
Proof.
  pose proof (mono_group d1 Hmono). pose proof mono_escape. unfold parse_atom, literal_term. mono_tac.
Qed.

(** What a quantifier reads does not depend on its term. *)
Lemma quantifier_stream (a b a' : Term) e s s1 : parse_quantifier a e s = Done (Ok a', s1) ->
  match parse_quantifier b e s with Done (Ok _, s2) => s2 = s1 | Done (Err _, _) => True | _ => False end.
Proof.
  unfold parse_quantifier. intros (e' & s' & [= <- <-] & E)%lex_bind_inv.
  apply lex_bind_inv in E as (q & s' & [= <- <-] & E). apply lex_bind_inv in E as (bounds & s2 & E1 & E).
  rewrite (lex_run_bind (asks id) _ e s e s), (lex_run_bind pos _ e s (in_pos s) s) by done.
  rewrite (lex_run_bind _ _ _ _ _ _ E1). destruct bounds as [[[lo hi]|]|]; [|by injection E as _ <-..].
  apply lex_bind_inv in E as (lazy & s3 & E3 & E). rewrite (lex_run_bind _ _ _ _ _ _ E3).
  destruct (is_quantifiable e b); [|done]. destruct (is_quantifiable e a); [|done]. by injection E as _ <-.
Qed.

Lemma quantifier_digit (b : Term) e s : is_decimal_digit (in_current s) = true ->
  parse_quantifier b e s = Done (Ok b, s).
Proof.
  intros Hdigit%decimal_digit_ascii. unfold parse_quantifier.
  rewrite (lex_run_bind (asks id) _ e s e s), (lex_run_bind pos _ e s (in_pos s) s) by done.
  rewrite (lex_run_bind quantifier_bounds _ e s None s); [done|]. unfold quantifier_bounds.
  rewrite (lex_run_bind (asks id) _ e s e s), (lex_run_bind pos _ e s (in_pos s) s),
    (lex_run_bind current _ e s (in_current s) s) by done.
  repeat match goal with |- context [in_current s =? ch ?c] =>
    replace (in_current s =? ch c) with false by (symmetry; apply Z.eqb_neq; chars; lia) end.
  done.
Qed.

Lemma alternative_ends_run r : alternative_ends r =
  (let s := rp_stream r in
   let c := in_current s in
   let strict := negb (in_annex_b_mode (rp_env r)) || is_unicode_aware (rp_env r) in
   if in_is_end s then mret true
   else if one_of "*+?" c then lex (error (in_pos s) UnexpectedRegExpQuantifier)
   else if (c =? ch "{") && strict then lex (error (in_pos s) UnexpectedRegExpQuantifier)
   else if one_of "}]" c && strict then lex (error_unexpected_token (in_pos s))
   else if c =? ch "|" then mret true
   else if c =? ch ")" then
     if 0 <? rp_group_depth r then mret true else lex (error_unexpected_token (in_pos s))
   else mret false : M bool) r.
Proof.
  unfold alternative_ends.
  assert (Hread : forall A (m : L S A) (g : S -> A), (forall e s, m e s = Done (Ok (g s), s)) ->
    lex m r = Done (Ok (g (rp_stream r)), r)).
  { intros A m g Hm. unfold lex. rewrite Hm. cbn. by rewrite set_stream_id. }
  rewrite (run_bind _ _ _ _ _ (Hread _ is_end in_is_end (fun _ _ => eq_refl))).
  cbv zeta. destruct (in_is_end (rp_stream r)); [done|].
  rewrite (run_bind (gets rp_env) _ r _ r eq_refl).
  rewrite (run_bind _ _ _ _ _ (Hread _ current in_current (fun _ _ => eq_refl))).
  rewrite (run_bind _ _ _ _ _ (Hread _ pos in_pos (fun _ _ => eq_refl))).
  by rewrite (run_bind (gets rp_group_depth) _ r _ r eq_refl).
Qed.

(** At a digit an alternative goes on with a literal. *)
Lemma digit_continues q : in_ok (rp_stream q) -> is_decimal_digit (in_current (rp_stream q)) = true ->
  alternative_ends q = Done (Ok false, q).
Proof.
  intros Hok Hdigit%decimal_digit_ascii. rewrite alternative_ends_run. cbv zeta.
  assert (Hend : in_is_end (rp_stream q) = false).
  { apply Z.eqb_neq. intros E. apply (in_current_eof _ Hok) in E. unfold EOF_CHAR in E. lia. }
  rewrite Hend. unfold one_of. cbn [existsb list_ascii_of_string].
  repeat match goal with |- context [in_current (rp_stream q) =? ch ?c] =>
    replace (in_current (rp_stream q) =? ch c) with false by (symmetry; apply Z.eqb_neq; chars; lia) end.
  done.
Qed.

Lemma digit_atom q s' : in_ok (rp_stream q) -> is_decimal_digit (in_current (rp_stream q)) = true ->
  in_advance_n (rp_stream q) 1 = Done s' ->
  parse_atom d2 q = Done (Ok (LiteralTerm [in_current (rp_stream q)]), set_stream s' q).
Proof.
  intros Hok Hdigit%decimal_digit_ascii Ha. unfold parse_atom.
  rewrite (run_bind (gets rp_env) _ q _ q eq_refl).
  rewrite (run_bind (lex current) _ q (in_current (rp_stream q)) q) by by destruct q.
  repeat match goal with |- context [in_current (rp_stream q) =? ch ?c] =>
    replace (in_current (rp_stream q) =? ch c) with false by (symmetry; apply Z.eqb_neq; chars; lia) end.
  destruct (in_parse_ascii (rp_stream q)) as (s2 & Ha2 & E2); [done|lia|]. assert (s2 = s') as -> by congruence.
  rewrite (run_bind _ _ _ _ _ (run_lex parse_unicode_codepoint q _ _ E2)). unfold literal_term.
  rewrite (run_bind _ _ _ [in_current (rp_stream q)] (set_stream s' q)); [done|].
  unfold lex, push_code_point. rewrite (proj2 (Z.leb_le 0 _)), (proj2 (Z.leb_le _ MAX_CODE_POINT)).
  - cbn. by destruct q.
  - unfold MAX_CODE_POINT. lia.
  - lia.
Qed.

Lemma bind_assoc {A B C} (m : M A) (f : A -> M B) (g : B -> M C) q :
  ((m ≫= f) ≫= g) q = (m ≫= (fun a => f a ≫= g)) q.
Proof.
  unfold mbind, M_bind. by destruct (m q) as [[[a|x] q']| | |].
Qed.

(** The second parse reads the digits and then the quantifier of the first one. *)
Lemma catch_up s t : lag s t -> forall (a a' : Term) e s1 q (Q : list Term -> RegExpParser -> Prop),
  rp_stream q = s -> rp_env q = e -> parse_quantifier a e t = Done (Ok a', s1) ->
  (forall fuel terms literal, after (alternative_loop d2 fuel terms literal (set_stream s1 q)) Q) ->
  forall (b : Term) fuel terms literal, after ((term ← lex (parse_quantifier b);
    let '(terms, literal) := push_term terms literal term in
    alternative_loop d2 fuel terms literal) q) Q.
Proof.
  induction 1 as [s|s s' t Hok Hdigit Ha Hlag IH]; intros a a' e s1 q Q Hq He Hquant Hrest b fuel terms literal.
  - eapply (after_bind _ _ _ (fun _ q' => q' = set_stream s1 q)).
    + pose proof (quantifier_stream a b a' e s s1 Hquant) as Hb. unfold lex. rewrite He, Hq.
      destruct (parse_quantifier b e s) as [[[b'|x] s2]| | |]; cbn; try done. by subst.
    + intros term q' ->. destruct (push_term _ _ _). apply Hrest.
  - subst s. rewrite (run_bind (lex (parse_quantifier b)) _ q b q).
    2: { unfold lex. rewrite quantifier_digit by done. cbn. by rewrite set_stream_id. }
    destruct (push_term terms literal b) as [terms' literal']. destruct fuel as [|fuel]; [done|].
    cbn [alternative_loop]. rewrite (run_bind _ _ _ _ _ (digit_continues q Hok Hdigit)).
    unfold parse_term. rewrite bind_assoc, (run_bind _ _ _ _ _ (digit_atom q s' Hok Hdigit Ha)).
    apply (IH a a' e s1); try done; [by destruct q..|]. intros fuel' terms2 literal2.
    specialize (Hrest fuel' terms2 literal2). by destruct q.
Qed.

Lemma mono_quantified {A} (f : Term -> M A) (a : Term) :
  (forall t, mono (f t)) -> mono (t ← lex (parse_quantifier a); f t).
Proof. intros Hf. mono_tac. apply Hf. Qed.

(** ** Alternatives and disjunctions *)

Lemma ends_alike p q b p' : sim p q -> alternative_ends p = Done (Ok b, p') ->
  p' = p /\ after (alternative_ends q) (fun b' q' => b' = b /\ q' = q).
Proof.
  intros Hs. rewrite !alternative_ends_run. cbv zeta. rewrite (sim_stream _ _ Hs), (sim_env _ _ Hs).
  destruct (in_is_end _); [by intros [= <- <-]|]. destruct (one_of _ _); [done|]. destruct (_ && _); [done|].
  destruct (_ && _); [done|]. destruct (_ =? _); [by intros [= <- <-]|].
  destruct (_ =? _); [|by intros [= <- <-]]. destruct (0 <? rp_group_depth p); [|done]. intros [= <- <-].
  split; [done|]. by destruct (0 <? _).
Qed.

Lemma alternative_loop_tracks fuel1 : forall fuel2 terms1 literal1 terms2 literal2 p q, sim p q ->
  tracks (alternative_loop d1 fuel1 terms1 literal1) (alternative_loop d2 fuel2 terms2 literal2) p q sim.
Proof.
  induction fuel1 as [|fuel1 IH]; intros fuel2 terms1 literal1 terms2 literal2 p q Hs; [done|].
  destruct fuel2 as [|fuel2]; [by intros ? ? ? ?|]. cbn [alternative_loop].
  intros alt p'' (ends & p1 & E1 & E)%run_bind_inv Hn.
  destruct (ends_alike _ _ _ _ Hs E1) as [-> Hends]. eapply after_bind; [exact Hends|].
  intros b q1 [-> ->]. destruct ends; [by injection E as _ <-|]. unfold parse_term in *.
  rewrite bind_assoc in E. rewrite bind_assoc.
  apply run_bind_inv in E as (a & p1 & Eatom & E). apply run_bind_inv in E as (a' & p2 & (s1 & Equant & ->)%run_lex_inv & E).
  assert (Hsub : noted p1 ⊆ noted p'').
  { destruct (push_term terms1 literal1 a'). apply (mono_alternative_loop d1 Hmono), extends_noted in E. by destruct p1. }
  eapply after_bind; [eapply (atom_tracks p q Hs _ _ Eatom); by etrans|].
  intros b q1 [Hsim Hlag]. cbn in Hsim, Hlag.
  eapply catch_up; [exact Hlag|done| |exact Equant|].
  { pose proof (sim_env _ _ Hsim) as He. by destruct q1. }
  intros fuel terms literal. destruct (push_term terms1 literal1 a') as [terms' literal'].
  eapply (IH fuel terms' literal'); [|exact E|exact Hn].
  replace (set_stream s1 q1) with (set_stream s1 (set_stream (rp_stream p1) q1)) by by destruct q1.
  apply sim_set_stream; [done|]. pose proof (quantifier_returns (rp_env p1) _ a (sim_ok _ _ Hsim)) as Hr.
  unfold returns in Hr. rewrite Equant in Hr. apply (moves_ok _ _ (proj1 Hr)).
Qed.

Lemma mono_alternative : mono (parse_alternative d1).
Proof. unfold parse_alternative. mono_tac. by apply mono_alternative_loop. Qed.

Lemma disjunction_loop_tracks fuel1 : forall fuel2 l1 l2 p q, sim p q ->
  tracks (disjunction_loop d1 fuel1 l1) (disjunction_loop d2 fuel2 l2) p q sim.
Proof.
  induction fuel1 as [|fuel1 IH]; intros fuel2 l1 l2 p q Hs; [done|].
  destruct fuel2 as [|fuel2]; [by intros ? ? ? ?|]. cbn [disjunction_loop].
  pose proof mono_alternative. do 2 tr_step. apply (tracks_bind _ _ _ _ _ _ sim).
  - unfold parse_alternative. tr_step. by apply alternative_loop_tracks.
  - intros a. mono_tac. by apply mono_disjunction_loop.
  - intros a b p1 q1 _ Hsim. tr_step. tr_step. tr_step; [by tr_step|]. do 2 tr_step; [by tr_step|by apply IH].
Qed.

End TrackGroups.

Lemma disjunction_tracks fuel1 : forall fuel2 p q, sim p q ->
  tracks (parse_disjunction fuel1) (parse_disjunction fuel2) p q sim.
Proof.
  induction fuel1 as [|fuel1 IH]; intros fuel2 p q Hs; [done|]. destruct fuel2 as [|fuel2]; [by intros ? ? ? ?|].
  cbn [parse_disjunction]. tr_step. apply disjunction_loop_tracks; [apply mono_disjunction| |done].
  intros p1 q1 Hsim. by apply IH.
Qed.

End Sim.

(** ** The whole pattern *)

(** The first parse returns a tree, or an error. *)
Lemma first_parse_ok stream flags annex_b : in_ok stream ->
  exists r p, first_parse stream flags annex_b = Done (r, p) /\
    forall d, r = Ok d -> exists named,
      parsed_disjunction False (RegExpParser_new stream flags named annex_b) d p /\
      run_parser (RegExpParser_new stream flags named annex_b) = Done (Ok d, p).
Proof.
  intros Hs. assert (Hrun : forall named, exists r p,
    run_parser (RegExpParser_new stream flags named annex_b) = Done (r, p) /\
    forall d, r = Ok d -> parsed_disjunction False (RegExpParser_new stream flags named annex_b) d p).
  { intros named. pose proof (run_parser_ok False _ (new_parser_ok False stream flags named annex_b Hs)) as Hr.
    unfold parses in Hr. destruct (run_parser _) as [[[d|x] p]| | |]; try done; (do 2 eexists; split; [done|]);
      [by intros ? [= <-]|done]. }
  assert (Hgood : forall named, exists r p,
    run_parser (RegExpParser_new stream flags named annex_b) = Done (r, p) /\
    forall d, r = Ok d -> exists named',
      parsed_disjunction False (RegExpParser_new stream flags named' annex_b) d p /\
      run_parser (RegExpParser_new stream flags named' annex_b) = Done (Ok d, p)).
  { intros named. destruct (Hrun named) as (r & p & E & Hr). exists r, p. split; [done|]. intros d ->.
    exists named. split; [by apply Hr|done]. }
  unfold first_parse. destruct annex_b; cbn [negb]; [|apply Hgood].
  destruct (Hgood false) as (r & p & E & Hr). rewrite E. cbn.
  destruct r as [d|[err loc]]; [by exists (Ok d), p|]. destruct err; first [apply Hgood|by do 2 eexists; split].
Qed.

Lemma new_sim stream flags named num maybe : in_ok stream ->
  notes_numbers (mkEnv flags named true) = true ->
  sim num maybe (RegExpParser_new stream flags named true)
    (set_already_parsed num maybe (RegExpParser_new stream flags named true)).
Proof. by split. Qed.

(** If some number is too large, numbers were noted. *)
Lemma reparse_noted (p : RegExpParser) : needs_reparse p = true -> noted p <> ∅.
Proof.
  unfold needs_reparse, noted. intros ([k v] & Hin%list_elem_of_In & _)%existsb_exists.
  apply elem_of_map_to_list in Hin. intros Hd. apply dom_empty_inv_L in Hd. rewrite Hd in Hin. done.
Qed.

(** The second parse does not panic either. *)
Lemma reparse_ok stream flags named d p : in_ok stream ->
  run_parser (RegExpParser_new stream flags named true) = Done (Ok d, p) -> needs_reparse p = true ->
  let q := set_already_parsed (Z.of_nat (length (rp_capture_groups p))) (rp_maybe_backreferences p)
             (RegExpParser_new stream flags named true) in
  exists r q', run_parser q = Done (r, q') /\ forall d', r = Ok d' -> parsed_disjunction True q d' q'.
Proof.
  intros Hs Erun Hre q. pose proof (mono_disjunction _ _ _ _ Erun) as Hext.
  assert (Hmode : notes_numbers (mkEnv flags named true) = true).
  { destruct (notes_numbers _) eqn:En; [done|]. by destruct (reparse_noted p Hre); apply (extends_quiet _ _ Hext). }
  assert (Hafter : after (run_parser q) (fun _ q' =>
    sim (Z.of_nat (length (rp_capture_groups p))) (rp_maybe_backreferences p) p q')).
  { exact (disjunction_tracks _ _ _ (depth_fuel stream) _ _
    (new_sim stream flags named (Z.of_nat (length (rp_capture_groups p))) (rp_maybe_backreferences p) Hs Hmode)
    _ _ Erun ltac:(done)). }
  assert (Hok : parser_ok True q).
  { destruct (new_parser_ok True stream flags named true Hs). by split. }
  pose proof (run_parser_ok True q Hok) as Hq. unfold parses in Hq. unfold after in Hafter.
  destruct (run_parser q) as [[[d'|x] q']| | |]; try done; (do 2 eexists; split; [done|]); [by intros ? [= <-]|done].
Qed.

End Reparse.

Section WholePattern.

Context `{IcuData} `{!IcuLaws _} {S : Type} `{ParseStreamLaws S}.

Lemma parse_regexp_ok (stream : S) (flags : RegExpFlags) (annex_b : bool) : in_ok stream ->
  exists result, parse_regexp stream flags annex_b = Done result /\
    forall r, result = Ok r -> regexp_wf r /\ RegExpSyntax.flags r = flags.
Proof.
  intros Hs. destruct (first_parse_ok stream flags annex_b Hs) as (r & p & E & Hr).
  unfold parse_regexp. rewrite E. cbn [mbind outcome_bind]. destruct r as [d|x]; [|by exists (Err x)].
  destruct (Hr d eq_refl) as (named & Hd & Erun).
  assert (Hfin : forall panics p0 d p, rp_capture_groups p0 = [] -> parsed_disjunction panics p0 d p ->
    exists result, finish_regexp flags d p = Done result /\
      forall r, result = Ok r -> regexp_wf r /\ RegExpSyntax.flags r = flags).
  { intros panics p0 d1 p1 Hnil Hp1. pose proof (finish_regexp_ok panics flags p0 d1 p1 Hnil Hp1) as Hf.
    destruct (finish_regexp _ _ _) as [[r1|x]| | |]; try done; eexists; (split; [done|]); [by intros ? [= <-]|done]. }
  destruct (annex_b && needs_reparse p) eqn:Ere; [|by eapply Hfin; [|exact Hd]].
  apply andb_true_iff in Ere as [-> Hre].
  assert (Henv : parse_named_capture_groups (rp_env p) = named)
    by (by rewrite (grows_env _ _ _ (pd_grows _ _ _ _ Hd))).
  rewrite Henv. destruct (reparse_ok stream flags named d p Hs Erun Hre) as (r2 & q & E2 & Hr2).
  cbv zeta. rewrite E2. cbn [mbind outcome_bind]. destruct r2 as [d2|x]; [|by exists (Err x)]. by eapply Hfin; [|by apply Hr2].
Qed.

(** C14: parsing a pattern always returns (no panic, no unbounded loop, no fault of
    the model), in every mode, and what it returns without an error is well-formed:
    back references denote groups of the pattern, capture groups are numbered from
    left to right as in the list of groups, every quantifier and class range has
    ordered bounds, literals are nonempty, and duplicate names are flagged. *)
Theorem parse_regexp_returns_well_formed (stream : S) (flags : RegExpFlags) (annex_b : bool) : in_ok stream ->
  exists result, parse_regexp stream flags annex_b = Done result /\
    forall r, result = Ok r -> regexp_wf r /\ RegExpSyntax.flags r = flags.
Proof. apply parse_regexp_ok. Qed.

End WholePattern.
