(* ===== verification/CodePointSet.v ===== *)
(** Sets of code points.

    The RegExp compiler builds its character classes with the types
    [CodePointInversionList] and [CodePointInversionListBuilder] of the crate
    icu_collections and with data of the ICU tables.  They are outside the
    repository: [CodePointSets] is the interface the compiler uses, with the laws
    that it relies on.  [RangeSet] is an instance that represents a set by its
    sorted, disjoint ranges. *)

From S2P Require Import Prelude Unicode UnicodeProperty.

(** A list and its builder are one type here: [build] is the identity.  A range
    is inclusive. *)
Class CodePointSets : Type := {
  icu_data :: IcuData;
  cpset : Type;
  set_empty : cpset;
  set_all : cpset;
  add_range : Z -> Z -> cpset -> cpset;
  add_set : cpset -> cpset -> cpset;            (* the argument, then the builder *)
  retain_set : cpset -> cpset -> cpset;
  remove_set : cpset -> cpset -> cpset;
  complement : cpset -> cpset;
  set_size : cpset -> Z;
  iter_ranges : cpset -> list (Z * Z);
  iter_chars : cpset -> list Z;                 (* code points that are a [char] *)
  add_case_closure_to : Z -> cpset -> cpset;    (* ICU.case_mapper *)
  simple_fold : Z -> Z;
  case_closure_override : Z -> option cpset;    (* so2js_icu_collections *)
  all_case_folded_set : cpset;
  property_add_to_set : UnicodeProperty -> cpset -> cpset;
  property_strings : Strings.BinaryUnicodePropertyOfStrings -> list (list Z);
}.

Definition add_char `{CodePointSets} (c : Z) (s : cpset) : cpset := add_range c c s.

Class CodePointSetLaws `{CodePointSets} : Prop := {
  ranges_in_unicode s r : r ∈ iter_ranges s -> 0 <= r.1 <= r.2 /\ r.2 <= MAX_CODE_POINT;
  chars_are_scalar s c : c ∈ iter_chars s -> is_scalar c;
  chars_of_add_char s c d : is_scalar c -> d = c \/ d ∈ iter_chars s -> d ∈ iter_chars (add_char c s);
  chars_of_add_set s t d : d ∈ iter_chars s \/ d ∈ iter_chars t -> d ∈ iter_chars (add_set s t);
  case_closure_extends c s d : d ∈ iter_chars s -> d ∈ iter_chars (add_case_closure_to c s);
  property_strings_in_unicode p : Forall (Forall (fun c => 0 <= c <= MAX_CODE_POINT)) (property_strings p);
}.

(** ** Sets as sorted disjoint ranges *)

Module RangeSet.

Definition t : Type := list (Z * Z).

Definition valid_range (r : Z * Z) : Prop := 0 <= r.1 <= r.2 /\ r.2 <= MAX_CODE_POINT.
#[export] Instance valid_range_dec r : Decision (valid_range r).
Proof. unfold valid_range. apply _. Defined.

Definition ranges (s : t) : list (Z * Z) := filter valid_range s.

(** Add a range to sorted disjoint ranges, merging what overlaps or touches. *)
Fixpoint insert_range (lo hi : Z) (s : t) : t :=
  match s with
  | [] => [(lo, hi)]
  | (a, b) :: s' =>
      if hi + 1 <? a then (lo, hi) :: s
      else if b + 1 <? lo then (a, b) :: insert_range lo hi s'
      else insert_range (Z.min lo a) (Z.max hi b) s'
  end.

Definition add (lo hi : Z) (s : t) : t :=
  let lo := Z.max 0 lo in
  let hi := Z.min MAX_CODE_POINT hi in
  if lo <=? hi then insert_range lo hi (ranges s) else s.

Definition union (s u : t) : t := foldr (fun r acc => add r.1 r.2 acc) u (ranges s).

(** The ranges between those of a set. *)
Fixpoint gaps (from : Z) (s : t) : t :=
  match s with
  | [] => if from <=? MAX_CODE_POINT then [(from, MAX_CODE_POINT)] else []
  | (a, b) :: s' =>
      let rest := gaps (b + 1) s' in
      if from <=? a - 1 then (from, a - 1) :: rest else rest
  end.
Definition compl (s : t) : t := gaps 0 (ranges s).

Definition size (s : t) : Z := foldr (fun r acc => r.2 - r.1 + 1 + acc) 0 (ranges s).

Definition is_scalar_b (c : Z) : bool :=
  (0 <=? c) && (c <=? MAX_CODE_POINT)
  && negb (is_high_surrogate_code_unit c || is_low_surrogate_code_unit c).
Definition chars (s : t) : list Z :=
  filter (fun c => is_scalar_b c = true) (ranges s ≫= fun r => seqZ r.1 (r.2 - r.1 + 1)).

(** Case closures of the ASCII letters. *)
Definition ascii_case_closure (c : Z) (s : t) : t :=
  if (97 <=? c) && (c <=? 122) then add (c - 32) (c - 32) s
  else if (65 <=? c) && (c <=? 90) then add (c + 32) (c + 32) s
  else s.
Definition ascii_fold (c : Z) : Z := if (65 <=? c) && (c <=? 90) then c + 32 else c.

Lemma elem_of_chars s d :
  d ∈ chars s <-> is_scalar_b d = true /\ exists r, r ∈ s /\ valid_range r /\ r.1 <= d <= r.2.
Proof.
  unfold chars, ranges. rewrite list_elem_of_filter, list_elem_of_bind.
  split; intros [Hd [r Hr]]; (split; [done|]); exists r.
  - destruct Hr as [Hd' Hr]. rewrite elem_of_seqZ in Hd'. apply list_elem_of_filter in Hr as [? ?].
    split_and!; [done|done|lia|lia].
  - destruct Hr as (Hr & Hv & ?). rewrite elem_of_seqZ, list_elem_of_filter. split; [lia|done].
Qed.

Lemma insert_range_mem s : forall lo hi d, valid_range (lo, hi) -> Forall valid_range s ->
  (lo <= d <= hi \/ exists r, r ∈ s /\ r.1 <= d <= r.2) ->
  exists r, r ∈ insert_range lo hi s /\ valid_range r /\ r.1 <= d <= r.2.
Proof.
  induction s as [|[a b] s IH]; intros lo hi d Hv Hs Hd; cbn [insert_range].
  - destruct Hd as [Hd|(r & Hr & _)]; [|by apply elem_of_nil in Hr].
    exists (lo, hi). split; [by left|done].
  - apply Forall_cons in Hs as [Hab Hs].
    destruct (Z.ltb_spec (hi + 1) a); [|destruct (Z.ltb_spec (b + 1) lo)].
    + destruct Hd as [Hd|(r & Hr & Hd)]; [exists (lo, hi); split; [by left|done]|].
      exists r. split; [by right|]. split; [|done].
      rewrite Forall_forall in Hs. inv_elem; [done|by apply Hs].
    + destruct Hd as [Hd|(r & Hr & Hd)].
      * destruct (IH lo hi d) as (r & Hr & ?); [done..|by left|]. exists r. split; [by right|done].
      * apply elem_of_cons in Hr as [->|Hr]; [exists (a, b); split; [by left|done]|].
        destruct (IH lo hi d) as (r' & Hr' & ?); [done..|right; by exists r|].
        exists r'. split; [by right|done].
    + apply IH; [|done|].
      * unfold valid_range in *. cbn in *. lia.
      * destruct Hd as [Hd|(r & Hr & Hd)]; [left; lia|].
        apply elem_of_cons in Hr as [->|Hr]; [left; cbn in Hd; lia|right; by exists r].
Qed.

Lemma chars_add s lo hi d :
  is_scalar_b d = true -> lo <= d <= hi \/ d ∈ chars s -> d ∈ chars (add lo hi s).
Proof.
  intros Hd Hm. unfold add.
  assert (0 <= d <= MAX_CODE_POINT) as Hr.
  { unfold is_scalar_b in Hd. apply andb_true_iff in Hd as [Hd _]. lia. }
  destruct (Z.leb_spec (Z.max 0 lo) (Z.min MAX_CODE_POINT hi)).
  - apply elem_of_chars. split; [done|].
    apply insert_range_mem; [unfold valid_range; cbn; lia|apply Forall_forall; intros r; unfold ranges; rewrite list_elem_of_filter; tauto|].
    destruct Hm as [?|Hm]; [left; lia|right].
    apply elem_of_chars in Hm as (_ & r & ? & ? & ?). exists r.
    unfold ranges. by rewrite list_elem_of_filter.
  - destruct Hm as [?|?]; [lia|done].
Qed.

Lemma chars_union s u d : d ∈ chars s \/ d ∈ chars u -> d ∈ chars (union s u).
Proof.
  assert (forall l, d ∈ chars u \/ (is_scalar_b d = true /\ exists r, r ∈ l /\ r.1 <= d <= r.2) ->
    d ∈ chars (foldr (fun r acc => add r.1 r.2 acc) u l)) as Hl.
  { induction l as [|r l IH]; intros Hd; cbn.
    - destruct Hd as [?|(_ & r & Hr & _)]; [done|by apply elem_of_nil in Hr].
    - assert (is_scalar_b d = true) as Hs.
      { destruct Hd as [Hd|[? _]]; [by apply elem_of_chars in Hd as [? _]|done]. }
      apply chars_add; [done|]. destruct Hd as [Hd|(_ & r' & Hr & ?)]; [right; auto|].
      apply elem_of_cons in Hr as [->|Hr]; [by left|right; apply IH; right]. split; [done|]. by exists r'. }
  intros [Hd|Hd]; apply Hl; [right|by left].
  apply elem_of_chars in Hd as (Hs & r & ? & ? & ?). split; [done|]. exists r.
  unfold ranges. by rewrite list_elem_of_filter.
Qed.

Lemma is_scalar_iff c : is_scalar_b c = true <-> is_scalar c.
Proof.
  unfold is_scalar_b, is_scalar.
  rewrite !andb_true_iff, negb_true_iff, orb_false_iff, !Z.leb_le. tauto.
Qed.

#[export] Instance sets : CodePointSets := {
  cpset := t;
  icu_data := AsciiData.icu;
  set_empty := [];
  set_all := [(0, MAX_CODE_POINT)];
  add_range := add;
  add_set := union;
  retain_set s u := compl (union (compl s) (compl u));
  remove_set s u := compl (union s (compl u));
  complement := compl;
  set_size := size;
  iter_ranges := ranges;
  iter_chars := chars;
  add_case_closure_to := ascii_case_closure;
  simple_fold := ascii_fold;
  case_closure_override _ := None;
  all_case_folded_set := compl [(65, 90)];
  property_add_to_set p s := s;
  property_strings p := [];
}.

#[export] Instance laws : CodePointSetLaws.
Proof.
  split; cbn.
  - intros s r. unfold ranges. rewrite list_elem_of_filter. by intros [? _].
  - intros s c [Hc _]%elem_of_chars. by apply is_scalar_iff.
  - intros s c d Hc [->|Hd]; apply chars_add; [by apply is_scalar_iff|lia| |by right].
    by apply elem_of_chars in Hd as [? _].
  - apply chars_union.
  - intros c s d Hd. pose proof (proj1 (proj1 (elem_of_chars _ _) Hd)).
    unfold ascii_case_closure. repeat case_match; try done; apply chars_add; auto.
  - constructor.
Qed.

End RangeSet.
