(* ===== verification/RegExpCompiler.v ===== *)
(** The RegExp compiler: [src/so2js/runtime/regexp/compiler.rs].

    The builder emits instructions into basic blocks of 32-bit words whose branch
    operands are block ids; [flatten_and_fix_indices] lays the blocks out in the
    order of their ids and replaces the ids by word indices.  A block that does
    not end in a jump falls through into the block with the next id.

    Code of the builder is a computation in the monad [M] (a state monad over
    [CompiledRegExpBuilder] with the outcomes of Rust code).  Stacks of the
    builder are lists with their top first.  The counters of progress points,
    loop registers and repetition depth are unbounded here; the theorems ask that
    the results fit the u32 fields of the compiled object. *)

From S2P Require Import Prelude Unicode RegExpInstruction RegExpMatcher RegExpSyntax UnicodeProperty CodePointSet.

Inductive EmitDirection : Type := Forward | Backward.

Definition BlockId : Type := nat.

Record CompiledRegExpBuilder : Type := mkBuilder {
  blocks : list (list Z);
  flags_stack : list RegExpFlags;
  current_block_id : BlockId;
  progress_point_count : Z;
  loop_register_count : Z;
  direction_stack : list EmitDirection;
  repitition_depth : Z;
}.

(** Information about a compiled subexpression. *)
Record SubExpressionInfo : Type := mkInfo {
  always_consumes : bool;
  captures : list Z;
}.
Definition no_captures (always_consumes : bool) : SubExpressionInfo := mkInfo always_consumes [].
Definition with_captures_info (always_consumes : bool) (captures : list Z) : SubExpressionInfo :=
  mkInfo always_consumes captures.

Definition MAX_INLINED_REPITITIONS : Z := 10.

(** ** The monad *)

Definition M (A : Type) : Type := CompiledRegExpBuilder -> outcome (A * CompiledRegExpBuilder).

#[export] Instance M_ret : MRet M := fun A a b => Done (a, b).
#[export] Instance M_bind : MBind M := fun A B f m b =>
  match m b with
  | Done (a, b') => f a b'
  | Panicked => Panicked
  | Faulted => Faulted
  | OutOfFuel => OutOfFuel
  end.

Definition lift {A} (o : outcome A) : M A := fun b => a ← o; Done (a, b).
Definition gets {A} (f : CompiledRegExpBuilder -> A) : M A := fun b => Done (f b, b).
Definition when (c : bool) (m : M unit) : M unit := if c then m else mret tt.

Fixpoint for_each {A} (l : list A) (f : A -> M unit) : M unit :=
  match l with
  | [] => mret tt
  | x :: l' => _ ← f x; for_each l' f
  end.

Fixpoint map_each {A B} (l : list A) (f : A -> M B) : M (list B) :=
  match l with
  | [] => mret []
  | x :: l' => y ← f x; ys ← map_each l' f; mret (y :: ys)
  end.

(** ** State of the builder *)

Definition CompiledRegExpBuilder_new (flags : RegExpFlags) : CompiledRegExpBuilder :=
  mkBuilder [] [flags] 0%nat 0 0 [Forward] 0.

Definition set_blocks (b : CompiledRegExpBuilder) (bs : list (list Z)) : CompiledRegExpBuilder :=
  mkBuilder bs (flags_stack b) (current_block_id b) (progress_point_count b)
    (loop_register_count b) (direction_stack b) (repitition_depth b).
Definition set_flags_stack (b : CompiledRegExpBuilder) (fs : list RegExpFlags) :
    CompiledRegExpBuilder :=
  mkBuilder (blocks b) fs (current_block_id b) (progress_point_count b)
    (loop_register_count b) (direction_stack b) (repitition_depth b).
Definition set_current (b : CompiledRegExpBuilder) (k : BlockId) : CompiledRegExpBuilder :=
  mkBuilder (blocks b) (flags_stack b) k (progress_point_count b)
    (loop_register_count b) (direction_stack b) (repitition_depth b).
Definition set_counts (b : CompiledRegExpBuilder) (p l : Z) : CompiledRegExpBuilder :=
  mkBuilder (blocks b) (flags_stack b) (current_block_id b) p l (direction_stack b)
    (repitition_depth b).
Definition set_directions (b : CompiledRegExpBuilder) (ds : list EmitDirection) :
    CompiledRegExpBuilder :=
  mkBuilder (blocks b) (flags_stack b) (current_block_id b) (progress_point_count b)
    (loop_register_count b) ds (repitition_depth b).
Definition set_depth (b : CompiledRegExpBuilder) (n : Z) : CompiledRegExpBuilder :=
  mkBuilder (blocks b) (flags_stack b) (current_block_id b) (progress_point_count b)
    (loop_register_count b) (direction_stack b) n.

Definition new_block : M BlockId := fun b =>
  Done (length (blocks b), set_blocks b (blocks b ++ [[]])).
Definition set_current_block (block_id : BlockId) : M unit := fun b => Done (tt, set_current b block_id).
Definition get_current_block : M BlockId := gets current_block_id.

Definition enter_direction_context (d : EmitDirection) : M unit := fun b =>
  Done (tt, set_directions b (d :: direction_stack b)).
Definition exit_direction_context : M unit := fun b =>
  Done (tt, set_directions b (tail (direction_stack b))).
Definition is_forwards : M bool := fun b =>
  d ← unwrap (head (direction_stack b));
  Done (match d with Forward => true | Backward => false end, b).

Definition enter_repitition_context : M unit := fun b => Done (tt, set_depth b (repitition_depth b + 1)).
Definition exit_repitition_context : M unit := fun b => Done (tt, set_depth b (repitition_depth b - 1)).
Definition is_in_repitition : M bool := gets (fun b => 0 <? repitition_depth b).

Definition current_flags : M RegExpFlags := fun b =>
  f ← unwrap (head (flags_stack b)); Done (f, b).
Definition push_flags (f : RegExpFlags) : M unit := fun b =>
  Done (tt, set_flags_stack b (f :: flags_stack b)).
Definition pop_flags : M unit := fun b => Done (tt, set_flags_stack b (tail (flags_stack b))).

Definition is_case_insensitive_unicode_sets (flags : RegExpFlags) : bool :=
  Flags.has_unicode_sets_flag flags && Flags.is_case_insensitive flags.

(** ** Emitting instructions: [current_block_buf] and the [write] functions *)

Definition emit (i : Instruction) : M unit := fun b =>
  buf ← unwrap (blocks b !! current_block_id b);
  Done (tt, set_blocks b (<[current_block_id b := write buf i]> (blocks b))).

Definition emit_literal_instruction (code_point : Z) : M unit := emit (Literal code_point).
Definition emit_wildcard_instruction : M unit := emit Wildcard.
Definition emit_wildcard_no_newline_instruction : M unit := emit WildcardNoNewline.
Definition emit_jump_instruction (block_id : BlockId) : M unit := emit (Jump (Z.of_nat block_id)).
Definition emit_branch_instruction (first_block_id second_block_id : BlockId) : M unit :=
  emit (Branch (Z.of_nat first_block_id) (Z.of_nat second_block_id)).
Definition emit_accept_instruction : M unit := emit Accept.
Definition emit_fail_instruction : M unit := emit Fail.
Definition emit_mark_capture_point_instruction (capture_point_index : Z) : M unit :=
  emit (MarkCapturePoint capture_point_index).
Definition emit_clear_capture_instruction (capture_group_index : Z) : M unit :=
  emit (ClearCapture capture_group_index).
Definition new_progress_point : M Z := fun b =>
  Done (progress_point_count b, set_counts b (progress_point_count b + 1) (loop_register_count b)).
Definition emit_progress_instruction (progress_index : Z) : M unit := emit (Progress progress_index).
Definition emit_loop_instruction (loop_register_index loop_max_value : Z) (end_branch : BlockId) :
    M unit :=
  emit (Loop loop_register_index loop_max_value (Z.of_nat end_branch)).
Definition emit_assert_start_instruction : M unit := emit AssertStart.
Definition emit_assert_end_instruction : M unit := emit AssertEnd.
Definition emit_assert_start_or_newline_instruction : M unit := emit AssertStartOrNewline.
Definition emit_assert_end_or_newline_instruction : M unit := emit AssertEndOrNewline.
Definition emit_word_boundary_move_to_previous_instruction : M unit := emit WordBoundaryMoveToPrevious.
Definition emit_assert_word_boundary_instruction : M unit := emit AssertWordBoundary.
Definition emit_assert_not_word_boundary_instruction : M unit := emit AssertNotWordBoundary.
Definition emit_backreference_instruction (is_case_insensitive : bool) (capture_group_index : Z) :
    M unit :=
  emit (Backreference is_case_insensitive capture_group_index).
Definition emit_consume_if_true_instruction : M unit := emit ConsumeIfTrue.
Definition emit_consume_if_false_instruction : M unit := emit ConsumeIfFalse.
Definition emit_compare_equals_instruction (code_point : Z) : M unit := emit (CompareEquals code_point).
Definition emit_compare_between_instruction (start end_ : Z) : M unit :=
  emit (CompareBetween start end_).
Definition emit_lookaround_instruction (is_ahead is_positive : bool) (body_branch : BlockId) : M unit :=
  emit (Lookaround is_ahead is_positive (Z.of_nat body_branch)).
Definition next_loop_register : M Z := fun b =>
  Done (loop_register_count b, set_counts b (progress_point_count b) (loop_register_count b + 1)).

Definition in_block {R} (block_id : BlockId) (f : M R) : M R :=
  current ← get_current_block;
  _ ← set_current_block block_id;
  result ← f;
  _ ← set_current_block current;
  mret result.

(** ** Preamble *)

Definition emit_preamble : M unit :=
  wildcard_block ← new_block;
  join_block ← new_block;
  _ ← emit_branch_instruction join_block wildcard_block;
  _ ← set_current_block wildcard_block;
  _ ← emit_wildcard_instruction;
  _ ← emit_branch_instruction join_block wildcard_block;
  set_current_block join_block.

(** ** Disjunctions

    The emitters of subexpressions are arguments: an alternative is emitted by
    the computation [emit_alternative] builds from the emitters of its terms. *)

Record AlternativeBlock : Type := mkAlternativeBlock {
  entry_block : BlockId;
  exit_block : BlockId;
  alternative_info : SubExpressionInfo;
}.
Definition alternative_captures (a : AlternativeBlock) : list Z := captures (alternative_info a).

Definition emit_clear_captures (indices : list Z) : M unit :=
  for_each indices emit_clear_capture_instruction.

Definition emit_alternative_block (emit_alternative : M SubExpressionInfo) : M AlternativeBlock :=
  alternative_block_id ← new_block;
  _ ← set_current_block alternative_block_id;
  info ← emit_alternative;
  exit ← get_current_block;
  mret (mkAlternativeBlock alternative_block_id exit info).

(** In a repetition: the captures of all alternatives but the last two are
    cleared at the start of the next branch block, those of the penultimate one at
    the end of the last alternative. *)
Definition clear_skipped_captures (branch_block_ids : list BlockId)
    (alternative_blocks : list AlternativeBlock) (penultimate last_ : AlternativeBlock) : M unit :=
  _ ← for_each (zip alternative_blocks (tail branch_block_ids)) (fun p =>
        when (negb (bool_decide (alternative_captures p.1 = [])))
          (_ ← set_current_block p.2; emit_clear_captures (alternative_captures p.1)));
  for_each (alternative_captures penultimate) (fun capture_index =>
    _ ← set_current_block (exit_block last_);
    emit_clear_capture_instruction capture_index).

(** The blocks the alternatives join to, built from the last alternative to the
    first; the result is in the order of the alternatives. *)
Fixpoint emit_clear_chain (later_rev : list AlternativeBlock) (join_blocks : list BlockId)
    (next : BlockId) : M (list BlockId) :=
  match later_rev with
  | [] => mret join_blocks
  | a :: rest =>
      in_rep ← is_in_repitition;
      if in_rep && negb (bool_decide (alternative_captures a = [])) then
        clear_capture_block_id ← new_block;
        _ ← set_current_block clear_capture_block_id;
        _ ← emit_clear_captures (alternative_captures a);
        _ ← emit_jump_instruction next;
        emit_clear_chain rest (clear_capture_block_id :: join_blocks) clear_capture_block_id
      else emit_clear_chain rest (next :: join_blocks) next
  end.

Definition link_alternatives (alternative_blocks : list AlternativeBlock) (join_blocks : list BlockId) :
    M unit :=
  for_each (zip alternative_blocks join_blocks) (fun p =>
    _ ← set_current_block (exit_block p.1); emit_jump_instruction p.2).

Definition emit_branch_chain (branch_block_ids : list BlockId)
    (alternative_blocks : list AlternativeBlock) : M unit :=
  for_each (zip branch_block_ids (zip alternative_blocks (tail branch_block_ids))) (fun p =>
    _ ← set_current_block p.1;
    emit_branch_instruction (entry_block p.2.1) p.2.2).

(** [v[v.len() - k]]. *)
Definition from_end {A} (v : list A) (k : nat) : outcome A :=
  if (length v <? k)%nat then Panicked else unwrap (v !! (length v - k)%nat).

Definition emit_disjunction (alternatives : list (M SubExpressionInfo)) : M SubExpressionInfo :=
  match alternatives with
  | [] => lift Panicked          (* [alternatives.len() - 2] *)
  | [alternative] => alternative
  | _ :: _ :: later =>
      first_block ← get_current_block;
      rest ← map_each later (fun _ => new_block);
      let branch_block_ids := first_block :: rest in
      join_block_id ← new_block;
      alternative_blocks ← map_each alternatives emit_alternative_block;
      penultimate ← lift (from_end alternative_blocks 2);
      last_ ← lift (from_end alternative_blocks 1);
      in_rep ← is_in_repitition;
      _ ← when in_rep
            (clear_skipped_captures branch_block_ids alternative_blocks penultimate last_);
      join_blocks ← emit_clear_chain (reverse (tail alternative_blocks)) [join_block_id] join_block_id;
      _ ← link_alternatives alternative_blocks join_blocks;
      _ ← emit_branch_chain branch_block_ids alternative_blocks;
      last_branch ← lift (from_end branch_block_ids 1);
      _ ← set_current_block last_branch;
      _ ← emit_branch_instruction (entry_block penultimate) (entry_block last_);
      _ ← set_current_block join_block_id;
      mret (with_captures_info
              (forallb (fun a => always_consumes (alternative_info a)) alternative_blocks)
              (alternative_blocks ≫= alternative_captures))
  end.

Fixpoint emit_alternative_terms (terms : list (M SubExpressionInfo)) (acc : SubExpressionInfo) :
    M SubExpressionInfo :=
  match terms with
  | [] => mret acc
  | term :: rest =>
      info ← term;
      emit_alternative_terms rest
        (with_captures_info (always_consumes acc || always_consumes info)
           (captures acc ++ captures info))
  end.

Definition emit_alternative (terms : list (M SubExpressionInfo)) : M SubExpressionInfo :=
  forwards ← is_forwards;
  emit_alternative_terms (if forwards : bool then terms else reverse terms) (no_captures false).

(** ** Quantifiers *)

Definition emit_quantifier_branch (is_greedy : bool) (term_block_id join_block_id : BlockId) : M unit :=
  if is_greedy then emit_branch_instruction term_block_id join_block_id
  else emit_branch_instruction join_block_id term_block_id.

Definition emit_quantifier_clear_captures_branch (is_greedy : bool) (info : SubExpressionInfo)
    (term_block_id join_block_id : BlockId) : M unit :=
  clear_block_id ← new_block;
  _ ← emit_quantifier_branch is_greedy term_block_id clear_block_id;
  _ ← set_current_block clear_block_id;
  _ ← emit_clear_captures (captures info);
  emit_jump_instruction join_block_id.

Definition emit_maybe_clearing_branch (clear is_greedy : bool) (info : SubExpressionInfo)
    (term_block_id join_block_id : BlockId) : M unit :=
  if clear && negb (bool_decide (captures info = []))
  then emit_quantifier_clear_captures_branch is_greedy info term_block_id join_block_id
  else emit_quantifier_branch is_greedy term_block_id join_block_id.

Section Quantifier.

Variable emit_term : M SubExpressionInfo.
Variable is_inside_repitition is_greedy : bool.

Fixpoint emit_term_times (n : nat) (info : SubExpressionInfo) : M SubExpressionInfo :=
  match n with
  | O => mret info
  | S n' => info ← emit_term; emit_term_times n' info
  end.

(** The repetitions that must be present. *)
Definition emit_min_repititions (min : Z) : M SubExpressionInfo :=
  if negb (min =? 0) && (min <=? MAX_INLINED_REPITITIONS) then
    emit_term_times (Z.to_nat min) (no_captures false)
  else if u32_max <? min then
    _ ← emit_fail_instruction; mret (no_captures false)
  else if negb (min =? 0) then
    loop_block_id ← new_block;
    loop_end_block_id ← new_block;
    _ ← emit_jump_instruction loop_block_id;
    info ← in_block loop_block_id (
      loop_register_index ← next_loop_register;
      _ ← emit_loop_instruction loop_register_index min loop_end_block_id;
      info ← emit_term;
      _ ← emit_jump_instruction loop_block_id;
      mret info);
    _ ← set_current_block loop_end_block_id;
    mret info
  else mret (no_captures false).

(** The inlined optional repetitions [i..i+n]; the captures of the last one are returned. *)
Fixpoint emit_inlined_repititions (n : nat) (i : Z) (progress_index : option Z)
    (join_block_id : BlockId) (caps : list Z) : M (list Z) :=
  match n with
  | O => mret caps
  | S n' =>
      pred_block_id ← get_current_block;
      term_block_id ← new_block;
      _ ← set_current_block term_block_id;
      info ← emit_term;
      progress_index ←
        (if negb (always_consumes info) then
           p ← match progress_index with Some p => mret p | None => new_progress_point end;
           _ ← emit_progress_instruction p;
           mret (Some p)
         else mret progress_index);
      _ ← in_block pred_block_id
            (emit_maybe_clearing_branch ((i =? 0) && is_inside_repitition) is_greedy info
               term_block_id join_block_id);
      emit_inlined_repititions n' (i + 1) progress_index join_block_id (captures info)
  end.

Definition emit_progress_unless_consuming (info : SubExpressionInfo) : M unit :=
  when (negb (always_consumes info)) (p ← new_progress_point; emit_progress_instruction p).

(** At most [num_remaining_repititions] optional repetitions. *)
Definition emit_bounded_repititions (min num_remaining_repititions : Z) (caps : list Z) : M (list Z) :=
  join_block_id ← new_block;
  caps ←
    (if num_remaining_repititions <=? MAX_INLINED_REPITITIONS then
       caps ← emit_inlined_repititions (Z.to_nat num_remaining_repititions) min None
                join_block_id caps;
       _ ← emit_jump_instruction join_block_id;
       mret caps
     else if u32_max <? num_remaining_repititions then
       _ ← emit_fail_instruction; mret caps
     else
       predecessor_block_id ← get_current_block;
       loop_block_id ← new_block;
       info ← in_block loop_block_id (
         loop_register_index ← next_loop_register;
         _ ← emit_loop_instruction loop_register_index num_remaining_repititions join_block_id;
         info ← emit_term;
         _ ← emit_progress_unless_consuming info;
         _ ← emit_quantifier_branch is_greedy loop_block_id join_block_id;
         mret info);
       _ ← set_current_block predecessor_block_id;
       _ ← emit_maybe_clearing_branch ((min =? 0) && is_inside_repitition) is_greedy info
             loop_block_id join_block_id;
       mret (captures info));
  _ ← set_current_block join_block_id;
  mret caps.

(** Any number of optional repetitions. *)
Definition emit_unbounded_repititions : M (list Z) :=
  term_block_id ← new_block;
  join_block_id ← new_block;
  pred_block_id ← get_current_block;
  _ ← set_current_block term_block_id;
  info ← emit_term;
  _ ← in_block pred_block_id
        (emit_maybe_clearing_branch is_inside_repitition is_greedy info term_block_id join_block_id);
  _ ← emit_progress_unless_consuming info;
  _ ← emit_quantifier_branch is_greedy term_block_id join_block_id;
  _ ← set_current_block join_block_id;
  mret (captures info).

(** Zero-length matches of a quantifier with minimum 0 clear its captures. *)
Definition emit_empty_match_check (quantifier_patch_block : BlockId) (caps : list Z) : M unit :=
  progress_index ← new_progress_point;
  _ ← in_block quantifier_patch_block (emit_progress_instruction progress_index);
  check_progress_and_continue_block ← new_block;
  clear_captures_block ← new_block;
  join_block ← new_block;
  _ ← emit_branch_instruction check_progress_and_continue_block clear_captures_block;
  _ ← in_block check_progress_and_continue_block (
        _ ← emit_progress_instruction progress_index; emit_jump_instruction join_block);
  _ ← in_block clear_captures_block (
        _ ← emit_clear_captures caps; emit_jump_instruction join_block);
  set_current_block join_block.

End Quantifier.

Definition emit_quantifier (emit_term : M SubExpressionInfo) (min : Z) (max : option Z)
    (is_greedy : bool) : M SubExpressionInfo :=
  is_inside_repitition ← is_in_repitition;
  let is_repitition := match max with None => true | Some max => 1 <? max end in
  _ ← when is_repitition enter_repitition_context;
  quantifier_patch_block ← new_block;
  quantifier_start_block ← new_block;
  _ ← emit_jump_instruction quantifier_patch_block;
  _ ← set_current_block quantifier_start_block;
  info ← emit_min_repititions emit_term min;
  let finish (caps : list Z) : M SubExpressionInfo :=
    _ ← when is_repitition exit_repitition_context;
    _ ← when ((min =? 0) && negb (always_consumes info) && negb (bool_decide (caps = [])))
          (emit_empty_match_check quantifier_patch_block caps);
    mret (mkInfo (always_consumes info) caps) in
  match max with
  | Some max =>
      let num_remaining_repititions := wrap64 (max - min) in
      if num_remaining_repititions =? 0 then
        _ ← when is_repitition exit_repitition_context; mret info
      else
        caps ← emit_bounded_repititions emit_term is_inside_repitition is_greedy min
                 num_remaining_repititions (captures info);
        finish caps
  | None =>
      caps ← emit_unbounded_repititions emit_term is_inside_repitition is_greedy;
      finish caps
  end.

(** ** Groups and lookarounds *)

Definition emit_capture_group (index : Z) (emit_body : M SubExpressionInfo) : M SubExpressionInfo :=
  let capture_start_index := wrap32 (index * 2) in
  let capture_end_index := wrap32 (capture_start_index + 1) in
  forwards ← is_forwards;
  let '(first, second) := if forwards : bool then (capture_start_index, capture_end_index)
                          else (capture_end_index, capture_start_index) in
  _ ← emit_mark_capture_point_instruction first;
  info ← emit_body;
  _ ← emit_mark_capture_point_instruction second;
  mret (mkInfo (always_consumes info) (captures info ++ [index])).

Definition emit_anonymous_group (positive_modifiers negative_modifiers : RegExpFlags)
    (emit_body : M SubExpressionInfo) : M SubExpressionInfo :=
  let has_modifiers :=
    negb (Flags.is_empty positive_modifiers) || negb (Flags.is_empty negative_modifiers) in
  _ ← when has_modifiers (
        flags ← current_flags;
        push_flags (Flags.intersection (Flags.union flags positive_modifiers)
                      (Flags.complement negative_modifiers)));
  info ← emit_body;
  _ ← when has_modifiers pop_flags;
  mret info.

Definition emit_lookaround (is_ahead is_positive : bool) (emit_body : M SubExpressionInfo) :
    M SubExpressionInfo :=
  body_block_id ← new_block;
  _ ← emit_lookaround_instruction is_ahead is_positive body_block_id;
  _ ← enter_direction_context (if is_ahead then Forward else Backward);
  current ← get_current_block;
  _ ← set_current_block body_block_id;
  info ← emit_body;
  _ ← emit_accept_instruction;
  _ ← exit_direction_context;
  _ ← set_current_block current;
  mret (mkInfo false (captures info)).

(** ** Wildcards and assertions *)

Definition emit_wildcard : M unit :=
  flags ← current_flags;
  if Flags.is_dot_all flags then emit_wildcard_instruction
  else emit_wildcard_no_newline_instruction.

(** ** Character classes *)

Section Classes.

Context `{CodePointSets}.

(** [create_word_set_builder] and the static sets. *)
Definition create_word_set : cpset :=
  add_char 95 (add_range 48 57 (add_range 65 90 (add_range 97 122 set_empty))).
Definition WORD_SET : cpset := create_word_set.
Definition word_case_insensitive_set : cpset := add_char 0x212A (add_char 0x17F create_word_set).
Definition WORD_CASE_INSENSITIVE_UNICODE_SET : cpset := word_case_insensitive_set.
Definition NOT_WORD_SET : cpset := complement create_word_set.
Definition NOT_WORD_CASE_INSENSITIVE_UNICODE_SET : cpset := complement word_case_insensitive_set.

Definition create_whitespace_set : cpset :=
  add_char 0xFEFF (add_char 0x3000 (add_char 0x205F (add_char 0x202F
    (add_range 0x2028 0x2029 (add_range 0x2000 0x200A (add_char 0x1680 (add_char 0xA0
      (add_char 0x20 (add_range 0x9 0xD set_empty))))))))).
Definition WHITESPACE_SET : cpset := create_whitespace_set.
Definition NOT_WHITESPACE_SET : cpset := complement create_whitespace_set.

(** The set of strings of a class is a list without duplicates. *)
Definition insert_string (s : AstStr) (strings : list AstStr) : list AstStr :=
  if decide (s ∈ strings) then strings else strings ++ [s].

Definition complement_set (flags : RegExpFlags) (s : cpset) : cpset :=
  let all := if Flags.is_case_insensitive flags then all_case_folded_set else set_all in
  remove_set s (add_set all set_empty).

Definition maybe_simple_case_folding (flags : RegExpFlags) (s : cpset) : cpset :=
  if negb (is_case_insensitive_unicode_sets flags) then s
  else foldl (fun acc c => add_char (simple_fold c) acc) set_empty (iter_chars s).

Fixpoint add_character_class_range_to_set (flags : RegExpFlags) (class_range : ClassRange UnicodeProperty)
    (set_builder : cpset) (strings : list AstStr) : outcome (cpset * list AstStr) :=
  let ci_sets := is_case_insensitive_unicode_sets flags in
  match class_range with
  | Single code_point => Done (add_range code_point code_point set_builder, strings)
  | Range start end_ => Done (add_range start end_ set_builder, strings)
  | Word => Done (add_set WORD_SET set_builder, strings)
  | NotWord =>
      let set :=
        if Flags.is_case_insensitive flags && Flags.has_any_unicode_flag flags then
          if Flags.has_unicode_sets_flag flags
          then complement_set flags WORD_CASE_INSENSITIVE_UNICODE_SET
          else NOT_WORD_CASE_INSENSITIVE_UNICODE_SET
        else NOT_WORD_SET in
      Done (add_set set set_builder, strings)
  | Whitespace => Done (add_set WHITESPACE_SET set_builder, strings)
  | NotWhitespace =>
      Done (add_set (if ci_sets then complement_set flags WHITESPACE_SET else NOT_WHITESPACE_SET)
              set_builder, strings)
  | Digit => Done (add_range 48 57 set_builder, strings)
  | NotDigit =>
      if ci_sets
      then Done (add_set (complement_set flags (add_range 48 57 set_empty)) set_builder, strings)
      else Done (add_range 58 MAX_CODE_POINT (add_range 0 47 set_builder), strings)
  | PropertyClass property =>
      Done (property_add_to_set property set_builder,
            match property with
            | BinaryPropertyOfStrings property =>
                foldl (fun acc s => insert_string s acc) strings (property_strings property)
            | _ => strings
            end)
  | NotPropertyClass property =>
      let property_complement :=
        if ci_sets then
          complement_set flags
            (maybe_simple_case_folding flags (property_add_to_set property set_empty))
        else complement (property_add_to_set property set_empty) in
      Done (add_set property_complement set_builder, strings)
  | NestedClass nested_class =>
      '(code_points_set, string_set) ← character_class_to_set flags nested_class;
      Done (add_set code_points_set set_builder,
            foldl (fun acc s => insert_string s acc) strings string_set)
  | StringDisjunction alternatives =>
      Done (foldl (fun acc (string : AstStr) =>
              match string with
              | [code_point] => (add_range code_point code_point acc.1, acc.2)
              | _ => (acc.1, insert_string string acc.2)
              end) (set_builder, strings) alternatives)
  end
with character_class_to_set (flags : RegExpFlags) (character_class : CharacterClass UnicodeProperty) :
    outcome (cpset * list AstStr) :=
  match character_class with
  | mkClass expression_type is_inverted operands =>
      (* [character_class_range_to_set] *)
      let range_to_set class_range :=
        r ← add_character_class_range_to_set flags class_range set_empty [];
        Done (maybe_simple_case_folding flags r.1, r.2) in
      '(set, strings) ←
        match expression_type with
        | Union =>
            r ← (fix union_operands (l : list (ClassRange UnicodeProperty))
                   (acc : cpset * list AstStr) : outcome (cpset * list AstStr) :=
                   match l with
                   | [] => Done acc
                   | class_range :: l' =>
                       acc ← add_character_class_range_to_set flags class_range acc.1 acc.2;
                       union_operands l' acc
                   end) operands (set_empty, []);
            Done (maybe_simple_case_folding flags r.1, r.2)
        | Intersection =>
            match operands with
            | [] => Panicked
            | first :: others =>
                f ← range_to_set first;
                (fix retain_operands (l : list (ClassRange UnicodeProperty))
                   (acc : cpset * list AstStr) : outcome (cpset * list AstStr) :=
                   match l with
                   | [] => Done acc
                   | class_range :: l' =>
                       other ← range_to_set class_range;
                       retain_operands l' (retain_set other.1 acc.1,
                                           filter (fun s => s ∈ other.2) acc.2)
                   end) others (add_set f.1 set_empty, f.2)
            end
        | Difference =>
            match operands with
            | [] => Panicked
            | first :: others =>
                f ← range_to_set first;
                (fix remove_operands (l : list (ClassRange UnicodeProperty))
                   (acc : cpset * list AstStr) : outcome (cpset * list AstStr) :=
                   match l with
                   | [] => Done acc
                   | class_range :: l' =>
                       other ← range_to_set class_range;
                       remove_operands l' (remove_set other.1 acc.1,
                                           filter (fun s => s ∉ other.2) acc.2)
                   end) others (add_set f.1 set_empty, f.2)
            end
        end;
      Done (if is_inverted && Flags.has_unicode_sets_flag flags
            then complement_set flags set else set, strings)
  end.

Definition add_case_closure (flags : RegExpFlags) (code_point : Z) (set_builder : cpset) : cpset :=
  let set_builder := add_char code_point set_builder in
  match (if Flags.has_any_unicode_flag flags then None else case_closure_override code_point) with
  | None => add_case_closure_to code_point set_builder
  | Some override => add_set override set_builder
  end.

Definition case_close_over (flags : RegExpFlags) (s : cpset) : cpset :=
  foldl (fun acc c => add_case_closure flags c acc) set_empty (iter_chars s).

Definition emit_set_comparisons (s : cpset) : M unit :=
  for_each (iter_ranges s) (fun range =>
    if range.1 =? range.2 then emit_compare_equals_instruction range.1
    else emit_compare_between_instruction range.1 (range.2 + 1)).

Definition emit_code_point_set (s : cpset) (is_inverted : bool) : M unit :=
  if (set_size s =? 1) && negb is_inverted then
    single_code_point ← lift (unwrap (head (iter_chars s)));
    emit_literal_instruction single_code_point
  else
    _ ← emit_set_comparisons s;
    if is_inverted then emit_consume_if_false_instruction else emit_consume_if_true_instruction.

Definition emit_code_point_literal (code_point : Z) : M unit :=
  flags ← current_flags;
  if Flags.is_case_insensitive flags && negb (is_surrogate_code_point code_point) then
    emit_code_point_set (add_case_closure flags code_point set_empty) false
  else emit_literal_instruction code_point.

Definition emit_literal (string : AstStr) : M unit :=
  forwards ← is_forwards;
  for_each (if forwards : bool then string else reverse string) emit_code_point_literal.

(** The bytes of a string, by which strings are ordered: longest first. *)
Definition as_bytes (s : AstStr) : list Z :=
  s ≫= fun c => match encode_utf8_codepoint c with Done bytes => bytes | _ => [] end.
Fixpoint bytes_le (a b : list Z) : bool :=
  match a, b with
  | [], _ => true
  | _ :: _, [] => false
  | x :: a', y :: b' => (x <? y) || ((x =? y) && bytes_le a' b')
  end.
Definition longer_first (a b : AstStr) : Prop :=
  let la := length (as_bytes a) in
  let lb := length (as_bytes b) in
  ((lb <? la)%nat || ((la =? lb)%nat && bytes_le (as_bytes a) (as_bytes b))) = true.
#[export] Instance longer_first_dec : RelDecision longer_first.
Proof. intros a b. unfold longer_first. apply _. Defined.

Definition emit_class_string_disjunction (strings : list AstStr) (success_block : BlockId) : M unit :=
  let strings := merge_sort longer_first strings in
  first_block ← get_current_block;
  rest ← map_each (tail strings) (fun _ => new_block);
  let branch_block_ids := first_block :: rest in
  alternative_block_ids ← map_each strings (fun _ => new_block);
  join_block_id ← new_block;
  _ ← for_each (zip branch_block_ids (zip alternative_block_ids (tail branch_block_ids))) (fun p =>
        _ ← set_current_block p.1; emit_branch_instruction p.2.1 p.2.2);
  last_branch ← lift (from_end branch_block_ids 1);
  last_alternative ← lift (from_end alternative_block_ids 1);
  _ ← set_current_block last_branch;
  _ ← emit_branch_instruction last_alternative join_block_id;
  _ ← for_each (zip alternative_block_ids strings) (fun p =>
        _ ← set_current_block p.1;
        _ ← emit_literal p.2;
        emit_jump_instruction success_block);
  set_current_block join_block_id.

(** The set of code points a class is matched against. *)
Definition matched_set (flags : RegExpFlags) (s : cpset) : cpset :=
  if Flags.is_case_insensitive flags then case_close_over flags s else s.

Definition emit_character_class (character_class : CharacterClass UnicodeProperty) : M unit :=
  flags ← current_flags;
  '(set, strings) ← lift (character_class_to_set flags character_class);
  join_block ←
    (if bool_decide (strings = []) then mret None
     else
       join_block_id ← new_block;
       _ ← emit_class_string_disjunction strings join_block_id;
       mret (Some join_block_id));
  let '(mkClass _ is_inverted _) := character_class in
  _ ← emit_code_point_set (matched_set flags set)
        (is_inverted && negb (Flags.has_unicode_sets_flag flags));
  match join_block with
  | Some join_block => _ ← emit_jump_instruction join_block; set_current_block join_block
  | None => mret tt
  end.

(** ** Word boundaries and assertions *)

Definition emit_word_comparison : M unit :=
  flags ← current_flags;
  emit_set_comparisons
    (if Flags.is_case_insensitive flags && Flags.has_any_unicode_flag flags
     then WORD_CASE_INSENSITIVE_UNICODE_SET else WORD_SET).

Definition emit_assert_word_boundary : M unit :=
  _ ← emit_word_comparison;
  _ ← emit_word_boundary_move_to_previous_instruction;
  _ ← emit_word_comparison;
  emit_assert_word_boundary_instruction.

Definition emit_assert_not_word_boundary : M unit :=
  _ ← emit_word_comparison;
  _ ← emit_word_boundary_move_to_previous_instruction;
  _ ← emit_word_comparison;
  emit_assert_not_word_boundary_instruction.

Definition emit_assertion (assertion : Assertion) : M unit :=
  match assertion with
  | Start =>
      flags ← current_flags;
      if Flags.is_multiline flags then emit_assert_start_or_newline_instruction
      else emit_assert_start_instruction
  | End_ =>
      flags ← current_flags;
      if Flags.is_multiline flags then emit_assert_end_or_newline_instruction
      else emit_assert_end_instruction
  | WordBoundary => emit_assert_word_boundary
  | NotWordBoundary => emit_assert_not_word_boundary
  end.

(** ** Terms *)

Fixpoint emit_term (term : Term UnicodeProperty) : M SubExpressionInfo :=
  match term with
  | LiteralTerm string => _ ← emit_literal string; mret (no_captures true)
  | WildcardTerm => _ ← emit_wildcard; mret (no_captures true)
  | QuantifierTerm term min max is_greedy => emit_quantifier (emit_term term) min max is_greedy
  | AssertionTerm assertion => _ ← emit_assertion assertion; mret (no_captures false)
  | CaptureGroupTerm _ index d =>
      emit_capture_group index (emit_disjunction (map (fun alt => emit_alternative (map emit_term alt)) d))
  | AnonymousGroupTerm d positive_modifiers negative_modifiers =>
      emit_anonymous_group positive_modifiers negative_modifiers
        (emit_disjunction (map (fun alt => emit_alternative (map emit_term alt)) d))
  | CharacterClassTerm character_class =>
      _ ← emit_character_class character_class; mret (no_captures true)
  | LookaroundTerm is_ahead is_positive d =>
      emit_lookaround is_ahead is_positive
        (emit_disjunction (map (fun alt => emit_alternative (map emit_term alt)) d))
  | BackreferenceTerm index =>
      flags ← current_flags;
      _ ← emit_backreference_instruction (Flags.is_case_insensitive flags) index;
      mret (no_captures false)
  end.

(** ** Flattening *)

(** The word index of each block, and the words of all blocks. *)
Fixpoint block_offsets (offset : Z) (bs : list (list Z)) : list Z :=
  match bs with
  | [] => []
  | block :: bs' => offset :: block_offsets (offset + Z.of_nat (length block)) bs'
  end.

Definition map_block_id (id_map : list Z) (id : Z) : outcome Z :=
  if id <? 0 then Panicked else unwrap (id_map !! Z.to_nat id).

(** The branch operands of the instruction at [ptr] are block ids. *)
Definition fix_instruction (id_map : list Z) (buf : list Z) (ptr : Z) (i : Instruction) :
    outcome (list Z) :=
  match i with
  | Branch first second =>
      first ← map_block_id id_map first;
      second ← map_block_id id_map second;
      Done (set_second_branch (set_first_branch buf ptr (wrap32 first)) ptr (wrap32 second))
  | Jump target => target ← map_block_id id_map target; Done (set_target buf ptr (wrap32 target))
  | Lookaround _ _ body =>
      body ← map_block_id id_map body; Done (set_body_branch buf ptr (wrap32 body))
  | Loop _ _ end_ => end_ ← map_block_id id_map end_; Done (set_end_branch buf ptr (wrap32 end_))
  | _ => Done buf
  end.

(** The loop over [InstructionIteratorMut]; an instruction has at least one word. *)
Fixpoint fix_indices (fuel : nat) (id_map : list Z) (buf : list Z) (ptr : Z) : outcome (list Z) :=
  match fuel with
  | O => OutOfFuel
  | S fuel' =>
      if Z.of_nat (length buf) <=? ptr then Done buf
      else
        i ← read_instruction buf ptr;
        buf ← fix_instruction id_map buf ptr i;
        fix_indices fuel' id_map buf (ptr + size i)
  end.

Definition flatten_and_fix_indices (bs : list (list Z)) : outcome (list Z) :=
  let instructions := mjoin bs in
  fix_indices (S (length instructions)) (block_offsets 0 bs) instructions 0.

(** ** Whole patterns *)

Definition emit_regexp (regexp : RegExp UnicodeProperty) : M unit :=
  _ ← new_block;
  flags ← current_flags;
  _ ← when (negb (Flags.is_sticky flags)) emit_preamble;
  _ ← emit_mark_capture_point_instruction 0;
  _ ← emit_disjunction (map (fun alt => emit_alternative (map emit_term alt)) (disjunction regexp));
  _ ← emit_mark_capture_point_instruction 1;
  emit_accept_instruction.

Definition compile_regexp (regexp : RegExp UnicodeProperty) : outcome CompiledRegExp :=
  r ← emit_regexp regexp (CompiledRegExpBuilder_new (flags regexp));
  instructions ← flatten_and_fix_indices (blocks r.2);
  Done (mkCompiledRegExp instructions
          (wrap32 (Z.of_nat (length (capture_groups regexp))))
          (progress_point_count r.2) (loop_register_count r.2)
          (has_duplicate_names regexp) (capture_groups regexp)
          (Flags.has_any_unicode_flag (flags regexp))).

End Classes.
