(* ===== verification/RegExpBuilderLogic.v ===== *)
(** A program logic for the builder of the RegExp compiler.

    [wp m P b] says that the computation [m] returns from the builder [b] and
    establishes [P].  [Good X b] says that the blocks of [b] are encodings of
    instructions with valid operands and that the last block, which is not followed
    by another one, ends in a terminator unless it is one of the blocks [X] that
    are still to be completed.  [emits] and [emits_here] are the specifications of
    the emitters of subexpressions and of straight-line code. *)

From S2P Require Import Prelude Unicode LexerStream RegExpInstruction RegExpMatcher.
From S2P Require Import RegExpSyntax CodePointSet RegExpCompiler.

(** ** Weakest preconditions *)

Definition wp {A} (m : M A) (P : A -> CompiledRegExpBuilder -> Prop) (b : CompiledRegExpBuilder) :
    Prop :=
  exists a b', m b = Done (a, b') /\ P a b'.

Lemma wp_ret {A} (a : A) P b : P a b -> wp (mret a) P b.
Proof. intros HP. by exists a, b. Qed.

Lemma wp_bind {A B} (m : M A) (f : A -> M B) P b :
  wp m (fun a => wp (f a) P) b -> wp (m ≫= f) P b.
Proof.
  intros (a & b' & E & a' & b'' & E' & HP). exists a', b''. split; [|done].
  unfold mbind, M_bind. by rewrite E.
Qed.

Lemma wp_mono {A} (m : M A) (P Q : A -> CompiledRegExpBuilder -> Prop) b :
  wp m P b -> (forall a b', P a b' -> Q a b') -> wp m Q b.
Proof. intros (a & b' & E & HP) HQ. exists a, b'. auto. Qed.

Lemma wp_for_each {A} (l : list A) (f : A -> M unit) (I : CompiledRegExpBuilder -> Prop) P b :
  I b -> (forall x b', x ∈ l -> I b' -> wp (f x) (fun _ => I) b') ->
  (forall b', I b' -> P tt b') -> wp (for_each l f) P b.
Proof.
  intros HI Hf HP. revert b HI. induction l as [|x l IH]; intros b HI; cbn [for_each].
  - apply wp_ret, HP, HI.
  - apply wp_bind. eapply wp_mono; [apply Hf; [by left|done]|]. intros ? b' HI'.
    apply IH; [|done]. intros y b'' Hy. apply Hf. by right.
Qed.

Lemma wp_gets {A} (f : CompiledRegExpBuilder -> A) P b : P (f b) b -> wp (gets f) P b.
Proof. intros HP. by exists (f b), b. Qed.

Lemma wp_lift {A} (o : outcome A) a P b : o = Done a -> P a b -> wp (lift o) P b.
Proof. intros -> HP. by exists a, b. Qed.

(** ** Blocks of instructions *)

Definition terminator (i : Instruction) : bool :=
  match i with Jump _ | Branch _ _ | Accept | Fail => true | _ => false end.

Definition closed (block : list Instruction) : bool :=
  match last block with Some i => terminator i | None => false end.

Definition encode_block (block : list Instruction) : list Z := mjoin (encode <$> block).

Definition num_blocks (b : CompiledRegExpBuilder) : nat := length (blocks b).

Section Builder.

Context (num_points : Z) (features : Features).

Definition capture_valid (g : Z) : Prop := 0 <= g /\ g * 2 + 1 < num_points.

(** Valid operands, branch operands being block ids. *)
Definition instr_valid (nb : nat) (np nl : Z) (i : Instruction) : Prop :=
  match i with
  | Literal c | CompareEquals c => 0 <= c <= MAX_CODE_POINT
  | CompareBetween a e => 0 <= a <= MAX_CODE_POINT /\ 0 <= e <= MAX_CODE_POINT + 1
  | Jump t => 0 <= t < Z.of_nat nb
  | Branch t u => 0 <= t < Z.of_nat nb /\ 0 <= u < Z.of_nat nb
  | Lookaround is_ahead _ t =>
      (is_ahead = false -> lookbehinds features = true) /\ 0 <= t < Z.of_nat nb
  | Loop r m t => 0 <= r < nl /\ 0 <= m <= u32_max /\ 0 <= t < Z.of_nat nb
  | MarkCapturePoint k => 0 <= k < num_points
  | ClearCapture g => capture_valid g
  | Progress p => 0 <= p < np
  | Backreference _ g => back_references features = true /\ 0 <= g <= u32_max
  | _ => True
  end.

Definition valid_in (b : CompiledRegExpBuilder) : Instruction -> Prop :=
  instr_valid (num_blocks b) (progress_point_count b) (loop_register_count b).

Definition last_closed (X : list nat) (ibs : list (list Instruction)) : Prop :=
  match last ibs with
  | Some block => closed block = true \/ (length ibs - 1)%nat ∈ X
  | None => False
  end.

Record Good (X : list nat) (b : CompiledRegExpBuilder) : Prop := mkGood {
  good_current : (current_block_id b < num_blocks b)%nat;
  good_flags : flags_stack b <> [];
  good_directions : direction_stack b <> [];
  good_counts : 0 <= progress_point_count b /\ 0 <= loop_register_count b;
  good_blocks : exists ibs, blocks b = encode_block <$> ibs /\
    Forall (Forall (valid_in b)) ibs /\ last_closed X ibs;
}.

(** What every piece of the builder does to the rest of the state. *)
Record Step (b b' : CompiledRegExpBuilder) : Prop := mkStep {
  step_blocks : (num_blocks b <= num_blocks b')%nat;
  step_progress : progress_point_count b <= progress_point_count b';
  step_loops : loop_register_count b <= loop_register_count b';
  step_flags : flags_stack b' = flags_stack b;
  step_directions : direction_stack b' = direction_stack b;
}.

#[export] Instance Step_preorder : PreOrder Step.
Proof.
  split; [intros b; by split|].
  intros b1 b2 b3 [] []. split; [lia|lia|lia|congruence|congruence].
Qed.

Lemma valid_step b b' i : Step b b' -> valid_in b i -> valid_in b' i.
Proof.
  intros [Hb Hp Hl _ _]. unfold valid_in. destruct i; cbn; try done; intuition lia.
Qed.

Lemma valid_blocks_step b b' ibs :
  Step b b' -> Forall (Forall (valid_in b)) ibs -> Forall (Forall (valid_in b')) ibs.
Proof.
  intros Hs Hv. eapply Forall_impl; [exact Hv|]. intros block Hb.
  eapply Forall_impl; [exact Hb|]. intros i. by apply valid_step.
Qed.

Lemma last_closed_mono X Y ibs : X ⊆ Y -> last_closed X ibs -> last_closed Y ibs.
Proof. unfold last_closed. destruct (last ibs); [|done]. intros HXY [?|?]; [by left|right; auto]. Qed.

Lemma Good_mono X Y b : X ⊆ Y -> Good X b -> Good Y b.
Proof.
  intros HXY [? ? ? ? (ibs & ? & ? & ?)]. split; [done..|]. exists ibs. split_and!; [done..|].
  by eapply last_closed_mono.
Qed.

Lemma blocks_length b ibs : blocks b = encode_block <$> ibs -> length ibs = num_blocks b.
Proof. intros E. unfold num_blocks. by rewrite E, length_fmap. Qed.

(** A block that is not the last one need not be completed. *)
Lemma Good_drop k X b : (S k < num_blocks b)%nat -> Good (k :: X) b -> Good X b.
Proof.
  intros Hk [? ? ? ? (ibs & E & ? & Hl)]. split; [done..|]. exists ibs. split_and!; [done..|].
  unfold last_closed in *. destruct (last ibs); [|done]. rewrite (blocks_length _ _ E) in *.
  destruct Hl as [?|Hl]; [by left|right]. apply elem_of_cons in Hl as [?|?]; [lia|done].
Qed.

(** ** Primitive operations *)

Lemma wp_new_block X b P :
  Good X b ->
  (forall b', Good [num_blocks b] b' -> Step b b' -> current_block_id b' = current_block_id b ->
     num_blocks b' = S (num_blocks b) -> P (num_blocks b) b') ->
  wp new_block P b.
Proof.
  intros [Hc Hf Hd Hn (ibs & E & Hv & _)] HP. eexists _, _. split; [reflexivity|].
  set (b' := set_blocks b (blocks b ++ [[]])).
  assert (num_blocks b' = S (num_blocks b)) as Hnb.
  { unfold num_blocks, b'. cbn. rewrite length_app. cbn. lia. }
  assert (Step b b') as Hs by (split; [lia|done..]).
  apply HP; [|done|done|done].
  split; [rewrite Hnb; cbn; lia|done..|]. exists (ibs ++ [[]]). split_and!.
  - cbn. by rewrite E, fmap_app.
  - apply Forall_app. split; [by eapply valid_blocks_step|]. by repeat constructor.
  - unfold last_closed. rewrite last_snoc, length_app. cbn. right.
    rewrite (blocks_length _ _ E). apply list_elem_of_singleton. lia.
Qed.

Lemma wp_set_current X b k P :
  Good X b -> (k < num_blocks b)%nat ->
  (forall b', Good X b' -> Step b b' -> current_block_id b' = k ->
     num_blocks b' = num_blocks b -> P tt b') ->
  wp (set_current_block k) P b.
Proof.
  intros HG Hk HP. exists tt, (set_current b k). split; [done|].
  apply HP; [|by split|done|done]. by destruct HG.
Qed.

Lemma encode_block_snoc block i : encode_block (block ++ [i]) = encode_block block ++ encode i.
Proof.
  unfold encode_block. rewrite fmap_app, join_app. cbn. by rewrite app_nil_r.
Qed.

Lemma last_closed_insert X ibs k block i :
  ibs !! k = Some block ->
  last_closed X ibs -> k ∈ X \/ (S k < length ibs)%nat ->
  last_closed X (<[k := block ++ [i]]> ibs).
Proof.
  intros Hk Hl HX. unfold last_closed in *. rewrite length_insert.
  rewrite last_lookup in *. rewrite length_insert.
  destruct (decide (k = Nat.pred (length ibs))) as [->|Hne].
  - rewrite list_lookup_insert_eq by (by eapply lookup_lt_Some).
    right. destruct HX as [HX|?]; [|lia]. by replace (length ibs - 1)%nat with (Nat.pred (length ibs)) by lia.
  - by rewrite list_lookup_insert_ne by done.
Qed.

Lemma last_closed_terminate X ibs k block i :
  ibs !! k = Some block -> terminator i = true ->
  last_closed (k :: X) ibs -> last_closed X (<[k := block ++ [i]]> ibs).
Proof.
  intros Hk Ht Hl. unfold last_closed in *. rewrite length_insert.
  rewrite last_lookup in *. rewrite length_insert.
  destruct (decide (k = Nat.pred (length ibs))) as [->|Hne].
  - rewrite list_lookup_insert_eq by (by eapply lookup_lt_Some).
    cbv iota. left. unfold closed. by rewrite last_snoc.
  - rewrite list_lookup_insert_ne by done.
    destruct (ibs !! Nat.pred (length ibs)); [|done].
    destruct Hl as [?|Hl]; [by left|right]. apply elem_of_cons in Hl as [?|?]; [lia|done].
Qed.

Lemma wp_emit_with X Y b i P :
  Good X b -> valid_in b i ->
  (forall ibs block, ibs !! current_block_id b = Some block -> length ibs = num_blocks b ->
     last_closed X ibs -> last_closed Y (<[current_block_id b := block ++ [i]]> ibs)) ->
  (forall b', Good Y b' -> Step b b' -> current_block_id b' = current_block_id b ->
     num_blocks b' = num_blocks b -> P tt b') ->
  wp (emit i) P b.
Proof.
  intros [Hc Hf Hd Hn (ibs & E & Hv & Hl)] Hi HY HP.
  pose proof (blocks_length _ _ E) as Hlen.
  destruct (lookup_lt_is_Some_2 ibs (current_block_id b)) as [block Hblock]; [lia|].
  assert (blocks b !! current_block_id b = Some (encode_block block)) as Eb.
  { by rewrite E, list_lookup_fmap, Hblock. }
  eexists tt, _. split; [unfold emit; rewrite Eb; reflexivity|].
  set (b' := set_blocks _ _).
  assert (num_blocks b' = num_blocks b) as Hnb by (unfold num_blocks, b'; cbn; apply length_insert).
  assert (Step b b') as Hs by (split; [lia|done..]).
  apply HP; [|done..]. split; [rewrite Hnb; done|done..|].
  exists (<[current_block_id b := block ++ [i]]> ibs). split_and!.
  - cbn. rewrite write_encode, list_fmap_insert, encode_block_snoc, E. done.
  - apply Forall_insert; [by eapply valid_blocks_step|]. apply Forall_app. split.
    + eapply Forall_impl; [|intros ?; by apply valid_step].
      eapply Forall_lookup_1 in Hv; [exact Hv|exact Hblock].
    + constructor; [by eapply valid_step|constructor].
  - by apply HY.
Qed.

Lemma wp_emit X b i P :
  Good X b -> valid_in b i ->
  current_block_id b ∈ X \/ (S (current_block_id b) < num_blocks b)%nat ->
  (forall b', Good X b' -> Step b b' -> current_block_id b' = current_block_id b ->
     num_blocks b' = num_blocks b -> P tt b') ->
  wp (emit i) P b.
Proof.
  intros HG Hi HX HP. eapply wp_emit_with; [done|done| |exact HP].
  intros ibs block Hb Hl Hc. apply last_closed_insert; [done|done|]. by rewrite Hl.
Qed.

Lemma wp_emit_terminator X b i P :
  Good (current_block_id b :: X) b -> valid_in b i -> terminator i = true ->
  (forall b', Good X b' -> Step b b' -> current_block_id b' = current_block_id b ->
     num_blocks b' = num_blocks b -> P tt b') ->
  wp (emit i) P b.
Proof.
  intros HG Hi Ht HP. eapply wp_emit_with; [done|done| |exact HP].
  intros ibs block Hb Hl Hc. by apply last_closed_terminate.
Qed.

Lemma wp_current X b P :
  Good X b -> ((current_block_id b < num_blocks b)%nat -> P (current_block_id b) b) ->
  wp get_current_block P b.
Proof. intros HG HP. apply wp_gets, HP, HG. Qed.

Lemma wp_new_progress_point X b P :
  Good X b ->
  (forall b', Good X b' -> Step b b' -> current_block_id b' = current_block_id b ->
     num_blocks b' = num_blocks b -> 0 <= progress_point_count b < progress_point_count b' ->
     P (progress_point_count b) b') ->
  wp new_progress_point P b.
Proof.
  intros [Hc Hf Hd Hn (ibs & E & Hv & Hl)] HP. eexists _, _. split; [reflexivity|].
  set (b' := set_counts _ _ _). assert (Step b b') as Hs by (split; cbn; done || lia).
  apply HP; [|done|done|done|cbn; lia]. split; [done..|cbn; lia|]. exists ibs. split_and!; [done| |done].
  by eapply valid_blocks_step.
Qed.

Lemma wp_next_loop_register X b P :
  Good X b ->
  (forall b', Good X b' -> Step b b' -> current_block_id b' = current_block_id b ->
     num_blocks b' = num_blocks b -> 0 <= loop_register_count b < loop_register_count b' ->
     P (loop_register_count b) b') ->
  wp next_loop_register P b.
Proof.
  intros [Hc Hf Hd Hn (ibs & E & Hv & Hl)] HP. eexists _, _. split; [reflexivity|].
  set (b' := set_counts _ _ _). assert (Step b b') as Hs by (split; cbn; done || lia).
  apply HP; [|done|done|done|cbn; lia]. split; [done..|cbn; lia|]. exists ibs. split_and!; [done| |done].
  by eapply valid_blocks_step.
Qed.

Lemma wp_current_flags X b P : Good X b -> (forall f, P f b) -> wp current_flags P b.
Proof.
  intros HG HP. pose proof (good_flags _ _ HG). unfold wp, current_flags.
  destruct (flags_stack b) as [|f fs] eqn:E; [done|]. exists f, b. split; [done|apply HP].
Qed.

Lemma wp_is_forwards X b P : Good X b -> (forall d, P d b) -> wp is_forwards P b.
Proof.
  intros HG HP. pose proof (good_directions _ _ HG). unfold wp, is_forwards.
  destruct (direction_stack b) as [|d ds] eqn:E; [done|]. eexists _, b.
  split; [reflexivity|apply HP].
Qed.

(** ** Emitters

    [emits Q m]: from any state in which the current block is to be completed,
    [m] returns with the current block, possibly another one, to be completed.
    [emits_here m]: [m] only appends to the current block. *)

Definition emits {A} (Q : A -> Prop) (m : M A) : Prop :=
  forall b X P, Good (current_block_id b :: X) b ->
  (forall a b', Good (current_block_id b' :: X) b' -> Step b b' -> Q a -> P a b') -> wp m P b.

Definition emits_here (m : M unit) : Prop :=
  forall b X P, Good X b ->
  current_block_id b ∈ X \/ (S (current_block_id b) < num_blocks b)%nat ->
  (forall b', Good X b' -> Step b b' -> current_block_id b' = current_block_id b ->
     num_blocks b' = num_blocks b -> P tt b') -> wp m P b.

Lemma emit_here i : instr_valid 0 0 0 i -> emits_here (emit i).
Proof.
  intros Hi b X P HG HX HP. eapply wp_emit; [done| |done|done].
  pose proof (good_counts _ _ HG). unfold valid_in. destruct i; cbn in *; try done; lia.
Qed.

Lemma ret_here : emits_here (mret tt).
Proof. intros b X P HG HX HP. apply wp_ret, HP; done. Qed.

Lemma bind_here m (f : unit -> M unit) : emits_here m -> emits_here (f tt) -> emits_here (m ≫= f).
Proof.
  intros Hm Hf b X P HG HX HP. apply wp_bind, (Hm b X); [done|done|]. intros b1 HG1 HS1 HC1 HN1.
  apply (Hf b1 X); [done|rewrite HC1, HN1; done|]. intros b2 HG2 HS2 HC2 HN2.
  apply HP; [done|by etrans|congruence|congruence].
Qed.

Lemma for_each_here {A} (l : list A) f : (forall x, x ∈ l -> emits_here (f x)) -> emits_here (for_each l f).
Proof.
  intros Hf. induction l as [|x l IH]; cbn [for_each]; [apply ret_here|].
  apply bind_here; [apply Hf; by left|]. apply IH. intros y Hy. apply Hf. by right.
Qed.

Lemma flags_here (f : RegExpFlags -> M unit) :
  (forall fl, emits_here (f fl)) -> emits_here (fl ← current_flags; f fl).
Proof.
  intros Hf b X P HG HX HP. apply wp_bind, (wp_current_flags X); [done|]. intros fl. by apply (Hf fl b X).
Qed.

Lemma forwards_here (f : bool -> M unit) :
  (forall d, emits_here (f d)) -> emits_here (d ← is_forwards; f d).
Proof.
  intros Hf b X P HG HX HP. apply wp_bind, (wp_is_forwards X); [done|]. intros d. by apply (Hf d b X).
Qed.

Lemma here_emits {A} (Q : A -> Prop) m a : emits_here m -> Q a -> emits Q (_ ← m; mret a).
Proof.
  intros Hm Ha b X P HG HP. apply wp_bind, (Hm b (current_block_id b :: X)); [done|left; left|].
  intros b' HG' HS' HC' HN'. apply wp_ret, HP; [by rewrite HC'|done|done].
Qed.

Lemma ret_emits {A} (Q : A -> Prop) a : Q a -> emits Q (mret a).
Proof. intros Ha b X P HG HP. by apply wp_ret, HP. Qed.

Lemma bind_emits {A B} (Q : A -> Prop) (R : B -> Prop) m f :
  emits Q m -> (forall a, Q a -> emits R (f a)) -> emits R (m ≫= f).
Proof.
  intros Hm Hf b X P HG HP. apply wp_bind, (Hm b X); [done|]. intros a b1 HG1 HS1 Ha.
  apply (Hf a Ha b1 X); [done|]. intros c b2 HG2 HS2 Hc. apply HP; [done|by etrans|done].
Qed.

Lemma emits_forwards {A} (Q : A -> Prop) (f : bool -> M A) :
  (forall d, emits Q (f d)) -> emits Q (d ← is_forwards; f d).
Proof.
  intros Hf b X P HG HP. apply wp_bind, (wp_is_forwards (current_block_id b :: X)); [done|].
  intros d. by apply (Hf d b X).
Qed.

Definition info_valid (i : SubExpressionInfo) : Prop := Forall capture_valid (captures i).

Lemma clear_captures_here l : Forall capture_valid l -> emits_here (emit_clear_captures l).
Proof.
  intros Hl. apply for_each_here. intros g Hg. apply emit_here.
  rewrite Forall_forall in Hl. by apply Hl.
Qed.

Lemma valid_branch b t u : (t < num_blocks b)%nat -> (u < num_blocks b)%nat ->
  valid_in b (Branch (Z.of_nat t) (Z.of_nat u)).
Proof. intros. unfold valid_in. cbn. lia. Qed.
Lemma valid_jump b t : (t < num_blocks b)%nat -> valid_in b (Jump (Z.of_nat t)).
Proof. intros. unfold valid_in. cbn. lia. Qed.

End Builder.
