(* ===== verification/RegExpEmitCorrect.v ===== *)
(** The emitters of the RegExp compiler meet their specification: each returns
    and leaves a builder in which only the current block is to be completed. *)

From S2P Require Import Prelude Unicode RegExpInstruction RegExpMatcher.
From S2P Require Import RegExpSyntax CodePointSet RegExpCompiler RegExpBuilderLogic.

(** Introduce the state after an operation and its relation to the state before. *)
Ltac intro_state b' :=
  let HG := fresh "HG" in let HS := fresh "HS" in let HC := fresh "HC" in let HN := fresh "HN" in
  intros b' HG HS HC HN; pose proof (step_blocks _ _ HS).
Ltac step_chain := first [eassumption | reflexivity | etrans; [eassumption|step_chain]].

Section Emitters.

Context (num_points : Z) (features : Features).

#[local] Abbreviation Good := (Good num_points features).
#[local] Abbreviation emits := (emits num_points features).
#[local] Abbreviation emits_here := (emits_here num_points features).
#[local] Abbreviation info_valid := (info_valid num_points).
#[local] Abbreviation capture_valid := (capture_valid num_points).

Lemma wp_in_block {R} k (f : M R) X P b :
  Good X b -> (k < num_blocks b)%nat ->
  (forall b1, Good X b1 -> Step b b1 -> current_block_id b1 = k -> num_blocks b1 = num_blocks b ->
     wp f (fun r b2 => Step b b2 /\ exists Y, Good Y b2 /\
       forall b3, Good Y b3 -> Step b b3 -> current_block_id b3 = current_block_id b ->
         num_blocks b3 = num_blocks b2 -> P r b3) b1) ->
  wp (in_block k f) P b.
Proof.
  intros HG Hk Hf. unfold in_block. apply wp_bind; eapply (wp_current _ _ X); [done|]. intros Hc.
  apply wp_bind; eapply (wp_set_current _ _ X); [done|done|]. intro_state b1.
  apply wp_bind. eapply wp_mono; [by apply Hf|]. intros r b2 (HS2 & Y & HG2 & HP).
  pose proof (step_blocks _ _ HS2).
  apply wp_bind; eapply (wp_set_current _ _ Y); [done|lia|]. intro_state b3.
  apply wp_ret, HP; [done| |done|done]. step_chain.
Qed.

(** ** Branches of quantifiers *)

Lemma wp_quantifier_branch X g t j P b :
  Good (current_block_id b :: X) b -> (t < num_blocks b)%nat -> (j < num_blocks b)%nat ->
  (forall b', Good X b' -> Step b b' -> current_block_id b' = current_block_id b ->
     num_blocks b' = num_blocks b -> P tt b') ->
  wp (emit_quantifier_branch g t j) P b.
Proof.
  intros HG Ht Hj HP. destruct g; (eapply wp_emit_terminator; [done|by apply valid_branch|done|done]).
Qed.

Lemma wp_maybe_clearing_branch X c g info t j P b :
  Good (current_block_id b :: X) b -> info_valid info ->
  (t < num_blocks b)%nat -> (j < num_blocks b)%nat ->
  (forall b', Good X b' -> Step b b' -> P tt b') ->
  wp (emit_maybe_clearing_branch c g info t j) P b.
Proof.
  intros HG Hi Ht Hj HP. unfold emit_maybe_clearing_branch.
  destruct (_ && _); [|apply (wp_quantifier_branch X); [done..|]; intros; by apply HP].
  unfold emit_quantifier_clear_captures_branch.
  apply wp_bind. eapply wp_new_block; [done|]. intro_state b1.
  pose proof (good_current _ _ _ _ HG).
  apply wp_bind. apply (wp_quantifier_branch [num_blocks b]); [|lia|lia|].
  { eapply Good_mono; [|done]. set_solver. }
  intro_state b2. apply wp_bind. eapply wp_set_current; [done|lia|]. intro_state b3.
  apply wp_bind. apply (clear_captures_here num_points features _ Hi b3 [num_blocks b]);
    [done|left; rewrite HC1; set_solver|]. intro_state b4.
  eapply (wp_emit_terminator _ _ X); [|apply valid_jump; lia|done|].
  { eapply Good_mono; [|done]. rewrite HC2, HC1. set_solver. }
  intro_state b5. apply HP; [done|]. step_chain.
Qed.

Lemma progress_unless_consuming_emits info :
  emits (fun _ => True) (emit_progress_unless_consuming info).
Proof.
  intros b X P HG HP. unfold emit_progress_unless_consuming, when.
  destruct (negb _); [|by apply wp_ret, HP].
  apply wp_bind. eapply wp_new_progress_point; [done|]. intros b1 HG1 HS1 HC1 HN1 Hp.
  eapply wp_emit; [done|unfold valid_in; cbn; lia|left; rewrite HC1; set_solver|].
  intro_state b2. apply HP; [rewrite HC, HC1; done|step_chain|done].
Qed.

(** ** Quantifiers *)

Section Quantifier.

Context (term : M SubExpressionInfo) (Hterm : emits info_valid term).

Lemma term_times_emits n : forall info, info_valid info -> emits info_valid (emit_term_times term n info).
Proof.
  induction n as [|n IH]; intros info Hi; cbn [emit_term_times]; [by apply ret_emits|].
  eapply bind_emits; [exact Hterm|]. intros info' Hi'. by apply IH.
Qed.

Lemma min_repititions_emits min : 0 <= min -> emits info_valid (emit_min_repititions term min).
Proof.
  intros Hmin. unfold emit_min_repititions. assert (info_valid (no_captures false)) as H0 by constructor.
  destruct (_ && _); [by apply term_times_emits|].
  destruct (Z.ltb_spec u32_max min); [apply here_emits; [by apply emit_here|done]|].
  destruct (negb _); [|by apply ret_emits].
  intros b X P HG HP. pose proof (good_current _ _ _ _ HG).
  apply wp_bind. eapply wp_new_block; [done|]. intro_state b1.
  apply wp_bind. eapply wp_new_block; [done|]. intro_state b2.
  set (loop_block := num_blocks b) in *. set (loop_end := num_blocks b1) in *.
  apply wp_bind. eapply (wp_emit_terminator _ _ [loop_end]); [|apply valid_jump; lia|done|].
  { eapply Good_mono; [|done]. set_solver. }
  intro_state b3. apply wp_bind, (wp_in_block _ _ [loop_end]); [done|lia|].
  intro_state b4. apply wp_bind. eapply wp_next_loop_register; [done|].
  intros b5 HG5 HS5 HC5 HN5 Hr.
  apply wp_bind. eapply wp_emit; [done|unfold valid_in; cbn; lia|right; lia|]. intro_state b6.
  apply wp_bind, (Hterm b6 [loop_end]); [eapply Good_mono; [|done]; set_solver|].
  intros info b7 HG7 HS7 Hinfo. pose proof (step_blocks _ _ HS7).
  apply wp_bind. eapply (wp_emit_terminator _ _ [loop_end]); [done|apply valid_jump; lia|done|].
  intro_state b8. apply wp_ret. split; [step_chain|]. exists [loop_end]. split; [done|].
  intro_state b9. apply wp_bind. eapply wp_set_current; [done|lia|]. intro_state b10.
  apply wp_ret, HP; [|step_chain|done].
  eapply Good_mono; [|done]. set_solver.
Qed.

Lemma inlined_repititions_wp inside g join n : forall i progress caps b X P,
  Good (current_block_id b :: X) b -> Forall capture_valid caps -> (join < num_blocks b)%nat ->
  (forall p, progress = Some p -> 0 <= p < progress_point_count b) ->
  (forall caps' b', Good (current_block_id b' :: X) b' -> Step b b' -> Forall capture_valid caps' ->
     P caps' b') ->
  wp (emit_inlined_repititions term inside g n i progress join caps) P b.
Proof.
  induction n as [|n IH]; intros i progress caps b X P HG Hc Hj Hp HP; cbn [emit_inlined_repititions].
  { by apply wp_ret, HP. }
  apply wp_bind. eapply wp_current; [done|]. intros Hpred. set (pred := current_block_id b) in *.
  apply wp_bind. eapply wp_new_block; [done|]. intro_state b1. set (tb := num_blocks b) in *.
  apply wp_bind. eapply wp_set_current; [done|lia|]. intro_state b2.
  apply wp_bind, (Hterm b2 X); [eapply Good_mono; [|done]; set_solver|].
  intros info b3 HG3 HS3 Hinfo. pose proof (step_blocks _ _ HS3).
  apply wp_bind.
  assert (Hprog : forall Q : option Z -> CompiledRegExpBuilder -> Prop,
    (forall progress' b', Good (current_block_id b' :: X) b' -> Step b3 b' ->
       (forall p, progress' = Some p -> 0 <= p < progress_point_count b') -> Q progress' b') ->
    wp (if negb (always_consumes info)
        then p ← match progress with Some p => mret p | None => new_progress_point end;
             _ ← emit_progress_instruction p; mret (Some p)
        else mret progress) Q b3).
  { intros Q HQ.
    assert (forall p b', Good (current_block_id b' :: X) b' -> Step b3 b' ->
      0 <= p < progress_point_count b' ->
      wp (_ ← emit_progress_instruction p; mret (Some p)) Q b') as Hemit.
    { intros p b' HG' HS' Hp'. apply wp_bind. eapply wp_emit; [done|unfold valid_in; cbn; lia|left; left|].
      intro_state b4. apply wp_ret, HQ; [by rewrite HC1|step_chain|].
      intros p' [= <-]. pose proof (step_progress _ _ HS1). lia. }
    assert (Step b b3) as HSb by step_chain. pose proof (step_progress _ _ HSb).
    destruct (negb _).
    - apply wp_bind. destruct progress as [p|].
      + apply wp_ret, Hemit; [done|done|]. specialize (Hp p eq_refl). lia.
      + eapply wp_new_progress_point; [done|]. intros b4 HG4 HS4 HC4 HN4 Hp4.
        apply Hemit; [by rewrite HC4|done|lia].
    - apply wp_ret, HQ; [done|done|]. intros p Hpp. specialize (Hp p Hpp). lia. }
  apply Hprog. clear Hprog. intros progress' b4 HG4 HS4 Hp4. pose proof (step_blocks _ _ HS4).
  apply wp_bind, (wp_in_block _ _ (current_block_id b4 :: X)); [done|lia|].
  intro_state b5. apply (wp_maybe_clearing_branch (current_block_id b4 :: X)); [|done|lia|lia|].
  { eapply Good_mono; [|done]. set_solver. }
  intros b6 HG6 HS6. pose proof (step_blocks _ _ HS6). split; [step_chain|].
  exists (current_block_id b4 :: X). split; [done|]. intro_state b7.
  assert (Step b4 b7) as HS47 by done. pose proof (step_progress _ _ HS47).
  apply (IH _ _ _ _ X); [by rewrite HC2|done|lia|intros p Hpp; specialize (Hp4 p Hpp); lia|].
  intros caps' b8 HG8 HS8 Hc8. apply HP; [done|step_chain|done].
Qed.

Lemma loop_repititions_wp g join remaining b X P :
  Good (current_block_id b :: X) b -> (join < num_blocks b)%nat -> 0 <= remaining <= u32_max ->
  (forall info lb b', Good [] b' -> Step b b' -> info_valid info -> (lb < num_blocks b')%nat ->
     current_block_id b' = current_block_id b -> P info lb b') ->
  wp (lb ← new_block;
      info ← in_block lb (
        r ← next_loop_register;
        _ ← emit_loop_instruction r remaining join;
        info ← term;
        _ ← emit_progress_unless_consuming info;
        _ ← emit_quantifier_branch g lb join;
        mret info);
      mret (lb, info)) (fun r => P r.2 r.1) b.
Proof.
  intros HG Hj Hr HP. pose proof (good_current _ _ _ _ HG).
  apply wp_bind. eapply wp_new_block; [done|]. intro_state b1. set (lb := num_blocks b) in *.
  apply wp_bind, (wp_in_block _ _ [lb]); [done|lia|]. intro_state b2.
  apply wp_bind. eapply wp_next_loop_register; [done|]. intros b3 HG3 HS3 HC3 HN3 Hreg.
  apply wp_bind. eapply wp_emit; [done|unfold valid_in; cbn; lia|left; apply list_elem_of_singleton; congruence|]. intro_state b4.
  apply wp_bind, (Hterm b4 []); [replace (current_block_id b4) with lb by congruence; done|].
  intros info b5 HG5 HS5 Hi. pose proof (step_blocks _ _ HS5).
  apply wp_bind, (progress_unless_consuming_emits info b5 []); [done|].
  intros [] b6 HG6 HS6 _. pose proof (step_blocks _ _ HS6).
  apply wp_bind, (wp_quantifier_branch []); [done|lia|lia|]. intro_state b7.
  apply wp_ret. split; [step_chain|]. exists []. split; [done|]. intro_state b8.
  apply wp_ret, HP; [done|step_chain|done|cbn; lia|congruence].
Qed.

Lemma bounded_repititions_emits inside g min remaining caps :
  0 <= remaining -> Forall capture_valid caps ->
  emits (Forall capture_valid) (emit_bounded_repititions term inside g min remaining caps).
Proof.
  intros Hr Hcaps b X P HG HP. unfold emit_bounded_repititions. pose proof (good_current _ _ _ _ HG).
  apply wp_bind. eapply wp_new_block; [done|]. intro_state b1. set (join := num_blocks b) in *.
  assert (Hend : forall caps' b', Good [join] b' -> Step b1 b' -> Forall capture_valid caps' ->
    wp (_ ← set_current_block join; mret caps') P b').
  { intros caps' b' HG' HS' Hc'. pose proof (step_blocks _ _ HS').
    apply wp_bind. eapply wp_set_current; [done|lia|]. intro_state b2.
    apply wp_ret, HP; [|step_chain|done]. eapply Good_mono; [|done]. set_solver. }
  apply wp_bind. destruct (_ <=? _).
  - apply wp_bind, (inlined_repititions_wp inside g join) with (X := [join]);
      [eapply Good_mono; [|done]; set_solver|done|lia|done|].
    intros caps' b2 HG2 HS2 Hc2. pose proof (step_blocks _ _ HS2).
    apply wp_bind. eapply (wp_emit_terminator _ _ [join]); [done|apply valid_jump; lia|done|].
    intro_state b3. apply wp_ret, Hend; [done|step_chain|done].
  - destruct (Z.ltb_spec u32_max remaining).
    + apply wp_bind. eapply (wp_emit_terminator _ _ [join]); [|done|done|].
      { eapply Good_mono; [|done]. set_solver. }
      intro_state b2. by apply wp_ret, Hend.
    + apply wp_bind. eapply wp_current; [done|]. intros _.
      set (pred := current_block_id b1) in *.
      assert (forall b2 info lb, Good [] b2 -> Step b1 b2 -> info_valid info ->
        (lb < num_blocks b2)%nat ->
        wp (_ ← set_current_block pred;
            _ ← emit_maybe_clearing_branch ((min =? 0) && inside) g info lb join;
            mret (captures info)) (fun a => wp (_ ← set_current_block join; mret a) P) b2) as Hlink.
      { intros b2 info lb HG2 HS2 Hi Hlb. pose proof (step_blocks _ _ HS2).
        apply wp_bind. eapply wp_set_current; [done|lia|]. intro_state b3.
        apply wp_bind, (wp_maybe_clearing_branch [join]); [|done|lia|lia|].
        { eapply Good_mono; [|done]. set_solver. }
        intros b4 HG4 HS4. apply wp_ret, Hend; [done|step_chain|done]. }
      destruct (loop_repititions_wp g join remaining b1 [join]
        (fun info lb b2 => Good [] b2 /\ Step b1 b2 /\ info_valid info /\ (lb < num_blocks b2)%nat))
        as ([lb info] & b2 & E & HG2 & HS2 & Hi & Hlb);
        [eapply Good_mono; [|done]; set_solver|lia|lia|by intros; split_and!|].
      destruct (Hlink b2 info lb HG2 HS2 Hi Hlb) as (a & b3 & E3 & HP3).
      exists a, b3. split; [|done]. revert E E3. clear.
      unfold mbind, M_bind. destruct (new_block b1) as [[lb' b1']| | |]; try done.
      destruct (in_block _ _ b1') as [[info' b2']| | |]; try done.
      intros [= -> -> ->]. done.
Qed.

Lemma unbounded_repititions_emits inside g :
  emits (Forall capture_valid) (emit_unbounded_repititions term inside g).
Proof.
  intros b X P HG HP. unfold emit_unbounded_repititions. pose proof (good_current _ _ _ _ HG).
  apply wp_bind. eapply wp_new_block; [done|]. intro_state b1. set (tb := num_blocks b) in *.
  apply wp_bind. eapply wp_new_block; [done|]. intro_state b2. set (join := num_blocks b1) in *.
  apply wp_bind. eapply wp_current; [done|]. intros _. set (pred := current_block_id b2) in *.
  apply wp_bind. eapply wp_set_current; [done|lia|]. intro_state b3.
  apply wp_bind, (Hterm b3 [join]); [eapply Good_mono; [|done]; set_solver|].
  intros info b4 HG4 HS4 Hi. pose proof (step_blocks _ _ HS4).
  apply wp_bind, (wp_in_block _ _ (current_block_id b4 :: [join])); [done|lia|].
  intro_state b5. apply (wp_maybe_clearing_branch (current_block_id b4 :: [join])); [|done|lia|lia|].
  { eapply Good_mono; [|done]. set_solver. }
  intros b6 HG6 HS6. pose proof (step_blocks _ _ HS6). split; [step_chain|].
  exists (current_block_id b4 :: [join]). split; [done|]. intro_state b7.
  apply wp_bind, (progress_unless_consuming_emits info b7 [join]); [by rewrite HC3|].
  intros [] b8 HG8 HS8 _. pose proof (step_blocks _ _ HS8).
  apply wp_bind, (wp_quantifier_branch [join]); [done|lia|lia|]. intro_state b9.
  apply wp_bind. eapply wp_set_current; [done|lia|]. intro_state b10.
  apply wp_ret, HP; [|step_chain|done]. eapply Good_mono; [|done]. set_solver.
Qed.

End Quantifier.

Lemma empty_match_check_wp patch caps b X P :
  Good (current_block_id b :: X) b -> (S patch < num_blocks b)%nat -> Forall capture_valid caps ->
  (forall b', Good (current_block_id b' :: X) b' -> Step b b' -> P tt b') ->
  wp (emit_empty_match_check patch caps) P b.
Proof.
  intros HG Hpatch Hcaps HP. pose proof (good_current _ _ _ _ HG). unfold emit_empty_match_check.
  apply wp_bind. eapply wp_new_progress_point; [done|]. intros b1 HG1 HS1 HC1 HN1 Hp.
  set (p := progress_point_count b) in *.
  apply wp_bind, (wp_in_block _ _ (current_block_id b :: X)); [done|lia|]. intro_state b2.
  pose proof (step_progress _ _ HS).
  eapply wp_emit; [done|unfold valid_in; cbn; lia|right; lia|]. intro_state b3.
  split; [step_chain|]. exists (current_block_id b :: X). split; [done|]. intro_state b4.
  apply wp_bind. eapply wp_new_block; [done|]. intro_state b5. set (check := num_blocks b4) in *.
  apply wp_bind. eapply wp_new_block; [done|]. intro_state b6. set (clear := num_blocks b5) in *.
  apply wp_bind. eapply wp_new_block; [done|]. intro_state b7. set (join := num_blocks b6) in *.
  apply wp_bind. eapply (wp_emit_terminator _ _ [join]); [|apply valid_branch; lia|done|].
  { eapply Good_mono; [|done]. set_solver. }
  intro_state b8.
  assert (Step b1 b8) as HS18 by step_chain. pose proof (step_progress _ _ HS18).
  apply wp_bind, (wp_in_block _ _ [join]); [done|lia|]. intro_state b9.
  pose proof (step_progress _ _ HS7).
  apply wp_bind. eapply wp_emit; [done|unfold valid_in; cbn; lia|right; lia|]. intro_state b10.
  eapply (wp_emit_terminator _ _ [join]); [|apply valid_jump; lia|done|].
  { eapply Good_mono; [|done]. set_solver. }
  intro_state b11. split; [step_chain|]. exists [join]. split; [done|]. intro_state b12.
  apply wp_bind, (wp_in_block _ _ [join]); [done|lia|]. intro_state b13.
  apply wp_bind, (clear_captures_here num_points features _ Hcaps b13 [join]); [done|right; lia|].
  intro_state b14. eapply (wp_emit_terminator _ _ [join]); [|apply valid_jump; lia|done|].
  { eapply Good_mono; [|done]. set_solver. }
  intro_state b15. split; [step_chain|]. exists [join]. split; [done|]. intro_state b16.
  eapply wp_set_current; [done|lia|]. intro_state b17.
  apply HP; [|step_chain]. eapply Good_mono; [|done]. set_solver.
Qed.

Lemma wp_set_depth X n b P :
  Good X b ->
  (forall b', Good X b' -> Step b b' -> current_block_id b' = current_block_id b ->
     num_blocks b' = num_blocks b -> P tt b') ->
  wp (fun b => Done (tt, set_depth b n)) P b.
Proof.
  intros [? ? ? ? ?] HP. exists tt, (set_depth b n). split; [done|]. apply HP; [by split|by split|done|done].
Qed.

Lemma wp_when_depth X c (f : Z -> Z) b P :
  Good X b ->
  (forall b', Good X b' -> Step b b' -> current_block_id b' = current_block_id b ->
     num_blocks b' = num_blocks b -> P tt b') ->
  wp (when c (fun b => Done (tt, set_depth b (f (repitition_depth b))))) P b.
Proof.
  intros HG HP. destruct c; cbn [when]; [|apply wp_ret, HP; done].
  destruct (wp_set_depth X (f (repitition_depth b)) b P HG HP) as (a & b' & E & ?). by exists a, b'.
Qed.

Lemma quantifier_emits term min max g :
  emits info_valid term -> 0 <= min -> emits info_valid (emit_quantifier term min max g).
Proof.
  intros Hterm Hmin b X P HG HP. pose proof (good_current _ _ _ _ HG). unfold emit_quantifier.
  apply wp_bind, wp_gets. apply wp_bind. eapply (wp_when_depth _ _ (fun d => d + 1)); [done|]. intro_state b1.
  apply wp_bind. eapply wp_new_block; [done|]. intro_state b2. set (patch := num_blocks b1) in *.
  apply wp_bind. eapply wp_new_block; [done|]. intro_state b3. set (start := num_blocks b2) in *.
  apply wp_bind. eapply (wp_emit_terminator _ _ [start]); [|apply valid_jump; lia|done|].
  { eapply Good_mono; [|done]. set_solver. }
  intro_state b4. apply wp_bind. eapply wp_set_current; [done|lia|]. intro_state b5.
  apply wp_bind, (min_repititions_emits term Hterm min Hmin b5 X).
  { eapply Good_mono; [|done]. set_solver. }
  intros info b6 HG6 HS6 Hi. pose proof (step_blocks _ _ HS6). cbv zeta.
  assert (Hfinish : forall caps b7, Good (current_block_id b7 :: X) b7 -> Step b6 b7 ->
    Forall capture_valid caps ->
    wp (_ ← when (match max with None => true | Some max => 1 <? max end) exit_repitition_context;
        _ ← when ((min =? 0) && negb (always_consumes info) && negb (bool_decide (caps = [])))
              (emit_empty_match_check patch caps);
        mret (mkInfo (always_consumes info) caps)) P b7).
  { intros caps b7 HG7 HS7 Hc. pose proof (step_blocks _ _ HS7).
    apply wp_bind. eapply (wp_when_depth _ _ (fun d => d - 1)); [done|]. intro_state b8.
    apply wp_bind. destruct (_ && _ && _); cbn [when].
    - apply (empty_match_check_wp patch caps) with (X := X); [by rewrite HC4|lia|done|].
      intros b9 HG9 HS9. apply wp_ret, HP; [done|step_chain|done].
    - apply wp_ret, wp_ret, HP; [by rewrite HC4|step_chain|done]. }
  destruct max as [max|].
  - destruct (wrap64 (max - min) =? 0).
    + apply wp_bind. eapply (wp_when_depth _ _ (fun d => d - 1)); [done|]. intro_state b7.
      apply wp_ret, HP; [by rewrite HC4|step_chain|done].
    + apply wp_bind, (bounded_repititions_emits term Hterm _ g min (wrap64 (max - min)) (captures info))
        with (X := X); [apply Z.mod_pos_bound; lia|done|done|].
      intros caps b7 HG7 HS7 Hc. by apply Hfinish.
  - apply wp_bind, (unbounded_repititions_emits term Hterm _ g) with (X := X); [done|].
    intros caps b7 HG7 HS7 Hc. by apply Hfinish.
Qed.

(** ** Disjunctions *)

Definition alternative_valid (b : CompiledRegExpBuilder) (a : AlternativeBlock) : Prop :=
  (entry_block a < num_blocks b)%nat /\ (exit_block a < num_blocks b)%nat /\
  info_valid (alternative_info a).

Lemma alternatives_step b b' l :
  (num_blocks b <= num_blocks b')%nat -> Forall (alternative_valid b) l -> Forall (alternative_valid b') l.
Proof.
  intros Hb Hl. eapply Forall_impl; [exact Hl|]. unfold alternative_valid. intros a. intuition lia.
Qed.

Lemma alternative_block_wp m b X P :
  emits info_valid m -> Good X b ->
  (forall a b', Good [exit_block a] b' -> Step b b' -> alternative_valid b' a -> P a b') ->
  wp (emit_alternative_block m) P b.
Proof.
  intros Hm HG HP. unfold emit_alternative_block.
  apply wp_bind. eapply wp_new_block; [done|]. intro_state b1. set (j := num_blocks b) in *.
  apply wp_bind. eapply wp_set_current; [done|lia|]. intro_state b2.
  apply wp_bind, (Hm b2 []); [by rewrite HC0|]. intros info b3 HG3 HS3 Hi. pose proof (step_blocks _ _ HS3).
  apply wp_bind. eapply wp_current; [done|]. intros Hc. apply wp_ret, HP; [done|step_chain|].
  split_and!; cbn; [lia|done|done].
Qed.

Lemma alternatives_wp ms : forall b X P,
  Forall (emits info_valid) ms -> Good X b ->
  (forall l b', length l = length ms -> Step b b' -> Forall (alternative_valid b') l ->
     (forall a, last l = Some a -> Good [exit_block a] b') -> (l = [] -> Good X b') -> P l b') ->
  wp (map_each ms emit_alternative_block) P b.
Proof.
  induction ms as [|m ms IH]; intros b X P Hms HG HP; cbn [map_each].
  { apply wp_ret, HP; [done|done|constructor|done|done]. }
  apply Forall_cons in Hms as [Hm Hms].
  apply wp_bind, (alternative_block_wp m b X); [done|done|]. intros a b1 HG1 HS1 Ha.
  apply wp_bind, (IH b1 [exit_block a]); [done|done|]. intros l b2 Hlen HS2 Hl Hlast Hnil.
  pose proof (step_blocks _ _ HS2). apply wp_ret, HP.
  - cbn. by rewrite Hlen.
  - step_chain.
  - constructor; [|done]. destruct Ha as (? & ? & ?). split_and!; [lia|lia|done].
  - intros a'. rewrite last_cons. destruct (last l) as [a''|] eqn:E; intros [= <-]; [by apply Hlast|].
    apply Hnil. by apply last_None.
  - done.
Qed.

Lemma new_blocks_wp {A} (l : list A) : forall b X P,
  Good X b ->
  (forall ids b', length ids = length l -> Step b b' ->
     Forall (fun k => (num_blocks b <= k < num_blocks b')%nat) ids ->
     current_block_id b' = current_block_id b -> (exists Y, Good Y b') -> P ids b') ->
  wp (map_each l (fun _ => new_block)) P b.
Proof.
  induction l as [|x l IH]; intros b X P HG HP; cbn [map_each].
  { apply wp_ret, HP; [done|done|constructor|done|eauto]. }
  apply wp_bind. eapply wp_new_block; [done|]. intro_state b1.
  apply wp_bind. eapply IH; [done|]. intros ids b2 Hlen HS2 Hids HC2 HY. pose proof (step_blocks _ _ HS2).
  apply wp_ret, HP; [cbn; lia|step_chain| |congruence|done].
  constructor; [lia|]. eapply Forall_impl; [exact Hids|]. cbn. lia.
Qed.

Lemma elem_of_zip {A B} (p : A * B) l k : p ∈ zip l k -> p.1 ∈ l /\ p.2 ∈ k.
Proof.
  destruct p as [x y]. intros Hp.
  split; [by eapply elem_of_zip_l|by eapply elem_of_zip_r].
Qed.

(** Straight-line code appended to a block that is complete or awaited. *)
Lemma set_and_emit_here k m X P b :
  emits_here m -> Good X b -> (k < num_blocks b)%nat -> k ∈ X \/ (S k < num_blocks b)%nat ->
  (forall b', Good X b' -> Step b b' -> num_blocks b' = num_blocks b -> P tt b') ->
  wp (_ ← set_current_block k; m) P b.
Proof.
  intros Hm HG Hk HX HP. apply wp_bind. eapply wp_set_current; [done|done|]. intro_state b1.
  apply (Hm b1 X); [done|by rewrite HC, HN|]. intro_state b2. apply HP; [done|step_chain|congruence].
Qed.

Lemma set_and_terminate k i X P b :
  Good (k :: X) b -> (k < num_blocks b)%nat -> valid_in num_points features b i ->
  terminator i = true ->
  (forall b', Good X b' -> Step b b' -> num_blocks b' = num_blocks b -> P tt b') ->
  wp (_ ← set_current_block k; emit i) P b.
Proof.
  intros HG Hk Hi Ht HP. apply wp_bind. eapply wp_set_current; [done|done|]. intro_state b1.
  eapply (wp_emit_terminator _ _ X); [by rewrite HC|by eapply valid_step|done|].
  intro_state b2. apply HP; [done|step_chain|congruence].
Qed.

Lemma clear_skipped_captures_wp ids l pen last_ b P :
  Good [exit_block last_] b -> (exit_block last_ < num_blocks b)%nat ->
  Forall (alternative_valid b) l -> info_valid (alternative_info pen) ->
  Forall (fun k => (S k < num_blocks b)%nat) (tail ids) ->
  (forall b', Good [exit_block last_] b' -> Step b b' -> P tt b') ->
  wp (clear_skipped_captures ids l pen last_) P b.
Proof.
  intros HG He Hl Hpen Hids HP. unfold clear_skipped_captures.
  set (I := fun b' => Good [exit_block last_] b' /\ Step b b').
  apply wp_bind, (wp_for_each _ _ I); [by split| |].
  - intros p b1 [Hp1 Hp2]%elem_of_zip [HG1 HS1]. pose proof (step_blocks _ _ HS1).
    destruct (negb _); cbn [when]; [|by apply wp_ret].
    eapply Forall_forall in Hl; [|exact Hp1]. eapply Forall_forall in Hids; [|exact Hp2]. cbn in Hids.
    apply (set_and_emit_here _ _ [exit_block last_]);
      [apply clear_captures_here, Hl|done|lia|right; lia|].
    intros b2 HG2 HS2 _. split; [done|step_chain].
  - intros b1 [HG1 HS1]. apply (wp_for_each _ _ I); [by split| |intros b2 []; by apply HP].
    intros g b2 Hg [HG2 HS2]. pose proof (step_blocks _ _ HS2).
    apply (set_and_emit_here _ _ [exit_block last_]); [|done|lia|left; set_solver|].
    + apply emit_here. unfold info_valid in Hpen. rewrite Forall_forall in Hpen. by apply Hpen.
    + intros b3 HG3 HS3 _. split; [done|step_chain].
Qed.

Lemma clear_chain_wp e l : forall joins next b P,
  Good [e] b -> Forall (alternative_valid b) l ->
  (next < num_blocks b)%nat -> Forall (fun k => (k < num_blocks b)%nat) joins ->
  (forall joins' b', length joins' = (length l + length joins)%nat ->
     Forall (fun k => (k < num_blocks b')%nat) joins' -> Good [e] b' -> Step b b' -> P joins' b') ->
  wp (emit_clear_chain l joins next) P b.
Proof.
  induction l as [|a l IH]; intros joins next b P HG Hl Hn Hj HP; cbn [emit_clear_chain].
  { by apply wp_ret, HP. }
  apply Forall_cons in Hl as [Ha Hl]. apply wp_bind, wp_gets. destruct (_ && _).
  - apply wp_bind. eapply wp_new_block; [done|]. intro_state b1. set (c := num_blocks b) in *.
    apply wp_bind. eapply wp_set_current; [done|lia|]. intro_state b2.
    apply wp_bind, (clear_captures_here num_points features _ (proj2 (proj2 Ha)) b2 [c]);
      [done|left; rewrite HC0; set_solver|]. intro_state b3.
    apply wp_bind. eapply (wp_emit_terminator _ _ [e]); [|apply valid_jump; lia|done|].
    { eapply Good_mono; [|done]. rewrite HC1, HC0. set_solver. }
    intro_state b4. apply IH; [done|eapply alternatives_step; [|done]; lia|lia| |].
    + constructor; [lia|]. eapply Forall_impl; [exact Hj|]. cbn. lia.
    + intros joins' b5 Hlen Hj5 HG5 HS5. apply HP; [cbn in *; lia|done|done|step_chain].
  - apply IH; [done|done|done|by constructor|]. intros joins' b5 Hlen Hj5 HG5 HS5.
    apply HP; [cbn in *; lia|done|done|done].
Qed.

Lemma link_alternatives_wp e l : forall b P,
  Good [e] b -> Forall (fun p => (exit_block p.1 < num_blocks b)%nat /\ (p.2 < num_blocks b)%nat) l ->
  (e ∈ (fun p => exit_block p.1) <$> l) \/ Good [] b ->
  (forall b', Good [] b' -> Step b b' -> P tt b') ->
  wp (for_each l (fun p => _ ← set_current_block (exit_block p.1); emit_jump_instruction p.2)) P b.
Proof.
  induction l as [|p l IH]; intros b P HG Hl He HP; cbn [for_each].
  { destruct He as [He|?]; [by apply elem_of_nil in He|]. by apply wp_ret, HP. }
  apply Forall_cons in Hl as [[Hp1 Hp2] Hl]. apply wp_bind.
  assert (Hgo : forall Y, Good (exit_block p.1 :: Y) b -> Y ⊆ [e] ->
    e ∈ (fun p => exit_block p.1) <$> l \/ Y = [] ->
    wp (_ ← set_current_block (exit_block p.1); emit_jump_instruction p.2)
       (fun _ => wp (for_each l (fun p => _ ← set_current_block (exit_block p.1); emit_jump_instruction p.2)) P) b).
  { intros Y HGY HY HeY. eapply (set_and_terminate _ _ Y); [done|done|by apply valid_jump|done|].
    intros b1 HG1 HS1 HN1. apply IH.
    - by eapply Good_mono.
    - eapply Forall_impl; [exact Hl|]. cbn. lia.
    - destruct HeY as [?| ->]; [by left|by right].
    - intros b2 HG2 HS2. apply HP; [done|step_chain]. }
  destruct He as [He|HG0].
  - rewrite fmap_cons in He. apply elem_of_cons in He as [->|He].
    + apply (Hgo []); [done|set_solver|by right].
    + apply (Hgo [e]); [eapply Good_mono; [|done]; set_solver|done|by left].
  - apply (Hgo []); [eapply Good_mono; [|done]; set_solver|set_solver|by right].
Qed.

Lemma branch_chain_wp {A} (entry : A -> nat) l b P :
  Good [] b ->
  Forall (fun p : nat * (A * nat) => (p.1 < num_blocks b)%nat /\ (entry p.2.1 < num_blocks b)%nat /\
    (p.2.2 < num_blocks b)%nat) l ->
  (forall b', Good [] b' -> Step b b' -> P tt b') ->
  wp (for_each l (fun p => _ ← set_current_block p.1; emit_branch_instruction (entry p.2.1) p.2.2)) P b.
Proof.
  intros HG Hl HP. apply (wp_for_each _ _ (fun b' => Good [] b' /\ Step b b')); [by split| |].
  - intros p b1 Hp [HG1 HS1]. pose proof (step_blocks _ _ HS1).
    rewrite Forall_forall in Hl. destruct (Hl _ Hp) as (? & ? & ?).
    eapply (set_and_terminate _ _ []); [eapply Good_mono; [|done]; set_solver|lia|apply valid_branch; lia|done|].
    intros b2 HG2 HS2 _. split; [done|step_chain].
  - intros b1 []. by apply HP.
Qed.

Lemma from_end_last {A} (l : list A) (x : A) : last l = Some x -> from_end l 1 = Done x.
Proof.
  intros Hx. unfold from_end. rewrite last_lookup in Hx.
  replace (length l - 1)%nat with (Nat.pred (length l)) by lia. rewrite Hx.
  apply lookup_lt_Some in Hx. by rewrite (proj2 (Nat.ltb_ge _ _)) by lia.
Qed.

Lemma from_end_in {A} (l : list A) k :
  (0 < k <= length l)%nat -> exists x, from_end l k = Done x /\ x ∈ l.
Proof.
  intros Hk. unfold from_end. rewrite (proj2 (Nat.ltb_ge _ _)) by lia.
  destruct (lookup_lt_is_Some_2 l (length l - k)) as [x Hx]; [lia|].
  exists x. rewrite Hx. split; [done|]. by eapply list_elem_of_lookup_2.
Qed.

Lemma disjunction_captures_valid l b :
  Forall (alternative_valid b) l -> Forall capture_valid (l ≫= alternative_captures).
Proof.
  intros Hl. apply Forall_forall. intros g (a & Hg & Ha)%list_elem_of_bind.
  rewrite Forall_forall in Hl. destruct (Hl a Ha) as (_ & _ & Hi).
  unfold info_valid in Hi. rewrite Forall_forall in Hi. by apply Hi.
Qed.

Lemma disjunction_emits ms :
  ms <> [] -> Forall (emits info_valid) ms -> emits info_valid (emit_disjunction ms).
Proof.
  intros Hne Hms. destruct ms as [|m1 [|m2 later]]; [done|by apply Forall_cons in Hms as [? _]|].
  intros b X P HG HP. unfold emit_disjunction. set (ms := m1 :: m2 :: later) in *.
  apply wp_bind. eapply wp_current; [done|]. intros Hcur. set (first := current_block_id b) in *.
  apply wp_bind. eapply new_blocks_wp; [done|]. intros rest b1 Hrest HS1 Hids HC1 [Y HG1].
  pose proof (step_blocks _ _ HS1).
  apply wp_bind. eapply wp_new_block; [done|]. intro_state b2. set (join := num_blocks b1) in *.
  apply wp_bind, (alternatives_wp ms b2 [join]); [done|done|].
  intros l b3 Hlen HS3 Hl Hlast _. pose proof (step_blocks _ _ HS3).
  assert (exists pen, from_end l 2 = Done pen /\ pen ∈ l) as (pen & Epen & Hpen)
    by (apply from_end_in; rewrite Hlen; cbn; lia).
  destruct (last l) as [last_|] eqn:El; [|apply last_None in El; by subst].
  specialize (Hlast last_ eq_refl). pose proof (last_Some_elem_of _ _ El) as Hlast_in.
  apply wp_bind, (wp_lift _ pen); [done|]. apply wp_bind, (wp_lift _ last_); [by apply from_end_last|].
  pose proof Hl as Hall. rewrite Forall_forall in Hall.
  destruct (Hall _ Hpen) as (Hpe & Hpx & Hpi). destruct (Hall _ Hlast_in) as (Hle & Hlx & Hli).
  rewrite Forall_forall in Hids.
  apply wp_bind, wp_gets. apply wp_bind.
  assert (Hclear : forall (Q : unit -> CompiledRegExpBuilder -> Prop) c,
    (forall b', Good [exit_block last_] b' -> Step b3 b' -> Q tt b') ->
    wp (when c (clear_skipped_captures (first :: rest) l pen last_)) Q b3).
  { intros Q c HQ. destruct c; cbn [when]; [|by apply wp_ret, HQ].
    apply clear_skipped_captures_wp; [done|done|done|done| |done].
    apply Forall_forall. intros k Hk. cbn in Hk. apply Hids in Hk. lia. }
  apply Hclear. intros b4 HG4 HS4. pose proof (step_blocks _ _ HS4).
  apply wp_bind, (clear_chain_wp (exit_block last_)); [done| |lia|by repeat constructor; lia|].
  { apply Forall_forall. intros a Ha. rewrite elem_of_reverse in Ha.
    assert (a ∈ l) as Ha' by (destruct l; [done|by right]).
    apply (Forall_forall (alternative_valid b4) l); [eapply alternatives_step; [|done]; lia|done]. }
  intros joins b5 Hjl Hjs HG5 HS5. pose proof (step_blocks _ _ HS5).
  assert (length joins = length l) as Hjl'
    by (rewrite length_reverse in Hjl; destruct l; [done|cbn in *; lia]).
  apply wp_bind, (link_alternatives_wp (exit_block last_)); [done| | |].
  { apply Forall_forall. intros p [Hp1 Hp2]%elem_of_zip.
    destruct (Hall _ Hp1) as (? & ? & _). rewrite Forall_forall in Hjs. specialize (Hjs _ Hp2).
    cbn in Hjs. lia. }
  { left. change (exit_block last_ ∈ (exit_block ∘ fst) <$> zip l joins).
    rewrite list_fmap_compose, fst_zip by lia. apply list_elem_of_fmap. eauto. }
  intros b6 HG6 HS6. pose proof (step_blocks _ _ HS6).
  assert (Hfirst : forall k, k ∈ first :: rest -> (k < num_blocks b6)%nat).
  { intros k [->|Hk]%elem_of_cons; [lia|]. apply Hids in Hk. lia. }
  apply wp_bind, (branch_chain_wp entry_block); [done| |].
  { apply Forall_forall. intros p [Hp1 [Hp2 Hp3]%elem_of_zip]%elem_of_zip.
    destruct (Hall _ Hp2) as (? & _ & _). split_and!; [by apply Hfirst|lia|].
    apply Hfirst. by right. }
  intros b7 HG7 HS7. pose proof (step_blocks _ _ HS7).
  destruct (from_end_in (first :: rest) 1) as (lb & Elb & Hlb); [cbn; lia|].
  apply wp_bind, (wp_lift _ lb); [done|]. specialize (Hfirst _ Hlb).
  apply wp_bind. eapply wp_set_current; [done|lia|]. intro_state b8.
  apply wp_bind. eapply (wp_emit_terminator _ _ []); [|apply valid_branch; lia|done|].
  { eapply Good_mono; [|done]. set_solver. }
  intro_state b9. apply wp_bind. eapply wp_set_current; [done|lia|]. intro_state b10.
  apply wp_ret, HP; [|step_chain|by eapply disjunction_captures_valid].
  eapply Good_mono; [|done]. set_solver.
Qed.

Lemma alternative_terms_emits ms : forall acc,
  Forall (emits info_valid) ms -> info_valid acc -> emits info_valid (emit_alternative_terms ms acc).
Proof.
  induction ms as [|m ms IH]; intros acc Hms Ha; cbn [emit_alternative_terms]; [by apply ret_emits|].
  apply Forall_cons in Hms as [Hm Hms]. eapply bind_emits; [exact Hm|]. intros info Hi.
  apply IH; [done|]. apply Forall_app. by split.
Qed.

Lemma alternative_emits ms : Forall (emits info_valid) ms -> emits info_valid (emit_alternative ms).
Proof.
  intros Hms. apply emits_forwards. intros d. apply alternative_terms_emits; [|constructor].
  destruct d; [done|by apply Forall_reverse].
Qed.

(** ** Groups and lookarounds *)

Lemma capture_group_emits index body :
  emits info_valid body -> capture_valid index -> num_points <= 2 ^ 32 ->
  emits info_valid (emit_capture_group index body).
Proof.
  intros Hb Hi Hn. unfold emit_capture_group. unfold RegExpBuilderLogic.capture_valid in Hi.
  rewrite !(wrap32_small (index * 2)), wrap32_small by (unfold u32_max; lia).
  apply emits_forwards. intros d.
  assert (forall f s, 0 <= f < num_points -> 0 <= s < num_points -> emits info_valid
    (_ ← emit_mark_capture_point_instruction f; info ← body;
     _ ← emit_mark_capture_point_instruction s;
     mret (mkInfo (always_consumes info) (captures info ++ [index])))) as Hgo.
  { intros f s Hf Hs. eapply bind_emits with (Q := fun _ => True).
    - intros b X P HG HP. apply (emit_here num_points features (MarkCapturePoint f) Hf b (current_block_id b :: X));
        [done|left; left|]. intro_state b1. apply HP; [by rewrite HC|done|done].
    - intros _ _. eapply bind_emits; [exact Hb|]. intros info Hinfo. apply here_emits; [by apply emit_here|].
      apply Forall_app. split; [done|]. by constructor. }
  destruct d; apply Hgo; lia.
Qed.

Lemma Good_directions X b d :
  Good X b -> Good X (set_directions b (d :: direction_stack b)).
Proof. by intros [? ? ? ? ?]. Qed.

Lemma lookaround_emits is_ahead is_positive body :
  (is_ahead = false -> lookbehinds features = true) -> emits info_valid body -> emits info_valid (emit_lookaround is_ahead is_positive body).
Proof.
  intros Ha Hb b X P HG HP. pose proof (good_current _ _ _ _ HG). unfold emit_lookaround.
  apply wp_bind. eapply wp_new_block; [done|]. intro_state b1. set (body_id := num_blocks b) in *.
  apply wp_bind. eapply wp_emit; [done|unfold valid_in; cbn; split; [done|lia]|right; lia|]. intro_state b2.
  apply wp_bind. eexists tt, _. split; [reflexivity|].
  set (b3 := set_directions b2 _). assert (Good [body_id] b3) as HG3 by by apply Good_directions.
  apply wp_bind. eapply wp_current; [done|]. intros Hc3.
  assert (num_blocks b3 = num_blocks b2) as HN3 by done.
  apply wp_bind. eapply wp_set_current; [done|lia|]. intro_state b4.
  apply wp_bind, (Hb b4 []); [by rewrite HC1|]. intros info b5 HG5 HS5 Hi. pose proof (step_blocks _ _ HS5).
  apply wp_bind. eapply (wp_emit_terminator _ _ []); [done|done|done|]. intro_state b6.
  apply wp_bind. eexists tt, _. split; [reflexivity|]. set (b7 := set_directions b6 _).
  assert (Step b3 b6) as HS36 by step_chain. pose proof (step_blocks _ _ HS36).
  assert (num_blocks b7 = num_blocks b6) as HN7 by done.
  assert (direction_stack b7 = direction_stack b) as Hd7.
  { unfold b7. cbn. rewrite (step_directions _ _ HS36). cbn.
    rewrite (step_directions _ _ HS0). apply (step_directions _ _ HS). }
  assert (Good [] b7) as HG7.
  { assert (Good [] b6) as HG6 by assumption. destruct HG6.
    split; [done|done| |done|done]. rewrite Hd7. apply HG. }
  assert (Step b b7) as HS7.
  { assert (Step b b2) as [Sb Sp Sl Sf _] by step_chain. destruct HS36 as [Tb Tp Tl Tf _].
    change (num_blocks b3) with (num_blocks b2) in Tb.
    change (progress_point_count b3) with (progress_point_count b2) in Tp.
    change (loop_register_count b3) with (loop_register_count b2) in Tl.
    split; [change (num_blocks b7) with (num_blocks b6); lia| | | |done];
      cbn; [lia|lia|]. by rewrite Tf. }
  pose proof (step_blocks _ _ HS7).
  apply wp_bind. eapply wp_set_current; [done|lia|]. intro_state b8.
  apply wp_ret, HP; [|step_chain|done]. eapply Good_mono; [|done]. set_solver.
Qed.

Lemma anonymous_group_emits pos neg body :
  emits info_valid body -> emits info_valid (emit_anonymous_group pos neg body).
Proof.
  intros Hb. unfold emit_anonymous_group. destruct (_ || _); cbn [when]; intros b X P HG HP.
  2:{ apply wp_bind, wp_ret, wp_bind, (Hb b X); [done|]. intros info b1 HG1 HS1 Hi.
      apply wp_bind, wp_ret, wp_ret, HP; done. }
  apply wp_bind, wp_bind. eapply wp_current_flags; [done|]. intros f.
  eexists tt, _. split; [reflexivity|]. set (b1 := set_flags_stack b _).
  assert (Good (current_block_id b1 :: X) b1) as HG1 by by destruct HG.
  apply wp_bind, (Hb b1 X); [done|]. intros info b2 HG2 HS2 Hi.
  apply wp_bind. eexists tt, _. split; [reflexivity|]. set (b3 := set_flags_stack b2 _).
  assert (flags_stack b3 = flags_stack b) as Hf3.
  { unfold b3. cbn. by rewrite (step_flags _ _ HS2). }
  apply wp_ret, HP; [| |done].
  - destruct HG2. split; [done| |done|done|done]. rewrite Hf3. apply HG.
  - destruct HS2. by split.
Qed.
End Emitters.
