(* ===== verification/RegExpCompilerCorrect.v ===== *)
(** Correctness of the RegExp compiler.

    For every well-formed pattern the compiler returns, and the bytecode that it
    emits passes the verifier of RegExpMatcherSafety: every branch goes to the
    start of an instruction, execution never falls off the end, and every register
    operand is allocated.  With the safety of the matcher, matching a compiled
    pattern has no undefined behaviour. *)

From S2P Require Import Prelude Unicode LexerStream RegExpInstruction RegExpMatcher.
From S2P Require Import RegExpMatcherSafety RegExpSyntax UnicodeProperty CodePointSet RegExpCompiler.
From S2P Require Import RegExpBuilderLogic RegExpEmitCorrect.

Section Terms.

Context `{CodePointSetLaws}.
Context (num_points : Z) (features : Features) (Hpoints : 2 <= num_points <= 2 ^ 32).

#[local] Abbreviation Good := (Good num_points features).
#[local] Abbreviation emits := (emits num_points features).
#[local] Abbreviation emits_here := (emits_here num_points features).
#[local] Abbreviation info_valid := (info_valid num_points).

(** ** Well-formed patterns *)

Definition code_point_ok (c : Z) : Prop := 0 <= c <= MAX_CODE_POINT.

(** A set of one code point that is matched by a literal must not be a lone surrogate. *)
Definition single_char_ok (s : cpset) : Prop := set_size s = 1 -> iter_chars s <> [].

Definition class_ok (character_class : CharacterClass UnicodeProperty) : Prop :=
  forall flags, exists s strings,
    character_class_to_set flags character_class = Done (s, strings) /\
    Forall (Forall code_point_ok) strings /\ single_char_ok (matched_set flags s).

Fixpoint term_ok (t : Term UnicodeProperty) : Prop :=
  match t with
  | LiteralTerm s => Forall code_point_ok s
  | WildcardTerm | AssertionTerm _ => True
  | QuantifierTerm t min _ _ => 0 <= min /\ term_ok t
  | LookaroundTerm is_ahead _ d =>
      (is_ahead = false -> lookbehinds features = true) /\
      d <> [] /\ foldr and True (map (fun alt => foldr and True (map term_ok alt)) d)
  | AnonymousGroupTerm d _ _ =>
      d <> [] /\ foldr and True (map (fun alt => foldr and True (map term_ok alt)) d)
  | CaptureGroupTerm _ index d =>
      capture_valid num_points index /\
      d <> [] /\ foldr and True (map (fun alt => foldr and True (map term_ok alt)) d)
  | CharacterClassTerm c => class_ok c
  | BackreferenceTerm index => back_references features = true /\ 0 <= index <= u32_max
  end.
Definition disjunction_ok (d : list (list (Term UnicodeProperty))) : Prop :=
  d <> [] /\ foldr and True (map (fun alt => foldr and True (map term_ok alt)) d).

(** ** Sets, literals and classes *)

Lemma set_comparisons_here s : emits_here (emit_set_comparisons s).
Proof.
  apply for_each_here. intros [a e] Hr. apply ranges_in_unicode in Hr as [? ?]. cbn in *.
  destruct (_ =? _); apply emit_here; cbn; unfold MAX_CODE_POINT in *; lia.
Qed.

Lemma scalar_code_point c : is_scalar c -> code_point_ok c.
Proof. by intros [? _]. Qed.

Lemma code_point_set_here s is_inverted :
  single_char_ok s -> emits_here (emit_code_point_set s is_inverted).
Proof.
  intros Hs. unfold emit_code_point_set. destruct (_ && _) eqn:E.
  - apply andb_true_iff in E as [E%Z.eqb_eq _]. specialize (Hs E).
    destruct (iter_chars s) as [|c l] eqn:Ec; [done|].
    intros b X P HG HX HP. apply wp_bind, (wp_lift _ c); [done|].
    apply (emit_here num_points features (Literal c)) with (X := X); [|done..].
    apply scalar_code_point, (chars_are_scalar s). rewrite Ec. by left.
  - apply bind_here; [apply set_comparisons_here|]. destruct is_inverted; by apply emit_here.
Qed.

Lemma add_case_closure_chars flags c s :
  is_scalar c -> c ∈ iter_chars (add_case_closure flags c s).
Proof.
  intros Hc. unfold add_case_closure.
  assert (c ∈ iter_chars (add_char c s)) as Hin by (apply chars_of_add_char; auto).
  destruct (if Flags.has_any_unicode_flag flags then None else case_closure_override c); [apply chars_of_add_set; by right|by apply case_closure_extends].
Qed.

Lemma not_surrogate_scalar c :
  code_point_ok c -> is_surrogate_code_point c = false -> is_scalar c.
Proof.
  unfold is_surrogate_code_point, is_scalar, is_high_surrogate_code_unit, is_low_surrogate_code_unit.
  unfold HIGH_SURROGATE_START, HIGH_SURROGATE_END, LOW_SURROGATE_START, LOW_SURROGATE_END.
  intros Hc Hs. split; [done|]. apply andb_false_iff in Hs. rewrite !andb_false_iff. lia.
Qed.

Lemma code_point_literal_here c : code_point_ok c -> emits_here (emit_code_point_literal c).
Proof.
  intros Hc. apply flags_here. intros fl. destruct (_ && _) eqn:E; [|by apply emit_here].
  apply andb_true_iff in E as [_ E%negb_true_iff]. apply code_point_set_here. intros _ Hnil.
  pose proof (add_case_closure_chars fl c set_empty (not_surrogate_scalar c Hc E)) as Hin.
  rewrite Hnil in Hin. by apply elem_of_nil in Hin.
Qed.

Lemma literal_here s : Forall code_point_ok s -> emits_here (emit_literal s).
Proof.
  intros Hs. apply forwards_here. intros d. apply for_each_here. intros c Hin.
  apply code_point_literal_here. rewrite Forall_forall in Hs. apply Hs.
  destruct d; [done|by apply elem_of_reverse].
Qed.

Lemma class_string_disjunction_wp strings success b X P :
  strings <> [] -> Forall (Forall code_point_ok) strings ->
  Good (current_block_id b :: X) b -> (success < num_blocks b)%nat ->
  (forall b', Good [current_block_id b'] b' -> Step b b' -> P tt b') ->
  wp (emit_class_string_disjunction strings success) P b.
Proof.
  intros Hne Hs HG Hsucc HP. unfold emit_class_string_disjunction.
  set (sorted := merge_sort longer_first strings).
  pose proof (merge_sort_Permutation longer_first strings : sorted ≡ₚ strings) as Hperm.
  assert (Forall (Forall code_point_ok) sorted) as Hs' by by rewrite Hperm.
  assert (sorted <> []) as Hne'.
  { intros E. rewrite E in Hperm. by apply Permutation_nil_l in Hperm. }
  apply wp_bind. eapply wp_current; [done|]. intros Hcur. set (first := current_block_id b) in *.
  apply wp_bind. eapply new_blocks_wp; [done|]. intros rest b1 Hrest HS1 Hids HC1 [Y HG1].
  pose proof (step_blocks _ _ HS1).
  apply wp_bind. eapply new_blocks_wp; [done|]. intros alts b2 Halts HS2 Haids HC2 [Y2 HG2].
  pose proof (step_blocks _ _ HS2).
  apply wp_bind. eapply wp_new_block; [done|]. intro_state b3. set (join := num_blocks b2) in *.
  rewrite Forall_forall in Hids. rewrite Forall_forall in Haids.
  assert (Hfirst : forall k, k ∈ first :: rest -> (S k < num_blocks b3)%nat).
  { intros k [->|Hk]%elem_of_cons; [lia|]. apply Hids in Hk. cbn in Hk. lia. }
  assert (Halt : forall k, k ∈ alts -> (S k < num_blocks b3)%nat).
  { intros k Hk. apply Haids in Hk. cbn in Hk. lia. }
  set (I := fun b' => Good [join] b' /\ Step b3 b').
  apply wp_bind, (wp_for_each _ _ I); [by split| |].
  { intros p b4 [Hp1 [Hp2 Hp3]%elem_of_zip]%elem_of_zip [HG4 HS4]. pose proof (step_blocks _ _ HS4).
    assert (p.2.2 ∈ first :: rest) as Hp3' by by right.
    apply Hfirst in Hp1, Hp3'. apply Halt in Hp2.
    apply (set_and_terminate num_points features _ _ [join]);
      [eapply Good_mono; [|done]; set_solver|lia|apply valid_branch; lia|done|].
    intros b5 HG5 HS5 _. split; [done|step_chain]. }
  intros b4 [HG4 HS4]. pose proof (step_blocks _ _ HS4).
  destruct (from_end_in (first :: rest) 1) as (lb & Elb & Hlb); [cbn; lia|].
  destruct (from_end_in alts 1) as (la & Ela & Hla).
  { rewrite Halts. destruct sorted; [done|cbn; lia]. }
  apply Hfirst in Hlb. apply Halt in Hla.
  apply wp_bind, (wp_lift _ lb); [done|]. apply wp_bind, (wp_lift _ la); [done|].
  apply wp_bind. eapply wp_set_current; [done|lia|]. intro_state b5.
  apply wp_bind. eapply (wp_emit_terminator _ _ [join]); [|apply valid_branch; lia|done|].
  { eapply Good_mono; [|done]. set_solver. }
  intro_state b6. assert (Step b3 b6) as HS36 by step_chain.
  apply wp_bind, (wp_for_each _ _ I); [by split| |].
  { intros p b7 [Hp1 Hp2]%elem_of_zip [HG7 HS7]. pose proof (step_blocks _ _ HS7). apply Halt in Hp1.
    apply wp_bind. eapply wp_set_current; [done|lia|]. intro_state b8.
    rewrite Forall_forall in Hs'.
    apply wp_bind, (literal_here p.2 (Hs' _ Hp2) b8 [join]); [done|right; lia|]. intro_state b9.
    eapply (wp_emit_terminator _ _ [join]); [|apply valid_jump; lia|done|].
    { eapply Good_mono; [|done]. set_solver. }
    intro_state b10. split; [done|step_chain]. }
  intros b7 [HG7 HS7]. pose proof (step_blocks _ _ HS7).
  eapply wp_set_current; [done|lia|]. intro_state b8. assert (current_block_id b8 = join) as Hc8 by assumption.
  apply HP; [by rewrite Hc8|step_chain].
Qed.

Lemma character_class_emits c : class_ok c -> emits (fun _ => True) (emit_character_class c).
Proof.
  intros Hc b X P HG HP. unfold emit_character_class.
  apply wp_bind. eapply wp_current_flags; [done|]. intros fl.
  destruct (Hc fl) as (s & strings & Es & Hs & Hsingle).
  apply wp_bind, (wp_lift _ (s, strings)); [done|]. apply wp_bind. destruct c as [ty inv ops].
  destruct (bool_decide_reflect (strings = [])) as [_|Hne].
  - apply wp_ret, wp_bind. apply (code_point_set_here _ _ Hsingle b (current_block_id b :: X));
      [done|left; left|]. intro_state b1. apply wp_ret, HP; [by rewrite HC|done|done].
  - apply wp_bind. eapply wp_new_block; [done|]. intro_state b1. set (join := num_blocks b) in *.
    apply wp_bind, (class_string_disjunction_wp strings join b1 [join]);
      [done|done|eapply Good_mono; [|done]; set_solver|lia|].
    intros b2 HG2 HS2. pose proof (step_blocks _ _ HS2).
    apply wp_ret, wp_bind. apply (code_point_set_here _ _ Hsingle b2 [current_block_id b2]);
      [done|left; by left|]. intro_state b3.
    apply wp_bind. eapply (wp_emit_terminator _ _ []); [by rewrite HC0|apply valid_jump; lia|done|].
    intro_state b4. eapply wp_set_current; [done|lia|]. intro_state b5.
    apply HP; [|step_chain|done]. eapply Good_mono; [|done]. set_solver.
Qed.

(** ** Assertions and terms *)

Lemma wildcard_here : emits_here emit_wildcard.
Proof. apply flags_here. intros fl. destruct (Flags.is_dot_all fl); by apply emit_here. Qed.

Lemma word_comparison_here : emits_here emit_word_comparison.
Proof. apply flags_here. intros fl. apply set_comparisons_here. Qed.

Lemma assertion_here a : emits_here (emit_assertion a).
Proof.
  destruct a; cbn [emit_assertion].
  1,2: apply flags_here; intros fl; destruct (Flags.is_multiline fl); by apply emit_here.
  1,2: repeat (apply bind_here; [first [apply word_comparison_here|by apply emit_here]|]); by apply emit_here.
Qed.

Lemma fold_and_Forall {A} (Q : A -> Prop) l : foldr and True (map Q l) <-> Forall Q l.
Proof. induction l; cbn; [split; [constructor|done]|]. rewrite Forall_cons. tauto. Qed.

Lemma disjunction_emits_ok d :
  Forall (Forall (fun t => term_ok t -> emits info_valid (emit_term t))) d -> disjunction_ok d ->
  emits info_valid (emit_disjunction (map (fun alt => emit_alternative (map emit_term alt)) d)).
Proof.
  intros IH [Hne Hd]. apply disjunction_emits; [by destruct d|].
  rewrite fold_and_Forall in Hd. apply Forall_map.
  apply Forall_forall. intros alt Halt. apply alternative_emits, Forall_map.
  rewrite Forall_forall in Hd. specialize (Hd _ Halt). cbn in Hd. rewrite fold_and_Forall in Hd.
  rewrite Forall_forall in IH. specialize (IH _ Halt).
  apply Forall_forall. intros t Ht. rewrite Forall_forall in Hd, IH. auto.
Qed.

Lemma here_emits_info m c : emits_here m -> emits info_valid (_ ← m; mret (no_captures c)).
Proof. intros Hm. apply here_emits; [done|constructor]. Qed.

Lemma term_emits t : term_ok t -> emits info_valid (emit_term t).
Proof.
  induction t as [s| |t n m g IH|a|a p d IH|n i d IH|d p n IH|c|i] using Term_nested_ind;
    cbn [emit_term term_ok]; intros Hok.
  - by apply here_emits_info, literal_here.
  - apply here_emits_info, wildcard_here.
  - destruct Hok. apply quantifier_emits; auto.
  - apply here_emits_info, assertion_here.
  - destruct Hok. by apply lookaround_emits; [|apply disjunction_emits_ok].
  - destruct Hok. apply capture_group_emits; [by apply disjunction_emits_ok|done|lia].
  - by apply anonymous_group_emits, disjunction_emits_ok.
  - eapply bind_emits; [by apply character_class_emits|]. intros _ _. apply ret_emits. constructor.
  - intros b X P HG HP. apply wp_bind. eapply wp_current_flags; [done|]. intros fl. revert b X P HG HP.
    by apply here_emits_info, emit_here.
Qed.

(** ** The whole pattern *)

Lemma preamble_emits : emits (fun _ => True) emit_preamble.
Proof.
  intros b X P HG HP. pose proof (good_current _ _ _ _ HG). unfold emit_preamble.
  apply wp_bind. eapply wp_new_block; [done|]. intro_state b1. set (w := num_blocks b) in *.
  apply wp_bind. eapply wp_new_block; [done|]. intro_state b2. set (j := num_blocks b1) in *.
  apply wp_bind. eapply (wp_emit_terminator _ _ [j]); [|apply valid_branch; lia|done|].
  { eapply Good_mono; [|done]. set_solver. }
  intro_state b3. apply wp_bind. eapply wp_set_current; [done|lia|]. intro_state b4.
  apply wp_bind, (emit_here num_points features Wildcard I b4 [j]); [done|right; lia|]. intro_state b5.
  apply wp_bind. eapply (wp_emit_terminator _ _ [j]); [|apply valid_branch; lia|done|].
  { eapply Good_mono; [|done]. set_solver. }
  intro_state b6. eapply wp_set_current; [done|lia|]. intro_state b7.
  apply HP; [|step_chain|done]. eapply Good_mono; [|done]. set_solver.
Qed.

Lemma emit_regexp_good (regexp : RegExp UnicodeProperty) :
  disjunction_ok (disjunction regexp) ->
  exists b, emit_regexp regexp (CompiledRegExpBuilder_new (flags regexp)) = Done (tt, b) /\ Good [] b.
Proof.
  intros Hd. set (b0 := CompiledRegExpBuilder_new (flags regexp)).
  assert (wp (emit_regexp regexp) (fun _ b => Good [] b) b0) as ([] & b & E & HG); [|by exists b].
  unfold emit_regexp. apply wp_bind. eexists _, _. split; [reflexivity|].
  set (b1 := set_blocks _ _).
  assert (Good [current_block_id b1] b1) as HG1.
  { split; [cbn; lia|done|done|done|]. exists [[]]. split_and!; [done|by repeat constructor|].
    right. by left. }
  apply wp_bind. eapply wp_current_flags; [done|]. intros fl.
  apply wp_bind.
  assert (Hgo : forall b2, Good [current_block_id b2] b2 ->
    wp (_ ← emit_mark_capture_point_instruction 0;
        _ ← emit_disjunction (map (fun alt => emit_alternative (map emit_term alt)) (disjunction regexp));
        _ ← emit_mark_capture_point_instruction 1;
        emit_accept_instruction) (fun _ b => Good [] b) b2).
  { intros b2 HG2.
    apply wp_bind, (emit_here num_points features (MarkCapturePoint 0)) with (X := [current_block_id b2]);
      [cbn; lia|done|left; by left|]. intro_state b3.
    apply wp_bind, (disjunction_emits_ok (disjunction regexp)) with (X := []); [|done|by rewrite HC|].
    { apply Forall_forall. intros alt _. apply Forall_forall. intros t _. apply term_emits. }
    intros info b4 HG4 HS4 _.
    apply wp_bind, (emit_here num_points features (MarkCapturePoint 1)) with (X := [current_block_id b4]);
      [cbn; lia|done|left; by left|]. intro_state b5.
    eapply (wp_emit_terminator _ _ []); [by rewrite HC0|done|done|]. by intro_state b6. }
  destruct (Flags.is_sticky fl); cbn [negb when]; [by apply wp_ret, Hgo|].
  apply (preamble_emits b1 []); [done|]. intros [] b2 HG2 _ _. by apply Hgo.
Qed.

End Terms.

(** ** Flattening *)

Definition map_target (id_map : list Z) (t : Z) : Z := default 0 (id_map !! Z.to_nat t).

Definition map_instruction (id_map : list Z) (i : Instruction) : Instruction :=
  match i with
  | Jump t => Jump (map_target id_map t)
  | Branch t u => Branch (map_target id_map t) (map_target id_map u)
  | Lookaround a p t => Lookaround a p (map_target id_map t)
  | Loop r m t => Loop r m (map_target id_map t)
  | _ => i
  end.

Definition targets (i : Instruction) : list Z :=
  match i with
  | Jump t | Lookaround _ _ t | Loop _ _ t => [t]
  | Branch t u => [t; u]
  | _ => []
  end.

Lemma map_block_id_ok id_map t :
  0 <= t < Z.of_nat (length id_map) -> map_block_id id_map t = Done (map_target id_map t).
Proof.
  intros Ht. unfold map_block_id, map_target. rewrite (proj2 (Z.ltb_ge _ _)) by lia.
  destruct (lookup_lt_is_Some_2 id_map (Z.to_nat t)) as [x ->]; [lia|done].
Qed.

Lemma map_target_in id_map t :
  0 <= t < Z.of_nat (length id_map) -> id_map !! Z.to_nat t = Some (map_target id_map t).
Proof.
  intros Ht. unfold map_target.
  destruct (lookup_lt_is_Some_2 id_map (Z.to_nat t)) as [x ->]; [lia|done].
Qed.

Lemma size_map id_map i : size (map_instruction id_map i) = size i.
Proof. by destruct i. Qed.

Lemma wrap32_idemp z : wrap32 (wrap32 z) = wrap32 z.
Proof. unfold wrap32. by rewrite Z.mod_mod. Qed.

Lemma fix_instruction_encoded id_map pre i post :
  (forall t, t ∈ targets i -> 0 <= t < Z.of_nat (length id_map)) ->
  fix_instruction id_map (pre ++ encode i ++ post) (Z.of_nat (length pre)) i
  = Done (pre ++ encode (map_instruction id_map i) ++ post).
Proof.
  intros Ht. destruct i; cbn [fix_instruction map_instruction]; try done;
    rewrite ?map_block_id_ok by (apply Ht; cbn; set_solver); cbn [mbind outcome_bind];
    unfold set_target, set_first_branch, set_second_branch, set_end_branch, set_body_branch;
    f_equal.
  - by rewrite (set_word_at pre _ post 1) by (cbn; lia).
  - rewrite (set_word_at pre _ post 1) by (cbn; lia).
    by rewrite (set_word_at pre _ post 2) by (cbn; lia).
  - by rewrite (set_word_at pre _ post 3) by (cbn; lia).
  - by rewrite (set_word_at pre _ post 1) by (cbn; lia).
Qed.

Lemma encode_block_cons i block : encode_block (i :: block) = encode i ++ encode_block block.
Proof. done. Qed.

Lemma encode_block_app p q : encode_block (p ++ q) = encode_block p ++ encode_block q.
Proof. unfold encode_block. by rewrite fmap_app, join_app. Qed.

Lemma fix_indices_encoded id_map prog : forall pre fuel,
  Forall instruction_ok prog ->
  Forall (fun i => forall t, t ∈ targets i -> 0 <= t < Z.of_nat (length id_map)) prog ->
  (length prog < fuel)%nat ->
  fix_indices fuel id_map (pre ++ encode_block prog) (Z.of_nat (length pre))
  = Done (pre ++ encode_block (map_instruction id_map <$> prog)).
Proof.
  induction prog as [|i prog IH]; intros pre [|fuel] Hok Ht Hf; cbn [length] in Hf; try lia.
  - cbn. rewrite app_nil_r. by rewrite (proj2 (Z.leb_le _ _)) by lia.
  - apply Forall_cons in Hok as [Hi Hok]. apply Forall_cons in Ht as [Hti Ht].
    pose proof (encode_length i) as El. pose proof (encode_length (map_instruction id_map i)) as El'.
    pose proof (size_pos i). rewrite size_map in El'. rewrite encode_block_cons.
    cbn [fix_indices]. rewrite (proj2 (Z.leb_gt _ _)) by (rewrite !length_app; lia).
    rewrite read_instruction_at by done. cbn [mbind outcome_bind].
    rewrite fix_instruction_encoded by done. cbn [mbind outcome_bind].
    replace (Z.of_nat (length pre) + size i)
      with (Z.of_nat (length (pre ++ encode (map_instruction id_map i)))) by (rewrite length_app; lia).
    rewrite app_assoc, IH by (done || lia). by rewrite <- app_assoc.
Qed.

(** Positions of the instructions of a program. *)
Definition words (prog : list Instruction) : Z := Z.of_nat (length (encode_block prog)).

Fixpoint positions (offset : Z) (prog : list Instruction) : list Z :=
  match prog with
  | [] => []
  | i :: prog' => offset :: positions (offset + size i) prog'
  end.

Lemma words_app p q : words (p ++ q) = words p + words q.
Proof. unfold words. rewrite encode_block_app, length_app. lia. Qed.

Lemma words_cons i p : words (i :: p) = size i + words p.
Proof. unfold words. rewrite encode_block_cons, length_app. pose proof (encode_length i). lia. Qed.

Lemma elem_of_positions prog : forall offset x,
  x ∈ positions offset prog <-> exists p i q, prog = p ++ i :: q /\ x = offset + words p.
Proof.
  induction prog as [|i prog IH]; intros offset x; cbn [positions].
  - rewrite elem_of_nil. split; [done|]. intros (p & j & q & E & _). by destruct p.
  - rewrite elem_of_cons, IH. split.
    + intros [->|(p & j & q & -> & ->)]; [exists [], i, prog; split; [done|change (words []) with 0; lia]|].
      exists (i :: p), j, q. rewrite words_cons. split; [done|lia].
    + intros ([|i' p] & j & q & [= -> ->] & ->); [left; change (words []) with 0; lia|right].
      exists p, j, q. rewrite words_cons. split; [done|lia].
Qed.

Lemma block_offsets_lookup ibs : forall offset t,
  (t < length ibs)%nat ->
  block_offsets offset (encode_block <$> ibs) !! t = Some (offset + words (mjoin (take t ibs))).
Proof.
  induction ibs as [|block ibs IH]; intros offset t Ht; cbn in Ht; [lia|].
  rewrite fmap_cons. cbn [block_offsets].
  destruct t as [|t].
  - change (words (mjoin (take 0 (block :: ibs)))) with 0. by rewrite Z.add_0_r.
  - change (block_offsets (offset + Z.of_nat (length (encode_block block))) (encode_block <$> ibs) !! t
      = Some (offset + words (block ++ mjoin (take t ibs)))).
    rewrite IH, words_app by lia. f_equal. unfold words. lia.
Qed.

Lemma block_offsets_length offset bs : length (block_offsets offset bs) = length bs.
Proof. revert offset. induction bs; intros; cbn; auto. Qed.

Lemma encode_blocks ibs : mjoin (encode_block <$> ibs) = encode_block (mjoin ibs).
Proof.
  induction ibs as [|block ibs IH]; [done|].
  change (encode_block block ++ mjoin (encode_block <$> ibs) = encode_block (block ++ mjoin ibs)).
  by rewrite IH, encode_block_app.
Qed.

Lemma words_map id_map prog : words (map_instruction id_map <$> prog) = words prog.
Proof.
  induction prog as [|i prog IH]; [done|]. rewrite fmap_cons, !words_cons, IH, size_map. done.
Qed.

Section Compiled.

Context (num_points : Z) (features : Features).
Context (ibs : list (list Instruction)) (np nl : Z).
Context (Hvalid : Forall (Forall (instr_valid num_points features (length ibs) np nl)) ibs).
Context (Hclosed : last_closed [] ibs).
Context (Hpoints : num_points <= 2 ^ 32) (Hblocks : Z.of_nat (length ibs) <= u32_max).
Context (Hnp : np <= u32_max) (Hnl : nl <= u32_max).
Context (Hwords : words (mjoin ibs) <= u32_max).

Abbreviation prog := (mjoin ibs).
Abbreviation id_map := (block_offsets 0 (encode_block <$> ibs)).

Lemma valid_prog i : i ∈ prog -> instr_valid num_points features (length ibs) np nl i.
Proof.
  intros (block & Hi & Hb)%list_elem_of_join. rewrite Forall_forall in Hvalid.
  specialize (Hvalid _ Hb). rewrite Forall_forall in Hvalid. auto.
Qed.

Lemma valid_ok i : instr_valid num_points features (length ibs) np nl i -> instruction_ok i.
Proof.
  unfold u32_max in *. destruct i; cbn; unfold u24, RegExpInstruction.u32, capture_valid, u32_max, MAX_CODE_POINT;
    try done; intuition lia.
Qed.

Lemma valid_targets i t :
  instr_valid num_points features (length ibs) np nl i -> t ∈ targets i ->
  0 <= t < Z.of_nat (length ibs).
Proof. destruct i; cbn; intros Hv Ht; inv_elem; tauto. Qed.

Lemma last_block_nonempty : exists init block i,
  ibs = init ++ [block ++ [i]] /\ terminator i = true.
Proof.
  unfold last_closed in Hclosed. destruct (last ibs) as [block|] eqn:E; [|done].
  destruct Hclosed as [Hc|Hc]; [|by apply elem_of_nil in Hc].
  apply last_Some in E as [init ->]. unfold closed in Hc.
  destruct (last block) as [i|] eqn:Eb; [|done]. apply last_Some in Eb as [block' ->].
  by exists init, block', i.
Qed.

Lemma prog_last : exists p i, prog = p ++ [i] /\ terminator i = true.
Proof.
  destruct last_block_nonempty as (init & block & i & -> & Ht).
  exists (mjoin init ++ block), i. split; [|done].
  rewrite join_app. change (mjoin [block ++ [i]]) with ((block ++ [i]) ++ []).
  by rewrite app_nil_r, app_assoc.
Qed.

(** The offset of every block is the position of an instruction. *)
Lemma target_position t : 0 <= t < Z.of_nat (length ibs) ->
  map_target id_map t ∈ positions 0 prog.
Proof.
  intros Ht. unfold map_target. rewrite block_offsets_lookup by lia. cbn [default].
  apply elem_of_positions. set (k := Z.to_nat t).
  assert (exists i q, mjoin (drop k ibs) = i :: q) as (i & q & E).
  { destruct last_block_nonempty as (init & block & i & E & _).
    destruct (mjoin (drop k ibs)) as [|j q] eqn:Ej; [|eauto]. exfalso.
    rewrite E in Ej. rewrite drop_app_le in Ej by (rewrite E, length_app in Ht; cbn in Ht; lia).
    rewrite join_app in Ej. apply app_nil in Ej as [_ Ej].
    change (mjoin [block ++ [i]]) with ((block ++ [i]) ++ []) in Ej. rewrite app_nil_r in Ej.
    by destruct block. }
  exists (mjoin (take k ibs)), i, q. split; [|done].
  rewrite <- E, <- join_app, take_drop. done.
Qed.

Lemma map_target_u32 t : 0 <= t < Z.of_nat (length ibs) -> 0 <= map_target id_map t <= u32_max.
Proof.
  intros Ht. apply target_position, elem_of_positions in Ht as (p & i & q & E & ->).
  rewrite E, words_app in Hwords. unfold words in *. lia.
Qed.

Lemma mapped_ok i : i ∈ prog -> instruction_ok (map_instruction id_map i).
Proof.
  intros Hi. pose proof (valid_prog i Hi) as Hv. pose proof (valid_ok i Hv) as Hok.
  assert (forall t, t ∈ targets i -> RegExpInstruction.u32 (map_target id_map t)) as Ht.
  { intros t Ht. apply map_target_u32. by eapply valid_targets. }
  destruct i; cbn [map_instruction instruction_ok targets] in *; try done.
  - apply Ht. set_solver.
  - split; apply Ht; set_solver.
  - destruct Hok as (? & ? & ?). split; [done|split; [done|]]. apply Ht. set_solver.
  - apply Ht. set_solver.
Qed.

Lemma flatten_ok :
  flatten_and_fix_indices (encode_block <$> ibs) = Done (encode_block (map_instruction id_map <$> prog)).
Proof.
  unfold flatten_and_fix_indices. rewrite encode_blocks.
  apply (fix_indices_encoded id_map prog []).
  - apply Forall_forall. intros i Hi. by apply valid_ok, valid_prog.
  - apply Forall_forall. intros i Hi t Ht. rewrite block_offsets_length, length_fmap.
    eapply valid_targets; [by apply valid_prog|done].
  - pose proof (encoded_program_length prog). cbn [app]. unfold encode_block. lia.
Qed.

Lemma positions_map m p : forall offset, positions offset (map_instruction m <$> p) = positions offset p.
Proof.
  induction p as [|i p IH]; intros offset; [done|]. rewrite fmap_cons. cbn [positions].
  by rewrite IH, size_map.
Qed.

Lemma successor_listed p i q t :
  prog = p ++ i :: q -> t ∈ successors (words p) (map_instruction id_map i) -> t ∈ positions 0 prog.
Proof.
  intros E Ht.
  assert (i ∈ prog) as Hi by (rewrite E; set_solver).
  assert (forall u, u ∈ targets i -> map_target id_map u ∈ positions 0 prog) as Htgt.
  { intros u Hu. apply target_position. eapply valid_targets; [by apply valid_prog|done]. }
  assert (terminator i = false -> words p + size i ∈ positions 0 prog) as Hnext.
  { intros Hn. apply elem_of_positions. destruct q as [|j q].
    - destruct prog_last as (p' & i' & E' & Hterm). rewrite E in E'.
      apply app_inj_tail in E' as [_ ->]. congruence.
    - exists (p ++ [i]), j, q. rewrite E, words_app, words_cons, <- app_assoc.
      change (words []) with 0. split; [done|lia]. }
  destruct i; cbn [map_instruction successors targets terminator] in *; inv_elem;
    first [apply Htgt; set_solver|rewrite ?size_map in *; by apply Hnext].
Qed.

Lemma compiled_check (r : CompiledRegExp) :
  instructions r = encode_block (map_instruction id_map <$> prog) ->
  num_capture_points r = num_points -> num_progress_points r = np -> num_loop_registers r = nl ->
  check_code r features (positions 0 prog) = true.
Proof.
  intros Er Ep En El. unfold check_code. apply andb_true_iff. split.
  { apply bool_decide_eq_true, elem_of_positions.
    destruct prog_last as (p & i & E & _). rewrite E.
    destruct p as [|j p]; [by exists [], i, []|]. by exists [], j, (p ++ [i]). }
  apply forallb_forall. intros pc Hpc%list_elem_of_In.
  apply elem_of_positions in Hpc as (p & i & q & E & ->).
  assert (i ∈ prog) as Hi by (rewrite E; set_solver).
  assert (read_instruction (instructions r) (0 + words p) = Done (map_instruction id_map i)) as Hread.
  { rewrite Er, E, fmap_app, fmap_cons, encode_block_app, encode_block_cons, Z.add_0_l.
    rewrite <- (words_map id_map). unfold words. apply read_instruction_at. by apply mapped_ok. }
  unfold valid_at. rewrite Hread. apply andb_true_iff. split.
  - pose proof (valid_prog i Hi) as Hv. unfold operands_valid. rewrite Ep, En, El.
    destruct i; cbn in *; try done; rewrite ?below_iff; try tauto.
    { unfold capture_valid in Hv. rewrite wrap32_small by (unfold u32_max; lia). lia. }
    match goal with |- ?a || _ = true => destruct a end; [done|by apply Hv].
  - apply forallb_forall. intros t Ht%list_elem_of_In. apply bool_decide_eq_true.
    rewrite Z.add_0_l in Ht. by eapply successor_listed.
Qed.

End Compiled.

(** ** The theorems *)

Definition capture_point_count {P} (regexp : RegExp P) : Z :=
  (Z.of_nat (length (capture_groups regexp)) + 1) * 2.

Definition regexp_ok `{CodePointSets} (regexp : RegExp UnicodeProperty) (features : Features) : Prop :=
  capture_point_count regexp <= 2 ^ 32 /\
  disjunction_ok (capture_point_count regexp) features (disjunction regexp).

(** The code and its counters fit the 32-bit fields of the compiled object. *)
Definition code_fits (b : CompiledRegExpBuilder) : Prop :=
  Z.of_nat (length (mjoin (blocks b))) <= u32_max /\ Z.of_nat (num_blocks b) <= u32_max /\
  progress_point_count b <= u32_max /\ loop_register_count b <= u32_max.

Lemma compile_regexp_checked `{CodePointSetLaws} (regexp : RegExp UnicodeProperty) features :
  regexp_ok regexp features ->
  exists b, emit_regexp regexp (CompiledRegExpBuilder_new (flags regexp)) = Done (tt, b) /\
  (code_fits b -> exists r starts, compile_regexp regexp = Done r /\
     num_capture_points r = capture_point_count regexp /\
     check_code r features starts = true).
Proof.
  intros [Hpoints Hd]. unfold capture_point_count in *.
  destruct (emit_regexp_good ((Z.of_nat (length (capture_groups regexp)) + 1) * 2) features
    ltac:(lia) regexp Hd) as (b & E & HG). exists b.
  split; [done|]. intros (Hw & Hnb & Hnp & Hnl).
  destruct HG as [_ _ _ _ (ibs & Eb & Hv & Hc)]. unfold valid_in in Hv.
  rewrite <- (blocks_length b ibs Eb) in Hv, Hnb. rewrite Eb, encode_blocks in Hw.
  unfold compile_regexp. rewrite E. cbn [mbind outcome_bind snd]. rewrite Eb.
  rewrite (flatten_ok _ features ibs _ _ Hv Hpoints Hnb Hnp Hnl). cbn [mbind outcome_bind].
  eexists _, (positions 0 (mjoin ibs)). split; [done|].
  assert (num_capture_points (mkCompiledRegExp (encode_block (map_instruction
      (block_offsets 0 (encode_block <$> ibs)) <$> mjoin ibs))
      (wrap32 (Z.of_nat (length (capture_groups regexp)))) (progress_point_count b)
      (loop_register_count b) (has_duplicate_names regexp) (capture_groups regexp)
      (Flags.has_any_unicode_flag (flags regexp)))
    = (Z.of_nat (length (capture_groups regexp)) + 1) * 2) as Hn.
  { unfold num_capture_points. cbn. rewrite wrap32_small by (unfold u32_max; lia). done. }
  split; [exact Hn|].
  by apply (compiled_check _ features ibs _ _ Hv Hc Hpoints Hnb Hnp Hnl Hw).
Qed.

Lemma compile_regexp_unicode `{CodePointSets} (regexp : RegExp UnicodeProperty) r :
  compile_regexp regexp = Done r -> has_any_unicode_flag r = Flags.has_any_unicode_flag (flags regexp).
Proof. intros E. by repeat (apply bind_done in E as (? & _ & E)); injection E as <-. Qed.

(** Compiler and matcher together are safe: matching a well-formed pattern
    against any string, from any start index, has no undefined behaviour, panics
    only if the pattern has back references or if a lookbehind is matched against
    a two-byte string by code point, and a match reports one entry for the
    whole match and one for each capture group of the pattern, each absent or
    inside the input. *)
Lemma compiled_regexp_is_safe `{CodePointSetLaws}
    (fold upper : Z -> Z) (regexp : RegExp UnicodeProperty) features :
  regexp_ok regexp features ->
  exists b, emit_regexp regexp (CompiledRegExpBuilder_new (flags regexp)) = Done (tt, b) /\
  (code_fits b -> exists r, compile_regexp regexp = Done r /\
   forall is_one_byte units fuel start_index, 0 <= start_index ->
   match run_matcher fold upper r is_one_byte units fuel start_index with
   | Done (Some m) => length m = (length (capture_groups regexp) + 1)%nat /\
       Forall (capture_in (Z.of_nat (length units))) m
   | Done None | OutOfFuel => True
   | Panicked => back_references features = true \/
       (lookbehinds features = true /\ is_one_byte = false /\
        Flags.has_any_unicode_flag (flags regexp) = true)
   | Faulted => False
   end).
Proof.
  intros Hok. destruct (compile_regexp_checked regexp features Hok) as (b & E & Hb).
  exists b. split; [done|]. intros Hfits. destruct (Hb Hfits) as (r & starts & Er & Hn & Hc).
  exists r. split; [done|]. intros is_one_byte units fuel start Hi.
  assert (num_capture_points r <= 2 ^ 32) as Hp by (rewrite Hn; apply Hok).
  pose proof (run_matcher_safe fold upper r features starts is_one_byte units fuel start Hc Hp Hi) as Hm.
  rewrite (compile_regexp_unicode regexp r Er) in Hm.
  unfold num_capture_points, capture_point_count in Hn.
  destruct (run_matcher _ _ _ _ _ _ _) as [[m|]| | |]; try done.
  destruct Hm as [Hl Hf]. split; [|done]. lia.
Qed.

Module CompilerExample.

#[local] Existing Instance RangeSet.sets.
#[local] Existing Instance RangeSet.laws.

Definition pattern (d : list (list (Term (@UnicodeProperty AsciiData.icu)))) (fl : RegExpFlags) (groups : nat) :
    RegExp (@UnicodeProperty AsciiData.icu) :=
  mkRegExp d fl false (replicate groups None).

(** [/(a|[b-d])*c/] *)
Definition ex_class : CharacterClass (@UnicodeProperty AsciiData.icu) := mkClass Union false [Range 98 100].
Definition ex_regexp : RegExp (@UnicodeProperty AsciiData.icu) :=
  pattern [[QuantifierTerm (CaptureGroupTerm None 1 [[LiteralTerm [97]]; [CharacterClassTerm ex_class]])
              0 None true; LiteralTerm [99]]] 0 1.

Lemma ex_class_ok : class_ok (H := RangeSet.sets) ex_class.
Proof.
  intros fl. exists [(98, 100)], []. split_and!.
  - cbn. unfold maybe_simple_case_folding. by destruct (is_case_insensitive_unicode_sets fl).
  - constructor.
  - unfold single_char_ok, matched_set, case_close_over. destruct (Flags.is_case_insensitive fl); [|by vm_compute].
    unfold add_case_closure. destruct (Flags.has_any_unicode_flag fl); by vm_compute.
Qed.

Lemma ex_regexp_ok : regexp_ok (H := RangeSet.sets) ex_regexp (mkFeatures false false).
Proof.
  split; [vm_compute; discriminate|]. unfold disjunction_ok. cbn.
  repeat split; try done; try lia; try apply ex_class_ok;
    repeat constructor; unfold capture_valid, MAX_CODE_POINT; cbn; lia.
Qed.

(** Snapshots of the repository's tests: [js_regexp_bytecode/simple.exp],
    [js_regexp_bytecode/backreference/basic.exp] and
    [js_regexp_bytecode/class/string_disjunction.exp]. *)
Example snapshot_range :
  (r ← compile_regexp (H := RangeSet.sets)
         (pattern [[CharacterClassTerm (mkClass Union false [Range 97 122])]] 0 0);
   InstructionIterator (instructions r))
  = Done [Branch 7 3; Wildcard; Branch 7 3; MarkCapturePoint 0; CompareBetween 97 123;
          ConsumeIfTrue; MarkCapturePoint 1; Accept].
Proof. vm_compute. reflexivity. Qed.

Example snapshot_backreference_insensitive :
  (r ← compile_regexp (H := RangeSet.sets)
         (pattern [[CaptureGroupTerm None 1 [[LiteralTerm [97]]]; BackreferenceTerm 1]]
            Flags.IGNORE_CASE 1);
   InstructionIterator (instructions r))
  = Done [Branch 7 3; Wildcard; Branch 7 3; MarkCapturePoint 0; MarkCapturePoint 2;
          CompareEquals 65; CompareEquals 97; ConsumeIfTrue; MarkCapturePoint 3;
          Backreference true 1; MarkCapturePoint 1; Accept].
Proof. vm_compute. reflexivity. Qed.

Example snapshot_string_disjunction :
  (r ← compile_regexp (H := RangeSet.sets)
         (pattern [[CharacterClassTerm (mkClass Union false
            [StringDisjunction [[97; 97]; [98; 98]]; StringDisjunction [[99; 99]];
             NestedClass (mkClass Union false [StringDisjunction [[100; 100]]])])]]
            Flags.UNICODE_SETS 0);
   InstructionIterator (instructions r))
  = Done [Branch 7 3; Wildcard; Branch 7 3; MarkCapturePoint 0; Branch 24 15; MarkCapturePoint 1;
          Accept; Branch 28 18; Branch 32 21; Branch 36 40; Literal 97; Literal 97; Jump 12;
          Literal 98; Literal 98; Jump 12; Literal 99; Literal 99; Jump 12; Literal 100;
          Literal 100; Jump 12; ConsumeIfTrue; Jump 12].
Proof. vm_compute. reflexivity. Qed.

(** compiling a character class whose only code point is a lone surrogate, as
    in [/[\ud800]/], panics: a set of one code point is emitted as a literal read
    from [iter_chars], which skips surrogates. *)
Theorem lone_surrogate_class_panics :
  compile_regexp (H := RangeSet.sets)
    (pattern [[CharacterClassTerm (mkClass Union false [Single 0xD800])]] 0 0) = Panicked.
Proof. vm_compute. reflexivity. Qed.

End CompilerExample.
