(* ===== verification/RegExpPipeline.v ===== *)
(** From the text of a pattern to its matches.

    The parser, the compiler and the matcher one after the other: what the parser
    accepts is what the compiler expects, so that the code of a parsed pattern can
    be matched safely.  The one thing the parser does not exclude is a class that
    denotes a single lone surrogate, at which the compiler panics. *)

From Stdlib Require Import Ascii String.
From S2P Require Import Prelude Unicode LexerStream UnicodeProperty ParseStream Characters RegExpSyntax.
From S2P Require Import RegExpInstruction RegExpMatcher RegExpMatcherCorrect RegExpMatcherSafety.
From S2P Require Import RegExpLexical RegExpLexicalCorrect RegExpParser RegExpParserCorrect RegExpReparse.
From S2P Require Import CodePointSet RegExpCompiler RegExpBuilderLogic RegExpEmitCorrect RegExpCompilerCorrect.

(** Induction over classes and their operands. *)
Lemma Class_nested_ind {U} (P : ClassRange U -> Prop) (Q : CharacterClass U -> Prop) :
  (forall r, (forall c, r <> NestedClass c) -> P r) -> (forall c, Q c -> P (NestedClass c)) ->
  (forall t b l, Forall P l -> Q (mkClass t b l)) -> forall c, Q c.
Proof.
  intros Hleaf Hnested Hclass. fix IH 1. intros [t b l]. apply Hclass. revert l. fix IHl 1.
  intros [|r l]; [constructor|]. constructor; [|apply IHl].
  destruct r; first [by apply Hleaf|apply Hnested, IH].
Qed.

Section Classes.

Context `{CodePointSetLaws}.

Definition strings_ok (l : list AstStr) : Prop := Forall (Forall code_point_ok) l.

(** A computation of a set returns one, and its strings are strings of code points. *)
Definition makes_set (o : outcome (cpset * list AstStr)) : Prop :=
  exists s strings, o = Done (s, strings) /\ strings_ok strings.

Lemma makes_set_bind (o : outcome (cpset * list AstStr)) f :
  makes_set o -> (forall s strings, strings_ok strings -> makes_set (f (s, strings))) ->
  makes_set (r ← o; f r).
Proof. intros (s & strings & -> & Hs) Hf. by apply Hf. Qed.

Lemma insert_strings_ok l : forall strings, strings_ok l -> strings_ok strings ->
  strings_ok (foldl (fun acc s => insert_string s acc) strings l).
Proof.
  induction l as [|s l IH]; intros strings Hl Hs; [done|]. apply Forall_cons in Hl as [? ?]. cbn.
  apply IH; [done|]. unfold insert_string. destruct (decide _); [done|]. apply Forall_app. split; [done|].
  by apply Forall_singleton.
Qed.

Lemma string_disjunction_ok alternatives : forall acc : cpset * list AstStr,
  Forall string_ok alternatives -> strings_ok acc.2 ->
  strings_ok (foldl (fun acc (string : AstStr) =>
    match string with
    | [code_point] => (add_range code_point code_point acc.1, acc.2)
    | _ => (acc.1, insert_string string acc.2)
    end) acc alternatives).2.
Proof.
  induction alternatives as [|s l IH]; intros [set strings] Hl Hs; [done|].
  apply Forall_cons in Hl as [[_ Hc] Hl]. cbn [foldl]. apply IH; [done|].
  assert (strings_ok (insert_string s strings)).
  { apply (insert_strings_ok [s]); [by apply Forall_singleton|done]. }
  by destruct s as [|c [|]].
Qed.

Lemma filter_strings_ok (Q : AstStr -> Prop) `{forall s, Decision (Q s)} l :
  strings_ok l -> strings_ok (filter Q l).
Proof.
  intros Hl. apply Forall_forall. intros s [_ Hs]%list_elem_of_filter.
  unfold strings_ok in Hl. rewrite Forall_forall in Hl. by apply Hl.
Qed.

Lemma range_makes_set flags r set strings : (forall c, r <> NestedClass c) ->
  range_wf r -> strings_ok strings -> makes_set (add_character_class_range_to_set flags r set strings).
Proof.
  intros Hn Hw Hs. destruct r as [c|lo hi| | | | | | |property|property|c|alternatives];
    cbn [add_character_class_range_to_set]; try (by do 2 eexists).
  - destruct (is_case_insensitive_unicode_sets flags); by do 2 eexists.
  - do 2 eexists. split; [done|]. destruct property; try done.
    apply insert_strings_ok; [apply property_strings_in_unicode|done].
  - by destruct (Hn c).
  - pose proof (string_disjunction_ok alternatives (set, strings) Hw Hs) as Ha. revert Ha.
    generalize (foldl (fun (acc : cpset * list AstStr) (string : AstStr) =>
      match string with
      | [code_point] => (add_range code_point code_point acc.1, acc.2)
      | _ => (acc.1, insert_string string acc.2)
      end) (set, strings) alternatives).
    intros [s' strings'] Ha. by exists s', strings'.
Qed.

(** The loop over the operands after the first one. *)
Lemma operands_make_set (to_set : ClassRange UnicodeProperty -> outcome (cpset * list AstStr))
    (combine : cpset * list AstStr -> cpset * list AstStr -> cpset * list AstStr) l :
  (forall other acc, strings_ok acc.2 -> strings_ok (combine other acc).2) ->
  Forall (fun r => makes_set (to_set r)) l -> forall acc, strings_ok acc.2 ->
  makes_set ((fix operands (l : list (ClassRange UnicodeProperty)) (acc : cpset * list AstStr) :=
    match l with
    | [] => Done acc
    | class_range :: l' => other ← to_set class_range; operands l' (combine other acc)
    end) l acc).
Proof.
  intros Hc Hl. induction Hl as [|r l Hr _ IH]; intros acc Hacc; [by destruct acc; do 2 eexists|].
  apply makes_set_bind; [exact Hr|]. intros s strings Hs. by apply IH, Hc.
Qed.

(** The set of a well-formed class exists. *)
Lemma class_makes_set flags c : class_wf c -> makes_set (character_class_to_set flags c).
Proof.
  revert c. apply (Class_nested_ind
    (fun r => range_wf r -> forall set strings, strings_ok strings ->
       makes_set (add_character_class_range_to_set flags r set strings))
    (fun c => class_wf c -> makes_set (character_class_to_set flags c))).
  - intros r Hn Hw set strings Hs. by apply range_makes_set.
  - intros c IH Hw set strings Hs. cbn [add_character_class_range_to_set].
    apply makes_set_bind; [by apply IH|]. intros s' strings' Hs'. do 2 eexists. split; [done|].
    by apply insert_strings_ok.
  - intros t b l Hl [Ht Hw]%class_wf_iff. cbn [character_class_to_set].
    apply makes_set_bind; [|intros s strings Hs; by do 2 eexists].
    assert (Hadd : Forall (fun r => forall set strings, strings_ok strings ->
      makes_set (add_character_class_range_to_set flags r set strings)) l).
    { clear Ht. induction Hl as [|r l Hr _ IHl]; [constructor|]. apply Forall_cons in Hw as [? ?]. constructor; auto. }
    assert (Hone : Forall (fun r => makes_set (r ← add_character_class_range_to_set flags r set_empty [];
      Done (maybe_simple_case_folding flags r.1, r.2))) l).
    { eapply Forall_impl; [exact Hadd|]. cbn. intros r Hr. apply makes_set_bind; [by apply Hr; constructor|].
      intros s strings Hs. by do 2 eexists. }
    clear Hl Hw. destruct t.
    + apply makes_set_bind; [|intros s strings Hs; by do 2 eexists].
      assert (Hacc : strings_ok (set_empty, [] : list AstStr).2) by constructor.
      revert Hacc. generalize (set_empty, [] : list AstStr). clear Hone Ht.
      induction Hadd as [|r l Hr _ IHl]; intros [set strings] Hacc; [by do 2 eexists|].
      apply makes_set_bind; [by apply Hr|]. intros s' strings' Hs'. by apply IHl.
    + destruct Hone as [|r l Hr Hone]; [by destruct Ht|]. apply makes_set_bind; [exact Hr|]. intros s strings Hs.
      apply (operands_make_set _ (fun other acc =>
        (retain_set other.1 acc.1, filter (fun s => s ∈ other.2) acc.2))); [|done|done].
      intros other acc Hacc. by apply filter_strings_ok.
    + destruct Hone as [|r l Hr Hone]; [by destruct Ht|]. apply makes_set_bind; [exact Hr|]. intros s strings Hs.
      apply (operands_make_set _ (fun other acc =>
        (remove_set other.1 acc.1, filter (fun s => s ∉ other.2) acc.2))); [|done|done].
      intros other acc Hacc. by apply filter_strings_ok.
Qed.

(** A class that a pattern may contain: it is not a single lone surrogate. *)
Definition class_avoids_surrogate (c : CharacterClass UnicodeProperty) : Prop :=
  forall flags s strings, character_class_to_set flags c = Done (s, strings) ->
  single_char_ok (matched_set flags s).

Lemma class_wf_ok c : class_wf c -> class_avoids_surrogate c -> class_ok c.
Proof.
  intros Hw Ha flags. destruct (class_makes_set flags c Hw) as (s & strings & E & Hs).
  exists s, strings. split_and!; [done|done|by eapply Ha].
Qed.

End Classes.

(** ** Terms *)

Section Trees.

Context `{CodePointSetLaws}.

#[local] Abbreviation Term := (Term UnicodeProperty).

(** The classes of a term, and whether it has a back reference or a lookbehind. *)
Fixpoint classes_of (t : Term) : list (CharacterClass UnicodeProperty) :=
  match t with
  | CharacterClassTerm c => [c]
  | QuantifierTerm t _ _ _ => classes_of t
  | LookaroundTerm _ _ d | AnonymousGroupTerm d _ _ | CaptureGroupTerm _ _ d => flat_map (flat_map classes_of) d
  | _ => []
  end.
Fixpoint has_backreference (t : Term) : bool :=
  match t with
  | BackreferenceTerm _ => true
  | QuantifierTerm t _ _ _ => has_backreference t
  | LookaroundTerm _ _ d | AnonymousGroupTerm d _ _ | CaptureGroupTerm _ _ d =>
      existsb (existsb has_backreference) d
  | _ => false
  end.

Fixpoint has_lookbehind (t : Term) : bool :=
  match t with
  | QuantifierTerm t _ _ _ => has_lookbehind t
  | LookaroundTerm is_ahead _ d => negb is_ahead || existsb (existsb has_lookbehind) d
  | AnonymousGroupTerm d _ _ | CaptureGroupTerm _ _ d => existsb (existsb has_lookbehind) d
  | _ => false
  end.

(** What a parsed tree has that the compiler needs. *)
Record tree_ok (n : Z) (features : Features) (t : Term) : Prop := {
  tree_wf : term_wf (index_in n) t;
  tree_groups : Forall (fun g => index_in n g.1) (groups_of t);
  tree_classes : Forall class_avoids_surrogate (classes_of t);
  tree_backreferences : has_backreference t = true -> back_references features = true;
  tree_lookbehinds : has_lookbehind t = true -> lookbehinds features = true;
}.

Lemma nested_tree_ok n b (d : list (list Term)) :
  Forall (Forall (term_wf (index_in n))) d ->
  Forall (fun g => index_in n g.1) (flat_map (flat_map groups_of) d) ->
  Forall class_avoids_surrogate (flat_map (flat_map classes_of) d) ->
  (existsb (existsb has_backreference) d = true -> back_references b = true) ->
  (existsb (existsb has_lookbehind) d = true -> lookbehinds b = true) ->
  Forall (Forall (tree_ok n b)) d.
Proof.
  intros Hw Hg Hc Hb Hl. apply Forall_forall. intros alt Halt. apply Forall_forall. intros t Ht.
  pose proof (proj1 (Forall_forall _ _) Hw alt Halt) as Hwa. pose proof (proj1 (Forall_forall _ _) Hwa t Ht) as Hwt.
  assert (Hin : forall {A} (f : Term -> list A) x, x ∈ f t -> x ∈ flat_map (flat_map f) d).
  { intros A f x Hx. apply list_elem_of_In, in_flat_map. exists alt. split; [by apply list_elem_of_In|].
    apply in_flat_map. exists t. split; by apply list_elem_of_In. }
  assert (Hex : forall f : Term -> bool, f t = true -> existsb (existsb f) d = true).
  { intros f Hf. apply existsb_exists. exists alt. split; [by apply list_elem_of_In|].
    apply existsb_exists. exists t. by split; [apply list_elem_of_In|]. }
  split; [done|..].
  - apply Forall_forall. intros g Hgt. by apply (proj1 (Forall_forall _ _) Hg), Hin.
  - apply Forall_forall. intros c Hct. by apply (proj1 (Forall_forall _ _) Hc), Hin.
  - intros Hbt. by apply Hb, Hex.
  - intros Hbt. by apply Hl, Hex.
Qed.

Lemma trees_term_ok n b (d : list (list Term)) :
  Forall (Forall (fun t => tree_ok n b t -> term_ok ((n + 1) * 2) b t)) d ->
  Forall (Forall (tree_ok n b)) d ->
  foldr and True (map (fun alt => foldr and True (map (term_ok ((n + 1) * 2) b) alt)) d).
Proof.
  intros Hd Ht. change (every (every (term_ok ((n + 1) * 2) b)) d). apply every_every_iff.
  induction Hd as [|alt d Ha _ IHd]; [constructor|].
  apply Forall_cons in Ht as [Hta Htd]. constructor; [|by apply IHd].
  clear IHd Htd. induction Ha as [|t alt Ht _ IHa]; [constructor|].
  apply Forall_cons in Hta as [? ?]. constructor; auto.
Qed.

Lemma tree_term_ok n b (t : Term) : 0 <= n < u32_max / 2 -> tree_ok n b t -> term_ok ((n + 1) * 2) b t.
Proof.
  intros Hn. induction t as [s| |t lo hi g IH|a|a p d IH|name i d IH|d p q IH|c|i] using Term_nested_ind;
    intros [Hw Hg Hc Hb Hl]; cbn in *; try done.
  - apply Hw.
  - destruct Hw as [[[? _] _] Hw]. split; [done|]. by apply IH.
  - destruct Hw as [Hne Hw%every_every_iff]. split; [intros ->; by apply Hl|]. split; [done|].
    apply trees_term_ok, nested_tree_ok; try done. intros Hd. apply Hl. by rewrite Hd, orb_true_r.
  - destruct Hw as [Hne Hw%every_every_iff]. apply Forall_cons in Hg as [Hi Hg].
    split; [unfold capture_valid, index_in in *; cbn in Hi; lia|]. split; [done|].
    by apply trees_term_ok, nested_tree_ok.
  - destruct Hw as [Hne Hw%every_every_iff]. split; [done|]. by apply trees_term_ok, nested_tree_ok.
  - apply class_wf_ok; [done|]. by apply Forall_inv in Hc.
  - split; [by apply Hb|]. unfold index_in in Hw. assert (u32_max / 2 <= u32_max) by (by vm_compute). lia.
Qed.

Definition regexp_features (r : RegExp UnicodeProperty) : Features :=
  mkFeatures (existsb (existsb has_backreference) (disjunction r))
    (existsb (existsb has_lookbehind) (disjunction r)).
Definition regexp_classes (r : RegExp UnicodeProperty) : list (CharacterClass UnicodeProperty) :=
  flat_map (flat_map classes_of) (disjunction r).

(** What the parser promises is what the compiler asks for. *)
Lemma regexp_wf_ok (r : RegExp UnicodeProperty) : regexp_wf r ->
  Forall class_avoids_surrogate (regexp_classes r) -> regexp_ok r (regexp_features r).
Proof.
  intros [[Hne Hw] Hg Hl _] Hc. split; unfold capture_point_count.
  { assert (u32_max / 2 * 2 <= 2 ^ 32 - 1) by (by vm_compute). lia. }
  split; [done|]. apply trees_term_ok.
  - apply Forall_forall. intros alt _. apply Forall_forall. intros t _. apply tree_term_ok. lia.
  - apply nested_tree_ok; [done| |done|done|done]. change (flat_map (flat_map groups_of) (disjunction r))
      with (groups_of_disjunction (disjunction r)). rewrite Hg. apply Forall_forall.
    intros [i name] Hi%elem_of_zip_l. apply elem_of_seqZ in Hi. unfold index_in. cbn. lia.
Qed.

End Trees.

(** C24: the compiler returns on every pattern that is well-formed as the parser
    promises and in which no class is a single lone surrogate, and when the code
    fits 32-bit indices, flattening succeeds and the bytecode is well-formed: it
    passes [check_code], so every branch target and every fall-through is the start
    of an instruction, all register operands are allocated, and back references and
    lookbehinds occur only if the pattern has them. *)
Theorem compiled_bytecode_is_valid `{CodePointSetLaws} (regexp : RegExp UnicodeProperty) :
  regexp_wf regexp -> Forall class_avoids_surrogate (regexp_classes regexp) ->
  exists b, emit_regexp regexp (CompiledRegExpBuilder_new (flags regexp)) = Done (tt, b) /\
  (code_fits b -> exists r starts, compile_regexp regexp = Done r /\
     check_code r (regexp_features regexp) starts = true).
Proof.
  intros Hw Hc.
  destruct (compile_regexp_checked regexp (regexp_features regexp) (regexp_wf_ok regexp Hw Hc))
    as (b & E & Hb).
  exists b. split; [done|]. intros Hfits. destruct (Hb Hfits) as (r & starts & ? & _ & ?). eauto.
Qed.

(** C5: parser, compiler and matcher together are safe: if the parser accepts a
    pattern, in any mode, and no class of it is a single lone surrogate, then the
    compiler returns, and when the code fits 32-bit indices, [run_matcher] on any
    string has no undefined behaviour; it panics only if the pattern has back
    references, or if it has a lookbehind, a [u] or [v] flag and the string is
    two-byte; and a match reports one entry for the whole match and one for each
    capture group of the pattern, each absent or inside the input. *)
Theorem parsed_regexp_is_safe `{CodePointSetLaws} `{!IcuLaws icu_data} {P} `{ParseStreamLaws P}
    (fold upper : Z -> Z) (pattern : P) (flags : RegExpFlags) (annex_b : bool)
    (regexp : RegExp UnicodeProperty) :
  in_ok pattern -> parse_regexp pattern flags annex_b = Done (Ok regexp) ->
  Forall class_avoids_surrogate (regexp_classes regexp) ->
  exists b, emit_regexp regexp (CompiledRegExpBuilder_new flags) = Done (tt, b) /\
  (code_fits b -> exists r, compile_regexp regexp = Done r /\
   forall is_one_byte units fuel start_index, 0 <= start_index ->
   match run_matcher fold upper r is_one_byte units fuel start_index with
   | Done (Some m) => length m = (length (capture_groups regexp) + 1)%nat /\
       Forall (capture_in (Z.of_nat (length units))) m
   | Done None | OutOfFuel => True
   | Panicked => back_references (regexp_features regexp) = true \/
       (lookbehinds (regexp_features regexp) = true /\ is_one_byte = false /\
        Flags.has_any_unicode_flag flags = true)
   | Faulted => False
   end).
Proof.
  intros Hin Hparse Hc. destruct (parse_regexp_ok pattern flags annex_b Hin) as (result & E & Hr).
  rewrite Hparse in E. injection E as <-. destruct (Hr regexp eq_refl) as [Hw <-].
  by apply compiled_regexp_is_safe, regexp_wf_ok.
Qed.

(** ** Patterns *)

Module PatternExamples.

#[local] Existing Instance RangeSet.sets.
#[local] Existing Instance RangeSet.laws.
#[local] Existing Instance ascii_icu_laws.

(** A pattern of a one-byte string. *)
Definition text (s : string) : UnitStream :=
  let units := map ch (list_ascii_of_string s) in
  mkUnitStream units 0 (default EOF_CHAR (head units)).
Definition parse (s : string) (flags : RegExpFlags) (annex_b : bool) :
    outcome (ParseResult (RegExp (@UnicodeProperty AsciiData.icu))) :=
  parse_regexp (H := AsciiData.icu) (H0 := unit_parse_stream false) (text s) flags annex_b.

Lemma text_ok s : in_ok (ParseStreamLaws := unit_parse_laws false) (text s).
Proof.
  assert (Hu : units_in 0x10000 (map ch (list_ascii_of_string s))).
  { apply Forall_map, Forall_forall. intros c _. cbn. unfold ch. pose proof (N_ascii_bounded c). lia. }
  unfold text. rewrite head_lookup. apply (unit_in_ok_at _ 0); [done|lia].
Qed.

(** The reference of [/(a)\2/] denotes no group: in Annex B mode the pattern is
    parsed again, and the number is an octal escape. *)
Lemma parse_regexp_returns_well_formed_witness : exists r,
  parse "(a)\2" 0 true = Done (Ok r) /\
  disjunction r = [[CaptureGroupTerm None 1 [[LiteralTerm [97]]]; LiteralTerm [2]]] /\ regexp_wf r.
Proof.
  destruct (parse_regexp_returns_well_formed (H := AsciiData.icu) (H0 := unit_parse_stream false) (text "(a)\2") 0 true
    (text_ok _)) as (result & E & Hr).
  unfold parse. rewrite E. vm_compute in E. injection E as <-.
  eexists. split; [reflexivity|]. split; [reflexivity|]. by apply Hr.
Defined.

(** [/(a|[b-d])*c/] from its text to a match. *)
Definition sample : RegExp (@UnicodeProperty AsciiData.icu) :=
  mkRegExp [[QuantifierTerm (CaptureGroupTerm None 1 [[LiteralTerm [97]];
      [CharacterClassTerm (mkClass Union false [Range 98 100])]]) 0 None true; LiteralTerm [99]]]
    0 false [None].

Lemma sample_classes : Forall (class_avoids_surrogate (H := RangeSet.sets)) (regexp_classes (H := RangeSet.sets) sample).
Proof.
  repeat constructor. intros fl s strings E.
  destruct (CompilerExample.ex_class_ok fl) as (s' & strings' & E' & _ & Hs). unfold CompilerExample.ex_class in E'.
  rewrite E' in E. by injection E as <- <-.
Qed.

Lemma compiled_bytecode_is_valid_witness :
  exists r starts, compile_regexp (H := RangeSet.sets) sample = Done r /\
    check_code r (regexp_features (H := RangeSet.sets) sample) starts = true.
Proof.
  destruct (compiled_bytecode_is_valid (H := RangeSet.sets) sample) as (b & E & Hb);
    [|exact sample_classes|].
  - destruct (parse_regexp_ok (H := AsciiData.icu) (H0 := unit_parse_stream false)
      (text "(a|[b-d])*c") 0 true (text_ok _)) as (result & E & Hr).
    vm_compute in E. injection E as <-. apply (Hr sample eq_refl).
  - apply Hb. vm_compute in E. injection E as <-.
    unfold code_fits. vm_compute. split; [discriminate|split; [discriminate|split; discriminate]].
Defined.

Lemma parsed_regexp_is_safe_witness :
  exists r, compile_regexp (H := RangeSet.sets) sample = Done r /\
  exists m, run_matcher id id r true [120; 97; 98; 99] 1000 0 = Done (Some m) /\
    length m = 2%nat /\ Forall (capture_in 4) m.
Proof.
  destruct (parsed_regexp_is_safe (H := RangeSet.sets) (H1 := unit_parse_stream false)
    id id (text "(a|[b-d])*c") 0 true sample (text_ok _) ltac:(vm_compute; reflexivity) sample_classes)
    as (b & E & Hb).
  destruct Hb as (r & Er & Hr).
  { vm_compute in E. injection E as <-. unfold code_fits. vm_compute.
    split; [discriminate|split; [discriminate|split; discriminate]]. }
  exists r. split; [exact Er|].
  specialize (Hr true [120; 97; 98; 99] 1000%nat 0 ltac:(lia)).
  vm_compute in Er. injection Er as <-.
  destruct (run_matcher _ _ _ _ _ _ _) as [[m|]| | |] eqn:Em; vm_compute in Em;
    try discriminate Em. exists m. split; [reflexivity|exact Hr].
Defined.

(** ** Where the parser differs from the language *)

Definition accepts (o : outcome (ParseResult (RegExp (@UnicodeProperty AsciiData.icu)))) : bool :=
  match o with Done (Ok _) => true | _ => false end.

(** Leaving an alternative forgets the names of the groups nested in it, so a
    duplicate name of groups that both take part is accepted if one is nested. *)
Example nested_duplicate_name :
  accepts (parse "(?<a>x)(?<a>y)" 0 false) = false /\ accepts (parse "(?:(?<a>x))(?<a>y)" 0 false) = true.
Proof. vm_compute. split; reflexivity. Qed.

(** In Annex B mode the first parse does not know named groups, and with a unicode
    flag an escape it does not know is an error: a reference before its group is
    rejected. *)
Example forward_named_reference :
  accepts (parse "\k<a>(?<a>x)" Flags.UNICODE_AWARE true) = false /\
  accepts (parse "\k<a>(?<a>x)" Flags.UNICODE_AWARE false) = true /\
  accepts (parse "\k<a>(?<a>x)" 0 true) = true.
Proof. vm_compute. split_and!; reflexivity. Qed.

(** A control escape in a class is read as three characters in Annex B mode. *)
Example control_escape_in_class :
  (r ← parse "[\cA]" 0 true; Done match r with Ok r => disjunction r | Err _ => [] end)
  = Done [[CharacterClassTerm (mkClass Union false [Single 92; Single 99; Single 65])]] /\
  (r ← parse "\cA" 0 true; Done match r with Ok r => disjunction r | Err _ => [] end)
  = Done [[LiteralTerm [1]]].
Proof. vm_compute. split; reflexivity. Qed.

(** Whether a class may contain strings does not take the first operand of a union
    or an intersection into account: an inverted class with a string is accepted, and
    one without strings is rejected. *)
Example strings_of_first_operand :
  accepts (parse "[^c\q{ab}]" Flags.UNICODE_SETS false) = false /\
  accepts (parse "[^\q{ab}c]" Flags.UNICODE_SETS false) = true /\
  accepts (parse "[^\q{ab}&&c]" Flags.UNICODE_SETS false) = true /\
  accepts (parse "[^c&&\q{ab}]" Flags.UNICODE_SETS false) = false.
Proof. vm_compute. split_and!; reflexivity. Qed.

(** Outside of Annex B mode, an escaped letter without a meaning is not rejected:
    the backslash is matched. *)
Example unknown_escape :
  (r ← parse "\a" 0 false; Done match r with Ok r => disjunction r | Err _ => [] end)
  = Done [[LiteralTerm [92; 97]]].
Proof. vm_compute. reflexivity. Qed.

End PatternExamples.
