(* ===== verification/BytecodeOperand.v ===== *)
(** Operands of the VM bytecode and their widths: [src/so2js/runtime/bytecode/width.rs] and
    [operand.rs].

    Every operand of an instruction has the same width, one, two or four bytes, and is stored as an
    unsigned integer of that width; registers and immediates read it back as a signed one.  The
    generator works with four-byte operands and each instruction is narrowed, when it is written,
    to the least width that holds all of its operands. *)
From S2P Require Import Prelude.

(** ** Widths *)

Inductive WidthEnum : Type := Narrow | Wide | ExtraWide.

#[global] Instance WidthEnum_eq_dec : EqDecision WidthEnum.
Proof. solve_decision. Defined.

(** The derived order of the enum is the order of its constructors. *)
Definition width_rank (w : WidthEnum) : Z :=
  match w with Narrow => 0 | Wide => 1 | ExtraWide => 2 end.
Definition width_leb (w1 w2 : WidthEnum) : bool := width_rank w1 <=? width_rank w2.
Definition width_max (w1 w2 : WidthEnum) : WidthEnum := if width_leb w1 w2 then w2 else w1.

Definition num_bytes (w : WidthEnum) : Z :=
  match w with Narrow => 1 | Wide => 2 | ExtraWide => 4 end.

(** The number of values of the representative integers of a width. *)
Definition width_modulus (w : WidthEnum) : Z := 2 ^ (8 * num_bytes w).

Definition UNSIGNED_MAX (w : WidthEnum) : Z := width_modulus w - 1.
Definition SIGNED_MAX (w : WidthEnum) : Z := width_modulus w / 2 - 1.
Definition SIGNED_MIN (w : WidthEnum) : Z := - (width_modulus w / 2).

(** The conversions of [UnsignedWidthRepr] and [SignedWidthRepr] ([as] casts). *)
Definition from_usize (w : WidthEnum) (value : Z) : Z := value mod width_modulus w.
Definition as_signed (w : WidthEnum) (value : Z) : Z :=
  if value <? width_modulus w / 2 then value else value - width_modulus w.
Definition as_unsigned (w : WidthEnum) (value : Z) : Z := value mod width_modulus w.
Definition from_isize (w : WidthEnum) (value : Z) : Z := as_signed w (value mod width_modulus w).

(** [to_ne_bytes] and the read of an integer of [n] bytes on a little-endian target. *)
Fixpoint to_ne_bytes (n : nat) (value : Z) : list Z :=
  match n with
  | O => []
  | S n => value mod 256 :: to_ne_bytes n (value / 256)
  end.
Fixpoint from_ne_bytes (bytes : list Z) : Z :=
  match bytes with
  | [] => 0
  | b :: bytes => b + 256 * from_ne_bytes bytes
  end.

Definition write_into (w : WidthEnum) (bytes : list Z) (value : Z) : list Z :=
  bytes ++ to_ne_bytes (Z.to_nat (num_bytes w)) value.

(** ** Operands *)

Inductive OperandType : Type := Register | UInt | SInt | ConstantIndex.

#[global] Instance OperandType_eq_dec : EqDecision OperandType.
Proof. solve_decision. Defined.

Definition SIGNED : bool := true.
Definition UNSIGNED : bool := false.

(** The sign each [operand_type!] is declared with. *)
Definition operand_sign (t : OperandType) : bool :=
  match t with
  | Register => SIGNED
  | UInt => UNSIGNED
  | SInt => SIGNED
  | ConstantIndex => UNSIGNED
  end.

Definition min_width_for_signed (value : Z) : WidthEnum :=
  if (SIGNED_MIN Narrow <=? value) && (value <=? SIGNED_MAX Narrow) then Narrow
  else if (SIGNED_MIN Wide <=? value) && (value <=? SIGNED_MAX Wide) then Wide
  else ExtraWide.

Definition min_width_for_unsigned (value : Z) : WidthEnum :=
  if value <=? UNSIGNED_MAX Narrow then Narrow
  else if value <=? UNSIGNED_MAX Wide then Wide
  else ExtraWide.

(** An operand of width [w] is its [W::UInt].  [from_unsigned] and [unsigned] are the identity. *)
Definition operand : Type := Z.

Definition operand_from_signed (w : WidthEnum) (value : Z) : operand := as_unsigned w value.
Definition operand_signed (w : WidthEnum) (o : operand) : Z := as_signed w o.

Definition try_from_unsigned (w : WidthEnum) (value : Z) : option operand :=
  if value <=? UNSIGNED_MAX w then Some (from_usize w value) else None.

Definition try_from_signed (w : WidthEnum) (value : Z) : option operand :=
  if (SIGNED_MIN w <=? value) && (value <=? SIGNED_MAX w)
  then Some (operand_from_signed w (from_isize w value)) else None.

Definition operand_min_width (t : OperandType) (w : WidthEnum) (o : operand) : WidthEnum :=
  if Bool.eqb (operand_sign t) SIGNED then min_width_for_signed (operand_signed w o)
  else min_width_for_unsigned o.

(** [to_narrow] and [to_wide] of an extra wide operand; an extra wide one is written as it is. *)
Definition operand_to_width (w : WidthEnum) (o : operand) : operand := o mod width_modulus w.

(** The value an operand stands for. *)
Definition operand_value (t : OperandType) (w : WidthEnum) (o : operand) : Z :=
  if operand_sign t then operand_signed w o else o.

(** ** Registers *)

Definition SCOPE_SLOT_INDEX : Z := 3.
Definition CLOSURE_SLOT_INDEX : Z := 5.
Definition RECEIVER_SLOT_INDEX : Z := 7.
Definition FIRST_ARGUMENT_SLOT_INDEX : Z := 8.

Definition encode_argument_register (argument_index : Z) : Z :=
  argument_index + FIRST_ARGUMENT_SLOT_INDEX.
Definition decode_argument_register (encoded_value : Z) : Z :=
  encoded_value - FIRST_ARGUMENT_SLOT_INDEX.
Definition encode_local_register (register_index : Z) : Z := -1 - register_index.
Definition decode_local_register (encoded_value : Z) : Z := -1 - encoded_value.

Definition MAX_ARGUMENT_INDEX (w : WidthEnum) : Z := decode_argument_register (SIGNED_MAX w).
Definition MAX_LOCAL_INDEX (w : WidthEnum) : Z := decode_local_register (SIGNED_MIN w).

Definition register_argument (w : WidthEnum) (index : Z) : operand :=
  operand_from_signed w (from_isize w (encode_argument_register index)).
Definition register_local (w : WidthEnum) (index : Z) : operand :=
  operand_from_signed w (from_isize w (encode_local_register index)).
Definition register_this (w : WidthEnum) : operand := from_usize w RECEIVER_SLOT_INDEX.
Definition register_scope (w : WidthEnum) : operand := from_usize w SCOPE_SLOT_INDEX.
Definition register_closure (w : WidthEnum) : operand := from_usize w CLOSURE_SLOT_INDEX.

Definition is_argument (w : WidthEnum) (r : operand) : bool :=
  FIRST_ARGUMENT_SLOT_INDEX <=? operand_signed w r.
Definition is_local (w : WidthEnum) (r : operand) : bool := operand_signed w r <? 0.
Definition is_this (r : operand) : bool := r =? RECEIVER_SLOT_INDEX.
Definition is_scope (r : operand) : bool := r =? SCOPE_SLOT_INDEX.
Definition is_closure (r : operand) : bool := r =? CLOSURE_SLOT_INDEX.

Definition argument_index (w : WidthEnum) (r : operand) : Z :=
  decode_argument_register (operand_signed w r).
Definition local_index (w : WidthEnum) (r : operand) : Z :=
  decode_local_register (operand_signed w r).

(** ** Lemmas *)

(** An operand of width [w] is in range. *)
Definition operand_ok (w : WidthEnum) (o : operand) : Prop := 0 <= o < width_modulus w.

(** Evaluates the constants of the widths in arithmetic goals. *)
Lemma width_modulus_narrow : width_modulus Narrow = 256. Proof. done. Qed.
Lemma width_modulus_wide : width_modulus Wide = 65536. Proof. done. Qed.
Lemma width_modulus_extra_wide : width_modulus ExtraWide = 4294967296. Proof. done. Qed.

Ltac width_lia :=
  unfold SIGNED_MIN, SIGNED_MAX, UNSIGNED_MAX, operand_ok in *;
  rewrite ?width_modulus_narrow, ?width_modulus_wide, ?width_modulus_extra_wide in *; div_lia.

Lemma width_modulus_pos w : 2 <= width_modulus w.
Proof. by destruct w. Qed.

Lemma width_modulus_even w : width_modulus w = 2 * (width_modulus w / 2).
Proof. by destruct w. Qed.

Lemma width_leb_refl w : width_leb w w = true.
Proof. by destruct w. Qed.

Lemma width_leb_trans w1 w2 w3 :
  width_leb w1 w2 = true -> width_leb w2 w3 = true -> width_leb w1 w3 = true.
Proof. by destruct w1, w2, w3. Qed.

Lemma width_max_leb w1 w2 w :
  width_leb (width_max w1 w2) w = width_leb w1 w && width_leb w2 w.
Proof. by destruct w1, w2, w. Qed.

Lemma as_signed_as_unsigned w v :
  SIGNED_MIN w <= v <= SIGNED_MAX w -> as_signed w (as_unsigned w v) = v.
Proof.
  unfold as_signed, as_unsigned. intros H.
  destruct w; case_match; width_lia.
Qed.

Lemma from_isize_small w v : SIGNED_MIN w <= v <= SIGNED_MAX w -> from_isize w v = v.
Proof. apply as_signed_as_unsigned. Qed.

Lemma as_signed_range w o : operand_ok w o -> SIGNED_MIN w <= as_signed w o <= SIGNED_MAX w.
Proof. unfold as_signed. destruct w; case_match; width_lia. Qed.

Lemma as_unsigned_as_signed w o : operand_ok w o -> as_unsigned w (as_signed w o) = o.
Proof. unfold as_signed, as_unsigned. destruct w; case_match; width_lia. Qed.

Lemma as_unsigned_ok w v : operand_ok w (as_unsigned w v).
Proof. apply Z.mod_pos_bound. pose proof (width_modulus_pos w). lia. Qed.

Lemma operand_to_width_ok w o : operand_ok w (operand_to_width w o).
Proof. apply Z.mod_pos_bound. pose proof (width_modulus_pos w). lia. Qed.

(** [min_width_for_*] is the least width that holds the value, among the values of four bytes. *)
Lemma min_width_for_signed_spec v w :
  SIGNED_MIN ExtraWide <= v <= SIGNED_MAX ExtraWide ->
  width_leb (min_width_for_signed v) w = true <-> SIGNED_MIN w <= v <= SIGNED_MAX w.
Proof.
  unfold min_width_for_signed. intros H.
  destruct w; repeat case_match; cbn; split; intros; try done; width_lia.
Qed.

Lemma min_width_for_unsigned_spec v w :
  0 <= v <= UNSIGNED_MAX ExtraWide ->
  width_leb (min_width_for_unsigned v) w = true <-> v <= UNSIGNED_MAX w.
Proof.
  unfold min_width_for_unsigned. intros H.
  destruct w; repeat case_match; cbn; split; intros; try done; width_lia.
Qed.

(** Narrowing an operand to a width that is at least its least one keeps its value. *)
Lemma operand_narrowing_keeps_value t w o :
  operand_ok ExtraWide o ->
  width_leb (operand_min_width t ExtraWide o) w = true ->
  operand_value t w (operand_to_width w o) = operand_value t ExtraWide o.
Proof.
  intros Ho Hw. unfold operand_value, operand_min_width in *.
  destruct (operand_sign t); cbn in Hw.
  - apply min_width_for_signed_spec in Hw; [|by apply as_signed_range].
    unfold operand_signed, operand_to_width, as_signed in *.
    destruct w; repeat case_match; width_lia.
  - apply min_width_for_unsigned_spec in Hw; [|width_lia].
    unfold operand_to_width. destruct w; width_lia.
Qed.

Lemma length_to_ne_bytes n v : length (to_ne_bytes n v) = n.
Proof. revert v. induction n as [|n IH]; intros v; cbn; [done|]. by rewrite IH. Qed.

Lemma from_to_ne_bytes n v : 0 <= v < 256 ^ Z.of_nat n -> from_ne_bytes (to_ne_bytes n v) = v.
Proof.
  revert v. induction n as [|n IH]; intros v Hv; cbn; [cbn in Hv; lia|].
  rewrite Nat2Z.inj_succ, Z.pow_succ_r in Hv by lia.
  rewrite IH; [div_lia|]. split; [apply Z.div_pos; lia|apply Z.div_lt_upper_bound; lia].
Qed.

Lemma from_to_ne_bytes_width w o :
  operand_ok w o -> from_ne_bytes (to_ne_bytes (Z.to_nat (num_bytes w)) o) = o.
Proof. intros Ho. apply from_to_ne_bytes. unfold operand_ok in Ho. by destruct w. Qed.

(** Registers of either kind are told apart and keep their index. *)
Lemma register_local_index w i :
  0 <= i <= MAX_LOCAL_INDEX w ->
  is_local w (register_local w i) = true /\ local_index w (register_local w i) = i.
Proof.
  intros Hi. unfold is_local, local_index, register_local, operand_signed, operand_from_signed.
  unfold MAX_LOCAL_INDEX, decode_local_register, encode_local_register in *.
  rewrite from_isize_small, as_signed_as_unsigned; [|destruct w; width_lia..].
  split; [apply Z.ltb_lt|]; lia.
Qed.

Lemma register_argument_index w i :
  0 <= i <= MAX_ARGUMENT_INDEX w ->
  is_argument w (register_argument w i) = true /\ is_local w (register_argument w i) = false /\
  argument_index w (register_argument w i) = i.
Proof.
  intros Hi. unfold is_argument, is_local, argument_index, register_argument, operand_signed,
    operand_from_signed.
  unfold MAX_ARGUMENT_INDEX, decode_argument_register, encode_argument_register,
    FIRST_ARGUMENT_SLOT_INDEX in *.
  rewrite from_isize_small, as_signed_as_unsigned; [|destruct w; width_lia..].
  split_and!; [apply Z.leb_le|apply Z.ltb_ge|]; lia.
Qed.
