(* ===== verification/Varint.v ===== *)
(** Variable-length integers: [src/so2js/common/varint.rs].

    Seven bits of the value per byte, lowest first; the high bit of a byte tells that more
    follow. *)
From S2P Require Import Prelude.

(** The loop of [encode_varint] shifts a 64-bit value right by seven bits per step, so that ten
    steps are enough; [encode_varint_eq] is the equation of the loop without the bound. *)
Fixpoint encode_varint_steps (steps : nat) (value : Z) : list Z :=
  match steps with
  | O => []
  | S steps =>
      if 0x80 <=? value
      then Z.lor (value mod 256) 0x80 :: encode_varint_steps steps (Z.shiftr value 7)
      else [value mod 256]
  end.

(** The bytes that are appended to the buffer for a [usize]. *)
Definition encode_varint (value : Z) : list Z := encode_varint_steps 10 value.

(** The loop of [decode_varint] from byte [i] on.  A shift amount is taken modulo the width. *)
Fixpoint decode_varint_from (value shift i : Z) (buf : list Z) : outcome (Z * Z) :=
  match buf with
  | [] => Panicked
  | byte :: buf =>
      let value := Z.lor value (wrap64 (Z.shiftl (Z.land byte 0x7F) (shift mod 64))) in
      let i := i + 1 in
      if Z.land byte 0x80 =? 0 then Done (value, i) else decode_varint_from value (shift + 7) i buf
  end.

(** The decoded value and the number of bytes it takes. *)
Definition decode_varint (buf : list Z) : outcome (Z * Z) := decode_varint_from 0 0 0 buf.

(** ** Lemmas *)

Lemma encode_varint_steps_enough n m v :
  0 <= v -> v < 2 ^ (7 * Z.of_nat (S n)) -> (n <= m)%nat ->
  encode_varint_steps (S m) v = encode_varint_steps (S n) v.
Proof.
  revert m v. induction n as [|n IH]; intros m v H0 Hv Hm; cbn [encode_varint_steps];
    case_match eqn:E; try done.
  - apply Z.leb_le in E. cbn in Hv. lia.
  - destruct m as [|m]; [lia|]. f_equal. apply IH; [by apply Z.shiftr_nonneg| |lia].
    rewrite Z.shiftr_div_pow2 by lia. apply Z.div_lt_upper_bound; [lia|].
    rewrite <-Z.pow_add_r by lia. by replace (7 + 7 * Z.of_nat (S n)) with (7 * Z.of_nat (S (S n))) by lia.
Qed.

Lemma encode_varint_eq v :
  0 <= v < 2 ^ 64 ->
  encode_varint v =
    if 0x80 <=? v then Z.lor (v mod 256) 0x80 :: encode_varint (Z.shiftr v 7) else [v mod 256].
Proof.
  intros Hv. unfold encode_varint at 1. cbn [encode_varint_steps].
  case_match; [|done]. f_equal. symmetry. apply (encode_varint_steps_enough 8); [|cbn|lia].
  - apply Z.shiftr_nonneg. lia.
  - rewrite Z.shiftr_div_pow2 by lia. apply Z.div_lt_upper_bound; lia.
Qed.

Lemma varint_continues v : Z.land (Z.lor (v mod 256) 0x80) 0x7F = v mod 128 /\
  (Z.land (Z.lor (v mod 256) 0x80) 0x80 =? 0) = false.
Proof.
  rewrite !Z.land_lor_distr_l. change (Z.land 128 127) with 0. change (Z.land 128 128) with 128.
  change 127 with (Z.ones 7) at 1. rewrite Z.lor_0_r, Z.land_ones by lia.
  split; [div_lia|]. apply Z.eqb_neq. intros [_ E]%Z.lor_eq_0_iff. done.
Qed.

Lemma varint_last v :
  0 <= v < 128 -> Z.land v 0x7F = v /\ (Z.land v 0x80 =? 0) = true.
Proof.
  intros Hv. change 127 with (Z.ones 7). rewrite Z.land_ones by lia.
  split; [by apply Z.mod_small|]. apply Z.eqb_eq. apply Z.bits_inj'. intros k Hk.
  rewrite Z.land_spec, Z.bits_0. change 128 with (2 ^ 7). rewrite Z.pow2_bits_eqb by lia.
  destruct (Z.eqb_spec 7 k) as [<-|]; [|by rewrite andb_false_r].
  rewrite andb_true_r, Z.testbit_odd, Z.shiftr_div_pow2 by lia. by rewrite Z.div_small.
Qed.

(** The payload of byte [n] is added to the accumulated value. *)
Lemma varint_payload n x acc :
  (n <= 9)%nat -> 0 <= x < 2 ^ (64 - 7 * Z.of_nat n) -> 0 <= acc < 2 ^ (7 * Z.of_nat n) ->
  Z.lor acc (wrap64 (Z.shiftl x (7 * Z.of_nat n mod 64))) = acc + x * 2 ^ (7 * Z.of_nat n).
Proof.
  intros Hn Hx Ha. rewrite (Z.mod_small (7 * _)) by lia. rewrite wrap64_small.
  - rewrite Z.lor_comm, lor_shiftl_add by lia. lia.
  - rewrite Z.shiftl_mul_pow2 by lia. split; [nia|]. unfold usize_max.
    replace (2 ^ 64) with (2 ^ (64 - 7 * Z.of_nat n) * 2 ^ (7 * Z.of_nat n)); [nia|].
    rewrite <-Z.pow_add_r by lia. f_equal. lia.
Qed.

Lemma varint_step_pow n : 2 ^ (7 * Z.of_nat (S n)) = 128 * 2 ^ (7 * Z.of_nat n).
Proof. replace (7 * Z.of_nat (S n)) with (7 + 7 * Z.of_nat n) by lia. by rewrite Z.pow_add_r by lia. Qed.

Lemma varint_rest_range n v :
  (n < 9)%nat -> 0 <= v < 2 ^ (64 - 7 * Z.of_nat n) ->
  0 <= v / 128 < 2 ^ (64 - 7 * Z.of_nat (S n)).
Proof.
  intros Hn Hv. split; [apply Z.div_pos; lia|]. apply Z.div_lt_upper_bound; [lia|].
  change 128 with (2 ^ 7). rewrite <-Z.pow_add_r by lia.
  replace (7 + (64 - 7 * Z.of_nat (S n))) with (64 - 7 * Z.of_nat n) by lia. lia.
Qed.

(** Decoding continues behind an encoded value, whatever was read before it. *)
Lemma decode_encode_varint_from k n v acc i rest :
  (n + k = 9)%nat -> 0 <= v < 2 ^ (64 - 7 * Z.of_nat n) -> 0 <= acc < 2 ^ (7 * Z.of_nat n) ->
  decode_varint_from acc (7 * Z.of_nat n) i (encode_varint v ++ rest) =
    Done (acc + v * 2 ^ (7 * Z.of_nat n), i + Z.of_nat (length (encode_varint v))).
Proof.
  revert n v acc i. induction k as [|k IH]; intros n v acc i Hn Hv Ha.
  all: assert (Hv64 : 0 <= v < 2 ^ 64)
    by (pose proof (Z.pow_le_mono_r 2 (64 - 7 * Z.of_nat n) 64); lia).
  all: rewrite (encode_varint_eq v) by done; case_match eqn:E;
    [apply Z.leb_le in E|apply Z.leb_gt in E].
  2,4: rewrite (Z.mod_small v 256) by lia; cbn [app decode_varint_from length];
    destruct (varint_last v ltac:(lia)) as [-> ->]; rewrite varint_payload by lia; f_equal; f_equal; lia.
  - replace n with 9%nat in Hv by lia. cbn in Hv. lia.
  - cbn [app decode_varint_from length]. destruct (varint_continues v) as [-> ->].
    pose proof (Z.mod_pos_bound v 128 ltac:(lia)). pose proof (Z.mod_le v 128 ltac:(lia) ltac:(lia)).
    rewrite varint_payload by lia. replace (7 * Z.of_nat n + 7) with (7 * Z.of_nat (S n)) by lia.
    rewrite Z.shiftr_div_pow2 by lia. change (2 ^ 7) with 128.
    rewrite IH; [|lia|by apply varint_rest_range; lia|rewrite varint_step_pow; nia].
    rewrite varint_step_pow. do 2 f_equal; [|cbn; lia].
    rewrite (Z.div_mod v 128) at 3 by lia. ring.
Qed.

Lemma decode_encode_varint v rest :
  0 <= v < 2 ^ 64 ->
  decode_varint (encode_varint v ++ rest) = Done (v, Z.of_nat (length (encode_varint v))).
Proof.
  intros Hv. unfold decode_varint. rewrite (decode_encode_varint_from 9 0); [|cbn; lia..].
  do 2 f_equal. cbn. lia.
Qed.
