(* ===== verification/VmInstruction.v ===== *)
(** Instructions of the VM bytecode: [src/so2js/runtime/bytecode/instruction.rs] and the byte
    buffer they are written to, [writer.rs].

    An instruction is an opcode byte followed by its operands.  Operands wider than a byte are
    announced by a prefix byte and aligned: padding after the prefix puts the opcode one byte
    before the alignment boundary of the operands.  The writer chooses the least width for each
    instruction; [InstructionIterator] reads the instructions back. *)
From S2P Require Import Prelude BytecodeOperand Varint.

Module OpCode.

Inductive t : Type :=
  | WidePrefix | ExtraWidePrefix | Mov | LoadImmediate | LoadConstant | LoadUndefined | LoadNull
  | LoadEmpty | LoadTrue | LoadFalse | LoadGlobal | LoadGlobalOrUnresolved | StoreGlobal
  | LoadDynamic | LoadDynamicOrUnresolved | StoreDynamic | Call | CallWithReceiver | CallVarargs
  | CallMaybeEval | CallMaybeEvalVarargs | Construct | ConstructVarargs | DefaultSuperCall | Ret
  | Add | Sub | Mul | Div | Rem | Exp | BitAnd | BitOr | BitXor | ShiftLeft
  | ShiftRightArithmetic | ShiftRightLogical | LooseEqual | LooseNotEqual | StrictEqual
  | StrictNotEqual | LessThan | LessThanOrEqual | GreaterThan | GreaterThanOrEqual | Neg | Inc
  | Dec | LogNot | BitNot | TypeOf | In | InstanceOf | ToNumber | ToNumeric | ToString
  | ToPropertyKey | ToObject | Jump | JumpConstant | JumpTrue | JumpTrueConstant
  | JumpToBooleanTrue | JumpToBooleanTrueConstant | JumpFalse | JumpFalseConstant
  | JumpToBooleanFalse | JumpToBooleanFalseConstant | JumpNotUndefined | JumpNotUndefinedConstant
  | JumpNullish | JumpNullishConstant | JumpNotNullish | JumpNotNullishConstant | NewClosure
  | NewAsyncClosure | NewGenerator | NewAsyncGenerator | NewObject | NewArray | NewRegExp
  | NewMappedArguments | NewUnmappedArguments | NewClass | NewAccessor | NewPrivateSymbol
  | GetProperty | SetProperty | DefineProperty | GetNamedProperty | SetNamedProperty
  | DefineNamedProperty | GetSuperProperty | GetNamedSuperProperty | SetSuperProperty
  | DeleteProperty | DeleteBinding | GetPrivateProperty | SetPrivateProperty
  | DefinePrivateProperty | SetArrayProperty | SetPrototypeOf | CopyDataProperties | GetMethod
  | PushLexicalScope | PushFunctionScope | PushWithScope | PopScope | DupScope | LoadFromScope
  | StoreToScope | LoadFromModule | StoreToModule | Throw | RestParameter | GetSuperConstructor
  | CheckTdz | CheckThisInitialized | CheckSuperAlreadyCalled | CheckIteratorResultObject
  | ErrorConst | ErrorDeleteSuperProperty | ErrorIteratorNoThrowMethod | NewForInIterator
  | ForInNext | GetIterator | GetAsyncIterator | IteratorNext | IteratorUnpackResult
  | IteratorClose | AsyncIteratorCloseStart | AsyncIteratorCloseFinish | GeneratorStart | Yield
  | NewPromise | Await | ResolvePromise | RejectPromise | ImportMeta | DynamicImport.

(** The opcodes in the order of their discriminants. *)
Definition all : list t :=
  [WidePrefix; ExtraWidePrefix; Mov; LoadImmediate; LoadConstant; LoadUndefined; LoadNull;
   LoadEmpty; LoadTrue; LoadFalse; LoadGlobal; LoadGlobalOrUnresolved; StoreGlobal; LoadDynamic;
   LoadDynamicOrUnresolved; StoreDynamic; Call; CallWithReceiver; CallVarargs; CallMaybeEval;
   CallMaybeEvalVarargs; Construct; ConstructVarargs; DefaultSuperCall; Ret; Add; Sub; Mul; Div;
   Rem; Exp; BitAnd; BitOr; BitXor; ShiftLeft; ShiftRightArithmetic; ShiftRightLogical;
   LooseEqual; LooseNotEqual; StrictEqual; StrictNotEqual; LessThan; LessThanOrEqual;
   GreaterThan; GreaterThanOrEqual; Neg; Inc; Dec; LogNot; BitNot; TypeOf; In; InstanceOf;
   ToNumber; ToNumeric; ToString; ToPropertyKey; ToObject; Jump; JumpConstant; JumpTrue;
   JumpTrueConstant; JumpToBooleanTrue; JumpToBooleanTrueConstant; JumpFalse; JumpFalseConstant;
   JumpToBooleanFalse; JumpToBooleanFalseConstant; JumpNotUndefined; JumpNotUndefinedConstant;
   JumpNullish; JumpNullishConstant; JumpNotNullish; JumpNotNullishConstant; NewClosure;
   NewAsyncClosure; NewGenerator; NewAsyncGenerator; NewObject; NewArray; NewRegExp;
   NewMappedArguments; NewUnmappedArguments; NewClass; NewAccessor; NewPrivateSymbol;
   GetProperty; SetProperty; DefineProperty; GetNamedProperty; SetNamedProperty;
   DefineNamedProperty; GetSuperProperty; GetNamedSuperProperty; SetSuperProperty;
   DeleteProperty; DeleteBinding; GetPrivateProperty; SetPrivateProperty; DefinePrivateProperty;
   SetArrayProperty; SetPrototypeOf; CopyDataProperties; GetMethod; PushLexicalScope;
   PushFunctionScope; PushWithScope; PopScope; DupScope; LoadFromScope; StoreToScope;
   LoadFromModule; StoreToModule; Throw; RestParameter; GetSuperConstructor; CheckTdz;
   CheckThisInitialized; CheckSuperAlreadyCalled; CheckIteratorResultObject; ErrorConst;
   ErrorDeleteSuperProperty; ErrorIteratorNoThrowMethod; NewForInIterator; ForInNext;
   GetIterator; GetAsyncIterator; IteratorNext; IteratorUnpackResult; IteratorClose;
   AsyncIteratorCloseStart; AsyncIteratorCloseFinish; GeneratorStart; Yield; NewPromise; Await;
   ResolvePromise; RejectPromise; ImportMeta; DynamicImport].

(** [opcode as u8]. *)
Definition as_u8 (op : t) : Z :=
  match op with
  | WidePrefix => 0 | ExtraWidePrefix => 1 | Mov => 2 | LoadImmediate => 3 | LoadConstant => 4
  | LoadUndefined => 5 | LoadNull => 6 | LoadEmpty => 7 | LoadTrue => 8 | LoadFalse => 9
  | LoadGlobal => 10 | LoadGlobalOrUnresolved => 11 | StoreGlobal => 12 | LoadDynamic => 13
  | LoadDynamicOrUnresolved => 14 | StoreDynamic => 15 | Call => 16 | CallWithReceiver => 17
  | CallVarargs => 18 | CallMaybeEval => 19 | CallMaybeEvalVarargs => 20 | Construct => 21
  | ConstructVarargs => 22 | DefaultSuperCall => 23 | Ret => 24 | Add => 25 | Sub => 26
  | Mul => 27 | Div => 28 | Rem => 29 | Exp => 30 | BitAnd => 31 | BitOr => 32 | BitXor => 33
  | ShiftLeft => 34 | ShiftRightArithmetic => 35 | ShiftRightLogical => 36 | LooseEqual => 37
  | LooseNotEqual => 38 | StrictEqual => 39 | StrictNotEqual => 40 | LessThan => 41
  | LessThanOrEqual => 42 | GreaterThan => 43 | GreaterThanOrEqual => 44 | Neg => 45 | Inc => 46
  | Dec => 47 | LogNot => 48 | BitNot => 49 | TypeOf => 50 | In => 51 | InstanceOf => 52
  | ToNumber => 53 | ToNumeric => 54 | ToString => 55 | ToPropertyKey => 56 | ToObject => 57
  | Jump => 58 | JumpConstant => 59 | JumpTrue => 60 | JumpTrueConstant => 61
  | JumpToBooleanTrue => 62 | JumpToBooleanTrueConstant => 63 | JumpFalse => 64
  | JumpFalseConstant => 65 | JumpToBooleanFalse => 66 | JumpToBooleanFalseConstant => 67
  | JumpNotUndefined => 68 | JumpNotUndefinedConstant => 69 | JumpNullish => 70
  | JumpNullishConstant => 71 | JumpNotNullish => 72 | JumpNotNullishConstant => 73
  | NewClosure => 74 | NewAsyncClosure => 75 | NewGenerator => 76 | NewAsyncGenerator => 77
  | NewObject => 78 | NewArray => 79 | NewRegExp => 80 | NewMappedArguments => 81
  | NewUnmappedArguments => 82 | NewClass => 83 | NewAccessor => 84 | NewPrivateSymbol => 85
  | GetProperty => 86 | SetProperty => 87 | DefineProperty => 88 | GetNamedProperty => 89
  | SetNamedProperty => 90 | DefineNamedProperty => 91 | GetSuperProperty => 92
  | GetNamedSuperProperty => 93 | SetSuperProperty => 94 | DeleteProperty => 95
  | DeleteBinding => 96 | GetPrivateProperty => 97 | SetPrivateProperty => 98
  | DefinePrivateProperty => 99 | SetArrayProperty => 100 | SetPrototypeOf => 101
  | CopyDataProperties => 102 | GetMethod => 103 | PushLexicalScope => 104
  | PushFunctionScope => 105 | PushWithScope => 106 | PopScope => 107 | DupScope => 108
  | LoadFromScope => 109 | StoreToScope => 110 | LoadFromModule => 111 | StoreToModule => 112
  | Throw => 113 | RestParameter => 114 | GetSuperConstructor => 115 | CheckTdz => 116
  | CheckThisInitialized => 117 | CheckSuperAlreadyCalled => 118
  | CheckIteratorResultObject => 119 | ErrorConst => 120 | ErrorDeleteSuperProperty => 121
  | ErrorIteratorNoThrowMethod => 122 | NewForInIterator => 123 | ForInNext => 124
  | GetIterator => 125 | GetAsyncIterator => 126 | IteratorNext => 127
  | IteratorUnpackResult => 128 | IteratorClose => 129 | AsyncIteratorCloseStart => 130
  | AsyncIteratorCloseFinish => 131 | GeneratorStart => 132 | Yield => 133 | NewPromise => 134
  | Await => 135 | ResolvePromise => 136 | RejectPromise => 137 | ImportMeta => 138
  | DynamicImport => 139
  end.

(** [OpCode::from_u8] transmutes the byte, which is undefined behaviour when it is no opcode. *)
Definition from_u8 (value : Z) : outcome t := deref (all !! Z.to_nat value).

Definition operand_types (op : t) : list OperandType :=
  match op with
  | WidePrefix => []
  | ExtraWidePrefix => []
  | Mov => [Register; Register]
  | LoadImmediate => [Register; SInt]
  | LoadConstant => [Register; ConstantIndex]
  | LoadUndefined => [Register]
  | LoadNull => [Register]
  | LoadEmpty => [Register]
  | LoadTrue => [Register]
  | LoadFalse => [Register]
  | LoadGlobal => [Register; ConstantIndex]
  | LoadGlobalOrUnresolved => [Register; ConstantIndex]
  | StoreGlobal => [Register; ConstantIndex]
  | LoadDynamic => [Register; ConstantIndex]
  | LoadDynamicOrUnresolved => [Register; ConstantIndex]
  | StoreDynamic => [Register; ConstantIndex]
  | Call => [Register; Register; Register; UInt]
  | CallWithReceiver => [Register; Register; Register; Register; UInt]
  | CallVarargs => [Register; Register; Register; Register]
  | CallMaybeEval => [Register; Register; Register; UInt; UInt]
  | CallMaybeEvalVarargs => [Register; Register; Register; UInt]
  | Construct => [Register; Register; Register; Register; UInt]
  | ConstructVarargs => [Register; Register; Register; Register]
  | DefaultSuperCall => []
  | Ret => [Register]
  | Add => [Register; Register; Register]
  | Sub => [Register; Register; Register]
  | Mul => [Register; Register; Register]
  | Div => [Register; Register; Register]
  | Rem => [Register; Register; Register]
  | Exp => [Register; Register; Register]
  | BitAnd => [Register; Register; Register]
  | BitOr => [Register; Register; Register]
  | BitXor => [Register; Register; Register]
  | ShiftLeft => [Register; Register; Register]
  | ShiftRightArithmetic => [Register; Register; Register]
  | ShiftRightLogical => [Register; Register; Register]
  | LooseEqual => [Register; Register; Register]
  | LooseNotEqual => [Register; Register; Register]
  | StrictEqual => [Register; Register; Register]
  | StrictNotEqual => [Register; Register; Register]
  | LessThan => [Register; Register; Register]
  | LessThanOrEqual => [Register; Register; Register]
  | GreaterThan => [Register; Register; Register]
  | GreaterThanOrEqual => [Register; Register; Register]
  | Neg => [Register; Register]
  | Inc => [Register]
  | Dec => [Register]
  | LogNot => [Register; Register]
  | BitNot => [Register; Register]
  | TypeOf => [Register; Register]
  | In => [Register; Register; Register]
  | InstanceOf => [Register; Register; Register]
  | ToNumber => [Register; Register]
  | ToNumeric => [Register; Register]
  | ToString => [Register; Register]
  | ToPropertyKey => [Register; Register]
  | ToObject => [Register; Register]
  | Jump => [SInt]
  | JumpConstant => [ConstantIndex]
  | JumpTrue => [Register; SInt]
  | JumpTrueConstant => [Register; ConstantIndex]
  | JumpToBooleanTrue => [Register; SInt]
  | JumpToBooleanTrueConstant => [Register; ConstantIndex]
  | JumpFalse => [Register; SInt]
  | JumpFalseConstant => [Register; ConstantIndex]
  | JumpToBooleanFalse => [Register; SInt]
  | JumpToBooleanFalseConstant => [Register; ConstantIndex]
  | JumpNotUndefined => [Register; SInt]
  | JumpNotUndefinedConstant => [Register; ConstantIndex]
  | JumpNullish => [Register; SInt]
  | JumpNullishConstant => [Register; ConstantIndex]
  | JumpNotNullish => [Register; SInt]
  | JumpNotNullishConstant => [Register; ConstantIndex]
  | NewClosure => [Register; ConstantIndex]
  | NewAsyncClosure => [Register; ConstantIndex]
  | NewGenerator => [Register; ConstantIndex]
  | NewAsyncGenerator => [Register; ConstantIndex]
  | NewObject => [Register]
  | NewArray => [Register]
  | NewRegExp => [Register; ConstantIndex]
  | NewMappedArguments => [Register]
  | NewUnmappedArguments => [Register]
  | NewClass => [Register; ConstantIndex; ConstantIndex; Register; Register]
  | NewAccessor => [Register; Register; Register]
  | NewPrivateSymbol => [Register; ConstantIndex]
  | GetProperty => [Register; Register; Register]
  | SetProperty => [Register; Register; Register]
  | DefineProperty => [Register; Register; Register; UInt]
  | GetNamedProperty => [Register; Register; ConstantIndex]
  | SetNamedProperty => [Register; ConstantIndex; Register]
  | DefineNamedProperty => [Register; ConstantIndex; Register]
  | GetSuperProperty => [Register; Register; Register; Register]
  | GetNamedSuperProperty => [Register; Register; Register; ConstantIndex]
  | SetSuperProperty => [Register; Register; Register; Register]
  | DeleteProperty => [Register; Register; Register]
  | DeleteBinding => [Register; ConstantIndex]
  | GetPrivateProperty => [Register; Register; Register]
  | SetPrivateProperty => [Register; Register; Register]
  | DefinePrivateProperty => [Register; Register; Register; UInt]
  | SetArrayProperty => [Register; Register; Register]
  | SetPrototypeOf => [Register; Register]
  | CopyDataProperties => [Register; Register; Register; UInt]
  | GetMethod => [Register; Register; ConstantIndex]
  | PushLexicalScope => [ConstantIndex]
  | PushFunctionScope => [ConstantIndex]
  | PushWithScope => [Register; ConstantIndex]
  | PopScope => []
  | DupScope => []
  | LoadFromScope => [Register; UInt; UInt]
  | StoreToScope => [Register; UInt; UInt]
  | LoadFromModule => [Register; UInt; UInt]
  | StoreToModule => [Register; UInt; UInt]
  | Throw => [Register]
  | RestParameter => [Register]
  | GetSuperConstructor => [Register; Register]
  | CheckTdz => [Register; ConstantIndex]
  | CheckThisInitialized => [Register]
  | CheckSuperAlreadyCalled => [Register]
  | CheckIteratorResultObject => [Register]
  | ErrorConst => [ConstantIndex]
  | ErrorDeleteSuperProperty => []
  | ErrorIteratorNoThrowMethod => []
  | NewForInIterator => [Register; Register]
  | ForInNext => [Register; Register]
  | GetIterator => [Register; Register; Register]
  | GetAsyncIterator => [Register; Register; Register]
  | IteratorNext => [Register; Register; Register; Register]
  | IteratorUnpackResult => [Register; Register; Register]
  | IteratorClose => [Register]
  | AsyncIteratorCloseStart => [Register; Register; Register]
  | AsyncIteratorCloseFinish => [Register]
  | GeneratorStart => [Register]
  | Yield => [Register; Register; Register; Register]
  | NewPromise => [Register]
  | Await => [Register; Register; Register; Register]
  | ResolvePromise => [Register; Register]
  | RejectPromise => [Register; Register]
  | ImportMeta => [Register]
  | DynamicImport => [Register; Register; Register]
  end.

(** The instructions declared with [can_throw: true], which take a source position. *)
Definition can_throw (op : t) : bool :=
  match op with
  | LoadGlobal | LoadGlobalOrUnresolved | StoreGlobal | LoadDynamic | LoadDynamicOrUnresolved
  | StoreDynamic | Call | CallWithReceiver | CallVarargs | CallMaybeEval | CallMaybeEvalVarargs
  | Construct | ConstructVarargs | DefaultSuperCall | Add | Sub | Mul | Div | Rem | Exp
  | BitAnd | BitOr | BitXor | ShiftLeft | ShiftRightArithmetic | ShiftRightLogical | LooseEqual
  | LooseNotEqual | LessThan | LessThanOrEqual | GreaterThan | GreaterThanOrEqual | Neg
  | BitNot | In | InstanceOf | ToNumber | ToNumeric | ToString | ToPropertyKey | ToObject
  | NewClass | GetProperty | SetProperty | DefineProperty | GetNamedProperty | SetNamedProperty
  | DefineNamedProperty | GetSuperProperty | GetNamedSuperProperty | SetSuperProperty
  | DeleteProperty | DeleteBinding | GetPrivateProperty | SetPrivateProperty
  | DefinePrivateProperty | CopyDataProperties | GetMethod | PushWithScope | LoadFromModule
  | CheckTdz | CheckThisInitialized | CheckSuperAlreadyCalled | CheckIteratorResultObject
  | ErrorConst | ErrorDeleteSuperProperty | ErrorIteratorNoThrowMethod | NewForInIterator
  | ForInNext | GetIterator | GetAsyncIterator | IteratorNext | IteratorUnpackResult
  | IteratorClose | AsyncIteratorCloseStart | AsyncIteratorCloseFinish | GeneratorStart | Await
  | DynamicImport => true
  | _ => false
  end.

Lemma from_u8_as_u8 op : from_u8 (as_u8 op) = Done op.
Proof. by destruct op. Qed.

#[global] Instance t_eq_dec : EqDecision t.
Proof.
  refine (fun a b => cast_if (decide (as_u8 a = as_u8 b))).
  - abstract (assert (Done a = Done b) by (rewrite <-!from_u8_as_u8; congruence); congruence).
  - abstract congruence.
Defined.

Lemma as_u8_range op : 0 <= as_u8 op < 140.
Proof. by destruct op. Qed.

End OpCode.

(** ** The byte buffer: [BytecodeWriter] *)

(** [parser::loc::NO_POS]. *)
Definition NO_POS : Z := usize_max.

Record BytecodeWriter : Type := {
  bytes : list Z;
  source_map : list Z;
  last_pos : Z
}.

Definition BytecodeWriter_new : BytecodeWriter :=
  {| bytes := []; source_map := []; last_pos := NO_POS |}.

Definition with_bytes (writer : BytecodeWriter) (bs : list Z) : BytecodeWriter :=
  {| bytes := bs; source_map := source_map writer; last_pos := last_pos writer |}.

Definition current_offset (writer : BytecodeWriter) : Z := Z.of_nat (length (bytes writer)).

(** [self.bytes[index] = value]. *)
Definition set_byte (bs : list Z) (index value : Z) : outcome (list Z) :=
  if index <? Z.of_nat (length bs) then Done (<[Z.to_nat index := value]> bs) else Panicked.

Fixpoint set_bytes (bs : list Z) (index : Z) (values : list Z) : outcome (list Z) :=
  match values with
  | [] => Done bs
  | v :: values => bs ← set_byte bs index v; set_bytes bs (index + 1) values
  end.

Definition set_u8 (writer : BytecodeWriter) (index value : Z) : outcome BytecodeWriter :=
  bs ← set_byte (bytes writer) index value; Done (with_bytes writer bs).

Definition set_u16 (writer : BytecodeWriter) (index value : Z) : outcome BytecodeWriter :=
  bs ← set_bytes (bytes writer) index (to_ne_bytes 2 value); Done (with_bytes writer bs).

Definition set_u32 (writer : BytecodeWriter) (index value : Z) : outcome BytecodeWriter :=
  bs ← set_bytes (bytes writer) index (to_ne_bytes 4 value); Done (with_bytes writer bs).

Definition write_u8 (writer : BytecodeWriter) (value : Z) : BytecodeWriter :=
  with_bytes writer (bytes writer ++ [value]).

Definition write_opcode (writer : BytecodeWriter) (op : OpCode.t) : BytecodeWriter :=
  write_u8 writer (OpCode.as_u8 op).

Definition write_operand (w : WidthEnum) (writer : BytecodeWriter) (o : operand) : BytecodeWriter :=
  with_bytes writer (write_into w (bytes writer) o).

Definition wide_prefix_index_to_opcode_index (prefix_index : Z) : Z := Z.lor (prefix_index + 1) 0x1.
Definition extra_wide_prefix_index_to_opcode_index (prefix_index : Z) : Z :=
  Z.lor (prefix_index + 1) 0x3.

(** Zero bytes up to [opcode_index]. *)
Definition write_padding (writer : BytecodeWriter) (opcode_index : Z) : BytecodeWriter :=
  with_bytes writer
    (bytes writer ++ replicate (Z.to_nat (opcode_index - current_offset writer)) 0).

(** A prefix instruction has no operands: it is written narrow, as its opcode alone. *)
Definition write_width_prefix (writer : BytecodeWriter) (w : WidthEnum) : BytecodeWriter :=
  match w with
  | Narrow => writer
  | Wide =>
      let opcode_index := wide_prefix_index_to_opcode_index (current_offset writer) in
      write_padding (write_opcode writer OpCode.WidePrefix) opcode_index
  | ExtraWide =>
      let opcode_index := extra_wide_prefix_index_to_opcode_index (current_offset writer) in
      write_padding (write_opcode writer OpCode.ExtraWidePrefix) opcode_index
  end.

Definition write_source_map_varint (writer : BytecodeWriter) (value : Z) : BytecodeWriter :=
  {| bytes := bytes writer; source_map := source_map writer ++ encode_varint value;
     last_pos := last_pos writer |}.

Definition write_source_map_header (writer : BytecodeWriter) (start end_ : Z) : BytecodeWriter :=
  write_source_map_varint (write_source_map_varint writer start) end_.

Definition write_source_map_entry (writer : BytecodeWriter) (source_position : Z) : BytecodeWriter :=
  if (source_position =? NO_POS) || (source_position =? last_pos writer) then writer
  else
    let writer := {| bytes := bytes writer; source_map := source_map writer;
                     last_pos := source_position |} in
    write_source_map_varint (write_source_map_varint writer (current_offset writer))
      source_position.

(** ** Instructions *)

(** An instruction struct: its type gives the opcode and the width. *)
Record Instruction : Type := {
  opcode : OpCode.t;
  width : WidthEnum;
  operands : list operand
}.

Definition num_operands (op : OpCode.t) : Z := Z.of_nat (length (OpCode.operand_types op)).
Definition byte_length (op : OpCode.t) (w : WidthEnum) : Z := num_operands op * num_bytes w.

(** [$instr_name_camel::<W>::write]: the position is an argument of the instructions that throw. *)
Definition instruction_write (w : WidthEnum) (op : OpCode.t) (writer : BytecodeWriter)
    (os : list operand) (pos : Z) : BytecodeWriter :=
  let writer := write_width_prefix writer w in
  let writer := write_opcode writer op in
  let writer := foldl (write_operand w) writer os in
  if OpCode.can_throw op then write_source_map_entry writer pos else writer.

(** The width needed to fit all operands. *)
Definition instruction_min_width (op : OpCode.t) (os : list operand) : WidthEnum :=
  foldl (fun w '(t, o) => width_max (operand_min_width t ExtraWide o) w) Narrow
    (zip (OpCode.operand_types op) os).

(** [BytecodeWriter::$instr_name_snake]: an instruction of extra wide operands is written with the
    minimum width. *)
Definition write_instruction (op : OpCode.t) (writer : BytecodeWriter) (os : list operand)
    (pos : Z) : BytecodeWriter :=
  let w := instruction_min_width op os in
  instruction_write w op writer (map (operand_to_width w) os) pos.

(** ** Reading instructions *)

Record DecodeInfo : Type := {
  di_width : WidthEnum;
  di_opcode : OpCode.t;
  di_opcode_index : Z
}.

(** [bytecode[index]]. *)
Definition byte_at (bytecode : list Z) (index : Z) : outcome Z :=
  unwrap (bytecode !! Z.to_nat index).

Definition opcode_at (bytecode : list Z) (index : Z) : outcome OpCode.t :=
  b ← byte_at bytecode index; OpCode.from_u8 b.

Definition decode_width_and_opcode_at_index (bytecode : list Z) (index : Z) : outcome DecodeInfo :=
  op ← opcode_at bytecode index;
  match op with
  | OpCode.WidePrefix =>
      let opcode_index := wide_prefix_index_to_opcode_index index in
      op ← opcode_at bytecode opcode_index;
      Done {| di_width := Wide; di_opcode := op; di_opcode_index := opcode_index |}
  | OpCode.ExtraWidePrefix =>
      let opcode_index := extra_wide_prefix_index_to_opcode_index index in
      op ← opcode_at bytecode opcode_index;
      Done {| di_width := ExtraWide; di_opcode := op; di_opcode_index := opcode_index |}
  | op => Done {| di_width := Narrow; di_opcode := op; di_opcode_index := index |}
  end.

(** The operands behind a pointer to the first byte after the opcode.  The struct is read in place:
    bytes that are not there are undefined behaviour. *)
Fixpoint read_operands (w : WidthEnum) (n : nat) (stream : list Z) : outcome (list operand) :=
  match n with
  | O => Done []
  | S n =>
      let size := Z.to_nat (num_bytes w) in
      if (size <=? length stream)%nat
      then os ← read_operands w n (drop size stream); Done (from_ne_bytes (take size stream) :: os)
      else Faulted
  end.

(** [decode_narrow_instruction], [decode_wide_instruction] and [decode_extra_wide_instruction]. *)
Definition decode_instruction (w : WidthEnum) (op : OpCode.t) (stream : list Z)
    : outcome Instruction :=
  os ← read_operands w (length (OpCode.operand_types op)) stream;
  Done {| opcode := op; width := w; operands := os |}.

(** [&bytecode[from..]]. *)
Definition slice_from (bytecode : list Z) (from : Z) : outcome (list Z) :=
  if from <=? Z.of_nat (length bytecode) then Done (drop (Z.to_nat from) bytecode) else Panicked.

(** [InstructionIterator::next] at position [pos]: the instruction with its offset, and the next
    position. *)
Definition instruction_iterator_next (bytecode : list Z) (pos : Z)
    : outcome (option (Instruction * Z * Z)) :=
  if Z.of_nat (length bytecode) <=? pos then Done None
  else
    prefix ← opcode_at bytecode pos;
    '(w, op, opcode_index) ←
      match prefix with
      | OpCode.WidePrefix =>
          let opcode_index := wide_prefix_index_to_opcode_index pos in
          op ← opcode_at bytecode opcode_index; Done (Wide, op, opcode_index)
      | OpCode.ExtraWidePrefix =>
          let opcode_index := extra_wide_prefix_index_to_opcode_index pos in
          op ← opcode_at bytecode opcode_index; Done (ExtraWide, op, opcode_index)
      | op => Done (Narrow, op, pos)
      end;
    stream ← slice_from bytecode (opcode_index + 1);
    instr ← decode_instruction w op stream;
    Done (Some (instr, pos, opcode_index + 1 + byte_length (opcode instr) (width instr))).

(** [for (instr, offset) in InstructionIterator::new(bytecode)]. *)
Fixpoint instruction_iterator_collect (fuel : nat) (bytecode : list Z) (pos : Z)
    : outcome (list (Instruction * Z)) :=
  match fuel with
  | O => OutOfFuel
  | S fuel =>
      next ← instruction_iterator_next bytecode pos;
      match next with
      | None => Done []
      | Some (instr, start_pos, pos) =>
          rest ← instruction_iterator_collect fuel bytecode pos; Done ((instr, start_pos) :: rest)
      end
  end.

(** Every instruction takes at least one byte. *)
Definition InstructionIterator_collect (bytecode : list Z) : outcome (list (Instruction * Z)) :=
  instruction_iterator_collect (S (length bytecode)) bytecode 0.

Definition get_raw_operand_signed (instr : Instruction) (index : Z) : outcome Z :=
  o ← unwrap (operands instr !! Z.to_nat index); Done (as_signed (width instr) o).

(** The offset the disassembler adds to the position of a jump to label its target. *)
Definition get_jump_offset (instr : Instruction) : outcome (option Z) :=
  let op := opcode instr in
  if bool_decide (op = OpCode.Jump) || bool_decide (op = OpCode.JumpConstant) then
    offset ← get_raw_operand_signed instr 0; Done (Some offset)
  else if (OpCode.as_u8 OpCode.JumpTrue <=? OpCode.as_u8 op)
       && (OpCode.as_u8 op <=? OpCode.as_u8 OpCode.JumpNotNullishConstant) then
    offset ← get_raw_operand_signed instr 1; Done (Some offset)
  else Done None.
