(* ===== verification/VmInstructionCorrect.v ===== *)
(** Correctness of the encoding of VM instructions.

    [instr_bytes] is the layout of one instruction at an offset and [encode] that of a sequence.
    Writing appends the layout, reading inverts it, and a whole function disassembles into the
    instructions that were written, each with the operand values it was written with. *)
From S2P Require Import Prelude BytecodeOperand Varint VmInstruction.

(** ** The layout *)

Definition prefix_bytes (start : Z) (w : WidthEnum) : list Z :=
  match w with
  | Narrow => []
  | Wide =>
      OpCode.as_u8 OpCode.WidePrefix ::
      replicate (Z.to_nat (wide_prefix_index_to_opcode_index start - (start + 1))) 0
  | ExtraWide =>
      OpCode.as_u8 OpCode.ExtraWidePrefix ::
      replicate (Z.to_nat (extra_wide_prefix_index_to_opcode_index start - (start + 1))) 0
  end.

Definition operand_bytes (w : WidthEnum) (os : list operand) : list Z :=
  concat (map (to_ne_bytes (Z.to_nat (num_bytes w))) os).

Definition instr_bytes (start : Z) (i : Instruction) : list Z :=
  prefix_bytes start (width i) ++ OpCode.as_u8 (opcode i) :: operand_bytes (width i) (operands i).

(** The offset of the opcode of an instruction that starts at [start]. *)
Definition opcode_index_at (start : Z) (w : WidthEnum) : Z :=
  match w with
  | Narrow => start
  | Wide => wide_prefix_index_to_opcode_index start
  | ExtraWide => extra_wide_prefix_index_to_opcode_index start
  end.

Definition is_prefix (op : OpCode.t) : bool :=
  match op with OpCode.WidePrefix | OpCode.ExtraWidePrefix => true | _ => false end.

(** The instructions that the typed interface of the writer can produce. *)
Definition instr_ok (i : Instruction) : Prop :=
  is_prefix (opcode i) = false /\
  length (operands i) = length (OpCode.operand_types (opcode i)) /\
  Forall (operand_ok (width i)) (operands i).

Lemma lor_ones x k : 0 < k -> 0 <= x -> Z.lor x (Z.ones k) = x / 2 ^ k * 2 ^ k + Z.ones k.
Proof.
  intros Hk Hx. assert (Hp : 0 < 2 ^ k) by lia.
  pose proof (Z.mod_pos_bound x (2 ^ k) Hp) as Hm.
  assert (E : x = Z.lor (Z.shiftl (x / 2 ^ k) k) (x mod 2 ^ k)).
  { rewrite lor_shiftl_add by lia. rewrite Z.mul_comm. apply Z.div_mod. lia. }
  rewrite E at 1. rewrite <-Z.lor_assoc, Z.lor_ones_low, lor_shiftl_add.
  - done.
  - lia.
  - rewrite Z.ones_equiv. lia.
  - lia.
  - destruct (decide (x mod 2 ^ k = 0)) as [->|]; [done|]. apply Z.log2_lt_pow2; lia.
Qed.

Lemma lor_1 x : 0 <= x -> Z.lor x 1 = x + 1 - x mod 2.
Proof.
  intros Hx. pose proof (lor_ones x 1 ltac:(lia) Hx) as E. revert E. change (2 ^ 1) with 2. change (Z.ones 1) with 1. intros ->. div_lia.
Qed.

Lemma lor_3 x : 0 <= x -> Z.lor x 3 = x + 3 - x mod 4.
Proof.
  intros Hx. pose proof (lor_ones x 2 ltac:(lia) Hx) as E. revert E. change (2 ^ 2) with 4. change (Z.ones 2) with 3. intros ->. div_lia.
Qed.

(** The opcode follows the prefix and its padding, and the operands after it are aligned. *)
Lemma opcode_index_at_spec start w :
  0 <= start ->
  start <= opcode_index_at start w /\
  opcode_index_at start w = start + Z.of_nat (length (prefix_bytes start w)) /\
  (opcode_index_at start w + 1) mod num_bytes w = 0.
Proof.
  intros Hs. destruct w; cbn [opcode_index_at prefix_bytes num_bytes length].
  - split_and!; [lia..|by rewrite Z.mod_1_r].
  - unfold wide_prefix_index_to_opcode_index. rewrite length_replicate, lor_1 by lia.
    split_and!; div_lia.
  - unfold extra_wide_prefix_index_to_opcode_index. rewrite length_replicate, lor_3 by lia.
    split_and!; div_lia.
Qed.

Lemma length_operand_bytes w os :
  Z.of_nat (length (operand_bytes w os)) = Z.of_nat (length os) * num_bytes w.
Proof.
  unfold operand_bytes. induction os as [|o os IH]; [done|]. cbn [map concat].
  rewrite length_app, length_to_ne_bytes, Nat2Z.inj_add, IH.
  assert (0 <= num_bytes w) by (by destruct w). cbn [length]. lia.
Qed.

Lemma length_instr_bytes start i :
  0 <= start ->
  start + Z.of_nat (length (instr_bytes start i)) =
    opcode_index_at start (width i) + 1 + Z.of_nat (length (operands i)) * num_bytes (width i).
Proof.
  intros Hs. pose proof (opcode_index_at_spec start (width i) Hs) as (_ & E & _).
  unfold instr_bytes. rewrite length_app, Nat2Z.inj_add. cbn [length].
  rewrite Nat2Z.inj_succ, length_operand_bytes. lia.
Qed.

Lemma length_instr_bytes_ok start i :
  0 <= start -> instr_ok i ->
  start + Z.of_nat (length (instr_bytes start i)) =
    opcode_index_at start (width i) + 1 + byte_length (opcode i) (width i).
Proof.
  intros Hs (_ & Hl & _). rewrite length_instr_bytes by done. unfold byte_length, num_operands.
  by rewrite Hl.
Qed.

(** ** Writing appends the layout *)

Lemma bytes_write_source_map_entry writer pos :
  bytes (write_source_map_entry writer pos) = bytes writer.
Proof. unfold write_source_map_entry. by case_match. Qed.

Lemma bytes_write_width_prefix writer w :
  bytes (write_width_prefix writer w) = bytes writer ++ prefix_bytes (current_offset writer) w.
Proof.
  destruct w; cbn; [by rewrite app_nil_r|..]; rewrite <-app_assoc; cbn;
    do 4 f_equal; unfold current_offset; cbn; rewrite length_app; cbn; lia.
Qed.

Lemma bytes_write_operands w os writer :
  bytes (foldl (write_operand w) writer os) = bytes writer ++ operand_bytes w os.
Proof.
  revert writer. induction os as [|o os IH]; intros writer; cbn; [by rewrite app_nil_r|].
  rewrite IH. cbn. unfold write_into. by rewrite <-app_assoc.
Qed.

Lemma bytes_instruction_write w op writer os pos :
  bytes (instruction_write w op writer os pos) =
    bytes writer ++ instr_bytes (current_offset writer) {| opcode := op; width := w; operands := os |}.
Proof.
  unfold instruction_write. assert (E : forall b wr, bytes (if b : bool then
      write_source_map_entry wr pos else wr) = bytes wr).
  { intros [] wr; [apply bytes_write_source_map_entry|done]. }
  rewrite E, bytes_write_operands. cbn. rewrite bytes_write_width_prefix. unfold instr_bytes. cbn.
  by rewrite <-!app_assoc.
Qed.

(** ** Reading inverts the layout *)

Lemma read_operands_bytes w os post :
  Forall (operand_ok w) os ->
  read_operands w (length os) (operand_bytes w os ++ post) = Done os.
Proof.
  induction 1 as [|o os Ho Hos IH]; [done|]. unfold operand_bytes. cbn [length read_operands map concat].
  rewrite <-app_assoc, length_app, length_to_ne_bytes.
  rewrite drop_app_length', take_app_length' by (by rewrite length_to_ne_bytes).
  case_match eqn:E; [|apply Nat.leb_gt in E; lia].
  unfold operand_bytes in IH. rewrite IH. cbn. by rewrite from_to_ne_bytes_width.
Qed.

Lemma lookup_total_app_middle (pre : list Z) x post :
  (pre ++ x :: post) !! length pre = Some x.
Proof. by apply list_lookup_middle. Qed.

Lemma opcode_at_app pre op post index :
  index = Z.of_nat (length pre) ->
  opcode_at (pre ++ OpCode.as_u8 op :: post) index = Done op.
Proof.
  intros ->. unfold opcode_at, byte_at. rewrite Nat2Z.id, lookup_total_app_middle. cbn.
  apply OpCode.from_u8_as_u8.
Qed.

(** The opcode byte of an instruction in a buffer. *)
Lemma opcode_at_instr pre i post :
  opcode_at (pre ++ instr_bytes (Z.of_nat (length pre)) i ++ post)
    (opcode_index_at (Z.of_nat (length pre)) (width i)) = Done (opcode i).
Proof.
  unfold instr_bytes. rewrite <-app_assoc, app_assoc. cbn [app]. apply opcode_at_app.
  rewrite length_app, Nat2Z.inj_add.
  by apply opcode_index_at_spec, Nat2Z.is_nonneg.
Qed.

(** The first byte of an instruction announces its width. *)
Lemma opcode_at_start pre i post :
  opcode_at (pre ++ instr_bytes (Z.of_nat (length pre)) i ++ post) (Z.of_nat (length pre)) =
    Done match width i with
         | Narrow => opcode i | Wide => OpCode.WidePrefix | ExtraWide => OpCode.ExtraWidePrefix
         end.
Proof. unfold instr_bytes. destruct (width i); cbn [prefix_bytes app]; by apply opcode_at_app. Qed.

Lemma decode_width_and_opcode_instr pre i post :
  is_prefix (opcode i) = false ->
  decode_width_and_opcode_at_index (pre ++ instr_bytes (Z.of_nat (length pre)) i ++ post)
      (Z.of_nat (length pre)) =
    Done {| di_width := width i; di_opcode := opcode i;
            di_opcode_index := opcode_index_at (Z.of_nat (length pre)) (width i) |}.
Proof.
  intros Hp. unfold decode_width_and_opcode_at_index. rewrite opcode_at_start.
  pose proof (opcode_at_instr pre i post) as Ho.
  destruct (width i); cbn [mbind outcome_bind opcode_index_at] in *; try by rewrite Ho.
  by destruct (opcode i).
Qed.

Lemma slice_after_opcode pre i post :
  slice_from (pre ++ instr_bytes (Z.of_nat (length pre)) i ++ post)
      (opcode_index_at (Z.of_nat (length pre)) (width i) + 1) =
    Done (operand_bytes (width i) (operands i) ++ post).
Proof.
  pose proof (opcode_index_at_spec (Z.of_nat (length pre)) (width i) ltac:(lia)) as (_ & E & _).
  set (l := prefix_bytes (Z.of_nat (length pre)) (width i)) in *.
  unfold slice_from, instr_bytes. fold l.
  assert (Es : pre ++ (l ++ OpCode.as_u8 (opcode i) :: operand_bytes (width i) (operands i)) ++ post =
    (pre ++ l ++ [OpCode.as_u8 (opcode i)]) ++ operand_bytes (width i) (operands i) ++ post).
  { by rewrite <-!app_assoc. }
  rewrite Es. case_match eqn:El.
  - rewrite drop_app_length'; [done|]. rewrite !length_app. cbn. lia.
  - apply Z.leb_gt in El. rewrite !length_app in El. cbn in El. lia.
Qed.

Lemma instruction_iterator_next_instr pre i post :
  instr_ok i ->
  instruction_iterator_next (pre ++ instr_bytes (Z.of_nat (length pre)) i ++ post)
      (Z.of_nat (length pre)) =
    Done (Some (i, Z.of_nat (length pre),
      Z.of_nat (length (pre ++ instr_bytes (Z.of_nat (length pre)) i)))).
Proof.
  intros Hi. pose proof Hi as (Hp & Hl & Hos).
  rewrite (length_app pre), Nat2Z.inj_add, length_instr_bytes_ok by (done || lia).
  unfold instruction_iterator_next. case_match eqn:E.
  { apply Z.leb_le in E. rewrite !length_app in E. unfold instr_bytes in E.
    rewrite length_app in E. cbn in E. lia. }
  rewrite opcode_at_start. pose proof (opcode_at_instr pre i post) as Ho.
  pose proof (slice_after_opcode pre i post) as Hs.
  assert (Hd : decode_instruction (width i) (opcode i)
      (operand_bytes (width i) (operands i) ++ post) = Done i).
  { unfold decode_instruction. rewrite <-Hl, read_operands_bytes by done. by destruct i. }
  assert (Hr : forall w op index, w = width i -> op = opcode i ->
      index = opcode_index_at (Z.of_nat (length pre)) (width i) ->
      (stream ← slice_from (pre ++ instr_bytes (Z.of_nat (length pre)) i ++ post) (index + 1);
       instr ← decode_instruction w op stream;
       Done (Some (instr, Z.of_nat (length pre),
         index + 1 + byte_length (opcode instr) (width instr)))) =
      Done (Some (i, Z.of_nat (length pre), opcode_index_at (Z.of_nat (length pre)) (width i) + 1 +
        byte_length (opcode i) (width i)))).
  { intros ? ? ? -> -> ->. rewrite Hs. cbn. by rewrite Hd. }
  destruct (width i) eqn:Hw; cbn [mbind outcome_bind opcode_index_at] in *.
  - rewrite <-(Hr Narrow (opcode i) _ eq_refl eq_refl eq_refl). by destruct (opcode i).
  - rewrite Ho. by apply Hr.
  - rewrite Ho. by apply Hr.
Qed.

(** ** Sequences of instructions *)

Fixpoint encode (start : Z) (instrs : list Instruction) : list Z :=
  match instrs with
  | [] => []
  | i :: instrs =>
      let bs := instr_bytes start i in bs ++ encode (start + Z.of_nat (length bs)) instrs
  end.

Fixpoint with_offsets (start : Z) (instrs : list Instruction) : list (Instruction * Z) :=
  match instrs with
  | [] => []
  | i :: instrs => (i, start) :: with_offsets (start + Z.of_nat (length (instr_bytes start i))) instrs
  end.

Lemma encode_app start instrs1 instrs2 :
  encode start (instrs1 ++ instrs2) =
    encode start instrs1 ++ encode (start + Z.of_nat (length (encode start instrs1))) instrs2.
Proof.
  revert start. induction instrs1 as [|i instrs1 IH]; intros start; cbn; [by rewrite Z.add_0_r|].
  by rewrite IH, length_app, Nat2Z.inj_add, Z.add_assoc, app_assoc.
Qed.

Lemma with_offsets_app start instrs1 instrs2 :
  with_offsets start (instrs1 ++ instrs2) =
    with_offsets start instrs1 ++ with_offsets (start + Z.of_nat (length (encode start instrs1))) instrs2.
Proof.
  revert start. induction instrs1 as [|i instrs1 IH]; intros start; cbn; [by rewrite Z.add_0_r|].
  by rewrite IH, length_app, Nat2Z.inj_add, Z.add_assoc.
Qed.

Lemma length_instr_bytes_pos start i : (0 < length (instr_bytes start i))%nat.
Proof. unfold instr_bytes. rewrite length_app. cbn. lia. Qed.

Lemma length_encode_ge start instrs : (length instrs <= length (encode start instrs))%nat.
Proof.
  revert start. induction instrs as [|i instrs IH]; intros start; cbn; [lia|].
  rewrite length_app. specialize (IH (start + Z.of_nat (length (instr_bytes start i)))).
  pose proof (length_instr_bytes_pos start i). lia.
Qed.

Lemma iterator_collect_encode fuel pre instrs :
  Forall instr_ok instrs -> (length instrs < fuel)%nat ->
  instruction_iterator_collect fuel (pre ++ encode (Z.of_nat (length pre)) instrs)
      (Z.of_nat (length pre)) =
    Done (with_offsets (Z.of_nat (length pre)) instrs).
Proof.
  intros Hok. revert fuel pre. induction Hok as [|i instrs Hi His IH]; intros fuel pre Hf;
    (destruct fuel as [|fuel]; [cbn in Hf; lia|]); cbn [instruction_iterator_collect].
  - cbn. rewrite app_nil_r. unfold instruction_iterator_next. by rewrite Z.leb_refl.
  - cbn [encode]. rewrite instruction_iterator_next_instr by done. cbn [mbind outcome_bind].
    rewrite app_assoc.
    replace (Z.of_nat (length pre) + Z.of_nat (length (instr_bytes (Z.of_nat (length pre)) i)))
      with (Z.of_nat (length (pre ++ instr_bytes (Z.of_nat (length pre)) i)))
      by (rewrite length_app; lia).
    rewrite IH by (cbn in Hf; lia). cbn. by rewrite length_app, Nat2Z.inj_add.
Qed.

Lemma InstructionIterator_collect_encode instrs :
  Forall instr_ok instrs -> InstructionIterator_collect (encode 0 instrs) = Done (with_offsets 0 instrs).
Proof.
  intros His. apply (iterator_collect_encode _ []); [done|].
  pose proof (length_encode_ge 0 instrs). lia.
Qed.

(** ** Writing with the least width *)

(** What the generator asks the writer for: an opcode, extra wide operands and a position. *)
Definition emission : Type := OpCode.t * list operand * Z.

Definition emission_ok (e : emission) : Prop :=
  let '(op, os, _) := e in
  is_prefix op = false /\ length os = length (OpCode.operand_types op) /\
  Forall (operand_ok ExtraWide) os.

Definition emit (writer : BytecodeWriter) (e : emission) : BytecodeWriter :=
  let '(op, os, pos) := e in write_instruction op writer os pos.

(** The instruction that is written. *)
Definition narrowed (op : OpCode.t) (os : list operand) : Instruction :=
  let w := instruction_min_width op os in
  {| opcode := op; width := w; operands := map (operand_to_width w) os |}.

(** The values of the operands, signed or unsigned by their types. *)
Definition instruction_values (i : Instruction) : list Z :=
  zip_with (fun t o => operand_value t (width i) o) (OpCode.operand_types (opcode i)) (operands i).

Lemma instruction_min_width_fold l w :
  let f w '(t, o) := width_max (operand_min_width t ExtraWide o) w in
  width_leb w (foldl f w l) = true /\
  Forall (fun '(t, o) => width_leb (operand_min_width t ExtraWide o) (foldl f w l) = true) l.
Proof.
  intros f. revert w. induction l as [|[t o] l IH]; intros w; cbn.
  - by rewrite width_leb_refl.
  - destruct (IH (f w (t, o))) as [H1 H2]. cbn in H1.
    assert (H : width_leb (operand_min_width t ExtraWide o)
        (width_max (operand_min_width t ExtraWide o) w) = true /\
      width_leb w (width_max (operand_min_width t ExtraWide o) w) = true)
      by (by destruct (operand_min_width t ExtraWide o), w).
    split; [|constructor; [|done]]; eapply width_leb_trans; try apply H1; apply H.
Qed.

Lemma narrowed_ok op os pos : emission_ok (op, os, pos) -> instr_ok (narrowed op os).
Proof.
  intros (Hp & Hl & Ho). split_and!; [done|by cbn; rewrite length_map|].
  apply Forall_map, Forall_forall. intros o _. apply operand_to_width_ok.
Qed.

(** Narrowing loses nothing: every operand keeps its value. *)
Lemma narrowed_values op os pos :
  emission_ok (op, os, pos) ->
  instruction_values (narrowed op os) =
    instruction_values {| opcode := op; width := ExtraWide; operands := os |}.
Proof.
  intros (_ & Hl & Ho). unfold instruction_values, narrowed. cbn.
  destruct (instruction_min_width_fold (zip (OpCode.operand_types op) os) Narrow) as [_ Hw].
  fold (instruction_min_width op os) in Hw. revert Hw.
  generalize (instruction_min_width op os) as w. intros w.
  revert os Hl Ho. generalize (OpCode.operand_types op) as ts.
  induction ts as [|t ts IH]; intros [|o os] Hl Ho Hw; try done. cbn.
  apply Forall_cons in Ho as [Ho1 Ho2]. cbn in Hw. apply Forall_cons in Hw as [Hw1 Hw2].
  f_equal; [by apply operand_narrowing_keeps_value|]. apply IH; [cbn in Hl; lia|done..].
Qed.

Lemma bytes_write_instruction op writer os pos :
  bytes (write_instruction op writer os pos) =
    bytes writer ++ instr_bytes (current_offset writer) (narrowed op os).
Proof. apply bytes_instruction_write. Qed.

Lemma bytes_emit_all es writer :
  bytes (foldl emit writer es) =
    bytes writer ++ encode (current_offset writer) (map (fun '(op, os, _) => narrowed op os) es).
Proof.
  revert writer. induction es as [|[[op os] pos] es IH]; intros writer; cbn [foldl map encode];
    [by rewrite app_nil_r|].
  rewrite IH. cbn [emit]. rewrite bytes_write_instruction, <-app_assoc. do 2 f_equal.
  unfold current_offset. rewrite bytes_write_instruction, length_app, Nat2Z.inj_add. done.
Qed.

(** The offsets are the lengths of what is written before. *)
Lemma with_offsets_starts start instrs :
  (with_offsets start instrs).*2 =
    map (fun n => start + Z.of_nat (length (encode start (take n instrs)))) (seq 0 (length instrs)).
Proof.
  revert start. induction instrs as [|i instrs IH]; intros start; [done|]. cbn [with_offsets fmap list_fmap snd length seq map].
  rewrite IH, <- seq_shift, map_map. f_equal; [cbn; lia|]. apply map_ext. intros n. cbn [take encode].
  rewrite length_app. lia.
Qed.

(** The machine decodes each instruction at its offset, from operands that are aligned. *)
Definition decodes_aligned (bytecode : list Z) (i : Instruction) (start : Z) : Prop :=
  exists opcode_index stream,
    decode_width_and_opcode_at_index bytecode start =
      Done {| di_width := width i; di_opcode := opcode i; di_opcode_index := opcode_index |} /\
    slice_from bytecode (opcode_index + 1) = Done stream /\
    decode_instruction (width i) (opcode i) stream = Done i /\
    (opcode_index + 1) mod num_bytes (width i) = 0.

Lemma with_offsets_decode pre instrs :
  Forall instr_ok instrs ->
  Forall (fun '(i, start) => decodes_aligned (pre ++ encode (Z.of_nat (length pre)) instrs) i start)
    (with_offsets (Z.of_nat (length pre)) instrs).
Proof.
  intros Hok. revert pre. induction Hok as [|i instrs Hi His IH]; intros pre; cbn [encode with_offsets]; constructor.
  - destruct Hi as (Hp & Hl & Hos). eexists _, _. split; [by apply decode_width_and_opcode_instr|].
    split; [apply slice_after_opcode|]. split; [|apply opcode_index_at_spec; lia].
    unfold decode_instruction. rewrite <- Hl, read_operands_bytes by done. by destruct i.
  - replace (Z.of_nat (length pre) + Z.of_nat (length (instr_bytes (Z.of_nat (length pre)) i)))
      with (Z.of_nat (length (pre ++ instr_bytes (Z.of_nat (length pre)) i))) by (rewrite length_app; lia).
    rewrite app_assoc. apply IH.
Qed.

(** C20: A function's bytecode disassembles into exactly the instructions that were written: the
    iterator over the bytes of any sequence of typed emissions returns, in order, instructions with
    their opcodes and with the operand values they were written with, although each was narrowed
    to its own width, prefixed and padded, each with the offset at which the writer was when it was
    written; and at that offset the machine's decoder finds the same instruction, with its operands
    at an index that is a multiple of their width, which the in-place reads require. *)
Theorem disassembly_inverts_assembly (es : list emission) :
  Forall emission_ok es ->
  let bytecode := bytes (foldl emit BytecodeWriter_new es) in
  exists instrs,
    InstructionIterator_collect bytecode = Done instrs /\
    map (fun '(i, _) => (opcode i, instruction_values i)) instrs =
      map (fun '(op, os, _) =>
        (op, instruction_values {| opcode := op; width := ExtraWide; operands := os |})) es /\
    instrs.*2 = map (fun n => current_offset (foldl emit BytecodeWriter_new (take n es))) (seq 0 (length es)) /\
    Forall (fun '(i, start) => decodes_aligned bytecode i start) instrs.
Proof.
  intros Hes bytecode. set (narrow := fun '((op, os, _) : emission) => narrowed op os).
  exists (with_offsets 0 (map narrow es)).
  assert (His : Forall instr_ok (map narrow es)).
  { apply Forall_map. eapply Forall_impl; [exact Hes|]. intros [[op os] pos]. apply narrowed_ok. }
  assert (Hbytes : forall es, bytes (foldl emit BytecodeWriter_new es) = encode 0 (map narrow es))
    by (intros es'; by rewrite bytes_emit_all).
  unfold bytecode. rewrite Hbytes. split_and!.
  - by apply InstructionIterator_collect_encode.
  - clear His. generalize 0 as start.
    induction Hes as [|[[op os] pos] es He Hes IH]; intros start; [done|].
    cbn [map with_offsets]. f_equal; [|apply IH]. cbn. by rewrite (narrowed_values _ _ _ He).
  - rewrite with_offsets_starts, length_map. apply map_ext. intros n. unfold current_offset.
    by rewrite Hbytes, firstn_map.
  - by apply (with_offsets_decode []).
Qed.

(** Three instructions of the three widths, one of them throwing. *)
Lemma disassembly_inverts_assembly_witness :
  let bytecode := bytes (foldl emit BytecodeWriter_new
      [(OpCode.LoadConstant, [register_local ExtraWide 3; 300], 0);
       (OpCode.LoadImmediate, [register_local ExtraWide 0; operand_from_signed ExtraWide (-70000)], 0);
       (OpCode.Neg, [register_local ExtraWide 1; register_argument ExtraWide 0], 17)]) in
  exists instrs,
    InstructionIterator_collect bytecode = Done instrs /\
    map (fun '(i, _) => (opcode i, instruction_values i)) instrs =
      [(OpCode.LoadConstant, [-4; 300]); (OpCode.LoadImmediate, [-1; -70000]);
       (OpCode.Neg, [-2; 8])] /\
    instrs.*2 = [0; 6; 16] /\
    Forall (fun '(i, start) => decodes_aligned bytecode i start) instrs.
Proof.
  apply (disassembly_inverts_assembly
    [(OpCode.LoadConstant, [register_local ExtraWide 3; 300], 0);
     (OpCode.LoadImmediate, [register_local ExtraWide 0; operand_from_signed ExtraWide (-70000)], 0);
     (OpCode.Neg, [register_local ExtraWide 1; register_argument ExtraWide 0], 17)]).
  repeat constructor; cbn; done.
Defined.
