(* ===== verification/SourceMap.v ===== *)
(** Source positions of bytecode: [src/so2js/runtime/bytecode/source_map.rs], the lookups of a
    stack trace.

    The writer records, behind an instruction that can throw, the offset of the next instruction
    and the source position.  A lookup finds the last record that is not behind the given offset. *)
From S2P Require Import Prelude BytecodeOperand Varint VmInstruction VmInstructionCorrect.

Record SourceMapEntry : Type := {
  bytecode_offset : Z;
  source_position : Z
}.

Definition get_function_range (map : list Z) : outcome (Z * Z) :=
  '(start_pos, num_bytes) ← decode_varint map;
  rest ← slice_from map num_bytes;
  '(end_pos, _) ← decode_varint rest;
  Done (start_pos, end_pos).

(** [SourceMapIter::next] at [offset]: the entry and the next offset. *)
Definition source_map_iter_next (map : list Z) (offset : Z)
    : outcome (option (SourceMapEntry * Z)) :=
  if Z.of_nat (length map) <=? offset then Done None
  else
    rest ← slice_from map offset;
    '(bytecode_offset, num_bytes) ← decode_varint rest;
    let offset := offset + num_bytes in
    rest ← slice_from map offset;
    '(source_position, num_bytes) ← decode_varint rest;
    let offset := offset + num_bytes in
    Done (Some ({| bytecode_offset := bytecode_offset; source_position := source_position |},
                offset)).

(** [SourceMapIter::new] skips the range of the function; the iterator is its offset. *)
Definition SourceMapIter_new (map : list Z) : outcome Z :=
  next ← source_map_iter_next map 0;
  match next with
  | None => Done 0
  | Some (_, offset) => Done offset
  end.

(** The loop of [get_source_position] over the entries behind the first one. *)
Fixpoint find_source_position (fuel : nat) (map : list Z) (offset target current : Z) : outcome Z :=
  match fuel with
  | O => OutOfFuel
  | S fuel =>
      next ← source_map_iter_next map offset;
      match next with
      | None => Done current
      | Some (map_entry, offset) =>
          if target <? bytecode_offset map_entry then Done current
          else find_source_position fuel map offset target (source_position map_entry)
      end
  end.

(** Every entry takes at least two bytes. *)
Definition get_source_position (map : list Z) (target : Z) : outcome (option Z) :=
  offset ← SourceMapIter_new map;
  next ← source_map_iter_next map offset;
  match next with
  | None => Done None
  | Some (map_entry, offset) =>
      position ← find_source_position (S (length map)) map offset target
                   (source_position map_entry);
      Done (Some position)
  end.

(** ** The entries a map holds *)

Definition entry_bytes (e : SourceMapEntry) : list Z :=
  encode_varint (bytecode_offset e) ++ encode_varint (source_position e).

Definition entries_bytes (es : list SourceMapEntry) : list Z := concat (map entry_bytes es).

Definition entry_ok (e : SourceMapEntry) : Prop :=
  0 <= bytecode_offset e < 2 ^ 64 /\ 0 <= source_position e < 2 ^ 64.

(** The lookup on the entries: the position of the last one, from the first on, at or before the
    target. *)
Fixpoint lookup_entries (es : list SourceMapEntry) (target current : Z) : Z :=
  match es with
  | [] => current
  | e :: es =>
      if target <? bytecode_offset e then current else lookup_entries es target (source_position e)
  end.

Lemma length_encode_varint_pos v : 0 <= v < 2 ^ 64 -> (0 < length (encode_varint v))%nat.
Proof. intros Hv. rewrite encode_varint_eq by done. case_match; cbn; lia. Qed.

Lemma slice_from_app pre post (n : Z) :
  n = Z.of_nat (length pre) -> slice_from (pre ++ post) n = Done post.
Proof.
  intros ->. unfold slice_from. rewrite length_app.
  case_match eqn:E; [|apply Z.leb_gt in E; lia]. by rewrite Nat2Z.id, drop_app_length.
Qed.

Lemma source_map_iter_next_entry pre e post :
  entry_ok e ->
  source_map_iter_next (pre ++ entry_bytes e ++ post) (Z.of_nat (length pre)) =
    Done (Some (e, Z.of_nat (length (pre ++ entry_bytes e)))).
Proof.
  intros [Hb Hp]. unfold source_map_iter_next, entry_bytes.
  pose proof (length_encode_varint_pos _ Hb). case_match eqn:E.
  { apply Z.leb_le in E. rewrite !length_app in E. lia. }
  rewrite slice_from_app by done. rewrite <-app_assoc. cbn [mbind outcome_bind].
  rewrite decode_encode_varint by done. cbn [mbind outcome_bind].
  rewrite app_assoc, slice_from_app by (rewrite length_app; lia). cbn [mbind outcome_bind].
  rewrite decode_encode_varint by done. cbn. rewrite !length_app.
  destruct e; cbn. do 3 f_equal. lia.
Qed.

Lemma source_map_iter_next_end map offset :
  offset = Z.of_nat (length map) -> source_map_iter_next map offset = Done None.
Proof. intros ->. unfold source_map_iter_next. by rewrite Z.leb_refl. Qed.

Lemma length_entries_ge es :
  Forall entry_ok es -> (length es <= length (entries_bytes es))%nat.
Proof.
  unfold entries_bytes. induction 1 as [|e es He _ IH]; cbn [map concat length]; [lia|].
  rewrite length_app. assert (0 < length (entry_bytes e))%nat; [|lia].
  unfold entry_bytes. rewrite length_app. pose proof (length_encode_varint_pos _ (proj1 He)). lia.
Qed.

Lemma find_source_position_entries fuel pre es target current :
  Forall entry_ok es -> (length es < fuel)%nat ->
  find_source_position fuel (pre ++ entries_bytes es) (Z.of_nat (length pre)) target current =
    Done (lookup_entries es target current).
Proof.
  intros Hes. revert fuel pre current. unfold entries_bytes.
  induction Hes as [|e es He _ IH]; intros fuel pre current Hf;
    (destruct fuel as [|fuel]; [cbn in Hf; lia|]); cbn [find_source_position map concat].
  - rewrite app_nil_r. by rewrite source_map_iter_next_end.
  - rewrite source_map_iter_next_entry by done. cbn [mbind outcome_bind lookup_entries].
    case_match; [done|]. rewrite app_assoc. apply IH. cbn in Hf. lia.
Qed.

(** The lookup in the bytes of a map is the lookup in its entries. *)
Lemma get_source_position_entries h e es target :
  entry_ok h -> entry_ok e -> Forall entry_ok es ->
  get_source_position (entries_bytes (h :: e :: es)) target =
    Done (Some (lookup_entries es target (source_position e))).
Proof.
  intros Hh He Hes. unfold get_source_position, SourceMapIter_new, entries_bytes. cbn [map concat].
  pose proof (source_map_iter_next_entry [] h (entry_bytes e ++ concat (map entry_bytes es)) Hh) as E.
  cbn [app length] in E. change (Z.of_nat 0) with 0 in E. rewrite E. cbn [mbind outcome_bind].
  rewrite source_map_iter_next_entry by done. cbn [mbind outcome_bind].
  rewrite app_assoc. fold (entries_bytes es). pose proof (length_entries_ge _ Hes).
  rewrite find_source_position_entries; [done|done|]. rewrite !length_app. lia.
Qed.

(** ** The entries the writer records *)

(** The entry of an instruction, if it records one. *)
Definition recorded (writer : BytecodeWriter) (e : emission) : list SourceMapEntry :=
  let '(op, _, pos) := e in
  if OpCode.can_throw op && negb ((pos =? NO_POS) || (pos =? last_pos writer))
  then [{| bytecode_offset := current_offset (emit writer e); source_position := pos |}] else [].

Fixpoint recorded_all (writer : BytecodeWriter) (es : list emission) : list SourceMapEntry :=
  match es with
  | [] => []
  | e :: es => recorded writer e ++ recorded_all (emit writer e) es
  end.

(** The fields of the writer that an instruction leaves to its source map entry. *)
Lemma instruction_write_before_entry w op writer os :
  let wr := foldl (write_operand w) (write_opcode (write_width_prefix writer w) op) os in
  source_map wr = source_map writer /\ last_pos wr = last_pos writer.
Proof.
  assert (Hp : source_map (write_opcode (write_width_prefix writer w) op) = source_map writer /\
    last_pos (write_opcode (write_width_prefix writer w) op) = last_pos writer) by (by destruct w).
  cbn zeta. revert Hp. generalize (write_opcode (write_width_prefix writer w) op) as wr.
  induction os as [|o os IH]; intros wr Hp; cbn; [done|]. by apply IH.
Qed.

Lemma emit_source_map writer e :
  let '(op, _, pos) := e in
  source_map (emit writer e) = source_map writer ++ entries_bytes (recorded writer e) /\
  last_pos (emit writer e) =
    if OpCode.can_throw op && negb (pos =? NO_POS) then pos else last_pos writer.
Proof.
  destruct e as [[op os] pos]. unfold recorded, entries_bytes. cbn [emit].
  unfold current_offset. rewrite bytes_write_instruction.
  unfold write_instruction, instruction_write. set (w := instruction_min_width op os).
  destruct (instruction_write_before_entry w op writer (map (operand_to_width w) os)) as [Hs Hl].
  set (wr := foldl _ _ _) in *.
  assert (Hb : bytes wr = bytes writer ++ instr_bytes (current_offset writer) (narrowed op os)).
  { pose proof (bytes_write_instruction op writer os NO_POS) as Hb.
    unfold write_instruction, instruction_write in Hb. fold w wr in Hb.
    destruct (OpCode.can_throw op); [|done]. by rewrite bytes_write_source_map_entry in Hb. }
  destruct (OpCode.can_throw op); cbn [andb]; [|by rewrite app_nil_r, Hs, Hl].
  unfold write_source_map_entry. rewrite Hl.
  destruct (Z.eqb_spec pos NO_POS); cbn [orb negb]; [by rewrite app_nil_r, Hs, Hl|].
  destruct (Z.eqb_spec pos (last_pos writer)) as [->|]; cbn [negb]; [by rewrite app_nil_r, Hs, Hl|].
  unfold write_source_map_varint, current_offset, entry_bytes. cbn. rewrite Hs, Hb.
  by rewrite app_nil_r, <-app_assoc.
Qed.

Lemma emit_all_source_map es writer :
  source_map (foldl emit writer es) = source_map writer ++ entries_bytes (recorded_all writer es).
Proof.
  revert writer. unfold entries_bytes. induction es as [|e es IH]; intros writer; cbn [foldl recorded_all].
  - by rewrite app_nil_r.
  - rewrite IH. pose proof (emit_source_map writer e) as He. destruct e as [[op os] pos].
    destruct He as [-> _]. unfold entries_bytes. by rewrite map_app, concat_app, app_assoc.
Qed.

(** The entries recorded behind a writer that keeps its offsets in range: they lie strictly
    behind its current offset, and a later instruction only appends. *)
Lemma current_offset_emit writer e : current_offset writer < current_offset (emit writer e).
Proof.
  destruct e as [[op os] pos]. unfold current_offset. cbn [emit].
  rewrite bytes_write_instruction, length_app.
  pose proof (length_instr_bytes_pos (Z.of_nat (length (bytes writer))) (narrowed op os)).
  unfold current_offset. lia.
Qed.

Lemma current_offset_emit_all es writer :
  current_offset writer <= current_offset (foldl emit writer es).
Proof.
  revert writer. induction es as [|e es IH]; intros writer; cbn; [lia|].
  pose proof (IH (emit writer e)). pose proof (current_offset_emit writer e). lia.
Qed.

Definition position_ok (e : emission) : Prop := 0 <= e.2 < 2 ^ 64.

Lemma recorded_all_ok es writer :
  Forall position_ok es -> current_offset (foldl emit writer es) < 2 ^ 64 ->
  Forall (fun e => entry_ok e /\ current_offset writer < bytecode_offset e) (recorded_all writer es).
Proof.
  intros Hes. revert writer. induction Hes as [|e es He _ IH]; intros writer Hl; [constructor|].
  cbn in Hl |- *. pose proof (current_offset_emit writer e) as Hc.
  pose proof (current_offset_emit_all es (emit writer e)) as Hc'.
  apply Forall_app. split.
  - destruct e as [[op os] pos]. unfold recorded. case_match; [|constructor].
    constructor; [|constructor]. split; [split|]; cbn [bytecode_offset source_position].
    + unfold current_offset in *. lia.
    + apply He.
    + done.
  - eapply Forall_impl; [by apply IH|]. cbn. intros x [Hx ?]. split; [done|lia].
Qed.

(** Entries behind the target do not change a lookup. *)
Lemma lookup_entries_app es1 es2 target current :
  Forall (fun e => bytecode_offset e <= target) es1 ->
  Forall (fun e => target < bytecode_offset e) es2 ->
  lookup_entries (es1 ++ es2) target current = default current (source_position <$> last es1).
Proof.
  intros H1 H2. revert current. induction H1 as [|e es1 He H1 IH]; intros current; cbn.
  - destruct H2 as [|e es2 He H2]; cbn; [done|]. case_match eqn:E; [done|]. apply Z.ltb_ge in E. lia.
  - case_match eqn:E; [apply Z.ltb_lt in E; lia|]. rewrite IH, last_cons. by destruct (last es1).
Qed.

(** The last recorded position is the [last_pos] of the writer, unless nothing was recorded. *)
Lemma last_recorded es writer :
  last_pos (foldl emit writer es) =
    default (last_pos writer) (source_position <$> last (recorded_all writer es)).
Proof.
  revert writer. induction es as [|e es IH]; intros writer; cbn [foldl recorded_all]; [done|].
  rewrite IH. pose proof (emit_source_map writer e) as He. destruct e as [[op os] pos].
  destruct He as [_ ->]. rewrite last_app. destruct (last (recorded_all _ es)); cbn; [done|].
  destruct (OpCode.can_throw op); cbn; [|done].
  destruct (Z.eqb_spec pos NO_POS); cbn; [done|].
  destruct (Z.eqb_spec pos (last_pos writer)) as [->|]; cbn; done.
Qed.

Lemma recorded_all_app es1 es2 writer :
  recorded_all writer (es1 ++ es2) =
    recorded_all writer es1 ++ recorded_all (foldl emit writer es1) es2.
Proof.
  revert writer. induction es1 as [|e es1 IH]; intros writer; cbn; [done|].
  by rewrite IH, app_assoc.
Qed.

Lemma recorded_all_before es writer :
  Forall (fun e => bytecode_offset e <= current_offset (foldl emit writer es))
    (recorded_all writer es).
Proof.
  revert writer. induction es as [|e es IH]; intros writer; cbn; [constructor|].
  apply Forall_app. split; [|apply IH]. destruct e as [[op os] pos]. unfold recorded.
  case_match; [|constructor]. constructor; [|constructor]. cbn. apply current_offset_emit_all.
Qed.

(** C25: A stack trace finds the position of the instruction that threw.  For any sequence of
    instructions of a function, written behind the header with the range of the function, and any
    throwing instruction of it that has a source position, the lookup of the offset behind that
    instruction - the program counter while it executes - returns that position, although runs of
    equal positions are recorded once. *)
Theorem source_position_of_throwing_instruction (range_start range_end : Z) (es1 es2 : list emission)
    (op : OpCode.t) (os : list operand) (pos : Z) :
  let es := es1 ++ (op, os, pos) :: es2 in
  let writer := write_source_map_header BytecodeWriter_new range_start range_end in
  0 <= range_start < 2 ^ 64 -> 0 <= range_end < 2 ^ 64 ->
  Forall position_ok es -> current_offset (foldl emit writer es) < 2 ^ 64 ->
  OpCode.can_throw op = true -> pos <> NO_POS ->
  get_source_position (source_map (foldl emit writer es))
    (current_offset (foldl emit writer (es1 ++ [(op, os, pos)]))) = Done (Some pos).
Proof.
  intros es writer Hs He Hes Hl Ht Hp.
  set (w' := foldl emit writer (es1 ++ [(op, os, pos)])).
  assert (Ees : es = (es1 ++ [(op, os, pos)]) ++ es2) by (unfold es; by rewrite <-app_assoc).
  pose proof (recorded_all_ok es writer Hes Hl) as Hok.
  assert (Hbehind : Forall (fun e => entry_ok e /\ current_offset w' < bytecode_offset e)
      (recorded_all w' es2)).
  { apply recorded_all_ok; [|unfold w'; by rewrite <-foldl_app, <-Ees].
    rewrite Ees in Hes. by apply Forall_app in Hes as [_ Hes]. }
  assert (Elast : last_pos w' = pos).
  { unfold w'. rewrite foldl_app. cbn [foldl].
    pose proof (emit_source_map (foldl emit writer es1) (op, os, pos)) as [_ ->].
    rewrite Ht. by destruct (Z.eqb_spec pos NO_POS). }
  rewrite emit_all_source_map. rewrite Ees, recorded_all_app in Hok |- *. fold w' in Hok |- *.
  pose proof (last_recorded (es1 ++ [(op, os, pos)]) writer) as Hr. fold w' in Hr.
  pose proof (recorded_all_before (es1 ++ [(op, os, pos)]) writer) as Hb. fold w' in Hb.
  set (r1 := recorded_all writer (es1 ++ [(op, os, pos)])) in *. rewrite Elast in Hr.
  destruct r1 as [|e1 r1]; [by cbn in Hr|].
  assert (Eh : source_map writer =
    entry_bytes {| bytecode_offset := range_start; source_position := range_end |}) by done.
  rewrite Eh. change (entry_bytes ?h ++ entries_bytes ?l) with (entries_bytes (h :: l)).
  cbn [app]. apply Forall_cons in Hok as [[He1 _] Hok]. rewrite get_source_position_entries; [|done|done|].
  - do 2 f_equal. apply Forall_cons in Hb as [_ Hb].
    rewrite lookup_entries_app; [|done|by eapply Forall_impl; [apply Hbehind|]; intros x []].
    rewrite Hr, last_cons. by destruct (last r1).
  - eapply Forall_impl; [exact Hok|]. by intros x [].
Qed.

(** Three throwing instructions with two positions, looked up at the last but one. *)
Lemma source_position_of_throwing_instruction_witness :
  let r i := register_local ExtraWide i in
  let es := [(OpCode.Neg, [r 0; r 1], 17); (OpCode.Add, [r 0; r 1; r 300], 170);
             (OpCode.Neg, [r 0; r 1], 170); (OpCode.LoadTrue, [r 0], 0);
             (OpCode.Neg, [r 0; r 1], 17)] in
  let writer := write_source_map_header BytecodeWriter_new 10 300 in
  get_source_position (source_map (foldl emit writer es))
    (current_offset (foldl emit writer (take 3 es))) = Done (Some 170).
Proof.
  apply (source_position_of_throwing_instruction 10 300
    [(OpCode.Neg, [register_local ExtraWide 0; register_local ExtraWide 1], 17);
     (OpCode.Add, [register_local ExtraWide 0; register_local ExtraWide 1;
                   register_local ExtraWide 300], 170)]
    [(OpCode.LoadTrue, [register_local ExtraWide 0], 0);
     (OpCode.Neg, [register_local ExtraWide 0; register_local ExtraWide 1], 17)]
    OpCode.Neg [register_local ExtraWide 0; register_local ExtraWide 1] 170);
    try done; repeat constructor; done.
Defined.
