(* ===== verification/Loc.v ===== *)
(** Lines and columns of source positions: [src/so2js/parser/loc.rs].

    The line starts of a file are computed once; a position is mapped to its line by a binary
    search among them.  The reference is the walk over the text that counts lines and columns. *)
From S2P Require Import Prelude.

Definition NEWLINE : Z := 10.

(** The loop of [calculate_line_offsets] from [pos] on: the offsets it pushes. *)
Fixpoint line_offsets_from (fuel : nat) (source : list Z) (pos : Z) : outcome (list Z) :=
  match fuel with
  | O => OutOfFuel
  | S fuel =>
      if pos <=? Z.of_nat (length source) then
        match list_find (fun byte => byte = NEWLINE) (drop (Z.to_nat pos) source) with
        | None => Done []
        | Some (newline_offset, _) =>
            let pos := pos + (Z.of_nat newline_offset + 1) in
            rest ← line_offsets_from fuel source pos; Done (wrap32 pos :: rest)
        end
      else Panicked
  end.

(** Every iteration but the last consumes a byte. *)
Definition calculate_line_offsets (source : list Z) : outcome (list Z) :=
  rest ← line_offsets_from (S (length source)) source 0; Done (0 :: rest).

(** The loop of [find_largest_offset_less_than_or_equal]: its [lo] at the end. *)
Fixpoint binary_search (fuel : nat) (target : Z) (line_offsets : list Z) (lo hi : Z) : outcome Z :=
  match fuel with
  | O => OutOfFuel
  | S fuel =>
      if lo <? hi then
        let mid := (lo + hi) / 2 in
        offset ← unwrap (line_offsets !! Z.to_nat mid);
        if offset <? wrap64 (target + 1)
        then binary_search fuel target line_offsets (mid + 1) hi
        else binary_search fuel target line_offsets lo mid
      else Done lo
  end.

Definition find_largest_offset_less_than_or_equal (target : Z) (line_offsets : list Z)
    : outcome Z :=
  lo ← binary_search (S (length line_offsets)) target line_offsets 0
         (Z.of_nat (length line_offsets));
  Done (wrap64 (lo - 1)).

Definition find_line_col_for_pos (pos : Z) (line_offsets : list Z) : outcome (Z * Z) :=
  line ← find_largest_offset_less_than_or_equal pos line_offsets;
  start ← unwrap (line_offsets !! Z.to_nat line);
  Done (line + 1, pos - start + 1).

(** The reference: walk over the first [n] bytes from a line and column. *)
Fixpoint walk_line_col (source : list Z) (n : nat) (line col : Z) : Z * Z :=
  match n, source with
  | S n, byte :: source =>
      if decide (byte = NEWLINE) then walk_line_col source n (line + 1) 1
      else walk_line_col source n line (col + 1)
  | _, _ => (line, col)
  end.

(** ** Lemmas *)

(** The line starts behind the first one of a text that begins at [base]. *)
Fixpoint line_starts (base : Z) (source : list Z) : list Z :=
  match source with
  | [] => []
  | byte :: source =>
      if decide (byte = NEWLINE) then (base + 1) :: line_starts (base + 1) source
      else line_starts (base + 1) source
  end.

Lemma line_starts_bounds base source :
  Forall (fun o => base < o <= base + Z.of_nat (length source)) (line_starts base source).
Proof.
  revert base. induction source as [|b source IH]; intros base; cbn [line_starts length]; [done|].
  assert (H : Forall (fun o => base < o <= base + Z.of_nat (S (length source)))
      (line_starts (base + 1) source)).
  { eapply Forall_impl; [apply IH|]. cbn. lia. }
  case_decide; [|done]. constructor; [lia|done].
Qed.

(** The loop finds the newlines one by one. *)
Lemma line_starts_find base source :
  line_starts base source =
    match list_find (fun byte => byte = NEWLINE) source with
    | None => []
    | Some (i, _) =>
        let pos := base + (Z.of_nat i + 1) in pos :: line_starts pos (drop (S i) source)
    end.
Proof.
  revert base. induction source as [|b source IH]; intros base; [done|]. cbn [line_starts list_find].
  case_decide; [done|]. rewrite IH. destruct (list_find _ source) as [[i x]|]; cbn; [|done].
  replace (base + 1 + (Z.of_nat i + 1)) with (base + (Z.of_nat (S i) + 1)) by lia. done.
Qed.

Lemma list_find_lt {A} (P : A -> Prop) `{!forall x, Decision (P x)} l i x :
  list_find P l = Some (i, x) -> (i < length l)%nat.
Proof. intros (Hx & _)%list_find_Some. by eapply lookup_lt_Some. Qed.

Lemma line_offsets_from_starts fuel source (n : nat) :
  Z.of_nat (length source) <= u32_max -> (n <= length source)%nat -> (length source - n < fuel)%nat ->
  line_offsets_from fuel source (Z.of_nat n) = Done (line_starts (Z.of_nat n) (drop n source)).
Proof.
  intros Hs. revert n. induction fuel as [|fuel IH]; intros n Hn Hf; [lia|].
  cbn [line_offsets_from]. case_match eqn:E; [|apply Z.leb_gt in E; lia].
  rewrite line_starts_find, Nat2Z.id. destruct (list_find _ (drop n source)) as [[i x]|] eqn:El; [|done].
  apply list_find_lt in El. rewrite length_drop in El.
  replace (Z.of_nat n + (Z.of_nat i + 1)) with (Z.of_nat (n + S i)) by lia.
  rewrite IH by lia. cbn. rewrite wrap32_small by lia. by rewrite drop_drop.
Qed.

Lemma calculate_line_offsets_starts source :
  Z.of_nat (length source) <= u32_max ->
  calculate_line_offsets source = Done (0 :: line_starts 0 source).
Proof.
  intros Hs. unfold calculate_line_offsets.
  rewrite (line_offsets_from_starts _ source 0) by lia. by rewrite drop_0.
Qed.

(** A binary search in a list whose first [k] elements are the ones at most the target. *)
Lemma binary_search_finds fuel target l k lo hi :
  0 <= target < usize_max -> (k <= length l)%nat ->
  (forall i o, l !! i = Some o -> o <= target <-> (i < k)%nat) ->
  0 <= lo <= Z.of_nat k -> Z.of_nat k <= hi <= Z.of_nat (length l) -> hi - lo < Z.of_nat fuel ->
  binary_search fuel target l lo hi = Done (Z.of_nat k).
Proof.
  intros Ht Hk Hl. revert lo hi. induction fuel as [|fuel IH]; intros lo hi Hlo Hhi Hf; [lia|].
  cbn [binary_search]. case_match eqn:E; [apply Z.ltb_lt in E|apply Z.ltb_ge in E; f_equal; lia].
  assert (Hm : lo <= (lo + hi) / 2 < hi) by div_lia.
  destruct (lookup_lt_is_Some_2 l (Z.to_nat ((lo + hi) / 2))) as [o Ho]; [lia|].
  pose proof (Hl _ _ Ho) as Hko. rewrite Ho. cbn [unwrap mbind outcome_bind].
  rewrite wrap64_small by (unfold usize_max in *; lia).
  destruct (Z.ltb_spec o (target + 1)); apply IH; lia.
Qed.

(** The walk ends on the line of the last line start at or before the position. *)
Lemma walk_line_col_starts source (n : nat) line base start :
  (n <= length source)%nat -> start <= base ->
  let '(ln, col) := walk_line_col source n line (base - start + 1) in
  let before := filter (fun o => o <= base + Z.of_nat n) (line_starts base source) in
  ln = line + Z.of_nat (length before) /\
  col = base + Z.of_nat n - default start (last before) + 1.
Proof.
  revert source line base start. induction n as [|n IH]; intros source line base start Hn Hb.
  - destruct (walk_line_col source 0 line _) as [ln col] eqn:E.
    assert (E' : (line, base - start + 1) = (ln, col)) by (rewrite <-E; by destruct source).
    injection E' as <- <-. cbn zeta.
    assert (Ef : filter (fun o => o <= base + Z.of_nat 0) (line_starts base source) = []).
    { pose proof (line_starts_bounds base source) as Hbd. rewrite Forall_forall in Hbd.
      apply elem_of_nil_inv. intros o [Ho Hin]%list_elem_of_filter.
      specialize (Hbd _ Hin). cbn in Hbd. lia. }
    rewrite Ef. cbn. lia.
  - destruct source as [|b source]; [cbn in Hn; lia|]. cbn in Hn. cbn [walk_line_col line_starts].
    case_decide.
    + specialize (IH source (line + 1) (base + 1) (base + 1) ltac:(lia) ltac:(lia)).
      replace (base + 1 - (base + 1) + 1) with 1 in IH by lia.
      destruct (walk_line_col source n (line + 1) 1) as [ln col]. cbn zeta in *.
      replace (base + Z.of_nat (S n)) with (base + 1 + Z.of_nat n) by lia.
      rewrite filter_cons_True by lia. rewrite last_cons. cbn [length].
      destruct IH as [-> ->]. split; [lia|]. by destruct (last _).
    + specialize (IH source line (base + 1) start ltac:(lia) ltac:(lia)).
      replace (base + 1 - start + 1) with (base - start + 1 + 1) in IH by lia.
      destruct (walk_line_col source n line (base - start + 1 + 1)) as [ln col]. cbn zeta in *.
      by replace (base + Z.of_nat (S n)) with (base + 1 + Z.of_nat n) by lia.
Qed.

Lemma line_starts_sorted base source : StronglySorted Z.lt (line_starts base source).
Proof.
  revert base. induction source as [|b source IH]; intros base; cbn; [constructor|].
  case_decide; [|done]. constructor; [done|].
  eapply Forall_impl; [apply line_starts_bounds|]. cbn. lia.
Qed.

(** In a sorted list the elements at most a bound are a prefix. *)
Lemma sorted_at_most_prefix (t : Z) l :
  StronglySorted Z.lt l ->
  filter (fun o => o <= t) l `prefix_of` l /\
  forall i o, l !! i = Some o -> o <= t <-> Z.of_nat i < Z.of_nat (length (filter (fun o => o <= t) l)).
Proof.
  induction 1 as [|x l Hl [IHp IH] Hx]; [split; [done|]; by intros []|].
  destruct (decide (x <= t)).
  - rewrite filter_cons_True by done. split; [by apply prefix_cons|].
    intros [|i] o Ho; cbn in *; [simplify_eq; lia|]. rewrite (IH i o Ho). lia.
  - rewrite filter_cons_False by done.
    assert (E : filter (fun o => o <= t) l = []).
    { rewrite Forall_forall in Hx. apply elem_of_nil_inv. intros o [Ho Hin]%list_elem_of_filter.
      specialize (Hx _ Hin). lia. }
    rewrite E in *. split; [apply prefix_nil|].
    intros [|i] o Ho; cbn in *; [simplify_eq; lia|]. rewrite (IH i o Ho). lia.
Qed.

(** The lookup in the offsets of the line starts. *)
Lemma find_line_col_starts pos starts :
  0 <= pos < usize_max -> Forall (fun o => 0 < o) starts -> StronglySorted Z.lt starts ->
  Z.of_nat (length starts) < usize_max ->
  let before := filter (fun o => o <= pos) starts in
  find_line_col_for_pos pos (0 :: starts) =
    Done (Z.of_nat (length before) + 1, pos - default 0 (last before) + 1).
Proof.
  intros Hp Hpos Hs Hlen before. destruct (sorted_at_most_prefix pos starts Hs) as [[rest Er] Hi].
  fold before in Er, Hi.
  unfold find_line_col_for_pos, find_largest_offset_less_than_or_equal.
  assert (Hle : (length before <= length starts)%nat) by (rewrite Er, length_app; lia).
  rewrite (binary_search_finds _ _ _ (S (length before))); [|done|cbn; lia| |cbn; lia..].
  2: { intros [|i] o Ho; cbn in *; [simplify_eq; lia|]. rewrite (Hi i o Ho). lia. }
  cbn [mbind outcome_bind]. rewrite wrap64_small by lia.
  replace (Z.of_nat (S (length before)) - 1) with (Z.of_nat (length before)) by lia.
  rewrite Nat2Z.id.
  assert (El : (0 :: starts) !! length before = Some (default 0 (last before))).
  { destruct before as [|b before'] eqn:Eb; [done|].
    rewrite last_lookup. cbn [length pred].
    rewrite Er. cbn [app]. rewrite lookup_cons. cbn.
    change (b :: before' ++ rest) with ((b :: before') ++ rest).
    rewrite lookup_app_l by (cbn; lia).
    destruct (lookup_lt_is_Some_2 (b :: before') (length before')) as [x Hx]; [cbn; lia|].
    by rewrite Hx. }
  rewrite El. done.
Qed.

(** C29: The line and column that a stack trace reports for a position, found by binary search
    among the precomputed line starts, are the ones of the plain walk over the text that counts
    newlines, for every position of a source file of less than four gigabytes. *)
Theorem line_col_is_the_walk (source : list Z) (pos : Z) :
  Z.of_nat (length source) <= u32_max -> 0 <= pos <= Z.of_nat (length source) ->
  (offsets ← calculate_line_offsets source; find_line_col_for_pos pos offsets) =
    Done (walk_line_col source (Z.to_nat pos) 1 1).
Proof.
  intros Hs Hp. rewrite calculate_line_offsets_starts by done. cbn [mbind outcome_bind].
  pose proof (line_starts_bounds 0 source) as Hb.
  rewrite find_line_col_starts.
  - pose proof (walk_line_col_starts source (Z.to_nat pos) 1 0 0 ltac:(lia) ltac:(lia)) as Hw.
    replace (0 - 0 + 1) with 1 in Hw by lia. rewrite Z2Nat.id, Z.add_0_l in Hw by lia.
    destruct (walk_line_col source (Z.to_nat pos) 1 1) as [ln col]. cbn zeta in Hw.
    destruct Hw as [-> ->]. f_equal. apply pair_equal_spec. split; lia.
  - unfold usize_max, u32_max in *. lia.
  - eapply Forall_impl; [apply Hb|]. cbn. lia.
  - apply line_starts_sorted.
  - assert (Hl : forall base s, (length (line_starts base s) <= length s)%nat).
    { intros base s. revert base. induction s as [|b s IH]; intros base; cbn; [lia|].
      specialize (IH (base + 1)). case_decide; cbn; lia. }
    specialize (Hl 0 source). unfold usize_max, u32_max in *. lia.
Qed.

(** The second line of a text of three. *)
Lemma line_col_is_the_walk_witness :
  (offsets ← calculate_line_offsets [97; 10; 98; 99; 10; 100]; find_line_col_for_pos 3 offsets) =
    Done (2, 2).
Proof. apply line_col_is_the_walk; vm_compute; intuition discriminate. Defined.
