(* ===== verification/ConstantTable.v ===== *)
(** The constant table of a function: [src/so2js/runtime/bytecode/constant_table_builder.rs] and
    [constant_table.rs].

    The builder hands out indices in three ranges, so that the first constants can be named by
    one-byte operands and the next ones by two-byte operands.  Equal constants share an index.  A
    forward jump reserves an entry of a known width before its offset is known, and either commits
    the offset or gives the reservation back. *)
From S2P Require Import Prelude Float64 Value BytecodeOperand.

(** ** Errors of the bytecode generator *)

Inductive EmitError : Type :=
| ConstantTableTooLarge | TooManyFunctionParameters | TooManyCallArguments | TooManyRegisters
| TooManyScopes | IndexTooLarge | IntegerTooLarge | AllocFailure.

Inductive EmitResult (A : Type) : Type :=
| EmitOk (a : A)
| EmitErr (e : EmitError).
Arguments EmitOk {A} a.
Arguments EmitErr {A} e.

#[global] Instance EmitResult_ret : MRet EmitResult := fun A a => EmitOk a.
#[global] Instance EmitResult_bind : MBind EmitResult := fun A B f r =>
  match r with EmitOk a => f a | EmitErr e => EmitErr e end.

Lemma emit_bind_ok {A B} (f : A -> EmitResult B) (r : EmitResult A) (b : B) :
  (r ≫= f) = EmitOk b <-> exists a, r = EmitOk a /\ f a = EmitOk b.
Proof. destruct r; cbn; naive_solver. Qed.

(** ** Entries *)

(** Strings and heap items are named by the addresses of the objects.  A heap item added with a
    dangling root, a placeholder that is patched in the finished table, is [None]. *)
Inductive ConstantTableEntry : Type :=
| EntryString (string : Z)
| EntryHeapItem (item : option Z) (key : Z)
| EntryDouble (value : Value)
| EntryBytecodeOffset (offset : Z).

(** What [PartialEq] and [Hash] look at. *)
Inductive ConstantKey : Type :=
| KeyString (string : Z) | KeyHeapItem (key : Z) | KeyDouble (bits : Z) | KeyBytecodeOffset (offset : Z).

#[global] Instance ConstantKey_eq_dec : EqDecision ConstantKey.
Proof. solve_decision. Defined.
#[global] Instance ConstantKey_countable : Countable ConstantKey.
Proof.
  refine (inj_countable'
    (fun k => match k with
      | KeyString s => (0, s) | KeyHeapItem k => (1, k) | KeyDouble b => (2, b)
      | KeyBytecodeOffset o => (3, o) end)
    (fun '(t, x) => if t =? 0 then KeyString x else if t =? 1 then KeyHeapItem x
      else if t =? 2 then KeyDouble x else KeyBytecodeOffset x) _).
  by intros [].
Defined.

Definition entry_key (e : ConstantTableEntry) : ConstantKey :=
  match e with
  | EntryString string => KeyString string
  | EntryHeapItem _ key => KeyHeapItem key
  | EntryDouble value => KeyDouble (as_raw_bits value)
  | EntryBytecodeOffset offset => KeyBytecodeOffset offset
  end.

(** [to_value]: the stored word, [None] behind a dangling root, and whether it is a value or a raw
    offset. *)
Definition to_value (e : ConstantTableEntry) : option Value * bool :=
  match e with
  | EntryString string => (Some (heap_item string), true)
  | EntryHeapItem item _ => (heap_item <$> item, true)
  | EntryDouble value => (Some value, true)
  | EntryBytecodeOffset offset => (Some (from_raw_bits (wrap64 offset)), false)
  end.

(** ** The builder *)

Record ConstantTableBuilder : Type := {
  constants : gmap ConstantKey (ConstantTableEntry * Z);
  narrow_allocated : Z;
  narrow_reserved : Z;
  wide_allocated : Z;
  wide_reserved : Z;
  extra_wide_allocated : Z;
  extra_wide_reserved : Z;
  duplicates : list (ConstantTableEntry * Z);
  num_heap_items : Z
}.

Definition NUM_NARROW_ENTRIES : Z := UNSIGNED_MAX Narrow + 1.
Definition FIRST_WIDE_INDEX : Z := NUM_NARROW_ENTRIES.
Definition NUM_WIDE_ENTRIES : Z := UNSIGNED_MAX Wide - FIRST_WIDE_INDEX + 1.
Definition FIRST_EXTRA_WIDE_INDEX : Z := NUM_NARROW_ENTRIES + NUM_WIDE_ENTRIES.
Definition NUM_EXTRA_WIDE_ENTRIES : Z := UNSIGNED_MAX ExtraWide - FIRST_EXTRA_WIDE_INDEX + 1.

Definition ConstantTableBuilder_new : ConstantTableBuilder := {|
  constants := ∅;
  narrow_allocated := 0; narrow_reserved := 0;
  wide_allocated := 0; wide_reserved := 0;
  extra_wide_allocated := 0; extra_wide_reserved := 0;
  duplicates := [];
  num_heap_items := 0
|}.

(** [self.constants.insert(key, index)]: an equal key that is there is kept. *)
Definition map_insert (m : gmap ConstantKey (ConstantTableEntry * Z)) (e : ConstantTableEntry)
    (index : Z) : gmap ConstantKey (ConstantTableEntry * Z) :=
  match m !! entry_key e with
  | Some (e', _) => <[entry_key e := (e', index)]> m
  | None => <[entry_key e := (e, index)]> m
  end.

Definition set_constants (b : ConstantTableBuilder) m : ConstantTableBuilder := {|
  constants := m;
  narrow_allocated := narrow_allocated b; narrow_reserved := narrow_reserved b;
  wide_allocated := wide_allocated b; wide_reserved := wide_reserved b;
  extra_wide_allocated := extra_wide_allocated b; extra_wide_reserved := extra_wide_reserved b;
  duplicates := duplicates b; num_heap_items := num_heap_items b |}.

Definition push_duplicate (b : ConstantTableBuilder) (d : ConstantTableEntry * Z)
    : ConstantTableBuilder := {|
  constants := constants b;
  narrow_allocated := narrow_allocated b; narrow_reserved := narrow_reserved b;
  wide_allocated := wide_allocated b; wide_reserved := wide_reserved b;
  extra_wide_allocated := extra_wide_allocated b; extra_wide_reserved := extra_wide_reserved b;
  duplicates := duplicates b ++ [d]; num_heap_items := num_heap_items b |}.

(** [*_allocated += 1] and [*_reserved += n] in [u32] arithmetic. *)
Definition add_allocated (w : WidthEnum) (n : Z) (b : ConstantTableBuilder)
    : ConstantTableBuilder := {|
  constants := constants b;
  narrow_allocated :=
    if decide (w = Narrow) then wrap32 (narrow_allocated b + n) else narrow_allocated b;
  narrow_reserved := narrow_reserved b;
  wide_allocated := if decide (w = Wide) then wrap32 (wide_allocated b + n) else wide_allocated b;
  wide_reserved := wide_reserved b;
  extra_wide_allocated :=
    if decide (w = ExtraWide) then wrap32 (extra_wide_allocated b + n) else extra_wide_allocated b;
  extra_wide_reserved := extra_wide_reserved b;
  duplicates := duplicates b; num_heap_items := num_heap_items b |}.

Definition add_reserved (w : WidthEnum) (n : Z) (b : ConstantTableBuilder)
    : ConstantTableBuilder := {|
  constants := constants b;
  narrow_allocated := narrow_allocated b;
  narrow_reserved :=
    if decide (w = Narrow) then wrap32 (narrow_reserved b + n) else narrow_reserved b;
  wide_allocated := wide_allocated b;
  wide_reserved := if decide (w = Wide) then wrap32 (wide_reserved b + n) else wide_reserved b;
  extra_wide_allocated := extra_wide_allocated b;
  extra_wide_reserved :=
    if decide (w = ExtraWide) then wrap32 (extra_wide_reserved b + n) else extra_wide_reserved b;
  duplicates := duplicates b; num_heap_items := num_heap_items b |}.

Definition next_index_width (b : ConstantTableBuilder) : EmitResult WidthEnum :=
  if wrap32 (narrow_allocated b + narrow_reserved b) <? NUM_NARROW_ENTRIES then EmitOk Narrow
  else if wrap32 (wide_allocated b + wide_reserved b) <? NUM_WIDE_ENTRIES then EmitOk Wide
  else if wrap32 (extra_wide_allocated b + extra_wide_reserved b) <? NUM_EXTRA_WIDE_ENTRIES
  then EmitOk ExtraWide
  else EmitErr ConstantTableTooLarge.

(** The next index of a range. *)
Definition next_index (b : ConstantTableBuilder) (w : WidthEnum) : Z :=
  match w with
  | Narrow => narrow_allocated b
  | Wide => wrap32 (wide_allocated b + FIRST_WIDE_INDEX)
  | ExtraWide => wrap32 (extra_wide_allocated b + FIRST_EXTRA_WIDE_INDEX)
  end.

Definition insert_if_missing (b : ConstantTableBuilder) (key : ConstantTableEntry)
    : EmitResult (Z * ConstantTableBuilder) :=
  match constants b !! entry_key key with
  | Some (_, value) => EmitOk (value, b)
  | None =>
      w ← next_index_width b;
      let index := next_index b w in
      let b := add_allocated w 1 b in
      EmitOk (index, set_constants b (map_insert (constants b) key index))
  end.

Definition reserve_entry (b : ConstantTableBuilder) : EmitResult (WidthEnum * ConstantTableBuilder) :=
  next_index_width ← next_index_width b;
  EmitOk (next_index_width, add_reserved next_index_width 1 b).

Definition remove_reserved (b : ConstantTableBuilder) (w : WidthEnum) : ConstantTableBuilder :=
  add_reserved w (-1) b.

(** The branches of [commit_reserved_bytecode_offset] for a narrow and for a wide reservation. *)
Definition commit_inline_width (b : ConstantTableBuilder) (w : WidthEnum) (offset : Z)
    : Z * ConstantTableBuilder :=
  let entry_key' := EntryBytecodeOffset offset in
  let b := add_reserved w (-1) b in
  let allocate b :=
    let index := next_index b w in
    (index, add_allocated w 1 (set_constants b (map_insert (constants b) entry_key' index))) in
  match constants b !! entry_key entry_key' with
  | Some (_, index) =>
      if width_leb (min_width_for_unsigned index) w then (index, b)
      else allocate (push_duplicate b (entry_key', index))
  | None => allocate b
  end.

Definition commit_reserved_bytecode_offset (b : ConstantTableBuilder) (w : WidthEnum) (offset : Z)
    : Z * ConstantTableBuilder :=
  match w with
  | Narrow => commit_inline_width b Narrow offset
  | Wide => commit_inline_width b Wide offset
  | ExtraWide =>
      match constants b !! entry_key (EntryBytecodeOffset offset) with
      | Some (_, index) => (index, b)
      | None =>
          let index := next_index b ExtraWide in
          (index, add_allocated ExtraWide 1 (add_reserved ExtraWide (-1) b))
      end
  end.

Definition add_string (b : ConstantTableBuilder) (string : Z) : EmitResult (Z * ConstantTableBuilder) :=
  insert_if_missing b (EntryString string).

Definition add_heap_item (b : ConstantTableBuilder) (item : option Z) : EmitResult (Z * ConstantTableBuilder) :=
  let key := num_heap_items b in
  let b := {|
    constants := constants b;
    narrow_allocated := narrow_allocated b; narrow_reserved := narrow_reserved b;
    wide_allocated := wide_allocated b; wide_reserved := wide_reserved b;
    extra_wide_allocated := extra_wide_allocated b; extra_wide_reserved := extra_wide_reserved b;
    duplicates := duplicates b; num_heap_items := wrap32 (num_heap_items b + 1) |} in
  insert_if_missing b (EntryHeapItem item key).

Definition add_double (b : ConstantTableBuilder) (d : f64) : EmitResult (Z * ConstantTableBuilder) :=
  insert_if_missing b (EntryDouble (from_f64 d)).

Definition add_bytecode_offset (b : ConstantTableBuilder) (offset : Z)
    : EmitResult (Z * ConstantTableBuilder) :=
  insert_if_missing b (EntryBytecodeOffset offset).

(** ** The finished table *)

Record ConstantTable : Type := {
  table_constants : list Value;
  table_metadata : list Z
}.

Definition calculate_metadata_size (num_constants : Z) : Z := (num_constants + 7) / 8.

Definition set_metadata (metadata : list Z) (index : Z) (is_value : bool) : outcome (list Z) :=
  if is_value then Done metadata
  else
    let byte_index := index / 8 in
    let bit_mask := Z.shiftl 1 (index mod 8) in
    byte ← unwrap (metadata !! Z.to_nat byte_index);
    Done (<[Z.to_nat byte_index := Z.lor byte bit_mask]> metadata).

(** One iteration of [iter_constants!]; a slot that is not yet filled is a dangling handle. *)
Definition fill_constant (state : outcome (list (option Value) * list Z))
    (constant : ConstantTableEntry * Z) : outcome (list (option Value) * list Z) :=
  '(slots, metadata) ← state;
  let '(entry, index) := constant in
  let '(value, is_value) := to_value entry in
  if index <? Z.of_nat (length slots) then
    metadata ← set_metadata metadata index is_value;
    Done (<[Z.to_nat index := value]> slots, metadata)
  else Panicked.

Definition num_constants (b : ConstantTableBuilder) : Z :=
  if 0 <? extra_wide_allocated b then wrap32 (FIRST_EXTRA_WIDE_INDEX + extra_wide_allocated b)
  else if 0 <? wide_allocated b then wrap32 (FIRST_WIDE_INDEX + wide_allocated b)
  else narrow_allocated b.

(** [finish]: no table when no constant was added; the dangling slots become [undefined]. *)
Definition finish (b : ConstantTableBuilder) : outcome (option ConstantTable) :=
  if (extra_wide_allocated b <=? 0) && (wide_allocated b <=? 0) && (narrow_allocated b <=? 0)
  then Done None
  else
    let slots := replicate (Z.to_nat (num_constants b)) None in
    let metadata := replicate (Z.to_nat (calculate_metadata_size (num_constants b))) 0 in
    '(slots, metadata) ←
      foldl fill_constant (Done (slots, metadata))
        ((map_to_list (constants b)).*2 ++ duplicates b);
    Done (Some {| table_constants := map (default undefined) slots; table_metadata := metadata |}).

Definition get_constant (t : ConstantTable) (index : Z) : outcome Value :=
  unwrap (table_constants t !! Z.to_nat index).

Definition set_constant (t : ConstantTable) (index : Z) (value : Value) : outcome ConstantTable :=
  if index <? Z.of_nat (length (table_constants t))
  then Done {| table_constants := <[Z.to_nat index := value]> (table_constants t);
               table_metadata := table_metadata t |}
  else Panicked.

(** The metadata is read through a raw pointer. *)
Definition is_value (t : ConstantTable) (index : Z) : outcome bool :=
  let byte_index := index / 8 in
  let bit_mask := Z.shiftl 1 (index mod 8) in
  byte ← deref (table_metadata t !! Z.to_nat byte_index);
  Done (Z.land byte bit_mask =? 0).
