(* ===== verification/ConstantTableCorrect.v ===== *)
(** Correctness of the constant table builder: every index it hands out denotes its constant in
    the finished table, and the metadata of the table tells values from raw offsets. *)
From S2P Require Import Prelude Float64 Value BytecodeOperand ConstantTable.

(** ** The invariant of the builder *)

(** The entries that will be written to the table, with their indices. *)
Definition slots (b : ConstantTableBuilder) : list (ConstantTableEntry * Z) :=
  (map_to_list (constants b)).*2 ++ duplicates b.

Definition holds (b : ConstantTableBuilder) (e : ConstantTableEntry) (i : Z) : Prop :=
  (e, i) ∈ slots b.

Definition allocated_index (b : ConstantTableBuilder) (i : Z) : Prop :=
  0 <= i < narrow_allocated b \/
  FIRST_WIDE_INDEX <= i < FIRST_WIDE_INDEX + wide_allocated b \/
  FIRST_EXTRA_WIDE_INDEX <= i < FIRST_EXTRA_WIDE_INDEX + extra_wide_allocated b.

Definition allocated (b : ConstantTableBuilder) (w : WidthEnum) : Z :=
  match w with
  | Narrow => narrow_allocated b | Wide => wide_allocated b | ExtraWide => extra_wide_allocated b
  end.
Definition reserved (b : ConstantTableBuilder) (w : WidthEnum) : Z :=
  match w with
  | Narrow => narrow_reserved b | Wide => wide_reserved b | ExtraWide => extra_wide_reserved b
  end.
Definition num_entries (w : WidthEnum) : Z :=
  match w with
  | Narrow => NUM_NARROW_ENTRIES | Wide => NUM_WIDE_ENTRIES | ExtraWide => NUM_EXTRA_WIDE_ENTRIES
  end.
Definition first_index (w : WidthEnum) : Z :=
  match w with
  | Narrow => 0 | Wide => FIRST_WIDE_INDEX | ExtraWide => FIRST_EXTRA_WIDE_INDEX
  end.

Record builder_inv (b : ConstantTableBuilder) : Prop := {
  inv_counters : forall w, 0 <= allocated b w /\ 0 <= reserved b w /\
    allocated b w + reserved b w <= num_entries w;
  inv_keys : forall k e i, constants b !! k = Some (e, i) -> entry_key e = k;
  inv_heap_items : 0 <= num_heap_items b /\
    forall k x, constants b !! KeyHeapItem k = Some x -> k < num_heap_items b;
  inv_allocated : forall e i, holds b e i -> allocated_index b i;
  inv_distinct : NoDup (slots b).*2
}.

Lemma range_constants :
  NUM_NARROW_ENTRIES = 256 /\ FIRST_WIDE_INDEX = 256 /\ NUM_WIDE_ENTRIES = 65280 /\
  FIRST_EXTRA_WIDE_INDEX = 65536 /\ NUM_EXTRA_WIDE_ENTRIES = 4294901760.
Proof. done. Qed.

(** Evaluates the bounds of the ranges in arithmetic goals. *)
Ltac const_lia :=
  pose proof range_constants as (?E1 & ?E2 & ?E3 & ?E4 & ?E5);
  cbn [num_entries first_index allocated reserved] in *; width_lia.

Lemma builder_inv_new : builder_inv ConstantTableBuilder_new.
Proof.
  split.
  - intros []; cbn [allocated reserved ConstantTableBuilder_new narrow_allocated narrow_reserved
      wide_allocated wide_reserved extra_wide_allocated extra_wide_reserved]; const_lia.
  - intros k e i. cbn. by rewrite lookup_empty.
  - split; [done|]. intros k x. cbn. by rewrite lookup_empty.
  - intros e i H. unfold holds, slots in H. cbn in H. rewrite map_to_list_empty in H.
    by apply elem_of_nil in H.
  - unfold slots. cbn. rewrite map_to_list_empty. constructor.
Qed.

Lemma allocated_index_spec b i :
  allocated_index b i <-> exists w, first_index w <= i < first_index w + allocated b w.
Proof.
  unfold allocated_index. split.
  - intros [H|[H|H]]; [exists Narrow|exists Wide|exists ExtraWide]; done.
  - intros [[] H]; cbn in H; tauto.
Qed.

(** Counters of three ranges, updated at one of them. *)
Lemma allocated_add b w n w' :
  allocated (add_allocated w n b) w' =
    if decide (w = w') then wrap32 (allocated b w' + n) else allocated b w'.
Proof. by destruct w, w'. Qed.
Lemma reserved_add b w n w' :
  reserved (add_reserved w n b) w' =
    if decide (w = w') then wrap32 (reserved b w' + n) else reserved b w'.
Proof. by destruct w, w'. Qed.
Lemma reserved_add_allocated b w n w' : reserved (add_allocated w n b) w' = reserved b w'.
Proof. by destruct w'. Qed.
Lemma allocated_add_reserved b w n w' : allocated (add_reserved w n b) w' = allocated b w'.
Proof. by destruct w'. Qed.

Lemma num_entries_u32 w : 0 <= num_entries w <= u32_max.
Proof. destruct w; unfold u32_max; const_lia. Qed.

Lemma counters_small b w :
  builder_inv b -> 0 <= allocated b w <= u32_max /\ 0 <= reserved b w <= u32_max.
Proof. intros H. pose proof (inv_counters b H w). pose proof (num_entries_u32 w). lia. Qed.

Lemma next_index_spec b w :
  builder_inv b -> next_index b w = wrap32 (allocated b w + first_index w).
Proof.
  intros H. destruct w; cbn [next_index allocated first_index]; [|done..].
  rewrite Z.add_0_r, wrap32_small; [done|]. apply (counters_small b Narrow H).
Qed.

(** When a range has room, its next index is free and fits the width of the range. *)
Lemma next_index_free b w :
  builder_inv b -> allocated b w < num_entries w ->
  next_index b w = first_index w + allocated b w /\ ~ allocated_index b (next_index b w) /\
  0 <= next_index b w /\ width_leb (min_width_for_unsigned (next_index b w)) w = true.
Proof.
  intros H Hr. assert (E : next_index b w = first_index w + allocated b w).
  { rewrite next_index_spec by done. rewrite wrap32_small; [lia|].
    pose proof (inv_counters b H w). unfold u32_max. destruct w; const_lia. }
  assert (Hn : ~ allocated_index b (next_index b w)).
  { rewrite E, allocated_index_spec. intros [w' Hw']. pose proof (inv_counters b H w').
    pose proof (inv_counters b H w). destruct w, w'; const_lia. }
  pose proof (inv_counters b H w). split_and!; [done..| |]; rewrite E; [destruct w; const_lia|].
  apply min_width_for_unsigned_spec; destruct w; const_lia.
Qed.

Lemma next_index_width_room b w :
  builder_inv b -> next_index_width b = EmitOk w -> allocated b w + reserved b w < num_entries w.
Proof.
  intros H Hw. pose proof (inv_counters b H Narrow). pose proof (inv_counters b H Wide).
  pose proof (inv_counters b H ExtraWide). unfold next_index_width in Hw.
  cbn [allocated reserved] in *.
  rewrite !wrap32_small in Hw by (unfold u32_max; const_lia).
  repeat case_match; simplify_eq; by apply Z.ltb_lt.
Qed.

(** ** Allocation adds one entry *)

Lemma slots_add_allocated w n b : slots (add_allocated w n b) = slots b.
Proof. done. Qed.
Lemma slots_add_reserved w n b : slots (add_reserved w n b) = slots b.
Proof. done. Qed.

(** A new key adds its entry. *)
Lemma slots_insert_new b e i :
  constants b !! entry_key e = None ->
  slots (set_constants b (map_insert (constants b) e i)) ≡ₚ (e, i) :: slots b.
Proof.
  intros Hn. unfold slots, set_constants, map_insert. cbn. rewrite Hn.
  by rewrite map_to_list_insert by done.
Qed.

(** A key whose entry was moved to the duplicates is entered again. *)
Lemma slots_insert_moved b e i j :
  constants b !! entry_key e = Some (e, j) ->
  slots (set_constants (push_duplicate b (e, j)) (map_insert (constants b) e i)) ≡ₚ
    (e, i) :: slots b.
Proof.
  intros Hs. unfold slots, set_constants, push_duplicate, map_insert. cbn. rewrite Hs.
  rewrite <-(insert_delete_id (constants b) (entry_key e) (e, j)) at 2 by done.
  rewrite <-insert_delete_eq, !map_to_list_insert by (by rewrite lookup_delete_eq). cbn.
  rewrite (Permutation_app_comm (duplicates b)). cbn.
  rewrite <-Permutation_middle. constructor. cbn. solve_Permutation.
Qed.

(** What a step of the builder keeps: the constants that were added stay where they are, and new
    ones go to indices that were not allocated. *)
Definition extends (b b' : ConstantTableBuilder) : Prop :=
  builder_inv b' /\ (forall e i, holds b e i -> holds b' e i) /\
  (forall w, allocated b w <= allocated b' w) /\
  (forall e i, holds b' e i -> holds b e i \/ ~ allocated_index b i).

Lemma allocated_index_mono b b' i :
  (forall w, allocated b w <= allocated b' w) -> allocated_index b i -> allocated_index b' i.
Proof.
  rewrite !allocated_index_spec. intros H [w Hw]. exists w. specialize (H w). lia.
Qed.

Lemma extends_refl b : builder_inv b -> extends b b.
Proof. intros H. split_and!; [done..|]. tauto. Qed.
Lemma extends_trans b1 b2 b3 : extends b1 b2 -> extends b2 b3 -> extends b1 b3.
Proof.
  intros (_ & H1 & Ha1 & Hn1) (H2 & H3 & Ha2 & Hn2). split_and!; [done|auto| |].
  - intros w. by transitivity (allocated b2 w).
  - intros e i Hi. destruct (Hn2 e i Hi) as [Hi2|Hi2]; [auto|]. right. contradict Hi2.
    by apply (allocated_index_mono b1).
Qed.

(** The heap items of the builder are below its counter. *)
Definition heap_key_ok (b : ConstantTableBuilder) (e : ConstantTableEntry) : Prop :=
  match e with EntryHeapItem _ key => key < num_heap_items b | _ => True end.

(** Entering [e] at the next index of a range with room. *)
Lemma allocate_extends b b' e w :
  builder_inv b -> allocated b w + reserved b w < num_entries w ->
  (forall w', allocated b' w' = allocated (add_allocated w 1 b) w') ->
  (forall w', reserved b' w' = reserved b w') ->
  constants b' = <[entry_key e := (e, next_index b w)]> (constants b) ->
  heap_key_ok b e -> num_heap_items b' = num_heap_items b ->
  slots b' ≡ₚ (e, next_index b w) :: slots b ->
  extends b b' /\ holds b' e (next_index b w).
Proof.
  intros H Hroom Ha Hr Hc Hk Hh Hs.
  destruct (next_index_free b w H) as (E & Hfree & H0 & _);
    [pose proof (inv_counters b H w); lia|].
  assert (Ha' : forall w', allocated b' w' = if decide (w = w') then allocated b w' + 1 else allocated b w').
  { intros w'. rewrite Ha, allocated_add. case_decide; [subst w'|done].
    rewrite wrap32_small; [done|]. pose proof (inv_counters b H w). pose proof (num_entries_u32 w). lia. }
  assert (Hin : holds b' e (next_index b w)) by (unfold holds; rewrite Hs; left).
  assert (Hext : forall e i, holds b e i -> holds b' e i).
  { intros e' i Hi. unfold holds. rewrite Hs. by right. }
  assert (Hm : forall w', allocated b w' <= allocated b' w') by (intros w'; rewrite Ha'; case_decide; lia).
  split; [|done]. split_and!; [|done|done|]; [split|].
  - intros w'. rewrite Ha', Hr. pose proof (inv_counters b H w'). case_decide; [subst w'|]; lia.
  - intros k e' j. rewrite Hc, lookup_insert_Some.
    intros [[<- Ej]|[_ Hj]]; [by simplify_eq|by eapply inv_keys].
  - rewrite Hh. split; [apply (inv_heap_items b H)|]. intros k x. rewrite Hc, lookup_insert_Some.
    intros [[Ek _]|[_ Hj]]; [|by eapply (inv_heap_items b H)]. destruct e; cbn in *; by simplify_eq.
  - intros e' i Hi. unfold holds in Hi. rewrite Hs in Hi.
    apply elem_of_cons in Hi as [[= -> ->]|Hi].
    + rewrite E. apply allocated_index_spec. exists w. rewrite Ha', decide_True by done.
      pose proof (inv_counters b H w). lia.
    + apply (allocated_index_mono b); [done|]. by apply (inv_allocated b H e').
  - rewrite Hs. cbn. constructor; [|apply (inv_distinct b H)].
    intros ([e' i] & Ei & Hi)%list_elem_of_fmap. cbn in Ei. subst i.
    by apply Hfree, (inv_allocated b H e').
  - intros e' i Hi. unfold holds in Hi. rewrite Hs in Hi.
    apply elem_of_cons in Hi as [[= -> ->]|Hi]; [by right|by left].
Qed.

Lemma holds_lookup b k e i : constants b !! k = Some (e, i) -> holds b e i.
Proof.
  intros H. apply elem_of_app. left. apply list_elem_of_fmap. exists (k, (e, i)).
  split; [done|]. by apply elem_of_map_to_list.
Qed.

Lemma insert_if_missing_spec b e i b' :
  builder_inv b -> heap_key_ok b e -> insert_if_missing b e = EmitOk (i, b') ->
  extends b b' /\ (forall w, reserved b' w = reserved b w) /\
  num_heap_items b' = num_heap_items b /\
  exists e', holds b' e' i /\ entry_key e' = entry_key e /\
    (constants b !! entry_key e = None -> e' = e).
Proof.
  intros H Hh Hi. unfold insert_if_missing in Hi.
  destruct (constants b !! entry_key e) as [[e' j]|] eqn:El.
  - simplify_eq. split_and!; [by apply extends_refl|done..|]. exists e'.
    split_and!; [by eapply holds_lookup|by eapply inv_keys|done].
  - apply emit_bind_ok in Hi as (w & Hw & Hi). simplify_eq.
    apply next_index_width_room in Hw; [|done].
    set (b' := set_constants _ _).
    assert (Hc : constants b' = <[entry_key e := (e, next_index b w)]> (constants b)).
    { unfold b', map_insert. cbn. by rewrite El. }
    assert (Hx : extends b b' /\ holds b' e (next_index b w)).
    { apply (allocate_extends b b' e w); [done|done|by intros []|by intros []|done..|].
      by apply (slots_insert_new (add_allocated w 1 b)). }
    destruct Hx as [Hx Hin]. split_and!; [done|by intros []|done|]. by exists e.
Qed.

(** Values and offsets are their own key. *)
Lemma entry_key_inj e1 e2 :
  entry_key e1 = entry_key e2 -> (match e1 with EntryHeapItem _ _ => False | _ => True end) -> e1 = e2.
Proof.
  destruct e1, e2; cbn; intros E Hn; simplify_eq; try done.
  destruct value, value0. cbn in *. by subst.
Qed.

Lemma insert_if_missing_holds b e i b' :
  builder_inv b -> (match e with EntryHeapItem _ _ => False | _ => True end) ->
  insert_if_missing b e = EmitOk (i, b') -> extends b b' /\ holds b' e i.
Proof.
  intros H Hn Hi. destruct (insert_if_missing_spec b e i b' H) as (Hx & _ & _ & e' & Hin & Ek & _);
    [by destruct e|done|].
  split; [done|]. symmetry in Ek. apply entry_key_inj in Ek; [|done]. by subst.
Qed.

(** Changes of the reservations alone. *)
Lemma add_reserved_extends b w n :
  builder_inv b -> 0 <= reserved b w + n -> allocated b w + (reserved b w + n) <= num_entries w ->
  extends b (add_reserved w n b).
Proof.
  intros H H0 Hn. split_and!; [|done|intros w'; by rewrite allocated_add_reserved|by left].
  split; try apply H.
  - intros w'. rewrite allocated_add_reserved, reserved_add. pose proof (inv_counters b H w').
    case_decide; [subst w'|done]. rewrite wrap32_small; [lia|]. pose proof (num_entries_u32 w). lia.
Qed.

Lemma reserved_add_small b w n w' :
  builder_inv b -> 0 <= reserved b w + n -> allocated b w + (reserved b w + n) <= num_entries w ->
  reserved (add_reserved w n b) w' = reserved b w' + if decide (w = w') then n else 0.
Proof.
  intros H H0 Hn. rewrite reserved_add. case_decide; [subst w'|lia].
  rewrite wrap32_small; [done|]. pose proof (num_entries_u32 w). pose proof (inv_counters b H w). lia.
Qed.

Lemma reserve_entry_spec b w b' :
  builder_inv b -> reserve_entry b = EmitOk (w, b') ->
  extends b b' /\ num_heap_items b' = num_heap_items b /\
  forall w', reserved b' w' = reserved b w' + if decide (w = w') then 1 else 0.
Proof.
  intros H Hr. unfold reserve_entry in Hr. apply emit_bind_ok in Hr as (w' & Hw & Hr). simplify_eq.
  apply next_index_width_room in Hw; [|done]. pose proof (inv_counters b H w).
  split_and!; [apply add_reserved_extends; [done|lia..]|done|].
  intros w'. apply reserved_add_small; [done|lia..].
Qed.

Lemma remove_reserved_spec b w :
  builder_inv b -> 0 < reserved b w ->
  extends b (remove_reserved b w) /\
  forall w', reserved (remove_reserved b w) w' = reserved b w' - if decide (w = w') then 1 else 0.
Proof.
  intros H Hr. pose proof (inv_counters b H w).
  split; [apply add_reserved_extends; [done|lia..]|]. intros w'. unfold remove_reserved.
  rewrite reserved_add_small by (done || lia). case_decide; lia.
Qed.

(** The allocating end of a commit: [b1] is the builder without the reservation and [b2] has the
    displaced entry among its duplicates. *)
Lemma commit_allocates b b1 b2 w offset :
  extends b b1 ->
  allocated b1 w + reserved b1 w < num_entries w ->
  (forall w', reserved b1 w' = reserved b w' - if decide (w = w') then 1 else 0) ->
  num_heap_items b1 = num_heap_items b -> num_heap_items b2 = num_heap_items b1 ->
  (forall w', allocated b2 w' = allocated b1 w' /\ reserved b2 w' = reserved b1 w') ->
  map_insert (constants b2) (EntryBytecodeOffset offset) (next_index b2 w) =
    <[entry_key (EntryBytecodeOffset offset) := (EntryBytecodeOffset offset, next_index b1 w)]>
      (constants b1) ->
  slots (set_constants b2 (map_insert (constants b2) (EntryBytecodeOffset offset) (next_index b2 w)))
    ≡ₚ (EntryBytecodeOffset offset, next_index b1 w) :: slots b1 ->
  let b' := add_allocated w 1 (set_constants b2
    (map_insert (constants b2) (EntryBytecodeOffset offset) (next_index b2 w))) in
  extends b b' /\ num_heap_items b' = num_heap_items b /\
  holds b' (EntryBytecodeOffset offset) (next_index b1 w) /\
  width_leb (min_width_for_unsigned (next_index b1 w)) w = true /\
  forall w', reserved b' w' = reserved b w' - if decide (w = w') then 1 else 0.
Proof.
  intros Hx1 Hroom Hres Hh1 Hh2 Hcnt Hins Hs b'. pose proof (proj1 Hx1) as H1.
  destruct (next_index_free b1 w H1) as (_ & _ & _ & Hfit);
    [pose proof (inv_counters b1 H1 w); lia|].
  destruct (allocate_extends b1 b' (EntryBytecodeOffset offset) w) as [Hx' Hin]; try done.
  - intros w'. unfold b'. rewrite !allocated_add. destruct (Hcnt w') as [E _].
    by destruct w'; cbn in *; rewrite E.
  - intros w'. destruct (Hcnt w') as [_ E]. rewrite <-E. by destruct w'.
  - split_and!; [by eapply extends_trans|by cbn; rewrite Hh2|done|done|].
    intros w'. rewrite <-Hres. destruct (Hcnt w') as [_ E]. rewrite <-E. by destruct w'.
Qed.

(** A narrow or wide reservation is committed to an index of that width that denotes the offset. *)
Lemma commit_inline_width_spec b w offset i b' :
  builder_inv b -> 0 < reserved b w -> commit_inline_width b w offset = (i, b') ->
  extends b b' /\ num_heap_items b' = num_heap_items b /\ holds b' (EntryBytecodeOffset offset) i /\
  width_leb (min_width_for_unsigned i) w = true /\
  forall w', reserved b' w' = reserved b w' - if decide (w = w') then 1 else 0.
Proof.
  intros H Hr Hc. destruct (remove_reserved_spec b w H Hr) as [Hx1 Hres].
  unfold commit_inline_width in Hc. fold (remove_reserved b w) in Hc.
  set (b1 := remove_reserved b w) in *. pose proof (proj1 Hx1) as H1.
  assert (Hroom : allocated b1 w + reserved b1 w < num_entries w).
  { pose proof (inv_counters b H w). rewrite Hres, decide_True by done.
    unfold b1, remove_reserved. rewrite allocated_add_reserved. lia. }
  destruct (next_index_free b1 w H1) as (_ & _ & _ & Hfit);
    [pose proof (inv_counters b1 H1 w); lia|].
  change (constants b) with (constants b1) in Hc.
  destruct (constants b1 !! entry_key (EntryBytecodeOffset offset)) as [[e j]|] eqn:El.
  - pose proof (inv_keys b1 H1 _ _ _ El) as Ek. symmetry in Ek. apply entry_key_inj in Ek; [|done].
    subst e. case_match eqn:Ew; simplify_eq.
    { split_and!; [done|done|by eapply holds_lookup|done|done]. }
    apply (commit_allocates b b1 (push_duplicate b1 (EntryBytecodeOffset offset, j))); try done.
    + unfold map_insert. cbn [push_duplicate constants]. by rewrite El.
    + exact (slots_insert_moved b1 _ (next_index b1 w) j El).
  - simplify_eq. apply (commit_allocates b b1 b1); try done;
      [unfold map_insert; by rewrite El|]. by apply slots_insert_new.
Qed.

(** ** The finished table *)

Definition metadata_bit (metadata : list Z) (i : Z) : bool :=
  Z.testbit (default 0 (metadata !! Z.to_nat (i / 8))) (i mod 8).

Lemma land_bit_zero x k : 0 <= k -> (Z.land x (Z.shiftl 1 k) =? 0) = negb (Z.testbit x k).
Proof.
  intros Hk. assert (E : forall j, 0 <= j -> Z.testbit (Z.land x (Z.shiftl 1 k)) j = Z.testbit x j && (k =? j)).
  { intros j Hj. rewrite Z.land_spec, Z.shiftl_1_l, Z.pow2_bits_eqb by done. done. }
  destruct (Z.testbit x k) eqn:Ex; cbn.
  - apply Z.eqb_neq. intros E0. specialize (E k Hk). rewrite E0, Z.bits_0, Ex, Z.eqb_refl in E. done.
  - apply Z.eqb_eq, Z.bits_inj'. intros j Hj. rewrite E, Z.bits_0 by done.
    destruct (Z.eqb_spec k j) as [<-|]; [by rewrite Ex|by rewrite andb_false_r].
Qed.

Lemma set_metadata_spec metadata i flag :
  0 <= i -> i / 8 < Z.of_nat (length metadata) ->
  exists metadata', set_metadata metadata i flag = Done metadata' /\
    length metadata' = length metadata /\
    forall j, 0 <= j ->
      metadata_bit metadata' j = metadata_bit metadata j || (negb flag && (i =? j)).
Proof.
  intros Hi Hl. unfold set_metadata. destruct flag; cbn [negb andb].
  { exists metadata. split_and!; [done..|]. intros. by rewrite orb_false_r. }
  assert (H8 : 0 <= i / 8) by (apply Z.div_pos; lia).
  destruct (lookup_lt_is_Some_2 metadata (Z.to_nat (i / 8))) as [byte Hb]; [lia|].
  rewrite Hb. eexists. split; [done|]. rewrite length_insert. split; [done|]. intros j Hj.
  unfold metadata_bit. destruct (decide (j / 8 = i / 8)) as [E|E].
  - rewrite E, list_lookup_insert_eq by lia. rewrite Hb. cbn.
    rewrite Z.lor_spec, Z.shiftl_1_l, Z.pow2_bits_eqb by (apply Z.mod_pos_bound; lia). f_equal.
    destruct (Z.eqb_spec i j) as [->|]; [by rewrite Z.eqb_refl|]. apply Z.eqb_neq. div_lia.
  - rewrite list_lookup_insert_ne; [|assert (0 <= j / 8) by (apply Z.div_pos; lia); lia].
    destruct (Z.eqb_spec i j) as [->|]; [done|]. by rewrite orb_false_r.
Qed.

Lemma fill_constants_spec l cs ms :
  (forall e i, (e, i) ∈ l -> 0 <= i < Z.of_nat (length cs)) ->
  Z.of_nat (length ms) = calculate_metadata_size (Z.of_nat (length cs)) -> NoDup l.*2 ->
  exists cs' ms', foldl fill_constant (Done (cs, ms)) l = Done (cs', ms') /\
    length cs' = length cs /\
    (forall e i, (e, i) ∈ l -> cs' !! Z.to_nat i = Some (to_value e).1 /\
      metadata_bit ms' i = metadata_bit ms i || negb (to_value e).2) /\
    (forall i, 0 <= i -> i ∉ l.*2 ->
      cs' !! Z.to_nat i = cs !! Z.to_nat i /\ metadata_bit ms' i = metadata_bit ms i) /\
    length ms' = length ms.
Proof.
  revert cs ms. induction l as [|[e i] l IH]; intros cs ms Hr Hm Hd.
  { exists cs, ms. split_and!; try done. intros e i Hi. by apply elem_of_nil in Hi. }
  cbn [fmap list_fmap] in Hd. apply NoDup_cons in Hd as [Hi Hd].
  pose proof (Hr e i ltac:(left)) as Hib. unfold calculate_metadata_size in Hm.
  destruct (set_metadata_spec ms i (to_value e).2) as (ms1 & Hset & Hl1 & Hbit); [lia|div_lia|].
  set (cs1 := <[Z.to_nat i := (to_value e).1]> cs).
  assert (El : length cs1 = length cs) by apply length_insert.
  assert (Ef : fill_constant (Done (cs, ms)) (e, i) = Done (cs1, ms1)).
  { unfold fill_constant. cbn. destruct (to_value e) as [v f] eqn:Ev. cbn in Hset.
    case_match eqn:Elt; [|apply Z.ltb_ge in Elt; lia]. by rewrite Hset. }
  destruct (IH cs1 ms1) as (cs' & ms' & Hf & Hlen & Hin & Hout & Hl').
  { intros e' i' Hi'. rewrite El. apply (Hr e'). by right. }
  { unfold calculate_metadata_size. by rewrite El, Hl1. }
  { done. }
  exists cs', ms'. cbn [foldl]. rewrite Ef. split_and!; [done|lia| | |lia].
  - intros e' i' [[= -> ->]|Hi']%elem_of_cons.
    + destruct (Hout i) as [-> ->]; [lia|done|]. unfold cs1.
      rewrite list_lookup_insert_eq by lia. split; [done|].
      rewrite Hbit, Z.eqb_refl, andb_true_r by lia. done.
    + destruct (Hin _ _ Hi') as [-> ->]. split; [done|]. f_equal.
      assert (i' <> i) by (intros ->; apply Hi, list_elem_of_fmap; by exists (e', i)).
      rewrite Hbit by (pose proof (Hr e' i' ltac:(by right)); lia).
      destruct (Z.eqb_spec i i'); [done|]. by rewrite andb_false_r, orb_false_r.
  - intros j Hj Hnin. cbn [fmap list_fmap] in Hnin. apply not_elem_of_cons in Hnin as [Hne Hnin].
    cbn in Hne. destruct (Hout j Hj Hnin) as [-> ->]. unfold cs1.
    rewrite list_lookup_insert_ne by lia. split; [done|]. rewrite Hbit by done.
    destruct (Z.eqb_spec i j); [congruence|]. by rewrite andb_false_r, orb_false_r.
Qed.

(** All indices are inside the table. *)
Lemma allocated_index_in_table b i :
  builder_inv b -> extra_wide_allocated b < NUM_EXTRA_WIDE_ENTRIES -> allocated_index b i ->
  0 <= i < num_constants b.
Proof.
  intros H He Hi. unfold num_constants. pose proof (inv_counters b H Narrow).
  pose proof (inv_counters b H Wide). pose proof (inv_counters b H ExtraWide).
  cbn [allocated reserved] in *. rewrite !wrap32_small by (unfold u32_max; const_lia).
  unfold allocated_index in Hi.
  destruct (Z.ltb_spec 0 (extra_wide_allocated b)); [const_lia|].
  destruct (Z.ltb_spec 0 (wide_allocated b)); const_lia.
Qed.

(** The word of the finished table at an allocated index, and what the metadata says of it: the
    entry that holds the index, or [undefined] when none does. *)
Lemma finish_slot b i :
  builder_inv b -> extra_wide_allocated b < NUM_EXTRA_WIDE_ENTRIES -> allocated_index b i ->
  exists t, finish b = Done (Some t) /\
    (forall e, holds b e i ->
      get_constant t i = Done (default undefined (to_value e).1) /\
      is_value t i = Done (to_value e).2) /\
    ((forall e, ~ holds b e i) -> get_constant t i = Done undefined /\ is_value t i = Done true).
Proof.
  intros H He Hi. pose proof (allocated_index_in_table b i H He Hi) as Hb.
  unfold finish. case_match eqn:E0.
  { rewrite !andb_true_iff, !Z.leb_le in E0. unfold allocated_index in Hi. lia. }
  set (cs := replicate (Z.to_nat (num_constants b)) (None : option Value)).
  set (ms := replicate (Z.to_nat (calculate_metadata_size (num_constants b))) 0).
  assert (Hlc : Z.of_nat (length cs) = num_constants b) by (unfold cs; rewrite length_replicate; lia).
  destruct (fill_constants_spec (slots b) cs ms) as (cs' & ms' & Hf & Hlen & Hin & Hout & Hlm).
  - intros e' i' Hi'. rewrite Hlc. apply allocated_index_in_table; [done..|].
    by apply (inv_allocated b H e').
  - unfold ms. rewrite length_replicate, Hlc. unfold calculate_metadata_size. div_lia.
  - apply (inv_distinct b H).
  - fold (slots b). rewrite Hf. cbn. eexists. split; [done|].
    assert (Hm0 : metadata_bit ms i = false).
    { unfold metadata_bit, ms.
      rewrite lookup_replicate_2 by (unfold calculate_metadata_size in *; div_lia).
      apply Z.bits_0. }
    assert (Hbit : forall m, Done (Z.land (default 0 (ms' !! Z.to_nat (i / 8)))
        (Z.shiftl 1 (i mod 8)) =? 0) = Done (negb m) <-> metadata_bit ms' i = m).
    { intros m. rewrite land_bit_zero by (apply Z.mod_pos_bound; lia).
      fold (metadata_bit ms' i). destruct (metadata_bit ms' i), m; cbn; naive_solver. }
    assert (H8 : 0 <= i / 8 < Z.of_nat (length ms')).
    { rewrite Hlm. unfold ms, calculate_metadata_size. rewrite length_replicate. div_lia. }
    unfold get_constant, is_value. cbn [table_constants table_metadata].
    destruct (lookup_lt_is_Some_2 ms' (Z.to_nat (i / 8))) as [byte Hbyte]; [lia|].
    rewrite Hbyte in Hbit |- *. cbn in Hbit |- *. rewrite list_lookup_fmap. split.
    + intros e Hh. destruct (Hin e i Hh) as [-> Hm]. split; [done|].
      rewrite Hm0 in Hm. cbn in Hm. apply Hbit in Hm. by rewrite negb_involutive in Hm.
    + intros Hn. destruct (Hout i) as [-> Hm]; [lia| |].
      * intros ([e j] & Ej & Hj)%list_elem_of_fmap. cbn in Ej. subst j. by apply (Hn e).
      * unfold cs. rewrite lookup_replicate_2 by lia. split; [done|].
        rewrite Hm0 in Hm. by apply Hbit in Hm.
Qed.

(** The table holds every entry of the builder at its index, marked as a value or as an offset. *)
Lemma finish_holds b e i :
  builder_inv b -> extra_wide_allocated b < NUM_EXTRA_WIDE_ENTRIES -> holds b e i ->
  exists t, finish b = Done (Some t) /\
    get_constant t i = Done (default undefined (to_value e).1) /\
    is_value t i = Done (to_value e).2.
Proof.
  intros H He Hi.
  destruct (finish_slot b i H He (inv_allocated b H e i Hi)) as (t & Hf & Hh & _).
  exists t. split; [done|]. by apply Hh.
Qed.

(** ** Runs of the builder *)

Inductive BuilderOp : Type :=
| AddString (string : Z)
| AddHeapItem (item : option Z)
| AddDouble (d : f64)
| AddBytecodeOffset (offset : Z)
| ReserveEntry
| RemoveReserved (w : WidthEnum)
| CommitReserved (w : WidthEnum) (offset : Z).

(** The call of an operation: the index it returns, if it returns one. *)
Definition builder_call (b : ConstantTableBuilder) (op : BuilderOp)
    : EmitResult (option Z * ConstantTableBuilder) :=
  let index r := '(i, b) ← r; EmitOk (Some i, b) in
  match op with
  | AddString string => index (add_string b string)
  | AddHeapItem item => index (add_heap_item b item)
  | AddDouble d => index (add_double b d)
  | AddBytecodeOffset offset => index (add_bytecode_offset b offset)
  | ReserveEntry => '(_, b) ← reserve_entry b; EmitOk (None, b)
  | RemoveReserved w => EmitOk (None, remove_reserved b w)
  | CommitReserved w offset =>
      let '(i, b) := commit_reserved_bytecode_offset b w offset in EmitOk (Some i, b)
  end.

(** Only what is reserved is given back or committed, and the 32-bit counter of the heap items
    does not wrap. *)
Definition call_allowed (b : ConstantTableBuilder) (op : BuilderOp) : Prop :=
  match op with
  | RemoveReserved w | CommitReserved w _ => 0 < reserved b w
  | AddHeapItem _ => num_heap_items b < u32_max
  | _ => True
  end.

Inductive builder_steps : ConstantTableBuilder -> ConstantTableBuilder -> Prop :=
| steps_refl b : builder_steps b b
| steps_call b op r b1 b2 :
    call_allowed b op -> builder_call b op = EmitOk (r, b1) -> builder_steps b1 b2 ->
    builder_steps b b2.

(** The constant that the index returned by an operation denotes: a word of the table, and whether
    it is a value.  A placeholder denotes [undefined] until it is patched, and so does an offset
    committed to an extra wide reservation, which is not entered in the table unless the builder
    has it already. *)
Definition denoted (b : ConstantTableBuilder) (op : BuilderOp) : option (Value * bool) :=
  match op with
  | AddString string => Some (heap_item string, true)
  | AddHeapItem item => Some (default undefined (heap_item <$> item), true)
  | AddDouble d => Some (from_f64 d, true)
  | AddBytecodeOffset offset | CommitReserved Narrow offset | CommitReserved Wide offset =>
      Some (from_raw_bits (wrap64 offset), false)
  | CommitReserved ExtraWide offset =>
      match constants b !! KeyBytecodeOffset offset with
      | Some _ => Some (from_raw_bits (wrap64 offset), false)
      | None => Some (undefined, true)
      end
  | ReserveEntry | RemoveReserved _ => None
  end.

(** An index that is allocated and that no entry holds. *)
Definition lost (b : ConstantTableBuilder) (i : Z) : Prop :=
  allocated_index b i /\ forall e, ~ holds b e i.

Lemma lost_extends b b' i : extends b b' -> lost b i -> lost b' i.
Proof.
  intros (_ & _ & Ha & Hn) [Hi Hl]. split; [by apply (allocated_index_mono b)|].
  intros e He. destruct (Hn e i He) as [He'|Hi']; [by apply (Hl e)|done].
Qed.

Lemma commit_extra_wide_extends b offset i b' :
  builder_inv b -> 0 < reserved b ExtraWide ->
  commit_reserved_bytecode_offset b ExtraWide offset = (i, b') -> extends b b'.
Proof.
  intros H Hr Hc. cbn [commit_reserved_bytecode_offset] in Hc.
  destruct (constants b !! _) as [[e j]|]; simplify_eq; [by apply extends_refl|].
  destruct (remove_reserved_spec b ExtraWide H Hr) as [[H1 Hx1] Hres].
  fold (remove_reserved b ExtraWide). set (b1 := remove_reserved b ExtraWide) in *.
  assert (Hm : forall w, allocated b1 w <= allocated (add_allocated ExtraWide 1 b1) w).
  { intros w. rewrite allocated_add. case_decide; [subst w|lia].
    pose proof (inv_counters b H ExtraWide). pose proof (num_entries_u32 ExtraWide).
    change (allocated b1 ExtraWide) with (allocated b ExtraWide). rewrite wrap32_small; lia. }
  split_and!; [split; try apply H1|done|done|by left].
  - intros w. rewrite allocated_add, reserved_add_allocated. pose proof (inv_counters b1 H1 w).
    case_decide; [subst w|done]. pose proof (inv_counters b H ExtraWide).
    rewrite Hres, decide_True by done. change (allocated b1 ExtraWide) with (allocated b ExtraWide).
    rewrite wrap32_small; [lia|]. pose proof (num_entries_u32 ExtraWide). lia.
  - intros e j Hj. apply (allocated_index_mono b1); [apply Hm|by apply (inv_allocated b1 H1 e)].
Qed.

Lemma add_heap_item_spec b item i b' :
  builder_inv b -> num_heap_items b < u32_max -> add_heap_item b item = EmitOk (i, b') ->
  extends b b' /\ holds b' (EntryHeapItem item (num_heap_items b)) i.
Proof.
  intros H Hn Hi. unfold add_heap_item in Hi. pose proof (inv_heap_items b H) as [H0 Hk].
  rewrite wrap32_small in Hi by (unfold u32_max in *; lia).
  match type of Hi with insert_if_missing ?b1 _ = _ => set (b1' := b1) in * end.
  assert (H1 : builder_inv b1').
  { split; try apply H. cbn. split; [lia|]. intros k x Hx. specialize (Hk k x Hx). lia. }
  apply insert_if_missing_spec in Hi as ([H' Hx] & _ & _ & e' & Hin & _ & He');
    [|done|cbn; lia].
  split; [split; [done|auto]|]. rewrite He' in Hin; [done|].
  cbn. destruct (constants b !! KeyHeapItem (num_heap_items b)) as [x|] eqn:E; [|done].
  specialize (Hk _ _ E). lia.
Qed.

(** An offset committed to an extra wide reservation is not entered anywhere: no entry of the
    builder holds the index that is returned, and none will. *)
Lemma extra_wide_commit_is_lost b offset i b' :
  builder_inv b -> 0 < reserved b ExtraWide ->
  constants b !! KeyBytecodeOffset offset = None ->
  commit_reserved_bytecode_offset b ExtraWide offset = (i, b') -> lost b' i.
Proof.
  intros H Hr Hn Hc. cbn [commit_reserved_bytecode_offset entry_key] in Hc. rewrite Hn in Hc.
  simplify_eq. pose proof (inv_counters b H ExtraWide). pose proof (num_entries_u32 ExtraWide).
  destruct (next_index_free b ExtraWide H) as (E & Hfree & _); [lia|]. split.
  - apply allocated_index_spec. exists ExtraWide. rewrite E, allocated_add, decide_True by done.
    change (allocated (add_reserved ExtraWide (-1) b) ExtraWide) with (allocated b ExtraWide).
    rewrite wrap32_small; lia.
  - intros e Hin. by apply Hfree, (inv_allocated b H e).
Qed.

(** What the finished table of [b] has at the index [i]. *)
Definition denotes (b : ConstantTableBuilder) (i : Z) (v : Value) (f : bool) : Prop :=
  (exists e, holds b e i /\ default undefined (to_value e).1 = v /\ (to_value e).2 = f) \/
  (lost b i /\ v = undefined /\ f = true).

Lemma denotes_extends b b' i v f : extends b b' -> denotes b i v f -> denotes b' i v f.
Proof.
  intros Hx [(e & He & Hv)|[Hl Hv]]; [left; exists e; split; [by apply Hx|done]|].
  right. split; [by apply (lost_extends b)|done].
Qed.

Lemma finish_denotes b i v f :
  builder_inv b -> extra_wide_allocated b < NUM_EXTRA_WIDE_ENTRIES -> denotes b i v f ->
  exists t, finish b = Done (Some t) /\ get_constant t i = Done v /\ is_value t i = Done f.
Proof.
  intros H He [(e & Hh & <- & <-)|([Ha Hn] & -> & ->)]; [by apply finish_holds|].
  destruct (finish_slot b i H He Ha) as (t & Hf & _ & Hl). exists t. split; [done|]. by apply Hl.
Qed.

Lemma commit_extra_wide_denotes b offset i b' :
  builder_inv b -> 0 < reserved b ExtraWide ->
  commit_reserved_bytecode_offset b ExtraWide offset = (i, b') ->
  exists v f, denoted b (CommitReserved ExtraWide offset) = Some (v, f) /\ denotes b' i v f.
Proof.
  intros H Hr Hc. cbn [denoted].
  destruct (constants b !! KeyBytecodeOffset offset) as [[e j]|] eqn:El.
  - eexists _, _. split; [done|]. left. exists e. pose proof (inv_keys b H _ _ _ El) as Ek.
    cbn [commit_reserved_bytecode_offset entry_key] in Hc. rewrite El in Hc. simplify_eq.
    split; [by eapply holds_lookup|]. destruct e; by simplify_eq/=.
  - eexists _, _. split; [done|]. right. split; [|done]. by eapply extra_wide_commit_is_lost.
Qed.

(** Every index that is returned denotes its constant. *)
Lemma builder_call_spec b op r b' :
  builder_inv b -> call_allowed b op -> builder_call b op = EmitOk (r, b') ->
  extends b b' /\
  forall i, r = Some i -> exists v f, denoted b op = Some (v, f) /\ denotes b' i v f.
Proof.
  assert (Hden : forall e i, holds b' e i -> exists v f,
    Some (default undefined (to_value e).1, (to_value e).2) = Some (v, f) /\ denotes b' i v f).
  { intros e i Hh. eexists _, _. split; [done|]. left. by exists e. }
  intros H Ha Hc. destruct op; cbn [builder_call] in Hc;
    try (apply emit_bind_ok in Hc as ([j b1] & Hi & Hc); simplify_eq; cbn [denoted]).
  1, 3, 4: apply insert_if_missing_holds in Hi as [Hx Hin]; [|done..]; apply Hden in Hin;
    split; [done|]; naive_solver.
  - apply add_heap_item_spec in Hi as [Hx Hin]; [|done..]. apply Hden in Hin. split; [done|]. naive_solver.
  - apply reserve_entry_spec in Hi as [Hx _]; done.
  - simplify_eq. split; [by apply remove_reserved_spec|done].
  - destruct (commit_reserved_bytecode_offset b w offset) as [j b1] eqn:Ec. simplify_eq.
    destruct w; cbn [commit_reserved_bytecode_offset denoted] in *.
    1, 2: apply commit_inline_width_spec in Ec as (Hx & _ & Hin & _); [|done..];
      apply Hden in Hin; split; [done|]; naive_solver.
    split; [by eapply commit_extra_wide_extends|]. intros i [= ->].
    by apply commit_extra_wide_denotes.
Qed.

Lemma builder_steps_extends b b' : builder_inv b -> builder_steps b b' -> extends b b'.
Proof.
  intros H Hs. revert H. induction Hs as [b|b op r b1 b2 Ha Hc _ IH]; intros H;
    [by apply extends_refl|].
  destruct (builder_call_spec b op r b1 H Ha Hc) as [Hx _].
  eapply extends_trans; [exact Hx|]. apply IH, Hx.
Qed.

(** C21: Indices of constants are stable and right.  Whatever the builder does before and after, as
    long as the extra wide range is not full, an index that it returned for a string, a heap item, a
    number or a jump offset denotes that constant in the finished table, and the metadata tells the
    garbage collector that it is a value or that it is a raw offset.  The two exceptions are part of
    [denoted]: a placeholder added with a dangling root is [undefined] in the finished table, and so
    is an offset committed to an extra wide reservation that the builder did not have yet. *)
Theorem constant_index_denotes_its_constant b op i b1 b2 :
  builder_steps ConstantTableBuilder_new b -> call_allowed b op ->
  builder_call b op = EmitOk (Some i, b1) -> builder_steps b1 b2 ->
  extra_wide_allocated b2 < NUM_EXTRA_WIDE_ENTRIES ->
  exists v f t, denoted b op = Some (v, f) /\
    finish b2 = Done (Some t) /\ get_constant t i = Done v /\ is_value t i = Done f.
Proof.
  intros H0 Ha Hc Hs He.
  destruct (builder_steps_extends _ _ builder_inv_new H0) as [H _].
  destruct (builder_call_spec b op (Some i) b1 H Ha Hc) as [[H1 _] Hin].
  destruct (Hin i eq_refl) as (v & f & Hd & Hh).
  pose proof (builder_steps_extends _ _ H1 Hs) as Hx.
  destruct (finish_denotes b2 i v f (proj1 Hx) He (denotes_extends _ _ _ _ _ Hx Hh)) as (t & Ht).
  by exists v, f, t.
Qed.

(** A reservation, a string, the committed offset, and the same string again. *)
Lemma constant_index_denotes_its_constant_witness :
  let run b op := match builder_call b op with EmitOk (_, b) => b | EmitErr _ => b end in
  let b := foldl run ConstantTableBuilder_new [AddString 4096; ReserveEntry] in
  let b1 := run b (CommitReserved Narrow (-7)) in
  let b2 := run b1 (AddString 4096) in
  exists v f t, denoted b (CommitReserved Narrow (-7)) = Some (v, f) /\
    finish b2 = Done (Some t) /\ get_constant t 1 = Done v /\ is_value t 1 = Done f.
Proof.
  intros run b b1 b2.
  apply (constant_index_denotes_its_constant b (CommitReserved Narrow (-7)) 1 b1 b2).
  - apply (steps_call _ (AddString 4096) (Some 0) (run ConstantTableBuilder_new (AddString 4096)));
      [done|by vm_compute|].
    apply (steps_call _ ReserveEntry None b); [done|by vm_compute|constructor].
  - by vm_compute.
  - by vm_compute.
  - apply (steps_call _ (AddString 4096) (Some 0) b2); [done|by vm_compute|constructor].
  - by vm_compute.
Defined.
