(* ===== verification/BytecodeJumps.v ===== *)
(** Blocks and jumps: the part of [src/so2js/runtime/bytecode/generator.rs] that lays out basic
    blocks and patches jumps to them, and the part of [vm.rs] that executes jump instructions.

    A backward jump is written with its offset.  A forward jump is written with a dummy operand and
    a reservation in the constant table, and patched when its block starts: inline when the offset
    fits in the width that was written, through the constant table otherwise. *)
From S2P Require Import Prelude Float64 Value Descriptors TypeUtilities.
From S2P Require Import BytecodeOperand Varint VmInstruction ConstantTable.

(** ** Jump instructions *)

(** The eight pairs of an immediate jump instruction and its constant form. *)
Inductive JumpKind : Type :=
| KJump | KJumpTrue | KJumpToBooleanTrue | KJumpFalse | KJumpToBooleanFalse | KJumpNotUndefined
| KJumpNullish | KJumpNotNullish.

Definition jump_opcode (k : JumpKind) : OpCode.t :=
  match k with
  | KJump => OpCode.Jump
  | KJumpTrue => OpCode.JumpTrue
  | KJumpToBooleanTrue => OpCode.JumpToBooleanTrue
  | KJumpFalse => OpCode.JumpFalse
  | KJumpToBooleanFalse => OpCode.JumpToBooleanFalse
  | KJumpNotUndefined => OpCode.JumpNotUndefined
  | KJumpNullish => OpCode.JumpNullish
  | KJumpNotNullish => OpCode.JumpNotNullish
  end.

Definition jump_constant_opcode (k : JumpKind) : OpCode.t :=
  match k with
  | KJump => OpCode.JumpConstant
  | KJumpTrue => OpCode.JumpTrueConstant
  | KJumpToBooleanTrue => OpCode.JumpToBooleanTrueConstant
  | KJumpFalse => OpCode.JumpFalseConstant
  | KJumpToBooleanFalse => OpCode.JumpToBooleanFalseConstant
  | KJumpNotUndefined => OpCode.JumpNotUndefinedConstant
  | KJumpNullish => OpCode.JumpNullishConstant
  | KJumpNotNullish => OpCode.JumpNotNullishConstant
  end.

(** All jumps but the unconditional one have the condition as their first operand. *)
Definition condition_operands (k : JumpKind) (condition : operand) : list operand :=
  match k with KJump => [] | _ => [condition] end.

(** ** The generator *)

Definition BlockId : Type := Z.

Record ForwardJumpInfo : Type := {
  jump_offset : Z;
  constant_table_width : WidthEnum
}.

(** The fields of [BytecodeFunctionGenerator] that blocks and jumps use. *)
Record Generator : Type := {
  writer : BytecodeWriter;
  constant_table_builder : ConstantTableBuilder;
  num_blocks : Z;
  block_offsets : gmap BlockId Z;
  unresolved_forward_jumps : gmap BlockId (list ForwardJumpInfo)
}.

Definition Generator_new (range_start range_end : Z) : Generator := {|
  writer := write_source_map_header BytecodeWriter_new range_start range_end;
  constant_table_builder := ConstantTableBuilder_new;
  num_blocks := 0;
  block_offsets := ∅;
  unresolved_forward_jumps := ∅
|}.

Definition set_writer (g : Generator) (w : BytecodeWriter) : Generator := {|
  writer := w; constant_table_builder := constant_table_builder g; num_blocks := num_blocks g;
  block_offsets := block_offsets g; unresolved_forward_jumps := unresolved_forward_jumps g |}.
Definition set_builder (g : Generator) (b : ConstantTableBuilder) : Generator := {|
  writer := writer g; constant_table_builder := b; num_blocks := num_blocks g;
  block_offsets := block_offsets g; unresolved_forward_jumps := unresolved_forward_jumps g |}.
Definition set_unresolved (g : Generator) (m : gmap BlockId (list ForwardJumpInfo)) : Generator := {|
  writer := writer g; constant_table_builder := constant_table_builder g; num_blocks := num_blocks g;
  block_offsets := block_offsets g; unresolved_forward_jumps := m |}.

Definition new_block (g : Generator) : BlockId * Generator :=
  (num_blocks g,
   {| writer := writer g; constant_table_builder := constant_table_builder g;
      num_blocks := num_blocks g + 1; block_offsets := block_offsets g;
      unresolved_forward_jumps := unresolved_forward_jumps g |}).

(** [offset as u8], [as u16] or [as u32] is written over the operand. *)
Definition set_jump_offset_operand (w : BytecodeWriter) (info : DecodeInfo) (offset : Z)
    : outcome BytecodeWriter :=
  let operand_index := if bool_decide (di_opcode info = OpCode.Jump) then 0 else 1 in
  let operand_offset := di_opcode_index info + 1 + operand_index * num_bytes (di_width info) in
  match di_width info with
  | Narrow => set_u8 w operand_offset (from_usize Narrow offset)
  | Wide => set_u16 w operand_offset (from_usize Wide offset)
  | ExtraWide => set_u32 w operand_offset (from_usize ExtraWide offset)
  end.

(** Offsets are those of a buffer in memory, so their difference is an [isize]. *)
Definition patch_forward_jump (g : Generator) (jump_info : ForwardJumpInfo) (target_block : BlockId)
    : outcome Generator :=
  target_offset ← unwrap (block_offsets g !! target_block);
  let relative_offset := target_offset - jump_offset jump_info in
  let min_width_needed := min_width_for_signed relative_offset in
  jump_instr_info ← decode_width_and_opcode_at_index (bytes (writer g)) (jump_offset jump_info);
  if width_leb min_width_needed (di_width jump_instr_info)
     && bool_decide (is_Some (try_from_signed ExtraWide relative_offset))
  then
    let g := set_builder g
      (remove_reserved (constant_table_builder g) (constant_table_width jump_info)) in
    w ← set_jump_offset_operand (writer g) jump_instr_info relative_offset;
    Done (set_writer g w)
  else
    let '(constant_index, builder) := commit_reserved_bytecode_offset (constant_table_builder g)
      (constant_table_width jump_info) relative_offset in
    let g := set_builder g builder in
    w ← set_jump_offset_operand (writer g) jump_instr_info constant_index;
    w ← set_u8 w (di_opcode_index jump_instr_info) (OpCode.as_u8 (di_opcode jump_instr_info) + 1);
    Done (set_writer g w).

Fixpoint patch_forward_jumps (g : Generator) (jumps : list ForwardJumpInfo) (block_id : BlockId)
    : outcome Generator :=
  match jumps with
  | [] => Done g
  | jump_info :: jumps =>
      g ← patch_forward_jump g jump_info block_id; patch_forward_jumps g jumps block_id
  end.

Definition start_block (g : Generator) (block_id : BlockId) : outcome Generator :=
  let current_offset := current_offset (writer g) in
  let g := {| writer := writer g; constant_table_builder := constant_table_builder g;
              num_blocks := num_blocks g;
              block_offsets := <[block_id := current_offset]> (block_offsets g);
              unresolved_forward_jumps := unresolved_forward_jumps g |} in
  match unresolved_forward_jumps g !! block_id with
  | Some jumps =>
      patch_forward_jumps (set_unresolved g (delete block_id (unresolved_forward_jumps g)))
        jumps block_id
  | None => Done g
  end.

Inductive JumpOperand : Type :=
| RelativeOffset (offset : operand)
| JumpConstantIndex (constant_index : operand).

(** A dummy operand that requires the specified width. *)
Definition dummy_offset (w : WidthEnum) : operand := operand_from_signed ExtraWide (SIGNED_MIN w).

Definition jump_target_operand (g : Generator) (target_block : BlockId)
    : EmitResult (JumpOperand * Generator) :=
  let jump_offset := current_offset (writer g) in
  match block_offsets g !! target_block with
  | Some target_block_offset =>
      let relative_offset := target_block_offset - jump_offset in
      match try_from_signed ExtraWide relative_offset with
      | Some operand => EmitOk (RelativeOffset operand, g)
      | None =>
          '(constant_index, builder) ←
            add_bytecode_offset (constant_table_builder g) relative_offset;
          EmitOk (JumpConstantIndex constant_index, set_builder g builder)
      end
  | None =>
      '(width, builder) ← reserve_entry (constant_table_builder g);
      let forward_jump_info := {| jump_offset := jump_offset; constant_table_width := width |} in
      let jumps := default [] (unresolved_forward_jumps g !! target_block) in
      EmitOk (RelativeOffset (dummy_offset width),
        set_unresolved (set_builder g builder)
          (<[target_block := jumps ++ [forward_jump_info]]> (unresolved_forward_jumps g)))
  end.

(** The [write_jump_*_instruction] methods: the operand decides which form is written. *)
Definition write_jump (g : Generator) (k : JumpKind) (condition : operand) (target_block : BlockId)
    : EmitResult Generator :=
  '(o, g) ← jump_target_operand g target_block;
  EmitOk (set_writer g
    match o with
    | RelativeOffset relative_offset =>
        write_instruction (jump_opcode k) (writer g)
          (condition_operands k condition ++ [relative_offset]) NO_POS
    | JumpConstantIndex constant_index =>
        write_instruction (jump_constant_opcode k) (writer g)
          (condition_operands k condition ++ [constant_index]) NO_POS
    end).

(** ** Execution of jumps *)

(** A byte of the bytecode that lies at address [base]. *)
Definition fetch_byte (base : Z) (bytecode : list Z) (address : Z) : outcome Z :=
  if base <=? address then deref (bytecode !! Z.to_nat (address - base)) else Faulted.

Definition fetch_opcode (base : Z) (bytecode : list Z) (address : Z) : outcome OpCode.t :=
  b ← fetch_byte base bytecode address; OpCode.from_u8 b.

(** The start of [dispatch_loop_inner]: the width, the opcode and the address of the opcode.  The
    alignment is computed on addresses. *)
Definition dispatch (base : Z) (bytecode : list Z) (pc : Z) : outcome (WidthEnum * OpCode.t * Z) :=
  prefix_or_opcode ← fetch_opcode base bytecode pc;
  match prefix_or_opcode with
  | OpCode.WidePrefix =>
      let opcode_pc := wide_prefix_index_to_opcode_index pc in
      op ← fetch_opcode base bytecode opcode_pc; Done (Wide, op, opcode_pc)
  | OpCode.ExtraWidePrefix =>
      let opcode_pc := extra_wide_prefix_index_to_opcode_index pc in
      op ← fetch_opcode base bytecode opcode_pc; Done (ExtraWide, op, opcode_pc)
  | op => Done (Narrow, op, pc)
  end.

(** [get_instr!]: the instruction behind its opcode. *)
Definition get_instr (base : Z) (bytecode : list Z) (w : WidthEnum) (op : OpCode.t) (opcode_pc : Z)
    : outcome Instruction :=
  decode_instruction w op (drop (Z.to_nat (opcode_pc + 1 - base)) bytecode).

Definition get_pc_after (opcode_pc : Z) (instr : Instruction) : Z :=
  opcode_pc + 1 + byte_length (opcode instr) (width instr).

(** [cond_function] of the conditional jumps, with the coercion of the ToBoolean ones. *)
Definition jump_condition (heap : ItemHeap) (k : JumpKind) (value : Value) : bool :=
  match k with
  | KJump => true
  | KJumpTrue => is_true value
  | KJumpToBooleanTrue => to_boolean heap value
  | KJumpFalse => is_false value
  | KJumpToBooleanFalse => negb (to_boolean heap value)
  | KJumpNotUndefined => negb (is_undefined value)
  | KJumpNullish => is_nullish value
  | KJumpNotNullish => negb (is_nullish value)
  end.

Definition jump_immediate (pc : Z) (w : WidthEnum) (offset : operand) : Z :=
  pc + as_signed w offset.

(** The constant table of the frame is a pointer that is null when the function has no constants. *)
Definition jump_constant (table : option ConstantTable) (pc : Z) (constant_index : operand)
    : outcome Z :=
  table ← deref table;
  v ← get_constant table constant_index;
  Done (pc + cast_signed 64 (as_raw_bits v)).

(** The kind of a jump opcode, and whether its target is a constant. *)
Definition jump_kind (op : OpCode.t) : option (JumpKind * bool) :=
  match op with
  | OpCode.Jump => Some (KJump, false)
  | OpCode.JumpConstant => Some (KJump, true)
  | OpCode.JumpTrue => Some (KJumpTrue, false)
  | OpCode.JumpTrueConstant => Some (KJumpTrue, true)
  | OpCode.JumpToBooleanTrue => Some (KJumpToBooleanTrue, false)
  | OpCode.JumpToBooleanTrueConstant => Some (KJumpToBooleanTrue, true)
  | OpCode.JumpFalse => Some (KJumpFalse, false)
  | OpCode.JumpFalseConstant => Some (KJumpFalse, true)
  | OpCode.JumpToBooleanFalse => Some (KJumpToBooleanFalse, false)
  | OpCode.JumpToBooleanFalseConstant => Some (KJumpToBooleanFalse, true)
  | OpCode.JumpNotUndefined => Some (KJumpNotUndefined, false)
  | OpCode.JumpNotUndefinedConstant => Some (KJumpNotUndefined, true)
  | OpCode.JumpNullish => Some (KJumpNullish, false)
  | OpCode.JumpNullishConstant => Some (KJumpNullish, true)
  | OpCode.JumpNotNullish => Some (KJumpNotNullish, false)
  | OpCode.JumpNotNullishConstant => Some (KJumpNotNullish, true)
  | _ => None
  end.

(** One iteration of the dispatch loop on a jump instruction: the new program counter.
    [read_register] reads the frame slot a register operand names. *)
Definition execute_jump (heap : ItemHeap) (base : Z) (bytecode : list Z) (table : option ConstantTable)
    (read_register : Z -> Value) (pc : Z) : outcome (option Z) :=
  '(w, op, opcode_pc) ← dispatch base bytecode pc;
  match jump_kind op with
  | None => Done None
  | Some (k, is_constant) =>
      instr ← get_instr base bytecode w op opcode_pc;
      let target o :=
        if is_constant : bool then jump_constant table pc o else Done (jump_immediate pc w o) in
      match k with
      | KJump => o ← unwrap (operands instr !! 0%nat); pc ← target o; Done (Some pc)
      | _ =>
          condition ← unwrap (operands instr !! 0%nat);
          o ← unwrap (operands instr !! 1%nat);
          if jump_condition heap k (read_register (operand_signed w condition))
          then pc ← target o; Done (Some pc)
          else Done (Some (get_pc_after opcode_pc instr))
      end
  end.
