(* ===== verification/BytecodeJumpsCorrect.v ===== *)
(** Every jump of a function reaches the block it was written for.

    The bytes of the buffer are the layout of a list of instructions.  Patching a forward jump
    replaces one instruction of that list by another of the same size, and leaves the others where
    they are; the invariant of the generator relates its pending jumps to instructions that
    are still unpatched and to the reservations of the constant table. *)
From S2P Require Import Prelude Float64 Value Descriptors TypeUtilities.
From S2P Require Import BytecodeOperand Varint VmInstruction VmInstructionCorrect.
From S2P Require Import ConstantTable ConstantTableCorrect BytecodeJumps.

(** ** Instructions at offsets *)

Definition size (instrs : list Instruction) : Z := Z.of_nat (length (encode 0 instrs)).

Definition at_offset (instrs : list Instruction) (p : Z) (i : Instruction) : Prop :=
  exists l1 l2, instrs = l1 ++ i :: l2 /\ p = size l1.

Definition instr_size (p : Z) (i : Instruction) : Z := Z.of_nat (length (instr_bytes p i)).

Lemma size_snoc l i : size (l ++ [i]) = size l + instr_size (size l) i.
Proof.
  unfold size, instr_size. rewrite encode_app, Z.add_0_l. cbn. rewrite app_nil_r, length_app. lia.
Qed.

Lemma instr_size_pos p i : 0 < instr_size p i.
Proof. unfold instr_size. pose proof (length_instr_bytes_pos p i). lia. Qed.

Lemma size_nonneg l : 0 <= size l.
Proof. unfold size. lia. Qed.

Lemma size_app_le l1 l2 : size l1 <= size (l1 ++ l2).
Proof. unfold size. rewrite encode_app, length_app. lia. Qed.

Lemma size_app_lt l1 i l2 : size l1 + instr_size (size l1) i <= size (l1 ++ i :: l2).
Proof.
  rewrite <-size_snoc. change (i :: l2) with ([i] ++ l2). rewrite app_assoc. apply size_app_le.
Qed.

(** Replacing an instruction by one of the same size moves nothing. *)
Lemma size_replace l1 i i' l2 :
  instr_size (size l1) i' = instr_size (size l1) i -> size (l1 ++ i' :: l2) = size (l1 ++ i :: l2).
Proof.
  unfold size, instr_size. intros E. rewrite !encode_app. cbn [encode]. rewrite Z.add_0_l.
  rewrite !length_app, !E. lia.
Qed.

Lemma at_offset_bounds instrs p i :
  at_offset instrs p i -> 0 <= p /\ p + instr_size p i <= size instrs.
Proof. intros (l1 & l2 & -> & ->). split; [apply size_nonneg|apply size_app_lt]. Qed.

Lemma at_offset_split l1 i l2 p j :
  at_offset (l1 ++ i :: l2) p j ->
  (exists m1 m2, l1 = m1 ++ j :: m2 /\ p = size m1) \/ (p = size l1 /\ j = i) \/
  (exists m1 m2, l2 = m1 ++ j :: m2 /\ p = size (l1 ++ i :: m1)).
Proof.
  intros (k1 & k2 & E & ->). apply app_eq_inv in E as [(m & -> & E)|(m & -> & E)].
  - destruct m as [|x m]; cbn in E; simplify_eq.
    + right; left. by rewrite app_nil_r.
    + left. by exists k1, m.
  - destruct m as [|x m]; cbn in E; simplify_eq.
    + right; left. by rewrite app_nil_r.
    + right; right. by exists m, k2.
Qed.

Lemma at_offset_replace l1 i i' l2 p j :
  instr_size (size l1) i' = instr_size (size l1) i -> p <> size l1 ->
  at_offset (l1 ++ i :: l2) p j -> at_offset (l1 ++ i' :: l2) p j.
Proof.
  intros E Hp [(m1 & m2 & -> & ->)|[[-> _]|(m1 & m2 & -> & ->)]]%at_offset_split; [|done|].
  - exists m1, (m2 ++ i' :: l2). by rewrite <-app_assoc.
  - exists (l1 ++ i' :: m1), m2. rewrite <-app_assoc. split; [done|]. by apply size_replace.
Qed.

Lemma at_offset_app instrs l p i : at_offset instrs p i -> at_offset (instrs ++ l) p i.
Proof. intros (l1 & l2 & -> & ->). exists l1, (l2 ++ l). by rewrite <-app_assoc. Qed.

Lemma at_offset_last instrs i : at_offset (instrs ++ [i]) (size instrs) i.
Proof. by exists instrs, []. Qed.

(** ** Patching bytes *)

Lemma set_byte_app pre x y post :
  set_byte (pre ++ x :: post) (Z.of_nat (length pre)) y = Done (pre ++ y :: post).
Proof.
  unfold set_byte. rewrite length_app. cbn [length].
  case_match eqn:E; [|apply Z.ltb_ge in E; lia]. rewrite Nat2Z.id, insert_app_r_alt by lia.
  by rewrite Nat.sub_diag.
Qed.

Lemma set_bytes_app old new pre post n :
  n = Z.of_nat (length pre) -> length old = length new ->
  set_bytes (pre ++ old ++ post) n new = Done (pre ++ new ++ post).
Proof.
  intros ->. revert pre old. induction new as [|y new IH]; intros pre [|x old] Hl; try done.
  cbn [set_bytes app]. rewrite set_byte_app. cbn [mbind outcome_bind].
  pose proof (IH (pre ++ [y]) old ltac:(by injection Hl)) as E.
  rewrite <-!app_assoc in E. cbn [app] in E. rewrite <-E. f_equal. rewrite length_app. cbn. lia.
Qed.

(** The instruction a jump is written as. *)
Definition jump_instr (k : JumpKind) (is_constant : bool) (w : WidthEnum) (c o : operand)
    : Instruction := {|
  opcode := if is_constant then jump_constant_opcode k else jump_opcode k;
  width := w;
  operands := condition_operands k c ++ [o] |}.

Lemma constant_opcode_next k : OpCode.as_u8 (jump_constant_opcode k) = OpCode.as_u8 (jump_opcode k) + 1.
Proof. by destruct k. Qed.

Lemma jump_instr_size p k b1 b2 w c o1 o2 :
  instr_size p (jump_instr k b1 w c o1) = instr_size p (jump_instr k b2 w c o2).
Proof.
  unfold instr_size, instr_bytes, operand_bytes. cbn. rewrite !length_app. cbn [length].
  rewrite !map_app, !concat_app, !length_app. cbn. by rewrite !length_app, !length_to_ne_bytes.
Qed.

Lemma operand_bytes_snoc w os o :
  operand_bytes w (os ++ [o]) = operand_bytes w os ++ to_ne_bytes (Z.to_nat (num_bytes w)) o.
Proof. unfold operand_bytes. rewrite map_app, concat_app. cbn. by rewrite app_nil_r. Qed.

(** The set of the operand of a width is the set of its bytes. *)
Lemma set_operand_width w wr index v :
  match w with
  | Narrow => set_u8 wr index (from_usize Narrow v)
  | Wide => set_u16 wr index (from_usize Wide v)
  | ExtraWide => set_u32 wr index (from_usize ExtraWide v)
  end =
    (bs ← set_bytes (bytes wr) index (to_ne_bytes (Z.to_nat (num_bytes w)) (from_usize w v));
     Done (with_bytes wr bs)).
Proof.
  destruct w; [|done..]. unfold set_u8. cbn [set_bytes to_ne_bytes num_bytes Z.to_nat].
  change (Z.to_nat 1) with 1%nat. cbn [set_bytes to_ne_bytes].
  replace (from_usize Narrow v mod 256) with (from_usize Narrow v).
  - destruct (set_byte _ _ _); done.
  - unfold from_usize. rewrite width_modulus_narrow. by rewrite Z.mod_mod.
Qed.

Lemma set_jump_offset_operand_spec wr k pre post w c o v :
  bytes wr = pre ++ instr_bytes (Z.of_nat (length pre)) (jump_instr k false w c o) ++ post ->
  set_jump_offset_operand wr
      {| di_width := w; di_opcode := jump_opcode k;
         di_opcode_index := opcode_index_at (Z.of_nat (length pre)) w |} v =
    Done (with_bytes wr (pre ++ instr_bytes (Z.of_nat (length pre))
      (jump_instr k false w c (from_usize w v)) ++ post)).
Proof.
  intros Hb. unfold set_jump_offset_operand. cbn [di_width di_opcode di_opcode_index].
  rewrite set_operand_width, Hb. unfold instr_bytes, jump_instr. cbn [width opcode operands].
  set (pfx := prefix_bytes _ w). rewrite !operand_bytes_snoc.
  assert (E : forall x : list Z, pre ++ (pfx ++ OpCode.as_u8 (jump_opcode k) ::
      operand_bytes w (condition_operands k c) ++ x) ++ post =
    (pre ++ pfx ++ OpCode.as_u8 (jump_opcode k) :: operand_bytes w (condition_operands k c)) ++ x ++ post).
  { intros x. rewrite <-!app_assoc. cbn. by rewrite <-!app_assoc. }
  rewrite !E. erewrite set_bytes_app; [done| |by rewrite !length_to_ne_bytes].
  pose proof (opcode_index_at_spec (Z.of_nat (length pre)) w ltac:(lia)) as (_ & -> & _). fold pfx.
  rewrite !length_app. cbn [length]. rewrite !Nat2Z.inj_add, Nat2Z.inj_succ, length_operand_bytes.
  destruct k; cbn [condition_operands length jump_opcode];
    (rewrite bool_decide_true by done) || (rewrite bool_decide_false by done); lia.
Qed.

Lemma set_opcode_spec wr k pre post w c o :
  bytes wr = pre ++ instr_bytes (Z.of_nat (length pre)) (jump_instr k false w c o) ++ post ->
  set_u8 wr (opcode_index_at (Z.of_nat (length pre)) w) (OpCode.as_u8 (jump_opcode k) + 1) =
    Done (with_bytes wr (pre ++ instr_bytes (Z.of_nat (length pre)) (jump_instr k true w c o) ++ post)).
Proof.
  intros Hb. unfold set_u8. rewrite Hb. unfold instr_bytes, jump_instr. cbn [width opcode operands].
  set (pfx := prefix_bytes _ w).
  assert (E : forall x : Z, pre ++ (pfx ++ x :: operand_bytes w (condition_operands k c ++ [o])) ++ post =
    (pre ++ pfx) ++ x :: operand_bytes w (condition_operands k c ++ [o]) ++ post).
  { intros x. by rewrite <-!app_assoc. }
  rewrite !E. pose proof (opcode_index_at_spec (Z.of_nat (length pre)) w ltac:(lia)) as (_ & -> & _).
  fold pfx. rewrite <-Nat2Z.inj_add, <-length_app, set_byte_app. by rewrite constant_opcode_next.
Qed.

(** ** The invariant of the generator *)

(** The forward jumps that wait for their block. *)
Definition pending_of (m : gmap BlockId (list ForwardJumpInfo)) : list (BlockId * ForwardJumpInfo) :=
  map_to_list m ≫= fun '(b, infos) => (b,.) <$> infos.

Lemma pending_of_delete m b infos :
  m !! b = Some infos -> pending_of m ≡ₚ ((b,.) <$> infos) ++ pending_of (delete b m).
Proof.
  intros H. unfold pending_of. rewrite <-(map_to_list_delete m b infos H) at 1. done.
Qed.

Lemma pending_of_push m b info :
  pending_of (<[b := default [] (m !! b) ++ [info]]> m) ≡ₚ (b, info) :: pending_of m.
Proof.
  rewrite (pending_of_delete _ b (default [] (m !! b) ++ [info])) by apply lookup_insert_eq.
  rewrite delete_insert_eq, fmap_app. cbn.
  destruct (m !! b) as [infos|] eqn:E; cbn.
  - rewrite (pending_of_delete m b infos) by done. solve_Permutation.
  - by rewrite delete_id.
Qed.

(** A written jump whose operand is still the dummy. *)
Definition unpatched (instrs : list Instruction) (info : ForwardJumpInfo) : Prop :=
  exists k w c o, at_offset instrs (jump_offset info) (jump_instr k false w c o) /\
    width_leb (constant_table_width info) w = true.

Definition pending_width (w : WidthEnum) (pending : list (BlockId * ForwardJumpInfo)) : Z :=
  Z.of_nat (length (filter (fun x => constant_table_width x.2 = w) pending)).

Definition pending_offsets (pending : list (BlockId * ForwardJumpInfo)) : list Z :=
  (fun x => jump_offset x.2) <$> pending.

Record gen_inv (g : Generator) (instrs : list Instruction)
    (pending : list (BlockId * ForwardJumpInfo)) : Prop := {
  gi_bytes : bytes (writer g) = encode 0 instrs;
  gi_ok : Forall instr_ok instrs;
  gi_builder : builder_inv (constant_table_builder g);
  gi_reserved : forall w, reserved (constant_table_builder g) w = pending_width w pending;
  gi_unpatched : forall b info, (b, info) ∈ pending -> unpatched instrs info;
  gi_distinct : NoDup (pending_offsets pending);
  gi_blocks : forall b t, block_offsets g !! b = Some t -> 0 <= t <= size instrs
}.

Lemma gen_inv_perm g instrs pending pending' :
  pending ≡ₚ pending' -> gen_inv g instrs pending -> gen_inv g instrs pending'.
Proof.
  intros Hp H. split; try apply H.
  - intros w. rewrite (gi_reserved _ _ _ H). unfold pending_width. by rewrite Hp.
  - intros b info. rewrite <-Hp. apply H.
  - unfold pending_offsets. rewrite <-Hp. apply H.
Qed.

Lemma current_offset_size g instrs pending :
  gen_inv g instrs pending -> current_offset (writer g) = size instrs.
Proof. intros H. unfold current_offset. by rewrite (gi_bytes _ _ _ H). Qed.

Lemma pending_width_cons b info pending w :
  pending_width w ((b, info) :: pending) =
    pending_width w pending + if decide (constant_table_width info = w) then 1 else 0.
Proof.
  unfold pending_width. rewrite filter_cons. cbn. case_decide; cbn [length]; lia.
Qed.

Lemma pending_width_nonneg w pending : 0 <= pending_width w pending.
Proof. unfold pending_width. lia. Qed.

(** ** What a resolved jump says *)

(** Instruction [i] jumps by [rel] on the register [v] of the condition. *)
Definition encodes (b : ConstantTableBuilder) (i : Instruction) (k : JumpKind) (v rel : Z) : Prop :=
  exists is_constant w c o, i = jump_instr k is_constant w c o /\
    (k <> KJump -> operand_signed w c = v) /\
    if is_constant : bool then holds b (EntryBytecodeOffset rel) o else as_signed w o = rel.

Lemma encodes_extends b b' i k v rel : extends b b' -> encodes b i k v rel -> encodes b' i k v rel.
Proof.
  intros (_ & Hx & _) (ic & w & c & o & -> & Hc & Ho). exists ic, w, c, o. split_and!; [done..|].
  destruct ic; auto.
Qed.

Lemma holds_nonneg b e i : builder_inv b -> holds b e i -> 0 <= i.
Proof.
  intros H Hi%(inv_allocated b H). unfold allocated_index, FIRST_EXTRA_WIDE_INDEX in Hi. const_lia.
Qed.

Lemma jump_instr_ok k ic1 ic2 w c o1 o2 :
  instr_ok (jump_instr k ic1 w c o1) -> operand_ok w o2 -> instr_ok (jump_instr k ic2 w c o2).
Proof.
  intros (_ & Hl & Ho) Ho2. cbn in Ho. apply Forall_app in Ho as [Hc _].
  split_and!; cbn; [by destruct ic2, k|by destruct ic2, k|]. apply Forall_app. split; [done|].
  by constructor.
Qed.

Lemma at_offset_unique l1 i l2 j : at_offset (l1 ++ i :: l2) (size l1) j -> j = i.
Proof.
  intros [(m1 & m2 & -> & E)|[[_ ->]|(m1 & m2 & _ & E)]]%at_offset_split; [|done|].
  - pose proof (size_app_lt m1 j m2). pose proof (instr_size_pos (size m1) j). lia.
  - pose proof (size_app_lt l1 i m1). pose proof (instr_size_pos (size l1) i). lia.
Qed.

(** The layout around one instruction. *)
Lemma encode_middle l1 i l2 :
  encode 0 (l1 ++ i :: l2) =
    encode 0 l1 ++ instr_bytes (size l1) i ++ encode (size l1 + instr_size (size l1) i) l2.
Proof. rewrite encode_app. cbn [encode]. by rewrite Z.add_0_l. Qed.

(** What the patch of the jump [info] to the block at [t] does to a generator. *)
Definition patched (g g' : Generator) (instrs instrs' : list Instruction) (info : ForwardJumpInfo)
    (t : Z) : Prop :=
  size instrs' = size instrs /\ block_offsets g' = block_offsets g /\
  unresolved_forward_jumps g' = unresolved_forward_jumps g /\
  num_heap_items (constant_table_builder g') = num_heap_items (constant_table_builder g) /\
  extends (constant_table_builder g) (constant_table_builder g') /\
  (forall q j, q <> jump_offset info -> at_offset instrs q j -> at_offset instrs' q j) /\
  (forall k w c o, at_offset instrs (jump_offset info) (jump_instr k false w c o) ->
    exists i', at_offset instrs' (jump_offset info) i' /\
      instr_size (jump_offset info) i' = instr_size (jump_offset info) (jump_instr k false w c o) /\
      encodes (constant_table_builder g') i' k (operand_signed w c) (t - jump_offset info)).

(** Replacing the dummy instruction by one that encodes the jump. *)
Lemma replace_patched g b info pending t l1 l2 k w c o ic o' builder :
  gen_inv g (l1 ++ jump_instr k false w c o :: l2) ((b, info) :: pending) ->
  jump_offset info = size l1 ->
  extends (constant_table_builder g) builder ->
  num_heap_items builder = num_heap_items (constant_table_builder g) ->
  (forall w', reserved builder w' = reserved (constant_table_builder g) w' -
    if decide (constant_table_width info = w') then 1 else 0) ->
  operand_ok w o' ->
  (if ic : bool then holds builder (EntryBytecodeOffset (t - size l1)) o'
   else as_signed w o' = t - size l1) ->
  let g' := set_writer (set_builder g builder)
    (with_bytes (writer g) (encode 0 (l1 ++ jump_instr k ic w c o' :: l2))) in
  gen_inv g' (l1 ++ jump_instr k ic w c o' :: l2) pending /\
  patched g g' (l1 ++ jump_instr k false w c o :: l2) (l1 ++ jump_instr k ic w c o' :: l2) info t.
Proof.
  intros H Ep Hx Hh Hr Ho' He g'. set (i := jump_instr k false w c o) in *.
  set (i' := jump_instr k ic w c o') in *.
  assert (Es : instr_size (size l1) i' = instr_size (size l1) i) by apply jump_instr_size.
  assert (Hother : forall q j, q <> size l1 -> at_offset (l1 ++ i :: l2) q j -> at_offset (l1 ++ i' :: l2) q j).
  { intros q j. by apply at_offset_replace. }
  pose proof (gi_distinct _ _ _ H) as Hd. cbn in Hd. apply NoDup_cons in Hd as [Hnin Hd].
  cbn in Hnin. rewrite Ep in Hnin. split.
  - split; try done.
    + pose proof (gi_ok _ _ _ H) as Hok. apply Forall_app in Hok as [Hok1 Hok].
      apply Forall_cons in Hok as [Hi Hok2]. apply Forall_app. split; [done|]. constructor; [|done].
      by eapply jump_instr_ok.
    + apply Hx.
    + intros w'. cbn. rewrite Hr, (gi_reserved _ _ _ H), pending_width_cons. lia.
    + intros b' info' Hin. destruct (gi_unpatched _ _ _ H b' info' ltac:(by right))
        as (k' & w' & c' & o'' & Hat & Hw). exists k', w', c', o''. split; [|done].
      apply Hother; [|done]. intros E. apply Hnin. rewrite <-E. apply list_elem_of_fmap.
      by exists (b', info').
    + intros b' t' Hb'. rewrite (size_replace l1 i i' l2) by done. by eapply gi_blocks.
  - split_and!; try done; [by apply size_replace|by rewrite Ep|].
    intros k' w' c' o'' Hat. rewrite Ep in *. apply at_offset_unique in Hat as Ei.
    exists i'. split; [by exists l1, l2|]. rewrite Ei. split; [done|].
    assert (k' = k /\ w' = w /\ (k <> KJump -> c' = c)) as (-> & -> & Hc).
    { unfold i, jump_instr in Ei. injection Ei as E1 E2 E3.
      assert (k' = k) as -> by (destruct k', k; done). split_and!; [done..|].
      intros. destruct k; by simplify_eq. }
    exists ic, w, c, o'. split_and!; [done| |done]. intros Hk. by rewrite (Hc Hk).
Qed.

(** Patching one jump: its instruction is replaced, the rest stays. *)
Lemma patch_forward_jump_spec g instrs b info pending t :
  gen_inv g instrs ((b, info) :: pending) -> block_offsets g !! b = Some t ->
  t = size instrs -> size instrs <= SIGNED_MAX ExtraWide ->
  exists g' instrs', patch_forward_jump g info b = Done g' /\ gen_inv g' instrs' pending /\
    patched g g' instrs instrs' info t.
Proof.
  intros H Hb Ht Hmax.
  destruct (gi_unpatched _ _ _ H b info ltac:(left)) as (k & w & c & o & (l1 & l2 & -> & Ep) & Hw).
  pose proof (size_app_lt l1 (jump_instr k false w c o) l2) as Hlt.
  pose proof (instr_size_pos (size l1) (jump_instr k false w c o)).
  pose proof (size_nonneg l1). set (rel := t - size l1).
  assert (Hrel : SIGNED_MIN ExtraWide <= rel <= SIGNED_MAX ExtraWide)
    by (unfold rel; pose proof width_modulus_extra_wide; width_lia).
  assert (Hres : 0 < reserved (constant_table_builder g) (constant_table_width info)).
  { rewrite (gi_reserved _ _ _ H), pending_width_cons, decide_True by done.
    pose proof (pending_width_nonneg (constant_table_width info) pending). lia. }
  pose proof (gi_bytes _ _ _ H) as Hbytes. rewrite encode_middle in Hbytes.
  assert (Hdec : decode_width_and_opcode_at_index (bytes (writer g)) (size l1) =
    Done {| di_width := w; di_opcode := jump_opcode k; di_opcode_index := opcode_index_at (size l1) w |}).
  { rewrite Hbytes. apply (decode_width_and_opcode_instr (encode 0 l1)). by destruct k. }
  unfold patch_forward_jump. rewrite Hb. cbn [unwrap mbind outcome_bind]. rewrite Ep, Hdec.
  fold rel. cbn [mbind outcome_bind di_width di_opcode di_opcode_index].
  assert (Htry : is_Some (try_from_signed ExtraWide rel)).
  { unfold try_from_signed. rewrite (proj2 (Z.leb_le _ _) (proj1 Hrel)), (proj2 (Z.leb_le _ _) (proj2 Hrel)).
    by eexists. }
  rewrite (bool_decide_true _ Htry), andb_true_r.
  destruct (width_leb (min_width_for_signed rel) w) eqn:Efit.
  - apply min_width_for_signed_spec in Efit; [|done].
    destruct (remove_reserved_spec _ _ (gi_builder _ _ _ H) Hres) as [Hx Hr].
    rewrite (set_jump_offset_operand_spec _ k (encode 0 l1) (encode (size l1 +
      instr_size (size l1) (jump_instr k false w c o)) l2) w c o rel) by done. cbn [mbind outcome_bind].
    rewrite (jump_instr_size _ k false false w c o (from_usize w rel)), <-encode_middle.
    eexists _, _. split; [done|].
    apply (replace_patched g b info pending t l1 l2 k w c o false (from_usize w rel)); try done.
    + apply as_unsigned_ok.
    + by apply as_signed_as_unsigned.
  - assert (Hinline : constant_table_width info <> ExtraWide).
    { intros E. rewrite E in Hw. destruct w; try done.
      by rewrite (proj2 (min_width_for_signed_spec rel ExtraWide Hrel)) in Efit. }
    destruct (commit_reserved_bytecode_offset _ _ rel) as [index builder] eqn:Ec.
    assert (Ec' : commit_inline_width (constant_table_builder g) (constant_table_width info) rel =
      (index, builder)) by (rewrite <-Ec; by destruct (constant_table_width info)).
    apply commit_inline_width_spec in Ec' as (Hx & Hh & Hin & Hfit & Hr);
      [|apply (gi_builder _ _ _ H)|done].
    pose proof (holds_nonneg _ _ _ (proj1 Hx) Hin) as Hi0.
    assert (Hidx : from_usize w index = index).
    { apply Z.mod_small. split; [done|].
      assert (Hc : index <= UNSIGNED_MAX (constant_table_width info)).
      { revert Hfit. clear - Hi0 Hinline. unfold min_width_for_unsigned.
        destruct (constant_table_width info); try done; repeat case_match; cbn; intros; try done;
          width_lia. }
      destruct (constant_table_width info), w; try done; width_lia. }
    rewrite (set_jump_offset_operand_spec _ k (encode 0 l1) (encode (size l1 +
      instr_size (size l1) (jump_instr k false w c o)) l2) w c o index) by done. cbn [mbind outcome_bind].
    rewrite Hidx. erewrite (set_opcode_spec _ k (encode 0 l1)) by done. cbn [mbind outcome_bind].
    change (Z.of_nat (length (encode 0 l1))) with (size l1).
    rewrite (jump_instr_size _ k false true w c o index), <-encode_middle.
    eexists _, _. split; [done|].
    apply (replace_patched g b info pending t l1 l2 k w c o true index); try done.
    rewrite <-Hidx. apply as_unsigned_ok.
Qed.

(** ** Following one jump *)

(** The jump written at [p], [n] bytes long, on the register [v] to block [b]: it waits for its
    block, or it is resolved. *)
Definition tracked (g : Generator) (instrs : list Instruction)
    (pending : list (BlockId * ForwardJumpInfo)) (p : Z) (k : JumpKind) (v : Z) (b : BlockId)
    (n : Z) : Prop :=
  (exists info w c o, (b, info) ∈ pending /\ jump_offset info = p /\
    at_offset instrs p (jump_instr k false w c o) /\
    instr_size p (jump_instr k false w c o) = n /\ (k <> KJump -> operand_signed w c = v)) \/
  ((p ∉ pending_offsets pending) /\ exists i t, at_offset instrs p i /\ instr_size p i = n /\
    block_offsets g !! b = Some t /\ encodes (constant_table_builder g) i k v (t - p)).

Lemma encodes_condition b i k v v' rel :
  (k <> KJump -> v = v') -> encodes b i k v rel -> encodes b i k v' rel.
Proof.
  intros E (ic & w & c & o & Hi & Hc & Ho). exists ic, w, c, o. split_and!; [done| |done].
  intros Hk. rewrite <-E by done. auto.
Qed.

Lemma patched_tracked g g' instrs instrs' b0 info t pending p k v b n :
  gen_inv g instrs ((b0, info) :: pending) -> block_offsets g !! b0 = Some t ->
  patched g g' instrs instrs' info t ->
  tracked g instrs ((b0, info) :: pending) p k v b n -> tracked g' instrs' pending p k v b n.
Proof.
  intros H Hb (_ & Eb & _ & _ & Hx & Hother & Hown) Ht.
  pose proof (gi_distinct _ _ _ H) as Hd. cbn in Hd. apply NoDup_cons in Hd as [Hnin _].
  destruct Ht as [(info' & w & c & o & Hin & Ep & Hat & Hn & Hv)|(Hp & i & t' & Hat & Hn & Hbt & He)].
  - apply elem_of_cons in Hin as [[= -> ->]|Hin].
    + right. subst p. split; [done|]. destruct (Hown k w c o Hat) as (i' & Hat' & Es & He).
      exists i', t. rewrite Eb, Es. split_and!; [done..|]. by eapply encodes_condition.
    + left. exists info', w, c, o. split_and!; [done..| |done|done]. apply Hother; [|done].
      intros ->. apply Hnin, list_elem_of_fmap. by exists (b, info').
  - right. cbn in Hp. apply not_elem_of_cons in Hp as [Hne Hp]. split; [done|].
    exists i, t'. rewrite Eb. split_and!; [by apply Hother|done|done|]. by eapply encodes_extends.
Qed.

(** All jumps to a block that starts. *)
Lemma patch_forward_jumps_spec infos g instrs b pending t :
  gen_inv g instrs (((b,.) <$> infos) ++ pending) -> block_offsets g !! b = Some t ->
  t = size instrs -> size instrs <= SIGNED_MAX ExtraWide ->
  exists g' instrs', patch_forward_jumps g infos b = Done g' /\ gen_inv g' instrs' pending /\
    size instrs' = size instrs /\ unresolved_forward_jumps g' = unresolved_forward_jumps g /\
    num_heap_items (constant_table_builder g') = num_heap_items (constant_table_builder g) /\
    forall p k v b' n, tracked g instrs (((b,.) <$> infos) ++ pending) p k v b' n ->
      tracked g' instrs' pending p k v b' n.
Proof.
  revert g instrs. induction infos as [|info infos IH]; intros g instrs H Hb Ht Hmax.
  { exists g, instrs. by split_and!. }
  cbn [fmap list_fmap app] in H. cbn [patch_forward_jumps].
  destruct (patch_forward_jump_spec g instrs b info _ t H Hb Ht Hmax) as (g1 & instrs1 & Hg1 & H1 & Hp).
  pose proof Hp as (Es & Eb & Eu & Eh & _).
  rewrite Hg1. cbn [mbind outcome_bind].
  destruct (IH g1 instrs1 H1) as (g' & instrs' & Hg' & H' & Es' & Eu' & Eh' & Htr);
    [by rewrite Eb|by rewrite Es|by rewrite Es|].
  exists g', instrs'. split_and!; [done|done|by rewrite Es'|by rewrite Eu'|by rewrite Eh'|].
  intros p k v b' n Htk. apply Htr. by eapply patched_tracked.
Qed.

Lemma tracked_perm g instrs pending pending' p k v b n :
  pending ≡ₚ pending' -> tracked g instrs pending p k v b n -> tracked g instrs pending' p k v b n.
Proof.
  intros Hp [(info & w & c & o & Hin & H)|(Hnin & H)].
  - left. exists info, w, c, o. by rewrite <-Hp.
  - right. split; [|done]. unfold pending_offsets. by rewrite <-Hp.
Qed.

Lemma start_block_spec g instrs b :
  gen_inv g instrs (pending_of (unresolved_forward_jumps g)) -> block_offsets g !! b = None ->
  size instrs <= SIGNED_MAX ExtraWide ->
  exists g' instrs', start_block g b = Done g' /\
    gen_inv g' instrs' (pending_of (unresolved_forward_jumps g')) /\ size instrs' = size instrs /\
    num_heap_items (constant_table_builder g') = num_heap_items (constant_table_builder g) /\
    forall p k v b' n, tracked g instrs (pending_of (unresolved_forward_jumps g)) p k v b' n ->
      tracked g' instrs' (pending_of (unresolved_forward_jumps g')) p k v b' n.
Proof.
  intros H Hnew Hmax. unfold start_block. rewrite (current_offset_size _ _ _ H).
  set (g1 := {| writer := writer g; block_offsets := <[b:=size instrs]> (block_offsets g) |}).
  assert (H1 : gen_inv g1 instrs (pending_of (unresolved_forward_jumps g))).
  { split; try apply H. cbn. intros b' t [[<- <-]|[_ Ht]]%lookup_insert_Some.
    - pose proof (size_nonneg instrs). lia.
    - by eapply gi_blocks. }
  assert (Htr1 : forall p k v b' n,
    tracked g instrs (pending_of (unresolved_forward_jumps g)) p k v b' n ->
    tracked g1 instrs (pending_of (unresolved_forward_jumps g)) p k v b' n).
  { intros p k v b' n [Htk|(Hp & i & t & Hat & Hn & Hbt & He)]; [by left|]. right. split; [done|].
    exists i, t. split_and!; [done..| |done]. cbn. rewrite lookup_insert_ne; [done|congruence]. }
  cbn [unresolved_forward_jumps g1]. destruct (unresolved_forward_jumps g !! b) as [infos|] eqn:Eu.
  - pose proof (pending_of_delete _ _ _ Eu) as Hperm.
    set (g2 := set_unresolved g1 (delete b (unresolved_forward_jumps g))).
    assert (H2 : gen_inv g2 instrs (((b,.) <$> infos) ++ pending_of (delete b (unresolved_forward_jumps g)))).
    { apply (gen_inv_perm g2 instrs _ _ Hperm). split; apply H1. }
    destruct (patch_forward_jumps_spec infos g2 instrs b _ (size instrs) H2)
      as (g' & instrs' & Hg' & H' & Es & Eu' & Eh & Htr);
      [apply lookup_insert_eq|done|done|].
    exists g', instrs'. rewrite Eu'. split_and!; [done..|].
    intros p k v b' n Htk. apply Htr. apply (tracked_perm g2 instrs _ _ p k v b' n Hperm).
    by apply Htr1 in Htk.
  - exists g1, instrs. by split_and!.
Qed.
