(* ===== verification/BytecodeJumpsRun.v ===== *)
(** Runs of the generator and execution of the jumps they leave: the end-to-end theorem on
    blocks and jumps. *)
From S2P Require Import Prelude Float64 Value Descriptors TypeUtilities.
From S2P Require Import BytecodeOperand Varint VmInstruction VmInstructionCorrect.
From S2P Require Import ConstantTable ConstantTableCorrect BytecodeJumps BytecodeJumpsCorrect.

(** ** Calls of the generator *)

Inductive GenCall : Type :=
| CallNewBlock
| CallStartBlock (b : BlockId)
| CallJump (k : JumpKind) (condition : operand) (target : BlockId)
| CallInstruction (op : OpCode.t) (os : list operand) (pos : Z)
| CallConstant (op : BuilderOp).

Definition gen_call (g : Generator) (call : GenCall) : outcome (EmitResult Generator) :=
  match call with
  | CallNewBlock => Done (EmitOk (new_block g).2)
  | CallStartBlock b => g ← start_block g b; Done (EmitOk g)
  | CallJump k condition target => Done (write_jump g k condition target)
  | CallInstruction op os pos => Done (EmitOk (set_writer g (write_instruction op (writer g) os pos)))
  | CallConstant op =>
      Done ('(_, builder) ← builder_call (constant_table_builder g) op; EmitOk (set_builder g builder))
  end.

(** Reservations are the business of the jumps alone. *)
Definition is_add (op : BuilderOp) : bool :=
  match op with
  | AddString _ | AddHeapItem _ | AddDouble _ | AddBytecodeOffset _ => true
  | _ => false
  end.

(** How the generator calls these methods: a block is started once, operands are of their types. *)
Definition gen_call_allowed (g : Generator) (call : GenCall) : Prop :=
  match call with
  | CallNewBlock => True
  | CallStartBlock b => block_offsets g !! b = None
  | CallJump _ condition _ => operand_ok ExtraWide condition
  | CallInstruction op os pos => emission_ok (op, os, pos)
  | CallConstant op => is_add op = true /\ call_allowed (constant_table_builder g) op
  end.

Inductive gen_steps : Generator -> Generator -> Prop :=
| gen_steps_refl g : gen_steps g g
| gen_steps_call g call g1 g2 :
    gen_call_allowed g call -> gen_call g call = Done (EmitOk g1) -> gen_steps g1 g2 ->
    gen_steps g g2.

(** The invariant between calls. *)
Definition gen_ok (g : Generator) (instrs : list Instruction) : Prop :=
  gen_inv g instrs (pending_of (unresolved_forward_jumps g)).

Definition gen_tracked (g : Generator) (instrs : list Instruction) p k v b n : Prop :=
  tracked g instrs (pending_of (unresolved_forward_jumps g)) p k v b n.

(** A call keeps the invariant and every jump that is followed. *)
Definition gen_keeps (g g' : Generator) (instrs instrs' : list Instruction) : Prop :=
  gen_ok g' instrs' /\ size instrs <= size instrs' /\
  forall p k v b n, gen_tracked g instrs p k v b n -> gen_tracked g' instrs' p k v b n.

Lemma pending_offset_lt g instrs pending p :
  gen_inv g instrs pending -> p ∈ pending_offsets pending -> p < size instrs.
Proof.
  intros H ([b info] & -> & Hin)%list_elem_of_fmap. cbn.
  destruct (gi_unpatched _ _ _ H b info Hin) as (k & w & c & o & Hat & _).
  pose proof (at_offset_bounds _ _ _ Hat). pose proof (instr_size_pos (jump_offset info) (jump_instr k false w c o)). lia.
Qed.

(** ** Appending an instruction *)

Lemma gen_inv_append g instrs pending i wr :
  gen_inv g instrs pending -> instr_ok i ->
  bytes wr = bytes (writer g) ++ instr_bytes (current_offset (writer g)) i ->
  gen_inv (set_writer g wr) (instrs ++ [i]) pending.
Proof.
  intros H Hi Hw. split; try apply H; cbn.
  - rewrite Hw, (gi_bytes _ _ _ H), (current_offset_size _ _ _ H), encode_app. cbn.
    by rewrite Z.add_0_l, app_nil_r.
  - apply Forall_app. split; [apply H|]. by constructor.
  - intros b info Hin. destruct (gi_unpatched _ _ _ H b info Hin) as (k & w & c & o & Hat & Hle).
    exists k, w, c, o. split; [by apply at_offset_app|done].
  - intros b t Ht. pose proof (gi_blocks _ _ _ H b t Ht). pose proof (size_app_le instrs [i]). lia.
Qed.

Lemma tracked_append g g' instrs i pending p k v b n :
  (forall t, block_offsets g !! b = Some t -> block_offsets g' !! b = Some t) ->
  extends (constant_table_builder g) (constant_table_builder g') ->
  tracked g instrs pending p k v b n -> tracked g' (instrs ++ [i]) pending p k v b n.
Proof.
  intros Hb Hx [(info & w & c & o & Hin & Ep & Hat & H)|(Hp & j & t & Hat & Hn & Ht & He)].
  - left. exists info, w, c, o. split_and!; try done; [by apply at_offset_app|apply H|apply H].
  - right. split; [done|]. exists j, t. split_and!; [by apply at_offset_app|done|auto|].
    by eapply encodes_extends.
Qed.

Lemma gen_keeps_refl_fields g g' instrs :
  gen_ok g instrs -> writer g' = writer g -> block_offsets g' = block_offsets g ->
  unresolved_forward_jumps g' = unresolved_forward_jumps g ->
  extends (constant_table_builder g) (constant_table_builder g') ->
  (forall w, reserved (constant_table_builder g') w = reserved (constant_table_builder g) w) ->
  gen_keeps g g' instrs instrs.
Proof.
  intros H Ew Eb Eu Hx Hr. split_and!; [|lia|].
  - unfold gen_ok. rewrite Eu. split; rewrite ?Ew, ?Eb; try apply H; [apply Hx|].
    intros w. rewrite Hr. apply H.
  - unfold gen_tracked. intros p k v b n. rewrite Eu.
    intros [Ht|(Hp & i & t & Hat & Hn & Ht & He)]; [by left|]. right. split; [done|].
    exists i, t. rewrite Eb. split_and!; [done..|]. by eapply encodes_extends.
Qed.

(** ** Writing a jump *)

Definition jump_types (k : JumpKind) (is_constant : bool) : list OperandType :=
  match k with KJump => [] | _ => [Register] end ++ [if is_constant then ConstantIndex else SInt].

Lemma jump_operand_types k (ic : bool) :
  OpCode.operand_types (if ic then jump_constant_opcode k else jump_opcode k) = jump_types k ic.
Proof. by destruct k, ic. Qed.

Lemma jump_emission_ok k (ic : bool) c o :
  operand_ok ExtraWide c -> operand_ok ExtraWide o ->
  emission_ok (if ic then jump_constant_opcode k else jump_opcode k, condition_operands k c ++ [o], NO_POS).
Proof.
  intros Hc Ho. split_and!; [by destruct k, ic|rewrite jump_operand_types; by destruct k|].
  destruct k; cbn; repeat constructor; apply Hc || apply Ho.
Qed.

(** The written instruction is a jump instruction whose operands keep their values. *)
Lemma narrowed_jump k (ic : bool) c o :
  operand_ok ExtraWide c -> operand_ok ExtraWide o ->
  exists w c' o', narrowed (if ic then jump_constant_opcode k else jump_opcode k)
      (condition_operands k c ++ [o]) = jump_instr k ic w c' o' /\
    (k <> KJump -> operand_signed w c' = operand_signed ExtraWide c) /\
    operand_value (if ic then ConstantIndex else SInt) w o' =
      operand_value (if ic then ConstantIndex else SInt) ExtraWide o /\
    width_leb (operand_min_width (if ic then ConstantIndex else SInt) ExtraWide o) w = true.
Proof.
  intros Hc Ho. unfold narrowed. set (op := if ic then _ else _).
  set (w := instruction_min_width op _). exists w, (operand_to_width w c), (operand_to_width w o).
  destruct (instruction_min_width_fold
    (zip (OpCode.operand_types op) (condition_operands k c ++ [o])) Narrow) as [_ Hf].
  fold (instruction_min_width op (condition_operands k c ++ [o])) in Hf. fold w in Hf.
  unfold op in Hf. rewrite jump_operand_types in Hf.
  assert (Hfo : width_leb (operand_min_width (if ic then ConstantIndex else SInt) ExtraWide o) w = true).
  { rewrite Forall_forall in Hf. apply (Hf (_, o)). destruct k; cbn; repeat constructor. }
  split_and!; [|intros Hk|by apply operand_narrowing_keeps_value|done].
  - unfold jump_instr. f_equal. destruct k; done.
  - apply (operand_narrowing_keeps_value Register); [done|].
    rewrite Forall_forall in Hf. apply (Hf (Register, c)). destruct k; cbn; [done|..]; constructor.
Qed.

Lemma dummy_offset_width w :
  operand_ok ExtraWide (dummy_offset w) /\ operand_min_width SInt ExtraWide (dummy_offset w) = w.
Proof. by destruct w. Qed.

Lemma size_not_pending g instrs :
  gen_ok g instrs -> size instrs ∉ pending_offsets (pending_of (unresolved_forward_jumps g)).
Proof. intros H Hin%(pending_offset_lt _ _ _ _ H). lia. Qed.

Lemma tracked_before g instrs pending p k v b n :
  tracked g instrs pending p k v b n -> p < size instrs.
Proof.
  intros [(? & w & c & o & _ & _ & Hat & _)|(_ & i & _ & Hat & _)];
    pose proof (at_offset_bounds _ _ _ Hat);
    [pose proof (instr_size_pos p (jump_instr k false w c o))|pose proof (instr_size_pos p i)]; lia.
Qed.

(** The jump to a block that has started. *)
Lemma write_backward_jump g instrs k c b t :
  gen_ok g instrs -> operand_ok ExtraWide c -> block_offsets g !! b = Some t ->
  SIGNED_MIN ExtraWide <= t - size instrs <= SIGNED_MAX ExtraWide ->
  let o := operand_from_signed ExtraWide (t - size instrs) in
  let g' := set_writer g (write_instruction (jump_opcode k) (writer g)
    (condition_operands k c ++ [o]) NO_POS) in
  exists i, gen_keeps g g' instrs (instrs ++ [i]) /\
    gen_tracked g' (instrs ++ [i]) (size instrs) k (operand_signed ExtraWide c) b
      (instr_size (size instrs) i).
Proof.
  intros H Hc Et Hrel o g'.
  destruct (narrowed_jump k false c o Hc (as_unsigned_ok _ _)) as (w & c' & o' & En & Hc' & Ho' & _).
  exists (jump_instr k false w c' o').
  assert (Hinv : gen_ok g' (instrs ++ [jump_instr k false w c' o'])).
  { apply gen_inv_append; [done| |].
    - rewrite <-En. eapply narrowed_ok, (jump_emission_ok k false); [done|apply as_unsigned_ok].
    - by rewrite bytes_write_instruction, <-En. }
  split; [split_and!; [done|apply size_app_le|]|].
  - intros p k' v b' n Ht. eapply tracked_append; [..|exact Ht]; [done|]. apply extends_refl, H.
  - right. split; [exact (size_not_pending g instrs H)|]. eexists _, t.
    split_and!; [apply at_offset_last|done|done|].
    exists false, w, c', o'. split_and!; [done|done|].
    cbn in Ho'. unfold operand_value in Ho'. cbn in Ho'. unfold operand_signed in Ho'.
    rewrite Ho'. by apply as_signed_as_unsigned.
Qed.

(** The jump to a block that has not started. *)
Lemma write_forward_jump g instrs k c b wd builder :
  gen_ok g instrs -> operand_ok ExtraWide c ->
  reserve_entry (constant_table_builder g) = EmitOk (wd, builder) ->
  let info := {| jump_offset := size instrs; constant_table_width := wd |} in
  let jumps := default [] (unresolved_forward_jumps g !! b) in
  let g1 := set_unresolved (set_builder g builder)
    (<[b := jumps ++ [info]]> (unresolved_forward_jumps g)) in
  let g' := set_writer g1 (write_instruction (jump_opcode k) (writer g)
    (condition_operands k c ++ [dummy_offset wd]) NO_POS) in
  exists i, gen_keeps g g' instrs (instrs ++ [i]) /\
    gen_tracked g' (instrs ++ [i]) (size instrs) k (operand_signed ExtraWide c) b
      (instr_size (size instrs) i).
Proof.
  intros H Hc Hr info jumps g1 g'.
  destruct (reserve_entry_spec _ _ _ (gi_builder _ _ _ H) Hr) as (Hx & _ & Hres).
  destruct (dummy_offset_width wd) as [Hd Hdw].
  destruct (narrowed_jump k false c (dummy_offset wd) Hc Hd) as (w & c' & o' & En & Hc' & _ & Hle).
  rewrite Hdw in Hle. exists (jump_instr k false w c' o').
  assert (Hpush : pending_of (unresolved_forward_jumps g') ≡ₚ
    (b, info) :: pending_of (unresolved_forward_jumps g)) by apply pending_of_push.
  assert (Hi : instr_ok (jump_instr k false w c' o')).
  { rewrite <-En. eapply narrowed_ok, (jump_emission_ok k false); done. }
  pose proof (gen_inv_append g instrs _ _ (writer g') H Hi
    ltac:(cbn; by rewrite bytes_write_instruction, <-En)) as Ha.
  assert (Hinv : gen_ok g' (instrs ++ [jump_instr k false w c' o'])).
  { apply (gen_inv_perm g' _ _ _ (symmetry Hpush)). split; try apply Ha; [apply Hx|..].
    - intros w'. cbn. rewrite Hres, (gi_reserved _ _ _ H), pending_width_cons. done.
    - intros b' info' [[= -> ->]|Hin]%elem_of_cons; [|by apply Ha with b'].
      exists k, w, c', o'. split; [apply at_offset_last|done].
    - cbn. constructor; [exact (size_not_pending g instrs H)|apply H]. }
  split; [split_and!; [done|apply size_app_le|]|].
  - intros p k' v b' n Ht. eapply tracked_perm; [symmetry; exact Hpush|].
    pose proof (tracked_before _ _ _ _ _ _ _ _ Ht) as Hlt.
    eapply (tracked_append g g') in Ht; [|done|done].
    destruct Ht as [(info' & w0 & c0 & o0 & Hin & Hrest)|(Hp & Hrest)].
    + left. exists info', w0, c0, o0. split; [by right|done].
    + right. split; [|done]. cbn. apply not_elem_of_cons. split; [cbn; lia|done].
  - left. exists info, w, c', o'. split_and!; [rewrite Hpush; by left|done|apply at_offset_last|done|done].
Qed.

(** A jump that is written is followed from then on. *)
Lemma write_jump_spec g instrs k c b g' :
  gen_ok g instrs -> operand_ok ExtraWide c -> size instrs <= SIGNED_MAX ExtraWide ->
  write_jump g k c b = EmitOk g' ->
  exists i, gen_keeps g g' instrs (instrs ++ [i]) /\
    gen_tracked g' (instrs ++ [i]) (size instrs) k (operand_signed ExtraWide c) b
      (instr_size (size instrs) i).
Proof.
  intros H Hc Hmax Hw. unfold write_jump in Hw. apply emit_bind_ok in Hw as ([jo g1] & Hj & Hw).
  injection Hw as <-. unfold jump_target_operand in Hj. rewrite (current_offset_size _ _ _ H) in Hj.
  destruct (block_offsets g !! b) as [t|] eqn:Et.
  - pose proof (gi_blocks _ _ _ H b t Et). pose proof (size_nonneg instrs).
    assert (Hrel : SIGNED_MIN ExtraWide <= t - size instrs <= SIGNED_MAX ExtraWide)
      by (pose proof width_modulus_extra_wide; width_lia).
    unfold try_from_signed in Hj.
    rewrite (proj2 (Z.leb_le _ _) (proj1 Hrel)), (proj2 (Z.leb_le _ _) (proj2 Hrel)) in Hj.
    cbn [andb] in Hj. simplify_eq. rewrite from_isize_small by done. by apply write_backward_jump.
  - apply emit_bind_ok in Hj as ([wd builder] & Hr & Hj). simplify_eq. exact (write_forward_jump g instrs k c b wd builder H Hc Hr).
Qed.

(** ** Runs keep the invariant *)

Lemma builder_add_reserved b op r b' w :
  is_add op = true -> builder_call b op = EmitOk (r, b') -> reserved b' w = reserved b w.
Proof.
  assert (Hins : forall b e i b', insert_if_missing b e = EmitOk (i, b') -> reserved b' w = reserved b w).
  { intros b0 e i b0' Hi. unfold insert_if_missing in Hi. case_match; [by case_match; simplify_eq|].
    apply emit_bind_ok in Hi as (w' & _ & Hi). simplify_eq. by destruct w. }
  intros Ha Hc. destruct op; try done; cbn [builder_call] in Hc;
    apply emit_bind_ok in Hc as ([i b1] & Hi & Hc); simplify_eq; apply Hins in Hi; rewrite Hi;
    by destruct w.
Qed.

Lemma gen_call_keeps g instrs call g' :
  gen_ok g instrs -> gen_call_allowed g call -> size instrs <= SIGNED_MAX ExtraWide ->
  gen_call g call = Done (EmitOk g') -> exists instrs', gen_keeps g g' instrs instrs'.
Proof.
  intros H Ha Hmax Hc. destruct call as [|b|k c b|op os pos|op]; cbn in Ha, Hc.
  - simplify_eq. exists instrs. apply gen_keeps_refl_fields; try done. apply extends_refl, H.
  - destruct (start_block_spec g instrs b H Ha Hmax) as (g1 & instrs' & Hs & H' & Es & _ & Ht).
    rewrite Hs in Hc. cbn in Hc. simplify_eq. exists instrs'. split_and!; [done|lia|]. apply Ht.
  - injection Hc as Hc. destruct (write_jump_spec g instrs k c b g' H Ha Hmax Hc) as (i & Hk & _).
    by eexists.
  - simplify_eq. exists (instrs ++ [narrowed op os]). split_and!; [|apply size_app_le|].
    + apply gen_inv_append; [done|by apply (narrowed_ok op os pos)|apply bytes_write_instruction].
    + intros p k v b n. apply tracked_append; [done|]. apply extends_refl, H.
  - injection Hc as Hc. apply emit_bind_ok in Hc as ([r builder] & Hb & Hc). simplify_eq.
    destruct Ha as [Ha Hal]. exists instrs. apply gen_keeps_refl_fields; try done.
    + apply (builder_call_spec _ op r builder (gi_builder _ _ _ H) Hal Hb).
    + intros w. by apply (builder_add_reserved _ op r).
Qed.

(** A call does not panic. *)
Lemma gen_call_returns g instrs call :
  gen_ok g instrs -> gen_call_allowed g call -> size instrs <= SIGNED_MAX ExtraWide ->
  exists r, gen_call g call = Done r.
Proof.
  intros H Ha Hmax. destruct call; cbn; try by eexists.
  destruct (start_block_spec g instrs b H Ha Hmax) as (g1 & instrs' & Hs & _). rewrite Hs. by eexists.
Qed.

(** The buffer never shrinks. *)
Lemma length_set_bytes values bs index bs' :
  set_bytes bs index values = Done bs' -> length bs' = length bs.
Proof.
  revert bs index. induction values as [|v values IH]; intros bs index Hs; cbn in Hs; [by simplify_eq|].
  apply bind_done in Hs as (bs1 & H1 & Hs). rewrite (IH _ _ Hs). unfold set_byte in H1.
  case_match; simplify_eq. apply length_insert.
Qed.

Lemma current_offset_set_operand wr info v wr' :
  set_jump_offset_operand wr info v = Done wr' -> current_offset wr' = current_offset wr.
Proof.
  unfold set_jump_offset_operand. rewrite set_operand_width. intros (bs & Hb & Hw)%bind_done.
  simplify_eq. unfold current_offset. cbn. by rewrite (length_set_bytes _ _ _ _ Hb).
Qed.

Lemma current_offset_patch g info b g' :
  patch_forward_jump g info b = Done g' -> current_offset (writer g') = current_offset (writer g).
Proof.
  unfold patch_forward_jump. intros (t & _ & H)%bind_done. apply bind_done in H as (di & _ & H).
  case_match.
  - apply bind_done in H as (w & Hw & H). simplify_eq. cbn. by apply current_offset_set_operand in Hw.
  - case_match. apply bind_done in H as (w & Hw & H). apply bind_done in H as (w' & Hw' & H).
    simplify_eq. cbn. apply current_offset_set_operand in Hw. cbn in Hw. rewrite <-Hw.
    apply bind_done in Hw' as (bs & Hb & Hw'). simplify_eq. unfold current_offset. cbn.
    unfold set_byte in Hb. case_match; simplify_eq. by rewrite length_insert.
Qed.

Lemma current_offset_start_block g b g' :
  start_block g b = Done g' -> current_offset (writer g') = current_offset (writer g).
Proof.
  unfold start_block. cbn. destruct (unresolved_forward_jumps g !! b) as [infos|]; intros H;
    [|by simplify_eq].
  match type of H with patch_forward_jumps ?g1 _ _ = _ =>
    change (current_offset (writer g)) with (current_offset (writer g1)); revert H;
    generalize g1 end.
  induction infos as [|info infos IH]; intros g1 H; cbn in H; [by simplify_eq|].
  apply bind_done in H as (g2 & H2 & H). rewrite (IH _ H). by eapply current_offset_patch.
Qed.

Lemma current_offset_write_instruction op wr os pos :
  current_offset wr <= current_offset (write_instruction op wr os pos).
Proof. unfold current_offset. rewrite bytes_write_instruction, length_app. lia. Qed.

Lemma gen_call_grows g call g' :
  gen_call g call = Done (EmitOk g') -> current_offset (writer g) <= current_offset (writer g').
Proof.
  destruct call as [|b|k c b|op os pos|op]; cbn; intros H.
  - by simplify_eq.
  - apply bind_done in H as (g1 & H1 & H). simplify_eq. by rewrite (current_offset_start_block _ _ _ H1).
  - injection H as H. apply emit_bind_ok in H as ([o g1] & H1 & H). simplify_eq.
    assert (E : writer g1 = writer g).
    { unfold jump_target_operand in H1. repeat case_match; simplify_eq; try done;
        apply emit_bind_ok in H1 as ([? ?] & _ & H1); by simplify_eq. }
    cbn. rewrite E. case_match; apply current_offset_write_instruction.
  - simplify_eq. apply current_offset_write_instruction.
  - injection H as H. apply emit_bind_ok in H as ([r builder] & _ & H). by simplify_eq.
Qed.

Lemma gen_steps_grow g g' : gen_steps g g' -> current_offset (writer g) <= current_offset (writer g').
Proof.
  induction 1 as [g|g call g1 g2 _ Hc _ IH]; [lia|]. apply gen_call_grows in Hc. lia.
Qed.

Lemma gen_steps_keep g g' instrs :
  gen_ok g instrs -> gen_steps g g' -> current_offset (writer g') <= SIGNED_MAX ExtraWide ->
  exists instrs', gen_keeps g g' instrs instrs'.
Proof.
  intros H Hs Hmax. revert instrs H. induction Hs as [g|g call g1 g2 Ha Hc Hs IH]; intros instrs H.
  { exists instrs. split_and!; [done|lia|done]. }
  pose proof (gen_steps_grow _ _ Hs) as Hg. pose proof (gen_call_grows _ _ _ Hc) as Hg1.
  pose proof (current_offset_size _ _ _ H) as Hsz.
  destruct (gen_call_keeps g instrs call g1 H Ha ltac:(lia) Hc) as (instrs1 & H1 & Hs1 & Ht1).
  destruct (IH Hmax instrs1 H1) as (instrs2 & H2 & Hs2 & Ht2).
  exists instrs2. split_and!; [done|lia|]. auto.
Qed.

Lemma gen_ok_new range_start range_end : gen_ok (Generator_new range_start range_end) [].
Proof.
  unfold gen_ok. cbn. assert (E : pending_of ∅ = []) by (unfold pending_of; by rewrite map_to_list_empty).
  rewrite E. split.
  - done.
  - constructor.
  - apply builder_inv_new.
  - by intros [].
  - intros b info Hin. by apply elem_of_nil in Hin.
  - constructor.
  - intros b t. cbn. by rewrite lookup_empty.
Qed.

(** ** Execution *)

(** Alignment of addresses is alignment of offsets when the code is aligned. *)
Lemma opcode_pc_offset base p w :
  0 <= base -> base mod 4 = 0 -> 0 <= p ->
  opcode_index_at (base + p) w = base + opcode_index_at p w.
Proof.
  intros Hb Hm Hp. destruct w; cbn [opcode_index_at]; [done|..].
  - unfold wide_prefix_index_to_opcode_index. rewrite !lor_1 by lia. div_lia.
  - unfold extra_wide_prefix_index_to_opcode_index. rewrite !lor_3 by lia. div_lia.
Qed.

Lemma fetch_opcode_at base bytecode p op :
  0 <= p -> opcode_at bytecode p = Done op -> fetch_opcode base bytecode (base + p) = Done op.
Proof.
  intros Hp. unfold opcode_at, byte_at, fetch_opcode, fetch_byte.
  replace (base + p - base) with p by lia. case_match eqn:E; [|apply Z.leb_gt in E; lia].
  by destruct (bytecode !! Z.to_nat p).
Qed.

(** The dispatch of an instruction in the code finds its width, opcode and operands. *)
Lemma dispatch_instr base pre i post :
  0 <= base -> base mod 4 = 0 -> instr_ok i ->
  let p := Z.of_nat (length pre) in
  let code := pre ++ instr_bytes p i ++ post in
  dispatch base code (base + p) = Done (width i, opcode i, base + opcode_index_at p (width i)) /\
  get_instr base code (width i) (opcode i) (base + opcode_index_at p (width i)) = Done i.
Proof.
  intros Hb Hm (Hpre & Hl & Hos) p code.
  pose proof (opcode_index_at_spec p (width i) ltac:(lia)) as (Hge & _ & _).
  pose proof (fetch_opcode_at base code p _ ltac:(lia) (opcode_at_start pre i post)) as Hs.
  pose proof (fetch_opcode_at base code (opcode_index_at p (width i)) _
    ltac:(lia) (opcode_at_instr pre i post)) as Ho.
  fold p in Hs, Ho. pose proof (opcode_pc_offset base p (width i) Hb Hm ltac:(lia)) as Hpc.
  split.
  - unfold dispatch. rewrite Hs. destruct (width i) eqn:Ew; cbn [mbind outcome_bind opcode_index_at] in *.
    + by destruct (opcode i).
    + by rewrite Hpc, Ho.
    + by rewrite Hpc, Ho.
  - unfold get_instr. replace (base + opcode_index_at p (width i) + 1 - base)
      with (opcode_index_at p (width i) + 1) by lia.
    pose proof (slice_after_opcode pre i post) as Hsl. unfold slice_from in Hsl.
    case_match; [|done]. injection Hsl as Hsl. fold p in Hsl. unfold code. rewrite Hsl.
    unfold decode_instruction. rewrite <-Hl, read_operands_bytes by done. by destruct i.
Qed.

Lemma jump_kind_instr k (ic : bool) :
  jump_kind (if ic then jump_constant_opcode k else jump_opcode k) = Some (k, ic).
Proof. by destruct k, ic. Qed.

Lemma cast_signed_wrap64 z : - 2 ^ 63 <= z < 2 ^ 63 -> cast_signed 64 (wrap64 z) = z.
Proof.
  intros Hz. unfold cast_signed, wrap64. rewrite Z.mod_mod by done. change (64 - 1) with 63.
  case_match eqn:E; [apply Z.ltb_lt in E|apply Z.ltb_ge in E]; div_lia.
Qed.

(** A resolved jump, executed on the finished bytecode and constant table. *)
Lemma execute_resolved_jump heap base instrs p i b table k v rel rr :
  0 <= base -> base mod 4 = 0 -> Forall instr_ok instrs -> at_offset instrs p i ->
  builder_inv b -> extra_wide_allocated b < NUM_EXTRA_WIDE_ENTRIES -> finish b = Done table ->
  encodes b i k v rel -> - 2 ^ 63 <= rel < 2 ^ 63 ->
  execute_jump heap base (encode 0 instrs) table rr (base + p) =
    Done (Some (base + if jump_condition heap k (rr v) then p + rel else p + instr_size p i)).
Proof.
  intros Hb Hm Hok Hat Hinv He Hf (ic & w & c & o & Ei & Hc & Ho) Hrel.
  destruct Hat as (l1 & l2 & -> & ->). rewrite encode_middle.
  apply Forall_app in Hok as [_ Hok]. apply Forall_cons in Hok as [Hi _].
  destruct (dispatch_instr base (encode 0 l1) i (encode (size l1 + instr_size (size l1) i) l2) Hb Hm Hi)
    as [Hd Hg].
  change (Z.of_nat (length (encode 0 l1))) with (size l1) in *.
  unfold execute_jump. rewrite Hd. cbn [mbind outcome_bind].
  assert (Htarget : (if ic then jump_constant table (base + size l1) o
    else Done (jump_immediate (base + size l1) w o)) = Done (base + (size l1 + rel))).
  { destruct ic.
    - destruct (finish_holds b _ _ Hinv He Ho) as (t & Hft & Hgc & _).
      rewrite Hf in Hft. injection Hft as ->. unfold jump_constant. cbn [deref mbind outcome_bind].
      rewrite Hgc. cbn. rewrite cast_signed_wrap64 by done. f_equal. lia.
    - unfold jump_immediate. rewrite Ho. f_equal. lia. }
  pose proof (length_instr_bytes_ok (size l1) i ltac:(apply size_nonneg) Hi) as Hlen.
  fold (instr_size (size l1) i) in Hlen.
  rewrite Ei in *. cbn [opcode width jump_instr] in *. rewrite jump_kind_instr. rewrite Hg.
  cbn [mbind outcome_bind].
  destruct k; cbn [operands jump_instr condition_operands app lookup list_lookup unwrap mbind outcome_bind];
    [rewrite Htarget; done|..];
    rewrite (Hc ltac:(done)); (destruct (jump_condition heap _ (rr v)); [rewrite Htarget; done|]);
    unfold get_pc_after; cbn [opcode width jump_instr]; do 2 f_equal; lia.
Qed.

(** C3: Every jump reaches its block.  In a run of the generator, take any jump that is written,
    forward or backward, and let the run go on until no forward jump is left unresolved.  Then its
    block has a start [t], and the virtual machine, executing the instruction at the offset where
    the jump was written, in the finished bytecode with the finished constant table, goes to
    [t] when the condition of the jump holds of the register it names, and to the next
    instruction otherwise - whether the jump became an inline or a constant jump of whatever width.
    The bytecode is at an address that is a multiple of four and shorter than two gigabytes. *)
Theorem jumps_reach_their_blocks range_start range_end g1 k condition b g2 g table heap base rr :
  gen_steps (Generator_new range_start range_end) g1 ->
  operand_ok ExtraWide condition ->
  gen_call g1 (CallJump k condition b) = Done (EmitOk g2) ->
  gen_steps g2 g ->
  unresolved_forward_jumps g = ∅ ->
  current_offset (writer g) <= SIGNED_MAX ExtraWide ->
  extra_wide_allocated (constant_table_builder g) < NUM_EXTRA_WIDE_ENTRIES ->
  finish (constant_table_builder g) = Done table ->
  0 <= base -> base mod 4 = 0 ->
  exists t, block_offsets g !! b = Some t /\
    execute_jump heap base (bytes (writer g)) table rr (base + current_offset (writer g1)) =
      Done (Some (base +
        if jump_condition heap k (rr (operand_signed ExtraWide condition)) then t
        else current_offset (writer g2))).
Proof.
  intros Hs1 Hc Hj Hs2 Hu Hmax He Hf Hb Hm.
  pose proof (gen_steps_grow _ _ Hs2) as Hg2. pose proof (gen_call_grows _ _ _ Hj) as Hg1.
  destruct (gen_steps_keep _ _ _ (gen_ok_new range_start range_end) Hs1 ltac:(lia)) as (instrs1 & H1 & _ & _).
  pose proof (current_offset_size _ _ _ H1) as Ec1. injection Hj as Hj.
  destruct (write_jump_spec g1 instrs1 k condition b g2 H1 Hc ltac:(lia) Hj) as (i & (H2 & _ & _) & Ht).
  pose proof (current_offset_size _ _ _ H2) as Ec2. rewrite size_snoc in Ec2.
  destruct (gen_steps_keep _ _ _ H2 Hs2 Hmax) as (instrs & H & _ & Hkeep).
  apply Hkeep in Ht. unfold gen_tracked in Ht. rewrite Hu in Ht.
  assert (E : pending_of ∅ = []) by (unfold pending_of; by rewrite map_to_list_empty). rewrite E in Ht.
  destruct Ht as [(info & _ & _ & _ & Hin & _)|(_ & i' & t & Hat & Hn & Hbt & Hen)];
    [by apply elem_of_nil in Hin|].
  exists t. split; [done|]. rewrite (gi_bytes _ _ _ H), Ec1.
  pose proof (gi_blocks _ _ _ H b t Hbt) as Ht. pose proof (current_offset_size _ _ _ H) as Ec.
  pose proof (size_nonneg instrs1) as Hp0. pose proof (at_offset_bounds _ _ _ Hat) as Hat'.
  pose proof (instr_size_pos (size instrs1) i') as Hpos.
  rewrite (execute_resolved_jump heap base instrs (size instrs1) i' (constant_table_builder g) table k
    (operand_signed ExtraWide condition) (t - size instrs1)); try done.
  - rewrite Hn, Ec2. do 3 f_equal. case_match; lia.
  - apply H.
  - apply H.
  - unfold SIGNED_MAX in Hmax. rewrite width_modulus_extra_wide in Hmax.
    clear -Ht Ec Hp0 Hat' Hpos Hmax. change (4294967296 / 2) with 2147483648 in Hmax.
    change (2 ^ 63) with 9223372036854775808. lia.
Qed.

(** ** Executable runs *)

#[global] Instance gen_call_allowed_dec g call : Decision (gen_call_allowed g call).
Proof.
  destruct call as [|b|k c b|op os pos|op]; cbn; unfold operand_ok; try apply _.
  destruct op; cbn; apply _.
Defined.

(** A list of calls, run as long as each is allowed and succeeds. *)
Fixpoint gen_run (g : Generator) (calls : list GenCall) : option Generator :=
  match calls with
  | [] => Some g
  | call :: calls =>
      if decide (gen_call_allowed g call) then
        match gen_call g call with Done (EmitOk g) => gen_run g calls | _ => None end
      else None
  end.

Lemma gen_run_steps calls g g' : gen_run g calls = Some g' -> gen_steps g g'.
Proof.
  revert g. induction calls as [|call calls IH]; intros g Hr; cbn in Hr.
  - simplify_eq. constructor.
  - case_decide; [|done]. destruct (gen_call g call) as [[g1|]| | |] eqn:Ec; try done.
    by eapply gen_steps_call; [..|apply IH].
Qed.

(** A forward jump over more than 127 bytes: it becomes a constant jump. *)
Definition example_before : list GenCall := [CallNewBlock; CallNewBlock; CallStartBlock 0].
Definition example_after : list GenCall :=
  repeat (CallInstruction OpCode.Mov [register_local ExtraWide 300; register_local ExtraWide 1] 0) 30
    ++ [CallStartBlock 1].

Definition example_g1 : Generator :=
  default (Generator_new 0 100) (gen_run (Generator_new 0 100) example_before).
Definition example_g2 : Generator :=
  match gen_call example_g1 (CallJump KJumpTrue (register_local ExtraWide 2) 1) with
  | Done (EmitOk g) => g
  | _ => example_g1
  end.
Definition example_g : Generator := default example_g2 (gen_run example_g2 example_after).
Definition example_table : option ConstantTable :=
  match finish (constant_table_builder example_g) with Done t => t | _ => None end.

Lemma gen_run_default d g calls :
  match gen_run g calls with Some _ => true | None => false end = true ->
  gen_steps g (default d (gen_run g calls)).
Proof.
  destruct (gen_run g calls) as [g'|] eqn:E; [|done]. intros _. by eapply gen_run_steps.
Qed.

Definition example_heap : ItemHeap :=
  mkItemHeap (fun _ => Kind.OrdinaryObject) (fun _ => []) (fun _ => 0) (fun _ => 0).

(** Its register holds [true], and the block it reaches starts behind the 30 instructions. *)
Lemma jumps_reach_their_blocks_witness :
  exists t, block_offsets example_g !! 1 = Some t /\
    execute_jump example_heap 4096 (bytes (writer example_g)) example_table (fun _ => bool_value true)
        (4096 + current_offset (writer example_g1)) =
      Done (Some (4096 +
        if jump_condition example_heap KJumpTrue (bool_value true) then t
        else current_offset (writer example_g2))).
Proof.
  apply (jumps_reach_their_blocks 0 100 example_g1 KJumpTrue (register_local ExtraWide 2) 1 example_g2
    example_g example_table example_heap 4096 (fun _ => bool_value true)).
  - apply gen_run_default. by vm_compute.
  - by vm_compute.
  - unfold example_g2. destruct (gen_call _ _) as [[g2|]| | |] eqn:E; [done|..];
      exfalso; revert E; by vm_compute.
  - apply gen_run_default. by vm_compute.
  - by vm_compute.
  - by vm_compute.
  - by vm_compute.
  - by vm_compute.
  - done.
  - done.
Defined.

Example example_is_a_constant_jump :
  execute_jump example_heap 4096 (bytes (writer example_g)) example_table
    (fun _ => bool_value true) 4096 = Done (Some (4096 + 184)) /\
  opcode_at (bytes (writer example_g)) 0 = Done OpCode.JumpTrueConstant.
Proof. by vm_compute. Qed.
