(* ===== verification/RegisterAllocator.v ===== *)
(** Temporary registers: [src/so2js/runtime/bytecode/register_allocator.rs].

    The generator allocates the temporaries of a function as a stack behind its local registers;
    the largest size of the stack becomes the number of registers of the function's frame. *)
From S2P Require Import Prelude Float64 Value BytecodeOperand ConstantTable.

Record TemporaryRegisterAllocator : Type := {
  num_local_registers : Z;
  num_allocated : Z;
  max_allocated : Z
}.

Definition TemporaryRegisterAllocator_new (num_local_registers : Z) : TemporaryRegisterAllocator := {|
  num_local_registers := num_local_registers;
  num_allocated := num_local_registers;
  max_allocated := num_local_registers
|}.

Definition allocate (a : TemporaryRegisterAllocator)
    : EmitResult (operand * TemporaryRegisterAllocator) :=
  let register_index := num_allocated a in
  if wrap32 (MAX_LOCAL_INDEX ExtraWide) <=? register_index then EmitErr TooManyRegisters
  else
    let num_allocated := wrap32 (num_allocated a + 1) in
    EmitOk (register_local ExtraWide register_index,
      {| num_local_registers := num_local_registers a;
         num_allocated := num_allocated;
         max_allocated := Z.max (max_allocated a) num_allocated |}).

Definition is_temporary_register (a : TemporaryRegisterAllocator) (register : operand) : bool :=
  is_local ExtraWide register
  && (num_local_registers a <=? wrap32 (local_index ExtraWide register)).

(** The check that the register is the last one allocated is a debug assertion. *)
Definition release (a : TemporaryRegisterAllocator) (register : operand)
    : TemporaryRegisterAllocator :=
  if negb (is_temporary_register a register) then a
  else {| num_local_registers := num_local_registers a;
          num_allocated := wrap32 (num_allocated a - 1);
          max_allocated := max_allocated a |}.

Definition is_empty (a : TemporaryRegisterAllocator) : bool :=
  num_allocated a =? num_local_registers a.

(** ** Stack discipline *)

(** Runs of the allocator with the live temporaries, the most recent first.  Only the most recent
    temporary is released; releasing a local or an argument does nothing. *)
Inductive allocator_steps : TemporaryRegisterAllocator * list operand ->
    TemporaryRegisterAllocator * list operand -> Prop :=
| alloc_refl s : allocator_steps s s
| alloc_allocate s a live r a' :
    allocator_steps s (a, live) -> allocate a = EmitOk (r, a') ->
    allocator_steps s (a', r :: live)
| alloc_release s a r live :
    allocator_steps s (a, r :: live) -> allocator_steps s (release a r, live)
| alloc_release_other s a live r :
    allocator_steps s (a, live) -> is_temporary_register a r = false ->
    allocator_steps s (release a r, live).

(** The live temporaries are the registers from the first temporary on. *)
Record allocator_inv (n : Z) (a : TemporaryRegisterAllocator) (live : list operand) : Prop := {
  ai_locals : num_local_registers a = n;
  ai_count : num_allocated a = n + Z.of_nat (length live);
  ai_max : num_allocated a <= max_allocated a <= MAX_LOCAL_INDEX ExtraWide;
  ai_live : forall i r, live !! i = Some r ->
    r = register_local ExtraWide (num_allocated a - 1 - Z.of_nat i)
}.

Lemma max_local_index_u32 : wrap32 (MAX_LOCAL_INDEX ExtraWide) = MAX_LOCAL_INDEX ExtraWide.
Proof. done. Qed.

Lemma allocate_inv n a live r a' :
  0 <= n -> allocator_inv n a live -> allocate a = EmitOk (r, a') ->
  allocator_inv n a' (r :: live) /\ r = register_local ExtraWide (n + Z.of_nat (length live)) /\
  max_allocated a <= max_allocated a'.
Proof.
  intros Hn [Hl Hc Hm Hlive] Ha. unfold allocate in Ha. rewrite max_local_index_u32 in Ha.
  case_match eqn:E; [done|]. apply Z.leb_gt in E. simplify_eq.
  assert (HM : MAX_LOCAL_INDEX ExtraWide <= u32_max) by done.
  rewrite wrap32_small by (unfold u32_max in *; lia).
  split_and!; [split; cbn [length num_local_registers num_allocated max_allocated]|by rewrite <-Hc|cbn; lia].
  - done.
  - lia.
  - lia.
  - intros [|i] r Hr; cbn in Hr; simplify_eq; [f_equal; lia|].
    rewrite (Hlive i r Hr). f_equal. lia.
Qed.

Lemma release_top_inv n a live r :
  0 <= n -> allocator_inv n a (r :: live) -> allocator_inv n (release a r) live.
Proof.
  intros Hn [Hl Hc Hm Hlive]. cbn [length] in Hc.
  pose proof (Hlive 0%nat r eq_refl) as Er. rewrite Z.sub_0_r in Er.
  assert (HM : MAX_LOCAL_INDEX ExtraWide <= u32_max) by done.
  destruct (register_local_index ExtraWide (num_allocated a - 1)) as [H1 H2]; [lia|].
  unfold release, is_temporary_register. rewrite Er, H1, H2, wrap32_small by (unfold u32_max in *; lia).
  case_match eqn:E; [apply negb_true_iff in E; cbn in E; apply Z.leb_gt in E; lia|].
  split; cbn [num_local_registers num_allocated max_allocated]; [done|lia|lia|].
  intros i r' Hr'. rewrite (Hlive (S i) r' Hr'). f_equal. lia.
Qed.

Lemma allocator_steps_inv n a live :
  0 <= n <= MAX_LOCAL_INDEX ExtraWide ->
  allocator_steps (TemporaryRegisterAllocator_new n, []) (a, live) -> allocator_inv n a live.
Proof.
  intros Hn Hs. remember (TemporaryRegisterAllocator_new n, []) as s eqn:Es.
  remember (a, live) as s' eqn:Es'. revert a live Es'.
  induction Hs as [s|s a0 live0 r a' _ IH Ha|s a0 r live0 _ IH|s a0 live0 r _ IH Hr]; intros a live E;
    simplify_eq.
  - by split; cbn; [..|intros []]; try lia.
  - by eapply allocate_inv; [lia|apply IH|].
  - by eapply release_top_inv; [lia|apply IH].
  - unfold release. rewrite Hr. cbn. by apply IH.
Qed.

(** C30: Temporaries never clash.  After any run of the allocator for a function with [n] locals, in
    which only the most recent temporary is released, the live temporaries are pairwise different
    local registers, none of them a local of the function, all of them inside the frame of
    [max_allocated] registers that the function will ask for; and the allocator is empty exactly
    when no temporary is live. *)
Theorem live_temporaries_are_distinct (n : Z) a live :
  0 <= n <= MAX_LOCAL_INDEX ExtraWide ->
  allocator_steps (TemporaryRegisterAllocator_new n, []) (a, live) ->
  NoDup live /\
  Forall (fun r => is_local ExtraWide r = true /\
    n <= local_index ExtraWide r < max_allocated a) live /\
  (is_empty a = true <-> live = []).
Proof.
  intros Hn Hs. destruct (allocator_steps_inv n a live Hn Hs) as [Hl Hc Hm Hlive].
  assert (Hidx : forall i r, live !! i = Some r -> is_local ExtraWide r = true /\
    local_index ExtraWide r = num_allocated a - 1 - Z.of_nat i /\ (i < length live)%nat).
  { intros i r Hr. pose proof (lookup_lt_Some _ _ _ Hr). rewrite (Hlive i r Hr).
    destruct (register_local_index ExtraWide (num_allocated a - 1 - Z.of_nat i)); [lia|done]. }
  split_and!.
  - apply NoDup_alt. intros i j r Hi Hj. apply Hidx in Hi as (_ & Ei & _), Hj as (_ & Ej & _). lia.
  - apply Forall_forall. intros r [i Hi]%list_elem_of_lookup. apply Hidx in Hi as (H1 & H2 & H3).
    split; [done|]. lia.
  - unfold is_empty. rewrite Z.eqb_eq, Hl, Hc. destruct live; cbn; split; intros; try done; lia.
Qed.

(** Two temporaries behind three locals, one released and reallocated. *)
Lemma live_temporaries_are_distinct_witness :
  let r i := register_local ExtraWide i in
  let a := {| num_local_registers := 3; num_allocated := 5; max_allocated := 5 |} in
  NoDup [r 4; r 3] /\
  Forall (fun r => is_local ExtraWide r = true /\ 3 <= local_index ExtraWide r < max_allocated a)
    [r 4; r 3] /\
  (is_empty a = true <-> [r 4; r 3] = []).
Proof.
  intros r a. apply (live_temporaries_are_distinct 3 a [r 4; r 3]); [done|].
  assert (H2 : allocator_steps (TemporaryRegisterAllocator_new 3, []) (a, [r 4; r 3])).
  { eapply alloc_allocate; [eapply alloc_allocate; [apply alloc_refl|]|]; done. }
  eapply alloc_allocate; [exact (alloc_release _ _ _ _ H2)|done].
Defined.
