(* ===== verification/ExceptionHandlers.v ===== *)
(** Exception handler tables: [src/so2js/runtime/bytecode/exception_handlers.rs], and the search of
    the innermost handler in [vm.rs].

    A table is a byte array of entries of four integers of one width, the least that fits all of
    them, read in place through pointers.  Extra wide entries are written and read with eight bytes
    per integer. *)
From S2P Require Import Prelude Float64 Value BytecodeOperand.

(** ** Building a table *)

(** [ExceptionStackRootrBuilder]: the offsets of the covered instructions and of the handler block,
    and the register that receives the error. *)
Record HandlerBuilder : Type := {
  start : Z;
  end_ : Z;
  handler : Z;
  error_register : option operand
}.

Definition HandlerBuilder_new (start end_ : Z) : HandlerBuilder :=
  {| start := start; end_ := end_; handler := 0; error_register := None |}.

(** [ExceptionStackRootrsBuilder]. *)
Record HandlersBuilder : Type := {
  handlers : list HandlerBuilder;
  builder_width : WidthEnum
}.

Definition HandlersBuilder_new : HandlersBuilder := {| handlers := []; builder_width := Narrow |}.

Definition add (b : HandlersBuilder) (h : HandlerBuilder) : HandlersBuilder :=
  let w :=
    width_max (width_max (width_max (builder_width b) (min_width_for_unsigned (start h)))
      (min_width_for_unsigned (end_ h))) (min_width_for_unsigned (handler h)) in
  let w :=
    match error_register h with
    | Some reg => width_max w (operand_min_width Register ExtraWide reg)
    | None => w
    end in
  {| handlers := handlers b ++ [h]; builder_width := w |}.

(** [u8], [u16] and [usize] values are written. *)
Definition write_handler_operand (w : WidthEnum) (buffer : list Z) (value : Z) : list Z :=
  match w with
  | Narrow => buffer ++ [value mod 2 ^ 8]
  | Wide => buffer ++ to_ne_bytes 2 (value mod 2 ^ 16)
  | ExtraWide => buffer ++ to_ne_bytes 8 value
  end.

Definition write_handler (w : WidthEnum) (buffer : list Z) (h : HandlerBuilder) : list Z :=
  let buffer := write_handler_operand w buffer (start h) in
  let buffer := write_handler_operand w buffer (end_ h) in
  let buffer := write_handler_operand w buffer (handler h) in
  let register := default (register_this ExtraWide) (error_register h) in
  write_handler_operand w buffer (wrap64 (operand_signed ExtraWide register)).

(** ** The table *)

(** [ExceptionStackRootrs]. *)
Record Handlers : Type := {
  width : WidthEnum;
  data : list Z
}.

Definition finish (b : HandlersBuilder) : option Handlers :=
  match handlers b with
  | [] => None
  | hs => Some {| width := builder_width b; data := foldl (write_handler (builder_width b)) [] hs |}
  end.

(** [ExceptionStackRootr]: a view of the entry at offset [ptr] of the data. *)
Record HandlerView : Type := {
  ptr : Z;
  view_width : WidthEnum
}.

(** A read of [n] bytes through a pointer into the data. *)
Definition read_bytes (t : Handlers) (offset : Z) (n : nat) : outcome (list Z) :=
  if (0 <=? offset) && (offset + Z.of_nat n <=? Z.of_nat (length (data t)))
  then Done (take n (drop (Z.to_nat offset) (data t))) else Faulted.

Definition read_uint (t : Handlers) (offset : Z) (n : nat) : outcome Z :=
  bs ← read_bytes t offset n; Done (from_ne_bytes bs).

Definition get_value_at (t : Handlers) (v : HandlerView) (index : Z) : outcome Z :=
  match view_width v with
  | Narrow => read_uint t (ptr v + index) 1
  | Wide => read_uint t (ptr v + index * 2) 2
  | ExtraWide => read_uint t (ptr v + index * 8) 8
  end.

Definition view_start (t : Handlers) (v : HandlerView) : outcome Z := get_value_at t v 0.
Definition view_end (t : Handlers) (v : HandlerView) : outcome Z := get_value_at t v 1.
Definition view_handler (t : Handlers) (v : HandlerView) : outcome Z := get_value_at t v 2.

(** The register is sign-extended and cut to 32 bits; [this] stands for no register. *)
Definition view_error_register (t : Handlers) (v : HandlerView) : outcome (option operand) :=
  raw_value ←
    match view_width v with
    | Narrow => x ← read_uint t (ptr v + 3) 1; Done (cast_signed 8 x)
    | Wide => x ← read_uint t (ptr v + 6) 2; Done (cast_signed 16 x)
    | ExtraWide => x ← read_uint t (ptr v + 24) 8; Done (cast_signed 64 x)
    end;
  let register := operand_from_signed ExtraWide (cast_signed 32 raw_value) in
  Done (if is_this register then None else Some register).

(** [ExceptionStackRootrsIterator::next] at offset [current]. *)
Definition handlers_iterator_next (t : Handlers) (current : Z) : option (HandlerView * Z) :=
  if current =? Z.of_nat (length (data t)) then None
  else
    let entry_size := match width t with Narrow => 1 | Wide => 2 | ExtraWide => 4 end in
    Some ({| ptr := current; view_width := width t |}, current + entry_size * 4).

(** ** The innermost handler *)

(** One iteration of the loop of [visit_frame_for_exception_unwinding]: handler bounds are
    (exclusive, inclusive] since the offset is that of the next instruction. *)
Definition consider_handler (t : Handlers) (v : HandlerView) (instr_offset : Z)
    (innermost : option (HandlerView * Z)) : outcome (option (HandlerView * Z)) :=
  start ← view_start t v;
  covered ← (if start <? instr_offset
             then end_ ← view_end t v; Done (instr_offset <=? end_) else Done false);
  if covered : bool then
    end_ ← view_end t v;
    start ← view_start t v;
    let handler_width := end_ - start in
    match innermost with
    | Some (v', min_width) =>
        if min_width <? handler_width then Done (Some (v', min_width))
        else Done (Some (v, handler_width))
    | None => Done (Some (v, handler_width))
    end
  else Done innermost.

Fixpoint find_handler (fuel : nat) (t : Handlers) (current instr_offset : Z)
    (innermost : option (HandlerView * Z)) : outcome (option (HandlerView * Z)) :=
  match fuel with
  | O => OutOfFuel
  | S fuel =>
      match handlers_iterator_next t current with
      | None => Done innermost
      | Some (v, current) =>
          innermost ← consider_handler t v instr_offset innermost;
          find_handler fuel t current instr_offset innermost
      end
  end.

(** The handler block to continue at, with the register for the error, if a handler of the frame
    covers the instruction.  Every entry takes at least four bytes. *)
Definition visit_frame_for_exception_unwinding (exception_handlers : option Handlers)
    (instr_offset : Z) : outcome (option (Z * option operand)) :=
  match exception_handlers with
  | None => Done None
  | Some t =>
      innermost ← find_handler (S (length (data t))) t 0 instr_offset None;
      match innermost with
      | None => Done None
      | Some (v, _) =>
          handler ← view_handler t v;
          register ← view_error_register t v;
          Done (Some (handler, register))
      end
  end.

(** ** Lemmas *)

Definition handler_register (h : HandlerBuilder) : operand :=
  default (register_this ExtraWide) (error_register h).

(** What the generator adds: offsets, and a register that is not [this]. *)
Definition handler_ok (h : HandlerBuilder) : Prop :=
  0 <= start h < 2 ^ 32 /\ 0 <= end_ h < 2 ^ 32 /\ 0 <= handler h < 2 ^ 32 /\
  match error_register h with
  | Some r => operand_ok ExtraWide r /\ is_this r = false
  | None => True
  end.

(** The integers of the entry fit in the width. *)
Definition handler_fits (w : WidthEnum) (h : HandlerBuilder) : Prop :=
  start h <= UNSIGNED_MAX w /\ end_ h <= UNSIGNED_MAX w /\ handler h <= UNSIGNED_MAX w /\
  SIGNED_MIN w <= operand_signed ExtraWide (handler_register h) <= SIGNED_MAX w.

Definition field_bytes (w : WidthEnum) (value : Z) : list Z :=
  to_ne_bytes (Z.to_nat (num_bytes w)) (value mod width_modulus w).

Definition handler_bytes (w : WidthEnum) (h : HandlerBuilder) : list Z :=
  field_bytes w (start h) ++ field_bytes w (end_ h) ++ field_bytes w (handler h) ++
  field_bytes w (wrap64 (operand_signed ExtraWide (handler_register h))).

Lemma write_handler_operand_bytes w buffer value :
  w <> ExtraWide -> write_handler_operand w buffer value = buffer ++ field_bytes w value.
Proof.
  intros Hw. destruct w; [|done..]. unfold write_handler_operand, field_bytes.
  change (Z.to_nat (num_bytes Narrow)) with 1%nat. cbn [to_ne_bytes]. rewrite width_modulus_narrow.
  change (2 ^ 8) with 256. by rewrite Z.mod_mod.
Qed.

Lemma data_bytes w hs buffer :
  w <> ExtraWide ->
  foldl (write_handler w) buffer hs = buffer ++ concat (map (handler_bytes w) hs).
Proof.
  intros Hw. revert buffer. induction hs as [|h hs IH]; intros buffer; cbn; [by rewrite app_nil_r|].
  rewrite IH. unfold write_handler, handler_bytes. rewrite !write_handler_operand_bytes by done.
  by rewrite <-!app_assoc.
Qed.

Lemma read_uint_field t w pre value post offset :
  data t = pre ++ field_bytes w value ++ post -> offset = Z.of_nat (length pre) ->
  read_uint t offset (Z.to_nat (num_bytes w)) = Done (value mod width_modulus w).
Proof.
  intros Hd ->. unfold read_uint, read_bytes. rewrite Hd, !length_app.
  assert (Hl : length (field_bytes w value) = Z.to_nat (num_bytes w)) by apply length_to_ne_bytes.
  case_match eqn:E.
  - cbn. rewrite Nat2Z.id, drop_app_length, take_app_length' by done. f_equal.
    apply from_to_ne_bytes_width, operand_to_width_ok.
  - rewrite andb_false_iff, Z.leb_gt, Z.leb_gt in E. lia.
Qed.

(** Reading the fields of an entry in a table. *)
Definition reads (t : Handlers) (v : HandlerView) (h : HandlerBuilder) : Prop :=
  view_start t v = Done (start h) /\ view_end t v = Done (end_ h) /\
  view_handler t v = Done (handler h) /\ view_error_register t v = Done (error_register h).

Lemma cast_signed_width w x :
  w <> ExtraWide -> SIGNED_MIN w <= x <= SIGNED_MAX w ->
  cast_signed (8 * num_bytes w) (wrap64 x mod width_modulus w) = x.
Proof.
  intros Hw Hx. unfold cast_signed, wrap64. destruct w; [..|done]; unfold SIGNED_MIN, SIGNED_MAX in Hx;
    rewrite ?width_modulus_narrow, ?width_modulus_wide in *; cbn [num_bytes];
    change (2 ^ (8 * 1)) with 256; change (2 ^ (8 * 2)) with 65536;
    change (2 ^ (8 * 1 - 1)) with 128; change (2 ^ (8 * 2 - 1)) with 32768;
    change (2 ^ 64) with 18446744073709551616; case_match eqn:E;
    [apply Z.ltb_lt in E|apply Z.ltb_ge in E|apply Z.ltb_lt in E|apply Z.ltb_ge in E]; div_lia.
Qed.

Lemma cast_signed_32_small x :
  SIGNED_MIN ExtraWide <= x <= SIGNED_MAX ExtraWide -> cast_signed 32 x = x.
Proof.
  intros Hx. unfold cast_signed. unfold SIGNED_MIN, SIGNED_MAX in Hx.
  rewrite width_modulus_extra_wide in Hx. change (2 ^ 32) with 4294967296.
  change (2 ^ (32 - 1)) with 2147483648.
  case_match eqn:E; [apply Z.ltb_lt in E|apply Z.ltb_ge in E]; div_lia.
Qed.

(** The register that is read back, or none for the sigil. *)
Lemma register_read_back h :
  handler_ok h ->
  let register := operand_from_signed ExtraWide
    (cast_signed 32 (operand_signed ExtraWide (handler_register h))) in
  (if is_this register then None else Some register) = error_register h.
Proof.
  intros (_ & _ & _ & Hr). unfold handler_register. destruct (error_register h) as [r|]; cbn zeta.
  - cbn [default from_option id]. destruct Hr as [Hr Ht]. unfold operand_signed, operand_from_signed.
    rewrite cast_signed_32_small by (by apply as_signed_range).
    rewrite as_unsigned_as_signed by done. by rewrite Ht.
  - done.
Qed.

(** The accessors of a narrow or wide view. *)
Lemma get_value_at_width t v index :
  view_width v <> ExtraWide ->
  get_value_at t v index =
    read_uint t (ptr v + index * num_bytes (view_width v)) (Z.to_nat (num_bytes (view_width v))).
Proof.
  unfold get_value_at. destruct (view_width v); intros Hw; [|done..]. cbn [num_bytes].
  by rewrite Z.mul_1_r.
Qed.

Lemma view_error_register_width t v :
  view_width v <> ExtraWide ->
  view_error_register t v =
    (x ← read_uint t (ptr v + 3 * num_bytes (view_width v)) (Z.to_nat (num_bytes (view_width v)));
     let register := operand_from_signed ExtraWide
       (cast_signed 32 (cast_signed (8 * num_bytes (view_width v)) x)) in
     Done (if is_this register then None else Some register)).
Proof.
  unfold view_error_register. destruct (view_width v); intros Hw; [..|done]; cbn [num_bytes];
    by destruct (read_uint _ _ _).
Qed.

Lemma reads_entry t pre h post :
  width t <> ExtraWide -> handler_ok h -> handler_fits (width t) h ->
  data t = pre ++ handler_bytes (width t) h ++ post ->
  reads t {| ptr := Z.of_nat (length pre); view_width := width t |} h.
Proof.
  intros Hw Hok (Hs & He & Hh & Hr) Hd. pose proof Hok as (Hs0 & He0 & Hh0 & _).
  unfold handler_bytes in Hd. rewrite <-!app_assoc in Hd. set (w := width t) in *.
  assert (Hl : forall x, length (field_bytes w x) = Z.to_nat (num_bytes w)) by (intros; apply length_to_ne_bytes).
  pose proof (fun o => read_uint_field t w pre _ _ o Hd) as R0.
  rewrite app_assoc in Hd. pose proof (fun o => read_uint_field t w _ _ _ o Hd) as R1.
  rewrite app_assoc in Hd. pose proof (fun o => read_uint_field t w _ _ _ o Hd) as R2.
  rewrite app_assoc in Hd. pose proof (fun o => read_uint_field t w _ _ _ o Hd) as R3.
  rewrite !length_app, !Hl in R1. rewrite !length_app, !Hl in R2. rewrite !length_app, !Hl in R3.
  assert (Hn : 0 < num_bytes w) by (by destruct w).
  assert (Hmod : forall x, 0 <= x <= UNSIGNED_MAX w -> x mod width_modulus w = x).
  { intros x Hx. apply Z.mod_small. unfold UNSIGNED_MAX in Hx. lia. }
  pose proof (register_read_back h Hok) as Hback. cbn zeta in Hback.
  unfold reads, view_start, view_end, view_handler.
  rewrite !get_value_at_width, view_error_register_width by done. cbn [view_width ptr].
  rewrite R0 by lia. rewrite R1 by lia. rewrite R2 by lia. rewrite R3 by lia.
  rewrite (Hmod (start h)) by lia. rewrite (Hmod (end_ h)), (Hmod (handler h)) by lia. cbn [mbind outcome_bind]. cbn zeta.
  by rewrite cast_signed_width, Hback.
Qed.

(** ** The search *)

Definition covers (h : HandlerBuilder) (off : Z) : Prop := start h < off <= end_ h.
Definition span (h : HandlerBuilder) : Z := end_ h - start h.

(** The innermost handler among those that were visited. *)
Definition innermost_among (t : Handlers) (off : Z) (seen : list HandlerBuilder)
    (innermost : option (HandlerView * Z)) : Prop :=
  match innermost with
  | None => forall h, h ∈ seen -> ~ covers h off
  | Some (v, m) => exists h, h ∈ seen /\ covers h off /\ reads t v h /\ m = span h /\
      forall h', h' ∈ seen -> covers h' off -> span h <= span h'
  end.

Lemma length_handler_bytes w h : length (handler_bytes w h) = (4 * Z.to_nat (num_bytes w))%nat.
Proof. unfold handler_bytes, field_bytes. rewrite !length_app, !length_to_ne_bytes. lia. Qed.

(** One visited handler. *)
Lemma consider_handler_spec t off seen h v innermost :
  reads t v h -> innermost_among t off seen innermost ->
  exists innermost', consider_handler t v off innermost = Done innermost' /\
    innermost_among t off (seen ++ [h]) innermost'.
Proof.
  intros Hv Hi. pose proof Hv as (Hs & He & _ & _). unfold consider_handler.
  rewrite Hs. cbn [mbind outcome_bind].
  assert (Hskip : ~ covers h off -> innermost_among t off (seen ++ [h]) innermost).
  { intros Hn. destruct innermost as [[v' m]|]; cbn in *.
    - destruct Hi as (h0 & Hin & Hc & Hr & Hm & Hmin). exists h0. split_and!; try done; [set_solver|].
      intros h' [Hh'| ->%list_elem_of_singleton]%elem_of_app Hc'; [auto|done].
    - intros h' [Hh'| ->%list_elem_of_singleton]%elem_of_app; [auto|done]. }
  assert (Htake : forall m, m = span h -> covers h off ->
    (forall h', h' ∈ seen -> covers h' off -> span h <= span h') ->
    innermost_among t off (seen ++ [h]) (Some (v, m))).
  { intros m -> Hc Hmin. exists h. split_and!; try done; [set_solver|].
    intros h' [Hh'| ->%list_elem_of_singleton]%elem_of_app Hc'; [auto|lia]. }
  destruct (Z.ltb_spec (start h) off) as [Hlt|Hge].
  2: { cbn. exists innermost. split; [done|]. apply Hskip. unfold covers. lia. }
  rewrite He. cbn [mbind outcome_bind]. destruct (Z.leb_spec off (end_ h)) as [Hle|Hgt].
  2: { exists innermost. split; [done|]. apply Hskip. unfold covers. lia. }
  assert (Hc : covers h off) by done.
  destruct innermost as [[v' m]|]; cbn in Hi.
  - destruct Hi as (h0 & Hin & Hc0 & Hr & -> & Hmin).
    destruct (Z.ltb_spec (span h0) (end_ h - start h)) as [Hm|Hm].
    + eexists. split; [done|]. exists h0. split_and!; try done; [set_solver|].
      intros h' [Hh'| ->%list_elem_of_singleton]%elem_of_app Hc'; [auto|unfold span in *; lia].
    + eexists. split; [done|]. apply Htake; [done..|]. intros h' Hh' Hc'.
      specialize (Hmin h' Hh' Hc'). unfold span in *. lia.
  - eexists. split; [done|]. apply Htake; [done..|]. intros h' Hh' Hc'. by destruct (Hi h' Hh').
Qed.

Lemma find_handler_spec hs fuel t off pre seen innermost :
  width t <> ExtraWide -> Forall (fun h => handler_ok h /\ handler_fits (width t) h) hs ->
  data t = pre ++ concat (map (handler_bytes (width t)) hs) ->
  (length hs < fuel)%nat -> innermost_among t off seen innermost ->
  exists innermost', find_handler fuel t (Z.of_nat (length pre)) off innermost = Done innermost' /\
    innermost_among t off (seen ++ hs) innermost'.
Proof.
  intros Hw Hhs. revert fuel pre seen innermost.
  induction Hhs as [|h hs [Hok Hfit] Hhs IH]; intros fuel pre seen innermost Hd Hf Hi;
    (destruct fuel as [|fuel]; [cbn in Hf; lia|]); cbn [find_handler]; unfold handlers_iterator_next.
  - cbn in Hd. rewrite app_nil_r in Hd. rewrite Hd, Z.eqb_refl. exists innermost.
    by rewrite app_nil_r.
  - cbn [map concat] in Hd. assert (Hlen : (0 < length (handler_bytes (width t) h))%nat).
    { rewrite length_handler_bytes. destruct (width t); cbn; lia. }
    destruct (Z.eqb_spec (Z.of_nat (length pre)) (Z.of_nat (length (data t)))) as [E|_].
    { rewrite Hd, !length_app in E. lia. }
    pose proof (reads_entry t pre h _ Hw Hok Hfit Hd) as Hr.
    destruct (consider_handler_spec t off seen h _ innermost Hr Hi) as (inn1 & -> & H1).
    cbn [mbind outcome_bind]. rewrite app_assoc in Hd.
    destruct (IH fuel _ (seen ++ [h]) inn1 Hd) as (inn2 & H2 & H3); [cbn in Hf; lia|done|].
    exists inn2. rewrite <-app_assoc in H3. split; [|done]. rewrite <-H2. f_equal.
    rewrite length_app, length_handler_bytes. destruct (width t); cbn; lia || done.
Qed.

(** ** Widths of the table *)

Lemma add_width b h w :
  width_leb (builder_width (add b h)) w = true <->
  width_leb (builder_width b) w = true /\ width_leb (min_width_for_unsigned (start h)) w = true /\
  width_leb (min_width_for_unsigned (end_ h)) w = true /\
  width_leb (min_width_for_unsigned (handler h)) w = true /\
  match error_register h with
  | Some r => width_leb (operand_min_width Register ExtraWide r) w = true
  | None => True
  end.
Proof.
  unfold add. cbn [builder_width]. destruct (error_register h);
    rewrite !width_max_leb, !andb_true_iff; tauto.
Qed.

Lemma add_all hs b :
  let b' := foldl add b hs in
  handlers b' = handlers b ++ hs /\ width_leb (builder_width b) (builder_width b') = true /\
  (Forall handler_ok hs -> Forall (handler_fits (builder_width b')) hs).
Proof.
  revert b. induction hs as [|h hs IH]; intros b; cbn [foldl].
  { cbn. rewrite app_nil_r, width_leb_refl. split_and!; [done..|]. constructor. }
  destruct (IH (add b h)) as (Hh & Hw & Hf). cbn zeta in *.
  set (b' := foldl add (add b h) hs) in *. apply add_width in Hw as (Hb & Hs & He & Hhd & Hr).
  split_and!; [rewrite Hh; cbn; by rewrite <-app_assoc|done|].
  intros [Hok Hoks]%Forall_cons. constructor; [|by apply Hf].
  destruct Hok as (Hs0 & He0 & Hh0 & Hr0).
  assert (Hu : forall x, 0 <= x < 2 ^ 32 ->
    width_leb (min_width_for_unsigned x) (builder_width b') = true -> x <= UNSIGNED_MAX (builder_width b')).
  { intros x Hx. apply min_width_for_unsigned_spec. change (UNSIGNED_MAX ExtraWide) with (2 ^ 32 - 1). lia. }
  split_and!; try by apply Hu.
  all: unfold handler_register; destruct (error_register h) as [r|]; cbn [default from_option id].
  all: try by destruct (builder_width b').
  all: destruct Hr0 as [Hr0 _]; apply min_width_for_signed_spec; [by apply as_signed_range|done].
Qed.

(** The handler that unwinding a frame finds in a table. *)
Definition innermost_of (hs : list HandlerBuilder) (off : Z) (r : option (Z * option operand)) : Prop :=
  match r with
  | None => forall h, h ∈ hs -> ~ covers h off
  | Some (block, register) => exists h, h ∈ hs /\ covers h off /\ handler h = block /\
      error_register h = register /\ forall h', h' ∈ hs -> covers h' off -> span h <= span h'
  end.

Lemma visit_frame_innermost (hs : list HandlerBuilder) (off : Z) :
  Forall handler_ok hs -> builder_width (foldl add HandlersBuilder_new hs) <> ExtraWide ->
  exists r,
    visit_frame_for_exception_unwinding (finish (foldl add HandlersBuilder_new hs)) off = Done r /\
    innermost_of hs off r.
Proof.
  intros Hok Hw. destruct (add_all hs HandlersBuilder_new) as (Hh & _ & Hf). specialize (Hf Hok).
  cbn [HandlersBuilder_new handlers app] in Hh. unfold finish. rewrite Hh.
  destruct hs as [|h0 hs0] eqn:Ehs.
  { exists None. split; [done|]. intros h Hin. by apply elem_of_nil in Hin. }
  rewrite <-Ehs in *. rewrite data_bytes by done. cbn [app].
  set (t := {| width := _; data := _ |}). cbn [visit_frame_for_exception_unwinding].
  destruct (find_handler_spec hs (S (length (data t))) t off [] [] None) as (inn & Hfind & Hi).
  - done.
  - rewrite Forall_forall in Hok, Hf |- *. intros h Hin. split; [by apply Hok|by apply Hf].
  - done.
  - cbn [data t]. clear. set (w := builder_width _). generalize w. clear w. intros w.
    induction hs as [|h hs IH]; cbn [map concat length]; [lia|].
    rewrite length_app, length_handler_bytes. assert (0 < Z.to_nat (num_bytes w))%nat by (destruct w; cbn; lia).
    lia.
  - intros h Hin. by apply elem_of_nil in Hin.
  - change (Z.of_nat (length [])) with 0 in Hfind. rewrite Hfind. cbn [mbind outcome_bind app] in *.
    destruct inn as [[v m]|]; cbn in Hi; [|by exists None].
    destruct Hi as (h & Hin & Hc & (_ & _ & Hvh & Hvr) & _ & Hmin). rewrite Hvh, Hvr. cbn.
    eexists. split; [done|]. by exists h.
Qed.

(** An exception continues at the innermost handler.  For any handlers that were added to a
    table whose integers fit in sixteen bits, unwinding a frame at an instruction offset finds a
    handler exactly when one covers the offset; the one it finds is a handler of the table, with the
    block and error register it was added with, and no handler that covers the offset spans
    fewer bytes. *)
Theorem innermost_handler_is_found (hs : list HandlerBuilder) (off : Z) :
  Forall handler_ok hs -> builder_width (foldl add HandlersBuilder_new hs) <> ExtraWide ->
  exists r,
    visit_frame_for_exception_unwinding (finish (foldl add HandlersBuilder_new hs)) off = Done r /\
    match r with
    | None => forall h, h ∈ hs -> ~ covers h off
    | Some (block, register) => exists h, h ∈ hs /\ covers h off /\ handler h = block /\
        error_register h = register /\ forall h', h' ∈ hs -> covers h' off -> span h <= span h'
    end.
Proof. apply visit_frame_innermost. Qed.

(** Two nested handlers with wide offsets, an error under both. *)
Definition example_handlers : list HandlerBuilder :=
  [{| start := 0; end_ := 300; handler := 310; error_register := Some (register_local ExtraWide 0) |};
   {| start := 10; end_ := 50; handler := 60; error_register := None |}].

Lemma innermost_handler_is_found_witness :
  exists r,
    visit_frame_for_exception_unwinding (finish (foldl add HandlersBuilder_new example_handlers)) 20 =
      Done r /\
    match r with
    | None => forall h, h ∈ example_handlers -> ~ covers h 20
    | Some (block, register) => exists h, h ∈ example_handlers /\ covers h 20 /\ handler h = block /\
        error_register h = register /\
        forall h', h' ∈ example_handlers -> covers h' 20 -> span h <= span h'
    end.
Proof.
  apply innermost_handler_is_found; [|done]. repeat constructor; done.
Defined.

(** Extra wide tables are misread.  The entries are 32 bytes long but the iterator advances by
    16, so that the second half of an entry is taken for an entry of its own: for a handler behind
    the first 64 kilobytes of a function, an error that no handler covers is taken to be
    covered, and the handler block is read outside of the table. *)
Theorem extra_wide_handlers_are_misread :
  let h := {| start := 70000; end_ := 70010; handler := 70020;
              error_register := Some (register_local ExtraWide 0) |} in
  handler_ok h /\ ~ covers h 70100 /\
  visit_frame_for_exception_unwinding (finish (add HandlersBuilder_new h)) 70100 = Faulted.
Proof. split_and!; [done|unfold covers; cbn; lia|done]. Qed.
