(* ===== verification/VmStack.v ===== *)
(** The stack of the virtual machine: [src/so2js/runtime/bytecode/stack_frame.rs], and the calls,
    returns and exceptions of [vm.rs].

    Frames lie on a downward-growing array of slots.  The callee's frame holds the saved state of
    the caller and follows the arguments that were pushed for the call; its registers are below
    the frame pointer.  Slot addresses are counted in slots; address 0 is the null pointer. *)
From S2P Require Import Prelude Float64 Value BytecodeOperand ExceptionHandlers.

(** ** The machine *)

Record VM : Type := {
  pc : Z;
  sp : Z;
  fp : Z;
  slots : gmap Z Z;
  num_stack_frames : Z
}.

(** What the machine reads of a closure on the heap: its function's parameters, registers, bytecode
    address, constant table and exception handlers, and its scope. *)
Record ClosureInfo : Type := {
  num_parameters : Z;
  num_registers : Z;
  bytecode : Z;
  constant_table_ptr : Z;
  scope_ptr : Z;
  exception_handlers_ptr : option Handlers
}.

(** The limit of release builds. *)
Definition MAX_STACK_DEPTH : Z := 4096.

Definition RETURN_ADDRESS_SLOT_INDEX : Z := 1.
Definition RETURN_VALUE_ADDRESS_INDEX : Z := 2.
Definition CONSTANT_TABLE_SLOT_INDEX : Z := 4.
Definition ARGC_SLOT_INDEX : Z := 6.

Definition IS_RUST_CALLER_TAG : Z := Z.shiftl 1 63.

Definition encode_return_address_slot (return_address : Z) (is_rust_caller : bool) : Z :=
  if is_rust_caller then Z.lor return_address IS_RUST_CALLER_TAG else return_address.

Inductive CallResult (A : Type) : Type :=
| CallOk (a : A)
| StackOverflow.
Arguments CallOk {A} a.
Arguments StackOverflow {A}.

Section Machine.

Context (closure_info : Z -> ClosureInfo) (stack_ptr_start stack_ptr_end : Z).

Definition with_sp (vm : VM) (sp : Z) : VM := {|
  pc := pc vm; sp := sp; fp := fp vm; slots := slots vm; num_stack_frames := num_stack_frames vm |}.
Definition with_fp (vm : VM) (fp : Z) : VM := {|
  pc := pc vm; sp := sp vm; fp := fp; slots := slots vm; num_stack_frames := num_stack_frames vm |}.
Definition with_pc (vm : VM) (pc : Z) : VM := {|
  pc := pc; sp := sp vm; fp := fp vm; slots := slots vm; num_stack_frames := num_stack_frames vm |}.
Definition with_num_stack_frames (vm : VM) (n : Z) : VM := {|
  pc := pc vm; sp := sp vm; fp := fp vm; slots := slots vm; num_stack_frames := n |}.

(** Accesses outside of the stack, and reads of slots that were never written, are undefined. *)
Definition read_slot (vm : VM) (address : Z) : outcome Z := deref (slots vm !! address).
Definition write_slot (vm : VM) (address value : Z) : outcome VM :=
  if (stack_ptr_start <=? address) && (address <? stack_ptr_end)
  then Done {| pc := pc vm; sp := sp vm; fp := fp vm; slots := <[address := value]> (slots vm);
               num_stack_frames := num_stack_frames vm |}
  else Faulted.

Definition reset_stack (vm : VM) : VM := {|
  pc := pc vm; sp := stack_ptr_end; fp := 0; slots := slots vm; num_stack_frames := 0 |}.

(** ** Frames *)

Definition is_rust_caller (vm : VM) (frame : Z) : outcome bool :=
  v ← read_slot vm (frame + RETURN_ADDRESS_SLOT_INDEX);
  Done (negb (Z.land v IS_RUST_CALLER_TAG =? 0)).

Definition return_address (vm : VM) (frame : Z) : outcome Z :=
  v ← read_slot vm (frame + RETURN_ADDRESS_SLOT_INDEX); Done (Z.ldiff v IS_RUST_CALLER_TAG).

Definition set_return_address (vm : VM) (frame addr : Z) : outcome VM :=
  rust ← is_rust_caller vm frame;
  write_slot vm (frame + RETURN_ADDRESS_SLOT_INDEX) (encode_return_address_slot addr rust).

Definition return_value_address (vm : VM) (frame : Z) : outcome Z :=
  read_slot vm (frame + RETURN_VALUE_ADDRESS_INDEX).
Definition frame_scope (vm : VM) (frame : Z) : outcome Z := read_slot vm (frame + SCOPE_SLOT_INDEX).
Definition frame_constant_table (vm : VM) (frame : Z) : outcome Z :=
  read_slot vm (frame + CONSTANT_TABLE_SLOT_INDEX).
Definition frame_closure (vm : VM) (frame : Z) : outcome Z :=
  read_slot vm (frame + CLOSURE_SLOT_INDEX).
Definition frame_argc (vm : VM) (frame : Z) : outcome Z := read_slot vm (frame + ARGC_SLOT_INDEX).
Definition frame_receiver (vm : VM) (frame : Z) : outcome Z :=
  read_slot vm (frame + RECEIVER_SLOT_INDEX).

Definition previous_frame (vm : VM) (frame : Z) : outcome (option Z) :=
  prev_fp ← read_slot vm frame; Done (if prev_fp =? 0 then None else Some prev_fp).

Definition frame_sp (vm : VM) (frame : Z) : outcome Z :=
  closure ← frame_closure vm frame; Done (frame - num_registers (closure_info closure)).

(** Registers of the current frame, by the signed slot index of the operand. *)
Definition read_register (vm : VM) (reg : Z) : outcome Z := read_slot vm (fp vm + reg).
Definition write_register (vm : VM) (reg value : Z) : outcome VM := write_slot vm (fp vm + reg) value.

(** ** Calls *)

Definition push (vm : VM) (value : Z) : outcome VM :=
  let vm := with_sp vm (sp vm - 1) in write_slot vm (sp vm) value.

Fixpoint push_all (vm : VM) (values : list Z) : outcome VM :=
  match values with
  | [] => Done vm
  | v :: values => vm ← push vm v; push_all vm values
  end.

Definition push_fp (vm : VM) : outcome VM := vm ← push vm (fp vm); Done (with_fp vm (sp vm)).

Definition stack_depth_check (vm : VM) (new_frame_num_slots : Z) : CallResult VM :=
  if sp vm - new_frame_num_slots <? stack_ptr_start then StackOverflow
  else if MAX_STACK_DEPTH <=? num_stack_frames vm then StackOverflow
  else CallOk (with_num_stack_frames vm (num_stack_frames vm + 1)).

(** Missing arguments are pushed as [undefined], then the arguments in reverse order. *)
Definition push_call_arguments (vm : VM) (args_rev : list Z) (argc num_declared_parameters : Z)
    : outcome VM :=
  vm ← (if argc <? num_declared_parameters
        then push_all vm (replicate (Z.to_nat (num_declared_parameters - argc)) (as_raw_bits undefined))
        else Done vm);
  push_all vm args_rev.

Fixpoint fill_slots (vm : VM) (address : Z) (n : nat) (value : Z) : outcome VM :=
  match n with
  | O => Done vm
  | S n => vm ← write_slot vm address value; fill_slots vm (address + 1) n value
  end.

Definition allocate_local_registers (vm : VM) (num_registers : Z) : outcome VM :=
  let vm := with_sp vm (sp vm - num_registers) in
  fill_slots vm (sp vm) (Z.to_nat num_registers) (as_raw_bits undefined).

Definition push_stack_frame (vm : VM) (closure receiver : Z) (args_rev : list Z) (argc : Z)
    (return_to_rust_runtime : bool) (return_value_address : Z) : outcome (CallResult VM) :=
  let info := closure_info closure in
  let num_argument_slots := Z.max argc (num_parameters info) in
  let num_frame_slots := num_argument_slots + FIRST_ARGUMENT_SLOT_INDEX + num_registers info in
  match stack_depth_check vm num_frame_slots with
  | StackOverflow => Done StackOverflow
  | CallOk vm =>
      vm ← push_call_arguments vm args_rev argc (num_parameters info);
      vm ← push vm receiver;
      vm ← push vm argc;
      vm ← push vm closure;
      vm ← push vm (constant_table_ptr info);
      vm ← push vm (scope_ptr info);
      vm ← push vm return_value_address;
      let return_address_slot := encode_return_address_slot (pc vm) return_to_rust_runtime in
      vm ← push vm return_address_slot;
      vm ← push_fp vm;
      vm ← allocate_local_registers vm (num_registers info);
      Done (CallOk (with_pc vm (bytecode info)))
  end.

Definition pop_stack_frame (vm : VM) : outcome VM :=
  closure ← frame_closure vm (fp vm);
  argc ← frame_argc vm (fp vm);
  let num_arguments := Z.max argc (num_parameters (closure_info closure)) in
  return_address ← return_address vm (fp vm);
  let vm := with_pc vm return_address in
  let vm := with_sp vm (fp vm + (FIRST_ARGUMENT_SLOT_INDEX + num_arguments)) in
  prev_fp ← read_slot vm (fp vm);
  let vm := with_fp vm prev_fp in
  Done (with_num_stack_frames vm (num_stack_frames vm - 1)).

(** ** Exceptions *)

(** [visit_frame_for_exception_unwinding]: the machine continues at the handler of the frame that
    covers [instr_addr], if there is one. *)
Definition visit_frame (vm : VM) (frame instr_addr error_value : Z) : outcome (option VM) :=
  closure ← frame_closure vm frame;
  let info := closure_info closure in
  match exception_handlers_ptr info with
  | None => Done None
  | Some handlers =>
      found ← visit_frame_for_exception_unwinding (Some handlers) (instr_addr - bytecode info);
      match found with
      | None => Done None
      | Some (handler, register) =>
          let vm := with_pc vm (bytecode info + handler) in
          let vm := with_fp vm frame in
          sp ← frame_sp vm frame;
          let vm := with_sp vm sp in
          match register with
          | Some error_register =>
              vm ← write_register vm (operand_signed ExtraWide error_register) error_value;
              Done (Some vm)
          | None => Done (Some vm)
          end
      end
  end.

Inductive ThrowResult : Type :=
| Continue (vm : VM)       (* [continue 'dispatch] at a handler *)
| ReturnError (vm : VM).   (* the dispatch loop returns the error *)

(** The loop of [throw!] over the callers of [stack_frame]. *)
Fixpoint throw_callers (fuel : nat) (vm : VM) (stack_frame error_value : Z) : outcome ThrowResult :=
  match fuel with
  | O => OutOfFuel
  | S fuel =>
      caller ← previous_frame vm stack_frame;
      match caller with
      | None => Done (ReturnError (reset_stack vm))
      | Some caller_stack_frame =>
          let vm := with_num_stack_frames vm (num_stack_frames vm - 1) in
          rust ← is_rust_caller vm stack_frame;
          if rust : bool then
            address ← return_address vm stack_frame;
            let vm := with_pc vm address in
            let vm := with_fp vm caller_stack_frame in
            sp ← frame_sp vm caller_stack_frame;
            Done (ReturnError (with_sp vm sp))
          else
            address ← return_address vm stack_frame;
            found ← visit_frame vm caller_stack_frame address error_value;
            match found with
            | Some vm => Done (Continue vm)
            | None => throw_callers fuel vm caller_stack_frame error_value
            end
      end
  end.

Definition throw (fuel : nat) (vm : VM) (error_value : Z) : outcome ThrowResult :=
  let stack_frame := fp vm in
  found ← visit_frame vm stack_frame (pc vm) error_value;
  match found with
  | Some vm => Done (Continue vm)
  | None => throw_callers fuel vm stack_frame error_value
  end.

End Machine.
