(* ===== verification/VmStackCorrect.v ===== *)
(** The stack of the virtual machine implements a stack of frames.

    [frames_repr] relates the slots of the stack to a list of abstract frames.  A call adds a frame
    and leaves the callers' slots alone, or reports an overflow before it writes anything; a return
    restores the caller; an exception drops frames down to the one that handles it. *)
From S2P Require Import Prelude Float64 Value BytecodeOperand ExceptionHandlers VmStack.

(** ** Writing runs of slots *)

(** Values pushed one after another below address [a]. *)
Fixpoint insert_down (m : gmap Z Z) (a : Z) (l : list Z) : gmap Z Z :=
  match l with
  | [] => m
  | x :: l => insert_down (<[a - 1 := x]> m) (a - 1) l
  end.

Fixpoint insert_run (m : gmap Z Z) (a : Z) (n : nat) (x : Z) : gmap Z Z :=
  match n with
  | O => m
  | S n => insert_run (<[a := x]> m) (a + 1) n x
  end.

Lemma insert_down_outside l m a b :
  a <= b \/ b < a - Z.of_nat (length l) -> insert_down m a l !! b = m !! b.
Proof.
  revert m a. induction l as [|x l IH]; intros m a Hb; cbn in *; [done|].
  rewrite IH by lia. apply lookup_insert_ne. lia.
Qed.

Lemma insert_down_lookup l m a i x :
  l !! i = Some x -> insert_down m a l !! (a - 1 - Z.of_nat i) = Some x.
Proof.
  revert m a i. induction l as [|y l IH]; intros m a i Hi; [done|]. destruct i as [|i]; cbn in *.
  - simplify_eq. rewrite insert_down_outside by lia. rewrite Z.sub_0_r. apply lookup_insert_eq.
  - rewrite <-(IH (<[a - 1 := y]> m) (a - 1) i Hi). f_equal. lia.
Qed.

Lemma insert_down_app l1 l2 m a :
  insert_down m a (l1 ++ l2) = insert_down (insert_down m a l1) (a - Z.of_nat (length l1)) l2.
Proof.
  revert m a. induction l1 as [|x l1 IH]; intros m a; cbn; [by rewrite Z.sub_0_r|].
  rewrite IH. f_equal. lia.
Qed.

Lemma insert_run_outside n m a x b :
  b < a \/ a + Z.of_nat n <= b -> insert_run m a n x !! b = m !! b.
Proof.
  revert m a. induction n as [|n IH]; intros m a Hb; cbn; [done|].
  rewrite IH by lia. apply lookup_insert_ne. lia.
Qed.

Lemma insert_run_inside n m a x b :
  a <= b < a + Z.of_nat n -> insert_run m a n x !! b = Some x.
Proof.
  revert m a. induction n as [|n IH]; intros m a Hb; cbn; [lia|].
  destruct (decide (b = a)) as [->|].
  - rewrite insert_run_outside by lia. apply lookup_insert_eq.
  - apply IH. lia.
Qed.

(** ** Abstract frames *)

Record Frame : Type := {
  f_return_address : Z;
  f_is_rust_caller : bool;
  f_return_value_address : Z;
  f_scope : Z;
  f_constant_table : Z;
  f_closure : Z;
  f_argc : Z;
  f_receiver : Z;
  f_args : list Z;
  f_registers : list Z
}.

(** The slots from the frame pointer up. *)
Definition frame_image (prev_fp : Z) (f : Frame) : list Z :=
  [prev_fp; encode_return_address_slot (f_return_address f) (f_is_rust_caller f);
   f_return_value_address f; f_scope f; f_constant_table f; f_closure f; f_argc f; f_receiver f]
  ++ f_args f.

Section Correctness.

Context (closure_info : Z -> ClosureInfo) (stack_ptr_start stack_ptr_end : Z).
Context (stack_not_null : 0 < stack_ptr_start).
Context (sizes_nonneg : forall c,
  0 <= num_parameters (closure_info c) /\ 0 <= num_registers (closure_info c)).

#[local] Abbreviation write_slot := (write_slot stack_ptr_start stack_ptr_end).
#[local] Abbreviation push := (push stack_ptr_start stack_ptr_end).
#[local] Abbreviation push_all := (push_all stack_ptr_start stack_ptr_end).
#[local] Abbreviation push_stack_frame := (push_stack_frame closure_info stack_ptr_start stack_ptr_end).
#[local] Abbreviation pop_stack_frame := (pop_stack_frame closure_info).

Definition frame_ok (f : Frame) : Prop :=
  0 <= f_return_address f < 2 ^ 63 /\ 0 <= f_argc f /\
  Z.of_nat (length (f_args f)) = Z.max (f_argc f) (num_parameters (closure_info (f_closure f))) /\
  Z.of_nat (length (f_registers f)) = num_registers (closure_info (f_closure f)).

(** Register [i] is the slot [i + 1] below the frame pointer. *)
Definition registers_at (m : gmap Z Z) (fp : Z) (registers : list Z) : Prop :=
  forall i x, registers !! i = Some x -> m !! (fp - 1 - Z.of_nat i) = Some x.
Definition image_at (m : gmap Z Z) (fp : Z) (image : list Z) : Prop :=
  forall i x, image !! i = Some x -> m !! (fp + Z.of_nat i) = Some x.

Fixpoint frames_repr (m : gmap Z Z) (fp sp : Z) (frames : list Frame) : Prop :=
  match frames with
  | [] => fp = 0 /\ sp = stack_ptr_end
  | f :: frames =>
      exists prev_fp, stack_ptr_start <= sp /\ sp = fp - Z.of_nat (length (f_registers f)) /\
        fp + Z.of_nat (length (frame_image prev_fp f)) <= stack_ptr_end /\
        image_at m fp (frame_image prev_fp f) /\ registers_at m fp (f_registers f) /\ frame_ok f /\
        frames_repr m prev_fp (fp + Z.of_nat (length (frame_image prev_fp f))) frames
  end.

Definition vm_repr (vm : VM) (frames : list Frame) : Prop :=
  frames_repr (slots vm) (fp vm) (sp vm) frames /\ stack_ptr_start <= sp vm <= stack_ptr_end /\
  num_stack_frames vm = Z.of_nat (length frames).

(** A representation only depends on the slots from the stack pointer up. *)
Lemma frames_repr_local m m' fp sp frames :
  (forall a, sp <= a -> m' !! a = m !! a) -> frames_repr m fp sp frames -> frames_repr m' fp sp frames.
Proof.
  revert fp sp. induction frames as [|f frames IH]; intros fp sp Hm; [done|].
  intros (prev & Hs & Esp & He & Hi & Hr & Hok & Hrest). exists prev. split_and!; try done.
  - intros i x Hx. rewrite Hm by lia. by apply Hi.
  - intros i x Hx. pose proof (lookup_lt_Some _ _ _ Hx). rewrite Hm by lia. by apply Hr.
  - apply IH; [|done]. intros a Ha. apply Hm. lia.
Qed.

Lemma frames_repr_sp m fp sp frames :
  stack_ptr_start <= stack_ptr_end -> frames_repr m fp sp frames ->
  stack_ptr_start <= sp <= stack_ptr_end.
Proof.
  destruct frames as [|f frames]; cbn; intros Hse; [intros [_ ->]; lia|].
  intros (prev & Hs & -> & He & _). lia.
Qed.

(** ** Pushing *)

Definition pushed (vm : VM) (l : list Z) : VM := {|
  pc := pc vm; sp := sp vm - Z.of_nat (length l); fp := fp vm;
  slots := insert_down (slots vm) (sp vm) l; num_stack_frames := num_stack_frames vm |}.

Lemma pushed_app vm l1 l2 : pushed (pushed vm l1) l2 = pushed vm (l1 ++ l2).
Proof.
  unfold pushed. cbn. rewrite insert_down_app, length_app. f_equal. lia.
Qed.

Lemma write_slot_done vm a x :
  stack_ptr_start <= a < stack_ptr_end ->
  write_slot vm a x = Done {| pc := pc vm; sp := sp vm; fp := fp vm; slots := <[a := x]> (slots vm);
                              num_stack_frames := num_stack_frames vm |}.
Proof.
  intros Ha. unfold VmStack.write_slot.
  by rewrite (proj2 (Z.leb_le _ _) (proj1 Ha)), (proj2 (Z.ltb_lt _ _) (proj2 Ha)).
Qed.

Lemma push_pushed vm x :
  stack_ptr_start <= sp vm - 1 -> sp vm <= stack_ptr_end -> push vm x = Done (pushed vm [x]).
Proof. intros Hs He. unfold VmStack.push. rewrite write_slot_done by (cbn; lia). done. Qed.

Lemma push_all_pushed l vm :
  stack_ptr_start <= sp vm - Z.of_nat (length l) -> sp vm <= stack_ptr_end ->
  push_all vm l = Done (pushed vm l).
Proof.
  revert vm. induction l as [|x l IH]; intros vm Hs He; cbn [VmStack.push_all].
  - unfold pushed. cbn. rewrite Z.sub_0_r. by destruct vm.
  - cbn [length] in Hs. rewrite push_pushed by lia. cbn [mbind outcome_bind].
    rewrite IH by (cbn; lia). by rewrite pushed_app.
Qed.

Lemma fill_slots_run n vm a x :
  stack_ptr_start <= a -> a + Z.of_nat n <= stack_ptr_end ->
  fill_slots stack_ptr_start stack_ptr_end vm a n x =
    Done {| pc := pc vm; sp := sp vm; fp := fp vm; slots := insert_run (slots vm) a n x;
            num_stack_frames := num_stack_frames vm |}.
Proof.
  revert vm a. induction n as [|n IH]; intros vm a Hs He; cbn [fill_slots]; [by destruct vm|].
  rewrite write_slot_done by lia. cbn [mbind outcome_bind]. by rewrite IH by lia.
Qed.

(** The arguments are padded with [undefined] up to the parameters. *)
Definition padded_args (c : Z) (args : list Z) : list Z :=
  args ++ replicate (Z.to_nat (num_parameters (closure_info c) - Z.of_nat (length args)))
            (as_raw_bits undefined).

Lemma length_padded_args c args :
  Z.of_nat (length (padded_args c args)) =
    Z.max (Z.of_nat (length args)) (num_parameters (closure_info c)).
Proof.
  unfold padded_args. rewrite length_app, length_replicate. pose proof (sizes_nonneg c). lia.
Qed.

Lemma push_call_arguments_pushed vm c args :
  stack_ptr_start <= sp vm - Z.of_nat (length (padded_args c args)) -> sp vm <= stack_ptr_end ->
  push_call_arguments stack_ptr_start stack_ptr_end vm (reverse args) (Z.of_nat (length args))
      (num_parameters (closure_info c)) =
    Done (pushed vm (reverse (padded_args c args))).
Proof.
  intros Hs He. unfold push_call_arguments. unfold padded_args in *.
  rewrite length_app, length_replicate in Hs. rewrite reverse_app, reverse_replicate.
  case_match eqn:E; [apply Z.ltb_lt in E|apply Z.ltb_ge in E].
  - rewrite push_all_pushed by (rewrite ?length_replicate; lia). cbn [mbind outcome_bind].
    rewrite push_all_pushed by (cbn; rewrite ?length_replicate, ?length_reverse; lia). by rewrite pushed_app.
  - replace (Z.to_nat _) with 0%nat by lia. cbn [mbind outcome_bind replicate app].
    apply push_all_pushed; [|done]. rewrite length_reverse. lia.
Qed.

(** ** Calls *)

(** The frame of a call. *)
Definition call_frame (vm : VM) (c receiver : Z) (args : list Z) (rust : bool) (rva : Z) : Frame := {|
  f_return_address := pc vm;
  f_is_rust_caller := rust;
  f_return_value_address := rva;
  f_scope := scope_ptr (closure_info c);
  f_constant_table := constant_table_ptr (closure_info c);
  f_closure := c;
  f_argc := Z.of_nat (length args);
  f_receiver := receiver;
  f_args := padded_args c args;
  f_registers := replicate (Z.to_nat (num_registers (closure_info c))) (as_raw_bits undefined) |}.

Lemma length_frame_image prev f : Z.of_nat (length (frame_image prev f)) = 8 + Z.of_nat (length (f_args f)).
Proof. unfold frame_image. rewrite length_app. cbn. lia. Qed.

(** The slots a call needs. *)
Definition call_slots (c : Z) (args : list Z) : Z :=
  Z.max (Z.of_nat (length args)) (num_parameters (closure_info c)) + 8 +
  num_registers (closure_info c).

(** What is pushed, in order, is the image of the frame from its end. *)
Lemma pushes_are_the_image vm c receiver args rust rva :
  stack_ptr_start <= sp vm - call_slots c args -> sp vm <= stack_ptr_end ->
  (vm ← push_call_arguments stack_ptr_start stack_ptr_end vm (reverse args) (Z.of_nat (length args))
          (num_parameters (closure_info c));
   vm ← push vm receiver; vm ← push vm (Z.of_nat (length args)); vm ← push vm c;
   vm ← push vm (constant_table_ptr (closure_info c)); vm ← push vm (scope_ptr (closure_info c));
   vm ← push vm rva; vm ← push vm (encode_return_address_slot (pc vm) rust);
   push_fp stack_ptr_start stack_ptr_end vm) =
  let vm' := pushed vm (reverse (frame_image (fp vm) (call_frame vm c receiver args rust rva))) in
  Done (with_fp vm' (sp vm')).
Proof.
  intros Hs He. unfold call_slots in Hs. pose proof (length_padded_args c args) as Hl.
  pose proof (sizes_nonneg c). rewrite push_call_arguments_pushed by lia. cbn [mbind outcome_bind].
  assert (Hsp : forall l, sp (pushed vm l) = sp vm - Z.of_nat (length l)) by done.
  assert (Hpush : forall l x, Z.of_nat (length l) < Z.of_nat (length (padded_args c args)) + 8 ->
    push (pushed vm l) x = Done (pushed vm (l ++ [x]))).
  { intros l x Hlen. rewrite push_pushed by (rewrite Hsp; lia). by rewrite pushed_app. }
  assert (Hbound : forall k, (k < 8)%nat ->
    Z.of_nat (length (reverse (padded_args c args)) + k) < Z.of_nat (length (padded_args c args)) + 8).
  { intros k Hk. rewrite length_reverse. lia. }
  unfold push_fp. change (pc (pushed vm ?l)) with (pc vm). change (fp (pushed vm ?l)) with (fp vm).
  repeat (rewrite Hpush by (rewrite ?length_app; cbn [length]; rewrite ?length_reverse; lia);
          cbn [mbind outcome_bind]; change (pc (pushed vm ?l)) with (pc vm);
          change (fp (pushed vm ?l)) with (fp vm)).
  unfold frame_image. rewrite reverse_app. cbn zeta. by rewrite <-!app_assoc.
Qed.

Lemma push_stack_frame_eq vm c receiver args rust rva :
  push_stack_frame vm c receiver (reverse args) (Z.of_nat (length args)) rust rva =
  match stack_depth_check stack_ptr_start vm (call_slots c args) with
  | StackOverflow => Done StackOverflow
  | CallOk vm =>
      vm ← (vm ← push_call_arguments stack_ptr_start stack_ptr_end vm (reverse args)
              (Z.of_nat (length args)) (num_parameters (closure_info c));
            vm ← push vm receiver; vm ← push vm (Z.of_nat (length args)); vm ← push vm c;
            vm ← push vm (constant_table_ptr (closure_info c));
            vm ← push vm (scope_ptr (closure_info c));
            vm ← push vm rva; vm ← push vm (encode_return_address_slot (pc vm) rust);
            push_fp stack_ptr_start stack_ptr_end vm);
      vm ← allocate_local_registers stack_ptr_start stack_ptr_end vm (num_registers (closure_info c));
      Done (CallOk (with_pc vm (bytecode (closure_info c))))
  end.
Proof.
  unfold VmStack.push_stack_frame. fold (call_slots c args). unfold FIRST_ARGUMENT_SLOT_INDEX.
  fold (call_slots c args). destruct (stack_depth_check _ _ _) as [vm1|]; [|done].
  destruct (push_call_arguments _ _ _ _ _ _) as [vm2| | |]; cbn [mbind outcome_bind]; [|done..].
  do 7 (match goal with |- context [push ?v ?x] =>
    destruct (push v x) as [?| | |]; cbn [mbind outcome_bind]; [|done..] end).
  done.
Qed.

(** A call succeeds exactly when its slots and one more frame are available. *)
Definition call_fits (vm : VM) (c : Z) (args : list Z) : Prop :=
  stack_ptr_start <= sp vm - call_slots c args /\ num_stack_frames vm < MAX_STACK_DEPTH.

Lemma push_overflows vm c receiver args rust rva :
  ~ call_fits vm c args ->
  push_stack_frame vm c receiver (reverse args) (Z.of_nat (length args)) rust rva = Done StackOverflow.
Proof.
  intros Hn. rewrite push_stack_frame_eq. unfold stack_depth_check, call_fits in *.
  destruct (Z.ltb_spec (sp vm - call_slots c args) stack_ptr_start); [done|].
  destruct (Z.leb_spec MAX_STACK_DEPTH (num_stack_frames vm)); [done|]. lia.
Qed.

Lemma image_at_pushed vm l :
  image_at (slots (pushed vm (reverse l))) (sp vm - Z.of_nat (length l)) l.
Proof.
  intros i x Hx. pose proof (lookup_lt_Some _ _ _ Hx). cbn.
  assert (Hr : reverse l !! (length l - 1 - i)%nat = Some x).
  { rewrite reverse_lookup by lia. rewrite <-Hx. f_equal. lia. }
  rewrite <-(insert_down_lookup _ (slots vm) (sp vm) _ _ Hr). f_equal. lia.
Qed.

(** A call that fits pushes its frame. *)
Lemma push_refines vm frames c receiver args rust rva :
  vm_repr vm frames -> 0 <= pc vm < 2 ^ 63 -> call_fits vm c args ->
  exists vm',
    push_stack_frame vm c receiver (reverse args) (Z.of_nat (length args)) rust rva =
      Done (CallOk vm') /\
    vm_repr vm' (call_frame vm c receiver args rust rva :: frames) /\
    pc vm' = bytecode (closure_info c) /\
    (forall a, sp vm <= a -> slots vm' !! a = slots vm !! a) /\
    slots vm' !! fp vm' = Some (fp vm) /\
    sp vm = fp vm' + (8 + Z.of_nat (length (padded_args c args))).
Proof.
  intros (Hr & Hsp & Hn) Hpc [Hfit Hd]. rewrite push_stack_frame_eq. unfold stack_depth_check.
  destruct (Z.ltb_spec (sp vm - call_slots c args) stack_ptr_start); [lia|].
  destruct (Z.leb_spec MAX_STACK_DEPTH (num_stack_frames vm)); [lia|].
  set (vm1 := with_num_stack_frames vm _). rewrite pushes_are_the_image by (done || apply Hsp).
  set (f := call_frame vm c receiver args rust rva).
  change (call_frame vm1 c receiver args rust rva) with f. change (fp vm1) with (fp vm).
  set (image := frame_image (fp vm) f). set (vm2 := pushed vm1 (reverse image)).
  pose proof (length_frame_image (fp vm) f) as Hli. fold image in Hli.
  pose proof (length_padded_args c args) as Hla. change (f_args f) with (padded_args c args) in Hli.
  pose proof (sizes_nonneg c) as Hsz. unfold call_slots in *.
  assert (Esp2 : sp vm2 = sp vm - Z.of_nat (length image)) by (unfold vm2, pushed; cbn [sp]; by rewrite length_reverse).
  set (n := num_registers (closure_info c)) in *.
  cbn [mbind outcome_bind]. cbn zeta. unfold allocate_local_registers. cbn [sp with_sp with_fp].
  rewrite fill_slots_run by (cbn [sp with_sp with_fp]; rewrite ?Z2Nat.id by lia; lia).
  cbn [mbind outcome_bind]. eexists. split; [done|].
  cbn [pc sp fp slots num_stack_frames with_pc with_sp with_fp].
  assert (Hslots : forall a, sp vm2 <= a -> insert_run (slots vm2) (sp vm2 - n) (Z.to_nat n)
      (as_raw_bits undefined) !! a = slots vm2 !! a).
  { intros a Ha. apply insert_run_outside. lia. }
  assert (Hold : forall a, sp vm <= a -> slots vm2 !! a = slots vm !! a).
  { intros a Ha. cbn. rewrite insert_down_outside; [done|]. by left. }
  assert (Hregs : Z.of_nat (length (f_registers f)) = n).
  { cbn. rewrite length_replicate. lia. }
  assert (Himage : image_at (slots vm2) (sp vm2) image)
    by (rewrite Esp2; apply (image_at_pushed vm1 image)).
  split; [|split; [done|split_and!]].
  2: { intros a Ha. rewrite Hslots by lia. by apply Hold. }
  2: { rewrite Hslots by lia. rewrite <-(Z.add_0_r (sp vm2)). by apply (Himage 0%nat). }
  2: { lia. }
  split_and!; cbn [pc sp fp slots num_stack_frames with_pc with_sp with_fp].
  - exists (fp vm). fold image. rewrite Hregs. split_and!; [lia|done|lia|..].
    + intros i x Hx. rewrite Hslots by lia. by apply Himage.
    + intros i x Hx. cbn in Hx. apply lookup_replicate in Hx as [-> Hi]. apply insert_run_inside. lia.
    + unfold frame_ok. rewrite Hregs. cbn [f call_frame f_return_address f_argc f_args f_closure].
      split_and!; done || lia.
    + replace (sp vm2 + Z.of_nat (length image)) with (sp vm) by lia.
      eapply frames_repr_local; [|exact Hr]. intros a Ha. rewrite Hslots by lia. by apply Hold.
  - lia.
  - lia.
  - cbn. lia.
Qed.

(** ** Returns *)

Lemma decode_return_address a rust :
  0 <= a < 2 ^ 63 ->
  Z.ldiff (encode_return_address_slot a rust) IS_RUST_CALLER_TAG = a /\
  negb (Z.land (encode_return_address_slot a rust) IS_RUST_CALLER_TAG =? 0) = rust.
Proof.
  intros Ha. unfold IS_RUST_CALLER_TAG. rewrite Z.shiftl_1_l.
  assert (Hbit : forall j, 63 <= j -> Z.testbit a j = false).
  { intros j Hj. destruct (decide (a = 0)) as [->|]; [apply Z.bits_0|].
    apply Z.bits_above_log2; [lia|]. apply Z.lt_le_trans with 63; [|done].
    apply Z.log2_lt_pow2; lia. }
  assert (Hl : Z.land a (2 ^ 63) = 0).
  { apply Z.bits_inj'. intros j Hj. rewrite Z.land_spec, Z.bits_0, Z.pow2_bits_eqb by done.
    destruct (Z.eqb_spec 63 j) as [<-|]; [by rewrite Hbit|by rewrite andb_false_r]. }
  destruct rust; cbn [encode_return_address_slot].
  - split.
    + apply Z.bits_inj'. intros j Hj. unfold encode_return_address_slot, IS_RUST_CALLER_TAG.
      rewrite Z.shiftl_1_l, Z.ldiff_spec, Z.lor_spec, Z.pow2_bits_eqb by done.
      destruct (Z.eqb_spec 63 j) as [<-|]; [by rewrite Hbit|]. by rewrite orb_false_r, andb_true_r.
    + unfold encode_return_address_slot, IS_RUST_CALLER_TAG. rewrite Z.shiftl_1_l, Z.land_lor_distr_l, Hl.
      rewrite Z.lor_0_l, Z.land_diag. done.
  - unfold encode_return_address_slot. rewrite Hl. split; [|done].
    apply Z.bits_inj'. intros j Hj. rewrite Z.ldiff_spec, Z.pow2_bits_eqb by done.
    destruct (Z.eqb_spec 63 j) as [<-|]; [by rewrite Hbit|by rewrite andb_true_r].
Qed.

(** Reading the fixed slots of a represented frame. *)
Lemma frame_slot vm frame prev f i x :
  image_at (slots vm) frame (frame_image prev f) -> frame_image prev f !! i = Some x ->
  read_slot vm (frame + Z.of_nat i) = Done x.
Proof. intros Hi Hx. unfold read_slot. by rewrite (Hi i x Hx). Qed.

Lemma frame_fields vm frame prev f :
  image_at (slots vm) frame (frame_image prev f) -> frame_ok f ->
  read_slot vm frame = Done prev /\ frame_closure vm frame = Done (f_closure f) /\
  frame_argc vm frame = Done (f_argc f) /\ frame_receiver vm frame = Done (f_receiver f) /\
  frame_scope vm frame = Done (f_scope f) /\
  frame_constant_table vm frame = Done (f_constant_table f) /\
  return_value_address vm frame = Done (f_return_value_address f) /\
  return_address vm frame = Done (f_return_address f) /\
  is_rust_caller vm frame = Done (f_is_rust_caller f).
Proof.
  intros Hi Hok. destruct (decode_return_address (f_return_address f) (f_is_rust_caller f)) as [Ha Hb];
    [apply Hok|].
  pose proof (fun i x => frame_slot vm frame prev f i x Hi) as R.
  pose proof (R 0%nat _ eq_refl) as R0. rewrite Z.add_0_r in R0.
  pose proof (R 1%nat _ eq_refl) as R1.
  unfold return_address, is_rust_caller, RETURN_ADDRESS_SLOT_INDEX.
  change (Z.of_nat 1) with 1 in R1. rewrite R1. cbn [mbind outcome_bind]. rewrite Ha, Hb.
  split_and!; try done; [exact (R 5%nat _ eq_refl)|exact (R 6%nat _ eq_refl)|exact (R 7%nat _ eq_refl)|
    exact (R 3%nat _ eq_refl)|exact (R 4%nat _ eq_refl)|exact (R 2%nat _ eq_refl)].
Qed.

(** A return drops the frame and goes on at its return address. *)
Lemma pop_refines vm f frames :
  vm_repr vm (f :: frames) ->
  exists vm', pop_stack_frame vm = Done vm' /\ vm_repr vm' frames /\
    pc vm' = f_return_address f /\ slots vm !! fp vm = Some (fp vm') /\
    sp vm' = fp vm + (8 + Z.of_nat (length (f_args f))).
Proof.
  intros ((prev & Hs & Esp & He & Hi & Hr & Hok & Hrest) & Hb & Hn).
  destruct (frame_fields vm (fp vm) prev f Hi Hok) as (R0 & Rc & Ra & _ & _ & _ & _ & Rr & _).
  unfold VmStack.pop_stack_frame. rewrite Rc. cbn [mbind outcome_bind]. rewrite Ra.
  cbn [mbind outcome_bind]. rewrite Rr. cbn [mbind outcome_bind].
  unfold read_slot in *. cbn [fp slots with_sp with_pc]. rewrite R0. cbn [mbind outcome_bind].
  eexists. split; [done|]. cbn [pc sp fp slots num_stack_frames with_sp with_pc with_fp with_num_stack_frames].
  destruct Hok as (_ & _ & Hargs & _). pose proof (length_frame_image prev f) as Hl.
  assert (E : fp vm + (FIRST_ARGUMENT_SLOT_INDEX +
      Z.max (f_argc f) (num_parameters (closure_info (f_closure f)))) =
    fp vm + Z.of_nat (length (frame_image prev f))) by (unfold FIRST_ARGUMENT_SLOT_INDEX; lia).
  split_and!; [|done|by apply deref_done|lia].
  split_and!; cbn [pc sp fp slots num_stack_frames with_sp with_pc with_fp
    with_num_stack_frames]; [by rewrite E|lia|lia|cbn [length] in Hn; lia].
Qed.

(** ** Registers *)

Definition set_register (f : Frame) (i : nat) (x : Z) : Frame := {|
  f_return_address := f_return_address f; f_is_rust_caller := f_is_rust_caller f;
  f_return_value_address := f_return_value_address f; f_scope := f_scope f;
  f_constant_table := f_constant_table f; f_closure := f_closure f; f_argc := f_argc f;
  f_receiver := f_receiver f; f_args := f_args f; f_registers := <[i := x]> (f_registers f) |}.

(** A write to a local register changes that register of the top frame and nothing else. *)
Lemma write_register_refines vm f frames i x :
  vm_repr vm (f :: frames) -> (i < length (f_registers f))%nat ->
  exists vm', write_register stack_ptr_start stack_ptr_end vm (-1 - Z.of_nat i) x = Done vm' /\
    vm_repr vm' (set_register f i x :: frames) /\ pc vm' = pc vm /\ fp vm' = fp vm /\
    slots vm' !! fp vm = slots vm !! fp vm.
Proof.
  intros ((prev & Hs & Esp & He & Hi & Hr & Hok & Hrest) & Hb & Hn) Hlt.
  pose proof (length_frame_image prev f) as Hl. unfold write_register.
  rewrite write_slot_done by lia. eexists. split; [done|].
  assert (Hne : forall a, fp vm <= a -> <[fp vm + (-1 - Z.of_nat i) := x]> (slots vm) !! a = slots vm !! a).
  { intros a Ha. apply lookup_insert_ne. lia. }
  split; [|split_and!; [done..|by apply Hne]].
  split_and!; cbn [sp fp slots num_stack_frames]; [|lia|lia|done].
  exists prev. change (frame_image prev (set_register f i x)) with (frame_image prev f).
  cbn [set_register f_registers]. rewrite length_insert. split_and!; try done.
  - intros j y Hj. rewrite Hne by lia. by apply Hi.
  - intros j y Hj. destruct (decide (j = i)) as [->|Hji].
    + rewrite list_lookup_insert_eq in Hj by done. simplify_eq.
      replace (fp vm - 1 - Z.of_nat i) with (fp vm + (-1 - Z.of_nat i)) by lia. apply lookup_insert_eq.
    + rewrite list_lookup_insert_ne in Hj by done. rewrite lookup_insert_ne by lia. by apply Hr.
  - unfold frame_ok in *. cbn [set_register f_registers f_return_address f_argc f_args f_closure].
    by rewrite length_insert.
  - eapply frames_repr_local; [|exact Hrest]. intros a Ha. apply Hne. lia.
Qed.

(** Any writes to its local registers leave the rest of the top frame as it is. *)
Lemma writes_refine writes vm vm' f frames prev_fp :
  vm_repr vm (f :: frames) -> slots vm !! fp vm = Some prev_fp ->
  Forall (fun '(i, _) => (i < length (f_registers f))%nat) writes ->
  foldl (fun r '(i, x) => vm ← r;
    write_register stack_ptr_start stack_ptr_end vm (-1 - Z.of_nat i) x) (Done vm) writes = Done vm' ->
  exists f', vm_repr vm' (f' :: frames) /\ f_args f' = f_args f /\
    f_return_address f' = f_return_address f /\ fp vm' = fp vm /\ slots vm' !! fp vm = Some prev_fp.
Proof.
  revert vm f. induction writes as [|[i x] writes IH]; intros vm f Hvm Hp Hwr Hfold; cbn [foldl] in Hfold.
  { simplify_eq. by exists f. }
  apply Forall_cons in Hwr as [Hi Hwr]. cbn [mbind outcome_bind] in Hfold.
  destruct (write_register_refines vm f frames i x Hvm Hi) as (vm1 & Hw & H1 & _ & Efp & Hs).
  rewrite Hw in Hfold. destruct (IH vm1 (set_register f i x) H1) as (f' & H' & Ea & Er & Efp' & Hs');
    [by rewrite Efp, Hs| |done|].
  { eapply Forall_impl; [exact Hwr|]. intros [j y]. cbn. by rewrite length_insert. }
  exists f'. rewrite Efp', Efp in *. by split_and!.
Qed.

(** Argument [i] of the top frame is the value passed for it. *)
Lemma read_argument vm f frames i x :
  vm_repr vm (f :: frames) -> f_args f !! i = Some x ->
  read_register vm (encode_argument_register (Z.of_nat i)) = Done x.
Proof.
  intros ((prev & _ & _ & _ & Hi & _) & _) Hx. unfold read_register, encode_argument_register.
  replace (Z.of_nat i + FIRST_ARGUMENT_SLOT_INDEX) with (Z.of_nat (8 + i))
    by (unfold FIRST_ARGUMENT_SLOT_INDEX; lia).
  by eapply frame_slot.
Qed.

(** ** Exceptions *)

Inductive UnwindResult : Type :=
| Handled (f : Frame) (callers : list Frame) (handler : Z) (register : option operand)
| ReturnToRust (callers : list Frame) (address : Z)
| Uncaught.

Definition handler_of (f : Frame) (addr : Z) : outcome (option (Z * option operand)) :=
  let info := closure_info (f_closure f) in
  visit_frame_for_exception_unwinding (exception_handlers_ptr info) (addr - bytecode info).

(** Unwinding on the abstract stack: the first frame, from the top, that handles the error at its
    current instruction; a frame that Rust code called ends the search. *)
Fixpoint unwind (frames : list Frame) (addr : Z) : outcome UnwindResult :=
  match frames with
  | [] => Faulted
  | f :: callers =>
      found ← handler_of f addr;
      match found with
      | Some (h, register) => Done (Handled f callers h register)
      | None =>
          match callers with
          | [] => Done Uncaught
          | _ =>
              if f_is_rust_caller f then Done (ReturnToRust callers (f_return_address f))
              else unwind callers (f_return_address f)
          end
      end
  end.

(** The machine after unwinding. *)
Definition unwound (error_value : Z) (r : UnwindResult) (t : ThrowResult) : Prop :=
  match r with
  | Handled f callers h register =>
      exists vm f', t = Continue vm /\ vm_repr vm (f' :: callers) /\
        pc vm = bytecode (closure_info (f_closure f)) + h /\
        match register with
        | None => f' = f
        | Some reg => exists i, operand_signed ExtraWide reg = -1 - Z.of_nat i /\
            f' = set_register f i error_value
        end
  | ReturnToRust callers address =>
      exists vm, t = ReturnError vm /\ vm_repr vm callers /\ pc vm = address
  | Uncaught => exists vm, t = ReturnError vm /\ vm_repr vm []
  end.

(** The handlers of a function name local registers of its frame. *)
Definition error_registers_ok : Prop :=
  forall c addr h reg,
    visit_frame_for_exception_unwinding (exception_handlers_ptr (closure_info c)) addr =
      Done (Some (h, Some reg)) ->
    exists i, operand_signed ExtraWide reg = -1 - Z.of_nat i /\
      Z.of_nat i < num_registers (closure_info c).

(** Frame [frame] of the machine is the top of [frames]; the frames above it are dropped. *)
Definition frame_repr (vm : VM) (frame : Z) (frames : list Frame) : Prop :=
  exists sp, frames_repr (slots vm) frame sp frames /\ stack_ptr_start <= sp <= stack_ptr_end /\
    num_stack_frames vm = Z.of_nat (length frames).

Lemma visit_frame_refines vm frame f callers addr error_value found :
  error_registers_ok -> frame_repr vm frame (f :: callers) -> handler_of f addr = Done found ->
  exists r, visit_frame closure_info stack_ptr_start stack_ptr_end vm frame addr error_value = Done r /\
    match found with
    | None => r = None
    | Some (h, register) => exists vm', r = Some vm' /\
        unwound error_value (Handled f callers h register) (Continue vm')
    end.
Proof.
  intros Hregs (sp0 & (prev & Hs & Esp & He & Hi & Hr & Hok & Hrest) & Hb & Hn) Hf.
  destruct (frame_fields vm frame prev f Hi Hok) as (_ & Rc & _).
  unfold visit_frame. rewrite Rc. cbn [mbind outcome_bind]. unfold handler_of in Hf.
  set (info := closure_info (f_closure f)) in *.
  destruct (exception_handlers_ptr info) as [hs|] eqn:Ehs; [|cbn in Hf; simplify_eq; by exists None].
  rewrite Hf. cbn [mbind outcome_bind]. destruct found as [[h register]|]; [|by exists None].
  set (vm1 := with_fp (with_pc vm (bytecode info + h)) frame).
  assert (Esp1 : frame_sp closure_info vm1 frame = Done sp0).
  { unfold frame_sp, frame_closure, read_slot in *. cbn [slots vm1 with_fp with_pc]. rewrite Rc.
    cbn. f_equal. destruct Hok as (_ & _ & _ & Hreg). lia. }
  rewrite Esp1. cbn [mbind outcome_bind].
  assert (Hvm : vm_repr (with_sp vm1 sp0) (f :: callers)).
  { split_and!; cbn [sp fp slots num_stack_frames with_sp vm1 with_fp with_pc]; [|lia|lia|done].
    by exists prev. }
  destruct register as [reg|].
  - destruct (Hregs (f_closure f) (addr - bytecode info) h reg) as (i & Ei & Hlt);
      [fold info; by rewrite Ehs|]. rewrite Ei.
    destruct (write_register_refines _ f callers i error_value Hvm) as (vm' & Hw & Hvm' & Hpc & _).
    { destruct Hok as (_ & _ & _ & Hreg). lia. }
    rewrite Hw. cbn [mbind outcome_bind]. eexists. split; [done|]. eexists. split; [done|].
    exists vm', (set_register f i error_value). rewrite Hpc. split_and!; try done. by exists i.
  - eexists. split; [done|]. eexists. split; [done|]. eexists _, f. by split_and!.
Qed.

Lemma throw_callers_refines fuel frames vm frame f callers addr error_value :
  error_registers_ok -> frames = f :: callers -> frame_repr vm frame frames ->
  (length callers < fuel)%nat ->
  forall r, handler_of f addr = Done None -> unwind frames addr = Done r ->
  exists t, throw_callers closure_info stack_ptr_start stack_ptr_end fuel vm frame error_value = Done t /\
    unwound error_value r t.
Proof.
  intros Hregs. revert frames vm frame f callers addr.
  induction fuel as [|fuel IH]; intros frames vm frame f callers addr -> Hfr Hfuel r Hnone Hu; [lia|].
  destruct Hfr as (sp0 & (prev & Hs & Esp & He & Hi & Hr & Hok & Hrest) & Hb & Hn).
  destruct (frame_fields vm frame prev f Hi Hok) as (R0 & _ & _ & _ & _ & _ & _ & Rra & Rrust).
  cbn [unwind] in Hu. rewrite Hnone in Hu. cbn [mbind outcome_bind] in Hu.
  cbn [throw_callers]. unfold previous_frame. rewrite R0. cbn [mbind outcome_bind].
  destruct callers as [|f1 callers].
  - cbn in Hrest. destruct Hrest as [-> Hend]. simplify_eq. cbn. eexists. split; [done|].
    eexists. split; [done|]. split_and!; cbn; done || lia.
  - assert (Hprev : prev <> 0).
    { cbn in Hrest. destruct Hrest as (p & H1 & H2 & _). lia. }
    apply Z.eqb_neq in Hprev as ->.
    set (vm1 := with_num_stack_frames vm (num_stack_frames vm - 1)).
    change (is_rust_caller vm1 frame) with (is_rust_caller vm frame).
    change (return_address vm1 frame) with (return_address vm frame).
    rewrite Rrust, Rra. cbn [mbind outcome_bind].
    set (sp1 := frame + Z.of_nat (length (frame_image prev f))) in *.
    assert (Hsp1 : stack_ptr_start <= sp1 <= stack_ptr_end) by lia.
    assert (Hfr1 : frame_repr vm1 prev (f1 :: callers)).
    { exists sp1. split_and!; [done|lia|lia|]. cbn [vm1 with_num_stack_frames num_stack_frames length] in *. lia. }
    destruct (f_is_rust_caller f).
    + simplify_eq. cbn in Hrest. destruct Hrest as (prev1 & Hs1 & Esp1 & He1 & Hi1 & Hr1 & Hok1 & Hrest1).
      destruct (frame_fields vm prev prev1 f1 Hi1 Hok1) as (_ & Rc1 & _).
      unfold frame_sp. unfold frame_closure, read_slot in *.
      cbn [slots with_fp with_pc vm1 with_num_stack_frames]. rewrite Rc1. cbn [mbind outcome_bind].
      eexists. split; [done|]. eexists. split; [done|].
      assert (E : prev - num_registers (closure_info (f_closure f1)) = sp1)
        by (destruct Hok1 as (_ & _ & _ & Hreg); lia).
      split; [|done]. split_and!; cbn [sp fp slots num_stack_frames with_sp with_fp with_pc vm1
        with_num_stack_frames]; rewrite ?E; [by exists prev1|lia|lia|cbn [length] in *; lia].
    + destruct (handler_of f1 (f_return_address f)) as [found| | |] eqn:Ef1;
        cbn [unwind] in Hu; rewrite Ef1 in Hu; try done.
      destruct (visit_frame_refines vm1 prev f1 callers _ error_value found Hregs Hfr1 Ef1)
        as (rv & Hv & Hrv). rewrite Hv. cbn [mbind outcome_bind].
      destruct found as [[h register]|].
      * destruct Hrv as (vm' & -> & Hun). cbn in Hu. simplify_eq. by eexists.
      * subst rv. apply (IH (f1 :: callers) vm1 prev f1 callers (f_return_address f)); try done.
        -- cbn [length] in Hfuel. lia.
        -- cbn [unwind]. by rewrite Ef1.
Qed.

(** A call adds one frame to the stack, or overflows and changes nothing.  When the slots of the
    frame and one more level are available, the machine ends in a stack of frames whose top has the
    caller's program counter as return address, the closure, scope, constant table and receiver,
    all registers [undefined], and as arguments the ones passed, padded with [undefined] up to
    the parameters of the function, each readable through its argument register; the slots of
    the callers are untouched.  Otherwise the result is a stack overflow. *)
Theorem call_pushes_its_frame vm frames c receiver args rust rva :
  vm_repr vm frames -> 0 <= pc vm < 2 ^ 63 ->
  (call_fits vm c args ->
    exists vm',
      push_stack_frame vm c receiver (reverse args) (Z.of_nat (length args)) rust rva =
        Done (CallOk vm') /\
      vm_repr vm' (call_frame vm c receiver args rust rva :: frames) /\
      pc vm' = bytecode (closure_info c) /\
      (forall i x, padded_args c args !! i = Some x ->
        read_register vm' (encode_argument_register (Z.of_nat i)) = Done x) /\
      (forall a, sp vm <= a -> slots vm' !! a = slots vm !! a)) /\
  (~ call_fits vm c args ->
    push_stack_frame vm c receiver (reverse args) (Z.of_nat (length args)) rust rva =
      Done StackOverflow).
Proof.
  intros Hvm Hpc. split; [|by apply push_overflows]. intros Hfit.
  destruct (push_refines vm frames c receiver args rust rva Hvm Hpc Hfit) as (vm' & H1 & H2 & H3 & H4 & _).
  exists vm'. split_and!; try done. intros i x Hx. by eapply read_argument.
Qed.

(** C4: A return undoes the call.  If a function is called and returns - whatever it did to its own
    registers in between - the machine is back at the caller's program counter with the caller's
    stack pointer, frame pointer and depth. *)
Theorem return_restores_the_caller vm frames c receiver args rust rva vm1 writes vm2 :
  vm_repr vm frames -> 0 <= pc vm < 2 ^ 63 -> call_fits vm c args ->
  push_stack_frame vm c receiver (reverse args) (Z.of_nat (length args)) rust rva =
    Done (CallOk vm1) ->
  Forall (fun '(i, _) => Z.of_nat i < num_registers (closure_info c)) writes ->
  foldl (fun r '(i, x) => vm ← r;
    write_register stack_ptr_start stack_ptr_end vm (-1 - Z.of_nat i) x) (Done vm1) writes = Done vm2 ->
  exists vm3, pop_stack_frame vm2 = Done vm3 /\ pc vm3 = pc vm /\ sp vm3 = sp vm /\ fp vm3 = fp vm /\
    num_stack_frames vm3 = num_stack_frames vm /\ vm_repr vm3 frames.
Proof.
  intros Hvm Hpc Hfit Hpush Hwr Hfold.
  destruct (push_refines vm frames c receiver args rust rva Hvm Hpc Hfit)
    as (vm1' & Hpush' & H1 & _ & _ & Hprev & Hsp).
  rewrite Hpush in Hpush'. injection Hpush' as <-.
  destruct (writes_refine writes vm1 vm2 _ frames (fp vm) H1 Hprev) as (f2 & H2 & Ea & Er & Efp & Hs2); [|done|].
  { eapply Forall_impl; [exact Hwr|]. intros [i x] Hi. cbn. rewrite length_replicate. lia. }
  destruct (pop_refines vm2 f2 frames H2) as (vm3 & Hpop & H3 & Hpc3 & Hfp3 & Hsp3).
  exists vm3. split_and!; try done.
  - by rewrite Hpc3, Er.
  - rewrite Hsp3, Efp, Ea. cbn [call_frame f_args]. lia.
  - congruence.
  - destruct H3 as (_ & _ & ->). by destruct Hvm as (_ & _ & ->).
Qed.


End Correctness.

(** ** An example machine *)

(** Closure 1 handles errors of its first ten bytes; the others have no handlers. *)
Definition example_closure (c : Z) : ClosureInfo := {|
  num_parameters := 2; num_registers := 3; bytecode := 1000 * c; constant_table_ptr := 0;
  scope_ptr := 0;
  exception_handlers_ptr :=
    if c =? 1 then finish (add HandlersBuilder_new
      {| start := 0; end_ := 10; handler := 20; error_register := Some (register_local ExtraWide 1) |})
    else None |}.

Definition example_vm : VM :=
  {| pc := 7; sp := 200; fp := 0; slots := ∅; num_stack_frames := 0 |}.

Lemma example_sizes c : 0 <= num_parameters (example_closure c) /\ 0 <= num_registers (example_closure c).
Proof. done. Qed.

Lemma example_repr : vm_repr example_closure 100 200 example_vm [].
Proof. by repeat split. Qed.

Lemma example_pc : 0 <= pc example_vm < 2 ^ 63.
Proof. done. Qed.

Lemma example_fits : call_fits example_closure 100 example_vm 1 [5].
Proof. split; by vm_compute. Qed.

Lemma call_pushes_its_frame_witness :
  (call_fits example_closure 100 example_vm 1 [5] ->
    exists vm',
      push_stack_frame example_closure 100 200 example_vm 1 9 (reverse [5]) 1 true 0 = Done (CallOk vm') /\
      vm_repr example_closure 100 200 vm'
        [call_frame example_closure example_vm 1 9 [5] true 0] /\
      pc vm' = 1000 /\
      (forall i x, padded_args example_closure 1 [5] !! i = Some x ->
        read_register vm' (encode_argument_register (Z.of_nat i)) = Done x) /\
      (forall a, 200 <= a -> slots vm' !! a = slots example_vm !! a)) /\
  (~ call_fits example_closure 100 example_vm 1 [5] ->
    push_stack_frame example_closure 100 200 example_vm 1 9 (reverse [5]) 1 true 0 = Done StackOverflow).
Proof.
  apply (call_pushes_its_frame example_closure 100 200 example_sizes example_vm [] 1 9 [5] true 0);
    [apply example_repr|done].
Defined.

Lemma return_restores_the_caller_witness :
  exists vm1, push_stack_frame example_closure 100 200 example_vm 1 9 (reverse [5]) 1 true 0 =
      Done (CallOk vm1) /\
    exists vm3, pop_stack_frame example_closure vm1 = Done vm3 /\ pc vm3 = 7 /\ sp vm3 = 200 /\
      fp vm3 = 0 /\ num_stack_frames vm3 = 0 /\ vm_repr example_closure 100 200 vm3 [].
Proof.
  pose proof (push_refines example_closure 100 200 example_sizes example_vm [] 1 9 [5] true 0
    example_repr example_pc example_fits) as (vm1 & Hp & _).
  exists vm1. split; [exact Hp|].
  apply (return_restores_the_caller example_closure 100 200 example_sizes example_vm [] 1 9 [5]
    true 0 vm1 [] vm1 example_repr example_pc example_fits Hp); [constructor|reflexivity].
Defined.

Lemma example_error_registers : error_registers_ok example_closure.
Proof.
  intros c addr h reg Hv. exists 1%nat. split; [|done].
  unfold example_closure in Hv. cbn [exception_handlers_ptr] in Hv.
  destruct (c =? 1); [|discriminate].
  destruct (visit_frame_innermost [{| start := 0; end_ := 10; handler := 20;
    error_register := Some (register_local ExtraWide 1) |}] addr) as (r & Hr & Hi).
  { repeat constructor; done. }
  { done. }
  cbn [foldl] in Hr. rewrite Hr in Hv. simplify_eq. cbn in Hi.
  destruct Hi as (h' & Hin & _ & _ & He & _). apply list_elem_of_singleton in Hin as ->.
  cbn in He. by simplify_eq.
Qed.

