(* ===== verification/Property.v ===== *)
(** Properties and property descriptors: [src/so2js/runtime/property.rs] and
    [property_descriptor.rs].

    A property is a value with flags; an accessor property has as its value a heap item that holds
    the getter and the setter.  Properties on the stack and on the heap hold the same data.  A
    property descriptor is the specification type with optional fields. *)
From S2P Require Import Prelude Float64 Value.

(** ** Flags *)

(** [PropertyFlags]: the bits of a byte. *)
Definition IS_WRITABLE : Z := Z.shiftl 1 0.
Definition IS_ENUMERABLE : Z := Z.shiftl 1 1.
Definition IS_CONFIGURABLE : Z := Z.shiftl 1 2.
Definition IS_PRIVATE_FIELD : Z := Z.shiftl 1 3.
Definition IS_PRIVATE_METHOD : Z := Z.shiftl 1 4.
Definition IS_PRIVATE_ACCESSOR : Z := Z.shiftl 1 5.

Definition flags_contains (flags other : Z) : bool := Z.land flags other =? other.
Definition flags_intersects (flags other : Z) : bool := negb (Z.land flags other =? 0).
Definition flags_insert (flags other : Z) : Z := Z.lor flags other.
Definition flags_remove (flags other : Z) : Z := Z.ldiff flags other.
Definition flags_set (flags other : Z) (b : bool) : Z :=
  if b then flags_insert flags other else flags_remove flags other.

Definition DENSE_ARRAY_PROPERTY_FLAGS : Z :=
  Z.lor (Z.lor IS_WRITABLE IS_ENUMERABLE) IS_CONFIGURABLE.

(** ** Properties *)

(** [Property] and [HeapProperty]. *)
Record Property : Type := mkProperty {
  property_value : Value;
  flags : Z
}.

Definition property_data (value : Value) (is_writable is_enumerable is_configurable : bool)
    : Property :=
  let flags := 0 in
  let flags := if is_writable then Z.lor flags IS_WRITABLE else flags in
  let flags := if is_enumerable then Z.lor flags IS_ENUMERABLE else flags in
  let flags := if is_configurable then Z.lor flags IS_CONFIGURABLE else flags in
  mkProperty value flags.

Definition property_accessor (accessor_value : Value) (is_enumerable is_configurable : bool)
    : Property :=
  let flags := 0 in
  let flags := if is_enumerable then Z.lor flags IS_ENUMERABLE else flags in
  let flags := if is_configurable then Z.lor flags IS_CONFIGURABLE else flags in
  mkProperty accessor_value flags.

Definition private_field (value : Value) : Property := mkProperty value IS_PRIVATE_FIELD.
Definition private_method (method : Value) : Property := mkProperty method IS_PRIVATE_METHOD.
Definition private_accessor (accessor : Value) : Property :=
  mkProperty accessor IS_PRIVATE_ACCESSOR.

Definition is_enumerable (p : Property) : bool := flags_contains (flags p) IS_ENUMERABLE.
Definition is_configurable (p : Property) : bool := flags_contains (flags p) IS_CONFIGURABLE.
Definition is_writable (p : Property) : bool := flags_contains (flags p) IS_WRITABLE.
Definition is_private_field (p : Property) : bool := flags_contains (flags p) IS_PRIVATE_FIELD.
Definition is_private_method (p : Property) : bool := flags_contains (flags p) IS_PRIVATE_METHOD.
Definition is_private_accessor (p : Property) : bool :=
  flags_contains (flags p) IS_PRIVATE_ACCESSOR.
Definition is_private (p : Property) : bool :=
  flags_intersects (flags p)
    (Z.lor (Z.lor IS_PRIVATE_FIELD IS_PRIVATE_METHOD) IS_PRIVATE_ACCESSOR).

Definition is_allowed_as_dense_array_property (p : Property) : bool :=
  flags_contains (flags p) DENSE_ARRAY_PROPERTY_FLAGS.

Definition set_value (p : Property) (value : Value) : Property := mkProperty value (flags p).
Definition set_is_enumerable (p : Property) (b : bool) : Property :=
  mkProperty (property_value p) (flags_set (flags p) IS_ENUMERABLE b).
Definition set_is_configurable (p : Property) (b : bool) : Property :=
  mkProperty (property_value p) (flags_set (flags p) IS_CONFIGURABLE b).
Definition set_is_writable (p : Property) (b : bool) : Property :=
  mkProperty (property_value p) (flags_set (flags p) IS_WRITABLE b).

(** ** Property descriptors *)

(** Getters and setters are the addresses of function objects. *)
Record PropertyDescriptor : Type := mkDescriptor {
  desc_value : option Value;
  desc_writable : option bool;
  desc_enumerable : option bool;
  desc_configurable : option bool;
  has_get : bool;
  has_set : bool;
  desc_get : option Z;
  desc_set : option Z
}.

Definition descriptor_data (value : Value) (is_writable is_enumerable is_configurable : bool)
    : PropertyDescriptor :=
  mkDescriptor (Some value) (Some is_writable) (Some is_enumerable) (Some is_configurable)
    false false None None.

Definition data_value_only (value : Value) : PropertyDescriptor :=
  mkDescriptor (Some value) None None None false false None None.

Definition descriptor_accessor (get set : option Z) (is_enumerable is_configurable : bool)
    : PropertyDescriptor :=
  mkDescriptor None None (Some is_enumerable) (Some is_configurable) true true get set.

Definition get_only (get : option Z) (is_enumerable is_configurable : bool) : PropertyDescriptor :=
  mkDescriptor None None (Some is_enumerable) (Some is_configurable) true false get None.

Definition set_only (set : option Z) (is_enumerable is_configurable : bool) : PropertyDescriptor :=
  mkDescriptor None None (Some is_enumerable) (Some is_configurable) false true None set.

Definition descriptor_attributes (is_writable is_enumerable is_configurable : option bool)
    : PropertyDescriptor :=
  mkDescriptor None is_writable is_enumerable is_configurable false false None None.

Definition descriptor_is_writable (d : PropertyDescriptor) : bool := default false (desc_writable d).
Definition descriptor_is_enumerable (d : PropertyDescriptor) : bool :=
  default false (desc_enumerable d).
Definition descriptor_is_configurable (d : PropertyDescriptor) : bool :=
  default false (desc_configurable d).

Definition is_none {A} (o : option A) : bool := match o with None => true | Some _ => false end.
Definition is_some {A} (o : option A) : bool := negb (is_none o).

Definition has_no_fields (d : PropertyDescriptor) : bool :=
  is_none (desc_value d) && negb (has_get d) && negb (has_set d) && is_none (desc_writable d)
  && is_none (desc_enumerable d) && is_none (desc_configurable d).

Definition is_accessor_descriptor (d : PropertyDescriptor) : bool := has_get d || has_set d.
Definition is_data_descriptor (d : PropertyDescriptor) : bool :=
  is_some (desc_value d) || is_some (desc_writable d).
Definition is_generic_descriptor (d : PropertyDescriptor) : bool :=
  negb (is_data_descriptor d) && negb (is_accessor_descriptor d).

Definition complete_property_descriptor (d : PropertyDescriptor) : PropertyDescriptor :=
  let '(value, writable) :=
    if is_generic_descriptor d || is_data_descriptor d
    then (Some (default undefined (desc_value d)), Some (default false (desc_writable d)))
    else (desc_value d, desc_writable d) in
  mkDescriptor value writable (Some (default false (desc_enumerable d)))
    (Some (default false (desc_configurable d))) (has_get d) (has_set d) (desc_get d) (desc_set d).

(** ** Lemmas *)

(** A flag is one bit; setting it does not change the others. *)
Lemma flags_contains_bit f i : 0 <= i -> flags_contains f (Z.shiftl 1 i) = Z.testbit f i.
Proof.
  intros Hi. unfold flags_contains. rewrite Z.shiftl_1_l.
  destruct (Z.testbit f i) eqn:E.
  - apply Z.eqb_eq. apply Z.bits_inj'. intros n Hn. rewrite Z.land_spec, Z.pow2_bits_eqb by done.
    destruct (Z.eqb_spec i n) as [<-|]; [by rewrite E|by rewrite andb_false_r].
  - apply Z.eqb_neq. intros H. assert (Ht : Z.testbit (Z.land f (2 ^ i)) i = true).
    { rewrite H. apply Z.pow2_bits_true. done. }
    by rewrite Z.land_spec, E in Ht.
Qed.

Lemma testbit_flags_set f i b j :
  0 <= i -> 0 <= j ->
  Z.testbit (flags_set f (Z.shiftl 1 i) b) j = if decide (j = i) then b else Z.testbit f j.
Proof.
  intros Hi Hj. unfold flags_set, flags_insert, flags_remove. rewrite Z.shiftl_1_l.
  destruct b; [rewrite Z.lor_spec|rewrite Z.ldiff_spec]; rewrite Z.pow2_bits_eqb by done;
    case_decide as H; subst.
  - by rewrite Z.eqb_refl, orb_true_r.
  - rewrite (proj2 (Z.eqb_neq _ _)) by congruence. by rewrite orb_false_r.
  - by rewrite Z.eqb_refl, andb_false_r.
  - rewrite (proj2 (Z.eqb_neq _ _)) by congruence. by rewrite andb_true_r.
Qed.

(** Public properties have at most the three attribute flags. *)
Definition public_flags (f : Z) : Prop := 0 <= f < 8.

Lemma public_flags_cases f :
  public_flags f -> f = 0 \/ f = 1 \/ f = 2 \/ f = 3 \/ f = 4 \/ f = 5 \/ f = 6 \/ f = 7.
Proof. unfold public_flags. lia. Qed.

Lemma public_flags_eq f :
  public_flags f ->
  f = Z.b2z (flags_contains f IS_WRITABLE) + 2 * Z.b2z (flags_contains f IS_ENUMERABLE)
      + 4 * Z.b2z (flags_contains f IS_CONFIGURABLE).
Proof. by intros [->|[->|[->|[->|[->|[->|[->| ->]]]]]]]%public_flags_cases. Qed.

Lemma public_set f other b :
  public_flags f -> other ∈ [IS_WRITABLE; IS_ENUMERABLE; IS_CONFIGURABLE] ->
  public_flags (flags_set f other b).
Proof.
  intros [->|[->|[->|[->|[->|[->|[->| ->]]]]]]]%public_flags_cases Ho; inv_elem; by destruct b.
Qed.

Lemma property_data_flags v w e c :
  let p := property_data v w e c in
  property_value p = v /\ public_flags (flags p) /\ is_writable p = w /\ is_enumerable p = e /\
  is_configurable p = c.
Proof. by destruct w, e, c. Qed.

Lemma property_accessor_flags v e c :
  let p := property_accessor v e c in
  property_value p = v /\ public_flags (flags p) /\ is_enumerable p = e /\ is_configurable p = c.
Proof. by destruct e, c. Qed.

(** The attributes after setting one of them. *)
Lemma set_attribute_flags p b :
  public_flags (flags p) ->
  (is_writable (set_is_writable p b) = b /\ is_enumerable (set_is_writable p b) = is_enumerable p /\
   is_configurable (set_is_writable p b) = is_configurable p /\
   public_flags (flags (set_is_writable p b))) /\
  (is_writable (set_is_enumerable p b) = is_writable p /\ is_enumerable (set_is_enumerable p b) = b /\
   is_configurable (set_is_enumerable p b) = is_configurable p /\
   public_flags (flags (set_is_enumerable p b))) /\
  (is_writable (set_is_configurable p b) = is_writable p /\
   is_enumerable (set_is_configurable p b) = is_enumerable p /\
   is_configurable (set_is_configurable p b) = b /\ public_flags (flags (set_is_configurable p b))).
Proof.
  destruct p as [v f]. cbn [flags].
  intros [->|[->|[->|[->|[->|[->|[->| ->]]]]]]]%public_flags_cases; by destruct b.
Qed.

Lemma property_ext p q :
  property_value p = property_value q -> public_flags (flags p) -> public_flags (flags q) ->
  is_writable p = is_writable q -> is_enumerable p = is_enumerable q ->
  is_configurable p = is_configurable q -> p = q.
Proof.
  destruct p as [v f], q as [v' f']. cbn. intros -> Hp Hq Hw He Hc. f_equal.
  unfold is_writable, is_enumerable, is_configurable in *. cbn in *.
  rewrite (public_flags_eq f Hp), (public_flags_eq f' Hq), Hw, He, Hc. done.
Qed.

(** Properties that dense arrays can hold are data properties with all attributes set. *)
Lemma dense_property_eq p :
  public_flags (flags p) -> is_allowed_as_dense_array_property p = true ->
  p = property_data (property_value p) true true true.
Proof.
  destruct p as [v f]. unfold is_allowed_as_dense_array_property. cbn.
  intros [->|[->|[->|[->|[->|[->|[->| ->]]]]]]]%public_flags_cases H; vm_compute in H; try done.
Qed.
