(* ===== verification/ArrayProperties.v ===== *)
(** Array index properties: [src/so2js/runtime/array_properties.rs].

    The properties of an object whose keys are array indices are a dense array of values as long as
    all of them have the default attributes and the array has no large gaps, and a hash map from
    indices to properties otherwise.  The length of a JavaScript array is the length kept here.  An
    operation takes the hash function it draws, or one for each of its insertions. *)
From S2P Require Import Prelude Float64 Value Property HashMap.
Import HashMap.

Definition SPARSE_ARRAY_THRESHOLD : Z := 100.

(** [DenseArrayProperties]: the length and the backing array, whose size is the capacity.  [None]
    is memory that was not initialised. *)
Record DenseArrayProperties : Type := mkDense {
  dense_len : Z;
  dense_array : list (option Value)
}.

(** [SparseArrayProperties]. *)
Record SparseArrayProperties : Type := mkSparse {
  sparse_map : BsHashMap Z Property;
  sparse_array_length : Z
}.

(** [ArrayProperties] with the kind of its descriptor. *)
Inductive ArrayProperties : Type :=
| Dense (d : DenseArrayProperties)
| Sparse (s : SparseArrayProperties).

(** ** Dense arrays *)

Definition dense_new (capacity : Z) : DenseArrayProperties :=
  mkDense 0 (replicate (Z.to_nat capacity) None).

Definition dense_set_len (d : DenseArrayProperties) (len : Z) : DenseArrayProperties :=
  mkDense len (dense_array d).

Definition dense_capacity (d : DenseArrayProperties) : Z := Z.of_nat (length (dense_array d)).

(** [get_unchecked]: outside of the array, or of memory that was not initialised, undefined. *)
Definition dense_get (d : DenseArrayProperties) (index : Z) : outcome Value :=
  slot ← deref (dense_array d !! Z.to_nat index); deref slot.

Definition dense_set (d : DenseArrayProperties) (index : Z) (value : Value)
    : outcome DenseArrayProperties :=
  _ ← deref (dense_array d !! Z.to_nat index);
  Done (mkDense (dense_len d) (<[Z.to_nat index := Some value]> (dense_array d))).

(** The loop of [set_empty_range], [n] writes from [index] on. *)
Fixpoint write_empty (d : DenseArrayProperties) (index : Z) (n : nat) : outcome DenseArrayProperties :=
  match n with
  | O => Done d
  | S n => d ← dense_set d index empty_value; write_empty d (index + 1) n
  end.

Definition set_empty_range (d : DenseArrayProperties) (start_index end_index : Z)
    : outcome DenseArrayProperties :=
  write_empty d start_index (Z.to_nat (wrap32 (end_index - start_index))).

(** [copy_nonoverlapping] of the first [n] values. *)
Definition copy_values (from to : DenseArrayProperties) (n : Z) : outcome DenseArrayProperties :=
  if (n <=? dense_capacity from) && (n <=? dense_capacity to)
  then Done (mkDense (dense_len to)
               (take (Z.to_nat n) (dense_array from) ++ drop (Z.to_nat n) (dense_array to)))
  else Faulted.

(** [iter] and [iter_gc_unsafe]: the values of the array. *)
Fixpoint read_values (d : DenseArrayProperties) (index : Z) (n : nat) : outcome (list Value) :=
  match n with
  | O => Done []
  | S n => v ← dense_get d index; vs ← read_values d (index + 1) n; Done (v :: vs)
  end.

Definition dense_iter (d : DenseArrayProperties) : outcome (list Value) :=
  read_values d 0 (Z.to_nat (dense_len d)).

Definition saturating_double (n : Z) : Z := Z.min (n * 2) u32_max.

Definition grow_dense_properties (d : DenseArrayProperties) (new_length : Z)
    : outcome DenseArrayProperties :=
  let old_length := dense_len d in
  let old_capacity := dense_capacity d in
  if new_length <=? old_capacity then set_empty_range (dense_set_len d new_length) old_length new_length
  else
    let new_capacity := Z.max (saturating_double old_capacity) new_length in
    let new := dense_set_len (dense_new new_capacity) new_length in
    new ← copy_values d new old_length;
    set_empty_range new old_length new_capacity.

Definition shrink_dense_properties (d : DenseArrayProperties) (new_length : Z)
    : outcome DenseArrayProperties :=
  if dense_capacity d / 2 <=? new_length then Done (dense_set_len d new_length)
  else copy_values d (dense_set_len (dense_new new_length) new_length) new_length.

(** ** Both representations *)

Definition array_length (p : ArrayProperties) : Z :=
  match p with Dense d => dense_len d | Sparse s => sparse_array_length s end.

Definition get_property (key_hash_code : Z -> Z) (p : ArrayProperties) (array_index : Z) : outcome (option Property) :=
  match p with
  | Dense d =>
      if dense_len d <=? array_index then Done None
      else
        value ← dense_get d array_index;
        if is_empty value then Done None else Done (Some (property_data value true true true))
  | Sparse s => hash_map_get key_hash_code (sparse_map s) array_index
  end.

Definition remove_property (key_hash_code : Z -> Z) (p : ArrayProperties) (array_index : Z)
    : outcome ArrayProperties :=
  match p with
  | Dense d => d ← dense_set d array_index empty_value; Done (Dense d)
  | Sparse s =>
      '(_, m) ← hash_map_remove key_hash_code (sparse_map s) array_index;
      Done (Sparse (mkSparse m (sparse_array_length s)))
  end.

(** [SparseArrayProperties::new]. *)
Definition sparse_new (capacity array_length : Z) : SparseArrayProperties :=
  mkSparse (hash_map_new capacity) array_length.

(** The values that are not empty, with their indices, as they are inserted. *)
Fixpoint non_empty_items (index : Z) (values : list Value) : list (Z * Property) :=
  match values with
  | [] => []
  | value :: values =>
      if is_empty value then non_empty_items (index + 1) values
      else (wrap32 index, property_data value true true true) :: non_empty_items (index + 1) values
  end.

Definition transition_to_sparse_properties (draws : nat -> Z -> Z) (d : DenseArrayProperties)
    : outcome SparseArrayProperties :=
  values ← dense_iter d;
  let num_non_empty_properties :=
    Z.of_nat (length (filter (fun value => is_empty value = false) values)) in
  let new_capacity := min_capacity_needed num_non_empty_properties in
  let sparse_properties := sparse_new new_capacity (dense_len d) in
  m ← hm_insert_all draws (sparse_map sparse_properties) (non_empty_items 0 values);
  Done (mkSparse m (sparse_array_length sparse_properties)).

(** The loop that looks for a property that is not configurable. *)
Definition visit_non_configurable (new_length : Z) (last_non_configurable_index : option Z)
    (item : Z * Property) : option Z :=
  let '(index, stored_property) := item in
  if index <? new_length then last_non_configurable_index
  else if negb (is_configurable stored_property) then
    if index <=? default index last_non_configurable_index then Some index
    else last_non_configurable_index
  else last_non_configurable_index.

(** The sparse branch of [set_len]. *)
Definition set_len_sparse (draws : nat -> Z -> Z) (s : SparseArrayProperties) (new_length : Z)
    : outcome (bool * SparseArrayProperties) :=
  if sparse_array_length s <=? new_length then Done (true, mkSparse (sparse_map s) new_length)
  else
    let last_non_configurable_index :=
      foldl (visit_non_configurable new_length) None (hm_iter (sparse_map s)) in
    let new_length :=
      match last_non_configurable_index with
      | Some last_index => wrap32 (last_index + 1)
      | None => new_length
      end in
    let left := filter (fun '(index, _) => index < new_length) (hm_iter (sparse_map s)) in
    let new_capacity := min_capacity_needed (Z.of_nat (length left)) in
    m ← hm_insert_all draws (sparse_map (sparse_new new_capacity new_length)) left;
    Done (is_none last_non_configurable_index, mkSparse m new_length).

(** After the transition the recursive call takes the sparse branch. *)
Definition set_len (draws : nat -> Z -> Z) (p : ArrayProperties) (new_length : Z)
    : outcome (bool * ArrayProperties) :=
  match p with
  | Dense d =>
      let array_length := dense_len d in
      if array_length <? new_length then
        if wrap32 (array_length + SPARSE_ARRAY_THRESHOLD) <=? new_length then
          s ← transition_to_sparse_properties (even_draws draws) d;
          '(r, s) ← set_len_sparse (odd_draws draws) s new_length;
          Done (r, Sparse s)
        else d ← grow_dense_properties d new_length; Done (true, Dense d)
      else if new_length <? array_length then
        d ← shrink_dense_properties d new_length; Done (true, Dense d)
      else Done (true, Dense d)
  | Sparse s => '(r, s) ← set_len_sparse draws s new_length; Done (r, Sparse s)
  end.

(** The sparse branch of [set_property]. *)
Definition set_property_sparse (draws : nat -> Z -> Z) (s : SparseArrayProperties) (array_index : Z)
    (property : Property) : outcome SparseArrayProperties :=
  let array_length :=
    if sparse_array_length s <=? array_index then wrap32 (array_index + 1)
    else sparse_array_length s in
  '(_, m) ← hash_map_insert draws (sparse_map s) array_index property;
  Done (mkSparse m array_length).

(** A transition is followed by the sparse branch, growth by the dense write. *)
Definition set_property (draws : nat -> Z -> Z) (p : ArrayProperties) (array_index : Z)
    (property : Property) : outcome ArrayProperties :=
  match p with
  | Dense d =>
      if negb (is_allowed_as_dense_array_property property) then
        s ← transition_to_sparse_properties (even_draws draws) d;
        s ← set_property_sparse (odd_draws draws) s array_index property; Done (Sparse s)
      else if dense_len d <=? array_index then
        if wrap32 (dense_len d + SPARSE_ARRAY_THRESHOLD) <=? array_index then
          s ← transition_to_sparse_properties (even_draws draws) d;
          s ← set_property_sparse (odd_draws draws) s array_index property; Done (Sparse s)
        else
          d ← grow_dense_properties d (wrap32 (array_index + 1));
          d ← dense_set d array_index (property_value property); Done (Dense d)
      else d ← dense_set d array_index (property_value property); Done (Dense d)
  | Sparse s => s ← set_property_sparse draws s array_index property; Done (Sparse s)
  end.

(** [ordered_keys] of a sparse map. *)
Definition ordered_keys (s : SparseArrayProperties) : list Z :=
  merge_sort Z.le (hm_iter (sparse_map s)).*1.

(** The indices of the values that are not empty. *)
Definition non_empty_indices (values : list Value) : list Z := (non_empty_items 0 values).*1.

(** The indices that [ordinary_filtered_own_indexed_property_keys] visits, without a filter. *)
Definition own_indexed_keys (p : ArrayProperties) : outcome (list Z) :=
  match p with
  | Dense d => values ← dense_iter d; Done (non_empty_indices values)
  | Sparse s => Done (ordered_keys s)
  end.

