(* ===== verification/ArrayPropertiesCorrect.v ===== *)
(** Array index properties refine a finite map with a length.

    Whatever the representation, and through growth, shrinking and the transition from dense to
    sparse, the operations of [ArrayProperties] act as those of a map from indices to properties.
    The contents are stated without the hashes; that a stored property is found again is proved for
    hashes that reach it. *)
From S2P Require Import Prelude Float64 Value Property AssocList HashMap HashMapCorrect ArrayProperties.
Import HashMap.

(** ** Dense arrays *)

Record dense_ok (d : DenseArrayProperties) : Prop := {
  do_len : 0 <= dense_len d <= dense_capacity d;
  do_capacity : dense_capacity d <= u32_max;
  do_init : forall i, (i < Z.to_nat (dense_len d))%nat -> exists v, dense_array d !! i = Some (Some v)
}.

(** The property a slot stands for. *)
Definition slot_property (slot : option (option Value)) : option Property :=
  match slot with
  | Some (Some v) => if is_empty v then None else Some (property_data v true true true)
  | _ => None
  end.

Definition dense_at (d : DenseArrayProperties) (i : Z) : option Property :=
  if i <? dense_len d then slot_property (dense_array d !! Z.to_nat i) else None.

Lemma dense_get_spec d i v : dense_array d !! Z.to_nat i = Some (Some v) -> dense_get d i = Done v.
Proof. unfold dense_get. by intros ->. Qed.

Lemma dense_set_spec d i v :
  0 <= i < dense_capacity d ->
  dense_set d i v = Done (mkDense (dense_len d) (<[Z.to_nat i := Some v]> (dense_array d))).
Proof.
  intros Hi. unfold dense_set. unfold dense_capacity in Hi.
  destruct (lookup_lt_is_Some_2 (dense_array d) (Z.to_nat i)) as [x ->]; [lia|done].
Qed.

Lemma write_empty_spec n d i :
  0 <= i -> i + Z.of_nat n <= dense_capacity d ->
  exists d', write_empty d i n = Done d' /\ dense_len d' = dense_len d /\
    dense_capacity d' = dense_capacity d /\
    forall j, dense_array d' !! j =
      if decide (Z.to_nat i <= j < Z.to_nat i + n)%nat then Some (Some empty_value)
      else dense_array d !! j.
Proof.
  revert d i. induction n as [|n IH]; intros d i Hi Hn.
  - exists d. split_and!; try done. intros j. case_decide; [lia|done].
  - cbn [write_empty]. rewrite dense_set_spec by lia. cbn [mbind outcome_bind].
    set (d1 := mkDense _ _).
    assert (Hc : dense_capacity d1 = dense_capacity d)
      by (unfold dense_capacity; cbn; by rewrite length_insert).
    destruct (IH d1 (i + 1)) as (d' & E & Hl & Hcap & Ha); [lia|lia|].
    exists d'. split_and!; [done|done|lia|]. intros j. rewrite Ha.
    replace (Z.to_nat (i + 1)) with (S (Z.to_nat i)) by lia. unfold dense_capacity in *. cbn [d1 dense_array].
    rewrite list_lookup_insert. repeat case_decide; try done; lia.
Qed.

Lemma set_empty_range_spec d a b :
  0 <= a <= b -> b <= dense_capacity d -> dense_capacity d <= u32_max ->
  exists d', set_empty_range d a b = Done d' /\ dense_len d' = dense_len d /\
    dense_capacity d' = dense_capacity d /\
    forall j, dense_array d' !! j =
      if decide (Z.to_nat a <= j < Z.to_nat b)%nat then Some (Some empty_value)
      else dense_array d !! j.
Proof.
  intros Hab Hb Hc. unfold set_empty_range. rewrite wrap32_small by lia.
  destruct (write_empty_spec (Z.to_nat (b - a)) d a) as (d' & E & Hl & Hcap & Ha); [lia|lia|].
  exists d'. split_and!; try done. intros j. rewrite Ha. repeat case_decide; try done; lia.
Qed.

Lemma dense_capacity_new n l : 0 <= n -> dense_capacity (dense_set_len (dense_new n) l) = n.
Proof. intros Hn. unfold dense_capacity. cbn. rewrite length_replicate. lia. Qed.

Lemma copy_values_spec d d' n :
  0 <= n <= dense_capacity d -> n <= dense_capacity d' ->
  exists d2, copy_values d d' n = Done d2 /\ dense_len d2 = dense_len d' /\
    dense_capacity d2 = dense_capacity d' /\
    forall j, (j < Z.to_nat n)%nat -> dense_array d2 !! j = dense_array d !! j.
Proof.
  intros Hn Hn'. unfold copy_values. rewrite (proj2 (Z.leb_le _ _)), (proj2 (Z.leb_le _ _)) by lia. cbn.
  eexists. split; [done|]. cbn. unfold dense_capacity in *. cbn. split_and!; [done| |].
  - rewrite length_app, length_take, length_drop. lia.
  - intros j Hj. rewrite lookup_app_l by (rewrite length_take; lia). by rewrite lookup_take_lt.
Qed.

Lemma is_empty_empty : is_empty empty_value = true.
Proof. done. Qed.

(** Growing adds empty slots. *)
Lemma grow_dense_spec d n :
  dense_ok d -> dense_len d <= n <= u32_max ->
  exists d', grow_dense_properties d n = Done d' /\ dense_ok d' /\ dense_len d' = n /\
    forall i, 0 <= i -> dense_at d' i = dense_at d i.
Proof.
  intros [Hl Hc Hi] Hn. unfold grow_dense_properties.
  assert (Hfinal : forall d', dense_len d' = n -> n <= dense_capacity d' <= u32_max ->
    (forall j, (j < Z.to_nat n)%nat -> dense_array d' !! j =
      if decide (j < Z.to_nat (dense_len d))%nat then dense_array d !! j else Some (Some empty_value)) ->
    dense_ok d' /\ dense_len d' = n /\ forall i, 0 <= i -> dense_at d' i = dense_at d i).
  { intros d' Hl' Hc' Ha. split_and!; [split; [lia|lia|]|done|].
    - intros i Hi'. rewrite Hl' in Hi'. rewrite Ha by done. case_decide; [by apply Hi|by eexists].
    - intros i Hi0. unfold dense_at. rewrite Hl'. destruct (Z.ltb_spec i n), (Z.ltb_spec i (dense_len d)); try done; try lia.
      + rewrite Ha by lia. by rewrite decide_True by lia.
      + rewrite Ha by lia. by rewrite decide_False by lia. }
  destruct (Z.leb_spec n (dense_capacity d)) as [Hle|Hgt].
  - destruct (set_empty_range_spec (dense_set_len d n) (dense_len d) n) as (d' & E & Hl' & Hc' & Ha);
      [lia|done|done|].
    exists d'. split; [done|]. apply Hfinal; [done|unfold dense_capacity in *; cbn in *; lia|].
    intros j Hj. rewrite Ha. repeat case_decide; try done; lia.
  - set (cap := Z.max (saturating_double (dense_capacity d)) n).
    assert (Hcap : n <= cap <= u32_max) by (unfold cap, saturating_double; lia).
    pose proof (dense_capacity_new cap n ltac:(lia)) as Hnew.
    destruct (copy_values_spec d (dense_set_len (dense_new cap) n) (dense_len d))
      as (d1 & E1 & Hl1 & Hc1 & Ha1); [lia|lia|].
    rewrite E1. cbn [mbind outcome_bind].
    destruct (set_empty_range_spec d1 (dense_len d) cap) as (d' & E & Hl' & Hc' & Ha); [lia|lia|lia|].
    exists d'. split; [done|]. apply Hfinal; [by rewrite Hl', Hl1|lia|].
    intros j Hj. rewrite Ha. repeat case_decide; try lia; [done|]. apply Ha1. lia.
Qed.

(** Shrinking cuts the array. *)
Lemma shrink_spec d n :
  dense_ok d -> 0 <= n < dense_len d ->
  exists d', shrink_dense_properties d n = Done d' /\ dense_ok d' /\ dense_len d' = n /\
    forall i, 0 <= i -> dense_at d' i = if i <? n then dense_at d i else None.
Proof.
  intros [Hl Hc Hi] Hn. unfold shrink_dense_properties.
  assert (Hfinal : forall d', dense_len d' = n -> n <= dense_capacity d' <= u32_max ->
    (forall j, (j < Z.to_nat n)%nat -> dense_array d' !! j = dense_array d !! j) ->
    dense_ok d' /\ dense_len d' = n /\
    forall i, 0 <= i -> dense_at d' i = if i <? n then dense_at d i else None).
  { intros d' Hl' Hc' Ha. split_and!; [split; [lia|lia|]|done|].
    - intros i Hi'. rewrite Hl' in Hi'. rewrite Ha by done. apply Hi. lia.
    - intros i Hi0. unfold dense_at. rewrite Hl'. destruct (Z.ltb_spec i n); [|done].
      rewrite (proj2 (Z.ltb_lt i (dense_len d))) by lia. by rewrite Ha by lia. }
  destruct (Z.leb_spec (dense_capacity d / 2) n).
  - eexists. split; [done|]. apply Hfinal; [done|unfold dense_capacity in *; cbn; lia|done].
  - pose proof (dense_capacity_new n n ltac:(lia)) as Hnew.
    destruct (copy_values_spec d (dense_set_len (dense_new n) n) n) as (d' & E & Hl' & Hc' & Ha); [lia|lia|].
    exists d'. split; [done|]. apply Hfinal; [done|lia|done].
Qed.

(** Writing a slot. *)
Lemma dense_write_spec d i v :
  dense_ok d -> 0 <= i < dense_len d ->
  exists d', dense_set d i v = Done d' /\ dense_ok d' /\ dense_len d' = dense_len d /\
    forall j, 0 <= j -> dense_at d' j = if decide (j = i) then slot_property (Some (Some v)) else dense_at d j.
Proof.
  intros [Hl Hc Hi] Hr. rewrite dense_set_spec by lia. eexists. split; [done|].
  assert (Hcap : dense_capacity (mkDense (dense_len d) (<[Z.to_nat i := Some v]> (dense_array d))) = dense_capacity d)
    by (unfold dense_capacity; cbn; by rewrite length_insert).
  split_and!; [split; [cbn; lia|lia|]|done|].
  - cbn. intros j Hj. rewrite list_lookup_insert. case_decide; [by eexists|by apply Hi].
  - intros j Hj. unfold dense_at. cbn. rewrite list_lookup_insert. unfold dense_capacity in *.
    case_decide as H1; case_decide as H2; subst.
    + by rewrite (proj2 (Z.ltb_lt _ _)) by lia.
    + lia.
    + lia.
    + done.
Qed.

(** ** The values of a dense array *)

Lemma read_values_spec d n k :
  dense_ok d -> 0 <= k -> k + Z.of_nat n = dense_len d ->
  exists vs, read_values d k n = Done vs /\ length vs = n /\
    forall i, (i < n)%nat -> exists v, vs !! i = Some v /\ dense_array d !! (Z.to_nat k + i)%nat = Some (Some v).
Proof.
  intros Hok. revert k. induction n as [|n IH]; intros k Hk Hn.
  - exists []. split_and!; try done. intros i Hi. lia.
  - cbn [read_values]. destruct (do_init d Hok (Z.to_nat k)) as [v Hv]; [lia|].
    rewrite (dense_get_spec d k v Hv). cbn [mbind outcome_bind].
    destruct (IH (k + 1)) as (vs & E & Hlen & Hvs); [lia|lia|]. rewrite E. cbn.
    exists (v :: vs). split_and!; [done|cbn; lia|]. intros [|i] Hi; cbn.
    + exists v. by rewrite Nat.add_0_r.
    + destruct (Hvs i) as (w & Hw & Ha); [lia|]. exists w. split; [done|].
      by replace (Z.to_nat k + S i)%nat with (Z.to_nat (k + 1) + i)%nat by lia.
Qed.

(** The keys that are inserted are increasing, hence distinct. *)
Lemma non_empty_items_keys vs k :
  0 <= k -> k + Z.of_nat (length vs) <= 2 ^ 32 ->
  StronglySorted Z.lt (non_empty_items k vs).*1 /\
  Forall (fun i => k <= i < k + Z.of_nat (length vs)) (non_empty_items k vs).*1.
Proof.
  revert k. induction vs as [|v vs IH]; intros k Hk Hlen; cbn [non_empty_items length] in *.
  { split; constructor. }
  destruct (IH (k + 1)) as [Hs Hf]; [lia|lia|].
  assert (Hf' : Forall (fun i => k + 1 <= i < k + Z.of_nat (S (length vs))) (non_empty_items (k + 1) vs).*1)
    by (eapply Forall_impl; [exact Hf|]; cbn; lia).
  case_match; cbn.
  - split; [done|]. eapply Forall_impl; [exact Hf'|]. cbn. lia.
  - rewrite wrap32_small by (unfold u32_max; lia). split.
    + constructor; [done|]. eapply Forall_impl; [exact Hf'|]. cbn. lia.
    + constructor; [lia|]. eapply Forall_impl; [exact Hf'|]. cbn. lia.
Qed.

Lemma strongly_sorted_lt_NoDup (l : list Z) : StronglySorted Z.lt l -> NoDup l.
Proof.
  induction 1 as [|x l _ IH Hx]; constructor; [|done]. intros Hin.
  rewrite Forall_forall in Hx. specialize (Hx x Hin). lia.
Qed.

Lemma non_empty_items_lookup vs k i :
  0 <= k -> k + Z.of_nat (length vs) <= 2 ^ 32 -> k <= i ->
  Assoc.lookup i (non_empty_items k vs) = slot_property (Some <$> vs !! Z.to_nat (i - k)).
Proof.
  revert k. induction vs as [|v vs IH]; intros k Hk Hlen Hi; cbn [length] in *; [done|].
  destruct (decide (i = k)) as [->|Hne].
  - rewrite Z.sub_diag. change (Z.to_nat 0) with 0%nat. cbn. destruct (is_empty v) eqn:Ev; cbn.
    + apply Assoc.lookup_None. intros Hin.
      destruct (non_empty_items_keys vs (k + 1)) as [_ Hf]; [lia|lia|].
      rewrite Forall_forall in Hf. specialize (Hf k Hin). lia.
    + rewrite wrap32_small by (unfold u32_max; lia). by rewrite decide_True.
  - replace (Z.to_nat (i - k)) with (S (Z.to_nat (i - (k + 1)))) by lia. cbn [lookup list_lookup].
    rewrite <-IH by lia. cbn [non_empty_items]. case_match; [done|]. cbn.
    by rewrite wrap32_small, decide_False by (unfold u32_max in *; lia).
Qed.

(** ** Sparse maps *)

Lemma min_capacity_spec n :
  0 <= n <= u32_max ->
  exists k : nat, (k <= 34)%nat /\ min_capacity_needed n = 2 ^ Z.of_nat k /\ n <= 2 ^ Z.of_nat k.
Proof.
  intros Hn. unfold min_capacity_needed, next_power_of_two.
  pose proof (Z.log2_up_nonneg n) as H0.
  assert (Hle : n <= 2 ^ Z.log2_up n).
  { destruct (decide (n = 0)) as [->|]; [done|]. destruct (decide (n = 1)) as [->|]; [done|].
    apply Z.log2_up_spec. lia. }
  assert (H32 : Z.log2_up n <= 32).
  { change 32 with (Z.log2_up (2 ^ 32)). apply Z.log2_up_le_mono. unfold u32_max in Hn. lia. }
  case_match.
  - exists (S (Z.to_nat (Z.log2_up n))). rewrite Nat2Z.inj_succ, Z2Nat.id, Z.pow_succ_r by done.
    split_and!; [lia|lia|lia].
  - exists (Z.to_nat (Z.log2_up n)). rewrite Z2Nat.id by done. split_and!; [lia|lia|lia].
Qed.

(** Distinct integers of a range are no more than the range is long. *)
Lemma NoDup_range_length (l : list Z) (n : Z) :
  0 <= n -> NoDup l -> Forall (fun i => 0 <= i < n) l -> Z.of_nat (length l) <= n.
Proof.
  intros Hn Hnd Hf. assert (Hs : l ⊆+ seqZ 0 n).
  { apply NoDup_submseteq; [done|]. intros x Hx. rewrite Forall_forall in Hf. specialize (Hf x Hx).
    apply elem_of_seqZ. lia. }
  apply submseteq_length in Hs. rewrite length_seqZ in Hs. lia.
Qed.

Record sparse_ok (s : SparseArrayProperties) : Prop := {
  so_shape : hm_shape (sparse_map s);
  so_nodup : NoDup (hm_iter (sparse_map s)).*1;
  so_capacity : 0 < hm_capacity (sparse_map s) <= 2 ^ 34;
  so_length : 0 <= sparse_array_length s <= u32_max;
  so_keys : forall i p, Assoc.lookup i (hm_iter (sparse_map s)) = Some p -> 0 <= i < sparse_array_length s
}.

Definition sparse_at (s : SparseArrayProperties) (i : Z) : option Property :=
  Assoc.lookup i (hm_iter (sparse_map s)).

Lemma sparse_keys_range s :
  sparse_ok s -> Forall (fun i => 0 <= i < sparse_array_length s) (hm_iter (sparse_map s)).*1.
Proof.
  intros Hok. apply Forall_forall. intros i ([k p] & -> & Hin)%list_elem_of_fmap. cbn.
  eapply (so_keys s Hok). eapply Assoc.lookup_nodup; [by apply so_nodup|done].
Qed.

Lemma sparse_len s : sparse_ok s -> 0 <= len (sparse_map s) <= u32_max.
Proof.
  intros Hok. rewrite (proj2 (so_shape s Hok)). pose proof (so_length s Hok).
  pose proof (NoDup_range_length _ (sparse_array_length s) ltac:(lia) (so_nodup s Hok)
    (sparse_keys_range s Hok)) as H1. rewrite length_fmap in H1. lia.
Qed.

(** A map that is filled with the items it was sized for, whatever hashes are drawn. *)
Lemma fill_spec draws items n :
  NoDup items.*1 -> Forall (fun i => 0 <= i < n) items.*1 -> 0 <= n <= u32_max ->
  exists m, hm_insert_all draws (hash_map_new (min_capacity_needed (Z.of_nat (length items)))) items =
      Done m /\ sparse_ok (mkSparse m n) /\ no_deleted m /\
    (forall i, Assoc.lookup i (hm_iter m) = Assoc.lookup i items) /\
    forall h, agree draws h -> hm_reach h m.
Proof.
  intros Hnd Hf Hn.
  pose proof (NoDup_range_length _ n ltac:(lia) Hnd Hf) as Hlen. rewrite length_fmap in Hlen.
  destruct (min_capacity_spec (Z.of_nat (length items))) as (k & Hk & -> & Hroom); [lia|].
  assert (Hcap : 0 < 2 ^ Z.of_nat k <= 2 ^ 34).
  { split; [apply Z.pow_pos_nonneg; lia|apply Z.pow_le_mono_r; lia]. }
  assert (Hnew : forall h, let m := hash_map_new (K := Z) (V := Property) (2 ^ Z.of_nat k) in
    hm_wf h m /\ no_deleted m /\ hm_iter m = [] /\ hm_capacity m = 2 ^ Z.of_nat k)
    by (intros h; apply hash_map_new_wf; lia).
  destruct (Hnew (fun _ => 0)) as (W & D & I & C).
  destruct (hm_insert_all_sound draws _ items (proj1 (proj1 (hm_wf_split _ _) W)))
    as (m & E & W' & C' & P' & D').
  { by rewrite I, app_nil_r. }
  { rewrite C. cbn [len hash_map_new]. lia. }
  rewrite I, app_nil_r in P'. assert (Hnd' : NoDup (hm_iter m).*1) by (by rewrite P').
  assert (K' : forall i, Assoc.lookup i (hm_iter m) = Assoc.lookup i items)
    by (intros i; by apply Assoc.lookup_perm).
  exists m. split_and!; [done| |by apply D'|done|].
  - split; cbn; [done|done|lia|lia|].
    intros i p. rewrite K'. intros Hin%Assoc.lookup_Some_elem. rewrite Forall_forall in Hf. apply Hf.
    apply list_elem_of_fmap. by exists (i, p).
  - intros h ->%agree_const. destruct (Hnew h) as (Wh & _).
    destruct (hm_insert_all_spec h _ items Wh D Hnd) as (m2 & E2 & W2 & _).
    { rewrite C. cbn [len hash_map_new]. lia. }
    { rewrite C. lia. }
    rewrite E in E2. injection E2 as <-. apply (hm_wf_split h m), W2.
Qed.

Lemma length_non_empty_items vs k :
  length (non_empty_items k vs) = length (filter (fun value => is_empty value = false) vs).
Proof.
  revert k. induction vs as [|v vs IH]; intros k; [done|]. cbn [non_empty_items]. rewrite filter_cons.
  destruct (is_empty v); cbn; by rewrite IH.
Qed.

Lemma dense_iter_spec d :
  dense_ok d -> exists vs, dense_iter d = Done vs /\ Z.of_nat (length vs) = dense_len d /\
    forall i, 0 <= i -> slot_property (Some <$> vs !! Z.to_nat i) = dense_at d i.
Proof.
  intros Hok. pose proof (do_len d Hok). unfold dense_iter.
  destruct (read_values_spec d (Z.to_nat (dense_len d)) 0) as (vs & E & Hlen & Hvs); [done|lia|lia|].
  exists vs. split_and!; [done|lia|]. intros i Hi. unfold dense_at. destruct (Z.ltb_spec i (dense_len d)).
  - destruct (Hvs (Z.to_nat i)) as (v & -> & Ha); [lia|]. change (Z.to_nat 0 + Z.to_nat i)%nat with (Z.to_nat i) in Ha. by rewrite Ha.
  - by rewrite lookup_ge_None_2 by lia.
Qed.

(** The transition keeps every property. *)
Lemma transition_spec draws d :
  dense_ok d -> exists s, transition_to_sparse_properties draws d = Done s /\ sparse_ok s /\
    no_deleted (sparse_map s) /\ sparse_array_length s = dense_len d /\
    (forall i, 0 <= i -> sparse_at s i = dense_at d i) /\
    forall h, agree draws h -> hm_reach h (sparse_map s).
Proof.
  intros Hok. pose proof (do_len d Hok) as Hl. pose proof (do_capacity d Hok) as Hc.
  destruct (dense_iter_spec d Hok) as (vs & E & Hlen & Hvs).
  unfold transition_to_sparse_properties. rewrite E. cbn [mbind outcome_bind].
  unfold u32_max in Hc. destruct (non_empty_items_keys vs 0) as [Hs Hf]; [lia|lia|].
  rewrite <-(length_non_empty_items vs 0). cbn [sparse_new sparse_map sparse_array_length].
  destruct (fill_spec draws (non_empty_items 0 vs) (dense_len d)) as (m & E' & Hsok & Hnd & K & R).
  { by apply strongly_sorted_lt_NoDup. }
  { by rewrite <-Hlen. }
  { unfold u32_max. lia. }
  rewrite E'. cbn. eexists. split_and!; [done|done|done|done| |done]. intros i Hi. unfold sparse_at. cbn.
  rewrite K, non_empty_items_lookup by lia. rewrite Z.sub_0_r. by apply Hvs.
Qed.

(** ** Operations on sparse maps *)

(** A map that doubles has at most 2^33 entries, since its keys are array indices. *)
Lemma sparse_capacity_bound s c :
  sparse_ok s -> c = hm_capacity (sparse_map s) \/
    c = hm_capacity (sparse_map s) * 2 /\ hm_capacity (sparse_map s) / 2 < len (sparse_map s) + 1 ->
  0 < c <= 2 ^ 34.
Proof.
  intros Hok C. pose proof (sparse_len s Hok) as Hn. pose proof (so_capacity s Hok) as Hc.
  destruct C as [->|[-> Hg]]; [lia|]. unfold u32_max in Hn.
  assert (hm_capacity (sparse_map s) <= 2 ^ 33); [|lia].
  destruct (proj1 (so_shape s Hok)) as (k & _ & Hk). rewrite Hk in *.
  apply Z.pow_le_mono_r; [lia|]. assert (Z.of_nat k < 34); [|lia].
  apply (Z.pow_lt_mono_r_iff 2); [lia|lia|].
  assert (2 ^ Z.of_nat k / 2 <= 2 ^ 32) by lia. div_lia.
Qed.

(** Whether an insertion into a sparse map finds the slot of the key: the key is new, or the draws
    agree with the hashes that placed the keys and no deleted entry is in the way. *)
Definition finds_slot (draws : nat -> Z -> Z) (m : BsHashMap Z Property) (i : Z) : Prop :=
  Assoc.lookup i (hm_iter m) = None \/ (exists h, agree draws h /\ hm_reach h m) /\ insert_safe m i.

Lemma sparse_set_spec draws s i p :
  sparse_ok s -> 0 <= i < u32_max -> finds_slot draws (sparse_map s) i ->
  exists s', set_property_sparse draws s i p = Done s' /\ sparse_ok s' /\
    sparse_array_length s' = Z.max (sparse_array_length s) (i + 1) /\
    (forall j, sparse_at s' j = if decide (j = i) then Some p else sparse_at s j) /\
    (no_deleted (sparse_map s) -> no_deleted (sparse_map s')) /\
    forall h, agree draws h -> hm_reach h (sparse_map s) -> hm_reach h (sparse_map s').
Proof.
  intros Hok Hi Hfind. pose proof (so_length s Hok) as Hl. pose proof (so_capacity s Hok) as Hc.
  pose proof (so_nodup s Hok) as Hnd.
  destruct (hash_map_insert_sound draws (sparse_map s) i p (so_shape s Hok) Hnd)
    as (found & m & E & W & Hins & C & D); [lia|].
  assert (Hwf : forall h, agree draws h -> hm_reach h (sparse_map s) -> insert_safe (sparse_map s) i ->
    hm_reach h m /\ found = bool_decide (is_Some (Assoc.lookup i (hm_iter (sparse_map s))))).
  { intros h Ha Hr Hs. destruct (hash_map_insert_spec h (sparse_map s) i p) as (m2 & E2 & W2 & _);
      [by apply hm_wf_split; split_and!; [apply so_shape|done|]|lia|done|].
    rewrite <-(agree_const draws h Ha), E in E2. injection E2 as -> <-. split; [apply (hm_wf_split h m), W2|done]. }
  assert (Hnew : found = false -> Assoc.lookup i (hm_iter (sparse_map s)) = None).
  { intros ->. destruct Hfind as [|[(h & Ha & Hr) Hs]]; [done|]. destruct (Hwf h Ha Hr Hs) as [_ Hb].
    destruct (Assoc.lookup i _); [by rewrite bool_decide_true in Hb by by eexists|done]. }
  pose proof (inserted_lookup _ _ _ _ _ Hins Hnew Hnd) as K.
  pose proof (inserted_nodup _ _ _ _ _ Hins Hnew Hnd) as Hnd'.
  unfold set_property_sparse. rewrite E. cbn [mbind outcome_bind].
  set (l := if sparse_array_length s <=? i then _ else _).
  assert (Hlen : l = Z.max (sparse_array_length s) (i + 1)).
  { unfold l. destruct (Z.leb_spec (sparse_array_length s) i); [|lia]. rewrite wrap32_small by lia. lia. }
  exists (mkSparse m l). split_and!; [done| |done|intros j; apply K|exact D|].
  - split; cbn; [done|done| |unfold u32_max in *; lia|].
    + by apply (sparse_capacity_bound s).
    + intros j q. rewrite K. case_decide; [intros _; lia|].
      intros Hq. pose proof (so_keys s Hok j q Hq). lia.
  - intros h Ha Hr. apply Hwf; [done|done|]. destruct Hfind as [|[_ ?]]; [by right; left|done].
Qed.

(** Removing a key removes it or misses it, and does not miss a key that the hash reaches. *)
Lemma sparse_remove_spec h s i :
  sparse_ok s ->
  exists b m, hash_map_remove h (sparse_map s) i = Done (b, m) /\
    sparse_ok (mkSparse m (sparse_array_length s)) /\
    (forall j, Assoc.lookup j (hm_iter m) = if b && bool_decide (j = i) then None else sparse_at s j) /\
    (hm_reach h (sparse_map s) ->
       hm_reach h m /\ b = bool_decide (is_Some (sparse_at s i))).
Proof.
  intros Hok. pose proof (sparse_len s Hok) as Hl. pose proof (so_capacity s Hok) as Hc.
  destruct (hm_remove_sound h (sparse_map s) i (so_shape s Hok) (so_nodup s Hok)) as (b & m & E & W & Hnd & C & K); [lia|].
  exists b, m. split_and!; [done| |done|].
  - split; cbn; [done|done|by rewrite C|apply (so_length s Hok)|].
    intros j q. rewrite K. case_match; [done|]. apply (so_keys s Hok).
  - intros Hr. destruct (hash_map_remove_spec h (sparse_map s) i) as (m2 & E2 & W2 & _);
      [by apply hm_wf_split; split_and!; [apply so_shape, Hok|apply so_nodup, Hok|]|unfold usize_max, u32_max in *; lia|].
    rewrite E in E2. injection E2 as -> <-. split; [apply (hm_wf_split h m), W2|done].
Qed.

(** The smallest of a list of integers. *)
Fixpoint list_min (l : list Z) : option Z :=
  match l with
  | [] => None
  | x :: l => Some (match list_min l with Some y => Z.min x y | None => x end)
  end.

Lemma list_min_spec l :
  match list_min l with
  | None => l = []
  | Some x => x ∈ l /\ forall y, y ∈ l -> x <= y
  end.
Proof.
  induction l as [|x l IH]; cbn; [done|]. destruct (list_min l) as [y|].
  - destruct IH as [Hy Hle]. split.
    + destruct (Z.min_spec x y) as [[_ ->]|[_ ->]]; [by left|by right].
    + intros z [->|Hz]%elem_of_cons; [lia|]. specialize (Hle z Hz). lia.
  - subst l. split; [by left|]. intros z Hz. apply list_elem_of_singleton in Hz. lia.
Qed.

Lemma list_min_unique l l' : (forall x, x ∈ l <-> x ∈ l') -> list_min l = list_min l'.
Proof.
  intros H. pose proof (list_min_spec l) as H1. pose proof (list_min_spec l') as H2.
  destruct (list_min l) as [x|], (list_min l') as [y|].
  - destruct H1 as [Hx Hlx], H2 as [Hy Hly]. apply H in Hx. apply H in Hy.
    specialize (Hlx y Hy). specialize (Hly x Hx). f_equal. lia.
  - destruct H1 as [Hx _]. apply H in Hx. subst. by apply elem_of_nil in Hx.
  - destruct H2 as [Hy _]. apply H in Hy. subst. by apply elem_of_nil in Hy.
  - done.
Qed.

(** A property at or behind [n] that cannot be deleted. *)
Definition blocks (n : Z) (item : Z * Property) : Prop := n <= item.1 /\ is_configurable item.2 = false.
#[local] Instance blocks_dec n item : Decision (blocks n item) := ltac:(unfold blocks; apply _).

(** The loop of [set_len] finds the first of them. *)
Lemma visit_non_configurable_min n items acc :
  foldl (visit_non_configurable n) acc items =
    list_min (option_list acc ++ (filter (blocks n) items).*1).
Proof.
  revert acc. induction items as [|[i p] items IH]; intros acc.
  - rewrite app_nil_r. by destruct acc.
  - cbn [foldl]. rewrite IH, filter_cons. cbn [visit_non_configurable].
    destruct (Z.ltb_spec i n); [rewrite decide_False; [done|intros [??]; cbn in *; lia]|].
    destruct (is_configurable p) eqn:Ep; cbn [negb];
      [rewrite decide_False; [done|intros [??]; cbn in *; congruence]|].
    rewrite decide_True by done. cbn [fmap list_fmap fst].
    destruct acc as [a|]; cbn; [|by rewrite Z.leb_refl].
    destruct (Z.leb_spec i a); cbn; destruct (list_min _) as [z|]; f_equal; lia.
Qed.

(** Cutting a sparse array. *)
Lemma sparse_set_len_spec draws s n :
  sparse_ok s -> 0 <= n <= u32_max ->
  let first := list_min (filter (blocks n) (hm_iter (sparse_map s))).*1 in
  exists s', set_len_sparse draws s n = Done (is_none first, s') /\ sparse_ok s' /\
    (forall h, agree draws h -> hm_reach h (sparse_map s) -> hm_reach h (sparse_map s')) /\
    let stop := match first with Some i => i + 1 | None => n end in
    sparse_array_length s' = stop /\
    forall j, sparse_at s' j = if j <? stop then sparse_at s j else None.
Proof.
  intros Hok Hn first. pose proof (so_length s Hok) as Hl. unfold set_len_sparse.
  pose proof (list_min_spec (filter (blocks n) (hm_iter (sparse_map s))).*1) as Hmin. fold first in Hmin.
  assert (Hfirst : forall i, first = Some i -> n <= i < sparse_array_length s).
  { intros i Hi. rewrite Hi in Hmin. destruct Hmin as [Hin _].
    apply list_elem_of_fmap in Hin as ([k p] & -> & [[Hge _] Hin]%list_elem_of_filter). cbn in *.
    pose proof (so_keys s Hok k p). split; [done|]. apply H. apply Assoc.lookup_nodup; [by apply so_nodup|done]. }
  destruct (Z.leb_spec (sparse_array_length s) n) as [Hle|Hgt].
  - destruct first as [i|]; [specialize (Hfirst i eq_refl); lia|].
    eexists. split_and!; [done| |done|done|].
    + destruct Hok as [W N C L K]. split; cbn [sparse_map sparse_array_length]; [exact W|exact N|exact C|exact Hn|]. intros i p Hp. specialize (K i p Hp). lia.
    + intros j. unfold sparse_at. cbn. destruct (Z.ltb_spec j n); [done|].
      destruct (Assoc.lookup j _) as [p|] eqn:E; [|done]. pose proof (so_keys s Hok j p E). lia.
  - rewrite (visit_non_configurable_min n _ None).
    change (list_min (option_list None ++ (filter (blocks n) (hm_iter (sparse_map s))).*1)) with first.
    set (stop := match first with Some i => i + 1 | None => n end).
    replace (match first with Some last_index => wrap32 (last_index + 1) | None => n end) with stop
      by (unfold stop; destruct first as [i|]; [specialize (Hfirst i eq_refl); by rewrite wrap32_small by lia|done]).
    assert (Hstop : 0 <= stop <= u32_max).
    { unfold stop. destruct first as [i|]; [specialize (Hfirst i eq_refl)|]; lia. }
    match goal with |- context [min_capacity_needed (Z.of_nat (length ?l))] => set (left := l) end.
    assert (Hleft : forall i p, (i, p) ∈ left <-> i < stop /\ (i, p) ∈ hm_iter (sparse_map s)).
    { intros i p. unfold left. rewrite list_elem_of_filter. reflexivity. }
    assert (Hnd : NoDup left.*1).
    { pose proof (so_nodup s Hok) as Hnd. unfold left. revert Hnd. generalize (hm_iter (sparse_map s)). clear.
      intros items. induction items as [|[i p] items IH]; [done|].
      rewrite fmap_cons. intros [Hx Hnd]%NoDup_cons. rewrite filter_cons.
      case_decide; [|by apply IH]. cbn. constructor; [|by apply IH].
      intros ([k q] & Heq & [_ Hin]%list_elem_of_filter)%list_elem_of_fmap. cbn in Heq. subst. apply Hx.
      apply list_elem_of_fmap. by exists (k, q). }
    destruct (fill_spec draws left stop) as (m & E & Hok' & _ & K & R); [done| |done|].
    { apply Forall_forall. intros i ([k p] & -> & Hin)%list_elem_of_fmap. cbn. apply Hleft in Hin as [Hlt Hin].
      split; [|done]. eapply (so_keys s Hok). apply Assoc.lookup_nodup; [by apply so_nodup|done]. }
    cbn [sparse_new sparse_map]. rewrite E. cbn. eexists. split_and!; [done|done|intros h Ha _; by apply R|done|].
    intros j. unfold sparse_at. cbn. rewrite K. destruct (Z.ltb_spec j stop).
    + destruct (Assoc.lookup j (hm_iter (sparse_map s))) as [p|] eqn:Ej.
      * apply Assoc.lookup_nodup; [done|]. apply Hleft. split; [done|]. by apply Assoc.lookup_Some_elem.
      * destruct (Assoc.lookup j left) as [p|] eqn:Ej'; [|done].
        apply Assoc.lookup_Some_elem, Hleft in Ej' as [_ Hin]. apply Assoc.lookup_None in Ej.
        destruct Ej. apply list_elem_of_fmap. by exists (j, p).
    + destruct (Assoc.lookup j left) as [p|] eqn:Ej'; [|done].
      apply Assoc.lookup_Some_elem, Hleft in Ej' as [? _]. lia.
Qed.

(** ** The abstract array *)

Record AbstractArray : Type := mkArray {
  a_length : Z;
  a_properties : gmap Z Property
}.

Definition a_first_blocking (a : AbstractArray) (n : Z) : option Z :=
  list_min (filter (blocks n) (map_to_list (a_properties a))).*1.

Definition a_set_len (a : AbstractArray) (n : Z) : bool * AbstractArray :=
  let first := a_first_blocking a n in
  let stop := match first with Some i => i + 1 | None => n end in
  (is_none first, mkArray stop (filter (fun '(i, _) => i < stop) (a_properties a))).

Inductive ArrayOp : Type :=
| OpSet (index : Z) (property : Property)
| OpRemove (index : Z)
| OpSetLen (new_length : Z).

Definition a_step (a : AbstractArray) (op : ArrayOp) : bool * AbstractArray :=
  match op with
  | OpSet i p => (true, mkArray (Z.max (a_length a) (i + 1)) (<[i := p]> (a_properties a)))
  | OpRemove i => (true, mkArray (a_length a) (delete i (a_properties a)))
  | OpSetLen n => a_set_len a n
  end.

(** A removal may also miss the property. *)
Definition a_step_or_miss (a : AbstractArray) (op : ArrayOp) (r : bool) (a' : AbstractArray) : Prop :=
  (r, a') = a_step a op \/ (exists i, op = OpRemove i) /\ r = true /\ a' = a.

(** An operation, with the hash functions it draws. *)
Definition array_step (draws : nat -> Z -> Z) (p : ArrayProperties) (op : ArrayOp)
    : outcome (bool * ArrayProperties) :=
  match op with
  | OpSet i property => p ← set_property draws p i property; Done (true, p)
  | OpRemove i => p ← remove_property (draws 0%nat) p i; Done (true, p)
  | OpSetLen n => set_len draws p n
  end.

(** ** Refinement *)

Definition properties_ok (p : ArrayProperties) : Prop :=
  match p with Dense d => dense_ok d | Sparse s => sparse_ok s end.

Definition property_at (p : ArrayProperties) (i : Z) : option Property :=
  match p with Dense d => dense_at d i | Sparse s => sparse_at s i end.

Definition array_repr (p : ArrayProperties) (a : AbstractArray) : Prop :=
  properties_ok p /\ array_length p = a_length a /\
  forall i, a_properties a !! i = if 0 <=? i then property_at p i else None.

(** Every key of a sparse map is reached by the hash. *)
Definition array_reach (h : Z -> Z) (p : ArrayProperties) : Prop :=
  match p with Dense _ => True | Sparse s => hm_reach h (sparse_map s) end.

(** Whether a write finds the place of the property: the property is new, the array is and stays
    dense, or the draws agree with the hashes of the stored keys and, in a sparse map, no deleted
    entry is in the way. *)
Definition write_finds (draws : nat -> Z -> Z) (p : ArrayProperties) (i : Z) (property : Property) : Prop :=
  match p with
  | Dense d =>
      dense_at d i = None \/ is_allowed_as_dense_array_property property = true \/ exists h, agree draws h
  | Sparse s => finds_slot draws (sparse_map s) i
  end.

(** Properties are public and their value is not the hole, a removal from a dense array is within
    its length, and a write finds the place of its property. *)
Definition op_allowed (draws : nat -> Z -> Z) (p : ArrayProperties) (op : ArrayOp) : Prop :=
  match op with
  | OpSet i property =>
      0 <= i < u32_max /\ public_flags (flags property) /\ is_empty (property_value property) = false /\
      write_finds draws p i property
  | OpRemove i => 0 <= i /\ match p with Dense d => i < dense_len d | Sparse _ => True end
  | OpSetLen n => 0 <= n <= u32_max
  end.

(** No entry was deleted from a sparse map since it was last rebuilt. *)
Definition array_clean (p : ArrayProperties) : Prop :=
  match p with Dense _ => True | Sparse s => no_deleted (sparse_map s) end.

Lemma dense_at_range d i q : 0 <= i -> dense_at d i = Some q -> i < dense_len d.
Proof. unfold dense_at. intros Hi. destruct (Z.ltb_spec i (dense_len d)); [done|discriminate]. Qed.

Lemma dense_at_configurable d i q : dense_at d i = Some q -> is_configurable q = true.
Proof.
  unfold dense_at, slot_property. intros H. repeat case_match; simplify_eq.
  by destruct (property_data_flags v true true true) as (_ & _ & _ & _ & ?).
Qed.

(** A lookup finds the property or, in a sparse map, nothing. *)
Lemma get_property_sound h p i :
  properties_ok p -> 0 <= i -> exists r, get_property h p i = Done r /\
    (r = property_at p i \/ r = None /\ exists s, p = Sparse s).
Proof.
  destruct p as [d|s]; cbn [properties_ok get_property property_at]; intros Hok Hi.
  - eexists. split; [|by left].
    unfold dense_at. destruct (Z.leb_spec (dense_len d) i), (Z.ltb_spec i (dense_len d)); try lia; [done|].
    destruct (do_init d Hok (Z.to_nat i)) as [v Hv]; [lia|].
    rewrite (dense_get_spec d i v Hv), Hv. cbn. by case_match.
  - destruct (hm_get_sound h (sparse_map s) i (so_shape s Hok) (so_nodup s Hok)) as (r & E & Hr).
    exists r. split; [done|]. destruct Hr; [by left|right; by eauto].
Qed.

Lemma get_property_spec h p i :
  properties_ok p -> array_reach h p -> 0 <= i -> get_property h p i = Done (property_at p i).
Proof.
  intros Hok Hr Hi. destruct p as [d|s].
  - destruct (get_property_sound h (Dense d) i Hok Hi) as (r & -> & [->|[_ [s ?]]]); done.
  - apply hash_map_get_spec, hm_wf_split. split_and!; [apply so_shape, Hok|apply so_nodup, Hok|exact Hr].
Qed.

(** Setting a property, in every representation. *)
Lemma set_property_spec draws p i q :
  properties_ok p -> op_allowed draws p (OpSet i q) ->
  exists p', set_property draws p i q = Done p' /\ properties_ok p' /\
    array_length p' = Z.max (array_length p) (i + 1) /\
    (forall j, 0 <= j -> property_at p' j = if decide (j = i) then Some q else property_at p j) /\
    (array_clean p -> array_clean p') /\
    forall h, agree draws h -> array_reach h p -> array_reach h p'.
Proof.
  intros Hok (Hi & Hf & Hne & Hfind). destruct p as [d|s]; cbn [set_property properties_ok property_at array_length write_finds] in *.
  - assert (Htrans : dense_at d i = None \/ (exists h, agree draws h) ->
      exists p', (s ← transition_to_sparse_properties (even_draws draws) d;
        s ← set_property_sparse (odd_draws draws) s i q; Done (Sparse s)) = Done p' /\ properties_ok p' /\
      array_length p' = Z.max (dense_len d) (i + 1) /\
      (forall j, 0 <= j -> property_at p' j = if decide (j = i) then Some q else dense_at d j) /\
      (array_clean (Dense d) -> array_clean p') /\
      forall h, agree draws h -> array_reach h (Dense d) -> array_reach h p').
    { intros Hf'. destruct (transition_spec (even_draws draws) d Hok) as (s & -> & Hs & Hnd & Hl & Ha & Hr). cbn [mbind outcome_bind].
      destruct (sparse_set_spec (odd_draws draws) s i q Hs Hi) as (s' & -> & Hs' & Hl' & Ha' & Hc' & Hr').
      { destruct Hf' as [Hn|[h Hag]]; [left; by rewrite <-Hn, <-Ha by lia|right].
        split; [|by left]. exists h. split; [by apply agree_odd|by apply Hr, agree_even]. }
      cbn [mbind outcome_bind]. exists (Sparse s'). split_and!; [done|done|cbn; lia| |intros _; by apply Hc'|].
      - intros j Hj. cbn. rewrite Ha'. case_decide; [done|by apply Ha].
      - intros h Hag _. apply Hr'; [by apply agree_odd|by apply Hr, agree_even]. }
    assert (Hwrite : forall d', dense_ok d' -> i < dense_len d' -> is_allowed_as_dense_array_property q = true ->
      dense_len d' = Z.max (dense_len d) (i + 1) -> (forall j, 0 <= j -> dense_at d' j = dense_at d j) ->
      exists p', (d ← dense_set d' i (property_value q); Done (Dense d)) = Done p' /\ properties_ok p' /\
        array_length p' = Z.max (dense_len d) (i + 1) /\
        (forall j, 0 <= j -> property_at p' j = if decide (j = i) then Some q else dense_at d j) /\
        (array_clean (Dense d) -> array_clean p') /\
        forall h, agree draws h -> array_reach h (Dense d) -> array_reach h p').
    { intros d' Hok' Hlt Hq Hl Ha. destruct (dense_write_spec d' i (property_value q) Hok') as (d2 & -> & Hok2 & Hl2 & Ha2); [lia|].
      cbn [mbind outcome_bind]. exists (Dense d2). split_and!; [done|done|cbn; lia| |done|done].
      intros j Hj. cbn. rewrite Ha2 by done. case_decide; [|by apply Ha]. cbn. rewrite Hne.
      f_equal. symmetry. by apply dense_property_eq. }
    destruct (is_allowed_as_dense_array_property q) eqn:Hq; cbn [negb]; [|apply Htrans; naive_solver].
    destruct (Z.leb_spec (dense_len d) i); [|apply (Hwrite d); [done|done|done|lia|done]].
    case_match; [apply Htrans; left; unfold dense_at; by rewrite (proj2 (Z.ltb_ge _ _))|].
    destruct (grow_dense_spec d (wrap32 (i + 1)) Hok) as (d' & -> & Hok' & Hl' & Ha').
    { rewrite wrap32_small by lia. lia. }
    rewrite wrap32_small in Hl' by lia. cbn [mbind outcome_bind]. apply Hwrite; [done|lia|done|lia|done].
  - destruct (sparse_set_spec draws s i q Hok Hi Hfind) as (s' & -> & Hs' & Hl' & Ha' & Hc' & Hr').
    cbn [mbind outcome_bind].
    exists (Sparse s'). split_and!; [done|done|done| |exact Hc'|exact Hr']. intros j _. apply Ha'.
Qed.

(** Removing a property, or missing it. *)
Lemma remove_property_spec h p i :
  properties_ok p -> 0 <= i -> match p with Dense d => i < dense_len d | Sparse _ => True end ->
  exists b p', remove_property h p i = Done p' /\ properties_ok p' /\
    array_length p' = array_length p /\
    (forall j, 0 <= j -> property_at p' j = if b && bool_decide (j = i) then None else property_at p j) /\
    (array_reach h p -> array_reach h p' /\ (b = false -> property_at p i = None)).
Proof.
  intros Hok Hi Hin. destruct p as [d|s]; cbn [remove_property properties_ok property_at array_length] in *.
  - destruct (dense_write_spec d i empty_value Hok) as (d2 & -> & Hok2 & Hl2 & Ha2); [lia|].
    cbn [mbind outcome_bind]. exists true, (Dense d2). split_and!; [done|done|done| |done].
    intros j Hj. cbn [property_at andb]. rewrite Ha2 by done. case_bool_decide; by case_decide.
  - destruct (sparse_remove_spec h s i Hok) as (b & m & -> & Hok' & K & R). cbn [mbind outcome_bind].
    exists b. eexists. split_and!; [done|done|done|intros j _; apply K|].
    intros Hr. destruct (R Hr) as [Hr' Hb]. split; [exact Hr'|]. intros ->. symmetry in Hb. apply bool_decide_eq_false in Hb.
    by apply eq_None_not_Some.
Qed.

Lemma first_blocking_none a n :
  (forall i q, a_properties a !! i = Some q -> n <= i -> is_configurable q = true) ->
  a_first_blocking a n = None.
Proof.
  intros H. pose proof (list_min_spec (filter (blocks n) (map_to_list (a_properties a))).*1) as Hm.
  unfold a_first_blocking. destruct (list_min _) as [x|]; [|done]. destruct Hm as [Hx _].
  apply list_elem_of_fmap in Hx as ([i q] & -> & [[Hge Hc] Hin]%list_elem_of_filter).
  apply elem_of_map_to_list in Hin. cbn in *. rewrite (H i q Hin Hge) in Hc. done.
Qed.

Lemma a_set_len_lookup a n i :
  let stop := match a_first_blocking a n with Some i => i + 1 | None => n end in
  a_properties (a_set_len a n).2 !! i = if i <? stop then a_properties a !! i else None.
Proof.
  intros stop. unfold a_set_len. fold stop. cbn [snd a_properties]. rewrite map_lookup_filter.
  destruct (a_properties a !! i) as [q|]; cbn; [|by case_match].
  destruct (Z.ltb_spec i stop); [by rewrite option_guard_True|by rewrite option_guard_False by lia].
Qed.

Lemma sparse_set_len_refines draws s a n :
  array_repr (Sparse s) a -> 0 <= n <= u32_max ->
  exists s', set_len_sparse draws s n = Done ((a_set_len a n).1, s') /\
    array_repr (Sparse s') (a_set_len a n).2 /\
    forall h, agree draws h -> hm_reach h (sparse_map s) -> hm_reach h (sparse_map s').
Proof.
  intros (Hok & Hl & Ha) Hn. cbn in Hok, Hl.
  destruct (sparse_set_len_spec draws s n Hok Hn) as (s' & E & Hok' & R' & Hl' & Ha').
  assert (Hfirst : a_first_blocking a n = list_min (filter (blocks n) (hm_iter (sparse_map s))).*1).
  { apply list_min_unique. intros x. rewrite !list_elem_of_fmap. split; intros ([i q] & -> & Hin);
      exists (i, q); (split; [done|]); apply list_elem_of_filter in Hin as [Hb Hin]; apply list_elem_of_filter;
      (split; [done|]).
    - apply elem_of_map_to_list in Hin. rewrite Ha in Hin. case_match; [|done]. by apply Assoc.lookup_Some_elem.
    - apply elem_of_map_to_list. rewrite Ha. apply Assoc.lookup_nodup in Hin; [|by apply so_nodup].
      pose proof (so_keys s Hok i q Hin). by rewrite (proj2 (Z.leb_le 0 i)) by lia. }
  exists s'. unfold a_set_len at 1. rewrite <-Hfirst in *. cbn [fst]. split_and!; [done| |done].
  split_and!; [done|cbn; lia|]. intros i. rewrite a_set_len_lookup, Ha. cbn [property_at].
  rewrite Ha'. by repeat case_match.
Qed.

(** Resizing, in every representation. *)
Lemma set_len_refines draws p a n :
  array_repr p a -> 0 <= n <= u32_max ->
  exists p', set_len draws p n = Done ((a_set_len a n).1, p') /\ array_repr p' (a_set_len a n).2 /\
    forall h, agree draws h -> array_reach h p -> array_reach h p'.
Proof.
  intros Hr Hn. destruct p as [d|s]; cbn [set_len].
  2: { destruct (sparse_set_len_refines draws s a n Hr Hn) as (s' & -> & Hr'). cbn. by eexists. }
  destruct Hr as (Hok & Hl & Ha). cbn in Hok, Hl, Ha.
  assert (Hnone : a_first_blocking a n = None).
  { apply first_blocking_none. intros i q Hq _. rewrite Ha in Hq. case_match; [|done]. by eapply dense_at_configurable. }
  assert (Hdense : forall d', dense_ok d' -> dense_len d' = n ->
    (forall i, 0 <= i -> dense_at d' i = if i <? n then dense_at d i else None) ->
    exists p', Done (true, Dense d') = Done ((a_set_len a n).1, p') /\ array_repr p' (a_set_len a n).2 /\
      forall h, agree draws h -> array_reach h (Dense d) -> array_reach h p').
  { intros d' Hok' Hl' Ha'. exists (Dense d'). unfold a_set_len at 1. rewrite Hnone. split_and!; [done| |done].
    split_and!; [done|unfold a_set_len; by rewrite Hnone|]. intros i. rewrite a_set_len_lookup, Hnone, Ha. cbn [property_at].
    destruct (Z.leb_spec 0 i); [by rewrite Ha'|by case_match]. }
  assert (Hall : dense_len d <= n -> forall i, 0 <= i -> dense_at d i = if i <? n then dense_at d i else None).
  { intros Hle i Hi. destruct (Z.ltb_spec i n); [done|]. destruct (dense_at d i) as [q|] eqn:E; [|done].
    pose proof (dense_at_range d i q Hi E). lia. }
  destruct (Z.ltb_spec (dense_len d) n); [|destruct (Z.ltb_spec n (dense_len d))].
  - case_match.
    + destruct (transition_spec (even_draws draws) d Hok) as (s & -> & Hs & _ & Hsl & Hsa & Hsr). cbn [mbind outcome_bind].
      destruct (sparse_set_len_refines (odd_draws draws) s a n) as (s' & -> & Hr' & R'); [|done|].
      2: { cbn. eexists. split_and!; [done|done|]. intros h Hag _. apply R'; [by apply agree_odd|by apply Hsr, agree_even]. }
      split_and!; [done|cbn; lia|]. intros i. rewrite Ha. cbn. destruct (Z.leb_spec 0 i); [by rewrite Hsa|done].
    + destruct (grow_dense_spec d n Hok) as (d' & -> & Hok' & Hl' & Ha'); [lia|]. cbn [mbind outcome_bind].
      apply Hdense; [done|done|]. intros i Hi. rewrite Ha' by done. apply Hall; [lia|done].
  - destruct (shrink_spec d n Hok) as (d' & -> & Hok' & Hl' & Ha'); [lia|]. cbn [mbind outcome_bind]. by apply Hdense.
  - apply Hdense; [done|lia|apply Hall; lia].
Qed.

Lemma array_step_refines draws p a op :
  array_repr p a -> op_allowed draws p op ->
  exists r p' a', array_step draws p op = Done (r, p') /\ a_step_or_miss a op r a' /\ array_repr p' a' /\
    forall h, agree draws h -> array_reach h p -> array_reach h p' /\ (r, a') = a_step a op.
Proof.
  intros (Hok & Hl & Ha) Hop. destruct op as [i q|i|n]; cbn [array_step a_step].
  - destruct (set_property_spec draws p i q Hok Hop) as (p' & -> & Hok' & Hl' & Ha' & _ & Hr'). cbn [mbind outcome_bind].
    eexists true, p', _. split_and!; [done|by left| |by auto]. split_and!; [done|cbn; lia|]. intros j. cbn. destruct Hop as (Hi & _).
    rewrite lookup_insert. destruct (Z.leb_spec 0 j).
    + rewrite Ha', Ha, (proj2 (Z.leb_le 0 j)) by done. by repeat case_decide.
    + rewrite Ha, (proj2 (Z.leb_gt 0 j)) by done. case_decide; [lia|done].
  - destruct Hop as [Hi Hin].
    destruct (remove_property_spec (draws 0%nat) p i Hok Hi Hin) as (b & p' & -> & Hok' & Hl' & Ha' & Hr').
    cbn [mbind outcome_bind].
    exists true, p', (if b then mkArray (a_length a) (delete i (a_properties a)) else a). split_and!; [done| | |].
    + destruct b; [by left|]. right. eauto.
    + split_and!; [done|destruct b; cbn; lia|]. intros j. destruct b; cbn [a_properties andb] in *.
      * rewrite lookup_delete. destruct (Z.leb_spec 0 j).
        -- rewrite Ha', Ha, (proj2 (Z.leb_le 0 j)) by done. case_bool_decide; case_decide; by subst.
        -- rewrite Ha, (proj2 (Z.leb_gt 0 j)) by done. by case_decide.
      * rewrite Ha. destruct (Z.leb_spec 0 j); [by rewrite Ha'|done].
    + intros h Hag Hr. rewrite (agree_const draws h Hag) in Hr'. destruct (Hr' Hr) as [R' Hb]. split; [done|].
      destruct b; [done|]. f_equal. rewrite delete_id; [by destruct a|]. rewrite Ha, (proj2 (Z.leb_le 0 i) Hi). by apply Hb.
  - destruct (set_len_refines draws p a n (conj Hok (conj Hl Ha)) Hop) as (p' & E & Hr' & R'). rewrite E.
    exists (a_set_len a n).1, p', (a_set_len a n).2.
    split_and!; [done|left; cbn [a_step]; by destruct (a_set_len a n)|done|].
    intros h Hag Hr. split; [by eapply R'|by destruct (a_set_len a n)].
Qed.

(** ** Keys in numerical order *)

Lemma own_indexed_keys_spec p :
  properties_ok p ->
  exists ks, own_indexed_keys p = Done ks /\ StronglySorted Z.lt ks /\
    forall i, i ∈ ks <-> 0 <= i /\ is_Some (property_at p i).
Proof.
  destruct p as [d|s]; cbn [own_indexed_keys properties_ok property_at]; intros Hok.
  - destruct (dense_iter_spec d Hok) as (vs & -> & Hlen & Hvs). cbn.
    pose proof (do_len d Hok) as Hl. pose proof (do_capacity d Hok) as Hc. unfold u32_max in Hc.
    destruct (non_empty_items_keys vs 0) as [Hs Hf]; [lia|lia|].
    eexists. split_and!; [done|done|]. intros i. unfold non_empty_indices. split.
    + intros Hin. pose proof Hin as Hr. rewrite Forall_forall in Hf. apply Hf in Hr. split; [lia|].
      rewrite <-Hvs by lia. pose proof (non_empty_items_lookup vs 0 i) as Hlk. rewrite Z.sub_0_r in Hlk.
      rewrite <-Hlk by lia. destruct (Assoc.lookup i (non_empty_items 0 vs)) eqn:E; [by eexists|].
      by apply Assoc.lookup_None in E.
    + intros [Hi [q Hq]]. rewrite <-Hvs in Hq by lia. pose proof (non_empty_items_lookup vs 0 i) as Hlk.
      rewrite Z.sub_0_r in Hlk. rewrite <-Hlk in Hq by lia.
      apply Assoc.lookup_Some_elem in Hq. apply list_elem_of_fmap. by exists (i, q).
  - eexists. split; [done|]. unfold ordered_keys. set (ks := (hm_iter (sparse_map s)).*1).
    pose proof (merge_sort_Permutation Z.le ks) as Hp. pose proof (so_nodup s Hok) as Hnd. fold ks in Hnd.
    split.
    + pose proof (StronglySorted_merge_sort Z.le ks) as Hs.
      assert (Hnd' : NoDup (merge_sort Z.le ks)) by by rewrite Hp.
      revert Hs Hnd'. generalize (merge_sort Z.le ks). clear. intros l Hs. induction Hs as [|x l _ IH Hx]; intros Hnd.
      * constructor.
      * apply NoDup_cons in Hnd as [Hn Hnd]. constructor; [by apply IH|].
        rewrite Forall_forall in Hx |- *. intros y Hy. specialize (Hx y Hy). assert (x <> y) by (by intros ->). lia.
    + intros i. rewrite Hp. unfold ks, sparse_at. split.
      * intros ([k q] & -> & Hin)%list_elem_of_fmap. cbn. apply Assoc.lookup_nodup in Hin; [|done].
        pose proof (so_keys s Hok k q Hin). split; [lia|by eexists].
      * intros [_ [q Hq]]. apply Assoc.lookup_Some_elem in Hq. apply list_elem_of_fmap. by exists (i, q).
Qed.

(** ** Runs *)

(** A run of operations, each with its own draws. *)
Fixpoint array_run (supply : nat -> nat -> Z -> Z) (p : ArrayProperties) (ops : list ArrayOp)
    : outcome (list bool * ArrayProperties) :=
  match ops with
  | [] => Done ([], p)
  | op :: ops =>
      '(r, p) ← array_step (supply 0%nat) p op;
      '(rs, p) ← array_run (fun n => supply (S n)) p ops; Done (r :: rs, p)
  end.

Fixpoint a_run (a : AbstractArray) (ops : list ArrayOp) : list bool * AbstractArray :=
  match ops with
  | [] => ([], a)
  | op :: ops => let '(r, a) := a_step a op in let '(rs, a) := a_run a ops in (r :: rs, a)
  end.

Fixpoint a_run_or_miss (a : AbstractArray) (ops : list ArrayOp) (rs : list bool) (a' : AbstractArray) : Prop :=
  match ops, rs with
  | [], [] => a' = a
  | op :: ops, r :: rs => exists a1, a_step_or_miss a op r a1 /\ a_run_or_miss a1 ops rs a'
  | _, _ => False
  end.

Fixpoint run_allowed (supply : nat -> nat -> Z -> Z) (p : ArrayProperties) (ops : list ArrayOp) : Prop :=
  match ops with
  | [] => True
  | op :: ops =>
      op_allowed (supply 0%nat) p op /\
      forall r p', array_step (supply 0%nat) p op = Done (r, p') -> run_allowed (fun n => supply (S n)) p' ops
  end.

Lemma array_run_refines supply p a ops :
  array_repr p a -> run_allowed supply p ops ->
  exists rs p' a', array_run supply p ops = Done (rs, p') /\ a_run_or_miss a ops rs a' /\ array_repr p' a' /\
    forall h, (forall n, agree (supply n) h) -> array_reach h p -> array_reach h p' /\ (rs, a') = a_run a ops.
Proof.
  revert supply p a. induction ops as [|op ops IH]; intros supply p a Hr Hops; cbn [array_run a_run].
  { by exists [], p, a. }
  destruct Hops as [Hop Hops].
  destruct (array_step_refines (supply 0%nat) p a op Hr Hop) as (r & p1 & a1 & E1 & Hs1 & Hr1 & R1).
  rewrite E1. cbn [mbind outcome_bind].
  destruct (IH (fun n => supply (S n)) p1 a1 Hr1 (Hops _ _ E1)) as (rs & p2 & a2 & -> & Hs2 & Hr2 & R2). cbn [mbind outcome_bind].
  exists (r :: rs), p2, a2. split_and!; [done|by exists a1|done|]. intros h Hag H0.
  destruct (R1 h (Hag 0%nat) H0) as [H1 <-]. destruct (R2 h (fun n => Hag (S n)) H1) as [H2 <-]. done.
Qed.

Lemma empty_array_repr : array_repr (Dense (dense_new 0)) (mkArray 0 ∅).
Proof.
  split_and!; [split; cbn; [done|done|intros i Hi; cbn in Hi; lia]|done|].
  intros i. cbn [a_properties]. rewrite lookup_empty. destruct (Z.leb_spec 0 i); [|done].
  unfold property_at, dense_at. cbn [dense_len dense_new]. by rewrite (proj2 (Z.ltb_ge i 0)).
Qed.


(** ** Examples *)

Definition example_hash (k : Z) : Z := k.

(** Draws that differ from call to call. *)
Definition example_supply (n m : nat) (k : Z) : Z := k + 3 * Z.of_nat n + 5 * Z.of_nat m.

Definition attributes_property (n : Z) (configurable : bool) : Property :=
  property_data (smi n) true true configurable.

(** A dense write, a write behind a gap, a property that is not configurable, a deletion and a new
    length. *)
Definition example_ops : list ArrayOp :=
  [OpSet 0 (attributes_property 7 true); OpSet 150 (attributes_property 8 true);
   OpSet 3 (attributes_property 9 false); OpRemove 0; OpSetLen 2].

Ltac array_example_step :=
  split; [|let r := fresh in let p := fresh in let E := fresh in
           intros r p E; vm_compute in E; injection E as <- <-].

Lemma example_allowed : run_allowed example_supply (Dense (dense_new 0)) example_ops.
Proof.
  array_example_step; [split_and!; try done; by left|]. array_example_step; [split_and!; try done; by left|].
  array_example_step; [split_and!; try done; left; by vm_compute|].
  array_example_step; [done|]. split; done.
Qed.


Example example_result :
  (a_run (mkArray 0 ∅) example_ops).1 = [true; true; true; true; false] /\
  a_length (a_run (mkArray 0 ∅) example_ops).2 = 4.
Proof. by vm_compute. Qed.

(** Setting the length of an array deletes properties that are not configurable.  The scan for
    the last such property keeps the first one instead: with two of them behind the new length,
    the array is cut behind the first, and the second, which must stay, is gone. *)
Theorem length_change_deletes_fixed_property :
  ('(written, p) ← array_run (fun _ _ => example_hash) (Dense (dense_new 0))
     [OpSet 5 (attributes_property 1 false); OpSet 7 (attributes_property 2 false)];
   before ← get_property example_hash p 7;
   '(r, p) ← set_len (fun _ => example_hash) p 3;
   after ← get_property example_hash p 7;
   Done (written, before, r, array_length p, after)) =
  Done ([true; true], Some (attributes_property 2 false), false, 6, None).
Proof. vm_compute. reflexivity. Qed.
