(* ===== verification/ObjectModel.v ===== *)
(** Objects: the property storage of [src/so2js/runtime/object_value.rs], the internal methods of
    ordinary objects ([ordinary_object.rs]) and of arrays ([array_object.rs]), with property keys
    ([property_key.rs]) and accessors ([accessor.rs]).

    The heap holds objects and accessors by address.  Objects are ordinary objects, the object
    prototype and arrays; the other exotic objects, proxies among them, are not modelled.  Calls
    of getters and setters are a parameter that returns the new heap.  The items that values refer
    to (strings, BigInts) are an [ItemHeap].

    The maps hash a key anew in every call, with a hasher that may be seeded at random.  An
    operation takes the hash functions it draws; one that is made of several draws those at even
    places in its first part and those at odd places in the rest. *)

From S2P Require Import Prelude AssocList IndexMap IndexMapCorrect HashMap HashMapCorrect Float64 Value ValueCorrect.
From S2P Require Import Descriptors TypeUtilities Property ArrayProperties ArrayPropertiesCorrect.

(** ** Keys *)

(** Array indices are small integers whose 32 bits are the index; strings, which are interned, and
    symbols are pointers. *)
Record PropertyKey : Type := mkKey { key_value : Value }.

#[global] Instance Value_eq_dec : EqDecision Value.
Proof. solve_decision. Defined.
#[global] Instance PropertyKey_eq_dec : EqDecision PropertyKey.
Proof. solve_decision. Defined.

(** [PropertyKey::array_index] for an index other than [u32::MAX]. *)
Definition array_index_key (value : Z) : PropertyKey := mkKey (smi (cast_signed 32 value)).
Definition is_array_index (key : PropertyKey) : bool := is_smi (key_value key).
Definition as_array_index (key : PropertyKey) : Z := as_u32 (as_smi (key_value key)).

(** ** The heap *)

Record Accessor : Type := mkAccessor {
  accessor_get : option Z;
  accessor_set : option Z
}.

#[global] Instance Accessor_eq_dec : EqDecision Accessor.
Proof. solve_decision. Defined.

Inductive ObjectClass : Type :=
| OrdinaryObjectClass
| ObjectPrototypeClass
| ArrayObjectClass (is_length_writable : bool).

Record ObjectValue : Type := mkObject {
  object_class : ObjectClass;
  prototype : option Z;
  named_properties : BsIndexMap PropertyKey Property;
  array_properties : ArrayProperties;
  is_extensible_field : bool
}.

Record ObjectHeap : Type := mkObjectHeap {
  objects : gmap Z ObjectValue;
  accessors : gmap Z Accessor;
  next_address : Z
}.

Definition set_prototype (o : ObjectValue) (p : option Z) : ObjectValue :=
  mkObject (object_class o) p (named_properties o) (array_properties o) (is_extensible_field o).
Definition set_named_properties (o : ObjectValue) m : ObjectValue :=
  mkObject (object_class o) (prototype o) m (array_properties o) (is_extensible_field o).
Definition set_array_properties (o : ObjectValue) (p : ArrayProperties) : ObjectValue :=
  mkObject (object_class o) (prototype o) (named_properties o) p (is_extensible_field o).
Definition set_is_extensible_field (o : ObjectValue) (b : bool) : ObjectValue :=
  mkObject (object_class o) (prototype o) (named_properties o) (array_properties o) b.
Definition set_object_class (o : ObjectValue) (c : ObjectClass) : ObjectValue :=
  mkObject c (prototype o) (named_properties o) (array_properties o) (is_extensible_field o).

(** [object_ordinary_init]: the default property maps are empty and never written to. *)
Definition object_ordinary_init (c : ObjectClass) (proto : option Z) : ObjectValue :=
  mkObject c proto (index_map_new 0) (Dense (dense_new 0)) true.

Definition put_object (h : ObjectHeap) (address : Z) (o : ObjectValue) : ObjectHeap :=
  mkObjectHeap (<[address := o]> (objects h)) (accessors h) (next_address h).

(** Dereferencing a pointer to an object or an accessor. *)
Definition load_object (h : ObjectHeap) (address : Z) : EvalResult ObjectValue :=
  match objects h !! address with Some o => EOk o | None => EFault end.
Definition load_accessor (h : ObjectHeap) (address : Z) : EvalResult Accessor :=
  match accessors h !! address with Some a => EOk a | None => EFault end.

Definition lift {A} (o : outcome A) : EvalResult A :=
  match o with Done a => EOk a | Panicked => EPanic | Faulted => EFault | OutOfFuel => EOutOfFuel end.

Definition eunwrap {A} (o : option A) : EvalResult A :=
  match o with Some a => EOk a | None => EPanic end.

(** Items are at least one word long. *)
Definition alloc_object (h : ObjectHeap) (o : ObjectValue) : Z * ObjectHeap :=
  (next_address h,
   mkObjectHeap (<[next_address h := o]> (objects h)) (accessors h) (next_address h + 8)).
Definition Accessor_new (h : ObjectHeap) (get set : option Z) : Z * ObjectHeap :=
  (next_address h,
   mkObjectHeap (objects h) (<[next_address h := mkAccessor get set]> (accessors h))
     (next_address h + 8)).

(** ** Hashes *)

(** The hash functions that an operation draws, for named keys and for array indices. *)
Record Hashes : Type := mkHashes {
  named_draws : nat -> PropertyKey -> Z;
  index_draws : nat -> Z -> Z
}.

Definition fst_hashes (d : Hashes) : Hashes :=
  mkHashes (even_draws (named_draws d)) (even_draws (index_draws d)).
Definition snd_hashes (d : Hashes) : Hashes :=
  mkHashes (odd_draws (named_draws d)) (odd_draws (index_draws d)).

Section Objects.

Variable heap : ItemHeap.
Variable convert_object : Value -> ToPrimitivePreferredType -> EvalResult Value.
Variable parse_string_to_number : list Z -> option f64.
Variable call_object : ObjectHeap -> Z -> Value -> list Value -> EvalResult (Value * ObjectHeap).
Variable length_name : PropertyKey.   (* [cx.names.length()] *)

Definition key_is_string (key : PropertyKey) : bool := is_string heap (key_value key).
Definition key_is_symbol (key : PropertyKey) : bool := is_symbol heap (key_value key).
Definition key_is_length (key : PropertyKey) : bool :=
  key_is_string key
  && flat_string_eq (units_of heap (key_value key)) (units_of heap (key_value length_name)).

(** ** Property storage *)

Definition object_get_property (d : Hashes) (o : ObjectValue) (key : PropertyKey) : EvalResult (option Property) :=
  if is_array_index key then lift (get_property (index_draws d 0%nat) (array_properties o) (as_array_index key))
  else lift (index_map_get (named_draws d 0%nat) (named_properties o) key).

(** [maybe_grow_for_insertion] and [insert_without_growing] on the field of an object. *)
Definition insert_named (d : Hashes) (o : ObjectValue) (new_map_ptr : Z) (key : PropertyKey) (property : Property)
    : EvalResult ObjectValue :=
  '(old, moved) ← lift (maybe_grow_for_insertion (fun n => named_draws d (S n)) (named_properties o) new_map_ptr);
  '(_, m) ← lift (insert_without_growing (named_draws d 0%nat) (default old moved) key property);
  EOk (set_named_properties o m).

Definition object_set_property (d : Hashes) (h : ObjectHeap) (address : Z) (key : PropertyKey)
    (property : Property) : EvalResult ObjectHeap :=
  o ← load_object h address;
  if is_array_index key then
    p ← lift (set_property (index_draws d) (array_properties o) (as_array_index key) property);
    EOk (put_object h address (set_array_properties o p))
  else
    o ← insert_named d o (next_address h) key property;
    EOk (put_object h address o).

Definition object_remove_property (d : Hashes) (h : ObjectHeap) (address : Z) (key : PropertyKey)
    : EvalResult ObjectHeap :=
  o ← load_object h address;
  if is_array_index key then
    p ← lift (remove_property (index_draws d 0%nat) (array_properties o) (as_array_index key));
    EOk (put_object h address (set_array_properties o p))
  else
    '(_, m) ← lift (index_map_remove (named_draws d 0%nat) (named_properties o) key);
    EOk (put_object h address (set_named_properties o m)).

(** Private elements are named properties with a private flag. *)
Definition private_element_find (d : Hashes) (o : ObjectValue) (private_name : PropertyKey)
    : EvalResult (option Property) :=
  lift (index_map_get (named_draws d 0%nat) (named_properties o) private_name).

Definition has_private_element (d : Hashes) (o : ObjectValue) (private_name : PropertyKey) : EvalResult bool :=
  lift (contains_key (named_draws d 0%nat) (named_properties o) private_name).

Definition private_element_set (d : Hashes) (h : ObjectHeap) (address : Z) (private_name : PropertyKey)
    (value : Value) : EvalResult ObjectHeap :=
  o ← load_object h address;
  o ← insert_named d o (next_address h) private_name (private_field value);
  EOk (put_object h address o).

Definition private_property_add (d : Hashes) (h : ObjectHeap) (address : Z) (private_name : PropertyKey)
    (private_property : Property) : EvalResult ObjectHeap :=
  o ← load_object h address;
  present ← has_private_element (fst_hashes d) o private_name;
  if present : bool then EErr TypeError
  else
    o ← insert_named (snd_hashes d) o (next_address h) private_name private_property;
    EOk (put_object h address o).

Definition set_array_properties_length (d : Hashes) (h : ObjectHeap) (address : Z) (new_length : Z)
    : EvalResult (bool * ObjectHeap) :=
  o ← load_object h address;
  '(r, p) ← lift (set_len (index_draws d) (array_properties o) new_length);
  EOk (r, put_object h address (set_array_properties o p)).

(** ** Own properties *)

(** [value.is_pointer() && value.as_pointer().descriptor().kind() == HeapItemKind::Accessor]. *)
Definition is_accessor_value (h : ObjectHeap) (v : Value) : bool :=
  is_pointer v && bool_decide (is_Some (accessors h !! as_pointer v)).

Definition descriptor_of (h : ObjectHeap) (property : Property) : EvalResult PropertyDescriptor :=
  let value := property_value property in
  if is_accessor_value h value then
    accessor_value ← load_accessor h (as_pointer value);
    EOk (descriptor_accessor (accessor_get accessor_value) (accessor_set accessor_value)
           (is_enumerable property) (is_configurable property))
  else
    EOk (descriptor_data value (is_writable property) (is_enumerable property)
           (is_configurable property)).

Definition ordinary_get_own_property (d : Hashes) (h : ObjectHeap) (address : Z) (key : PropertyKey)
    : EvalResult (option PropertyDescriptor) :=
  o ← load_object h address;
  property ← object_get_property d o key;
  match property with
  | None => EOk None
  | Some property => desc ← descriptor_of h property; EOk (Some desc)
  end.

(** The virtual method: arrays have a length property of their own. *)
Definition get_own_property (d : Hashes) (h : ObjectHeap) (address : Z) (key : PropertyKey)
    : EvalResult (option PropertyDescriptor) :=
  o ← load_object h address;
  match object_class o with
  | ArrayObjectClass is_length_writable =>
      if key_is_length key then
        EOk (Some (descriptor_data (from_u32 (array_length (array_properties o)))
                     is_length_writable false false))
      else ordinary_get_own_property d h address key
  | _ => ordinary_get_own_property d h address key
  end.

Definition is_extensible (h : ObjectHeap) (address : Z) : EvalResult bool :=
  o ← load_object h address; EOk (is_extensible_field o).

Definition prevent_extensions (h : ObjectHeap) (address : Z) : EvalResult (bool * ObjectHeap) :=
  o ← load_object h address;
  EOk (true, put_object h address (set_is_extensible_field o false)).

(** ** Defining properties *)

(** A field of the accessor of a property is written in place. *)
Definition write_accessor (h : ObjectHeap) (v : Value) (f : Accessor -> Accessor)
    : EvalResult ObjectHeap :=
  a ← load_accessor h (as_pointer v);
  EOk (mkObjectHeap (objects h) (<[as_pointer v := f a]> (accessors h)) (next_address h)).

(** [current_desc] is absent: a new property with the fields of the descriptor or defaults. *)
Definition create_property (d : Hashes) (h : ObjectHeap) (object : option Z) (key : PropertyKey)
    (desc : PropertyDescriptor) : EvalResult (bool * ObjectHeap) :=
  match object with
  | None => EOk (true, h)
  | Some object =>
      let is_enumerable := default false (desc_enumerable desc) in
      let is_configurable := default false (desc_configurable desc) in
      let '(property, h) :=
        if is_accessor_descriptor desc then
          let '(accessor, h) := Accessor_new h (desc_get desc) (desc_set desc) in
          (property_accessor (heap_item accessor) is_enumerable is_configurable, h)
        else
          (property_data (default undefined (desc_value desc)) (default false (desc_writable desc))
             is_enumerable is_configurable, h) in
      h ← object_set_property d h object key property;
      EOk (true, h)
  end.

(** The last part: every field of the descriptor is set in the existing property. *)
Definition apply_fields (d : Hashes) (h : ObjectHeap) (object : Z) (key : PropertyKey) (desc : PropertyDescriptor)
    : EvalResult ObjectHeap :=
  o ← load_object h object;
  property ← object_get_property (fst_hashes d) o key;
  property ← eunwrap property;
  let property :=
    match desc_enumerable desc with Some b => set_is_enumerable property b | None => property end in
  let property :=
    match desc_configurable desc with
    | Some b => set_is_configurable property b | None => property end in
  '(property, h) ←
    (if is_data_descriptor desc then
       let property :=
         match desc_writable desc with Some b => set_is_writable property b | None => property end in
       let property :=
         match desc_value desc with Some v => set_value property v | None => property end in
       EOk (property, h)
     else
       h ← (if has_get desc
            then write_accessor h (property_value property)
                   (fun a => mkAccessor (desc_get desc) (accessor_set a))
            else EOk h);
       h ← (if has_set desc
            then write_accessor h (property_value property)
                   (fun a => mkAccessor (accessor_get a) (desc_set desc))
            else EOk h);
       EOk (property, h));
  object_set_property (snd_hashes d) h object key property.

(** Converting between data and accessor: shared fields are kept, the others get their defaults. *)
Definition convert_property (d : Hashes) (h : ObjectHeap) (object : Z) (key : PropertyKey)
    (desc : PropertyDescriptor) : EvalResult ObjectHeap :=
  o ← load_object h object;
  property ← object_get_property (fst_hashes d) o key;
  property ← eunwrap property;
  let '(property, h) :=
    if is_data_descriptor desc then (set_is_writable (set_value property undefined) false, h)
    else
      let '(accessor, h) := Accessor_new h None None in
      (set_value property (heap_item accessor), h) in
  object_set_property (snd_hashes d) h object key property.

(** A getter or setter that is present but not the existing one. *)
Definition function_differs (present : bool) (f current : option Z) : bool :=
  present &&
  match f, current with
  | Some f, Some current => negb (f =? current)
  | Some _, None | None, Some _ => true
  | None, None => false
  end.

(** The result of the checks on an existing property: whether to return, and with what, or to go
    on with or without a conversion. *)
Inductive Validation : Type :=
| Return (result : bool)
| Convert
| Apply.

Definition validate_property (desc current_desc : PropertyDescriptor) : EvalResult Validation :=
  if has_no_fields desc then EOk (Return true)
  else if negb (descriptor_is_configurable current_desc)
          && (bool_decide (desc_configurable desc = Some true)
              || match desc_enumerable desc with
                 | Some b => negb (Bool.eqb b (descriptor_is_enumerable current_desc))
                 | None => false
                 end)
  then EOk (Return false)
  else if is_generic_descriptor desc then EOk Apply
  else if negb (Bool.eqb (is_data_descriptor current_desc) (is_data_descriptor desc)) then
    if negb (descriptor_is_configurable current_desc) then EOk (Return false) else EOk Convert
  else if is_data_descriptor current_desc && is_data_descriptor desc then
    if negb (descriptor_is_configurable current_desc)
       && negb (descriptor_is_writable current_desc) then
      if bool_decide (desc_writable desc = Some true) then EOk (Return false)
      else
        match desc_value desc with
        | Some value =>
            current_value ← eunwrap (desc_value current_desc);
            if negb (same_value heap value current_value) then EOk (Return false)
            else EOk (Return true)
        | None => EOk (Return true)
        end
    else EOk Apply
  else if negb (descriptor_is_configurable current_desc) then
    if function_differs (has_get desc) (desc_get desc) (desc_get current_desc)
       || function_differs (has_set desc) (desc_set desc) (desc_set current_desc)
    then EOk (Return false)
    else EOk (Return true)
  else EOk Apply.

Definition validate_and_apply_property_descriptor (d : Hashes) (h : ObjectHeap) (object : option Z)
    (key : PropertyKey) (is_extensible : bool) (desc : PropertyDescriptor)
    (current_desc : option PropertyDescriptor) : EvalResult (bool * ObjectHeap) :=
  match current_desc with
  | None => if negb is_extensible then EOk (false, h) else create_property d h object key desc
  | Some current_desc =>
      validation ← validate_property desc current_desc;
      match validation, object with
      | Return result, _ => EOk (result, h)
      | Convert, None | Apply, None => EOk (true, h)
      | Convert, Some object =>
          h ← convert_property (fst_hashes d) h object key desc;
          h ← apply_fields (snd_hashes d) h object key desc;
          EOk (true, h)
      | Apply, Some object => h ← apply_fields d h object key desc; EOk (true, h)
      end
  end.

Definition is_compatible_property_descriptor (d : Hashes) (h : ObjectHeap) (is_extensible : bool)
    (desc : PropertyDescriptor) (current_desc : option PropertyDescriptor)
    : EvalResult (bool * ObjectHeap) :=
  validate_and_apply_property_descriptor d h None (mkKey undefined) is_extensible desc current_desc.

Definition ordinary_define_own_property (d : Hashes) (h : ObjectHeap) (address : Z) (key : PropertyKey)
    (desc : PropertyDescriptor) : EvalResult (bool * ObjectHeap) :=
  current_desc ← get_own_property (fst_hashes d) h address key;
  is_extensible ← is_extensible h address;
  validate_and_apply_property_descriptor (snd_hashes d) h (Some address) key is_extensible desc current_desc.

(** The value of a new length.  Conversions of objects are a parameter without effects. *)
Definition new_array_length (desc : PropertyDescriptor) (current : Z) : EvalResult Z :=
  match desc_value desc with
  | None => EOk current
  | Some value =>
      new_len ← to_uint32 heap convert_object parse_string_to_number value;
      number_len ← to_number heap convert_object parse_string_to_number value;
      if negb (f64_eq (f64_of_int new_len) (as_number number_len)) then EErr RangeError
      else EOk new_len
  end.

Definition array_set_length (d : Hashes) (h : ObjectHeap) (address : Z) (desc : PropertyDescriptor)
    : EvalResult (bool * ObjectHeap) :=
  o ← load_object h address;
  is_length_writable ←
    (match object_class o with ArrayObjectClass w => EOk w | _ => EFault end : EvalResult bool);
  new_len ← new_array_length desc (array_length (array_properties o));
  if bool_decide (desc_configurable desc = Some true) then EOk (false, h)
  else if bool_decide (desc_enumerable desc = Some true) then EOk (false, h)
  else if is_accessor_descriptor desc then EOk (false, h)
  else if negb is_length_writable
          && (bool_decide (desc_writable desc = Some true)
              || negb (new_len =? array_length (array_properties o))) then EOk (false, h)
  else
    '(has_delete_succeeded, h) ← set_array_properties_length d h address new_len;
    h ← (if bool_decide (desc_writable desc = Some false) then
           o ← load_object h address;
           EOk (put_object h address (set_object_class o (ArrayObjectClass false)))
         else EOk h);
    EOk (has_delete_succeeded, h).

(** The virtual method: ordinary and array objects. *)
Definition define_own_property (d : Hashes) (h : ObjectHeap) (address : Z) (key : PropertyKey)
    (desc : PropertyDescriptor) : EvalResult (bool * ObjectHeap) :=
  o ← load_object h address;
  match object_class o with
  | ArrayObjectClass is_length_writable =>
      if is_array_index key then
        if (array_length (array_properties o) <=? as_array_index key) && negb is_length_writable
        then EOk (false, h)
        else ordinary_define_own_property d h address key desc
      else if key_is_length key then array_set_length d h address desc
      else ordinary_define_own_property d h address key desc
  | _ => ordinary_define_own_property d h address key desc
  end.

Definition create_data_property (d : Hashes) (h : ObjectHeap) (address : Z) (key : PropertyKey) (value : Value)
    : EvalResult (bool * ObjectHeap) :=
  define_own_property d h address key (descriptor_data value true true true).

(** ** Deleting and listing properties *)

Definition ordinary_delete (d : Hashes) (h : ObjectHeap) (address : Z) (key : PropertyKey)
    : EvalResult (bool * ObjectHeap) :=
  desc ← get_own_property (fst_hashes d) h address key;
  match desc with
  | None => EOk (true, h)
  | Some desc =>
      if descriptor_is_configurable desc
      then h ← object_remove_property (snd_hashes d) h address key; EOk (true, h)
      else EOk (false, h)
  end.

Definition delete (d : Hashes) (h : ObjectHeap) (address : Z) (key : PropertyKey) : EvalResult (bool * ObjectHeap) :=
  o ← load_object h address;
  match object_class o with
  | ArrayObjectClass _ =>
      if key_is_length key then EOk (false, h) else ordinary_delete d h address key
  | _ => ordinary_delete d h address key
  end.

(** Strings in the order of their creation, then symbols that are not private. *)
Definition ordinary_own_string_symbol_property_keys (o : ObjectValue) : list PropertyKey :=
  filter (fun key => key_is_string key = true) (keys_gc_unsafe (named_properties o))
  ++ (filter (fun item => key_is_symbol item.1 = true /\ is_private item.2 = false)
        (iter_gc_unsafe (named_properties o))).*1.

(** Array indices are listed as keys; the code makes strings of them. *)
Definition own_property_keys (h : ObjectHeap) (address : Z) : EvalResult (list PropertyKey) :=
  o ← load_object h address;
  indices ← lift (own_indexed_keys (array_properties o));
  let length_keys := match object_class o with ArrayObjectClass _ => [length_name] | _ => [] end in
  EOk (map array_index_key indices ++ length_keys ++ ordinary_own_string_symbol_property_keys o).

(** ** The prototype chain *)

Definition get_prototype_of (h : ObjectHeap) (address : Z) : EvalResult (option Z) :=
  o ← load_object h address; EOk (prototype o).

(** The loop of [ordinary_set_prototype_of]: whether the object is on the chain. *)
Fixpoint chain_contains (fuel : nat) (h : ObjectHeap) (current_prototype : option Z) (object : Z)
    : EvalResult bool :=
  match fuel with
  | O => EOutOfFuel
  | S fuel =>
      match current_prototype with
      | None => EOk false
      | Some current_proto =>
          if current_proto =? object then EOk true
          else next ← get_prototype_of h current_proto; chain_contains fuel h next object
      end
  end.

Definition is_object_prototype (o : ObjectValue) : bool :=
  match object_class o with ObjectPrototypeClass => true | _ => false end.

Definition ordinary_set_prototype_of (fuel : nat) (h : ObjectHeap) (address : Z)
    (new_prototype : option Z) : EvalResult (bool * ObjectHeap) :=
  o ← load_object h address;
  if bool_decide (prototype o = new_prototype) then EOk (true, h)
  else if is_object_prototype o then EOk (false, h)
  else if negb (is_extensible_field o) then EOk (false, h)
  else
    cyclic ← chain_contains fuel h new_prototype address;
    if cyclic : bool then EOk (false, h)
    else EOk (true, put_object h address (set_prototype o new_prototype)).

Fixpoint has_property (fuel : nat) (d : Hashes) (h : ObjectHeap) (address : Z) (key : PropertyKey)
    : EvalResult bool :=
  match fuel with
  | O => EOutOfFuel
  | S fuel =>
      own_property ← get_own_property (fst_hashes d) h address key;
      if is_some own_property then EOk true
      else
        parent ← get_prototype_of h address;
        match parent with
        | Some parent => has_property fuel (snd_hashes d) h parent key
        | None => EOk false
        end
  end.

Fixpoint ordinary_get (fuel : nat) (d : Hashes) (h : ObjectHeap) (address : Z) (key : PropertyKey)
    (receiver : Value) : EvalResult (Value * ObjectHeap) :=
  match fuel with
  | O => EOutOfFuel
  | S fuel =>
      desc ← get_own_property (fst_hashes d) h address key;
      match desc with
      | None =>
          parent ← get_prototype_of h address;
          match parent with
          | None => EOk (undefined, h)
          | Some parent => ordinary_get fuel (snd_hashes d) h parent key receiver
          end
      | Some desc =>
          if is_data_descriptor desc then value ← eunwrap (desc_value desc); EOk (value, h)
          else
            match desc_get desc with
            | None => EOk (undefined, h)
            | Some getter => call_object h getter receiver []
            end
      end
  end.

(** [ordinary_set] once the property or its absence was found on the chain. *)
Definition set_with_own_descriptor (d : Hashes) (h : ObjectHeap) (key : PropertyKey) (value receiver : Value)
    (own_desc : PropertyDescriptor) : EvalResult (bool * ObjectHeap) :=
  if is_data_descriptor own_desc then
    if bool_decide (desc_writable own_desc = Some false) then EOk (false, h)
    else if negb (is_object heap receiver) then EOk (false, h)
    else
      let receiver := as_pointer receiver in
      existing_descriptor ← get_own_property (fst_hashes d) h receiver key;
      match existing_descriptor with
      | None => create_data_property (snd_hashes d) h receiver key value
      | Some existing_descriptor =>
          if is_accessor_descriptor existing_descriptor then EOk (false, h)
          else if bool_decide (desc_writable existing_descriptor = Some false) then EOk (false, h)
          else define_own_property (snd_hashes d) h receiver key (data_value_only value)
      end
  else
    match desc_set own_desc with
    | None => EOk (false, h)
    | Some setter => '(_, h) ← call_object h setter receiver [value]; EOk (true, h)
    end.

Fixpoint ordinary_set (fuel : nat) (d : Hashes) (h : ObjectHeap) (address : Z) (key : PropertyKey)
    (value receiver : Value) : EvalResult (bool * ObjectHeap) :=
  match fuel with
  | O => EOutOfFuel
  | S fuel =>
      own_desc ← get_own_property (fst_hashes d) h address key;
      match own_desc with
      | Some own_desc => set_with_own_descriptor (snd_hashes d) h key value receiver own_desc
      | None =>
          parent ← get_prototype_of h address;
          match parent with
          | None =>
              set_with_own_descriptor (snd_hashes d) h key value receiver (descriptor_data undefined true true true)
          | Some parent => ordinary_set fuel (snd_hashes d) h parent key value receiver
          end
      end
  end.

End Objects.

(** The property storage of objects is one map from keys to properties, whichever of the two
    structures holds a property. *)

(** ** Keys *)

(** Keys as the constructors of [PropertyKey] make them. *)
Definition key_ok (key : PropertyKey) : Prop :=
  is_array_index key = true ->
  0 <= as_array_index key < u32_max /\ key = array_index_key (as_array_index key).

Lemma array_index_key_spec i :
  0 <= i < u32_max ->
  is_array_index (array_index_key i) = true /\ as_array_index (array_index_key i) = i /\
  key_ok (array_index_key i).
Proof.
  intros Hi. unfold u32_max in Hi.
  assert (Hs : i32_min <= cast_signed 32 i <= i32_max).
  { unfold cast_signed, i32_min, i32_max. rewrite Z.mod_small by lia.
    destruct (Z.ltb_spec i (2 ^ (32 - 1))); lia. }
  assert (Ha : as_array_index (array_index_key i) = i).
  { unfold as_array_index, array_index_key. cbn [key_value]. rewrite as_smi_view by done.
    unfold cast_signed, as_u32. rewrite (Z.mod_small i) by lia. case_match; [by rewrite Z.mod_small by lia|].
    rewrite <-(Z.mod_add (i - 2 ^ 32) 1) by lia. rewrite Z.mod_small by lia. lia. }
  split_and!; [|done|].
  - unfold is_array_index, array_index_key. cbn [key_value].
    exact (is_smi_view (VSmi (cast_signed 32 i)) Hs).
  - intros _. rewrite Ha. unfold u32_max. split; [lia|done].
Qed.

Lemma key_eq_index k k' :
  key_ok k -> key_ok k' -> is_array_index k = true -> is_array_index k' = true ->
  k = k' <-> as_array_index k = as_array_index k'.
Proof.
  intros H1 H2 I1 I2. destruct (H1 I1) as [_ E1], (H2 I2) as [_ E2]. split; [by intros ->|].
  intros E. by rewrite E1, E2, E.
Qed.

(** ** Results *)

Lemma lift_bind {A B} (o : outcome A) (f : A -> outcome B) :
  lift (o ≫= f) = (lift o ≫= fun a => lift (f a)).
Proof. by destruct o. Qed.

(** ** Hashes that find the stored keys *)

Definition hashes_agree (d : Hashes) (nh : PropertyKey -> Z) (ih : Z -> Z) : Prop :=
  agree (named_draws d) nh /\ agree (index_draws d) ih.

Lemma hashes_agree_fst d nh ih : hashes_agree d nh ih -> hashes_agree (fst_hashes d) nh ih.
Proof. intros [H1 H2]. split; [by apply agree_even|by apply agree_even]. Qed.

Lemma hashes_agree_snd d nh ih : hashes_agree d nh ih -> hashes_agree (snd_hashes d) nh ih.
Proof. intros [H1 H2]. split; [by apply agree_odd|by apply agree_odd]. Qed.

(** The properties of an object, whatever hashes placed them. *)
Record object_ok (o : ObjectValue) : Prop := {
  oo_named : exists bk, shape (named_properties o) bk;
  oo_nodup : NoDup (iter_gc_unsafe (named_properties o)).*1;
  oo_array : properties_ok (array_properties o);
  oo_keys : forall k p, Assoc.lookup k (iter_gc_unsafe (named_properties o)) = Some p ->
    is_array_index k = false
}.

(** The two hash functions find every key of the object where it was placed. *)
Definition object_reach (nh : PropertyKey -> Z) (ih : Z -> Z) (o : ObjectValue) : Prop :=
  (exists bk, wf nh (named_properties o) bk) /\ array_reach ih (array_properties o).

(** The property of a key. *)
Definition object_at (o : ObjectValue) (key : PropertyKey) : option Property :=
  if is_array_index key then property_at (array_properties o) (as_array_index key)
  else Assoc.lookup key (iter_gc_unsafe (named_properties o)).

(** The draws agree with the hashes that placed the keys of the object. *)
Definition placed_by (d : Hashes) (o : ObjectValue) : Prop :=
  exists nh ih, hashes_agree d nh ih /\ object_reach nh ih o.

(** A key is not missed: the object has no property with it, or the draws agree with its place. *)
Definition finds (d : Hashes) (o : ObjectValue) (key : PropertyKey) : Prop :=
  object_at o key = None \/ placed_by d o.

Lemma finds_fst d o key : finds d o key -> finds (fst_hashes d) o key.
Proof. intros [?|(nh & ih & Ha & Hr)]; [by left|right]. exists nh, ih. split; [by apply hashes_agree_fst|done]. Qed.

Lemma finds_snd d o key : finds d o key -> finds (snd_hashes d) o key.
Proof. intros [?|(nh & ih & Ha & Hr)]; [by left|right]. exists nh, ih. split; [by apply hashes_agree_snd|done]. Qed.

(** What is placed by the draws stays placed by them. *)
Definition keeps_reach (d : Hashes) (o o' : ObjectValue) : Prop :=
  forall nh ih, hashes_agree d nh ih -> object_reach nh ih o -> object_reach nh ih o'.

(** The map of named properties fits in memory after two more insertions, the key is not missed,
    and a property of a sparse array is not written behind a deleted entry. *)
Definition write_safe (d : Hashes) (o : ObjectValue) (key : PropertyKey) : Prop :=
  capacity (named_properties o) <= 2 ^ 61 /\ finds d o key /\
  (is_array_index key = true -> array_clean (array_properties o) \/ object_at o key = None).

Lemma write_safe_snd d o key : write_safe d o key -> write_safe (snd_hashes d) o key.
Proof. intros (? & ? & ?). split_and!; [done|by apply finds_snd|done]. Qed.

(** What a property may hold: no private flag and, at an index, not the hole. *)
Definition property_ok (property : Property) : Prop :=
  public_flags (flags property) /\ is_empty (property_value property) = false.

(** The fields other than the properties. *)
Definition same_object (o o' : ObjectValue) : Prop :=
  object_class o' = object_class o /\ prototype o' = prototype o /\
  is_extensible_field o' = is_extensible_field o.

(** A lookup finds the property of the key or nothing. *)
Lemma object_get_property_sound d o key :
  object_ok o -> key_ok key ->
  exists r, object_get_property d o key = EOk r /\ (r = object_at o key \/ r = None) /\
    (finds d o key -> r = object_at o key).
Proof.
  intros [[bk W] Hnd Ha _] Hk. unfold object_get_property, finds, object_at. destruct (is_array_index key) eqn:E.
  - destruct (Hk E) as [Hi _].
    destruct (get_property_sound (index_draws d 0%nat) (array_properties o) (as_array_index key)) as (r & Er & Hr); [done|lia|].
    rewrite Er. exists r. split_and!; [done|naive_solver|]. intros [Hn|(nh & ih & [_ Hag] & [_ Hre])]; [naive_solver|].
    rewrite (agree_const _ _ Hag), get_property_spec in Er by (done || lia). by injection Er as <-.
  - destruct (index_map_get_sound (named_draws d 0%nat) (named_properties o) bk key W Hnd) as (r & Er & Hr & _).
    rewrite Er. exists r. split_and!; [done|naive_solver|]. intros [Hn|(nh & ih & [Hag _] & [[bk' Wn] _])]; [naive_solver|].
    rewrite (agree_const _ _ Hag), (index_map_get_spec nh _ bk') in Er by done. by injection Er as <-.
Qed.

Lemma object_get_property_spec d o key :
  object_ok o -> key_ok key -> finds d o key -> object_get_property d o key = EOk (object_at o key).
Proof.
  intros Ho Hk Hf. destruct (object_get_property_sound d o key Ho Hk) as (r & -> & _ & Hr). by rewrite Hr.
Qed.

(** Writing a named property. *)
Lemma insert_named_spec d o ptr key p :
  object_ok o -> is_array_index key = false -> capacity (named_properties o) <= 2 ^ 61 -> finds d o key ->
  exists m, insert_named d o ptr key p = EOk (set_named_properties o m) /\
    object_ok (set_named_properties o m) /\ keeps_reach d o (set_named_properties o m) /\
    iter_gc_unsafe m = Assoc.insert key p (iter_gc_unsafe (named_properties o)) /\
    capacity m <= Z.max 4 (capacity (named_properties o) * 2).
Proof.
  intros [[bk W] Hnd Ha Hkeys] E Hcap Hf.
  destruct (map_object_insert_sound (named_draws d) (named_properties o) bk ptr key p W Hnd Hcap)
    as (found & m & bk' & Em & W' & I' & Hin & C' & _).
  assert (Hreach : forall nh bk0, agree (named_draws d) nh -> wf nh (named_properties o) bk0 ->
    (exists bk1, wf nh m bk1) /\ found = bool_decide (is_Some (Assoc.lookup key (iter_gc_unsafe (named_properties o))))).
  { intros nh bk0 Hag Wn. destruct (map_object_insert_spec nh (named_properties o) bk0 ptr key p Wn Hcap)
      as (m2 & bk2 & E2 & W2 & _). rewrite <-(agree_const _ _ Hag), Em in E2. injection E2 as -> ->. eauto. }
  assert (Hi : iter_gc_unsafe m = Assoc.insert key p (iter_gc_unsafe (named_properties o))).
  { rewrite I'. unfold Assoc.insert. destruct found.
    - destruct (Assoc.lookup key _) eqn:El; [done|]. apply Assoc.lookup_None in El. by destruct El; apply Hin.
    - destruct (Assoc.lookup key _) eqn:El; [|done]. exfalso.
      destruct Hf as [Hn|(nh & ih & [Hag _] & [[bk0 Wn] _])]; [by unfold object_at in Hn; rewrite E, El in Hn|].
      destruct (Hreach nh bk0 Hag Wn) as [_ Hb]. by rewrite bool_decide_true in Hb by by eexists. }
  unfold map_object_insert in Em. apply bind_done in Em as ([old moved] & E1 & E2).
  exists m. split_and!; [| | |done|unfold MIN_CAPACITY in C'; lia].
  - unfold insert_named. rewrite E1. cbn [lift mbind EvalResult_bind]. rewrite E2. done.
  - split; cbn; [by exists bk'|rewrite Hi; by apply Assoc.insert_keys_nodup|done|].
    intros k q. rewrite Hi, Assoc.lookup_insert. case_decide; [by subst|apply Hkeys].
  - intros nh ih [Hag _] [[bk0 Wn] Hr]. split; [by apply (Hreach nh bk0)|done].
Qed.

(** Writing a property. *)
Lemma object_set_property_spec d h a o key p :
  objects h !! a = Some o -> object_ok o -> key_ok key -> property_ok p -> write_safe d o key ->
  exists o', object_set_property d h a key p = EOk (put_object h a o') /\
    object_ok o' /\ same_object o o' /\
    (forall k, key_ok k -> object_at o' k = if decide (k = key) then Some p else object_at o k) /\
    (array_clean (array_properties o) -> array_clean (array_properties o')) /\ keeps_reach d o o' /\
    capacity (named_properties o') <= Z.max 4 (capacity (named_properties o) * 2).
Proof.
  intros Ho Hok Hk [Hfl Hne] (Hcap & Hfind & Hclean). unfold object_set_property, load_object. rewrite Ho.
  cbn [mbind EvalResult_bind]. assert (0 <= capacity (named_properties o)) by (unfold capacity; lia).
  destruct (is_array_index key) eqn:E.
  - destruct (Hk E) as [Hi _]. destruct Hok as [Hn Hnd Ha Hkeys]. unfold finds, object_at in Hfind, Hclean. rewrite E in Hfind, Hclean.
    destruct (set_property_spec (index_draws d) (array_properties o) (as_array_index key) p Ha)
      as (q & -> & Hq & _ & Hat & Hcl & Hre).
    { split_and!; [lia|lia|done|done|]. specialize (Hclean eq_refl). destruct (array_properties o) as [dn|s] eqn:Es; cbn in *.
      - destruct Hfind as [|(nh & ih & [_ Hag] & _)]; [by left|]. right. right. by exists ih.
      - destruct Hfind as [|(nh & ih & [_ Hag] & [_ Hr])]; [by left|].
        destruct Hclean as [Hc|]; [|by left]. right. split; [|by left]. exists ih. split; [done|]. by rewrite Es in Hr. }
    cbn [lift mbind EvalResult_bind]. eexists. split_and!; [done|split; cbn; done|done| |done| |cbn; lia].
    + intros k Hk'. unfold object_at. cbn [array_properties set_array_properties named_properties].
      destruct (is_array_index k) eqn:Ek.
      * destruct (Hk' Ek) as [Hi' _]. rewrite Hat by lia.
        pose proof (key_eq_index k key Hk' Hk Ek E) as Heq. repeat case_decide; try done; tauto.
      * rewrite decide_False by congruence. done.
    + intros nh ih [_ Hag] [Hw Hr]. split; [done|by apply Hre].
  - destruct (insert_named_spec d o (next_address h) key p Hok E Hcap Hfind) as (m & -> & Hok' & Hr & Hi & C').
    cbn [lift mbind EvalResult_bind]. eexists. split_and!; [done|done|done| |done|done|done].
    intros k Hk'. unfold object_at. cbn [array_properties set_named_properties named_properties].
    destruct (is_array_index k) eqn:Ek; [by rewrite decide_False by congruence|].
    by rewrite Hi, Assoc.lookup_insert.
Qed.

(** Removing a property that is there, or missing it. *)
Lemma object_remove_property_spec d h a o key :
  objects h !! a = Some o -> object_ok o -> key_ok key -> is_Some (object_at o key) ->
  exists b o', object_remove_property d h a key = EOk (put_object h a o') /\
    object_ok o' /\ same_object o o' /\
    (forall k, key_ok k -> object_at o' k = if b && bool_decide (k = key) then None else object_at o k) /\
    (finds d o key -> b = true).
Proof.
  intros Ho Hok Hk Hin. unfold object_remove_property, load_object. rewrite Ho.
  cbn [mbind EvalResult_bind]. destruct Hok as [[bk W] Hnd Ha Hkeys]. unfold finds, object_at in *. destruct (is_array_index key) eqn:E.
  - destruct (Hk E) as [Hi _].
    destruct (remove_property_spec (index_draws d 0%nat) (array_properties o) (as_array_index key) Ha)
      as (b & q & -> & Hq & _ & Hat & Hb).
    { lia. }
    { destruct Hin as [x Hx]. destruct (array_properties o) as [dn|s]; [|done]. by eapply dense_at_range; [lia|]. }
    cbn [lift mbind EvalResult_bind]. exists b. eexists.
    split_and!; [done|split; cbn; [by exists bk|done|done|done]|done| |].
    + intros k Hk'. unfold object_at. cbn [array_properties set_array_properties named_properties].
      destruct (is_array_index k) eqn:Ek.
      * destruct (Hk' Ek) as [Hi' _]. rewrite Hat by lia.
        pose proof (key_eq_index k key Hk' Hk Ek E) as Heq. repeat case_bool_decide; rewrite ?andb_false_r; try done; tauto.
      * rewrite (bool_decide_false (k = key)) by congruence. by rewrite andb_false_r.
    + intros [Hn|(nh & ih & [_ Hag] & [_ Hr])]; [by rewrite Hn in Hin; destruct Hin|].
      rewrite (agree_const _ _ Hag) in Hb. destruct (Hb Hr) as [_ Hb']. destruct b; [done|].
      rewrite Hb' in Hin by done. by destruct Hin.
  - destruct (index_map_remove_sound (named_draws d 0%nat) (named_properties o) bk key W Hnd) as (found & m & Em & W' & _ & _ & Hf).
    rewrite Em. cbn [lift mbind EvalResult_bind]. exists found. eexists.
    assert (Hi : iter_gc_unsafe m = if found then Assoc.remove key (iter_gc_unsafe (named_properties o))
      else iter_gc_unsafe (named_properties o)).
    { destruct found; [apply Hf|by destruct Hf as [-> _]]. }
    assert (Hlk : forall k, Assoc.lookup k (iter_gc_unsafe m) =
      if found && bool_decide (k = key) then None else Assoc.lookup k (iter_gc_unsafe (named_properties o))).
    { intros k. rewrite Hi. destruct found; [|done]. rewrite Assoc.lookup_remove. cbn. case_decide; case_bool_decide; done. }
    split_and!; [done|split; cbn|done| |].
    + by exists bk.
    + rewrite Hi. destruct found; [by apply nodup_remove|done].
    + done.
    + intros k q. rewrite Hlk. destruct (found && bool_decide (k = key)); [done|apply Hkeys].
    + intros k Hk'. unfold object_at. cbn [array_properties set_named_properties named_properties].
      destruct (is_array_index k) eqn:Ek; [|apply Hlk].
      rewrite (bool_decide_false (k = key)) by congruence. by rewrite andb_false_r.
    + intros [Hn|(nh & ih & [Hag _] & [[bk0 Wn] _])]; [by rewrite Hn in Hin; destruct Hin|].
      destruct (index_map_remove_spec nh (named_properties o) bk0 key Wn) as (m2 & E2 & _).
      rewrite (agree_const _ _ Hag) in Em. cbv beta in Em. rewrite Em in E2. injection E2 as -> _. by rewrite bool_decide_true.
Qed.
