(* ===== verification/DefineProperty.v ===== *)
(** [[DefineOwnProperty]] of ordinary objects against ECMA-262.

    [spec_define] is ValidateAndApplyPropertyDescriptor of the standard on one property, as the
    standard writes it: the checks on a property that is not configurable first, then the new
    property in one step.  The code interleaves them, converts properties in place, and writes the
    fields of accessors on the heap. *)
From S2P Require Import Prelude Float64 Value ValueCorrect Descriptors TypeUtilities Property.
From S2P Require Import AssocList IndexMap IndexMapCorrect HashMap HashMapCorrect.
From S2P Require Import ArrayProperties ArrayPropertiesCorrect ObjectModel.

(** ** The standard *)

(** A property as the standard sees it. *)
Inductive SpecProperty : Type :=
| SData (value : Value) (writable enumerable configurable : bool)
| SAccessor (get set : option Z) (enumerable configurable : bool).

Definition spec_enumerable (p : SpecProperty) : bool :=
  match p with SData _ _ e _ | SAccessor _ _ e _ => e end.
Definition spec_configurable (p : SpecProperty) : bool :=
  match p with SData _ _ _ c | SAccessor _ _ _ c => c end.
Definition spec_is_data (p : SpecProperty) : bool :=
  match p with SData _ _ _ _ => true | SAccessor _ _ _ _ => false end.

Section spec.
Context (heap : ItemHeap).

(** Step 2: a new property with the fields of the descriptor or their default values. *)
Definition spec_create (desc : PropertyDescriptor) : SpecProperty :=
  if is_accessor_descriptor desc then
    SAccessor (if has_get desc then desc_get desc else None)
      (if has_set desc then desc_set desc else None)
      (default false (desc_enumerable desc)) (default false (desc_configurable desc))
  else
    SData (default undefined (desc_value desc)) (default false (desc_writable desc))
      (default false (desc_enumerable desc)) (default false (desc_configurable desc)).

(** Step 5: what may change in a property that is not configurable. *)
Definition spec_allows (desc : PropertyDescriptor) (current : SpecProperty) : bool :=
  spec_configurable current
  || (negb (bool_decide (desc_configurable desc = Some true))
      && match desc_enumerable desc with
         | Some e => Bool.eqb e (spec_enumerable current) | None => true end
      && (is_generic_descriptor desc || Bool.eqb (is_accessor_descriptor desc) (negb (spec_is_data current)))
      && match current with
         | SAccessor get set _ _ =>
             (negb (has_get desc) || bool_decide (desc_get desc = get))
             && (negb (has_set desc) || bool_decide (desc_set desc = set))
         | SData value writable _ _ =>
             writable
             || (negb (bool_decide (desc_writable desc = Some true))
                 && match desc_value desc with Some v => same_value heap v value | None => true end)
         end).

(** Step 6: the new attributes of an existing property. *)
Definition spec_apply (desc : PropertyDescriptor) (current : SpecProperty) : SpecProperty :=
  let enumerable := default (spec_enumerable current) (desc_enumerable desc) in
  let configurable := default (spec_configurable current) (desc_configurable desc) in
  match current with
  | SData value writable _ _ =>
      if is_accessor_descriptor desc then
        SAccessor (if has_get desc then desc_get desc else None)
          (if has_set desc then desc_set desc else None) enumerable configurable
      else
        SData (default value (desc_value desc)) (default writable (desc_writable desc))
          enumerable configurable
  | SAccessor get set _ _ =>
      if is_data_descriptor desc then
        SData (default undefined (desc_value desc)) (default false (desc_writable desc))
          enumerable configurable
      else
        SAccessor (if has_get desc then desc_get desc else get)
          (if has_set desc then desc_set desc else set) enumerable configurable
  end.

(** The property after the definition, or [None] when the definition is rejected. *)
Definition spec_define (extensible : bool) (desc : PropertyDescriptor)
    (current : option SpecProperty) : option SpecProperty :=
  match current with
  | None => if extensible then Some (spec_create desc) else None
  | Some current =>
      if has_no_fields desc then Some current
      else if spec_allows desc current then Some (spec_apply desc current) else None
  end.

(** Equal up to SameValue of the values. *)
Definition same_property (p q : SpecProperty) : Prop :=
  match p, q with
  | SData v w e c, SData v' w' e' c' =>
      (v = v' \/ same_value heap v' v = true) /\ w = w' /\ e = e' /\ c = c'
  | SAccessor _ _ _ _, SAccessor _ _ _ _ => p = q
  | _, _ => False
  end.

Lemma same_property_refl p : same_property p p.
Proof. destruct p; cbn; auto. Qed.

End spec.

(** ** Descriptors and properties *)

Definition spec_descriptor (p : SpecProperty) : PropertyDescriptor :=
  match p with
  | SData v w e c => descriptor_data v w e c
  | SAccessor get set e c => descriptor_accessor get set e c
  end.

(** The property that a stored property stands for. *)
Definition view (h : ObjectHeap) (p : Property) : SpecProperty :=
  match (if is_accessor_value h (property_value p) then accessors h !! as_pointer (property_value p) else None) with
  | Some a => SAccessor (accessor_get a) (accessor_set a) (is_enumerable p) (is_configurable p)
  | None => SData (property_value p) (is_writable p) (is_enumerable p) (is_configurable p)
  end.

Lemma descriptor_of_view h p : descriptor_of h p = EOk (spec_descriptor (view h p)).
Proof.
  unfold descriptor_of, view, load_accessor. destruct (is_accessor_value h (property_value p)) eqn:E; [|done].
  unfold is_accessor_value in E. apply andb_true_iff in E as [_ E%bool_decide_eq_true]. destruct E as [a Ha].
  by rewrite Ha.
Qed.

Definition view_at (h : ObjectHeap) (o : ObjectValue) (key : PropertyKey) : option SpecProperty :=
  view h <$> object_at o key.

(** A descriptor that [ToPropertyDescriptor] can return. *)
Definition descriptor_ok (desc : PropertyDescriptor) : Prop :=
  is_data_descriptor desc && is_accessor_descriptor desc = false /\
  (has_get desc = false -> desc_get desc = None) /\ (has_set desc = false -> desc_set desc = None).

(** ** The checks *)

Lemma function_differs_spec present f g :
  function_differs present f g = negb (negb present || bool_decide (f = g)).
Proof.
  unfold function_differs. destruct present; [|done]. cbn. destruct f as [f|], g as [g|]; cbn; try done.
  destruct (Z.eqb_spec f g) as [->|Hne]; cbn.
  - by rewrite bool_decide_true.
  - rewrite bool_decide_false by congruence. done.
Qed.

(** A data property whose value must not change. *)
Definition frozen (p : SpecProperty) : bool :=
  match p with SData _ w _ c => negb w && negb c | SAccessor _ _ _ _ => false end.

(** What the checks of the code decide, in terms of the standard. *)
Lemma validate_property_spec heap desc current :
  descriptor_ok desc -> has_no_fields desc = false ->
  exists r, validate_property heap desc (spec_descriptor current) = EOk r /\
    match r with
    | Return true => spec_allows heap desc current = true /\
        same_property heap current (spec_apply desc current)
    | Return false => spec_allows heap desc current = false
    | Convert => spec_allows heap desc current = true /\ is_generic_descriptor desc = false /\
        is_data_descriptor desc = negb (spec_is_data current) /\ frozen current = false
    | Apply => spec_allows heap desc current = true /\ (frozen current = true -> desc_value desc = None) /\
        (is_generic_descriptor desc = true \/ is_data_descriptor desc = spec_is_data current)
    end.
Proof.
  intros (Hda & Hg & Hs) Hne. unfold validate_property. rewrite Hne.
  destruct current as [v w e c|g s e c]; unfold spec_allows; rewrite ?function_differs_spec;
    destruct desc as [[dv|] [[]|] [[]|] [[]|] [] [] dg ds]; cbn in Hda, Hne; try discriminate;
    destruct e, c; try destruct w; cbn;
    try (destruct (same_value heap dv v) eqn:Esv; cbn);
    try (destruct (bool_decide (dg = g)) eqn:Edg; cbn);
    try (destruct (bool_decide (ds = s)) eqn:Eds; cbn);
    eexists; (split; [reflexivity|]); cbn; first [done|by split_and!; auto|idtac].
  all: repeat match goal with
    | H : bool_decide (_ = _) = true |- _ => apply bool_decide_eq_true in H; subst
    end; split; done.
Qed.

(** ** Heaps *)

Section heaps.
Implicit Types d : Hashes.

(** A property of an object of the heap. *)
Definition stores (h : ObjectHeap) (a : Z) (k : PropertyKey) (p : Property) : Prop :=
  exists o, objects h !! a = Some o /\ key_ok k /\ object_at o k = Some p.

Definition value_live (next : Z) (v : Value) : Prop := is_pointer v = true -> as_pointer v < next.

(** Properties do not point behind the allocated addresses, and an accessor belongs to one
    property. *)
Record heap_ok (h : ObjectHeap) : Prop := {
  ho_objects : forall a o, objects h !! a = Some o -> object_ok o;
  ho_values : forall a k p, stores h a k p ->
    is_empty (property_value p) = false /\ value_live (next_address h) (property_value p);
  ho_accessors : forall x, is_Some (accessors h !! x) -> 0 < x < next_address h;
  ho_unshared : forall a k p a' k' p', stores h a k p -> stores h a' k' p' ->
    is_accessor_value h (property_value p) = true -> property_value p = property_value p' ->
    a = a' /\ k = k';
  ho_next : 0 < next_address h
}.

Lemma view_ext h h' p :
  (is_pointer (property_value p) = true ->
   accessors h' !! as_pointer (property_value p) = accessors h !! as_pointer (property_value p)) ->
  view h' p = view h p.
Proof.
  intros H. unfold view, is_accessor_value. destruct (is_pointer (property_value p)); [|done].
  by rewrite H.
Qed.

Lemma heap_item_pointer x : 0 < x < 2 ^ 48 -> is_pointer (heap_item x) = true /\ is_empty (heap_item x) = false.
Proof.
  intros Hx. split.
  - exact (is_pointer_view (VPointer x) Hx).
  - exact (is_empty_view (VPointer x) Hx).
Qed.

(** The heap after other accessors were written and a property was stored. *)
Definition with_accessors (h : ObjectHeap) (accs : gmap Z Accessor) (next : Z) : ObjectHeap :=
  mkObjectHeap (objects h) accs next.

(** What the other properties see. *)
Definition frame_at (h h' : ObjectHeap) (a : Z) (key : PropertyKey) : Prop :=
  (forall a', a' <> a -> objects h' !! a' = objects h !! a') /\
  forall a' o o' k, objects h !! a' = Some o -> objects h' !! a' = Some o' -> key_ok k ->
    (a', k) <> (a, key) -> view_at h' o' k = view_at h o k.

(** Only the property at [key] of object [a] refers to the address. *)
Definition owned (h : ObjectHeap) (a : Z) (key : PropertyKey) (x : Z) : Prop :=
  forall a' k p, stores h a' k p -> is_pointer (property_value p) = true ->
    as_pointer (property_value p) = x -> a' = a /\ k = key.

Lemma stores_put h1 a o' a' k p :
  stores (put_object h1 a o') a' k p <->
  (a' = a /\ key_ok k /\ object_at o' k = Some p) \/ (a' <> a /\ stores h1 a' k p).
Proof.
  unfold stores. cbn [objects put_object]. split.
  - intros (o & Ho & Hk & Hp). rewrite lookup_insert in Ho. case_decide; simplify_eq; [left; auto|right].
    split; [congruence|eauto].
  - intros [(-> & Hk & Hp)|[Hne (o & Ho & Hk & Hp)]].
    + exists o'. by rewrite lookup_insert_eq.
    + exists o. by rewrite lookup_insert_ne by congruence.
Qed.

(** Storing a property after writing accessors that no other property refers to. *)
Lemma store_property d h a o key p accs next :
  let h1 := with_accessors h accs next in
  heap_ok h -> objects h !! a = Some o -> key_ok key -> property_ok p -> write_safe d o key ->
  next_address h <= next -> (forall x, is_Some (accs !! x) -> 0 < x < next) ->
  (forall x, accs !! x <> accessors h !! x -> owned h a key x) ->
  value_live next (property_value p) ->
  (is_accessor_value h1 (property_value p) = true -> owned h a key (as_pointer (property_value p))) ->
  exists o', let h2 := put_object h1 a o' in
    object_set_property d h1 a key p = EOk h2 /\
    heap_ok h2 /\ same_object o o' /\ object_at o' key = Some p /\ frame_at h h2 a key /\
    (array_clean (array_properties o) -> array_clean (array_properties o')) /\ keeps_reach d o o' /\
    capacity (named_properties o') <= Z.max 4 (capacity (named_properties o) * 2).
Proof.
  intros h1 [Hobj Hval Hacc Hun Hnx] Ho Hk Hp Hw Hnext Haccs Hchg Hlive Hown.
  destruct (object_set_property_spec d h1 a o key p Ho (Hobj a o Ho) Hk Hp Hw)
    as (o' & E & Hok & Hsame & Hat & Hcl & Hre & Hcap).
  exists o'. cbn zeta. set (h2 := put_object h1 a o').
  assert (Hst : forall a' k q, stores h2 a' k q ->
    (a' = a /\ k = key /\ q = p) \/ ((a', k) <> (a, key) /\ stores h a' k q)).
  { intros a' k q. unfold h2. rewrite stores_put. intros [(-> & Hk' & Hq)|[Hne Hq]].
    - rewrite Hat in Hq by done. destruct (decide (k = key)) as [->|Hne]; [left; by simplify_eq|right].
      split; [congruence|]. exists o. auto.
    - right. split; [congruence|done]. }
  split_and!; [done| |done|by rewrite Hat, decide_True| |done|done|done].
  - split.
    + intros a' o1. cbn. rewrite lookup_insert. case_decide; [by intros [= <-]|apply Hobj].
    + intros a' k q [(-> & -> & ->)|[_ Hq]]%Hst; [split; [apply Hp|done]|].
      destruct (Hval _ _ _ Hq) as [? Hl]. split; [done|]. intros Hpt. specialize (Hl Hpt). cbn. lia.
    + done.
    + intros a1 k1 p1 a2 k2 p2 [(-> & -> & ->)|[Hn1 H1]]%Hst [(-> & -> & ->)|[Hn2 H2]]%Hst Hia Heq; [done| | |].
      * exfalso. apply Hn2. assert (Ho2 : owned h a key (as_pointer (property_value p))) by by apply Hown.
        destruct (Ho2 a2 k2 p2 H2) as [-> ->]; [|by rewrite Heq|done].
        rewrite <-Heq. unfold is_accessor_value in Hia. by apply andb_true_iff in Hia as [? _].
      * exfalso. apply Hn1. assert (Ho2 : owned h a key (as_pointer (property_value p))) by (apply Hown; by rewrite <-Heq).
        destruct (Ho2 a1 k1 p1 H1) as [-> ->]; [|by rewrite Heq|done].
        unfold is_accessor_value in Hia. by apply andb_true_iff in Hia as [? _].
      * destruct (decide (accs !! as_pointer (property_value p1) = accessors h !! as_pointer (property_value p1))) as [Hsm|Hdf].
        -- apply (Hun a1 k1 p1 a2 k2 p2); try done. unfold is_accessor_value in *. cbn in Hia. by rewrite <-Hsm.
        -- exfalso. apply Hn1. destruct (Hchg _ Hdf a1 k1 p1 H1) as [-> ->]; [|done|done].
           unfold is_accessor_value in Hia. by apply andb_true_iff in Hia as [? _].
    + cbn. lia.
  - split.
    + intros a' Hne. cbn. by rewrite lookup_insert_ne by congruence.
    + intros a' o1 o2 k H1 H2 Hk' Hne. unfold view_at.
      assert (Heq : object_at o2 k = object_at o1 k).
      { cbn in H2. rewrite lookup_insert in H2. case_decide; [|congruence]. simplify_eq. rewrite Hat by done.
        rewrite decide_False by congruence. done. }
      rewrite Heq. destruct (object_at o1 k) as [q|] eqn:Eq; [|done]. cbn. f_equal. apply view_ext. intros Hpt. cbn.
      destruct (decide (accs !! as_pointer (property_value q) = accessors h !! as_pointer (property_value q))) as [Hsm|Hdf];
        [done|]. exfalso. apply Hne. destruct (Hchg _ Hdf a' k q) as [-> ->]; [|done|done|done]. exists o1. auto.
Qed.

(** ** Writing one property *)

(** The property was defined: the heap is well formed, everything else is as it was. *)
Definition defined (d : Hashes) (h : ObjectHeap) (a : Z) (o : ObjectValue) (key : PropertyKey) (h' : ObjectHeap)
    (p : SpecProperty) : Prop :=
  heap_ok h' /\ frame_at h h' a key /\ next_address h <= next_address h' <= next_address h + 8 /\
  exists o', objects h' !! a = Some o' /\ same_object o o' /\
    (array_clean (array_properties o) -> array_clean (array_properties o')) /\ keeps_reach d o o' /\
    capacity (named_properties o') <= Z.max 4 (capacity (named_properties o) * 2) /\
    exists q, object_at o' key = Some q /\ public_flags (flags q) /\ view h' q = p.

(** Values of descriptors are JavaScript values: not the hole, not an accessor, not behind the
    allocated addresses. *)
Definition js_value (h : ObjectHeap) (v : Value) : Prop :=
  is_empty v = false /\ value_live (next_address h) v /\ is_accessor_value h v = false.

Lemma undefined_js_value h : js_value h undefined.
Proof. split_and!; [done|by intros|done]. Qed.

Lemma view_is_data h p : spec_is_data (view h p) = negb (is_accessor_value h (property_value p)).
Proof.
  unfold view. destruct (is_accessor_value h (property_value p)) eqn:E; [|done].
  apply andb_true_iff in E as [_ [acc Ha]%bool_decide_eq_true]. by rewrite Ha.
Qed.

Lemma view_data h p :
  is_accessor_value h (property_value p) = false ->
  view h p = SData (property_value p) (is_writable p) (is_enumerable p) (is_configurable p).
Proof. unfold view. by intros ->. Qed.

Lemma view_accessor h p acc :
  is_pointer (property_value p) = true -> accessors h !! as_pointer (property_value p) = Some acc ->
  view h p = SAccessor (accessor_get acc) (accessor_set acc) (is_enumerable p) (is_configurable p).
Proof.
  intros Hp Ha. unfold view, is_accessor_value. rewrite Hp, Ha. by rewrite bool_decide_true by by eexists.
Qed.

Lemma defined_snd d h a o key h' p : defined (snd_hashes d) h a o key h' p -> defined d h a o key h' p.
Proof.
  intros (Hh & Hf & Hn & o' & Ho & Hs & Hcl & Hre & Hcap & Hq). split; [done|]. split; [done|]. split; [done|].
  exists o'. split; [done|]. split; [done|]. split; [done|]. split; [|done]. intros nh ih Ha Hr. apply Hre; [by apply hashes_agree_snd|done].
Qed.

(** Storing a data property. *)
Lemma store_data d h a o key p :
  heap_ok h -> objects h !! a = Some o -> key_ok key -> write_safe d o key ->
  public_flags (flags p) -> js_value h (property_value p) ->
  exists h', object_set_property d h a key p = EOk h' /\
    defined d h a o key h' (SData (property_value p) (is_writable p) (is_enumerable p) (is_configurable p)).
Proof.
  intros Hh Ho Hk Hw Hf (Hne & Hl & Hna).
  destruct (store_property d h a o key p (accessors h) (next_address h)) as (o' & E & Hh' & Hs & Hat & Hfr & Hcl & Hre & Hcap);
    try done; [apply Hh|intros Hia; unfold is_accessor_value in *; cbn in Hia; congruence|].
  replace (with_accessors h (accessors h) (next_address h)) with h in * by by destruct h.
  eexists. split; [done|]. split_and!; try done; [cbn; lia|]. exists o'. cbn. rewrite lookup_insert_eq.
  split_and!; try done. exists p. split_and!; try done. by apply view_data.
Qed.

(** Storing a property with a new accessor. *)
Lemma store_new_accessor d h a o key p get set :
  heap_ok h -> objects h !! a = Some o -> key_ok key -> write_safe d o key ->
  public_flags (flags p) -> next_address h + 8 < 2 ^ 48 ->
  property_value p = heap_item (next_address h) ->
  exists h', object_set_property d (Accessor_new h get set).2 a key p = EOk h' /\
    defined d h a o key h' (SAccessor get set (is_enumerable p) (is_configurable p)).
Proof.
  intros Hh Ho Hk Hw Hf Hn Hv. pose proof (ho_next h Hh) as Hpos.
  destruct (heap_item_pointer (next_address h)) as [Hptr Hemp]; [lia|].
  assert (Hfresh : owned h a key (next_address h)).
  { intros a' k q Hq Hp Hx. destruct (ho_values h Hh a' k q Hq) as [_ Hlive]. specialize (Hlive Hp). lia. }
  destruct (store_property d h a o key p (<[next_address h := mkAccessor get set]> (accessors h)) (next_address h + 8))
    as (o' & E & Hh' & Hs & Hat & Hfr & Hcl & Hre & Hcap); try done.
  - split; [done|]. by rewrite Hv.
  - lia.
  - intros x. rewrite lookup_insert. case_decide; [lia|]. intros Hx. pose proof (ho_accessors h Hh x Hx). lia.
  - intros x. rewrite lookup_insert. case_decide; [by subst|done].
  - intros _. rewrite Hv. cbn. lia.
  - intros _. by rewrite Hv.
  - eexists. split; [exact E|]. split_and!; try done; [cbn; lia|]. exists o'. cbn. rewrite lookup_insert_eq.
    split_and!; try done. exists p. split_and!; try done.
    rewrite (view_accessor _ p (mkAccessor get set)); [done|by rewrite Hv|].
    rewrite Hv. cbn. by rewrite lookup_insert_eq.
Qed.

(** Storing a property with the accessor it has, whose fields may have been written. *)
Lemma store_own_accessor d h a o key p0 p accs acc acc' :
  heap_ok h -> objects h !! a = Some o -> key_ok key -> write_safe d o key ->
  object_at o key = Some p0 -> property_value p = property_value p0 ->
  is_accessor_value h (property_value p0) = true -> public_flags (flags p) ->
  accessors h !! as_pointer (property_value p0) = Some acc ->
  accs !! as_pointer (property_value p0) = Some acc' ->
  (forall x, x <> as_pointer (property_value p0) -> accs !! x = accessors h !! x) ->
  exists h', object_set_property d (with_accessors h accs (next_address h)) a key p = EOk h' /\
    defined d h a o key h' (SAccessor (accessor_get acc') (accessor_set acc') (is_enumerable p) (is_configurable p)).
Proof.
  intros Hh Ho Hk Hw Hat0 Hv Hia Hf Hacc Hacc' Hother.
  assert (Hst : stores h a key p0) by (exists o; auto).
  assert (Hown : owned h a key (as_pointer (property_value p0))).
  { intros a' k q Hq Hp Hx. destruct (ho_unshared h Hh a key p0 a' k q Hst Hq Hia) as [-> ->]; [|done].
    destruct (property_value p0) as [x0], (property_value q) as [x1]. unfold as_pointer in Hx. cbn in Hx. by subst. }
  destruct (ho_values h Hh a key p0 Hst) as [Hne Hl].
  assert (Hptr : is_pointer (property_value p0) = true) by (by apply andb_true_iff in Hia as [? _]).
  destruct (store_property d h a o key p accs (next_address h)) as (o' & E & Hh' & Hs & Hat & Hfr & Hcl & Hre & Hcap); try done.
  - split; [done|]. by rewrite Hv.
  - intros x Hx. destruct (decide (x = as_pointer (property_value p0))) as [->|Hxn].
    + apply (ho_accessors h Hh). by eexists.
    + rewrite Hother in Hx by done. by apply (ho_accessors h Hh).
  - intros x Hx. destruct (decide (x = as_pointer (property_value p0))) as [->|Hxn]; [done|].
    by rewrite Hother in Hx.
  - by rewrite Hv.
  - intros _. by rewrite Hv.
  - eexists. split; [exact E|]. split_and!; try done; [cbn; lia|]. exists o'. cbn. rewrite lookup_insert_eq.
    split_and!; try done. exists p. split_and!; try done.
    rewrite (view_accessor _ p acc'); [done|by rewrite Hv|]. by rewrite Hv.
Qed.

(** ** Defining a property *)

Lemma create_property_spec d h a o key desc :
  heap_ok h -> objects h !! a = Some o -> key_ok key -> write_safe d o key -> descriptor_ok desc ->
  (forall v, desc_value desc = Some v -> js_value h v) -> next_address h + 8 < 2 ^ 48 ->
  exists h', create_property d h (Some a) key desc = EOk (true, h') /\
    defined d h a o key h' (spec_create desc).
Proof.
  intros Hh Ho Hk Hw (_ & Hg & Hs) Hv Hn. unfold create_property, spec_create.
  set (e := default false (desc_enumerable desc)). set (c := default false (desc_configurable desc)).
  destruct (is_accessor_descriptor desc) eqn:Ea.
  - replace (if has_get desc then desc_get desc else None) with (desc_get desc)
      by (destruct (has_get desc); [done|by apply Hg]).
    replace (if has_set desc then desc_set desc else None) with (desc_set desc)
      by (destruct (has_set desc); [done|by apply Hs]).
    cbn [Accessor_new]. destruct (property_accessor_flags (heap_item (next_address h)) e c) as (Hpv & Hpf & He & Hc).
    destruct (store_new_accessor d h a o key (property_accessor (heap_item (next_address h)) e c) (desc_get desc) (desc_set desc))
      as (h' & E & Hd); try done.
    cbn [Accessor_new snd] in E. rewrite E. cbn. exists h'. split; [done|]. by rewrite He, Hc in Hd.
  - destruct (property_data_flags (default undefined (desc_value desc)) (default false (desc_writable desc)) e c)
      as (Hpv & Hpf & Hpw & He & Hc).
    destruct (store_data d h a o key (property_data (default undefined (desc_value desc)) (default false (desc_writable desc)) e c))
      as (h' & E & Hd); try done.
    { rewrite Hpv. destruct (desc_value desc) as [v|]; [by apply Hv|apply undefined_js_value]. }
    rewrite E. cbn. exists h'. split; [done|]. by rewrite Hpv, Hpw, He, Hc in Hd.
Qed.

(** The shared attributes of a descriptor, set in a property. *)
Definition set_shared (p : Property) (desc : PropertyDescriptor) : Property :=
  let p := match desc_enumerable desc with Some b => set_is_enumerable p b | None => p end in
  match desc_configurable desc with Some b => set_is_configurable p b | None => p end.

Lemma set_shared_spec p desc :
  public_flags (flags p) ->
  let q := set_shared p desc in
  property_value q = property_value p /\ public_flags (flags q) /\ is_writable q = is_writable p /\
  is_enumerable q = default (is_enumerable p) (desc_enumerable desc) /\
  is_configurable q = default (is_configurable p) (desc_configurable desc).
Proof.
  intros Hf. unfold set_shared. destruct (desc_enumerable desc) as [b|]; cbn [default from_option id];
    destruct (desc_configurable desc) as [b'|]; cbn [default from_option id].
  - destruct (set_attribute_flags p b Hf) as (_ & (W1 & E1 & C1 & F1) & _).
    destruct (set_attribute_flags (set_is_enumerable p b) b' F1) as (_ & _ & (W2 & E2 & C2 & F2)).
    split_and!; try done; congruence.
  - by destruct (set_attribute_flags p b Hf) as (_ & (W1 & E1 & C1 & F1) & _).
  - by destruct (set_attribute_flags p b' Hf) as (_ & _ & (W1 & E1 & C1 & F1)).
  - done.
Qed.

(** The fields of the accessor of a property, written one after the other. *)
Lemma write_fields_spec h v desc acc :
  accessors h !! as_pointer v = Some acc ->
  exists accs,
    (h ← (if has_get desc then write_accessor h v (fun a => mkAccessor (desc_get desc) (accessor_set a)) else EOk h);
     h ← (if has_set desc then write_accessor h v (fun a => mkAccessor (accessor_get a) (desc_set desc)) else EOk h);
     EOk h) = EOk (with_accessors h accs (next_address h)) /\
    accs !! as_pointer v = Some (mkAccessor (if has_get desc then desc_get desc else accessor_get acc)
      (if has_set desc then desc_set desc else accessor_set acc)) /\
    forall x, x <> as_pointer v -> accs !! x = accessors h !! x.
Proof.
  intros Ha. unfold write_accessor, load_accessor. destruct (has_get desc), (has_set desc); rewrite ?Ha; cbn;
    rewrite ?lookup_insert_eq; cbn.
  - eexists. split_and!; [done|by rewrite lookup_insert_eq|]. intros x Hx. by rewrite !lookup_insert_ne by congruence.
  - eexists. split_and!; [done|by rewrite lookup_insert_eq|]. intros x Hx. by rewrite lookup_insert_ne by congruence.
  - rewrite Ha. cbn. eexists. split_and!; [done|by rewrite lookup_insert_eq|]. intros x Hx. by rewrite lookup_insert_ne by congruence.
  - exists (accessors h). split_and!; [by destruct h|by destruct acc|done].
Qed.

Lemma ebind_assoc {A B C} (m : EvalResult A) (f : A -> EvalResult B) (g : B -> EvalResult C) :
  (m ≫= f) ≫= g = m ≫= (fun x => f x ≫= g).
Proof. by destruct m. Qed.

(** [apply_fields] in terms of the stored property. *)
Lemma apply_fields_eq d h a o key p desc :
  heap_ok h -> objects h !! a = Some o -> key_ok key -> finds d o key -> object_at o key = Some p ->
  apply_fields d h a key desc =
    '(q, h) ←
      (if is_data_descriptor desc then
         let q := set_shared p desc in
         let q := match desc_writable desc with Some b => set_is_writable q b | None => q end in
         EOk (match desc_value desc with Some v => set_value q v | None => q end, h)
       else
         h ← (h ← (if has_get desc then write_accessor h (property_value (set_shared p desc))
                     (fun a => mkAccessor (desc_get desc) (accessor_set a)) else EOk h);
              h ← (if has_set desc then write_accessor h (property_value (set_shared p desc))
                     (fun a => mkAccessor (accessor_get a) (desc_set desc)) else EOk h);
              EOk h);
         EOk (set_shared p desc, h));
    object_set_property (snd_hashes d) h a key q.
Proof.
  intros Hh Ho Hk Hfd Hp. unfold apply_fields, load_object. rewrite Ho. cbn [mbind EvalResult_bind].
  rewrite object_get_property_spec by (done || (by apply finds_fst) || by apply (ho_objects h Hh a)).
  rewrite Hp. cbn [mbind EvalResult_bind eunwrap].
  fold (set_shared p desc). destruct (is_data_descriptor desc); [done|].
  rewrite !ebind_assoc. match goal with |- ?m ≫= _ = _ => destruct m as [h1| | | |] end; cbn [mbind EvalResult_bind]; [|done..].
  by rewrite !ebind_assoc.
Qed.

Lemma apply_fields_spec d h a o key p desc :
  heap_ok h -> objects h !! a = Some o -> key_ok key -> write_safe d o key -> object_at o key = Some p ->
  public_flags (flags p) -> descriptor_ok desc -> (forall v, desc_value desc = Some v -> js_value h v) ->
  is_generic_descriptor desc = true \/ is_data_descriptor desc = spec_is_data (view h p) ->
  exists h', apply_fields d h a key desc = EOk h' /\
    defined d h a o key h' (spec_apply desc (view h p)).
Proof.
  intros Hh Ho Hk Hw Hp Hf (Hda & _) Hv Hkind. rewrite (apply_fields_eq d h a o key p desc Hh Ho Hk (proj1 (proj2 Hw)) Hp).
  apply write_safe_snd in Hw.
  destruct (set_shared_spec p desc Hf) as (Sv & Sf & Sw & Se & Sc). set (q := set_shared p desc) in *.
  assert (Hst : stores h a key p) by (exists o; auto).
  destruct (ho_values h Hh a key p Hst) as [Hne Hl].
  destruct (is_data_descriptor desc) eqn:Ed.
  - (* a data descriptor on a data property *)
    assert (Hna : is_accessor_value h (property_value p) = false).
    { destruct Hkind as [Hg|Hd]; [by unfold is_generic_descriptor in Hg; rewrite Ed in Hg|].
      rewrite view_is_data in Hd. by destruct (is_accessor_value h (property_value p)). }
    rewrite (view_data h p Hna). cbn [spec_apply spec_enumerable spec_configurable andb] in *. rewrite Hda.
    cbn [mbind EvalResult_bind]. cbn zeta.
    set (q1 := match desc_writable desc with Some b => set_is_writable q b | None => q end).
    assert (H1 : property_value q1 = property_value p /\ public_flags (flags q1) /\
      is_writable q1 = default (is_writable p) (desc_writable desc) /\
      is_enumerable q1 = is_enumerable q /\ is_configurable q1 = is_configurable q).
    { unfold q1. destruct (desc_writable desc) as [b|]; cbn; [|done].
      by destruct (set_attribute_flags q b Sf) as ((W1 & E1 & C1 & F1) & _). }
    destruct H1 as (V1 & F1 & W1 & E1 & C1).
    destruct (store_data (snd_hashes d) h a o key (match desc_value desc with Some v => set_value q1 v | None => q1 end))
      as (h' & E & Hd%defined_snd); try done.
    { by destruct (desc_value desc). }
    { destruct (desc_value desc) as [v|]; cbn; [by apply Hv|]. rewrite V1. done. }
    exists h'. split; [exact E|]. rewrite <-Se, <-Sc, <-W1, <-E1, <-C1.
    destruct (desc_value desc) as [v|]; cbn in *; [exact Hd|]. by rewrite <-V1.
  - destruct (is_accessor_value h (property_value p)) eqn:Ea.
    + (* the fields of the accessor are written *)
      assert (Hptr : is_pointer (property_value p) = true) by (by apply andb_true_iff in Ea as [? _]).
      pose proof Ea as Ea'. apply andb_true_iff in Ea' as [_ [acc Hacc]%bool_decide_eq_true].
      rewrite (view_accessor h p acc Hptr Hacc). cbn [spec_apply spec_enumerable spec_configurable]. rewrite Ed.
      destruct (write_fields_spec h (property_value q) desc acc) as (accs & Ew & Hx & Hoth); [by rewrite Sv|].
      rewrite Ew. cbn [mbind EvalResult_bind].
      destruct (store_own_accessor (snd_hashes d) h a o key p q accs acc
        (mkAccessor (if has_get desc then desc_get desc else accessor_get acc)
           (if has_set desc then desc_set desc else accessor_set acc))) as (h' & E & Hd%defined_snd); try done.
      { by rewrite <-Sv. }
      { by rewrite <-Sv. }
      exists h'. split; [exact E|]. by rewrite <-Se, <-Sc.
    + (* a generic descriptor on a data property *)
      assert (Hgen : is_accessor_descriptor desc = false).
      { destruct Hkind as [Hg|Hd]; [by apply andb_true_iff in Hg as [_ ?%negb_true_iff]|].
        rewrite view_is_data, Ea in Hd. done. }
      unfold is_accessor_descriptor in Hgen. apply orb_false_iff in Hgen as [Hhg Hhs]. rewrite Hhg, Hhs.
      cbn [mbind EvalResult_bind]. rewrite (view_data h p Ea). cbn [spec_apply spec_enumerable spec_configurable].
      unfold is_accessor_descriptor. rewrite Hhg, Hhs. cbn [orb].
      assert (Hdv : desc_value desc = None /\ desc_writable desc = None).
      { unfold is_data_descriptor, is_some in Ed. by destruct (desc_value desc), (desc_writable desc). }
      destruct Hdv as [-> ->]. cbn [default from_option id].
      destruct (store_data (snd_hashes d) h a o key q) as (h' & E & Hd%defined_snd); try done; [by rewrite Sv|].
      exists h'. split; [exact E|]. by rewrite <-Se, <-Sc, <-Sw, <-Sv.
Qed.

(** The property between the two halves of a conversion. *)
Definition converted (desc : PropertyDescriptor) (current : SpecProperty) : SpecProperty :=
  if is_data_descriptor desc
  then SData undefined false (spec_enumerable current) (spec_configurable current)
  else SAccessor None None (spec_enumerable current) (spec_configurable current).

Lemma view_attributes h p :
  spec_enumerable (view h p) = is_enumerable p /\ spec_configurable (view h p) = is_configurable p.
Proof. unfold view. by destruct (if is_accessor_value h (property_value p) then _ else _). Qed.

(** Writing a property allocates no accessor. *)
Lemma set_property_accessors d h a key p h' v :
  object_set_property d h a key p = EOk h' ->
  is_accessor_value h' v = is_accessor_value h v.
Proof.
  unfold object_set_property, load_object. destruct (objects h !! a) as [o|]; [|done]. cbn [mbind EvalResult_bind].
  destruct (is_array_index key).
  - destruct (lift _) as [q| | | |]; cbn; by intros [= <-].
  - destruct (insert_named _ _ _ _ _) as [q| | | |]; cbn; by intros [= <-].
Qed.

Lemma convert_property_spec d h a o key p desc :
  heap_ok h -> objects h !! a = Some o -> key_ok key -> write_safe d o key -> object_at o key = Some p ->
  public_flags (flags p) -> next_address h + 8 < 2 ^ 48 ->
  exists h', convert_property d h a key desc = EOk h' /\
    defined d h a o key h' (converted desc (view h p)).
Proof.
  intros Hh Ho Hk Hw Hp Hf Hn. unfold convert_property, load_object. rewrite Ho. cbn [mbind EvalResult_bind].
  rewrite object_get_property_spec by (done || (by apply finds_fst, Hw) || by apply (ho_objects h Hh a)).
  apply write_safe_snd in Hw. rewrite Hp.
  cbn [mbind EvalResult_bind eunwrap]. unfold converted. destruct (view_attributes h p) as [-> ->].
  destruct (is_data_descriptor desc).
  - destruct (set_attribute_flags (set_value p undefined) false Hf) as ((W & E & C & F) & _).
    destruct (store_data (snd_hashes d) h a o key (set_is_writable (set_value p undefined) false)) as (h' & Es & Hd%defined_snd); try done.
    exists h'. split; [done|]. rewrite W, E, C in Hd. exact Hd.
  - destruct (store_new_accessor (snd_hashes d) h a o key (set_value p (heap_item (next_address h))) None None) as (h' & Es & Hd%defined_snd); try done.
    exists h'. split; [exact Es|exact Hd].
Qed.

(** After a conversion the fields are applied as to the property before it. *)
Lemma spec_apply_converted desc current :
  descriptor_ok desc -> is_generic_descriptor desc = false ->
  is_data_descriptor desc = negb (spec_is_data current) ->
  spec_apply desc (converted desc current) = spec_apply desc current /\
  is_data_descriptor desc = spec_is_data (converted desc current).
Proof.
  intros (Hda & _ & _) Hg Hd. unfold converted, is_generic_descriptor in *.
  destruct (is_data_descriptor desc) eqn:Ed; cbn in Hda, Hg; (split; [|done]);
    destruct current; try done; cbn; rewrite ?Hda, ?Ed; [done|].
  apply negb_false_iff in Hg. by rewrite Hg.
Qed.

(** Two definitions of the same property. *)
Lemma defined_trans d1 d2 h a o key h1 p1 h2 p2 o1 :
  objects h !! a = Some o -> objects h1 !! a = Some o1 ->
  defined d1 h a o key h1 p1 -> defined d2 h1 a o1 key h2 p2 ->
  heap_ok h2 /\ frame_at h h2 a key /\ exists o2, objects h2 !! a = Some o2 /\ same_object o o2 /\
    view_at h2 o2 key = Some p2 /\
    forall nh ih, hashes_agree d1 nh ih -> hashes_agree d2 nh ih -> object_reach nh ih o -> object_reach nh ih o2.
Proof.
  intros Ho Ho1 (_ & [Fa Fv] & _ & o1' & Ho1' & (S1 & S2 & S3) & _ & R1 & _)
    (Hh2 & [Fa2 Fv2] & _ & o2 & Ho2 & (T1 & T2 & T3) & _ & R2 & _ & q2 & Hq2 & _ & Hv2).
  rewrite Ho1 in Ho1'. injection Ho1' as <-.
  split_and!; [done| |].
  - split; [intros a' Hne; by rewrite Fa2, Fa|].
    intros a' o' o'' k H1 H2 Hk Hne. destruct (decide (a' = a)) as [->|Hna].
    + rewrite (Fv2 a o1 o'' k) by done. by apply (Fv a).
    + rewrite (Fv2 a' o' o'' k) by (done || by rewrite Fa). apply (Fv a'); try done. by rewrite Fa.
  - exists o2. split_and!; [done|repeat split; congruence| |by eauto]. unfold view_at. by rewrite Hq2; cbn; rewrite Hv2.
Qed.

(** A definition that succeeded, as the properties of the object show it. *)
Definition now_defined (d : Hashes) (heap : ItemHeap) (h : ObjectHeap) (a : Z) (o : ObjectValue) (key : PropertyKey)
    (desc : PropertyDescriptor) (h' : ObjectHeap) (p : SpecProperty) : Prop :=
  heap_ok h' /\ frame_at h h' a key /\
  exists o' q, objects h' !! a = Some o' /\ same_object o o' /\ view_at h' o' key = Some q /\
    same_property heap q p /\ keeps_reach d o o' /\
    (h' = h \/ (q = p /\ forall cur, view_at h o key = Some cur -> frozen cur = true -> desc_value desc = None)).

Lemma defined_now d heap h a o key desc h' p :
  defined d h a o key h' p ->
  (forall cur, view_at h o key = Some cur -> frozen cur = true -> desc_value desc = None) ->
  now_defined d heap h a o key desc h' p.
Proof.
  intros (Hh & Hf & _ & o' & Ho & Hs & _ & Hre & _ & q & Hq & _ & Hv) Hfz. split_and!; [done..|]. exists o', p.
  unfold view_at. rewrite Hq. cbn. rewrite Hv. split_and!; try done; [|by right]. apply same_property_refl.
Qed.

Lemma unchanged_now d heap h a o key desc q p :
  heap_ok h -> objects h !! a = Some o -> view_at h o key = Some q -> same_property heap q p ->
  now_defined d heap h a o key desc h p.
Proof.
  intros Hh Ho Hv Hs. split_and!; [done| |].
  - split; [done|]. intros a' o1 o2 k H1 H2 _ _. by simplify_eq.
  - exists o, q. split_and!; try done; [by intros nh ih|by left].
Qed.

(** What [[DefineOwnProperty]] may rely on: the value of the descriptor is a JavaScript value, the
    key is a public one, and there is room for the accessors and for the properties of a
    conversion.  If the object has the property already, the draws agree with the hashes that placed
    its keys, and a sparse array has no deleted entry. *)
Record define_pre (d : Hashes) (h : ObjectHeap) (a : Z) (o : ObjectValue) (key : PropertyKey)
    (desc : PropertyDescriptor) : Prop := {
  dp_heap : heap_ok h;
  dp_object : objects h !! a = Some o;
  dp_key : key_ok key;
  dp_public : forall p, object_at o key = Some p -> public_flags (flags p);
  dp_desc : descriptor_ok desc;
  dp_value : forall v, desc_value desc = Some v -> js_value h v;
  dp_capacity : capacity (named_properties o) <= 2 ^ 60;
  dp_finds : finds d o key;
  dp_clean : is_array_index key = true -> array_clean (array_properties o) \/ object_at o key = None;
  dp_room : next_address h + 8 < 2 ^ 48
}.

Lemma define_write_safe d h a o key desc : define_pre d h a o key desc -> write_safe d o key.
Proof. intros []. split_and!; [lia|done|done]. Qed.

Lemma write_safe_fst d o key : write_safe d o key -> write_safe (fst_hashes d) o key.
Proof. intros (? & ? & ?). split_and!; [done|by apply finds_fst|done]. Qed.

(** The conversion and the definition that follows it. *)
Lemma convert_apply_spec d h a o key p desc :
  define_pre d h a o key desc -> object_at o key = Some p -> is_generic_descriptor desc = false ->
  is_data_descriptor desc = negb (spec_is_data (view h p)) ->
  exists h1 h2, convert_property (fst_hashes d) h a key desc = EOk h1 /\
    apply_fields (snd_hashes d) h1 a key desc = EOk h2 /\
    heap_ok h2 /\ frame_at h h2 a key /\ exists o2, objects h2 !! a = Some o2 /\ same_object o o2 /\
      view_at h2 o2 key = Some (spec_apply desc (view h p)) /\ keeps_reach d o o2.
Proof.
  intros Hpre Hp Hg Hd. pose proof (define_write_safe _ _ _ _ _ _ Hpre) as Hw. destruct Hpre.
  destruct (spec_apply_converted desc (view h p)) as [Hsc Hkind]; [done..|].
  destruct (convert_property_spec (fst_hashes d) h a o key p desc) as (h1 & E1 & D1); try done;
    [by apply write_safe_fst|auto|].
  pose proof D1 as (Hh1 & _ & Hn1 & o1 & Ho1 & _ & Hcl & Hre & Hcap & q & Hq & Hqf & Hqv).
  assert (Hjs : forall v, desc_value desc = Some v -> js_value h1 v).
  { intros v Hv. pose proof (dp_value0 v Hv) as (Hne & Hl & Hna).
    assert (Hvl : value_live (next_address h1) v) by (intros Hx; specialize (Hl Hx); lia).
    split_and!; [done|done|].
    (* a conversion with a value allocates no accessor *)
    assert (is_data_descriptor desc = true) as Hdd by (unfold is_data_descriptor; by rewrite Hv).
    unfold convert_property, load_object in E1. rewrite dp_object0 in E1. cbn [mbind EvalResult_bind] in E1.
    rewrite object_get_property_spec in E1 by (done || (by do 2 apply finds_fst) || by apply (ho_objects h dp_heap0 a)).
    rewrite Hp in E1. cbn [mbind EvalResult_bind eunwrap] in E1. rewrite Hdd in E1.
    by rewrite (set_property_accessors _ _ _ _ _ _ _ E1). }
  assert (Hw1 : write_safe (snd_hashes d) o1 key).
  { split_and!; [lia| |].
    - destruct dp_finds0 as [Hn|(nh & ih & Ha & Hr)]; [congruence|]. right. exists nh, ih.
      split; [by apply hashes_agree_snd|]. apply Hre; [by apply hashes_agree_fst|done].
    - intros Hi. destruct (dp_clean0 Hi) as [Hc|Hn]; [by left; apply Hcl|congruence]. }
  destruct (apply_fields_spec (snd_hashes d) h1 a o1 key q desc) as (h2 & E2 & D2); try done.
  - right. by rewrite Hqv.
  - exists h1, h2. rewrite Hqv, Hsc in D2.
    destruct (defined_trans _ _ h a o key h1 _ h2 _ o1 dp_object0 Ho1 D1 D2) as (Hh2 & Hf2 & o2 & Ho2 & Hs2 & Hv2 & Hr2).
    split_and!; [done..|]. exists o2. split_and!; [done..|]. intros nh ih Ha.
    apply Hr2; [by apply hashes_agree_fst|by apply hashes_agree_snd].
Qed.

(** The length of an array is not among its stored properties. *)
Definition not_length (heap : ItemHeap) (length_name : PropertyKey) (o : ObjectValue) (key : PropertyKey) : Prop :=
  match object_class o with
  | ArrayObjectClass _ => key_is_length heap length_name key = false
  | _ => True
  end.

Lemma get_own_property_spec d heap length_name h a o key :
  heap_ok h -> objects h !! a = Some o -> key_ok key -> finds d o key -> not_length heap length_name o key ->
  get_own_property heap length_name d h a key =
    EOk (spec_descriptor <$> view_at h o key).
Proof.
  intros Hh Ho Hk Hf Hl.
  assert (E : ordinary_get_own_property d h a key = EOk (spec_descriptor <$> view_at h o key)).
  { unfold ordinary_get_own_property, load_object, view_at. rewrite Ho. cbn [mbind EvalResult_bind].
    rewrite object_get_property_spec by (done || by apply (ho_objects h Hh a)). cbn [mbind EvalResult_bind].
    destruct (object_at o key) as [p|]; [|done]. by rewrite descriptor_of_view. }
  unfold get_own_property, load_object. rewrite Ho. cbn [mbind EvalResult_bind]. unfold not_length in Hl.
  destruct (object_class o); rewrite ?Hl; done.
Qed.

Lemma validate_and_apply_spec d heap h a o key desc :
  define_pre d h a o key desc ->
  match spec_define heap (is_extensible_field o) desc (view_at h o key) with
  | None => validate_and_apply_property_descriptor heap d h (Some a) key
      (is_extensible_field o) desc (spec_descriptor <$> view_at h o key) = EOk (false, h)
  | Some p => exists h', validate_and_apply_property_descriptor heap d h (Some a) key
      (is_extensible_field o) desc (spec_descriptor <$> view_at h o key) = EOk (true, h') /\
      now_defined d heap h a o key desc h' p
  end.
Proof.
  intros Hpre. pose proof (define_write_safe _ _ _ _ _ _ Hpre) as Hw. pose proof Hpre as [].
  destruct (view_at h o key) as [cur|] eqn:Ev; cbn [fmap option_fmap option_map spec_define].
  2: { cbn. destruct (is_extensible_field o); [|done].
    destruct (create_property_spec d h a o key desc) as (h' & E & D); [assumption..|].
    exists h'. split; [exact E|]. by apply defined_now; [|intros cur Hcur; rewrite Ev in Hcur]. }
  pose proof Ev as Ev0. unfold view_at in Ev. destruct (object_at o key) as [p|] eqn:Ep; [|done].
  cbn in Ev. injection Ev as <-. cbn [validate_and_apply_property_descriptor].
  destruct (has_no_fields desc) eqn:En.
  { unfold validate_property. rewrite En. cbn. exists h. split; [done|].
    apply (unchanged_now d heap h a o key desc (view h p)); [assumption..|]. apply same_property_refl. }
  destruct (validate_property_spec heap desc (view h p)) as (r & Er & Hr); [assumption..|]. rewrite Er.
  cbn [mbind EvalResult_bind]. destruct r as [[]| |].
  - destruct Hr as [-> Hs]. exists h. split; [done|]. apply (unchanged_now d heap h a o key desc (view h p)); assumption.
  - by rewrite Hr.
  - destruct Hr as (-> & Hg & Hd & Hnf).
    destruct (convert_apply_spec d h a o key p desc) as (h1 & h2 & -> & E2 & Hh2 & Hf2 & o2 & Ho2 & Hs2 & Hv2 & Hr2); [assumption..|].
    cbn [mbind EvalResult_bind]. rewrite E2. cbn [mbind EvalResult_bind]. exists h2. split; [done|].
    split_and!; [assumption..|]. exists o2, (spec_apply desc (view h p)). split_and!; [assumption..|apply same_property_refl|assumption|]. right. split; [done|].
    intros cur Hcur. rewrite Ev0 in Hcur. injection Hcur as <-. by rewrite Hnf.
  - destruct Hr as (-> & Hfz & Hk). destruct (apply_fields_spec d h a o key p desc) as (h2 & E2 & D2); [auto..|].
    rewrite E2. cbn [mbind EvalResult_bind]. exists h2. split; [done|]. apply defined_now; [done|].
    intros cur Hcur. rewrite Ev0 in Hcur. by injection Hcur as <-.
Qed.

Lemma ordinary_define_spec d heap length_name h a o key desc :
  define_pre d h a o key desc -> not_length heap length_name o key ->
  match spec_define heap (is_extensible_field o) desc (view_at h o key) with
  | None => ordinary_define_own_property heap length_name d h a key desc = EOk (false, h)
  | Some p => exists h', ordinary_define_own_property heap length_name d h a key desc = EOk (true, h') /\
      now_defined d heap h a o key desc h' p
  end.
Proof.
  intros Hpre Hl.
  assert (Hpre' : define_pre (snd_hashes d) h a o key desc) by (destruct Hpre; split; auto using finds_snd).
  pose proof (validate_and_apply_spec (snd_hashes d) heap h a o key desc Hpre') as H. destruct Hpre.
  unfold ordinary_define_own_property. 
  rewrite (get_own_property_spec (fst_hashes d) heap length_name h a o key dp_heap0 dp_object0 dp_key0 (finds_fst _ _ _ dp_finds0) Hl).
  unfold is_extensible, load_object. rewrite dp_object0. cbn [mbind EvalResult_bind].
  destruct (spec_define _ _ _ _) as [p|]; [|exact H]. destruct H as (h' & E & Hh & Hf & o' & q & Ho & Hs & Hv & Hsp & Hre & Hc).
  exists h'. split; [exact E|]. split_and!; [done..|]. exists o', q. split_and!; try done.
  intros nh ih Ha Hr. apply Hre; [by apply hashes_agree_snd|done].
Qed.

(** C13: [ordinary_define_own_property] implements OrdinaryDefineOwnProperty of ECMA-262: it is
    rejected, and the heap stays as it is, exactly when the standard rejects the definition;
    otherwise it returns true, the property at the key is the one the standard prescribes, up to
    SameValue of an unchanged value, every other property of every object stays as it was, and the
    heap stays well formed.  A new property is defined whatever hashes are drawn.  For a property
    the object has already, the draws must agree with the hashes that placed the keys of the object
    (otherwise the code misses it), and the key of an element of a sparse array must not be behind
    a deleted entry.  In the heap no accessor belongs to two properties; the key is not the length
    of an array; the value of the descriptor is a JavaScript value that is not the hole; the named
    properties have a capacity of at most 2^60 and an accessor can be allocated. *)
Theorem ordinary_define_refines_spec d heap length_name h a o key desc :
  define_pre d h a o key desc -> not_length heap length_name o key ->
  match spec_define heap (is_extensible_field o) desc (view_at h o key) with
  | None => ordinary_define_own_property heap length_name d h a key desc = EOk (false, h)
  | Some p => exists h', ordinary_define_own_property heap length_name d h a key desc = EOk (true, h') /\
      now_defined d heap h a o key desc h' p
  end.
Proof. exact (ordinary_define_spec d heap length_name h a o key desc). Qed.

End heaps.

(** ** An example: an element of a dense array becomes an accessor *)

Definition sample_object : ObjectValue :=
  mkObject OrdinaryObjectClass None (index_map_new 0) (Dense (mkDense 1 [Some (smi 5)])) true.
Definition sample_heap : ObjectHeap := mkObjectHeap {[64 := sample_object]} ∅ 128.
Definition sample_key : PropertyKey := array_index_key 0.
Definition sample_desc : PropertyDescriptor := get_only (Some 64) false false.
Definition sample_items : ItemHeap :=
  mkItemHeap (fun _ => Kind.OrdinaryObject) (fun _ => []) (fun _ => 0) (fun _ => 0).
Definition sample_key_hash (_ : PropertyKey) : Z := 7.
Definition sample_hashes : Hashes := mkHashes (fun _ => sample_key_hash) (fun _ => example_hash).

Lemma sample_at k p :
  key_ok k -> object_at sample_object k = Some p -> k = sample_key /\ p = property_data (smi 5) true true true.
Proof.
  unfold object_at. intros Hk. destruct (is_array_index k) eqn:E; [|done]. destruct (Hk E) as [Hi Heq].
  cbn. unfold dense_at. cbn [dense_len dense_array]. case_match eqn:Hlt; [|done]. apply Z.ltb_lt in Hlt.
  assert (as_array_index k = 0) as H0 by lia. rewrite H0 in *. intros [= <-]. done.
Qed.

Lemma sample_pre : define_pre sample_hashes sample_heap 64 sample_object sample_key sample_desc.
Proof.
  assert (Hst : forall a k p, stores sample_heap a k p -> a = 64 /\ k = sample_key /\ p = property_data (smi 5) true true true).
  { intros a k p (o & Ho & Hk & Hp). cbn in Ho. apply lookup_singleton_Some in Ho as [<- <-].
    destruct (sample_at k p Hk Hp) as [-> ->]. done. }
  destruct (index_map_new_wf (K := PropertyKey) (V := Property) sample_key_hash 0 (or_introl eq_refl)) as (W & _ & _).
  assert (Hok : object_ok sample_object).
  { split; [by eexists; apply W|by apply NoDup_nil|split; [by vm_compute|by vm_compute|]|done].
    intros i Hi. change (i < 1)%nat in Hi. assert (i = 0%nat) as -> by lia. by eexists. }
  split.
  - split.
    + intros a o Ho. cbn in Ho. by apply lookup_singleton_Some in Ho as [<- <-].
    + intros a k p (-> & -> & ->)%Hst. by split.
    + cbn. intros x [? Hx]. by rewrite lookup_empty in Hx.
    + intros a k p a' k' p' (-> & -> & _)%Hst (-> & -> & _)%Hst _ _. done.
    + done.
  - done.
  - by apply array_index_key_spec.
  - intros p Hp. apply sample_at in Hp as [_ ->]; [by vm_compute|by apply array_index_key_spec].
  - by split_and!.
  - done.
  - done.
  - right. exists sample_key_hash, example_hash. split; [done|]. split; [by eexists|exact I].
  - intros _. by left.
  - done.
Qed.

(** The witness: the element is converted, and its object leaves the dense representation. *)
Lemma ordinary_define_refines_spec_witness :
  exists h', ordinary_define_own_property sample_items (mkKey undefined) sample_hashes sample_heap 64 sample_key sample_desc
      = EOk (true, h') /\
    now_defined sample_hashes sample_items sample_heap 64 sample_object sample_key sample_desc h' (SAccessor (Some 64) None false false).
Proof.
  apply (ordinary_define_refines_spec sample_hashes sample_items (mkKey undefined) sample_heap 64 sample_object
    sample_key sample_desc sample_pre I).
Defined.
