(* ===== verification/PrototypeChain.v ===== *)
(** The prototype chain: [ordinary_set_prototype_of], [ordinary_has_property], [ordinary_get] and
    [ordinary_set] of [src/so2js/runtime/ordinary_object.rs].

    The loops follow prototypes without a bound.  They end because chains are finite, which
    [ordinary_set_prototype_of] preserves; a fuel of one more than the number of objects is always
    enough. *)
From S2P Require Import Prelude Float64 Value Descriptors TypeUtilities Property ArrayProperties.
From S2P Require Import ObjectModel DefineProperty.

(** ** Chains *)

(** The addresses from an object or null along the prototypes. *)
Inductive proto_chain (h : ObjectHeap) : option Z -> list Z -> Prop :=
| chain_null : proto_chain h None []
| chain_object a o l : objects h !! a = Some o -> proto_chain h (prototype o) l ->
    proto_chain h (Some a) (a :: l).

(** Every object has a finite chain. *)
Definition chains_finite (h : ObjectHeap) : Prop :=
  forall a, is_Some (objects h !! a) -> exists l, proto_chain h (Some a) l.

Lemma proto_chain_unique h p l l' : proto_chain h p l -> proto_chain h p l' -> l = l'.
Proof.
  intros H. revert l'. induction H as [|a o l Ho _ IH]; intros l'; inversion 1; simplify_eq; [done|].
  f_equal. auto.
Qed.

Lemma proto_chain_suffix h p l x : proto_chain h p l -> x ∈ l ->
  exists l1 l2, l = l1 ++ l2 /\ proto_chain h (Some x) l2.
Proof.
  induction 1 as [|a o l Ho Hc IH]; [by intros ?%elem_of_nil|]. intros [->|Hx]%elem_of_cons.
  - exists [], (a :: l). split; [done|]. by econstructor.
  - destruct (IH Hx) as (l1 & l2 & -> & Hl2). by exists (a :: l1), l2.
Qed.

Lemma proto_chain_NoDup h p l : proto_chain h p l -> NoDup l.
Proof.
  induction 1 as [|a o l Ho Hc IH]; constructor; [|done]. intros Hin.
  destruct (proto_chain_suffix h _ _ _ Hc Hin) as (l1 & l2 & -> & Hl2).
  assert (E : a :: l1 ++ l2 = l2) by (eapply proto_chain_unique; [by econstructor|done]).
  apply (f_equal length) in E. cbn in E. rewrite length_app in E. lia.
Qed.

Lemma proto_chain_length h p l : proto_chain h p l -> (length l <= size (objects h))%nat.
Proof.
  intros Hc. rewrite <-size_dom, <-(size_list_to_set (C := gset Z) l) by by eapply proto_chain_NoDup.
  apply subseteq_size. intros x Hx%elem_of_list_to_set. apply elem_of_dom.
  destruct (proto_chain_suffix h p l x Hc Hx) as (l1 & l2 & _ & Hl2). inversion Hl2; by eexists.
Qed.

Lemma proto_chain_put h a o p l : a ∉ l -> proto_chain h p l -> proto_chain (put_object h a o) p l.
Proof.
  intros Hna. induction 1 as [|b ob l Hb _ IH]; [constructor|]. apply not_elem_of_cons in Hna as [Hne Hna].
  apply (chain_object _ b ob); [|auto]. cbn. by rewrite lookup_insert_ne.
Qed.

(** Changing the prototype of an object that is not on the chain of the new one. *)
Lemma proto_chain_redirect h a o np lnp x l :
  objects h !! a = Some o -> proto_chain h np lnp -> a ∉ lnp -> proto_chain h x l ->
  exists l', proto_chain (put_object h a (set_prototype o np)) x l'.
Proof.
  intros Ho Hnp Hna. set (h' := put_object h a (set_prototype o np)).
  assert (Hkeep : proto_chain h' np lnp) by by apply proto_chain_put.
  induction 1 as [|b ob l' Hb _ [l2 IH]]; [by exists []; constructor|].
  destruct (decide (b = a)) as [->|Hne].
  - exists (a :: lnp). apply (chain_object h' a (set_prototype o np)); [|done]. cbn. by rewrite lookup_insert_eq.
  - exists (b :: l2). apply (chain_object h' b ob); [|done]. cbn. by rewrite lookup_insert_ne.
Qed.

Lemma chain_contains_spec h p l a fuel :
  proto_chain h p l -> (length l < fuel)%nat -> chain_contains fuel h p a = EOk (bool_decide (a ∈ l)).
Proof.
  intros Hc. revert fuel. induction Hc as [|b o l Hb Hc IH]; intros [|fuel] Hf; cbn in *; try lia; [done|].
  destruct (Z.eqb_spec b a) as [->|Hne].
  - rewrite bool_decide_true; [done|]. by left.
  - unfold get_prototype_of, load_object. rewrite Hb. cbn. rewrite IH by lia. f_equal. apply bool_decide_ext.
    rewrite elem_of_cons. naive_solver.
Qed.

(** The chain of a possible new prototype. *)
Definition prototype_exists (h : ObjectHeap) (p : option Z) : Prop :=
  forall a, p = Some a -> is_Some (objects h !! a).

Lemma chains_finite_option h p :
  chains_finite h -> prototype_exists h p -> exists l, proto_chain h p l.
Proof. intros Hc Hp. destruct p as [a|]; [by apply Hc, Hp|]. exists []. constructor. Qed.

Lemma set_prototype_of_spec h a o np lnp :
  chains_finite h -> objects h !! a = Some o -> proto_chain h np lnp ->
  let unchanged := bool_decide (prototype o = np) in
  let allowed := negb (is_object_prototype o) && is_extensible_field o && negb (bool_decide (a ∈ lnp)) in
  let h' := if negb unchanged && allowed then put_object h a (set_prototype o np) else h in
  ordinary_set_prototype_of (S (size (objects h))) h a np = EOk (unchanged || allowed, h') /\
  chains_finite h'.
Proof.
  intros Hfin Ho Hnp. pose proof (proto_chain_length h np lnp Hnp) as Hlen.
  unfold ordinary_set_prototype_of, load_object. rewrite Ho. cbn [mbind EvalResult_bind].
  rewrite (chain_contains_spec h np lnp) by (done || lia). cbn [mbind EvalResult_bind].
  destruct (bool_decide (prototype o = np)), (is_object_prototype o), (is_extensible_field o); cbn; try done.
  case_bool_decide as Hin; cbn; [done|]. split; [done|].
  intros b [ob Hb]. cbn in Hb. assert (is_Some (objects h !! b)) as Hib.
  { rewrite lookup_insert in Hb. case_decide; [subst; by eexists|by eexists]. }
  destruct (Hfin b Hib) as [l Hl]. eapply (proto_chain_redirect h a o np lnp); eauto.
Qed.

(** [ordinary_set_prototype_of] ends within a fuel of one more than the number of objects and
    keeps every prototype chain finite.  It succeeds exactly when the prototype stays the same or
    the object is extensible, is not the object prototype, and is not on the chain of the new
    prototype; then only the prototype of the object changes, and otherwise nothing does. *)
Theorem set_prototype_of_keeps_chains_finite h a o np :
  chains_finite h -> objects h !! a = Some o -> prototype_exists h np ->
  exists lnp result h', proto_chain h np lnp /\
    ordinary_set_prototype_of (S (size (objects h))) h a np = EOk (result, h') /\
    chains_finite h' /\
    (result = true <-> prototype o = np \/
       (is_object_prototype o = false /\ is_extensible_field o = true /\ a ∉ lnp)) /\
    objects h' = (if result then <[a := set_prototype o np]> (objects h) else objects h) /\
    accessors h' = accessors h.
Proof.
  intros Hfin Ho Hp. destruct (chains_finite_option h np Hfin Hp) as [lnp Hnp].
  destruct (set_prototype_of_spec h a o np lnp Hfin Ho Hnp) as [E Hf']. do 3 eexists.
  split_and!; [done|exact E|exact Hf'| | |].
  - rewrite orb_true_iff, !andb_true_iff, !negb_true_iff, bool_decide_eq_true, bool_decide_eq_false. naive_solver.
  - destruct (bool_decide_reflect (prototype o = np)) as [<-|]; cbn.
    + rewrite insert_id; [done|]. rewrite Ho. by destruct o.
    + by destruct (negb (is_object_prototype o) && is_extensible_field o && negb (bool_decide (a ∈ lnp))).
  - by destruct (negb (bool_decide (prototype o = np)) && _).
Qed.

(** ** Lookup *)

Section lookup.
Context (heap : ItemHeap) (convert_object : Value -> ToPrimitivePreferredType -> EvalResult Value)
  (parse_string_to_number : list Z -> option f64)
  (call_object : ObjectHeap -> Z -> Value -> list Value -> EvalResult (Value * ObjectHeap))
  (length_name : PropertyKey).
Implicit Types d : Hashes.

(** The own property of an object, the length of an array included. *)
Definition own_view (h : ObjectHeap) (o : ObjectValue) (key : PropertyKey) : option SpecProperty :=
  match object_class o with
  | ArrayObjectClass is_length_writable =>
      if key_is_length heap length_name key
      then Some (SData (from_u32 (array_length (array_properties o))) is_length_writable false false)
      else view_at h o key
  | _ => view_at h o key
  end.

(** The first property of the key along the chain. *)
Fixpoint chain_lookup (h : ObjectHeap) (l : list Z) (key : PropertyKey) : option SpecProperty :=
  match l with
  | [] => None
  | a :: l =>
      match objects h !! a ≫= fun o => own_view h o key with
      | Some p => Some p
      | None => chain_lookup h l key
      end
  end.

(** What [[Get]] returns for the property that was found. *)
Definition spec_get (h : ObjectHeap) (p : option SpecProperty) (receiver : Value) : EvalResult (Value * ObjectHeap) :=
  match p with
  | None => EOk (undefined, h)
  | Some (SData v _ _ _) => EOk (v, h)
  | Some (SAccessor None _ _ _) => EOk (undefined, h)
  | Some (SAccessor (Some getter) _ _ _) => call_object h getter receiver []
  end.

(** An own lookup finds the property or misses it, and does not miss what its draws placed. *)
Lemma get_own_property_sound d h a o key :
  heap_ok h -> objects h !! a = Some o -> key_ok key ->
  exists r, get_own_property heap length_name d h a key = EOk (spec_descriptor <$> r) /\
    (r = own_view h o key \/ r = None) /\ (finds d o key -> r = own_view h o key).
Proof.
  intros Hh Ho Hk.
  destruct (object_get_property_sound d o key (ho_objects h Hh a o Ho) Hk) as (p & Ep & Hp & Hf).
  assert (E : ordinary_get_own_property d h a key = EOk (spec_descriptor <$> (view h <$> p))).
  { unfold ordinary_get_own_property, load_object. rewrite Ho. cbn [mbind EvalResult_bind].
    rewrite Ep. cbn [mbind EvalResult_bind]. destruct p as [q|]; [|done]. by rewrite descriptor_of_view. }
  assert (Hv : (view h <$> p = view_at h o key \/ view h <$> p = None) /\
    (finds d o key -> view h <$> p = view_at h o key)).
  { unfold view_at. split; [destruct Hp as [->| ->]; auto|]. by intros ->%Hf. }
  unfold get_own_property, load_object, own_view. rewrite Ho. cbn [mbind EvalResult_bind].
  destruct (object_class o); [by eauto|by eauto|]. destruct (key_is_length heap length_name key); [|by eauto].
  exists (Some (SData (from_u32 (array_length (array_properties o))) is_length_writable false false)).
  split; [reflexivity|]. by split; [left|].
Qed.

(** The objects of the chain whose property is not missed, and the draws that are left. *)
Lemma chain_walk h key fuel d a l :
  heap_ok h -> key_ok key -> proto_chain h (Some a) l -> (length l <= fuel)%nat ->
  exists l' d', l' `sublist_of` l /\
    (forall x o, x ∈ l -> objects h !! x = Some o -> finds d o key -> x ∈ l') /\
    (forall nh ih, hashes_agree d nh ih -> hashes_agree d' nh ih) /\
    has_property heap length_name fuel d h a key = EOk (is_some (chain_lookup h l' key)) /\
    (forall receiver, ordinary_get heap call_object length_name fuel d h a key receiver =
       spec_get h (chain_lookup h l' key) receiver) /\
    (forall value receiver,
       ordinary_set heap convert_object parse_string_to_number call_object length_name fuel d h a key value receiver =
       set_with_own_descriptor heap convert_object parse_string_to_number call_object length_name d' h key value receiver
         (default (descriptor_data undefined true true true) (spec_descriptor <$> chain_lookup h l' key))).
Proof.
  intros Hh Hk. revert d a l. induction fuel as [|fuel IH]; intros d a l Hc Hf; inversion Hc as [|? o l2 Ho Hc']; subst.
  { cbn in Hf. lia. }
  destruct (get_own_property_sound (fst_hashes d) h a o key Hh Ho Hk) as (r & Er & Hr & Hfind). cbn in Hf.
  assert (Hsnd : forall nh ih, hashes_agree d nh ih -> hashes_agree (snd_hashes d) nh ih) by (intros; by apply hashes_agree_snd).
  cbn [has_property ordinary_get ordinary_set]. setoid_rewrite Er. cbn [mbind EvalResult_bind].
  destruct r as [p|].
  - destruct Hr as [Hr|]; [|done]. exists (a :: l2), (snd_hashes d). cbn [chain_lookup]. rewrite Ho. cbn [mbind option_bind].
    rewrite <-Hr. split_and!; [done|done|done|done| |done]. intros receiver. by destruct p as [v w e c|[g|] s e c].
  - assert (Epar : get_prototype_of h a = EOk (prototype o)) by (unfold get_prototype_of, load_object; by rewrite Ho).
    cbn [fmap option_fmap option_map is_some is_none negb]. setoid_rewrite Epar. cbn [mbind EvalResult_bind].
    assert (Hrest : exists l' d', l' `sublist_of` l2 /\
      (forall x o, x ∈ l2 -> objects h !! x = Some o -> finds (snd_hashes d) o key -> x ∈ l') /\
      (forall nh ih, hashes_agree d nh ih -> hashes_agree d' nh ih) /\
      match prototype o with Some parent => has_property heap length_name fuel (snd_hashes d) h parent key | None => EOk false end =
        EOk (is_some (chain_lookup h l' key)) /\
      (forall receiver, match prototype o with
         | None => EOk (undefined, h)
         | Some parent => ordinary_get heap call_object length_name fuel (snd_hashes d) h parent key receiver end =
         spec_get h (chain_lookup h l' key) receiver) /\
      (forall value receiver, match prototype o with
         | None => set_with_own_descriptor heap convert_object parse_string_to_number call_object length_name (snd_hashes d) h key
             value receiver (descriptor_data undefined true true true)
         | Some parent => ordinary_set heap convert_object parse_string_to_number call_object length_name fuel (snd_hashes d) h
             parent key value receiver end =
         set_with_own_descriptor heap convert_object parse_string_to_number call_object length_name d' h key value receiver
           (default (descriptor_data undefined true true true) (spec_descriptor <$> chain_lookup h l' key)))).
    { destruct (prototype o) as [b|] eqn:Eb.
      - destruct (IH (snd_hashes d) b l2 Hc' ltac:(lia)) as (l' & d' & H1 & H2 & H3 & H4 & H5 & H6).
        exists l', d'. split_and!; [done|done|by auto|done..].
      - inversion Hc'; subst. exists [], (snd_hashes d). split_and!; try done. }
    destruct Hrest as (l' & d' & Hsub & Hall & Hd' & H1 & H2 & H3).
    destruct (own_view h o key) as [p|] eqn:Eo.
    + exists l', d'. refine (conj (sublist_cons a l' l2 Hsub) (conj _ (conj Hd' (conj H1 (conj H2 H3))))).
      intros x ox [->|Hx]%elem_of_cons Hox Hfx; [|by eapply Hall; [..|apply finds_snd]].
      rewrite Ho in Hox. injection Hox as <-. specialize (Hfind (finds_fst _ _ _ Hfx)). done.
    + exists (a :: l'), d'. cbn [chain_lookup]. rewrite Ho. cbn [mbind option_bind]. rewrite Eo.
      refine (conj (sublist_skip a l' l2 Hsub) (conj _ (conj Hd' (conj H1 (conj H2 H3))))).
      intros x ox [->|Hx]%elem_of_cons Hox Hfx; [by left|]. right. by eapply Hall; [..|apply finds_snd].
Qed.


End lookup.
