(* ===== verification/ObjectInvariants.v ===== *)
(** The invariants of the essential internal methods of ECMA-262, for the ordinary internal methods
    of [src/so2js/runtime/ordinary_object.rs] and the overrides of [array_object.rs].

    [object_step] is one internal method applied to some object of the heap.  Whatever methods run
    in whatever order, an object that is not extensible stays so, keeps its prototype and gets no
    new properties, and a property that is not configurable stays as the standard demands. *)
From S2P Require Import Prelude Float64 Value ValueCorrect Descriptors TypeUtilities Property.
From S2P Require Import IndexMap IndexMapCorrect ArrayProperties ArrayPropertiesCorrect ObjectModel DefineProperty PrototypeChain.

Section invariants.
Context (heap : ItemHeap) (convert_object : Value -> ToPrimitivePreferredType -> EvalResult Value)
  (parse_string_to_number : list Z -> option f64) (length_name : PropertyKey).

(** ** Steps *)

(** Every call draws its own hashes. *)
Inductive object_step (h : ObjectHeap) : ObjectHeap -> Prop :=
| step_define d a o key desc result h' :
    define_pre d h a o key desc -> not_length heap length_name o key ->
    define_own_property heap convert_object parse_string_to_number length_name d
      h a key desc = EOk (result, h') ->
    object_step h h'
| step_delete d a o key result h' :
    objects h !! a = Some o -> key_ok key -> not_length heap length_name o key ->
    delete heap length_name d h a key = EOk (result, h') ->
    object_step h h'
| step_prevent_extensions a result h' :
    prevent_extensions h a = EOk (result, h') -> object_step h h'
| step_set_prototype_of fuel a np result h' :
    prototype_exists h np -> ordinary_set_prototype_of fuel h a np = EOk (result, h') -> object_step h h'
| step_new_object c np :
    prototype_exists h np -> objects h !! next_address h = None ->
    object_step h (alloc_object h (object_ordinary_init c np)).2.

(** ** What must not change *)

(** A property that is not configurable: an accessor stays as it is, a data property keeps its
    attributes but may become read-only, and when it is read-only it keeps its value. *)
Definition fixed_property (p p' : SpecProperty) : Prop :=
  match p, p' with
  | SData v w e _, SData v' w' e' c' => c' = false /\ e' = e /\ (w = false -> w' = false /\ v' = v)
  | SAccessor _ _ _ _, SAccessor _ _ _ _ => p' = p
  | _, _ => False
  end.

Record object_keeps (h h' : ObjectHeap) (o o' : ObjectValue) : Prop := {
  ok_class : object_class o' = object_class o;
  ok_immutable : is_object_prototype o = true -> prototype o' = prototype o;
  ok_sealed : is_extensible_field o = false ->
    is_extensible_field o' = false /\ prototype o' = prototype o /\
    forall k, key_ok k -> view_at h o k = None -> view_at h' o' k = None;
  ok_fixed : forall k p, key_ok k -> view_at h o k = Some p -> spec_configurable p = false ->
    exists p', view_at h' o' k = Some p' /\ fixed_property p p'
}.

Definition heap_keeps (h h' : ObjectHeap) : Prop :=
  forall a o, objects h !! a = Some o -> exists o', objects h' !! a = Some o' /\ object_keeps h h' o o'.

Lemma fixed_property_refl p : spec_configurable p = false -> fixed_property p p.
Proof. destruct p; cbn; auto. Qed.

Lemma fixed_property_configurable p p' :
  spec_configurable p = false -> fixed_property p p' -> spec_configurable p' = false.
Proof. destruct p, p'; cbn; naive_solver. Qed.

Lemma fixed_property_trans p q r : fixed_property p q -> fixed_property q r -> fixed_property p r.
Proof. destruct p, q, r; cbn; naive_solver. Qed.

Lemma heap_keeps_refl h : heap_keeps h h.
Proof.
  intros a o Ho. exists o. split; [done|]. split; [done|done|done|]. intros k p _ Hp Hc. exists p.
  split; [done|]. by apply fixed_property_refl.
Qed.

Lemma heap_keeps_trans h1 h2 h3 : heap_keeps h1 h2 -> heap_keeps h2 h3 -> heap_keeps h1 h3.
Proof.
  intros H12 H23 a o Ho. destruct (H12 a o Ho) as (o2 & Ho2 & [C1 I1 S1 F1]).
  destruct (H23 a o2 Ho2) as (o3 & Ho3 & [C2 I2 S2 F2]). exists o3. split; [done|]. split.
  - congruence.
  - intros Hi. rewrite <-I1, <-I2; try done. unfold is_object_prototype in *. by rewrite C1.
  - intros Hs. destruct (S1 Hs) as (E2 & P2 & N2), (S2 (proj1 (S1 Hs))) as (E3 & P3 & N3).
    split_and!; [done|congruence|auto].
  - intros k p Hk Hp Hc. destruct (F1 k p Hk Hp Hc) as (p2 & Hp2 & Hf2).
    destruct (F2 k p2 Hk Hp2 (fixed_property_configurable p p2 Hc Hf2)) as (p3 & Hp3 & Hf3).
    exists p3. split; [done|]. by eapply fixed_property_trans.
Qed.

(** ** Changing one object *)

(** An update of the fields of an object that leaves its properties alone. *)
Lemma put_fields h a o o' :
  heap_ok h -> objects h !! a = Some o -> named_properties o' = named_properties o ->
  array_properties o' = array_properties o ->
  heap_ok (put_object h a o') /\ forall k, view_at (put_object h a o') o' k = view_at h o k.
Proof.
  intros [Hobj Hval Hacc Hun Hnx] Ho Hn Ha. assert (Hat : forall k, object_at o' k = object_at o k).
  { intros k. unfold object_at. by rewrite Hn, Ha. }
  assert (Hst : forall b k p, stores (put_object h a o') b k p -> stores h b k p).
  { intros b k p [(-> & Hk & Hp)|[_ Hp]]%stores_put; [|done]. rewrite Hat in Hp. by exists o. }
  split.
  - split; [|by eauto|done|by eauto|done]. intros b ob. cbn. rewrite lookup_insert. case_decide; [|by apply Hobj].
    intros [= <-]. destruct (Hobj a o Ho) as [[bk W] H2 H3 H4]. split; [exists bk|..]; by rewrite ?Hn, ?Ha.
  - intros k. unfold view_at. by rewrite Hat.
Qed.

Lemma view_at_other h h' o k :
  accessors h' = accessors h -> view_at h' o k = view_at h o k.
Proof. intros Ha. unfold view_at. destruct (object_at o k); [|done]. cbn. f_equal. apply view_ext. by rewrite Ha. Qed.

Lemma put_fields_keeps h a o o' :
  heap_ok h -> objects h !! a = Some o -> named_properties o' = named_properties o ->
  array_properties o' = array_properties o -> object_class o' = object_class o ->
  (is_extensible_field o = false -> is_extensible_field o' = false) ->
  (is_object_prototype o = true \/ is_extensible_field o = false -> prototype o' = prototype o) ->
  heap_keeps h (put_object h a o').
Proof.
  intros Hh Ho Hn Ha Hc He Hp. destruct (put_fields h a o o' Hh Ho Hn Ha) as [_ Hv].
  intros b ob Hb. destruct (decide (b = a)) as [->|Hne].
  - simplify_eq. exists o'. cbn. rewrite lookup_insert_eq. split; [done|]. split; [done|auto| |].
    + intros Hs. split_and!; [auto|auto|]. intros k _ Hk. by rewrite Hv.
    + intros k p _ Hk Hcf. exists p. rewrite Hv. split; [done|]. by apply fixed_property_refl.
  - exists ob. cbn. rewrite lookup_insert_ne by congruence. split; [done|]. split; [done|done| |].
    + intros Hs. split_and!; [done..|]. intros k _ Hk. by rewrite (view_at_other h).
    + intros k p _ Hk Hcf. exists p. rewrite (view_at_other h) by done. split; [done|].
      by apply fixed_property_refl.
Qed.

(** A new object has empty property maps. *)
Lemma init_object_ok c np : object_ok (object_ordinary_init c np).
Proof.
  split.
  - destruct (index_map_new_wf (K := PropertyKey) (V := Property) (fun _ => 0) 0 (or_introl eq_refl)) as (W & _ & _).
    exists []. apply W.
  - by apply NoDup_nil.
  - split; [done|done|]. intros i Hi. cbn in Hi. lia.
  - done.
Qed.

(** A change of one property, in terms of what it was before. *)
Lemma frame_keeps h h' a o o' key :
  objects h !! a = Some o -> objects h' !! a = Some o' -> frame_at h h' a key -> same_object o o' ->
  (is_extensible_field o = false -> view_at h o key = None -> view_at h' o' key = None) ->
  (forall p, view_at h o key = Some p -> spec_configurable p = false ->
     exists p', view_at h' o' key = Some p' /\ fixed_property p p') ->
  heap_keeps h h'.
Proof.
  intros Ho Ho' [Fa Fv] (Sc & Sp & Se) Hnew Hfix b ob Hb. destruct (decide (b = a)) as [->|Hne].
  - simplify_eq. exists o'. split; [done|]. split; [done|by rewrite Sp| |].
    + intros Hs. rewrite Se, Sp. split_and!; [done|done|]. intros k Hk Hv. destruct (decide (k = key)) as [->|Hkk]; [auto|].
      by rewrite (Fv a o o' k) by (done || congruence).
    + intros k p Hk Hv Hcf. destruct (decide (k = key)) as [->|Hkk]; [auto|]. exists p.
      rewrite (Fv a o o' k) by (done || congruence). split; [done|]. by apply fixed_property_refl.
  - exists ob. rewrite Fa by done. split; [done|].
    assert (Hsame : forall k, key_ok k -> view_at h' ob k = view_at h ob k).
    { intros k Hk. apply (Fv b ob ob k); try done; [by rewrite Fa|congruence]. }
    split; [done|done| |].
    + intros Hs. split_and!; [done..|]. intros k Hk Hv. by rewrite Hsame.
    + intros k p Hk Hv Hcf. exists p. rewrite Hsame by done. split; [done|]. by apply fixed_property_refl.
Qed.

(** ** The steps keep them *)

Lemma spec_define_fixed extensible desc p p' :
  descriptor_ok desc -> spec_define heap extensible desc (Some p) = Some p' -> spec_configurable p = false ->
  (frozen p = true -> desc_value desc = None) -> fixed_property p p'.
Proof.
  intros [Hda _]. unfold spec_define. destruct (has_no_fields desc); [by intros [= <-] Hc _; apply fixed_property_refl|].
  destruct (spec_allows heap desc p) eqn:Ea; [|done]. intros [= <-] Hc Hfz. unfold spec_allows in Ea.
  rewrite Hc in Ea. cbn [orb] in Ea. rewrite !andb_true_iff in Ea. destruct Ea as [[[Ec Ee] Ek] Ed].
  assert (Hde : default (spec_enumerable p) (desc_enumerable desc) = spec_enumerable p).
  { destruct (desc_enumerable desc) as [b|]; cbn; [by apply eqb_prop|done]. }
  assert (Hdc : default (spec_configurable p) (desc_configurable desc) = false).
  { apply negb_true_iff, bool_decide_eq_false in Ec. by destruct (desc_configurable desc) as [[]|]. }
  unfold spec_apply. rewrite Hde, Hdc. unfold is_generic_descriptor in Ek.
  destruct p as [v w e c|g s e c]; cbn in *; subst c.
  - destruct (is_accessor_descriptor desc); [by rewrite andb_false_r in Ek|]. cbn. split_and!; [done|done|].
    intros ->. cbn in *. rewrite Hfz by done. apply andb_true_iff in Ed as [Ew _].
    apply negb_true_iff, bool_decide_eq_false in Ew. by destruct (desc_writable desc) as [[]|].
  - destruct (is_data_descriptor desc); cbn in Ek.
    { cbn in Hda. by rewrite Hda in Ek. }
    apply andb_true_iff in Ed as [Eg Es]. f_equal.
    + destruct (has_get desc); [by apply bool_decide_eq_true in Eg|done].
    + destruct (has_set desc); [by apply bool_decide_eq_true in Es|done].
Qed.

Lemma define_own_property_cases d h a o key desc result h' :
  objects h !! a = Some o -> not_length heap length_name o key ->
  define_own_property heap convert_object parse_string_to_number length_name d
    h a key desc = EOk (result, h') ->
  h' = h \/ ordinary_define_own_property heap length_name d h a key desc = EOk (result, h').
Proof.
  intros Ho Hl. unfold define_own_property, load_object. rewrite Ho. cbn [mbind EvalResult_bind].
  unfold not_length in Hl. destruct (object_class o) as [| |w]; [by right|by right|].
  destruct (is_array_index key); [|by rewrite Hl; right].
  case_match; [intros [= _ <-]; by left|by right].
Qed.

Lemma define_keeps d h a o key desc result h' :
  define_pre d h a o key desc -> not_length heap length_name o key ->
  define_own_property heap convert_object parse_string_to_number length_name d
    h a key desc = EOk (result, h') ->
  heap_ok h' /\ heap_keeps h h' /\ forall b, prototype <$> objects h' !! b = prototype <$> objects h !! b.
Proof.
  intros Hpre Hl E. pose proof (ordinary_define_spec d heap length_name h a o key desc Hpre Hl) as Hs.
  destruct Hpre as [Hh Ho Hk _ Hdo _ _ _ _ _].
  destruct (define_own_property_cases d h a o key desc result h' Ho Hl E) as [->|E1];
    [split_and!; [exact Hh|apply heap_keeps_refl|reflexivity]|]. clear E. rename E1 into E.
  destruct (spec_define heap (is_extensible_field o) desc (view_at h o key)) as [p'|] eqn:Ed.
  2: { rewrite E in Hs. injection Hs as _ ->. split_and!; [done|apply heap_keeps_refl|done]. }
  destruct Hs as (h2 & E2 & Hh2 & Hf & o' & q & Ho' & Hso & Hq & _ & _ & Hcase). rewrite E in E2. injection E2 as _ <-.
  destruct Hcase as [->|[-> Hfz]]; [split_and!; [done|apply heap_keeps_refl|done]|]. split_and!; [done| |].
  - apply (frame_keeps h h' a o o' key); try done.
    + intros He Hn. rewrite He, Hn in Ed. done.
    + intros p Hp Hc. exists p'. split; [done|]. rewrite Hp in Ed.
      apply (spec_define_fixed (is_extensible_field o) desc); [done..|]. intros Hz. by apply (Hfz p).
  - intros b. destruct (decide (b = a)) as [->|Hne]; [|by rewrite (proj1 Hf)].
    rewrite Ho', Ho. cbn. f_equal. apply Hso.
Qed.

(** Deleting a property that is there, or missing it. *)
Lemma remove_property_keeps d h a o key :
  heap_ok h -> objects h !! a = Some o -> key_ok key -> is_Some (object_at o key) ->
  exists (b : bool) o', object_remove_property d h a key = EOk (put_object h a o') /\
    heap_ok (put_object h a o') /\ same_object o o' /\ frame_at h (put_object h a o') a key /\
    view_at (put_object h a o') o' key = if b then None else view_at h o key.
Proof.
  intros [Hobj Hval Hacc Hun Hnx] Ho Hk Hin.
  destruct (object_remove_property_spec d h a o key Ho (Hobj a o Ho) Hk Hin)
    as (r & o' & E & Hok & Hs & Hat & _). exists r, o'.
  assert (Hst : forall b k p, stores (put_object h a o') b k p -> stores h b k p).
  { intros b k p [(-> & Hk' & Hp)|[_ Hp]]%stores_put; [|done]. rewrite Hat in Hp by done.
    destruct (r && _); [done|]. by exists o. }
  split_and!; [done| |done| |].
  - split; [|by eauto|done|by eauto|done]. intros b ob. cbn. rewrite lookup_insert. case_decide; [|by apply Hobj].
    by intros [= <-].
  - split; [intros b Hne; cbn; by rewrite lookup_insert_ne by congruence|].
    intros b o1 o2 k H1 H2 Hk' Hne. cbn in H2. rewrite lookup_insert in H2. unfold view_at. case_decide; simplify_eq.
    + rewrite Hat by done. rewrite (bool_decide_false (k = key)), andb_false_r by congruence. by apply view_at_other.
    + by apply view_at_other.
  - unfold view_at. rewrite Hat by done. rewrite bool_decide_true by done. destruct r; [done|]. by apply view_at_other.
Qed.

Lemma delete_keeps d h a o key result h' :
  heap_ok h -> objects h !! a = Some o -> key_ok key -> not_length heap length_name o key ->
  delete heap length_name d h a key = EOk (result, h') ->
  heap_ok h' /\ heap_keeps h h' /\ forall b, prototype <$> objects h' !! b = prototype <$> objects h !! b.
Proof.
  intros Hh Ho Hk Hl E. assert (E1 : ordinary_delete heap length_name d h a key = EOk (result, h')).
  { unfold delete, load_object in E. rewrite Ho in E. cbn [mbind EvalResult_bind] in E. unfold not_length in Hl.
    destruct (object_class o); rewrite ?Hl in E; done. }
  assert (Hown : own_view heap length_name h o key = view_at h o key).
  { unfold own_view. unfold not_length in Hl. destruct (object_class o); by rewrite ?Hl. }
  destruct (get_own_property_sound heap length_name (fst_hashes d) h a o key Hh Ho Hk) as (r & Er & Hr & _).
  rewrite Hown in Hr. unfold ordinary_delete in E1. rewrite Er in E1.
  cbn [mbind EvalResult_bind] in E1. destruct r as [p|]; cbn in E1.
  2: { injection E1 as _ <-. split_and!; [done|apply heap_keeps_refl|done]. }
  destruct Hr as [Ev|]; [symmetry in Ev|done].
  replace (descriptor_is_configurable (spec_descriptor p)) with (spec_configurable p) in E1 by by destruct p.
  destruct (spec_configurable p) eqn:Ec; [|injection E1 as _ <-; split_and!; [done|apply heap_keeps_refl|done]].
  assert (Hin : is_Some (object_at o key)) by (unfold view_at in Ev; by destruct (object_at o key)).
  destruct (remove_property_keeps (snd_hashes d) h a o key Hh Ho Hk Hin) as (b & o' & E2 & Hh' & Hs & Hf & Hv). rewrite E2 in E1.
  cbn in E1. injection E1 as _ <-. split_and!; [done| |].
  - apply (frame_keeps h _ a o o' key); [done|cbn; by rewrite lookup_insert_eq|done|done|congruence|]. intros p0 Hp Hc. congruence.
  - intros c. cbn. rewrite lookup_insert. case_decide; [|done]. subst. rewrite Ho. cbn. f_equal. apply Hs.
Qed.

(** Chains depend on the prototypes only. *)
Lemma chains_finite_ext h h' :
  (forall b, prototype <$> objects h' !! b = prototype <$> objects h !! b) -> chains_finite h -> chains_finite h'.
Proof.
  intros He Hc. assert (Hstep : forall p l, proto_chain h p l -> proto_chain h' p l).
  { induction 1 as [|b o l Hb _ IH]; [constructor|]. specialize (He b). rewrite Hb in He. cbn in He.
    destruct (objects h' !! b) as [o'|] eqn:Eo; [|done]. cbn in He. injection He as He.
    apply (chain_object h' b o'); [done|]. by rewrite He. }
  intros a [o Ho]. specialize (He a) as Hea. rewrite Ho in Hea. destruct (objects h !! a) eqn:Ea; [|done].
  destruct (Hc a) as [l Hl]; [by eexists|]. eauto.
Qed.

Definition heap_invariant (h : ObjectHeap) : Prop := heap_ok h /\ chains_finite h.

Lemma set_prototype_keeps fuel h a np result h' :
  heap_invariant h -> prototype_exists h np -> ordinary_set_prototype_of fuel h a np = EOk (result, h') ->
  heap_invariant h' /\ heap_keeps h h'.
Proof.
  intros [Hh Hc] Hnp E. destruct (chains_finite_option h np Hc Hnp) as [lnp Hl].
  unfold ordinary_set_prototype_of, load_object in E. destruct (objects h !! a) as [o|] eqn:Ho; [|done].
  cbn [mbind EvalResult_bind] in E. pose proof (heap_keeps_refl h) as Hrefl.
  case_bool_decide; [by injection E as _ <-|]. destruct (is_object_prototype o) eqn:Eo; [by injection E as _ <-|].
  destruct (is_extensible_field o) eqn:Ee; cbn in E; [|by injection E as _ <-].
  destruct (chain_contains fuel h np a) as [c| | | |] eqn:Ech; cbn in E; try done.
  destruct c; [by injection E as _ <-|]. injection E as _ <-.
  assert (Hna : a ∉ lnp).
  { assert (Hg : forall f p l, proto_chain h p l -> chain_contains f h p a = EOk false -> a ∉ l).
    { induction f as [|f IH]; intros p l [|b ob l' Hb Hc'] Hf; cbn in Hf; try done; [apply not_elem_of_nil|].
      destruct (Z.eqb_spec b a); [done|]. unfold get_prototype_of, load_object in Hf. rewrite Hb in Hf. cbn in Hf.
      apply not_elem_of_cons. split; [congruence|]. by apply (IH _ _ Hc'). }
    by apply (Hg fuel np lnp). }
  split; [split|].
  - by apply (put_fields h a o).
  - intros b [ob Hb]. cbn in Hb. assert (Hib : is_Some (objects h !! b)).
    { rewrite lookup_insert in Hb. case_decide; [subst; by eexists|by eexists]. }
    destruct (Hc b Hib) as [l Hlb]. by apply (proto_chain_redirect h a o np lnp (Some b) l).
  - apply (put_fields_keeps h a o); try done. intros [?|?]; congruence.
Qed.

Lemma new_object_keeps h c np :
  heap_invariant h -> prototype_exists h np -> objects h !! next_address h = None ->
  let h' := (alloc_object h (object_ordinary_init c np)).2 in heap_invariant h' /\ heap_keeps h h'.
Proof.
  intros [[Hobj Hval Hacc Hun Hnx] Hc] Hnp Hfresh h'.
  assert (Hst : forall b k p, stores h' b k p -> stores h b k p).
  { intros b k p (o & Ho & Hk & Hp). cbn in Ho. rewrite lookup_insert in Ho. case_decide; [|by exists o].
    injection Ho as <-. exfalso. unfold object_at in Hp. cbn in Hp. destruct (is_array_index k) eqn:Ek; [|done].
    destruct (Hk Ek) as [Hi _]. unfold dense_at in Hp. cbn in Hp.
    destruct (Z.ltb_spec (as_array_index k) 0); [lia|done]. }
  assert (Hext : forall b o, objects h !! b = Some o -> objects h' !! b = Some o).
  { intros b o Ho. cbn. rewrite lookup_insert_ne; congruence. }
  split; [split; [split|]|].
  - intros b o. cbn. rewrite lookup_insert. case_decide; [|apply Hobj]. intros [= <-]. apply init_object_ok.
  - intros b k p Hp%Hst. destruct (Hval b k p Hp) as [? Hl]. split; [done|]. intros Hq. specialize (Hl Hq). cbn. lia.
  - intros x Hx. cbn. specialize (Hacc x Hx). lia.
  - intros b k p b' k' p' Hp%Hst Hp'%Hst. by apply Hun.
  - cbn. lia.
  - assert (Hchain : forall p l, proto_chain h p l -> proto_chain h' p l).
    { induction 1; econstructor; eauto. }
    intros b [o Ho]. cbn in Ho. rewrite lookup_insert in Ho. case_decide as Eb.
    + subst b. destruct (chains_finite_option h np Hc Hnp) as [l Hl]. exists (next_address h :: l).
      apply (chain_object h' _ (object_ordinary_init c np)); [cbn; by rewrite lookup_insert_eq|]. by apply Hchain.
    + destruct (Hc b) as [l Hl]; [by eexists|]. eauto.
  - intros b o Ho. exists o. split; [by apply Hext|]. split; [done|done| |].
    + intros Hs. split_and!; [done..|]. intros k _ Hk. by rewrite (view_at_other h).
    + intros k p _ Hk Hcf. exists p. rewrite (view_at_other h) by done. split; [done|]. by apply fixed_property_refl.
Qed.

Lemma object_step_keeps h h' :
  heap_invariant h -> object_step h h' -> heap_invariant h' /\ heap_keeps h h'.
Proof.
  intros Hinv [d a o key desc result h1 Hpre Hl E|d a o key result h1 Ho Hk Hl E|a result h1 E|fuel a np result h1 Hnp E|c np Hnp Hf].
  - destruct (define_keeps d h a o key desc result h1 Hpre Hl E) as (Hh & Hkp & Hp). split; [split|]; [done| |done].
    eapply chains_finite_ext; [exact Hp|apply Hinv].
  - destruct (delete_keeps d h a o key result h1 (proj1 Hinv) Ho Hk Hl E) as (Hh & Hkp & Hp). split; [split|]; [done| |done].
    eapply chains_finite_ext; [exact Hp|apply Hinv].
  - destruct Hinv as [Hh Hc]. unfold prevent_extensions, load_object in E. destruct (objects h !! a) as [o|] eqn:Ho; [|done].
    cbn in E. injection E as _ <-. split; [split|].
    + by apply (put_fields h a o).
    + apply (chains_finite_ext h); [|done]. intros b. cbn. rewrite lookup_insert. case_decide; [|done]. subst. by rewrite Ho.
    + by apply (put_fields_keeps h a o).
  - by eapply set_prototype_keeps.
  - by apply new_object_keeps.
Qed.

(** C15: The invariants of the essential internal methods hold for every sequence of internal method
    calls on ordinary objects and arrays, other than changes of an array's length: the heap stays
    well formed with finite prototype chains; an object that is not extensible stays so, keeps its
    prototype, and gets no new property; a property that is not configurable stays, with its
    attributes, its accessor functions and, once it is read-only, its value.  The calls are
    [[Delete]], [[PreventExtensions]], [[SetPrototypeOf]], the creation of objects, whatever hashes
    are drawn, and definitions under their precondition: of a property the object does not have,
    whatever hashes are drawn, or of one it has, with draws that agree with the hashes that placed
    its keys and, for an element of a sparse array, no deleted entry in the array.  No accessor
    belongs to two properties at the start. *)
Theorem essential_invariants_hold h h' :
  heap_invariant h -> rtc object_step h h' -> heap_invariant h' /\ heap_keeps h h'.
Proof.
  intros Hinv Hs. induction Hs as [h|h h1 h' Hstep _ IH]; [split; [done|apply heap_keeps_refl]|].
  destruct (object_step_keeps h h1 Hinv Hstep) as [Hinv1 Hk1]. destruct (IH Hinv1) as [Hinv' Hk'].
  split; [done|]. by eapply heap_keeps_trans.
Qed.

End invariants.

(** ** An example: an object whose prototype has an element *)

Definition family_heap : ObjectHeap := (alloc_object sample_heap (object_ordinary_init OrdinaryObjectClass (Some 64))).2.

Lemma sample_chains : chains_finite sample_heap.
Proof.
  intros a [o Ho]. cbn in Ho. apply lookup_singleton_Some in Ho as [<- <-]. exists [64].
  apply (chain_object sample_heap 64 sample_object); [done|constructor].
Qed.

Lemma family_invariant : heap_invariant family_heap.
Proof.
  apply new_object_keeps; [split; [apply sample_pre|apply sample_chains]| |done].
  intros a [= <-]. by eexists.
Qed.

Definition empty_convert (v : Value) (_ : ToPrimitivePreferredType) : EvalResult Value := EOk v.
Definition no_parse (_ : list Z) : option f64 := None.
Definition no_call (h : ObjectHeap) (_ : Z) (_ : Value) (_ : list Value) : EvalResult (Value * ObjectHeap) := EOk (undefined, h).

(** The older object cannot inherit from the younger one. *)
Lemma set_prototype_of_keeps_chains_finite_witness :
  exists lnp result h', proto_chain family_heap (Some 128) lnp /\
    ordinary_set_prototype_of 3 family_heap 64 (Some 128) = EOk (result, h') /\
    chains_finite h' /\
    (result = true <-> prototype sample_object = Some 128 \/
       (is_object_prototype sample_object = false /\ is_extensible_field sample_object = true /\ 64 ∉ lnp)) /\
    objects h' = (if result then <[64 := set_prototype sample_object (Some 128)]> (objects family_heap) else objects family_heap) /\
    accessors h' = accessors family_heap.
Proof.
  apply (set_prototype_of_keeps_chains_finite family_heap 64 sample_object (Some 128)).
  - apply family_invariant.
  - reflexivity.
  - intros a [= <-]. by eexists.
Defined.

Example no_cycle : ordinary_set_prototype_of 3 family_heap 64 (Some 128) = EOk (false, family_heap).
Proof. by vm_compute. Qed.


(** A property becomes an accessor that is not configurable, then its object is sealed. *)
Definition heap_after {A} (r : EvalResult (A * ObjectHeap)) (h : ObjectHeap) : ObjectHeap :=
  match r with EOk (_, h') => h' | _ => h end.
Definition defined_heap : ObjectHeap :=
  heap_after (define_own_property sample_items empty_convert no_parse (mkKey undefined) sample_hashes
    sample_heap 64 sample_key sample_desc) sample_heap.
Definition sealed_heap : ObjectHeap := heap_after (prevent_extensions defined_heap 64) defined_heap.

Lemma essential_invariants_hold_witness :
  heap_invariant sealed_heap /\ heap_keeps sample_heap sealed_heap.
Proof.
  apply (essential_invariants_hold sample_items empty_convert no_parse (mkKey undefined)).
  - split; [apply sample_pre|apply sample_chains].
  - apply (rtc_l _ _ defined_heap).
    + apply (step_define _ _ _ _ _ sample_hashes 64 sample_object sample_key sample_desc true); [apply sample_pre|exact I|by vm_compute].
    + apply rtc_once, (step_prevent_extensions _ _ _ _ _ 64 true). by vm_compute.
Defined.
