(* ===== verification/Promise.v ===== *)
(** Promises and the task queue: [src/so2js/runtime/promise_object.rs], [tasks.rs], the settle
    functions of [intrinsics/promise_constructor.rs] and [perform_promise_then] of
    [intrinsics/promise_prototype.rs].

    The world holds the promises, the capabilities, the built-in settle functions and the queue.
    JavaScript code and built-in functions that run in between (handlers, executors, [then] getters,
    resumed generators) are parameters: they return a completion and the new world, or panic.  The
    debug assertion of [tasks.rs] is checked when [debug_assertions] is on.  A reaction list, which
    the code keeps as linked heap items that are never changed, is a list with the newest first. *)
From S2P Require Import Prelude Float64 Value Descriptors TypeUtilities.

(** ** Data *)

Inductive PromiseReactionKind : Type := Fulfill | Reject.

(** The functions to be called when a promise is settled. *)
Inductive ReactionHandler : Type :=
| AwaitResume (suspended_generator : Z)
| Then (fulfill_handler reject_handler : option Z) (capability : option Z).

Inductive PromiseState : Type :=
| Pending (reactions : list ReactionHandler) (already_resolved : bool)
| Fulfilled (result : Value)
| Rejected (result : Value).

Record PromiseCapability : Type := mkCapability {
  capability_promise : option Z;
  capability_resolve : Value;
  capability_reject : Value
}.

Inductive Task : Type :=
| Callback1Task (func arg : Value)
| AwaitResumeTask (kind : PromiseReactionKind) (generator : Z) (result : Value)
| PromiseThenReactionTask (kind : PromiseReactionKind) (handler : option Z) (capability : option Z)
    (result : Value) (realm : option Z)
| PromiseThenSettleTask (then_function resolution promise realm : Z).

(** The settle functions of a promise; the promise is a private element of the function. *)
Inductive SettleFunction : Type :=
| ResolveFunction (promise : Z)
| RejectFunction (promise : Z).

Record World : Type := mkWorld {
  promises : gmap Z PromiseState;
  capabilities : gmap Z PromiseCapability;
  settle_functions : gmap Z SettleFunction;
  tasks : list Task;
  world_next : Z
}.

(** A normal completion or a thrown value. *)
Inductive Completion (A : Type) : Type := Normal (a : A) | Throw (error : Value).
Arguments Normal {A} a.
Arguments Throw {A} error.

(** Panics are [None]: [unreachable!], and [unwrap] of what is absent. *)
Definition M (A : Type) : Type := World -> option (Completion A * World).

#[export] Instance M_ret : MRet M := fun A a w => Some (Normal a, w).
#[export] Instance M_bind : MBind M := fun A B f m w =>
  match m w with
  | Some (Normal a, w) => f a w
  | Some (Throw e, w) => Some (Throw e, w)
  | None => None
  end.

Definition panic {A} : M A := fun _ => None.
Definition throw {A} (v : Value) : M A := fun w => Some (Throw v, w).
(** [completion_value!]: the completion as a value. *)
Definition completion_value {A} (m : M A) : M (Completion A) := fun w =>
  match m w with Some (c, w) => Some (Normal c, w) | None => None end.

Definition set_promise (promise : Z) (s : PromiseState) (w : World) : World :=
  mkWorld (<[promise := s]> (promises w)) (capabilities w) (settle_functions w) (tasks w) (world_next w).
Definition get_promise_state (promise : Z) : M PromiseState := fun w =>
  match promises w !! promise with Some s => Some (Normal s, w) | None => None end.
Definition put_promise_state (promise : Z) (s : PromiseState) : M unit := fun w =>
  Some (Normal tt, set_promise promise s w).
Definition load_capability (capability : Z) : M PromiseCapability := fun w =>
  match capabilities w !! capability with Some c => Some (Normal c, w) | None => None end.

(** ** The queue *)

Definition enqueue (task : Task) : M unit := fun w =>
  Some (Normal tt, mkWorld (promises w) (capabilities w) (settle_functions w) (tasks w ++ [task]) (world_next w)).

Definition pop_front : M (option Task) := fun w =>
  match tasks w with
  | [] => Some (Normal None, w)
  | task :: rest =>
      Some (Normal (Some task), mkWorld (promises w) (capabilities w) (settle_functions w) rest (world_next w))
  end.

Definition enqueue_callback_1_task (func arg : Value) : M unit := enqueue (Callback1Task func arg).
Definition enqueue_await_resume_task (kind : PromiseReactionKind) (generator : Z) (result : Value) : M unit :=
  enqueue (AwaitResumeTask kind generator result).

(** ** Promise objects *)

Definition new_pending : M Z := fun w =>
  Some (Normal (world_next w),
    mkWorld (<[world_next w := Pending [] false]> (promises w)) (capabilities w) (settle_functions w)
      (tasks w) (world_next w + 8)).

Definition is_pending (s : PromiseState) : bool :=
  match s with Pending _ false => true | _ => false end.
Definition rejected_value (s : PromiseState) : option Value :=
  match s with Rejected result => Some result | _ => None end.
Definition fulfilled_value (s : PromiseState) : option Value :=
  match s with Fulfilled result => Some result | _ => None end.

Definition set_already_resolved (promise : Z) (value : bool) : M unit :=
  s ← get_promise_state promise;
  match s with
  | Pending reactions _ => put_promise_state promise (Pending reactions value)
  | _ => panic
  end.

Section Promises.

Variable heap : ItemHeap.
Variable is_callable : Value -> bool.
Variable get_function_realm_no_error : Z -> option Z.
Variables current_realm initial_realm : Z.
Variable self_resolution_error : Value.   (* [type_error_value] *)

(** Code outside: the [then] property of an object, a call of a function that is not a settle
    function, and the resumption of an async function or generator. *)
Variable get_then : Z -> M Value.
Variable user_call : Value -> Value -> list Value -> M Value.
Variable resume_generator : Z -> Value -> PromiseReactionKind -> M unit.
(** Whether [debug_assert!] is compiled in. *)
Variable debug_assertions : bool.

(** The free function [enqueue_promise_then_reaction_task]. *)
Definition enqueue_promise_then_reaction_task (kind : PromiseReactionKind) (handler capability : option Z)
    (result : Value) : M unit :=
  let realm :=
    match handler with
    | Some handler =>
        match get_function_realm_no_error handler with
        | Some realm => Some realm
        | None => Some current_realm
        end
    | None => None
    end in
  enqueue (PromiseThenReactionTask kind handler capability result realm).

(** A task for one reaction. *)
Definition enqueue_reaction (kind : PromiseReactionKind) (value : Value) (reaction : ReactionHandler) : M unit :=
  match reaction with
  | AwaitResume suspended_generator => enqueue_await_resume_task kind suspended_generator value
  | Then fulfill_handler reject_handler capability =>
      let handler := match kind with Fulfill => fulfill_handler | Reject => reject_handler end in
      enqueue_promise_then_reaction_task kind handler capability value
  end.

Fixpoint enqueue_all (kind : PromiseReactionKind) (value : Value) (reactions : list ReactionHandler) : M unit :=
  match reactions with
  | [] => mret tt
  | reaction :: rest => enqueue_reaction kind value reaction ≫= fun _ => enqueue_all kind value rest
  end.

(** The newest reaction is first in the chain; tasks are added for the oldest first. *)
Definition enqueue_tasks_for_reactions (promise : Z) (kind : PromiseReactionKind) (value : Value) : M unit :=
  s ← get_promise_state promise;
  match s with
  | Pending reactions _ => enqueue_all kind value (rev reactions)
  | _ => panic
  end.

(** [PromiseObject::resolve] and [PromiseObject::reject]. *)
Definition fulfill_promise (promise : Z) (value : Value) : M unit :=
  enqueue_tasks_for_reactions promise Fulfill value ≫= fun _ => put_promise_state promise (Fulfilled value).
Definition reject_promise (promise : Z) (value : Value) : M unit :=
  enqueue_tasks_for_reactions promise Reject value ≫= fun _ => put_promise_state promise (Rejected value).

(** The first part of [resolve]: whether to go on. *)
Definition mark_resolved (promise : Z) : M bool :=
  s ← get_promise_state promise;
  match s with
  | Pending reactions already_resolved =>
      if already_resolved then mret false
      else put_promise_state promise (Pending reactions true) ≫= fun _ => mret true
  | _ => mret false
  end.

(** The last part of [resolve], with the completion of reading [then]. *)
Definition resolve_with_then (promise : Z) (resolution : Value) (then_completion : Completion Value) : M unit :=
  match then_completion with
  | Throw error => reject_promise promise error
  | Normal then_value =>
      if negb (is_callable then_value) then fulfill_promise promise resolution
      else
        let realm :=
          match get_function_realm_no_error (as_pointer then_value) with
          | Some realm => realm
          | None => current_realm
          end in
        enqueue (PromiseThenSettleTask (as_pointer then_value) (as_pointer resolution) promise realm)
  end.

Definition resolve (promise : Z) (resolution : Value) : M unit :=
  go_on ← mark_resolved promise;
  if negb go_on then mret tt
  else if same_value heap resolution (heap_item promise) then reject_promise promise self_resolution_error
  else if negb (is_object heap resolution) then fulfill_promise promise resolution
  else
    then_completion ← completion_value (get_then (as_pointer resolution));
    resolve_with_then promise resolution then_completion.

Definition add_reaction (promise : Z) (reaction : ReactionHandler) : M unit :=
  s ← get_promise_state promise;
  match s with
  | Pending reactions already_resolved =>
      put_promise_state promise (Pending (reaction :: reactions) already_resolved)
  | Fulfilled result => enqueue_reaction Fulfill result reaction
  | Rejected result => enqueue_reaction Reject result reaction
  end.

Definition add_await_reaction (promise : Z) (suspended_generator : Z) : M unit :=
  add_reaction promise (AwaitResume suspended_generator).
Definition add_then_reaction (promise : Z) (fulfill_handler reject_handler capability : option Z) : M unit :=
  add_reaction promise (Then fulfill_handler reject_handler capability).

Definition callable_object (v : Value) : option Z := if is_callable v then Some (as_pointer v) else None.

Definition perform_promise_then (promise : Z) (fulfill_handler reject_handler : Value) (capability : option Z)
    : M Value :=
  add_then_reaction promise (callable_object fulfill_handler) (callable_object reject_handler) capability ≫= fun _ =>
  match capability with
  | Some capability =>
      c ← load_capability capability;
      match capability_promise c with
      | Some p => mret (heap_item p)
      | None => panic
      end
  | None => mret undefined
  end.

(** ** Settle functions *)

Definition create_settle_function (f : SettleFunction) : M Z := fun w =>
  Some (Normal (world_next w),
    mkWorld (promises w) (capabilities w) (<[world_next w := f]> (settle_functions w)) (tasks w)
      (world_next w + 8)).

Definition get_argument (arguments : list Value) (i : nat) : Value := default undefined (arguments !! i).

Definition reject_builtin_function (promise : Z) (arguments : list Value) : M Value :=
  let resolution := get_argument arguments 0 in
  s ← get_promise_state promise;
  (if is_pending s then reject_promise promise resolution else mret tt) ≫= fun _ => mret undefined.

Definition resolve_builtin_function (promise : Z) (arguments : list Value) : M Value :=
  let resolution := get_argument arguments 0 in
  resolve promise resolution ≫= fun _ => mret undefined.

(** Calls dispatch to the settle functions or run JavaScript code. *)
Definition call_object (function this_value : Value) (arguments : list Value) : M Value := fun w =>
  match settle_functions w !! as_pointer function with
  | Some (ResolveFunction promise) => resolve_builtin_function promise arguments w
  | Some (RejectFunction promise) => reject_builtin_function promise arguments w
  | None => user_call function this_value arguments w
  end.

Definition execute_then (executor this_value : Value) (promise : Z) : M Value :=
  resolve_function ← create_settle_function (ResolveFunction promise);
  reject_function ← create_settle_function (RejectFunction promise);
  set_already_resolved promise false ≫= fun _ =>
  completion ← completion_value
    (call_object executor this_value [heap_item resolve_function; heap_item reject_function]);
  match completion with
  | Throw error =>
      call_object (heap_item reject_function) undefined [error] ≫= fun _ => mret (heap_item promise)
  | Normal _ => mret (heap_item promise)
  end.

(** ** Running tasks *)

(** [call] of a value that is no pointer throws, outside of this model. *)
Definition execute_callback_1 (func arg : Value) : M unit :=
  (if is_pointer func then call_object func undefined [arg] else user_call func undefined [arg])
  ≫= fun _ => mret tt.

Definition execute_then_reaction (kind : PromiseReactionKind) (handler capability : option Z) (result : Value)
    : M unit :=
  let handler_result :=
    match handler with
    | Some handler => call_object (heap_item handler) undefined [result]
    | None => match kind with Fulfill => mret result | Reject => throw result end
    end in
  match capability with
  | Some capability =>
      completion ← completion_value handler_result;
      c ← load_capability capability;
      match completion with
      | Normal handler_result => call_object (capability_resolve c) undefined [handler_result] ≫= fun _ => mret tt
      | Throw error => call_object (capability_reject c) undefined [error] ≫= fun _ => mret tt
      end
  | None =>
      completion ← completion_value handler_result;
      match completion with
      | Normal _ => mret tt
      | Throw _ => if debug_assertions then panic else mret tt
      end
  end.

Definition execute_task (task : Task) : M unit :=
  match task with
  | Callback1Task func arg => execute_callback_1 func arg
  | AwaitResumeTask kind generator result => resume_generator generator result kind
  | PromiseThenReactionTask kind handler capability result _ => execute_then_reaction kind handler capability result
  | PromiseThenSettleTask then_function resolution promise _ =>
      execute_then (heap_item then_function) (heap_item resolution) promise ≫= fun _ => mret tt
  end.

(** [run_all_tasks]: the first error ends the loop.  The tasks that were started are returned for
    the statements about it. *)
Inductive RunResult : Type :=
| Finished (completion : Completion unit) (w : World)
| RunPanicked
| StillRunning (w : World).

Fixpoint run_all_tasks (fuel : nat) (w : World) : RunResult * list Task :=
  match fuel with
  | O => (StillRunning w, [])
  | S fuel =>
      match pop_front w with
      | Some (Normal None, w) => (Finished (Normal tt) w, [])
      | Some (Normal (Some task), w) =>
          match execute_task task w with
          | Some (Normal _, w) => let '(r, started) := run_all_tasks fuel w in (r, task :: started)
          | Some (Throw e, w) => (Finished (Throw e) w, [task])
          | None => (RunPanicked, [task])
          end
      | _ => (RunPanicked, [])
      end
  end.

(** The end of [run_module]: the promise of the module must be settled by then. *)
Definition module_result (promise : Z) : M Value :=
  s ← get_promise_state promise;
  match rejected_value s with
  | Some value => throw value
  | None =>
      match fulfilled_value s with
      | Some value => mret value
      | None => panic
      end
  end.

End Promises.
