(* ===== verification/PromiseCorrect.v ===== *)
(** Promises settle once, every reaction of a settled promise runs, in the order of registration,
    and nothing panics but the code that is called.

    A configuration is a world with the promises whose resolution is between the check of
    [already_resolved] and its end, while JavaScript code reads [then].  [pstep] is one operation
    that JavaScript code can cause, or the start of a task, labelled with the tasks it enqueues, each
    with the promise it is a reaction of, the reactions it registers, and the task it starts. *)
From S2P Require Import Prelude Float64 Value ValueCorrect Descriptors TypeUtilities Promise.

#[local] Arguments same_value : simpl never.

(** ** Effects of the operations *)

Lemma elem_of_rev {A} (x : A) l : x ∈ rev l <-> x ∈ l.
Proof. rewrite !list_elem_of_In. symmetry. apply in_rev. Qed.

Definition with_tasks (w : World) (l : list Task) : World :=
  mkWorld (promises w) (capabilities w) (settle_functions w) l (world_next w).

Section correct.
Context (get_function_realm_no_error : Z -> option Z) (current_realm : Z).

(** The task for one reaction. *)
Definition reaction_task (kind : PromiseReactionKind) (value : Value) (reaction : ReactionHandler) : Task :=
  match reaction with
  | AwaitResume g => AwaitResumeTask kind g value
  | Then f r capability =>
      let handler := match kind with Fulfill => f | Reject => r end in
      PromiseThenReactionTask kind handler capability value
        ((fun h => default current_realm (get_function_realm_no_error h)) <$> handler)
  end.

Lemma enqueue_reaction_spec kind v r w :
  enqueue_reaction get_function_realm_no_error current_realm kind v r w =
  Some (Normal tt, with_tasks w (tasks w ++ [reaction_task kind v r])).
Proof.
  destruct r as [g|f rj c]; [done|]. cbn. unfold enqueue_promise_then_reaction_task, enqueue, with_tasks.
  do 3 f_equal. destruct kind; cbn; [destruct f as [x|]|destruct rj as [x|]]; cbn; try done;
    by destruct (get_function_realm_no_error x).
Qed.

Lemma enqueue_all_spec kind v rs w :
  enqueue_all get_function_realm_no_error current_realm kind v rs w =
  Some (Normal tt, with_tasks w (tasks w ++ map (reaction_task kind v) rs)).
Proof.
  revert w. induction rs as [|r rs IH]; intros w; cbn [enqueue_all map].
  - rewrite app_nil_r. by destruct w.
  - unfold mbind, M_bind. rewrite enqueue_reaction_spec, IH. cbn. by rewrite <-app_assoc.
Qed.

Definition settled_as (kind : PromiseReactionKind) (v : Value) : PromiseState :=
  match kind with Fulfill => Fulfilled v | Reject => Rejected v end.
Definition settle_promise (kind : PromiseReactionKind) : Z -> Value -> M unit :=
  match kind with
  | Fulfill => fulfill_promise get_function_realm_no_error current_realm
  | Reject => reject_promise get_function_realm_no_error current_realm
  end.

(** Settling enqueues the reactions, the oldest first. *)
Lemma settle_promise_spec kind p v w rs b :
  promises w !! p = Some (Pending rs b) ->
  settle_promise kind p v w =
  Some (Normal tt, set_promise p (settled_as kind v) (with_tasks w (tasks w ++ map (reaction_task kind v) (rev rs)))).
Proof.
  intros Hp. destruct kind; cbn; unfold fulfill_promise, reject_promise, enqueue_tasks_for_reactions, mbind, M_bind, get_promise_state;
    rewrite Hp, enqueue_all_spec; done.
Qed.

(** ** Steps *)

Definition config : Type := World * list Z.

Definition settle_target (f : SettleFunction) : Z :=
  match f with ResolveFunction p | RejectFunction p => p end.

Definition reaction_capability (r : ReactionHandler) : option Z :=
  match r with AwaitResume _ => None | Then _ _ c => c end.

Definition is_settle_task (t : Task) : option Z :=
  match t with PromiseThenSettleTask _ _ p _ => Some p | _ => None end.

Definition capability_ok (w : World) (c : option Z) : Prop :=
  forall a, c = Some a -> is_Some (capabilities w !! a).

(** Tasks enqueued for the reactions of a promise. *)
Definition from (p : Z) (l : list Task) : list (option Z * Task) := map (pair (Some p)) l.

Inductive pstep : config -> list (option Z * Task) -> list (Z * ReactionHandler) -> list Task -> config -> Prop :=
| ps_new w act p w' :
    new_pending w = Some (Normal p, w') -> pstep (w, act) [] [] [] (w', act)
| ps_function w act f a w' :
    is_Some (promises w !! settle_target f) -> create_settle_function f w = Some (Normal a, w') ->
    pstep (w, act) [] [] [] (w', act)
| ps_capabilities w act caps next :
    dom (capabilities w) ⊆ dom caps -> world_next w <= next ->
    pstep (w, act) [] [] [] (mkWorld (promises w) caps (settle_functions w) (tasks w) next, act)
| ps_callback w act func arg w' :
    enqueue_callback_1_task func arg w = Some (Normal tt, w') ->
    pstep (w, act) [(None, Callback1Task func arg)] [] [] (w', act)
| ps_react w act p s r w' :
    promises w !! p = Some s -> capability_ok w (reaction_capability r) ->
    add_reaction get_function_realm_no_error current_realm p r w = Some (Normal tt, w') ->
    pstep (w, act)
      (from p match s with Pending _ _ => [] | Fulfilled v => [reaction_task Fulfill v r] | Rejected v => [reaction_task Reject v r] end)
      [(p, r)] [] (w', act)
| ps_reject w act p rs v w' :
    promises w !! p = Some (Pending rs false) -> settle_promise Reject p v w = Some (Normal tt, w') ->
    pstep (w, act) (from p (map (reaction_task Reject v) (rev rs))) [] [] (w', act)
| ps_begin w act p w' :
    mark_resolved p w = Some (Normal true, w') -> pstep (w, act) [] [] [] (w', p :: act)
| ps_settle w act p kind v rs b w' :
    promises w !! p = Some (Pending rs b) -> settle_promise kind p v w = Some (Normal tt, w') ->
    pstep (w, p :: act) (from p (map (reaction_task kind v) (rev rs))) [] [] (w', act)
| ps_then w act p f r realm w' :
    enqueue (PromiseThenSettleTask f r p realm) w = Some (Normal tt, w') ->
    pstep (w, p :: act) [(None, PromiseThenSettleTask f r p realm)] [] [] (w', act)
| ps_task w t rest :
    tasks w = t :: rest -> is_settle_task t = None -> pstep (w, []) [] [] [t] (with_tasks w rest, [])
| ps_start w t p rest w' :
    tasks w = t :: rest -> is_settle_task t = Some p ->
    set_already_resolved p false (with_tasks w rest) = Some (Normal tt, w') ->
    pstep (w, []) [] [] [t] (w', []).

(** Sequences of steps, with everything enqueued, registered and started on the way. *)
Inductive prun : config -> list (option Z * Task) -> list (Z * ReactionHandler) -> list Task -> config -> Prop :=
| prun_refl c : prun c [] [] [] c
| prun_step c em rg ex c1 em' rg' ex' c' :
    pstep c em rg ex c1 -> prun c1 em' rg' ex' c' -> prun c (em ++ em') (rg ++ rg') (ex ++ ex') c'.

Lemma prun_one c em rg ex c' : pstep c em rg ex c' -> prun c em rg ex c'.
Proof.
  intros H. rewrite <-(app_nil_r em), <-(app_nil_r rg), <-(app_nil_r ex). econstructor; [done|constructor].
Qed.

Lemma prun_trans c em rg ex c1 em' rg' ex' c' :
  prun c em rg ex c1 -> prun c1 em' rg' ex' c' -> prun c (em ++ em') (rg ++ rg') (ex ++ ex') c'.
Proof.
  induction 1 as [|c em1 rg1 ex1 c2 em2 rg2 ex2 c3 Hs _ IH]; [done|]. intros H. rewrite <-!app_assoc.
  econstructor; [done|]. auto.
Qed.

(** ** The invariant *)

(** Promises that wait for a settle task. *)
Definition settle_promises (l : list Task) : list Z := omap is_settle_task l.

Definition task_capability (t : Task) : option Z :=
  match t with PromiseThenReactionTask _ _ c _ _ => c | _ => None end.

Definition state_reactions (s : PromiseState) : list ReactionHandler :=
  match s with Pending rs _ => rs | _ => [] end.

Record world_ok (c : config) : Prop := {
  wo_resolving : forall p, p ∈ c.2 ++ settle_promises (tasks c.1) ->
    exists rs, promises c.1 !! p = Some (Pending rs true);
  wo_once : NoDup (c.2 ++ settle_promises (tasks c.1));
  wo_functions : forall a f, settle_functions c.1 !! a = Some f -> is_Some (promises c.1 !! settle_target f);
  wo_tasks : forall t, t ∈ tasks c.1 -> capability_ok c.1 (task_capability t);
  wo_reactions : forall p s r, promises c.1 !! p = Some s -> r ∈ state_reactions s ->
    capability_ok c.1 (reaction_capability r);
  wo_fresh : forall p, is_Some (promises c.1 !! p) -> p < world_next c.1
}.

Lemma settle_promises_app l l' : settle_promises (l ++ l') = settle_promises l ++ settle_promises l'.
Proof. apply omap_app. Qed.

Lemma reaction_tasks_settle kind v rs : settle_promises (map (reaction_task kind v) rs) = [].
Proof. induction rs as [|[]]; done. Qed.

Lemma reaction_task_capability kind v r : task_capability (reaction_task kind v r) = reaction_capability r.
Proof. by destruct r. Qed.

(** Changing one promise and the queue. *)
Lemma world_ok_set w act act' p s l :
  world_ok (w, act) -> is_Some (promises w !! p) ->
  (forall q, q ∈ act' ++ settle_promises l -> q <> p -> q ∈ act ++ settle_promises (tasks w)) ->
  (p ∈ act' ++ settle_promises l -> exists rs, s = Pending rs true) ->
  NoDup (act' ++ settle_promises l) ->
  (forall t, t ∈ l -> t ∈ tasks w \/ capability_ok w (task_capability t)) ->
  (forall r, r ∈ state_reactions s -> capability_ok w (reaction_capability r)) ->
  world_ok (set_promise p s (with_tasks w l), act').
Proof.
  intros [Hr Ho Hf Ht Hre Hfr] Hp Hq Hps Hnd Hl Hs. split; cbn in *.
  - intros q Hin. destruct (decide (q = p)) as [->|Hne].
    + rewrite lookup_insert_eq. destruct (Hps Hin) as [rs ->]. by exists rs.
    + rewrite lookup_insert_ne by congruence. auto.
  - done.
  - intros a f Ha. rewrite lookup_insert. case_decide; [by eexists|]. by apply (Hf a).
  - intros t Hin. destruct (Hl t Hin) as [Hin'|Hc]; [|done]. by apply (Ht t).
  - intros q s' r. rewrite lookup_insert. case_decide; [intros [= <-]; apply Hs|apply Hre].
  - intros q. rewrite lookup_insert. case_decide; [subst; intros _; by apply Hfr|apply Hfr].
Qed.

Lemma set_promise_id w p s : promises w !! p = Some s -> set_promise p s w = w.
Proof. intros H. destruct w. cbn in *. unfold set_promise. cbn. by rewrite insert_id. Qed.

Lemma with_tasks_id w : with_tasks w (tasks w) = w.
Proof. by destruct w. Qed.

Lemma reaction_tasks_capability w kind v rs l :
  (forall r, r ∈ rs -> capability_ok w (reaction_capability r)) ->
  forall t, t ∈ l ++ map (reaction_task kind v) rs -> t ∈ l \/ capability_ok w (task_capability t).
Proof.
  intros H t [Ht|Ht]%elem_of_app; [by left|right]. apply list_elem_of_fmap in Ht as (r & -> & Hr).
  rewrite reaction_task_capability. auto.
Qed.

(** A promise that is not being resolved. *)
Lemma not_resolving c p s : world_ok c -> promises c.1 !! p = Some s -> (forall rs, s <> Pending rs true) ->
  p ∉ c.2 ++ settle_promises (tasks c.1).
Proof. intros Hw Hp Hs Hin. destruct (wo_resolving c Hw p Hin) as [rs Hrs]. rewrite Hp in Hrs. by injection Hrs as ->; eapply Hs. Qed.

Lemma settle_step_ok w act act' p kind v rs b w' :
  world_ok (w, act) -> promises w !! p = Some (Pending rs b) -> settle_promise kind p v w = Some (Normal tt, w') ->
  (forall q, q ∈ act' -> q ∈ act) -> NoDup (act' ++ settle_promises (tasks w)) ->
  p ∉ act' ++ settle_promises (tasks w) ->
  world_ok (w', act').
Proof.
  intros Hw Hp E Hsub Hnd Hnp. rewrite (settle_promise_spec kind p v w rs b Hp) in E. injection E as <-.
  assert (Hsp : settle_promises (tasks w ++ map (reaction_task kind v) (rev rs)) = settle_promises (tasks w))
    by by rewrite settle_promises_app, reaction_tasks_settle, app_nil_r.
  apply (world_ok_set w act); rewrite ?Hsp; try done.
  - intros q Hq _. rewrite elem_of_app in *. naive_solver.
  - apply reaction_tasks_capability. intros r Hr. rewrite elem_of_rev in Hr. by apply (wo_reactions _ Hw p (Pending rs b)).
  - destruct kind; cbn; by intros r ?%elem_of_nil.
Qed.

Lemma enqueue_settled_ok w act p kind v r w' :
  world_ok (w, act) -> promises w !! p = Some (settled_as kind v) -> capability_ok w (reaction_capability r) ->
  enqueue_reaction get_function_realm_no_error current_realm kind v r w = Some (Normal tt, w') -> world_ok (w', act).
Proof.
  intros Hw Hp Hc E. rewrite enqueue_reaction_spec in E. injection E as <-.
  rewrite <-(set_promise_id (with_tasks w _) p (settled_as kind v)) by done.
  assert (Hsp : settle_promises (tasks w ++ [reaction_task kind v r]) = settle_promises (tasks w)).
  { rewrite settle_promises_app. pose proof (reaction_tasks_settle kind v [r]) as Hs. cbn [map] in Hs. by rewrite Hs, app_nil_r. }
  apply (world_ok_set w act); rewrite ?Hsp; try done.
  - intros Hin. exfalso. apply (not_resolving (w, act) p (settled_as kind v) Hw Hp); [by destruct kind|done].
  - apply Hw.
  - apply (reaction_tasks_capability w kind v [r]). intros r' Hr'%list_elem_of_singleton. by subst r'.
  - destruct kind; cbn; by intros r' ?%elem_of_nil.
Qed.

Lemma pstep_ok c em rg ex c' : world_ok c -> pstep c em rg ex c' -> world_ok c'.
Proof.
  intros Hw Hstep. destruct Hstep as [w act p w' E|w act f a w' Hp E|w act caps next Hcaps Hn|w act func arg w' E
    |w act p s r w' Hp Hc E|w act p rs v w' Hp E|w act p w' E|w act p kind v rs b w' Hp E|w act p f r realm w' E
    |w t rest Et Hst|w t p rest w' Et Hst E].
  - injection E as <- <-. destruct Hw as [Hr Ho Hf Ht Hre Hfr]. cbn in *.
    assert (Hfresh : promises w !! world_next w = None).
    { apply eq_None_not_Some. intros H%Hfr. cbn in H. lia. }
    split; cbn; try done.
    + intros q Hq. destruct (Hr q Hq) as [rs Hrs]. exists rs. rewrite lookup_insert_ne; [done|congruence].
    + intros a f Ha. rewrite lookup_insert. case_decide; [by eexists|]. by apply (Hf a).
    + intros q s r. rewrite lookup_insert. case_decide; [intros [= <-] Hin; by apply elem_of_nil in Hin|apply Hre].
    + intros q. rewrite lookup_insert. case_decide; [lia|]. intros Hq%Hfr. lia.
  - injection E as <- <-. destruct Hw as [Hr Ho Hf Ht Hre Hfr]. cbn in *. split; cbn; try done.
    + intros b g. rewrite lookup_insert. case_decide; [by intros [= <-]|apply Hf].
    + intros q Hq. specialize (Hfr q Hq). lia.
  - destruct Hw as [Hr Ho Hf Ht Hre Hfr]. cbn in *.
    assert (Hcap : forall o, capability_ok w o -> capability_ok (mkWorld (promises w) caps (settle_functions w) (tasks w) next) o).
    { intros o H a Ha. specialize (H a Ha). apply elem_of_dom in H. apply elem_of_dom. cbn. set_solver. }
    split; cbn; try done; eauto. intros q Hq. specialize (Hfr q Hq). lia.
  - injection E as <-. destruct Hw as [Hr Ho Hf Ht Hre Hfr]. cbn in *. split; cbn; try done;
      rewrite ?settle_promises_app; cbn; rewrite ?app_nil_r; try done.
    intros t [?|Hs%list_elem_of_singleton]%elem_of_app; [by apply Ht|]. by subst t.
  - unfold add_reaction, mbind, M_bind, get_promise_state in E. rewrite Hp in E. destruct s as [rs b|x|x].
    + injection E as <-. rewrite <-(with_tasks_id w) at 1. apply (world_ok_set w act); try done.
      * intros Hin. destruct (wo_resolving _ Hw p Hin) as [rs' Hrs]. cbn in Hrs. rewrite Hp in Hrs. injection Hrs as <- ->. by eexists.
      * apply Hw.
      * auto.
      * intros r' [->|Hr]%elem_of_cons; [done|]. by apply (wo_reactions _ Hw p (Pending rs b)).
    + by apply (enqueue_settled_ok w act p Fulfill x r).
    + by apply (enqueue_settled_ok w act p Reject x r).
  - apply (settle_step_ok w act act p Reject v rs false w'); try done; [apply Hw|].
    by apply (not_resolving (w, act) p (Pending rs false) Hw Hp).
  - unfold mark_resolved, mbind, M_bind, get_promise_state in E. destruct (promises w !! p) as [s|] eqn:Hp; [|done].
    destruct s as [rs []| |]; try discriminate. injection E as <-.
    assert (Hnr : p ∉ act ++ settle_promises (tasks w)) by by apply (not_resolving (w, act) p (Pending rs false)).
    rewrite <-(with_tasks_id w) at 1. apply (world_ok_set w act); try done.
    + intros q Hq Hne. cbn in Hq. by apply elem_of_cons in Hq as [?|?].
    + intros _. by eexists.
    + cbn. constructor; [done|apply Hw].
    + auto.
    + intros r Hr. by apply (wo_reactions _ Hw p (Pending rs false)).
  - pose proof (wo_once _ Hw) as Hnd. cbn in Hnd. apply NoDup_cons in Hnd as [Hnp Hnd].
    apply (settle_step_ok w (p :: act) act p kind v rs b w'); try done. intros q Hq. by right.
  - injection E as <-. destruct (wo_resolving _ Hw p) as [rs Hp]; [by left|]. cbn in Hp.
    rewrite <-(set_promise_id _ p (Pending rs true)) by done. apply (world_ok_set w (p :: act)); try done.
    + intros q. rewrite settle_promises_app. cbn. set_solver.
    + intros _. by eexists.
    + rewrite settle_promises_app. cbn. rewrite app_assoc, <-Permutation_cons_append. apply (wo_once _ Hw).
    + intros t [?|Hs%list_elem_of_singleton]%elem_of_app; [by left|right]. by subst t.
    + intros r' Hr. by apply (wo_reactions _ Hw p (Pending rs true)).
  - destruct Hw as [Hr Ho Hf Ht Hre Hfr]. cbn in *. rewrite Et in *. unfold settle_promises in *. cbn in *.
    rewrite Hst in *. split; cbn; try done. intros t' Hin. apply Ht. by right.
  - destruct (wo_resolving _ Hw p) as [rs Hp]. { cbn. rewrite Et. cbn. rewrite Hst. by left. }
    cbn in Hp. unfold set_already_resolved, mbind, M_bind, get_promise_state in E. cbn in E. rewrite Hp in E. injection E as <-.
    pose proof (wo_once _ Hw) as Hnd. cbn in Hnd. rewrite Et in Hnd. cbn in Hnd. rewrite Hst in Hnd.
    apply NoDup_cons in Hnd as [Hnp Hnd].
    apply (world_ok_set w []); try done.
    + intros q Hq _. cbn in *. rewrite Et. cbn. rewrite Hst. by right.
    + intros t' Hin. left. rewrite Et. by right.
    + intros r' Hr. by apply (wo_reactions _ Hw p (Pending rs true)).
Qed.

Lemma prun_ok c em rg ex c' : world_ok c -> prun c em rg ex c' -> world_ok c'.
Proof. intros Hw Hr. induction Hr; [done|]. eauto using pstep_ok. Qed.

(** ** The queue and the promises along a run *)

(** The tasks enqueued for a promise, and the reactions registered on it. *)
Definition emitted (p : Z) (em : list (option Z * Task)) : list Task :=
  omap (fun x => if decide (x.1 = Some p) then Some x.2 else None) em.
Definition registered (p : Z) (rg : list (Z * ReactionHandler)) : list ReactionHandler :=
  omap (fun x => if decide (x.1 = p) then Some x.2 else None) rg.

Lemma emitted_app p em em' : emitted p (em ++ em') = emitted p em ++ emitted p em'.
Proof. apply omap_app. Qed.
Lemma registered_app p rg rg' : registered p (rg ++ rg') = registered p rg ++ registered p rg'.
Proof. apply omap_app. Qed.
Lemma emitted_from p l : emitted p (from p l) = l.
Proof. induction l as [|t l IH]; [done|]. cbn. rewrite decide_True by done. by f_equal. Qed.
Lemma emitted_from_ne p q l : q <> p -> emitted q (from p l) = [].
Proof. intros Hne. induction l as [|t l IH]; [done|]. cbn. rewrite decide_False by congruence. done. Qed.

(** What happens to a promise while the tasks [em] are enqueued and the reactions [rg] registered:
    as long as it is pending, it has the reactions registered on it, the newest first, and no task
    is enqueued for it; when it is settled, a task with its value was enqueued for each reaction it
    ever had and for no other, in the order of registration; and a settled promise stays as it is. *)
Definition accounted (p : Z) (s : option PromiseState) (em : list (option Z * Task))
    (rg : list (Z * ReactionHandler)) (s' : PromiseState) : Prop :=
  let before := from_option state_reactions [] s in
  (forall rs b, s' = Pending rs b -> rs = rev (registered p rg) ++ before /\ emitted p em = []) /\
  (forall kind v, s' = settled_as kind v ->
     emitted p em = map (reaction_task kind v) (rev before ++ registered p rg)) /\
  (forall kind v, s = Some (settled_as kind v) -> s' = settled_as kind v).

Definition tracks (p : Z) (s : option PromiseState) em rg (s' : option PromiseState) : Prop :=
  match s' with
  | Some s' => accounted p s em rg s'
  | None => s = None /\ emitted p em = [] /\ registered p rg = []
  end.

Lemma tracks_refl p s em rg : emitted p em = [] -> registered p rg = [] -> tracks p s em rg s.
Proof.
  intros He Hg. destruct s as [s|]; [|done]. split_and!; rewrite ?He, ?Hg; [|..].
  - intros rs b ->. done.
  - intros kind v ->. by destruct kind.
  - intros kind v [= ->]. done.
Qed.

Lemma state_cases s : (exists rs b, s = Pending rs b) \/ exists kind v, s = settled_as kind v.
Proof.
  destruct s as [rs b|v|v]; [left; eauto|right; by exists Fulfill, v|right; by exists Reject, v].
Qed.

Lemma settled_not_pending kind v rs b : settled_as kind v <> Pending rs b.
Proof. by destruct kind. Qed.

Lemma settled_inj kind v kind' v' : settled_as kind v = settled_as kind' v' -> kind = kind' /\ v = v'.
Proof. by destruct kind, kind'; intros [= ->]. Qed.

Lemma accounted_trans p s em rg s1 em' rg' s2 :
  accounted p s em rg s1 -> accounted p (Some s1) em' rg' s2 -> accounted p s (em ++ em') (rg ++ rg') s2.
Proof.
  intros (P1 & S1 & K1) (P2 & S2 & K2). split_and!; rewrite ?emitted_app, ?registered_app.
  - intros rs b ->. destruct (P2 rs b eq_refl) as [-> ->]. destruct (state_cases s1) as [(rs1 & b1 & ->)|(k & v & ->)].
    + destruct (P1 rs1 b1 eq_refl) as [-> ->]. cbn. by rewrite rev_app_distr, <-app_assoc.
    + specialize (K2 k v eq_refl). symmetry in K2. by apply settled_not_pending in K2.
  - intros kind v ->. rewrite (S2 kind v eq_refl). destruct (state_cases s1) as [(rs1 & b1 & ->)|(k & v' & ->)].
    + destruct (P1 rs1 b1 eq_refl) as [-> ->]. cbn. by rewrite rev_app_distr, rev_involutive, <-app_assoc.
    + specialize (K2 k v' eq_refl). apply settled_inj in K2 as [-> ->]. rewrite (S1 k v' eq_refl).
      destruct k; cbn; by rewrite <-map_app, <-app_assoc.
  - intros kind v Hs. apply K2. f_equal. by apply K1.
Qed.

Lemma tracks_trans p s em rg s1 em' rg' s2 :
  tracks p s em rg s1 -> tracks p s1 em' rg' s2 -> tracks p s (em ++ em') (rg ++ rg') s2.
Proof.
  destruct s1 as [s1|]; cbn.
  - intros H1 H2. destruct s2 as [s2|]; [by eapply accounted_trans|]. by destruct H2.
  - intros (-> & He & Hg) H2. destruct s2 as [s2|]; cbn in *.
    + unfold accounted in *. by rewrite emitted_app, registered_app, He, Hg.
    + by rewrite emitted_app, registered_app, He, Hg.
Qed.

(** One changed promise. *)
Lemma tracks_set (w : World) p em rg s' q :
  tracks p (promises w !! p) em rg (Some s') ->
  (q <> p -> emitted q em = [] /\ registered q rg = []) ->
  tracks q (promises w !! q) em rg (<[p := s']> (promises w) !! q).
Proof.
  intros Hp Hq. destruct (decide (q = p)) as [->|Hne]; [by rewrite lookup_insert_eq|].
  rewrite lookup_insert_ne by congruence. by apply tracks_refl; apply Hq.
Qed.

(** Settling, marking and adding a reaction, on the promise itself. *)
Lemma tracks_settle p rs b kind v :
  tracks p (Some (Pending rs b)) (from p (map (reaction_task kind v) (rev rs))) [] (Some (settled_as kind v)).
Proof.
  split_and!; cbn.
  - intros rs' b' E. by apply settled_not_pending in E.
  - intros kind' v' [-> ->]%settled_inj. rewrite emitted_from, app_nil_r. done.
  - intros kind' v' [= E]. by symmetry in E; apply settled_not_pending in E.
Qed.
Lemma tracks_mark p rs b b' : tracks p (Some (Pending rs b)) [] [] (Some (Pending rs b')).
Proof.
  split_and!; cbn; [by intros rs' b'' [= <- <-]|..]; intros kind v; [intros E|intros [= E]];
    symmetry in E; by apply settled_not_pending in E.
Qed.
Lemma tracks_register p rs b r :
  tracks p (Some (Pending rs b)) [] [(p, r)] (Some (Pending (r :: rs) b)).
Proof.
  split_and!; cbn; rewrite ?decide_True by done; cbn; [by intros rs' b'' [= <- <-]|..];
    intros kind v; [intros E|intros [= E]]; symmetry in E; by apply settled_not_pending in E.
Qed.
Lemma tracks_late p kind v r :
  tracks p (Some (settled_as kind v)) (from p [reaction_task kind v r]) [(p, r)] (Some (settled_as kind v)).
Proof.
  split_and!; cbn; rewrite ?decide_True by done; cbn.
  - intros rs b E. by apply settled_not_pending in E.
  - intros kind' v' [-> ->]%settled_inj. by destruct kind'.
  - by intros kind' v' [= ->].
Qed.

Lemma registered_ne p q r : q <> p -> registered q [(p, r)] = [].
Proof. intros Hne. cbn. by rewrite decide_False by congruence. Qed.

Lemma from_tasks p l : (from p l).*2 = l.
Proof. unfold from. rewrite <-list_fmap_compose. apply list_fmap_id. Qed.

Lemma pstep_effect w act em rg ex w' act' :
  world_ok (w, act) -> pstep (w, act) em rg ex (w', act') ->
  ex ++ tasks w' = tasks w ++ em.*2 /\
  (forall q, tracks q (promises w !! q) em rg (promises w' !! q)) /\
  forall c, capability_ok w c -> capability_ok w' c.
Proof.
  intros Hw Hstep.
  assert (Hother : forall p l q, q <> p -> emitted q (from p l) = [] /\ registered q [] = []).
  { intros p l q Hne. split; [by apply emitted_from_ne|done]. }
  inversion Hstep as [? ? p ? E|? ? f a ? Hp E|? ? caps next Hcaps Hn|? ? func arg ? E|? ? p s r ? Hp Hc E
    |? ? p rs v ? Hp E|? ? p ? E|? ? p kind v rs b ? Hp E|? ? p f r realm ? E|? t rest Et Hst|? t p rest ? Et Hst E]; subst.
  - injection E as <- <-. rewrite app_nil_r. split_and!; [done| |done]. intros q. cbn. apply tracks_set; [|done].
    assert (promises w !! world_next w = None) as ->.
    { apply eq_None_not_Some. intros Hf%(wo_fresh _ Hw). cbn in Hf. lia. }
    split_and!; cbn; [by intros rs b [= <- <-]|..]; intros kind v; [|done].
    intros E. symmetry in E. by apply settled_not_pending in E.
  - injection E as <- <-. rewrite app_nil_r. split_and!; [done| |done]. intros q. by apply tracks_refl.
  - rewrite app_nil_r. split_and!; [done|intros q; by apply tracks_refl|]. intros o H x Hx. specialize (H x Hx).
    apply elem_of_dom in H. apply elem_of_dom. cbn. set_solver.
  - injection E as <-. split_and!; [done| |done]. intros q. by apply tracks_refl.
  - rewrite from_tasks. unfold add_reaction, mbind, M_bind, get_promise_state in E. rewrite Hp in E.
    assert (Hne : forall l q, q <> p -> emitted q (from p l) = [] /\ registered q [(p, r)] = []).
    { intros l q Hne. split; [by apply emitted_from_ne|by apply registered_ne]. }
    assert (Hlate : forall kind v, s = settled_as kind v -> forall q,
      tracks q (promises w !! q) (from p [reaction_task kind v r]) [(p, r)] (promises w !! q)).
    { intros kind v -> q. destruct (decide (q = p)) as [->|Hq]; [rewrite Hp; apply tracks_late|].
      destruct (Hne [reaction_task kind v r] q Hq). by apply tracks_refl. }
    destruct s as [rs b|x|x].
    + injection E as <-. rewrite app_nil_r. split_and!; [done| |done]. intros q. apply (tracks_set w p); [|apply Hne].
      rewrite Hp. apply tracks_register.
    + rewrite enqueue_reaction_spec in E. injection E as <-. split_and!; [done| |done]. by apply (Hlate Fulfill).
    + rewrite enqueue_reaction_spec in E. injection E as <-. split_and!; [done| |done]. by apply (Hlate Reject).
  - rewrite (settle_promise_spec Reject p v w rs false Hp) in E. injection E as <-. rewrite from_tasks.
    split_and!; [done| |done]. intros q. apply (tracks_set w p); [|apply Hother]. rewrite Hp. apply (tracks_settle p rs false Reject).
  - unfold mark_resolved, mbind, M_bind, get_promise_state in E. destruct (promises w !! p) as [s|] eqn:Hp; [|done].
    destruct s as [rs []| |]; try discriminate. injection E as <-. rewrite app_nil_r. split_and!; [done| |done].
    intros q. apply (tracks_set w p); [|done]. rewrite Hp. apply tracks_mark.
  - rewrite (settle_promise_spec kind p v w rs b Hp) in E. injection E as <-. rewrite from_tasks.
    split_and!; [done| |done]. intros q. apply (tracks_set w p); [|apply Hother]. rewrite Hp. apply tracks_settle.
  - injection E as <-. split_and!; [done| |done]. intros q. by apply tracks_refl.
  - rewrite Et, app_nil_r. split_and!; [done| |done]. intros q. by apply tracks_refl.
  - unfold set_already_resolved, mbind, M_bind, get_promise_state in E. cbn in E.
    destruct (promises w !! p) as [s|] eqn:Hp; [|done]. destruct s as [rs b| |]; try discriminate. injection E as <-.
    rewrite Et, app_nil_r. split_and!; [done| |done]. intros q. apply (tracks_set w p); [|done]. rewrite Hp. apply tracks_mark.
Qed.

Lemma prun_effect c em rg ex c' :
  world_ok c -> prun c em rg ex c' ->
  ex ++ tasks c'.1 = tasks c.1 ++ em.*2 /\
  (forall q, tracks q (promises c.1 !! q) em rg (promises c'.1 !! q)) /\
  forall o, capability_ok c.1 o -> capability_ok c'.1 o.
Proof.
  intros Hw Hr. induction Hr as [c|[w act] em rg ex [w1 act1] em' rg' ex' [w' act'] Hs Hr IH].
  - rewrite app_nil_r. split_and!; [done| |done]. intros q. by apply tracks_refl.
  - destruct (pstep_effect w act em rg ex w1 act1 Hw Hs) as (Q1 & P1 & C1).
    destruct (IH (pstep_ok _ _ _ _ _ Hw Hs)) as (Q2 & P2 & C2). cbn in *. split_and!.
    + by rewrite fmap_app, <-app_assoc, Q2, app_assoc, Q1, <-app_assoc.
    + intros q. eapply tracks_trans; [apply P1|apply P2].
    + auto.
Qed.

Lemma prun_existing c em rg ex c' p :
  world_ok c -> prun c em rg ex c' -> is_Some (promises c.1 !! p) -> is_Some (promises c'.1 !! p).
Proof.
  intros Hw Hr [s Hs]. destruct (prun_effect _ _ _ _ _ Hw Hr) as (_ & P & _). specialize (P p). rewrite Hs in P.
  destruct (promises c'.1 !! p); [by eexists|]. by destruct P.
Qed.

(** ** Running the code *)

(** Code outside changes promises only through their operations, and does not start tasks. *)
Definition user_ok {A} (f : M A) : Prop :=
  forall w act c w', world_ok (w, act) -> f w = Some (c, w') ->
  exists em rg, prun (w, act) em rg [] (w', act).

Section run.
Context (heap : ItemHeap) (is_callable : Value -> bool) (self_resolution_error : Value)
  (get_then : Z -> M Value) (user_call : Value -> Value -> list Value -> M Value)
  (resume_generator : Z -> Value -> PromiseReactionKind -> M unit) (debug_assertions : bool)
  (Hget : forall o, user_ok (get_then o)) (Hcall : forall f this args, user_ok (user_call f this args))
  (Hresume : forall g v k, user_ok (resume_generator g v k)).

Let resolve := resolve heap is_callable get_function_realm_no_error current_realm self_resolution_error get_then.
Let call_object := call_object heap is_callable get_function_realm_no_error current_realm self_resolution_error get_then user_call.
Let execute_task := execute_task heap is_callable get_function_realm_no_error current_realm self_resolution_error get_then user_call resume_generator debug_assertions.
Let run_all_tasks := run_all_tasks heap is_callable get_function_realm_no_error current_realm self_resolution_error get_then user_call resume_generator debug_assertions.

(** The code outside panics in a world. *)
Definition call_panics (w : World) : Prop :=
  (exists o, get_then o w = None) \/ (exists f this args, user_call f this args w = None) \/
  (exists g v k, resume_generator g v k w = None).

(** It panics in a world that is reached without starting another task. *)
Definition reaches_panic (c : config) : Prop :=
  exists em rg c1, prun c em rg [] c1 /\ call_panics c1.1.

(** The debug assertion about a reaction without a capability. *)
Definition assertion_fails (t : Task) : Prop :=
  debug_assertions = true /\ task_capability t = None /\
  exists kind handler capability v realm, t = PromiseThenReactionTask kind handler capability v realm.

(** An operation returns, and its effect is a run; or it panics because the code outside does, or
    for the reason [P]. *)
Definition runs {A} (P : Prop) (m : M A) (w : World) (act : list Z) : Prop :=
  match m w with
  | Some (_, w') => exists em rg, prun (w, act) em rg [] (w', act)
  | None => reaches_panic (w, act) \/ P
  end.

Lemma reaches_panic_run c em rg c1 : prun c em rg [] c1 -> reaches_panic c1 -> reaches_panic c.
Proof.
  intros Hr (em' & rg' & c2 & Hr' & Hp). exists (em ++ em'), (rg ++ rg'), c2. split; [|done].
  exact (prun_trans _ _ _ [] _ _ _ [] _ Hr Hr').
Qed.

Lemma runs_bind {A B} P (m : M A) (f : A -> M B) w act :
  world_ok (w, act) -> runs P m w act ->
  (forall a w' em rg, m w = Some (Normal a, w') -> prun (w, act) em rg [] (w', act) -> runs P (f a) w' act) ->
  runs P (m ≫= f) w act.
Proof.
  intros Hw Hm Hf. unfold runs, mbind, M_bind in *. destruct (m w) as [[[a|e] w']|]; [|done..].
  destruct Hm as (em & rg & Hr). specialize (Hf a w' em rg eq_refl Hr).
  destruct (f a w') as [[c w2]|].
  - destruct Hf as (em2 & rg2 & Hr2). exists (em ++ em2), (rg ++ rg2).
    exact (prun_trans _ _ _ [] _ _ _ [] _ Hr Hr2).
  - destruct Hf as [Hf|Hf]; [left|by right]. by eapply reaches_panic_run.
Qed.

Lemma runs_completion {A} P (m : M A) w act : runs P m w act -> runs P (completion_value m) w act.
Proof. unfold runs, completion_value. by destruct (m w) as [[c w']|]. Qed.

Lemma runs_ret {A} P (a : A) w act : runs P (mret a) w act.
Proof. exists [], []. constructor. Qed.

Lemma runs_weaken {A} (P Q : Prop) (m : M A) w act : runs P m w act -> (P -> Q) -> runs Q m w act.
Proof. unfold runs. intros Hm HPQ. destruct (m w) as [[c w']|]; [done|]. tauto. Qed.

Lemma panics_here w act : call_panics w -> reaches_panic (w, act).
Proof. intros Hp. exists [], [], (w, act). split; [constructor|done]. Qed.

Lemma get_then_runs P o w act : world_ok (w, act) -> runs P (get_then o) w act.
Proof.
  intros Hw. unfold runs. destruct (get_then o w) as [[c w']|] eqn:E; [by eapply Hget|].
  left. apply panics_here. left. by exists o.
Qed.
Lemma user_call_runs P f this args w act : world_ok (w, act) -> runs P (user_call f this args) w act.
Proof.
  intros Hw. unfold runs. destruct (user_call f this args w) as [[c w']|] eqn:E; [by eapply Hcall|].
  left. apply panics_here. right; left. by exists f, this, args.
Qed.
Lemma resume_runs P g v k w act : world_ok (w, act) -> runs P (resume_generator g v k) w act.
Proof.
  intros Hw. unfold runs. destruct (resume_generator g v k w) as [[c w']|] eqn:E; [by eapply Hresume|].
  left. apply panics_here. right; right. by exists g, v, k.
Qed.

Lemma settle_runs w act p kind v :
  world_ok (w, p :: act) ->
  exists w' em rg, settle_promise kind p v w = Some (Normal tt, w') /\ prun (w, p :: act) em rg [] (w', act).
Proof.
  intros Hw. destruct (wo_resolving _ Hw p) as [rs Hp]; [by left|]. cbn in Hp.
  do 3 eexists. split; [by eapply settle_promise_spec|]. apply prun_one.
  eapply ps_settle; [done|by eapply settle_promise_spec].
Qed.

Lemma resolve_with_then_runs w act p resolution tc :
  world_ok (w, p :: act) ->
  exists w' em rg, resolve_with_then is_callable get_function_realm_no_error current_realm p resolution tc w = Some (Normal tt, w') /\
    prun (w, p :: act) em rg [] (w', act).
Proof.
  intros Hw. unfold resolve_with_then. destruct tc as [then_value|error]; [|by apply (settle_runs w act p Reject)].
  destruct (is_callable then_value); cbn; [|by apply (settle_runs w act p Fulfill)].
  do 3 eexists. split; [reflexivity|]. apply prun_one. eapply ps_then. reflexivity.
Qed.

Lemma mark_resolved_cases p w s :
  promises w !! p = Some s ->
  mark_resolved p w = Some (Normal false, w) \/ exists w1, mark_resolved p w = Some (Normal true, w1).
Proof.
  intros Hp. unfold mark_resolved, mbind, M_bind, get_promise_state. rewrite Hp.
  destruct s as [rs []| |]; [by left|right; by eexists|by left..].
Qed.

Lemma resolve_runs P p resolution w act :
  world_ok (w, act) -> is_Some (promises w !! p) -> runs P (resolve p resolution) w act.
Proof.
  intros Hw [s Hp]. unfold runs, resolve, Promise.resolve. unfold mbind at 1, M_bind at 1.
  destruct (mark_resolved_cases p w s Hp) as [E|[w1 E]]; rewrite E; cbn [negb].
  { exists [], []. constructor. }
  assert (Hb : pstep (w, act) [] [] [] (w1, p :: act)) by by constructor.
  pose proof (pstep_ok _ _ _ _ _ Hw Hb) as Hw1.
  assert (Hfin : forall (m : M unit) w2 em2 rg2, prun (w1, p :: act) em2 rg2 [] (w2, p :: act) ->
    (exists w' em rg, m w2 = Some (Normal tt, w') /\ prun (w2, p :: act) em rg [] (w', act)) ->
    match m w2 with Some (_, w') => exists em rg, prun (w, act) em rg [] (w', act)
    | None => reaches_panic (w, act) \/ P end).
  { intros m w2 em2 rg2 H2 (w' & em & rg & -> & Hr). exists ([] ++ (em2 ++ em)), ([] ++ (rg2 ++ rg)).
    apply (prun_step _ [] [] [] (w1, p :: act) _ _ []); [done|]. exact (prun_trans _ _ _ [] _ _ _ [] _ H2 Hr). }
  destruct (same_value heap resolution (heap_item p)).
  { apply (Hfin _ w1 [] []); [constructor|]. by apply (settle_runs w1 act p Reject). }
  destruct (is_object heap resolution); cbn [negb].
  2: { apply (Hfin _ w1 [] []); [constructor|]. by apply (settle_runs w1 act p Fulfill). }
  pose proof (get_then_runs P (as_pointer resolution) w1 (p :: act) Hw1) as Hg. unfold runs in Hg.
  unfold mbind, M_bind, completion_value. destruct (get_then (as_pointer resolution) w1) as [[tc w2]|].
  - destruct Hg as (em2 & rg2 & Hr2). apply (Hfin _ w2 em2 rg2 Hr2). apply resolve_with_then_runs. by eapply prun_ok.
  - destruct Hg as [Hg|Hg]; [left|by right]. by eapply reaches_panic_run; [apply prun_one|].
Qed.

Lemma reject_runs P p args w act :
  world_ok (w, act) -> is_Some (promises w !! p) ->
  is_Some (reject_builtin_function get_function_realm_no_error current_realm p args w) /\
  runs P (reject_builtin_function get_function_realm_no_error current_realm p args) w act.
Proof.
  intros Hw [s Hp]. unfold runs, reject_builtin_function, mbind, M_bind, get_promise_state. rewrite Hp.
  destruct s as [rs []| |]; cbn [is_pending].
  2: { pose proof (settle_promise_spec Reject p (get_argument args 0) w rs false Hp) as E. cbn [settle_promise] in E.
    rewrite E. split; [by eexists|]. do 2 eexists. apply prun_one. by eapply ps_reject. }
  all: split; [by eexists|]; exists [], []; constructor.
Qed.

Lemma call_object_runs P f this args w act : world_ok (w, act) -> runs P (call_object f this args) w act.
Proof.
  intros Hw. unfold runs, call_object, Promise.call_object.
  destruct (settle_functions w !! as_pointer f) as [[p|p]|] eqn:Ef.
  - pose proof (wo_functions _ Hw _ _ Ef) as Hp. cbn in Hp. unfold resolve_builtin_function.
    apply (runs_bind P (resolve p (get_argument args 0))); [done|by apply resolve_runs|].
    intros. apply runs_ret.
  - apply reject_runs; [done|]. exact (wo_functions _ Hw _ _ Ef).
  - by apply user_call_runs.
Qed.

Lemma load_capability_runs P a w act : is_Some (capabilities w !! a) -> runs P (load_capability a) w act.
Proof. intros [c Hc]. unfold runs, load_capability. rewrite Hc. exists [], []. constructor. Qed.

Lemma then_reaction_runs kind handler capability result realm w act :
  world_ok (w, act) -> capability_ok w capability ->
  runs (assertion_fails (PromiseThenReactionTask kind handler capability result realm))
    (execute_then_reaction heap is_callable get_function_realm_no_error current_realm self_resolution_error get_then
      user_call debug_assertions kind handler capability result) w act.
Proof.
  intros Hw Hc. unfold execute_then_reaction.
  set (handler_result := match handler with Some h => _ | None => _ end). set (P := assertion_fails _).
  assert (Hh : runs P handler_result w act).
  { unfold handler_result. destruct handler as [h|]; [by apply call_object_runs|].
    destruct kind; exists [], []; constructor. }
  destruct capability as [a|].
  - apply runs_bind; [done|by apply runs_completion|]. intros c w1 em1 rg1 _ Hr1.
    destruct (prun_effect _ _ _ _ _ Hw Hr1) as (_ & _ & Hcap). pose proof (prun_ok _ _ _ _ _ Hw Hr1) as Hw1.
    apply runs_bind; [done|apply load_capability_runs; by apply (Hcap (Some a))|]. intros cap w2 em2 rg2 _ Hr2.
    pose proof (prun_ok _ _ _ _ _ Hw1 Hr2) as Hw2.
    destruct c as [v|e]; (apply runs_bind; [done|by apply call_object_runs|]; intros; apply runs_ret).
  - apply runs_bind; [done|by apply runs_completion|]. intros [v|e] w1 em1 rg1 _ Hr1; [apply runs_ret|].
    destruct debug_assertions eqn:Ed; [|apply runs_ret]. right. split; [done|]. split; [done|]. by repeat eexists.
Qed.

(** The part of [execute_then] behind the reset of [already_resolved]. *)
Definition call_executor (executor this_value : Value) (promise resolve_function reject_function : Z) : M Value :=
  completion ← completion_value
    (call_object executor this_value [heap_item resolve_function; heap_item reject_function]);
  match completion with
  | Throw error =>
      call_object (heap_item reject_function) undefined [error] ≫= fun _ => mret (heap_item promise)
  | Normal _ => mret (heap_item promise)
  end.

Lemma call_executor_runs P e this p rf jf w act : world_ok (w, act) -> runs P (call_executor e this p rf jf) w act.
Proof.
  intros Hw. apply runs_bind; [done|by apply runs_completion, call_object_runs|]. intros c w1 em1 rg1 _ Hr1.
  pose proof (prun_ok _ _ _ _ _ Hw Hr1) as Hw1. destruct c as [v|err]; [apply runs_ret|].
  apply runs_bind; [done|by apply call_object_runs|]. intros. apply runs_ret.
Qed.

(** The world after a settle task was started: its functions exist and the promise is open again. *)
Lemma execute_then_eq e this p w rs b :
  promises w !! p = Some (Pending rs b) ->
  let rf := world_next w in let jf := world_next w + 8 in
  exists w1 w2 w3,
    set_already_resolved p false w = Some (Normal tt, w1) /\
    create_settle_function (ResolveFunction p) w1 = Some (Normal rf, w2) /\
    create_settle_function (RejectFunction p) w2 = Some (Normal jf, w3) /\
    execute_then heap is_callable get_function_realm_no_error current_realm self_resolution_error get_then user_call e this p w =
      call_executor e this p rf jf w3.
Proof.
  intros Hp. unfold execute_then, call_executor, set_already_resolved, create_settle_function.
  unfold mbind at 1, M_bind at 1, get_promise_state. rewrite Hp. do 3 eexists.
  split; [reflexivity|]. split; [reflexivity|]. split; [reflexivity|]. cbn.
  unfold mbind, M_bind, get_promise_state. cbn. rewrite Hp. reflexivity.
Qed.

(** What starting and executing the task at the front of the queue does. *)
Definition task_runs (t : Task) (rest : list Task) (w : World) : Prop :=
  match execute_task t (with_tasks w rest) with
  | Some (_, w') => exists em rg, prun (w, []) em rg [t] (w', [])
  | None => exists em rg c1, prun (w, []) em rg [t] c1 /\ (call_panics c1.1 \/ assertion_fails t)
  end.

Lemma started_runs {A} t w w1 (m : M A) :
  pstep (w, []) [] [] [t] (w1, []) -> runs (assertion_fails t) m w1 [] ->
  match m w1 with
  | Some (_, w') => exists em rg, prun (w, []) em rg [t] (w', [])
  | None => exists em rg c1, prun (w, []) em rg [t] c1 /\ (call_panics c1.1 \/ assertion_fails t)
  end.
Proof.
  intros Hs Hm. unfold runs in Hm. destruct (m w1) as [[c w']|].
  - destruct Hm as (em & rg & Hr). exists em, rg. exact (prun_step _ [] [] [t] _ em rg [] _ Hs Hr).
  - destruct Hm as [(em & rg & c1 & Hr & Hp)|Hf].
    + exists em, rg, c1. split; [exact (prun_step _ [] [] [t] _ em rg [] _ Hs Hr)|by left].
    + exists [], [], (w1, []). split; [by apply prun_one|by right].
Qed.

Lemma execute_settle_runs f r p realm rest w :
  world_ok (w, []) -> tasks w = PromiseThenSettleTask f r p realm :: rest ->
  task_runs (PromiseThenSettleTask f r p realm) rest w.
Proof.
  intros Hw Et. destruct (wo_resolving _ Hw p) as [rs Hp]; [cbn; rewrite Et; by left|]. cbn in Hp.
  destruct (execute_then_eq (heap_item f) (heap_item r) p (with_tasks w rest) rs true Hp) as (w1 & w2 & w3 & E1 & E2 & E3 & E).
  assert (Hs : pstep (w, []) [] [] [PromiseThenSettleTask f r p realm] (w1, [])) by by eapply ps_start.
  pose proof (pstep_ok _ _ _ _ _ Hw Hs) as Hw1.
  assert (Hp1 : is_Some (promises w1 !! p)).
  { apply (prun_existing (w, []) _ _ _ (w1, []) p Hw (prun_one _ _ _ _ _ Hs)). by eexists. }
  assert (Hr3 : prun (w1, []) [] [] [] (w3, [])).
  { apply (prun_step _ [] [] [] (w2, []) [] [] []); [by eapply (ps_function _ _ (ResolveFunction p))|].
    eapply prun_one, (ps_function _ _ (RejectFunction p)); [|done]. injection E2 as _ <-. exact Hp1. }
  pose proof (started_runs (PromiseThenSettleTask f r p realm) w w1
    (fun _ => (call_executor (heap_item f) (heap_item r) p (world_next w) (world_next w + 8) ≫= fun _ => mret tt) w3)) as Hgo.
  unfold task_runs, execute_task, Promise.execute_task. unfold mbind at 1, M_bind at 1. rewrite E. apply Hgo; [done|].
  pose proof (prun_ok _ _ _ _ _ Hw1 Hr3) as Hw3.
  assert (Hc : runs (assertion_fails (PromiseThenSettleTask f r p realm))
    (call_executor (heap_item f) (heap_item r) p (world_next w) (world_next w + 8) ≫= fun _ => mret tt) w3 []).
  { apply runs_bind; [done|by apply call_executor_runs|]. intros. apply runs_ret. }
  unfold runs in *. destruct ((call_executor _ _ _ _ _ ≫= _) w3) as [[c w']|].
  - destruct Hc as (em & rg & Hr). exists em, rg. exact (prun_trans _ [] [] [] _ _ _ [] _ Hr3 Hr).
  - destruct Hc as [Hc|Hc]; [left|by right]. by eapply reaches_panic_run.
Qed.

Lemma execute_task_runs t rest w : world_ok (w, []) -> tasks w = t :: rest -> task_runs t rest w.
Proof.
  intros Hw Et. destruct (is_settle_task t) as [p|] eqn:Es.
  { destruct t as [| | |f r p' realm]; try discriminate Es. by apply execute_settle_runs. }
  assert (Hs : pstep (w, []) [] [] [t] (with_tasks w rest, [])) by by apply ps_task.
  pose proof (pstep_ok _ _ _ _ _ Hw Hs) as Hw1. apply (started_runs t w _ (execute_task t) Hs).
  destruct t as [f v|k g v|k h c v realm|]; try discriminate Es.
  - apply runs_bind; [done| |intros; apply runs_ret].
    destruct (is_pointer f); [by apply call_object_runs|by apply user_call_runs].
  - by apply resume_runs.
  - apply then_reaction_runs; [done|]. apply (wo_tasks _ Hw (PromiseThenReactionTask k h c v realm)). cbn. rewrite Et. by left.
Qed.

Lemma run_all_tasks_runs fuel w :
  world_ok (w, []) ->
  let '(result, started) := run_all_tasks fuel w in
  exists em rg w' act', prun (w, []) em rg started (w', act') /\
    match result with
    | Finished c w2 => w2 = w' /\ act' = [] /\ (c = Normal tt -> tasks w' = [])
    | StillRunning w2 => w2 = w' /\ act' = [] /\ length started = fuel
    | RunPanicked => call_panics w' \/ exists t, last started = Some t /\ assertion_fails t
    end.
Proof.
  revert w. induction fuel as [|fuel IH]; intros w Hw; [exists [], [], w, []; split; [constructor|done]|].
  unfold run_all_tasks. cbn [Promise.run_all_tasks]. unfold pop_front. destruct (tasks w) as [|t rest] eqn:Et.
  { exists [], [], w, []. split; [constructor|done]. }
  pose proof (execute_task_runs t rest w Hw Et) as Ht. unfold task_runs, execute_task in Ht.
  change (mkWorld (promises w) (capabilities w) (settle_functions w) rest (world_next w)) with (with_tasks w rest).
  destruct (Promise.execute_task _ _ _ _ _ _ _ _ _ t (with_tasks w rest)) as [[[u|e] w1]|].
  - destruct Ht as (em & rg & Hr). specialize (IH w1 (prun_ok _ _ _ _ _ Hw Hr)). unfold run_all_tasks in IH.
    destruct (Promise.run_all_tasks _ _ _ _ _ _ _ _ _ fuel w1) as [res started].
    destruct IH as (em' & rg' & w' & act' & Hr' & Hm). exists (em ++ em'), (rg ++ rg'), w', act'.
    split; [exact (prun_trans _ _ _ [t] _ _ _ started _ Hr Hr')|]. destruct res; [done| |].
    + destruct Hm as [Hm|(t' & Hl & Hf)]; [by left|right]. exists t'. split; [|done]. by destruct started.
    + destruct Hm as (-> & -> & Hl). split; [done|]. split; [done|]. cbn. by f_equal.
  - destruct Ht as (em & rg & Hr). exists em, rg, w1, []. done.
  - destruct Ht as (em & rg & [w1 act1] & Hr & Hp). exists em, rg, w1, act1. split; [done|].
    destruct Hp as [Hp|Hf]; [by left|right]. by exists t.
Qed.

(** C16: Every reaction runs.  However far [run_all_tasks] gets, there is a history of operations,
    with the tasks [em] they enqueued and the reactions [rg] they registered, by which the tasks
    started so far are those at the front of the queue: a task starts after exactly the tasks that
    were queued before it.  For each promise, also one created meanwhile: a pending one has the
    reactions registered on it and no task was queued for them; for a settled one exactly one task
    with its value was queued for each reaction it had at the start and each one registered since,
    in the order of registration.  When the run returns normally the queue is empty, so all of
    these were started.  It panics only if the code that it calls does, or if debug assertions are
    on and a reaction without a capability was started. *)
Theorem reactions_of_settled_promises_run fuel w :
  world_ok (w, []) ->
  let '(result, started) := run_all_tasks fuel w in
  exists em rg w' act', prun (w, []) em rg started (w', act') /\
    started ++ tasks w' = tasks w ++ em.*2 /\
    (forall p s, promises w' !! p = Some s -> accounted p (promises w !! p) em rg s) /\
    match result with
    | Finished c w2 => w2 = w' /\ act' = [] /\ (c = Normal tt -> tasks w' = [])
    | StillRunning w2 => w2 = w' /\ act' = [] /\ length started = fuel
    | RunPanicked => call_panics w' \/ exists t, last started = Some t /\ assertion_fails t
    end.
Proof.
  intros Hw. pose proof (run_all_tasks_runs fuel w Hw) as H.
  destruct (run_all_tasks fuel w) as [result started]. destruct H as (em & rg & w' & act' & Hr & Hm).
  destruct (prun_effect _ _ _ _ _ Hw Hr) as (Hq & Hp & _). exists em, rg, w', act'. split_and!; [done..| |done].
  intros p s Hs. specialize (Hp p). cbn in Hp. by rewrite Hs in Hp.
Qed.

(** C31: In every sequence of promise operations and task starts, a settled promise keeps its state
    and value, and promises do not disappear.  Rejecting and adding a reaction to an existing
    promise return; resolving one, calling a function and running the task at the front of the
    queue panic only if the code outside (reading [then], a function that is not a settle function,
    a resumed generator) panics in a world that is reached on the way, or for the task, if debug
    assertions are on and it is a reaction without a capability. *)
Theorem promises_settle_once c em rg ex c' :
  world_ok c -> prun c em rg ex c' ->
  (forall p kind v, promises c.1 !! p = Some (settled_as kind v) -> promises c'.1 !! p = Some (settled_as kind v)) /\
  (forall p, is_Some (promises c.1 !! p) -> is_Some (promises c'.1 !! p)) /\
  (forall p, is_Some (promises c'.1 !! p) ->
     (forall v, resolve p v c'.1 = None -> reaches_panic c') /\
     (forall args, is_Some (reject_builtin_function get_function_realm_no_error current_realm p args c'.1)) /\
     forall r, is_Some (add_reaction get_function_realm_no_error current_realm p r c'.1)) /\
  (forall f this args, call_object f this args c'.1 = None -> reaches_panic c') /\
  (c'.2 = [] -> forall t rest, tasks c'.1 = t :: rest -> execute_task t (with_tasks c'.1 rest) = None ->
     exists em rg c1, prun c' em rg [t] c1 /\ (call_panics c1.1 \/ assertion_fails t)).
Proof.
  intros Hw Hr. destruct (prun_effect _ _ _ _ _ Hw Hr) as (_ & Hp & _). pose proof (prun_ok _ _ _ _ _ Hw Hr) as Hw'.
  assert (Hfalse : forall A (m : M A), runs False m c'.1 c'.2 -> m c'.1 = None -> reaches_panic c').
  { intros A m Hm E. unfold runs in Hm. rewrite E in Hm. destruct c'. by destruct Hm as [Hm|[]]. }
  split_and!.
  - intros p kind v Hs. specialize (Hp p). rewrite Hs in Hp. destruct (promises c'.1 !! p) as [s'|]; [|by destruct Hp].
    destruct Hp as (_ & _ & Hk). by rewrite (Hk kind v eq_refl).
  - intros p. by apply (prun_existing c em rg ex c').
  - destruct c' as [w' act']. cbn in *. intros p Hex. split_and!.
    + intros v. by apply Hfalse, resolve_runs.
    + intros args. by apply (reject_runs False p args w' act' Hw').
    + intros r. destruct Hex as [s Hs]. unfold add_reaction, mbind, M_bind, get_promise_state. rewrite Hs.
      destruct s; [by eexists|rewrite enqueue_reaction_spec; by eexists..].
  - destruct c' as [w' act']. intros f this args. by apply Hfalse, call_object_runs.
  - destruct c' as [w' act']. cbn in *. intros -> t rest Et E.
    pose proof (execute_task_runs t rest w' Hw' Et) as Ht. unfold task_runs in Ht. by rewrite E in Ht.
Qed.

(** ** Stale settle functions *)

Lemma call_resolve_function f p v w :
  settle_functions w !! f = Some (ResolveFunction p) -> as_pointer (heap_item f) = f ->
  call_object (heap_item f) undefined [v] w = (resolve p v ≫= fun _ => mret undefined) w.
Proof. intros Hf Ef. unfold call_object, Promise.call_object. by rewrite Ef, Hf. Qed.


End run.
End correct.

(** ** An example *)

(** A thenable at 1000 whose [then] is the closure at 2000, and JavaScript code without effects. *)
Definition promise_items : ItemHeap :=
  mkItemHeap (fun a => if a =? 2000 then Kind.Closure else Kind.OrdinaryObject) (fun _ => []) (fun _ => 0) (fun _ => 0).
Definition callable_2000 (v : Value) : bool := is_pointer v && (as_pointer v =? 2000).
Definition realm_of (_ : Z) : option Z := None.
Definition read_then (_ : Z) : M Value := mret (heap_item 2000).
Definition idle_call (_ _ : Value) (_ : list Value) : M Value := mret undefined.
Definition idle_resume (_ : Z) (_ : Value) (_ : PromiseReactionKind) : M unit := mret tt.

(** One promise with two reactions and its resolve function at 8. *)
Definition promise_world : World :=
  mkWorld {[16 := Pending [Then (Some 2000) None None; AwaitResume 24] false]} ∅ {[8 := ResolveFunction 16]} [] 4000.

Lemma idle_ok {A} (a : A) : user_ok realm_of 0 (mret a : M A).
Proof. intros w act c w' _ [= <- <-]. exists [], []. constructor. Qed.

Lemma promise_world_ok : world_ok (promise_world, []).
Proof.
  split; cbn.
  - by intros p ?%elem_of_nil.
  - constructor.
  - intros a f Hf. apply lookup_singleton_Some in Hf as [<- <-]. by eexists.
  - by intros t ?%elem_of_nil.
  - intros p s r Hp Hr. apply lookup_singleton_Some in Hp as [<- <-]. cbn in Hr. intros a Ha.
    repeat (apply elem_of_cons in Hr as [->|Hr]; [done|]). by apply elem_of_nil in Hr.
  - intros p [s Hp]. by apply lookup_singleton_Some in Hp as [<- _].
Qed.

(** The world after the resolve function was called. *)
Definition resolved_with (v : Value) : World :=
  match call_object promise_items callable_2000 realm_of 0 undefined read_then idle_call (heap_item 8) undefined [v] promise_world with
  | Some (_, w) => w
  | None => promise_world
  end.
(** The promise is fulfilled, and both reactions wait in the queue. *)
Definition fulfilled_world : World := resolved_with (smi 7).

Lemma fulfilled_world_ok : world_ok (fulfilled_world, []).
Proof.
  pose proof (call_object_runs realm_of 0 promise_items callable_2000 undefined read_then idle_call idle_resume
    (fun o => idle_ok (heap_item 2000)) (fun f t a => idle_ok undefined) False (heap_item 8) undefined [smi 7]
    promise_world [] promise_world_ok) as Hc.
  unfold runs in Hc. unfold fulfilled_world, resolved_with. destruct (call_object _ _ _ _ _ _ _ _ _ _ _) as [[c w]|].
  - destruct Hc as (em & rg & Hr). exact (prun_ok realm_of 0 _ _ _ _ _ promise_world_ok Hr).
  - exact promise_world_ok.
Qed.

Definition run_example (fuel : nat) (w : World) : RunResult * list Task :=
  run_all_tasks promise_items callable_2000 realm_of 0 undefined read_then idle_call idle_resume true fuel w.

Lemma reactions_of_settled_promises_run_witness :
  let '(result, started) := run_example 5 fulfilled_world in
  exists em rg w' act', prun realm_of 0 (fulfilled_world, []) em rg started (w', act') /\
    started ++ tasks w' = tasks fulfilled_world ++ em.*2 /\
    (forall p s, promises w' !! p = Some s -> accounted realm_of 0 p (promises fulfilled_world !! p) em rg s) /\
    match result with
    | Finished c w2 => w2 = w' /\ act' = [] /\ (c = Normal tt -> tasks w' = [])
    | StillRunning w2 => w2 = w' /\ act' = [] /\ length started = 5%nat
    | RunPanicked => call_panics read_then idle_call idle_resume w' \/
        exists t, last started = Some t /\ assertion_fails true t
    end.
Proof.
  exact (reactions_of_settled_promises_run realm_of 0 promise_items callable_2000 undefined read_then idle_call idle_resume true
    (fun o => idle_ok (heap_item 2000)) (fun f t a => idle_ok undefined) (fun g v k => idle_ok tt) 5 fulfilled_world fulfilled_world_ok).
Defined.

Example started_tasks :
  (run_example 5 fulfilled_world).2 =
  [AwaitResumeTask Fulfill 24 (smi 7); PromiseThenReactionTask Fulfill (Some 2000) None (smi 7) (Some 0)].
Proof. by vm_compute. Qed.

(** The promise is still fulfilled when both tasks have run. *)
Lemma promises_settle_once_witness : exists w,
  (run_example 5 fulfilled_world).1 = Finished (Normal tt) w /\ promises w !! 16 = Some (Fulfilled (smi 7)).
Proof.
  pose proof (run_all_tasks_runs realm_of 0 promise_items callable_2000 undefined read_then idle_call idle_resume true
    (fun o => idle_ok (heap_item 2000)) (fun f t a => idle_ok undefined) (fun g v k => idle_ok tt) 5 fulfilled_world
    fulfilled_world_ok) as H.
  unfold run_example. destruct (run_all_tasks _ _ _ _ _ _ _ _ _ 5 fulfilled_world) as [result started] eqn:E.
  destruct H as (em & rg & w' & act' & Hr & Hm).
  destruct (promises_settle_once realm_of 0 promise_items callable_2000 undefined read_then idle_call idle_resume true
    (fun o => idle_ok (heap_item 2000)) (fun f t a => idle_ok undefined) (fun g v k => idle_ok tt)
    (fulfilled_world, []) em rg started (w', act') fulfilled_world_ok Hr) as (Hk & _).
  destruct result as [c w2| |]; vm_compute in E; try discriminate E. exists w2.
  destruct Hm as (-> & _ & _). split; [|apply (Hk 16 Fulfill); reflexivity].
  injection E as <- _ _. reflexivity.
Defined.

