(* ===== verification/ArraySort.v ===== *)
(** Sorting: [merge_sort], [sort_indexed_properties], [compare_array_elements] and
    [Array.prototype.sort] of [src/so2js/runtime/intrinsics/array_prototype.rs], and
    [compare_typed_array_elements] of [typed_array_prototype.rs].

    Comparison functions, property accesses and string conversions run JavaScript code: they are
    parameters that return a result and the new world [W].  The indices of the merge loops are the
    remaining suffixes of the two halves. *)

From Stdlib Require Import Sorting.Sorted.
From S2P Require Import Prelude Float64 Value ValueCorrect Descriptors TypeUtilities.

(** ** Results with a world *)

Definition SM (W A : Type) : Type := W -> EvalResult A * W.

#[export] Instance SM_ret {W} : MRet (SM W) := fun A a w => (EOk a, w).
#[export] Instance SM_bind {W} : MBind (SM W) := fun A B k m w =>
  match m w with
  | (EOk a, w) => k a w
  | (EErr e, w) => (EErr e, w)
  | (EPanic, w) => (EPanic, w)
  | (EFault, w) => (EFault, w)
  | (EOutOfFuel, w) => (EOutOfFuel, w)
  end.

Definition lift_result {W A} (r : EvalResult A) : SM W A := fun w => (r, w).

(** ** Merge sort *)

Section merge_sort.
Context {W : Type} (f : Value -> Value -> SM W comparison).

Definition is_gt (c : comparison) : bool := match c with Gt => true | _ => false end.

(** The three loops that merge the sorted halves. *)
Fixpoint merge (first second : list Value) {struct first} : SM W (list Value) :=
  match first with
  | [] => mret second
  | v1 :: rest1 =>
      (fix merge_second (second : list Value) : SM W (list Value) :=
         match second with
         | [] => mret first
         | v2 :: rest2 =>
             ordering ← f v1 v2;
             if is_gt ordering then result ← merge_second rest2; mret (v2 :: result)
             else result ← merge rest1 second; mret (v1 :: result)
         end) second
  end.

Fixpoint merge_sort_fuel (fuel : nat) (items : list Value) : SM W (list Value) :=
  match fuel with
  | O => fun w => (EOutOfFuel, w)
  | S fuel =>
      if (length items <=? 1)%nat then mret items
      else
        let half := (length items / 2)%nat in
        merged_first_half ← merge_sort_fuel fuel (take half items);
        merged_second_half ← merge_sort_fuel fuel (drop half items);
        merge merged_first_half merged_second_half
  end.

(** Each half is shorter than the list, so this fuel is enough. *)
Definition merge_sort (items : list Value) : SM W (list Value) := merge_sort_fuel (S (length items)) items.

End merge_sort.

(** ** Comparing elements *)

Section compare.
Context {W : Type}.
Variable heap : ItemHeap.
Variable convert_object : Value -> ToPrimitivePreferredType -> EvalResult Value.
Variable parse_string_to_number : list Z -> option f64.
Variable parse_string_to_bigint : list Z -> option Z.
Variable f64_to_bigint : f64 -> option Z.
Variable call_object : Value -> Value -> list Value -> SM W Value.
Variable to_string : Value -> SM W Value.

(** The sign of the result of a comparison function. *)
Definition call_compare_function (compare_function v1 v2 : Value) : SM W comparison :=
  result_value ← call_object compare_function undefined [v1; v2];
  if is_nan result_value then mret Eq
  else
    result_number ← lift_result (to_number heap convert_object parse_string_to_number result_value);
    let result_number := as_number result_number in
    if f64_eq result_number 0 then mret Eq
    else if f64_lt result_number 0 then mret Lt
    else mret Gt.

Definition compare_array_elements (compare_function v1 v2 : Value) : SM W comparison :=
  if is_undefined v1 && is_undefined v2 then mret Eq
  else if is_undefined v1 then mret Gt
  else if is_undefined v2 then mret Lt
  else if negb (is_undefined compare_function) then call_compare_function compare_function v1 v2
  else
    v1_string ← to_string v1;
    v2_string ← to_string v2;
    lt ← lift_result (is_less_than heap convert_object parse_string_to_number parse_string_to_bigint f64_to_bigint v1_string v2_string);
    if is_true lt then mret Lt
    else
      gt ← lift_result (is_less_than heap convert_object parse_string_to_number parse_string_to_bigint f64_to_bigint v2_string v1_string);
      if is_true gt then mret Gt else mret Eq.

(** BigInts have one zero; the comparison of their signs never applies. *)
Definition compare_typed_array_elements (compare_function v1 v2 : Value) : SM W comparison :=
  if negb (is_undefined compare_function) then call_compare_function compare_function v1 v2
  else if is_nan v1 && is_nan v2 then mret Eq
  else if is_nan v1 then mret Gt
  else if is_nan v2 then mret Lt
  else if is_bigint heap v1 then
    if bigint heap v1 <? bigint heap v2 then mret Lt
    else if bigint heap v2 <? bigint heap v1 then mret Gt
    else mret Eq
  else
    let v1_number := as_number v1 in
    let v2_number := as_number v2 in
    if f64_lt v1_number v2_number then mret Lt
    else if f64_lt v2_number v1_number then mret Gt
    else if f64_eq v1_number 0 && f64_eq v2_number 0 then
      if f64_sign v1_number && f64_sign v2_number then mret Lt
      else if negb (f64_sign v1_number) && f64_sign v2_number then mret Gt
      else mret Eq
    else mret Eq.

(** ** Sorting an object *)

Variable has_property : Z -> SM W bool.      (* of the sorted object, by index *)
Variable get : Z -> SM W Value.
Variable set : Z -> Value -> SM W unit.
Variable delete_property_or_throw : Z -> SM W unit.

(** The values of the indices from [i] on. *)
Fixpoint gather_values (ignore_holes : bool) (n : nat) (i : Z) : SM W (list Value) :=
  match n with
  | O => mret []
  | S n =>
      present ← (if ignore_holes then has_property i else mret true);
      if present : bool then
        value ← get i;
        values ← gather_values ignore_holes n (i + 1);
        mret (value :: values)
      else gather_values ignore_holes n (i + 1)
  end.

Definition sort_indexed_properties (ignore_holes is_typed_array : bool) (length : Z) (compare_function : Value)
    : SM W (list Value) :=
  values ← gather_values ignore_holes (Z.to_nat length) 0;
  merge_sort (fun v1 v2 =>
    if is_typed_array then compare_typed_array_elements compare_function v1 v2
    else compare_array_elements compare_function v1 v2) values.

Fixpoint write_values (i : Z) (values : list Value) : SM W unit :=
  match values with
  | [] => mret tt
  | value :: values => set i value ≫= fun _ => write_values (i + 1) values
  end.

Fixpoint delete_range (i : Z) (n : nat) : SM W unit :=
  match n with
  | O => mret tt
  | S n => delete_property_or_throw i ≫= fun _ => delete_range (i + 1) n
  end.

(** [Array.prototype.sort] of an object of the given length, with a checked comparison function. *)
Definition array_sort (len : Z) (compare_function : Value) : SM W unit :=
  sorted_values ← sort_indexed_properties true false len compare_function;
  write_values 0 sorted_values ≫= fun _ =>
  delete_range (Z.of_nat (length sorted_values)) (Z.to_nat (len - Z.of_nat (length sorted_values))).

End compare.

(** Sorting: for every comparison function the result is a permutation; for a consistent one it is
    sorted and stable; the default order of arrays is consistent. *)

Lemma half_bounds {A} (items : list A) :
  (1 < length items -> 1 <= length items / 2 < length items)%nat.
Proof. intros H. pose proof (Nat.div_mod_eq (length items) 2). pose proof (Nat.mod_upper_bound (length items) 2). lia. Qed.

(** ** Any comparison function *)

Section any.
Context {W : Type} (f : Value -> Value -> SM W comparison).

(** The step of the merge loop. *)
Lemma merge_cons v1 l1 v2 l2 w :
  merge f (v1 :: l1) (v2 :: l2) w =
  (ordering ← f v1 v2;
   if is_gt ordering then result ← merge f (v1 :: l1) l2; mret (v2 :: result)
   else result ← merge f l1 (v2 :: l2); mret (v1 :: result)) w.
Proof. done. Qed.

Lemma merge_nil_r l w : merge f l [] w = (EOk l, w).
Proof. by destruct l. Qed.

(** The results of an effectful step that succeeded. *)
Lemma sm_bind_ok {A B} (m : SM W A) (k : A -> SM W B) w b w' :
  (m ≫= k) w = (EOk b, w') -> exists a w1, m w = (EOk a, w1) /\ k a w1 = (EOk b, w').
Proof. unfold mbind, SM_bind. destruct (m w) as [[] w1]; [eauto|discriminate..]. Qed.

Lemma sm_bind_eq {A B} (m : SM W A) (k : A -> SM W B) w a w1 : m w = (EOk a, w1) -> (m ≫= k) w = k a w1.
Proof. unfold mbind, SM_bind. by intros ->. Qed.

Lemma merge_permutes l1 l2 w l w' : merge f l1 l2 w = (EOk l, w') -> l ≡ₚ l1 ++ l2.
Proof.
  revert l2 w l w'. induction l1 as [|v1 l1 IH1]; [by intros l2 w l w' [= <- _]|].
  induction l2 as [|v2 l2 IH2]; intros w l w'; [rewrite merge_nil_r; intros [= <- _]; by rewrite app_nil_r|].
  rewrite merge_cons. intros (o & w1 & _ & E)%sm_bind_ok. destruct (is_gt o).
  - apply sm_bind_ok in E as (r & w2 & E & [= <- _]). rewrite (IH2 _ _ _ E).
    by rewrite <-(Permutation_middle (v1 :: l1) l2 v2).
  - apply sm_bind_ok in E as (r & w2 & E & [= <- _]). by rewrite (IH1 _ _ _ _ E).
Qed.

Lemma merge_sort_permutes fuel items w l w' :
  merge_sort_fuel f fuel items w = (EOk l, w') -> l ≡ₚ items.
Proof.
  revert items w l w'. induction fuel as [|fuel IH]; intros items w l w'; cbn; [done|].
  destruct (length items <=? 1)%nat; [by intros [= <- _]|].
  intros (a & w1 & E1 & (b & w2 & E2 & E)%sm_bind_ok)%sm_bind_ok.
  rewrite (merge_permutes _ _ _ _ _ E), (IH _ _ _ _ E1), (IH _ _ _ _ E2). by rewrite take_drop.
Qed.

(** Running out of fuel comes from the comparison function only. *)
Lemma sm_bind_fuel {A B} (m : SM W A) (k : A -> SM W B) w :
  (forall w, (m w).1 <> EOutOfFuel) -> (forall a w, (k a w).1 <> EOutOfFuel) -> ((m ≫= k) w).1 <> EOutOfFuel.
Proof. intros Hm Hk. unfold mbind, SM_bind. specialize (Hm w). destruct (m w) as [[] w1]; cbn in *; auto; done. Qed.

Hypothesis Hf : forall v1 v2 w, (f v1 v2 w).1 <> EOutOfFuel.

Lemma merge_has_fuel l1 l2 w : (merge f l1 l2 w).1 <> EOutOfFuel.
Proof.
  revert l2 w. induction l1 as [|v1 l1 IH1]; [done|]. induction l2 as [|v2 l2 IH2]; intros w; [done|].
  rewrite merge_cons. apply sm_bind_fuel; [auto|]. intros o w1. destruct (is_gt o); apply sm_bind_fuel; auto; done.
Qed.

Lemma merge_sort_has_fuel fuel items w :
  (length items < fuel)%nat -> (merge_sort_fuel f fuel items w).1 <> EOutOfFuel.
Proof.
  revert items w. induction fuel as [|fuel IH]; intros items w Hl; [lia|]. cbn [merge_sort_fuel]. cbn zeta.
  destruct (Nat.leb_spec (length items) 1) as [|Hlen]; [done|].
  pose proof (half_bounds items Hlen).
  apply sm_bind_fuel; [intros w1; apply IH; rewrite length_take; lia|]. intros a w1.
  apply sm_bind_fuel; [intros w2; apply IH; rewrite length_drop; lia|]. intros b w2. apply merge_has_fuel.
Qed.

End any.

(** ** A consistent comparison function *)

(** The results do not depend on the world, and they are a total preorder on the elements. *)
Class Consistent {W} (f : Value -> Value -> SM W comparison) (P : Value -> Prop)
    (cmp : Value -> Value -> comparison) : Prop := {
  cons_result : forall v1 v2 w, P v1 -> P v2 -> (f v1 v2 w).1 = EOk (cmp v1 v2);
  cons_opp : forall v1 v2, P v1 -> P v2 -> cmp v2 v1 = CompOpp (cmp v1 v2);
  cons_trans : forall v1 v2 v3, P v1 -> P v2 -> P v3 -> cmp v1 v2 <> Gt -> cmp v2 v3 <> Gt -> cmp v1 v3 <> Gt
}.

Section consistent.
Context {W : Type} (f : Value -> Value -> SM W comparison) (P : Value -> Prop) (cmp : Value -> Value -> comparison)
  `{HC : !Consistent f P cmp}.

Definition le (a b : Value) : Prop := cmp a b <> Gt.
Definition equivalent_to (x : Value) (l : list Value) : list Value := filter (fun y => cmp x y = Eq) l.

(** Sorted, and elements that compare equal in their original order. *)
Definition sorted_stable (l items : list Value) : Prop :=
  StronglySorted le l /\ l ≡ₚ items /\ forall x, P x -> equivalent_to x l = equivalent_to x items.

Lemma consistent_step v1 v2 w : P v1 -> P v2 -> exists w', f v1 v2 w = (EOk (cmp v1 v2), w').
Proof. intros H1 H2. pose proof (cons_result v1 v2 w H1 H2) as E. destruct (f v1 v2 w) as [r w']. cbn in E. subst. eauto. Qed.

Lemma gt_le a b : P a -> P b -> cmp a b = Gt -> le b a.
Proof. intros Ha Hb E. unfold le. rewrite (cons_opp (f := f) a b) by done. by rewrite E. Qed.

Lemma le_all a b l :
  P a -> P b -> Forall P l -> le a b -> Forall (le b) l -> Forall (le a) (b :: l).
Proof.
  intros Ha Hb Hl Hab Hbl. constructor; [done|]. rewrite Forall_forall in *. intros x Hx.
  apply (cons_trans (f := f) a b x); auto. by apply Hbl.
Qed.

(** Smaller than the head of a sorted list: no element of the list is equivalent to it. *)
Lemma none_equivalent x v2 v1 l :
  P x -> P v1 -> P v2 -> Forall P l -> Forall (le v1) l -> cmp v1 v2 = Gt -> cmp x v2 = Eq ->
  equivalent_to x (v1 :: l) = [].
Proof.
  intros Hx H1 H2 Hl Hle Hgt Heq. unfold equivalent_to.
  assert (Hx1 : cmp v1 x <> Gt -> False).
  { intros Hle1. assert (cmp x v2 <> Gt) as Hx2 by congruence.
    by apply (cons_trans (f := f) v1 x v2) in Hx2. }
  assert (Hno : forall y, P y -> le v1 y -> cmp x y <> Eq).
  { intros y Hy Hv1y Exy. apply Hx1. apply (cons_trans (f := f) v1 y x); try done.
    rewrite (cons_opp (f := f) x y) by done. by rewrite Exy. }
  assert (Hall : Forall (fun y => cmp x y <> Eq) (v1 :: l)).
  { constructor.
    - apply Hno; [done|]. unfold le. pose proof (cons_opp (f := f) v1 v1 H1 H1) as Eo.
      destruct (cmp v1 v1); done.
    - rewrite Forall_forall in *. auto. }
  clear -Hall. induction (v1 :: l) as [|y r IH]; [done|]. inversion Hall; subst. rewrite filter_cons.
  case_decide; [done|auto].
Qed.

Lemma merge_sorts l1 l2 w :
  Forall P l1 -> Forall P l2 -> StronglySorted le l1 -> StronglySorted le l2 ->
  exists l w', merge f l1 l2 w = (EOk l, w') /\ sorted_stable l (l1 ++ l2).
Proof.
  revert l2 w. induction l1 as [|v1 l1 IH1].
  { intros l2 w _ _ _ Hs. exists l2, w. done. }
  induction l2 as [|v2 l2 IH2]; intros w HP1 HP2 Hs1 Hs2.
  { exists (v1 :: l1), w. rewrite merge_nil_r, app_nil_r. done. }
  pose proof HP1 as [Hp1 HPl1]%Forall_cons. pose proof HP2 as [Hp2 HPl2]%Forall_cons.
  pose proof Hs1 as [Hsl1 Hle1]%StronglySorted_inv. pose proof Hs2 as [Hsl2 Hle2]%StronglySorted_inv.
  rewrite merge_cons. destruct (consistent_step v1 v2 w Hp1 Hp2) as [w1 E]. unfold mbind at 1, SM_bind at 1. rewrite E.
  destruct (cmp v1 v2) eqn:Ecmp; cbn [is_gt].
  3: { destruct (IH2 w1 HP1 HPl2 Hs1 Hsl2) as (l & w2 & Em & Hsl & Hpl & Hel).
    unfold mbind, SM_bind. rewrite Em. exists (v2 :: l), w2. split; [done|]. split_and!.
    - constructor; [done|]. rewrite Hpl. apply Forall_app. split; [|done].
      apply le_all; try done. by apply gt_le.
    - rewrite Hpl. by rewrite <-(Permutation_middle (v1 :: l1) l2 v2).
    - intros x Hx. specialize (Hel x Hx). unfold equivalent_to in *. rewrite !filter_app in *.
      rewrite (filter_cons _ v2 l), (filter_cons _ v2 l2), Hel. case_decide; [|done]. pose proof (none_equivalent x v2 v1 l1) as Hn. unfold equivalent_to in Hn. by rewrite Hn. }
  all: assert (Hle : le v1 v2) by (unfold le; congruence).
  all: destruct (IH1 (v2 :: l2) w1 HPl1 HP2 Hsl1 Hs2) as (l & w2 & Em & Hsl & Hpl & Hel).
  all: unfold mbind, SM_bind; rewrite Em; exists (v1 :: l), w2; (split; [done|]); split_and!;
    [constructor; [done|]; rewrite Hpl; apply Forall_app; split; [done|by apply le_all]
    |by rewrite Hpl
    |intros x Hx; specialize (Hel x Hx); unfold equivalent_to in *; cbn [app]; rewrite !filter_cons, Hel; done].
Qed.

Lemma merge_sort_fuel_sorts fuel items w :
  (length items < fuel)%nat -> Forall P items ->
  exists l w', merge_sort_fuel f fuel items w = (EOk l, w') /\ sorted_stable l items.
Proof.
  revert items w. induction fuel as [|fuel IH]; intros items w Hl HP; [lia|]. cbn [merge_sort_fuel]. cbn zeta.
  destruct (Nat.leb_spec (length items) 1) as [Hlen|Hlen].
  - exists items, w. split; [done|]. split_and!; [|done|done]. destruct items as [|a [|]]; cbn in Hlen; [constructor|repeat constructor|lia].
  - pose proof (half_bounds items Hlen).
    set (half := (length items / 2)%nat) in *.
    destruct (IH (take half items) w) as (a & w1 & E1 & Hs1 & Hp1 & He1); [rewrite length_take; lia|by apply Forall_take|].
    destruct (IH (drop half items) w1) as (b & w2 & E2 & Hs2 & Hp2 & He2); [rewrite length_drop; lia|by apply Forall_drop|].
    unfold mbind, SM_bind. rewrite E1, E2.
    destruct (merge_sorts a b w2) as (l & w3 & E & Hs & Hp & He); [rewrite Hp1; by apply Forall_take|rewrite Hp2; by apply Forall_drop|done|done|].
    exists l, w3. split; [done|]. split_and!; [done|by rewrite Hp, Hp1, Hp2, take_drop|].
    intros x Hx. rewrite He by done. unfold equivalent_to in *. rewrite filter_app, He1, He2 by done.
    by rewrite <-filter_app, take_drop.
Qed.

End consistent.

(** [merge_sort] with any comparison function, whatever effects it has, does not run out of
    fuel by itself, and when it returns a list, that is a permutation of the elements; with a
    comparison function whose results are a total preorder on the elements it returns, and the
    list is sorted and stable: elements that compare equal keep their order. *)
Theorem merge_sort_is_correct {W} (f : Value -> Value -> SM W comparison) items w :
  (forall l w', merge_sort f items w = (EOk l, w') -> l ≡ₚ items) /\
  ((forall v1 v2 w, (f v1 v2 w).1 <> EOutOfFuel) -> (merge_sort f items w).1 <> EOutOfFuel) /\
  forall P cmp, Consistent f P cmp -> Forall P items ->
    exists l w', merge_sort f items w = (EOk l, w') /\ sorted_stable P cmp l items.
Proof.
  split_and!.
  - intros l w' E. by eapply merge_sort_permutes.
  - intros Hf. apply merge_sort_has_fuel; [done|lia].
  - intros P cmp HC HP. apply merge_sort_fuel_sorts; [done|lia|done].
Qed.

(** ** The default order *)

Lemma flat_string_cmp_opp u1 u2 : flat_string_cmp u2 u1 = CompOpp (flat_string_cmp u1 u2).
Proof.
  revert u2. induction u1 as [|x u1 IH]; intros [|y u2]; cbn; try done.
  destruct (Z.ltb_spec x y), (Z.ltb_spec y x); try lia; done.
Qed.

Lemma flat_string_cmp_trans u1 u2 u3 :
  flat_string_cmp u1 u2 <> Gt -> flat_string_cmp u2 u3 <> Gt -> flat_string_cmp u1 u3 <> Gt.
Proof.
  revert u2 u3. induction u1 as [|x u1 IH]; intros [|y u2] [|z u3]; cbn; try done.
  destruct (Z.ltb_spec x y), (Z.ltb_spec y x), (Z.ltb_spec y z), (Z.ltb_spec z y), (Z.ltb_spec x z), (Z.ltb_spec z x);
    try lia; try done. apply IH.
Qed.

Section default.
Context {W : Type} (heap : ItemHeap) (convert_object : Value -> ToPrimitivePreferredType -> EvalResult Value)
  (parse_string_to_number : list Z -> option f64) (parse_string_to_bigint : list Z -> option Z)
  (f64_to_bigint : f64 -> option Z) (call_object : Value -> Value -> list Value -> SM W Value)
  (to_string : Value -> SM W Value) (str : Value -> Value).

(** Elements whose conversion to a string succeeds with a result that does not depend on the
    world. *)
Definition converts (v : Value) : Prop :=
  is_undefined v = true \/
  (is_string heap (str v) = true /\ forall w, (to_string v w).1 = EOk (str v)).

(** Undefined is last, the others are ordered by the code units of their strings. *)
Definition default_cmp (v1 v2 : Value) : comparison :=
  match is_undefined v1, is_undefined v2 with
  | true, true => Eq
  | true, false => Gt
  | false, true => Lt
  | false, false => flat_string_cmp (units_of heap (str v1)) (units_of heap (str v2))
  end.

Lemma is_less_than_strings s1 s2 :
  is_string heap s1 = true -> is_string heap s2 = true ->
  is_less_than heap convert_object parse_string_to_number parse_string_to_bigint f64_to_bigint s1 s2 =
  EOk (bool_value (is_lt (flat_string_cmp (units_of heap s1) (units_of heap s2)))).
Proof.
  unfold is_string, is_less_than. destruct (is_pointer s1), (is_pointer s2); cbn; try done.
  intros E1%Kind.kind_eqb_eq E2%Kind.kind_eqb_eq. by rewrite E1, E2.
Qed.

#[local] Instance default_consistent :
  Consistent (compare_array_elements heap convert_object parse_string_to_number parse_string_to_bigint f64_to_bigint
    call_object to_string undefined) converts default_cmp.
Proof.
  split.
  - intros v1 v2 w H1 H2. unfold compare_array_elements, default_cmp.
    change (is_undefined undefined) with true. destruct (is_undefined v1) eqn:U1, (is_undefined v2) eqn:U2; cbn [andb negb]; try done.
    destruct H1 as [H1|[S1 C1]]; [congruence|]. destruct H2 as [H2|[S2 C2]]; [congruence|].
    specialize (C1 w). destruct (to_string v1 w) as [r1 w1] eqn:E1. cbn in C1. subst r1.
    specialize (C2 w1). destruct (to_string v2 w1) as [r2 w2] eqn:E2. cbn in C2. subst r2.
    rewrite (sm_bind_eq _ _ _ _ _ E1), (sm_bind_eq _ _ _ _ _ E2). unfold lift_result.
    rewrite !is_less_than_strings by done.
    rewrite (flat_string_cmp_opp (units_of heap (str v1)) (units_of heap (str v2))).
    by destruct (flat_string_cmp (units_of heap (str v1)) (units_of heap (str v2))).
  - intros v1 v2 _ _. unfold default_cmp. destruct (is_undefined v1), (is_undefined v2); try done. apply flat_string_cmp_opp.
  - intros v1 v2 v3 _ _ _. unfold default_cmp. destruct (is_undefined v1), (is_undefined v2), (is_undefined v3); try done.
    apply flat_string_cmp_trans.
Qed.


End default.

(** ** An example *)

(** The array [undefined, "b", "a"] and its strings; strings are their own conversions. *)
Definition string_items : ItemHeap :=
  mkItemHeap (fun _ => Kind.String) (fun a => if a =? 16 then [97] else [98]) (fun _ => 0) (fun _ => 0).
Definition no_convert (v : Value) (_ : ToPrimitivePreferredType) : EvalResult Value := EOk v.
Definition no_number (_ : list Z) : option f64 := None.
Definition no_bigint (_ : list Z) : option Z := None.
Definition no_f64_bigint (_ : f64) : option Z := None.
Definition undefined_call (_ _ : Value) (_ : list Value) : SM unit Value := mret undefined.
Definition element (i : Z) : Value := if i =? 0 then undefined else if i =? 1 then heap_item 32 else heap_item 16.


Example default_sorted :
  sort_indexed_properties string_items no_convert no_number no_bigint no_f64_bigint undefined_call
    (fun v => mret v) (fun _ => mret true) (fun i => mret (element i)) true false 3 undefined tt =
  (EOk [heap_item 16; heap_item 32; undefined], tt).
Proof. by vm_compute. Qed.

(** A comparison function that returns undefined reverses neighbours.  ECMA-262 converts its
    result to a number and treats NaN as zero; the code looks for NaN before the conversion only,
    and the NaN that undefined converts to is taken for a positive number. *)
Theorem undefined_comparison_is_greater :
  call_compare_function string_items no_convert no_number undefined_call (heap_item 64) (smi 1) (smi 2) tt = (EOk Gt, tt) /\
  merge_sort (call_compare_function string_items no_convert no_number undefined_call (heap_item 64)) [smi 1; smi 2] tt =
    (EOk [smi 2; smi 1], tt).
Proof. by vm_compute. Qed.
